(* ===== verification/_CoqProject ===== *)
-Q . S2P
Prelude.v
Pattern.v
Ledger.v
Fifo.v
CircuitBreaker.v
MemoryBudget.v
OriginLoadGate.v
JsValue.v
Utf8.v
TxKeys.v
TxScript.v
TxProtocol.v
TxSafety.v
TxStore.v
TxEndToEnd.v
WorkGate.v
L2Gate.v
TxGate.v
TxTransport.v
TxLease.v
WirePolicy.v
MessagePackScan.v
JsonScan.v
Codecs.v
Serializer.v
PortableSerializer.v
KvWire.v
HandlerQueue.v
RetryQueue.v
JsMap.v
KeyGuard.v
CacheOptions.v
Counted.v
EventBus.v
Coordination.v
CoordinationOk.v
CoordinationAnswers.v
Lru.v
MemoryStore.v
Uri.v
RedisKeys.v
RedisServer.v
RedisLease.v
RedisStore.v
RedisStoreOk.v
HybridCache.v
L1Store.v
HybridWorld.v
HybridOk.v
HybridDemo.v
LockWait.v
DistributedLock.v
EventCodec.v
BusQueues.v
RedisEventBus.v
NatsEventBus.v
RabbitEventBus.v
BusPublish.v
NatsJetStream.v
BusTrust.v
KvNamespace.v
KvStore.v
CloudflareEvents.v
WorkerCache.v
RedisHealth.v
RedisCapabilities.v
EventEncoding.v
CacheEvents.v
Prometheus.v
ObsOptions.v
ObsHandler.v
KvRest.v
Setup.v
JsRuntime.v
MemorySignals.v
MemoryLimits.v
LoaderTimeout.v
CacheFrame.v
BusHealth.v
StoreInspection.v
