(* ===== verification/Prelude.v ===== *)
(** * LazyLayers: a verification development

    LazyLayers ([src/src]) is a multi-tier cache library for TypeScript: a
    process-local tier (L1), a shared tier (L2, Redis or a key-value store), an
    invalidation bus between processes, single-flight origin loads, and an
    operation-coordination protocol on Redis that gives an external side effect
    a durable, unique result. This library models the decision logic of these
    parts as executable functions and proves what makes each correct.

    ** Layout: files and the code they model

    Shared: [Prelude] (results, JavaScript numbers, UTF-8 lengths, sums,
    reachability of event-driven machines, the tactics [bools] and [cases]);
    [Ledger] (the type class of a byte budget: what MemoryBudget promises to its
    clients); [Fifo] (queues and logs); [JsValue], [Utf8] (JavaScript values,
    UTF-8 encoding and the strict validator); [JsMap], [Counted] (insertion
    ordered maps, and maps with a byte counter).

    - [Pattern]: cache/pattern.ts, glob matching with its KMP search.
    - [CircuitBreaker]: cache/circuitBreaker.ts, the three-state breaker.
    - [MemoryBudget]: cache/memoryBudget.ts, the byte ledger; it is the instance
      of [Ledger] every client theorem is proved against.
    - [OriginLoadGate], [WorkGate], [L2Gate], [TxGate]: cache/originLoadGate.ts,
      cache/l2OperationGate.ts and the gate of transactions/redisTransport.ts,
      bounded first-in first-out admission; [WorkGate] holds what the last two
      share.
    - [TxKeys], [TxScript], [TxProtocol], [TxSafety], [TxStore], [TxEndToEnd],
      [TxTransport], [TxLease]: transactions/*.ts. [TxScript] is the Lua script
      of scripts.ts line by line, [TxProtocol] its abstraction to a state
      machine on the record of one key, [TxSafety] the guarantees over every
      history of the key, [TxStore] the client with its reply decoders,
      [TxEndToEnd] the agreement of client and script, [TxTransport] the
      EVALSHA/EVAL fallback, [TxLease] the lease controller.
    - [WirePolicy], [MessagePackScan], [JsonScan], [Codecs], [Serializer],
      [PortableSerializer], [KvWire]: utils/*.ts and cloudflare/kvWire.ts, the
      record formats and the bounded decoders of both runtimes.
    - [HandlerQueue], [RetryQueue]: event-bus/handlerQueue.ts and retryQueue.ts.
    - [CacheOptions], [KeyGuard], [Coordination], [CoordinationOk],
      [CoordinationAnswers]: cache/hybridCache.ts, its options, mutation guards
      and coordination state.
    - [Lru], [MemoryStore], [L1Store]: cache/memoryStore.ts over the interface of
      the LRU package it uses, with the admission filter and its accounting;
      [L1Store] is the class of what the cache relies on of its local store, and
      [MemoryStore] its instance.
    - [Uri], [RedisKeys], [RedisServer], [RedisLease], [RedisStore],
      [RedisStoreOk]: cache/redisStore.ts and redisPipeline.ts. [RedisKeys] is
      the key layout, [RedisServer] the server as a class of documented laws,
      [RedisLease] the Lua programs and every history of their commands,
      [RedisStore] the store's operations as programs that may fail or be
      interleaved at every command, [RedisStoreOk] what they send and answer.
    - [DistributedLock]: cache/distributedLock.ts, the lease of a load, and its
      run against the server of [RedisLease].
    - [HybridCache], [HybridWorld], [HybridOk], [HybridDemo]: the asynchronous
      methods of cache/hybridCache.ts as programs over named effects, any number
      of them running interleaved over guards and a local store, the discipline
      every operation keeps with what it guarantees, and a concrete run.
      [LockWait] runs the same programs against a clock.
    - [EventCodec]: event-bus/eventCodec.ts, what an invalidation event is.
    - [EventBus], [BusQueues], [RedisEventBus], [NatsEventBus],
      [RabbitEventBus], [BusTrust]: the contract between an event bus and the
      cache's trust in invalidations, the delivery queues the buses share (class
      [QueueHost]), the three buses of event-bus/*.ts as instances, and the
      cache's side of the contract. [BusPublish] is the publishing side over the
      retry queue, [NatsJetStream] the JetStream mode of the NATS bus.
    - [KvNamespace], [KvStore]: cache/cloudflareKvStore.ts and the store of
      cloudflare/index.ts, over the class [Namespace] of what a KV namespace
      offers: a service that may reply anything ([service_namespace]), and one that has
      settled ([SettledNamespace], with the instance [page_namespace]).
    - [CloudflareEvents]: cloudflare/invalidationQueue.ts and
      cloudflare-events/index.ts, the messages of the platform's queues.
    - [WorkerCache]: the request-scoped facade of cloudflare/index.ts as a state
      machine over calls, answers and continuations.
    - [RedisHealth], [RedisCapabilities]: cache/redisHealth.ts and
      cache/redisCapabilities.ts, the health report, and the discovery of the
      server's commands with its bounded replies and registry.
    - [KvRest]: cache/cloudflareKvRest.ts, the KV client over HTTP and the paths
      it sends.
    - [EventEncoding], [CacheEvents], [Prometheus]: cache/events.ts and the
      modules of observability/ that encode, count, keep and expose them:
      eventEncoding.ts, collector.ts, prometheus.ts. The encoder's fuel is its
      own depth limit, nine levels.
    - [ObsOptions], [ObsHandler]: observability/types.ts and handler.ts, the
      dashboard's options, who may see what, and its live feeds.
    - [Setup]: setup.ts, what a managed startup asks for, checks, returns and
      releases.
    - [JsRuntime]: what the sources use of the runtime: [Number(text)] and
      the arithmetic of doubles, [split] and the POSIX paths.
    - [MemorySignals], [MemoryLimits]: cache/memorySignals.ts, the control groups of
      the process and what they say of its memory, and the limits, the constructor
      and the shared instance of cache/memoryBudget.ts.
    - [LoaderTimeout], [CacheFrame]: the loader deadlines of cache/hybridCache.ts,
      its constructor and event handlers, with observability/inspector.ts, server.ts
      and telemetry.ts.
    - [BusHealth]: connect and healthCheck of the Redis and the NATS bus.
    - [StoreInspection]: the pages of the stores that the dashboard shows.
    ** How the parts interact

    The hybrid cache, the origin gate and the L2 gate charge the memory budget
    through [Ledger]; their accounting theorems hold for any ledger and are
    instantiated with [MemoryBudget]. Both serializers share the tags and limits
    of [WirePolicy] and validate input with [Utf8], [MessagePackScan] and
    [JsonScan] before they decode. The operation store sends commands through
    the gate and the transport to the script; [TxEndToEnd] composes the three.
    Pattern deletions of the cache call [Pattern]; every write of the cache asks
    a guard of [KeyGuard] first, and [HybridOk] shows that this is enough: its
    programs run over any [L1Store], whose instance is the memory store. The
    lease controller of a load runs against the Redis scripts, and the store's
    operations send only commands of that protocol. Invalidation messages pass
    a codec, a bounded delivery queue and a bus; [BusTrust] composes the bus
    with the cache's trust through the class [TrustedBus]. The KV stores are
    programs over [Namespace]; the Worker facade takes their answers as events.

    ** Modelling conventions

    A stateful class is a record and its methods are functions on it; what a
    method calls back or sends is a list of outputs. Concurrency is a history: a
    machine takes one event per run of synchronous code (a call up to its next
    [await], a settlement, a timer), and theorems quantify over every sequence
    of events ([reachable]). Clock readings are arguments, one per call of
    [Date.now] or [performance.now]. Thrown errors are [Throw] of [result].
    JavaScript strings are lists of UTF-16 code units and buffers lists of
    bytes, both as [Z]; numbers are [Z] where the code has checked a safe
    integer, [jsnum] (rationals, infinities, NaN) where it validates one, and
    IEEE doubles ([SpecFloat]) where the bits matter (KV expiry, savings
    threshold). Code outside src/ is a parameter: the compressors, msgpackr and
    JSON are records of functions with named laws, Redis' cjson is a class.

    ** What the theorems show

    Safety: pattern matching is the glob relation; results of coordinated
    operations are durable and unique and leases exclusive for every history of
    a key; a transport call has at most one effect; guards are sound; no stale
    value is read from L1 or sent to L2, in every interleaving of operations; a
    publication under a lease is fenced and leases of a key exclude one another;
    a cache that trusts its bus has missed no invalidation; negative and stale
    answers always trace back to an event that nothing has overtaken.
    Invariants: the budget, the gates, both queues and the coordination maps
    account every byte and respect every bound in every history. Equivalence:
    the validators accept exactly their specifications. Round trips: records
    written by either runtime read back in both, and events, Redis keys and the
    Redis store's values do. Refinement: the client's decoders understand exactly
    what the script answers; the Redis store keeps the lease protocol, the lock
    lease is held on the server while it is owned locally, and the three buses keep
    the bus contract in the histories their [in_service] names: none is being
    disconnected; on Redis no [subscribe] is rejected; on NATS the server is prompt,
    a subscription ends with its connection and only [subscribe] dials. The files
    of the buses show what goes wrong outside. Platform stores: whatever a KV
    service replies, a pattern purge deletes exactly what it is shown and matches;
    on a namespace that has settled it removes all that matches or, on a Worker,
    nothing; a Worker facade puts nothing into its memory that is older than its
    last mutation of the key, though others who share that memory may. Liveness: a RabbitMQ bus
    without a consumer has a recovery under way. Messages: the event of a failed
    publication is never lost unseen, and JetStream deliveries are answered once,
    in order. Dashboard: it shows itself only to whom it may, its feeds stay within
    their limits, and its encoder and its ring implement plain references. Startup
    and surroundings: a failed setup leaves no client behind, the effective memory
    is the least of the limits that bind the process, a loader's deadline decides
    as its race is settled, and paging the in-memory store shows every matching key
    exactly once.

    ** Bounds and fuel

    Loops over input run on fuel computed from it: the MessagePack scan takes
    the buffer length plus one and the proof shows the result does not depend on
    more; KMP loops count down the value length; eviction loops take the number
    of entries, with [evict_while_terminates] showing that more changes nothing.
    Listings of a KV namespace take one unit of fuel per page: a purge runs out of
    it exactly when as many pages went on, and on a settled namespace the theorems
    ask for more than [pages], which go down with each page.
    The polling loop of the distributed lock is bounded by the clock in the code;
    its fuel is a number of turns, the safety theorems hold for every number, and
    [lock_wait_ends] shows that one turn per poll interval of the wait is enough.

    ** Not modelled
    Network and process I/O (the HTTP listener, the page of the dashboard with its
    script, reading of files, console output), the broker client libraries,
    type-only and index files, examples, documentation, benchmarks and the web
    site. The loader is an effect of the cache's programs, whose deadline
    [LoaderTimeout] models; the clients, stores and buses that setup constructs are
    its arguments, and so is whether the parts of a cache can be made. The retry
    queue's [onOverflow] is taken not to throw. The byte ledger adds integers; the
    source adds doubles, which are exact up to 2^53 bytes.
*)

From Stdlib Require Export ZArith QArith Lia.
From stdpp Require Export base list numbers option strings gmap sorting.

#[global] Open Scope Z_scope.
#[global] Set Default Goal Selector "!".
#[export] Set Warnings "-clear-no-such-hyp".

(** ** Notations of the development *)

Declare Scope js_scope.
Delimit Scope js_scope with js.
#[global] Open Scope js_scope.

(** [a ?? b] is the nullish coalescing operator on optional values. *)
Notation "a ?? b" := (default b a) (at level 60, right associativity) : js_scope.

(** A JavaScript string is its sequence of UTF-16 code units; a byte buffer
    is its sequence of bytes. Both are lists of [Z]. *)
Abbreviation jsstring := (list Z).
Abbreviation bytes := (list Z).

(** ASCII literals of the source. *)
Fixpoint js (s : string) : jsstring :=
  match s with
  | EmptyString => []
  | String c s' => Z.of_N (Ascii.N_of_ascii c) :: js s'
  end.

Lemma js_inj s t : js s = js t → s = t.
Proof.
  revert t. induction s as [|c s IH]; intros [|d t]; simpl; try done.
  intros [= Hc Ht]. apply N2Z.inj in Hc. f_equal; [|by apply IH].
  by rewrite <- (Ascii.ascii_N_embedding c), <- (Ascii.ascii_N_embedding d), Hc.
Qed.

Arguments js : simpl never.

(** ** Results: a value or a thrown error *)

Inductive result (E A : Type) : Type :=
| Ok (a : A)
| Throw (e : E).
Arguments Ok {E A} a.
Arguments Throw {E A} e.

Definition rbind {E A B} (m : result E A) (k : A → result E B) : result E B :=
  match m with Ok a => k a | Throw e => Throw e end.

Notation "x <~ m ;; k" := (rbind m (λ x, k))
  (at level 100, m at next level, right associativity) : js_scope.

(** [guard_ok b e] throws [e] unless the condition holds. *)
Definition guard_ok {E} (b : bool) (e : E) : result E unit :=
  if b then Ok tt else Throw e.

Lemma rbind_ok {E A B} (m : result E A) (k : A → result E B) b :
  rbind m k = Ok b ↔ ∃ a, m = Ok a ∧ k a = Ok b.
Proof.
  destruct m as [a|e]; simpl; split.
  - by eauto.
  - by intros (? & [= ->] & ?).
  - done.
  - by intros (? & ? & ?).
Qed.

Lemma guard_ok_ok {E} b (e : E) : guard_ok b e = Ok tt ↔ b = true.
Proof. destruct b; naive_solver. Qed.

Definition is_ok {E A} (m : result E A) : bool :=
  match m with Ok _ => true | Throw _ => false end.

(** ** JavaScript numbers

    A number is a rational, an infinity or NaN: enough to state the guards
    ([Number.isFinite], [Number.isSafeInteger], comparisons) exactly. Once a
    guard has accepted an integer, the models continue with [Z]. *)

Inductive jsnum : Type :=
| JNum (q : Q)
| JInf (negative : bool)
| JNaN.

Definition JInt (z : Z) : jsnum := JNum (inject_Z z).

Definition MAX_SAFE_INTEGER : Z := 2 ^ 53 - 1.

Definition num_is_finite (n : jsnum) : bool :=
  match n with JNum _ => true | _ => false end.

Definition num_is_integer (n : jsnum) : bool :=
  match n with
  | JNum q => Qnum q mod Zpos (Qden q) =? 0
  | _ => false
  end.

(** [Math.floor] of a finite number; [0] otherwise (never used there). *)
Definition num_floor (n : jsnum) : Z :=
  match n with
  | JNum q => Qnum q / Zpos (Qden q)
  | _ => 0
  end.

Definition safe_int (z : Z) : bool := Z.abs z <=? MAX_SAFE_INTEGER.

Definition num_is_safe_integer (n : jsnum) : bool :=
  num_is_integer n && safe_int (num_floor n).

Definition num_lt (a b : jsnum) : bool :=
  match a, b with
  | JNum p, JNum q => Qnum p * Zpos (Qden q) <? Qnum q * Zpos (Qden p)
  | JNum _, JInf false => true
  | JInf true, JNum _ => true
  | JInf true, JInf false => true
  | _, _ => false
  end.

Definition num_le (a b : jsnum) : bool :=
  match a, b with
  | JNum p, JNum q => Qnum p * Zpos (Qden q) <=? Qnum q * Zpos (Qden p)
  | JNum _, JInf false => true
  | JInf true, JNum _ => true
  | JInf s, JInf t => s || negb t
  | _, _ => false
  end.

Lemma num_floor_JInt z : num_floor (JInt z) = z.
Proof. unfold num_floor, JInt, inject_Z; simpl. apply Z.div_1_r. Qed.

Lemma num_is_safe_integer_JInt z : num_is_safe_integer (JInt z) = safe_int z.
Proof.
  unfold num_is_safe_integer. rewrite num_floor_JInt. unfold JInt; simpl.
  by rewrite Z.mod_1_r.
Qed.

(** ** UTF-8 length of a JavaScript string

    [Buffer.byteLength(s, 'utf8')]: a lone surrogate is replaced by U+FFFD,
    three bytes; a surrogate pair takes four. *)

Definition is_high_surrogate (u : Z) : bool := (0xd800 <=? u) && (u <=? 0xdbff).
Definition is_low_surrogate (u : Z) : bool := (0xdc00 <=? u) && (u <=? 0xdfff).

Fixpoint utf8_length (s : jsstring) : Z :=
  match s with
  | [] => 0
  | u :: s' =>
      if u <? 0x80 then 1 + utf8_length s'
      else if u <? 0x800 then 2 + utf8_length s'
      else if is_high_surrogate u then
        match s' with
        | v :: s'' => if is_low_surrogate v then 4 + utf8_length s''
                      else 3 + utf8_length s'
        | [] => 3
        end
      else 3 + utf8_length s'
  end.

Lemma utf8_length_nonneg s : 0 <= utf8_length s.
Proof.
  remember (length s) as n eqn:Hn.
  revert s Hn. induction n as [n IH] using lt_wf_ind; intros s ->.
  destruct s as [|u s]; [simpl; lia|]. simpl.
  assert (0 <= utf8_length s) by (eapply IH; [|done]; simpl; lia).
  repeat case_match; subst; try lia.
  match goal with |- context [utf8_length ?t] =>
    assert (0 <= utf8_length t) by (eapply IH; [|done]; simpl; lia) end.
  lia.
Qed.

(** ** Sums of byte counts *)

Definition sumZ {A} (f : A → Z) (l : list A) : Z := foldr (λ a s, f a + s) 0 l.

Section sumZ.
Context {A : Type} (f : A → Z).

Lemma sumZ_nil : sumZ f [] = 0.
Proof. done. Qed.

Lemma sumZ_cons a l : sumZ f (a :: l) = f a + sumZ f l.
Proof. done. Qed.

Lemma sumZ_app l k : sumZ f (l ++ k) = sumZ f l + sumZ f k.
Proof. induction l as [|a l IH]; simpl; [done|]. rewrite IH. lia. Qed.

Lemma sumZ_nonneg l : (∀ a, a ∈ l → 0 <= f a) → 0 <= sumZ f l.
Proof.
  induction l as [|a l IH]; simpl; intros H; [lia|].
  assert (0 <= f a) by (apply H; left).
  assert (0 <= sumZ f l) by (apply IH; intros; apply H; by right). lia.
Qed.

Lemma sumZ_perm l k : l ≡ₚ k → sumZ f l = sumZ f k.
Proof. induction 1; simpl in *; lia. Qed.

Lemma sumZ_elem a l : (∀ b, b ∈ l → 0 <= f b) → a ∈ l → f a <= sumZ f l.
Proof.
  intros Hpos Ha. apply list_elem_of_split in Ha as (l1 & l2 & ->).
  rewrite sumZ_app, sumZ_cons.
  assert (0 <= sumZ f l1) by (apply sumZ_nonneg; intros; apply Hpos; set_solver).
  assert (0 <= sumZ f l2) by (apply sumZ_nonneg; intros; apply Hpos; set_solver).
  lia.
Qed.
End sumZ.

Create HintDb jsdb.
#[export] Hint Resolve utf8_length_nonneg : jsdb.

(** ** Reachability

    The reflexive and transitive closure of a labelled, executable step. *)

Section reach.
Context {S E : Type} (step : S → E → S).

Inductive reachable (init : S) : S → Prop :=
| reach_init : reachable init init
| reach_step s e : reachable init s → reachable init (step s e).

Definition run_events (s : S) (es : list E) : S := foldl step s es.

Lemma reachable_run init es : reachable init (run_events init es).
Proof.
  induction es as [|e es IH] using rev_ind; [constructor|].
  unfold run_events in *. rewrite foldl_app; simpl. by constructor.
Qed.

(** Rule induction packaged for invariants. *)
Lemma reachable_invariant init (P : S → Prop) :
  P init → (∀ s e, P s → P (step s e)) → ∀ s, reachable init s → P s.
Proof. intros H0 Hs s; induction 1; auto. Qed.
End reach.

(** ** Automation *)

(** Split a boolean conjunction or comparison into propositions. *)
Ltac bools :=
  repeat match goal with
  | H : _ && _ = true |- _ => apply andb_true_iff in H as [? ?]
  | H : _ || _ = false |- _ => apply orb_false_iff in H as [? ?]
  | H : negb _ = true |- _ => apply negb_true_iff in H
  | H : negb _ = false |- _ => apply negb_false_iff in H
  | H : (_ <? _) = true |- _ => apply Z.ltb_lt in H
  | H : (_ <? _) = false |- _ => apply Z.ltb_ge in H
  | H : (_ <=? _) = true |- _ => apply Z.leb_le in H
  | H : (_ <=? _) = false |- _ => apply Z.leb_gt in H
  | H : (_ =? _) = true |- _ => apply Z.eqb_eq in H
  | H : (_ =? _) = false |- _ => apply Z.eqb_neq in H
  | H : bool_decide _ = true |- _ => apply bool_decide_eq_true in H
  | H : bool_decide _ = false |- _ => apply bool_decide_eq_false in H
  end.

(** Case analysis on every test the goal is stuck on. *)
Ltac cases := repeat (case_match; simpl in *; simplify_eq/=); bools.
