(* ===== verification/Pattern.v ===== *)
(** * Pattern matching of cache keys ([src/src/cache/pattern.ts])

    [matchesPattern] splits the pattern at ['*'] and searches the literal
    segments left to right with Knuth-Morris-Pratt. The file models the
    failure table, the search and the matcher as written, and proves the
    search leftmost and the matcher equivalent to a declarative glob relation
    in which ['*'] stands for any run of code units without a line
    terminator. *)

From S2P Require Import Prelude.

(** ** The source *)

Definition star : Z := 42.

(** [isLineTerminator] *)
Definition isLineTerminator (code : Z) : bool :=
  (code =? 10) || (code =? 13) || (code =? 0x2028) || (code =? 0x2029).

(** [value.slice(start, end)] for [start <= end]. *)
Definition slice (s : jsstring) (start stop : nat) : jsstring :=
  take (stop - start) (drop start s).

(** [hasLineTerminator] *)
Definition hasLineTerminator (value : jsstring) (start stop : nat) : bool :=
  existsb isLineTerminator (slice value start stop).

(** [pattern.split('*')] *)
Fixpoint split_star (p : jsstring) : list jsstring :=
  match p with
  | [] => [[]]
  | c :: p' =>
      match split_star p' with
      | [] => [[]]
      | s :: ss => if c =? star then [] :: s :: ss else (c :: s) :: ss
      end
  end.

(** The inner loop
    [while (matched > 0 && c !== literal[matched]) matched = failure[matched - 1]].
    [fuel] bounds the iterations; [fall_exit] shows that [matched] is enough. *)
Fixpoint fall (fuel : nat) (literal : jsstring) (failure : list nat)
    (c : option Z) (matched : nat) : nat :=
  match fuel with
  | O => matched
  | S fuel' =>
      if bool_decide (0 < matched)%nat && negb (bool_decide (c = literal !! matched))
      then fall fuel' literal failure c (default O (failure !! (matched - 1)%nat))
      else matched
  end.

(** One iteration of either loop body: fall back, then extend on a match. *)
Definition advance (literal : jsstring) (failure : list nat) (c : option Z)
    (matched : nat) : nat :=
  let m := fall matched literal failure c matched in
  if bool_decide (c = literal !! m) then S m else m.

(** The failure-table loop, [n] iterations from [index]. *)
Fixpoint build_failure (n : nat) (literal : jsstring) (index matched : nat)
    (failure : list nat) : list nat :=
  match n with
  | O => failure
  | S n' =>
      let m := advance literal failure (literal !! index) matched in
      build_failure n' literal (S index) m (<[index := m]> failure)
  end.

Definition failure_table (literal : jsstring) : list nat :=
  build_failure (length literal - 1) literal 1 0 (replicate (length literal) 0%nat).

(** The search loop, [n] iterations from [index]. *)
Fixpoint search (n : nat) (value literal : jsstring) (failure : list nat)
    (index matched : nat) : option nat :=
  match n with
  | O => None
  | S n' =>
      let m := advance literal failure (value !! index) matched in
      if bool_decide (m = length literal) then Some (S index - length literal)%nat
      else search n' value literal failure (S index) m
  end.

(** [findLiteral]: [None] is the source's [-1]. *)
Definition findLiteral (value literal : jsstring) (start stop : nat) : option nat :=
  search (stop - start) value literal (failure_table literal) start 0.

Definition starts_with (v p : jsstring) : bool := bool_decide (take (length p) v = p).
Definition ends_with (v p : jsstring) : bool :=
  bool_decide (length p ≤ length v)%nat &&
  bool_decide (drop (length v - length p) v = p).

(** The loop over the interior segments. *)
Fixpoint match_segments (value : jsstring) (segs : list jsstring)
    (position stop : nat) : bool :=
  match segs with
  | [] => negb (hasLineTerminator value position stop)
  | literal :: segs' =>
      if bool_decide (literal = []) then match_segments value segs' position stop
      else match findLiteral value literal position stop with
           | None => false
           | Some found =>
               if hasLineTerminator value position found then false
               else match_segments value segs' (found + length literal) stop
           end
  end.

(** [matchesPattern] *)
Definition matchesPattern (value pattern : jsstring) : bool :=
  if bool_decide (pattern = [star]) then true
  else if negb (bool_decide (star ∈ pattern)) then bool_decide (value = pattern)
  else
    let parts := split_star pattern in
    let first := default [] (head parts) in
    let last := default [] (last parts) in
    if negb (starts_with value first) || negb (ends_with value last) then false
    else
      let position := length first in
      let stop := (length value - length last)%nat in
      if bool_decide (stop < position)%nat then false
      else match_segments value (removelast (tail parts)) position stop.

Example match_demo1 : matchesPattern (js "user:42:name") (js "user:*:n*") = true.
Proof. vm_compute. reflexivity. Qed.
Example match_demo2 : matchesPattern (js "aabaaabaaac") (js "*aabaaac") = true.
Proof. vm_compute. reflexivity. Qed.
Example match_demo3 : matchesPattern [97; 10; 98] (js "a*b") = false.
Proof. vm_compute. reflexivity. Qed.

(** ** Specification *)

(** The glob relation: a literal code unit matches itself, ['*'] any run
    without line terminators. *)
Inductive glob : jsstring → jsstring → Prop :=
| glob_nil : glob [] []
| glob_lit c p v : c ≠ star → glob p v → glob (c :: p) (c :: v)
| glob_star p w v :
    Forall (λ c, isLineTerminator c = false) w → glob p v → glob (star :: p) (w ++ v).

(** [p] is the leftmost occurrence of [literal] inside [start, stop). *)
Definition occurs_at (value literal : jsstring) (p : nat) : Prop :=
  take (length literal) (drop p value) = literal.

(** ** Knuth-Morris-Pratt *)

(** [isb lit T k]: the first [k] units of [lit] end the text [T]. *)
Definition isb (lit T : jsstring) (k : nat) : Prop :=
  (k ≤ length lit)%nat ∧ take k lit `suffix_of` T.

(** [m] is the longest such [k]. *)
Definition longest (lit T : jsstring) (m : nat) : Prop :=
  isb lit T m ∧ ∀ k, isb lit T k → (k ≤ m)%nat.

(** The table is right below [n]: entry [j] is the longest proper border of
    the first [j + 1] units, that is the longest prefix ending
    [literal[1..j]]. *)
Definition table_ok (lit : jsstring) (failure : list nat) (n : nat) : Prop :=
  ∀ j, (j < n)%nat → ∃ f, failure !! j = Some f ∧
    longest lit (drop 1 (take (S j) lit)) f.

Lemma isb_0 lit T : isb lit T 0.
Proof. split; [lia|]. apply suffix_nil. Qed.

Lemma isb_length lit T k : isb lit T k → (k ≤ length T)%nat.
Proof.
  intros [Hk Hs]. apply suffix_length in Hs. rewrite length_take in Hs. lia.
Qed.

Lemma take_snoc_lookup (l : jsstring) k c :
  l !! k = Some c → take (S k) l = take k l ++ [c].
Proof. intros H. by apply take_S_r. Qed.

Lemma isb_snoc lit T c k : isb lit (T ++ [c]) (S k) ↔ isb lit T k ∧ lit !! k = Some c.
Proof.
  split.
  - intros [Hk Hs].
    destruct (lookup_lt_is_Some_2 lit k) as [d Hd]; [lia|].
    rewrite (take_snoc_lookup _ _ _ Hd) in Hs.
    apply suffix_snoc_inv_1 in Hs as Hdc. subst.
    apply suffix_snoc_inv_2 in Hs. repeat split; auto; lia.
  - intros [[Hk Hs] Hc]. split.
    + apply lookup_lt_Some in Hc. lia.
    + rewrite (take_snoc_lookup _ _ _ Hc). by apply suffix_snoc.
Qed.

Lemma suffix_comparable (l1 l2 T : jsstring) :
  l1 `suffix_of` T → l2 `suffix_of` T → (length l1 ≤ length l2)%nat → l1 `suffix_of` l2.
Proof.
  intros [k1 E1] [k2 E2] Hlen. subst T.
  apply app_eq_inv in E2 as [(k & -> & ->) | (k & -> & ->)]; [by exists k|].
  rewrite length_app in Hlen. assert (k = []) as -> by (destruct k; simpl in *; [done|lia]).
  by exists [].
Qed.

Lemma suffix_proper (lit : jsstring) m k :
  (k < m)%nat → (m ≤ length lit)%nat →
  take k lit `suffix_of` take m lit ↔ take k lit `suffix_of` drop 1 (take m lit).
Proof.
  intros Hk Hm. split; intros H.
  - eapply suffix_comparable; [exact H|apply suffix_drop|].
    rewrite length_drop, !length_take. lia.
  - etrans; [exact H|]. apply suffix_drop.
Qed.

(** The prefixes ending [T] shorter than [m] are those of the table entry. *)
Lemma border_step lit T m f :
  (0 < m)%nat → isb lit T m → longest lit (drop 1 (take m lit)) f →
  isb lit T f ∧ (f < m)%nat ∧ ∀ k, isb lit T k → (k < m)%nat → (k ≤ f)%nat.
Proof.
  intros Hm [Hml Hms] [Hf Hmax].
  assert (Hlt : (f < m)%nat).
  { apply isb_length in Hf. rewrite length_drop, length_take in Hf. lia. }
  destruct Hf as [Hfl Hfs]. repeat split; [done| |done|].
  - etrans; [|exact Hms]. apply suffix_proper; auto.
  - intros k [Hkl Hks] Hkm. apply Hmax. split; [done|].
    apply suffix_proper; [done..|].
    eapply suffix_comparable; [exact Hks|exact Hms|]. rewrite !length_take. lia.
Qed.

(** The fallback loop visits every prefix ending [T] in decreasing order, so
    it stops on the longest that [c] extends; [matched] iterations suffice. *)
Lemma fall_spec lit failure T c fuel m :
  (m ≤ fuel)%nat → table_ok lit failure m → isb lit T m →
  (∀ k, isb lit T k → (m < k)%nat → lit !! k ≠ Some c) →
  let r := fall fuel lit failure (Some c) m in
  isb lit T r ∧ (∀ k, isb lit T k → (r < k)%nat → lit !! k ≠ Some c) ∧
  (r = 0%nat ∨ lit !! r = Some c).
Proof.
  revert m. induction fuel as [|fuel IH]; intros m Hfuel Htab Hm Hno; simpl.
  { assert (m = 0%nat) as -> by lia. auto. }
  case_bool_decide as Hpos; simpl; [|assert (m = 0%nat) as -> by lia; auto].
  case_bool_decide as Heq; simpl; [by auto|].
  destruct (Htab (m - 1)%nat) as (f & Hf & Hlf); [lia|].
  rewrite Hf; simpl. replace (S (m - 1)) with m in Hlf by lia.
  destruct (border_step _ _ _ _ Hpos Hm Hlf) as (Hbf & Hfm & Hmax).
  apply IH; [lia| |done|].
  - intros j Hj. apply Htab. lia.
  - intros k Hk Hfk. destruct (decide (m < k)%nat) as [?|Hnm]; [by apply Hno|].
    destruct (decide (k = m)) as [->|Hne]; [congruence|].
    assert (k ≤ f)%nat by (apply Hmax; [done|lia]). lia.
Qed.

Lemma fall_exit (literal : jsstring) (failure : list nat) c fuel m :
  (m ≤ fuel)%nat → (∀ j f, failure !! j = Some f → (f ≤ j)%nat) →
  let r := fall fuel literal failure c m in r = 0%nat ∨ c = literal !! r.
Proof.
  intros Hm Hdec. revert m Hm. induction fuel as [|fuel IH]; intros m Hm; simpl.
  { left; lia. }
  case_bool_decide; simpl; [|left; lia].
  case_bool_decide; simpl; [by right|].
  apply IH. destruct (failure !! (m - 1)%nat) eqn:E; simpl; [|lia].
  apply Hdec in E. lia.
Qed.

Lemma advance_spec lit failure T c m :
  table_ok lit failure m → longest lit T m → (m < length lit)%nat →
  longest lit (T ++ [c]) (advance lit failure (Some c) m).
Proof.
  intros Htab [Hm Hmax] Hlt. unfold advance.
  destruct (fall_spec lit failure T c m m) as (Hr & Hno & Hend); [lia|done..| |].
  { intros k Hk Hmk. specialize (Hmax _ Hk). lia. }
  set (r := fall m lit failure (Some c) m) in *.
  assert (Hcase : ∀ k, isb lit (T ++ [c]) k →
            k = 0%nat ∨ ∃ k', k = S k' ∧ isb lit T k' ∧ lit !! k' = Some c).
  { intros [|k'] Hk; [by left|]. apply isb_snoc in Hk as [? ?]. right. eauto. }
  case_bool_decide as Hc.
  - split; [by apply isb_snoc|].
    intros k [->|(k' & -> & Hk' & Hl)]%Hcase; [lia|].
    destruct (decide (r < k')%nat); [|lia]. by destruct (Hno k').
  - destruct Hend as [Hr0|?]; [|congruence]. rewrite Hr0 in *.
    split; [apply isb_0|].
    intros k [->|(k' & -> & Hk' & Hl)]%Hcase; [lia|].
    destruct (decide (k' = 0)%nat) as [->|]; [congruence|].
    destruct (Hno k'); [done|lia|done].
Qed.

(** Below the length of the text nothing longer can match. *)
Lemma longest_le lit T m : longest lit T m → (m ≤ length T)%nat.
Proof. intros [H _]. by apply isb_length in H. Qed.

Lemma longest_unique lit T m m' : longest lit T m → longest lit T m' → m = m'.
Proof. intros [? H] [? H']. apply Nat.le_antisymm; auto. Qed.

Lemma longest_nil lit : longest lit [] 0.
Proof. split; [apply isb_0|]. intros k Hk%isb_length. done. Qed.

Lemma drop1_take_snoc (l : jsstring) i c :
  (0 < i)%nat → l !! i = Some c → drop 1 (take (S i) l) = drop 1 (take i l) ++ [c].
Proof.
  intros Hi Hc. rewrite (take_snoc_lookup _ _ _ Hc), drop_app_le; [done|].
  rewrite length_take. apply lookup_lt_Some in Hc. lia.
Qed.

Lemma build_failure_spec lit n index m failure :
  (0 < index)%nat → (index + n = length lit)%nat → length failure = length lit →
  table_ok lit failure index → longest lit (drop 1 (take index lit)) m →
  table_ok lit (build_failure n lit index m failure) (length lit).
Proof.
  revert index m failure. induction n as [|n IH]; intros index m failure Hi Hn Hlen Htab Hm; simpl.
  { by replace (length lit) with index by lia. }
  destruct (lookup_lt_is_Some_2 lit index) as [c Hc]; [lia|]. rewrite Hc.
  assert (Hml : (m < index)%nat).
  { apply longest_le in Hm. rewrite length_drop, length_take in Hm. lia. }
  assert (Hadv : longest lit (drop 1 (take (S index) lit)) (advance lit failure (Some c) m)).
  { rewrite (drop1_take_snoc _ _ _ Hi Hc). apply advance_spec; [|done|lia].
    intros j Hj. apply Htab. lia. }
  apply IH; [lia|lia|by rewrite length_insert| |done].
  intros j Hj. destruct (decide (j = index)) as [->|Hne].
  - eexists. split; [|exact Hadv]. rewrite list_lookup_insert_eq; [done|lia].
  - rewrite list_lookup_insert_ne by done. apply Htab. lia.
Qed.

Lemma failure_table_ok lit : table_ok lit (failure_table lit) (length lit).
Proof.
  unfold failure_table. destruct lit as [|a l] eqn:E; [intros j; simpl; lia|].
  rewrite <- E. assert (Hl : length lit = S (length l)) by (subst; done).
  apply build_failure_spec; [lia|lia|by rewrite length_replicate| |].
  - intros j Hj. exists 0%nat. rewrite lookup_replicate_2 by lia. split; [done|].
    replace j with 0%nat by lia. subst. apply longest_nil.
  - subst. apply longest_nil.
Qed.

(** ** The search is leftmost *)

Lemma take_drop_snoc (v : jsstring) start i c :
  (start ≤ i)%nat → v !! i = Some c →
  drop start (take (S i) v) = drop start (take i v) ++ [c].
Proof.
  intros Hi Hc. rewrite (take_snoc_lookup _ _ _ Hc), drop_app_le; [done|].
  rewrite length_take. apply lookup_lt_Some in Hc. lia.
Qed.

(** Ending the scanned text with the whole literal is an occurrence. *)
Lemma full_border_occurs value lit start index :
  (start ≤ index)%nat → (index ≤ length value)%nat →
  isb lit (drop start (take index value)) (length lit) ↔
  (start + length lit ≤ index)%nat ∧ occurs_at value lit (index - length lit).
Proof.
  intros Hsi Hiv. unfold isb, occurs_at. rewrite firstn_all.
  assert (Hl : length (drop start (take index value)) = (index - start)%nat).
  { rewrite length_drop, length_take. lia. }
  split.
  - intros [_ Hs]. pose proof (suffix_length _ _ Hs) as Hle. rewrite Hl in Hle.
    split; [lia|]. destruct Hs as [k Hk].
    assert (length k = (index - start - length lit)%nat) as Hkl.
    { rewrite Hk, length_app in Hl. lia. }
    assert (Hd : drop (index - length lit) (take index value) = lit).
    { replace (index - length lit)%nat with (start + length k)%nat by lia.
      rewrite <- drop_drop, Hk. apply drop_app_length. }
    rewrite skipn_firstn_comm in Hd.
    by replace (index - (index - length lit))%nat with (length lit) in Hd by lia.
  - intros [Hle Hocc]. split; [done|].
    exists (take (index - length lit - start) (drop start value)).
    rewrite !skipn_firstn_comm. rewrite <- Hocc at 2.
    replace (drop (index - length lit) value)
      with (drop (index - length lit - start) (drop start value))
      by (rewrite drop_drop; f_equal; lia).
    rewrite <- (take_drop (index - length lit - start) (take (index - start) (drop start value))).
    f_equal.
    + rewrite take_take. f_equal. lia.
    + rewrite skipn_firstn_comm. f_equal. lia.
Qed.

Definition leftmost (value lit : jsstring) (start stop : nat) (p : nat) : Prop :=
  (start ≤ p)%nat ∧ (p + length lit ≤ stop)%nat ∧ occurs_at value lit p ∧
  ∀ q, (start ≤ q)%nat → (q < p)%nat → ~ occurs_at value lit q.

Lemma search_spec value lit start n index m :
  lit ≠ [] → (start ≤ index)%nat → (index + n ≤ length value)%nat →
  longest lit (drop start (take index value)) m → (m < length lit)%nat →
  (∀ q, (start ≤ q)%nat → (q + length lit ≤ index)%nat → ~ occurs_at value lit q) →
  match search n value lit (failure_table lit) index m with
  | Some p => leftmost value lit start (index + n) p
  | None => ∀ q, (start ≤ q)%nat → (q + length lit ≤ index + n)%nat → ~ occurs_at value lit q
  end.
Proof.
  intros Hne. revert index m. induction n as [|n IH]; intros index m Hsi Hin Hm Hml Hno; simpl.
  { intros q Hq Hqi. apply Hno; lia. }
  destruct (lookup_lt_is_Some_2 value index) as [c Hc]; [lia|]. rewrite Hc.
  assert (Hadv : longest lit (drop start (take (S index) value))
                   (advance lit (failure_table lit) (Some c) m)).
  { rewrite (take_drop_snoc _ _ _ _ Hsi Hc). apply advance_spec; [|done|done].
    intros j Hj. apply failure_table_ok. lia. }
  set (m' := advance lit (failure_table lit) (Some c) m) in *.
  case_bool_decide as Hfull.
  - destruct Hadv as [Hb _]. rewrite Hfull in Hb.
    apply full_border_occurs in Hb as [Hle Hocc]; [|lia|lia].
    repeat split; [lia|lia|done|]. intros q Hq Hqp. apply Hno; lia.
  - assert (Hm'l : (m' < length lit)%nat) by (destruct Hadv as [[? _] _]; lia).
    replace (index + S n)%nat with (S index + n)%nat by lia.
    apply IH; [lia|lia|done|done|].
    intros q Hq Hqi Hocc. destruct (decide (q + length lit ≤ index)%nat); [by apply (Hno q)|].
    assert (isb lit (drop start (take (S index) value)) (length lit)) as Hb.
    { apply full_border_occurs; [lia|lia|]. split; [lia|].
      by replace (S index - length lit)%nat with q by lia. }
    apply Hadv in Hb. lia.
Qed.

Lemma findLiteral_spec value lit start stop :
  lit ≠ [] → (start ≤ stop)%nat → (stop ≤ length value)%nat →
  match findLiteral value lit start stop with
  | Some p => leftmost value lit start stop p
  | None => ∀ q, (start ≤ q)%nat → (q + length lit ≤ stop)%nat → ~ occurs_at value lit q
  end.
Proof.
  intros Hne Hss Hsv. unfold findLiteral.
  pose proof (search_spec value lit start (stop - start) start 0 Hne) as H.
  replace (start + (stop - start))%nat with stop in H by lia.
  apply H; [lia|lia| | |].
  - rewrite drop_ge by (rewrite length_take; lia). apply longest_nil.
  - destruct lit; simpl; [done|lia].
  - intros q Hq Hqi _. destruct lit; simpl in *; [done|lia].
Qed.

(** [findLiteral] (KMP) returns the least position of the range at which
    the literal occurs, and fails exactly when there is none. *)
Theorem findLiteral_leftmost value lit start stop :
  lit ≠ [] → (start ≤ stop)%nat → (stop ≤ length value)%nat →
  (∀ p, findLiteral value lit start stop = Some p ↔ leftmost value lit start stop p) ∧
  (findLiteral value lit start stop = None ↔
   ∀ q, (start ≤ q)%nat → (q + length lit ≤ stop)%nat → ~ occurs_at value lit q).
Proof.
  intros Hne Hss Hsv. pose proof (findLiteral_spec value lit start stop Hne Hss Hsv) as H.
  split.
  - intros p. destruct (findLiteral value lit start stop) as [p'|].
    + split; [by intros [= <-]|]. intros (H1 & H2 & H3 & H4).
      destruct H as (G1 & G2 & G3 & G4). f_equal.
      destruct (lt_eq_lt_dec p' p) as [[Hlt| ->]|Hlt]; [|done|].
      * by destruct (H4 p').
      * by destruct (G4 p).
    + split; [done|]. intros (H1 & H2 & H3 & _). by destruct (H p).
  - destruct (findLiteral value lit start stop) as [p'|]; [|done].
    split; [done|]. intros Hall. destruct H as (G1 & G2 & G3 & _). by destruct (Hall p').
Qed.

Lemma findLiteral_leftmost_witness :
  findLiteral (js "xabab") (js "ab") 1 5 = Some 1%nat.
Proof.
  apply findLiteral_leftmost; [discriminate|simpl; lia|simpl; lia|].
  split; [lia|]. split; [simpl; lia|]. split; [reflexivity|]. intros q ? ?; lia.
Defined.

(** ** The matcher decides the glob relation *)

Definition clean (w : jsstring) : Prop := Forall (λ c, isLineTerminator c = false) w.

(** Literals in order, each after a clean gap; the last one ends the value. *)
Fixpoint gsegs (segs : list jsstring) (v : jsstring) : Prop :=
  match segs with
  | [] => v = []
  | l :: segs' => ∃ g v', clean g ∧ v = g ++ l ++ v' ∧ gsegs segs' v'
  end.

(** The same for interior literals, with a clean gap at the end. *)
Fixpoint gmid (segs : list jsstring) (v : jsstring) : Prop :=
  match segs with
  | [] => clean v
  | l :: segs' => ∃ g v', clean g ∧ v = g ++ l ++ v' ∧ gmid segs' v'
  end.

Lemma clean_app u v : clean (u ++ v) ↔ clean u ∧ clean v.
Proof. apply Forall_app. Qed.

Lemma clean_existsb v : clean v ↔ existsb isLineTerminator v = false.
Proof.
  induction v as [|c v IH]; simpl; [split; [done|constructor]|].
  unfold clean in *. rewrite Forall_cons, IH, orb_false_iff. done.
Qed.

Lemma split_star_nonempty p : split_star p ≠ [].
Proof. induction p as [|c p IH]; simpl; [done|]. destruct (split_star p); [done|]. by case_match. Qed.

Lemma gmid_clean_app h segs v : clean h → gmid segs v → gmid segs (h ++ v).
Proof.
  intros Hh. destruct segs as [|l segs]; simpl; [by rewrite clean_app|].
  intros (g & v' & Hg & -> & H). exists (h ++ g), v'. rewrite clean_app, <- app_assoc. auto.
Qed.

Lemma gsegs_clean_app h l segs v : clean h → gsegs (l :: segs) v → gsegs (l :: segs) (h ++ v).
Proof.
  intros Hh (g & v' & Hg & -> & H). exists (h ++ g), v'.
  rewrite clean_app, <- app_assoc. auto.
Qed.

(** The glob relation in terms of the split pattern. *)
Lemma glob_split p v :
  glob p v ↔ ∃ l segs v', split_star p = l :: segs ∧ v = l ++ v' ∧ gsegs segs v'.
Proof.
  revert v. induction p as [|c p IH]; intros v; simpl.
  { split.
    - inversion 1; subst. exists [], [], []. done.
    - intros (l & segs & v' & [= <- <-] & -> & ->). constructor. }
  destruct (split_star p) as [|s ss] eqn:Hs; [by destruct (split_star_nonempty p)|].
  case_match eqn:Hc; bools.
  - subst c. split.
    + inversion 1 as [|c' p' v0 Hne Hg0|p' w v0 Hw Hg0]; subst; [done|].
      apply IH in Hg0 as (l & segs & v' & [= <- <-] & -> & Hg).
      exists [], (s :: ss), (w ++ s ++ v'). repeat split. exists w, v'. auto.
    + intros (l & segs & v' & [= <- <-] & -> & g & v'' & Hg & -> & H); simpl.
      apply glob_star; [done|]. apply IH. eauto 10.
  - split.
    + inversion 1 as [|c' p' v0 Hne Hg0|p' w v0 Hw Hg0]; subst; [|done].
      apply IH in Hg0 as (l & segs & v' & [= <- <-] & -> & Hg).
      exists (c :: s), ss, v'. auto.
    + intros (l & segs & v' & [= <- <-] & -> & Hg); simpl.
      apply glob_lit; [done|]. apply IH. eauto 10.
Qed.

(** Anchoring the last literal. *)
Lemma gsegs_snoc segs l v : gsegs (segs ++ [l]) v ↔ ∃ core, v = core ++ l ∧ gmid segs core.
Proof.
  revert v. induction segs as [|l' segs IH]; intros v; simpl.
  - split.
    + intros (g & v' & Hg & -> & ->). exists g. by rewrite app_nil_r.
    + intros (core & -> & Hc). exists core, []. by rewrite app_nil_r.
  - split.
    + intros (g & v' & Hg & -> & (core & -> & Hc)%IH).
      exists (g ++ l' ++ core). rewrite <- !app_assoc. eauto 10.
    + intros (core & -> & g & v' & Hg & -> & Hc).
      exists g, (v' ++ l). rewrite <- !app_assoc. split; [done|]. split; [done|].
      apply IH. eauto.
Qed.

Lemma slice_length (v : jsstring) a b :
  (a ≤ b)%nat → (b ≤ length v)%nat → length (slice v a b) = (b - a)%nat.
Proof. intros. unfold slice. rewrite length_take, length_drop. lia. Qed.

Lemma slice_lookup (v : jsstring) a b i :
  (b ≤ length v)%nat → (i < b - a)%nat → slice v a b !! i = v !! (a + i)%nat.
Proof. intros. unfold slice. rewrite lookup_take_lt by lia. by rewrite lookup_drop. Qed.

Lemma slice_split (v : jsstring) a m b :
  (a ≤ m)%nat → (m ≤ b)%nat → slice v a b = slice v a m ++ slice v m b.
Proof.
  intros Ham Hmb. unfold slice.
  rewrite <- (take_drop (m - a) (take (b - a) (drop a v))). f_equal.
  - rewrite take_take. f_equal. lia.
  - rewrite skipn_firstn_comm, drop_drop. f_equal; [lia|]. f_equal. lia.
Qed.

Lemma occurs_slice v lit p :
  occurs_at v lit p → slice v p (p + length lit) = lit.
Proof. unfold occurs_at, slice. by replace (p + length lit - p)%nat with (length lit) by lia. Qed.

Lemma clean_lookup (v : jsstring) :
  clean v ↔ ∀ i c, v !! i = Some c → isLineTerminator c = false.
Proof. apply Forall_lookup. Qed.

Lemma occurs_lookup (v lit : jsstring) p i :
  occurs_at v lit p → (i < length lit)%nat → v !! (p + i)%nat = lit !! i.
Proof.
  intros Ho Hi. unfold occurs_at in Ho. rewrite <- Ho.
  rewrite lookup_take_lt by done. by rewrite lookup_drop.
Qed.

(** Moving a literal from a later occurrence [q] to an earlier one [p] keeps
    what lies between clean: a terminator there would repeat, by the overlap
    of the two occurrences, inside the clean gap before [q]. *)
Lemma exchange_clean v lit a p q b :
  (a ≤ p)%nat → (p ≤ q)%nat → (q + length lit ≤ b)%nat → (b ≤ length v)%nat →
  occurs_at v lit p → occurs_at v lit q → clean (slice v a q) →
  clean (slice v (p + length lit) (q + length lit)).
Proof.
  intros Hap Hpq Hqb Hb Hp Hq Hgap.
  destruct (decide (p = q)) as [->|Hne].
  { unfold slice. rewrite Nat.sub_diag, take_0. constructor. }
  assert (Hall : ∀ x c, (p ≤ x)%nat → (x < q + length lit)%nat → v !! x = Some c →
            isLineTerminator c = false).
  { induction x as [x IH] using lt_wf_ind. intros c Hpx Hxq Hx.
    destruct (decide (x < q)%nat) as [Hlt|Hge].
    - rewrite clean_lookup in Hgap. apply (Hgap (x - a)%nat).
      rewrite slice_lookup by lia. by replace (a + (x - a))%nat with x by lia.
    - apply (IH (p + (x - q))%nat); [lia..|].
      rewrite (occurs_lookup _ _ _ _ Hp), <- (occurs_lookup _ _ _ _ Hq) by lia.
      by replace (q + (x - q))%nat with x by lia. }
  apply clean_lookup. intros i c Hi.
  destruct (decide (i < q - p)%nat) as [?|?].
  - rewrite slice_lookup in Hi by lia. apply Hall in Hi; [done|lia|lia].
  - apply lookup_lt_Some in Hi. unfold slice in Hi. rewrite length_take in Hi. lia.
Qed.

(** A match of the segments locates an occurrence of the first literal. *)
Lemma gmid_cons_occurs value lit segs position stop :
  (position ≤ stop)%nat → (stop ≤ length value)%nat →
  gmid (lit :: segs) (slice value position stop) →
  ∃ q, (position ≤ q)%nat ∧ (q + length lit ≤ stop)%nat ∧ occurs_at value lit q ∧
       clean (slice value position q) ∧ gmid segs (slice value (q + length lit) stop).
Proof.
  intros Hps Hsv (g & v' & Hg & Heq & Hm).
  pose proof (f_equal length Heq) as Hlen.
  rewrite slice_length, !length_app in Hlen by lia.
  exists (position + length g)%nat. split; [lia|]. split; [lia|].
  assert (Hd : drop (length g) (slice value position stop) = lit ++ v').
  { rewrite Heq. apply drop_app_length. }
  unfold slice in Hd. rewrite skipn_firstn_comm, drop_drop in Hd.
  remember (position + length g)%nat as q eqn:Hq.
  replace (stop - position - length g)%nat with (stop - q)%nat in Hd by lia.
  split; [|split].
  - unfold occurs_at. transitivity (take (length lit) (lit ++ v')).
    + rewrite <- Hd, take_take. f_equal. lia.
    + apply take_app_length.
  - replace (slice value position q) with g; [done|].
    rewrite (slice_split _ position q stop) in Heq by lia.
    apply app_inj_1 in Heq as [Heq _]; [done|]. rewrite slice_length; lia.
  - replace (slice value (q + length lit) stop) with v'; [done|].
    unfold slice. replace (stop - (q + length lit))%nat with (stop - q - length lit)%nat by lia.
    rewrite <- drop_drop, <- skipn_firstn_comm, Hd. by rewrite drop_app_length.
Qed.

(** A value with a prefix and a suffix that do not overlap. *)
Lemma affix_core (v f l w u : jsstring) :
  v = f ++ w → v = u ++ l → (length f ≤ length v - length l)%nat →
  v = f ++ slice v (length f) (length v - length l) ++ l.
Proof.
  intros Hf Hl Hle. pose proof (f_equal length Hl) as Hlen. rewrite length_app in Hlen.
  assert (Hu : length u = (length v - length l)%nat) by lia.
  rewrite <- Hu in *. rewrite app_assoc.
  assert (Ht : f ++ slice v (length f) (length u) = u).
  { transitivity (take (length u) v).
    - rewrite <- (take_drop (length f) (take (length u) v)). f_equal.
      + rewrite take_take, Nat.min_l by done. by rewrite Hf, take_app_length.
      + unfold slice. by rewrite skipn_firstn_comm.
    - by rewrite Hl, take_app_length. }
  by rewrite Ht.
Qed.

(** The greedy loop is exact. *)
Lemma match_segments_spec value segs position stop :
  (position ≤ stop)%nat → (stop ≤ length value)%nat →
  match_segments value segs position stop = true ↔ gmid segs (slice value position stop).
Proof.
  intros Hps Hsv. revert position Hps.
  induction segs as [|lit segs IH]; intros position Hps; simpl.
  { unfold hasLineTerminator. rewrite negb_true_iff, <- clean_existsb. done. }
  case_bool_decide as Hemp.
  { subst lit. rewrite IH by done. split.
    - intros H. exists [], (slice value position stop). repeat split; [constructor|done].
    - intros (g & v' & Hg & -> & H). by apply gmid_clean_app. }
  pose proof (findLiteral_spec value lit position stop Hemp Hps Hsv) as Hfind.
  destruct (findLiteral value lit position stop) as [p|].
  - destruct Hfind as (Hp1 & Hp2 & Hocc & Hleft).
    unfold hasLineTerminator at 1. destruct (existsb _ _) eqn:Hlt.
    + split; [done|]. intros H. exfalso.
      destruct (gmid_cons_occurs _ _ _ _ _ Hps Hsv H) as (q & Hq1 & Hq2 & Hqo & Hgap & _).
      assert (p ≤ q)%nat as Hpq by (destruct (decide (q < p)%nat); [by destruct (Hleft q)|lia]).
      rewrite (slice_split _ _ p) in Hgap by lia. apply clean_app in Hgap as [Hgap _].
      apply clean_existsb in Hgap. congruence.
    + rewrite IH by lia. apply clean_existsb in Hlt. split.
      * intros H. exists (slice value position p), (slice value (p + length lit) stop).
        split; [done|]. split; [|done].
        rewrite (slice_split _ position p stop), (slice_split _ p (p + length lit) stop) by lia.
        by rewrite occurs_slice.
      * intros H.
        destruct (gmid_cons_occurs _ _ _ _ _ Hps Hsv H) as (q & Hq1 & Hq2 & Hqo & Hgap & Hr).
        assert (p ≤ q)%nat as Hpq by (destruct (decide (q < p)%nat); [by destruct (Hleft q)|lia]).
        rewrite (slice_split _ (p + length lit) (q + length lit)) by lia.
        apply gmid_clean_app; [|done]. by eapply exchange_clean.
  - split; [done|]. intros H.
    destruct (gmid_cons_occurs _ _ _ _ _ Hps Hsv H) as (q & Hq1 & Hq2 & Hqo & _).
    by destruct (Hfind q).
Qed.

Lemma starts_with_spec v p : starts_with v p = true ↔ ∃ w, v = p ++ w.
Proof.
  unfold starts_with. rewrite bool_decide_eq_true. split.
  - intros H. exists (drop (length p) v). by rewrite <- H at 1; rewrite take_drop.
  - intros [w ->]. apply take_app_length.
Qed.

Lemma ends_with_spec v p : ends_with v p = true ↔ ∃ w, v = w ++ p.
Proof.
  unfold ends_with. rewrite andb_true_iff, !bool_decide_eq_true. split.
  - intros [Hl H]. exists (take (length v - length p) v). rewrite <- H at 2.
    by rewrite take_drop.
  - intros [w ->]. rewrite length_app. split; [lia|].
    replace (length w + length p - length p)%nat with (length w) by lia.
    apply drop_app_length.
Qed.

Lemma split_star_no_star p : star ∉ p → split_star p = [p].
Proof.
  induction p as [|c p IH]; simpl; [done|]. intros Hp. rewrite not_elem_of_cons in Hp.
  destruct Hp as [Hc Hp]. rewrite IH by done.
  destruct (c =? star) eqn:E; bools; [congruence|done].
Qed.

Lemma split_star_two p : star ∈ p → ∃ f m l, split_star p = f :: m ++ [l].
Proof.
  induction p as [|c p IH]; intros Hp; [by apply not_elem_of_nil in Hp|]. simpl.
  destruct (split_star p) as [|s ss] eqn:Hs; [by destruct (split_star_nonempty p)|].
  destruct (c =? star) eqn:E; bools.
  - exists []. destruct (exists_last (l := s :: ss)) as (m & l & Hml); [done|].
    exists m, l. by rewrite Hml.
  - apply elem_of_cons in Hp as [?|Hp]; [congruence|].
    destruct (IH Hp) as (f & m & l & Heq). simplify_eq. by eexists _, m, l.
Qed.

Lemma glob_no_star p v : star ∉ p → glob p v ↔ v = p.
Proof.
  intros Hp. rewrite glob_split, (split_star_no_star p Hp). split.
  - intros (l & segs & v' & [= <- <-] & -> & ->). apply app_nil_r.
  - intros ->. exists p, [], []. by rewrite app_nil_r.
Qed.

(** The matcher decides the glob relation. *)
Lemma matchesPattern_spec value pattern :
  matchesPattern value pattern = true ↔ pattern = [star] ∨ glob pattern value.
Proof.
  unfold matchesPattern. case_bool_decide as Huniv; [tauto|].
  case_bool_decide as Hstar; simpl.
  2:{ rewrite bool_decide_eq_true, glob_no_star by done. tauto. }
  destruct (split_star_two _ Hstar) as (f & m & l & Hsplit). rewrite glob_split, Hsplit.
  rewrite (app_comm_cons m [l] f), last_snoc, <- app_comm_cons. cbn [head tail default].
  rewrite removelast_last; simpl.
  transitivity (∃ core, value = f ++ core ++ l ∧ gmid m core).
  2:{ split.
      - intros (core & -> & Hm). right. exists f, (m ++ [l]), (core ++ l).
        split; [done|]. split; [done|]. apply gsegs_snoc. eauto.
      - intros [?|(f' & segs & v' & [= <- <-] & -> & Hg)]; [done|].
        apply gsegs_snoc in Hg as (core & -> & Hm). eauto. }
  destruct (starts_with value f) eqn:Hf; simpl.
  2:{ split; [done|]. intros (core & -> & _).
      assert (starts_with (f ++ core ++ l) f = true) by (apply starts_with_spec; eauto).
      congruence. }
  destruct (ends_with value l) eqn:Hl; simpl.
  2:{ split; [done|]. intros (core & -> & _).
      assert (ends_with (f ++ core ++ l) l = true).
      { apply ends_with_spec. exists (f ++ core). by rewrite app_assoc. }
      congruence. }
  apply starts_with_spec in Hf as [w Hw]. apply ends_with_spec in Hl as [u Hu].
  assert (Hlv : (length l ≤ length value)%nat) by (rewrite Hu, length_app; lia).
  case_bool_decide as Hord.
  { split; [done|]. intros (core & Hv & _).
    apply (f_equal length) in Hv. rewrite !length_app in Hv. lia. }
  rewrite match_segments_spec by lia. split.
  - intros Hm. exists (slice value (length f) (length value - length l)). split; [|done].
    eapply affix_core; [done..|lia].
  - intros (core & Hv & Hm).
    replace (slice value (length f) (length value - length l)) with core; [done|].
    rewrite Hv. unfold slice. rewrite !length_app, drop_app_length.
    replace (length f + (length core + length l) - length l - length f)%nat
      with (length core) by lia. by rewrite take_app_length.
Qed.

(** C3: for every value and pattern, [matchesPattern] answers [true] exactly
    when the pattern is the universal ["*"] or the value is in its glob
    language. *)
Theorem matchesPattern_glob value pattern :
  matchesPattern value pattern = true ↔ pattern = [star] ∨ glob pattern value.
Proof. apply matchesPattern_spec. Qed.
