(* ===== verification/Ledger.v ===== *)
(** * The byte-ledger interface

    What the memory budget ([src/src/cache/memoryBudget.ts]) promises to the
    components that account bytes with it: the origin gate, the hybrid cache's
    coordination maps, its stale entries. A client only reserves and refunds
    bytes under a category; its theorems are proved against this interface and
    [MemoryBudget.v] discharges the laws. *)

From S2P Require Import Prelude.

Class LedgerOps (L : Type) := {
  reserve : string → Z → L → L * bool;
  refund : string → Z → L → L;
  balance : string → L → Z;
  ledger_inv : L → Prop;
}.

Class Ledger (L : Type) `{LedgerOps L} := {
  reserve_accepts l l' c b :
    ledger_inv l → 0 <= b → reserve c b l = (l', true) →
    ledger_inv l' ∧ balance c l' = balance c l + b ∧
    ∀ c', c' ≠ c → balance c' l' = balance c' l;
  reserve_refuses l l' c b :
    ledger_inv l → 0 <= b → reserve c b l = (l', false) →
    ledger_inv l' ∧ ∀ c', balance c' l' = balance c' l;
  refund_exact l c b :
    ledger_inv l → 0 <= b <= balance c l →
    ledger_inv (refund c b l) ∧ balance c (refund c b l) = balance c l - b ∧
    ∀ c', c' ≠ c → balance c' (refund c b l) = balance c' l;
}.

(** The optional budget of the source: [!this.memoryBudget ||
    this.memoryBudget.tryReserve(...)] and [this.memoryBudget?.release(...)]. *)
Section optional.
Context {L : Type} `{Ledger L}.

Definition opt_reserve (c : string) (b : Z) (o : option L) : option L * bool :=
  match o with
  | None => (None, true)
  | Some l => let '(l', ok) := reserve c b l in (Some l', ok)
  end.

Definition opt_refund (c : string) (b : Z) (o : option L) : option L :=
  refund c b <$> o.

(** The optional ledger holds exactly [total] bytes of category [c]. *)
Definition holds (c : string) (total : Z) (o : option L) : Prop :=
  match o with None => True | Some l => ledger_inv l ∧ balance c l = total end.

Lemma holds_reserve_true c b o o' total :
  0 <= b → holds c total o → opt_reserve c b o = (o', true) → holds c (total + b) o'.
Proof.
  intros Hb. destruct o as [l|]; simpl; [|by intros _ [= <-]].
  intros [Hi Hbal]. destruct (reserve c b l) as [l' ok] eqn:E. intros [= <- ->].
  apply reserve_accepts in E as (? & ? & _); [|done|done]. split; [done|lia].
Qed.

Lemma holds_reserve_false c b o o' total :
  0 <= b → holds c total o → opt_reserve c b o = (o', false) → holds c total o'.
Proof.
  intros Hb. destruct o as [l|]; simpl; [|by intros _ [= <-]].
  intros [Hi Hbal]. destruct (reserve c b l) as [l' ok] eqn:E. intros [= <- ->].
  apply reserve_refuses in E as (? & Heq); [|done|done]. split; [done|]. by rewrite Heq.
Qed.

Lemma holds_refund c b o total :
  0 <= b <= total → holds c total o → holds c (total - b) (opt_refund c b o).
Proof.
  intros Hb. destruct o as [l|]; simpl; [|done]. intros [Hi Hbal].
  destruct (refund_exact l c b) as (? & ? & _); [done|lia|]. split; [done|lia].
Qed.
End optional.

#[export] Hint Resolve holds_reserve_true holds_reserve_false holds_refund : jsdb.
