(* ===== verification/Fifo.v ===== *)
(** * Queues of identified waiters

    Lemmas the three bounded gates share: a queue of waiters removed by
    identity ([queue.indexOf(waiter)] then [splice], or [Set.delete]), their
    byte totals, and ascending identities, which express first-in first-out
    service. *)

From S2P Require Import Prelude.

Section queue.
Context {W : Type} (wid : W → nat) (wbytes : W → Z).

Definition find_by (id : nat) (q : list W) : option W :=
  List.find (λ w, bool_decide (wid w = id)) q.

Definition remove_by (id : nat) (q : list W) : list W := filter (λ w, wid w ≠ id) q.

Lemma find_by_Some id q w : find_by id q = Some w → w ∈ q ∧ wid w = id.
Proof.
  intros H. apply List.find_some in H as [Hin Heq]. bools.
  by rewrite list_elem_of_In.
Qed.

Lemma remove_by_sublist id q : remove_by id q `sublist_of` q.
Proof. apply sublist_filter. Qed.

Lemma remove_by_ids id q : wid <$> remove_by id q `sublist_of` wid <$> q.
Proof. by apply fmap_sublist, remove_by_sublist. Qed.

Lemma remove_by_id_absent id q : id ∉ wid <$> q → remove_by id q = q.
Proof.
  induction q as [|w q IH]; intros Hn; [done|]. unfold remove_by in *.
  rewrite fmap_cons, not_elem_of_cons in Hn. destruct Hn as [Hw Hq].
  rewrite filter_cons_True by auto. by rewrite IH.
Qed.

Lemma remove_by_found id q w :
  NoDup (wid <$> q) → find_by id q = Some w →
  q ≡ₚ w :: remove_by id q ∧ sumZ wbytes (remove_by id q) = sumZ wbytes q - wbytes w ∧
  length q = S (length (remove_by id q)).
Proof.
  intros Hnd Hf. assert (q ≡ₚ w :: remove_by id q) as Hp.
  { induction q as [|v q IH]; [done|]. unfold find_by in Hf; simpl in Hf.
    rewrite fmap_cons, NoDup_cons in Hnd. destruct Hnd as [Hv Hnd].
    unfold remove_by. case_bool_decide as Hid.
    - simplify_eq. rewrite filter_cons_False by auto.
      change (filter (λ w0, wid w0 ≠ wid w) q) with (remove_by (wid w) q).
      by rewrite remove_by_id_absent.
    - rewrite filter_cons_True by auto. etrans; [apply perm_skip, IH; done|].
      apply perm_swap. }
  split; [done|]. split.
  - rewrite (sumZ_perm wbytes _ _ Hp); simpl. lia.
  - by rewrite Hp at 1.
Qed.
End queue.

(** Dropping one member of a duplicate-free list. *)
Lemma filter_ne_length (x : nat) (l : list nat) :
  NoDup l → x ∈ l → length l = S (length (filter (λ i, i ≠ x) l)).
Proof.
  induction l as [|y l IH]; intros Hnd Hin; [by apply not_elem_of_nil in Hin|].
  apply NoDup_cons in Hnd as [Hy Hnd]. destruct (decide (y = x)) as [->|Hne].
  - rewrite filter_cons_False by auto. simpl. f_equal.
    change (filter (λ i, i ≠ x) l) with (remove_by id x l).
    by rewrite remove_by_id_absent by (by rewrite list_fmap_id).
  - rewrite filter_cons_True by auto. simpl. f_equal. apply IH; [done|]. set_solver.
Qed.

(** Ascending lists of identities. *)
Abbreviation ascending := (StronglySorted lt).

Lemma ascending_snoc l x : ascending (l ++ [x]) ↔ ascending l ∧ ∀ y, y ∈ l → (y < x)%nat.
Proof.
  rewrite StronglySorted_app. split.
  - intros (H & ? & _). split; [done|]. intros y Hy. apply H; [done|set_solver].
  - intros [? H]. split; [|split; [done|by repeat constructor]]. set_solver.
Qed.

Lemma ascending_sublist l k : l `sublist_of` k → ascending k → ascending l.
Proof.
  induction 1 as [|x l k Hs IH|x l k Hs IH]; intros Hk; [done| |].
  - apply StronglySorted_cons in Hk as [Hf Hk]. apply StronglySorted_cons.
    split; [|by apply IH]. rewrite Forall_forall in *. intros y Hy. apply Hf. eapply elem_of_submseteq; [exact Hy|]. by apply sublist_submseteq.
  - apply StronglySorted_cons in Hk as [_ Hk]. by apply IH.
Qed.

Lemma ascending_NoDup l : ascending l → NoDup l.
Proof.
  induction 1 as [|x l _ IH Hx]; constructor; [|done].
  intros Hin. rewrite Forall_forall in Hx. specialize (Hx x Hin). lia.
Qed.

Lemma ascending_app_sublist l k k' :
  k' `sublist_of` k → ascending (l ++ k) → ascending (l ++ k').
Proof. intros Hs. apply ascending_sublist. by apply sublist_app. Qed.

#[export] Hint Resolve ascending_NoDup remove_by_ids : jsdb.
