(* ===== verification/CircuitBreaker.v ===== *)
(** * Circuit breaker ([src/src/cache/circuitBreaker.ts])

    The breaker of the L2 tier and of the event bus: a three-state machine
    with an epoch that is bumped whenever it opens or starts probing, so that
    the outcome of a call dispatched in an earlier epoch is ignored. [now] is
    [Date.now()] at the call. *)

From S2P Require Import Prelude.

(** ** The source *)

Definition DEFAULT_BREAKER_FAILURE_THRESHOLD : Z := 3.
Definition DEFAULT_BREAKER_COOLDOWN_MS : Z := 30 * 1000.

Inductive CircuitBreakerState := Closed | Open | HalfOpen.

#[export] Instance CircuitBreakerState_eq_dec : EqDecision CircuitBreakerState.
Proof. solve_decision. Defined.

Record CircuitBreakerOptions := {
  cbo_enabled : option bool;
  cbo_failureThreshold : option Z;
  cbo_cooldownMs : option Z;
}.

Record CircuitBreaker := {
  cb_state : CircuitBreakerState;
  cb_failures : Z;
  cb_openedAt : Z;
  cb_epoch : Z;
  cb_probeInFlight : bool;
}.

(** The field initialisers. *)
Definition newCircuitBreaker : CircuitBreaker :=
  {| cb_state := Closed; cb_failures := 0; cb_openedAt := 0; cb_epoch := 0;
     cb_probeInFlight := false |}.

Section breaker.
Context (options : CircuitBreakerOptions).

Definition getFailureThreshold : Z :=
  cbo_failureThreshold options ?? DEFAULT_BREAKER_FAILURE_THRESHOLD.

Definition getCooldownMs : Z := cbo_cooldownMs options ?? DEFAULT_BREAKER_COOLDOWN_MS.

(** [this.options.enabled === false] *)
Definition breakerDisabled : bool := bool_decide (cbo_enabled options = Some false).

(** [private open()] *)
Definition openBreaker (now : Z) (b : CircuitBreaker) : CircuitBreaker :=
  {| cb_state := Open; cb_failures := cb_failures b; cb_openedAt := now;
     cb_epoch := cb_epoch b + 1; cb_probeInFlight := false |}.

Definition canCall (now : Z) (b : CircuitBreaker) : CircuitBreaker * bool :=
  if breakerDisabled then (b, true)
  else if bool_decide (cb_state b = Closed) then (b, true)
  else
    let b1 :=
      if bool_decide (cb_state b = Open) && (getCooldownMs <=? now - cb_openedAt b)
      then {| cb_state := HalfOpen; cb_failures := cb_failures b;
              cb_openedAt := cb_openedAt b; cb_epoch := cb_epoch b + 1;
              cb_probeInFlight := false |}
      else b in
    if bool_decide (cb_state b1 = HalfOpen) then
      if cb_probeInFlight b1 then (b1, false)
      else ({| cb_state := cb_state b1; cb_failures := cb_failures b1;
               cb_openedAt := cb_openedAt b1; cb_epoch := cb_epoch b1;
               cb_probeInFlight := true |}, true)
    else (b1, false).

(** [epoch !== undefined && epoch !== this.epoch] *)
Definition staleEpoch (epoch : option Z) (b : CircuitBreaker) : bool :=
  match epoch with Some e => negb (e =? cb_epoch b) | None => false end.

Definition recordSuccess (epoch : option Z) (b : CircuitBreaker) : CircuitBreaker :=
  if breakerDisabled then b
  else if staleEpoch epoch b then b
  else {| cb_state := Closed; cb_failures := 0; cb_openedAt := 0;
          cb_epoch := cb_epoch b; cb_probeInFlight := false |}.

(** The state is returned as well ([recordFailure] answers it). *)
Definition recordFailure (now : Z) (epoch : option Z) (b : CircuitBreaker)
    : CircuitBreaker * CircuitBreakerState :=
  if breakerDisabled then (b, cb_state b)
  else if staleEpoch epoch b then (b, cb_state b)
  else if bool_decide (cb_state b = HalfOpen) then
    let b1 := openBreaker now b in (b1, cb_state b1)
  else
    let b1 := {| cb_state := cb_state b; cb_failures := cb_failures b + 1;
                 cb_openedAt := cb_openedAt b; cb_epoch := cb_epoch b;
                 cb_probeInFlight := cb_probeInFlight b |} in
    let b2 := if getFailureThreshold <=? cb_failures b1 then openBreaker now b1 else b1 in
    (b2, cb_state b2).

(** ** Histories *)

Inductive breaker_event :=
| EvCall (now : Z)
| EvSuccess (epoch : option Z)
| EvFailure (now : Z) (epoch : option Z).

Definition breaker_step (b : CircuitBreaker) (e : breaker_event) : CircuitBreaker :=
  match e with
  | EvCall now => (canCall now b).1
  | EvSuccess ep => recordSuccess ep b
  | EvFailure now ep => (recordFailure now ep b).1
  end.

(** Does the event carry the outcome of a call of the current epoch? *)
Definition current_outcome (b : CircuitBreaker) (e : breaker_event) : bool :=
  match e with
  | EvCall _ => false
  | EvSuccess ep | EvFailure _ ep => negb (staleEpoch ep b)
  end.

Record breaker_ok (b : CircuitBreaker) : Prop := {
  ok_probe : cb_probeInFlight b = true → cb_state b = HalfOpen;
  ok_half : cb_state b = HalfOpen → cb_probeInFlight b = true;
  ok_closed : cb_state b = Closed → 0 < getFailureThreshold →
              0 <= cb_failures b < getFailureThreshold;
  ok_failures : 0 <= cb_failures b;
  ok_epoch : 0 <= cb_epoch b;
}.

Ltac breaker_cases :=
  unfold breaker_step, canCall, recordFailure, recordSuccess, openBreaker in *;
  repeat (case_match; simpl in *; simplify_eq/=; bools); simpl in *.

Lemma breaker_ok_step b e : breaker_ok b → breaker_ok (breaker_step b e).
Proof.
  intros [H1 H2 H3 H4 H5].
  destruct b as [st f o ep p]; destruct e; breaker_cases; split; simpl in *;
    intros; bools; try (by auto); try congruence; try lia; naive_solver lia.
Qed.

(** in every reachable breaker a probe is in flight exactly when the
    breaker is half-open, a closed breaker has fewer failures than the
    threshold, and the epoch never decreases along a step. *)
Theorem breaker_invariant b :
  reachable breaker_step newCircuitBreaker b →
  (cb_probeInFlight b = true ↔ cb_state b = HalfOpen) ∧
  (cb_state b = Closed → 0 < getFailureThreshold →
     0 <= cb_failures b < getFailureThreshold) ∧
  (∀ e, cb_epoch b <= cb_epoch (breaker_step b e)).
Proof.
  intros Hr. assert (breaker_ok b) as [H1 H2 H3 H4 H5].
  { revert b Hr. apply reachable_invariant; [|apply breaker_ok_step].
    split; simpl; intros; done || lia. }
  split; [by split|]. split; [done|].
  intros e. destruct b as [st f o ep p]; destruct e; breaker_cases; lia.
Qed.

(** While a probe is out, nothing but an outcome of its own epoch changes
    the breaker. *)
Lemma probe_frozen b e :
  breakerDisabled = false → cb_state b = HalfOpen → cb_probeInFlight b = true →
  current_outcome b e = false → breaker_step b e = b.
Proof.
  intros Hd Hs Hp Hc. destruct b as [st f o ep p]; simpl in *; subst.
  destruct e; simpl in *; unfold canCall, recordSuccess, recordFailure;
    rewrite Hd; simpl in *; try done; bools; by rewrite Hc.
Qed.

(** once the probe of a half-open breaker is out, no further call is
    admitted, whatever late outcomes of other epochs arrive, until an
    outcome of the probe's epoch is recorded. *)
Theorem single_probe es now b :
  breakerDisabled = false → cb_state b = HalfOpen → cb_probeInFlight b = true →
  Forall (λ e, current_outcome b e = false) es →
  (canCall now (run_events breaker_step b es)).2 = false ∧
  run_events breaker_step b es = b.
Proof.
  intros Hd Hs Hp Hes. assert (run_events breaker_step b es = b) as ->.
  { induction Hes as [|e es He Hes IH]; [done|].
    unfold run_events in *; simpl. by rewrite probe_frozen. }
  split; [|done]. destruct b as [st f o ep p]; simpl in *; subst.
  unfold canCall. by rewrite Hd.
Qed.

(** an open breaker refuses every call before the cooldown has elapsed;
    the first call after it is admitted as the probe of a new epoch, and a
    failure of that probe re-opens the breaker while its success closes it
    with a cleared failure count. *)
Theorem open_cooldown now now' b :
  breakerDisabled = false → cb_state b = Open →
  (now - cb_openedAt b < getCooldownMs → canCall now b = (b, false)) ∧
  (getCooldownMs <= now - cb_openedAt b →
   let b1 := (canCall now b).1 in
   (canCall now b).2 = true ∧ cb_state b1 = HalfOpen ∧
   cb_epoch b1 = cb_epoch b + 1 ∧
   cb_state (recordFailure now' (Some (cb_epoch b1)) b1).1 = Open ∧
   cb_openedAt (recordFailure now' (Some (cb_epoch b1)) b1).1 = now' ∧
   recordSuccess (Some (cb_epoch b1)) b1 =
     {| cb_state := Closed; cb_failures := 0; cb_openedAt := 0;
        cb_epoch := cb_epoch b + 1; cb_probeInFlight := false |}).
Proof.
  intros Hd Hs. destruct b as [st f o ep p]; simpl in *; subst.
  unfold canCall, recordFailure, recordSuccess. rewrite Hd; simpl.
  split; intros H.
  - by rewrite (proj2 (Z.leb_gt _ _) H).
  - rewrite (proj2 (Z.leb_le _ _) H); simpl. rewrite Z.eqb_refl; simpl. repeat split.
Qed.

(** [n] failures of the current epoch from a closed, clean breaker. *)
Definition failures_in_a_row (now : Z) (n : nat) (b : CircuitBreaker) : CircuitBreaker :=
  Nat.iter n (λ b, (recordFailure now (Some (cb_epoch b)) b).1) b.

(** from the initial breaker, [n] failures in a row leave it closed as
    long as [n] is below the threshold, and the failure that reaches the
    threshold opens it. *)
Theorem opens_at_threshold now n :
  breakerDisabled = false →
  (Z.of_nat n < getFailureThreshold →
     failures_in_a_row now n newCircuitBreaker =
     {| cb_state := Closed; cb_failures := Z.of_nat n; cb_openedAt := 0;
        cb_epoch := 0; cb_probeInFlight := false |}) ∧
  (0 < getFailureThreshold → Z.of_nat n = getFailureThreshold →
     cb_state (failures_in_a_row now n newCircuitBreaker) = Open).
Proof.
  intros Hd.
  assert (Hbelow : ∀ m, Z.of_nat m < getFailureThreshold →
    failures_in_a_row now m newCircuitBreaker =
    {| cb_state := Closed; cb_failures := Z.of_nat m; cb_openedAt := 0;
       cb_epoch := 0; cb_probeInFlight := false |}).
  { induction m as [|m IH]; intros Hm; [done|]. unfold failures_in_a_row in *.
    rewrite Nat.iter_succ, IH by lia. unfold recordFailure. rewrite Hd; simpl.
    rewrite (proj2 (Z.leb_gt _ _)) by lia; simpl. f_equal; lia. }
  split; [apply Hbelow|]. intros Hpos Hn. destruct n as [|n]; [lia|].
  unfold failures_in_a_row. rewrite Nat.iter_succ.
  fold (failures_in_a_row now n newCircuitBreaker). rewrite Hbelow by lia.
  unfold recordFailure. rewrite Hd; simpl. by rewrite (proj2 (Z.leb_le _ _)) by lia.
Qed.
End breaker.

(** ** Witnesses *)

Definition demo_options : CircuitBreakerOptions :=
  {| cbo_enabled := None; cbo_failureThreshold := Some 2; cbo_cooldownMs := Some 100 |}.

Definition demo_open : CircuitBreaker :=
  run_events (breaker_step demo_options) newCircuitBreaker
    [EvFailure 10 (Some 0); EvFailure 20 (Some 0)].

Definition demo_probing : CircuitBreaker := (canCall demo_options 130 demo_open).1.

Lemma breaker_invariant_witness :
  cb_state demo_probing = HalfOpen ∧ cb_probeInFlight demo_probing = true.
Proof.
  split; [reflexivity|]. apply (breaker_invariant demo_options demo_probing).
  - change (reachable (breaker_step demo_options) newCircuitBreaker
              (breaker_step demo_options demo_open (EvCall 130))).
    constructor. apply reachable_run.
  - reflexivity.
Defined.

Lemma single_probe_witness :
  (canCall demo_options 500 (run_events (breaker_step demo_options) demo_probing
     [EvSuccess (Some 0); EvCall 140; EvFailure 150 (Some 1)])).2 = false.
Proof.
  apply (single_probe demo_options); [reflexivity|reflexivity|reflexivity|].
  repeat constructor.
Defined.

Lemma open_cooldown_witness :
  canCall demo_options 119 demo_open = (demo_open, false) ∧
  (canCall demo_options 120 demo_open).2 = true.
Proof.
  split.
  - apply (open_cooldown demo_options 119 0 demo_open); [reflexivity|reflexivity|].
    vm_compute. reflexivity.
  - apply (open_cooldown demo_options 120 0 demo_open); [reflexivity|reflexivity|].
    vm_compute. discriminate.
Defined.

Lemma opens_at_threshold_witness :
  cb_state (failures_in_a_row demo_options 5 2 newCircuitBreaker) = Open.
Proof. apply (opens_at_threshold demo_options 5 2); reflexivity. Defined.
