(* ===== verification/MemoryBudget.v ===== *)
(** * The shared memory budget ([src/src/cache/memoryBudget.ts])

    A process-local byte ledger with a hard cap, a target that shrinks under
    memory pressure and recovers gradually, per-category totals and a bounded
    round-robin eviction over registered clients. The clients' [evictOne]
    callbacks are a parameter: a function of the client's index in the order
    of registration identities that may change the ledger (it releases bytes)
    and answers [None] when it throws.

    The two decimal factors are the doubles of the source: [scale07] and
    [scale005] are [Math.floor(x * 0.7)] and [Math.floor(x * 0.05)] in binary64
    with round-to-nearest-even, and the pressure ratio is computed with the
    executable binary64 of the standard library. The limits here are
    resolved integers; [MemoryLimits.v] parses them. *)

From Stdlib Require Import SpecFloat.
From S2P Require Import Prelude Ledger.

(** ** Doubles *)

(** Round a non-negative integer to 53 significant bits, ties to even. *)
Definition round53 (p : Z) : Z :=
  let k := Z.log2 p - 52 in
  if k <=? 0 then p
  else
    let q := p / 2 ^ k in
    let r := p mod 2 ^ k in
    let half := 2 ^ (k - 1) in
    (if (half <? r) || ((r =? half) && Z.odd q) then q + 1 else q) * 2 ^ k.

(** [Math.floor(t * (m / 2^s))] for an integer [t] and a double [m / 2^s]. *)
Definition floor_scale (t m s : Z) : Z := round53 (t * m) / 2 ^ s.

(** [0.7 = 3152519739159347 / 2^52] and [0.05 = 3602879701896397 / 2^56]. *)
Definition scale07 (t : Z) : Z := floor_scale t 3152519739159347 52.
Definition scale005 (t : Z) : Z := floor_scale t 3602879701896397 56.

Definition double_of_Z (z : Z) : spec_float := binary_normalize 53 1024 z 0 false.
Definition c_0_05 : spec_float := S754_finite false 7205759403792794 (-57).
Definition c_0_15 : spec_float := S754_finite false 5404319552844595 (-55).

(** [available / capacity < c] *)
Definition ratio_below (available capacity : Z) (c : spec_float) : bool :=
  SFltb (SFdiv 53 1024 (double_of_Z available) (double_of_Z capacity)) c.

Example scale07_10 : scale07 10 = 7. Proof. vm_compute. reflexivity. Qed.

(** The integer arithmetic agrees with binary64 on a sample of inputs. *)
Definition sf_floor (f : spec_float) : Z :=
  match f with
  | S754_finite false m e => if 0 <=? e then Zpos m * 2 ^ e else Zpos m / 2 ^ (- e)
  | _ => 0
  end.

Example scale07_ieee :
  forallb (λ x, sf_floor (SFmul 53 1024 (double_of_Z x)
                            (S754_finite false 6305039478318694 (-53))) =? scale07 x)
    [1; 2; 3; 10; 90; 1000; 123456789; 429496729600; 9007199254740991] = true.
Proof. vm_compute. reflexivity. Qed.

Example scale005_ieee :
  forallb (λ x, sf_floor (SFmul 53 1024 (double_of_Z x) c_0_05) =? scale005 x)
    [1; 20; 40; 60; 1000; 123456789; 429496729600; 9007199254740991] = true.
Proof. vm_compute. reflexivity. Qed.

(** ** The source *)

Inductive PressureState := PNormal | PPressure | PCritical.

#[export] Instance PressureState_eq_dec : EqDecision PressureState.
Proof. solve_decision. Defined.

(** The signals [sample] reads. *)
Record MemorySignals := {
  ms_availableBytes : option Z;
  ms_effectiveBytes : option Z;
  ms_psiSomeAvg10 : option Q;
}.

Record BudgetOptions := {
  bo_pressureWindowMs : option Z;
  bo_recoveryWindowMs : option Z;
}.

Record MemoryBudget := {
  mb_hardCap : Z;
  mb_minMemory : option Z;
  mb_target : Z;
  mb_used : Z;
  mb_categories : gmap string Z;
  mb_clients : list nat;
  mb_cursor : nat;
  mb_state : PressureState;
  mb_pressureAt : option Z;
  mb_recoveryAt : option Z;
  mb_sampling : bool;
  mb_evictions : Z;
  mb_admissions : Z;
  mb_failedAdmissions : Z;
}.

(** The constructor, for resolved integer limits; [None] is a [RangeError]. *)
Definition newMemoryBudget (hardCap : Z) (minMemory : option Z) : option MemoryBudget :=
  if hardCap <=? 0 then None
  else if match minMemory with Some m => (m <=? 0) || (hardCap <? m) | None => false end
  then None
  else Some
    {| mb_hardCap := hardCap; mb_minMemory := minMemory; mb_target := hardCap; mb_used := 0;
       mb_categories := ∅; mb_clients := []; mb_cursor := 0; mb_state := PNormal;
       mb_pressureAt := None; mb_recoveryAt := None; mb_sampling := false;
       mb_evictions := 0; mb_admissions := 0; mb_failedAdmissions := 0 |}.

(** Record updates of the mutable fields. *)
Definition with_ledger (u : Z) (c : gmap string Z) (b : MemoryBudget) : MemoryBudget :=
  {| mb_hardCap := mb_hardCap b; mb_minMemory := mb_minMemory b; mb_target := mb_target b;
     mb_used := u; mb_categories := c; mb_clients := mb_clients b; mb_cursor := mb_cursor b;
     mb_state := mb_state b; mb_pressureAt := mb_pressureAt b;
     mb_recoveryAt := mb_recoveryAt b; mb_sampling := mb_sampling b;
     mb_evictions := mb_evictions b; mb_admissions := mb_admissions b;
     mb_failedAdmissions := mb_failedAdmissions b |}.

Definition with_counters (e a f : Z) (cur : nat) (b : MemoryBudget) : MemoryBudget :=
  {| mb_hardCap := mb_hardCap b; mb_minMemory := mb_minMemory b; mb_target := mb_target b;
     mb_used := mb_used b; mb_categories := mb_categories b; mb_clients := mb_clients b;
     mb_cursor := cur; mb_state := mb_state b; mb_pressureAt := mb_pressureAt b;
     mb_recoveryAt := mb_recoveryAt b; mb_sampling := mb_sampling b; mb_evictions := e;
     mb_admissions := a; mb_failedAdmissions := f |}.

Definition with_pressure (st : PressureState) (target : Z) (p r : option Z)
    (b : MemoryBudget) : MemoryBudget :=
  {| mb_hardCap := mb_hardCap b; mb_minMemory := mb_minMemory b; mb_target := target;
     mb_used := mb_used b; mb_categories := mb_categories b; mb_clients := mb_clients b;
     mb_cursor := mb_cursor b; mb_state := st; mb_pressureAt := p; mb_recoveryAt := r;
     mb_sampling := mb_sampling b; mb_evictions := mb_evictions b;
     mb_admissions := mb_admissions b; mb_failedAdmissions := mb_failedAdmissions b |}.

Definition with_clients (cs : list nat) (sampling : bool) (b : MemoryBudget) : MemoryBudget :=
  {| mb_hardCap := mb_hardCap b; mb_minMemory := mb_minMemory b; mb_target := mb_target b;
     mb_used := mb_used b; mb_categories := mb_categories b; mb_clients := cs;
     mb_cursor := mb_cursor b; mb_state := mb_state b; mb_pressureAt := mb_pressureAt b;
     mb_recoveryAt := mb_recoveryAt b; mb_sampling := sampling;
     mb_evictions := mb_evictions b; mb_admissions := mb_admissions b;
     mb_failedAdmissions := mb_failedAdmissions b |}.

Definition category (c : string) (b : MemoryBudget) : Z := mb_categories b !! c ?? 0.

(** [!Number.isFinite(bytes) || !Number.isInteger(bytes) || bytes < 0] *)
Definition invalid_bytes (bytes : jsnum) : bool :=
  negb (num_is_finite bytes) || negb (num_is_integer bytes) || num_lt bytes (JInt 0).

Definition tryReserve (bytes : jsnum) (c : string) (b : MemoryBudget) : MemoryBudget * bool :=
  if invalid_bytes bytes then (b, false)
  else
    let n := num_floor bytes in
    if mb_target b <? mb_used b + n
    then (with_counters (mb_evictions b) (mb_admissions b) (mb_failedAdmissions b + 1)
            (mb_cursor b) b, false)
    else
      let b1 := with_ledger (mb_used b + n) (<[c := category c b + n]> (mb_categories b)) b in
      (with_counters (mb_evictions b1) (mb_admissions b1 + 1) (mb_failedAdmissions b1)
         (mb_cursor b1) b1, true).

Definition release (bytes : jsnum) (c : string) (b : MemoryBudget) : MemoryBudget :=
  if invalid_bytes bytes then b
  else
    let prior := category c b in
    let amount := Z.min (num_floor bytes) (Z.min prior (mb_used b)) in
    if amount =? 0 then b
    else with_ledger (mb_used b - amount) (<[c := prior - amount]> (mb_categories b)) b.

Definition permitsPromotion (bytes : jsnum) (b : MemoryBudget) : bool :=
  bool_decide (mb_state b = PNormal) && negb (invalid_bytes bytes)
  && (mb_used b + num_floor bytes <=? mb_target b).

(** [register] starts sampling with the first client unless the configured
    interval is zero; the returned closure is [unregister]. *)
Definition register (sampleIntervalMs : option Z) (client : nat) (b : MemoryBudget)
    : MemoryBudget :=
  with_clients (mb_clients b ++ [client])
    (mb_sampling b || negb (bool_decide (sampleIntervalMs = Some 0))) b.

Fixpoint remove_first (c : nat) (l : list nat) : list nat :=
  match l with
  | [] => []
  | x :: l' => if decide (x = c) then l' else x :: remove_first c l'
  end.

Definition unregister (client : nat) (b : MemoryBudget) : MemoryBudget :=
  let cs := remove_first client (mb_clients b) in
  with_clients cs (if bool_decide (cs = []) then false else mb_sampling b) b.

Definition closeBudget (b : MemoryBudget) : MemoryBudget := with_clients [] false b.

Section sampling.
(** The registered callbacks: what they do to the ledger and whether they
    evicted; [None] when they throw. *)
Context (evictOne : nat → MemoryBudget → MemoryBudget * option bool).

(** [evictBounded] *)
Fixpoint evictBounded (max : nat) (b : MemoryBudget) : MemoryBudget :=
  match max with
  | O => b
  | S max' =>
      if bool_decide (mb_clients b = []) || (mb_used b <=? mb_target b) then b
      else
        let c := default 0%nat
                   (mb_clients b !! (mb_cursor b mod length (mb_clients b))%nat) in
        let b1 := with_counters (mb_evictions b) (mb_admissions b)
                    (mb_failedAdmissions b) (S (mb_cursor b)) b in
        let '(b2, r) := evictOne c b1 in
        let b3 := if bool_decide (r = Some true)
                  then with_counters (mb_evictions b2 + 1) (mb_admissions b2)
                         (mb_failedAdmissions b2) (mb_cursor b2) b2
                  else b2 in
        evictBounded max' b3
  end.

(** The pressure classification of [sample]. *)
Definition classify (b : MemoryBudget) (s : MemorySignals) : bool * bool :=
  let capacity := ms_effectiveBytes s ?? mb_hardCap b in
  let below c := match ms_availableBytes s with
                 | Some a => (0 <? capacity) && ratio_below a capacity c
                 | None => false
                 end in
  let psi n := match ms_psiSomeAvg10 s with Some q => Qle_bool n q | None => false end in
  let critical := (mb_hardCap b <? mb_used b) || below c_0_05 || psi 50%Q in
  (critical,
   negb critical && ((mb_target b <? mb_used b) || below c_0_15 || psi 10%Q)).

(** The three branches that move the target. *)
Definition retarget (opts : BudgetOptions) (now : Z) (s : MemorySignals)
    (b : MemoryBudget) : MemoryBudget :=
  let floor_ := mb_minMemory b ?? 1 in
  match classify b s with
  | (true, _) =>
      with_pressure PCritical (Z.max floor_ (scale07 (mb_target b))) (Some now) None b
  | (false, true) =>
      let p := mb_pressureAt b ?? now in
      if (bo_pressureWindowMs opts ?? 5000) <=? now - p
      then with_pressure PPressure (Z.max floor_ (scale07 (mb_hardCap b))) (Some p) None b
      else with_pressure (mb_state b) (mb_target b) (Some p) None b
  | (false, false) =>
      let r := mb_recoveryAt b ?? now in
      if (bo_recoveryWindowMs opts ?? 30000) <=? now - r
      then with_pressure PNormal
             (Z.min (mb_hardCap b)
                (mb_target b + Z.max 1 (scale005 (mb_hardCap b)))) None (Some r) b
      else with_pressure (mb_state b) (mb_target b) None (Some r) b
  end.

(** [sample] *)
Definition sample (opts : BudgetOptions) (now : Z) (s : MemorySignals)
    (b : MemoryBudget) : MemoryBudget :=
  let b1 := retarget opts now s b in
  if mb_target b1 <? mb_used b1 then evictBounded 32 b1 else b1.
End sampling.

(** ** Category totals *)

Definition catsum (m : gmap string Z) : Z := sumZ snd (map_to_list m).

Lemma catsum_empty : catsum ∅ = 0.
Proof. unfold catsum. by rewrite map_to_list_empty. Qed.

Lemma catsum_insert_None m k v : m !! k = None → catsum (<[k := v]> m) = v + catsum m.
Proof.
  intros H. unfold catsum. rewrite (sumZ_perm _ _ _ (map_to_list_insert m k v H)). done.
Qed.

Lemma catsum_insert m k v : catsum (<[k := v]> m) = catsum m - (m !! k ?? 0) + v.
Proof.
  destruct (m !! k) as [w|] eqn:E; simpl.
  - rewrite <- (insert_delete_eq m k v), catsum_insert_None by apply lookup_delete_eq.
    assert (catsum m = w + catsum (delete k m)) as ->; [|lia].
    rewrite <- (insert_delete_id m k w E) at 1.
    by rewrite catsum_insert_None by apply lookup_delete_eq.
  - rewrite catsum_insert_None by done. lia.
Qed.

Lemma catsum_ge m k : (∀ c v, m !! c = Some v → 0 <= v) → m !! k ?? 0 <= catsum m.
Proof.
  intros Hpos. destruct (m !! k) as [w|] eqn:E; simpl.
  - unfold catsum. apply (sumZ_elem snd (k, w)); [|by apply elem_of_map_to_list].
    intros [c v] Hcv%elem_of_map_to_list. by eapply Hpos.
  - unfold catsum. apply sumZ_nonneg. intros [c v] Hcv%elem_of_map_to_list. by eapply Hpos.
Qed.

(** ** The invariant of the ledger *)

Definition lower_bound (b : MemoryBudget) : Z := mb_minMemory b ?? 1.

Record budget_ok (b : MemoryBudget) : Prop := {
  bk_target : 1 <= lower_bound b <= mb_target b ∧ mb_target b <= mb_hardCap b;
  bk_sum : mb_used b = catsum (mb_categories b);
  bk_pos : ∀ c v, mb_categories b !! c = Some v → 0 <= v;
  bk_cap : mb_used b <= mb_hardCap b;
}.

Lemma bk_used_nonneg b : budget_ok b → 0 <= mb_used b.
Proof.
  intros [_ -> Hp _]. unfold catsum. apply sumZ_nonneg.
  intros [c v] Hcv%elem_of_map_to_list. by eapply Hp.
Qed.

Lemma category_nonneg b c : budget_ok b → 0 <= category c b.
Proof.
  intros Hb. unfold category. destruct (mb_categories b !! c) eqn:E; simpl; [|lia].
  by eapply bk_pos.
Qed.

Lemma category_le_used b c : budget_ok b → category c b <= mb_used b.
Proof. intros [_ -> Hp _]. by apply catsum_ge. Qed.

Lemma invalid_bytes_JInt z : invalid_bytes (JInt z) = (z <? 0).
Proof.
  unfold invalid_bytes, JInt, inject_Z; simpl. rewrite Z.mod_1_r. simpl. f_equal; lia.
Qed.

Lemma valid_bytes_nonneg n : invalid_bytes n = false → 0 <= num_floor n.
Proof.
  unfold invalid_bytes. destruct n as [q| |]; simpl; try done. intros H. bools.
  apply Z.div_pos; lia.
Qed.

Lemma newMemoryBudget_ok h m b : newMemoryBudget h m = Some b → budget_ok b.
Proof.
  unfold newMemoryBudget, lower_bound. intros H. destruct m as [m|]; cases;
    repeat case_match; simplify_eq; bools; split; simpl; unfold lower_bound; simpl;
    rewrite ?catsum_empty; try lia; intros c v; rewrite lookup_empty; done.
Qed.

Lemma ok_with_ledger u cats b :
  budget_ok b → u = catsum cats → (∀ c v, cats !! c = Some v → 0 <= v) →
  u <= mb_hardCap b → budget_ok (with_ledger u cats b).
Proof. intros [H1 H2 H3 H4] ? ? ?. by split. Qed.

Lemma ok_with_counters e a f cur b : budget_ok b → budget_ok (with_counters e a f cur b).
Proof. intros [H1 H2 H3 H4]. by split. Qed.

Lemma ok_with_clients cs sm b : budget_ok b → budget_ok (with_clients cs sm b).
Proof. intros [H1 H2 H3 H4]. by split. Qed.

Lemma ok_with_pressure st t p r b :
  budget_ok b → lower_bound b <= t <= mb_hardCap b → budget_ok (with_pressure st t p r b).
Proof. intros [[H0 H1] H2 H3 H4] ?. split; simpl; auto. unfold lower_bound in *; simpl; lia. Qed.

#[export] Hint Resolve ok_with_counters ok_with_clients : jsdb.

Lemma tryReserve_ok n c b : budget_ok b → budget_ok (tryReserve n c b).1.
Proof.
  intros Hb. unfold tryReserve. destruct (invalid_bytes n) eqn:Hn; [done|].
  apply valid_bytes_nonneg in Hn. case_match eqn:Ht; simpl; bools; [by auto with jsdb|].
  apply ok_with_counters, ok_with_ledger; [done| | |].
  - rewrite catsum_insert, <- bk_sum by done. unfold category. lia.
  - intros c' v. rewrite lookup_insert. case_decide; [|by apply bk_pos].
    intros [= <-]. pose proof (category_nonneg _ c Hb). lia.
  - destruct Hb as [[? ?] _ _ _]. lia.
Qed.

Lemma release_ok n c b : budget_ok b → budget_ok (release n c b).
Proof.
  intros Hb. unfold release. destruct (invalid_bytes n) eqn:Hn; [done|].
  apply valid_bytes_nonneg in Hn. case_match eqn:Ha; [done|]. bools.
  pose proof (category_nonneg _ c Hb). pose proof (bk_used_nonneg _ Hb).
  apply ok_with_ledger; [done| | |].
  - rewrite catsum_insert, <- bk_sum by done. unfold category. lia.
  - intros c' v. rewrite lookup_insert. case_decide; [|by apply bk_pos].
    intros [= <-]. lia.
  - pose proof (bk_cap _ Hb). lia.
Qed.

#[export] Hint Resolve tryReserve_ok release_ok : jsdb.

(** ** The interface *)

#[export] Instance MemoryBudget_ledger_ops : LedgerOps MemoryBudget := {
  reserve c n b := tryReserve (JInt n) c b;
  refund c n b := release (JInt n) c b;
  balance := category;
  ledger_inv := budget_ok;
}.

Lemma category_insert c c' v b u :
  category c' (with_ledger u (<[c := v]> (mb_categories b)) b)
  = if decide (c = c') then v else category c' b.
Proof. unfold category; simpl. rewrite lookup_insert. by case_decide. Qed.

#[export] Instance MemoryBudget_ledger : Ledger MemoryBudget.
Proof.
  split; simpl.
  - intros l l' c n Hl Hn E. assert (budget_ok l') as Hok.
    { pose proof (tryReserve_ok (JInt n) c l Hl) as Hr. by rewrite E in Hr. }
    split; [done|]. unfold tryReserve in E. rewrite invalid_bytes_JInt, num_floor_JInt in E.
    repeat case_match; simplify_eq; bools; try lia.
    unfold category; simpl. split; [by rewrite lookup_insert_eq|].
    intros c' Hc'. by rewrite lookup_insert_ne.
  - intros l l' c n Hl Hn E. assert (budget_ok l') as Hok.
    { pose proof (tryReserve_ok (JInt n) c l Hl) as Hr. by rewrite E in Hr. }
    split; [done|]. unfold tryReserve in E. repeat case_match; by simplify_eq.
  - intros l c n Hl [Hn Hb]. split; [by apply release_ok|].
    unfold release. rewrite invalid_bytes_JInt, num_floor_JInt, (proj2 (Z.ltb_ge _ _)) by lia.
    pose proof (category_le_used _ c Hl). case_match eqn:Ha; bools.
    { split; [lia|done]. }
    rewrite !category_insert. rewrite decide_True by done. split; [lia|].
    intros c' Hc'. rewrite category_insert. by rewrite decide_False.
Qed.

(** ** Scaling *)

Lemma round53_bounds p : 0 <= p → 0 <= round53 p ∧ 2 ^ 52 * round53 p <= (2 ^ 52 + 1) * p.
Proof.
  intros Hp. unfold round53. destruct (_ <=? 0) eqn:E; bools; [nia|].
  set (k := Z.log2 p - 52) in *.
  assert (Hk : 2 ^ 52 * 2 ^ k <= p).
  { rewrite <- Z.pow_add_r by lia. replace (52 + k) with (Z.log2 p) by (unfold k; lia).
    apply Z.log2_spec. destruct (decide (p = 0)); [subst; simpl in *; lia|lia]. }
  assert (Hpk : 0 < 2 ^ k) by (apply Z.pow_pos_nonneg; lia).
  pose proof (Z.mul_div_le p (2 ^ k) Hpk).
  assert (0 <= p / 2 ^ k) by (apply Z.div_pos; lia).
  case_match; nia.
Qed.

Lemma floor_scale_bounds t m s :
  0 <= t → 0 <= m → 0 <= s → (2 ^ 52 + 1) * m <= 2 ^ 52 * 2 ^ s →
  0 <= floor_scale t m s <= t.
Proof.
  intros Ht Hm Hs Hms. unfold floor_scale.
  destruct (round53_bounds (t * m)) as [H0 H1]; [nia|].
  assert (Hps : 0 < 2 ^ s) by (apply Z.pow_pos_nonneg; lia).
  split; [apply Z.div_pos; lia|]. apply Z.div_le_upper_bound; [done|].
  assert (2 ^ 52 * round53 (t * m) <= 2 ^ 52 * (2 ^ s * t)) by nia. nia.
Qed.

Lemma scale07_bounds t : 0 <= t → 0 <= scale07 t <= t.
Proof. intros. apply floor_scale_bounds; [done|lia|lia|vm_compute; discriminate]. Qed.

Lemma scale005_bounds t : 0 <= t → 0 <= scale005 t <= t.
Proof. intros. apply floor_scale_bounds; [done|lia|lia|vm_compute; discriminate]. Qed.

(** ** Histories *)

(** What a registered callback may do to the ledger: release bytes. *)
Inductive released (b : MemoryBudget) : MemoryBudget → Prop :=
| released_refl : released b b
| released_step b' n c : released b b' → released b (release n c b').

Lemma released_ok b b' : budget_ok b → released b b' → budget_ok b'.
Proof. intros Hb; induction 1; auto with jsdb. Qed.

Lemma release_frame n c b :
  mb_target (release n c b) = mb_target b ∧ mb_cursor (release n c b) = mb_cursor b ∧
  mb_clients (release n c b) = mb_clients b ∧ mb_hardCap (release n c b) = mb_hardCap b ∧
  mb_minMemory (release n c b) = mb_minMemory b ∧ mb_state (release n c b) = mb_state b.
Proof. unfold release. repeat case_match; auto 10. Qed.

Lemma released_frame b b' :
  released b b' → mb_target b' = mb_target b ∧ mb_cursor b' = mb_cursor b ∧
  mb_clients b' = mb_clients b ∧ mb_hardCap b' = mb_hardCap b ∧
  mb_minMemory b' = mb_minMemory b ∧ mb_state b' = mb_state b.
Proof. induction 1 as [|b' n c _ IH]; [done|]. pose proof (release_frame n c b'). intuition congruence. Qed.

Lemma release_used_le n c b : budget_ok b → mb_used (release n c b) <= mb_used b.
Proof.
  intros Hb. unfold release. destruct (invalid_bytes n) eqn:Hn; [lia|].
  apply valid_bytes_nonneg in Hn. pose proof (category_nonneg _ c Hb).
  pose proof (bk_used_nonneg _ Hb). case_match; simpl; lia.
Qed.

Lemma released_used_le b b' : budget_ok b → released b b' → mb_used b' <= mb_used b.
Proof.
  intros Hb. induction 1 as [|b' n c Hr IH]; [lia|].
  pose proof (release_used_le n c b' (released_ok _ _ Hb Hr)). lia.
Qed.

Inductive budget_event :=
| BReserve (n : jsnum) (c : string)
| BRelease (n : jsnum) (c : string)
| BRegister (interval : option Z) (client : nat)
| BUnregister (client : nat)
| BSample (now : Z) (s : MemorySignals)
| BClose.

Section histories.
Context (evictOne : nat → MemoryBudget → MemoryBudget * option bool).
Context (opts : BudgetOptions).
Hypothesis evict_releases : ∀ c b, released b (evictOne c b).1.

Definition budget_step (b : MemoryBudget) (e : budget_event) : MemoryBudget :=
  match e with
  | BReserve n c => (tryReserve n c b).1
  | BRelease n c => release n c b
  | BRegister i c => register i c b
  | BUnregister c => unregister c b
  | BSample now s => sample evictOne opts now s b
  | BClose => closeBudget b
  end.

Lemma evict_result c b b' r : evictOne c b = (b', r) → released b b'.
Proof. intros E. pose proof (evict_releases c b) as H. by rewrite E in H. Qed.

Lemma evictBounded_ok max b : budget_ok b → budget_ok (evictBounded evictOne max b).
Proof.
  revert b. induction max as [|max IH]; intros b Hb; simpl; [done|].
  case_match; [done|]. destruct (evictOne _ _) as [b2 r] eqn:E. apply IH.
  assert (budget_ok b2).
  { apply evict_result in E. revert E. apply released_ok. by apply ok_with_counters. }
  case_match; auto with jsdb.
Qed.

Lemma retarget_ok now s b : budget_ok b → budget_ok (retarget opts now s b).
Proof.
  intros Hb. pose proof Hb as [[H0 H1] _ _ _].
  pose proof (scale07_bounds (mb_target b)). pose proof (scale07_bounds (mb_hardCap b)).
  pose proof (scale005_bounds (mb_hardCap b)).
  unfold retarget. fold (lower_bound b).
  repeat case_match; apply ok_with_pressure; auto; lia.
Qed.

Lemma sample_ok now s b : budget_ok b → budget_ok (sample evictOne opts now s b).
Proof.
  intros Hb. unfold sample. case_match; auto using evictBounded_ok, retarget_ok.
Qed.

(** C18: from any admissible limits, every sequence of reservations,
    releases, registrations and pressure samples keeps the accounted bytes
    equal to the sum of the categories and within the hard cap, no category
    negative, and the target between the floor and the hard cap. *)
Theorem budget_invariant h m b0 b :
  newMemoryBudget h m = Some b0 → reachable budget_step b0 b →
  mb_used b = catsum (mb_categories b) ∧ 0 <= mb_used b <= mb_hardCap b ∧
  (∀ c, 0 <= category c b) ∧ 1 <= lower_bound b <= mb_target b ∧
  mb_target b <= mb_hardCap b.
Proof.
  intros H0 Hr. assert (budget_ok b) as Hb.
  { revert b Hr. apply reachable_invariant; [by eapply newMemoryBudget_ok|].
    intros s e Hs. destruct e; simpl; unfold register, unregister, closeBudget;
      auto using sample_ok with jsdb. }
  pose proof (bk_used_nonneg _ Hb). pose proof (λ c, category_nonneg b c Hb).
  destruct Hb as [[? ?] ? ? ?]. auto 10.
Qed.

(** The callbacks run at most [max] times and only shrink the usage. *)
Lemma evictBounded_bounds max b :
  budget_ok b →
  (mb_cursor (evictBounded evictOne max b) ≤ mb_cursor b + max)%nat ∧
  mb_used (evictBounded evictOne max b) <= mb_used b ∧
  mb_target (evictBounded evictOne max b) = mb_target b ∧
  mb_state (evictBounded evictOne max b) = mb_state b.
Proof.
  revert b. induction max as [|max IH]; intros b Hb; simpl; [by auto with lia|].
  case_match; [by auto with lia|].
  set (b1 := with_counters _ _ _ (S (mb_cursor b)) b).
  destruct (evictOne _ b1) as [b2 r] eqn:E.
  assert (Hrel : released b1 b2) by by eapply evict_result.
  assert (Hb1 : budget_ok b1) by by apply ok_with_counters.
  pose proof (released_ok _ _ Hb1 Hrel) as Hb2.
  pose proof (released_used_le _ _ Hb1 Hrel) as Hu.
  pose proof (released_frame _ _ Hrel) as (Ht & Hc & _ & _ & _ & Hst). simpl in *.
  set (b3 := if bool_decide _ then _ else b2).
  assert (mb_cursor b3 = S (mb_cursor b) ∧ mb_used b3 <= mb_used b ∧
          mb_target b3 = mb_target b ∧ budget_ok b3 ∧ mb_state b3 = mb_state b)
    as (E1 & E2 & E3 & E4 & E5).
  { unfold b3; case_match; simpl; auto 10 with jsdb. }
  destruct (IH b3 E4) as (? & ? & ? & ?). split; [lia|]. split; [lia|]. split; congruence.
Qed.

Lemma evictBounded_progress max b :
  budget_ok b → mb_clients b ≠ [] →
  (∀ c b, (evictOne c b).2 = Some true ∧ mb_used (evictOne c b).1 < mb_used b) →
  mb_used (evictBounded evictOne max b) <= mb_target (evictBounded evictOne max b) ∨
  mb_used (evictBounded evictOne max b) <= mb_used b - Z.of_nat max.
Proof.
  intros Hb Hne Hprog. revert b Hb Hne.
  induction max as [|max IH]; intros b Hb Hne; simpl; [right; lia|].
  rewrite (bool_decide_false _ Hne); simpl.
  case_match eqn:Hle; bools; [by left|].
  set (b1 := with_counters _ _ _ (S (mb_cursor b)) b).
  set (c := default _ _). destruct (Hprog c b1) as [Hr Hu].
  pose proof (evict_releases c b1) as Hrel.
  destruct (evictOne c b1) as [b2 r]; simpl in *; subst r.
  assert (Hb1 : budget_ok b1) by by apply ok_with_counters.
  pose proof (released_ok _ _ Hb1 Hrel) as Hb2.
  pose proof (released_frame _ _ Hrel) as (_ & _ & Hc & _). simpl.
  destruct (IH (with_counters (mb_evictions b2 + 1) (mb_admissions b2)
                  (mb_failedAdmissions b2) (mb_cursor b2) b2)) as [H|H].
  - by apply ok_with_counters.
  - simpl. by rewrite Hc.
  - by left.
  - right. simpl in H. lia.
Qed.

(** a sample calls at most 32 eviction callbacks, never raises the
    usage, and when each callback frees at least one byte it either brings
    the usage within the target or frees 32 bytes. *)
Theorem sample_eviction_bounded now s b :
  budget_ok b →
  (mb_cursor (sample evictOne opts now s b) ≤ mb_cursor b + 32)%nat ∧
  mb_used (sample evictOne opts now s b) <= mb_used b ∧
  ((∀ c b, (evictOne c b).2 = Some true ∧ mb_used (evictOne c b).1 < mb_used b) →
   mb_clients b ≠ [] →
   mb_used (sample evictOne opts now s b) <= mb_target (sample evictOne opts now s b) ∨
   mb_used (sample evictOne opts now s b) <= mb_used b - 32).
Proof.
  intros Hb. assert (Hframe : mb_cursor (retarget opts now s b) = mb_cursor b ∧
    mb_used (retarget opts now s b) = mb_used b ∧
    mb_clients (retarget opts now s b) = mb_clients b).
  { unfold retarget. repeat case_match; auto. }
  destruct Hframe as (Hcur & Hused & Hcl).
  pose proof (retarget_ok now s b Hb) as Hb1. unfold sample.
  destruct (mb_target _ <? mb_used _) eqn:Hlt; bools.
  2:{ rewrite Hcur, Hused. split; [lia|]. split; [lia|]. intros; left; lia. }
  rewrite <- Hcur, <- Hused, <- Hcl. generalize dependent (retarget opts now s b).
  intros b1 _ _ _ Hb1 _. destruct (evictBounded_bounds 32 b1 Hb1) as (E1 & E2 & E3 & _).
  split; [done|]. split; [done|]. intros Hprog Hne. change 32 with (Z.of_nat 32).
  apply evictBounded_progress; done.
Qed.
End histories.

(** ** Exact behaviour of the operations *)

(** a valid reservation is accepted exactly when it fits under the
    target; it then adds its bytes to the usage and to its category only, an
    exact release undoes it, and a refused or invalid one leaves usage and
    categories unchanged. *)
Theorem tryReserve_exact n c b :
  budget_ok b →
  let '(b', ok) := tryReserve n c b in
  (ok = true ↔ invalid_bytes n = false ∧ mb_used b + num_floor n <= mb_target b) ∧
  (ok = true →
     mb_used b' = mb_used b + num_floor n ∧ mb_used b' <= mb_target b' ∧
     category c b' = category c b + num_floor n ∧
     (∀ c', c' ≠ c → category c' b' = category c' b) ∧
     mb_used (release n c b') = mb_used b ∧
     (∀ c', category c' (release n c b') = category c' b)) ∧
  (ok = false → mb_used b' = mb_used b ∧ mb_categories b' = mb_categories b).
Proof.
  intros Hb. pose proof (tryReserve_ok n c b Hb) as Hb'. revert Hb'. unfold tryReserve.
  destruct (invalid_bytes n) eqn:Hn; [naive_solver|]. pose proof (valid_bytes_nonneg _ Hn).
  destruct (mb_target b <? _) eqn:Ht; bools; intros Hb'.
  { split; [|naive_solver]. split; [done|]. intros [_ ?]; lia. }
  split; [naive_solver|]. split; [|done]. intros _.
  assert (Hcat : category c (tryReserve n c b).1 = category c b + num_floor n).
  { unfold tryReserve. rewrite Hn, (proj2 (Z.ltb_ge _ _)) by done.
    unfold category; simpl. by rewrite lookup_insert_eq. }
  pose proof (category_nonneg _ c Hb). pose proof (bk_used_nonneg _ Hb).
  unfold category in *; simpl in *. unfold release. rewrite Hn. unfold category; simpl.
  rewrite lookup_insert_eq; simpl.
  split; [done|]. split; [done|]. split; [done|].
  split; [intros c' Hc'; by rewrite lookup_insert_ne|].
  rewrite Z.min_l by lia. case_match eqn:Hz; bools; simpl.
  - split; [lia|]. intros c'. rewrite lookup_insert. case_decide; [subst; simpl; lia|done].
  - split; [lia|]. intros c'. rewrite insert_insert_eq, lookup_insert.
    case_decide; [subst; simpl; lia|done].
Qed.

Lemma scale07_lt t : 0 < t → scale07 t < t.
Proof.
  intros Ht. unfold scale07, floor_scale.
  destruct (round53_bounds (t * 3152519739159347)); [lia|].
  apply Z.div_lt_upper_bound; [lia|]. lia.
Qed.

Lemma classify_frame b b' s :
  mb_hardCap b' = mb_hardCap b → mb_used b' = mb_used b →
  mb_used b <= mb_target b → mb_used b' <= mb_target b' →
  classify b' s = classify b s.
Proof.
  intros E1 E2 H H'. unfold classify. rewrite E1, E2. rewrite E2 in H'.
  by rewrite (proj2 (Z.ltb_ge (mb_target b) _)), (proj2 (Z.ltb_ge (mb_target b') _)).
Qed.

Section recovery.
Context (evictOne : nat → MemoryBudget → MemoryBudget * option bool).
Context (opts : BudgetOptions).

Definition recovery_step (b : MemoryBudget) : Z := Z.max 1 (scale005 (mb_hardCap b)).

Lemma sample_healthy now s b r :
  budget_ok b → mb_used b <= mb_target b → classify b s = (false, false) →
  mb_recoveryAt b = Some r → (bo_recoveryWindowMs opts ?? 30000) <= now - r →
  sample evictOne opts now s b =
  with_pressure PNormal (Z.min (mb_hardCap b) (mb_target b + recovery_step b))
    None (Some r) b.
Proof.
  intros [[? ?] _ _ ?] Hu Hc Hr Hw. unfold sample, retarget. rewrite Hc, Hr; simpl.
  rewrite (proj2 (Z.leb_le _ _) Hw). simpl.
  fold (recovery_step b). rewrite (proj2 (Z.ltb_ge _ _)); [done|].
  unfold recovery_step. lia.
Qed.

(** after the recovery window, each healthy sample raises the target by
    the recovery step until it is back at the hard cap, so
    [hardCap - target] samples always restore it, in the normal state. *)
Theorem sample_recovers s b r (nows : list Z) :
  budget_ok b → mb_used b <= mb_target b → classify b s = (false, false) →
  mb_recoveryAt b = Some r →
  Forall (λ now, (bo_recoveryWindowMs opts ?? 30000) <= now - r) nows →
  let b' := foldl (λ b now, sample evictOne opts now s b) b nows in
  mb_target b' =
    Z.min (mb_hardCap b) (mb_target b + Z.of_nat (length nows) * recovery_step b) ∧
  (nows ≠ [] → mb_state b' = PNormal) ∧
  (mb_hardCap b - mb_target b <= Z.of_nat (length nows) → mb_target b' = mb_hardCap b).
Proof.
  intros Hb Hu Hc Hr Hn. cut (let b' := foldl (λ b now, sample evictOne opts now s b) b nows in
    mb_target b' = Z.min (mb_hardCap b) (mb_target b + Z.of_nat (length nows) * recovery_step b)
    ∧ (nows ≠ [] → mb_state b' = PNormal)).
  { simpl. intros [-> Hs]. split; [done|]. split; [done|]. intros Hl.
    assert (1 <= recovery_step b) by (unfold recovery_step; lia). nia. }
  simpl. revert b Hb Hu Hc Hr. induction Hn as [|now nows Hw _ IH]; intros b Hb Hu Hc Hr; simpl.
  { destruct Hb as [[? ?] _ _ _]. split; [lia|done]. }
  rewrite (sample_healthy now s b r) by done.
  assert (1 <= recovery_step b) by (unfold recovery_step; lia).
  pose proof Hb as [[? ?] _ _ ?].
  set (b1 := with_pressure _ _ _ _ b).
  assert (Hb1 : budget_ok b1) by (apply ok_with_pressure; [done|lia]).
  assert (mb_used b1 <= mb_target b1) by (simpl; lia).
  destruct (IH b1) as [-> Hs]; [done|done| |done|].
  { rewrite <- Hc. by apply classify_frame. }
  split; [|intros _; destruct nows; [done|by apply Hs]].
  change (recovery_step b1) with (recovery_step b). simpl. lia.
Qed.

(** every critical sample moves the target to 70% of itself (in binary64,
    rounded down) but not below the floor, strictly lowering it until the
    floor is reached, and leaves the budget critical. *)
Theorem critical_backs_off now s b :
  (∀ c b, released b (evictOne c b).1) →
  budget_ok b → (classify b s).1 = true →
  let b' := sample evictOne opts now s b in
  mb_state b' = PCritical ∧
  mb_target b' = Z.max (lower_bound b) (scale07 (mb_target b)) ∧
  lower_bound b <= mb_target b' ∧
  (lower_bound b < mb_target b → mb_target b' < mb_target b).
Proof.
  intros Hrel Hb Hc. pose proof (retarget_ok opts now s b Hb) as Hb1.
  pose proof Hb as [[? ?] _ _ _]. pose proof (scale07_lt (mb_target b)).
  assert (Hst : mb_state (retarget opts now s b) = PCritical ∧
    mb_target (retarget opts now s b) = Z.max (lower_bound b) (scale07 (mb_target b))).
  { unfold retarget. destruct (classify b s) as [cr pr]; simpl in *; subst cr. done. }
  destruct Hst as [Hst Ht]. simpl. unfold sample.
  assert (∀ b2, mb_state b2 = PCritical →
    mb_target b2 = Z.max (lower_bound b) (scale07 (mb_target b)) →
    mb_state b2 = PCritical ∧ mb_target b2 = Z.max (lower_bound b) (scale07 (mb_target b)) ∧
    lower_bound b <= mb_target b2 ∧ (lower_bound b < mb_target b → mb_target b2 < mb_target b))
    as Hgoal by (intros b2 -> ->; repeat split; lia).
  case_match; apply Hgoal; [| |done..].
  - destruct (evictBounded_bounds evictOne Hrel 32 _ Hb1) as (_ & _ & _ & ->). done.
  - destruct (evictBounded_bounds evictOne Hrel 32 _ Hb1) as (_ & _ & -> & _). done.
Qed.
End recovery.

(** ** Witnesses *)

(** A client that releases ten bytes of the ["fresh"] category per call. *)
Definition demo_evict (_ : nat) (b : MemoryBudget) : MemoryBudget * option bool :=
  (release (JInt 10) "fresh" b, Some true).

Lemma demo_evict_releases c b : released b (demo_evict c b).1.
Proof. apply released_step, released_refl. Qed.

Definition demo_budget_opts : BudgetOptions :=
  {| bo_pressureWindowMs := None; bo_recoveryWindowMs := Some 100 |}.

Definition demo_budget : MemoryBudget :=
  default (closeBudget (with_pressure PNormal 0 None None
    {| mb_hardCap := 0; mb_minMemory := None; mb_target := 0; mb_used := 0;
       mb_categories := ∅; mb_clients := []; mb_cursor := 0; mb_state := PNormal;
       mb_pressureAt := None; mb_recoveryAt := None; mb_sampling := false;
       mb_evictions := 0; mb_admissions := 0; mb_failedAdmissions := 0 |}))
    (newMemoryBudget 100 (Some 20)).

Definition demo_signals : MemorySignals :=
  {| ms_availableBytes := Some 3; ms_effectiveBytes := Some 100; ms_psiSomeAvg10 := None |}.

Definition calm_signals : MemorySignals :=
  {| ms_availableBytes := Some 60; ms_effectiveBytes := Some 100; ms_psiSomeAvg10 := None |}.

Definition demo_history : MemoryBudget :=
  run_events (budget_step demo_evict demo_budget_opts) demo_budget
    [BRegister None 0%nat; BReserve (JInt 90) "fresh"; BSample 5 demo_signals].

Lemma demo_budget_ok : budget_ok demo_budget.
Proof. by apply (newMemoryBudget_ok 100 (Some 20)). Qed.

Lemma budget_invariant_witness :
  mb_used demo_history = 70 ∧ mb_target demo_history = 70 ∧
  0 <= mb_used demo_history <= mb_hardCap demo_history.
Proof.
  split; [vm_compute; reflexivity|]. split; [vm_compute; reflexivity|].
  apply (budget_invariant demo_evict demo_budget_opts demo_evict_releases
           100 (Some 20) demo_budget demo_history); [reflexivity|].
  apply reachable_run.
Defined.

Lemma sample_eviction_bounded_witness :
  mb_used (sample demo_evict demo_budget_opts 9 demo_signals demo_history)
    <= mb_used demo_history.
Proof.
  apply (sample_eviction_bounded demo_evict demo_budget_opts demo_evict_releases
           9 demo_signals demo_history).
  assert (reachable (budget_step demo_evict demo_budget_opts) demo_budget demo_history)
    as Hr by apply reachable_run.
  revert Hr. apply reachable_invariant; [apply demo_budget_ok|].
  intros s e Hs. destruct e; simpl; unfold register, unregister, closeBudget;
    auto using sample_ok, demo_evict_releases with jsdb.
Defined.

Lemma tryReserve_exact_witness :
  mb_used (tryReserve (JInt 90) "fresh" demo_budget).1 = 90.
Proof.
  pose proof (tryReserve_exact (JInt 90) "fresh" demo_budget demo_budget_ok) as H.
  vm_compute in H |- *. apply H. reflexivity.
Defined.

Definition demo_recovering : MemoryBudget := with_pressure PCritical 40 None (Some 0) demo_budget.

Lemma sample_recovers_witness :
  mb_target (foldl (λ b now, sample demo_evict demo_budget_opts now calm_signals b)
               demo_recovering [100; 200; 300]) = 55.
Proof.
  destruct (sample_recovers demo_evict demo_budget_opts calm_signals demo_recovering 0
              [100; 200; 300]) as [-> _]; [|vm_compute; discriminate|reflexivity|reflexivity| |].
  - apply ok_with_pressure; [apply demo_budget_ok|vm_compute; split; discriminate].
  - repeat constructor; vm_compute; discriminate.
  - vm_compute. reflexivity.
Defined.

Lemma critical_backs_off_witness :
  mb_target (sample demo_evict demo_budget_opts 5 demo_signals demo_budget) = 70.
Proof.
  destruct (critical_backs_off demo_evict demo_budget_opts 5 demo_signals demo_budget
              demo_evict_releases demo_budget_ok) as (_ & -> & _).
  - vm_compute. reflexivity.
  - vm_compute. reflexivity.
Defined.
