(* ===== verification/OriginLoadGate.v ===== *)
(** * The origin load gate ([src/src/cache/originLoadGate.ts])

    A finite FIFO gate in front of the origin loader. Every asynchronous entry
    point is an event: an [acquire] call, the call of a reservation's release
    closure, the queue timer of a waiter, the abort of its signal, [close].
    A waiter or reservation is identified by the number of its [acquire] call;
    [g_held] are the reservations whose closure has not run yet (the local
    [released] flag of the source). The memory budget is any instance of the
    ledger interface. *)

From S2P Require Import Prelude Ledger Fifo MemoryBudget.

(** ** The source *)

Definition DEFAULT_ORIGIN_MAX_CONCURRENT : Z := 32.
Definition DEFAULT_ORIGIN_MAX_QUEUED : Z := 1024.
Definition DEFAULT_ORIGIN_QUEUE_TIMEOUT_MS : Z := 1000.
Definition MAX_QUEUED_KEY_BYTES : Z := 2 * 1024 * 1024.

Inductive gate_error := OriginLoadOverloadError | OriginLoadClosedError | SignalAborted.

Record OriginLoadOptions := {
  olo_maxConcurrent : option jsnum;
  olo_maxQueued : option jsnum;
  olo_queueTimeoutMs : option jsnum;
}.

Record GateLimits := {
  gl_maxConcurrent : Z;
  gl_maxQueued : Z;
  gl_queueTimeoutMs : Z;
}.

(** The constructor's checks; [None] is the [RangeError]. *)
Definition originGateLimits (o : OriginLoadOptions) : option GateLimits :=
  let mc := olo_maxConcurrent o ?? JInt DEFAULT_ORIGIN_MAX_CONCURRENT in
  let mq := olo_maxQueued o ?? JInt DEFAULT_ORIGIN_MAX_QUEUED in
  let qt := olo_queueTimeoutMs o ?? JInt DEFAULT_ORIGIN_QUEUE_TIMEOUT_MS in
  if negb (forallb num_is_safe_integer [mc; mq; qt])
     || num_le mc (JInt 0) || num_lt mq (JInt 0) || num_lt qt (JInt 0)
     || num_lt (JInt (2 ^ 31 - 1)) qt
  then None
  else Some {| gl_maxConcurrent := num_floor mc; gl_maxQueued := num_floor mq;
               gl_queueTimeoutMs := num_floor qt |}.

Record waiter := { w_id : nat; w_key : jsstring; w_bytes : Z }.

Record gate (L : Type) := {
  g_active : Z;
  g_queued : list waiter;
  g_closed : bool;
  g_rejected : Z;
  g_maxObserved : Z;
  g_queuedBytes : Z;
  g_budget : option L;
  g_held : list nat;
  g_next : nat;
}.
Arguments g_active {L}. Arguments g_queued {L}. Arguments g_closed {L}.
Arguments g_rejected {L}. Arguments g_maxObserved {L}. Arguments g_queuedBytes {L}.
Arguments g_budget {L}. Arguments g_held {L}. Arguments g_next {L}.

(** What an event does for the callers: admissions and rejections, in order. *)
Inductive gate_out := Admit (id : nat) | Reject (id : nat) (e : gate_error).

Section gate.
Context {L : Type} `{Ledger L} (limits : GateLimits).

Definition newGate (budget : option L) : gate L :=
  {| g_active := 0; g_queued := []; g_closed := false; g_rejected := 0;
     g_maxObserved := 0; g_queuedBytes := 0; g_budget := budget; g_held := [];
     g_next := 0 |}.

(** [this.active += 1] with the high-water mark, and a fresh reservation. *)
Definition grant_slot (id : nat) (g : gate L) : gate L :=
  {| g_active := g_active g + 1; g_queued := g_queued g; g_closed := g_closed g;
     g_rejected := g_rejected g;
     g_maxObserved := Z.max (g_maxObserved g) (g_active g + 1);
     g_queuedBytes := g_queuedBytes g; g_budget := g_budget g;
     g_held := g_held g ++ [id]; g_next := g_next g |}.

Definition take_id (g : gate L) : gate L :=
  {| g_active := g_active g; g_queued := g_queued g; g_closed := g_closed g;
     g_rejected := g_rejected g; g_maxObserved := g_maxObserved g;
     g_queuedBytes := g_queuedBytes g; g_budget := g_budget g; g_held := g_held g;
     g_next := S (g_next g) |}.

Definition count_rejected (g : gate L) : gate L :=
  {| g_active := g_active g; g_queued := g_queued g; g_closed := g_closed g;
     g_rejected := g_rejected g + 1; g_maxObserved := g_maxObserved g;
     g_queuedBytes := g_queuedBytes g; g_budget := g_budget g; g_held := g_held g;
     g_next := g_next g |}.

Definition with_queue (q : list waiter) (qb : Z) (bu : option L) (g : gate L) : gate L :=
  {| g_active := g_active g; g_queued := q; g_closed := g_closed g;
     g_rejected := g_rejected g; g_maxObserved := g_maxObserved g;
     g_queuedBytes := qb; g_budget := bu; g_held := g_held g; g_next := g_next g |}.

(** [acquire] up to its first suspension; [key] is [String(key)]. *)
Definition acquire (key : jsstring) (aborted : bool) (g0 : gate L)
    : gate L * list gate_out :=
  let id := g_next g0 in
  let g := take_id g0 in
  if g_closed g then (g, [Reject id OriginLoadClosedError])
  else if aborted then (g, [Reject id SignalAborted])
  else if g_active g <? gl_maxConcurrent limits then (grant_slot id g, [Admit id])
  else if (gl_maxQueued limits <=? Z.of_nat (length (g_queued g)))
          || (gl_maxQueued limits =? 0)
  then (count_rejected g, [Reject id OriginLoadOverloadError])
  else
    let b := utf8_length key * 2 + 128 in
    if MAX_QUEUED_KEY_BYTES <? g_queuedBytes g + b
    then (count_rejected g, [Reject id OriginLoadOverloadError])
    else
      let '(bu, ok) := opt_reserve "queue" b (g_budget g) in
      if negb ok
      then (count_rejected (with_queue (g_queued g) (g_queuedBytes g) bu g),
            [Reject id OriginLoadOverloadError])
      else (with_queue (g_queued g ++ [{| w_id := id; w_key := key; w_bytes := b |}])
              (g_queuedBytes g + b) bu g, []).

(** [cleanupWaiter]: the accounting part (timers and listeners are events
    that no longer find the waiter). *)
Definition cleanupWaiter (w : waiter) (g : gate L) : gate L :=
  with_queue (g_queued g) (g_queuedBytes g - w_bytes w)
    (opt_refund "queue" (w_bytes w) (g_budget g)) g.

(** [this.queued.delete(waiter)] answers whether the waiter was there. *)
Definition queued_waiter (id : nat) (g : gate L) : option waiter :=
  find_by w_id id (g_queued g).

Definition dequeue (id : nat) (g : gate L) : gate L :=
  with_queue (remove_by w_id id (g_queued g)) (g_queuedBytes g) (g_budget g) g.

(** [release] *)
Definition releaseSlot (g0 : gate L) : gate L * list gate_out :=
  let g :=
    if 0 <? g_active g0 then
      {| g_active := g_active g0 - 1; g_queued := g_queued g0; g_closed := g_closed g0;
         g_rejected := g_rejected g0; g_maxObserved := g_maxObserved g0;
         g_queuedBytes := g_queuedBytes g0; g_budget := g_budget g0;
         g_held := g_held g0; g_next := g_next g0 |}
    else g0 in
  match g_queued g with
  | [] => (g, [])
  | w :: q =>
      let g1 := with_queue q (g_queuedBytes g) (g_budget g) g in
      (grant_slot (w_id w) (cleanupWaiter w g1), [Admit (w_id w)])
  end.

(** The closure [reservation] returns: only its first call releases. *)
Definition release_reservation (id : nat) (g : gate L) : gate L * list gate_out :=
  if bool_decide (id ∈ g_held g) then
    releaseSlot
      {| g_active := g_active g; g_queued := g_queued g; g_closed := g_closed g;
         g_rejected := g_rejected g; g_maxObserved := g_maxObserved g;
         g_queuedBytes := g_queuedBytes g; g_budget := g_budget g;
         g_held := filter (λ i, i ≠ id) (g_held g); g_next := g_next g |}
  else (g, []).

(** The queue timer of a waiter. *)
Definition queue_timeout (id : nat) (g : gate L) : gate L * list gate_out :=
  match queued_waiter id g with
  | None => (g, [])
  | Some w =>
      (count_rejected (cleanupWaiter w (dequeue id g)),
       [Reject id OriginLoadOverloadError])
  end.

(** The abort listener of a waiter. *)
Definition abort_waiter (id : nat) (g : gate L) : gate L * list gate_out :=
  match queued_waiter id g with
  | None => (g, [])
  | Some w =>
      (cleanupWaiter w (dequeue id g),
       [Reject id SignalAborted])
  end.

(** [close] *)
Definition close_gate (g0 : gate L) : gate L * list gate_out :=
  let g := foldl (λ g w, cleanupWaiter w g) g0 (g_queued g0) in
  ({| g_active := g_active g; g_queued := []; g_closed := true;
      g_rejected := g_rejected g; g_maxObserved := g_maxObserved g;
      g_queuedBytes := g_queuedBytes g; g_budget := g_budget g;
      g_held := g_held g; g_next := g_next g |},
   (λ w, Reject (w_id w) OriginLoadClosedError) <$> g_queued g0).

Inductive gate_event :=
| EvAcquire (key : jsstring) (aborted : bool)
| EvRelease (id : nat)
| EvTimeout (id : nat)
| EvAbort (id : nat)
| EvClose.

Definition gate_step (g : gate L) (e : gate_event) : gate L * list gate_out :=
  match e with
  | EvAcquire key ab => acquire key ab g
  | EvRelease id => release_reservation id g
  | EvTimeout id => queue_timeout id g
  | EvAbort id => abort_waiter id g
  | EvClose => close_gate g
  end.

(** A history: the gate with everything it has answered so far. *)
Definition history_step (h : gate L * list gate_out) (e : gate_event)
    : gate L * list gate_out :=
  let '(g', out) := gate_step h.1 e in (g', h.2 ++ out).

Definition admitted (out : list gate_out) : list nat :=
  omap (λ o, match o with Admit id => Some id | _ => None end) out.

(** ** The invariant of a history *)

(** The gate's bytes are exactly its waiters' bytes, mirrored in the
    ledger; a waiter waits only while every slot is taken; the admissions so
    far and then the waiters are in arrival order. *)
Record gate_ok (base : Z) (h : gate L * list gate_out) : Prop := {
  gk_active : g_active h.1 = Z.of_nat (length (g_held h.1));
  gk_bound : g_active h.1 <= g_maxObserved h.1 ∧
             g_maxObserved h.1 <= gl_maxConcurrent limits;
  gk_queue : Z.of_nat (length (g_queued h.1)) <= gl_maxQueued limits;
  gk_bytes : g_queuedBytes h.1 = sumZ w_bytes (g_queued h.1);
  gk_pos : ∀ w, w ∈ g_queued h.1 → 128 <= w_bytes w;
  gk_cap : g_queuedBytes h.1 <= MAX_QUEUED_KEY_BYTES;
  gk_busy : g_queued h.1 ≠ [] → g_active h.1 = gl_maxConcurrent limits;
  gk_closed : g_closed h.1 = true → g_queued h.1 = [];
  gk_ledger : holds "queue" (base + g_queuedBytes h.1) (g_budget h.1);
  gk_order : ascending (admitted h.2 ++ (w_id <$> g_queued h.1));
  gk_fresh : ∀ i, i ∈ admitted h.2 ++ (w_id <$> g_queued h.1) → (i < g_next h.1)%nat;
  gk_held : NoDup (g_held h.1) ∧ ∀ i, i ∈ g_held h.1 → i ∈ admitted h.2;
}.

Lemma admitted_app o1 o2 : admitted (o1 ++ o2) = admitted o1 ++ admitted o2.
Proof. apply omap_app. Qed.

Hypothesis limits_ok : 0 < gl_maxConcurrent limits ∧ 0 <= gl_maxQueued limits.

Lemma newGate_ok base bu : holds "queue" base bu → gate_ok base (newGate bu, []).
Proof.
  intros Hb. split; simpl; try done; try lia; try (by unfold MAX_QUEUED_KEY_BYTES; lia).
  - by intros w Hw%not_elem_of_nil.
  - by rewrite Z.add_0_r.
  - constructor.
  - by intros i Hi%not_elem_of_nil.
  - split; [constructor|]. by intros i Hi%not_elem_of_nil.
Qed.

(** Turning an event that touches neither slots nor queue. *)
Lemma gate_ok_reject base g out id e :
  gate_ok base (g, out) → gate_ok base (g, out ++ [Reject id e]).
Proof.
  intros [H1 H2 H3 H4 H5 H6 H7 H8 H9 H10 H11 H12]; split; simpl in *; auto;
    rewrite admitted_app, app_nil_r; auto.
Qed.

Lemma gate_ok_take_id base g out : gate_ok base (g, out) → gate_ok base (take_id g, out).
Proof.
  intros [H1 H2 H3 H4 H5 H6 H7 H8 H9 H10 H11 H12]; split; simpl in *; auto.
  intros i Hi. specialize (H11 i Hi). lia.
Qed.

Lemma gate_ok_count base g out : gate_ok base (g, out) → gate_ok base (count_rejected g, out).
Proof.
  intros [H1 H2 H3 H4 H5 H6 H7 H8 H9 H10 H11 H12]; split; simpl in *; auto.
Qed.

Lemma gate_ok_ledger base g out bu :
  gate_ok base (g, out) → holds "queue" (base + g_queuedBytes g) bu →
  gate_ok base (with_queue (g_queued g) (g_queuedBytes g) bu g, out).
Proof.
  intros [H1 H2 H3 H4 H5 H6 H7 H8 H9 H10 H11 H12] ?; split; simpl in *; auto.
Qed.

Lemma gate_ok_nonneg base h : gate_ok base h → 0 <= g_queuedBytes h.1.
Proof.
  intros Hg. rewrite (gk_bytes _ _ Hg). apply sumZ_nonneg.
  intros w Hw. pose proof (gk_pos _ _ Hg w Hw). lia.
Qed.

(** A free slot means nobody waits. *)
Lemma gate_ok_free base g out :
  gate_ok base (g, out) → g_active g < gl_maxConcurrent limits → g_queued g = [].
Proof.
  intros Hg Hlt. destruct (g_queued g) as [|w q] eqn:Hq; [done|].
  pose proof (gk_busy _ _ Hg) as Hb; simpl in Hb. rewrite Hb in Hlt; [lia|]. by rewrite Hq.
Qed.

Lemma gate_ok_admit base g out :
  gate_ok base (g, out) → g_active g < gl_maxConcurrent limits →
  gate_ok base (grant_slot (g_next g) (take_id g), out ++ [Admit (g_next g)]).
Proof.
  intros Hg Hlt. pose proof (gate_ok_free _ _ _ Hg Hlt) as Hq.
  destruct Hg as [H1 [H2 H2'] H3 H4 H5 H6 H7 H8 H9 H10 H11 [H12 H13]]; simpl in *.
  rewrite Hq, app_nil_r in *.
  split; simpl; rewrite ?Hq, ?admitted_app, ?length_app, ?app_nil_r; simpl; try done.
  - lia.
  - lia.
  - by apply ascending_snoc.
  - intros i [Hi| ->%list_elem_of_singleton]%elem_of_app; [specialize (H11 i Hi)|]; lia.
  - split.
    + apply NoDup_app. split; [done|]. split; [|apply NoDup_singleton].
      intros i Hi ->%list_elem_of_singleton. specialize (H11 _ (H13 _ Hi)). lia.
    + intros i [Hi|Hi]%elem_of_app; apply elem_of_app; auto.
Qed.

Lemma gate_ok_enqueue base g out key bu b :
  gate_ok base (g, out) → g_closed g = false →
  g_active g = gl_maxConcurrent limits →
  Z.of_nat (length (g_queued g)) < gl_maxQueued limits →
  128 <= b → g_queuedBytes g + b <= MAX_QUEUED_KEY_BYTES →
  holds "queue" (base + (g_queuedBytes g + b)) bu →
  gate_ok base
    (with_queue (g_queued g ++ [{| w_id := g_next g; w_key := key; w_bytes := b |}])
       (g_queuedBytes g + b) bu (take_id g), out).
Proof.
  intros [H1 [H2 H2'] H3 H4 H5 H6 H7 H8 H9 H10 H11 [H12 H13]]; simpl in *.
  intros Hop Hfull Hlen Hb Hcap Hbu.
  split; simpl; rewrite ?fmap_app, ?app_assoc; simpl; try done.
  - rewrite length_app; simpl. lia.
  - rewrite sumZ_app; simpl. lia.
  - intros w [Hw| ->%list_elem_of_singleton]%elem_of_app; simpl; auto.
  - by rewrite Hop.
  - by apply ascending_snoc.
  - intros i [Hi| ->%list_elem_of_singleton]%elem_of_app; [specialize (H11 i Hi)|]; lia.
Qed.

Lemma acquire_ok base g out key ab :
  gate_ok base (g, out) →
  gate_ok base ((acquire key ab g).1, out ++ (acquire key ab g).2).
Proof.
  intros Hg. pose proof (gate_ok_nonneg _ _ Hg) as Hnn.
  pose proof (gate_ok_take_id _ _ _ Hg) as Ht. simpl in Hnn. unfold acquire; simpl.
  destruct (g_closed g) eqn:Hc; [by apply gate_ok_reject|].
  destruct ab; [by apply gate_ok_reject|].
  destruct (g_active g <? _) eqn:Hslot; bools; [by apply gate_ok_admit|].
  destruct (_ || _) eqn:Hfull; bools; [by apply gate_ok_reject, gate_ok_count|].
  destruct (MAX_QUEUED_KEY_BYTES <? _) eqn:Hcap; bools;
    [by apply gate_ok_reject, gate_ok_count|].
  pose proof (utf8_length_nonneg key) as Hk.
  pose proof (gk_ledger _ _ Hg) as Hl; simpl in Hl.
  destruct (opt_reserve _ _ _) as [bu []] eqn:Hr; simpl.
  - rewrite app_nil_r. pose proof (gk_bound _ _ Hg) as [? ?]; simpl in *.
    apply gate_ok_enqueue; try done; try lia.
    replace (base + (g_queuedBytes g + (utf8_length key * 2 + 128)))
      with (base + g_queuedBytes g + (utf8_length key * 2 + 128)) by lia.
    eapply holds_reserve_true; [|done|done]. lia.
  - apply gate_ok_reject, gate_ok_count.
    apply (gate_ok_ledger base (take_id g)); [done|]. simpl.
    eapply holds_reserve_false; [|done|done]. lia.
Qed.

Lemma gate_ok_ids base g out : gate_ok base (g, out) → NoDup (w_id <$> g_queued g).
Proof.
  intros Hg. pose proof (ascending_NoDup _ (gk_order _ _ Hg)) as Hnd; simpl in Hnd.
  by apply NoDup_app in Hnd as (_ & _ & ?).
Qed.

Lemma gate_ok_leave base g out id w :
  0 <= base → gate_ok base (g, out) → queued_waiter id g = Some w →
  gate_ok base (cleanupWaiter w (dequeue id g), out).
Proof.
  intros Hbase Hg Hf. pose proof (gate_ok_nonneg _ _ Hg) as Hnn.
  destruct (remove_by_found w_id w_bytes id _ w (gate_ok_ids _ _ _ Hg) Hf) as (Hp & Hs & Hlen).
  destruct (find_by_Some _ _ _ _ Hf) as [Hw _].
  assert (Hin : ∀ v, v ∈ remove_by w_id id (g_queued g) → v ∈ g_queued g)
    by (intros v Hv; rewrite Hp; by right).
  pose proof (remove_by_ids w_id id (g_queued g)) as Hsub.
  destruct Hg as [H1 [H2 H2'] H3 H4 H5 H6 H7 H8 H9 H10 H11 H12]; simpl in *.
  assert (w_bytes w <= g_queuedBytes g).
  { rewrite H4. apply sumZ_elem; [|done]. intros b Hb. specialize (H5 b Hb). lia. }
  pose proof (H5 w Hw).
  split; simpl; try done.
  - lia.
  - lia.
  - auto.
  - lia.
  - intros _. apply H7. intros Hq. rewrite Hq in Hw.
    by apply not_elem_of_nil in Hw.
  - intros Hcl. rewrite (H8 Hcl) in Hw. by apply not_elem_of_nil in Hw.
  - replace (base + (g_queuedBytes g - w_bytes w))
      with (base + g_queuedBytes g - w_bytes w) by lia.
    apply holds_refund; [lia|done].
  - by eapply ascending_app_sublist.
  - intros i Hi. apply H11. apply elem_of_app in Hi as [Hi|Hi]; apply elem_of_app; [by left|].
    right. eapply elem_of_submseteq; [exact Hi|]. by apply sublist_submseteq.
Qed.

Lemma queue_timeout_ok base g out id :
  0 <= base → gate_ok base (g, out) →
  gate_ok base ((queue_timeout id g).1, out ++ (queue_timeout id g).2).
Proof.
  intros Hb Hg. unfold queue_timeout.
  destruct (queued_waiter id g) as [w|] eqn:Hf; simpl; [|by rewrite app_nil_r].
  apply gate_ok_reject, gate_ok_count. by eapply gate_ok_leave.
Qed.

Lemma abort_waiter_ok base g out id :
  0 <= base → gate_ok base (g, out) →
  gate_ok base ((abort_waiter id g).1, out ++ (abort_waiter id g).2).
Proof.
  intros Hb Hg. unfold abort_waiter.
  destruct (queued_waiter id g) as [w|] eqn:Hf; simpl; [|by rewrite app_nil_r].
  apply gate_ok_reject. by eapply gate_ok_leave.
Qed.

(** The head of the queue takes the freed slot. *)
Lemma releaseSlot_ok base g out id :
  0 <= base → gate_ok base (g, out) → id ∈ g_held g →
  gate_ok base ((release_reservation id g).1, out ++ (release_reservation id g).2).
Proof.
  intros Hb Hg Hin. pose proof (gate_ok_nonneg _ _ Hg) as Hnn.
  unfold release_reservation. rewrite bool_decide_eq_true_2 by done. unfold releaseSlot; simpl.
  destruct Hg as [H1 [H2 H2'] H3 H4 H5 H6 H7 H8 H9 H10 H11 [H12 H13]]; simpl in *.
  pose proof (filter_ne_length id _ H12 Hin) as Hlen.
  destruct (0 <? g_active g) eqn:Hpos; bools; [|lia]. simpl.
  assert (Hnd : NoDup (filter (λ i, i ≠ id) (g_held g))) by by apply NoDup_filter.
  assert (Hsub : ∀ i, i ∈ filter (λ i, i ≠ id) (g_held g) → i ∈ admitted out)
    by (intros i [_ Hi]%list_elem_of_filter; auto).
  destruct (g_queued g) as [|w q] eqn:Hq; simpl.
  - rewrite app_nil_r. split; simpl; rewrite ?Hq; try done; lia.
  - rewrite sumZ_cons in H4. pose proof (H5 w ltac:(left)) as Hw.
    assert (Hqn : 0 <= sumZ w_bytes q).
    { apply sumZ_nonneg. intros v Hv. specialize (H5 v ltac:(by right)). lia. }
    simpl in *.
    assert (Hact : g_active g = gl_maxConcurrent limits) by (apply H7; discriminate).
    split; simpl; rewrite ?length_app, ?admitted_app; simpl; try done.
    + lia.
    + lia.
    + lia.
    + lia.
    + intros v Hv. apply H5. by right.
    + lia.
    + intros _. lia.
    + intros Hcl. by specialize (H8 Hcl).
    + replace (base + (g_queuedBytes g - w_bytes w))
        with (base + g_queuedBytes g - w_bytes w) by lia.
      apply holds_refund; [lia|done].
    + by rewrite <-app_assoc.
    + intros i Hi. apply H11. by rewrite <-app_assoc in Hi.
    + split.
      * apply NoDup_app. split; [done|]. split; [|apply NoDup_singleton].
        intros i Hi ->%list_elem_of_singleton. apply Hsub in Hi.
        apply ascending_NoDup, NoDup_app in H10 as (_ & Hdis & _).
        eapply Hdis; [exact Hi|left].
      * intros i [Hi| ->%list_elem_of_singleton]%elem_of_app; apply elem_of_app; [left; auto|].
        right. by left.
Qed.

Lemma release_reservation_ok base g out id :
  0 <= base → gate_ok base (g, out) →
  gate_ok base ((release_reservation id g).1, out ++ (release_reservation id g).2).
Proof.
  intros Hb Hg. destruct (decide (id ∈ g_held g)) as [Hin|Hin]; [by apply releaseSlot_ok|].
  unfold release_reservation. rewrite bool_decide_eq_false_2 by done. by rewrite app_nil_r.
Qed.

(** [close] refunds every waiter, one after the other. *)
Lemma cleanup_all q :
  ∀ base g, (∀ w, w ∈ q → 0 <= w_bytes w) → sumZ w_bytes q <= base →
  holds "queue" base (g_budget g) →
  let g' := foldl (λ g w, cleanupWaiter w g) g q in
  g_queuedBytes g' = g_queuedBytes g - sumZ w_bytes q ∧
  holds "queue" (base - sumZ w_bytes q) (g_budget g') ∧
  g_active g' = g_active g ∧ g_held g' = g_held g ∧ g_maxObserved g' = g_maxObserved g ∧
  g_next g' = g_next g.
Proof.
  induction q as [|w q IH]; intros base g Hpos Hle Hh; cbv zeta.
  - simpl. rewrite !Z.sub_0_r. done.
  - pose proof (Hpos w ltac:(left)).
    assert (0 <= sumZ w_bytes q) by (apply sumZ_nonneg; intros v Hv; apply Hpos; by right).
    rewrite sumZ_cons in Hle.
    cbn [foldl].
    destruct (IH (base - w_bytes w) (cleanupWaiter w g)) as (-> & Hh' & ? & ? & ? & ?).
    + intros v Hv. apply Hpos. by right.
    + lia.
    + simpl. apply holds_refund; [lia|done].
    + rewrite !sumZ_cons. split; [simpl; lia|]. split; [|done].
      by replace (base - (w_bytes w + sumZ w_bytes q))
        with (base - w_bytes w - sumZ w_bytes q) by lia.
Qed.

Lemma admitted_rejects e q : admitted ((λ w, Reject (w_id w) e) <$> q) = [].
Proof. by induction q. Qed.

Lemma close_gate_ok base g out :
  0 <= base → gate_ok base (g, out) →
  gate_ok base ((close_gate g).1, out ++ (close_gate g).2).
Proof.
  intros Hb Hg. pose proof (gate_ok_nonneg _ _ Hg) as Hnn.
  destruct Hg as [H1 [H2 H2'] H3 H4 H5 H6 H7 H8 H9 H10 H11 [H12 H13]]; simpl in *.
  destruct (cleanup_all (g_queued g) (base + g_queuedBytes g) g)
    as (Eb & Hh & Ea & Ehe & Em & En); [|lia|done|].
  { intros w Hw. specialize (H5 w Hw). lia. }
  split; simpl; rewrite ?Eb, ?Ea, ?Ehe, ?Em, ?En, ?admitted_app, ?admitted_rejects, ?app_nil_r;
    simpl; try done; try lia.
  - intros w Hw%not_elem_of_nil. done.
  - by replace (base + (g_queuedBytes g - sumZ w_bytes (g_queued g)))
      with (base + g_queuedBytes g - sumZ w_bytes (g_queued g)) by lia.
  - by apply StronglySorted_app in H10 as (_ & ? & _).
  - intros i Hi. apply H11, elem_of_app. by left.
Qed.

Lemma history_step_ok base h e : 0 <= base → gate_ok base h → gate_ok base (history_step h e).
Proof.
  intros Hb Hg. destruct h as [g out]. unfold history_step, gate_step; simpl.
  pose proof (acquire_ok base g out) as HA.
  pose proof (release_reservation_ok base g out) as HR.
  pose proof (queue_timeout_ok base g out) as HT.
  pose proof (abort_waiter_ok base g out) as HB.
  pose proof (close_gate_ok base g out) as HC.
  destruct e as [key ab|id|id|id|].
  - specialize (HA key ab Hg). by destruct (acquire key ab g).
  - specialize (HR id Hb Hg). by destruct (release_reservation id g).
  - specialize (HT id Hb Hg). by destruct (queue_timeout id g).
  - specialize (HB id Hb Hg). by destruct (abort_waiter id g).
  - specialize (HC Hb Hg). by destruct (close_gate g).
Qed.

Lemma reachable_ok base bu h :
  0 <= base → holds "queue" base bu →
  reachable history_step (newGate bu, []) h → gate_ok base h.
Proof.
  intros Hb Hh. apply reachable_invariant; [by apply newGate_ok|].
  intros s e. by apply history_step_ok.
Qed.

(** ** Properties *)

(** over every history of calls, releases, timeouts, aborts and [close],
    the slots in use are exactly the reservations not yet released and never
    exceed [maxConcurrent]; the queue never exceeds [maxQueued] waiters nor
    2 MiB of keys; the gate's byte counter is its waiters' total and is
    mirrored exactly in the shared memory budget; a request waits only while
    every slot is taken; and a closed gate holds no waiter. *)
Theorem gate_bounded base bu h :
  0 <= base → holds "queue" base bu →
  reachable history_step (newGate bu, []) h →
  g_active h.1 = Z.of_nat (length (g_held h.1)) ∧
  g_active h.1 <= g_maxObserved h.1 <= gl_maxConcurrent limits ∧
  Z.of_nat (length (g_queued h.1)) <= gl_maxQueued limits ∧
  g_queuedBytes h.1 = sumZ w_bytes (g_queued h.1) ∧
  g_queuedBytes h.1 <= MAX_QUEUED_KEY_BYTES ∧
  holds "queue" (base + g_queuedBytes h.1) (g_budget h.1) ∧
  (g_queued h.1 ≠ [] → g_active h.1 = gl_maxConcurrent limits) ∧
  (g_closed h.1 = true → g_queued h.1 = []).
Proof.
  intros Hb Hh Hr. destruct (reachable_ok _ _ _ Hb Hh Hr) as [H1 H2 H3 H4 H5 H6 H7 H8 H9 _ _ _].
  tauto.
Qed.

(** admission is first-in first-out: over every history, the requests
    admitted so far followed by those still waiting are in strictly
    ascending arrival order, so no request is admitted twice, overtaken, or
    both admitted and waiting. *)
Theorem gate_fifo base bu h :
  0 <= base → holds "queue" base bu →
  reachable history_step (newGate bu, []) h →
  ascending (admitted h.2 ++ (w_id <$> g_queued h.1)).
Proof. intros Hb Hh Hr. exact (gk_order _ _ (reachable_ok _ _ _ Hb Hh Hr)). Qed.

(** Releases of live reservations only, one after the other. *)
Fixpoint all_held (ids : list nat) (g : gate L) : Prop :=
  match ids with
  | [] => True
  | id :: ids' => id ∈ g_held g ∧ all_held ids' (release_reservation id g).1
  end.

Lemma release_queue id g :
  id ∈ g_held g →
  (release_reservation id g).2 = Admit <$> (w_id <$> take 1 (g_queued g)) ∧
  g_queued (release_reservation id g).1 = drop 1 (g_queued g).
Proof.
  intros Hin. unfold release_reservation. rewrite bool_decide_eq_true_2 by done.
  unfold releaseSlot. simpl. destruct (0 <? g_active g); simpl; by destruct (g_queued g) eqn:?.
Qed.

(** no waiter starves: [n] releases of live reservations grant_slot exactly
    the first [n] waiters, in queue order, and nobody else. *)
Theorem releases_serve_queue ids :
  ∀ g, all_held ids g →
  let h := foldl history_step (g, []) (EvRelease <$> ids) in
  admitted h.2 = w_id <$> take (length ids) (g_queued g) ∧
  g_queued h.1 = drop (length ids) (g_queued g).
Proof.
  intros g. cut (∀ out, all_held ids g →
    let h := foldl history_step (g, out) (EvRelease <$> ids) in
    admitted h.2 = admitted out ++ (w_id <$> take (length ids) (g_queued g)) ∧
    g_queued h.1 = drop (length ids) (g_queued g)); [intros HH; apply (HH [])|].
  revert g. induction ids as [|id ids IH]; intros g out; [by rewrite app_nil_r|].
  intros [Hin Hall]. destruct (release_queue id g Hin) as [Ho Hq].
  cbn [fmap list_fmap foldl length]. unfold history_step at 2 4; simpl.
  destruct (release_reservation id g) as [g' o]; simpl in *. subst o.
  destruct (IH g' (out ++ (Admit <$> (w_id <$> take 1 (g_queued g)))) Hall) as [-> ->].
  rewrite Hq, admitted_app, <-app_assoc. destruct (g_queued g) as [|w q]; simpl.
  - by rewrite !take_nil, !drop_nil.
  - by rewrite drop_0.
Qed.
End gate.

(** ** Witnesses

    One slot, a real memory budget of 1000 bytes. *)

Definition demo_limits : GateLimits :=
  {| gl_maxConcurrent := 1; gl_maxQueued := 4; gl_queueTimeoutMs := 10 |}.

Definition gate_demo_budget : option MemoryBudget := newMemoryBudget 1000 None.

Lemma gate_demo_budget_holds : holds "queue" 0 gate_demo_budget.
Proof. split; [by apply (newMemoryBudget_ok 1000 None)|done]. Qed.

Lemma demo_limits_ok : 0 < gl_maxConcurrent demo_limits ∧ 0 <= gl_maxQueued demo_limits.
Proof. done. Qed.

Definition demo_events : list gate_event :=
  [EvAcquire (js "a") false; EvAcquire (js "b") false; EvAcquire (js "c") false;
   EvTimeout 1; EvRelease 0; EvRelease 0].

Lemma gate_bounded_witness :
  let h := run_events (history_step demo_limits) (newGate gate_demo_budget, [])
             (take 3 demo_events) in
  g_queuedBytes h.1 = 260 ∧ g_queuedBytes h.1 <= MAX_QUEUED_KEY_BYTES ∧
  holds "queue" 260 (g_budget h.1).
Proof.
  destruct (gate_bounded demo_limits demo_limits_ok 0 gate_demo_budget
    (run_events (history_step demo_limits) (newGate gate_demo_budget, []) (take 3 demo_events))
    ltac:(done) gate_demo_budget_holds ltac:(apply reachable_run))
    as (_ & _ & _ & _ & Hcap & Hh & _).
  split; [vm_compute; reflexivity|]. split; [exact Hcap|exact Hh].
Defined.

Lemma gate_fifo_witness :
  let h := run_events (history_step demo_limits) (newGate gate_demo_budget, []) demo_events in
  h.2 = [Admit 0; Reject 1 OriginLoadOverloadError; Admit 2] ∧
  ascending (admitted h.2 ++ (w_id <$> g_queued h.1)).
Proof.
  split; [vm_compute; reflexivity|].
  apply (gate_fifo demo_limits demo_limits_ok 0 gate_demo_budget);
    [done|apply gate_demo_budget_holds|apply reachable_run].
Defined.

Lemma releases_serve_queue_witness :
  let g := (run_events (history_step demo_limits) (newGate gate_demo_budget, [])
              (take 3 demo_events)).1 in
  let h := foldl (history_step demo_limits) (g, []) (EvRelease <$> [0%nat; 1%nat]) in
  admitted h.2 = [1%nat; 2%nat].
Proof.
  destruct (releases_serve_queue demo_limits [0%nat; 1%nat]
    (run_events (history_step demo_limits) (newGate gate_demo_budget, []) (take 3 demo_events)).1)
    as [H _].
  - vm_compute. split; [left|]. split; [left|done].
  - etransitivity; [exact H|vm_compute; reflexivity].
Defined.
