(* ===== verification/JsValue.v ===== *)
(** * JavaScript values and text

    The part of the language the validators and codecs of the source rely on:
    run-time values of unknown type, property reads, [Object.keys(..).sort()
    .join(',')], canonical decimals ([String(n)], [Number(s)]), JSON quoting
    of strings and well-formed UTF-16. *)

From S2P Require Import Prelude.

(** ** Values *)

(** A value of unknown type, as the validators receive it. An object is its
    own enumerable properties in order; reading any other property answers
    [undefined]. *)
#[warnings="-register-all"]
Inductive jsval :=
| VUndef
| VNull
| VBool (b : bool)
| VNum (n : jsnum)
| VStr (s : jsstring)
| VBuf (b : bytes)
| VArr (l : list jsval)
| VObj (fields : list (jsstring * jsval)).

Definition assoc {A} (k : jsstring) (l : list (jsstring * A)) : option A :=
  snd <$> List.find (λ p, bool_decide (p.1 = k)) l.

(** [value.name] of an object. *)
Definition prop (name : string) (v : jsval) : jsval :=
  match v with VObj fs => assoc (js name) fs ?? VUndef | _ => VUndef end.

(** [typeof v !== 'object' || v === null || Array.isArray(v)] negated. *)
Definition is_plain_object (v : jsval) : bool :=
  match v with VObj _ | VBuf _ => true | _ => false end.

Definition object_keys (v : jsval) : list jsstring :=
  match v with VObj fs => fs.*1 | _ => [] end.

(** ** Sorting and joining *)

(** The default sort compares code units. *)
Fixpoint str_le (a b : jsstring) : bool :=
  match a, b with
  | [], _ => true
  | _ :: _, [] => false
  | x :: a', y :: b' => (x <? y) || ((x =? y) && str_le a' b')
  end.

Fixpoint sort_insert (s : jsstring) (l : list jsstring) : list jsstring :=
  match l with
  | [] => [s]
  | x :: l' => if str_le s x then s :: l else x :: sort_insert s l'
  end.

Definition js_sort (l : list jsstring) : list jsstring := foldr sort_insert [] l.

Fixpoint js_join (sep : jsstring) (l : list jsstring) : jsstring :=
  match l with
  | [] => []
  | [s] => s
  | s :: l' => s ++ sep ++ js_join sep l'
  end.

(** ** Canonical decimals *)

Definition is_digit (c : Z) : bool := (48 <=? c) && (c <=? 57).

(** A digit string without a leading zero. *)
Definition positive_decimal (s : jsstring) : bool :=
  match s with
  | c :: t => (49 <=? c) && (c <=? 57) && forallb is_digit t
  | [] => false
  end.

(** The same, or [0]. *)
Definition canonical_decimal (s : jsstring) : bool :=
  bool_decide (s = [48]) || positive_decimal s.

(** The value of a digit string. *)
Definition parse_dec (s : jsstring) : Z := foldl (λ a c, a * 10 + (c - 48)) 0 s.

Fixpoint dec_fuel (n : nat) (z : Z) : jsstring :=
  match n with
  | O => [48 + z mod 10]
  | S n' => if z <? 10 then [48 + z] else dec_fuel n' (z / 10) ++ [48 + z mod 10]
  end.

(** [String(z)] of a non-negative integer below [2^53]. *)
Definition dec (z : Z) : jsstring := dec_fuel (Z.to_nat (Z.log2 z)) z.

Example dec_ex : dec 9007199254740991 = js "9007199254740991". Proof. reflexivity. Qed.

Lemma parse_dec_snoc s c : parse_dec (s ++ [c]) = parse_dec s * 10 + (c - 48).
Proof. unfold parse_dec. by rewrite foldl_app. Qed.

Lemma parse_dec_fuel n z : 0 <= z < 2 ^ (Z.of_nat n + 1) → parse_dec (dec_fuel n z) = z.
Proof.
  revert z. induction n as [|n IH]; intros z Hz; simpl.
  - unfold parse_dec; simpl. rewrite Z.mod_small; lia.
  - case_match eqn:E; bools; [unfold parse_dec; simpl; lia|].
    rewrite parse_dec_snoc, IH.
    + pose proof (Z.div_mod z 10). lia.
    + split; [apply Z.div_pos; lia|]. apply Z.div_lt_upper_bound; [lia|].
      replace (Z.of_nat (S n) + 1) with (Z.succ (Z.of_nat n + 1)) in Hz by lia.
      rewrite Z.pow_succ_r in Hz by lia. lia.
Qed.

Lemma log2_fuel z : 0 <= z → z < 2 ^ (Z.of_nat (Z.to_nat (Z.log2 z)) + 1).
Proof.
  intros Hz. pose proof (Z.log2_nonneg z). rewrite Z2Nat.id by lia.
  destruct (decide (z = 0)) as [->|]; [done|].
  pose proof (Z.log2_spec z ltac:(lia)). rewrite Z.add_1_r. lia.
Qed.

Lemma parse_dec_dec z : 0 <= z → parse_dec (dec z) = z.
Proof. intros Hz. apply parse_dec_fuel. pose proof (log2_fuel z Hz). lia. Qed.

Lemma positive_decimal_snoc s c :
  positive_decimal s = true → is_digit c = true → positive_decimal (s ++ [c]) = true.
Proof.
  destruct s as [|x s]; [done|]. simpl. intros H Hc. bools.
  rewrite forallb_app. simpl. rewrite Hc.
  rewrite (proj2 (Z.leb_le 49 x)), (proj2 (Z.leb_le x 57)) by done.
  by rewrite H0.
Qed.

Lemma dec_fuel_positive n z :
  0 < z < 2 ^ (Z.of_nat n + 1) → positive_decimal (dec_fuel n z) = true.
Proof.
  revert z. induction n as [|n IH]; intros z Hz; simpl.
  - change (2 ^ (Z.of_nat 0 + 1)) with 2 in Hz. by replace z with 1 by lia.
  - case_match eqn:E; bools.
    + simpl. rewrite (proj2 (Z.leb_le _ _)), (proj2 (Z.leb_le _ _)) by lia. done.
    + apply positive_decimal_snoc.
      * apply IH. split; [apply Z.div_str_pos; lia|]. apply Z.div_lt_upper_bound; [lia|].
        replace (Z.of_nat (S n) + 1) with (Z.succ (Z.of_nat n + 1)) in Hz by lia.
        rewrite Z.pow_succ_r in Hz by lia. lia.
      * pose proof (Z.mod_pos_bound z 10). unfold is_digit.
        rewrite (proj2 (Z.leb_le _ _)), (proj2 (Z.leb_le _ _)) by lia. done.
Qed.

Lemma dec_positive z : 0 < z → positive_decimal (dec z) = true.
Proof. intros Hz. apply dec_fuel_positive. pose proof (log2_fuel z). lia. Qed.

Lemma dec_canonical z : 0 <= z → canonical_decimal (dec z) = true.
Proof.
  intros Hz. unfold canonical_decimal. destruct (decide (z = 0)) as [->|]; [done|].
  rewrite dec_positive by lia. apply orb_true_r.
Qed.

Lemma dec_inj a b : 0 <= a → 0 <= b → dec a = dec b → a = b.
Proof.
  intros Ha Hb E. rewrite <- (parse_dec_dec a), <- (parse_dec_dec b) by done. by rewrite E.
Qed.

#[export] Hint Resolve dec_positive dec_canonical : jsdb.

(** ** Well-formed UTF-16 *)

Definition scalar (c : Z) : Prop := 0 <= c < 0x110000 ∧ ¬ (0xd800 <= c < 0xe000).

(** The UTF-16 encoding of a scalar value and of a text. *)
Definition utf16_char (c : Z) : jsstring :=
  if c <? 0x10000 then [c]
  else [0xd800 + (c - 0x10000) / 1024; 0xdc00 + (c - 0x10000) mod 1024].

Definition utf16 (cs : list Z) : jsstring := mjoin (utf16_char <$> cs).

(** Every element is a code unit. *)
Definition code_units (s : jsstring) : Prop := Forall (λ u, 0 <= u < 0x10000) s.

(** The scan of [isWellFormedUnicode]: every high surrogate is followed by a
    low one and no low surrogate stands alone. *)
Fixpoint well_formed (s : jsstring) : bool :=
  match s with
  | [] => true
  | u :: s' =>
      if is_high_surrogate u then
        match s' with
        | v :: s'' => is_low_surrogate v && well_formed s''
        | [] => false
        end
      else negb (is_low_surrogate u) && well_formed s'
  end.

Lemma utf16_cons c cs : utf16 (c :: cs) = utf16_char c ++ utf16 cs.
Proof. done. Qed.

Lemma surrogate_pair u v :
  is_high_surrogate u = true → is_low_surrogate v = true →
  ∃ c, scalar c ∧ utf16_char c = [u; v].
Proof.
  unfold is_high_surrogate, is_low_surrogate. intros Hu Hv. bools.
  exists (0x10000 + (u - 0xd800) * 1024 + (v - 0xdc00)). unfold scalar, utf16_char.
  split; [lia|]. rewrite (proj2 (Z.ltb_ge _ _)) by lia.
  replace (0x10000 + (u - 0xd800) * 1024 + (v - 0xdc00) - 0x10000)
    with ((v - 0xdc00) + (u - 0xd800) * 1024) by lia.
  rewrite Z.div_add, Z.mod_add by lia. rewrite Z.div_small, Z.mod_small by lia.
  do 2 f_equal; [lia|]. f_equal. lia.
Qed.

Lemma well_formed_scalars s :
  code_units s → well_formed s = true → ∃ cs, Forall scalar cs ∧ s = utf16 cs.
Proof.
  remember (length s) as n eqn:Hn. revert s Hn.
  induction n as [n IH] using lt_wf_ind; intros s -> Hc Hw.
  destruct s as [|u s]; [by exists []|]. apply Forall_cons in Hc as [Hu Hc]. simpl in Hw.
  destruct (is_high_surrogate u) eqn:Eh.
  - destruct s as [|v s]; [done|]. bools. apply Forall_cons in Hc as [_ Hc].
    destruct (IH (length s)) with s as (cs & Hcs & ->); [simpl; lia|done..|].
    destruct (surrogate_pair u v) as (c & Hsc & Hch); [done..|].
    exists (c :: cs). split; [by constructor|]. by rewrite utf16_cons, Hch.
  - bools. destruct (IH (length s)) with s as (cs & Hcs & ->); [simpl; lia|done..|].
    exists (u :: cs). unfold is_high_surrogate, is_low_surrogate in *.
    split; [|rewrite utf16_cons; unfold utf16_char; by rewrite (proj2 (Z.ltb_lt _ _)) by lia].
    constructor; [|done]. unfold scalar. split; [lia|]. intros ?.
    apply andb_false_iff in Eh as [Eh|Eh]; apply andb_false_iff in H as [H|H]; bools; lia.
Qed.

Lemma scalars_well_formed cs : Forall scalar cs → well_formed (utf16 cs) = true.
Proof.
  induction 1 as [|c cs [Hc Hn] _ IH]; [done|]. rewrite utf16_cons.
  unfold utf16_char. case_match eqn:E; bools; simpl.
  - assert (is_high_surrogate c = false) as ->
      by (unfold is_high_surrogate; apply andb_false_iff; rewrite Z.leb_gt, Z.leb_gt; lia).
    assert (is_low_surrogate c = false) as ->
      by (unfold is_low_surrogate; apply andb_false_iff; rewrite Z.leb_gt, Z.leb_gt; lia).
    done.
  - pose proof (Z.mod_pos_bound (c - 0x10000) 1024).
    assert (0 <= (c - 0x10000) / 1024 < 1024)
      by (split; [apply Z.div_pos; lia|apply Z.div_lt_upper_bound; lia]).
    assert (is_high_surrogate (0xd800 + (c - 0x10000) / 1024) = true) as ->
      by (unfold is_high_surrogate; apply andb_true_iff; rewrite !Z.leb_le; lia).
    assert (is_low_surrogate (0xdc00 + (c - 0x10000) mod 1024) = true) as ->
      by (unfold is_low_surrogate; apply andb_true_iff; rewrite !Z.leb_le; lia).
    done.
Qed.

(** ** White space *)

(** White space and line terminators. *)
Definition js_space (c : Z) : bool :=
  ((9 <=? c) && (c <=? 13)) || (c =? 32) || (c =? 160) || (c =? 0x1680) || ((0x2000 <=? c) && (c <=? 0x200a))
  || (c =? 0x2028) || (c =? 0x2029) || (c =? 0x202f) || (c =? 0x205f) || (c =? 0x3000) || (c =? 0xfeff).

Fixpoint trim_start (s : jsstring) : jsstring :=
  match s with
  | [] => []
  | c :: s' => if js_space c then trim_start s' else s
  end.

(** [s.trim()] *)
Definition js_trim (s : jsstring) : jsstring := rev (trim_start (rev (trim_start s))).

(** ** JSON strings *)

Definition hex_digit (d : Z) : Z := if d <? 10 then 48 + d else 87 + d.

Definition json_u (c : Z) : jsstring :=
  [92; 117; hex_digit (c / 4096); hex_digit (c / 256 mod 16);
              hex_digit (c / 16 mod 16); hex_digit (c mod 16)].

(** The escape of a code unit that is not a paired surrogate. *)
Definition json_escape (c : Z) : jsstring :=
  if c =? 34 then [92; 34]
  else if c =? 92 then [92; 92]
  else if c =? 8 then [92; 98]
  else if c =? 12 then [92; 102]
  else if c =? 10 then [92; 110]
  else if c =? 13 then [92; 114]
  else if c =? 9 then [92; 116]
  else if (c <? 32) || is_high_surrogate c || is_low_surrogate c then json_u c
  else [c].

Fixpoint json_chars (s : jsstring) : jsstring :=
  match s with
  | [] => []
  | u :: s' =>
      match s' with
      | v :: s'' => if is_high_surrogate u && is_low_surrogate v
                    then u :: v :: json_chars s''
                    else json_escape u ++ json_chars s'
      | [] => json_escape u
      end
  end.

(** [JSON.stringify] of a string, and of an array of strings. *)
Definition json_string (s : jsstring) : jsstring := [34] ++ json_chars s ++ [34].

Definition json_array (l : list jsstring) : jsstring :=
  [91] ++ js_join [44] (json_string <$> l) ++ [93].

(** Without control characters and lone surrogates only the quote and the
    backslash are escaped. *)
Definition plain_escape (c : Z) : jsstring :=
  if (c =? 34) || (c =? 92) then [92; c] else [c].

Definition no_control (s : jsstring) : Prop := Forall (λ c, 32 <= c ∧ c ≠ 127) s.

Lemma json_chars_plain s :
  no_control s → well_formed s = true → json_chars s = mjoin (plain_escape <$> s).
Proof.
  remember (length s) as n eqn:Hn. revert s Hn.
  induction n as [n IH] using lt_wf_ind; intros s -> Hc Hw.
  destruct s as [|u s]; [done|]. apply Forall_cons in Hc as [[Hu Hu'] Hc]. simpl in Hw.
  destruct (is_high_surrogate u) eqn:Eh.
  - destruct s as [|v s]; [done|]. bools. apply Forall_cons in Hc as [_ Hc].
    simpl. rewrite Eh, H. simpl. rewrite (IH (length s)) by (done || (simpl; lia)).
    unfold plain_escape, is_high_surrogate, is_low_surrogate in *. bools.
    rewrite !(proj2 (Z.eqb_neq _ _)) by lia. done.
  - bools. assert (json_escape u = plain_escape u) as He.
    { unfold json_escape, plain_escape. rewrite Eh, H.
      rewrite (proj2 (Z.ltb_ge u 32)) by lia.
      destruct (u =? 34) eqn:E1; bools; [by subst|].
      destruct (u =? 92) eqn:E2; bools; [by subst|].
      rewrite !(proj2 (Z.eqb_neq _ _)) by lia. done. }
    assert (json_chars (u :: s) = json_escape u ++ json_chars s) as ->.
    { simpl. destruct s; [by rewrite app_nil_r|]. by rewrite Eh. }
    rewrite He, (IH (length s)) by (done || (simpl; lia)). done.
Qed.

Lemma plain_escape_inj s s' (r r' : jsstring) :
  mjoin (plain_escape <$> s) ++ 34 :: r = mjoin (plain_escape <$> s') ++ 34 :: r' →
  s = s' ∧ r = r'.
Proof.
  revert s'. induction s as [|u s IH]; intros [|u' s']; simpl; unfold plain_escape.
  - by intros [= ->].
  - case_match eqn:E; bools; simpl; [by intros [= ? ?]|].
    intros [= <- _]. lia.
  - case_match eqn:E; bools; simpl; [by intros [= ? ?]|].
    intros [= -> _]. lia.
  - change (λ c : Z, if (c =? 34) || (c =? 92) then [92; c] else [c]) with plain_escape.
    destruct ((u =? 34) || (u =? 92)) eqn:E, ((u' =? 34) || (u' =? 92)) eqn:E';
      simpl; intros Heq.
    + injection Heq as <- Heq. apply IH in Heq as [-> ->]. done.
    + injection Heq as <- Heq. simpl in E'. done.
    + injection Heq as -> Heq. simpl in E. done.
    + injection Heq as <- Heq. apply IH in Heq as [-> ->]. done.
Qed.

(** Texts on which [JSON.stringify] is shown injective. *)
Definition plain_text (s : jsstring) : Prop := no_control s ∧ well_formed s = true.

Lemma json_string_inj s s' (r r' : jsstring) :
  plain_text s → plain_text s' →
  json_string s ++ r = json_string s' ++ r' → s = s' ∧ r = r'.
Proof.
  intros [Hc Hw] [Hc' Hw']. unfold json_string.
  rewrite !json_chars_plain by done. rewrite <- !app_assoc. simpl.
  intros [= Heq]. by apply plain_escape_inj in Heq.
Qed.

Arguments json_string : simpl never.

Lemma js_join_cons sep (a b : jsstring) l :
  js_join sep (a :: b :: l) = a ++ sep ++ js_join sep (b :: l).
Proof. done. Qed.

Lemma json_array_inj l l' :
  Forall plain_text l → Forall plain_text l' → length l = length l' →
  json_array l = json_array l' → l = l'.
Proof.
  unfold json_array. simpl. intros Hl Hl' Hlen [= Heq]. revert l' Hl' Hlen Heq.
  induction Hl as [|s l Hs Hl IH]; intros l' [|s' l'' Hs' Hl'] Hlen Heq; try done.
  injection Hlen as Hlen. destruct l as [|t l], l'' as [|t' l'']; try done.
  - apply json_string_inj in Heq as [-> _]; done.
  - rewrite !fmap_cons, !js_join_cons, <- !app_assoc in Heq.
    apply json_string_inj in Heq as [-> Heq]; [|done..].
    f_equal. injection Heq as Heq. apply IH; [done|simpl in *; lia|]. done.
Qed.

(** ** Sorting and joining: facts *)

Lemma str_le_total a b : str_le a b = true ∨ str_le b a = true.
Proof.
  revert b. induction a as [|x a IH]; intros [|y b]; simpl; auto.
  destruct (IH b) as [H|H], (Z.ltb_spec x y), (Z.ltb_spec y x), (Z.eqb_spec x y),
    (Z.eqb_spec y x); simpl; rewrite ?H; auto; lia.
Qed.

Lemma str_le_antisym a b : str_le a b = true → str_le b a = true → a = b.
Proof.
  revert b. induction a as [|x a IH]; intros [|y b]; simpl; try done.
  destruct (Z.ltb_spec x y), (Z.ltb_spec y x), (Z.eqb_spec x y), (Z.eqb_spec y x);
    simpl; try done; try lia. intros; subst. f_equal. by apply IH.
Qed.

Lemma str_le_trans a b c : str_le a b = true → str_le b c = true → str_le a c = true.
Proof.
  revert b c. induction a as [|x a IH]; intros [|y b] [|z c]; simpl; try done.
  destruct (Z.ltb_spec x y), (Z.eqb_spec x y), (Z.ltb_spec y z), (Z.eqb_spec y z),
    (Z.ltb_spec x z), (Z.eqb_spec x z); simpl; try done; try lia. apply IH.
Qed.

Lemma sort_insert_perm s l : sort_insert s l ≡ₚ s :: l.
Proof.
  induction l as [|x l IH]; simpl; [done|]. case_match; [done|]. rewrite IH. apply perm_swap.
Qed.

Lemma js_sort_perm l : js_sort l ≡ₚ l.
Proof. induction l as [|s l IH]; simpl; [done|]. by rewrite sort_insert_perm, IH. Qed.

Lemma sort_insert_sorted s l :
  StronglySorted (λ a b, str_le a b = true) l →
  StronglySorted (λ a b, str_le a b = true) (sort_insert s l).
Proof.
  induction 1 as [|x l Hl IH Hx]; simpl; [by repeat constructor|].
  destruct (str_le s x) eqn:E.
  - constructor; [by constructor|]. constructor; [done|].
    eapply Forall_impl; [exact Hx|]. intros y Hy. by eapply str_le_trans.
  - constructor; [done|]. rewrite sort_insert_perm. constructor; [|done].
    destruct (str_le_total s x); congruence.
Qed.

Lemma js_sort_sorted l : StronglySorted (λ a b, str_le a b = true) (js_sort l).
Proof. induction l; simpl; [constructor|]. by apply sort_insert_sorted. Qed.

(** Sorting forgets the order. *)
Lemma js_sort_unique l k : l ≡ₚ k → js_sort l = js_sort k.
Proof.
  intros Hp. eapply (StronglySorted_unique_strong (λ a b, str_le a b = true)).
  - intros a b _ _. apply str_le_antisym.
  - apply js_sort_sorted.
  - apply js_sort_sorted.
  - by rewrite !js_sort_perm.
Qed.

Definition join_length (l : list jsstring) : Z := sumZ (λ s, Z.of_nat (length s) + 1) l.

Lemma js_join_length c l :
  l ≠ [] → Z.of_nat (length (js_join [c] l)) = join_length l - 1.
Proof.
  induction l as [|s [|t l] IH]; [done|simpl; unfold join_length; simpl; lia|].
  intros _. rewrite js_join_cons, !length_app. unfold join_length in *.
  rewrite sumZ_cons. simpl length at 2. specialize (IH ltac:(done)). lia.
Qed.

(** A list that contains distinct names and joins to their length holds
    nothing else. *)
Lemma join_exact c (names l : list jsstring) :
  NoDup names → names ≠ [] → (∀ n, n ∈ names → n ∈ l) →
  js_join [c] (js_sort l) = js_join [c] (js_sort names) → l ≡ₚ names.
Proof.
  intros Hnd Hne Hin Heq.
  assert (Hs : names ⊆+ l) by (by apply NoDup_submseteq).
  apply submseteq_Permutation in Hs as [rest Hp].
  assert (Hl : join_length (js_sort l) = join_length (js_sort names)).
  { assert (∀ k : list jsstring, k ≠ [] → js_sort k ≠ []) as Hnn.
    { intros k Hk Hz. apply Hk, Permutation_nil. by rewrite <- (js_sort_perm k), Hz. }
    pose proof (js_join_length c (js_sort l)) as H1.
    pose proof (js_join_length c (js_sort names) (Hnn _ Hne)) as H2.
    rewrite <- Heq in H2. rewrite H1 in H2; [lia|]. apply Hnn.
    intros ->. by apply Permutation_nil in Hp; apply app_eq_nil in Hp as [? _]. }
  unfold join_length in Hl.
  rewrite !(sumZ_perm _ _ _ (js_sort_perm _)), (sumZ_perm _ _ _ Hp), sumZ_app in Hl.
  destruct rest as [|r rest]; [by rewrite Hp, app_nil_r|]. rewrite sumZ_cons in Hl.
  assert (0 <= sumZ (λ s : jsstring, Z.of_nat (length s) + 1) rest)
    by (apply sumZ_nonneg; lia). lia.
Qed.

(** ** Property reads *)

Lemma assoc_In {A} k (fs : list (jsstring * A)) v : assoc k fs = Some v → (k, v) ∈ fs.
Proof.
  unfold assoc. destruct (List.find _ fs) as [[k' v']|] eqn:E; simpl; [|done].
  intros [= ->]. apply List.find_some in E as [E1 E2]. bools. simpl in E2. subst.
  by apply list_elem_of_In.
Qed.

Lemma assoc_unique {A} k (fs : list (jsstring * A)) v :
  NoDup fs.*1 → (k, v) ∈ fs → assoc k fs = Some v.
Proof.
  induction fs as [|[k' v'] fs IH]; intros Hnd Hin; [by apply not_elem_of_nil in Hin|].
  rewrite fmap_cons in Hnd. apply NoDup_cons in Hnd as [Hk Hnd]. simpl in *.
  unfold assoc; simpl. case_bool_decide as E.
  - simpl in *. subst. apply elem_of_cons in Hin as [[= ->]|Hin]; [done|].
    exfalso. apply Hk. apply list_elem_of_fmap. by exists (k, v).
  - apply elem_of_cons in Hin as [[= -> ->]|Hin]; [done|]. by apply IH.
Qed.

(** Decide the equality of two string literals in the goal. *)
Ltac js_eval :=
  repeat match goal with
  | |- context [@bool_decide (js ?a = js ?b) ?d] =>
      let v := eval vm_compute in (@bool_decide (js a = js b) d) in
      replace (@bool_decide (js a = js b) d) with v by (vm_compute; reflexivity)
  end.
