(* ===== verification/Utf8.v ===== *)
(** * UTF-8 ([src/src/utils/decodeValidation.ts], lines 5 to 27)

    The platform's UTF-8 encoder and decoder ([Buffer.from(s, 'utf8')],
    [buffer.toString('utf8')], with U+FFFD for what is ill-formed) and the
    source's own allocation-free validator, with the proof that it accepts
    exactly the encodings of scalar values. *)

From S2P Require Import Prelude JsValue.

(** ** Encoding *)

Definition utf8_char (c : Z) : bytes :=
  if c <? 0x80 then [c]
  else if c <? 0x800 then [0xc0 + c / 64; 0x80 + c mod 64]
  else if c <? 0x10000 then [0xe0 + c / 4096; 0x80 + c / 64 mod 64; 0x80 + c mod 64]
  else [0xf0 + c / 262144; 0x80 + c / 4096 mod 64; 0x80 + c / 64 mod 64; 0x80 + c mod 64].

Definition utf8_text (cs : list Z) : bytes := mjoin (utf8_char <$> cs).

Fixpoint utf8_encode (s : jsstring) : bytes :=
  match s with
  | [] => []
  | u :: s' =>
      if is_high_surrogate u then
        match s' with
        | v :: s'' =>
            if is_low_surrogate v
            then utf8_char (0x10000 + (u - 0xd800) * 1024 + (v - 0xdc00)) ++ utf8_encode s''
            else utf8_char 0xfffd ++ utf8_encode s'
        | [] => utf8_char 0xfffd
        end
      else if is_low_surrogate u then utf8_char 0xfffd ++ utf8_encode s'
      else utf8_char u ++ utf8_encode s'
  end.

(** ** Decoding *)

Record u8state := { u_needed : Z; u_cp : Z; u_lower : Z; u_upper : Z }.

Definition u8_start : u8state :=
  {| u_needed := 0; u_cp := 0; u_lower := 0x80; u_upper := 0xbf |}.

(** A byte at a character boundary. *)
Definition u8_first (b : Z) : jsstring * u8state :=
  if b <? 0x80 then ([b], u8_start)
  else if (0xc2 <=? b) && (b <=? 0xdf) then
    ([], {| u_needed := 1; u_cp := b - 0xc0; u_lower := 0x80; u_upper := 0xbf |})
  else if (0xe0 <=? b) && (b <=? 0xef) then
    ([], {| u_needed := 2; u_cp := b - 0xe0;
            u_lower := if b =? 0xe0 then 0xa0 else 0x80;
            u_upper := if b =? 0xed then 0x9f else 0xbf |})
  else if (0xf0 <=? b) && (b <=? 0xf4) then
    ([], {| u_needed := 3; u_cp := b - 0xf0;
            u_lower := if b =? 0xf0 then 0x90 else 0x80;
            u_upper := if b =? 0xf4 then 0x8f else 0xbf |})
  else ([0xfffd], u8_start).

Definition u8_step (st : u8state) (b : Z) : jsstring * u8state :=
  if u_needed st =? 0 then u8_first b
  else if (b <? u_lower st) || (u_upper st <? b) then
    let '(o, st') := u8_first b in (0xfffd :: o, st')
  else
    let cp := u_cp st * 64 + (b - 0x80) in
    if u_needed st =? 1 then (utf16_char cp, u8_start)
    else ([], {| u_needed := u_needed st - 1; u_cp := cp; u_lower := 0x80; u_upper := 0xbf |}).

Fixpoint u8_run (st : u8state) (bs : bytes) : jsstring :=
  match bs with
  | [] => if u_needed st =? 0 then [] else [0xfffd]
  | b :: bs' => let '(o, st') := u8_step st b in o ++ u8_run st' bs'
  end.

Definition utf8_decode (bs : bytes) : jsstring := u8_run u8_start bs.

(** ** The validator *)

Definition isContinuation (byte : Z) : bool := (0x80 <=? byte) && (byte <=? 0xbf).

(** The scan of [isSafeUtf8] over the bytes of the range. *)
Fixpoint safe_utf8 (bs : bytes) : bool :=
  match bs with
  | [] => true
  | first :: r =>
      if first <? 0x80 then safe_utf8 r
      else if (0xc2 <=? first) && (first <=? 0xdf) then
        match r with b2 :: r' => isContinuation b2 && safe_utf8 r' | [] => false end
      else if (0xe0 <=? first) && (first <=? 0xef) then
        match r with
        | second :: b3 :: r' =>
            (if first =? 0xe0 then (0xa0 <=? second) && (second <=? 0xbf)
             else if first =? 0xed then (0x80 <=? second) && (second <=? 0x9f)
             else isContinuation second)
            && isContinuation b3 && safe_utf8 r'
        | _ => false
        end
      else if (0xf0 <=? first) && (first <=? 0xf4) then
        match r with
        | second :: b3 :: b4 :: r' =>
            (if first =? 0xf0 then (0x90 <=? second) && (second <=? 0xbf)
             else if first =? 0xf4 then (0x80 <=? second) && (second <=? 0x8f)
             else isContinuation second)
            && isContinuation b3 && isContinuation b4 && safe_utf8 r'
        | _ => false
        end
      else false
  end.

Definition subarray (b : bytes) (start stop : Z) : bytes :=
  take (Z.to_nat (stop - start)) (drop (Z.to_nat start) b).

(** A byte outside the input is [undefined], which no test accepts. *)
Definition isSafeUtf8 (input : bytes) (start stop : Z) : bool :=
  if start <? stop then (0 <=? start) && (stop <=? Z.of_nat (length input)) && safe_utf8 (subarray input start stop) else true.

(** ** Facts *)

(** Resolve the comparisons of the goal by arithmetic. *)
Ltac zbool :=
  repeat match goal with
  | |- context [?a <? ?b] =>
      first [rewrite (proj2 (Z.ltb_lt a b)) by (Z.div_mod_to_equations; lia)
            |rewrite (proj2 (Z.ltb_ge a b)) by (Z.div_mod_to_equations; lia)]
  | |- context [?a <=? ?b] =>
      first [rewrite (proj2 (Z.leb_le a b)) by (Z.div_mod_to_equations; lia)
            |rewrite (proj2 (Z.leb_gt a b)) by (Z.div_mod_to_equations; lia)]
  | |- context [?a =? ?b] =>
      first [rewrite (proj2 (Z.eqb_eq a b)) by (Z.div_mod_to_equations; lia)
            |rewrite (proj2 (Z.eqb_neq a b)) by (Z.div_mod_to_equations; lia)]
  end; simpl.

Lemma utf8_text_cons c cs : utf8_text (c :: cs) = utf8_char c ++ utf8_text cs.
Proof. done. Qed.

(** The scalar value two, three or four valid bytes encode. *)
Lemma utf8_two b1 b2 :
  0xc2 <= b1 <= 0xdf → 0x80 <= b2 <= 0xbf →
  ∃ c, scalar c ∧ utf8_char c = [b1; b2].
Proof.
  intros H1 H2. exists ((b1 - 0xc0) * 64 + (b2 - 0x80)). unfold scalar, utf8_char.
  split; [lia|]. zbool. repeat f_equal; Z.div_mod_to_equations; lia.
Qed.

Lemma utf8_three b1 b2 b3 :
  0xe0 <= b1 <= 0xef → 0x80 <= b2 <= 0xbf → 0x80 <= b3 <= 0xbf →
  (b1 = 0xe0 → 0xa0 <= b2) → (b1 = 0xed → b2 <= 0x9f) →
  ∃ c, scalar c ∧ utf8_char c = [b1; b2; b3].
Proof.
  intros H1 H2 H3 H4 H5. exists ((b1 - 0xe0) * 4096 + (b2 - 0x80) * 64 + (b3 - 0x80)).
  unfold scalar, utf8_char. split; [lia|]. zbool.
  repeat f_equal; Z.div_mod_to_equations; lia.
Qed.

Lemma utf8_four b1 b2 b3 b4 :
  0xf0 <= b1 <= 0xf4 → 0x80 <= b2 <= 0xbf → 0x80 <= b3 <= 0xbf → 0x80 <= b4 <= 0xbf →
  (b1 = 0xf0 → 0x90 <= b2) → (b1 = 0xf4 → b2 <= 0x8f) →
  ∃ c, scalar c ∧ utf8_char c = [b1; b2; b3; b4].
Proof.
  intros H1 H2 H3 H4 H5 H6.
  exists ((b1 - 0xf0) * 262144 + (b2 - 0x80) * 4096 + (b3 - 0x80) * 64 + (b4 - 0x80)).
  unfold scalar, utf8_char. split; [lia|]. zbool.
  repeat f_equal; Z.div_mod_to_equations; lia.
Qed.

Lemma safe_utf8_sound bs :
  Forall (λ b, 0 <= b < 256) bs → safe_utf8 bs = true →
  ∃ cs, Forall scalar cs ∧ bs = utf8_text cs.
Proof.
  remember (length bs) as n eqn:Hn. revert bs Hn.
  induction n as [n IH] using lt_wf_ind; intros bs -> Hb Hs.
  destruct bs as [|b1 r]; [by exists []|]. apply Forall_cons in Hb as [Hb1 Hb].
  assert (Hrec : ∀ pre c r', r = pre ++ r' → scalar c → utf8_char c = b1 :: pre →
    safe_utf8 r' = true → ∃ cs, Forall scalar cs ∧ b1 :: r = utf8_text cs).
  { intros pre c r' -> Hc Hch Hr'. apply Forall_app in Hb as [_ Hb'].
    destruct (IH (length r')) with r' as (cs & Hcs & ->);
      [simpl; rewrite length_app; lia|done..|].
    exists (c :: cs). split; [by constructor|]. by rewrite utf8_text_cons, Hch. }
  simpl in Hs. destruct (b1 <? 0x80) eqn:E1; bools.
  { apply (Hrec [] b1 r); [done|unfold scalar; lia| |done]. unfold utf8_char. by zbool. }
  unfold isContinuation in Hs.
  destruct ((0xc2 <=? b1) && (b1 <=? 0xdf)) eqn:E2; bools.
  { destruct r as [|b2 r']; [done|]. bools.
    destruct (utf8_two b1 b2) as (c & Hc & Hch); [lia..|].
    by apply (Hrec [b2] c r'). }
  destruct ((0xe0 <=? b1) && (b1 <=? 0xef)) eqn:E3; bools.
  { destruct r as [|b2 [|b3 r']]; try done. bools.
    destruct (utf8_three b1 b2 b3) as (c & Hc & Hch);
      [lia|repeat case_match; bools; lia|lia|repeat case_match; bools; lia..|].
    by apply (Hrec [b2; b3] c r'). }
  destruct ((0xf0 <=? b1) && (b1 <=? 0xf4)) eqn:E4; bools; [|done].
  destruct r as [|b2 [|b3 [|b4 r']]]; try done. bools.
  destruct (utf8_four b1 b2 b3 b4) as (c & Hc & Hch);
    [lia|repeat case_match; bools; lia|lia|lia|repeat case_match; bools; lia..|].
  by apply (Hrec [b2; b3; b4] c r').
Qed.

Lemma safe_utf8_char c r : scalar c → safe_utf8 (utf8_char c ++ r) = safe_utf8 r.
Proof.
  intros [Hc Hn]. unfold utf8_char. destruct (c <? 0x80) eqn:E1; bools.
  { simpl. by zbool. }
  destruct (c <? 0x800) eqn:E2; bools.
  { simpl. unfold isContinuation. by zbool. }
  destruct (c <? 0x10000) eqn:E3; bools; simpl; unfold isContinuation; zbool.
  - destruct (0xe0 + c / 4096 =? 0xe0) eqn:F1; bools; [by zbool|].
    destruct (0xe0 + c / 4096 =? 0xed) eqn:F2; bools; by zbool.
  - destruct (0xf0 + c / 262144 =? 0xf0) eqn:F1; bools; [by zbool|].
    destruct (0xf0 + c / 262144 =? 0xf4) eqn:F2; bools; by zbool.
Qed.

Lemma safe_utf8_complete cs : Forall scalar cs → safe_utf8 (utf8_text cs) = true.
Proof. induction 1; [done|]. by rewrite utf8_text_cons, safe_utf8_char. Qed.

(** C24: the allocation-free validator accepts a byte range exactly when it is
    the UTF-8 encoding of a sequence of Unicode scalar values: no overlong
    form, surrogate, truncated sequence or value above U+10FFFF passes, and
    nothing well-formed is refused, in a range that lies within the input; any
    other range that is not empty is refused. *)
Theorem isSafeUtf8_exact input start stop :
  Forall (λ b, 0 <= b < 256) input →
  isSafeUtf8 input start stop = true ↔
  (start < stop → 0 <= start ∧ stop <= Z.of_nat (length input)) ∧
  ∃ cs, Forall scalar cs ∧ subarray input start stop = utf8_text cs.
Proof.
  intros Hb. unfold isSafeUtf8.
  assert (Hsafe : safe_utf8 (subarray input start stop) = true ↔ ∃ cs, Forall scalar cs ∧ subarray input start stop = utf8_text cs).
  { split; [apply safe_utf8_sound; unfold subarray; by apply Forall_take, Forall_drop|].
    intros (cs & Hcs & ->). by apply safe_utf8_complete. }
  rewrite <-Hsafe. destruct (start <? stop) eqn:E; bools.
  - rewrite !andb_true_iff, !Z.leb_le. tauto.
  - split; [|done]. intros _. split; [lia|]. unfold subarray. by replace (Z.to_nat (stop - start)) with 0%nat by lia.
Qed.

Lemma isSafeUtf8_exact_witness :
  isSafeUtf8 [0x41; 0xe2; 0x82; 0xac; 0xf0; 0x9f; 0x98; 0x80] 0 8 = true ∧
  isSafeUtf8 [0x41] 0 2 = false ∧
  ∃ cs, Forall scalar cs ∧
    subarray [0x41; 0xe2; 0x82; 0xac; 0xf0; 0x9f; 0x98; 0x80] 0 8 = utf8_text cs.
Proof.
  split; [vm_compute; reflexivity|]. split; [vm_compute; reflexivity|].
  apply (isSafeUtf8_exact [0x41; 0xe2; 0x82; 0xac; 0xf0; 0x9f; 0x98; 0x80] 0 8).
  - repeat constructor; lia.
  - vm_compute. reflexivity.
Defined.

(** ** Round trip *)

Lemma u8_run_char c rest :
  scalar c → u8_run u8_start (utf8_char c ++ rest) = utf16_char c ++ u8_run u8_start rest.
Proof.
  intros [Hc Hn]. unfold utf8_char.
  destruct (c <? 0x80) eqn:E1; bools.
  { simpl. unfold u8_step, u8_first; simpl. repeat (progress zbool). unfold utf16_char. by zbool. }
  destruct (c <? 0x800) eqn:E2; bools.
  { simpl. unfold u8_step, u8_first; simpl. repeat (progress zbool). do 2 f_equal. Z.div_mod_to_equations; lia. }
  destruct (c <? 0x10000) eqn:E3; bools.
  - simpl. unfold u8_step, u8_first; simpl. repeat (progress zbool).
    assert (Hbad : ((0x80 + c / 64 mod 64 <? (if 0xe0 + c / 4096 =? 0xe0 then 0xa0 else 0x80))
      || ((if 0xe0 + c / 4096 =? 0xed then 0x9f else 0xbf) <? 0x80 + c / 64 mod 64)) = false).
    { destruct (0xe0 + c / 4096 =? 0xe0) eqn:F1; destruct (0xe0 + c / 4096 =? 0xed) eqn:F2;
        bools; try lia; by zbool. }
    rewrite Hbad. simpl. repeat (progress zbool). do 2 f_equal. Z.div_mod_to_equations; lia.
  - simpl. unfold u8_step, u8_first; simpl. repeat (progress zbool).
    assert (Hbad : ((0x80 + c / 4096 mod 64 <? (if 0xf0 + c / 262144 =? 0xf0 then 0x90 else 0x80))
      || ((if 0xf0 + c / 262144 =? 0xf4 then 0x8f else 0xbf) <? 0x80 + c / 4096 mod 64)) = false).
    { destruct (0xf0 + c / 262144 =? 0xf0) eqn:F1; destruct (0xf0 + c / 262144 =? 0xf4) eqn:F2;
        bools; try lia; by zbool. }
    rewrite Hbad. simpl. repeat (progress zbool). do 2 f_equal. Z.div_mod_to_equations; lia.
Qed.

Lemma utf8_decode_text cs : Forall scalar cs → utf8_decode (utf8_text cs) = utf16 cs.
Proof.
  unfold utf8_decode. induction 1 as [|c cs Hc _ IH]; [done|].
  by rewrite utf8_text_cons, u8_run_char, IH.
Qed.

Lemma utf8_encode_utf16 cs : Forall scalar cs → utf8_encode (utf16 cs) = utf8_text cs.
Proof.
  induction 1 as [|c cs [Hc Hn] _ IH]; [done|]. rewrite utf16_cons, utf8_text_cons.
  unfold utf16_char. destruct (c <? 0x10000) eqn:E; bools.
  - cbn [app utf8_encode]. unfold is_high_surrogate, is_low_surrogate.
    assert ((0xd800 <=? c) && (c <=? 0xdbff) = false) as ->
      by (apply andb_false_iff; rewrite !Z.leb_gt; lia).
    assert ((0xdc00 <=? c) && (c <=? 0xdfff) = false) as ->
      by (apply andb_false_iff; rewrite !Z.leb_gt; lia).
    by rewrite IH.
  - cbn [app utf8_encode]. unfold is_high_surrogate, is_low_surrogate. repeat (progress zbool). rewrite IH.
    do 2 f_equal. Z.div_mod_to_equations; lia.
Qed.

(** Well-formed strings survive UTF-8. *)
Lemma utf8_roundtrip s :
  code_units s → well_formed s = true → utf8_decode (utf8_encode s) = s.
Proof.
  intros Hu Hw. destruct (well_formed_scalars s Hu Hw) as (cs & Hcs & ->).
  by rewrite utf8_encode_utf16, utf8_decode_text.
Qed.

(** ASCII text is its own encoding. *)
Definition ascii (s : jsstring) : Prop := Forall (λ c, 0 <= c < 0x80) s.

Lemma utf8_encode_ascii s : ascii s → utf8_encode s = s.
Proof.
  induction 1 as [|c s Hc _ IH]; [done|]. simpl.
  unfold is_high_surrogate, is_low_surrogate, utf8_char. repeat (progress zbool). by rewrite IH.
Qed.

Lemma utf8_decode_ascii s : ascii s → utf8_decode s = s.
Proof.
  unfold utf8_decode. induction 1 as [|c s Hc _ IH]; [done|]. simpl.
  unfold u8_step, u8_first; simpl. repeat (progress zbool). by rewrite IH.
Qed.
