(* ===== verification/TxKeys.v ===== *)
(** * Transaction identities and keys ([src/src/transactions/keys.ts],
    [src/src/transactions/types.ts])

    Validation of the untyped inputs of the transaction API and the derivation
    of the one Redis key of an operation. [digest] stands for Node's SHA-256
    in hexadecimal. *)

From S2P Require Import Prelude JsValue.

(** ** Errors and data of the API *)

Inductive invalid_input :=
| NotNonEmptyString
| NotWellFormed
| ExceedsLimit (maxBytes : Z)
| ControlCharacter
| UnsupportedCharacters
| NotLowercaseHex
| NotAnObject
| UnknownOrMissingFields
| NotPositiveDecimal
| AmountTooLarge
| NotCurrency
| SameAccount.

(** The error classes of [types.ts] and the errors a client can raise, which
    carry a message. *)
Inductive op_error :=
| OperationValidationError (why : invalid_input)
| OperationInputError
| OperationConfigurationError
| OperationUnavailableError
| OperationGateClosedError
| OperationUnknownError
| OperationProtocolError
| OperationDispatchTimeoutError
| InvalidReplyError
| ClientError (message code : jsstring).

Record Identity := {
  id_tenant : jsstring;
  id_operation : jsstring;
  id_idempotencyKey : jsstring;
  id_fingerprint : jsstring;
  id_durableId : jsstring;
}.

Record Lease := { l_identity : Identity; l_owner : jsstring; l_remainingMs : jsnum }.

Definition MAX_NAMESPACE_BYTES : Z := 96.
Definition MAX_TENANT_BYTES : Z := 128.
Definition MAX_OPERATION_BYTES : Z := 96.
Definition MAX_IDEMPOTENCY_KEY_BYTES : Z := 256.
Definition MAX_DURABLE_ID_BYTES : Z := 128.
Definition MAX_RESULT_REFERENCE_BYTES : Z := 256.
Definition MAX_PAYMENT_ACCOUNT_BYTES : Z := 128.
Definition MAX_PAYMENT_AMOUNT_MINOR : Z := 9223372036854775807.

Abbreviation checked := (result op_error).

(** ** Character classes *)

Definition is_lower_hex (c : Z) : bool := is_digit c || ((97 <=? c) && (c <=? 102)).
Definition is_upper (c : Z) : bool := (65 <=? c) && (c <=? 90).
Definition is_alnum (c : Z) : bool := is_digit c || is_upper c || ((97 <=? c) && (c <=? 122)).

(** The class [A-Za-z0-9_.:-] *)
Definition namespace_char (c : Z) : bool := is_alnum c || existsb (Z.eqb c) (js "_.:-").

(** The class [A-Za-z0-9_:/%.\-] *)
Definition reference_char (c : Z) : bool := is_alnum c || existsb (Z.eqb c) (js "_:/%.-").

Definition HEX_64 (s : jsstring) : bool :=
  (Z.of_nat (length s) =? 64) && forallb is_lower_hex s.

Definition NAMESPACE (s : jsstring) : bool :=
  match s with c :: t => is_alnum c && forallb namespace_char t | [] => false end.

Definition REFERENCE (s : jsstring) : bool :=
  negb (bool_decide (s = [])) && forallb reference_char s.

Definition is_control (c : Z) : bool := (c <=? 0x1f) || (c =? 0x7f).

(** ** Validators *)

Definition invalid {A} (w : invalid_input) : checked A := Throw (OperationValidationError w).

Definition boundedString (value : jsval) (maxBytes : Z) : checked jsstring :=
  match value with
  | VStr s =>
      if bool_decide (s = []) then invalid NotNonEmptyString
      else if negb (well_formed s) then invalid NotWellFormed
      else if maxBytes <? utf8_length s then invalid (ExceedsLimit maxBytes)
      else if existsb is_control s then invalid ControlCharacter
      else Ok s
  | _ => invalid NotNonEmptyString
  end.

(** [if (cond) throw ...; return s] *)
Definition reject_if {A} (cond : bool) (w : invalid_input) (a : A) : checked A :=
  if cond then invalid w else Ok a.

Definition validateNamespace (namespace : jsval) : checked jsstring :=
  value <~ boundedString namespace MAX_NAMESPACE_BYTES ;;
  reject_if (negb (NAMESPACE value) || existsb (Z.eqb 123) value || existsb (Z.eqb 125) value)
    UnsupportedCharacters value.

Definition validateReference (value : jsval) (maxBytes : Z) : checked jsstring :=
  s <~ boundedString value maxBytes ;;
  reject_if (negb (REFERENCE s)) UnsupportedCharacters s.

Definition validateFingerprint (value : jsval) : checked jsstring :=
  s <~ boundedString value 64 ;;
  reject_if (negb (HEX_64 s)) NotLowercaseHex s.

Definition validateOwner (value : jsval) : checked jsstring :=
  s <~ boundedString value 64 ;;
  reject_if (negb (HEX_64 s)) NotLowercaseHex s.

(** [Object.keys(value).sort().join(',')] *)
Definition sorted_keys (v : jsval) : jsstring := js_join (js ",") (js_sort (object_keys v)).

Definition validateIdentity (value : jsval) : checked Identity :=
  if negb (is_plain_object value) then invalid NotAnObject
  else if negb (bool_decide
         (sorted_keys value = js "durableId,fingerprint,idempotencyKey,operation,tenant"))
  then invalid UnknownOrMissingFields
  else
    tenant <~ boundedString (prop "tenant" value) MAX_TENANT_BYTES ;;
    operation <~ boundedString (prop "operation" value) MAX_OPERATION_BYTES ;;
    key <~ boundedString (prop "idempotencyKey" value) MAX_IDEMPOTENCY_KEY_BYTES ;;
    fingerprint <~ validateFingerprint (prop "fingerprint" value) ;;
    durableId <~ validateReference (prop "durableId" value) MAX_DURABLE_ID_BYTES ;;
    Ok {| id_tenant := tenant; id_operation := operation; id_idempotencyKey := key;
          id_fingerprint := fingerprint; id_durableId := durableId |}.

(** The frozen object the validator returns, as a value again. *)
Definition identity_value (id : Identity) : jsval :=
  VObj [(js "tenant", VStr (id_tenant id)); (js "operation", VStr (id_operation id));
        (js "idempotencyKey", VStr (id_idempotencyKey id));
        (js "fingerprint", VStr (id_fingerprint id));
        (js "durableId", VStr (id_durableId id))].

(** [isHex64] and [isReference] *)
Definition isHex64 (value : jsval) : bool :=
  match value with VStr s => HEX_64 s | _ => false end.

Definition isReference (value : jsval) (maxBytes : Z) : bool :=
  match value with
  | VStr s => (0 <? Z.of_nat (length s)) && (utf8_length s <=? maxBytes) && REFERENCE s
  | _ => false
  end.

Definition validateAmountMinor (value : jsval) : checked jsstring :=
  amount <~ boundedString value 32 ;;
  if negb (positive_decimal amount) then invalid NotPositiveDecimal
  else reject_if (MAX_PAYMENT_AMOUNT_MINOR <? parse_dec amount) AmountTooLarge amount.

Definition paymentAccount (value : jsval) : checked jsstring :=
  account <~ boundedString value MAX_PAYMENT_ACCOUNT_BYTES ;;
  reject_if (negb (REFERENCE account)) UnsupportedCharacters account.

Record Payment := {
  p_tenant : jsstring;
  p_fromAccount : jsstring;
  p_toAccount : jsstring;
  p_currency : jsstring;
  p_amountMinor : jsstring;
}.

(** [/^[A-Z]{3}$/] *)
Definition is_currency (s : jsstring) : bool :=
  (Z.of_nat (length s) =? 3) && forallb is_upper s.

Definition validatePaymentFingerprintInput (value : jsval) : checked Payment :=
  if negb (is_plain_object value) then invalid NotAnObject
  else if negb (bool_decide
         (sorted_keys value = js "amountMinor,currency,fromAccount,tenant,toAccount"))
  then invalid UnknownOrMissingFields
  else
    tenant <~ boundedString (prop "tenant" value) MAX_TENANT_BYTES ;;
    from <~ paymentAccount (prop "fromAccount" value) ;;
    to <~ paymentAccount (prop "toAccount" value) ;;
    currency <~ boundedString (prop "currency" value) 8 ;;
    if negb (is_currency currency) then invalid NotCurrency
    else
      amount <~ validateAmountMinor (prop "amountMinor" value) ;;
      reject_if (bool_decide (from = to)) SameAccount
        {| p_tenant := tenant; p_fromAccount := from; p_toAccount := to;
           p_currency := currency; p_amountMinor := amount |}.

(** [fields.map((value) => boundedString(..., 512))] *)
Fixpoint bounded_all (fields : list jsval) (maxBytes : Z) : checked (list jsstring) :=
  match fields with
  | [] => Ok []
  | v :: vs =>
      s <~ boundedString v maxBytes ;;
      t <~ bounded_all vs maxBytes ;;
      Ok (s :: t)
  end.

Section hashing.
Context (digest : jsstring → jsstring).

Definition operationKey (namespace : jsval) (identity : jsval) : checked jsstring :=
  ns <~ validateNamespace namespace ;;
  id <~ validateIdentity identity ;;
  let scope := digest (json_array [ns; id_tenant id]) in
  let operation := digest (json_array
                     [ns; id_tenant id; id_operation id; id_idempotencyKey id]) in
  Ok (js "lltx:v1:" ++ scope ++ js ":{" ++ operation ++ js "}:record").

(** [fields] are strings already ([fields.some(typeof value !== 'string')]
    rejects anything else with the same error class). *)
Definition fingerprintFields (domain : jsval) (fields : list jsval) : checked jsstring :=
  d <~ boundedString domain 64 ;;
  if existsb (λ v, match v with VStr _ => false | _ => true end) fields
  then invalid NotNonEmptyString
  else
    checked_fields <~ bounded_all fields 512 ;;
    Ok (digest (json_array (d :: checked_fields))).

Definition paymentFingerprint (input : jsval) : checked jsstring :=
  payment <~ validatePaymentFingerprintInput input ;;
  fingerprintFields (VStr (js "payment-v1"))
    (VStr <$> [p_tenant payment; p_fromAccount payment; p_toAccount payment;
               p_currency payment; p_amountMinor payment]).

Definition paymentProviderKey (durableId providerAccount : jsval) : checked jsstring :=
  id <~ validateReference durableId MAX_DURABLE_ID_BYTES ;;
  account <~ validateReference providerAccount 128 ;;
  f <~ fingerprintFields (VStr (js "provider-v1")) [VStr account; VStr id] ;;
  Ok (js "lltx-provider-v1-" ++ f).
End hashing.

(** ** What the validators accept *)

(** A non-empty, well-formed text of bounded size without control characters. *)
Record valid_text (max : Z) (s : jsstring) : Prop := {
  vt_nonempty : s ≠ [];
  vt_well_formed : well_formed s = true;
  vt_size : utf8_length s <= max;
  vt_control : no_control s;
}.

Lemma no_control_spec s : existsb is_control s = false ↔ no_control s.
Proof.
  unfold no_control. induction s as [|c s IH]; simpl; [split; [constructor|done]|].
  rewrite orb_false_iff, IH, Forall_cons. unfold is_control.
  rewrite orb_false_iff, Z.leb_gt, Z.eqb_neq. split; intros [? ?]; split; auto; lia.
Qed.

Lemma boundedString_ok v m s : boundedString v m = Ok s ↔ v = VStr s ∧ valid_text m s.
Proof.
  split.
  - destruct v; simpl; try done. repeat case_match; try done. intros [= <-]. bools.
    by rewrite no_control_spec in *.
  - intros [-> [H1 H2 H3 H4]]; simpl.
    rewrite bool_decide_eq_false_2, H2, (proj2 (Z.ltb_ge _ _)) by done. simpl.
    apply no_control_spec in H4. by rewrite H4.
Qed.

Lemma reject_if_ok {A} c w (a b : A) : reject_if c w a = Ok b ↔ c = false ∧ b = a.
Proof. destruct c; simpl; naive_solver. Qed.

Lemma validateFingerprint_ok v s :
  validateFingerprint v = Ok s ↔ v = VStr s ∧ valid_text 64 s ∧ HEX_64 s = true.
Proof.
  unfold validateFingerprint. rewrite rbind_ok. setoid_rewrite boundedString_ok.
  setoid_rewrite reject_if_ok. setoid_rewrite negb_false_iff. naive_solver.
Qed.

Lemma validateReference_ok v m s :
  validateReference v m = Ok s ↔ v = VStr s ∧ valid_text m s ∧ REFERENCE s = true.
Proof.
  unfold validateReference. rewrite rbind_ok. setoid_rewrite boundedString_ok.
  setoid_rewrite reject_if_ok. setoid_rewrite negb_false_iff. naive_solver.
Qed.

Lemma validateNamespace_ok v s :
  validateNamespace v = Ok s → v = VStr s ∧ valid_text 96 s ∧ NAMESPACE s = true.
Proof.
  unfold validateNamespace. rewrite rbind_ok. setoid_rewrite boundedString_ok.
  setoid_rewrite reject_if_ok. intros (a & [-> Ha] & Hr & ->). by bools.
Qed.

Record valid_identity (id : Identity) : Prop := {
  vi_tenant : valid_text MAX_TENANT_BYTES (id_tenant id);
  vi_operation : valid_text MAX_OPERATION_BYTES (id_operation id);
  vi_key : valid_text MAX_IDEMPOTENCY_KEY_BYTES (id_idempotencyKey id);
  vi_fingerprint : valid_text 64 (id_fingerprint id) ∧ HEX_64 (id_fingerprint id) = true;
  vi_durable : valid_text MAX_DURABLE_ID_BYTES (id_durableId id) ∧
               REFERENCE (id_durableId id) = true;
}.

Definition identity_fields (id : Identity) : list (jsstring * jsval) :=
  [(js "tenant", VStr (id_tenant id)); (js "operation", VStr (id_operation id));
   (js "idempotencyKey", VStr (id_idempotencyKey id));
   (js "fingerprint", VStr (id_fingerprint id));
   (js "durableId", VStr (id_durableId id))].

Definition identity_names : list jsstring :=
  [js "tenant"; js "operation"; js "idempotencyKey"; js "fingerprint"; js "durableId"].

Lemma identity_names_NoDup : NoDup identity_names.
Proof. apply (proj1 (bool_decide_eq_true _)). vm_compute. reflexivity. Qed.

Lemma prop_assoc name fs s : prop name (VObj fs) = VStr s → (js name, VStr s) ∈ fs.
Proof.
  simpl. destruct (assoc (js name) fs) eqn:E; simpl; [|done]. intros ->. by apply assoc_In.
Qed.

Lemma validateIdentity_sound v id :
  validateIdentity v = Ok id →
  valid_identity id ∧ ∃ fs, v = VObj fs ∧ fs ≡ₚ identity_fields id.
Proof.
  unfold validateIdentity. destruct v as [| | | | |b| |fs]; simpl negb; try done.
  case_bool_decide as Hk; [|done]. simpl negb. cbv iota.
  rewrite rbind_ok. intros (te & [Ht Vt]%boundedString_ok & H). revert H.
  rewrite rbind_ok. intros (op & [Hop Vo]%boundedString_ok & H). revert H.
  rewrite rbind_ok. intros (ik & [Hik Vi]%boundedString_ok & H). revert H.
  rewrite rbind_ok. intros (fp & (Hfp & Vf & Xf)%validateFingerprint_ok & H). revert H.
  rewrite rbind_ok. intros (du & (Hdu & Vd & Xd)%validateReference_ok & H).
  injection H as <-. split; [done|]. exists fs. split; [done|].
  apply prop_assoc in Ht, Hop, Hik, Hfp, Hdu.
  set (want := [(js "tenant", VStr te); (js "operation", VStr op);
                (js "idempotencyKey", VStr ik); (js "fingerprint", VStr fp);
                (js "durableId", VStr du)]).
  assert (Hin : ∀ p, p ∈ want → p ∈ fs).
  { subst want. intros p Hp. repeat (apply elem_of_cons in Hp as [->|Hp]; [done|]).
    by apply not_elem_of_nil in Hp. }
  assert (Hkeys : fs.*1 ≡ₚ identity_names).
  { apply (join_exact 44); [apply identity_names_NoDup|done| |by vm_compute in Hk |- *].
    intros n Hn. change identity_names with (want.*1) in Hn.
    apply list_elem_of_fmap in Hn as (p & -> & Hp). apply list_elem_of_fmap; eauto. }
  change (identity_fields _) with want. symmetry.
  assert (Hs : want ⊆+ fs).
  { apply NoDup_submseteq; [|done]. apply (NoDup_fmap_1 fst).
    change (want.*1) with identity_names. apply identity_names_NoDup. }
  apply submseteq_length_Permutation; [done|].
  rewrite <- (length_fmap fst fs), Hkeys. done.
Qed.

Lemma prop_field name s fs :
  NoDup fs.*1 → (js name, VStr s) ∈ fs → prop name (VObj fs) = VStr s.
Proof. intros Hnd Hin. simpl. by rewrite (assoc_unique _ _ _ Hnd Hin). Qed.

Lemma validateIdentity_complete fs id :
  valid_identity id → fs ≡ₚ identity_fields id → validateIdentity (VObj fs) = Ok id.
Proof.
  intros [V1 V2 V3 [V4 X4] [V5 X5]] Hp. unfold validateIdentity. simpl negb. cbv iota.
  assert (Hk : fs.*1 ≡ₚ identity_names) by (by rewrite Hp).
  assert (Hnd : NoDup fs.*1) by (rewrite Hk; apply identity_names_NoDup).
  rewrite bool_decide_eq_true_2;
    [|unfold sorted_keys; simpl; by rewrite (js_sort_unique _ _ Hk)].
  simpl negb. cbv iota.
  assert (HF : ∀ name s, (js name, VStr s) ∈ identity_fields id →
                         prop name (VObj fs) = VStr s)
    by (intros name s Hin; apply prop_field; [done|by rewrite Hp]).
  rewrite (HF "tenant" (id_tenant id)) by (unfold identity_fields; set_solver).
  rewrite (HF "operation" (id_operation id)) by (unfold identity_fields; set_solver).
  rewrite (HF "idempotencyKey" (id_idempotencyKey id)) by (unfold identity_fields; set_solver).
  rewrite (HF "fingerprint" (id_fingerprint id)) by (unfold identity_fields; set_solver).
  rewrite (HF "durableId" (id_durableId id)) by (unfold identity_fields; set_solver).
  rewrite !(proj2 (boundedString_ok _ _ _)) by done. simpl.
  rewrite (proj2 (validateFingerprint_ok _ _)) by done. simpl.
  rewrite (proj2 (validateReference_ok _ _ _)) by done. simpl.
  by destruct id.
Qed.

(** [validateIdentity] accepts exactly the objects whose own properties,
    in any order, are the five identity fields, each a non-empty well-formed
    text within its byte limit and without control characters, the
    fingerprint 64 lowercase hex digits and the durable id a reference; and it
    returns those fields unchanged. *)
Theorem validateIdentity_exact v id :
  validateIdentity v = Ok id ↔
  valid_identity id ∧ ∃ fs, v = VObj fs ∧ fs ≡ₚ identity_fields id.
Proof.
  split; [apply validateIdentity_sound|].
  intros (Hv & fs & -> & Hp). by apply validateIdentity_complete.
Qed.

(** ** Keys and fingerprints *)

Lemma valid_text_plain m s : valid_text m s → plain_text s.
Proof. intros [_ Hw _ Hc]. split; [exact Hc|exact Hw]. Qed.

#[export] Hint Resolve valid_text_plain : jsdb.

Section hashing_facts.
Context (digest : jsstring → jsstring).
(** A SHA-256 digest is 64 hexadecimal digits. *)
Hypothesis digest_length : ∀ s, length (digest s) = 64%nat.

(** Two different texts with the same digest. *)
Definition collision (a b : jsstring) : Prop := a ≠ b ∧ digest a = digest b.

Lemma array_or_collision l l' :
  Forall plain_text l → Forall plain_text l' → length l = length l' →
  digest (json_array l) = digest (json_array l') →
  l = l' ∨ collision (json_array l) (json_array l').
Proof.
  intros Hl Hl' Hlen Hd. destruct (decide (json_array l = json_array l')) as [E|E].
  - left. by apply json_array_inj.
  - right. by split.
Qed.

Lemma operationKey_ok ns v k :
  operationKey digest ns v = Ok k →
  ∃ n id, ns = VStr n ∧ valid_text 96 n ∧ validateIdentity v = Ok id ∧
          valid_identity id ∧
          k = js "lltx:v1:" ++ digest (json_array [n; id_tenant id]) ++ js ":{" ++
              digest (json_array [n; id_tenant id; id_operation id; id_idempotencyKey id]) ++
              js "}:record".
Proof.
  unfold operationKey. rewrite rbind_ok. intros (n & (-> & Hn & _)%validateNamespace_ok & H).
  revert H. rewrite rbind_ok. intros (id & Hid & H). injection H as <-.
  exists n, id. by destruct (validateIdentity_sound _ _ Hid) as [? _].
Qed.

(** two operations share a Redis key only when namespace, tenant,
    operation and idempotency key all agree, unless the two canonical JSON
    texts that are hashed form an explicit digest collision. *)
Theorem operationKey_injective ns ns' v v' id id' k :
  validateIdentity v = Ok id → validateIdentity v' = Ok id' →
  operationKey digest ns v = Ok k → operationKey digest ns' v' = Ok k →
  (ns = ns' ∧ id_tenant id = id_tenant id' ∧ id_operation id = id_operation id' ∧
   id_idempotencyKey id = id_idempotencyKey id') ∨
  ∃ n n', ns = VStr n ∧ ns' = VStr n' ∧
    collision (json_array [n; id_tenant id; id_operation id; id_idempotencyKey id])
              (json_array [n'; id_tenant id'; id_operation id'; id_idempotencyKey id']).
Proof.
  intros Hid Hid' (n & i & -> & Hn & Hi & [V1 V2 V3 _ _] & Hk)%operationKey_ok
    (n' & i' & -> & Hn' & Hi' & [V1' V2' V3' _ _] & Hk')%operationKey_ok.
  assert (i = id) as -> by congruence. assert (i' = id') as -> by congruence.
  rewrite Hk in Hk'. clear Hk. apply app_inv_head in Hk'. apply app_inj_1 in Hk' as [_ Hk]; [|by rewrite !digest_length].
  apply app_inv_head, app_inj_1 in Hk as [Hk _]; [|by rewrite !digest_length].
  apply array_or_collision in Hk as [E|E];
    [left; injection E as -> ? ? ?; auto|right; by exists n, n'
    |rewrite !Forall_cons, Forall_nil; split_and!; eauto using valid_text_plain..|done].
Qed.

Lemma validateAmountMinor_ok v s : validateAmountMinor v = Ok s → valid_text 32 s.
Proof.
  unfold validateAmountMinor. rewrite rbind_ok. intros (a & [_ Ha]%boundedString_ok & H).
  case_match; [done|]. by apply reject_if_ok in H as [_ ->].
Qed.

Lemma paymentAccount_ok v s : paymentAccount v = Ok s → valid_text 128 s.
Proof.
  unfold paymentAccount. rewrite rbind_ok. intros (a & [_ Ha]%boundedString_ok & H).
  by apply reject_if_ok in H as [_ ->].
Qed.

Definition payment_fields (p : Payment) : list jsstring :=
  [p_tenant p; p_fromAccount p; p_toAccount p; p_currency p; p_amountMinor p].

Lemma validatePayment_ok v p :
  validatePaymentFingerprintInput v = Ok p →
  p_fromAccount p ≠ p_toAccount p ∧ is_currency (p_currency p) = true ∧
  Forall (valid_text 128) (payment_fields p).
Proof.
  unfold validatePaymentFingerprintInput. repeat (case_match; [done|]).
  rewrite rbind_ok. intros (te & [_ Vt]%boundedString_ok & H1). revert H1.
  rewrite rbind_ok. intros (fr & Vf%paymentAccount_ok & H1). revert H1.
  rewrite rbind_ok. intros (to & Vto%paymentAccount_ok & H1). revert H1.
  rewrite rbind_ok. intros (cu & [_ Vc]%boundedString_ok & H1). revert H1.
  case_match eqn:Hcu; [done|].
  rewrite rbind_ok. intros (am & Va%validateAmountMinor_ok & [Hne ->]%reject_if_ok).
  bools. split; [done|]. split; [done|].
  assert (Hle : ∀ m s, m <= 128 → valid_text m s → valid_text 128 s)
    by (intros m s Hm [? ? ? ?]; split; [done|done|lia|done]).
  unfold payment_fields; simpl. rewrite !Forall_cons, Forall_nil.
  split_and!; [done..|by apply (Hle 8)|by apply (Hle 32)|done].
Qed.

Lemma bounded_all_ok l m ss :
  bounded_all (VStr <$> l) m = Ok ss → ss = l.
Proof.
  revert ss. induction l as [|s l IH]; intros ss; [by intros [= <-]|].
  cbn [fmap list_fmap bounded_all]. rewrite rbind_ok.
  intros (a & [Ha _]%boundedString_ok & H). revert H. rewrite rbind_ok.
  intros (t & Ht & [= <-]). apply IH in Ht. congruence.
Qed.

Lemma fingerprintFields_ok d l f :
  fingerprintFields digest (VStr d) (VStr <$> l) = Ok f → f = digest (json_array (d :: l)).
Proof.
  unfold fingerprintFields. rewrite rbind_ok. intros (a & [[= ->] _]%boundedString_ok & H).
  revert H. case_match; [done|]. rewrite rbind_ok.
  by intros (t & ->%bounded_all_ok & [= <-]).
Qed.

Lemma paymentFingerprint_ok v f :
  paymentFingerprint digest v = Ok f →
  ∃ p, validatePaymentFingerprintInput v = Ok p ∧
       f = digest (json_array (js "payment-v1" :: payment_fields p)).
Proof.
  unfold paymentFingerprint. rewrite rbind_ok. intros (p & Hp & H). exists p.
  split; [done|]. by apply (fingerprintFields_ok _ (payment_fields p)) in H.
Qed.

(** a payment fingerprint identifies the payment: two accepted inputs with
    the same fingerprint describe the same tenant, accounts, currency and
    amount (whatever the order of their properties), unless their canonical
    JSON texts collide under the digest; and an accepted payment never moves
    money from an account to itself. *)
Theorem paymentFingerprint_identifies v v' f :
  paymentFingerprint digest v = Ok f → paymentFingerprint digest v' = Ok f →
  ∃ p p', validatePaymentFingerprintInput v = Ok p ∧
          validatePaymentFingerprintInput v' = Ok p' ∧
          p_fromAccount p ≠ p_toAccount p ∧
          (p = p' ∨ collision (json_array (js "payment-v1" :: payment_fields p))
                              (json_array (js "payment-v1" :: payment_fields p'))).
Proof.
  intros (p & Hp & ->)%paymentFingerprint_ok (p' & Hp' & Hf)%paymentFingerprint_ok.
  exists p, p'. destruct (validatePayment_ok _ _ Hp) as (Hne & _ & Hv).
  destruct (validatePayment_ok _ _ Hp') as (_ & _ & Hv').
  do 3 (split; [done|]).
  assert (Hplain : ∀ l, Forall (valid_text 128) l → Forall plain_text (js "payment-v1" :: l)).
  { intros l Hl. constructor; [|by eapply Forall_impl; [|apply valid_text_plain]].
    split; [|reflexivity]. apply no_control_spec. reflexivity. }
  destruct (array_or_collision _ _ (Hplain _ Hv) (Hplain _ Hv') eq_refl Hf) as [E|E];
    [left|by right].
  destruct p, p'. unfold payment_fields in E; simpl in E. by simplify_eq.
Qed.
End hashing_facts.

(** ** Witnesses *)

Definition demo_digest (s : jsstring) : jsstring :=
  take 64 (dec (sumZ (λ c, c) s) ++ replicate 64 48).

Lemma demo_digest_length s : length (demo_digest s) = 64%nat.
Proof. unfold demo_digest. rewrite length_take, length_app, length_replicate. lia. Qed.

Definition demo_identity (tenant : string) : jsval :=
  VObj [(js "durableId", VStr (js "pay:1")); (js "tenant", VStr (js tenant));
        (js "operation", VStr (js "charge")); (js "idempotencyKey", VStr (js "k-1"));
        (js "fingerprint", VStr (replicate 64 97))].

Definition demo_id (tenant : string) : Identity :=
  {| id_tenant := js tenant; id_operation := js "charge"; id_idempotencyKey := js "k-1";
     id_fingerprint := replicate 64 97; id_durableId := js "pay:1" |}.

Definition demo_key (tenant : string) : jsstring :=
  match operationKey demo_digest (VStr (js "prod")) (demo_identity tenant) with
  | Ok k => k | Throw _ => [] end.

Lemma operationKey_injective_witness :
  operationKey demo_digest (VStr (js "prod")) (demo_identity "acme") = Ok (demo_key "acme") ∧
  ((VStr (js "prod") = VStr (js "prod") ∧ id_tenant (demo_id "acme") = id_tenant (demo_id "acme")
    ∧ id_operation (demo_id "acme") = id_operation (demo_id "acme") ∧
    id_idempotencyKey (demo_id "acme") = id_idempotencyKey (demo_id "acme")) ∨
   ∃ n n', VStr (js "prod") = VStr n ∧ VStr (js "prod") = VStr n' ∧
    collision demo_digest
      (json_array [n; js "acme"; js "charge"; js "k-1"])
      (json_array [n'; js "acme"; js "charge"; js "k-1"])).
Proof.
  split; [vm_compute; reflexivity|].
  apply (operationKey_injective demo_digest demo_digest_length _ _
    (demo_identity "acme") (demo_identity "acme") (demo_id "acme") (demo_id "acme")
    (demo_key "acme")); vm_compute; reflexivity.
Defined.

Definition demo_payment : jsval :=
  VObj [(js "tenant", VStr (js "acme")); (js "currency", VStr (js "EUR"));
        (js "fromAccount", VStr (js "a")); (js "toAccount", VStr (js "b"));
        (js "amountMinor", VStr (js "1250"))].

Lemma paymentFingerprint_identifies_witness :
  ∃ f p p', paymentFingerprint demo_digest demo_payment = Ok f ∧
    validatePaymentFingerprintInput demo_payment = Ok p ∧
    validatePaymentFingerprintInput demo_payment = Ok p' ∧
    p_fromAccount p ≠ p_toAccount p.
Proof.
  destruct (paymentFingerprint demo_digest demo_payment) as [f|e] eqn:E;
    [|vm_compute in E; discriminate E].
  destruct (paymentFingerprint_identifies demo_digest _ _ f E E)
    as (p & p' & H1 & H2 & H3 & _).
  exists f, p, p'. split; [reflexivity|]. split; [exact H1|]. split; [exact H2|exact H3].
Defined.
