(* ===== verification/TxScript.v ===== *)
(** * The coordination script ([src/src/transactions/scripts.ts])

    The Lua program [OPERATION_COORDINATION_LUA] that Redis runs atomically on
    one operation record. It is a function of KEYS, ARGV, the answer of GET and
    the answer of TIME, and yields a reply and at most one SET; an early
    [return] of the script is the [Throw] of the result monad. [cjson] is a
    parameter, and so is [tonumber] on texts that are not canonical decimals.

    The second half models the one key as Redis keeps it (a string with an
    absolute expiry), states the protocol as an abstract machine and proves
    that the script implements it. *)

From S2P Require Import Prelude JsValue TxKeys.

(** ** Lua data *)

Inductive luakey := KStr (s : bytes) | KNum (q : Q).

#[warnings="-register-all"]
Inductive luaval :=
| LNil
| LNull
| LBool (b : bool)
| LNum (q : Q)
| LStr (s : bytes)
| LTable (fields : list (luakey * luaval)).

(** [r.name] *)
Definition lua_field (name : string) (v : luaval) : luaval :=
  match v with
  | LTable fs =>
      (snd <$> List.find
         (λ p, match p.1 with KStr s => bool_decide (s = js name) | _ => false end) fs)
        ?? LNil
  | _ => LNil
  end.

Inductive reply := RArr (parts : list bytes) | RErr (message : bytes).

(** GET rejects keys of another type. *)
Inductive get_reply := GetNil | GetStr (raw : bytes) | GetWrongType.

Abbreviation script_result := (result reply).

Definition fail {A} (code : string) : script_result A := Throw (RErr (js code)).

(** ** The local functions of the script *)

Definition integer (n : option Q) (lo hi : Z) : bool :=
  match n with
  | Some q => (Qnum q mod Zpos (Qden q) =? 0)
              && (lo <=? Qnum q / Zpos (Qden q)) && (Qnum q / Zpos (Qden q) <=? hi)
  | None => false
  end.

Definition bounded (s : bytes) (n : Z) : bool :=
  (0 <? Z.of_nat (length s)) && (Z.of_nat (length s) <=? n).

Definition hex64 (s : bytes) : bool :=
  bounded s 64 && (Z.of_nat (length s) =? 64) && negb (existsb (λ c, negb (is_lower_hex c)) s).

Definition reference (s : bytes) (cap : Z) : bool :=
  bounded s cap && negb (existsb (λ c, negb (reference_char c)) s).

(** [type(s) ~= 'string'] is the first test of each of them. *)
Definition on_string (f : bytes → bool) (v : luaval) : bool :=
  match v with LStr s => f s | _ => false end.

Definition timestamp (v : luaval) : option Z :=
  match v with
  | LStr s =>
      if 16 <? Z.of_nat (length s) then None
      else if negb (bool_decide (s = [48])) && negb (positive_decimal s) then None
      else
        let n := parse_dec s in
        if integer (Some (inject_Z n)) 0 9007199254740991 then Some n else None
  | _ => None
  end.

Definition allowed_fields : list bytes :=
  js <$> ["schema"; "fingerprint"; "durableId"; "owner"; "state"; "leaseUntilMs";
          "retainUntilMs"; "resultRef"]%string.

Definition allowed (k : luakey) : bool :=
  match k with KStr s => bool_decide (s ∈ allowed_fields) | KNum _ => false end.

Definition lua_is (s : bytes) (v : luaval) : bool :=
  match v with LStr t => bool_decide (t = s) | _ => false end.

Definition validate_record (r : luaval) : bool :=
  match r with
  | LTable fs =>
      match lua_field "schema" r with LNum q => Qeq_bool q 1 | _ => false end
      && on_string hex64 (lua_field "fingerprint" r)
      && on_string hex64 (lua_field "owner" r)
      && on_string (λ s, reference s 128) (lua_field "durableId" r)
      && forallb (λ p, allowed p.1) fs
      && bool_decide (length fs = 8%nat)
      && match timestamp (lua_field "leaseUntilMs" r), timestamp (lua_field "retainUntilMs" r) with
         | Some untilMs, Some retainMs =>
             (0 <? retainMs)
             && (if lua_is (js "pending") (lua_field "state" r)
                 then (0 <? untilMs) && (untilMs <=? retainMs)
                      && lua_is [] (lua_field "resultRef" r)
                 else lua_is (js "completed") (lua_field "state" r) && (untilMs =? 0)
                      && on_string (λ s, reference s 256) (lua_field "resultRef" r))
         | _, _ => false
         end
  | _ => false
  end.

#[global] Arguments integer : simpl never.
#[global] Arguments hex64 : simpl never.
#[global] Arguments reference : simpl never.
#[global] Arguments timestamp : simpl never.
#[global] Arguments validate_record : simpl never.

(** The record as the script handles it once validated: seven strings. *)
Record oprecord := {
  r_fingerprint : bytes;
  r_durableId : bytes;
  r_owner : bytes;
  r_state : bytes;
  r_leaseUntilMs : bytes;
  r_retainUntilMs : bytes;
  r_resultRef : bytes;
}.

Definition lua_string (v : luaval) : bytes := match v with LStr s => s | _ => [] end.

Definition record_of (v : luaval) : oprecord :=
  {| r_fingerprint := lua_string (lua_field "fingerprint" v);
     r_durableId := lua_string (lua_field "durableId" v);
     r_owner := lua_string (lua_field "owner" v);
     r_state := lua_string (lua_field "state" v);
     r_leaseUntilMs := lua_string (lua_field "leaseUntilMs" v);
     r_retainUntilMs := lua_string (lua_field "retainUntilMs" v);
     r_resultRef := lua_string (lua_field "resultRef" v) |}.

Definition record_table (r : oprecord) : luaval :=
  LTable [(KStr (js "schema"), LNum 1); (KStr (js "fingerprint"), LStr (r_fingerprint r));
          (KStr (js "durableId"), LStr (r_durableId r)); (KStr (js "owner"), LStr (r_owner r));
          (KStr (js "state"), LStr (r_state r));
          (KStr (js "leaseUntilMs"), LStr (r_leaseUntilMs r));
          (KStr (js "retainUntilMs"), LStr (r_retainUntilMs r));
          (KStr (js "resultRef"), LStr (r_resultRef r))].

Record script_args := {
  a_cmd : bytes;
  a_fp : bytes;
  a_durable : bytes;
  a_owner : bytes;
  a_lease : Z;
  a_retention : Z;
  a_result : bytes;
}.

Definition MAX_LEASE : Z := 3600000.
Definition MAX_RETENTION : Z := 2592000000.

Definition qfloor (n : option Q) : Z :=
  match n with Some q => Qnum q / Zpos (Qden q) | None => 0 end.

(** The cjson library of Redis. *)
Class Cjson := {
  cjson_encode : luaval → bytes;
  cjson_decode : bytes → option luaval;
  tonumber_other : bytes → option Q;
}.

Section script.
Context `{Cjson}.

(** [tonumber] is exact on the canonical decimals the client sends. *)
Definition tonumber (s : bytes) : option Q :=
  if canonical_decimal s then Some (inject_Z (parse_dec s)) else tonumber_other s.

(** The argument checks (lines 62 to 71 of the file). *)
Definition parse_args (keys argv : list bytes) : script_result script_args :=
  match keys, argv with
  | [_], [cmd; fp; durable; owner; leaseText; retentionText; res] =>
      let lease := tonumber leaseText in
      let retention := tonumber retentionText in
      if negb (bool_decide (cmd ∈ [js "begin"; js "renew"; js "complete"; js "read"]))
      then fail "TX_INVALID_COMMAND"
      else if negb (hex64 fp) || negb (reference durable 128) then fail "TX_INVALID_ID"
      else if negb (bool_decide (cmd = js "read")) && negb (hex64 owner)
      then fail "TX_INVALID_OWNER"
      else if negb (integer lease 1 MAX_LEASE)
              || negb (integer retention (qfloor lease) MAX_RETENTION)
      then fail "TX_INVALID_TTL"
      else if bool_decide (cmd = js "complete") && negb (reference res 256)
      then fail "TX_INVALID_RESULT"
      else Ok {| a_cmd := cmd; a_fp := fp; a_durable := durable; a_owner := owner;
                 a_lease := qfloor lease; a_retention := qfloor retention; a_result := res |}
  | _, _ => fail "TX_INVALID_ARGS"
  end.

(** Reading and checking the stored record (lines 74 to 82). *)
Definition load_record (a : script_args) (got : get_reply) : script_result (option oprecord) :=
  match got with
  | GetWrongType => fail "WRONGTYPE Operation against a key holding the wrong kind of value"
  | GetNil => Ok None
  | GetStr raw =>
      if 2048 <? Z.of_nat (length raw) then fail "TX_INVALID_RECORD"
      else match cjson_decode raw with
           | Some v =>
               if negb (validate_record v) then fail "TX_INVALID_RECORD"
               else
                 let r := record_of v in
                 if negb (bool_decide (r_fingerprint r = a_fp a))
                    || negb (bool_decide (r_durableId r = a_durable a))
                 then Throw (RArr [js "conflict"])
                 else Ok (Some r)
           | None => fail "TX_INVALID_RECORD"
           end
  end.

(** The server clock in milliseconds (lines 83 to 85). *)
Definition clock (a : script_args) (time : Z * Z) : script_result Z :=
  let now := time.1 * 1000 + time.2 / 1000 in
  if negb (integer (Some (inject_Z now)) 0 (9007199254740991 - a_retention a))
  then fail "TX_INVALID_TIME" else Ok now.

Definition retainedDeadline (a : script_args) (now : Z) (r : option oprecord) : bytes :=
  dec (Z.max (now + a_retention a)
         (match r with Some r => parse_dec (r_retainUntilMs r) | None => 0 end)).

Definition remaining (now : Z) (r : oprecord) : Z :=
  Z.max 0 (parse_dec (r_leaseUntilMs r) - now).

Definition encode_record_checked (r : oprecord) : script_result bytes :=
  if negb (validate_record (record_table r)) then fail "TX_INVALID_RECORD"
  else
    let encoded := cjson_encode (record_table r) in
    if 2048 <? Z.of_nat (length encoded) then fail "TX_INVALID_RECORD" else Ok encoded.

(** The value and time to live of the SET. *)
Definition persist (now : Z) (nextRecord : oprecord) : script_result (bytes * Z) :=
  encoded <~ encode_record_checked nextRecord ;;
  let ttl := parse_dec (r_retainUntilMs nextRecord) - now in
  if negb (integer (Some (inject_Z ttl)) 1 MAX_RETENTION) then fail "TX_INVALID_TTL"
  else Ok (encoded, ttl).

(** What one run of the script does: its reply and its write. *)
Abbreviation outcome := (reply * option (bytes * Z))%type.

Definition answer (parts : list bytes) : outcome := (RArr parts, None).

(** [local err = persist(r); if err then return err end; return parts] *)
Definition persist_then (now : Z) (r : oprecord) (parts : list bytes) : outcome :=
  match persist now r with
  | Ok w => (RArr parts, Some w)
  | Throw e => (e, None)
  end.

(** [cmd == 'read'] (lines 100 to 105). *)
Definition do_read (now : Z) (r : option oprecord) : outcome :=
  match r with
  | None => answer [js "missing"]
  | Some r =>
      if bool_decide (r_state r = js "completed") then answer [js "completed"; r_resultRef r]
      else if remaining now r =? 0 then answer [js "recovery_required"]
      else answer [js "in_progress"; dec (remaining now r)]
  end.

(** A completed record answers every mutation (lines 106 to 110). *)
Definition on_completed (a : script_args) (r : oprecord) : outcome :=
  if bool_decide (a_cmd a = js "renew") then answer [js "lost"]
  else if bool_decide (a_cmd a = js "complete") && negb (bool_decide (r_resultRef r = a_result a))
  then answer [js "conflict"]
  else answer [js "completed"; r_resultRef r].

(** [cmd == 'begin'] on no record or a pending one (lines 111 to 126). *)
Definition do_begin (a : script_args) (now : Z) (r : option oprecord) : outcome :=
  let fresh :=
    persist_then now
      {| r_fingerprint := a_fp a; r_durableId := a_durable a; r_owner := a_owner a;
         r_state := js "pending"; r_leaseUntilMs := dec (now + a_lease a);
         r_retainUntilMs := retainedDeadline a now r; r_resultRef := [] |}
      [js "acquired"; a_owner a; dec (a_lease a); js "reconcile"] in
  match r with
  | Some r =>
      if 0 <? remaining now r then
        if bool_decide (r_owner r = a_owner a)
        then answer [js "acquired"; a_owner a; dec (remaining now r); js "reconcile"]
        else answer [js "in_progress"; dec (remaining now r)]
      else if bool_decide (r_owner r = a_owner a)
      then (RErr (js "TX_FRESH_OWNER_REQUIRED"), None)
      else fresh
  | None => fresh
  end.

(** [renew] and [complete] (lines 127 to 140). *)
Definition do_renew_complete (a : script_args) (now : Z) (r : option oprecord) : outcome :=
  match r with
  | None => answer [js "lost"]
  | Some r' =>
      if negb (bool_decide (r_owner r' = a_owner a)) || (remaining now r' =? 0)
      then answer [js "lost"]
      else if bool_decide (a_cmd a = js "renew") then
        persist_then now
          {| r_fingerprint := r_fingerprint r'; r_durableId := r_durableId r';
             r_owner := r_owner r'; r_state := r_state r';
             r_leaseUntilMs := dec (now + a_lease a);
             r_retainUntilMs := retainedDeadline a now r; r_resultRef := r_resultRef r' |}
          [js "renewed"; dec (a_lease a)]
      else
        persist_then now
          {| r_fingerprint := r_fingerprint r'; r_durableId := r_durableId r';
             r_owner := r_owner r'; r_state := js "completed"; r_leaseUntilMs := js "0";
             r_retainUntilMs := retainedDeadline a now r; r_resultRef := a_result a |}
          [js "completed"; a_result a]
  end.

Definition dispatch_command (a : script_args) (now : Z) (r : option oprecord) : outcome :=
  if bool_decide (a_cmd a = js "read") then do_read now r
  else match r with
       | Some r' =>
           if bool_decide (r_state r' = js "completed") then on_completed a r'
           else if bool_decide (a_cmd a = js "begin") then do_begin a now r
           else do_renew_complete a now r
       | None => if bool_decide (a_cmd a = js "begin") then do_begin a now r
                 else do_renew_complete a now r
       end.

(** The whole script. *)
Definition script (keys argv : list bytes) (got : get_reply) (time : Z * Z) : outcome :=
  match
    a <~ parse_args keys argv ;;
    r <~ load_record a got ;;
    now <~ clock a time ;;
    Ok (dispatch_command a now r)
  with
  | Ok o => o
  | Throw e => (e, None)
  end.
End script.
