(* ===== verification/TxProtocol.v ===== *)
(** * The operation protocol as an abstract machine

    The specification of the coordination script ([src/src/transactions/
    scripts.ts]): a missing, pending or completed operation, and the command
    that each kind of caller may apply to it. The refinement theorem says the
    Lua script on the encoded record is this machine; the safety theorems are
    about histories of script runs on one Redis key with its expiry. *)

From S2P Require Import Prelude JsValue TxKeys TxScript.

(** ** The key as Redis keeps it *)

(** A string and the absolute time at which it expires. *)
Abbreviation redis_cell := (option (bytes * Z)).

Definition visible (now : Z) (c : redis_cell) : get_reply :=
  match c with
  | Some (raw, expiry) => if now <? expiry then GetStr raw else GetNil
  | None => GetNil
  end.

Definition ms_of (time : Z * Z) : Z := time.1 * 1000 + time.2 / 1000.

(** One atomic run of the script; the write is SET with PX. *)
Definition exec_script `{Cjson} (c : redis_cell) (keys argv : list bytes) (time : Z * Z)
    : redis_cell * reply :=
  let '(rep, w) := script keys argv (visible (ms_of time) c) time in
  (match w with Some (raw, ttl) => Some (raw, ms_of time + ttl) | None => c end, rep).

(** ** The abstract machine *)

Inductive phase := PendingUntil (until : Z) | CompletedWith (ref : bytes).

Record op := {
  op_fp : bytes;
  op_durable : bytes;
  op_owner : bytes;
  op_phase : phase;
  op_retain : Z;
}.

Definition same_operation (a : script_args) (o : op) : bool :=
  bool_decide (op_fp o = a_fp a) && bool_decide (op_durable o = a_durable a).

Definition retain_at (a : script_args) (now : Z) (st : option op) : Z :=
  Z.max (now + a_retention a) (match st with Some o => op_retain o | None => 0 end).

Definition acquired (a : script_args) (ms : Z) : reply :=
  RArr [js "acquired"; a_owner a; dec ms; js "reconcile"].

(** A fresh acquisition. *)
Definition fresh_op (a : script_args) (now : Z) (st : option op) : op :=
  {| op_fp := a_fp a; op_durable := a_durable a; op_owner := a_owner a;
     op_phase := PendingUntil (now + a_lease a); op_retain := retain_at a now st |}.

(** The reply and the new operation when one is written. *)
Definition spec_step (a : script_args) (now : Z) (st : option op) : reply * option op :=
  match st with
  | None =>
      if bool_decide (a_cmd a = js "read") then (RArr [js "missing"], None)
      else if bool_decide (a_cmd a = js "begin")
      then (acquired a (a_lease a), Some (fresh_op a now None))
      else (RArr [js "lost"], None)
  | Some o =>
      if negb (same_operation a o) then (RArr [js "conflict"], None)
      else
        match op_phase o with
        | CompletedWith ref =>
            if bool_decide (a_cmd a = js "renew") then (RArr [js "lost"], None)
            else if bool_decide (a_cmd a = js "complete") && negb (bool_decide (ref = a_result a))
            then (RArr [js "conflict"], None)
            else (RArr [js "completed"; ref], None)
        | PendingUntil until =>
            let left := Z.max 0 (until - now) in
            if bool_decide (a_cmd a = js "read") then
              (if left =? 0 then RArr [js "recovery_required"]
               else RArr [js "in_progress"; dec left], None)
            else if bool_decide (a_cmd a = js "begin") then
              if 0 <? left then
                (if bool_decide (op_owner o = a_owner a) then acquired a left
                 else RArr [js "in_progress"; dec left], None)
              else if bool_decide (op_owner o = a_owner a)
              then (RErr (js "TX_FRESH_OWNER_REQUIRED"), None)
              else (acquired a (a_lease a), Some (fresh_op a now st))
            else if negb (bool_decide (op_owner o = a_owner a)) || (left =? 0)
            then (RArr [js "lost"], None)
            else if bool_decide (a_cmd a = js "renew") then
              (RArr [js "renewed"; dec (a_lease a)],
               Some {| op_fp := op_fp o; op_durable := op_durable o; op_owner := op_owner o;
                       op_phase := PendingUntil (now + a_lease a);
                       op_retain := retain_at a now st |})
            else
              (RArr [js "completed"; a_result a],
               Some {| op_fp := op_fp o; op_durable := op_durable o; op_owner := op_owner o;
                       op_phase := CompletedWith (a_result a);
                       op_retain := retain_at a now st |})
        end
  end.

(** ** The record of an operation *)

Definition MAX_MS : Z := 9007199254740991.

Record op_ok (o : op) : Prop := {
  oo_fp : hex64 (op_fp o) = true;
  oo_durable : reference (op_durable o) 128 = true;
  oo_owner : hex64 (op_owner o) = true;
  oo_retain : 0 < op_retain o <= MAX_MS;
  oo_phase : match op_phase o with
             | PendingUntil u => 0 < u <= op_retain o
             | CompletedWith ref => reference ref 256 = true
             end;
}.

Definition to_record (o : op) : oprecord :=
  {| r_fingerprint := op_fp o; r_durableId := op_durable o; r_owner := op_owner o;
     r_state := match op_phase o with PendingUntil _ => js "pending"
                | CompletedWith _ => js "completed" end;
     r_leaseUntilMs := match op_phase o with PendingUntil u => dec u | CompletedWith _ => js "0" end;
     r_retainUntilMs := dec (op_retain o);
     r_resultRef := match op_phase o with PendingUntil _ => [] | CompletedWith ref => ref end |}.

Definition strings_length (r : oprecord) : Z :=
  sumZ (λ s, Z.of_nat (length s))
    [r_fingerprint r; r_durableId r; r_owner r; r_state r; r_leaseUntilMs r;
     r_retainUntilMs r; r_resultRef r].

(** What the protocol needs of cjson: records survive a round trip, and a
    character takes at most two bytes. *)
Class CjsonLaws `{Cjson} := {
  cjson_roundtrip r :
    validate_record (record_table r) = true →
    cjson_decode (cjson_encode (record_table r)) = Some (record_table r);
  cjson_size r :
    validate_record (record_table r) = true →
    Z.of_nat (length (cjson_encode (record_table r))) <= 160 + 2 * strings_length r;
}.

Lemma integer_Z n lo hi : integer (Some (inject_Z n)) lo hi = (lo <=? n) && (n <=? hi).
Proof. unfold integer; simpl. by rewrite Z.mod_1_r, Z.div_1_r. Qed.

Lemma dec_fuel_length n z :
  0 <= z < 10 ^ Z.of_nat 16 → ∀ k, 0 <= z < 10 ^ Z.of_nat k → (1 <= k)%nat →
  (length (dec_fuel n z) <= k)%nat ∨ z >= 2 ^ (Z.of_nat n + 1).
Proof.
  revert z. induction n as [|n IH]; intros z Hz k Hk Hk1; simpl; [left; lia|].
  case_match eqn:E; bools; [left; simpl; lia|].
  destruct k as [|[|k]]; [lia|simpl in Hk; lia|].
  assert (Hd : 0 <= z / 10 < 10 ^ Z.of_nat (S k)).
  { split; [apply Z.div_pos; lia|]. apply Z.div_lt_upper_bound; [lia|].
    rewrite (Nat2Z.inj_succ (S k)), Z.pow_succ_r in Hk by lia. lia. }
  destruct (IH (z / 10)) with (k := S k) as [Hl|Hl]; [split; [lia|]|done|lia| |].
  - apply Z.div_lt_upper_bound; lia.
  - left. rewrite length_app. simpl. lia.
  - right. assert (2 ^ (Z.of_nat (S n) + 1) = 2 * 2 ^ (Z.of_nat n + 1)) as ->.
    { rewrite <- Z.pow_succ_r by lia. f_equal. lia. }
    pose proof (Z.mul_div_le z 10 ltac:(lia)).
    assert (0 < 2 ^ (Z.of_nat n + 1)) by (apply Z.pow_pos_nonneg; lia). lia.
Qed.

Lemma dec_length z : 0 <= z <= MAX_MS → Z.of_nat (length (dec z)) <= 16.
Proof.
  intros Hz. unfold dec, MAX_MS in *.
  destruct (dec_fuel_length (Z.to_nat (Z.log2 z)) z) with (k := 16%nat) as [H|H];
    [simpl; lia|simpl; lia|lia|lia|].
  pose proof (log2_fuel z). lia.
Qed.

Lemma timestamp_dec z : 0 <= z <= MAX_MS → timestamp (LStr (dec z)) = Some z.
Proof.
  intros Hz. unfold timestamp. pose proof (dec_length z Hz).
  rewrite (proj2 (Z.ltb_ge _ _)) by lia.
  pose proof (dec_canonical z ltac:(lia)) as Hc. unfold canonical_decimal in Hc.
  apply orb_true_iff in Hc.
  assert (negb (bool_decide (dec z = [48])) && negb (positive_decimal (dec z)) = false) as ->.
  { apply andb_false_iff. rewrite !negb_false_iff. tauto. }
  rewrite parse_dec_dec, integer_Z by lia. unfold MAX_MS in *.
  by rewrite !(proj2 (Z.leb_le _ _)) by lia.
Qed.

Lemma record_of_table r : record_of (record_table r) = r.
Proof. by destruct r. Qed.

Lemma fields_of_table r :
  lua_field "schema" (record_table r) = LNum 1 ∧
  lua_field "fingerprint" (record_table r) = LStr (r_fingerprint r) ∧
  lua_field "owner" (record_table r) = LStr (r_owner r) ∧
  lua_field "durableId" (record_table r) = LStr (r_durableId r) ∧
  lua_field "state" (record_table r) = LStr (r_state r) ∧
  lua_field "leaseUntilMs" (record_table r) = LStr (r_leaseUntilMs r) ∧
  lua_field "retainUntilMs" (record_table r) = LStr (r_retainUntilMs r) ∧
  lua_field "resultRef" (record_table r) = LStr (r_resultRef r).
Proof. by destruct r. Qed.

Lemma allowed_table r : ∀ fs, record_table r = LTable fs →
  forallb (λ p, allowed p.1) fs = true ∧ length fs = 8%nat.
Proof. by intros fs [= <-]. Qed.

Lemma to_record_valid o : op_ok o → validate_record (record_table (to_record o)) = true.
Proof.
  intros [Hf Hd Ho Hr Hp].
  destruct (fields_of_table (to_record o)) as (E1 & E2 & E3 & E4 & E5 & E6 & E7 & E8).
  destruct (record_table (to_record o)) as [| | | | |fs] eqn:ET; try done.
  destruct (allowed_table _ _ ET) as [Hall Hlen].
  unfold validate_record. rewrite E1, E2, E3, E4, E5, E6, E7, E8, Hall, Hlen.
  cbn [to_record r_retainUntilMs r_leaseUntilMs r_fingerprint r_owner r_durableId r_state
       r_resultRef]. rewrite (timestamp_dec (op_retain o)) by lia.
  cbn [on_string]. rewrite Hf, Hd, Ho.
  assert ((0 <? op_retain o) = true) as -> by (apply Z.ltb_lt; lia).
  destruct (op_phase o) as [u|ref].
  - rewrite timestamp_dec by lia. simpl.
    by rewrite (proj2 (Z.ltb_lt 0 u)), (proj2 (Z.leb_le u _)) by lia.
  - change (LStr (js "0")) with (LStr (dec 0)). rewrite timestamp_dec by (unfold MAX_MS; lia).
    done.
Qed.

Lemma reference_length s cap : reference s cap = true → Z.of_nat (length s) <= cap.
Proof. unfold reference, bounded. intros Hs. by bools. Qed.

Lemma hex64_length s : hex64 s = true → Z.of_nat (length s) = 64.
Proof. unfold hex64. intros Hs. by bools. Qed.

Lemma to_record_size o : op_ok o → strings_length (to_record o) <= 600.
Proof.
  intros [Hf Hd Ho Hr Hp]. unfold strings_length; simpl.
  apply hex64_length in Hf, Ho. apply reference_length in Hd.
  pose proof (dec_length (op_retain o) ltac:(lia)).
  destruct (op_phase o) as [u|ref]; simpl.
  - pose proof (dec_length u ltac:(lia)). change (length (js "pending")) with 7%nat. lia.
  - apply reference_length in Hp. change (length (js "completed")) with 9%nat.
    change (length (js "0")) with 1%nat. lia.
Qed.

Section refinement.
Context `{CjsonLaws}.

Definition encode_op (o : op) : bytes := cjson_encode (record_table (to_record o)).

Lemma encode_op_length o : op_ok o → Z.of_nat (length (encode_op o)) <= 2048.
Proof.
  intros Ho. pose proof (cjson_size _ (to_record_valid o Ho)).
  pose proof (to_record_size o Ho). unfold encode_op. lia.
Qed.

Lemma persist_op o now :
  op_ok o → 1 <= op_retain o - now <= MAX_RETENTION →
  persist now (to_record o) = Ok (encode_op o, op_retain o - now).
Proof.
  intros Ho Httl. unfold persist, encode_record_checked.
  rewrite (to_record_valid o Ho). simpl negb. cbv iota.
  pose proof (encode_op_length o Ho) as Hlen. unfold encode_op in Hlen.
  rewrite (proj2 (Z.ltb_ge _ _)) by lia. cbn [rbind].
  pose proof (oo_retain _ Ho).
  cbn [to_record r_retainUntilMs]. rewrite parse_dec_dec, integer_Z by lia.
  by rewrite !(proj2 (Z.leb_le _ _)) by lia.
Qed.

Lemma load_op a o :
  op_ok o →
  load_record a (GetStr (encode_op o)) =
    if same_operation a o then Ok (Some (to_record o)) else Throw (RArr [js "conflict"]).
Proof.
  intros Ho. unfold load_record. pose proof (encode_op_length o Ho).
  rewrite (proj2 (Z.ltb_ge _ _)) by lia. unfold encode_op.
  rewrite (cjson_roundtrip _ (to_record_valid o Ho)), (to_record_valid o Ho).
  simpl negb. cbv iota. rewrite record_of_table. unfold same_operation. simpl.
  by do 2 case_bool_decide.
Qed.

(** The clock is in range and no record outlives the longest retention. *)
Definition in_time (a : script_args) (now : Z) (st : option op) : Prop :=
  0 <= now <= MAX_MS - a_retention a ∧
  match st with
  | Some o => op_ok o ∧ now < op_retain o <= now + MAX_RETENTION
  | None => True
  end.

(** Arguments that passed the script's checks. *)
Record args_ok (a : script_args) : Prop := {
  ao_cmd : a_cmd a ∈ [js "begin"; js "renew"; js "complete"; js "read"];
  ao_fp : hex64 (a_fp a) = true;
  ao_durable : reference (a_durable a) 128 = true;
  ao_owner : a_cmd a ≠ js "read" → hex64 (a_owner a) = true;
  ao_lease : 1 <= a_lease a <= MAX_LEASE;
  ao_retention : a_lease a <= a_retention a <= MAX_RETENTION;
  ao_result : a_cmd a = js "complete" → reference (a_result a) 256 = true;
}.

Lemma integer_floor n lo hi : integer n lo hi = true → lo <= qfloor n <= hi.
Proof. unfold integer. destruct n; simpl; intros Hn; [by bools|done]. Qed.

Lemma parse_args_ok keys argv a : parse_args keys argv = Ok a → args_ok a.
Proof.
  unfold parse_args. destruct keys as [|? [|]]; try done.
  destruct argv as [|cmd [|fp [|du [|ow [|le [|re [|rs [|]]]]]]]]; try done.
  destruct (bool_decide (cmd ∈ _)) eqn:E1; [|done].
  destruct (negb (hex64 fp) || _) eqn:E2; [done|].
  destruct (negb (bool_decide (cmd = js "read")) && _) eqn:E3; [done|].
  destruct (negb (integer (tonumber le) 1 _) || _) eqn:E4; [done|].
  destruct (bool_decide (cmd = js "complete") && _) eqn:E5; [done|].
  intros [= <-]. bools. simpl negb in *. cbv iota in *.
  repeat match goal with Hi : integer _ _ _ = true |- _ => apply integer_floor in Hi end.
  split; simpl; try done; try lia.
  - intros Hne. rewrite bool_decide_eq_false_2 in E3 by done. simpl in E3. by bools.
  - intros ->. rewrite bool_decide_eq_true_2 in E5 by done. simpl in E5. by bools.
Qed.

(** ** The script implements the machine *)

(** What a write leaves behind. *)
Definition write_ok (now : Z) (o : op) : Prop :=
  op_ok o ∧ now < op_retain o <= now + MAX_RETENTION.

Lemma retain_at_bounds a now st :
  args_ok a → in_time a now st →
  now + a_retention a <= retain_at a now st <= now + MAX_RETENTION ∧ retain_at a now st <= MAX_MS.
Proof.
  intros Ha [Hn Hst]. pose proof (ao_retention _ Ha). pose proof (ao_lease _ Ha).
  unfold retain_at, MAX_MS, MAX_RETENTION, MAX_LEASE in *.
  destruct st as [o|]; [|lia]. destruct Hst as [Ho Hr]. pose proof (oo_retain _ Ho).
  unfold MAX_MS in *. lia.
Qed.

(** A write refreshes the retention and keeps the identity of its caller. *)
Lemma write_ok_intro a now st ph owner :
  args_ok a → in_time a now st → hex64 owner = true →
  match ph with PendingUntil u => u = now + a_lease a | CompletedWith ref => reference ref 256 = true end →
  write_ok now {| op_fp := a_fp a; op_durable := a_durable a; op_owner := owner;
                  op_phase := ph; op_retain := retain_at a now st |}.
Proof.
  intros Ha Hin Hown Hph. pose proof (retain_at_bounds _ _ _ Ha Hin) as [Hr Hm].
  destruct Hin as [Hn _]. destruct Ha as [_ Hfp Hdu _ Hl Hre _].
  split; [|simpl; lia]. split; simpl; try done; [lia|].
  destruct ph; subst; [lia|done].
Qed.

Lemma same_operation_eq a o :
  same_operation a o = true → op_fp o = a_fp a ∧ op_durable o = a_durable a.
Proof. unfold same_operation. intros Hs. by bools. Qed.

Lemma cmd_cases a :
  args_ok a → a_cmd a = js "begin" ∨ a_cmd a = js "renew" ∨ a_cmd a = js "complete" ∨
              a_cmd a = js "read".
Proof. intros Ha. pose proof (ao_cmd _ Ha) as Hc. set_solver. Qed.

Lemma spec_write_ok a now st rep w :
  args_ok a → in_time a now st → spec_step a now st = (rep, Some w) → write_ok now w.
Proof.
  intros Ha Hin. unfold spec_step. destruct st as [o|].
  - destruct (same_operation a o) eqn:Hs; [|done]. apply same_operation_eq in Hs as [Ef Ed].
    pose proof Hin as [Hn [Ho Hr]]. pose proof (oo_owner _ Ho). simpl negb. cbv iota zeta.
    destruct (op_phase o) as [u|ref]; [|by repeat case_match].
    case_bool_decide as Hread; [by repeat case_match|].
    case_bool_decide as Hbegin.
    + repeat case_match; try done. intros [= <- <-]. unfold fresh_op.
      apply write_ok_intro; try done. by apply (ao_owner _ Ha).
    + destruct (negb (bool_decide (op_owner o = a_owner a)) || _); [done|].
      rewrite Ef, Ed. case_bool_decide as Hren; intros [=]; subst.
      * by apply write_ok_intro.
      * apply write_ok_intro; try done. apply (ao_result _ Ha).
        destruct (cmd_cases _ Ha) as [?|[?|[?|?]]]; done.
  - case_bool_decide; [done|]. case_bool_decide as Hb; [|done]. intros [= <- <-].
    unfold fresh_op. apply write_ok_intro; try done. apply (ao_owner _ Ha). by rewrite Hb.
Qed.

Lemma remaining_pending o u now :
  op_ok o → op_phase o = PendingUntil u → remaining now (to_record o) = Z.max 0 (u - now).
Proof.
  intros Ho Hp. pose proof (oo_phase _ Ho) as Hu. unfold remaining; simpl. rewrite Hp in *.
  by rewrite parse_dec_dec by lia.
Qed.

Lemma retainedDeadline_op a now st :
  match st with Some o => op_ok o | None => True end →
  retainedDeadline a now (to_record <$> st) = dec (retain_at a now st).
Proof.
  intros Hst. unfold retainedDeadline, retain_at. destruct st as [o|]; [|done].
  pose proof (oo_retain _ Hst). simpl. by rewrite parse_dec_dec by lia.
Qed.

Definition got_of (st : option op) : get_reply :=
  match st with Some o => GetStr (encode_op o) | None => GetNil end.

Definition write_of (now : Z) (w : option op) : option (bytes * Z) :=
  (λ o, (encode_op o, op_retain o - now)) <$> w.

Lemma persist_then_op now o r parts :
  r = to_record o → write_ok now o →
  persist_then now r parts = (RArr parts, write_of now (Some o)).
Proof.
  intros -> [Ho Hr]. unfold persist_then. by rewrite persist_op by (done || lia).
Qed.

(** A command on the live state, with its write encoded. *)
Definition encoded_step (a : script_args) (now : Z) (st : option op) : reply * option (bytes * Z) :=
  ((spec_step a now st).1, write_of now (spec_step a now st).2).

Lemma fresh_refines a now st parts :
  args_ok a → in_time a now st → a_cmd a ≠ js "read" →
  persist_then now
    {| r_fingerprint := a_fp a; r_durableId := a_durable a; r_owner := a_owner a;
       r_state := js "pending"; r_leaseUntilMs := dec (now + a_lease a);
       r_retainUntilMs := retainedDeadline a now (to_record <$> st); r_resultRef := [] |} parts
  = (RArr parts, write_of now (Some (fresh_op a now st))).
Proof.
  intros Ha Hin Hcmd. apply persist_then_op.
  - unfold to_record, fresh_op; simpl. rewrite retainedDeadline_op; [done|].
    destruct Hin as [_ Hst]. destruct st; tauto.
  - apply write_ok_intro; try done. by apply (ao_owner _ Ha).
Qed.

Lemma dispatch_refines_None a now :
  args_ok a → in_time a now None → dispatch_command a now None = encoded_step a now None.
Proof.
  intros Ha Hin. unfold dispatch_command, encoded_step, spec_step, do_begin.
  case_bool_decide as Hr; [done|]. case_bool_decide as Hb; [|done].
  pose proof (fresh_refines a now None) as Hf. simpl in Hf. by rewrite Hf.
Qed.

Lemma dispatch_refines_Completed a now o ref :
  args_ok a → op_phase o = CompletedWith ref → same_operation a o = true →
  dispatch_command a now (Some (to_record o)) = encoded_step a now (Some o).
Proof.
  intros Ha Hp Hs. unfold dispatch_command, encoded_step, spec_step. rewrite Hs. simpl negb.
  cbv iota. rewrite Hp. unfold do_read, on_completed, to_record; simpl. rewrite Hp.
  rewrite !(bool_decide_eq_true_2 (js "completed" = js "completed")) by done.
  destruct (cmd_cases _ Ha) as [Hc|[Hc|[Hc|Hc]]]; rewrite Hc; js_eval;
    simpl; try done. by case_bool_decide.
Qed.

Lemma dispatch_refines_Pending a now o u :
  args_ok a → in_time a now (Some o) → op_phase o = PendingUntil u →
  same_operation a o = true →
  dispatch_command a now (Some (to_record o)) = encoded_step a now (Some o).
Proof.
  intros Ha Hin Hp Hs. pose proof Hin as [_ [Ho _]].
  pose proof (remaining_pending o u now Ho Hp) as Hrem.
  unfold dispatch_command, encoded_step, spec_step. rewrite Hs. simpl negb.
  cbv iota. rewrite Hp. cbv zeta.
  assert (Hst : r_state (to_record o) = js "pending") by (by unfold to_record; rewrite Hp).
  unfold do_read. rewrite Hst, Hrem.
  rewrite !(bool_decide_eq_false_2 (js "pending" = js "completed")) by done.
  case_bool_decide as Hread; [by case_match|].
  case_bool_decide as Hb.
  - unfold do_begin. rewrite Hrem. simpl r_owner.
    destruct (0 <? _); [by case_bool_decide|]. case_bool_decide; [done|].
    pose proof (fresh_refines a now (Some o)) as Hf. simpl fmap in Hf. by rewrite Hf.
  - unfold do_renew_complete. rewrite Hrem. simpl r_owner.
    destruct (negb (bool_decide (op_owner o = a_owner a)) || _); [done|].
    apply same_operation_eq in Hs as [Ef Ed].
    change (Some (to_record o)) with (to_record <$> Some o).
    rewrite (retainedDeadline_op a now (Some o)) by done.
    pose proof (oo_owner _ Ho).
    case_bool_decide as Hr; apply persist_then_op.
    + unfold to_record; simpl. by rewrite Hp.
    + rewrite Ef, Ed. by apply write_ok_intro.
    + done.
    + rewrite Ef, Ed. apply write_ok_intro; try done. apply (ao_result _ Ha).
      destruct (cmd_cases _ Ha) as [?|[?|[?|?]]]; done.
Qed.

Lemma script_refines keys argv time a st :
  parse_args keys argv = Ok a → in_time a (ms_of time) st →
  script keys argv (got_of st) time = encoded_step a (ms_of time) st.
Proof.
  intros Hargs Hin. pose proof (parse_args_ok _ _ _ Hargs) as Ha.
  assert (Hclock : clock a time = Ok (ms_of time)).
  { unfold clock. change (time.1 * 1000 + time.2 / 1000) with (ms_of time).
    destruct Hin as [Hn _]. rewrite integer_Z. unfold MAX_MS in *.
    by rewrite !(proj2 (Z.leb_le _ _)) by lia. }
  unfold script. rewrite Hargs. cbn [rbind]. destruct st as [o|]; simpl got_of.
  - pose proof Hin as [_ [Ho _]]. rewrite (load_op a o Ho).
    destruct (same_operation a o) eqn:Hs; cbn [rbind].
    + rewrite Hclock. cbn [rbind]. destruct (op_phase o) as [u|ref] eqn:Hp.
      * by eapply dispatch_refines_Pending.
      * by eapply dispatch_refines_Completed.
    + unfold encoded_step, spec_step. by rewrite Hs.
  - simpl. rewrite Hclock. cbn [rbind]. by apply dispatch_refines_None.
Qed.
End refinement.
