(* ===== verification/TxSafety.v ===== *)
(** * Safety of the coordination protocol over histories

    Histories of script runs on one Redis key, in the order Redis executes
    them, with a clock that does not go back: one owner at a time, a durable
    and unique result, and no spurious failure. Callers are arbitrary: any
    arguments, from any number of processes. *)

From S2P Require Import Prelude JsValue TxKeys TxScript TxProtocol.

(** A run of the script: its arguments and the server clock. *)
Abbreviation script_event := (list bytes * (Z * Z))%type.

Definition event_ms (e : script_event) : Z := ms_of e.2.

(** Clocks do not go back. *)
Fixpoint times_from (t : Z) (es : list script_event) : Prop :=
  match es with
  | [] => True
  | e :: es' => t <= event_ms e ∧ times_from (event_ms e) es'
  end.

(** The first word of a reply tells the replies apart. *)
Definition reply_word (r : reply) : bytes :=
  match r with RArr (w :: _) => w | _ => [] end.

Ltac absurd_word Hr :=
  exfalso; apply (f_equal reply_word) in Hr; unfold acquired in Hr; cbn [reply_word] in Hr;
  vm_compute in Hr; discriminate Hr.

Section histories.
Context `{CjsonLaws} (key : bytes).

Definition exec_event (c : redis_cell) (e : script_event) : redis_cell * reply :=
  exec_script c [key] e.1 e.2.

Fixpoint run_script (c : redis_cell) (es : list script_event) : redis_cell * list reply :=
  match es with
  | [] => (c, [])
  | e :: es' =>
      let '(c1, r) := exec_event c e in
      let '(c2, rs) := run_script c1 es' in (c2, r :: rs)
  end.

(** ** Abstract states of a key *)

Definition cell_of (st : option op) : redis_cell := (λ o, (encode_op o, op_retain o)) <$> st.

Definition live (now : Z) (st : option op) : option op :=
  match st with Some o => if now <? op_retain o then Some o else None | None => None end.

Definition state_ok (t : Z) (st : option op) : Prop :=
  match st with Some o => op_ok o ∧ op_retain o <= t + MAX_RETENTION | None => True end.

(** One run on an abstract state: it answers an error or a conflict and
    changes nothing, or it is a step of the machine. *)
Inductive run_on (now : Z) (argv : list bytes) (st : option op) : option op → reply → Prop :=
| run_error m : run_on now argv st st (RErr m)
| run_conflict : run_on now argv st st (RArr [js "conflict"])
| run_step a :
    parse_args [key] argv = Ok a → args_ok a → in_time a now (live now st) →
    run_on now argv st
      (match (spec_step a now (live now st)).2 with Some o => Some o | None => st end)
      (spec_step a now (live now st)).1.

Lemma visible_cell now st : visible now (cell_of st) = got_of (live now st).
Proof. destruct st as [o|]; [|done]. simpl. by case_match. Qed.

(** Out of the clock's range nothing is written. *)
Lemma script_bad_clock keys argv got time a e :
  parse_args keys argv = Ok a → clock a time = Throw e →
  ∃ r, script keys argv got time = (r, None) ∧ ((∃ m, r = RErr m) ∨ r = RArr [js "conflict"]).
Proof.
  intros Ha Hc. unfold script. rewrite Ha. cbn [rbind].
  destruct (load_record a got) as [r|r] eqn:Hl; cbn [rbind].
  - rewrite Hc. cbn [rbind]. exists e. split; [done|]. left.
    unfold clock in Hc. case_match; [|done]. injection Hc as <-. eauto.
  - exists r. split; [done|]. unfold load_record, fail in Hl. repeat case_match; simplify_eq; eauto.
Qed.

Lemma exec_abs t st e :
  state_ok t st → t <= event_ms e →
  ∃ st' r, exec_event (cell_of st) e = (cell_of st', r) ∧ state_ok (event_ms e) st' ∧
           run_on (event_ms e) e.1 st st' r.
Proof.
  intros Hst Ht. set (now := event_ms e) in *.
  assert (Hst' : state_ok now st) by (destruct st as [o|]; [destruct Hst; split; [done|lia]|done]).
  unfold exec_event, exec_script. change (ms_of e.2) with now. rewrite visible_cell.
  destruct (parse_args [key] e.1) as [a|r] eqn:Ha.
  2:{ exists st, r. unfold script. rewrite Ha. cbn [rbind]. split; [done|]. split; [done|].
      unfold parse_args, fail in Ha. repeat case_match; simplify_eq; constructor. }
  pose proof (parse_args_ok _ _ _ Ha) as Hok.
  destruct (clock a e.2) as [n|r] eqn:Hc.
  2:{ destruct (script_bad_clock _ _ (got_of (live now st)) _ _ _ Ha Hc) as (r' & -> & Hr).
      exists st, r'. split; [done|]. split; [done|]. destruct Hr as [[m ->]| ->]; constructor. }
  assert (Hin : in_time a now (live now st)).
  { unfold clock in Hc. change (e.2.1 * 1000 + e.2.2 / 1000) with now in Hc.
    rewrite integer_Z in Hc. case_match eqn:E; [done|]. bools. unfold in_time, MAX_MS.
    split; [lia|]. destruct st as [o|]; simpl; [|done].
    destruct (now <? op_retain o) eqn:El; bools; [|done]. destruct Hst' as [Ho Hr]. split; [done|]. lia. }
  rewrite (script_refines _ _ _ a); [|done|done]. unfold encoded_step.
  change (ms_of e.2) with now.
  destruct (spec_step a now (live now st)) as [r w] eqn:Hs. simpl.
  exists (match w with Some o => Some o | None => st end), r. split; [|split].
  - destruct w as [o|]; simpl; [|done]. do 3 f_equal. lia.
  - destruct w as [o|]; [|done].
    destruct (spec_write_ok _ _ _ _ _ Hok Hin Hs) as [? ?]. split; [done|]. simpl. lia.
  - pose proof (run_step now e.1 st a Ha Hok Hin) as Hrun. by rewrite Hs in Hrun.
Qed.

(** After a prefix of a history the key holds an abstract state, which has
    every property the runs of the prefix preserve. *)
Lemma run_abs_inv (P : script_event → Prop) (I : Z → option op → Prop) :
  (∀ t e st st' r, P e → state_ok t st → t <= event_ms e → I t st →
     run_on (event_ms e) e.1 st st' r → I (event_ms e) st') →
  ∀ es k t st, state_ok t st → I t st → Forall P es → times_from t (es ++ k) →
  ∃ st' t', (run_script (cell_of st) es).1 = cell_of st' ∧ state_ok t' st' ∧ I t' st' ∧
            times_from t' k.
Proof.
  intros Hstep es. induction es as [|e es IH]; intros k t st Hst HI HP Ht; [by exists st, t|].
  destruct Ht as [Hte Hes]. apply Forall_cons in HP as [HPe HP].
  destruct (exec_abs t st e Hst Hte) as (st1 & r & He & Hst1 & Hrun).
  destruct (IH k _ _ Hst1 (Hstep _ _ _ _ _ HPe Hst Hte HI Hrun) HP Hes)
    as (st' & t' & Hr & Hst' & Hk).
  exists st', t'. simpl. rewrite He. by destruct (run_script (cell_of st1) es).
Qed.

Lemma run_abs es k t st :
  state_ok t st → times_from t (es ++ k) →
  ∃ st' t', (run_script (cell_of st) es).1 = cell_of st' ∧ state_ok t' st' ∧ times_from t' k.
Proof.
  intros Hst Ht.
  destruct (run_abs_inv (λ _, True) (λ _ _, True)) with es k t st as (st' & t' & H1 & H2 & _ & H3);
    [done|done|done|by apply Forall_true|done|].
  by exists st', t'.
Qed.

Lemma run_from_empty es k t :
  times_from t (es ++ k) →
  ∃ st t', (run_script None es).1 = cell_of st ∧ state_ok t' st ∧ times_from t' k.
Proof. intros Ht. by apply (run_abs es k t None). Qed.

(** A state that every event of a history leaves alone. *)
Lemma run_frozen (P : script_event → Prop) (Q : reply → Prop) st :
  (∀ t e st' r, state_ok t st → P e → run_on (event_ms e) e.1 st st' r → st' = st ∧ Q r) →
  ∀ es t, state_ok t st → times_from t es → Forall P es →
  (run_script (cell_of st) es).1 = cell_of st ∧ Forall Q (run_script (cell_of st) es).2.
Proof.
  intros Hstep es. induction es as [|e es IH]; intros t Hst Ht HP; [done|].
  destruct Ht as [Hte Hes]. apply Forall_cons in HP as [HPe HP].
  destruct (exec_abs t st e Hst Hte) as (st1 & r & He & Hst1 & Hrun).
  destruct (Hstep t e st1 r Hst HPe Hrun) as [-> HQ].
  destruct (IH (event_ms e) Hst1 Hes HP) as [H1 H2].
  simpl. rewrite He. destruct (run_script (cell_of st) es). simpl in *. split; [done|by constructor].
Qed.

(** ** Completed results *)

Definition completed_reply (ref : bytes) : reply := RArr [js "completed"; ref].

Lemma live_before now o : now < op_retain o → live now (Some o) = Some o.
Proof. intros Hn. simpl. by rewrite (proj2 (Z.ltb_lt _ _)). Qed.

Lemma live_Some now st o : live now st = Some o → st = Some o ∧ now < op_retain o.
Proof.
  destruct st as [o'|]; simpl; [|done]. destruct (now <? op_retain o') eqn:E; bools; [|done].
  by intros [= <-].
Qed.

Lemma spec_completed a now o ref :
  op_phase o = CompletedWith ref →
  (spec_step a now (Some o)).2 = None ∧
  ∀ ref', (spec_step a now (Some o)).1 = completed_reply ref' → ref' = ref.
Proof.
  intros Hp. unfold spec_step, completed_reply. rewrite Hp.
  repeat case_match; simpl; (split; [done|]); intros ref' Heq; try discriminate Heq.
  by injection Heq.
Qed.


(** Which runs answer [completed]: the record is completed afterwards. *)
Lemma run_completed now argv st st' ref :
  run_on now argv st st' (completed_reply ref) →
  ∃ a o, parse_args [key] argv = Ok a ∧ st' = Some o ∧ op_phase o = CompletedWith ref ∧
         now < op_retain o ∧ (st' ≠ st → now + a_retention a <= op_retain o).
Proof.
  unfold completed_reply. inversion 1 as [| |a Ha Hok Hin Hst Hr]; subst. exists a.
  destruct st as [o|].
  - simpl in *. destruct (now <? op_retain o) eqn:El; bools.
    + destruct (spec_step a now (Some o)) as [rep w] eqn:Hs. simpl in *.
      revert Hs Hr. unfold spec_step. destruct (same_operation a o) eqn:Hso; simpl negb;
        cbv iota; [|by intros [=]; subst].
      destruct (op_phase o) as [u|ref'] eqn:Hp; cbv zeta.
      * repeat case_match; intros Hs; inversion Hs; subst; clear Hs; try discriminate.
        intros [= <-]. eexists. split; [done|]. split; [done|]. split; [done|].
        unfold retain_at; simpl. pose proof (ao_retention _ Hok). pose proof (ao_lease _ Hok).
        lia.
      * repeat case_match; intros Hs; inversion Hs; subst; clear Hs; try discriminate.
        intros [= <-]. by exists o.
    + revert Hr. simpl. by repeat case_match.
  - revert Hr. simpl. by repeat case_match.
Qed.

Lemma completed_frozen o ref t es :
  state_ok t (Some o) → op_phase o = CompletedWith ref → times_from t es →
  Forall (λ e, event_ms e < op_retain o) es →
  (run_script (cell_of (Some o)) es).1 = cell_of (Some o) ∧
  Forall (λ r, ∀ ref', r = completed_reply ref' → ref' = ref)
         (run_script (cell_of (Some o)) es).2.
Proof.
  intros Hst Hp Ht HF.
  eapply run_frozen; [|exact Hst|exact Ht|exact HF].
  intros t' e st' r _ Hlt Hrun. inversion Hrun as [| |a Ha Hok Hin]; subst.
  - by split.
  - by split.
  - rewrite live_before by done.
    destruct (spec_completed a (event_ms e) o ref Hp) as [-> Hq]. split; [done|].
    intros ref' Hr. by apply Hq.
Qed.

(** C5: a result is durable and unique. In any history of the key, once the
    script has answered [completed R] the record is stored until a deadline,
    at least the caller's retention away when this call wrote it; and whatever
    runs before that deadline, from any caller with any arguments, leaves the
    record untouched, so that every later [completed] reply carries the same R. *)
Theorem result_durable t0 h1 e h2 c0 c1 R :
  times_from t0 (h1 ++ e :: h2) → (run_script None h1).1 = c0 →
  exec_event c0 e = (c1, completed_reply R) →
  ∃ a raw deadline,
    parse_args [key] e.1 = Ok a ∧ c1 = Some (raw, deadline) ∧ event_ms e < deadline ∧
    (c1 ≠ c0 → event_ms e + a_retention a <= deadline) ∧
    (Forall (λ e', event_ms e' < deadline) h2 →
     (run_script c1 h2).1 = c1 ∧
     Forall (λ r, ∀ R', r = completed_reply R' → R' = R) (run_script c1 h2).2).
Proof.
  intros Ht Hc0 He. destruct (run_from_empty h1 (e :: h2) t0 Ht) as (st & t1 & E & Hst & Hte & Hk).
  rewrite E in Hc0. subst c0.
  destruct (exec_abs t1 st e Hst Hte) as (st1 & r & He' & Hst1 & Hrun).
  rewrite He in He'. injection He' as -> <-.
  destruct (run_completed _ _ _ _ _ Hrun) as (a & o & Ha & -> & Hp & Hlt & Hw).
  exists a, (encode_op o), (op_retain o). split; [done|]. split; [done|]. split; [done|].
  split; [intros Hne; apply Hw; intros Heq; by rewrite Heq in Hne|].
  by apply (completed_frozen o R (event_ms e)).
Qed.

(** ** Exclusive leases *)

(** The replies that make their caller the owner for [d] milliseconds. *)
Definition lease_reply (owner : bytes) (d : Z) (r : reply) : Prop :=
  0 <= d ∧ (r = RArr [js "acquired"; owner; dec d; js "reconcile"] ∨ r = RArr [js "renewed"; dec d]).

(** The replies that let a caller act on the operation. *)
Definition grants (r : reply) : Prop :=
  ∃ word rest, r = RArr (word :: rest) ∧
    word ∈ [js "acquired"; js "renewed"; js "completed"].

(** The operation after a step of the machine. *)
Definition after_step (a : script_args) (now : Z) (st : option op) : option op :=
  match (spec_step a now st).2 with Some o => Some o | None => st end.

Lemma spec_leases a now st d :
  args_ok a → match st with Some o => op_ok o | None => True end →
  lease_reply (a_owner a) d (spec_step a now st).1 →
  ∃ o, after_step a now st = Some o ∧ op_owner o = a_owner a ∧
       op_phase o = PendingUntil (now + d) ∧ now + d <= op_retain o.
Proof.
  intros Hok Hst [Hd Hr]. unfold after_step.
  assert (Hret : ∀ st, now + a_lease a <= retain_at a now st).
  { intros st0. unfold retain_at. pose proof (ao_retention _ Hok). lia. }
  pose proof (ao_lease _ Hok) as Hl.
  destruct (spec_step a now st) as [r w] eqn:Hs. simpl in *. revert Hs. unfold spec_step.
  destruct st as [o|].
  - pose proof (oo_phase _ Hst) as Hph. destruct (op_phase o) as [u|ref] eqn:Hp; cbv zeta.
    + repeat case_match; bools; intros Hs; inversion Hs; subst; clear Hs; destruct Hr as [Hr|Hr];
        try absurd_word Hr; injection Hr as Hr; apply dec_inj in Hr; subst; try lia.
      * exists o. split; [done|]. split; [done|]. rewrite Hp. split; [f_equal; lia|lia].
      * eexists. split; [done|]. simpl. split; [done|]. split; [done|]. apply Hret.
      * eexists. split; [done|]. simpl. split; [done|]. split; [done|]. apply Hret.
    + repeat case_match; intros Hs; inversion Hs; subst; clear Hs; destruct Hr as [Hr|Hr]; absurd_word Hr.
  - repeat case_match; intros Hs; inversion Hs; subst; clear Hs; destruct Hr as [Hr|Hr];
      try absurd_word Hr.
    injection Hr as Hr. apply dec_inj in Hr; [|lia|lia]. subst. eexists. split; [done|]. simpl.
    split; [done|]. split; [done|]. apply Hret.
Qed.

Lemma run_leases now argv st st' a d r :
  run_on now argv st st' r → parse_args [key] argv = Ok a → lease_reply (a_owner a) d r →
  ∃ o, st' = Some o ∧ op_owner o = a_owner a ∧ op_phase o = PendingUntil (now + d) ∧
       now + d <= op_retain o.
Proof.
  intros Hrun Ha Hr. inversion Hrun as [| |a' Ha' Hok Hin]; subst.
  - by destruct Hr as [_ [Hr|Hr]].
  - by destruct Hr as [_ [Hr|Hr]].
  - rewrite Ha in Ha'. injection Ha' as <-.
    destruct (spec_leases a now (live now st) d) as (o & Hafter & Hrest); [done| |done|].
    { destruct Hin as [_ Hin]. destruct (live now st); [by destruct Hin|done]. }
    exists o. split; [|done]. unfold after_step in Hafter.
    destruct (spec_step a now (live now st)).2; [done|]. by apply live_Some in Hafter as [-> _].
Qed.

(** A caller other than the owner gets nothing from a live lease. *)
Lemma spec_foreign a now o u :
  op_phase o = PendingUntil u → now < u → (a_cmd a = js "read" ∨ a_owner a ≠ op_owner o) →
  (spec_step a now (Some o)).2 = None ∧ ¬ grants (spec_step a now (Some o)).1.
Proof.
  intros Hp Hlt Hwho. unfold spec_step, grants. rewrite Hp. cbv zeta.
  assert (Hneg : ∀ word rest, (∀ w, w ∈ [js "acquired"; js "renewed"; js "completed"] → w ≠ word) →
    ¬ ∃ w r, RArr (word :: rest) = RArr (w :: r) ∧
             w ∈ [js "acquired"; js "renewed"; js "completed"]).
  { intros word rest Hne (w & r & [= <- <-] & Hin). by apply (Hne word Hin). }
  assert (Hw : ∀ word : string, word ∈ ["conflict"; "in_progress"; "lost"; "recovery_required"]%string →
    ∀ w, w ∈ [js "acquired"; js "renewed"; js "completed"] → w ≠ js word).
  { intros word Hword w Hin. repeat (apply elem_of_cons in Hword as [->|Hword];
      [repeat (apply elem_of_cons in Hin as [->|Hin]; [by vm_compute|]);
       by apply not_elem_of_nil in Hin|]). by apply not_elem_of_nil in Hword. }
  repeat case_match; bools; simpl; try lia;
    try (split; [done|]; apply Hneg, Hw; set_solver);
    exfalso; destruct Hwho as [Hc|Hc]; congruence.
Qed.

Lemma foreign_frozen o u t es :
  state_ok t (Some o) → op_phase o = PendingUntil u → u <= op_retain o → times_from t es →
  Forall (λ e, event_ms e < u ∧
     ∀ a, parse_args [key] e.1 = Ok a → a_cmd a = js "read" ∨ a_owner a ≠ op_owner o) es →
  (run_script (cell_of (Some o)) es).1 = cell_of (Some o) ∧
  Forall (λ r, ¬ grants r) (run_script (cell_of (Some o)) es).2.
Proof.
  intros Hst Hp Hu Ht HF. eapply run_frozen; [|exact Hst|exact Ht|exact HF].
  intros t' e st' r _ [Hlt Hwho] Hrun. inversion Hrun as [| |a Ha Hok Hin]; subst.
  - split; [done|]. by intros (w & rs & ? & _).
  - split; [done|]. intros (w & rs & [= <- <-] & Hw). vm_compute in Hw.
    repeat (apply elem_of_cons in Hw as [Hw|Hw]; [discriminate Hw|]). by apply not_elem_of_nil in Hw.
  - rewrite live_before by lia.
    by destruct (spec_foreign a (event_ms e) o u Hp Hlt (Hwho a Ha)) as [-> ?].
Qed.

(** C8: leases are exclusive. In any history of the key, once the script has
    told a caller that it acquired or renewed the operation for [d]
    milliseconds, no other owner token can acquire, renew or complete it
    before those [d] milliseconds have passed on the server's clock, and no
    such attempt changes the record. *)
Theorem lease_exclusive t0 h1 e h2 c0 c1 a d r :
  times_from t0 (h1 ++ e :: h2) → (run_script None h1).1 = c0 →
  parse_args [key] e.1 = Ok a → exec_event c0 e = (c1, r) → lease_reply (a_owner a) d r →
  Forall (λ e', event_ms e' < event_ms e + d ∧
     ∀ a', parse_args [key] e'.1 = Ok a' → a_cmd a' = js "read" ∨ a_owner a' ≠ a_owner a) h2 →
  (run_script c1 h2).1 = c1 ∧ Forall (λ r', ¬ grants r') (run_script c1 h2).2.
Proof.
  intros Ht Hc0 Ha He Hr HF.
  destruct (run_from_empty h1 (e :: h2) t0 Ht) as (st & t1 & E & Hst & Hte & Hk).
  rewrite E in Hc0. subst c0.
  destruct (exec_abs t1 st e Hst Hte) as (st1 & r' & He' & Hst1 & Hrun).
  rewrite He in He'. injection He' as -> <-.
  destruct (run_leases _ _ _ _ _ _ _ Hrun Ha Hr) as (o & -> & Hown & Hp & Hu).
  eapply foreign_frozen; try done. by rewrite Hown.
Qed.

(** ** Availability *)

(** On a reachable record the script runs the machine: no run is rejected for
    a corrupt record or a bad time to live. *)
Lemma exec_total t st e a :
  state_ok t st → t <= event_ms e → parse_args [key] e.1 = Ok a →
  0 <= event_ms e <= MAX_MS - a_retention a →
  let step := spec_step a (event_ms e) (live (event_ms e) st) in
  exec_event (cell_of st) e =
    (cell_of (match step.2 with Some o => Some o | None => st end), step.1) ∧
  ∀ w, step.2 = Some w → write_ok (event_ms e) w.
Proof.
  intros Hst Ht Ha Hclk. unfold exec_event, exec_script.
  change (ms_of e.2) with (event_ms e). rewrite visible_cell.
  assert (Hin : in_time a (event_ms e) (live (event_ms e) st)).
  { split; [done|]. destruct (live _ st) as [o|] eqn:El; [|done].
    apply live_Some in El as [-> El]. destruct Hst as [Ho Hr]. split; [done|]. lia. }
  rewrite (script_refines _ _ _ a) by done. unfold encoded_step.
  change (ms_of e.2) with (event_ms e).
  destruct (spec_step a (event_ms e) _) as [r w] eqn:Hs. simpl. split; [destruct w; simpl; [do 3 f_equal; lia|done]|].
  intros w' ->. exact (spec_write_ok _ _ _ _ _ (parse_args_ok _ _ _ Ha) Hin Hs).
Qed.

(** Leases never reach further than the longest one granted. *)
Definition lease_cap (L : Z) (t : Z) (st : option op) : Prop :=
  match st with
  | Some o => match op_phase o with PendingUntil u => u <= t + L | CompletedWith _ => True end
  | None => True
  end.

Lemma spec_write_until a now st w :
  (spec_step a now st).2 = Some w →
  op_phase w = PendingUntil (now + a_lease a) ∨ ∃ ref, op_phase w = CompletedWith ref.
Proof.
  unfold spec_step. repeat case_match; simpl; try done; intros [= <-]; simpl; eauto.
Qed.

Lemma run_lease_cap L t e st st' r :
  (∀ a, parse_args [key] e.1 = Ok a → a_lease a <= L) → state_ok t st → t <= event_ms e →
  lease_cap L t st → run_on (event_ms e) e.1 st st' r → lease_cap L (event_ms e) st'.
Proof.
  intros HL _ Ht Hcap Hrun.
  assert (Hcap' : lease_cap L (event_ms e) st)
    by (unfold lease_cap in *; repeat case_match; try done; lia).
  inversion Hrun as [| |a Ha Hok Hin]; subst; [done|done|].
  destruct (spec_step a (event_ms e) (live (event_ms e) st)).2 as [w|] eqn:Hw; [|done].
  unfold lease_cap. apply spec_write_until in Hw as [->|[ref ->]]; [|done].
  specialize (HL a Ha). lia.
Qed.

(** A begin by [a] at [now] on the live operation [o]: what a read answers there,
    what the begin answers, and the operation it leaves. *)
Inductive begin_case (a : script_args) (now : Z) : option op → reply → reply → op → Prop :=
| begin_missing :
    begin_case a now None (RArr [js "missing"]) (acquired a (a_lease a)) (fresh_op a now None)
| begin_mismatch o :
    same_operation a o = false →
    begin_case a now (Some o) (RArr [js "conflict"]) (RArr [js "conflict"]) o
| begin_completed o ref :
    same_operation a o = true → op_phase o = CompletedWith ref →
    begin_case a now (Some o) (completed_reply ref) (completed_reply ref) o
| begin_held o u :
    same_operation a o = true → op_phase o = PendingUntil u → now < u → op_owner o ≠ a_owner a →
    begin_case a now (Some o) (RArr [js "in_progress"; dec (u - now)]) (RArr [js "in_progress"; dec (u - now)]) o
| begin_resumed o u :
    same_operation a o = true → op_phase o = PendingUntil u → now < u → op_owner o = a_owner a →
    begin_case a now (Some o) (RArr [js "in_progress"; dec (u - now)]) (acquired a (u - now)) o
| begin_takeover o u :
    same_operation a o = true → op_phase o = PendingUntil u → u <= now → op_owner o ≠ a_owner a →
    begin_case a now (Some o) (RArr [js "recovery_required"]) (acquired a (a_lease a)) (fresh_op a now (Some o))
| begin_stale_owner o u :
    same_operation a o = true → op_phase o = PendingUntil u → u <= now → op_owner o = a_owner a →
    begin_case a now (Some o) (RArr [js "recovery_required"]) (RErr (js "TX_FRESH_OWNER_REQUIRED")) o.

(** The read of the same operation as a begin. *)
Definition reads_for (ar ab : script_args) : Prop :=
  a_cmd ar = js "read" ∧ a_fp ar = a_fp ab ∧ a_durable ar = a_durable ab.

Lemma spec_read ar ab now st :
  reads_for ar ab →
  spec_step ar now st =
    (match st with
     | None => RArr [js "missing"]
     | Some o =>
         if negb (same_operation ab o) then RArr [js "conflict"]
         else match op_phase o with
         | CompletedWith ref => completed_reply ref
         | PendingUntil u => if now <? u then RArr [js "in_progress"; dec (u - now)] else RArr [js "recovery_required"]
         end
     end, None).
Proof.
  intros (Hr & Hf & Hd). unfold spec_step. rewrite Hr. js_eval. destruct st as [o|]; [|done].
  replace (same_operation ar o) with (same_operation ab o) by (unfold same_operation; by rewrite Hf, Hd).
  destruct (same_operation ab o); [|done]. simpl negb. cbv iota. destruct (op_phase o) as [u|ref]; [|done].
  cbv zeta. f_equal. destruct (Z.ltb_spec now u).
  - by rewrite (proj2 (Z.eqb_neq _ 0)), Z.max_r by lia.
  - by rewrite Z.max_l by lia.
Qed.

Lemma spec_begin ar ab now st :
  reads_for ar ab → a_cmd ab = js "begin" →
  ∃ o, begin_case ab now st (spec_step ar now st).1 (spec_step ab now st).1 o ∧
    match (spec_step ab now st).2 with Some o' => o' = o | None => st = Some o end.
Proof.
  intros Hread Hb. rewrite (spec_read ar ab) by done. unfold spec_step. rewrite Hb. js_eval.
  destruct st as [o|]; [|eexists; split; [constructor|done]].
  destruct (same_operation ab o) eqn:Hs; simpl negb; cbv iota; [|exists o; by split; [constructor|]].
  destruct (op_phase o) as [u|ref] eqn:Hp; [|exists o; simpl; by split; [eapply begin_completed|]].
  cbv zeta. destruct (Z.ltb_spec now u).
  - rewrite (proj2 (Z.ltb_lt 0 _)), Z.max_r by lia. exists o. case_bool_decide; simpl; by split; [constructor|].
  - rewrite (proj2 (Z.ltb_ge 0 _)) by lia. case_bool_decide; simpl; eexists; (split; [by econstructor|done]).
Qed.

(** Whoever begins and acquires is seen as in progress. *)
Lemma acquired_seen ar ab now st seen o m :
  reads_for ar ab → args_ok ab → begin_case ab now st seen (acquired ab m) o →
  (spec_step ar now (Some o)).1 = RArr [js "in_progress"; dec m].
Proof.
  intros Hread Ha Hc. pose proof (ao_lease _ Ha). rewrite (spec_read ar ab) by done. revert Hc. unfold acquired, completed_reply.
  set (r := RArr [js "acquired"; a_owner ab; dec m; js "reconcile"]). intros Hc. remember r as r' eqn:Er. unfold r in Er.
  assert (Hfresh : ∀ st0, same_operation ab (fresh_op ab now st0) = true)
    by (intros; unfold same_operation, fresh_op; simpl; by rewrite !bool_decide_eq_true_2).
  destruct Hc; try absurd_word Er; try discriminate Er; unfold acquired in Er; injection Er as Er; rewrite <- Er.
  - rewrite Hfresh. simpl. rewrite (proj2 (Z.ltb_lt _ _)) by lia. do 4 f_equal. lia.
  - match goal with H : same_operation _ _ = true, P : op_phase _ = _ |- _ => rewrite H, P end. simpl.
    by rewrite (proj2 (Z.ltb_lt _ _)) by lia.
  - rewrite Hfresh. simpl. rewrite (proj2 (Z.ltb_lt _ _)) by lia. do 4 f_equal. lia.
Qed.

(** C23: the coordinator stays available: on every record a history can leave,
    at every server time within the range of the retention, a status read answers
    the record's state and writes nothing, and a begin of the same operation at
    the same instant takes the one case of [begin_case] that fits: a missing
    operation, or an expired one of another owner, is acquired for the full lease
    and stored under the caller with its retention; the live owner gets back what
    is left of its lease and anyone else is told so; a completed operation answers
    its result; and a fresh owner is asked for only when the expired owner itself
    comes back. What is acquired is stored: whoever reads it then is told that
    it is in progress for the time the begin was granted. *)
Theorem begin_available t0 h1 er eb ar ab :
  times_from t0 (h1 ++ [er]) →
  parse_args [key] er.1 = Ok ar → parse_args [key] eb.1 = Ok ab →
  reads_for ar ab → a_cmd ab = js "begin" → event_ms er = event_ms eb →
  0 <= event_ms er <= MAX_MS - MAX_RETENTION →
  let now := event_ms eb in
  let c := (run_script None h1).1 in
  let read := exec_event c er in
  let begun := exec_event c eb in
  ∃ st o, c = cell_of st ∧ begin_case ab now (live now st) read.2 begun.2 o ∧
    read.1 = c ∧ begun.1 = cell_of (Some o) ∧
    (∀ m, begun.2 = acquired ab m → (exec_event begun.1 er).2 = RArr [js "in_progress"; dec m]).
Proof.
  intros Ht Har Hab Hread Hb Hms Hclk. destruct (run_from_empty h1 [er] t0 Ht) as (st & t1 & E & Hst & Hte & _).
  cbv zeta. rewrite E. pose proof (parse_args_ok _ _ _ Hab) as Hok.
  pose proof (ao_retention _ (parse_args_ok _ _ _ Har)). pose proof (ao_retention _ Hok).
  destruct (exec_total t1 st er ar) as [-> _]; [done|lia|done|lia|].
  destruct (exec_total t1 st eb ab) as [-> Hwrite]; [done|lia|done|lia|].
  rewrite Hms, (spec_read ar ab) by done. cbn [fst snd].
  destruct (spec_begin ar ab (event_ms eb) (live (event_ms eb) st) Hread Hb) as (o & Hcase & Hleft).
  assert (Ho : match (spec_step ab (event_ms eb) (live (event_ms eb) st)).2 with Some o => Some o | None => st end = Some o ∧
               state_ok (event_ms eb) (Some o) ∧ event_ms eb < op_retain o).
  { destruct (spec_step ab _ _).2 as [w|].
    - rewrite <-Hleft. destruct (Hwrite w eq_refl) as [? ?]. split; [done|]. simpl. split; [split; [done|lia]|lia].
    - apply live_Some in Hleft as [-> ?]. destruct Hst. split; [done|]. simpl. split; [split; [done|lia]|done]. }
  destruct Ho as (-> & Hok' & Hlive). rewrite (spec_read ar ab) in Hcase by done. cbn [fst] in Hcase.
  exists st, o. split_and!; [done|exact Hcase|done|done|]. intros m Hm. rewrite Hm in Hcase.
  destruct (exec_total (event_ms eb) (Some o) er ar) as [-> _]; [done|lia|done|lia|]. cbn [snd].
  rewrite Hms, live_before by done. by eapply (acquired_seen ar ab).
Qed.
End histories.

(** ** Witnesses: a length-prefixed codec in place of cjson *)

Definition put (s : bytes) : bytes := Z.of_nat (length s) :: s.

Definition get_string (b : bytes) : option (bytes * bytes) :=
  match b with
  | n :: b' => Some (take (Z.to_nat n) b', drop (Z.to_nat n) b')
  | [] => None
  end.

Definition demo_encode (v : luaval) : bytes :=
  mjoin (put <$> [lua_string (lua_field "fingerprint" v); lua_string (lua_field "durableId" v);
                  lua_string (lua_field "owner" v); lua_string (lua_field "state" v);
                  lua_string (lua_field "leaseUntilMs" v);
                  lua_string (lua_field "retainUntilMs" v); lua_string (lua_field "resultRef" v)]).

Definition demo_decode (b : bytes) : option luaval :=
  '(fp, b) ← get_string b; '(du, b) ← get_string b; '(ow, b) ← get_string b;
  '(st, b) ← get_string b; '(le, b) ← get_string b; '(re, b) ← get_string b;
  '(rs, b) ← get_string b;
  Some (record_table {| r_fingerprint := fp; r_durableId := du; r_owner := ow; r_state := st;
                        r_leaseUntilMs := le; r_retainUntilMs := re; r_resultRef := rs |}).

#[export] Instance demo_cjson : Cjson :=
  {| cjson_encode := demo_encode; cjson_decode := demo_decode; tonumber_other := λ _, None |}.

Lemma get_put s r : get_string (put s ++ r) = Some (s, r).
Proof.
  unfold put, get_string. simpl. rewrite Nat2Z.id, take_app_length, drop_app_length. done.
Qed.

Lemma demo_encode_puts r :
  demo_encode (record_table r) =
  put (r_fingerprint r) ++ put (r_durableId r) ++ put (r_owner r) ++ put (r_state r) ++
  put (r_leaseUntilMs r) ++ put (r_retainUntilMs r) ++ put (r_resultRef r) ++ [].
Proof. done. Qed.

#[export] Instance demo_cjson_laws : CjsonLaws.
Proof.
  split; intros r _; cbn [cjson_encode cjson_decode demo_cjson]; rewrite demo_encode_puts.
  - unfold demo_decode. repeat (rewrite get_put; cbn [mbind option_bind]). by destruct r.
  - rewrite !length_app. unfold put, strings_length; simpl. lia.
Qed.

(** Two owners, a lease of 1 s and a retention of 5 s. *)
Definition demo_argv (cmd : string) (owner : Z) (res : string) : list bytes :=
  [js cmd; replicate 64 97; js "pay:1"; replicate 64 owner; js "1000"; js "5000"; js res].

Definition demo_at (ms : Z) (argv : list bytes) : script_event := (argv, (ms / 1000, ms mod 1000 * 1000)).

Definition demo_complete : list script_event :=
  [demo_at 10000 (demo_argv "begin" 98 ""); demo_at 10400 (demo_argv "complete" 98 "ref-1");
   demo_at 11000 (demo_argv "begin" 99 ""); demo_at 12000 (demo_argv "complete" 98 "ref-2")].

Example demo_replies :
  (run_script (js "k") None demo_complete).2 =
  [RArr [js "acquired"; replicate 64 98; js "1000"; js "reconcile"];
   completed_reply (js "ref-1"); completed_reply (js "ref-1"); RArr [js "conflict"]].
Proof. vm_compute. reflexivity. Qed.

Definition demo_c0 : redis_cell := (run_script (js "k") None (take 1 demo_complete)).1.
Definition demo_e : script_event := demo_at 10400 (demo_argv "complete" 98 "ref-1").
Definition demo_c1 : redis_cell := (exec_event (js "k") demo_c0 demo_e).1.

Lemma result_durable_witness :
  ∃ a raw deadline,
    parse_args [js "k"] demo_e.1 = Ok a ∧ demo_c1 = Some (raw, deadline) ∧
    event_ms demo_e < deadline ∧ (demo_c1 ≠ demo_c0 → event_ms demo_e + a_retention a <= deadline) ∧
    (Forall (λ e', event_ms e' < deadline) (drop 2 demo_complete) →
     (run_script (js "k") demo_c1 (drop 2 demo_complete)).1 = demo_c1 ∧
     Forall (λ r, ∀ R', r = completed_reply R' → R' = js "ref-1")
       (run_script (js "k") demo_c1 (drop 2 demo_complete)).2).
Proof.
  apply (result_durable (js "k") 0 (take 1 demo_complete) demo_e (drop 2 demo_complete)
           demo_c0 demo_c1 (js "ref-1")).
  - vm_compute. repeat split; discriminate.
  - reflexivity.
  - vm_compute. reflexivity.
Defined.

Definition demo_grab : script_event := demo_at 10000 (demo_argv "begin" 98 "").
Definition demo_args (argv : list bytes) : script_args :=
  match parse_args [js "k"] argv with
  | Ok a => a
  | Throw _ => Build_script_args [] [] [] [] 0 0 []
  end.

Lemma lease_exclusive_witness :
  let c1 := (exec_event (js "k") None demo_grab).1 in
  let h2 := [demo_at 10500 (demo_argv "begin" 99 ""); demo_at 10999 (demo_argv "complete" 99 "x")] in
  (run_script (js "k") c1 h2).1 = c1 ∧ Forall (λ r', ¬ grants r') (run_script (js "k") c1 h2).2.
Proof.
  intros c1 h2.
  apply (lease_exclusive (js "k") 0 [] demo_grab h2 None c1 (demo_args demo_grab.1) 1000
           (exec_event (js "k") None demo_grab).2).
  - vm_compute. repeat split; discriminate.
  - reflexivity.
  - vm_compute. reflexivity.
  - unfold c1. destruct (exec_event (js "k") None demo_grab). reflexivity.
  - split; [lia|]. left. vm_compute. reflexivity.
  - unfold h2. apply Forall_cons; split; [|apply Forall_cons; split; [|constructor]];
      (split; [vm_compute; reflexivity|]); intros a' Ha'; right; vm_compute in Ha';
      injection Ha' as <-; vm_compute; discriminate.
Defined.

Lemma begin_available_witness :
  let er := demo_at 11500 (demo_argv "read" 99 "") in
  let eb := demo_at 11500 (demo_argv "begin" 99 "") in
  let c := (run_script (js "k") None [demo_grab]).1 in
  let begun := exec_event (js "k") c eb in
  (exec_event (js "k") c er).2 = RArr [js "recovery_required"] ∧ begun.2 = acquired (demo_args eb.1) 1000 ∧
  (exec_event (js "k") begun.1 er).2 = RArr [js "in_progress"; dec 1000].
Proof.
  intros er eb c begun. split; [vm_compute; reflexivity|]. split; [vm_compute; reflexivity|].
  destruct (begin_available (js "k") 0 [demo_grab] er eb (demo_args er.1) (demo_args eb.1)) as (st & o & _ & _ & _ & _ & H).
  - vm_compute. repeat split; discriminate.
  - vm_compute. reflexivity.
  - vm_compute. reflexivity.
  - vm_compute. repeat split; reflexivity.
  - vm_compute. reflexivity.
  - vm_compute. reflexivity.
  - vm_compute. split; discriminate.
  - apply (H 1000). vm_compute. reflexivity.
Defined.
