(* ===== verification/TxStore.v ===== *)
(** * The operation store ([src/src/transactions/operationStore.ts], lines 39 to
    373, with the error tests of [scripts.ts])

    The client side of the protocol: construction, the four commands, the
    decoding of Redis replies and the classification of failures. The bounded
    gate is represented by what it can do with one call (see [TxGate.v]): refuse
    it before the callback runs, or run the callback and race it with the
    operation timer. *)

From S2P Require Import Prelude JsValue Utf8 TxKeys TxScript TxProtocol TxSafety.

Definition DEFAULT_OPERATION_LEASE_MS : Z := 30000.
Definition DEFAULT_OPERATION_RETENTION_MS : Z := 7 * 24 * 60 * 60 * 1000.
Definition MAX_OPERATION_LEASE_MS : Z := 3600000.
Definition MAX_OPERATION_RETENTION_MS : Z := 2592000000.
Definition DEFAULT_OPERATION_TIMEOUT_MS : Z := 2000.

(** ** Error texts *)

Definition lower (c : Z) : Z := if is_upper c then c + 32 else c.
Definition upper (c : Z) : Z := if (97 <=? c) && (c <=? 122) then c - 32 else c.
Definition word_char (c : Z) : bool := is_alnum c || (c =? 95).

(** Does the text start with the (lowercase) pattern, ignoring case? *)
Definition starts_ci (pattern : string) (s : jsstring) : bool :=
  bool_decide (lower <$> take (String.length pattern) s = js pattern).

(** [/\bNOSCRIPT\b/i]: [prev] says whether the character before is a word
    character. *)
Fixpoint has_word_noscript (prev : bool) (s : jsstring) : bool :=
  match s with
  | [] => false
  | c :: s' =>
      (negb prev && starts_ci "noscript" s
       && match drop 8 s with d :: _ => negb (word_char d) | [] => true end)
      || has_word_noscript (word_char c) s'
  end.

Definition error_message (e : op_error) : jsstring :=
  match e with ClientError m _ => m | _ => [] end.

(** Our own errors carry fixed messages without any of the searched words. *)
Definition scriptIsNoScript (e : op_error) : bool :=
  match e with
  | ClientError m code => has_word_noscript false (m ++ js " " ++ code)
  | _ => false
  end.

(** The longest prefix of word characters. *)
Fixpoint word_prefix (s : jsstring) : jsstring :=
  match s with c :: s' => if word_char c then c :: word_prefix s' else [] | [] => [] end.

(** [/(?:ERR\s+)?(TX_[A-Z0-9_]+)/i]: the first occurrence of [TX_] followed by
    at least one more character of the class, in upper case. *)
Fixpoint find_tx (s : jsstring) : option jsstring :=
  match s with
  | [] => None
  | _ :: s' =>
      if starts_ci "tx_" s && negb (bool_decide (word_prefix (drop 3 s) = []))
      then Some (upper <$> (take 3 s ++ word_prefix (drop 3 s)))
      else find_tx s'
  end.

Definition scriptErrorCode (e : op_error) : option jsstring := find_tx (error_message e).

Fixpoint has_wrongtype (s : jsstring) : bool :=
  match s with
  | [] => false
  | _ :: s' => starts_ci "wrongtype" s || has_wrongtype s'
  end.

Definition protocolError (e : op_error) : option op_error :=
  match e with
  | OperationProtocolError => Some e
  | _ =>
      if match scriptErrorCode e with Some code => bool_decide (take 3 code = js "TX_") | None => false end
         || has_wrongtype (error_message e)
      then Some OperationProtocolError else None
  end.

(** ** Wire decoding *)

Definition wireString (v : jsval) : checked jsstring :=
  match v with
  | VStr s => Ok s
  | VBuf b => Ok (utf8_decode b)
  | _ => Throw InvalidReplyError
  end.

Fixpoint wire_all (l : list jsval) : checked (list jsstring) :=
  match l with
  | [] => Ok []
  | v :: l' => s <~ wireString v ;; t <~ wire_all l' ;; Ok (s :: t)
  end.

Definition wireParts (v : jsval) : checked (list jsstring) :=
  match v with VArr l => wire_all l | _ => Throw InvalidReplyError end.

(** [decimal] without [allowZero], the only way the decoders use it. *)
Definition decimal (value : jsstring) (max : Z) : checked Z :=
  if negb (positive_decimal value) then Throw InvalidReplyError
  else
    let parsed := parse_dec value in
    if negb (safe_int parsed) || (parsed <? 1) || (max <? parsed)
    then Throw InvalidReplyError else Ok parsed.

Inductive BeginResult :=
| BAcquired (lease : Lease)
| BInProgress (remainingMs : Z)
| BCompleted (resultRef : jsstring)
| BConflict.

Inductive Status :=
| SMissing
| SInProgress (remainingMs : Z)
| SRecoveryRequired
| SCompleted (resultRef : jsstring)
| SConflict.

Inductive RenewResult := RRenewed (remainingMs : Z) | RLost | RConflict.
Inductive CompleteResult := CCompleted (resultRef : jsstring) | CLost | CConflict.

(** [parts.length !== n] throws. *)
Definition exactly {A} (n : nat) (parts : list jsstring) (k : checked A) : checked A :=
  if negb (bool_decide (length parts = n)) then Throw InvalidReplyError else k.

Definition part (i : nat) (parts : list jsstring) : jsstring := parts !! i ?? [].

(** [switch (parts[0])]; an empty array has no first part. *)
Definition is_case (parts : list jsstring) (word : string) : bool :=
  bool_decide (parts !! 0%nat = Some (js word)).

Section decoders.
Context (leaseMs : Z).

Definition decodeBegin (wire : jsval) (identity : Identity) (expectedOwner : jsstring)
    : checked BeginResult :=
  parts <~ wireParts wire ;;
  if is_case parts "acquired" then
    if negb (bool_decide (length parts = 4%nat))
       || negb (bool_decide (part 1 parts = expectedOwner))
       || negb (bool_decide (part 3 parts = js "reconcile"))
    then Throw InvalidReplyError
    else
      remainingMs <~ decimal (part 2 parts) leaseMs ;;
      Ok (BAcquired {| l_identity := identity; l_owner := expectedOwner;
                       l_remainingMs := JInt remainingMs |})
  else if is_case parts "in_progress" then
    exactly 2 parts (ms <~ decimal (part 1 parts) leaseMs ;; Ok (BInProgress ms))
  else if is_case parts "completed" then
    if negb (bool_decide (length parts = 2%nat))
       || negb (isReference (VStr (part 1 parts)) MAX_RESULT_REFERENCE_BYTES)
    then Throw InvalidReplyError else Ok (BCompleted (part 1 parts))
  else if is_case parts "conflict" then exactly 1 parts (Ok BConflict)
  else Throw InvalidReplyError.

Definition decodeRenew (wire : jsval) : checked RenewResult :=
  parts <~ wireParts wire ;;
  if is_case parts "renewed" then
    exactly 2 parts (ms <~ decimal (part 1 parts) leaseMs ;; Ok (RRenewed ms))
  else if is_case parts "lost" then exactly 1 parts (Ok RLost)
  else if is_case parts "conflict" then exactly 1 parts (Ok RConflict)
  else Throw InvalidReplyError.

Definition decodeComplete (wire : jsval) (expectedResultRef : jsstring) : checked CompleteResult :=
  parts <~ wireParts wire ;;
  if is_case parts "completed" then
    if negb (bool_decide (length parts = 2%nat))
       || negb (bool_decide (part 1 parts = expectedResultRef))
    then Throw InvalidReplyError else Ok (CCompleted (part 1 parts))
  else if is_case parts "lost" then exactly 1 parts (Ok CLost)
  else if is_case parts "conflict" then exactly 1 parts (Ok CConflict)
  else Throw InvalidReplyError.

Definition decodeStatus (wire : jsval) : checked Status :=
  parts <~ wireParts wire ;;
  if is_case parts "missing" then exactly 1 parts (Ok SMissing)
  else if is_case parts "in_progress" then
    exactly 2 parts (ms <~ decimal (part 1 parts) leaseMs ;; Ok (SInProgress ms))
  else if is_case parts "recovery_required" then exactly 1 parts (Ok SRecoveryRequired)
  else if is_case parts "completed" then
    if negb (bool_decide (length parts = 2%nat))
       || negb (isReference (VStr (part 1 parts)) MAX_RESULT_REFERENCE_BYTES)
    then Throw InvalidReplyError else Ok (SCompleted (part 1 parts))
  else if is_case parts "conflict" then exactly 1 parts (Ok SConflict)
  else Throw InvalidReplyError.
End decoders.

(** ** Construction *)

Record OperationStoreOptions := {
  oso_namespace : option jsval;
  oso_leaseMs : option jsnum;
  oso_retentionMs : option jsnum;
  oso_operationTimeoutMs : option jsnum;
}.

Record OperationStore := {
  os_namespace : jsstring;
  os_leaseMs : Z;
  os_retentionMs : Z;
  os_operationTimeoutMs : Z;
  os_closed : bool;
}.

Definition positiveInteger (value : jsnum) (max : Z) : checked Z :=
  if negb (num_is_safe_integer value) || num_lt value (JInt 1) || num_lt (JInt max) value
  then Throw OperationConfigurationError else Ok (num_floor value).

(** The constructor, for a transport with the given namespace; the gate's own
    options are checked by its constructor (see [TxGate.v]). *)
Definition newOperationStore (transportNamespace : jsval) (options : OperationStoreOptions)
    : checked OperationStore :=
  namespace <~ validateNamespace (oso_namespace options ?? transportNamespace) ;;
  if negb (match transportNamespace with VStr t => bool_decide (t = namespace) | _ => false end)
  then Throw OperationConfigurationError
  else
    leaseMs <~ positiveInteger (oso_leaseMs options ?? JInt DEFAULT_OPERATION_LEASE_MS)
                 MAX_OPERATION_LEASE_MS ;;
    retentionMs <~ positiveInteger (oso_retentionMs options ?? JInt DEFAULT_OPERATION_RETENTION_MS)
                     MAX_OPERATION_RETENTION_MS ;;
    if retentionMs <? leaseMs then Throw OperationConfigurationError
    else
      timeoutMs <~ positiveInteger
                     (oso_operationTimeoutMs options ?? JInt DEFAULT_OPERATION_TIMEOUT_MS)
                     MAX_SAFE_INTEGER ;;
      Ok {| os_namespace := namespace; os_leaseMs := leaseMs; os_retentionMs := retentionMs;
            os_operationTimeoutMs := timeoutMs; os_closed := false |}.

(** ** Dispatch *)

(** What a callback that was started can end with: the transport settles, or
    the operation timer wins the race. *)
Inductive race := Settled (r : checked jsval) | TimedOut.

(** What the gate does with one call: it refuses it, or runs the callback at a
    monotonic time with a transport that is ready or not. *)
Inductive gate_outcome :=
| GateRefused (e : op_error)
| GateRan (now : Z) (ready : bool) (r : race).

(** The error handler of [dispatch]. *)
Definition classify_error (dispatched : bool) (error : op_error) : op_error :=
  match protocolError error with
  | Some definite => definite
  | None =>
      match error with
      | OperationConfigurationError => error
      | OperationUnavailableError | OperationGateClosedError =>
          if negb dispatched then error else OperationUnknownError
      | _ => if negb dispatched then OperationUnavailableError else OperationUnknownError
      end
  end.

(** Whether the command may have been delivered, and the outcome. *)
Definition dispatch {T} (deadline : Z) (gate : gate_outcome) (decode : jsval → checked T)
    : bool * checked T :=
  let '(dispatched, r) :=
    match gate with
    | GateRefused e => (false, Throw e)
    | GateRan now ready r =>
        if deadline <=? now then (false, Throw OperationUnavailableError)
        else if negb ready then (false, Throw OperationUnavailableError)
        else (true, match r with Settled w => w | TimedOut => Throw OperationDispatchTimeoutError end)
    end in
  (dispatched,
   match rbind r decode with
   | Ok t => Ok t
   | Throw e => Throw (classify_error dispatched e)
   end).

(** ** The commands *)

Definition assertOpen (s : OperationStore) : checked unit :=
  if os_closed s then Throw OperationUnavailableError else Ok tt.

Definition validateLease (s : OperationStore) (identity owner : jsval) (remainingMs : jsval)
    : checked Lease :=
  id <~ validateIdentity identity ;;
  ow <~ validateOwner owner ;;
  match remainingMs with
  | VNum n =>
      if negb (num_is_finite n) || num_lt n (JInt 0) || num_lt (JInt (os_leaseMs s)) n
      then Throw OperationInputError
      else Ok {| l_identity := id; l_owner := ow; l_remainingMs := n |}
  | _ => Throw OperationInputError
  end.

(** The arguments each command sends. *)
Definition command_args (s : OperationStore) (cmd : string) (id : Identity) (owner res : jsstring)
    : list jsstring :=
  [js cmd; id_fingerprint id; id_durableId id; owner; dec (os_leaseMs s); dec (os_retentionMs s); res].

(** [bytesFor] *)
Definition bytesFor (key : jsstring) (args : list jsstring) : Z :=
  utf8_length key + sumZ utf8_length args.

(** The gate and the transport behind it, as a function of the key and the
    arguments of the command. *)
Abbreviation transport_model := (jsstring → list jsstring → gate_outcome).

(** The key is derived before anything can be sent. *)
Definition send {T} (digest : jsstring → jsstring) (s : OperationStore) (id : Identity)
    (args : list jsstring) (deadline : Z) (tr : transport_model) (decode : jsval → checked T)
    : bool * checked T :=
  match operationKey digest (VStr (os_namespace s)) (identity_value id) with
  | Throw e => (false, Throw e)
  | Ok key => dispatch deadline (tr key args) decode
  end.

(** [newOwner()] is the argument [owner]. *)
Definition begin_op (digest : jsstring → jsstring) (s : OperationStore) (input : jsval)
    (owner : jsstring) (deadline : Z) (tr : transport_model) : bool * checked BeginResult :=
  match (u <~ assertOpen s ;; validateIdentity input) with
  | Throw e => (false, Throw e)
  | Ok id => send digest s id (command_args s "begin" id owner []) deadline tr
               (λ wire, decodeBegin (os_leaseMs s) wire id owner)
  end.

Definition renew_op (digest : jsstring → jsstring) (s : OperationStore)
    (identity owner remainingMs : jsval) (deadline : Z) (tr : transport_model)
    : bool * checked RenewResult :=
  match (u <~ assertOpen s ;; validateLease s identity owner remainingMs) with
  | Throw e => (false, Throw e)
  | Ok l => send digest s (l_identity l) (command_args s "renew" (l_identity l) (l_owner l) [])
              deadline tr (decodeRenew (os_leaseMs s))
  end.

Definition complete_op (digest : jsstring → jsstring) (s : OperationStore)
    (identity owner remainingMs committedResultRef : jsval) (deadline : Z) (tr : transport_model)
    : bool * checked CompleteResult :=
  match (u <~ assertOpen s ;;
         l <~ validateLease s identity owner remainingMs ;;
         ref <~ validateReference committedResultRef MAX_RESULT_REFERENCE_BYTES ;;
         Ok (l, ref)) with
  | Throw e => (false, Throw e)
  | Ok (l, ref) =>
      send digest s (l_identity l) (command_args s "complete" (l_identity l) (l_owner l) ref)
        deadline tr (λ wire, decodeComplete wire ref)
  end.

Definition readStatus_op (digest : jsstring → jsstring) (s : OperationStore) (input : jsval)
    (deadline : Z) (tr : transport_model) : bool * checked Status :=
  match (u <~ assertOpen s ;; validateIdentity input) with
  | Throw e => (false, Throw e)
  | Ok id => send digest s id (command_args s "read" id [] []) deadline tr
               (decodeStatus (os_leaseMs s))
  end.

Definition close_store (s : OperationStore) : OperationStore :=
  {| os_namespace := os_namespace s; os_leaseMs := os_leaseMs s;
     os_retentionMs := os_retentionMs s; os_operationTimeoutMs := os_operationTimeoutMs s;
     os_closed := true |}.

(** ** Failures *)

(** The errors that promise that nothing was sent. *)
Definition promises_not_sent (e : op_error) : Prop :=
  e = OperationUnavailableError ∨ e = OperationGateClosedError.

(** The errors a caller may see once the command may have been delivered. *)
Definition after_delivery (e : op_error) : Prop :=
  e = OperationUnknownError ∨ e = OperationProtocolError ∨ e = OperationConfigurationError.

Lemma protocolError_is e p : protocolError e = Some p → p = OperationProtocolError.
Proof. destruct e; simpl; try done; try (by intros [= <-]). by case_match; intros [= <-]. Qed.

Lemma classify_sent e : after_delivery (classify_error true e).
Proof.
  unfold after_delivery, classify_error. destruct (protocolError e) as [p|] eqn:E.
  - apply protocolError_is in E as ->. auto.
  - destruct e; simpl; auto.
Qed.

(** failures are classified safely: whatever the gate, the transport and
    the reply do, an error that tells the caller nothing was sent
    ([OperationUnavailableError], [OperationGateClosedError]) is only raised
    when the transport was never called; and once it was called every failure,
    timeouts and undecodable replies included, is reported as unknown, as a
    script rejection or as a configuration error. *)
Theorem dispatch_classifies {T} deadline gate (decode : jsval → checked T) sent e :
  dispatch deadline gate decode = (sent, Throw e) →
  (promises_not_sent e → sent = false) ∧ (sent = true → after_delivery e).
Proof.
  unfold dispatch. destruct gate as [e0|now ready r]; simpl.
  - intros [= <- _]. by split.
  - destruct (deadline <=? now); [intros [= <- _]; by split|].
    destruct ready; simpl; [|intros [= <- _]; by split].
    destruct (rbind _ decode) as [t|e0]; [done|]. intros [= <- <-].
    pose proof (classify_sent e0) as Hc. split; [|done].
    intros Hp. exfalso. unfold after_delivery, promises_not_sent in *.
    destruct Hc as [Hc|[Hc|Hc]], Hp as [Hp|Hp]; congruence.
Qed.

Lemma dispatch_classifies_witness :
  dispatch 100 (GateRan 10 true TimedOut) (decodeRenew 1000) = (true, Throw OperationUnknownError) ∧
  (promises_not_sent OperationUnknownError → true = false) ∧
  (true = true → after_delivery OperationUnknownError).
Proof.
  split; [reflexivity|].
  apply (dispatch_classifies 100 (GateRan 10 true TimedOut) (decodeRenew 1000)). reflexivity.
Defined.

(** The search for [TX_] is neither anchored nor case-sensitive: a connection
    failure after delivery whose text mentions a host such as [tx_primary] is
    reported as a definitive rejection by the script. *)
Example connection_error_misread :
  dispatch 100
    (GateRan 10 true (Settled (Throw (ClientError (js "read ECONNRESET tx_primary:6379") []))))
    (decodeRenew 1000) = (true, Throw OperationProtocolError).
Proof. vm_compute. reflexivity. Qed.
