(* ===== verification/TxEndToEnd.v ===== *)
(** * The operation store over the coordination script

    The client ([operationStore.ts]) composed with the script it sends
    ([scripts.ts]): the arguments pass the script's checks and every answer of
    the script is understood by the client's decoders. *)

From S2P Require Import Prelude JsValue Utf8 TxKeys TxScript TxProtocol TxSafety TxStore.

(** ** Character classes on both sides *)

Lemma negb_existsb_forallb {A} (f : A → bool) l :
  negb (existsb (λ x, negb (f x)) l) = forallb f l.
Proof. induction l as [|x l IH]; simpl; [done|]. rewrite negb_orb, negb_involutive. by rewrite IH. Qed.

Lemma HEX_64_hex64 s : HEX_64 s = true → hex64 s = true.
Proof.
  unfold HEX_64, hex64, bounded. intros Hs. bools. rewrite negb_existsb_forallb.
  rewrite (proj2 (Z.ltb_lt _ _)), (proj2 (Z.leb_le _ _)), (proj2 (Z.eqb_eq _ _)) by lia. done.
Qed.

Lemma hex_text s : HEX_64 s = true → valid_text 64 s.
Proof.
  unfold HEX_64. intros Hs. bools.
  assert (Hc : Forall (λ c, 32 <= c < 0x7f) s).
  { apply Forall_forall. intros c Hin. rewrite forallb_forall in H0.
    assert (is_lower_hex c = true) as Hx by (apply H0; by apply list_elem_of_In).
    unfold is_lower_hex, is_digit in Hx. apply orb_true_iff in Hx as [Hx|Hx]; bools; lia. }
  clear H0. assert (Hlen : utf8_length s = Z.of_nat (length s)).
  { clear H. induction Hc as [|c s Hc _ IH]; [done|]. simpl.
    rewrite (proj2 (Z.ltb_lt _ _)) by lia. lia. }
  split.
  - by intros ->.
  - clear H Hlen. induction Hc as [|c s Hc _ IH]; [done|]. simpl.
    unfold is_high_surrogate, is_low_surrogate. rewrite !(proj2 (Z.leb_gt _ c)) by lia. done.
  - lia.
  - eapply Forall_impl; [exact Hc|]. simpl. lia.
Qed.

Lemma alnum_ascii c : is_alnum c = true → 0 <= c < 0x80.
Proof.
  unfold is_alnum, is_digit, is_upper. intros Hc.
  repeat (apply orb_true_iff in Hc as [Hc|Hc]); bools; lia.
Qed.

Lemma reference_char_ascii c : reference_char c = true → 0 <= c < 0x80.
Proof.
  unfold reference_char. intros [Hc|Hc]%orb_true_iff; [by apply alnum_ascii|].
  apply existsb_exists in Hc as (d & Hd & ->%Z.eqb_eq).
  vm_compute in Hd. intuition (subst; lia).
Qed.

Lemma lower_hex_ascii c : is_lower_hex c = true → 0 <= c < 0x80.
Proof. unfold is_lower_hex, is_digit. intros [Hc|Hc]%orb_true_iff; bools; lia. Qed.

Lemma forallb_ascii (f : Z → bool) s :
  (∀ c, f c = true → 0 <= c < 0x80) → forallb f s = true → ascii s.
Proof.
  intros Hf Hs. apply Forall_forall. intros c Hc. apply Hf.
  rewrite forallb_forall in Hs. apply Hs. by apply list_elem_of_In.
Qed.

Lemma hex64_ascii s : hex64 s = true → ascii s.
Proof.
  unfold hex64. intros Hs. bools. apply (forallb_ascii is_lower_hex); [apply lower_hex_ascii|].
  rewrite <- negb_existsb_forallb. by apply negb_true_iff.
Qed.

Lemma reference_ascii s cap : reference s cap = true → ascii s.
Proof.
  unfold reference. intros Hs. bools. apply (forallb_ascii reference_char).
  - apply reference_char_ascii.
  - rewrite <- negb_existsb_forallb. by apply negb_true_iff.
Qed.

Lemma utf8_length_ascii s : ascii s → utf8_length s = Z.of_nat (length s).
Proof.
  induction 1 as [|c s Hc _ IH]; [done|]. simpl.
  rewrite (proj2 (Z.ltb_lt _ _)), IH by lia. lia.
Qed.

Lemma REFERENCE_reference s cap :
  valid_text cap s → REFERENCE s = true → reference s cap = true.
Proof.
  unfold REFERENCE, reference, bounded. intros [Hne _ Hl _] Hs. bools.
  rewrite negb_existsb_forallb.
  assert (ascii s) by (by apply (forallb_ascii reference_char); [apply reference_char_ascii|]).
  rewrite utf8_length_ascii in Hl by done.
  destruct s; [done|]. simpl length in *.
  rewrite (proj2 (Z.ltb_lt _ _)), (proj2 (Z.leb_le _ _)) by lia. done.
Qed.

Lemma reference_REFERENCE s cap :
  reference s cap = true → isReference (VStr s) cap = true.
Proof.
  intros Hs. pose proof (reference_ascii _ _ Hs) as Ha. unfold isReference.
  rewrite utf8_length_ascii by done. unfold reference, bounded, REFERENCE in *. bools.
  rewrite (proj2 (Z.ltb_lt _ _)), (proj2 (Z.leb_le _ _)) by lia.
  rewrite bool_decide_eq_false_2 by (intros ->; simpl in *; lia).
  rewrite <- negb_existsb_forallb. simpl. by apply negb_true_iff.
Qed.

Lemma dec_fuel_ascii n z : 0 <= z < 2 ^ (Z.of_nat n + 1) → ascii (dec_fuel n z).
Proof.
  revert z. induction n as [|n IH]; intros z Hz; simpl.
  - constructor; [|constructor]. pose proof (Z.mod_pos_bound z 10). lia.
  - case_match eqn:E; bools; [constructor; [lia|constructor]|].
    apply Forall_app. pose proof (Z.mod_pos_bound z 10). split; [|constructor; [lia|constructor]].
    apply IH. split; [apply Z.div_pos; lia|]. apply Z.div_lt_upper_bound; [lia|].
    replace (Z.of_nat (S n) + 1) with (Z.succ (Z.of_nat n + 1)) in Hz by lia.
    rewrite Z.pow_succ_r in Hz by lia. lia.
Qed.

Lemma dec_ascii z : 0 <= z → ascii (dec z).
Proof. intros Hz. apply dec_fuel_ascii. pose proof (log2_fuel z Hz). lia. Qed.

Lemma js_ascii_check s : forallb (λ c, (0 <=? c) && (c <? 0x80)) s = true → ascii s.
Proof. intros Hs. eapply forallb_ascii; [|exact Hs]. intros c Hc. simpl in Hc. bools. lia. Qed.

(** ** The arguments of the store pass the script's checks *)

Record store_ok (s : OperationStore) : Prop := {
  so_lease : 1 <= os_leaseMs s <= MAX_OPERATION_LEASE_MS;
  so_retention : os_leaseMs s <= os_retentionMs s <= MAX_OPERATION_RETENTION_MS;
}.

Lemma num_floor_bounds n lo hi :
  num_is_safe_integer n = true → num_lt n (JInt lo) = false → num_lt (JInt hi) n = false →
  lo <= num_floor n <= hi.
Proof.
  unfold num_is_safe_integer, num_is_integer. destruct n as [q| |]; try done. simpl.
  intros Hs H1 H2. bools.
  pose proof (Z.div_mod (Qnum q) (Zpos (Qden q))) as Hd. rewrite H in Hd.
  assert (Qnum q = Z.pos (Qden q) * (Qnum q / Z.pos (Qden q))) by lia. nia.
Qed.

Lemma positiveInteger_ok v max z : positiveInteger v max = Ok z → 1 <= z <= max.
Proof.
  unfold positiveInteger. destruct (_ || _) eqn:E; [done|]. intros [= <-]. bools.
  by apply num_floor_bounds.
Qed.

Lemma newOperationStore_ok ns o s : newOperationStore ns o = Ok s → store_ok s ∧ os_closed s = false.
Proof.
  unfold newOperationStore. rewrite rbind_ok. intros (n & _ & Hs). revert Hs.
  destruct (negb _); [done|]. rewrite rbind_ok. intros (l & Hl%positiveInteger_ok & Hs). revert Hs.
  rewrite rbind_ok. intros (r & Hr%positiveInteger_ok & Hs). revert Hs.
  case_match eqn:Hlr; [done|]. rewrite rbind_ok. intros (t & _ & [= <-]). bools.
  split; [|done]. split; simpl; lia.
Qed.

(** The arguments as the script receives them. *)
Definition sent_args (s : OperationStore) (cmd : string) (id : Identity) (owner res : jsstring)
    : script_args :=
  {| a_cmd := js cmd; a_fp := id_fingerprint id; a_durable := id_durableId id; a_owner := owner;
     a_lease := os_leaseMs s; a_retention := os_retentionMs s; a_result := res |}.

Section end_to_end.
Context `{CjsonLaws}.

Lemma tonumber_dec z : 0 <= z → tonumber (dec z) = Some (inject_Z z).
Proof. intros Hz. unfold tonumber. by rewrite dec_canonical, parse_dec_dec. Qed.

Lemma integer_dec z lo hi : 0 <= z → lo <= z <= hi → integer (tonumber (dec z)) lo hi = true.
Proof.
  intros Hz Hb. rewrite tonumber_dec, integer_Z by done.
  by rewrite !(proj2 (Z.leb_le _ _)) by lia.
Qed.

Lemma qfloor_dec z : 0 <= z → qfloor (tonumber (dec z)) = z.
Proof. intros Hz. rewrite tonumber_dec by done. simpl. apply Z.div_1_r. Qed.

Lemma store_args_parse key s cmd id owner res :
  store_ok s → valid_identity id →
  js cmd ∈ [js "begin"; js "renew"; js "complete"; js "read"] →
  (cmd ≠ "read"%string → hex64 owner = true) →
  (cmd = "complete"%string → reference res 256 = true) →
  parse_args [key] (command_args s cmd id owner res) = Ok (sent_args s cmd id owner res).
Proof.
  intros [Hl Hr] [_ _ _ [Vf Xf] [Vd Xd]] Hcmd Hown Hres.
  unfold MAX_OPERATION_LEASE_MS, MAX_OPERATION_RETENTION_MS in *.
  unfold parse_args, command_args. rewrite bool_decide_eq_true_2 by done. simpl negb. cbv iota.
  pose proof (REFERENCE_reference _ _ Vd Xd) as Hd. change MAX_DURABLE_ID_BYTES with 128 in Hd.
  rewrite (HEX_64_hex64 _ Xf), Hd. simpl orb. cbv iota.
  rewrite !integer_dec, !qfloor_dec by (unfold MAX_LEASE, MAX_RETENTION; rewrite ?qfloor_dec; lia).
  assert (negb (bool_decide (js cmd = js "read")) && negb (hex64 owner) = false) as ->.
  { case_bool_decide as Hc; [done|]. rewrite Hown; [done|]. by intros ->. }
  assert (bool_decide (js cmd = js "complete") && negb (reference res 256) = false) as ->.
  { case_bool_decide as Hc; [|done]. rewrite Hres; [done|]. by apply js_inj. }
  done.
Qed.

(** ** The replies are understood *)

(** How ioredis hands a reply to its caller: strings, or a rejection. *)
Definition wire_value (parts : list bytes) : jsval := VArr (VStr <$> (utf8_decode <$> parts)).

Definition wire_of (r : reply) : checked jsval :=
  match r with
  | RArr parts => Ok (wire_value parts)
  | RErr m => Throw (ClientError (utf8_decode m) [])
  end.

(** A ready transport in front of a Redis key in state [c]. *)
Definition script_transport (c : redis_cell) (time : Z * Z) (now : Z) : transport_model :=
  λ key args, GateRan now true
    (Settled (wire_of (exec_script c [utf8_encode key] (utf8_encode <$> args) time).2)).

Lemma wire_all_strings l : wire_all (VStr <$> l) = Ok l.
Proof. induction l as [|s l IH]; [done|]. cbn [fmap list_fmap wire_all wireString rbind]. by rewrite IH. Qed.

Lemma wireParts_value parts :
  Forall ascii parts → wireParts (wire_value parts) = Ok parts.
Proof.
  intros Hp. unfold wire_value, wireParts. rewrite wire_all_strings. f_equal.
  induction Hp as [|s l Hs _ IH]; [done|]. rewrite fmap_cons, IH. by rewrite utf8_decode_ascii.
Qed.

Lemma decimal_dec z max : 1 <= z <= max → max <= MAX_SAFE_INTEGER → decimal (dec z) max = Ok z.
Proof.
  intros Hz Hm. unfold decimal. rewrite dec_positive by lia. simpl negb. cbv iota.
  rewrite parse_dec_dec by lia. unfold safe_int.
  rewrite (proj2 (Z.leb_le _ _)), !(proj2 (Z.ltb_ge _ _)) by lia. done.
Qed.

Ltac ascii_tac :=
  repeat (apply Forall_cons; split); try apply Forall_nil;
  first [apply js_ascii_check; reflexivity | apply dec_ascii; lia | by eapply hex64_ascii
        | by eapply reference_ascii | done].

(** A client's result for a reply of the script: the reply decodes to it, or it is
    the script's one error, a definitive rejection. *)
Definition understood {T} (decode : jsval → checked T) (r : reply) (out : checked T) : Prop :=
  match r with
  | RArr parts => decode (wire_value parts) = out ∧ is_ok out = true
  | RErr m => m = js "TX_FRESH_OWNER_REQUIRED" ∧ out = Throw OperationProtocolError
  end.

(** A live state whose lease is within the configured one. *)
Definition state_within (L now : Z) (st : option op) : Prop :=
  match st with
  | Some o => op_ok o ∧ match op_phase o with PendingUntil u => u <= now + L | _ => True end
  | None => True
  end.

Lemma is_case_js (a b : string) rest : is_case (js a :: rest) b = bool_decide (a = b).
Proof.
  unfold is_case. apply bool_decide_ext. simpl. split; [|by intros ->].
  intros Heq. injection Heq as Heq. by apply js_inj.
Qed.

(** Evaluate the switch of a decoder on a literal first word. *)
Ltac eval_cases :=
  rewrite !is_case_js;
  repeat match goal with
  | |- context [@bool_decide (@eq string ?a ?b) ?d] =>
      let v := eval vm_compute in (@bool_decide (@eq string a b) d) in
      change (@bool_decide (@eq string a b) d) with v
  end; cbv iota.

Ltac decode_tac :=
  split; [|done]; rewrite wireParts_value by ascii_tac; cbn [rbind]; eval_cases;
  unfold exactly, part; cbn [length lookup list_lookup default from_option Datatypes.id];
  rewrite ?bool_decide_eq_true_2 by done; cbn [negb orb]; cbv iota.

(** ** The machine as its clients see it *)

(** The result of each command on the live operation of its key, and the operation
    it writes, if any. *)
Section client_machine.
Context (s : OperationStore) (id : Identity) (now : Z).

Definition this_operation (o : op) : bool :=
  bool_decide (op_fp o = id_fingerprint id) && bool_decide (op_durable o = id_durableId id).

Definition lease_of (owner : jsstring) (ms : Z) : Lease :=
  {| l_identity := id; l_owner := owner; l_remainingMs := JInt ms |}.

(** Written for [owner]: kept for the store's retention, and never shortened. *)
Definition written (owner : jsstring) (ph : phase) (st : option op) : op :=
  {| op_fp := id_fingerprint id; op_durable := id_durableId id; op_owner := owner; op_phase := ph;
     op_retain := Z.max (now + os_retentionMs s) (match st with Some o => op_retain o | None => 0 end) |}.

Definition begin_machine (owner : jsstring) (st : option op) : checked BeginResult * option op :=
  let grant := (Ok (BAcquired (lease_of owner (os_leaseMs s))), Some (written owner (PendingUntil (now + os_leaseMs s)) st)) in
  match st with
  | None => grant
  | Some o =>
      if negb (this_operation o) then (Ok BConflict, None)
      else match op_phase o with
      | CompletedWith ref => (Ok (BCompleted ref), None)
      | PendingUntil u =>
          if now <? u
          then (Ok (if bool_decide (op_owner o = owner) then BAcquired (lease_of owner (u - now)) else BInProgress (u - now)), None)
          else if bool_decide (op_owner o = owner) then (Throw OperationProtocolError, None) else grant
      end
  end.

Definition status_machine (st : option op) : checked Status :=
  match st with
  | None => Ok SMissing
  | Some o =>
      if negb (this_operation o) then Ok SConflict
      else match op_phase o with
      | CompletedWith ref => Ok (SCompleted ref)
      | PendingUntil u => Ok (if now <? u then SInProgress (u - now) else SRecoveryRequired)
      end
  end.

(** Does [owner] hold the lease of a pending operation? *)
Definition holds (owner : jsstring) (o : op) : bool :=
  match op_phase o with PendingUntil u => bool_decide (op_owner o = owner) && (now <? u) | CompletedWith _ => false end.

Definition renew_machine (owner : jsstring) (st : option op) : checked RenewResult * option op :=
  match st with
  | None => (Ok RLost, None)
  | Some o =>
      if negb (this_operation o) then (Ok RConflict, None)
      else if holds owner o then (Ok (RRenewed (os_leaseMs s)), Some (written owner (PendingUntil (now + os_leaseMs s)) st))
      else (Ok RLost, None)
  end.

Definition complete_machine (owner ref : jsstring) (st : option op) : checked CompleteResult * option op :=
  match st with
  | None => (Ok CLost, None)
  | Some o =>
      if negb (this_operation o) then (Ok CConflict, None)
      else match op_phase o with
      | CompletedWith ref' => (Ok (if bool_decide (ref' = ref) then CCompleted ref else CConflict), None)
      | PendingUntil _ =>
          if holds owner o then (Ok (CCompleted ref), Some (written owner (CompletedWith ref) st)) else (Ok CLost, None)
      end
  end.
End client_machine.

Section replies.
Context (s : OperationStore) (id : Identity) (now : Z).
Hypothesis s_ok : store_ok s.
Let L : Z := os_leaseMs s.

Lemma L_ok : 1 <= L <= MAX_SAFE_INTEGER.
Proof. pose proof (so_lease _ s_ok). unfold L, MAX_OPERATION_LEASE_MS, MAX_SAFE_INTEGER in *. lia. Qed.

Lemma begin_acquired owner d :
  hex64 owner = true → 1 <= d <= L →
  understood (λ w, decodeBegin L w id owner) (RArr [js "acquired"; owner; dec d; js "reconcile"]) (Ok (BAcquired (lease_of id owner d))).
Proof. intros Ho Hd. pose proof L_ok. unfold decodeBegin. decode_tac. by rewrite decimal_dec by lia. Qed.

Lemma begin_in_progress owner d :
  1 <= d <= L → understood (λ w, decodeBegin L w id owner) (RArr [js "in_progress"; dec d]) (Ok (BInProgress d)).
Proof. intros Hd. pose proof L_ok. unfold decodeBegin. decode_tac. by rewrite decimal_dec by lia. Qed.

Lemma begin_done owner ref :
  reference ref 256 = true →
  understood (λ w, decodeBegin L w id owner) (RArr [js "completed"; ref]) (Ok (BCompleted ref)).
Proof.
  intros Hr. unfold decodeBegin. decode_tac.
  change MAX_RESULT_REFERENCE_BYTES with 256. by rewrite (reference_REFERENCE _ _ Hr).
Qed.

Lemma status_in_progress d :
  1 <= d <= L → understood (decodeStatus L) (RArr [js "in_progress"; dec d]) (Ok (SInProgress d)).
Proof. intros Hd. pose proof L_ok. unfold decodeStatus. decode_tac. by rewrite decimal_dec by lia. Qed.

Lemma status_completed ref :
  reference ref 256 = true → understood (decodeStatus L) (RArr [js "completed"; ref]) (Ok (SCompleted ref)).
Proof.
  intros Hr. unfold decodeStatus. decode_tac.
  change MAX_RESULT_REFERENCE_BYTES with 256. by rewrite (reference_REFERENCE _ _ Hr).
Qed.

Lemma renew_renewed d : 1 <= d <= L → understood (decodeRenew L) (RArr [js "renewed"; dec d]) (Ok (RRenewed d)).
Proof. intros Hd. pose proof L_ok. unfold decodeRenew. decode_tac. by rewrite decimal_dec by lia. Qed.

Lemma complete_completed ref :
  reference ref 256 = true → understood (λ w, decodeComplete w ref) (RArr [js "completed"; ref]) (Ok (CCompleted ref)).
Proof. intros Hr. unfold decodeComplete. by decode_tac. Qed.

(** A reply of one word. *)
Lemma word_understood {T} (decode : jsval → checked T) word out :
  decode (wire_value [js word]) = out → is_ok out = true → understood decode (RArr [js word]) out.
Proof. done. Qed.

(** Every reply of the machine to a command of this store, and its write. *)
Lemma same_this cmd owner res o : same_operation (sent_args s cmd id owner res) o = this_operation id o.
Proof. done. Qed.

Lemma this_operation_eq o : this_operation id o = true → op_fp o = id_fingerprint id ∧ op_durable o = id_durableId id.
Proof. unfold this_operation. intros Ht. by bools. Qed.

Lemma begin_understood st owner :
  hex64 owner = true → state_within L now st →
  let step := spec_step (sent_args s "begin" id owner []) now st in
  understood (λ w, decodeBegin L w id owner) step.1 (begin_machine s id now owner st).1 ∧ step.2 = (begin_machine s id now owner st).2.
Proof.
  intros Hh Hst. pose proof L_ok. unfold spec_step, begin_machine, acquired. cbn [a_cmd a_owner a_lease sent_args]. js_eval.
  destruct st as [o|]; [|split; [apply begin_acquired; [done|fold L; lia]|done]].
  destruct Hst as [Hok Hw]. pose proof (oo_phase _ Hok) as Hph. rewrite same_this.
  destruct (this_operation id o); [|by split; [apply word_understood|]]. simpl negb. cbv iota zeta.
  destruct (op_phase o) as [u|ref]; [|by split; [apply begin_done|]].
  destruct (Z.ltb_spec now u).
  - rewrite (proj2 (Z.ltb_lt 0 _)), Z.max_r by lia.
    case_bool_decide; (split; [|done]); [apply begin_acquired|apply begin_in_progress]; done || lia.
  - rewrite (proj2 (Z.ltb_ge 0 _)) by lia. case_bool_decide; (split; [|done]); [by split|apply begin_acquired; [done|fold L; lia]].
Qed.

Lemma status_understood st :
  state_within L now st →
  let step := spec_step (sent_args s "read" id [] []) now st in
  understood (decodeStatus L) step.1 (status_machine id now st) ∧ step.2 = None.
Proof.
  intros Hst. unfold spec_step, status_machine. cbn [a_cmd sent_args]. js_eval.
  destruct st as [o|]; [|by split; [apply word_understood|]]. destruct Hst as [Hok Hw]. pose proof (oo_phase _ Hok) as Hph.
  rewrite same_this. destruct (this_operation id o); [|by split; [apply word_understood|]]. simpl negb. cbv iota zeta.
  destruct (op_phase o) as [u|ref]; [|by split; [apply status_completed|]]. split; [|done]. cbn [fst]. destruct (Z.ltb_spec now u).
  - rewrite (proj2 (Z.eqb_neq _ 0)), Z.max_r by lia. apply status_in_progress. lia.
  - rewrite Z.max_l by lia. by apply word_understood.
Qed.

Lemma renew_understood st owner :
  let step := spec_step (sent_args s "renew" id owner []) now st in
  understood (decodeRenew L) step.1 (renew_machine s id now owner st).1 ∧ step.2 = (renew_machine s id now owner st).2.
Proof.
  pose proof L_ok. unfold spec_step, renew_machine, holds, written. cbn [a_cmd a_owner a_lease sent_args]. js_eval.
  destruct st as [o|]; [|by split; [apply word_understood|]]. rewrite same_this.
  destruct (this_operation id o) eqn:Ht; [|by split; [apply word_understood|]]. simpl negb. cbv iota zeta.
  destruct (op_phase o) as [u|ref]; [|by split; [apply word_understood|]].
  case_bool_decide as Ho; cbn [negb orb andb]; [|by split; [apply word_understood|]]. destruct (Z.ltb_spec now u).
  - rewrite (proj2 (Z.eqb_neq _ 0)) by lia. split; [apply renew_renewed; fold L; lia|].
    destruct (this_operation_eq _ Ht) as [-> ->]. by rewrite Ho.
  - rewrite Z.max_l by lia. by split; [apply word_understood|].
Qed.

Lemma complete_understood st owner ref :
  reference ref 256 = true →
  let step := spec_step (sent_args s "complete" id owner ref) now st in
  understood (λ w, decodeComplete w ref) step.1 (complete_machine s id now owner ref st).1 ∧
  step.2 = (complete_machine s id now owner ref st).2.
Proof.
  intros Hr. unfold spec_step, complete_machine, holds, written. cbn [a_cmd a_owner a_lease a_result sent_args]. js_eval.
  destruct st as [o|]; [|by split; [apply word_understood|]]. rewrite same_this.
  destruct (this_operation id o) eqn:Ht; [|by split; [apply word_understood|]]. simpl negb. cbv iota zeta.
  destruct (op_phase o) as [u|ref'].
  - case_bool_decide as Ho; cbn [negb orb andb]; [|by split; [apply word_understood|]]. destruct (Z.ltb_spec now u).
    + rewrite (proj2 (Z.eqb_neq _ 0)) by lia. split; [by apply complete_completed|].
      destruct (this_operation_eq _ Ht) as [-> ->]. by rewrite Ho.
    + rewrite Z.max_l by lia. by split; [apply word_understood|].
  - case_bool_decide as Hre; cbn [negb]; [subst; by split; [apply complete_completed|]|by split; [apply word_understood|]].
Qed.
End replies.

(** ** Composition *)

Lemma command_args_ascii s cmd id owner res :
  store_ok s → valid_identity id → ascii (js cmd) → ascii owner → ascii res →
  utf8_encode <$> command_args s cmd id owner res = command_args s cmd id owner res.
Proof.
  intros [Hl Hr] [_ _ _ [_ Xf] [Vd Xd]] Hc Ho Hres. unfold command_args. cbn [fmap list_fmap].
  rewrite !utf8_encode_ascii; try done.
  - apply dec_ascii. lia.
  - apply dec_ascii. lia.
  - eapply reference_ascii. by apply (REFERENCE_reference _ MAX_DURABLE_ID_BYTES).
  - by apply hex64_ascii, HEX_64_hex64.
Qed.

(** The outcome of a dispatched command whose reply is understood. *)
Lemma dispatch_understood {T} (decode : jsval → checked T) deadline now r out :
  now < deadline → understood decode r out →
  dispatch deadline (GateRan now true (Settled (wire_of r))) decode = (true, out).
Proof.
  intros Hlt Hu. unfold dispatch. rewrite (proj2 (Z.leb_gt _ _)) by lia. simpl negb. cbv iota.
  destruct r as [parts|m]; cbn [wire_of rbind]; simpl in Hu.
  - destruct Hu as [-> Hok]. by destruct out.
  - by destruct Hu as [-> ->].
Qed.

Section commands.
Context (digest : jsstring → jsstring) (s : OperationStore).
Context (t0 : Z) (h1 : list script_event) (time : Z * Z) (now deadline : Z).
Context (id : Identity) (key : jsstring).
Hypothesis s_ok : store_ok s.
Hypothesis s_open : os_closed s = false.
Hypothesis key_ok : operationKey digest (VStr (os_namespace s)) (identity_value id) = Ok key.
Hypothesis times_ok : times_from t0 (h1 ++ [([], time)]).
Hypothesis leases_ok :
  Forall (λ e, ∀ a, parse_args [utf8_encode key] e.1 = Ok a → a_lease a <= os_leaseMs s) h1.
Hypothesis clock_ok : 0 <= ms_of time <= MAX_MS - MAX_RETENTION.
Hypothesis in_budget : now < deadline.

Let c : redis_cell := (run_script (utf8_encode key) None h1).1.
Let tr : transport_model := script_transport c time now.

Lemma identity_value_fields : identity_value id = VObj (identity_fields id).
Proof. done. Qed.

Lemma id_valid : valid_identity id ∧ validateIdentity (identity_value id) = Ok id.
Proof.
  destruct (operationKey_ok _ _ _ _ key_ok) as (n & i & _ & _ & Hi & _).
  destruct (validateIdentity_sound _ _ Hi) as (Hv & fs & Hfs & Hp).
  rewrite identity_value_fields in Hfs. injection Hfs as <-.
  assert (i = id) as ->.
  { assert (Hin : ∀ p, p ∈ identity_fields id → p ∈ identity_fields i) by (intros; by rewrite <- Hp).
    assert (Hget : ∀ name v w, (js name, v) ∈ identity_fields i → (js name, w) ∈ identity_fields i → v = w).
    { intros name v w H1 H2. assert (Hnd : NoDup (identity_fields i).*1) by apply identity_names_NoDup.
      pose proof (assoc_unique _ _ _ Hnd H1). pose proof (assoc_unique _ _ _ Hnd H2). congruence. }
    assert (Hf : ∀ name v w, (js name, VStr v) ∈ identity_fields id →
                 (js name, VStr w) ∈ identity_fields i → w = v).
    { intros name v w H1 H2. by injection (Hget _ _ _ (Hin _ H1) H2). }
    destruct i as [i1 i2 i3 i4 i5], id as [j1 j2 j3 j4 j5]. f_equal.
    - apply (Hf "tenant"%string); unfold identity_fields; set_solver.
    - apply (Hf "operation"%string); unfold identity_fields; set_solver.
    - apply (Hf "idempotencyKey"%string); unfold identity_fields; set_solver.
    - apply (Hf "fingerprint"%string); unfold identity_fields; set_solver.
    - apply (Hf "durableId"%string); unfold identity_fields; set_solver. }
  done.
Qed.

(** What a command sent by this store leaves in Redis. *)
Definition cell_after (cmd : string) (owner res : jsstring) : redis_cell :=
  (exec_script c [utf8_encode key] (utf8_encode <$> command_args s cmd id owner res) time).1.

(** The live operation of the key, and the cell after a step of the machine. *)
Definition next_cell (st w : option op) : redis_cell := cell_of (match w with Some o => Some o | None => st end).

(** The key's operation and the machine's step for every command of this store. *)
Lemma command_step :
  ∃ st, c = cell_of st ∧ state_within (os_leaseMs s) (ms_of time) (live (ms_of time) st) ∧
  ∀ cmd owner res,
    js cmd ∈ [js "begin"; js "renew"; js "complete"; js "read"] → ascii (js cmd) → ascii owner → ascii res →
    (cmd ≠ "read"%string → hex64 owner = true) → (cmd = "complete"%string → reference res 256 = true) →
    let step := spec_step (sent_args s cmd id owner res) (ms_of time) (live (ms_of time) st) in
    exec_script c [utf8_encode key] (utf8_encode <$> command_args s cmd id owner res) time = (next_cell st step.2, step.1).
Proof.
  destruct id_valid as [Hv _].
  destruct (run_abs_inv (utf8_encode key)
    (λ e, ∀ a, parse_args [utf8_encode key] e.1 = Ok a → a_lease a <= os_leaseMs s)
    (lease_cap (os_leaseMs s))) with h1 [(([] : list bytes), time)] t0 (None : option op)
    as (st & t1 & Hc & Hst & Hcap & Ht & _); [|done|done|done|done|].
  { intros. by eapply run_lease_cap. }
  change (cell_of None) with (None : redis_cell) in Hc. fold c in Hc. exists st. split; [done|].
  change (event_ms ([], time)) with (ms_of time) in Ht. split.
  - destruct (live (ms_of time) st) as [o|] eqn:El; [|done].
    apply live_Some in El as [-> _]. destruct Hst as [Hok _]. split; [done|].
    unfold lease_cap in Hcap. case_match; [lia|done].
  - intros cmd owner res Hcmd Hca Ho Hr Hown Hres. rewrite command_args_ascii, Hc by done.
    pose proof (store_args_parse (utf8_encode key) s cmd id owner res s_ok Hv Hcmd Hown Hres) as Hparse.
    pose proof (ao_retention _ (parse_args_ok _ _ _ Hparse)).
    destruct (exec_total (utf8_encode key) t1 st (command_args s cmd id owner res, time)
      (sent_args s cmd id owner res)) as [Heq _]; [done|done|done| |exact Heq].
    unfold event_ms. simpl in *. lia.
Qed.

(** One command, from the store to the key and back. *)
Lemma send_understood {T} cmd owner res (decode : jsval → checked T) out st step :
  exec_script c [utf8_encode key] (utf8_encode <$> command_args s cmd id owner res) time = (next_cell st step.2, step.1) →
  understood decode step.1 out →
  send digest s id (command_args s cmd id owner res) deadline tr decode = (true, out).
Proof.
  intros Heq Hu. unfold send. rewrite key_ok. unfold tr, script_transport. rewrite Heq.
  by apply dispatch_understood.
Qed.

(** C10: the store's commands are the operation machine, end to end. For a
    store a constructor accepts, a record left by any history of the key whose
    leases are within the store's own, a server clock within the range of the
    retention and a command dispatched before its deadline, there is an operation
    [st] of the key such that each command gives its caller exactly the result of
    the machine on what is live of it, and leaves the key with the operation the
    machine writes: arguments, script, record, reply and decoder together. So no
    reply is reported as unknown or undecodable, and a begin is rejected only
    where the expired owner itself comes back. *)
Theorem store_understands_script owner ref (remaining : Z) :
  HEX_64 owner = true → valid_text 256 ref → REFERENCE ref = true →
  0 <= remaining <= os_leaseMs s →
  let input := identity_value id in
  let ms := VNum (JInt remaining) in
  let now_ms := ms_of time in
  ∃ st, c = cell_of st ∧
  let o := live now_ms st in
  begin_op digest s input owner deadline tr = (true, (begin_machine s id now_ms owner o).1) ∧
  cell_after "begin" owner [] = next_cell st (begin_machine s id now_ms owner o).2 ∧
  readStatus_op digest s input deadline tr = (true, status_machine id now_ms o) ∧
  cell_after "read" [] [] = c ∧
  renew_op digest s input (VStr owner) ms deadline tr = (true, (renew_machine s id now_ms owner o).1) ∧
  cell_after "renew" owner [] = next_cell st (renew_machine s id now_ms owner o).2 ∧
  complete_op digest s input (VStr owner) ms (VStr ref) deadline tr = (true, (complete_machine s id now_ms owner ref o).1) ∧
  cell_after "complete" owner ref = next_cell st (complete_machine s id now_ms owner ref o).2.
Proof.
  intros Hown Vref Xref Hrem. cbv zeta. destruct id_valid as [Hv Hid].
  pose proof (HEX_64_hex64 _ Hown) as Hh. pose proof (hex64_ascii _ Hh) as Ha.
  pose proof (REFERENCE_reference _ _ Vref Xref) as Hr.
  pose proof (reference_ascii _ _ Hr) as Hra. pose proof (so_lease _ s_ok) as HL.
  assert (Hnil : ascii []) by constructor.
  assert (Howner : validateOwner (VStr owner) = Ok owner).
  { apply validateFingerprint_ok. split; [done|]. split; [|done]. by apply hex_text. }
  assert (Hlease : validateLease s (identity_value id) (VStr owner) (VNum (JInt remaining)) =
    Ok {| l_identity := id; l_owner := owner; l_remainingMs := JInt remaining |}).
  { unfold validateLease. rewrite Hid. cbn [rbind]. rewrite Howner. cbn [rbind]. simpl.
    by rewrite !(proj2 (Z.ltb_ge _ _)) by lia. }
  destruct command_step as (st & Hc & Hst & Hstep). exists st. split; [done|].
  unfold begin_op, readStatus_op, renew_op, complete_op, assertOpen, cell_after.
  rewrite s_open. cbn [rbind]. rewrite Hid, Hlease. cbn [rbind]. rewrite (proj2 (validateReference_ok _ _ _)) by done. cbn [rbind].
  destruct (begin_understood s id (ms_of time) s_ok (live (ms_of time) st) owner) as [Hb1 <-]; [done|done|].
  destruct (status_understood s id (ms_of time) s_ok (live (ms_of time) st)) as [Hs1 Hs2]; [done|].
  destruct (renew_understood s id (ms_of time) s_ok (live (ms_of time) st) owner) as [Hr1 <-].
  destruct (complete_understood s id (ms_of time) (live (ms_of time) st) owner ref Hr) as [Hc1 <-].
  assert (Eb := Hstep "begin"%string owner [] ltac:(set_solver) ltac:(by apply js_ascii_check) Ha Hnil (λ _, Hh) ltac:(done)).
  assert (Es := Hstep "read"%string [] [] ltac:(set_solver) ltac:(by apply js_ascii_check) Hnil Hnil ltac:(done) ltac:(done)).
  assert (Er := Hstep "renew"%string owner [] ltac:(set_solver) ltac:(by apply js_ascii_check) Ha Hnil (λ _, Hh) ltac:(done)).
  assert (Ec := Hstep "complete"%string owner ref ltac:(set_solver) ltac:(by apply js_ascii_check) Ha Hra (λ _, Hh) (λ _, Hr)).
  cbv zeta in *. rewrite Eb, Er, Ec. split_and!; [..|done]; try done; try (by eapply send_understood).
  rewrite Es, Hs2. by rewrite Hc.
Qed.
End commands.
End end_to_end.

(** ** Witness *)

Definition demo_store : OperationStore :=
  {| os_namespace := js "prod"; os_leaseMs := 1000; os_retentionMs := 5000;
     os_operationTimeoutMs := 2000; os_closed := false |}.

Lemma store_understands_script_witness :
  let key := demo_key "acme" in
  let c := (run_script (utf8_encode key) None [demo_grab]).1 in
  let b := begin_op demo_digest demo_store (identity_value (demo_id "acme")) (replicate 64 99) 100
             (script_transport c (10, 500000) 50) in
  b.2 = Ok (BInProgress 500) ∧
  ∃ st, c = cell_of st ∧
    b = (true, (begin_machine demo_store (demo_id "acme") 10500 (replicate 64 99) (live 10500 st)).1).
Proof.
  cbv zeta. split; [vm_compute; reflexivity|].
  destruct (store_understands_script demo_digest demo_store 0 [demo_grab] (10, 500000) 50 100
    (demo_id "acme") (demo_key "acme")) with (owner := replicate 64 99) (ref := js "ref-1")
    (remaining := 10) as (st & Hc & Hb & _); [| | | | | | | | | | |exists st; split; [exact Hc|exact Hb]].
  - split; vm_compute; split; discriminate.
  - reflexivity.
  - vm_compute. reflexivity.
  - vm_compute. repeat split; discriminate.
  - apply Forall_cons; split; [|constructor]. intros a Ha. vm_compute in Ha.
    injection Ha as <-. vm_compute. discriminate.
  - vm_compute. split; discriminate.
  - lia.
  - vm_compute. reflexivity.
  - apply validateReference_ok with (v := VStr (js "ref-1")). vm_compute. reflexivity.
  - vm_compute. reflexivity.
  - simpl. lia.
Defined.
