(* ===== verification/WorkGate.v ===== *)
(** * Bounded work gates: the shared state and its invariant

    The L2 operation gate ([src/src/cache/l2OperationGate.ts]) and the
    transaction gate ([BoundedOperationGate] of
    [src/src/transactions/redisTransport.ts]) keep the same state: active
    work with its bytes, a FIFO queue with its bytes, counters and a closed
    flag. [wg_running] are the operations whose promise has not settled and
    [wg_timers] those whose caller-facing timer is still armed; both are local
    to the closures of [start] in the source. *)

From S2P Require Import Prelude Fifo.

Record work := { k_id : nat; k_bytes : Z; k_deadline : Z }.

Record wgate := {
  wg_active : Z;
  wg_activeBytes : Z;
  wg_queuedBytes : Z;
  wg_queue : list work;
  wg_closed : bool;
  wg_rejected : Z;
  wg_expired : Z;
  wg_commandTimeouts : Z;
  wg_running : list work;
  wg_timers : list nat;
  wg_next : nat;
}.

Definition newWorkGate : wgate :=
  {| wg_active := 0; wg_activeBytes := 0; wg_queuedBytes := 0; wg_queue := [];
     wg_closed := false; wg_rejected := 0; wg_expired := 0; wg_commandTimeouts := 0;
     wg_running := []; wg_timers := []; wg_next := 0 |}.

Inductive refusal := GateClosed | QueueFull | QueueExpired | DeadlineElapsed | Cancelled | BadRequest.

(** What an event tells the callers. *)
Inductive gout :=
| GStart (id : nat)
| GRefuse (id : nat) (why : refusal)
| GTimeout (id : nat).

(** [start]: the slot and the bytes are taken, the timer is armed. *)
Definition start_work (w : work) (g : wgate) : wgate :=
  {| wg_active := wg_active g + 1; wg_activeBytes := wg_activeBytes g + k_bytes w;
     wg_queuedBytes := wg_queuedBytes g; wg_queue := wg_queue g; wg_closed := wg_closed g;
     wg_rejected := wg_rejected g; wg_expired := wg_expired g;
     wg_commandTimeouts := wg_commandTimeouts g; wg_running := wg_running g ++ [w];
     wg_timers := wg_timers g ++ [k_id w]; wg_next := wg_next g |}.

(** The [finally] handler up to its call of [pump]. *)
Definition finish_work (w : work) (g : wgate) : wgate :=
  {| wg_active := wg_active g - 1; wg_activeBytes := wg_activeBytes g - k_bytes w;
     wg_queuedBytes := wg_queuedBytes g; wg_queue := wg_queue g; wg_closed := wg_closed g;
     wg_rejected := wg_rejected g; wg_expired := wg_expired g;
     wg_commandTimeouts := wg_commandTimeouts g;
     wg_running := remove_by k_id (k_id w) (wg_running g);
     wg_timers := filter (λ i, i ≠ k_id w) (wg_timers g); wg_next := wg_next g |}.

Definition set_queue (q : list work) (qb : Z) (g : wgate) : wgate :=
  {| wg_active := wg_active g; wg_activeBytes := wg_activeBytes g; wg_queuedBytes := qb;
     wg_queue := q; wg_closed := wg_closed g; wg_rejected := wg_rejected g;
     wg_expired := wg_expired g; wg_commandTimeouts := wg_commandTimeouts g;
     wg_running := wg_running g; wg_timers := wg_timers g; wg_next := wg_next g |}.

Definition set_counters (rej ex ct : Z) (g : wgate) : wgate :=
  {| wg_active := wg_active g; wg_activeBytes := wg_activeBytes g;
     wg_queuedBytes := wg_queuedBytes g; wg_queue := wg_queue g; wg_closed := wg_closed g;
     wg_rejected := rej; wg_expired := ex; wg_commandTimeouts := ct;
     wg_running := wg_running g; wg_timers := wg_timers g; wg_next := wg_next g |}.

Definition count_expired (g : wgate) : wgate :=
  set_counters (wg_rejected g) (wg_expired g + 1) (wg_commandTimeouts g) g.

Definition count_refused (g : wgate) : wgate :=
  set_counters (wg_rejected g + 1) (wg_expired g) (wg_commandTimeouts g) g.

(** A fresh identity for a call. *)
Definition next_work (g : wgate) : wgate :=
  {| wg_active := wg_active g; wg_activeBytes := wg_activeBytes g;
     wg_queuedBytes := wg_queuedBytes g; wg_queue := wg_queue g; wg_closed := wg_closed g;
     wg_rejected := wg_rejected g; wg_expired := wg_expired g;
     wg_commandTimeouts := wg_commandTimeouts g; wg_running := wg_running g;
     wg_timers := wg_timers g; wg_next := S (wg_next g) |}.

(** The caller-facing timer of a started operation. *)
Definition fire_timer (id : nat) (g : wgate) : wgate * list gout :=
  if bool_decide (id ∈ wg_timers g) then
    ({| wg_active := wg_active g; wg_activeBytes := wg_activeBytes g;
        wg_queuedBytes := wg_queuedBytes g; wg_queue := wg_queue g; wg_closed := wg_closed g;
        wg_rejected := wg_rejected g; wg_expired := wg_expired g;
        wg_commandTimeouts := wg_commandTimeouts g + 1; wg_running := wg_running g;
        wg_timers := filter (λ i, i ≠ id) (wg_timers g); wg_next := wg_next g |}, [GTimeout id])
  else (g, []).

(** [queue.indexOf(waiter)], [splice] and the bytes given back. *)
Definition drop_work (w : work) (g : wgate) : wgate :=
  set_queue (remove_by k_id (k_id w) (wg_queue g)) (wg_queuedBytes g - k_bytes w) g.

(** [close] *)
Definition close_work (g : wgate) : wgate * list gout :=
  ({| wg_active := wg_active g; wg_activeBytes := wg_activeBytes g; wg_queuedBytes := 0;
      wg_queue := []; wg_closed := true; wg_rejected := wg_rejected g;
      wg_expired := wg_expired g; wg_commandTimeouts := wg_commandTimeouts g;
      wg_running := wg_running g; wg_timers := wg_timers g; wg_next := wg_next g |},
   (λ w, GRefuse (k_id w) GateClosed) <$> wg_queue g).

(** ** The invariant *)

Definition started (out : list gout) : list nat :=
  omap (λ o, match o with GStart id => Some id | _ => None end) out.

Lemma started_app a b : started (a ++ b) = started a ++ started b.
Proof. apply omap_app. Qed.

Section core.
Context (maxConcurrent maxQueued maxQueuedBytes : Z).

(** Everything but the fact that work only waits while all slots are taken,
    which [settle] breaks until [pump] has run. *)
Record core_ok (h : wgate * list gout) : Prop := {
  ck_active : wg_active h.1 = Z.of_nat (length (wg_running h.1));
  ck_activeBytes : wg_activeBytes h.1 = sumZ k_bytes (wg_running h.1);
  ck_max : wg_active h.1 <= maxConcurrent;
  ck_queue : Z.of_nat (length (wg_queue h.1)) <= maxQueued;
  ck_queuedBytes : wg_queuedBytes h.1 = sumZ k_bytes (wg_queue h.1);
  ck_cap : wg_queuedBytes h.1 <= maxQueuedBytes;
  ck_bytes : ∀ w, w ∈ wg_queue h.1 ++ wg_running h.1 → 0 <= k_bytes w;
  ck_closed : wg_closed h.1 = true → wg_queue h.1 = [];
  ck_order : ascending (started h.2 ++ (k_id <$> wg_queue h.1));
  ck_fresh : ∀ i, i ∈ started h.2 ++ (k_id <$> wg_queue h.1) → (i < wg_next h.1)%nat;
  ck_running : NoDup (k_id <$> wg_running h.1) ∧
               ∀ i, i ∈ k_id <$> wg_running h.1 → i ∈ started h.2;
  ck_timers : ∀ i, i ∈ wg_timers h.1 → i ∈ k_id <$> wg_running h.1;
}.

Definition busy (g : wgate) : Prop := wg_queue g ≠ [] → wg_active g = maxConcurrent.

Definition gate_inv (h : wgate * list gout) : Prop := core_ok h ∧ busy h.1.

Lemma core_quiet g out o :
  core_ok (g, out) → started o = [] → core_ok (g, out ++ o).
Proof.
  intros [H1 H2 H3 H4 H5 H6 H7 H8 H9 H10 H11 H12] Ho; split; simpl in *; auto;
    rewrite started_app, Ho, app_nil_r; auto.
Qed.

Lemma core_counters g out a b c :
  core_ok (g, out) → core_ok (set_counters a b c g, out).
Proof. intros [H1 H2 H3 H4 H5 H6 H7 H8 H9 H10 H11 H12]; by split. Qed.

Lemma core_next g out : core_ok (g, out) → core_ok (next_work g, out).
Proof.
  intros [H1 H2 H3 H4 H5 H6 H7 H8 H9 H10 H11 H12]; split; simpl in *; auto.
  intros i Hi. specialize (H10 i Hi). lia.
Qed.

Lemma core_timer g out id :
  core_ok (g, out) → core_ok ((fire_timer id g).1, out ++ (fire_timer id g).2).
Proof.
  intros Hc. unfold fire_timer. case_bool_decide; simpl; [|by rewrite app_nil_r].
  apply core_quiet; [|done].
  destruct Hc as [H1 H2 H3 H4 H5 H6 H7 H8 H9 H10 H11 H12]; split; simpl in *; auto.
  intros i [_ Hi]%list_elem_of_filter. auto.
Qed.

(** Starting work that is older than everything queued. *)
Lemma core_start g out w :
  core_ok (g, out) → wg_active g < maxConcurrent → 0 <= k_bytes w →
  ascending (started out ++ k_id w :: (k_id <$> wg_queue g)) → (k_id w < wg_next g)%nat →
  core_ok (start_work w g, out ++ [GStart (k_id w)]).
Proof.
  intros [H1 H2 H3 H4 H5 H6 H7 H8 H9 H10 [H11 H11'] H12] Hlt Hb Hord Hnext; simpl in *.
  assert (Hno : k_id w ∉ started out).
  { apply ascending_NoDup, NoDup_app in Hord as (_ & Hd & _). intros Hin.
    apply (Hd _ Hin). left. }
  split; simpl; rewrite ?length_app, ?sumZ_app, ?started_app, ?fmap_app; simpl; auto; try lia.
  - intros v. rewrite !elem_of_app, list_elem_of_singleton.
    intros [Hv|[Hv| ->]]; [apply H7, elem_of_app; by left|apply H7, elem_of_app; by right|done].
  - by rewrite <- app_assoc.
  - intros i. rewrite !elem_of_app, list_elem_of_singleton. intros [[Hi| ->]|Hi]; [|done|];
      apply H10, elem_of_app; auto.
  - split.
    + apply NoDup_app. split; [done|]. split; [|apply NoDup_singleton].
      intros i Hi ->%list_elem_of_singleton. by apply Hno, H11'.
    + intros i. rewrite !elem_of_app, list_elem_of_singleton. intros [Hi| ->]; auto.
  - intros i. rewrite !elem_of_app, list_elem_of_singleton. intros [Hi| ->]; auto.
Qed.

Lemma core_start_new g out w :
  core_ok (g, out) → wg_queue g = [] → wg_active g < maxConcurrent → 0 <= k_bytes w →
  k_id w = wg_next g →
  core_ok (start_work w (next_work g), out ++ [GStart (k_id w)]).
Proof.
  intros Hc Hq Hlt Hb Hid. pose proof (ck_order _ Hc) as Ho. pose proof (ck_fresh _ Hc) as Hf.
  simpl in *. apply core_start; simpl; [by apply core_next|done|done| |lia].
  rewrite Hq in *. simpl in *. rewrite app_nil_r in *. apply ascending_snoc. split; [done|].
  rewrite Hid. auto.
Qed.

Lemma core_enqueue g out w :
  core_ok (g, out) → wg_closed g = false → 0 <= k_bytes w → k_id w = wg_next g →
  Z.of_nat (length (wg_queue g)) < maxQueued →
  wg_queuedBytes g + k_bytes w <= maxQueuedBytes →
  core_ok (set_queue (wg_queue g ++ [w]) (wg_queuedBytes g + k_bytes w) (next_work g), out).
Proof.
  intros [H1 H2 H3 H4 H5 H6 H7 H8 H9 H10 H11 H12] Hcl Hb Hid Hlen Hcap; simpl in *.
  split; simpl; rewrite ?length_app, ?sumZ_app, ?fmap_app, ?app_assoc; simpl; auto; try lia.
  - intros v. rewrite !elem_of_app, list_elem_of_singleton.
    intros [[Hv| ->]|Hv]; [apply H7, elem_of_app; by left|done|apply H7, elem_of_app; by right].
  - by rewrite Hcl.
  - apply ascending_snoc. split; [done|]. rewrite Hid. auto.
  - intros i. rewrite elem_of_app, list_elem_of_singleton. intros [Hi| ->]; [|lia].
    specialize (H10 i Hi). lia.
Qed.

(** Taking the head of the queue. *)
Lemma core_shift g out w q :
  core_ok (g, out) → wg_queue g = w :: q →
  core_ok (set_queue q (wg_queuedBytes g - k_bytes w) g, out) ∧ 0 <= k_bytes w ∧
  ascending (started out ++ k_id w :: (k_id <$> q)) ∧ (k_id w < wg_next g)%nat.
Proof.
  intros [H1 H2 H3 H4 H5 H6 H7 H8 H9 H10 H11 H12] Hq; simpl in *. rewrite Hq in *.
  rewrite sumZ_cons in H5. simpl in *.
  assert (0 <= k_bytes w) by (apply H7; left).
  assert (Hsub : started out ++ (k_id <$> q) `sublist_of` started out ++ k_id w :: (k_id <$> q))
    by (apply sublist_app; [done|by apply sublist_cons]).
  split; [|split; [done|split; [done|]]].
  - split; simpl; auto; try lia.
    + intros v Hv. apply H7. by right.
    + intros Hcl. by specialize (H8 Hcl).
    + by eapply ascending_sublist.
    + intros i Hi. apply H10. eapply elem_of_submseteq; [exact Hi|]. by apply sublist_submseteq.
  - apply H10, elem_of_app. right. left.
Qed.

Lemma core_queue_NoDup g out : core_ok (g, out) → NoDup (k_id <$> wg_queue g).
Proof.
  intros Hc. pose proof (ascending_NoDup _ (ck_order _ Hc)) as Hn; simpl in Hn.
  by apply NoDup_app in Hn as (_ & _ & ?).
Qed.

(** A waiter that gives up. *)
Lemma core_drop g out id w :
  core_ok (g, out) → find_by k_id id (wg_queue g) = Some w → core_ok (drop_work w g, out).
Proof.
  intros Hc Hf. pose proof (core_queue_NoDup _ _ Hc) as Hnd.
  destruct (find_by_Some _ _ _ _ Hf) as [Hw Hid]. subst id.
  destruct (remove_by_found k_id k_bytes _ _ _ Hnd Hf) as (Hp & Hs & Hlen).
  pose proof (remove_by_ids k_id (k_id w) (wg_queue g)) as Hsub.
  destruct Hc as [H1 H2 H3 H4 H5 H6 H7 H8 H9 H10 H11 H12]; simpl in *.
  assert (0 <= k_bytes w) by (apply H7, elem_of_app; by left).
  split; simpl; auto; try lia.
  - intros v [Hv|Hv]%elem_of_app; apply H7, elem_of_app; [left; rewrite Hp; by right|by right].
  - intros Hcl. rewrite (H8 Hcl) in Hw. by apply not_elem_of_nil in Hw.
  - by eapply ascending_app_sublist.
  - intros i [Hi|Hi]%elem_of_app; apply H10, elem_of_app; [by left|right].
    eapply elem_of_submseteq; [exact Hi|]. by apply sublist_submseteq.
Qed.

Lemma core_finish g out id w :
  core_ok (g, out) → find_by k_id id (wg_running g) = Some w →
  core_ok (finish_work w g, out) ∧ wg_active (finish_work w g) < maxConcurrent.
Proof.
  intros [H1 H2 H3 H4 H5 H6 H7 H8 H9 H10 [H11 H11'] H12] Hf; simpl in *.
  destruct (find_by_Some _ _ _ _ Hf) as [Hw Hid]. subst id.
  destruct (remove_by_found k_id k_bytes _ _ _ H11 Hf) as (Hp & Hs & Hlen).
  pose proof (remove_by_ids k_id (k_id w) (wg_running g)) as Hsub.
  assert (Hin : ∀ i, i ∈ k_id <$> remove_by k_id (k_id w) (wg_running g) →
                     i ∈ k_id <$> wg_running g).
  { intros i Hi. eapply elem_of_submseteq; [exact Hi|]. by apply sublist_submseteq. }
  split; [|lia]. split; simpl; auto; try lia.
  - intros v [Hv|Hv]%elem_of_app; apply H7, elem_of_app; [by left|right; rewrite Hp; by right].
  - split; [|auto]. by eapply sublist_NoDup.
  - intros i [Hne Hi]%list_elem_of_filter. specialize (H12 i Hi).
    apply list_elem_of_fmap in H12 as (v & -> & Hv). apply list_elem_of_fmap. exists v.
    split; [done|]. rewrite Hp in Hv. apply elem_of_cons in Hv as [->|Hv]; [|done].
    by destruct Hne.
Qed.

Lemma started_refusals (q : list work) why : started ((λ w, GRefuse (k_id w) why) <$> q) = [].
Proof. by induction q. Qed.

Lemma core_close g out :
  core_ok (g, out) → 0 <= maxQueued → 0 <= maxQueuedBytes →
  gate_inv ((close_work g).1, out ++ (close_work g).2).
Proof.
  intros Hc Hq Hqb. split; [|by intros []]. apply core_quiet; [|apply started_refusals].
  destruct Hc as [H1 H2 H3 H4 H5 H6 H7 H8 H9 H10 H11 H12]; split; simpl in *; auto.
  - intros v Hv. apply H7, elem_of_app. by right.
  - rewrite app_nil_r. by apply StronglySorted_app in H9 as (_ & ? & _).
  - intros i Hi. apply H10. rewrite app_nil_r in Hi. apply elem_of_app. by left.
Qed.

Lemma core_new : 0 <= maxConcurrent → 0 <= maxQueued → 0 <= maxQueuedBytes → gate_inv (newWorkGate, []).
Proof.
  intros Hc Hq Hb. split; [|by intros []]. split; simpl; try done; try lia.
  - intros w Hw. by apply not_elem_of_nil in Hw.
  - constructor.
  - intros i Hi. by apply not_elem_of_nil in Hi.
  - split; [constructor|done].
Qed.

(** Dropping a waiter keeps the slots taken. *)
Lemma drop_busy w g : busy g → find_by k_id (k_id w) (wg_queue g) = Some w → busy (drop_work w g).
Proof.
  intros Hb Hf _. apply Hb. intros Hq. rewrite Hq in Hf. done.
Qed.
End core.
