(* ===== verification/L2Gate.v ===== *)
(** * The L2 operation gate ([src/src/cache/l2OperationGate.ts])

    The events are a call of [run], the queue timer of a waiter, the operation
    timer of a started call, the settlement of its promise and [close]. *)

From S2P Require Import Prelude Fifo WorkGate.

Record L2GateOptions := {
  lg_maxConcurrent : jsnum;
  lg_maxQueued : jsnum;
  lg_maxQueuedBytes : jsnum;
  lg_queueTimeoutMs : jsnum;
  lg_operationTimeoutMs : jsnum;
}.

(** [defaultL2OperationGateOptions] *)
Definition defaultL2OperationGateOptions (mc mq mqb qt ot : option jsnum) : L2GateOptions :=
  {| lg_maxConcurrent := mc ?? JInt 64; lg_maxQueued := mq ?? JInt 1024;
     lg_maxQueuedBytes := mqb ?? JInt (32 * 1024 * 1024); lg_queueTimeoutMs := qt ?? JInt 250;
     lg_operationTimeoutMs := ot ?? JInt 2000 |}.

Record WorkLimits := { wl_maxConcurrent : Z; wl_maxQueued : Z; wl_maxQueuedBytes : Z }.

(** The constructor's checks; [None] is the [RangeError]. *)
Definition l2GateLimits (o : L2GateOptions) : option WorkLimits :=
  if negb (num_is_safe_integer (lg_maxConcurrent o)) || num_le (lg_maxConcurrent o) (JInt 0)
     || negb (num_is_safe_integer (lg_maxQueued o)) || num_lt (lg_maxQueued o) (JInt 0)
     || negb (num_is_safe_integer (lg_maxQueuedBytes o)) || num_lt (lg_maxQueuedBytes o) (JInt 0)
     || negb (num_is_safe_integer (lg_queueTimeoutMs o)) || num_lt (lg_queueTimeoutMs o) (JInt 0)
     || negb (num_is_safe_integer (lg_operationTimeoutMs o))
     || num_le (lg_operationTimeoutMs o) (JInt 0)
  then None
  else Some {| wl_maxConcurrent := num_floor (lg_maxConcurrent o);
               wl_maxQueued := num_floor (lg_maxQueued o);
               wl_maxQueuedBytes := num_floor (lg_maxQueuedBytes o) |}.

Section l2gate.
Context (lim : WorkLimits).

(** [run]; the payload size is an integer number of bytes or not finite. *)
Definition l2_run (payloadBytes : option Z) (g : wgate) : wgate * list gout :=
  let bytes := Z.max 0 (payloadBytes ?? 0) in
  let id := wg_next g in
  let w := {| k_id := id; k_bytes := bytes; k_deadline := 0 |} in
  if wg_closed g then (next_work g, [GRefuse id GateClosed])
  else if (wg_active g <? wl_maxConcurrent lim) && bool_decide (wg_queue g = [])
  then (start_work w (next_work g), [GStart id])
  else if (wl_maxQueued lim <=? Z.of_nat (length (wg_queue g)))
          || (wl_maxQueuedBytes lim <? wg_queuedBytes g + bytes)
  then (count_refused (next_work g), [GRefuse id QueueFull])
  else (set_queue (wg_queue g ++ [w]) (wg_queuedBytes g + bytes) (next_work g), []).

(** The queue timer of a waiter. *)
Definition l2_expire (id : nat) (g : wgate) : wgate * list gout :=
  match find_by k_id id (wg_queue g) with
  | Some w => (count_expired (drop_work w g), [GRefuse id QueueExpired])
  | None => (g, [])
  end.

Definition l2_pump (g : wgate) : wgate * list gout :=
  if wg_closed g || (wl_maxConcurrent lim <=? wg_active g) then (g, [])
  else match wg_queue g with
       | [] => (g, [])
       | w :: q =>
           (start_work w (set_queue q (wg_queuedBytes g - k_bytes w) g), [GStart (k_id w)])
       end.

(** The promise of a started call settles. *)
Definition l2_settle (id : nat) (g : wgate) : wgate * list gout :=
  match find_by k_id id (wg_running g) with
  | Some w => l2_pump (finish_work w g)
  | None => (g, [])
  end.

Inductive l2_event :=
| L2Run (payloadBytes : option Z)
| L2Expire (id : nat)
| L2Timer (id : nat)
| L2Settle (id : nat)
| L2Close.

Definition l2_event_step (g : wgate) (e : l2_event) : wgate * list gout :=
  match e with
  | L2Run b => l2_run b g
  | L2Expire id => l2_expire id g
  | L2Timer id => fire_timer id g
  | L2Settle id => l2_settle id g
  | L2Close => close_work g
  end.

Definition l2_step (h : wgate * list gout) (e : l2_event) : wgate * list gout :=
  let '(g', o) := l2_event_step h.1 e in (g', h.2 ++ o).

Hypothesis lim_ok :
  0 < wl_maxConcurrent lim ∧ 0 <= wl_maxQueued lim ∧ 0 <= wl_maxQueuedBytes lim.

Abbreviation inv := (gate_inv (wl_maxConcurrent lim) (wl_maxQueued lim) (wl_maxQueuedBytes lim)).

Lemma l2_run_inv b g out : inv (g, out) → inv ((l2_run b g).1, out ++ (l2_run b g).2).
Proof.
  intros [Hc Hb]. unfold l2_run. destruct (wg_closed g) eqn:Hcl.
  { split; [|done]. by apply core_quiet; [apply core_next|]. }
  destruct ((wg_active g <? _) && _) eqn:Hs; bools.
  { split; [|intros Hq; simpl in Hq; by rewrite H0 in Hq].
    apply (core_start_new _ _ _ g out {| k_id := wg_next g; k_bytes := _; k_deadline := 0 |});
      simpl; try done; lia. }
  destruct (_ || _) eqn:Hf; bools.
  { split; [|done]. apply core_quiet; [|done]. by apply core_counters, core_next. }
  assert (Hfull : wg_active g = wl_maxConcurrent lim).
  { apply andb_false_iff in Hs as [Hs|Hs]; bools; [|by apply Hb].
    pose proof (ck_max _ _ _ _ Hc). simpl in *. lia. }
  split; [|by intros _]. rewrite app_nil_r.
  apply (core_enqueue _ _ _ g out {| k_id := wg_next g; k_bytes := _; k_deadline := 0 |});
    simpl; try done; lia.
Qed.

Lemma l2_expire_inv id g out : inv (g, out) → inv ((l2_expire id g).1, out ++ (l2_expire id g).2).
Proof.
  intros [Hc Hb]. unfold l2_expire. destruct (find_by _ _ _) as [w|] eqn:Hf; simpl;
    [|by rewrite app_nil_r].
  destruct (find_by_Some _ _ _ _ Hf) as [_ Hid]. split.
  - apply core_quiet; [|done]. apply core_counters. by eapply core_drop.
  - simpl. rewrite <- Hid in Hf. by apply (drop_busy _ w g).
Qed.

Lemma l2_pump_inv g out :
  core_ok (wl_maxConcurrent lim) (wl_maxQueued lim) (wl_maxQueuedBytes lim) (g, out) →
  (wg_queue g ≠ [] → wl_maxConcurrent lim - 1 <= wg_active g) →
  inv ((l2_pump g).1, out ++ (l2_pump g).2).
Proof.
  intros Hc Hnear. unfold l2_pump. pose proof (ck_max _ _ _ _ Hc) as Hmax; simpl in Hmax.
  destruct (wg_closed g) eqn:Hcl; simpl.
  { rewrite app_nil_r. split; [done|]. intros Hq. exfalso. by apply Hq, (ck_closed _ _ _ _ Hc). }
  destruct (_ <=? _) eqn:Hs; bools; simpl; [rewrite app_nil_r; split; [done|intros _; simpl; lia]|].
  destruct (wg_queue g) as [|w q] eqn:Hq; simpl;
    [rewrite app_nil_r; split; [done|]; intros Hn; simpl in Hn; by rewrite Hq in Hn|].
  destruct (core_shift _ _ _ _ _ _ _ Hc Hq) as (Hc' & Hb & Ho & Hn).
  specialize (Hnear ltac:(done)).
  split; [|simpl; intros _; simpl; lia]. by apply core_start.
Qed.

Lemma l2_settle_inv id g out : inv (g, out) → inv ((l2_settle id g).1, out ++ (l2_settle id g).2).
Proof.
  intros [Hc Hb]. unfold l2_settle. destruct (find_by _ _ _) as [w|] eqn:Hf; simpl;
    [|by rewrite app_nil_r].
  destruct (core_finish _ _ _ _ _ _ _ Hc Hf) as [Hc' Hlt]. apply l2_pump_inv; [done|].
  simpl. intros Hq. specialize (Hb Hq). simpl in Hb. lia.
Qed.

Lemma l2_step_inv h e : inv h → inv (l2_step h e).
Proof.
  destruct h as [g out]. intros Hi. unfold l2_step; simpl.
  destruct e as [b|id|id|id|]; simpl.
  - pose proof (l2_run_inv b g out Hi). by destruct (l2_run b g).
  - pose proof (l2_expire_inv id g out Hi). by destruct (l2_expire id g).
  - destruct Hi as [Hc Hb]. pose proof (core_timer _ _ _ g out id Hc) as Ht.
    unfold fire_timer in *. case_bool_decide; simpl in *; by split.
  - pose proof (l2_settle_inv id g out Hi). by destruct (l2_settle id g).
  - destruct Hi as [Hc _]. apply (core_close _ _ _ g out Hc); lia.
Qed.

(** over every history of calls, timers, settlements and [close], the L2
    gate runs at most [maxConcurrent] operations at a time, counting the ones
    whose caller already timed out until their promise settles; its byte
    counters are exactly the bytes of the running and of the queued work; the
    queue stays within its two bounds, is served first-in first-out, and is
    non-empty only while every slot is taken. *)
Theorem l2_gate_bounded h :
  reachable l2_step (newWorkGate, []) h →
  wg_active h.1 = Z.of_nat (length (wg_running h.1)) ∧
  wg_active h.1 <= wl_maxConcurrent lim ∧
  wg_activeBytes h.1 = sumZ k_bytes (wg_running h.1) ∧
  wg_queuedBytes h.1 = sumZ k_bytes (wg_queue h.1) ∧
  wg_queuedBytes h.1 <= wl_maxQueuedBytes lim ∧
  Z.of_nat (length (wg_queue h.1)) <= wl_maxQueued lim ∧
  (wg_queue h.1 ≠ [] → wg_active h.1 = wl_maxConcurrent lim) ∧
  ascending (started h.2 ++ (k_id <$> wg_queue h.1)).
Proof.
  intros Hr. assert (Hi : inv h).
  { revert h Hr. apply reachable_invariant; [apply core_new; lia|]. apply l2_step_inv. }
  destruct Hi as [[H1 H2 H3 H4 H5 H6 _ _ H9 _ _ _] Hb]. unfold busy in Hb. tauto.
Qed.
End l2gate.

(** ** Witness *)

Definition demo_work_limits : WorkLimits :=
  {| wl_maxConcurrent := 1; wl_maxQueued := 2; wl_maxQueuedBytes := 100 |}.

Lemma l2_gate_bounded_witness :
  let h := run_events (l2_step demo_work_limits) (newWorkGate, [])
             [L2Run (Some 10); L2Run (Some 20); L2Timer 0; L2Run None; L2Run (Some 5); L2Settle 0] in
  h.2 = [GStart 0; GTimeout 0; GRefuse 3 QueueFull; GStart 1] ∧
  wg_active h.1 <= wl_maxConcurrent demo_work_limits.
Proof.
  split; [vm_compute; reflexivity|].
  destruct (l2_gate_bounded demo_work_limits ltac:(vm_compute; repeat split; discriminate)
    (run_events (l2_step demo_work_limits) (newWorkGate, [])
      [L2Run (Some 10); L2Run (Some 20); L2Timer 0; L2Run None; L2Run (Some 5); L2Settle 0])
    ltac:(apply reachable_run)) as (_ & H & _). exact H.
Defined.
