(* ===== verification/TxGate.v ===== *)
(** * The transaction gate ([BoundedOperationGate], [src/src/transactions/
    redisTransport.ts], lines 220 to 436)

    Like the L2 gate, with a deadline per call, cancellation of queued calls
    and a [pump] that skips calls whose deadline has passed. [now] is the
    monotonic clock at the event, in ticks of its resolution; sizes are the
    integers [bytesFor] computes. *)

From S2P Require Import Prelude Fifo TxKeys WorkGate.

Definition DEFAULT_OPERATION_MAX_CONCURRENT : Z := 64.
Definition DEFAULT_OPERATION_MAX_QUEUED : Z := 1024.
Definition DEFAULT_OPERATION_MAX_QUEUED_BYTES : Z := 4 * 1024 * 1024.
Definition DEFAULT_OPERATION_QUEUE_TIMEOUT_MS : Z := 250.
Definition DEFAULT_GATE_TIMEOUT_MS : Z := 2000.

Record BoundedGateOptions := {
  bgo_maxConcurrent : option jsnum;
  bgo_maxQueued : option jsnum;
  bgo_maxQueuedBytes : option jsnum;
  bgo_queueTimeoutMs : option jsnum;
  bgo_operationTimeoutMs : option jsnum;
}.

Record TxLimits := {
  tl_maxConcurrent : Z;
  tl_maxQueued : Z;
  tl_maxQueuedBytes : Z;
  tl_queueTimeoutMs : Z;
  tl_operationTimeoutMs : Z;
}.

(** [positiveInteger(name, value, allowZero)] *)
Definition gateInteger (allowZero : bool) (value : jsnum) : checked Z :=
  if negb (num_is_safe_integer value)
     || (if allowZero then num_lt value (JInt 0) else num_le value (JInt 0))
  then Throw OperationConfigurationError else Ok (num_floor value).

(** The constructor; [defaultOperationGateOptions] fills in the same values. *)
Definition newTxGate (o : BoundedGateOptions) : checked TxLimits :=
  mc <~ gateInteger false (bgo_maxConcurrent o ?? JInt DEFAULT_OPERATION_MAX_CONCURRENT) ;;
  mq <~ gateInteger true (bgo_maxQueued o ?? JInt DEFAULT_OPERATION_MAX_QUEUED) ;;
  mb <~ gateInteger true (bgo_maxQueuedBytes o ?? JInt DEFAULT_OPERATION_MAX_QUEUED_BYTES) ;;
  qt <~ gateInteger true (bgo_queueTimeoutMs o ?? JInt DEFAULT_OPERATION_QUEUE_TIMEOUT_MS) ;;
  ot <~ gateInteger false (bgo_operationTimeoutMs o ?? JInt DEFAULT_GATE_TIMEOUT_MS) ;;
  Ok {| tl_maxConcurrent := mc; tl_maxQueued := mq; tl_maxQueuedBytes := mb;
        tl_queueTimeoutMs := qt; tl_operationTimeoutMs := ot |}.

Section txgate.
Context (lim : TxLimits).

(** [run]; [None] for the deadline takes the operation timeout. *)
Definition tx_run (bytes : Z) (deadline : option Z) (now : Z) (aborted : bool) (g : wgate)
    : wgate * list gout :=
  let id := wg_next g in
  if wg_closed g then (next_work g, [GRefuse id GateClosed])
  else if (bytes <? 0) || negb (safe_int bytes) then (next_work g, [GRefuse id BadRequest])
  else
    let dl := deadline ?? now + tl_operationTimeoutMs lim in
    let w := {| k_id := id; k_bytes := bytes; k_deadline := dl |} in
    if dl <=? now then (next_work g, [GRefuse id DeadlineElapsed])
    else if (wg_active g <? tl_maxConcurrent lim) && bool_decide (wg_queue g = [])
    then (start_work w (next_work g), [GStart id])
    else if (tl_maxQueued lim <=? Z.of_nat (length (wg_queue g)))
            || (tl_maxQueuedBytes lim <? wg_queuedBytes g + bytes)
    then (count_refused (next_work g), [GRefuse id QueueFull])
    else if aborted then (next_work g, [GRefuse id Cancelled])
    else (set_queue (wg_queue g ++ [w]) (wg_queuedBytes g + bytes) (next_work g), []).

(** How long a queued call may wait. *)
Definition waitMs (deadline now : Z) : Z := Z.max 1 (Z.min (tl_queueTimeoutMs lim) (deadline - now)).

(** [expire] *)
Definition tx_expire (id : nat) (g : wgate) : wgate * list gout :=
  match find_by k_id id (wg_queue g) with
  | Some w => (count_expired (drop_work w g), [GRefuse id QueueExpired])
  | None => (g, [])
  end.

(** The abort listener of a queued call. *)
Definition tx_abort (id : nat) (g : wgate) : wgate * list gout :=
  match find_by k_id id (wg_queue g) with
  | Some w => (drop_work w g, [GRefuse id Cancelled])
  | None => (g, [])
  end.

(** The loop of [pump]: each turn takes the head of the queue, so the queue
    itself bounds the turns. *)
Fixpoint pump_loop (now : Z) (q : list work) (g : wgate) : wgate * list gout :=
  if tl_maxConcurrent lim <=? wg_active g then (g, [])
  else match q with
       | [] => (g, [])
       | w :: q' =>
           let g1 := set_queue q' (wg_queuedBytes g - k_bytes w) g in
           if k_deadline w <=? now then
             let '(g2, o) := pump_loop now q' (count_expired g1) in
             (g2, GRefuse (k_id w) DeadlineElapsed :: o)
           else
             let '(g2, o) := pump_loop now q' (start_work w g1) in
             (g2, GStart (k_id w) :: o)
       end.

Definition tx_pump (now : Z) (g : wgate) : wgate * list gout :=
  if wg_closed g then (g, []) else pump_loop now (wg_queue g) g.

Definition tx_settle (id : nat) (now : Z) (g : wgate) : wgate * list gout :=
  match find_by k_id id (wg_running g) with
  | Some w => tx_pump now (finish_work w g)
  | None => (g, [])
  end.

(** [close]: a second call does nothing. *)
Definition tx_close (g : wgate) : wgate * list gout :=
  if wg_closed g then (g, []) else close_work g.

Inductive tx_event :=
| TxRun (bytes : Z) (deadline : option Z) (now : Z) (aborted : bool)
| TxExpire (id : nat)
| TxAbort (id : nat)
| TxTimer (id : nat)
| TxSettle (id : nat) (now : Z)
| TxClose.

Definition tx_event_step (g : wgate) (e : tx_event) : wgate * list gout :=
  match e with
  | TxRun b d n a => tx_run b d n a g
  | TxExpire id => tx_expire id g
  | TxAbort id => tx_abort id g
  | TxTimer id => fire_timer id g
  | TxSettle id n => tx_settle id n g
  | TxClose => tx_close g
  end.

Definition tx_step (h : wgate * list gout) (e : tx_event) : wgate * list gout :=
  let '(g', o) := tx_event_step h.1 e in (g', h.2 ++ o).

Hypothesis lim_ok :
  0 < tl_maxConcurrent lim ∧ 0 <= tl_maxQueued lim ∧ 0 <= tl_maxQueuedBytes lim.

Abbreviation core := (core_ok (tl_maxConcurrent lim) (tl_maxQueued lim) (tl_maxQueuedBytes lim)).
Abbreviation inv := (gate_inv (tl_maxConcurrent lim) (tl_maxQueued lim) (tl_maxQueuedBytes lim)).

Lemma tx_quiet g out o : inv (g, out) → started o = [] → inv (g, out ++ o).
Proof. intros [Hc Hb] Ho. split; [by apply core_quiet|done]. Qed.

Lemma tx_next g out : inv (g, out) → inv (next_work g, out).
Proof. intros [Hc Hb]. split; [by apply core_next|done]. Qed.

Lemma tx_run_inv b d n a g out :
  inv (g, out) → inv ((tx_run b d n a g).1, out ++ (tx_run b d n a g).2).
Proof.
  intros Hi. pose proof Hi as [Hc Hb]. unfold tx_run. destruct (wg_closed g) eqn:Hcl.
  { by apply tx_quiet; [apply tx_next|]. }
  destruct (_ || negb _) eqn:Hbytes; [by apply tx_quiet; [apply tx_next|]|]. bools.
  destruct (_ <=? n); [by apply tx_quiet; [apply tx_next|]|].
  destruct ((wg_active g <? _) && _) eqn:Hs; bools.
  { split; [|intros Hq; simpl in Hq; congruence].
    apply (core_start_new _ _ _ g out {| k_id := wg_next g; k_bytes := b; k_deadline := _ |});
      simpl; try done; lia. }
  destruct (_ || (_ <? _)) eqn:Hf; bools.
  { split; [|done]. apply core_quiet; [|done]. by apply core_counters, core_next. }
  destruct a; [by apply tx_quiet; [apply tx_next|]|].
  assert (Hfull : wg_active g = tl_maxConcurrent lim).
  { apply andb_false_iff in Hs as [Hs|Hs]; bools; [|by apply Hb].
    pose proof (ck_max _ _ _ _ Hc). simpl in *. lia. }
  split; [|by intros _]. rewrite app_nil_r.
  apply (core_enqueue _ _ _ g out {| k_id := wg_next g; k_bytes := b; k_deadline := _ |});
    simpl; try done; lia.
Qed.

Lemma tx_leave_inv id w g out :
  inv (g, out) → find_by k_id id (wg_queue g) = Some w → inv (drop_work w g, out).
Proof.
  intros [Hc Hb] Hf. destruct (find_by_Some _ _ _ _ Hf) as [_ Hid]. split; [by eapply core_drop|].
  rewrite <- Hid in Hf. by apply (drop_busy _ w g).
Qed.

Lemma pump_loop_inv now q :
  ∀ g out, wg_queue g = q → wg_closed g = false → core (g, out) →
  inv ((pump_loop now q g).1, out ++ (pump_loop now q g).2).
Proof.
  induction q as [|w q IH]; intros g out Hq Hcl Hc; simpl.
  - destruct (_ <=? _); simpl; rewrite app_nil_r; (split; [done|]); intros Hn; simpl in Hn;
      by rewrite Hq in Hn.
  - pose proof (ck_max _ _ _ _ Hc) as Hmax; simpl in Hmax.
    destruct (_ <=? _) eqn:Hs; bools; simpl.
    { rewrite app_nil_r. split; [done|]. intros _. simpl. lia. }
    destruct (core_shift _ _ _ _ _ _ _ Hc Hq) as (Hc' & Hb & Ho & Hn).
    destruct (k_deadline w <=? now).
    + specialize (IH (count_expired (set_queue q (wg_queuedBytes g - k_bytes w) g))
        (out ++ [GRefuse (k_id w) DeadlineElapsed])).
      destruct (pump_loop now q _) as [g2 o]; simpl in *. rewrite <- app_assoc in IH.
      apply IH; [done|done|]. apply core_quiet; [|done]. by apply core_counters.
    + specialize (IH (start_work w (set_queue q (wg_queuedBytes g - k_bytes w) g))
        (out ++ [GStart (k_id w)])).
      destruct (pump_loop now q _) as [g2 o]; simpl in *. rewrite <- app_assoc in IH.
      apply IH; [done|done|]. by apply core_start.
Qed.

Lemma tx_settle_inv id now g out :
  inv (g, out) → inv ((tx_settle id now g).1, out ++ (tx_settle id now g).2).
Proof.
  intros [Hc Hb]. unfold tx_settle. destruct (find_by _ _ _) as [w|] eqn:Hf; simpl;
    [|by rewrite app_nil_r].
  destruct (core_finish _ _ _ _ _ _ _ Hc Hf) as [Hc' Hlt]. unfold tx_pump.
  destruct (wg_closed (finish_work w g)) eqn:Hcl; [|by apply pump_loop_inv].
  rewrite app_nil_r. split; [done|]. intros Hq. exfalso. by apply Hq, (ck_closed _ _ _ _ Hc').
Qed.

Lemma tx_step_inv h e : inv h → inv (tx_step h e).
Proof.
  destruct h as [g out]. intros Hi. unfold tx_step; simpl.
  destruct e as [b d n a|id|id|id|id n|]; simpl.
  - pose proof (tx_run_inv b d n a g out Hi). by destruct (tx_run b d n a g).
  - unfold tx_expire. destruct (find_by _ _ _) as [w|] eqn:Hf; [|by rewrite app_nil_r].
    apply tx_quiet; [|done]. destruct (tx_leave_inv _ _ _ _ Hi Hf) as [Hc Hb].
    split; [by apply core_counters|done].
  - unfold tx_abort. destruct (find_by _ _ _) as [w|] eqn:Hf; [|by rewrite app_nil_r].
    apply tx_quiet; [|done]. by eapply tx_leave_inv.
  - destruct Hi as [Hc Hb]. pose proof (core_timer _ _ _ g out id Hc) as Ht.
    unfold fire_timer in *. case_bool_decide; simpl in *; by split.
  - pose proof (tx_settle_inv id n g out Hi). by destruct (tx_settle id n g).
  - unfold tx_close. destruct (wg_closed g); [by rewrite app_nil_r|].
    destruct Hi as [Hc _]. apply (core_close _ _ _ g out Hc); lia.
Qed.

Lemma tx_reachable_inv h : reachable tx_step (newWorkGate, []) h → inv h.
Proof. revert h. apply reachable_invariant; [apply core_new; lia|]. apply tx_step_inv. Qed.

(** over every history of calls, cancellations, timers, settlements and
    [close], the transaction gate never runs more than [maxConcurrent]
    commands, a timed-out command keeping its slot until Redis settles it;
    its counters are the exact bytes of the running and the queued commands;
    the queue respects both bounds, is started in arrival order without
    overtaking, and a closed gate has an empty queue. *)
Theorem tx_gate_bounded h :
  reachable tx_step (newWorkGate, []) h →
  wg_active h.1 = Z.of_nat (length (wg_running h.1)) ∧
  wg_active h.1 <= tl_maxConcurrent lim ∧
  wg_activeBytes h.1 = sumZ k_bytes (wg_running h.1) ∧
  wg_queuedBytes h.1 = sumZ k_bytes (wg_queue h.1) ∧
  wg_queuedBytes h.1 <= tl_maxQueuedBytes lim ∧
  Z.of_nat (length (wg_queue h.1)) <= tl_maxQueued lim ∧
  (wg_queue h.1 ≠ [] → wg_active h.1 = tl_maxConcurrent lim) ∧
  (wg_closed h.1 = true → wg_queue h.1 = []) ∧
  ascending (started h.2 ++ (k_id <$> wg_queue h.1)).
Proof.
  intros Hr. destruct (tx_reachable_inv h Hr) as [[H1 H2 H3 H4 H5 H6 _ H8 H9 _ _ _] Hb].
  unfold busy in Hb. tauto.
Qed.

(** A command may only start before its deadline: nothing that is out of time
    reaches the transport. *)
Lemma pump_loop_deadline now q :
  ∀ g id, GStart id ∈ (pump_loop now q g).2 →
  ∃ w, w ∈ q ∧ k_id w = id ∧ now < k_deadline w.
Proof.
  induction q as [|w q IH]; intros g id Hin; simpl in Hin.
  - destruct (_ <=? _); by apply not_elem_of_nil in Hin.
  - destruct (_ <=? wg_active g); [by apply not_elem_of_nil in Hin|].
    destruct (k_deadline w <=? now) eqn:Hd; bools.
    + destruct (pump_loop now q _) as [g2 o] eqn:Hp. apply elem_of_cons in Hin as [?|Hin]; [done|].
      apply (f_equal snd) in Hp; simpl in Hp; subst o.
      apply IH in Hin as (v & Hv & Hr). exists v. split; [by right|done].
    + destruct (pump_loop now q _) as [g2 o] eqn:Hp. apply elem_of_cons in Hin as [[= ->]|Hin].
      * exists w. split; [left|]. split; [done|lia].
      * apply (f_equal snd) in Hp; simpl in Hp; subst o.
      apply IH in Hin as (v & Hv & Hr). exists v. split; [by right|done].
Qed.

Lemma pump_loop_refuses now q :
  ∀ g i why, GRefuse i why ∈ (pump_loop now q g).2 →
  why = DeadlineElapsed ∧ ∃ w, w ∈ q ∧ k_id w = i ∧ k_deadline w <= now.
Proof.
  induction q as [|w q IH]; intros g0 i why Hin; simpl in Hin.
  - destruct (_ <=? _); by apply not_elem_of_nil in Hin.
  - destruct (_ <=? wg_active g0); [by apply not_elem_of_nil in Hin|].
    destruct (k_deadline w <=? now) eqn:Hd; bools;
      destruct (pump_loop now q _) as [g2 o] eqn:Hp; apply elem_of_cons in Hin as [Heq|Hin];
      try (apply (f_equal snd) in Hp; simpl in Hp; subst o; apply IH in Hin as (-> & v & Hv & Hr);
           split; [done|]; exists v; split; [by right|done]).
    + injection Heq as -> ->. split; [done|]. exists w. split; [left|done].
    + done.
Qed.

(** after a settlement the pump leaves no usable slot idle: either every
    slot is taken or nothing waits; whatever it starts had time left, and
    whatever it drops had none. *)
Theorem tx_settle_progress id now h g' o :
  reachable tx_step (newWorkGate, []) h → wg_closed h.1 = false → tx_settle id now h.1 = (g', o) →
  (wg_queue g' = [] ∨ wg_active g' = tl_maxConcurrent lim) ∧
  (∀ i, GStart i ∈ o → ∃ w, w ∈ wg_queue h.1 ∧ k_id w = i ∧ now < k_deadline w) ∧
  (∀ i why, GRefuse i why ∈ o →
     why = DeadlineElapsed ∧ ∃ w, w ∈ wg_queue h.1 ∧ k_id w = i ∧ k_deadline w <= now).
Proof.
  destruct h as [g out]. intros Hi%tx_reachable_inv Hcl E. simpl in Hcl, E.
  pose proof (tx_settle_inv id now g out Hi) as Hi'. rewrite E in Hi'. simpl in Hi'. revert E.
  unfold tx_settle. destruct (find_by _ _ _) as [w|] eqn:Hf.
  - unfold tx_pump. change (wg_closed (finish_work w g)) with (wg_closed g).
    rewrite Hcl. pose proof (pump_loop_deadline now (wg_queue g) (finish_work w g)) as Hst.
    pose proof (pump_loop_refuses now (wg_queue g) (finish_work w g)) as Hre.
    change (wg_queue (finish_work w g)) with (wg_queue g) in *.
    intros E. rewrite E in Hst, Hre. simpl in Hst, Hre.
    split; [|split; [exact Hst|exact Hre]]. destruct Hi' as [_ Hb].
    destruct (wg_queue g') eqn:Hq; [by left|right]. apply Hb. simpl. by rewrite Hq.
  - intros [= <- <-]. split; [|split; [intros i Hin|intros i why Hin]; by apply not_elem_of_nil in Hin].
    destruct Hi as [_ Hb]. destruct (wg_queue g) eqn:Hq; [by left|right]. apply Hb. simpl. by rewrite Hq.
Qed.
End txgate.

(** ** Witnesses *)

Definition demo_tx_limits : TxLimits :=
  {| tl_maxConcurrent := 1; tl_maxQueued := 3; tl_maxQueuedBytes := 100;
     tl_queueTimeoutMs := 250; tl_operationTimeoutMs := 2000 |}.

Lemma demo_tx_limits_ok :
  0 < tl_maxConcurrent demo_tx_limits ∧ 0 <= tl_maxQueued demo_tx_limits ∧
  0 <= tl_maxQueuedBytes demo_tx_limits.
Proof. vm_compute. repeat split; discriminate. Qed.

Definition demo_tx_events : list tx_event :=
  [TxRun 10 None 0 false; TxRun 20 (Some 50) 1 false; TxRun 30 (Some 500) 2 false; TxTimer 0].

Lemma tx_gate_bounded_witness :
  let h := run_events (tx_step demo_tx_limits) (newWorkGate, []) (demo_tx_events ++ [TxSettle 0 100]) in
  h.2 = [GStart 0; GTimeout 0; GRefuse 1 DeadlineElapsed; GStart 2] ∧
  wg_active h.1 <= tl_maxConcurrent demo_tx_limits.
Proof.
  split; [vm_compute; reflexivity|].
  destruct (tx_gate_bounded demo_tx_limits demo_tx_limits_ok
    (run_events (tx_step demo_tx_limits) (newWorkGate, []) (demo_tx_events ++ [TxSettle 0 100]))
    ltac:(apply reachable_run)) as (_ & H & _). exact H.
Defined.

Definition demo_tx : wgate * list gout :=
  run_events (tx_step demo_tx_limits) (newWorkGate, []) demo_tx_events.

Lemma tx_settle_progress_witness : ∃ g',
  tx_settle demo_tx_limits 0 100 demo_tx.1 = (g', [GRefuse 1 DeadlineElapsed; GStart 2]) ∧
  (wg_queue g' = [] ∨ wg_active g' = tl_maxConcurrent demo_tx_limits).
Proof.
  eexists. split; [vm_compute; reflexivity|].
  eapply (tx_settle_progress demo_tx_limits demo_tx_limits_ok 0 100 demo_tx).
  - apply reachable_run.
  - vm_compute. reflexivity.
  - vm_compute. reflexivity.
Defined.
