(* ===== verification/TxTransport.v ===== *)
(** * The Redis transport ([src/src/transactions/redisTransport.ts], lines 23
    to 215, and the registration of [scripts.ts])

    The checks that a client is a directly connected primary which neither
    queues nor resends commands, and [execute], whose only retry is the EVAL
    after a NOSCRIPT answer. The client's methods are functions on a state [W]
    of the server. *)

From S2P Require Import Prelude JsValue TxKeys TxStore.

Record ClientOptions := {
  co_enableOfflineQueue : jsval;
  co_autoResendUnfulfilledCommands : jsval;
  co_maxRetriesPerRequest : jsval;
  co_keyPrefix : option jsstring;
  co_readOnly : option bool;
  co_role : option jsstring;
}.

Abbreviation redis_call W := (list jsstring → W → W * checked jsval).

Record RedisClient (W : Type) := {
  rc_status : option jsstring;
  rc_isCluster : option bool;
  rc_role : jsval;
  rc_isReplica : option bool;
  rc_readOnly : option bool;
  rc_options : option ClientOptions;
  rc_defineCommand : bool;
  rc_command : option (redis_call W);
  rc_evalsha : option (redis_call W);
  rc_eval : option (redis_call W);
}.
Arguments rc_status {W}. Arguments rc_isCluster {W}. Arguments rc_role {W}.
Arguments rc_isReplica {W}. Arguments rc_readOnly {W}. Arguments rc_options {W}.
Arguments rc_defineCommand {W}. Arguments rc_command {W}. Arguments rc_evalsha {W}.
Arguments rc_eval {W}.

Record TransportOptions := {
  to_namespace : jsval;
  to_authorityId : jsval;
  to_route : option jsstring;
  to_clusterValidated : option bool;
  to_commandName : option jsstring;
  to_allowUnknownClientOptions : option bool;
}.

Definition config_error {A} : checked A := Throw OperationConfigurationError.

(** [x === true] *)
Definition is_true (b : option bool) : bool := bool_decide (b = Some true).

Definition primary_role (r : jsstring) : bool :=
  bool_decide (r = js "primary") || bool_decide (r = js "master").

Definition is_false_value (v : jsval) : bool := match v with VBool b => negb b | _ => false end.

(** [undefined], [null], not a safe integer, negative or above one. *)
Definition bad_retries (v : jsval) : bool :=
  match v with
  | VNum n => negb (num_is_safe_integer n) || num_lt n (JInt 0) || num_lt (JInt 1) n
  | _ => true
  end.

Definition nonempty (o : option jsstring) : bool :=
  match o with Some (_ :: _) => true | _ => false end.

(** [asClient] (the client is an object) *)
Definition asClient {W : Type} (c : RedisClient W) : checked unit :=
  match rc_evalsha c, rc_eval c, rc_defineCommand c with
  | None, None, false => config_error
  | _, _, _ => Ok tt
  end.

Definition assertPrimary {W : Type} (c : RedisClient W) (o : TransportOptions) : checked unit :=
  if match to_route o with Some r => negb (bool_decide (r = js "primary")) | None => false end
  then config_error
  else if match rc_role c with VStr r => negb (primary_role r) | _ => false end
  then config_error
  else if is_true (rc_isReplica c) || is_true (rc_readOnly c) then config_error
  else
    let clientOptions := rc_options c in
    if match clientOptions with
       | Some co => match co_role co with Some r => negb (primary_role r) | None => false end
       | None => false
       end then config_error
    else if match clientOptions with Some co => is_true (co_readOnly co) | None => false end
    then config_error
    else if match clientOptions with Some co => nonempty (co_keyPrefix co) | None => false end
    then config_error
    else if match clientOptions with
            | None => negb (is_true (to_allowUnknownClientOptions o))
            | Some co =>
                negb (is_false_value (co_enableOfflineQueue co))
                || negb (is_false_value (co_autoResendUnfulfilledCommands co))
                || bad_retries (co_maxRetriesPerRequest co)
            end
    then config_error
    else if is_true (rc_isCluster c) && negb (is_true (to_clusterValidated o))
    then config_error
    else Ok tt.

(** ** Registration of the script *)

(** [/^[A-Za-z][A-Za-z0-9_]*$/] without the leading-digit case *)
Definition validateCommandName (name : jsstring) : checked jsstring :=
  match name with
  | c :: t => if is_alnum c && negb (is_digit c) && forallb word_char t then Ok name
              else Throw OperationInputError
  | [] => Throw OperationInputError
  end.

(** The names registered on this client, and whether [defineCommand] is called. *)
Definition registerOperationScript (names : gset jsstring) (hasDefine : bool) (name : jsstring)
    : checked (gset jsstring * bool) :=
  n <~ validateCommandName name ;;
  if bool_decide (n ∈ names) || negb hasDefine then Ok (names, false)
  else Ok ({[n]} ∪ names, true).

Definition TRANSACTION_SCRIPT_COMMAND : jsstring := js "lltx_operation_v1".

Record OperationTransport := {
  ot_namespace : jsstring;
  ot_authorityId : jsstring;
  ot_commandName : jsstring;
  ot_closed : bool;
}.

(** The constructor; [rc_command] is what the client exposes under the command
    name once [defineCommand] has run. *)
Definition newOperationTransport {W : Type} (names : gset jsstring) (c : RedisClient W)
    (o : TransportOptions) : checked (OperationTransport * gset jsstring) :=
  u <~ asClient c ;;
  namespace <~ validateNamespace (to_namespace o) ;;
  authority <~ validateReference (to_authorityId o) MAX_NAMESPACE_BYTES ;;
  u <~ assertPrimary c o ;;
  let name := to_commandName o ?? TRANSACTION_SCRIPT_COMMAND in
  reg <~ registerOperationScript names (rc_defineCommand c) name ;;
  match rc_evalsha c, rc_eval c, rc_command c with
  | None, None, None => config_error
  | _, _, _ =>
      Ok ({| ot_namespace := namespace; ot_authorityId := authority; ot_commandName := name;
             ot_closed := false |}, reg.1)
  end.

(** ** Dispatch *)

Definition canDispatch {W : Type} (t : OperationTransport) (c : RedisClient W) : bool :=
  if ot_closed t then false
  else match rc_status c with Some s => bool_decide (s = js "ready") | None => true end.

Definition assertDispatchable {W : Type} (t : OperationTransport) (c : RedisClient W) : checked unit :=
  if ot_closed t then Throw OperationUnavailableError
  else if negb (canDispatch t c) then Throw OperationUnavailableError else Ok tt.

(** The method the first attempt uses. *)
Definition first_call {W : Type} (c : RedisClient W) : option (redis_call W) :=
  match rc_command c with
  | Some f => Some f
  | None => match rc_evalsha c with Some f => Some f | None => rc_eval c end
  end.

Definition execute {W : Type} (t : OperationTransport) (c : RedisClient W) (key : jsstring)
    (args : list jsstring) (w : W) : W * checked jsval :=
  match assertDispatchable t c with
  | Throw e => (w, Throw e)
  | Ok _ =>
      let '(w1, r) :=
        match first_call c with
        | Some f => f (key :: args) w
        | None => (w, Throw OperationConfigurationError)
        end in
      match r with
      | Ok v => (w1, Ok v)
      | Throw e =>
          match scriptIsNoScript e, rc_eval c with
          | true, Some ev => ev (key :: args) w1
          | _, _ => (w1, Throw e)
          end
      end
  end.

Definition close_transport (t : OperationTransport) : OperationTransport :=
  {| ot_namespace := ot_namespace t; ot_authorityId := ot_authorityId t;
     ot_commandName := ot_commandName t; ot_closed := true |}.

(** ** Properties *)

(** The client was checked to be an authority. *)
Record safe_primary {W : Type} (c : RedisClient W) (o : TransportOptions) : Prop := {
  sp_route : to_route o = None ∨ to_route o = Some (js "primary");
  sp_replica : rc_isReplica c ≠ Some true ∧ rc_readOnly c ≠ Some true;
  sp_cluster : rc_isCluster c = Some true → to_clusterValidated o = Some true;
  sp_unknown : rc_options c = None → to_allowUnknownClientOptions o = Some true;
  sp_options co :
    rc_options c = Some co →
    co_enableOfflineQueue co = VBool false ∧ co_autoResendUnfulfilledCommands co = VBool false ∧
    (∃ n, co_maxRetriesPerRequest co = VNum n ∧ (num_floor n = 0 ∨ num_floor n = 1)) ∧
    co_readOnly co ≠ Some true ∧ (co_keyPrefix co = None ∨ co_keyPrefix co = Some []);
}.

Lemma is_false_value_eq v : is_false_value v = true → v = VBool false.
Proof. destruct v; simpl; try done. by destruct b. Qed.

Lemma retries_ok v : bad_retries v = false → ∃ n, v = VNum n ∧ (num_floor n = 0 ∨ num_floor n = 1).
Proof.
  destruct v as [| | |n| | | |]; try done. simpl. intros Hb. bools. exists n. split; [done|].
  unfold num_is_safe_integer, num_is_integer in *. destruct n as [q| |]; try done. simpl in *. bools.
  pose proof (Z.div_mod (Qnum q) (Zpos (Qden q))) as Hd.
  assert (Qnum q = Z.pos (Qden q) * (Qnum q / Z.pos (Qden q))) by lia. nia.
Qed.

Lemma assertPrimary_safe {W : Type} (c : RedisClient W) o : assertPrimary c o = Ok tt → safe_primary c o.
Proof.
  unfold assertPrimary, config_error. cbv zeta.
  repeat match goal with
  | |- (if ?b then _ else _) = _ → _ => let E := fresh "E" in destruct b eqn:E; [done|]
  end.
  intros _. unfold is_true in *. bools. split.
  - destruct (to_route o); [right; bools; by subst|by left].
  - done.
  - intros Hc. rewrite Hc, bool_decide_eq_true_2 in E6 by done. simpl in E6. by bools.
  - intros Hn. rewrite Hn in *. by bools.
  - intros co Hco. rewrite Hco in *. unfold is_true in *. bools.
    split; [by apply is_false_value_eq|]. split; [by apply is_false_value_eq|].
    split; [by apply retries_ok|]. split; [done|].
    destruct (co_keyPrefix co) as [[|]|]; [by right|discriminate|by left].
Qed.

Section execute_once.
Context {W : Type} (c : RedisClient W).

(** Redis looks a script up before it runs it: an EVALSHA (or a registered
    command, which is one) answered with NOSCRIPT has not run anything. *)
Definition noscript_pure (f : redis_call W) : Prop :=
  ∀ args w w' e, f args w = (w', Throw e) → scriptIsNoScript e = true → w' = w.

Hypothesis command_pure : ∀ f, first_call c = Some f → noscript_pure f.

(** a transaction command takes effect at most once: whatever happens, the
    server state after [execute] is either untouched or the result of exactly
    one call of one of the client's script methods, whose own answer is the
    one returned; the second attempt is only made after an answer that proves
    the first one did not run. *)
Theorem execute_at_most_once t key args w w' r :
  execute t c key args w = (w', r) →
  (w' = w ∧ ∃ e, r = Throw e) ∨
  ∃ f, (first_call c = Some f ∨ rc_eval c = Some f) ∧ f (key :: args) w = (w', r).
Proof.
  unfold execute. destruct (assertDispatchable t c) as [u|e0]; [|intros [= <- <-]; left; eauto].
  destruct (first_call c) as [f|] eqn:Hf.
  - destruct (f (key :: args) w) as [w1 [v|e]] eqn:Hc.
    + intros [= <- <-]. right. eauto.
    + destruct (scriptIsNoScript e) eqn:Hn; [|intros [= <- <-]; right; eauto].
      destruct (rc_eval c) as [ev|] eqn:He; [|intros [= <- <-]; right; eauto].
      rewrite (command_pure f eq_refl _ _ _ _ Hc Hn). intros Hev. right. eauto.
  - intros [= <- <-]. left. eauto.
Qed.
End execute_once.

(** ** Witness: a server that counts the runs of the script *)

Definition demo_client : RedisClient Z :=
  {| rc_status := Some (js "ready"); rc_isCluster := None; rc_role := VUndef;
     rc_isReplica := None; rc_readOnly := None; rc_options := None; rc_defineCommand := false;
     rc_command := None;
     rc_evalsha := Some (λ _ w, (w, Throw (ClientError (js "NOSCRIPT No matching script") [])));
     rc_eval := Some (λ _ w, (w + 1, Ok (VArr [VStr (js "lost")]))) |}.

Definition demo_transport : OperationTransport :=
  {| ot_namespace := js "prod"; ot_authorityId := js "a"; ot_commandName := js "x"; ot_closed := false |}.

Lemma execute_at_most_once_witness :
  execute demo_transport demo_client (js "k") [] 0 = (1, Ok (VArr [VStr (js "lost")])) ∧
  ((1 = 0 ∧ ∃ e : op_error, Ok (VArr [VStr (js "lost")]) = Throw e) ∨
   ∃ f, (first_call demo_client = Some f ∨ rc_eval demo_client = Some f) ∧
        f [js "k"] 0 = (1, Ok (VArr [VStr (js "lost")]))).
Proof.
  split; [vm_compute; reflexivity|].
  apply (execute_at_most_once demo_client) with (t := demo_transport).
  - intros f Hf args w w' e Hc _. injection Hf as <-. by injection Hc.
  - vm_compute. reflexivity.
Defined.
