(* ===== verification/TxLease.v ===== *)
(** * The lease controller ([maintainOperationLease],
    [src/src/transactions/operationStore.ts], lines 380 to 458)

    The controller as a state machine over its timers, the answers of
    [store.renew], [assertLive] and [stop]. Time is the local monotonic clock.
    [lc_server] is not in the source: it is the instant (on the same clock)
    until which the server really holds the lease, which the answers of the
    server determine and the theorems compare with the local deadline. *)

From S2P Require Import Prelude.

Inductive renewal :=
| RNone
| RArmed
| RInFlight (requestStartedAt : Z).

Record controller := {
  lc_deadline : Z;
  lc_stopped : bool;
  lc_lost : bool;
  lc_renewal : renewal;
  lc_expiryArmed : bool;
  lc_aborts : nat;
  lc_server : Z;
}.

(** [stop]: both timers are cleared; a renewal in flight stays in flight. *)
Definition stop_controller (c : controller) : controller :=
  {| lc_deadline := lc_deadline c; lc_stopped := true; lc_lost := lc_lost c;
     lc_renewal := match lc_renewal c with RArmed => RNone | r => r end;
     lc_expiryArmed := false; lc_aborts := lc_aborts c; lc_server := lc_server c |}.

Definition set_lost (c : controller) : controller :=
  {| lc_deadline := lc_deadline c; lc_stopped := lc_stopped c; lc_lost := true;
     lc_renewal := lc_renewal c; lc_expiryArmed := lc_expiryArmed c;
     lc_aborts := lc_aborts c; lc_server := lc_server c |}.

Definition abort_signal (c : controller) : controller :=
  {| lc_deadline := lc_deadline c; lc_stopped := lc_stopped c; lc_lost := lc_lost c;
     lc_renewal := lc_renewal c; lc_expiryArmed := lc_expiryArmed c;
     lc_aborts := S (lc_aborts c); lc_server := lc_server c |}.

(** [lose] *)
Definition lose (c : controller) : controller :=
  if lc_stopped c || lc_lost c then c else abort_signal (stop_controller (set_lost c)).

(** [schedule] *)
Definition schedule (now : Z) (c : controller) : controller :=
  if lc_stopped c then c
  else if lc_deadline c - now <=? 0 then lose c
  else {| lc_deadline := lc_deadline c; lc_stopped := lc_stopped c; lc_lost := lc_lost c;
          lc_renewal := RArmed; lc_expiryArmed := true; lc_aborts := lc_aborts c;
          lc_server := lc_server c |}.

(** The body up to the return: [remainingMs] is the lease's, [startedAt] the
    instant before the acquisition was sent. *)
Definition newController (startedAt remainingMs now server : Z) : controller :=
  let c := {| lc_deadline := startedAt + Z.max 0 remainingMs; lc_stopped := false;
              lc_lost := false; lc_renewal := RNone; lc_expiryArmed := false; lc_aborts := 0;
              lc_server := server |} in
  if lc_deadline c <=? now then lose c else schedule now c.

(** [assertLive]: the new state and whether it returns normally. *)
Definition assertLive (now : Z) (c : controller) : controller * bool :=
  let c1 := if negb (lc_stopped c) && (lc_deadline c <=? now) then lose c else c in
  (c1, negb (lc_lost c1)).

(** The renewal timer fires. *)
Definition renewal_timer (now : Z) (c : controller) : controller :=
  match lc_renewal c with
  | RArmed =>
      let '(c1, live) := assertLive now c in
      if live then
        {| lc_deadline := lc_deadline c1; lc_stopped := lc_stopped c1; lc_lost := lc_lost c1;
           lc_renewal := RInFlight now; lc_expiryArmed := lc_expiryArmed c1;
           lc_aborts := lc_aborts c1; lc_server := lc_server c1 |}
      else lose c1
  | _ => c
  end.

(** The expiry timer fires. *)
Definition expiry_timer (c : controller) : controller :=
  if lc_expiryArmed c then lose c else c.

(** What [store.renew] answers. *)
Inductive renew_answer := AnswerRenewed (remainingMs : Z) | AnswerOther | AnswerFailed.

Definition clear_flight (server : Z) (c : controller) : controller :=
  {| lc_deadline := lc_deadline c; lc_stopped := lc_stopped c; lc_lost := lc_lost c;
     lc_renewal := RNone; lc_expiryArmed := lc_expiryArmed c; lc_aborts := lc_aborts c;
     lc_server := server |}.

Definition set_deadline (d : Z) (armed : bool) (c : controller) : controller :=
  {| lc_deadline := d; lc_stopped := lc_stopped c; lc_lost := lc_lost c;
     lc_renewal := lc_renewal c; lc_expiryArmed := armed; lc_aborts := lc_aborts c;
     lc_server := lc_server c |}.

(** The continuation of the renewal callback; [server] is until when the
    server holds the lease after its answer. *)
Definition renew_settles (now server : Z) (a : renew_answer) (c0 : controller) : controller :=
  match lc_renewal c0 with
  | RInFlight requestStartedAt =>
      let c := clear_flight server c0 in
      match a with
      | AnswerFailed => lose c
      | _ =>
          if lc_stopped c then c
          else if lc_deadline c <=? now then lose c
          else match a with
               | AnswerRenewed ms =>
                   let c1 := set_deadline (requestStartedAt + ms) (lc_expiryArmed c) c in
                   if lc_deadline c1 <=? now then lose c1
                   else schedule now (set_deadline (lc_deadline c1) false c1)
               | _ => lose c
               end
      end
  | _ => c0
  end.

(** ** Histories *)

(** The steps of the environment. A renewal that succeeds was granted by the
    server after the request was sent, so the server holds the lease at least
    until [requestStartedAt + ms]; nobody else can shorten it. *)
Inductive lease_step : controller → controller → Prop :=
| ls_renewal now c : lease_step c (renewal_timer now c)
| ls_expiry c : lease_step c (expiry_timer c)
| ls_answer now server a c :
    lc_server c <= server →
    (∀ t ms, lc_renewal c = RInFlight t → a = AnswerRenewed ms → t + ms <= server) →
    lease_step c (renew_settles now server a c)
| ls_live now c : lease_step c (assertLive now c).1
| ls_stop c : lease_step c (stop_controller c).

Inductive lease_reach (c0 : controller) : controller → Prop :=
| lr_init : lease_reach c0 c0
| lr_step c c' : lease_reach c0 c → lease_step c c' → lease_reach c0 c'.

(** The local deadline never exceeds the server's; a lost controller has
    aborted its signal exactly once and is stopped. *)
Record controller_ok (c : controller) : Prop := {
  lo_deadline : lc_deadline c <= lc_server c;
  lo_lost : lc_lost c = true → lc_stopped c = true;
  lo_aborts : lc_aborts c = if lc_lost c then 1%nat else 0%nat;
  lo_armed : lc_renewal c = RArmed ∨ lc_expiryArmed c = true → lc_stopped c = false;
}.

Lemma lose_stopped c : lc_stopped c = true → lose c = c.
Proof. intros Hs. unfold lose. by rewrite Hs. Qed.

(** A stopped controller keeps its verdict. *)
Lemma stopped_step c c' :
  lease_step c c' → lc_stopped c = true → lc_stopped c' = true ∧ lc_lost c' = lc_lost c.
Proof.
  intros Hs Hst. destruct Hs as [now c|c|now server a c _ _|now c|c].
  - unfold renewal_timer. destruct (lc_renewal c); try done. unfold assertLive. rewrite Hst. simpl.
    destruct (negb (lc_lost c)); [done|]. by rewrite lose_stopped.
  - unfold expiry_timer. rewrite lose_stopped by done. by case_match.
  - unfold renew_settles. destruct (lc_renewal c); try done.
    destruct a; simpl; rewrite ?Hst; try done; by rewrite lose_stopped.
  - unfold assertLive. by rewrite Hst.
  - done.
Qed.

Lemma lose_ok c : controller_ok c → controller_ok (lose c).
Proof.
  intros Hc. unfold lose. destruct (_ || _) eqn:E; [done|]. bools.
  destruct Hc as [H1 H2 H3 H4]. split; simpl; try done; [by rewrite H3, H0|].
  intros [Hr|Hr]; [|done]. by destruct (lc_renewal c).
Qed.

Lemma schedule_ok now c : controller_ok c → controller_ok (schedule now c).
Proof.
  intros Hc. unfold schedule. destruct (lc_stopped c) eqn:Es; [done|].
  destruct (_ <=? 0); [by apply lose_ok|]. destruct Hc as [H1 H2 H3 H4]. split; simpl; auto.
  intros Hl. by rewrite H2 in Es.
Qed.

Lemma assertLive_ok now c : controller_ok c → controller_ok (assertLive now c).1.
Proof. intros Hc. unfold assertLive; simpl. case_match; [by apply lose_ok|done]. Qed.

Lemma renewal_timer_ok now c : controller_ok c → controller_ok (renewal_timer now c).
Proof.
  intros Hc. unfold renewal_timer. destruct (lc_renewal c) eqn:Er; try done.
  pose proof (assertLive_ok now c Hc) as Ha. destruct (assertLive now c) as [c1 live] eqn:Hl.
  simpl in Ha. destruct live; [|by apply lose_ok]. destruct Ha as [H1 H2 H3 H4].
  split; simpl; try done. intros [Hr|Hr]; [done|]. apply H4. by right.
Qed.

Lemma renew_settles_ok now server a c :
  controller_ok c → lc_server c <= server →
  (∀ t ms, lc_renewal c = RInFlight t → a = AnswerRenewed ms → t + ms <= server) →
  controller_ok (renew_settles now server a c).
Proof.
  intros [H1 H2 H3 H4] Hs Hgrant. unfold renew_settles.
  destruct (lc_renewal c) as [| |t] eqn:Er; try by split; rewrite ?Er.
  assert (Hok : controller_ok (clear_flight server c)).
  { split; simpl; try done; [lia|]. intros [Hr|Hr]; [done|]. apply H4. by right. }
  assert (Hd : ∀ b d, d <= server → (b = true → lc_stopped c = false) →
                 controller_ok (set_deadline d b (clear_flight server c))).
  { intros b d Hle Hb. destruct Hok as [K1 K2 K3 K4]. split; simpl in *; try done.
    intros [Hr|Hr]; [done|auto]. }
  assert (Hexp : lc_expiryArmed c = true → lc_stopped c = false) by (intros Hx; apply H4; by right).
  destruct a as [ms| |]; [| |by apply lose_ok].
  - destruct (lc_stopped (clear_flight server c)); [done|].
    destruct (_ <=? now); [by apply lose_ok|]. specialize (Hgrant t ms eq_refl eq_refl).
    cbn [lc_deadline set_deadline]. destruct (_ <=? now).
    + apply lose_ok. by apply Hd.
    + apply schedule_ok. by apply (Hd false).
  - destruct (lc_stopped (clear_flight server c)); [done|].
    destruct (_ <=? now); by apply lose_ok.
Qed.

Lemma stop_ok c : controller_ok c → controller_ok (stop_controller c).
Proof.
  intros [H1 H2 H3 H4]. split; simpl; try done. intros [Hr|Hr]; [|done]. by destruct (lc_renewal c).
Qed.

Lemma step_ok c c' : controller_ok c → lease_step c c' → controller_ok c'.
Proof.
  intros Hc Hs. destruct Hs as [now c|c|now server a c Hs Hg|now c|c].
  - by apply renewal_timer_ok.
  - unfold expiry_timer. case_match; [by apply lose_ok|done].
  - by apply renew_settles_ok.
  - by apply assertLive_ok.
  - by apply stop_ok.
Qed.

Lemma newController_ok startedAt ms now server :
  startedAt + Z.max 0 ms <= server → controller_ok (newController startedAt ms now server).
Proof.
  intros Hs. unfold newController. simpl.
  assert (Hok : controller_ok {| lc_deadline := startedAt + Z.max 0 ms; lc_stopped := false;
    lc_lost := false; lc_renewal := RNone; lc_expiryArmed := false; lc_aborts := 0;
    lc_server := server |}) by by split.
  case_match; [by apply lose_ok|by apply schedule_ok].
Qed.

Lemma reach_ok c0 c : controller_ok c0 → lease_reach c0 c → controller_ok c.
Proof. intros H0. induction 1; [done|]. by eapply step_ok. Qed.

(** local liveness is sound: however the timers, the renewals and their
    answers interleave, a caller whose [assertLive] returns normally on a
    controller that was not stopped still holds the lease on the server at
    that instant; and a lost lease aborts the signal exactly once. *)
Theorem assertLive_sound startedAt ms now0 server0 c now c' :
  startedAt + Z.max 0 ms <= server0 →
  lease_reach (newController startedAt ms now0 server0) c →
  lc_stopped c = false → assertLive now c = (c', true) →
  now < lc_server c ∧ lc_aborts c' = 0%nat.
Proof.
  intros Hs Hr Hst Hl.
  destruct (reach_ok _ _ (newController_ok _ _ now0 _ Hs) Hr) as [H1 H2 H3 H4].
  unfold assertLive in Hl. rewrite Hst in Hl. simpl in Hl.
  destruct (lc_deadline c <=? now) eqn:Hd; bools; injection Hl as <- Hl; bools.
  - unfold lose in Hl. rewrite Hst in Hl. simpl in Hl.
    destruct (lc_lost c) eqn:Hlost; simpl in Hl; [|done]. by rewrite H2 in Hst.
  - split; [lia|]. by rewrite H3, Hl.
Qed.

(** loss is final and stopping is quiet: once a controller is lost every
    later [assertLive] throws, whatever happens in between; once it is stopped
    without being lost it never aborts its signal. *)
Theorem lease_outcome_final c0 c c' :
  controller_ok c0 → lease_reach c0 c → lease_reach c c' →
  (lc_lost c = true → ∀ now, (assertLive now c').2 = false) ∧
  (lc_stopped c = true → lc_lost c = false → lc_lost c' = false ∧ lc_aborts c' = 0%nat).
Proof.
  intros H0 Hr Hr'. pose proof (reach_ok _ _ H0 Hr) as Hc. clear H0 Hr.
  assert (Hstop : lc_stopped c = true → lc_stopped c' = true ∧ lc_lost c' = lc_lost c).
  { induction Hr' as [|d d' Hd IH Hs]; [done|]. intros Hst. destruct (IH Hst) as [I1 I2].
    rewrite <- I2. by apply stopped_step. }
  pose proof (reach_ok _ _ Hc Hr') as [_ _ H3' _]. destruct Hc as [_ H2 _ _]. split.
  - intros Hl now. destruct (Hstop (H2 Hl)) as [Hs Hlost]. unfold assertLive. rewrite Hs. simpl.
    by rewrite Hlost, Hl.
  - intros Hst Hl. destruct (Hstop Hst) as [_ Hlost]. rewrite Hl in Hlost.
    split; [done|]. by rewrite H3', Hlost.
Qed.

(** ** Witnesses *)

Definition demo_lease : controller := newController 0 1000 10 1000.

Definition demo_renewed : controller :=
  renew_settles 400 1350 (AnswerRenewed 1000) (renewal_timer 350 demo_lease).

Lemma demo_renewed_reach : lease_reach demo_lease demo_renewed.
Proof.
  eapply lr_step; [eapply lr_step; [apply lr_init|apply (ls_renewal 350)]|].
  apply ls_answer.
  - vm_compute. discriminate.
  - intros t ms Ht Hms. vm_compute in Ht. injection Ht as <-. injection Hms as <-. lia.
Qed.

Lemma assertLive_sound_witness :
  assertLive 1200 demo_renewed = (demo_renewed, true) ∧
  1200 < lc_server demo_renewed ∧ lc_aborts demo_renewed = 0%nat.
Proof.
  split; [vm_compute; reflexivity|].
  apply (assertLive_sound 0 1000 10 1000 demo_renewed 1200 demo_renewed).
  - vm_compute. discriminate.
  - exact demo_renewed_reach.
  - vm_compute. reflexivity.
  - vm_compute. reflexivity.
Defined.

Lemma lease_outcome_final_witness :
  let c := expiry_timer demo_lease in
  lc_lost c = true ∧
  (lc_lost c = true → ∀ now, (assertLive now (stop_controller c)).2 = false) ∧
  (lc_stopped c = true → lc_lost c = false →
   lc_lost (stop_controller c) = false ∧ lc_aborts (stop_controller c) = 0%nat).
Proof.
  cbv zeta. split; [vm_compute; reflexivity|].
  apply (lease_outcome_final demo_lease).
  - apply newController_ok. vm_compute. discriminate.
  - eapply lr_step; [apply lr_init|apply ls_expiry].
  - eapply lr_step; [apply lr_init|apply ls_stop].
Defined.
