(* ===== verification/WirePolicy.v ===== *)
(** * The HC1 wire policy ([src/src/utils/serializerPolicy.ts])

    The constants and byte-level helpers the Node serializer and the Worker
    facade share: the decode limits with their validation, the four-byte
    record tags, and the rule that decides whether gzip pays. Sizes are exact
    integers; the savings test is evaluated in IEEE double precision, as the
    source does, with the software floats of the Standard Library. *)

From Stdlib Require Import SpecFloat.
From S2P Require Import Prelude JsValue Utf8.

(** ** Binary64 arithmetic *)

Definition f64 := spec_float.
Definition f64_of_Z (z : Z) : f64 := binary_normalize 53 1024 z 0 false.
Definition f64_div : f64 → f64 → f64 := SFdiv 53 1024.
Definition f64_sub : f64 → f64 → f64 := SFsub 53 1024.
Definition f64_le : f64 → f64 → bool := SFleb.
Definition f64_lt : f64 → f64 → bool := SFltb.

(** ** Constants *)

Definition PORTABLE_GZIP_MIN_BYTES : Z := 1024.

(** The literal [0.15]: the double nearest to 15/100. *)
Definition MIN_COMPRESSION_SAVINGS : f64 := f64_div (f64_of_Z 15) (f64_of_Z 100).

Definition MAX_PORTABLE_DECODED_BYTES : Z := 25 * 1024 * 1024.
Definition DEFAULT_DECODE_MAX_DEPTH : Z := 128.
Definition DEFAULT_DECODE_MAX_COLLECTION_LENGTH : Z := 1000000.
Definition DEFAULT_DECODE_MAX_TOTAL_VALUES : Z := 1000000.

Definition HC1_TAG_BYTES : Z := 4.
Definition HC1_MSGPACK_TAG : jsstring := js "HC1M".
Definition HC1_GZIP_TAG : jsstring := js "HC1G".
Definition HC1_JSON_TAG : jsstring := js "HC1J".
Definition HC1_ZSTD_TAG : jsstring := js "HC1Z".
Definition HC1_LZ4_TAG : jsstring := js "HC1L".
Definition HC1_SNAPPY_TAG : jsstring := js "HC1S".
Definition HC1_FAMILY : jsstring := js "HC1".
Definition CACHE_NULL_SENTINEL : jsstring := js "__hybridcache_null__".

(** [array.byteLength]. *)
Definition byteLength (b : bytes) : Z := Z.of_nat (length b).

(** ** Decode limits *)

Record DecodeLimits := {
  o_maxEncodedBytes : option jsnum;
  o_maxDecodedBytes : option jsnum;
  o_maxDepth : option jsnum;
  o_maxCollectionLength : option jsnum;
  o_maxTotalValues : option jsnum }.

Definition no_limits : DecodeLimits := Build_DecodeLimits None None None None None.

Record ResolvedDecodeLimits := {
  maxEncodedBytes : Z;
  maxDecodedBytes : Z;
  maxDepth : Z;
  maxCollectionLength : Z;
  maxTotalValues : Z }.

Inductive limit_error := LimitRangeError (name : string).

(** One round of the validation loop. *)
Definition check_limit (name : string) (value : jsnum) : result limit_error Z :=
  if negb (num_is_safe_integer value) || num_le value (JInt 0)
  then Throw (LimitRangeError name)
  else Ok (num_floor value).

Definition resolveDecodeLimits (options : DecodeLimits) : result limit_error ResolvedDecodeLimits :=
  enc <~ check_limit "maxEncodedBytes" (o_maxEncodedBytes options ?? JInt MAX_PORTABLE_DECODED_BYTES) ;;
  deco <~ check_limit "maxDecodedBytes" (o_maxDecodedBytes options ?? JInt MAX_PORTABLE_DECODED_BYTES) ;;
  depth <~ check_limit "maxDepth" (o_maxDepth options ?? JInt DEFAULT_DECODE_MAX_DEPTH) ;;
  coll <~ check_limit "maxCollectionLength"
    (o_maxCollectionLength options ?? JInt DEFAULT_DECODE_MAX_COLLECTION_LENGTH) ;;
  total <~ check_limit "maxTotalValues"
    (o_maxTotalValues options ?? JInt DEFAULT_DECODE_MAX_TOTAL_VALUES) ;;
  Ok (Build_ResolvedDecodeLimits enc deco depth coll total).

(** What the decoders rely on. *)
Record limits_ok (l : ResolvedDecodeLimits) : Prop := {
  lo_encoded : 1 <= maxEncodedBytes l;
  lo_decoded : 1 <= maxDecodedBytes l;
  lo_depth : 1 <= maxDepth l;
  lo_collection : 1 <= maxCollectionLength l;
  lo_total : 1 <= maxTotalValues l }.

Lemma check_limit_ok name v z : check_limit name v = Ok z → 1 <= z ∧ safe_int z = true.
Proof.
  unfold check_limit. destruct (_ || _) eqn:E; [done|]. intros [= <-]. bools.
  unfold num_is_safe_integer in *. bools. split; [|done].
  destruct v as [q|n|]; try done. unfold num_le, JInt, inject_Z, num_floor, num_is_integer in *.
  simpl in *. bools. rewrite Z.mul_1_r in *.
  assert (Qnum q = Zpos (Qden q) * (Qnum q / Zpos (Qden q))) by (apply Z.div_exact; lia).
  nia.
Qed.

Lemma resolveDecodeLimits_ok o l : resolveDecodeLimits o = Ok l → limits_ok l.
Proof.
  unfold resolveDecodeLimits. intros (e & He & H)%rbind_ok.
  apply rbind_ok in H as (d & Hd & H). apply rbind_ok in H as (p & Hp & H).
  apply rbind_ok in H as (c & Hc & H). apply rbind_ok in H as (t & Ht & H).
  injection H as <-. split; simpl; by eapply check_limit_ok.
Qed.

Lemma resolve_resolved o l :
  resolveDecodeLimits o = Ok l →
  resolveDecodeLimits {| o_maxEncodedBytes := Some (JInt (maxEncodedBytes l));
    o_maxDecodedBytes := Some (JInt (maxDecodedBytes l)); o_maxDepth := Some (JInt (maxDepth l));
    o_maxCollectionLength := Some (JInt (maxCollectionLength l));
    o_maxTotalValues := Some (JInt (maxTotalValues l)) |} = Ok l.
Proof.
  assert (Hone : ∀ n v z m, check_limit n v = Ok z → check_limit m (JInt z) = Ok z).
  { intros n v z m H. apply check_limit_ok in H as [Hz Hs]. unfold check_limit.
    rewrite num_is_safe_integer_JInt, Hs, num_floor_JInt.
    change (num_le (JInt z) (JInt 0)) with (z * 1 <=? 0).
    rewrite (proj2 (Z.leb_gt (z * 1) 0)) by lia. done. }
  unfold resolveDecodeLimits at 1. intros (e & He & H)%rbind_ok.
  apply rbind_ok in H as (d & Hd & H). apply rbind_ok in H as (p & Hp & H).
  apply rbind_ok in H as (c & Hc & H). apply rbind_ok in H as (t & Ht & H).
  injection H as <-. unfold resolveDecodeLimits.
  cbn [o_maxEncodedBytes o_maxDecodedBytes o_maxDepth o_maxCollectionLength o_maxTotalValues
       maxEncodedBytes maxDecodedBytes maxDepth maxCollectionLength maxTotalValues default].
  rewrite (Hone _ _ _ _ He); cbn [rbind]. rewrite (Hone _ _ _ _ Hd); cbn [rbind].
  rewrite (Hone _ _ _ _ Hp); cbn [rbind]. rewrite (Hone _ _ _ _ Hc); cbn [rbind].
  by rewrite (Hone _ _ _ _ Ht).
Qed.

(** ** Record tags *)

Definition tagBytes (tag : jsstring) : bytes := utf8_encode tag.

(** The comparison loop of [hasWireTag] and [hasPrefix]: every byte of the tag
    equals the buffer's byte at that index. *)
Fixpoint bytes_start (buffer tag : bytes) {struct tag} : bool :=
  match tag, buffer with
  | [], _ => true
  | t :: tag', b :: buffer' => (b =? t) && bytes_start buffer' tag'
  | _ :: _, [] => false
  end.

Definition hasWireTag (b : bytes) (tag : jsstring) : bool :=
  if (byteLength b <? HC1_TAG_BYTES) || negb (Z.of_nat (length tag) =? HC1_TAG_BYTES) then false
  else bytes_start b tag.

Definition wireTag (b : bytes) : option jsstring :=
  if byteLength b <? HC1_TAG_BYTES then None
  else let tag := take 4 b in
       if bytes_start tag HC1_FAMILY then Some tag else None.

Definition withWireTag (tag : jsstring) (body : bytes) : bytes := tagBytes tag ++ body.

Fixpoint sameBytes_from (left right : bytes) : bool :=
  match left, right with
  | [], _ => true
  | a :: l, b :: r => (a =? b) && sameBytes_from l r
  | _ :: _, [] => false
  end.

Definition sameBytes (left right : bytes) : bool :=
  if negb (byteLength left =? byteLength right) then false else sameBytes_from left right.

Definition shouldUsePortableGzip (packedBytes gzippedBytes : Z) : bool :=
  if packedBytes <? PORTABLE_GZIP_MIN_BYTES then false
  else f64_le MIN_COMPRESSION_SAVINGS
         (f64_sub (f64_of_Z 1) (f64_div (f64_of_Z gzippedBytes) (f64_of_Z packedBytes))).

Inductive KVCompression := KVAuto | KVNone | KVOther (mode : jsstring).

Definition validateKVCompression (mode : option KVCompression) : result string unit :=
  match mode with
  | Some (KVOther _) => Throw "Cloudflare KV compression must be auto or none"%string
  | _ => Ok tt
  end.

(** ** Facts *)

Lemma bytes_start_spec buffer tag :
  bytes_start buffer tag = true ↔ ∃ rest, buffer = tag ++ rest.
Proof.
  revert buffer. induction tag as [|t tag IH]; intros buffer; simpl.
  { split; [intros _; by exists buffer|done]. }
  destruct buffer as [|b buffer]; simpl.
  { split; [done|by intros (? & ?)]. }
  rewrite andb_true_iff, IH, Z.eqb_eq. naive_solver.
Qed.

Lemma bytes_start_app tag rest : bytes_start (tag ++ rest) tag = true.
Proof. apply bytes_start_spec. eauto. Qed.

Lemma sameBytes_spec l r : sameBytes l r = true ↔ l = r.
Proof.
  unfold sameBytes, byteLength. destruct (negb _) eqn:E; bools.
  { split; [done|]. intros ->. done. }
  apply Nat2Z.inj in E. revert r E. induction l as [|a l IH]; intros [|b r] E; simpl; try done.
  injection E as E. rewrite andb_true_iff, Z.eqb_eq, IH by done. naive_solver.
Qed.

Lemma tagBytes_hc1 c : 0 <= c < 0x80 → tagBytes (js "HC1" ++ [c]) = js "HC1" ++ [c].
Proof.
  intros Hc. apply utf8_encode_ascii. apply Forall_app. split.
  - by repeat constructor.
  - by constructor.
Qed.

(** Whether a tag is the one a buffer was written with is decided by its four
    characters alone. *)
Lemma hasWireTag_with tag tag' body :
  tagBytes tag = tag → length tag = 4%nat → length tag' = 4%nat →
  hasWireTag (withWireTag tag body) tag' = bool_decide (tag = tag').
Proof.
  intros Ht H4 H4'. unfold hasWireTag, withWireTag, byteLength, HC1_TAG_BYTES. rewrite Ht.
  rewrite length_app, H4, H4'. rewrite (proj2 (Z.ltb_ge _ _)) by lia. simpl.
  apply eq_true_iff_eq. rewrite bytes_start_spec, bool_decide_eq_true. split.
  - intros (rest & H). apply app_inj_1 in H as [? _]; [done|lia].
  - intros ->. eauto.
Qed.

Lemma drop_withWireTag tag body :
  tagBytes tag = tag → length tag = 4%nat → drop 4 (withWireTag tag body) = body.
Proof. intros Ht H4. unfold withWireTag. rewrite Ht, <- H4. apply drop_app_length. Qed.
