(* ===== verification/MessagePackScan.v ===== *)
(** * The MessagePack pre-decoder ([src/src/utils/decodeValidation.ts], lines 29 to 122)

    [isSafeMessagePack] walks an untrusted record before msgpackr may allocate
    from its headers. The model keeps the scan as it is written: a cursor (the
    unread bytes; [input.byteLength - position] is their number), the counter
    of values and the stack of pending children, top first. The theorem says
    that the iterative scan accepts exactly the encodings of one MessagePack
    document within the limits. *)

From S2P Require Import Prelude JsValue Utf8 WirePolicy.

(** ** The scan *)

Section scan.
Context (limits : ResolvedDecodeLimits) (validUtf8 : bytes → bool).

Definition advance (n : Z) (rest : bytes) : option bytes :=
  if (n <? 0) || (byteLength rest <? n) then None else Some (drop (Z.to_nat n) rest).

Definition of_be (bs : bytes) : Z := foldl (λ value b, value * 256 + b) 0 bs.

(** The big-endian length field; [-1], and no byte read, when it is cut off. *)
Definition read_length (n : nat) (rest : bytes) : Z * bytes :=
  if byteLength rest <? Z.of_nat n then (-1, rest) else (of_be (take n rest), drop n rest).

Definition read_string (n : Z) (rest : bytes) : option bytes :=
  if (0 <=? n) && (n <=? byteLength rest) && validUtf8 (take (Z.to_nat n) rest)
  then advance n rest else None.

Definition container (items : Z) (map : bool) (rest : bytes) (pending : list Z)
    : option (bytes * list Z) :=
  if (items <? 0) || (maxCollectionLength limits <? items) then None else
  let children := if map then items * 2 else items in
  if (byteLength rest <? children) || (maxDepth limits <? Z.of_nat (length pending)) then None else
  Some (rest, if children =? 0 then pending else children :: pending).

Definition typed_array_width (typeCode : Z) : option Z :=
  if typeCode <? 0 then None else [1; 1; 1; 2; 2; 4; 4; 4; 8; 8; 8] !! Z.to_nat typeCode.

(** The element width divides the payload, or the type needs no width. *)
Definition typed_array_ok (typeCode n : Z) : bool :=
  (typeCode =? 16) || (typeCode =? 17) ||
  match typed_array_width typeCode with Some w => (n - 1) mod w =? 0 | None => false end.

Definition keep (pending : list Z) (r : option bytes) : option (bytes * list Z) :=
  r' ← r; Some (r', pending).

Definition extension (n : Z) (rest : bytes) (pending : list Z) : option (bytes * list Z) :=
  if (n <? 0) || (byteLength rest <? n + 1) then None else
  match rest with
  | [] => None
  | type :: rest =>
      if (type =? 0x65) || (type =? 0x73) || (type =? 0x78) then
        if n =? 1 then r ← advance n rest; container 1 false r pending else None
      else if type =? 0x00 then
        if n =? 1 then keep pending (advance n rest) else None
      else if type =? 0xff then
        if bool_decide (n ∈ [1; 4; 8; 12]) then keep pending (advance n rest) else None
      else if type =? 0x42 then
        if 0 <? n then keep pending (advance n rest) else None
      else if type =? 0x74 then
        if n <? 1 then None else
        match rest with
        | typeCode :: _ =>
            if typed_array_ok typeCode n then keep pending (advance n rest) else None
        | [] => None
        end
      else None
  end.

(** The length field of [w] bytes, then what uses it. *)
Definition sized {A} (w : nat) (rest : bytes) (k : Z → bytes → option A) : option A :=
  let '(n, rest) := read_length w rest in k n rest.

(** The body of the [while] loop after the tag byte is read. *)
Definition read_value (tag : Z) (rest : bytes) (pending : list Z) : option (bytes * list Z) :=
  if (tag <? 0x80) || (0xe0 <=? tag) then Some (rest, pending)
  else if tag <? 0x90 then container (tag - 0x80) true rest pending
  else if tag <? 0xa0 then container (tag - 0x90) false rest pending
  else if tag <? 0xc0 then keep pending (read_string (tag - 0xa0) rest)
  else if (tag =? 0xc0) || (tag =? 0xc2) || (tag =? 0xc3) then Some (rest, pending)
  else if tag =? 0xc1 then None
  else if tag =? 0xc4 then sized 1 rest (λ n r, keep pending (advance n r))
  else if tag =? 0xc5 then sized 2 rest (λ n r, keep pending (advance n r))
  else if tag =? 0xc6 then sized 4 rest (λ n r, keep pending (advance n r))
  else if tag =? 0xd9 then sized 1 rest (λ n r, keep pending (read_string n r))
  else if tag =? 0xda then sized 2 rest (λ n r, keep pending (read_string n r))
  else if tag =? 0xdb then sized 4 rest (λ n r, keep pending (read_string n r))
  else if tag =? 0xc7 then sized 1 rest (λ n r, extension n r pending)
  else if tag =? 0xc8 then sized 2 rest (λ n r, extension n r pending)
  else if tag =? 0xc9 then sized 4 rest (λ n r, extension n r pending)
  else if (tag =? 0xca) || (tag =? 0xce) || (tag =? 0xd2) then keep pending (advance 4 rest)
  else if (tag =? 0xcb) || (tag =? 0xcf) || (tag =? 0xd3) then keep pending (advance 8 rest)
  else if (tag =? 0xcc) || (tag =? 0xd0) then keep pending (advance 1 rest)
  else if (tag =? 0xcd) || (tag =? 0xd1) then keep pending (advance 2 rest)
  else if tag =? 0xd4 then extension 1 rest pending
  else if tag =? 0xd5 then extension 2 rest pending
  else if tag =? 0xd6 then extension 4 rest pending
  else if tag =? 0xd7 then extension 8 rest pending
  else if tag =? 0xd8 then extension 16 rest pending
  else if tag =? 0xdc then sized 2 rest (λ n r, container n false r pending)
  else if tag =? 0xdd then sized 4 rest (λ n r, container n false r pending)
  else if tag =? 0xde then sized 2 rest (λ n r, container n true r pending)
  else if tag =? 0xdf then sized 4 rest (λ n r, container n true r pending)
  else None.

(** The loop; [None] when the fuel runs out. *)
Fixpoint mp_loop (fuel : nat) (rest : bytes) (totalValues : Z) (pending : list Z) : option bool :=
  match fuel with
  | O => None
  | S fuel =>
      match pending with
      | [] => Some (byteLength rest =? 0)
      | n :: below =>
          if n =? 0 then mp_loop fuel rest totalValues below else
          let totalValues := totalValues + 1 in
          if maxTotalValues limits <? totalValues then Some false else
          match rest with
          | [] => Some false
          | tag :: rest =>
              match read_value tag rest (n - 1 :: below) with
              | None => Some false
              | Some (rest, pending) => mp_loop fuel rest totalValues pending
              end
          end
      end
  end.

Definition mp_fuel (input : bytes) : nat := 2 * length input + 2.

Definition isSafeMessagePack (input : bytes) : bool :=
  if maxDecodedBytes limits <? byteLength input then false
  else default false (mp_loop (mp_fuel input) input 0 [1]).
End scan.

(** ** The format

    A MessagePack document is a tree of headers. A header carries its length
    field as it is on the wire; [[]] is the short form whose length is part
    of the tag. *)

Inductive head :=
| HSingle (tag : Z)
| HScalar (tag : Z) (body : bytes)
| HBin (lb : bytes) (body : bytes)
| HStr (lb : bytes) (body : bytes)
| HExt (lb : bytes) (type : Z) (body : bytes)
| HArr (lb : bytes) (items : Z)
| HMap (lb : bytes) (items : Z).

(** 0, 1, 2 for length fields of one, two and four bytes. *)
Definition width_index (lb : bytes) : Z :=
  match length lb with 1%nat => 0 | 2%nat => 1 | _ => 2 end.

Definition head_bytes (h : head) : bytes :=
  match h with
  | HSingle tag => [tag]
  | HScalar tag body => tag :: body
  | HBin lb body => (0xc4 + width_index lb) :: lb ++ body
  | HStr [] body => (0xa0 + byteLength body) :: body
  | HStr lb body => (0xd9 + width_index lb) :: lb ++ body
  | HExt [] type body => (0xd4 + Z.log2 (byteLength body)) :: type :: body
  | HExt lb type body => (0xc7 + width_index lb) :: lb ++ type :: body
  | HArr [] items => [0x90 + items]
  | HArr lb items => (0xdb + width_index lb) :: lb
  | HMap [] items => [0x80 + items]
  | HMap lb items => (0xdd + width_index lb) :: lb
  end.

Definition scalar_width (tag : Z) : option Z :=
  if bool_decide (tag ∈ [0xca; 0xce; 0xd2]) then Some 4
  else if bool_decide (tag ∈ [0xcb; 0xcf; 0xd3]) then Some 8
  else if bool_decide (tag ∈ [0xcc; 0xd0]) then Some 1
  else if bool_decide (tag ∈ [0xcd; 0xd1]) then Some 2
  else None.

(** The wrappers of msgpackr: Error, Set and RegExp take the next value. *)
Definition is_wrapper (type : Z) : bool := bool_decide (type ∈ [0x65; 0x73; 0x78]).

Definition ext_body_ok (type : Z) (body : bytes) : bool :=
  let n := byteLength body in
  if is_wrapper type || (type =? 0x00) then n =? 1
  else if type =? 0xff then bool_decide (n ∈ [1; 4; 8; 12])
  else if type =? 0x42 then 0 <? n
  else if type =? 0x74 then
    match body with typeCode :: _ => typed_array_ok typeCode n | [] => false end
  else false.

Definition lb_in (lb : bytes) (ws : list nat) (n : Z) : Prop := length lb ∈ ws ∧ of_be lb = n.

Definition head_valid (validUtf8 : bytes → bool) (h : head) : Prop :=
  match h with
  | HSingle tag => tag < 0x80 ∨ 0xe0 <= tag ∨ tag ∈ [0xc0; 0xc2; 0xc3]
  | HScalar tag body => scalar_width tag = Some (byteLength body)
  | HBin lb body => lb_in lb [1; 2; 4]%nat (byteLength body)
  | HStr lb body =>
      validUtf8 body = true ∧
      (lb = [] ∧ byteLength body < 32 ∨ lb_in lb [1; 2; 4]%nat (byteLength body))
  | HExt lb type body =>
      ext_body_ok type body = true ∧
      (lb = [] ∧ byteLength body ∈ [1; 2; 4; 8; 16] ∨ lb_in lb [1; 2; 4]%nat (byteLength body))
  | HArr lb items | HMap lb items =>
      0 <= items ∧ (lb = [] ∧ items < 16 ∨ lb_in lb [2; 4]%nat items)
  end.

(** Entries of a collection; a wrapper holds one value. *)
Definition head_items (h : head) : option Z :=
  match h with
  | HArr _ items | HMap _ items => Some items
  | HExt _ type _ => if is_wrapper type then Some 1 else None
  | _ => None
  end.

Definition head_children (h : head) : Z :=
  match h with
  | HMap _ items => items * 2
  | _ => default 0 (head_items h)
  end.

#[warnings="-register-all"]
Inductive doc := Doc (h : head) (cs : list doc).

Fixpoint doc_bytes (d : doc) : bytes :=
  let 'Doc h cs := d in head_bytes h ++ mjoin (map doc_bytes cs).

Fixpoint doc_count (d : doc) : Z :=
  let 'Doc h cs := d in 1 + sumZ doc_count cs.

(** Nesting of collections. *)
Fixpoint doc_depth (d : doc) : Z :=
  let 'Doc h cs := d in
  match head_items h with
  | Some _ => 1 + foldr (λ c m, Z.max (doc_depth c) m) 0 cs
  | None => 0
  end.

(** A well-formed document whose collections have at most [m] entries. *)
#[warnings="-register-all"]
Inductive doc_valid (valid : bytes → bool) (m : Z) : doc → Prop :=
| doc_valid_intro h cs :
    head_valid valid h →
    (∀ n, head_items h = Some n → n <= m) →
    Z.of_nat (length cs) = head_children h →
    Forall (doc_valid valid m) cs →
    doc_valid valid m (Doc h cs).

(** ** One header *)

Section header.
Context (limits : ResolvedDecodeLimits) (validUtf8 : bytes → bool).

Lemma byteLength_app (a b : bytes) : byteLength (a ++ b) = byteLength a + byteLength b.
Proof. unfold byteLength. rewrite length_app. lia. Qed.

Lemma byteLength_nonneg (b : bytes) : 0 <= byteLength b.
Proof. unfold byteLength. lia. Qed.

Lemma take_byteLength n (rest : bytes) :
  0 <= n <= byteLength rest → byteLength (take (Z.to_nat n) rest) = n.
Proof. unfold byteLength. rewrite length_take. lia. Qed.

Lemma take_drop_exact n (body r : bytes) :
  byteLength body = n →
  take (Z.to_nat n) (body ++ r) = body ∧ drop (Z.to_nat n) (body ++ r) = r.
Proof.
  unfold byteLength. intros <-. rewrite Nat2Z.id. by rewrite take_app_length, drop_app_length.
Qed.

Lemma mp_advance_spec n rest r :
  advance n rest = Some r ↔ ∃ body, rest = body ++ r ∧ byteLength body = n.
Proof.
  unfold advance. split.
  - destruct (_ || _) eqn:E; [done|]. intros [= <-]. bools. exists (take (Z.to_nat n) rest).
    rewrite take_drop. split; [done|]. apply take_byteLength. lia.
  - intros (body & -> & Hb). rewrite byteLength_app.
    pose proof (byteLength_nonneg body). pose proof (byteLength_nonneg r).
    rewrite !(proj2 (Z.ltb_ge _ _)) by lia. simpl. f_equal. by apply take_drop_exact.
Qed.

Lemma read_string_spec n rest r :
  read_string validUtf8 n rest = Some r ↔
  ∃ body, rest = body ++ r ∧ byteLength body = n ∧ validUtf8 body = true.
Proof.
  unfold read_string. split.
  - destruct (_ && _) eqn:E; [|done]. bools. intros (body & -> & Hb)%mp_advance_spec.
    exists body. split_and!; [done..|]. by destruct (take_drop_exact n body r Hb) as [<- _].
  - intros (body & -> & Hb & Hv). destruct (take_drop_exact n body r Hb) as [-> _].
    rewrite Hv, byteLength_app. pose proof (byteLength_nonneg body). pose proof (byteLength_nonneg r).
    rewrite !(proj2 (Z.leb_le _ _)) by lia. simpl. apply mp_advance_spec. eauto.
Qed.

Definition push (k : Z) (pending : list Z) : list Z := if k =? 0 then pending else k :: pending.

Lemma container_spec items (mp : bool) rest pending r p :
  container limits items mp rest pending = Some (r, p) ↔
  let children := if mp then items * 2 else items in
  r = rest ∧ p = push children pending ∧ 0 <= items ∧
  items <= maxCollectionLength limits ∧ Z.of_nat (length pending) <= maxDepth limits ∧
  children <= byteLength r.
Proof.
  unfold container, push. cbv zeta. split.
  - destruct (_ || _) eqn:E; [done|]. destruct (_ || _) eqn:E' in |- *; [done|].
    intros H. inversion H; subst. bools. done.
  - intros (-> & -> & ? & ? & ? & ?). rewrite !(proj2 (Z.ltb_ge _ _)) by lia. done.
Qed.

Lemma sized_spec {A} w rest (k : Z → bytes → option A) x :
  (∀ r, k (-1) r = None) →
  sized w rest k = Some x ↔
  ∃ lb r, rest = lb ++ r ∧ length lb = w ∧ k (of_be lb) r = Some x.
Proof.
  intros Hk. unfold sized, read_length. split.
  - destruct (_ <? _) eqn:E; [by rewrite Hk|]. bools. intros H.
    exists (take w rest), (drop w rest). rewrite take_drop, length_take.
    unfold byteLength in E. split_and!; [done|lia|done].
  - intros (lb & r & -> & <- & H). rewrite byteLength_app.
    pose proof (byteLength_nonneg r). fold (byteLength lb).
    rewrite (proj2 (Z.ltb_ge _ _)) by lia. by rewrite take_app_length, drop_app_length.
Qed.

Lemma advance_neg r : advance (-1) r = None.
Proof. done. Qed.

Lemma read_string_neg r : read_string validUtf8 (-1) r = None.
Proof. done. Qed.

Lemma container_neg mp r p : container limits (-1) mp r p = None.
Proof. done. Qed.

Lemma extension_neg r p : extension limits (-1) r p = None.
Proof. done. Qed.

Lemma keep_spec p o r p' : keep p o = Some (r, p') ↔ o = Some r ∧ p' = p.
Proof. unfold keep. destruct o as [r'|]; simpl; naive_solver. Qed.

Lemma extension_spec n rest pending r p :
  extension limits n rest pending = Some (r, p) ↔
  ∃ type body, rest = type :: body ++ r ∧ byteLength body = n ∧ ext_body_ok type body = true ∧
    (if is_wrapper type
     then p = push 1 pending ∧ 1 <= maxCollectionLength limits ∧
          Z.of_nat (length pending) <= maxDepth limits ∧ 1 <= byteLength r
     else p = pending).
Proof.
  assert (Hw : ∀ t, (t =? 0x65) || (t =? 0x73) || (t =? 0x78) = is_wrapper t).
  { intros t. unfold is_wrapper. apply eq_true_iff_eq.
    rewrite bool_decide_eq_true, !orb_true_iff, !Z.eqb_eq. set_solver. }
  unfold extension. split.
  - destruct (_ || _) eqn:E; [done|]. bools. destruct rest as [|type rest]; [done|].
    rewrite Hw. intros Hx. exists type. unfold ext_body_ok. cbv zeta. destruct (is_wrapper type) eqn:Et.
    + destruct (n =? 1) eqn:En; [|done]. bools. subst n. simpl in Hx.
      destruct (advance 1 rest) as [r1|] eqn:Ea; simpl in Hx; [|done].
      apply mp_advance_spec in Ea as (body & -> & Hb).
      apply container_spec in Hx as (-> & -> & ?). exists body. simpl.
      rewrite Hb. split_and!; try done; tauto.
    + simpl. assert (Hg : ∃ b : bool, (if b then keep pending (advance n rest) else None) = Some (r, p) ∧
        (∀ body, rest = body ++ r → byteLength body = n →
           b = (if type =? 0 then n =? 1
                else if type =? 255 then bool_decide (n ∈ [1; 4; 8; 12])
                else if type =? 66 then 0 <? n
                else if type =? 116 then match body with tc :: _ => typed_array_ok tc n | [] => false end
                else false))).
      { destruct (type =? 0); [by eexists|]. destruct (type =? 255); [by eexists|].
        destruct (type =? 66); [by eexists|]. destruct (type =? 116); [|by exists false].
        destruct (n <? 1) eqn:En; [done|]. destruct rest as [|tc rest]; [done|].
        exists (typed_array_ok tc n). split; [done|]. intros [|b body] Hr Hb.
        - bools. unfold byteLength in Hb. simpl in Hb. lia.
        - by injection Hr as -> _. }
      destruct Hg as (b & Hk & Hb). destruct b; [|done].
      apply keep_spec in Hk as [(body & Hr & Hn)%mp_advance_spec ->].
      exists body. split_and!; [by rewrite Hr|done| |done]. rewrite Hn. symmetry. by apply Hb.
  - intros (type & body & -> & Hb & Hok & Hp). pose proof (byteLength_nonneg body).
    pose proof (byteLength_nonneg r).
    change (byteLength (type :: body ++ r)) with (byteLength ([type] ++ body ++ r)).
    rewrite !byteLength_app. change (byteLength [type]) with 1.
    rewrite !(proj2 (Z.ltb_ge _ _)) by lia. simpl. rewrite Hw.
    assert (Ha : advance n (body ++ r) = Some r) by (apply mp_advance_spec; eauto).
    unfold ext_body_ok in Hok. cbv zeta in Hok. rewrite Hb in Hok.
    destruct (is_wrapper type) eqn:Et; simpl in Hok.
    + rewrite Hok, Ha. simpl. apply container_spec. simpl. naive_solver lia.
    + subst p. destruct (type =? 0); [by rewrite Hok, Ha|]. destruct (type =? 255); [by rewrite Hok, Ha|].
      destruct (type =? 66); [by rewrite Hok, Ha|]. destruct (type =? 116); [|done].
      destruct body as [|tc body]; [done|]. cbn [app] in *. rewrite Hok, Ha.
      unfold byteLength in Hb. cbn [length] in Hb. rewrite (proj2 (Z.ltb_ge _ _)) by lia. done.
Qed.

(** What the scan checks when it meets a collection header. *)
Definition header_fits (h : head) (pending : list Z) (r : bytes) : Prop :=
  ∀ n, head_items h = Some n →
    n <= maxCollectionLength limits ∧ Z.of_nat (length pending) <= maxDepth limits ∧
    head_children h <= byteLength r.

Definition reads (tag : Z) (rest : bytes) (pending : list Z) (r : bytes) (p : list Z) : Prop :=
  ∃ h, head_valid validUtf8 h ∧ tag :: rest = head_bytes h ++ r ∧
    p = push (head_children h) pending ∧ header_fits h pending r.

Lemma read_scalar tag n rest pending r p :
  scalar_width tag = Some n → keep pending (advance n rest) = Some (r, p) →
  reads tag rest pending r p.
Proof.
  intros Hw [(body & -> & Hb)%mp_advance_spec ->]%keep_spec.
  exists (HScalar tag body). simpl. rewrite Hb. split_and!; done.
Qed.

Lemma read_bin tag w rest pending r p :
  w ∈ [1; 2; 4]%nat → tag = 0xc4 + width_index (replicate w 0) →
  sized w rest (λ n r, keep pending (advance n r)) = Some (r, p) →
  reads tag rest pending r p.
Proof.
  intros Hw -> Hs. apply sized_spec in Hs as (lb & r1 & -> & <- & Hk); [|done].
  apply keep_spec in Hk as [(body & -> & Hb)%mp_advance_spec ->].
  exists (HBin lb body). unfold width_index. rewrite length_replicate. simpl.
  rewrite <- app_assoc. split_and!; done.
Qed.

Lemma head_bytes_str lb body :
  lb ≠ [] → head_bytes (HStr lb body) = (0xd9 + width_index lb) :: lb ++ body.
Proof. by destruct lb. Qed.

Lemma head_bytes_ext lb t body :
  lb ≠ [] → head_bytes (HExt lb t body) = (0xc7 + width_index lb) :: lb ++ t :: body.
Proof. by destruct lb. Qed.

Lemma lb_nonempty (lb : bytes) (ws : list nat) : length lb ∈ ws → 0%nat ∉ ws → lb ≠ [].
Proof. by intros ? ? ->. Qed.

Lemma read_str tag w rest pending r p :
  w ∈ [1; 2; 4]%nat → tag = 0xd9 + width_index (replicate w 0) →
  sized w rest (λ n r, keep pending (read_string validUtf8 n r)) = Some (r, p) →
  reads tag rest pending r p.
Proof.
  intros Hw -> Hs. apply sized_spec in Hs as (lb & r1 & -> & <- & Hk); [|done].
  apply keep_spec in Hk as [(body & -> & Hb & Hv)%read_string_spec ->].
  exists (HStr lb body). rewrite head_bytes_str by (eapply lb_nonempty; [done|set_solver]).
  unfold width_index. rewrite length_replicate. simpl.
  rewrite <- app_assoc. split_and!; try done. by right.
Qed.

Lemma read_ext_head lb t body pending r p :
  ext_body_ok t body = true →
  (lb = [] ∧ byteLength body ∈ [1; 2; 4; 8; 16] ∨ lb_in lb [1; 2; 4]%nat (byteLength body)) →
  (if is_wrapper t
   then p = push 1 pending ∧ 1 <= maxCollectionLength limits ∧
        Z.of_nat (length pending) <= maxDepth limits ∧ 1 <= byteLength r
   else p = pending) →
  head_valid validUtf8 (HExt lb t body) ∧ p = push (head_children (HExt lb t body)) pending ∧
  header_fits (HExt lb t body) pending r.
Proof.
  intros Hok Hlb Hp. unfold header_fits. simpl. destruct (is_wrapper t).
  - destruct Hp as (-> & ? & ? & ?). split_and!; try done. intros n [= <-]. simpl. done.
  - subst p. split_and!; done.
Qed.

Lemma read_ext tag w rest pending r p :
  w ∈ [1; 2; 4]%nat → tag = 0xc7 + width_index (replicate w 0) →
  sized w rest (λ n r, extension limits n r pending) = Some (r, p) →
  reads tag rest pending r p.
Proof.
  intros Hw -> Hs. apply sized_spec in Hs as (lb & r1 & -> & <- & Hk); [|done].
  apply extension_spec in Hk as (t & body & -> & Hb & Hok & Hp).
  exists (HExt lb t body). rewrite head_bytes_ext by (eapply lb_nonempty; [done|set_solver]).
  destruct (read_ext_head lb t body pending r p) as (? & ? & ?); [done|by right|done|].
  unfold width_index. rewrite length_replicate. cbn [app]. rewrite <- app_assoc. split_and!; done.
Qed.

Lemma read_fixext tag n rest pending r p :
  n ∈ [1; 2; 4; 8; 16] → tag = 0xd4 + Z.log2 n →
  extension limits n rest pending = Some (r, p) → reads tag rest pending r p.
Proof.
  intros Hn -> (t & body & -> & <- & Hok & Hp)%extension_spec.
  exists (HExt [] t body).
  destruct (read_ext_head [] t body pending r p) as (? & ? & ?); [done|by left|done|].
  split_and!; done.
Qed.

(** Arrays and maps share their headers up to the tag. *)
Definition HColl (mp : bool) : bytes → Z → head := if mp then HMap else HArr.

Lemma read_coll mp lb items rest pending r p :
  lb = [] ∧ items < 16 ∨ lb_in lb [2; 4]%nat items →
  container limits items mp rest pending = Some (r, p) →
  head_valid validUtf8 (HColl mp lb items) ∧ r = rest ∧
  p = push (head_children (HColl mp lb items)) pending ∧ header_fits (HColl mp lb items) pending r.
Proof.
  intros Hlb (-> & -> & ? & ? & ? & ?)%container_spec.
  destruct mp; simpl; (split_and!; try done); intros n [= <-]; done.
Qed.

Lemma read_sized_coll (mp : bool) tag w rest pending r p :
  w ∈ [2; 4]%nat → tag = (if mp then 0xdd else 0xdb) + width_index (replicate w 0) →
  sized w rest (λ n r, container limits n mp r pending) = Some (r, p) →
  reads tag rest pending r p.
Proof.
  intros Hw -> Hs. apply sized_spec in Hs as (lb & r1 & -> & <- & Hk); [|done].
  destruct (read_coll mp lb (of_be lb) r1 pending r p) as (? & -> & ? & ?); [by right|done|].
  exists (HColl mp lb (of_be lb)). unfold width_index. rewrite length_replicate.
  destruct lb as [|b lb]; [set_solver|]. split_and!; try done. by destruct mp.
Qed.

Lemma read_fix_coll (mp : bool) tag rest pending r p :
  tag < (if mp then 0x80 else 0x90) + 16 →
  container limits (tag - if mp then 0x80 else 0x90) mp rest pending = Some (r, p) →
  reads tag rest pending r p.
Proof.
  intros Ht Hk.
  destruct (read_coll mp [] (tag - if mp then 0x80 else 0x90) rest pending r p)
    as (? & -> & ? & ?); [left; split; [done|lia]|done|].
  exists (HColl mp [] (tag - if mp then 0x80 else 0x90)). split_and!; try done.
  destruct mp; simpl; f_equal; lia.
Qed.

Lemma read_value_sound tag rest pending r p :
  read_value limits validUtf8 tag rest pending = Some (r, p) → reads tag rest pending r p.
Proof.
  assert (Hs : tag < 0x80 ∨ 0xe0 <= tag ∨ tag ∈ [0xc0; 0xc2; 0xc3] →
    Some (rest, pending) = Some (r, p) → reads tag rest pending r p).
  { intros Ht [= <- <-]. exists (HSingle tag). split_and!; done. }
  unfold read_value.
  destruct (_ || _) eqn:E0; [apply Hs; apply orb_true_iff in E0 as [?|?]; bools; lia|].
  destruct (tag <? 0x90) eqn:E1; [apply (read_fix_coll true); bools; lia|].
  destruct (tag <? 0xa0) eqn:E2; [apply (read_fix_coll false); bools; lia|].
  destruct (tag <? 0xc0) eqn:E3.
  { intros [(body & -> & Hb & Hv)%read_string_spec ->]%keep_spec. bools. exists (HStr [] body).
    simpl. rewrite Hb. split_and!; try done; [left; split; [done|lia]|f_equal; lia]. }
  destruct (_ || _) eqn:E4 in |- *.
  { apply Hs. right; right. apply orb_true_iff in E4 as [[?|?]%orb_true_iff|?]; bools; subst; set_solver. }
  repeat match goal with
  | |- (if ?b then _ else _) = _ → _ =>
      lazymatch b with
      | _ || _ =>
          let E := fresh in destruct b eqn:E;
          [apply read_scalar; repeat (apply orb_true_iff in E as [E|E]); apply Z.eqb_eq in E; by subst|]
      | _ =>
          let E := fresh in destruct b eqn:E;
          [apply Z.eqb_eq in E; subst tag|]
      end
  end; try done.
  all: first
    [ apply (read_bin _ 1); [set_solver|done] | apply (read_bin _ 2); [set_solver|done]
    | apply (read_bin _ 4); [set_solver|done]
    | apply (read_str _ 1); [set_solver|done] | apply (read_str _ 2); [set_solver|done]
    | apply (read_str _ 4); [set_solver|done]
    | apply (read_ext _ 1); [set_solver|done] | apply (read_ext _ 2); [set_solver|done]
    | apply (read_ext _ 4); [set_solver|done]
    | apply (read_sized_coll false _ 2); [set_solver|done]
    | apply (read_sized_coll false _ 4); [set_solver|done]
    | apply (read_sized_coll true _ 2); [set_solver|done]
    | apply (read_sized_coll true _ 4); [set_solver|done]
    | apply read_fixext; [set_solver|done] ].
Qed.

Lemma head_bytes_coll mp lb items :
  lb ≠ [] → head_bytes (HColl mp lb items) = ((if mp then 0xdd else 0xdb) + width_index lb) :: lb.
Proof. by destruct mp, lb. Qed.

Lemma sized_app {A} w (lb r : bytes) (k : Z → bytes → option A) :
  length lb = w → sized w (lb ++ r) k = k (of_be lb) r.
Proof.
  intros <-. unfold sized, read_length. rewrite byteLength_app. fold (byteLength lb).
  pose proof (byteLength_nonneg r). rewrite (proj2 (Z.ltb_ge _ _)) by lia.
  by rewrite take_app_length, drop_app_length.
Qed.

Lemma keep_advance pending body r :
  keep pending (advance (byteLength body) (body ++ r)) = Some (r, pending).
Proof. apply keep_spec. split; [|done]. apply mp_advance_spec. eauto. Qed.

Lemma keep_string pending body r :
  validUtf8 body = true →
  keep pending (read_string validUtf8 (byteLength body) (body ++ r)) = Some (r, pending).
Proof. intros. apply keep_spec. split; [|done]. apply read_string_spec. eauto. Qed.

Lemma extension_complete lb t body pending r :
  ext_body_ok t body = true → header_fits (HExt lb t body) pending r →
  extension limits (byteLength body) (t :: body ++ r) pending =
    Some (r, push (head_children (HExt lb t body)) pending).
Proof.
  intros Hok Hf. apply extension_spec. exists t, body. split_and!; [done..|].
  unfold header_fits in Hf. simpl in *. destruct (is_wrapper t); [|done].
  destruct (Hf 1 eq_refl) as (? & ? & ?). done.
Qed.

Lemma container_complete mp lb items pending r :
  0 <= items → header_fits (HColl mp lb items) pending r →
  container limits items mp r pending = Some (r, push (head_children (HColl mp lb items)) pending).
Proof.
  intros H0 Hf. apply container_spec. unfold header_fits in Hf.
  destruct mp; simpl in *; destruct (Hf items eq_refl) as (? & ? & ?); done.
Qed.

Ltac by_width lb Hw Hk :=
  unfold width_index; rewrite !elem_of_cons in Hw;
  destruct_or! Hw; try (by apply elem_of_nil in Hw); rewrite Hw;
  unfold read_value; simpl; (etrans; [apply (sized_app _ lb); done|]); exact Hk.

Lemma read_coll_complete mp lb items tag rest pending r :
  0 <= items ∧ (lb = [] ∧ items < 16 ∨ lb_in lb [2; 4]%nat items) →
  header_fits (HColl mp lb items) pending r → tag :: rest = head_bytes (HColl mp lb items) ++ r →
  read_value limits validUtf8 tag rest pending =
    Some (r, push (head_children (HColl mp lb items)) pending).
Proof.
  intros [H0 [[-> Hn]|[Hw Hn]]] Hf Hb;
    pose proof (container_complete mp _ items pending r H0 Hf) as Hk.
  - destruct mp; simpl in Hb; injection Hb as -> ->; unfold read_value; zbool; cbn [orb].
    + replace (0x80 + items - 0x80) with items by lia. exact Hk.
    + replace (0x90 + items - 0x90) with items by lia. exact Hk.
  - rewrite head_bytes_coll in Hb by (eapply lb_nonempty; [done|set_solver]).
    injection Hb as -> ->. rewrite <- Hn in Hk at 1. destruct mp; by_width lb Hw Hk.
Qed.

Lemma read_value_complete h tag rest pending r :
  head_valid validUtf8 h → header_fits h pending r → tag :: rest = head_bytes h ++ r →
  read_value limits validUtf8 tag rest pending = Some (r, push (head_children h) pending).
Proof.
  intros Hv Hf Hb. destruct h as [t|t body|lb body|lb body|lb t body|lb items|lb items]; simpl in Hv.
  - injection Hb as -> ->. destruct Hv as [?|[?|Hv]]; unfold read_value; [by zbool..|].
    rewrite !elem_of_cons in Hv. destruct Hv as [->|[->|[->|[]%elem_of_nil]]]; done.
  - injection Hb as -> ->. unfold scalar_width in Hv.
    repeat match type of Hv with
    | (if bool_decide ?P then _ else _) = _ =>
        destruct (bool_decide P) eqn:E; bools;
        [injection Hv as Hv; rewrite !elem_of_cons in E; pose proof (keep_advance pending body r) as Hk;
         rewrite <- Hv in Hk; destruct_or! E; try (by apply elem_of_nil in E); subst t; exact Hk|clear E]
    end. done.
  - destruct Hv as [Hw Hn]. simpl in Hb. injection Hb as -> ->. rewrite <- app_assoc.
    pose proof (keep_advance pending body r) as Hk. rewrite <- Hn in Hk. by_width lb Hw Hk.
  - destruct Hv as [Hv [[-> Hn]|[Hw Hn]]].
    + simpl in Hb. injection Hb as -> ->. pose proof (byteLength_nonneg body).
      unfold read_value. zbool. cbn [orb].
      replace (0xa0 + byteLength body - 0xa0) with (byteLength body) by lia. by apply keep_string.
    + rewrite head_bytes_str in Hb by (eapply lb_nonempty; [done|set_solver]).
      injection Hb as -> ->. rewrite <- app_assoc.
      pose proof (keep_string pending body r Hv) as Hk. rewrite <- Hn in Hk. by_width lb Hw Hk.
  - destruct Hv as [Hv [[-> Hn]|[Hw Hn]]];
      pose proof (extension_complete _ t body pending r Hv Hf) as Hk.
    + simpl in Hb. injection Hb as -> ->. rewrite !elem_of_cons in Hn.
      destruct_or! Hn; try (by apply elem_of_nil in Hn); rewrite Hn in *; exact Hk.
    + rewrite head_bytes_ext in Hb by (eapply lb_nonempty; [done|set_solver]).
      injection Hb as -> ->. rewrite <- app_assoc. rewrite <- Hn in Hk. by_width lb Hw Hk.
  - by apply (read_coll_complete false lb items).
  - by apply (read_coll_complete true lb items).
Qed.
End header.

(** ** The loop against the tree *)

Section documents.
Context (limits : ResolvedDecodeLimits) (valid : bytes → bool).
Implicit Types (ds : list doc) (dss : list (list doc)).

Abbreviation docs_bytes ds := (mjoin (map doc_bytes ds)).
Abbreviation docs_count := (sumZ doc_count).
Abbreviation docs_depth := (foldr (λ c m, Z.max (doc_depth c) m) 0).

(** The documents still to come below the stack: [k] documents for an entry
    [k], nested as deep as the entry is. *)
Inductive pending_docs : list Z → list (list doc) → Prop :=
| pending_nil : pending_docs [] []
| pending_cons p ds dss :
    Forall (doc_valid valid (maxCollectionLength limits)) ds →
    Z.of_nat (length p) + docs_depth ds <= maxDepth limits ∨ docs_depth ds = 0 →
    pending_docs p dss →
    pending_docs (Z.of_nat (length ds) :: p) (ds :: dss).

Definition all_bytes dss : bytes := mjoin (map (λ ds, docs_bytes ds) dss).
Definition all_count dss : Z := sumZ docs_count dss.

Lemma doc_count_pos d : 1 <= doc_count d.
Proof.
  revert d. fix IH 1. intros [h cs]. simpl.
  assert (0 <= docs_count cs); [|lia].
  induction cs as [|c cs IHc]; simpl; [lia|]. specialize (IH c). lia.
Qed.

Lemma docs_count_nonneg ds : 0 <= docs_count ds.
Proof.
  induction ds as [|d ds IH]; [done|]. rewrite sumZ_cons. pose proof (doc_count_pos d). lia.
Qed.

Lemma docs_count_le_bytes ds : docs_count ds <= byteLength (docs_bytes ds).
Proof.
  assert (Hd : ∀ d, doc_count d <= byteLength (doc_bytes d)).
  { fix IH 1. intros [h cs]. cbn [doc_count doc_bytes]. rewrite byteLength_app.
    assert (1 <= byteLength (head_bytes h)).
    { unfold byteLength. destruct h as [| | |[]|[]|[]|[]]; simpl; lia. }
    assert (docs_count cs <= byteLength (docs_bytes cs)); [|lia].
    induction cs as [|c cs IHc]; [done|].
    change (sumZ doc_count (c :: cs)) with (doc_count c + docs_count cs).
    change (docs_bytes (c :: cs)) with (doc_bytes c ++ docs_bytes cs).
    rewrite byteLength_app. specialize (IH c). lia. }
  induction ds as [|d ds IH]; [done|]. change (sumZ doc_count (d :: ds)) with (doc_count d + docs_count ds).
  change (docs_bytes (d :: ds)) with (doc_bytes d ++ docs_bytes ds). rewrite byteLength_app.
  specialize (Hd d). lia.
Qed.

Lemma docs_length_le_count ds : Z.of_nat (length ds) <= docs_count ds.
Proof.
  induction ds as [|d ds IH]; [done|]. rewrite sumZ_cons. cbn [length].
  pose proof (doc_count_pos d). lia.
Qed.

Lemma docs_depth_nonneg ds : 0 <= docs_depth ds.
Proof. induction ds as [|d ds IH]; simpl; lia. Qed.

Lemma all_count_nonneg dss : 0 <= all_count dss.
Proof.
  unfold all_count. induction dss as [|ds dss IH]; simpl; [lia|].
  pose proof (docs_count_nonneg ds). lia.
Qed.

Lemma all_bytes_cons ds dss : all_bytes (ds :: dss) = docs_bytes ds ++ all_bytes dss.
Proof. done. Qed.

Lemma docs_bytes_cons h cs ds :
  docs_bytes (Doc h cs :: ds) = head_bytes h ++ docs_bytes cs ++ docs_bytes ds.
Proof. simpl. by rewrite <- app_assoc. Qed.

Lemma head_children_nonneg h : head_valid valid h → 0 <= head_children h.
Proof.
  destruct h as [| | | |lb t b| |]; simpl; try lia.
  destruct (is_wrapper t); simpl; lia.
Qed.

Lemma head_no_items h : head_items h = None → head_children h = 0.
Proof. destruct h; simpl; try done. by destruct (is_wrapper _). Qed.

(** The stack after a header, seen as documents to come. *)
Lemma pending_push h p q dss :
  head_valid valid h →
  pending_docs (push (head_children h) (q :: p)) dss →
  ∃ cs ds dss', pending_docs (q :: p) (ds :: dss') ∧
    Forall (doc_valid valid (maxCollectionLength limits)) cs ∧
    Z.of_nat (length cs) = head_children h ∧
    (Z.of_nat (length (q :: p)) + docs_depth cs <= maxDepth limits ∨ docs_depth cs = 0) ∧
    all_bytes dss = docs_bytes cs ++ docs_bytes ds ++ all_bytes dss' ∧
    all_count dss = docs_count cs + docs_count ds + all_count dss'.
Proof.
  intros Hv. unfold push. destruct (_ =? 0) eqn:E; bools; intros Hp.
  - inversion Hp as [|? ds dss' ? ? ? Hq]; subst. exists [], ds, dss'.
    split_and!; try done. by right.
  - inversion Hp as [|? cs dss1 ? ? Hp1 Hq]; subst. inversion Hp1 as [|? ds dss' ? ? ? Hq']; subst.
    exists cs, ds, dss'. split_and!; try done. unfold all_count. simpl. lia.
Qed.

Lemma mp_loop_sound fuel rest total p :
  mp_loop limits valid fuel rest total p = Some true → total <= maxTotalValues limits →
  ∃ dss, pending_docs p dss ∧ rest = all_bytes dss ∧
    total + all_count dss <= maxTotalValues limits.
Proof.
  revert rest total p. induction fuel as [|fuel IH]; [done|]. intros rest total p H Ht. simpl in H.
  destruct p as [|n p].
  { injection H as H. bools. exists []. split_and!; [constructor| |unfold all_count; simpl; lia].
    unfold byteLength in H. destruct rest; [done|simpl in H; lia]. }
  destruct (n =? 0) eqn:En; bools.
  { subst n. destruct (IH _ _ _ H Ht) as (dss & Hp & -> & Hc). exists ([] :: dss). split_and!; [|done|].
    - apply (pending_cons p []); [constructor|by right|done].
    - unfold all_count in *. simpl. lia. }
  destruct (_ <? _) eqn:E; [done|]. bools.
  destruct rest as [|tag rest]; [done|].
  destruct (read_value _ _ _ _ _) as [[r p']|] eqn:Er; [|done].
  destruct (IH _ _ _ H) as (dss & Hp & -> & Hc); [lia|].
  apply read_value_sound in Er as (h & Hv & Hb & -> & Hf).
  destruct (pending_push h p (n - 1) dss Hv Hp)
    as (cs & ds & dss' & Hp' & Hcs & Hlen & Hdep & Hbytes & Hcount).
  exists ((Doc h cs :: ds) :: dss'). inversion Hp' as [|? ? ? Hds Hdd Hrest Hn]; subst.
  split_and!.
  - replace n with (Z.of_nat (length (Doc h cs :: ds))) by (cbn [length]; lia).
    constructor; [|cbn [foldr]|done].
    + constructor; [|done]. constructor; try done. intros k Hk. by destruct (Hf k Hk).
    + pose proof (docs_depth_nonneg ds). pose proof (docs_depth_nonneg cs).
      cbn [doc_depth]. destruct (head_items h) as [k|] eqn:Eh.
      * left. destruct (Hf k Eh) as (_ & Hd & _). simpl length in *. lia.
      * rewrite (Z.max_r 0) by done. done.
  - rewrite Hb, all_bytes_cons, docs_bytes_cons, <- !app_assoc. by rewrite Hbytes.
  - unfold all_count in *. simpl in *. lia.
Qed.

Lemma mp_loop_complete fuel p dss total :
  pending_docs p dss → 2 * all_count dss + Z.of_nat (length p) < Z.of_nat fuel →
  total + all_count dss <= maxTotalValues limits →
  mp_loop limits valid fuel (all_bytes dss) total p = Some true.
Proof.
  revert p dss total. induction fuel as [|fuel IH]; intros p dss total Hp Hf Ht.
  { pose proof (all_count_nonneg dss). lia. }
  destruct Hp as [|p ds dss Hds Hdep Hp]; [done|]. simpl.
  destruct ds as [|[h cs] ds].
  { simpl. apply (IH p dss); [done| |]; unfold all_count in *; simpl in *; lia. }
  apply Forall_cons in Hds as [Hd Hds]. inversion Hd as [? ? Hv Hi Hlen Hcs]; subst.
  pose proof (docs_count_nonneg ds). pose proof (docs_count_nonneg cs). pose proof (all_count_nonneg dss).
  assert (Hcount : all_count ((Doc h cs :: ds) :: dss) =
    1 + docs_count cs + docs_count ds + all_count dss) by (unfold all_count; simpl; lia).
  rewrite Hcount in *. rewrite (proj2 (Z.eqb_neq _ _)) by (cbn [length]; lia).
  rewrite (proj2 (Z.ltb_ge _ _)) by lia.
  destruct (all_bytes ((Doc h cs :: ds) :: dss)) as [|tag rest] eqn:Eb.
  { apply (f_equal byteLength) in Eb. rewrite all_bytes_cons, byteLength_app in Eb.
    pose proof (docs_count_le_bytes (Doc h cs :: ds)). unfold byteLength at 1 3 in Eb.
    change (sumZ doc_count (Doc h cs :: ds)) with (1 + docs_count cs + docs_count ds) in *.
    unfold byteLength in *. simpl length in *. lia. }
  rewrite all_bytes_cons, docs_bytes_cons, <- !app_assoc in Eb.
  assert (Hdp : Z.of_nat (length p) + 1 + docs_depth cs <= maxDepth limits ∨ head_items h = None).
  { cbn [foldr doc_depth] in Hdep. destruct (head_items h); [left|by right].
    pose proof (docs_depth_nonneg ds). pose proof (docs_depth_nonneg cs). lia. }
  rewrite (read_value_complete limits valid h tag rest _ (docs_bytes cs ++ docs_bytes ds ++ all_bytes dss)).
  - unfold push. destruct (_ =? 0) eqn:E; bools.
    + assert (cs = []) as -> by (apply nil_length_inv; lia). simpl.
      replace (Z.of_nat (S (length ds)) - 1) with (Z.of_nat (length ds)) by lia.
      apply (IH _ (ds :: dss)); [constructor; try done| |].
      * cbn [foldr] in Hdep. pose proof (docs_depth_nonneg ds). lia.
      * unfold all_count in *. simpl in *. lia.
      * unfold all_count in *. simpl in *. lia.
    + rewrite <- Hlen. cbn [length].
      replace (Z.of_nat (S (length ds)) - 1) with (Z.of_nat (length ds)) by lia.
      apply (IH _ (cs :: ds :: dss)).
      * constructor; [done| |constructor; try done].
        -- left. cbn [length]. destruct Hdp as [?|Hn]; [lia|]. apply head_no_items in Hn. lia.
        -- cbn [foldr] in Hdep. pose proof (docs_depth_nonneg ds). lia.
      * unfold all_count in *. simpl in *. lia.
      * unfold all_count in *. simpl in *. lia.
  - done.
  - intros n Hn. split; [by apply Hi|]. destruct Hdp as [Hdp|]; [|congruence].
    pose proof (docs_depth_nonneg cs). cbn [length]. split; [lia|].
    rewrite !byteLength_app. pose proof (docs_length_le_count cs).
    pose proof (docs_count_le_bytes cs). pose proof (byteLength_nonneg (docs_bytes ds)).
    pose proof (byteLength_nonneg (all_bytes dss)). lia.
  - by rewrite Eb.
Qed.
End documents.

(** Every round pops an entry or consumes a byte. *)
Lemma read_value_shrinks limits valid tag rest pending r p :
  read_value limits valid tag rest pending = Some (r, p) →
  (length r <= length rest)%nat ∧ (length p <= S (length pending))%nat.
Proof.
  intros (h & _ & Hb & -> & _)%read_value_sound. split.
  - assert (1 <= length (head_bytes h))%nat
      by (destruct h as [| | |[]|[]|[]|[]]; simpl; lia).
    apply (f_equal length) in Hb. rewrite length_app in Hb. simpl in Hb. lia.
  - unfold push. case_match; simpl; lia.
Qed.

Lemma mp_loop_total limits valid fuel rest total p :
  (2 * length rest + length p < fuel)%nat → is_Some (mp_loop limits valid fuel rest total p).
Proof.
  revert rest total p. induction fuel as [|fuel IH]; intros rest total p H; [lia|]. simpl.
  destruct p as [|n p]; [done|]. case_match; [apply IH; simpl in H; lia|].
  case_match; [done|]. destruct rest as [|tag rest]; [done|].
  destruct (read_value _ _ _ _ _) as [[r p']|] eqn:E; [|done].
  apply read_value_shrinks in E as [? ?]. apply IH. simpl in *. lia.
Qed.

(** C25: The scan always ends within its fuel, and [isSafeMessagePack] accepts
    exactly the inputs that are, byte for byte, the encoding of one MessagePack
    document (with the extensions the packer emits and valid UTF-8 in every
    string) of at most [maxTotalValues] values, nested at most [maxDepth] deep,
    with at most [maxCollectionLength] entries in every collection. *)
Theorem isSafeMessagePack_exact limits valid input :
  limits_ok limits →
  is_Some (mp_loop limits valid (mp_fuel input) input 0 [1]) ∧
  (isSafeMessagePack limits valid input = true ↔
   byteLength input <= maxDecodedBytes limits ∧
   ∃ d, doc_valid valid (maxCollectionLength limits) d ∧ doc_bytes d = input ∧
     doc_depth d <= maxDepth limits ∧ doc_count d <= maxTotalValues limits).
Proof.
  intros Hl. split; [apply mp_loop_total; unfold mp_fuel; simpl; lia|].
  unfold isSafeMessagePack. split.
  - destruct (_ <? _) eqn:E; [done|]. bools. intros H. split; [done|].
    destruct (mp_loop _ _ _ _ _ _) as [b|] eqn:Em; [|done]. simpl in H. subst b.
    apply mp_loop_sound in Em as (dss & Hp & -> & Hc); [|destruct Hl; lia].
    inversion Hp as [|? ds ? Hds Hdep Hnil Hn]; subst. inversion Hnil; subst.
    destruct ds as [|d [|]]; try (simpl in Hn; lia). exists d.
    apply Forall_inv in Hds. destruct Hl.
    unfold all_bytes, all_count in *. rewrite !sumZ_cons in Hc. cbn [map mjoin list_join foldr length] in *.
    rewrite !app_nil_r. pose proof (sumZ_nil doc_count). split_and!; try done; unfold sumZ in *; simpl in *; lia.
  - intros (Hlen & d & Hv & <- & Hdep & Hc). rewrite (proj2 (Z.ltb_ge _ _)) by lia.
    pose proof (docs_count_le_bytes [d]) as Hb.
    change (sumZ doc_count [d]) with (doc_count d + 0) in Hb.
    assert (Hj : mjoin (map doc_bytes [d]) = doc_bytes d) by apply app_nil_r.
    rewrite Hj in Hb.
    pose proof (mp_loop_complete limits valid (mp_fuel (doc_bytes d)) [1] [[d]] 0) as Hm.
    change (all_bytes [[d]]) with (mjoin (map doc_bytes [d]) ++ []) in Hm.
    rewrite Hj, app_nil_r in Hm.
    assert (Hall : all_count [[d]] = doc_count d) by (unfold all_count; simpl; lia).
    rewrite Hm; [done| |rewrite Hall; unfold mp_fuel, byteLength in *; simpl length; lia|lia].
    apply (pending_cons _ _ [] [d]); [by repeat constructor|left; simpl; destruct Hl; lia|constructor].
Qed.

Definition default_limits : ResolvedDecodeLimits :=
  {| maxEncodedBytes := MAX_PORTABLE_DECODED_BYTES; maxDecodedBytes := MAX_PORTABLE_DECODED_BYTES;
     maxDepth := DEFAULT_DECODE_MAX_DEPTH;
     maxCollectionLength := DEFAULT_DECODE_MAX_COLLECTION_LENGTH;
     maxTotalValues := DEFAULT_DECODE_MAX_TOTAL_VALUES |}.

Lemma default_limits_ok : limits_ok default_limits.
Proof. by split. Qed.

Lemma default_limits_resolved : resolveDecodeLimits no_limits = Ok default_limits.
Proof. vm_compute. reflexivity. Qed.

(** The map [{"a": [1, "é"]}]. *)
Definition sample_document : bytes := [0x81; 0xa1; 97; 0x92; 1; 0xa2; 0xc3; 0xa9].

Lemma isSafeMessagePack_exact_witness :
  isSafeMessagePack default_limits safe_utf8 sample_document = true ∧
  ∃ d, doc_valid safe_utf8 1000000 d ∧ doc_bytes d = sample_document ∧
    doc_depth d <= 128 ∧ doc_count d <= 1000000.
Proof.
  assert (H : isSafeMessagePack default_limits safe_utf8 sample_document = true)
    by (vm_compute; reflexivity).
  split; [exact H|].
  destruct (isSafeMessagePack_exact default_limits safe_utf8 sample_document default_limits_ok)
    as [_ [Hs _]].
  destruct (Hs H) as [_ Hd]. exact Hd.
Defined.

(** A record cut short, an array that claims more entries than there are bytes,
    and an overlong string are refused. *)
Example rejects_truncated : isSafeMessagePack default_limits safe_utf8 [0x92; 1] = false.
Proof. vm_compute. reflexivity. Qed.

Example rejects_forged_length :
  isSafeMessagePack default_limits safe_utf8 [0xdd; 0xff; 0xff; 0xff; 0xff; 1] = false.
Proof. vm_compute. reflexivity. Qed.

Example rejects_bad_utf8 : isSafeMessagePack default_limits safe_utf8 [0xa2; 0xc0; 0xaf] = false.
Proof. vm_compute. reflexivity. Qed.
