(* ===== verification/JsonScan.v ===== *)
(** * The JSON pre-decoder ([src/src/utils/decodeValidation.ts], lines 124 to 156)

    [isSafeJson] bounds nesting and cardinality in one pass over the bytes,
    before [JSON.parse] allocates. The model is the loop over the bytes with
    its stack of open collections (top first). The theorem computes its answer
    on every JSON text from the tree the text denotes. *)

From S2P Require Import Prelude JsValue Utf8 WirePolicy MessagePackScan.

(** ** The scan *)

Record frame := { close : Z; items : Z; content : bool }.

Definition mark_content (stack : list frame) : list frame :=
  match stack with
  | f :: below => {| close := close f; items := items f; content := true |} :: below
  | [] => []
  end.

Definition is_space (byte : Z) : bool :=
  (byte =? 32) || (byte =? 9) || (byte =? 10) || (byte =? 13).

Section scan.
Context (limits : ResolvedDecodeLimits).

(** The loop from some index on; [input] is what is left to read. *)
Fixpoint json_loop (input : bytes) (stack : list frame) (quoted : bool) (totalValues : Z)
    {struct input} : bool :=
  match input with
  | [] => negb quoted && (Z.of_nat (length stack) =? 0)
  | byte :: input =>
      if quoted then
        if byte =? 92 then
          match input with
          | [] => false (* the loop ends inside the string *)
          | _ :: input => json_loop input stack true totalValues
          end
        else json_loop input stack (negb (byte =? 34)) totalValues
      else if byte =? 34 then json_loop input (mark_content stack) true totalValues
      else if (byte =? 123) || (byte =? 91) then
        let stack := mark_content stack in
        if maxDepth limits <=? Z.of_nat (length stack) then false else
        json_loop input
          ({| close := if byte =? 123 then 125 else 93; items := 1; content := false |} :: stack)
          false totalValues
      else if (byte =? 125) || (byte =? 93) then
        match stack with
        | [] => false
        | current :: below =>
            if negb (close current =? byte) then false
            else if content current && (maxCollectionLength limits <? items current) then false
            else
              let totalValues :=
                if content current
                then totalValues + items current * (if close current =? 125 then 2 else 1)
                else totalValues in
              if maxTotalValues limits <? totalValues then false
              else json_loop input below false totalValues
        end
      else
        match stack with
        | current :: below =>
            if byte =? 44 then
              let n := items current + 1 in
              if maxCollectionLength limits <? n then false
              else json_loop input
                     ({| close := close current; items := n; content := content current |} :: below)
                     false totalValues
            else if negb (is_space byte)
            then json_loop input (mark_content stack) false totalValues
            else json_loop input stack false totalValues
        | [] => json_loop input [] false totalValues
        end
  end.

Definition isSafeJson (input : bytes) : bool :=
  if maxDecodedBytes limits <? byteLength input then false else json_loop input [] false 1.
End scan.

(** ** JSON texts

    The grammar of RFC 8259 on bytes. [JPrim] stands for numbers and literals,
    [JChar] and [JEscape] for the characters of a string. The classes are the
    grammar's or larger, so that every JSON text is an instance. *)

Inductive jchar := JChar (b : Z) | JEscape (b : Z).

Inductive lead :=
| LElement (ws : bytes)
| LMember (ws : bytes) (key : list jchar) (ws1 ws2 : bytes).

Inductive jtext :=
| JPrim (bs : bytes)
| JStr (cs : list jchar)
| JEmpty (obj : bool) (ws : bytes)
| JColl (obj : bool) (ms : members)
with members :=
| MLast (l : lead) (v : jtext) (ws : bytes)
| MCons (l : lead) (v : jtext) (ws : bytes) (ms : members).

Scheme jtext_mut := Induction for jtext Sort Prop
  with members_mut := Induction for members Sort Prop.
Combined Scheme jtext_members_ind from jtext_mut, members_mut.

Definition jchar_bytes (c : jchar) : bytes :=
  match c with JChar b => [b] | JEscape b => [92; b] end.

Definition string_bytes (cs : list jchar) : bytes := [34] ++ mjoin (map jchar_bytes cs) ++ [34].

Definition lead_bytes (l : lead) : bytes :=
  match l with
  | LElement ws => ws
  | LMember ws key ws1 ws2 => ws ++ string_bytes key ++ ws1 ++ [58] ++ ws2
  end.

Definition open_byte (obj : bool) : Z := if obj then 123 else 91.
Definition close_byte (obj : bool) : Z := if obj then 125 else 93.

Fixpoint text_bytes (v : jtext) : bytes :=
  match v with
  | JPrim bs => bs
  | JStr cs => string_bytes cs
  | JEmpty obj ws => [open_byte obj] ++ ws ++ [close_byte obj]
  | JColl obj ms => [open_byte obj] ++ members_bytes ms ++ [close_byte obj]
  end
with members_bytes (ms : members) : bytes :=
  match ms with
  | MLast l v ws => lead_bytes l ++ text_bytes v ++ ws
  | MCons l v ws ms => lead_bytes l ++ text_bytes v ++ ws ++ [44] ++ members_bytes ms
  end.

Definition spaces (ws : bytes) : bool := forallb is_space ws.

(** A byte that starts nothing: not a quote, a bracket, a brace, a comma or a
    space. *)
Definition plain_byte (b : Z) : bool :=
  negb (is_space b || bool_decide (b ∈ [34; 44; 91; 93; 123; 125])).

Definition jchar_ok (c : jchar) : bool :=
  match c with JChar b => negb ((b =? 34) || (b =? 92)) | JEscape _ => true end.

Definition lead_ok (obj : bool) (l : lead) : bool :=
  match l with
  | LElement ws => negb obj && spaces ws
  | LMember ws key ws1 ws2 => obj && spaces ws && forallb jchar_ok key && spaces ws1 && spaces ws2
  end.

Fixpoint text_ok (v : jtext) : bool :=
  match v with
  | JPrim bs => negb (bool_decide (bs = [])) && forallb plain_byte bs
  | JStr cs => forallb jchar_ok cs
  | JEmpty obj ws => spaces ws
  | JColl obj ms => members_ok obj ms
  end
with members_ok (obj : bool) (ms : members) : bool :=
  match ms with
  | MLast l v ws => lead_ok obj l && text_ok v && spaces ws
  | MCons l v ws ms => lead_ok obj l && text_ok v && spaces ws && members_ok obj ms
  end.

(** ** Measures of the tree *)

Fixpoint members_length (ms : members) : Z :=
  match ms with MLast _ _ _ => 1 | MCons _ _ _ ms => 1 + members_length ms end.

(** Values and keys below the root. *)
Fixpoint text_count (v : jtext) : Z :=
  match v with
  | JPrim _ | JStr _ | JEmpty _ _ => 0
  | JColl obj ms => members_length ms * (if obj then 2 else 1) + members_count ms
  end
with members_count (ms : members) : Z :=
  match ms with
  | MLast _ v _ => text_count v
  | MCons _ v _ ms => text_count v + members_count ms
  end.

Fixpoint text_depth (v : jtext) : Z :=
  match v with
  | JPrim _ | JStr _ => 0
  | JEmpty _ _ => 1
  | JColl _ ms => 1 + members_depth ms
  end
with members_depth (ms : members) : Z :=
  match ms with
  | MLast _ v _ => text_depth v
  | MCons _ v _ ms => Z.max (text_depth v) (members_depth ms)
  end.

(** Entries of the largest collection. *)
Fixpoint text_widest (v : jtext) : Z :=
  match v with
  | JPrim _ | JStr _ | JEmpty _ _ => 0
  | JColl _ ms => Z.max (members_length ms) (members_widest ms)
  end
with members_widest (ms : members) : Z :=
  match ms with
  | MLast _ v _ => text_widest v
  | MCons _ v _ ms => Z.max (text_widest v) (members_widest ms)
  end.

(** ** The scan on a text *)

Section exact.
Context (limits : ResolvedDecodeLimits) (Hl : limits_ok limits).
Abbreviation loop := (json_loop limits).

Lemma mark_content_idem stk : mark_content (mark_content stk) = mark_content stk.
Proof. by destruct stk. Qed.

Lemma mark_content_length stk : length (mark_content stk) = length stk.
Proof. by destruct stk. Qed.

Lemma loop_spaces ws stk tot r :
  spaces ws = true → loop (ws ++ r) stk false tot = loop r stk false tot.
Proof.
  induction ws as [|b ws IH]; [done|]. simpl. intros H. bools.
  assert (Hb : b = 32 ∨ b = 9 ∨ b = 10 ∨ b = 13).
  { unfold is_space in *. rewrite !orb_true_iff, !Z.eqb_eq in *. tauto. }
  destruct Hb as [->|[->|[->| ->]]]; simpl; (destruct stk as [|f stk]; simpl; by apply IH).
Qed.

Lemma loop_plain_byte b stk tot r :
  plain_byte b = true → loop (b :: r) stk false tot = loop r (mark_content stk) false tot.
Proof.
  unfold plain_byte. intros H. bools. rename H into Hsp, H0 into Hb.
  rewrite !not_elem_of_cons in Hb. destruct Hb as (? & ? & ? & ? & ? & ? & _).
  simpl. rewrite Hsp. rewrite !(proj2 (Z.eqb_neq _ _)) by done. simpl. by destruct stk.
Qed.

Lemma loop_plain bs stk tot r :
  bs ≠ [] → forallb plain_byte bs = true →
  loop (bs ++ r) stk false tot = loop r (mark_content stk) false tot.
Proof.
  revert stk. induction bs as [|b bs IH]; [done|]. intros stk _ H. simpl in H. bools.
  cbn [app]. rewrite loop_plain_byte by done. destruct bs as [|c bs]; [done|].
  rewrite IH by done. by rewrite mark_content_idem.
Qed.

Lemma loop_chars cs stk tot r :
  forallb jchar_ok cs = true →
  loop (mjoin (map jchar_bytes cs) ++ 34 :: r) stk true tot = loop r stk false tot.
Proof.
  induction cs as [|c cs IH]; [done|]. intros H. simpl in H. bools.
  cbn [map]. change (mjoin (jchar_bytes c :: map jchar_bytes cs))
    with (jchar_bytes c ++ mjoin (map jchar_bytes cs)).
  rewrite <- app_assoc. destruct c as [b|b]; simpl in *; [|by apply IH].
  bools. rewrite !(proj2 (Z.eqb_neq _ _)) by done. simpl. by apply IH.
Qed.

Lemma loop_string cs stk tot r :
  forallb jchar_ok cs = true →
  loop (string_bytes cs ++ r) stk false tot = loop r (mark_content stk) false tot.
Proof.
  intros H. unfold string_bytes. rewrite <- !app_assoc. simpl. by apply loop_chars.
Qed.

Lemma loop_lead obj l stk tot r :
  lead_ok obj l = true →
  loop (lead_bytes l ++ r) stk false tot = loop r (if obj then mark_content stk else stk) false tot.
Proof.
  destruct l as [ws|ws key ws1 ws2]; cbn [lead_ok lead_bytes]; intros H; bools.
  - subst obj. by apply loop_spaces.
  - subst obj. rewrite <- !app_assoc, loop_spaces, loop_string, loop_spaces by done.
    cbn [app]. rewrite loop_plain_byte, loop_spaces by done. by rewrite mark_content_idem.
Qed.

Lemma loop_open obj stk tot r :
  Z.of_nat (length stk) < maxDepth limits →
  loop (open_byte obj :: r) stk false tot =
  loop r ({| close := close_byte obj; items := 1; content := false |} :: mark_content stk) false tot.
Proof.
  intros H. destruct obj; simpl; rewrite mark_content_length, (proj2 (Z.leb_gt _ _)) by lia; done.
Qed.

Lemma loop_too_deep obj stk tot r :
  maxDepth limits <= Z.of_nat (length stk) → loop (open_byte obj :: r) stk false tot = false.
Proof.
  intros H. destruct obj; simpl; by rewrite mark_content_length, (proj2 (Z.leb_le _ _)) by lia.
Qed.

(** What closing a collection of [n] entries adds. *)
Lemma loop_close obj n (c : bool) stk tot r :
  loop (close_byte obj :: r) ({| close := close_byte obj; items := n; content := c |} :: stk) false tot =
  (let tot' := if c then tot + n * (if obj then 2 else 1) else tot in
   (negb c || (n <=? maxCollectionLength limits)) && (tot' <=? maxTotalValues limits) &&
   loop r stk false tot').
Proof.
  assert (Hneg : ∀ a b, (a <? b) = negb (b <=? a)) by (intros; apply Z.ltb_antisym).
  destruct obj; simpl; rewrite !Hneg; destruct c; simpl;
    repeat (destruct (_ <=? _); simpl); done.
Qed.

Lemma loop_comma f stk tot r :
  loop (44 :: r) (f :: stk) false tot =
  ((items f + 1 <=? maxCollectionLength limits) &&
   loop r ({| close := close f; items := items f + 1; content := content f |} :: stk) false tot).
Proof. simpl. rewrite Z.ltb_antisym. by destruct (_ <=? _). Qed.

Lemma measures_nonneg :
  (∀ v, 0 <= text_count v ∧ 0 <= text_depth v ∧ 0 <= text_widest v) ∧
  (∀ ms, 1 <= members_length ms ∧ 0 <= members_count ms ∧ 0 <= members_depth ms ∧
         0 <= members_widest ms).
Proof. apply jtext_members_ind; simpl; intros; try lia. destruct obj; lia. Qed.

(** Within the limits, inside [d] open collections and after [tot] values. *)
Definition text_fits (d tot : Z) (v : jtext) : bool :=
  (d + text_depth v <=? maxDepth limits) && (text_widest v <=? maxCollectionLength limits) &&
  (tot + text_count v <=? maxTotalValues limits).

Definition members_fit (d tot n : Z) (ms : members) : bool :=
  (d + members_depth ms <=? maxDepth limits) && (members_widest ms <=? maxCollectionLength limits) &&
  (n + members_length ms - 1 <=? maxCollectionLength limits) &&
  (tot + members_count ms <=? maxTotalValues limits).

Lemma loop_text :
  (∀ v stk tot r, text_ok v = true → tot <= maxTotalValues limits →
     Z.of_nat (length stk) <= maxDepth limits →
     loop (text_bytes v ++ r) stk false tot =
     text_fits (Z.of_nat (length stk)) tot v && loop r (mark_content stk) false (tot + text_count v)) ∧
  (∀ ms obj f stk tot r, members_ok obj ms = true → tot <= maxTotalValues limits →
     Z.of_nat (length (f :: stk)) <= maxDepth limits → items f <= maxCollectionLength limits →
     loop (members_bytes ms ++ r) (f :: stk) false tot =
     members_fit (Z.of_nat (length (f :: stk))) tot (items f) ms &&
     loop r ({| close := close f; items := items f + members_length ms - 1; content := true |} :: stk)
       false (tot + members_count ms)).
Proof.
  destruct measures_nonneg as [Hv Hm].
  destruct Hl as [_ _ Hdepth Hcoll Htotal].
  apply jtext_members_ind; unfold text_fits, members_fit.
  - intros bs stk tot r H Ht Hd. simpl in *. bools. rewrite loop_plain by done.
    rewrite !Z.add_0_r, !(proj2 (Z.leb_le _ _)) by lia. done.
  - intros cs stk tot r H Ht Hd. cbn [text_bytes text_depth text_widest text_count text_ok] in *.
    rewrite loop_string by done.
    rewrite !Z.add_0_r, !(proj2 (Z.leb_le _ _)) by lia. done.
  - intros obj ws stk tot r H Ht Hd. cbn [text_bytes text_depth text_widest text_count text_ok] in *.
    cbn [app]. destruct (Z_lt_le_dec (Z.of_nat (length stk)) (maxDepth limits)) as [Hlt|Hge].
    + rewrite loop_open, <- app_assoc, loop_spaces by done. cbn [app]. rewrite loop_close. cbn [negb orb].
      rewrite Z.add_0_r, !(proj2 (Z.leb_le _ _)) by lia. done.
    + rewrite loop_too_deep by done. by rewrite (proj2 (Z.leb_gt _ _)) by lia.
  - intros obj ms IH stk tot r H Ht Hd. cbn [text_bytes text_depth text_widest text_count text_ok] in *.
    cbn [app]. specialize (Hm ms) as (? & ? & ? & ?).
    destruct (Z_lt_le_dec (Z.of_nat (length stk)) (maxDepth limits)) as [Hlt|Hge].
    + rewrite loop_open, <- app_assoc by done. rewrite (IH obj) by (simpl; rewrite ?mark_content_length; try done; lia).
      cbn [app items close]. rewrite loop_close. cbn [negb orb]. cbv zeta.
      replace (1 + members_length ms - 1) with (members_length ms) by lia.
      cbn [length]. rewrite mark_content_length.
      replace (tot + members_count ms + members_length ms * (if obj then 2 else 1))
        with (tot + (members_length ms * (if obj then 2 else 1) + members_count ms)) by lia.
      rewrite !andb_assoc. f_equal. apply eq_true_iff_eq. rewrite !andb_true_iff, !Z.leb_le.
      destruct obj; lia.
    + rewrite loop_too_deep by done. by rewrite (proj2 (Z.leb_gt _ _)) by lia.
  - intros l v IH ws obj f stk tot r H Ht Hd Hi.
    cbn [members_bytes members_depth members_widest members_count members_length members_ok] in *.
    bools. rewrite <- !app_assoc, (loop_lead obj) by done.
    assert (Hlen : length (if obj then mark_content (f :: stk) else f :: stk) = length (f :: stk))
      by (destruct obj; done).
    rewrite IH by (rewrite ?Hlen; done). rewrite Hlen, loop_spaces by done. unfold text_fits.
    replace (mark_content (if obj then mark_content (f :: stk) else f :: stk))
      with (mark_content (f :: stk)) by (destruct obj; done).
    cbn [mark_content]. replace (items f + 1 - 1) with (items f) by lia. f_equal.
    rewrite (proj2 (Z.leb_le (items f) _)) by done. by rewrite andb_true_r.
  - intros l v IH ws ms IHm obj f stk tot r H Ht Hd Hi.
    cbn [members_bytes members_depth members_widest members_count members_length members_ok] in *.
    specialize (Hm ms) as (? & ? & ? & ?). specialize (Hv v) as (? & ? & ?).
    bools. rewrite <- !app_assoc, (loop_lead obj) by done.
    assert (Hlen : length (if obj then mark_content (f :: stk) else f :: stk) = length (f :: stk))
      by (destruct obj; done).
    rewrite IH by (rewrite ?Hlen; done). rewrite Hlen, loop_spaces by done.
    replace (mark_content (if obj then mark_content (f :: stk) else f :: stk))
      with (mark_content (f :: stk)) by (destruct obj; done).
    cbn [mark_content app]. rewrite loop_comma. cbn [items close content].
    fold (text_fits (Z.of_nat (length (f :: stk))) tot v).
    destruct (text_fits _ _ _) eqn:Ef; unfold text_fits in Ef; cbn [andb].
    + bools. destruct (items f + 1 <=? _) eqn:Ei; cbn [andb].
      * bools. rewrite (IHm obj) by (try done; cbn [length items] in *; lia). cbn [items close length].
        replace (items f + 1 + members_length ms - 1) with (items f + (1 + members_length ms) - 1) by lia.
        replace (tot + text_count v + members_count ms) with (tot + (text_count v + members_count ms)) by lia.
        f_equal. apply eq_true_iff_eq. rewrite !andb_true_iff, !Z.leb_le. cbn [length] in *. lia.
      * bools. symmetry. apply andb_false_intro1. apply not_true_iff_false.
        rewrite !andb_true_iff, !Z.leb_le. lia.
    + symmetry. apply andb_false_intro1. apply not_true_iff_false. apply not_true_iff_false in Ef.
      contradict Ef. rewrite !andb_true_iff, !Z.leb_le in *. cbn [length] in *. lia.
Qed.
End exact.

(** C35: On every JSON text, with any white space around it, [isSafeJson]
    answers whether the text is at most [maxDecodedBytes] long, nests at most
    [maxDepth] collections, puts at most [maxCollectionLength] entries in one,
    and has at most [maxTotalValues] values and keys. *)
Theorem isSafeJson_exact limits v ws ws' :
  limits_ok limits → text_ok v = true → spaces ws = true → spaces ws' = true →
  isSafeJson limits (ws ++ text_bytes v ++ ws') =
  (byteLength (ws ++ text_bytes v ++ ws') <=? maxDecodedBytes limits) &&
  (text_depth v <=? maxDepth limits) && (text_widest v <=? maxCollectionLength limits) &&
  (1 + text_count v <=? maxTotalValues limits).
Proof.
  intros Hl Hv Hw Hw'. unfold isSafeJson. rewrite Z.ltb_antisym.
  destruct (byteLength _ <=? _); [|done]. cbn [negb]. rewrite loop_spaces by done.
  rewrite (proj1 (loop_text limits Hl)); [|done|by destruct Hl|destruct Hl; simpl; lia].
  rewrite <- (app_nil_r ws'), loop_spaces by done. unfold text_fits. cbn [length Z.of_nat Z.add].
  by rewrite andb_true_r.
Qed.

(** An object with a nested array, an empty object, a bracket inside a key
    and an escaped quote inside a string. *)
Definition sample_text : jtext :=
  JColl true
    (MCons (LMember [32] [JChar 97] [32] [32])
       (JColl false (MCons (LElement []) (JPrim [49]) [] (MLast (LElement [32]) (JEmpty true []) []))) []
    (MLast (LMember [32] [JChar 98; JChar 93] [] [32]) (JStr [JEscape 34; JChar 120]) [32])).

Lemma isSafeJson_exact_witness :
  isSafeJson default_limits ([10] ++ text_bytes sample_text ++ [10]) = true ∧
  isSafeJson {| maxEncodedBytes := 100; maxDecodedBytes := 100; maxDepth := 2;
                maxCollectionLength := 10; maxTotalValues := 10 |}
    ([10] ++ text_bytes sample_text ++ [10]) = false.
Proof.
  split.
  - rewrite isSafeJson_exact; [reflexivity|apply default_limits_ok|reflexivity..].
  - rewrite isSafeJson_exact; [reflexivity|split; simpl; lia|reflexivity..].
Defined.
