(* ===== verification/Codecs.v ===== *)
(** * Compression codecs and size tiers ([src/src/utils/codecs.ts])

    The codec registry, the tier list that picks a codec by payload size and
    its validation, and the output-length checks the source makes before it
    calls a native decompressor. The native libraries (zlib, lz4-napi, snappy)
    are a record of functions; what the source relies on is [natives_ok]. *)

From S2P Require Import Prelude JsValue Utf8 WirePolicy.

(** ** The native libraries *)

Inductive native_error := NativeError | RangeError (message : string).

Record Natives := {
  ZSTD_AVAILABLE : bool;
  gzipSync : bytes → bytes;
  gunzipSync : bytes → option Z → result native_error bytes;
  zstdCompressSync : bytes → bytes;
  zstdDecompressSync : bytes → option Z → result native_error bytes;
  lz4Compress : bytes → bytes;
  lz4Uncompress : bytes → result native_error bytes;
  snappyCompress : bytes → bytes;
  snappyUncompress : bytes → result native_error bytes }.

(** [buffer.readUInt32LE(0)] of at least four bytes. *)
Definition readUInt32LE (b : bytes) : Z :=
  match b with
  | b0 :: b1 :: b2 :: b3 :: _ => b0 + 256 * b1 + 65536 * b2 + 16777216 * b3
  | _ => 0
  end.

(** ** The registry *)

Inductive CodecName := none | gzip | zstd | lz4 | snappy.
#[export] Instance CodecName_eq_dec : EqDecision CodecName.
Proof. solve_decision. Defined.

Definition codec_names : list CodecName := [none; gzip; zstd; lz4; snappy].

Definition codec_tag (c : CodecName) : option jsstring :=
  match c with
  | none => None
  | gzip => Some HC1_GZIP_TAG
  | zstd => Some HC1_ZSTD_TAG
  | lz4 => Some HC1_LZ4_TAG
  | snappy => Some HC1_SNAPPY_TAG
  end.

(** The varint at the head of a raw Snappy block, from byte [i] on. *)
Fixpoint snappy_varint (steps : nat) (input : bytes) (scale len : Z) : result native_error Z :=
  match steps with
  | O => Throw (RangeError "Invalid Snappy output length")
  | S steps =>
      match input with
      | [] => Throw (RangeError "Invalid Snappy output length")
      | byte :: input =>
          let len := len + Z.land byte 0x7f * scale in
          if byte <? 0x80 then
            if 0xffffffff <? len then Throw (RangeError "Invalid Snappy output length") else Ok len
          else snappy_varint steps input (scale * 2 ^ 7) len
      end
  end.

Definition snappyOutputLength (input : bytes) : result native_error Z := snappy_varint 5 input 1 0.

Section codecs.
Context (N : Natives).

Definition compress (c : CodecName) (input : bytes) : bytes :=
  match c with
  | none => input
  | gzip => gzipSync N input
  | zstd => zstdCompressSync N input
  | lz4 => lz4Compress N input
  | snappy => snappyCompress N input
  end.

Definition decompress (c : CodecName) (input : bytes) (maxOutputBytes : option Z)
    : result native_error bytes :=
  match c with
  | none => Ok input
  | gzip => gunzipSync N input maxOutputBytes
  | zstd =>
      (* on a runtime without zstd the call itself throws *)
      if ZSTD_AVAILABLE N then zstdDecompressSync N input maxOutputBytes else Throw NativeError
  | lz4 =>
      match maxOutputBytes with
      | Some m =>
          if (byteLength input <? 4) || (m <? readUInt32LE input)
          then Throw (RangeError "LZ4 decoded value exceeds limit")
          else lz4Uncompress N input
      | None => lz4Uncompress N input
      end
  | snappy =>
      match maxOutputBytes with
      | Some m =>
          n <~ snappyOutputLength input ;;
          if m <? n then Throw (RangeError "Snappy decoded value exceeds limit")
          else snappyUncompress N input
      | None => snappyUncompress N input
      end
  end.

Definition codecByTag (tag : jsstring) : option CodecName :=
  List.find (λ c, bool_decide (codec_tag c = Some tag)) codec_names.

Definition codecAvailable (c : CodecName) : bool :=
  match c with zstd => ZSTD_AVAILABLE N | _ => true end.

(** ** Tiers

    The codec of a tier is a name looked up in the registry object: one of its
    own keys, a name inherited from [Object.prototype] (for which [in] answers
    true as well), or anything else. *)

Inductive codec_ref := Own (c : CodecName) | Inherited (s : jsstring) | Unknown (s : jsstring).

Record CompressionTier := { maxBytes : option jsnum; codec : codec_ref }.

Definition DEFAULT_TIERS : list CompressionTier :=
  [ {| maxBytes := Some (JInt 256); codec := Own none |};
    {| maxBytes := Some (JInt (4 * 1024)); codec := Own lz4 |};
    {| maxBytes := None; codec := Own (if ZSTD_AVAILABLE N then zstd else lz4) |} ].

Definition autoTiers : list CompressionTier := DEFAULT_TIERS.

(** [CODECS[name]], after the availability fallback. [None] is a lookup that
    does not give a codec: [undefined] or an inherited function. *)
Definition tier_codec (r : codec_ref) : option CodecName :=
  match r with
  | Own c => Some (if codecAvailable c then c else lz4)
  | Inherited _ | Unknown _ => None
  end.

Definition tier_covers (tier : CompressionTier) (len : Z) : bool :=
  match maxBytes tier with None => true | Some m => num_lt (JInt len) m end.

Fixpoint selectCodec (tiers : list CompressionTier) (len : Z) : option CodecName :=
  match tiers with
  | [] => Some none
  | tier :: tiers =>
      if tier_covers tier len then tier_codec (codec tier) else selectCodec tiers len
  end.

Inductive tier_error := EmptyTiers | UnknownCodec | MissingMaxBytes | UnorderedMaxBytes.

Fixpoint validate_tiers_from (tiers : list CompressionTier) (previous : jsnum)
    : result tier_error unit :=
  match tiers with
  | [] => Ok tt
  | tier :: rest =>
      _ <~ guard_ok (match codec tier with Unknown _ => false | _ => true end) UnknownCodec ;;
      match maxBytes tier with
      | None => if bool_decide (rest = []) then Ok tt else Throw MissingMaxBytes
      | Some m =>
          if negb (num_is_finite m) || num_le m previous then Throw UnorderedMaxBytes
          else validate_tiers_from rest m
      end
  end.

Definition validateTiers (tiers : list CompressionTier) : result tier_error unit :=
  match tiers with
  | [] => Throw EmptyTiers
  | _ => validate_tiers_from tiers (JInt 0)
  end.
End codecs.

(** ** What the native libraries promise *)

(** Decompression inverts compression when the output fits the given bound;
    an LZ4 block starts with the little-endian size of its content and a
    Snappy block with its varint. *)
Record natives_ok (N : Natives) : Prop := {
  gzip_inverse b m : (∀ n, m = Some n → byteLength b <= n) → gunzipSync N (gzipSync N b) m = Ok b;
  zstd_inverse b m :
    (∀ n, m = Some n → byteLength b <= n) → zstdDecompressSync N (zstdCompressSync N b) m = Ok b;
  lz4_inverse b : byteLength b < 2 ^ 32 → lz4Uncompress N (lz4Compress N b) = Ok b;
  lz4_prefix b :
    byteLength b < 2 ^ 32 →
    4 <= byteLength (lz4Compress N b) ∧ readUInt32LE (lz4Compress N b) = byteLength b;
  snappy_inverse b : byteLength b < 2 ^ 32 → snappyUncompress N (snappyCompress N b) = Ok b;
  snappy_prefix b :
    byteLength b < 2 ^ 32 → snappyOutputLength (snappyCompress N b) = Ok (byteLength b) }.

(** ** Facts *)

Lemma codecByTag_tag c t : codec_tag c = Some t → codecByTag t = Some c.
Proof. destruct c; intros [= <-]; reflexivity. Qed.

Lemma codecByTag_spec t c : codecByTag t = Some c → codec_tag c = Some t.
Proof.
  unfold codecByTag. intros [_ H]%List.find_some. by apply bool_decide_eq_true in H.
Qed.

Lemma codecByTag_other t :
  t ∉ [HC1_GZIP_TAG; HC1_ZSTD_TAG; HC1_LZ4_TAG; HC1_SNAPPY_TAG] → codecByTag t = None.
Proof.
  intros Ht. destruct (codecByTag t) as [c|] eqn:E; [|done]. apply codecByTag_spec in E.
  destruct c; simpl in E; injection E as <- || done; set_solver.
Qed.

(** The registry's own round trip: what a codec can be asked to write, it
    reads back under any bound that admits the content. *)
Lemma decompress_compress N c b m :
  natives_ok N → codecAvailable N c = true → byteLength b < 2 ^ 32 →
  (∀ n, m = Some n → byteLength b <= n) →
  decompress N c (compress N c b) m = Ok b.
Proof.
  intros Hn Ha Hb Hm. destruct c; cbn [compress decompress codecAvailable] in *.
  - done.
  - by apply (gzip_inverse N Hn).
  - rewrite Ha. by apply (zstd_inverse N Hn).
  - destruct (lz4_prefix N Hn b Hb) as [H4 Hp]. rewrite (lz4_inverse N Hn b Hb).
    destruct m as [m|]; [|done]. specialize (Hm m eq_refl). rewrite Hp.
    rewrite !(proj2 (Z.ltb_ge _ _)) by lia. done.
  - rewrite (snappy_prefix N Hn b Hb), (snappy_inverse N Hn b Hb). cbn [rbind].
    destruct m as [m|]; [|done]. specialize (Hm m eq_refl).
    rewrite (proj2 (Z.ltb_ge _ _)) by lia. done.
Qed.

Lemma validate_tiers_codecs tiers p :
  validate_tiers_from tiers p = Ok tt → Forall (λ t, ∀ s, codec t ≠ Unknown s) tiers.
Proof.
  revert p. induction tiers as [|t tiers IH]; intros p H; [constructor|]. simpl in H.
  apply rbind_ok in H as (u & Hg & H). destruct u. apply guard_ok_ok in Hg.
  constructor; [by intros s Hs; rewrite Hs in Hg|].
  destruct (maxBytes t) as [m|]; [|by destruct tiers].
  destruct (_ || _); [done|]. by eapply IH.
Qed.

(** A selected codec is always one this process can run. *)
Lemma selectCodec_available N tiers len c :
  selectCodec N tiers len = Some c → codecAvailable N c = true.
Proof.
  induction tiers as [|t tiers IH]; simpl; [by intros [= <-]|].
  destruct (tier_covers t len); [|exact IH].
  destruct (codec t) as [d|s|s]; simpl; [|done..]. intros [= <-].
  destruct (codecAvailable N d) eqn:E; done.
Qed.

(** A payload gets the codec of the first tier that covers its size. *)
Lemma selectCodec_tier N pre t post len :
  Forall (λ u, tier_covers u len = false) pre → tier_covers t len = true →
  selectCodec N (pre ++ t :: post) len = tier_codec N (codec t).
Proof.
  intros Hpre Ht. induction Hpre as [|u pre Hu _ IH]; simpl; [by rewrite Ht|by rewrite Hu].
Qed.

(** A concrete instance of the libraries: gzip and zstd store, LZ4 and Snappy
    store behind their length prefix. It shows the promises are consistent. *)

Definition le32 (n : Z) : bytes := [n mod 256; n / 256 mod 256; n / 65536 mod 256; n / 16777216 mod 256].

Fixpoint varint (steps : nat) (n : Z) : bytes :=
  match steps with
  | O => []
  | S steps => if n <? 128 then [n] else (128 + n mod 128) :: varint steps (n / 128)
  end.

Fixpoint skip_varint (b : bytes) : bytes :=
  match b with [] => [] | x :: b => if x <? 128 then b else skip_varint b end.

Definition bounded_store (b : bytes) (m : option Z) : result native_error bytes :=
  match m with Some n => if n <? byteLength b then Throw NativeError else Ok b | None => Ok b end.

Definition stored_natives : Natives :=
  {| ZSTD_AVAILABLE := true; gzipSync b := b; gunzipSync := bounded_store;
     zstdCompressSync b := b; zstdDecompressSync := bounded_store;
     lz4Compress b := le32 (byteLength b) ++ b; lz4Uncompress b := Ok (drop 4 b);
     snappyCompress b := varint 5 (byteLength b) ++ b; snappyUncompress b := Ok (skip_varint b) |}.

Lemma skip_varint_app steps n b :
  steps ≠ O → 0 <= n < 128 ^ Z.of_nat steps → skip_varint (varint steps n ++ b) = b.
Proof.
  revert n. induction steps as [|steps IH]; intros n H0 Hn; [done|].
  rewrite Nat2Z.inj_succ, Z.pow_succ_r in Hn by lia. cbn [varint].
  destruct (n <? 128) eqn:E; bools; cbn [app skip_varint].
  - by rewrite (proj2 (Z.ltb_lt _ _)) by lia.
  - pose proof (Z.mod_pos_bound n 128 eq_refl). rewrite (proj2 (Z.ltb_ge _ _)) by lia.
    apply IH; [by intros ->; simpl in Hn; lia|].
    split; [apply Z.div_pos; lia|]. apply Z.div_lt_upper_bound; lia.
Qed.

Lemma snappy_varint_app steps n b scale len :
  steps ≠ O → 0 < scale → 0 <= n < 128 ^ Z.of_nat steps → len + n * scale <= 0xffffffff →
  snappy_varint steps (varint steps n ++ b) scale len = Ok (len + n * scale).
Proof.
  revert n scale len. induction steps as [|steps IH]; intros n scale len H0 Hs Hn Hle; [done|].
  rewrite Nat2Z.inj_succ, Z.pow_succ_r in Hn by lia. cbn [varint].
  assert (Hland : ∀ x, Z.land x 0x7f = x mod 128) by (intros; by apply (Z.land_ones x 7)).
  destruct (n <? 128) eqn:E; bools; cbn [app snappy_varint]; rewrite Hland.
  - rewrite Z.mod_small by lia. rewrite (proj2 (Z.ltb_lt n 0x80)) by lia.
    by rewrite (proj2 (Z.ltb_ge _ _)) by lia.
  - pose proof (Z.mod_pos_bound n 128 eq_refl). rewrite (proj2 (Z.ltb_ge _ 0x80)) by lia.
    pose proof (Z.div_mod n 128 ltac:(lia)). replace ((128 + n mod 128) mod 128) with (n mod 128)
      by (rewrite <- (Z.add_0_l (n mod 128)) at 1; rewrite Z.add_mod_idemp_r by lia;
          by rewrite (Z.add_mod 128 n 128), Z.mod_same, Z.add_0_l, Z.mod_mod by lia).
    rewrite IH; [f_equal; nia|by intros ->; simpl in Hn; lia|nia| |nia].
    split; [apply Z.div_pos; lia|]. apply Z.div_lt_upper_bound; lia.
Qed.

Lemma stored_natives_ok : natives_ok stored_natives.
Proof.
  assert (Hb : ∀ b m, (∀ n, m = Some n → byteLength b <= n) → bounded_store b m = Ok b).
  { intros b [n|] H; [|done]. simpl. by rewrite (proj2 (Z.ltb_ge _ _)) by auto. }
  split; cbn [gzipSync gunzipSync zstdCompressSync zstdDecompressSync lz4Compress lz4Uncompress
    snappyCompress snappyUncompress stored_natives].
  - apply Hb.
  - apply Hb.
  - done.
  - intros b H. pose proof (Zle_0_nat (length b)). unfold byteLength in *. split; [rewrite length_app; simpl; lia|].
    unfold le32. cbn [app readUInt32LE]. Z.div_mod_to_equations. lia.
  - intros b H. f_equal. apply skip_varint_app; [done|]. unfold byteLength in *. lia.
  - intros b H. unfold snappyOutputLength. rewrite snappy_varint_app; [f_equal; lia|done|lia| |];
      unfold byteLength in *; lia.
Qed.
