(* ===== verification/Serializer.v ===== *)
(** * The Node record serializer ([src/src/utils/serializer.ts])

    Writing a value as a tagged record, reading a record back through the
    strict bounded decoder or the legacy one, and inspecting a stored record.
    MessagePack (msgpackr) and [JSON] are a record of functions with their
    failures; compression is [Codecs]. The module's mutable tier list and the
    two environment variables are explicit arguments. *)

From S2P Require Import Prelude JsValue Utf8 WirePolicy MessagePackScan JsonScan Codecs.

(** ** The formats the source calls *)

Record Formats := {
  pack : jsval → result unit bytes;
  unpack : bytes → result unit jsval;
  strictUnpack : bytes → result unit jsval;
  stringify : jsval → result unit (option jsstring);
  parse : jsstring → result unit jsval }.

Definition NULL_SENTINEL : jsstring := CACHE_NULL_SENTINEL.

(** [Buffer.from(tag, 'ascii')] of the tags, all ASCII. *)
Definition HC1M : bytes := HC1_MSGPACK_TAG.
Definition HC1J : bytes := HC1_JSON_TAG.
Definition PREFIX_FAMILY : bytes := HC1_FAMILY.

Inductive CacheEncoding := EMsgpack | EMsgpackWith (c : CodecName) | EJson | ELegacy.

Record SerializedCacheValue := {
  buffer : bytes;
  encoding : CacheEncoding;
  originalBytes : Z;
  storedBytes : Z;
  compressionRatio : f64;
  compressed : bool }.

Inductive Format := FMsgpack | FJson | FInvalid (s : jsstring).

(** A compression argument: a tier list, or any other value by its name. *)
Inductive CompressionMode := CTiers (l : list CompressionTier) | CNamed (mode : codec_ref) | CAuto.

Record SerializeOptions := { format : option Format; compression : option CompressionMode }.

Inductive ser_error :=
| TypeError
| TierError (e : tier_error)
| CacheSerializationError (value : jsval).

Definition f64_zero : f64 := f64_of_Z 0.

Definition getCompressionSavings (originalBytes compressedBytes : Z) : f64 :=
  if originalBytes <=? 0 then f64_zero else
  let saved := f64_sub (f64_of_Z 1) (f64_div (f64_of_Z compressedBytes) (f64_of_Z originalBytes)) in
  if f64_lt saved f64_zero then f64_zero else saved.

Definition GZIP_SAVINGS_THRESHOLD : f64 := MIN_COMPRESSION_SAVINGS.
Definition GZIP_MIN_BYTES : Z := 64 * 1024.

Definition shouldGzip (packedLength compressedLength : Z) : bool :=
  if packedLength <? GZIP_MIN_BYTES then false
  else f64_le GZIP_SAVINGS_THRESHOLD (getCompressionSavings packedLength compressedLength).

Definition sizeSavings (serializedBytes deserializedBytes : Z) : f64 :=
  if deserializedBytes <=? 0 then f64_zero else
  let saved := f64_sub (f64_of_Z 1) (f64_div (f64_of_Z serializedBytes) (f64_of_Z deserializedBytes)) in
  if f64_lt saved f64_zero then f64_zero else saved.

Definition hasPrefix (buffer prefix : bytes) : bool :=
  if byteLength buffer <? byteLength prefix then false else bytes_start buffer prefix.

Definition stripPrefix (buffer prefix : bytes) : bytes := drop (length prefix) buffer.

Definition withPrefix (prefix payload : bytes) : bytes := prefix ++ payload.

(** [buffer.toString('ascii')] clears the high bit of every byte. *)
Definition ascii_decode (b : bytes) : jsstring := map (λ x, x mod 128) b.

Definition unwrapSentinel (v : jsval) : jsval :=
  match v with VStr s => if bool_decide (s = NULL_SENTINEL) then VNull else v | _ => v end.

Section serializer.
Context (N : Natives) (F : Formats).

(** ** Compression policy *)

Definition shorthand (mode : codec_ref) : list CompressionTier :=
  [{| maxBytes := Some (JInt PORTABLE_GZIP_MIN_BYTES); codec := Own none |};
   {| maxBytes := None; codec := mode |}].

Definition only_none : list CompressionTier := [{| maxBytes := None; codec := Own none |}].

Definition configureCompression (mode : CompressionMode) : result tier_error (list CompressionTier) :=
  match mode with
  | CTiers l => _ <~ validateTiers l ;; Ok l
  | CAuto => Ok (autoTiers N)
  | CNamed (Own none) => Ok only_none
  | CNamed m => Ok (shorthand m)
  end.

(** [CACHE_COMPRESSION] at load time. [json_mode] is [JSON.parse] of the text,
    read as a compression argument. *)
Definition tiersFromEnv (json_mode : jsstring → result unit CompressionMode)
    (tiers : list CompressionTier) (raw : option jsstring) : list CompressionTier :=
  let configure m := match configureCompression m with Ok l => l | Throw _ => tiers end in
  match raw with
  | None | Some [] => tiers
  | Some raw =>
      if bool_decide (raw = js "auto") then configure CAuto
      else if bool_decide (raw = js "none") then configure (CNamed (Own none))
      else if bool_decide (raw = js "zstd") then configure (CNamed (Own zstd))
      else if bool_decide (raw = js "gzip") then configure (CNamed (Own gzip))
      else match json_mode raw with Ok m => configure m | Throw _ => tiers end
  end.

Definition resolveTiers (tiers : list CompressionTier) (c : option CompressionMode)
    : result ser_error (list CompressionTier) :=
  match c with
  | None => Ok tiers
  | Some (CTiers l) =>
      match validateTiers l with Ok _ => Ok l | Throw e => Throw (TierError e) end
  | Some CAuto => Ok (autoTiers N)
  | Some (CNamed (Own none)) => Ok only_none
  | Some (CNamed (Own gzip)) => Ok (shorthand (Own gzip))
  | Some (CNamed (Own zstd)) => Ok (shorthand (Own zstd))
  | Some (CNamed _) => Throw TypeError
  end.

(** ** Writing *)

(** [pack(NULL_SENTINEL)], evaluated once when the module loads. *)
Definition PACKED_SENTINEL : bytes :=
  match pack F (VStr NULL_SENTINEL) with Ok b => b | Throw _ => [] end.

Definition SENTINEL_BUFFER : bytes := HC1M ++ PACKED_SENTINEL.

Definition raw_stats (encoding : CacheEncoding) (prefix payload : bytes) : SerializedCacheValue :=
  let buffer := withPrefix prefix payload in
  {| buffer := buffer; encoding := encoding; originalBytes := byteLength payload;
     storedBytes := byteLength buffer; compressionRatio := f64_zero; compressed := false |}.

(** [Buffer.from(JSON.stringify(value), 'utf8')]; [undefined] is not bytes. *)
Definition json_record (value : jsval) : result ser_error SerializedCacheValue :=
  match stringify F value with
  | Ok (Some text) => Ok (raw_stats EJson HC1J (utf8_encode text))
  | Ok None | Throw _ => Throw TypeError
  end.

Definition msgpack_record (tiers : list CompressionTier) (value : jsval)
    (options : SerializeOptions) : result ser_error SerializedCacheValue :=
  match pack F value with
  | Throw _ => Throw (CacheSerializationError value)
  | Ok packed =>
      tiers <~ resolveTiers tiers (compression options) ;;
      match selectCodec N tiers (byteLength packed) with
      | None => Throw TypeError
      | Some codec =>
          match codec_tag codec with
          | None => Ok (raw_stats EMsgpack HC1M packed)
          | Some tag =>
              let out := compress N codec packed in
              let savings := getCompressionSavings (byteLength packed) (byteLength out) in
              if f64_le GZIP_SAVINGS_THRESHOLD savings then
                let buffer := withPrefix tag out in
                Ok {| buffer := buffer; encoding := EMsgpackWith codec;
                      originalBytes := byteLength packed; storedBytes := byteLength buffer;
                      compressionRatio := savings; compressed := true |}
              else Ok (raw_stats EMsgpack HC1M packed)
          end
      end
  end.

Definition is_nullish (v : jsval) : bool := match v with VNull | VUndef => true | _ => false end.

Definition is_sentinel (v : jsval) : bool :=
  match v with VStr s => bool_decide (s = NULL_SENTINEL) | _ => false end.

(** [isDebugJsonMode] is the argument [debugJson]. *)
Definition wants_json (debugJson : bool) (o : SerializeOptions) : bool :=
  match format o with Some FJson => true | None => debugJson | _ => false end.

Definition serializeWithStats (tiers : list CompressionTier) (debugJson : bool) (value : jsval)
    (options : SerializeOptions) : result ser_error SerializedCacheValue :=
  match format options with
  | Some (FInvalid _) => Throw TypeError
  | _ =>
      if is_nullish value then
        Ok {| buffer := SENTINEL_BUFFER; encoding := EMsgpack;
              originalBytes := byteLength PACKED_SENTINEL; storedBytes := byteLength SENTINEL_BUFFER;
              compressionRatio := f64_zero; compressed := false |}
      else if is_sentinel value then json_record value
      else if wants_json debugJson options then json_record value
      else msgpack_record tiers value options
  end.

Definition serialize (tiers : list CompressionTier) (debugJson : bool) (value : jsval)
    (options : SerializeOptions) : result ser_error bytes :=
  s <~ serializeWithStats tiers debugJson value options ;; Ok (buffer s).

(** ** The strict decoder *)

(** [isUtf8] of node:buffer. *)
Definition isUtf8 (b : bytes) : bool := safe_utf8 b.

(** A hit with its value, or a miss; throwing is a value of [result]. *)
Definition unpackChecked (limits : ResolvedDecodeLimits) (payload : bytes) (legacySentinel : bool)
    : result unit (option jsval) :=
  if negb (isSafeMessagePack limits isUtf8 payload) then Ok None
  else v <~ strictUnpack F payload ;; Ok (Some (if legacySentinel then unwrapSentinel v else v)).

Definition parseChecked (limits : ResolvedDecodeLimits) (body : bytes) : result unit (option jsval) :=
  if isSafeJson limits body && isUtf8 body
  then v <~ parse F (utf8_decode body) ;; Ok (Some v) else Ok None.

Definition decode_legacy (limits : ResolvedDecodeLimits) (buffer : bytes)
    : result unit (option jsval) :=
  if hasPrefix buffer PREFIX_FAMILY then Ok None else
  match unpackChecked limits buffer true with
  | Ok (Some v) => Ok (Some v)
  | _ => r <~ parseChecked limits buffer ;; Ok (unwrapSentinel <$> r)
  end.

Definition decode_body (limits : ResolvedDecodeLimits) (buffer : bytes)
    : result unit (option jsval) :=
  if byteLength buffer <? 4 then decode_legacy limits buffer else
  let tag := ascii_decode (take 4 buffer) in
  let body := drop 4 buffer in
  match codecByTag tag with
  | Some codec =>
      match decompress N codec body (Some (maxDecodedBytes limits)) with
      | Throw _ => Throw tt
      | Ok expanded =>
          if maxDecodedBytes limits <? byteLength expanded then Ok None
          else if bool_decide (expanded = PACKED_SENTINEL) then Ok (Some VNull)
          else unpackChecked limits expanded false
      end
  | None =>
      if bool_decide (tag = HC1_MSGPACK_TAG) then
        if maxDecodedBytes limits <? byteLength body then Ok None
        else if bool_decide (buffer = SENTINEL_BUFFER) then Ok (Some VNull)
        else unpackChecked limits body false
      else if bool_decide (tag = HC1_JSON_TAG) then parseChecked limits body
      else decode_legacy limits buffer
  end.

Definition decodeCacheRecord (raw : bytes) (options : DecodeLimits)
    : result limit_error (option jsval) :=
  limits <~ resolveDecodeLimits options ;;
  if maxEncodedBytes limits <? byteLength raw then Ok None else
  match decode_body limits raw with Ok r => Ok r | Throw _ => Ok None end.

(** ** The compatible decoder *)

Definition resolved_options (l : ResolvedDecodeLimits) : DecodeLimits :=
  {| o_maxEncodedBytes := Some (JInt (maxEncodedBytes l));
     o_maxDecodedBytes := Some (JInt (maxDecodedBytes l)); o_maxDepth := Some (JInt (maxDepth l));
     o_maxCollectionLength := Some (JInt (maxCollectionLength l));
     o_maxTotalValues := Some (JInt (maxTotalValues l)) |}.

Inductive raw_value := RNullish | RBytes (b : bytes) | RString (s : jsstring) | ROther (v : jsval).

(** [try { return e } catch { return null }]. *)
Definition or_null (r : result unit jsval) : jsval := match r with Ok v => v | Throw _ => VNull end.

Definition deserialize_buffer (buffer : bytes) : jsval :=
  let family :=
    if hasPrefix buffer PREFIX_FAMILY then VNull else
    match unpack F buffer with
    | Ok v => unwrapSentinel v
    | Throw _ => or_null (v <~ parse F (utf8_decode buffer) ;; Ok (unwrapSentinel v))
    end in
  if byteLength buffer <? 4 then family else
  match codecByTag (ascii_decode (take 4 buffer)) with
  | Some codec =>
      or_null (match decompress N codec (drop 4 buffer) None with
               | Ok b => unpack F b
               | Throw _ => Throw tt
               end)
  | None =>
      if hasPrefix buffer HC1M then
        if bool_decide (buffer = SENTINEL_BUFFER) then VNull
        else or_null (unpack F (stripPrefix buffer HC1M))
      else if hasPrefix buffer HC1J then or_null (parse F (utf8_decode (stripPrefix buffer HC1J)))
      else family
  end.

Definition deserialize_plain (raw : raw_value) : jsval :=
  match raw with
  | RNullish => VNull
  | RBytes b => deserialize_buffer b
  | RString s =>
      if bool_decide (s = NULL_SENTINEL) then VNull else
      match parse F s with Ok v => unwrapSentinel v | Throw _ => VStr s end
  | ROther v => v
  end.

Definition deserialize (raw : raw_value) (options : option DecodeLimits) : result limit_error jsval :=
  match options with
  | None => Ok (deserialize_plain raw)
  | Some o =>
      limits <~ resolveDecodeLimits o ;;
      match raw with
      | RBytes b =>
          r <~ decodeCacheRecord b (resolved_options limits) ;; Ok (r ?? VNull)
      | RString s =>
          let n := utf8_length s in
          if (maxEncodedBytes limits <? n) || (maxDecodedBytes limits <? n) then Ok VNull
          else if bool_decide (s = NULL_SENTINEL) then Ok VNull
          else if negb (isSafeJson limits (utf8_encode s)) then Ok VNull
          else match parse F s with Ok v => Ok (unwrapSentinel v) | Throw _ => Ok (VStr s) end
      | _ => Ok (deserialize_plain raw)
      end
  end.

(** ** Inspection *)

Record BufferInspection := { i_encoding : CacheEncoding; i_storedBytes : Z; i_value : jsval }.

Definition inspectBuffer (raw : bytes) : BufferInspection :=
  {| i_encoding :=
       if byteLength raw <? 4 then ELegacy else
       match codecByTag (ascii_decode (take 4 raw)) with
       | Some codec => EMsgpackWith codec
       | None => if hasPrefix raw HC1M then EMsgpack else if hasPrefix raw HC1J then EJson else ELegacy
       end;
     i_storedBytes := byteLength raw;
     i_value := deserialize_buffer raw |}.

(** [String(value).length] of a number is an argument. *)
Definition estimateValueBytes (number_length : jsnum → Z) (value : jsval) : Z :=
  match value with
  | VUndef | VNull => 0
  | VStr s => utf8_length s
  | VNum n => number_length n
  | VBool b => if b then 4 else 5
  | _ => match stringify F value with
         | Ok (Some text) => utf8_length text
         | Ok None => 0
         | Throw _ => 0
         end
  end.
End serializer.

(** ** Round trips *)

Lemma safe_utf8_encode s : code_units s → well_formed s = true → safe_utf8 (utf8_encode s) = true.
Proof.
  intros Hu Hw. destruct (well_formed_scalars s Hu Hw) as (cs & Hcs & ->).
  rewrite utf8_encode_utf16 by done. by apply safe_utf8_complete.
Qed.

Lemma byteLength_lt4 (tag body : bytes) : length tag = 4%nat → (byteLength (tag ++ body) <? 4) = false.
Proof. intros H. apply Z.ltb_ge. unfold byteLength. rewrite length_app. lia. Qed.

Lemma ascii_decode_ascii b : ascii b → ascii_decode b = b.
Proof. induction 1 as [|c b Hc _ IH]; [done|]. simpl. rewrite IH. f_equal. apply Z.mod_small. lia. Qed.

(** What the readers see of a record written with a known tag. *)
Lemma tag_view tag body :
  ascii tag → length tag = 4%nat →
  ascii_decode (take 4 (tag ++ body)) = tag ∧ drop 4 (tag ++ body) = body.
Proof.
  intros Ha H4. rewrite <- H4, take_app_length, drop_app_length. split; [|done].
  by apply ascii_decode_ascii.
Qed.

Lemma hasPrefix_app tag body : hasPrefix (tag ++ body) tag = true.
Proof.
  unfold hasPrefix. rewrite bytes_start_app. unfold byteLength. rewrite length_app.
  by rewrite (proj2 (Z.ltb_ge _ _)) by lia.
Qed.

Lemma hasPrefix_neq tag tag' body :
  length tag = length tag' → tag ≠ tag' → hasPrefix (tag ++ body) tag' = false.
Proof.
  intros Hl Hn. unfold hasPrefix. destruct (_ <? _); [done|]. apply not_true_iff_false.
  intros (rest & H)%bytes_start_spec. by apply app_inj_1 in H as [? _].
Qed.

Section roundtrip.
Context (N : Natives) (F : Formats).

(** What the source relies on for its two special strings. *)
Record formats_ok : Prop := {
  sentinel_packs : ∃ b, pack F (VStr NULL_SENTINEL) = Ok b ∧ unpack F b = Ok (VStr NULL_SENTINEL) }.

(** The format restores this value. *)
Definition restores (v : jsval) (e : CacheEncoding) : Prop :=
  match e with
  | EJson => ∀ t, stringify F v = Ok (Some t) →
      code_units t ∧ well_formed t = true ∧ parse F t = Ok v
  | _ => ∀ p, pack F v = Ok p → unpack F p = Ok v ∧ strictUnpack F p = Ok v
  end.

(** The encoded value is within the reader's limits. *)
Definition fits (limits : ResolvedDecodeLimits) (v : jsval) (e : CacheEncoding) : Prop :=
  match e with
  | EJson => ∀ t, stringify F v = Ok (Some t) → isSafeJson limits (utf8_encode t) = true
  | _ => ∀ p, pack F v = Ok p → isSafeMessagePack limits isUtf8 p = true
  end.

(** What a reader gets back: [undefined] is stored as [null]. *)
Definition stored_value (v : jsval) : jsval := if is_nullish v then VNull else v.

Abbreviation decoded limits buf v :=
  (decode_body N F limits buf = Ok (Some v) ∧ deserialize_buffer N F buf = v).

Lemma sentinel_decodes limits :
  byteLength (PACKED_SENTINEL F) <= maxDecodedBytes limits →
  decoded limits (SENTINEL_BUFFER F) VNull ∧
  i_encoding (inspectBuffer N F (SENTINEL_BUFFER F)) = EMsgpack.
Proof.
  intros Hm. unfold inspectBuffer, decode_body, deserialize_buffer, SENTINEL_BUFFER.
  destruct (tag_view HC1M (PACKED_SENTINEL F)) as [-> ->]; [by repeat constructor|done|].
  rewrite byteLength_lt4, hasPrefix_app by done.
  assert (Hc : codecByTag HC1M = None) by (vm_compute; reflexivity). rewrite Hc.
  rewrite (bool_decide_eq_true_2 (HC1M = HC1_MSGPACK_TAG)) by done.
  rewrite (proj2 (Z.ltb_ge _ _)) by lia. rewrite !bool_decide_eq_true_2 by done. done.
Qed.

Lemma json_decodes limits v t :
  stringify F v = Ok (Some t) → restores v EJson → fits limits v EJson →
  decoded limits (HC1J ++ utf8_encode t) v ∧
  i_encoding (inspectBuffer N F (HC1J ++ utf8_encode t)) = EJson.
Proof.
  intros Ht Hr Hf. destruct (Hr t Ht) as (Hu & Hw & Hp). specialize (Hf t Ht).
  unfold inspectBuffer, decode_body, deserialize_buffer.
  destruct (tag_view HC1J (utf8_encode t)) as [-> ->]; [by repeat constructor|done|].
  rewrite byteLength_lt4, hasPrefix_app, hasPrefix_neq by done.
  assert (Hc : codecByTag HC1J = None) by (vm_compute; reflexivity). rewrite Hc.
  rewrite bool_decide_eq_false_2 by done. rewrite bool_decide_eq_true_2 by done.
  unfold parseChecked, isUtf8, stripPrefix. rewrite Hf, safe_utf8_encode by done.
  rewrite drop_app_length, utf8_roundtrip by done. cbn [andb rbind i_encoding]. rewrite Hp. done.
Qed.

Lemma packed_not_sentinel v p :
  formats_ok → is_sentinel v = false → pack F v = Ok p → unpack F p = Ok v → p ≠ PACKED_SENTINEL F.
Proof.
  intros [(b & Hb & Hu)] Hs Hp Hv ->. unfold PACKED_SENTINEL in Hv. rewrite Hb, Hu in Hv.
  injection Hv as <-. unfold is_sentinel in Hs. by rewrite bool_decide_eq_true_2 in Hs.
Qed.

Lemma msgpack_decodes limits v p :
  formats_ok → is_sentinel v = false →
  pack F v = Ok p → restores v EMsgpack → fits limits v EMsgpack →
  byteLength p <= maxDecodedBytes limits →
  decoded limits (HC1M ++ p) v ∧ i_encoding (inspectBuffer N F (HC1M ++ p)) = EMsgpack.
Proof.
  intros HF Hs Hp Hr Hf Hm. destruct (Hr p Hp) as [Hu Hsu]. specialize (Hf p Hp).
  assert (HC1M ++ p ≠ SENTINEL_BUFFER F).
  { intros H. apply app_inv_head in H. by eapply packed_not_sentinel. }
  unfold inspectBuffer, decode_body, deserialize_buffer.
  destruct (tag_view HC1M p) as [-> ->]; [by repeat constructor|done|].
  rewrite byteLength_lt4, hasPrefix_app by done.
  assert (Hc : codecByTag HC1M = None) by (vm_compute; reflexivity). rewrite Hc.
  rewrite (bool_decide_eq_true_2 (HC1M = HC1_MSGPACK_TAG)) by done.
  rewrite (proj2 (Z.ltb_ge _ _)) by lia. rewrite !bool_decide_eq_false_2 by done.
  unfold unpackChecked, stripPrefix. rewrite Hf, drop_app_length, Hu. cbn [negb].
  rewrite Hsu. done.
Qed.

(** A record with a codec's tag whose body expands to the packed value. *)
Lemma expanding_decodes limits v p c tag body :
  codec_tag c = Some tag →
  (∀ m, (∀ n, m = Some n → byteLength p <= n) → decompress N c body m = Ok p) →
  byteLength p <= maxDecodedBytes limits →
  fits limits v EMsgpack → restores v EMsgpack → pack F v = Ok p → p ≠ PACKED_SENTINEL F →
  decoded limits (tag ++ body) v ∧
  i_encoding (inspectBuffer N F (tag ++ body)) = EMsgpackWith c.
Proof.
  intros Htag Hz Hm Hf Hr Hp Hne. destruct (Hr p Hp) as [Hu Hsu]. specialize (Hf p Hp).
  unfold inspectBuffer, decode_body, deserialize_buffer.
  destruct (tag_view tag body) as [-> ->];
    [destruct c; injection Htag as <- || done; by repeat constructor
    |destruct c; by injection Htag as <- || done|].
  rewrite byteLength_lt4 by (destruct c; by injection Htag as <- || done).
  rewrite (codecByTag_tag c tag Htag), !Hz by (intros n [= <-]; lia).
  rewrite (proj2 (Z.ltb_ge _ _)) by lia. rewrite bool_decide_eq_false_2 by done.
  unfold unpackChecked. rewrite Hf, Hu. cbn [negb]. rewrite Hsu. done.
Qed.

(** The same with the packed sentinel: a hit on [null]. *)
Lemma expanding_null limits c tag body :
  codec_tag c = Some tag →
  decompress N c body (Some (maxDecodedBytes limits)) = Ok (PACKED_SENTINEL F) →
  byteLength (PACKED_SENTINEL F) <= maxDecodedBytes limits →
  decode_body N F limits (tag ++ body) = Ok (Some VNull).
Proof.
  intros Htag Hz Hm. unfold decode_body.
  destruct (tag_view tag body) as [-> ->];
    [destruct c; injection Htag as <- || done; by repeat constructor
    |destruct c; by injection Htag as <- || done|].
  rewrite byteLength_lt4 by (destruct c; by injection Htag as <- || done).
  rewrite (codecByTag_tag c tag Htag), Hz.
  rewrite (proj2 (Z.ltb_ge _ _)) by lia. by rewrite bool_decide_eq_true_2.
Qed.

Lemma msgpack_record_cases tiers v o s :
  msgpack_record N F tiers v o = Ok s →
  ∃ p, pack F v = Ok p ∧ originalBytes s = byteLength p ∧ storedBytes s = byteLength (buffer s) ∧
    (encoding s = EMsgpack ∧ buffer s = HC1M ++ p ∨
     ∃ c tag, encoding s = EMsgpackWith c ∧ codecAvailable N c = true ∧
       codec_tag c = Some tag ∧ buffer s = tag ++ compress N c p).
Proof.
  unfold msgpack_record. destruct (pack F v) as [p|]; [|done].
  intros (ts & _ & H)%rbind_ok. exists p.
  destruct (selectCodec N ts _) as [c|] eqn:Ec; [|done].
  apply selectCodec_available in Ec.
  destruct (codec_tag c) as [tag|] eqn:Et; [|injection H as <-; split_and!; try done; by left].
  destruct (f64_le _ _); injection H as <-; (split_and!; [done..|]); [|by left].
  right. by exists c, tag.
Qed.

Lemma serialize_stored tiers debug v o s :
  serializeWithStats N F tiers debug v o = Ok s → storedBytes s = byteLength (buffer s).
Proof.
  assert (Hj : json_record F v = Ok s → storedBytes s = byteLength (buffer s)).
  { unfold json_record. destruct (stringify F v) as [[t|]|]; [|done..]. by intros [= <-]. }
  assert (Hm : msgpack_record N F tiers v o = Ok s → storedBytes s = byteLength (buffer s)).
  { by intros (p & _ & _ & ? & _)%msgpack_record_cases. }
  unfold serializeWithStats.
  destruct (format o) as [[]|]; try done;
    (destruct (is_nullish v); [by intros [= <-]|]);
    (destruct (is_sentinel v); [done|]); (destruct (wants_json debug o); done).
Qed.

Lemma roundtrip_limits tiers debug v o s limits :
  natives_ok N → formats_ok →
  serializeWithStats N F tiers debug v o = Ok s →
  originalBytes s <= maxDecodedBytes limits → originalBytes s < 2 ^ 32 →
  (is_nullish v = false → restores v (encoding s) ∧ fits limits v (encoding s)) →
  decoded limits (buffer s) (stored_value v) ∧
  i_encoding (inspectBuffer N F (buffer s)) = encoding s.
Proof.
  intros HN HF Hs Hm H32 Hv. unfold serializeWithStats in Hs.
  destruct (match format o with Some (FInvalid _) => true | _ => false end) eqn:Efmt.
  { by destruct (format o) as [[]|]. }
  assert (Hs' : (if is_nullish v then
        Ok {| buffer := SENTINEL_BUFFER F; encoding := EMsgpack;
              originalBytes := byteLength (PACKED_SENTINEL F); storedBytes := byteLength (SENTINEL_BUFFER F);
              compressionRatio := f64_zero; compressed := false |}
      else if is_sentinel v then json_record F v
      else if wants_json debug o then json_record F v
      else msgpack_record N F tiers v o) = Ok s) by (by destruct (format o) as [[]|]).
  clear Hs Efmt. unfold stored_value. destruct (is_nullish v).
  { injection Hs' as <-. by apply sentinel_decodes. }
  destruct (Hv eq_refl) as [Hr Hf]. clear Hv.
  assert (Hjson : json_record F v = Ok s →
    decoded limits (buffer s) v ∧ i_encoding (inspectBuffer N F (buffer s)) = encoding s).
  { unfold json_record. destruct (stringify F v) as [[t|]|] eqn:Et; [|done..]. intros [= <-].
    by apply json_decodes. }
  destruct (is_sentinel v) eqn:Es; [by apply Hjson|]. destruct (wants_json debug o); [by apply Hjson|].
  apply msgpack_record_cases in Hs' as (p & Hp & Ho & _ & [(He & Hb)|(c & tag & He & Ha & Ht & Hb)]);
    rewrite He, Hb, Ho in *; simpl in Hr, Hf.
  - by apply msgpack_decodes.
  - apply (expanding_decodes limits v p); try done; [|by eapply packed_not_sentinel; try apply Hr].
    intros m Hmb. by apply decompress_compress.
Qed.
End roundtrip.

(** C20: Whatever policy wrote it, a record is read back as the value that was
    stored ([undefined] as [null]) by the strict decoder, by the compatible
    decoder with and without limits, and by the inspector, which also names the
    encoding the writer reports; in particular a cached [null] is a hit, and the
    sentinel string cached by a caller is not confused with it. *)
Theorem record_roundtrip N F tiers debug v o s dl limits :
  natives_ok N → formats_ok F →
  serializeWithStats N F tiers debug v o = Ok s →
  resolveDecodeLimits dl = Ok limits →
  storedBytes s <= maxEncodedBytes limits → originalBytes s <= maxDecodedBytes limits →
  originalBytes s < 2 ^ 32 →
  (is_nullish v = false → restores F v (encoding s) ∧ fits F limits v (encoding s)) →
  decodeCacheRecord N F (buffer s) dl = Ok (Some (stored_value v)) ∧
  deserialize N F (RBytes (buffer s)) None = Ok (stored_value v) ∧
  deserialize N F (RBytes (buffer s)) (Some dl) = Ok (stored_value v) ∧
  inspectBuffer N F (buffer s) =
    {| i_encoding := encoding s; i_storedBytes := storedBytes s; i_value := stored_value v |}.
Proof.
  intros HN HF Hs Hdl He Hd H32 Hv.
  assert (Hst : storedBytes s = byteLength (buffer s)).
  { by eapply serialize_stored. }
  destruct (roundtrip_limits N F tiers debug v o s limits HN HF Hs Hd H32 Hv) as [[Hb Hc] Hi].
  assert (Hdec : ∀ o', resolveDecodeLimits o' = Ok limits →
    decodeCacheRecord N F (buffer s) o' = Ok (Some (stored_value v))).
  { intros o' Ho. unfold decodeCacheRecord. rewrite Ho. cbn [rbind].
    rewrite (proj2 (Z.ltb_ge _ _)) by lia. by rewrite Hb. }
  split_and!.
  - by apply Hdec.
  - simpl. by rewrite Hc.
  - unfold deserialize. rewrite Hdl. cbn [rbind]. rewrite Hdec; [done|]. by eapply resolve_resolved.
  - rewrite Hst, <- Hi, <- Hc. done.
Qed.

Lemma code_units_b s :
  forallb (λ u, (0 <=? u) && (u <? 0x10000)) s = true → code_units s.
Proof.
  intros H. apply Forall_forall. intros u Hu.
  rewrite List.forallb_forall in H. specialize (H u). rewrite <- list_elem_of_In in H.
  specialize (H Hu). bools. lia.
Qed.

(** A small codec set: strings of up to 31 bytes and booleans, and a gzip that
    knows one payload by heart. *)
Definition toy_string (s : jsstring) : bytes := (0xa0 + byteLength (utf8_encode s)) :: utf8_encode s.

Definition toy_unpack (b : bytes) : result unit jsval :=
  match b with
  | [0xc3] => Ok (VBool true)
  | t :: body => if t =? 0xa0 + byteLength body then Ok (VStr (utf8_decode body)) else Throw tt
  | [] => Throw tt
  end.

Definition toy_formats : Formats :=
  {| pack v := match v with VBool true => Ok [0xc3] | VStr s => Ok (toy_string s) | _ => Throw tt end;
     unpack := toy_unpack; strictUnpack := toy_unpack;
     stringify v := match v with VStr s => Ok (Some (json_string s)) | _ => Ok None end;
     parse t := if bool_decide (t = json_string NULL_SENTINEL) then Ok (VStr NULL_SENTINEL)
                else Throw tt |}.

Definition toy_text : jsstring := repeat 97 30.

Definition toy_gunzip (b : bytes) (m : option Z) : result native_error bytes :=
  match b with
  | [] => Throw NativeError
  | t :: rest => bounded_store (if t =? 0 then toy_string toy_text else rest) m
  end.

Definition toy_natives : Natives :=
  {| ZSTD_AVAILABLE := false;
     gzipSync b := if bool_decide (b = toy_string toy_text) then [0] else 1 :: b;
     gunzipSync := toy_gunzip;
     zstdCompressSync := zstdCompressSync stored_natives;
     zstdDecompressSync := zstdDecompressSync stored_natives;
     lz4Compress := lz4Compress stored_natives; lz4Uncompress := lz4Uncompress stored_natives;
     snappyCompress := snappyCompress stored_natives;
     snappyUncompress := snappyUncompress stored_natives |}.

Lemma toy_natives_ok : natives_ok toy_natives.
Proof.
  destruct stored_natives_ok as [Hg Hz H1 H2 H3 H4]. split; try done.
  intros b m Hm. simpl. destruct (bool_decide (b = _)) eqn:E; bools; subst; by apply Hg.
Qed.

Lemma toy_formats_ok : formats_ok toy_formats.
Proof. split. eexists. split; reflexivity. Qed.

Definition gzip_options : SerializeOptions :=
  {| format := None; compression := Some (CTiers [{| maxBytes := None; codec := Own gzip |}]) |}.

(** A compressed string, a cached [null] and the sentinel string. *)
Lemma record_roundtrip_witness :
  (∃ s, serializeWithStats toy_natives toy_formats [] false (VStr toy_text) gzip_options = Ok s ∧
     encoding s = EMsgpackWith gzip ∧
     decodeCacheRecord toy_natives toy_formats (buffer s) no_limits = Ok (Some (VStr toy_text))) ∧
  (∃ s, serializeWithStats toy_natives toy_formats [] false VUndef gzip_options = Ok s ∧
     decodeCacheRecord toy_natives toy_formats (buffer s) no_limits = Ok (Some VNull)) ∧
  (∃ s, serializeWithStats toy_natives toy_formats [] false (VStr NULL_SENTINEL) gzip_options = Ok s ∧
     decodeCacheRecord toy_natives toy_formats (buffer s) no_limits = Ok (Some (VStr NULL_SENTINEL))).
Proof.
  split_and!.
  - eexists. split; [vm_compute; reflexivity|]. split; [reflexivity|].
    refine (proj1 (record_roundtrip toy_natives toy_formats [] false (VStr toy_text) gzip_options _
      no_limits default_limits toy_natives_ok toy_formats_ok _ default_limits_resolved _ _ _ _));
      [vm_compute; reflexivity|vm_compute; discriminate..|vm_compute; reflexivity|].
    intros _. split.
    + intros p [= <-]. vm_compute. done.
    + intros p [= <-]. vm_compute. done.
  - eexists. split; [vm_compute; reflexivity|].
    refine (proj1 (record_roundtrip toy_natives toy_formats [] false VUndef gzip_options _
      no_limits default_limits toy_natives_ok toy_formats_ok _ default_limits_resolved _ _ _ _));
      [vm_compute; reflexivity|vm_compute; discriminate..|vm_compute; reflexivity|discriminate].
  - eexists. split; [vm_compute; reflexivity|].
    refine (proj1 (record_roundtrip toy_natives toy_formats [] false (VStr NULL_SENTINEL) gzip_options _
      no_limits default_limits toy_natives_ok toy_formats_ok _ default_limits_resolved _ _ _ _));
      [vm_compute; reflexivity|vm_compute; discriminate..|vm_compute; reflexivity|].
    intros _. split.
    + intros t [= <-]. split_and!; [apply code_units_b|..]; vm_compute; reflexivity.
    + intros t [= <-]. vm_compute. reflexivity.
Defined.
