(* ===== verification/PortableSerializer.v ===== *)
(** * The Worker record serializer ([src/src/utils/portableSerializer.ts],
      [src/src/utils/cacheSerializer.ts])

    The facade that writes and reads the same records with web APIs only. A
    [CompressionStream] is a function from its input to the chunks it emits,
    ending normally or with an error; [transform] adds them up under a byte
    bound. The theorems are about exchange with the Node serializer and about
    tags neither reader knows. *)

From S2P Require Import Prelude JsValue Utf8 WirePolicy MessagePackScan JsonScan Codecs Serializer.

(** ** Streams *)

Record stream := { chunks : list bytes; fails : bool }.

Record Streams := { CompressionStream : bytes → stream; DecompressionStream : bytes → stream }.

Inductive portable_error :=
| PRangeError (message : string)
| PTypeError (message : string)
| PStreamError
| PFormatError
| PLimitError (e : limit_error).

(** The read loop: [length] bytes so far, in [acc]. *)
Fixpoint drain (cs : list bytes) (failing : bool) (len : Z) (acc : bytes) (maxBytes : Z)
    : result portable_error bytes :=
  match cs with
  | [] => if failing then Throw PStreamError else Ok acc
  | value :: cs =>
      let len := len + byteLength value in
      if maxBytes <? len then
        Throw (PRangeError (if maxBytes =? MAX_PORTABLE_DECODED_BYTES
                            then "Cloudflare KV decoded value exceeds 25 MiB"
                            else "Cloudflare KV transformed value exceeds configured limit"))
      else drain cs failing len (acc ++ value) maxBytes
  end.

Definition transform (input : bytes) (codec : bytes → stream) (maxBytes : Z)
    : result portable_error bytes :=
  drain (chunks (codec input)) (fails (codec input)) 0 [] maxBytes.

Definition lift_format {A} (r : result unit A) : result portable_error A :=
  match r with Ok a => Ok a | Throw _ => Throw PFormatError end.

Section portable.
Context (S : Streams) (F : Formats).

(** ** Writing *)

Definition serialize_packed (value : jsval) (compression : KVCompression)
    : result portable_error bytes :=
  match pack F (match value with VNull => VStr CACHE_NULL_SENTINEL | v => v end) with
  | Throw _ => Throw (PTypeError "LazyLayers cannot serialize a value")
  | Ok packed =>
      match compression with
      | KVAuto =>
          if PORTABLE_GZIP_MIN_BYTES <=? byteLength packed then
            gzipped <~ transform packed (CompressionStream S) MAX_PORTABLE_DECODED_BYTES ;;
            if shouldUsePortableGzip (byteLength packed) (byteLength gzipped)
            then Ok (withWireTag HC1_GZIP_TAG gzipped)
            else Ok (withWireTag HC1_MSGPACK_TAG packed)
          else Ok (withWireTag HC1_MSGPACK_TAG packed)
      | _ => Ok (withWireTag HC1_MSGPACK_TAG packed)
      end
  end.

Definition serializePortable (value : jsval) (compression : KVCompression)
    : result portable_error bytes :=
  match value with
  | VUndef => serialize_packed VNull KVNone
  | _ =>
      if is_sentinel value then
        match stringify F value with
        | Ok (Some text) => Ok (withWireTag HC1_JSON_TAG (utf8_encode text))
        | Ok None => Ok (withWireTag HC1_JSON_TAG [])
        | Throw _ => Throw PFormatError
        end
      else serialize_packed value compression
  end.

(** ** Reading *)

(** [new TextDecoder('utf-8', { fatal })]: a leading byte order mark is
    dropped; ill-formed input throws when [fatal]. *)
Definition text_decode (fatal : bool) (b : bytes) : result portable_error jsstring :=
  if fatal && negb (safe_utf8 b) then Throw (PTypeError "The encoded data was not valid")
  else Ok (utf8_decode (if bytes_start b [0xef; 0xbb; 0xbf] then drop 3 b else b)).

Definition unpack_portable (limits : option ResolvedDecodeLimits) (b : bytes)
    : result portable_error jsval :=
  if match limits with Some l => negb (isSafeMessagePack l safe_utf8 b) | None => false end
  then Throw (PRangeError "Cloudflare KV MessagePack value exceeds decode limits or is malformed")
  else if sameBytes b (PACKED_SENTINEL F) then Ok VNull
  else lift_format (match limits with Some _ => strictUnpack F b | None => unpack F b end).

Definition deserialize_with (limits : option ResolvedDecodeLimits) (payload : bytes)
    : result portable_error jsval :=
  if match limits with Some l => maxEncodedBytes l <? byteLength payload | None => false end
  then Throw (PRangeError "Cloudflare KV encoded value exceeds configured limit")
  else if hasWireTag payload HC1_JSON_TAG then
    let body := drop 4 payload in
    if match limits with Some l => negb (isSafeJson l body) | None => false end
    then Throw (PRangeError "Cloudflare KV JSON value exceeds decode limits or is malformed")
    else text <~ text_decode (bool_decide (is_Some limits)) body ;; lift_format (parse F text)
  else if hasWireTag payload HC1_MSGPACK_TAG then unpack_portable limits (drop 4 payload)
  else if hasWireTag payload HC1_GZIP_TAG then
    b <~ transform (drop 4 payload) (DecompressionStream S)
           (match limits with Some l => maxDecodedBytes l | None => MAX_PORTABLE_DECODED_BYTES end) ;;
    unpack_portable limits b
  else match wireTag payload with
       | Some _ => Ok VNull
       | None => Throw (PTypeError "Cloudflare Workers KV requires an HC1M, HC1G, or HC1J value")
       end.

Definition deserializePortable (payload : bytes) (options : option DecodeLimits)
    : result portable_error jsval :=
  match options with
  | None => deserialize_with None payload
  | Some o =>
      match resolveDecodeLimits o with
      | Throw e => Throw (PLimitError e)
      | Ok limits => deserialize_with (Some limits) payload
      end
  end.

Definition decodePortableCacheRecord (payload : bytes) (options : DecodeLimits)
    : result limit_error (option jsval) :=
  limits <~ resolveDecodeLimits options ;;
  if negb (hasWireTag payload HC1_MSGPACK_TAG) && negb (hasWireTag payload HC1_JSON_TAG) &&
     negb (hasWireTag payload HC1_GZIP_TAG)
  then Ok None
  else match deserializePortable payload (Some (resolved_options limits)) with
       | Ok v => Ok (Some v)
       | Throw _ => Ok None
       end.

(** The facade. *)
Definition serializeCacheValue (value : jsval) (compression : option KVCompression)
    : result portable_error bytes :=
  let compression := compression ?? KVAuto in
  match validateKVCompression (Some compression) with
  | Throw m => Throw (PTypeError m)
  | Ok _ => serializePortable value compression
  end.

Definition deserializeCacheValue (payload : bytes) (limits : option DecodeLimits)
    : result portable_error jsval := deserializePortable payload limits.
End portable.

(** ** The read loop *)

Lemma stream_drain_ok cs failing len acc maxBytes b :
  drain cs failing len acc maxBytes = Ok b → failing = false ∧ b = acc ++ mjoin cs.
Proof.
  revert len acc. induction cs as [|c cs IH]; intros len acc H; simpl in H.
  - destruct failing; [done|]. injection H as <-. by rewrite app_nil_r.
  - destruct (_ <? _); [done|]. apply IH in H as [-> ->]. split; [done|]. by rewrite <- app_assoc.
Qed.

Lemma drain_fits cs len acc maxBytes :
  len + byteLength (mjoin cs) <= maxBytes → drain cs false len acc maxBytes = Ok (acc ++ mjoin cs).
Proof.
  revert len acc. induction cs as [|c cs IH]; intros len acc H.
  - simpl. by rewrite app_nil_r.
  - change (mjoin (c :: cs)) with (c ++ mjoin cs) in *. rewrite byteLength_app in H.
    pose proof (byteLength_nonneg (mjoin cs)). cbn [drain].
    rewrite (proj2 (Z.ltb_ge _ _)) by lia. rewrite IH by lia. by rewrite <- app_assoc.
Qed.

(** No more than [maxBytes] bytes ever come out of [transform]. *)
Lemma drain_bounded cs failing len acc maxBytes b :
  drain cs failing len acc maxBytes = Ok b → len = byteLength acc → len <= maxBytes →
  byteLength b <= maxBytes.
Proof.
  revert len acc. induction cs as [|c cs IH]; intros len acc H -> Hm; simpl in H.
  - destruct failing; [done|]. by injection H as <-.
  - destruct (_ <? _) eqn:E; [done|]. bools. eapply IH; [exact H|by rewrite byteLength_app|done].
Qed.

(** ** Exchange between the runtimes *)

Section exchange.
Context (N : Natives) (S : Streams) (F : Formats).

(** The streams and zlib implement the same gzip format. *)
Record gzip_compatible : Prop := {
  stream_expands b :
    ∃ cs, DecompressionStream S (mjoin (chunks (CompressionStream S b))) = {| chunks := cs; fails := false |} ∧
          mjoin cs = b;
  zlib_expands_stream b m :
    (∀ n, m = Some n → byteLength b <= n) →
    gunzipSync N (mjoin (chunks (CompressionStream S b))) m = Ok b;
  stream_expands_zlib b :
    ∃ cs, DecompressionStream S (gzipSync N b) = {| chunks := cs; fails := false |} ∧ mjoin cs = b }.

Abbreviation HC1G := HC1_GZIP_TAG.

Lemma portable_tag tag tag' body :
  ascii tag → length tag = 4%nat → length tag' = 4%nat →
  hasWireTag (tag ++ body) tag' = bool_decide (tag = tag').
Proof.
  intros Ha H4 H4'. rewrite <- (utf8_encode_ascii tag) at 1 by done.
  apply (hasWireTag_with tag tag' body); [by apply utf8_encode_ascii|done..].
Qed.

(** The packed bytes read as [v]: the packed sentinel as [null]. *)
Definition reads_as (p : bytes) (v : jsval) : Prop :=
  if bool_decide (p = PACKED_SENTINEL F) then v = VNull else strictUnpack F p = Ok v.

Lemma unpack_portable_reads limits p v :
  isSafeMessagePack limits safe_utf8 p = true → reads_as p v →
  unpack_portable F (Some limits) p = Ok v.
Proof.
  intros Hsafe Hv. unfold unpack_portable, reads_as in *. rewrite Hsafe. cbn [negb].
  destruct (sameBytes p (PACKED_SENTINEL F)) eqn:E.
  - apply sameBytes_spec in E. rewrite bool_decide_eq_true_2 in Hv by done. by rewrite Hv.
  - rewrite bool_decide_eq_false_2 in Hv by (intros H; apply sameBytes_spec in H; congruence).
    rewrite Hv. done.
Qed.

Lemma portable_msgpack limits p v :
  byteLength (HC1M ++ p) <= maxEncodedBytes limits →
  isSafeMessagePack limits safe_utf8 p = true → reads_as p v →
  deserialize_with S F (Some limits) (HC1M ++ p) = Ok v.
Proof.
  intros He Hsafe Hv. unfold deserialize_with. rewrite (proj2 (Z.ltb_ge _ _)) by lia.
  rewrite !portable_tag by (done || by repeat constructor).
  rewrite bool_decide_eq_false_2, bool_decide_eq_true_2 by done.
  by apply unpack_portable_reads.
Qed.

Lemma portable_gzip limits z cs v :
  byteLength (HC1G ++ z) <= maxEncodedBytes limits →
  DecompressionStream S z = {| chunks := cs; fails := false |} →
  byteLength (mjoin cs) <= maxDecodedBytes limits →
  isSafeMessagePack limits safe_utf8 (mjoin cs) = true → reads_as (mjoin cs) v →
  deserialize_with S F (Some limits) (HC1G ++ z) = Ok v.
Proof.
  intros He Hz Hd Hsafe Hv. unfold deserialize_with. rewrite (proj2 (Z.ltb_ge _ _)) by lia.
  rewrite !portable_tag by (done || by repeat constructor).
  rewrite 2!bool_decide_eq_false_2, bool_decide_eq_true_2 by done.
  change (drop 4 (HC1G ++ z)) with z. unfold transform. rewrite Hz. cbn [chunks fails].
  rewrite drain_fits by lia. cbn [rbind]. by apply unpack_portable_reads.
Qed.

(** JSON texts never start with a byte order mark. *)
Lemma portable_json limits t v :
  byteLength (HC1J ++ utf8_encode t) <= maxEncodedBytes limits →
  code_units t → well_formed t = true → bytes_start (utf8_encode t) [0xef; 0xbb; 0xbf] = false →
  isSafeJson limits (utf8_encode t) = true → parse F t = Ok v →
  deserialize_with S F (Some limits) (HC1J ++ utf8_encode t) = Ok v.
Proof.
  intros He Hu Hw Hbom Hsafe Hp. unfold deserialize_with. rewrite (proj2 (Z.ltb_ge _ _)) by lia.
  rewrite portable_tag by (done || by repeat constructor). rewrite bool_decide_eq_true_2 by done.
  change (drop 4 (HC1J ++ utf8_encode t)) with (utf8_encode t). rewrite Hsafe. cbn [negb].
  unfold text_decode. rewrite safe_utf8_encode, Hbom, utf8_roundtrip by done.
  rewrite andb_false_r. cbn [rbind]. by rewrite Hp.
Qed.

Lemma decodePortable_hit limits o payload v :
  resolveDecodeLimits o = Ok limits →
  hasWireTag payload HC1_MSGPACK_TAG || hasWireTag payload HC1_JSON_TAG ||
    hasWireTag payload HC1_GZIP_TAG = true →
  deserialize_with S F (Some limits) payload = Ok v →
  decodePortableCacheRecord S F payload o = Ok (Some v).
Proof.
  intros Ho Ht Hd. unfold decodePortableCacheRecord, deserializePortable. rewrite Ho. cbn [rbind].
  rewrite <- !negb_orb, Ht. cbn [negb]. unfold resolved_options.
  rewrite (resolve_resolved o limits Ho), Hd. done.
Qed.
End exchange.

Section exchange_theorems.
Context (N : Natives) (S : Streams) (F : Formats).

(** Encodings a Worker can read. *)
Definition portable_encoding (e : CacheEncoding) : bool :=
  match e with EMsgpack | EJson | EMsgpackWith gzip => true | _ => false end.

(** A record of [v] written by either runtime, in an encoding both read. *)
Inductive written (v : jsval) : CacheEncoding → bytes → Prop :=
| from_worker c payload :
    serializePortable S F v c = Ok payload →
    written v (if is_sentinel v then EJson else EMsgpack) payload
| from_node tiers debug o s :
    serializeWithStats N F tiers debug v o = Ok s → portable_encoding (encoding s) = true →
    written v (encoding s) (buffer s).

(** What is packed for [v]: the sentinel for [null] and [undefined]. *)
Definition packed_value (v : jsval) : jsval := if is_nullish v then VStr NULL_SENTINEL else v.

(** [JSON.stringify] gives a text for a string, and every text it gives starts
    with an ASCII character. *)
Record json_ok : Prop := {
  json_string_text s : ∃ t, stringify F (VStr s) = Ok (Some t);
  json_starts_ascii v t : stringify F v = Ok (Some t) → ∃ c t', t = c :: t' ∧ 0 <= c < 0x80 }.

Lemma no_bom c t : 0 <= c < 0x80 → bytes_start (utf8_encode (c :: t)) [0xef; 0xbb; 0xbf] = false.
Proof.
  intros Hc. cbn [utf8_encode]. unfold is_high_surrogate, is_low_surrogate, utf8_char.
  zbool. cbn [andb]. cbn [app bytes_start]. by rewrite (proj2 (Z.eqb_neq c 0xef)) by lia.
Qed.

Lemma reads_as_value v p :
  formats_ok F → pack F (packed_value v) = Ok p → is_sentinel v = false →
  (is_nullish v = false → restores F v EMsgpack) → reads_as F p (stored_value v).
Proof.
  intros HF Hp Hs Hr. unfold reads_as, packed_value, stored_value in *. destruct (is_nullish v) eqn:En.
  - unfold PACKED_SENTINEL. rewrite Hp. by rewrite bool_decide_eq_true_2.
  - destruct (Hr eq_refl p Hp) as [Hu Hsu].
    rewrite bool_decide_eq_false_2 by (by eapply packed_not_sentinel). done.
Qed.

(** Both readers on the three shapes of record. *)
Lemma both_msgpack limits o v p :
  formats_ok F → resolveDecodeLimits o = Ok limits → is_sentinel v = false →
  pack F (packed_value v) = Ok p → isSafeMessagePack limits safe_utf8 p = true →
  byteLength (HC1M ++ p) <= maxEncodedBytes limits → byteLength p <= maxDecodedBytes limits →
  (is_nullish v = false → restores F v EMsgpack) →
  decodePortableCacheRecord S F (HC1M ++ p) o = Ok (Some (stored_value v)) ∧
  decodeCacheRecord N F (HC1M ++ p) o = Ok (Some (stored_value v)).
Proof.
  intros HF Ho Hs Hp Hsafe He Hd Hr. split.
  - apply (decodePortable_hit S F limits); [done| |].
    + by rewrite portable_tag by (done || by repeat constructor).
    + apply portable_msgpack; try done. by apply reads_as_value.
  - unfold decodeCacheRecord. rewrite Ho. cbn [rbind]. rewrite (proj2 (Z.ltb_ge _ _)) by lia.
    unfold packed_value, stored_value in *. destruct (is_nullish v) eqn:En.
    + assert (p = PACKED_SENTINEL F) as -> by (unfold PACKED_SENTINEL; by rewrite Hp).
      destruct (sentinel_decodes N F limits) as [[H _] _]; [done|].
      unfold SENTINEL_BUFFER in H. by rewrite H.
    + destruct (msgpack_decodes N F limits v p) as [[H _] _]; try done; [by apply Hr| |by rewrite H].
      intros q Hq. rewrite Hp in Hq. by injection Hq as <-.
Qed.

Lemma both_gzip limits o v p z cs :
  formats_ok F → resolveDecodeLimits o = Ok limits → is_sentinel v = false →
  pack F (packed_value v) = Ok p → isSafeMessagePack limits safe_utf8 p = true →
  byteLength (HC1_GZIP_TAG ++ z) <= maxEncodedBytes limits → byteLength p <= maxDecodedBytes limits →
  (is_nullish v = false → restores F v EMsgpack) →
  DecompressionStream S z = {| chunks := cs; fails := false |} → mjoin cs = p →
  (∀ m, (∀ n, m = Some n → byteLength p <= n) → gunzipSync N z m = Ok p) →
  decodePortableCacheRecord S F (HC1_GZIP_TAG ++ z) o = Ok (Some (stored_value v)) ∧
  decodeCacheRecord N F (HC1_GZIP_TAG ++ z) o = Ok (Some (stored_value v)).
Proof.
  intros HF Ho Hs Hp Hsafe He Hd Hr Hz Hj Hzlib. split.
  - apply (decodePortable_hit S F limits); [done| |].
    + by rewrite !portable_tag by (done || by repeat constructor).
    + rewrite <- Hj in *. eapply portable_gzip; try done. by apply reads_as_value.
  - unfold decodeCacheRecord. rewrite Ho. cbn [rbind]. rewrite (proj2 (Z.ltb_ge _ _)) by lia.
    unfold packed_value, stored_value in *. destruct (is_nullish v) eqn:En.
    + assert (p = PACKED_SENTINEL F) as -> by (unfold PACKED_SENTINEL; by rewrite Hp).
      rewrite (expanding_null N F limits gzip); try done. apply Hzlib. by intros n [= <-].
    + specialize (Hr eq_refl).
      destruct (expanding_decodes N F limits v p gzip HC1_GZIP_TAG z) as [[H _] _];
        try done; [|by eapply packed_not_sentinel; try apply Hr|by rewrite H].
      intros q Hq. rewrite Hp in Hq. by injection Hq as <-.
Qed.

Lemma both_json limits o v t :
  json_ok → resolveDecodeLimits o = Ok limits → is_nullish v = false →
  stringify F v = Ok (Some t) → restores F v EJson → fits F limits v EJson →
  byteLength (HC1J ++ utf8_encode t) <= maxEncodedBytes limits →
  decodePortableCacheRecord S F (HC1J ++ utf8_encode t) o = Ok (Some v) ∧
  decodeCacheRecord N F (HC1J ++ utf8_encode t) o = Ok (Some v).
Proof.
  intros Hj Ho En Ht Hr Hf He. destruct (Hr t Ht) as (Hu & Hw & Hp). split.
  - apply (decodePortable_hit S F limits); [done| |].
    + by rewrite !portable_tag by (done || by repeat constructor).
    + destruct (json_starts_ascii Hj v t Ht) as (c & t' & -> & Hc). apply portable_json; try done; [by apply no_bom|by apply Hf].
  - unfold decodeCacheRecord. rewrite Ho. cbn [rbind]. rewrite (proj2 (Z.ltb_ge _ _)) by lia.
    destruct (json_decodes N F limits v t) as [[H _] _]; try done. by rewrite H.
Qed.

Lemma safe_decoded limits p :
  isSafeMessagePack limits safe_utf8 p = true → byteLength p <= maxDecodedBytes limits.
Proof. unfold isSafeMessagePack. destruct (_ <? _) eqn:E; [done|]. by bools. Qed.

Lemma serialize_packed_cases v c payload :
  serialize_packed S F v c = Ok payload → v ≠ VUndef →
  ∃ p, pack F (packed_value v) = Ok p ∧
    (payload = HC1M ++ p ∨
     ∃ z, payload = HC1_GZIP_TAG ++ z ∧ z = mjoin (chunks (CompressionStream S p))).
Proof.
  intros H Hu. unfold serialize_packed in H.
  replace (match v with VNull => VStr CACHE_NULL_SENTINEL | v => v end) with (packed_value v) in H
    by (by destruct v).
  destruct (pack F (packed_value v)) as [p|]; [|done]. exists p. split; [done|].
  destruct c; [|injection H as <-; by left..].
  destruct (_ <=? _); [|injection H as <-; by left].
  apply rbind_ok in H as (z & Hz & H). apply stream_drain_ok in Hz as [_ ->].
  destruct (shouldUsePortableGzip _ _); injection H as <-; [|by left].
  right. eexists. split; [|done]. done.
Qed.

Lemma worker_record_cases v c payload :
  json_ok → serializePortable S F v c = Ok payload →
  (is_sentinel v = true ∧ is_nullish v = false ∧
   ∃ t, stringify F v = Ok (Some t) ∧ payload = HC1J ++ utf8_encode t) ∨
  (is_sentinel v = false ∧ ∃ p, pack F (packed_value v) = Ok p ∧
    (payload = HC1M ++ p ∨
     ∃ z, payload = HC1_GZIP_TAG ++ z ∧ z = mjoin (chunks (CompressionStream S p)))).
Proof.
  intros Hj H. destruct (is_sentinel v) eqn:Es.
  - left. assert (En : is_nullish v = false) by (by destruct v). split_and!; [done..|].
    unfold serializePortable in H. rewrite Es in H.
    assert (Ht : ∃ t, stringify F v = Ok (Some t)).
    { destruct v; try done. apply (json_string_text Hj). }
    destruct Ht as (t & Ht). rewrite Ht in H. exists t. split; [done|].
    destruct v; try done; injection H as <-; done.
  - right. split; [done|]. unfold serializePortable in H. rewrite Es in H.
    destruct v; try (by apply serialize_packed_cases in H).
Qed.

Lemma node_record_cases tiers debug v o s :
  serializeWithStats N F tiers debug v o = Ok s → portable_encoding (encoding s) = true →
  (is_nullish v = false ∧ encoding s = EJson ∧
   ∃ t, stringify F v = Ok (Some t) ∧ buffer s = HC1J ++ utf8_encode t) ∨
  (is_nullish v = true ∧ encoding s = EMsgpack ∧ buffer s = HC1M ++ PACKED_SENTINEL F) ∨
  (is_nullish v = false ∧ is_sentinel v = false ∧ ∃ p, pack F v = Ok p ∧
    (encoding s = EMsgpack ∧ buffer s = HC1M ++ p ∨
     encoding s = EMsgpackWith gzip ∧ buffer s = HC1_GZIP_TAG ++ gzipSync N p)).
Proof.
  intros H Hp.
  assert (Hj : json_record F v = Ok s →
    encoding s = EJson ∧ ∃ t, stringify F v = Ok (Some t) ∧ buffer s = HC1J ++ utf8_encode t).
  { unfold json_record. destruct (stringify F v) as [[t|]|]; [|done..]. intros [= <-].
    split; [done|]. by exists t. }
  assert (Hm : msgpack_record N F tiers v o = Ok s → ∃ p, pack F v = Ok p ∧
    (encoding s = EMsgpack ∧ buffer s = HC1M ++ p ∨
     encoding s = EMsgpackWith gzip ∧ buffer s = HC1_GZIP_TAG ++ gzipSync N p)).
  { intros (p & Hpk & _ & _ & [[He Hb]|(c & tag & He & _ & Ht & Hb)])%msgpack_record_cases;
      exists p; (split; [done|]); [by left|right].
    rewrite He in Hp. destruct c; try done. injection Ht as <-. done. }
  unfold serializeWithStats in H. destruct (format o) as [[]|]; try done;
    (destruct (is_nullish v) eqn:En; [injection H as <-; right; left; done|]);
    (destruct (is_sentinel v) eqn:Es; [left; split_and!; try done; by apply Hj|]);
    (destruct (wants_json debug o);
      [left; split_and!; try done; by apply Hj|right; right; split_and!; try done; by apply Hm]).
Qed.

(** Both strict readers read what either runtime wrote. *)
Lemma both_read v e payload o limits :
  natives_ok N → gzip_compatible N S → formats_ok F → json_ok →
  written v e payload → resolveDecodeLimits o = Ok limits →
  byteLength payload <= maxEncodedBytes limits →
  (is_nullish v = false → restores F v e) → fits F limits (packed_value v) e →
  decodePortableCacheRecord S F payload o = Ok (Some (stored_value v)) ∧
  decodeCacheRecord N F payload o = Ok (Some (stored_value v)).
Proof.
  intros HN HG HF HJ Hw Ho He Hr Hf.
  assert (Hgz : ∀ p z, pack F (packed_value v) = Ok p → is_sentinel v = false →
    isSafeMessagePack limits safe_utf8 p = true → (is_nullish v = false → restores F v EMsgpack) →
    payload = HC1_GZIP_TAG ++ z →
    (z = mjoin (chunks (CompressionStream S p)) ∨ z = gzipSync N p) →
    decodePortableCacheRecord S F payload o = Ok (Some (stored_value v)) ∧
    decodeCacheRecord N F payload o = Ok (Some (stored_value v))).
  { intros p z Hp Hs Hsafe Hrm -> [->| ->].
    - destruct (stream_expands N S HG p) as (cs & Hz & Hc).
      eapply both_gzip; try done; [by apply safe_decoded|]. intros m. by apply zlib_expands_stream.
    - destruct (stream_expands_zlib N S HG p) as (cs & Hz & Hc).
      eapply both_gzip; try done; [by apply safe_decoded|]. intros m. by apply (gzip_inverse N HN). }
  destruct Hw as [c payload Hw|tiers debug so s Hw Hpe].
  - apply worker_record_cases in Hw as
      [(Es & En & t & Ht & ->)|(Es & p & Hp & [->|(z & -> & Hz)])]; [| |..|]; try done;
      rewrite Es in *; unfold packed_value, stored_value in *; try rewrite En in *.
    + eapply both_json; try done. by apply Hr.
    + pose proof (Hf p Hp) as Hsafe. eapply both_msgpack; try done. by apply safe_decoded.
    + pose proof (Hf p Hp) as Hsafe. eapply Hgz; try done. by left.
  - apply node_record_cases in Hw as
      [(En & Ee & t & Ht & Hb)|[(En & Ee & Hb)|(En & Es & p & Hp & [[Ee Hb]|[Ee Hb]])]]; [| | | |done];
      rewrite Ee, Hb in *; unfold packed_value, stored_value in *; rewrite En in *.
    + eapply both_json; try done. by apply Hr.
    + destruct (sentinel_packs F HF) as (b & Hb' & _).
      assert (HS : PACKED_SENTINEL F = b) by (unfold PACKED_SENTINEL; by rewrite Hb').
      rewrite HS in *. pose proof (Hf b Hb') as Hsafe.
      pose proof (both_msgpack limits o v b HF Ho) as HB.
      unfold packed_value, stored_value in HB. rewrite En in HB.
      apply HB; try done; [by destruct v|by apply safe_decoded].
    + pose proof (Hf p Hp) as Hsafe. pose proof (both_msgpack limits o v p HF Ho Es) as HB.
      unfold packed_value, stored_value in HB. rewrite En in HB. apply HB; try done. by apply safe_decoded.
    + pose proof (Hf p Hp) as Hsafe. eapply Hgz; try done. by right.
Qed.

(** C36: A record written by either runtime in an encoding both know (MessagePack,
    gzip or JSON) is a hit, with the value that was stored, for the strict
    reader of the Worker and for the strict reader of Node, whatever policy,
    gzip implementation and chunking produced it; a cached [null] is a hit in
    both. *)
Theorem records_exchanged v e payload o limits :
  natives_ok N → gzip_compatible N S → formats_ok F → json_ok →
  written v e payload → resolveDecodeLimits o = Ok limits →
  byteLength payload <= maxEncodedBytes limits →
  (is_nullish v = false → restores F v e) → fits F limits (packed_value v) e →
  decodePortableCacheRecord S F payload o = Ok (Some (stored_value v)) ∧
  decodeCacheRecord N F payload o = Ok (Some (stored_value v)).
Proof. apply both_read. Qed.
End exchange_theorems.

(** ** Tags of other releases *)

Lemma family_tag c : 0 <= c < 0x80 → ascii (HC1_FAMILY ++ [c]).
Proof. intros Hc. apply Forall_app. split; [by repeat constructor|by constructor]. Qed.

Lemma family_tag_neq c d : c ≠ d → HC1_FAMILY ++ [c] ≠ HC1_FAMILY ++ [d].
Proof. intros Hn H. apply app_inv_head in H. by injection H. Qed.

(** A record of the family with a tag a reader cannot run is never decoded
    as data. A tag no release of this code writes is a miss for the strict
    readers of both runtimes and [null] for the compatible ones; the tags of
    zstd, LZ4 and Snappy are the same to a Worker. *)
Theorem foreign_tag_misses N S F c body o limits :
  0 <= c < 0x80 → c ∉ js "MGJ" → resolveDecodeLimits o = Ok limits →
  let payload := HC1_FAMILY ++ [c] ++ body in
  (decodePortableCacheRecord S F payload o = Ok None ∧
   deserializePortable S F payload None = Ok VNull) ∧
  (c ∉ js "ZLS" →
   decodeCacheRecord N F payload o = Ok None ∧ deserialize N F (RBytes payload) None = Ok VNull).
Proof.
  intros Hc Hn Ho. cbv zeta.
  assert (Hp : HC1_FAMILY ++ [c] ++ body = (HC1_FAMILY ++ [c]) ++ body) by (by rewrite <- app_assoc).
  assert (Htag : ∀ d, d ∈ js "MGJ" → hasWireTag (HC1_FAMILY ++ [c] ++ body) (HC1_FAMILY ++ [d]) = false).
  { intros d Hd. rewrite Hp, portable_tag by (done || by apply family_tag).
    apply bool_decide_eq_false_2, family_tag_neq. by intros ->. }
  assert (HM := Htag 77 ltac:(vm_compute; set_solver)). assert (HG := Htag 71 ltac:(vm_compute; set_solver)).
  assert (HJ := Htag 74 ltac:(vm_compute; set_solver)).
  change (HC1_FAMILY ++ [77]) with HC1_MSGPACK_TAG in HM. change (HC1_FAMILY ++ [71]) with HC1_GZIP_TAG in HG.
  change (HC1_FAMILY ++ [74]) with HC1_JSON_TAG in HJ. split.
  - split.
    + unfold decodePortableCacheRecord. rewrite Ho. cbn [rbind]. by rewrite HM, HG, HJ.
    + unfold deserializePortable, deserialize_with. rewrite HM, HG, HJ.
      unfold wireTag, byteLength, HC1_TAG_BYTES. rewrite !length_app. cbn [length].
      rewrite (proj2 (Z.ltb_ge _ _)) by (simpl; lia). done.
  - intros Hn'.
    assert (Hcodec : codecByTag (HC1_FAMILY ++ [c]) = None).
    { apply codecByTag_other. rewrite !not_elem_of_cons.
      split_and!; try apply not_elem_of_nil; apply family_tag_neq; intros ->; vm_compute in Hn, Hn'; set_solver. }
    assert (Hpre : ∀ d, d ∈ js "MGJ" → hasPrefix ((HC1_FAMILY ++ [c]) ++ body) (HC1_FAMILY ++ [d]) = false).
    { intros d Hd. apply hasPrefix_neq; [done|]. apply family_tag_neq. by intros ->. }
    assert (Hfam : hasPrefix ((HC1_FAMILY ++ [c]) ++ body) PREFIX_FAMILY = true).
    { rewrite <- app_assoc. apply hasPrefix_app. }
    destruct (tag_view (HC1_FAMILY ++ [c]) body) as [Ht Hd]; [by apply family_tag|done|].
    split.
    + unfold decodeCacheRecord. rewrite Ho. cbn [rbind]. destruct (_ <? _); [done|].
      unfold decode_body, decode_legacy. rewrite Hp, byteLength_lt4, Ht, Hcodec, Hfam by done.
      rewrite !bool_decide_eq_false_2; [done|..];
        [apply (family_tag_neq c 74)|apply (family_tag_neq c 77)]; intros ->; vm_compute in Hn; set_solver.
    + unfold deserialize, deserialize_plain, deserialize_buffer.
      rewrite Hp, byteLength_lt4, Ht, Hcodec, Hfam by done.
      assert (H77 := Hpre 77 ltac:(vm_compute; set_solver)). change (HC1_FAMILY ++ [77]) with HC1M in H77.
      assert (H74 := Hpre 74 ltac:(vm_compute; set_solver)). change (HC1_FAMILY ++ [74]) with HC1J in H74.
      by rewrite H77, H74.
Qed.

(** Streams that store, one chunk per byte. *)
Definition stored_streams : Streams :=
  {| CompressionStream b := {| chunks := [0] :: map (λ x, [x]) b; fails := false |};
     DecompressionStream b := match b with
       | [] => {| chunks := []; fails := true |}
       | _ :: rest => {| chunks := [rest]; fails := false |}
       end |}.

(** zlib's counterpart: one leading byte. *)
Definition framed_natives : Natives :=
  {| ZSTD_AVAILABLE := true; gzipSync b := 0 :: b;
     gunzipSync b m := match b with [] => Throw NativeError | _ :: r => bounded_store r m end;
     zstdCompressSync := zstdCompressSync stored_natives;
     zstdDecompressSync := zstdDecompressSync stored_natives;
     lz4Compress := lz4Compress stored_natives; lz4Uncompress := lz4Uncompress stored_natives;
     snappyCompress := snappyCompress stored_natives;
     snappyUncompress := snappyUncompress stored_natives |}.

Lemma framed_natives_ok : natives_ok framed_natives.
Proof. destruct stored_natives_ok as [Hg Hz H1 H2 H3 H4]. split; try done. Qed.

Lemma stored_chunks b : mjoin (chunks (CompressionStream stored_streams b)) = 0 :: b.
Proof. simpl. f_equal. induction b as [|x b IH]; simpl; congruence. Qed.

Lemma stored_streams_compatible : gzip_compatible framed_natives stored_streams.
Proof.
  split.
  - intros b. rewrite stored_chunks. exists [b]. split; [done|]. simpl. by rewrite app_nil_r.
  - intros b m Hm. rewrite stored_chunks. by apply (gzip_inverse _ stored_natives_ok).
  - intros b. exists [b]. split; [done|]. simpl. by rewrite app_nil_r.
Qed.

Lemma toy_json_ok : json_ok toy_formats.
Proof.
  split.
  - intros s. by eexists.
  - intros v t H. destruct v; try done. injection H as <-. exists 34. eexists. by split.
Qed.

Lemma records_exchanged_witness :
  ∃ payload, serializePortable stored_streams toy_formats VNull KVAuto = Ok payload ∧
    decodePortableCacheRecord stored_streams toy_formats payload no_limits = Ok (Some VNull) ∧
    decodeCacheRecord framed_natives toy_formats payload no_limits = Ok (Some VNull).
Proof.
  eexists. split; [vm_compute; reflexivity|].
  apply (records_exchanged framed_natives stored_streams toy_formats VNull EMsgpack _ no_limits
           default_limits framed_natives_ok stored_streams_compatible toy_formats_ok toy_json_ok).
  - apply (from_worker framed_natives stored_streams toy_formats VNull KVAuto). vm_compute. reflexivity.
  - exact default_limits_resolved.
  - vm_compute. discriminate.
  - discriminate.
  - intros p [= <-]. vm_compute. reflexivity.
Defined.

Lemma foreign_tag_misses_witness :
  decodeCacheRecord framed_natives toy_formats (js "HC1Q" ++ [1; 2]) no_limits = Ok None ∧
  decodePortableCacheRecord stored_streams toy_formats (js "HC1Z" ++ [1; 2]) no_limits = Ok None.
Proof.
  split.
  - refine (proj1 (proj2 (foreign_tag_misses framed_natives stored_streams toy_formats 81 [1; 2] no_limits
      default_limits _ _ default_limits_resolved) _)); [lia|vm_compute; set_solver|vm_compute; set_solver].
  - refine (proj1 (proj1 (foreign_tag_misses framed_natives stored_streams toy_formats 90 [1; 2] no_limits
      default_limits _ _ default_limits_resolved))); [lia|vm_compute; set_solver].
Defined.

(** Node reads a tag through [toString('ascii')], which clears the high bit: a
    family tag no release writes is then taken for [HC1M]. *)
Example high_bit_tag_decoded :
  decodeCacheRecord framed_natives toy_formats (js "HC1" ++ [77 + 128; 0xc3]) no_limits =
    Ok (Some (VBool true)) ∧
  decodePortableCacheRecord stored_streams toy_formats (js "HC1" ++ [77 + 128; 0xc3]) no_limits = Ok None.
Proof. split; vm_compute; reflexivity. Qed.
