(* ===== verification/KvWire.v ===== *)
(** * Cloudflare KV records ([src/src/cloudflare/kvWire.ts])

    A KV value carries its own expiry: the header [LLK1], the expiry as a
    big-endian IEEE double ([DataView.setFloat64]), then the payload. *)

From S2P Require Import Prelude JsValue Utf8 WirePolicy MessagePackScan.

(** ** Binary64 on the wire *)

Fixpoint be (n : nat) (z : Z) : bytes :=
  match n with O => [] | S n => be n (z / 256) ++ [z mod 256] end.

(** The bits of an integer that a double holds exactly. *)
Definition float64_bits (z : Z) : Z :=
  if z =? 0 then 0 else
  let e := Z.log2 (Z.abs z) in
  (if z <? 0 then 2 ^ 63 else 0) + (e + 1023) * 2 ^ 52 + (Z.abs z * 2 ^ (52 - e) - 2 ^ 52).

(** The number a bit pattern denotes. *)
Definition float64_value (bits : Z) : jsnum :=
  let negative := 2 ^ 63 <=? bits in
  let ex := bits / 2 ^ 52 mod 2048 in
  let m := bits mod 2 ^ 52 in
  let sgn := if negative then -1 else 1 in
  if ex =? 2047 then (if m =? 0 then JInf negative else JNaN)
  else if ex =? 0 then JNum (Qmake (sgn * m) (2 ^ 1074))
  else if 1075 <=? ex then JInt (sgn * (2 ^ 52 + m) * 2 ^ (ex - 1075))
  else JNum (Qmake (sgn * (2 ^ 52 + m)) (Z.to_pos (2 ^ (1075 - ex)))).

(** ** The record *)

Definition HEADER : bytes := [76; 76; 75; 49].
Definition HEADER_BYTES : Z := 12.

Inductive kv_error := KvRangeError (message : string) | KvTypeError (message : string).

Definition encodeKVRecord (payload : bytes) (expiresAt : jsnum) : result kv_error bytes :=
  if negb (num_is_safe_integer expiresAt)
  then Throw (KvRangeError "Cloudflare KV expiration exceeds the safe date range")
  else if 25 * 1024 * 1024 <? byteLength payload + HEADER_BYTES
  then Throw (KvRangeError "Cloudflare KV value exceeds 25 MiB")
  else Ok (HEADER ++ be 8 (float64_bits (num_floor expiresAt)) ++ payload).

Record KVRecord := { kv_payload : bytes; ttlRemainingMs : Z }.

(** [now] is [Date.now()]. *)
Definition decodeKVRecord (value : bytes) (now : Z) : result kv_error KVRecord :=
  if (byteLength value <? HEADER_BYTES) || negb (bytes_start value HEADER)
  then Throw (KvTypeError "Cloudflare KV cache entry has an unsupported wire header")
  else
    let expiresAt := float64_value (of_be (take 8 (drop 4 value))) in
    if negb (num_is_safe_integer expiresAt)
    then Throw (KvTypeError "Cloudflare KV cache entry has invalid expiration")
    else Ok {| kv_payload := drop 12 value; ttlRemainingMs := num_floor expiresAt - now |}.

(** ** Facts *)

Lemma of_be_snoc bs b : of_be (bs ++ [b]) = of_be bs * 256 + b.
Proof. unfold of_be. by rewrite foldl_app. Qed.

Lemma of_be_be n z : 0 <= z < 256 ^ Z.of_nat n → of_be (be n z) = z.
Proof.
  revert z. induction n as [|n IH]; intros z Hz; [unfold of_be; simpl in *; lia|].
  rewrite Nat2Z.inj_succ, Z.pow_succ_r in Hz by lia. cbn [be]. rewrite of_be_snoc, IH.
  - pose proof (Z.div_mod z 256). lia.
  - split; [apply Z.div_pos; lia|]. apply Z.div_lt_upper_bound; lia.
Qed.

Lemma length_be n z : length (be n z) = n.
Proof. revert z. induction n as [|n IH]; intros z; [done|]. simpl. rewrite length_app, IH. simpl. lia. Qed.

(** The mantissa of a non-zero integer of up to 53 bits. *)
Lemma mantissa a :
  0 < a < 2 ^ 53 →
  let e := Z.log2 a in
  0 <= e <= 52 ∧ 2 ^ 52 <= a * 2 ^ (52 - e) < 2 ^ 53.
Proof.
  intros Ha. cbv zeta. pose proof (Z.log2_nonneg a) as H0.
  destruct (Z.log2_spec a) as [Hlo Hhi]; [lia|].
  assert (He : Z.log2 a <= 52) 
    by (assert (Z.log2 a < 53) by (apply Z.log2_lt_pow2; lia); lia).
  split; [lia|].
  assert (Hp : 2 ^ 52 = 2 ^ Z.log2 a * 2 ^ (52 - Z.log2 a)) by (rewrite <- Z.pow_add_r by lia; f_equal; lia).
  assert (Hq : 2 ^ 53 = 2 ^ Z.succ (Z.log2 a) * 2 ^ (52 - Z.log2 a))
    by (rewrite <- Z.pow_add_r by lia; f_equal; lia).
  pose proof (Z.pow_pos_nonneg 2 (52 - Z.log2 a)).
  rewrite Hq at 1. rewrite Hp at 1. nia.
Qed.

Lemma float64_fields s e m :
  (s = 0 ∨ s = 2 ^ 63) → 0 <= e < 2048 → 0 <= m < 2 ^ 52 →
  let bits := s + e * 2 ^ 52 + m in
  (2 ^ 63 <=? bits) = (s =? 2 ^ 63) ∧ bits / 2 ^ 52 mod 2048 = e ∧ bits mod 2 ^ 52 = m ∧
  0 <= bits < 2 ^ 64.
Proof.
  intros Hs He Hm. cbv zeta.
  set (k := if s =? 2 ^ 63 then 2048 else 0).
  assert (Hk : s + e * 2 ^ 52 + m = (k + e) * 2 ^ 52 + m) by (unfold k; destruct Hs as [->| ->]; simpl; lia).
  rewrite Hk. rewrite Z.div_add_l, (Z.div_small m), Z.add_0_r by lia.
  rewrite (Z.add_comm _ m), Z.mod_add, (Z.mod_small m) by lia.
  unfold k. destruct Hs as [->| ->]; simpl Z.eqb; cbv iota.
  - split_and!; [apply Z.leb_gt; lia|rewrite Z.mod_small; lia|done|lia|lia].
  - split_and!; [apply Z.leb_le; lia| |done|lia|lia].
    rewrite <- (Z.mul_1_l 2048) at 1. rewrite Z.add_comm, Z.mod_add, Z.mod_small by lia. done.
Qed.

Lemma num_floor_scaled n k : num_floor (JNum (Qmake (n * Zpos k) k)) = n.
Proof. simpl. by apply Z.div_mul. Qed.

Lemma float64_roundtrip z :
  safe_int z = true →
  0 <= float64_bits z < 2 ^ 64 ∧
  num_is_integer (float64_value (float64_bits z)) = true ∧
  num_floor (float64_value (float64_bits z)) = z.
Proof.
  intros Hz. unfold safe_int, MAX_SAFE_INTEGER in Hz. bools.
  destruct (z =? 0) eqn:E0; bools; [subst z; vm_compute; done|].
  destruct (mantissa (Z.abs z)) as [He Hm]; [lia|].
  set (e := Z.log2 (Z.abs z)) in *. set (a := Z.abs z * 2 ^ (52 - e)) in *.
  assert (Hbits : float64_bits z = (if z <? 0 then 2 ^ 63 else 0) + (e + 1023) * 2 ^ 52 + (a - 2 ^ 52)).
  { unfold float64_bits. by rewrite (proj2 (Z.eqb_neq _ _)) by done. }
  destruct (float64_fields (if z <? 0 then 2 ^ 63 else 0) (e + 1023) (a - 2 ^ 52))
    as (Hneg & Hex & Hmm & Hrange); [destruct (z <? 0); auto|lia|lia|].
  rewrite <- Hbits in *. split; [done|]. unfold float64_value. cbv zeta. rewrite Hneg, Hex, Hmm.
  rewrite !(proj2 (Z.eqb_neq (e + 1023) _)) by lia.
  replace (2 ^ 52 + (a - 2 ^ 52)) with a by lia.
  assert (Hs : (if (if z <? 0 then 2 ^ 63 else 0) =? 2 ^ 63 then -1 else 1) * Z.abs z = z).
  { destruct (z <? 0) eqn:Es; simpl; bools; lia. }
  destruct (1075 <=? e + 1023) eqn:Ee; bools.
  - assert (e = 52) as He52 by lia. unfold a. rewrite He52. simpl (2 ^ (52 - 52)).
    replace (52 + 1023 - 1075) with 0 by lia. rewrite !Z.mul_1_r, Hs.
    rewrite num_floor_JInt. split; [|done]. unfold num_is_integer, JInt; simpl. by rewrite Z.mod_1_r.
  - replace (1075 - (e + 1023)) with (52 - e) by lia.
    assert (Hpos : Zpos (Z.to_pos (2 ^ (52 - e))) = 2 ^ (52 - e)) by (apply Z2Pos.id; lia).
    unfold a. rewrite Z.mul_assoc, Hs. remember (Z.to_pos (2 ^ (52 - e))) as k. rewrite <- Hpos.
    rewrite num_floor_scaled. split; [|done]. simpl. rewrite Z.mod_mul by lia. done.
Qed.

(** A KV record round-trips: for every safe-integer expiry, negative ones
    included, and every payload, an accepted record decodes to the same payload
    with exactly the time that is left; the writer accepts exactly what fits
    the 25 MiB limit. *)
Theorem kv_record_roundtrip payload expiresAt now :
  num_is_safe_integer expiresAt = true →
  (is_ok (encodeKVRecord payload expiresAt) = true ↔ byteLength payload <= 25 * 1024 * 1024 - 12) ∧
  ∀ value, encodeKVRecord payload expiresAt = Ok value →
    byteLength value = byteLength payload + 12 ∧
    decodeKVRecord value now =
      Ok {| kv_payload := payload; ttlRemainingMs := num_floor expiresAt - now |}.
Proof.
  intros Hs. unfold encodeKVRecord, HEADER_BYTES. rewrite Hs. cbn [negb].
  destruct (25 * 1024 * 1024 <? byteLength payload + 12) eqn:El; bools.
  { split; [split; [done|lia]|done]. }
  split; [split; [intros _; lia|done]|]. intros value Hv.
  set (z := num_floor expiresAt) in *.
  assert (value = HEADER ++ be 8 (float64_bits z) ++ payload) as -> by congruence. clear Hv.
  assert (Hz : safe_int z = true) by (unfold num_is_safe_integer in Hs; by bools).
  destruct (float64_roundtrip z Hz) as (Hb & Hi & Hf).
  assert (Hlen : byteLength (HEADER ++ be 8 (float64_bits z) ++ payload) = byteLength payload + 12).
  { rewrite !byteLength_app. unfold byteLength at 2. rewrite length_be.
    change (byteLength HEADER) with 4. lia. }
  split; [done|]. unfold decodeKVRecord, HEADER_BYTES. rewrite Hlen, bytes_start_app.
  pose proof (byteLength_nonneg payload).
  rewrite (proj2 (Z.ltb_ge _ _)) by lia. cbn [orb negb].
  change (drop 4 (HEADER ++ be 8 (float64_bits z) ++ payload)) with (be 8 (float64_bits z) ++ payload).
  replace (drop 12 (HEADER ++ be 8 (float64_bits z) ++ payload)) with payload
    by (change (drop 12 (HEADER ++ be 8 (float64_bits z) ++ payload))
          with (drop 8 (be 8 (float64_bits z) ++ payload));
        rewrite <- (length_be 8 (float64_bits z)) at 1; by rewrite drop_app_length).
  replace (take 8 (be 8 (float64_bits z) ++ payload)) with (be 8 (float64_bits z))
    by (rewrite <- (length_be 8 (float64_bits z)) at 2; by rewrite take_app_length).
  rewrite of_be_be by (simpl; lia). unfold num_is_safe_integer. rewrite Hi, Hf, Hz. done.
Qed.

Lemma kv_record_roundtrip_witness :
  ∃ value, encodeKVRecord [1; 2; 3] (JInt 1700000000123) = Ok value ∧
    decodeKVRecord value 1700000000000 = Ok {| kv_payload := [1; 2; 3]; ttlRemainingMs := 123 |}.
Proof.
  eexists. split; [vm_compute; reflexivity|].
  refine (proj2 (proj2 (kv_record_roundtrip [1; 2; 3] (JInt 1700000000123) 1700000000000 _) _ _));
    vm_compute; reflexivity.
Defined.

(** [NaN] in the expiry field and a foreign header are refused. *)
Example kv_rejects_nan :
  decodeKVRecord (HEADER ++ [0x7f; 0xf8; 0; 0; 0; 0; 0; 0]) 0 =
    Throw (KvTypeError "Cloudflare KV cache entry has invalid expiration").
Proof. vm_compute. reflexivity. Qed.
