(* ===== verification/HandlerQueue.v ===== *)
(** * The delivery queue ([src/src/event-bus/handlerQueue.ts])

    Received invalidation messages wait in a bounded FIFO queue and are handed
    to the handler a few at a time. A message is decoded and handled in a
    promise chain: its outcome settles it, and a later [finally] callback frees
    its slot, so settlement and release are separate events here. Messages are
    numbered in the order they are accepted. *)

From S2P Require Import Prelude Fifo WirePolicy.

Record item := { m_id : nat; m_bytes : Z }.

Record HandlerLimits := { h_concurrency : Z; h_maxSize : Z; h_maxBytes : Z }.

Definition DEFAULT_EVENT_BUS_HANDLER_QUEUE_MAX_SIZE : Z := 10000.
Definition DEFAULT_EVENT_BUS_HANDLER_QUEUE_MAX_BYTES : Z := 16 * 1024 * 1024.

Record HandlerQueueOptions := {
  o_concurrency : option jsnum; o_maxSize : option jsnum; o_maxBytes : option jsnum }.

(** The constructor's validation; the limits it leaves in effect. *)
Definition handlerLimits (o : HandlerQueueOptions) : result string HandlerLimits :=
  let c := o_concurrency o ?? JInt 1 in
  let n := o_maxSize o ?? JInt DEFAULT_EVENT_BUS_HANDLER_QUEUE_MAX_SIZE in
  let b := o_maxBytes o ?? JInt DEFAULT_EVENT_BUS_HANDLER_QUEUE_MAX_BYTES in
  if negb (num_is_safe_integer c && num_is_safe_integer n && num_is_safe_integer b)
     || num_le c (JInt 0) || num_lt n (JInt 0) || num_lt b (JInt 0)
  then Throw "Event handler concurrency must be positive; queue limits must be non-negative safe integers"%string
  else Ok {| h_concurrency := num_floor c; h_maxSize := num_floor n; h_maxBytes := num_floor b |}.

(** Limits that pass are usable ones. *)
Lemma num_floor_positive v : num_is_safe_integer v = true → num_le v (JInt 0) = false → 0 < num_floor v.
Proof.
  unfold num_is_safe_integer. intros Hs Hle. bools. destruct v as [q|n|]; try done.
  unfold num_le, JInt, inject_Z, num_floor, num_is_integer in *. simpl in *. bools. rewrite Z.mul_1_r in *.
  assert (Qnum q = Zpos (Qden q) * (Qnum q / Zpos (Qden q))) by (apply Z.div_exact; lia). nia.
Qed.

Lemma num_floor_nonneg v : num_is_safe_integer v = true → num_lt v (JInt 0) = false → 0 <= num_floor v.
Proof.
  unfold num_is_safe_integer. intros Hs Hlt. bools. destruct v as [q|n|]; try done.
  unfold num_lt, JInt, inject_Z, num_floor, num_is_integer in *. simpl in *. bools. rewrite Z.mul_1_r in *.
  apply Z.div_pos; lia.
Qed.

Lemma handlerLimits_usable o l :
  handlerLimits o = Ok l → 0 < h_concurrency l ∧ 0 <= h_maxSize l ∧ 0 <= h_maxBytes l.
Proof.
  unfold handlerLimits. cbv zeta. destruct (_ || _) eqn:E; [done|]. intros [= <-]. simpl.
  apply orb_false_iff in E as [[[E1 E2]%orb_false_iff E3]%orb_false_iff E4]. apply negb_false_iff in E1. bools.
  split_and!; [by apply num_floor_positive|by apply num_floor_nonneg..].
Qed.

(** [running] are the items whose chain has not settled, [settled] those whose
    slot is not free yet; both live in the promise chains of the source. *)
Record hqueue := {
  pending : list item;
  pendingBytes : Z;
  active : Z;
  activeBytes : Z;
  dropped : Z;
  closed : bool;
  running : list item;
  settled : list item;
  next : nat }.

Definition newHandlerQueue : hqueue :=
  {| pending := []; pendingBytes := 0; active := 0; activeBytes := 0; dropped := 0;
     closed := false; running := []; settled := []; next := 0 |}.

(** Calls out of the queue. [HSettle id ok] is the item's [settle] callback. *)
Inductive hout :=
| HStart (id : nat)
| HSettle (id : nat) (ok : bool)
| HError
| HOverflow (bytes : Z)
| HIdle.

Definition retainedBytes (q : hqueue) : Z := activeBytes q + pendingBytes q.

Section queue.
Context (limits : HandlerLimits).

(** One round of [drain]: the head of the queue takes a slot. *)
Definition start_item (i : item) (rest : list item) (q : hqueue) : hqueue :=
  {| pending := rest; pendingBytes := pendingBytes q - m_bytes i; active := active q + 1;
     activeBytes := activeBytes q + m_bytes i; dropped := dropped q; closed := closed q;
     running := running q ++ [i]; settled := settled q; next := next q |}.

(** [drain]: the loop is over the pending items, each round takes one. *)
Fixpoint drain_from (items : list item) (q : hqueue) : hqueue * list hout :=
  match items with
  | [] => (q, [])
  | i :: rest =>
      if active q <? h_concurrency limits then
        let '(q', out) := drain_from rest (start_item i rest q) in (q', HStart (m_id i) :: out)
      else (q, [])
  end.

Definition drain (q : hqueue) : hqueue * list hout := drain_from (pending q) q.

Definition count_dropped (q : hqueue) : hqueue :=
  {| pending := pending q; pendingBytes := pendingBytes q; active := active q;
     activeBytes := activeBytes q; dropped := dropped q + 1; closed := closed q;
     running := running q; settled := settled q; next := next q |}.

Definition add_item (bytes : Z) (q : hqueue) : hqueue :=
  {| pending := pending q ++ [{| m_id := next q; m_bytes := bytes |}];
     pendingBytes := pendingBytes q + bytes; active := active q; activeBytes := activeBytes q;
     dropped := dropped q; closed := closed q; running := running q; settled := settled q;
     next := S (next q) |}.

(** [enqueueItem] *)
Definition enqueueItem (bytes : Z) (q : hqueue) : hqueue * list hout * bool :=
  if closed q then (count_dropped q, [], false)
  else if (Z.max 0 (h_maxSize limits) <=? Z.of_nat (length (pending q)) + active q)
          || (Z.max 0 (h_maxBytes limits) <? retainedBytes q + bytes)
  then (count_dropped q, [HOverflow bytes], false)
  else let '(q', out) := drain (add_item bytes q) in (q', out, true).

(** [enqueue]: the wire snapshot may fail to encode. *)
Definition enqueue (encoded : option Z) (q : hqueue) : hqueue * list hout * bool :=
  if closed q then (count_dropped q, [], false)
  else match encoded with
       | Some bytes => enqueueItem bytes q
       | None => (count_dropped q, [HError], false)
       end.

(** The chain of an item settles: [settle(item)] or [settle(item, error)]. *)
Definition settle_item (id : nat) (ok : bool) (q : hqueue) : hqueue * list hout :=
  match find_by m_id id (running q) with
  | None => (q, [])
  | Some i =>
      ({| pending := pending q; pendingBytes := pendingBytes q; active := active q;
          activeBytes := activeBytes q; dropped := dropped q; closed := closed q;
          running := remove_by m_id id (running q); settled := settled q ++ [i]; next := next q |},
       (if ok then [] else [HError]) ++ [HSettle id ok])
  end.

(** The [finally] callback. *)
Definition release_item (id : nat) (q : hqueue) : hqueue * list hout :=
  match find_by m_id id (settled q) with
  | None => (q, [])
  | Some i =>
      let q1 := {| pending := pending q; pendingBytes := pendingBytes q; active := active q - 1;
                   activeBytes := activeBytes q - m_bytes i; dropped := dropped q;
                   closed := closed q; running := running q;
                   settled := remove_by m_id id (settled q); next := next q |} in
      let '(q2, out) := drain q1 in
      (q2, out ++ if (active q2 =? 0) && (Z.of_nat (length (pending q2)) =? 0) && negb (closed q2)
                  then [HIdle] else [])
  end.

Definition clear_pending (now_closed : bool) (q : hqueue) : hqueue :=
  {| pending := []; pendingBytes := 0; active := active q; activeBytes := activeBytes q;
     dropped := dropped q; closed := now_closed; running := running q; settled := settled q;
     next := next q |}.

Definition close (q : hqueue) : hqueue * list hout :=
  (clear_pending true q, mjoin (map (λ i, [HError; HSettle (m_id i) false]) (pending q))).

Definition discardPending (q : hqueue) : hqueue * list hout :=
  (clear_pending (closed q) q, map (λ i, HSettle (m_id i) false) (pending q)).

(** ** Histories *)

Inductive hevent :=
| EvEnqueue (bytes : Z)
| EvSettle (id : nat) (ok : bool)
| EvRelease (id : nat)
| EvClose
| EvDiscard.

Definition hstep (h : hqueue * list hout) (e : hevent) : hqueue * list hout :=
  let '(q, log) := h in
  let '(q', out) := match e with
    | EvEnqueue b => let '(q', out, _) := enqueueItem (Z.max 0 b) q in (q', out)
    | EvSettle id ok => settle_item id ok q
    | EvRelease id => release_item id q
    | EvClose => close q
    | EvDiscard => discardPending q
    end in
  (q', log ++ out).
End queue.

Definition starts (log : list hout) : list nat :=
  omap (λ o, match o with HStart id => Some id | _ => None end) log.

Definition settlements (log : list hout) : list nat :=
  omap (λ o, match o with HSettle id _ => Some id | _ => None end) log.

Definition overflows (log : list hout) : Z :=
  Z.of_nat (length (omap (λ o, match o with HOverflow _ => Some tt | _ => None end) log)).

(** ** The invariant *)

Section invariant.
Context (limits : HandlerLimits).
Abbreviation ids := (fmap m_id).

(** Everything but the fact that items wait only while all slots are taken,
    which [release_item] breaks until [drain] has run. *)
Record hcore (h : hqueue * list hout) : Prop := {
  hc_pendingBytes : pendingBytes h.1 = sumZ m_bytes (pending h.1);
  hc_active : active h.1 = Z.of_nat (length (running h.1)) + Z.of_nat (length (settled h.1));
  hc_activeBytes : activeBytes h.1 = sumZ m_bytes (running h.1) + sumZ m_bytes (settled h.1);
  hc_concurrency : active h.1 <= h_concurrency limits;
  hc_size : Z.of_nat (length (pending h.1)) + active h.1 <= h_maxSize limits;
  hc_bytes : retainedBytes h.1 <= h_maxBytes limits;
  hc_nonneg : ∀ i, i ∈ pending h.1 ++ running h.1 ++ settled h.1 → 0 <= m_bytes i;
  hc_fifo : ascending (starts h.2 ++ ids (pending h.1));
  hc_fresh : ∀ id, id ∈ starts h.2 ++ ids (pending h.1) → (id < next h.1)%nat;
  hc_once : settlements h.2 ++ ids (running h.1) ++ ids (pending h.1) ≡ₚ seq 0 (next h.1);
  hc_settled : NoDup (ids (settled h.1));
  hc_logged : ∀ id, id ∈ ids (settled h.1) → id ∈ settlements h.2;
  hc_closed : closed h.1 = true → pending h.1 = [] }.

Record hq_ok (h : hqueue * list hout) : Prop := {
  ho_core : hcore h;
  ho_busy : pending h.1 ≠ [] → active h.1 = h_concurrency limits }.

Lemma starts_app a b : starts (a ++ b) = starts a ++ starts b.
Proof. apply omap_app. Qed.

Lemma settlements_app a b : settlements (a ++ b) = settlements a ++ settlements b.
Proof. apply omap_app. Qed.

Lemma hcore_start i rest q log :
  hcore (q, log) → pending q = i :: rest → active q < h_concurrency limits →
  hcore (start_item i rest q, log ++ [HStart (m_id i)]).
Proof.
  intros [H1 H2 H3 H4 H5 H6 H7 H8 H9 H10 H11 Hlog H12] Hp Hlt. simpl in *. rewrite Hp in *.
  unfold retainedBytes in *. split; simpl; rewrite ?starts_app, ?settlements_app, ?sumZ_app, ?length_app; simpl;
    rewrite ?app_nil_r.
  - rewrite H1, sumZ_cons. lia.
  - lia.
  - lia.
  - lia.
  - simpl in H5. lia.
  - unfold retainedBytes. simpl. lia.
  - intros j Hj. apply H7. set_solver.
  - by rewrite <- app_assoc.
  - intros id Hid. apply H9. set_solver.
  - rewrite fmap_app, <- H10. simpl. by rewrite <- !app_assoc.
  - done.
  - done.
  - intros Hc. specialize (H12 Hc). done.
Qed.

Lemma hq_drain_ok items q log :
  hcore (q, log) → pending q = items →
  let r := drain_from limits items q in
  hq_ok (r.1, log ++ r.2) ∧ settlements r.2 = [] ∧ closed r.1 = closed q ∧ next r.1 = next q.
Proof.
  revert q log. induction items as [|i rest IH]; intros q log Hc Hp; cbv zeta; simpl.
  - rewrite app_nil_r. split_and!; try done.
  - destruct (_ <? _) eqn:E; bools; simpl.
    + pose proof (hcore_start i rest q log Hc Hp E) as Hs.
      specialize (IH _ _ Hs eq_refl). cbv zeta in IH.
      destruct (drain_from limits rest (start_item i rest q)) as [q' out]. simpl in *.
      rewrite <- app_assoc in IH. done.
    + rewrite app_nil_r. split_and!; try done. split; [done|]. intros _. simpl.
      pose proof (hc_concurrency _ Hc). simpl in *. lia.
Qed.

Lemma hcore_silent q log out :
  hcore (q, log) → starts out = [] → settlements out = [] → hcore (q, log ++ out).
Proof.
  intros [] Hs Ht. split; simpl in *; try done; rewrite ?starts_app, ?settlements_app, ?Hs, ?Ht, ?app_nil_r; done.
Qed.

Lemma hq_ok_silent q log out :
  hq_ok (q, log) → starts out = [] → settlements out = [] → hq_ok (q, log ++ out).
Proof. intros [Hc Hb] Hs Ht. split; [by apply hcore_silent|done]. Qed.

Lemma hq_ok_dropped q log : hq_ok (q, log) → hq_ok (count_dropped q, log).
Proof. intros [[] Hb]. split; [|done]. by split. Qed.

Lemma enqueue_ok bytes q log :
  0 <= bytes → 0 <= h_maxSize limits → 0 <= h_maxBytes limits → hq_ok (q, log) →
  let r := enqueueItem limits bytes q in hq_ok (r.1.1, log ++ r.1.2).
Proof.
  intros Hb Hm1 Hm2 Hok. cbv zeta. unfold enqueueItem. destruct (closed q) eqn:Ec.
  { simpl. rewrite app_nil_r. by apply hq_ok_dropped. }
  destruct (_ || _) eqn:E.
  { simpl. by apply hq_ok_silent; [apply hq_ok_dropped|..]. }
  bools. destruct (drain limits (add_item bytes q)) as [q' out] eqn:Ed. simpl.
  destruct Hok as [[H1 H2 H3 H4 H5 H6 H7 H8 H9 H10 H11 Hlog H12] Hbusy]. simpl in *.
  assert (Hc : hcore (add_item bytes q, log)).
  { unfold retainedBytes in *. split; simpl; unfold retainedBytes in *; simpl;
      rewrite ?fmap_app, ?sumZ_app, ?length_app; simpl; try done; try lia.
    - intros i Hi. rewrite !elem_of_app in Hi. rewrite list_elem_of_singleton in Hi.
      destruct Hi as [[Hi| ->]|Hi]; [apply H7; set_solver|done|apply H7; set_solver].
    - rewrite app_assoc. apply ascending_snoc. split; [done|]. intros y Hy. by apply H9.
    - intros id Hid. rewrite app_assoc, elem_of_app, list_elem_of_singleton in Hid.
      destruct Hid as [Hid| ->]; [specialize (H9 id Hid); lia|lia].
    - change (0%nat :: seq 1 (next q)) with (seq 0 (S (next q))).
      rewrite seq_S, <- H10, !app_assoc. done.
    - congruence. }
  pose proof (hq_drain_ok _ _ _ Hc eq_refl) as Hd. cbv zeta in Hd. unfold drain in Ed. rewrite Ed in Hd.
  simpl in Hd. by destruct Hd.
Qed.

Lemma settle_ok id ok q log :
  hq_ok (q, log) → let r := settle_item id ok q in hq_ok (r.1, log ++ r.2).
Proof.
  intros Hok. cbv zeta. unfold settle_item. destruct (find_by m_id id (running q)) as [i|] eqn:Ef;
    simpl; [|by rewrite app_nil_r].
  destruct Hok as [[H1 H2 H3 H4 H5 H6 H7 H8 H9 H10 H11 Hlog H12] Hbusy]. simpl in *.
  assert (Hnd : NoDup (settlements log ++ ids (running q) ++ ids (pending q)))
    by (rewrite H10; apply NoDup_seq).
  apply NoDup_app in Hnd as (_ & Hsep & [Hnr _]%NoDup_app).
  destruct (remove_by_found m_id m_bytes id (running q) i Hnr Ef) as (Hperm & Hsum & Hlen).
  apply find_by_Some in Ef as [Hin Hid]. subst id.
  assert (Hst : starts ((if ok then [] else [HError]) ++ [HSettle (m_id i) ok]) = []) by (by destruct ok).
  assert (Hse : settlements ((if ok then [] else [HError]) ++ [HSettle (m_id i) ok]) = [m_id i])
    by (by destruct ok).
  assert (Hnew : m_id i ∉ ids (settled q)).
  { intros Hi. apply (Hsep (m_id i)); [by apply Hlog|]. apply elem_of_app. left.
    apply list_elem_of_fmap. eauto. }
  split; [|done]. split; simpl; rewrite ?(starts_app log), ?(settlements_app log), ?Hst, ?Hse, ?app_nil_r; try done.
  - rewrite length_app. simpl. lia.
  - rewrite sumZ_app. simpl. lia.
  - intros j Hj. apply H7. rewrite Hperm. set_solver.
  - rewrite <- H10. pose proof (fmap_Permutation m_id _ _ Hperm) as Hpi.
    etrans; [|apply Permutation_app_head, Permutation_app_tail; symmetry; exact Hpi].
    by rewrite <- app_assoc.
  - rewrite fmap_app. simpl. apply NoDup_app. split_and!; [done| |apply NoDup_singleton].
    intros x Hx ->%list_elem_of_singleton. done.
  - intros x. rewrite fmap_app, !elem_of_app. simpl. intros [Hx|Hx]; [left; by apply Hlog|by right].
Qed.

Lemma hq_release_ok id q log :
  hq_ok (q, log) → let r := release_item limits id q in hq_ok (r.1, log ++ r.2).
Proof.
  intros Hok. cbv zeta. unfold release_item. destruct (find_by m_id id (settled q)) as [i|] eqn:Ef;
    simpl; [|by rewrite app_nil_r].
  destruct Hok as [[H1 H2 H3 H4 H5 H6 H7 H8 H9 H10 H11 Hlog H12] Hbusy]. simpl in *.
  destruct (remove_by_found m_id m_bytes id (settled q) i H11 Ef) as (Hperm & Hsum & Hlen).
  match goal with |- context [drain limits ?g] => set (q1 := g) end.
  assert (Hi : 0 <= m_bytes i) by (apply H7; rewrite Hperm; set_solver).
  assert (Hc : hcore (q1, log)).
  { unfold retainedBytes in *. split; simpl; unfold retainedBytes; simpl; try done; try lia.
    - intros j Hj. apply H7. rewrite Hperm. set_solver.
    - eapply sublist_NoDup; [exact H11|apply remove_by_ids].
    - intros x Hx. apply Hlog. eapply elem_of_submseteq; [exact Hx|].
      apply sublist_submseteq, remove_by_ids. }
  pose proof (hq_drain_ok _ _ _ Hc eq_refl) as Hd. cbv zeta in Hd.
  change (drain_from limits (pending q1) q1) with (drain limits q1) in Hd.
  destruct (drain limits q1) as [q2 out]. simpl in *. destruct Hd as (Hd & _).
  rewrite app_assoc. destruct (_ && _); [by apply hq_ok_silent|by rewrite app_nil_r].
Qed.

Lemma clear_ok b q log out :
  hq_ok (q, log) → (b = false → closed q = false ∨ pending q = []) →
  starts out = [] → settlements out = ids (pending q) →
  hq_ok (clear_pending b q, log ++ out).
Proof.
  intros [[H1 H2 H3 H4 H5 H6 H7 H8 H9 H10 H11 Hlog H12] Hbusy] Hb Hs Ht. simpl in *.
  unfold retainedBytes in *. split; [|done].
  assert (0 <= pendingBytes q).
  { rewrite H1. apply sumZ_nonneg. intros. apply H7. set_solver. }
  split; simpl; unfold retainedBytes; simpl; rewrite ?starts_app, ?settlements_app, ?Hs, ?Ht, ?app_nil_r; try done; try lia.
  - intros j Hj. apply H7. set_solver.
  - eapply ascending_sublist; [|exact H8]. apply sublist_inserts_r. done.
  - intros id Hid. apply H9. set_solver.
  - rewrite <- H10, <- app_assoc. apply Permutation_app_head, Permutation_app_comm.
  - intros x Hx. apply elem_of_app. left. by apply Hlog.
Qed.

Lemma close_log (l : list item) :
  starts (mjoin (map (λ i, [HError; HSettle (m_id i) false]) l)) = [] ∧
  settlements (mjoin (map (λ i, [HError; HSettle (m_id i) false]) l)) = ids l.
Proof. induction l as [|i l [IH1 IH2]]; [done|]. simpl. by rewrite IH1, IH2. Qed.

Lemma discard_log (l : list item) :
  starts (map (λ i, HSettle (m_id i) false) l) = [] ∧
  settlements (map (λ i, HSettle (m_id i) false) l) = ids l.
Proof. induction l as [|i l [IH1 IH2]]; [done|]. simpl. by rewrite IH1, IH2. Qed.

Lemma hstep_ok h e :
  0 <= h_maxSize limits → 0 <= h_maxBytes limits → hq_ok h → hq_ok (hstep limits h e).
Proof.
  intros Hm1 Hm2 Hok. destruct h as [q log]. unfold hstep. destruct e as [b|id ok|id| |].
  - pose proof (enqueue_ok (Z.max 0 b) q log ltac:(lia) Hm1 Hm2 Hok) as H. cbv zeta in H.
    by destruct (enqueueItem limits (Z.max 0 b) q) as [[q' out] ok].
  - pose proof (settle_ok id ok q log Hok) as H. cbv zeta in H. by destruct (settle_item id ok q).
  - pose proof (hq_release_ok id q log Hok) as H. cbv zeta in H. by destruct (release_item limits id q).
  - destruct (close_log (pending q)). by apply clear_ok.
  - destruct (discard_log (pending q)). apply clear_ok; try done. by left.
Qed.
End invariant.

(** In every history of a delivery queue, at most [concurrency] messages are
    being handled, at most [maxSize] messages and [maxBytes] bytes are retained
    and the counters say exactly what is, messages are started in the order they
    were accepted and only wait while every slot is taken, and every accepted
    message is settled exactly once: it is waiting, being handled, or has had
    its one settlement. *)
Theorem handler_queue_ok limits h :
  0 < h_concurrency limits → 0 <= h_maxSize limits → 0 <= h_maxBytes limits →
  reachable (hstep limits) (newHandlerQueue, []) h →
  active h.1 <= h_concurrency limits ∧
  Z.of_nat (length (pending h.1)) + active h.1 <= h_maxSize limits ∧
  retainedBytes h.1 = sumZ m_bytes (pending h.1 ++ running h.1 ++ settled h.1) ∧
  retainedBytes h.1 <= h_maxBytes limits ∧
  ascending (starts h.2 ++ (m_id <$> pending h.1)) ∧
  (pending h.1 ≠ [] → active h.1 = h_concurrency limits) ∧
  settlements h.2 ++ (m_id <$> running h.1) ++ (m_id <$> pending h.1) ≡ₚ seq 0 (next h.1).
Proof.
  intros H0 H1 H2 Hr.
  assert (Hok : hq_ok limits h).
  { revert h Hr. apply reachable_invariant; [|intros; by apply hstep_ok].
    split; [|done]. split; simpl; unfold retainedBytes; simpl; try done; try lia; try set_solver; constructor. }
  destruct Hok as [[] Hb]. split_and!; try done.
  rewrite !sumZ_app. unfold retainedBytes. lia.
Qed.

Definition small_queue : HandlerLimits := {| h_concurrency := 1; h_maxSize := 2; h_maxBytes := 100 |}.

(** Three messages for two places: the third overflows; the first fails, then
    its slot is freed for the second. *)
Lemma handler_queue_ok_witness :
  let h := run_events (hstep small_queue) (newHandlerQueue, [])
    [EvEnqueue 10; EvEnqueue 20; EvEnqueue 30; EvSettle 0 false; EvRelease 0] in
  starts h.2 = [0%nat; 1%nat] ∧ settlements h.2 = [0%nat] ∧ overflows h.2 = 1 ∧
  active h.1 <= 1 ∧ retainedBytes h.1 <= 100.
Proof.
  cbv zeta. split_and!; [reflexivity..| |].
  - refine (proj1 (handler_queue_ok small_queue _ _ _ _ (reachable_run _ _ _))); simpl; lia.
  - refine (proj1 (proj2 (proj2 (proj2 (handler_queue_ok small_queue _ _ _ _ (reachable_run _ _ _))))));
      simpl; lia.
Defined.
