(* ===== verification/RetryQueue.v ===== *)
(** * The publication retry queue ([src/src/event-bus/retryQueue.ts])

    Events whose publication failed wait, encoded, in a bounded backlog that
    [flush] publishes one at a time. The model is a state machine: [flush] and
    the settlements of its [publish] calls are events, interleaved with
    [enqueue] and [clear] in any order. Entries are numbered as they are
    accepted. The event type and its codec ([eventCodec.ts]) are parameters. *)

From S2P Require Import Prelude Fifo WirePolicy.

Record RetryLimits := { r_enabled : bool; r_maxSize : Z; r_maxBytes : Z }.

Definition DEFAULT_EVENT_BUS_RETRY_QUEUE_MAX_SIZE : Z := 10000.
Definition DEFAULT_EVENT_BUS_RETRY_QUEUE_MAX_BYTES : Z := 16 * 1024 * 1024.

Definition retryLimits (enabled : option bool) (maxSize maxBytes : option jsnum)
    : result string RetryLimits :=
  let n := maxSize ?? JInt DEFAULT_EVENT_BUS_RETRY_QUEUE_MAX_SIZE in
  let b := maxBytes ?? JInt DEFAULT_EVENT_BUS_RETRY_QUEUE_MAX_BYTES in
  if negb (num_is_safe_integer n) || num_lt n (JInt 0) || negb (num_is_safe_integer b) || num_lt b (JInt 0)
  then Throw "Event retry queue limits must be non-negative safe integers"%string
  else Ok {| r_enabled := enabled ?? true; r_maxSize := num_floor n; r_maxBytes := num_floor b |}.

Record entry := { e_id : nat; e_encoded : bytes; e_discard : bool }.
Definition e_bytes (e : entry) : Z := byteLength (e_encoded e).

(** [flushing]: no flush, one awaiting [publish], or one whose [drain] is over
    and whose [finally] callback has not run. *)
Inductive phase := Idle | Publishing | Ended.

Record rqueue := {
  events : list entry;
  rq_bytes : Z;
  rq_dropped : Z;
  rq_phase : phase;
  flushingEntry : option nat;
  rq_next : nat }.

Definition newRetryQueue : rqueue :=
  {| events := []; rq_bytes := 0; rq_dropped := 0; rq_phase := Idle; flushingEntry := None; rq_next := 0 |}.

Section retry.
Context {E : Type} (encode : E → option bytes) (decode : bytes → option E).

(** Calls out of the queue and what happened to an entry. *)
Inductive rout :=
| RPublish (id : nat) (ev : E)
| RDelivered (id : nat)
| RUndecodable (id : nat)
| REvicted (id : nat)
| RCleared (id : nat)
| ROverflow.

Section ops.
Context (limits : RetryLimits).

Definition with_events (evs : list entry) (b : Z) (q : rqueue) : rqueue :=
  {| events := evs; rq_bytes := b; rq_dropped := rq_dropped q; rq_phase := rq_phase q;
     flushingEntry := flushingEntry q; rq_next := rq_next q |}.

Definition with_phase (p : phase) (f : option nat) (q : rqueue) : rqueue :=
  {| events := events q; rq_bytes := rq_bytes q; rq_dropped := rq_dropped q; rq_phase := p;
     flushingEntry := f; rq_next := rq_next q |}.

Definition drop_one (q : rqueue) : rqueue :=
  {| events := events q; rq_bytes := rq_bytes q; rq_dropped := rq_dropped q + 1;
     rq_phase := rq_phase q; flushingEntry := flushingEntry q; rq_next := rq_next q |}.

Definition is_flushing (q : rqueue) (e : entry) : bool :=
  bool_decide (flushingEntry q = Some (e_id e)).

Definition waitingSize (q : rqueue) : Z :=
  Z.of_nat (length (events q)) - (if existsb (is_flushing q) (events q) then 1 else 0).

(** The first entry that is not being published. *)
Definition oldest_waiting (q : rqueue) : option entry :=
  List.find (λ e, negb (is_flushing q e)) (events q).

(** [removeOldestWaiting], then its bytes and the drop counter. *)
Definition evict (q : rqueue) : option (rqueue * nat) :=
  e ← oldest_waiting q;
  Some (drop_one (with_events (remove_by e_id (e_id e) (events q)) (rq_bytes q - e_bytes e) q), e_id e).

(** The [while] loop that makes room for [n] bytes; at most one round per entry. *)
Fixpoint make_room (fuel : nat) (n : Z) (q : rqueue) : rqueue * list rout :=
  match fuel with
  | O => (q, [])
  | S fuel =>
      if (0 <? waitingSize q) && (r_maxBytes limits <? rq_bytes q + n) then
        match evict q with
        | Some (q', id) =>
            let '(q'', out) := make_room fuel n q' in (q'', REvicted id :: ROverflow :: out)
        | None => (drop_one q, [ROverflow])
        end
      else (q, [])
  end.

Definition append (b : bytes) (q : rqueue) : rqueue :=
  {| events := events q ++ [{| e_id := rq_next q; e_encoded := b; e_discard := false |}];
     rq_bytes := rq_bytes q + byteLength b; rq_dropped := rq_dropped q; rq_phase := rq_phase q;
     flushingEntry := flushingEntry q; rq_next := S (rq_next q) |}.

(** The end of [enqueue], after the count limit has been made good. *)
Definition enqueue_bytes (b : bytes) (q : rqueue) : rqueue * list rout * bool :=
  let '(q, out) := make_room (length (events q)) (byteLength b) q in
  if r_maxBytes limits <? rq_bytes q + byteLength b
  then (drop_one q, out ++ [ROverflow], false)
  else (append b q, out, true).

Definition enqueue (ev : E) (q : rqueue) : rqueue * list rout * bool :=
  if negb (r_enabled limits) then (drop_one q, [ROverflow], false)
  else if r_maxSize limits <=? 0 then (drop_one q, [ROverflow], false)
  else match encode ev with
  | None => (drop_one q, [ROverflow], false)
  | Some b =>
      if (r_maxBytes limits <=? 0) || (r_maxBytes limits <? byteLength b)
      then (drop_one q, [ROverflow], false)
      else if r_maxSize limits <=? waitingSize q then
        match evict q with
        | None => (drop_one q, [ROverflow], false)
        | Some (q', id) =>
            let '(q'', out, ok) := enqueue_bytes b q' in (q'', REvicted id :: ROverflow :: out, ok)
        end
      else enqueue_bytes b q
  end.

(** [drain] until its next [await publish(event)]; an undecodable entry is
    removed without one. *)
Fixpoint drain_from (evs : list entry) (q : rqueue) : rqueue * list rout :=
  match evs with
  | [] => (with_phase Ended None q, [])
  | e :: rest =>
      match decode (e_encoded e) with
      | Some ev => (with_phase Publishing (Some (e_id e)) q, [RPublish (e_id e) ev])
      | None =>
          let '(q', out) := drain_from rest (with_events rest (rq_bytes q - e_bytes e) q) in
          (q', RUndecodable (e_id e) :: out)
      end
  end.

Definition drain (q : rqueue) : rqueue * list rout := drain_from (events q) q.

Definition flush (q : rqueue) : rqueue * list rout :=
  match rq_phase q with Idle => drain q | _ => (q, []) end.

(** [this.events.delete(entry)] and its bytes. *)
Definition delete_entry (e : entry) (q : rqueue) : rqueue :=
  with_events (remove_by e_id (e_id e) (events q)) (rq_bytes q - e_bytes e) q.

Definition flushing_entry (q : rqueue) : option entry :=
  id ← flushingEntry q; find_by e_id id (events q).

(** [publish] resolves. *)
Definition publish_resolves (q : rqueue) : rqueue * list rout :=
  match rq_phase q, flushing_entry q with
  | Publishing, Some e =>
      let '(q', out) := drain (with_phase Publishing None (delete_entry e q)) in
      (q', RDelivered (e_id e) :: out)
  | _, _ => (q, [])
  end.

(** [publish] rejects: the entry stays at the head unless it was cleared. *)
Definition publish_rejects (q : rqueue) : rqueue * list rout :=
  match rq_phase q, flushing_entry q with
  | Publishing, Some e =>
      if e_discard e then (with_phase Ended None (delete_entry e q), [RCleared (e_id e)])
      else (with_phase Ended None q, [])
  | _, _ => (q, [])
  end.

(** The [finally] callback of [flush]. *)
Definition flush_over (q : rqueue) : rqueue * list rout :=
  match rq_phase q with Ended => (with_phase Idle None q, []) | _ => (q, []) end.

Definition clear (q : rqueue) : rqueue * list rout :=
  let gone := filter (λ e, flushingEntry q ≠ Some (e_id e)) (events q) in
  let out := map (λ e, RCleared (e_id e)) gone in
  match flushing_entry q with
  | Some e =>
      (with_events [{| e_id := e_id e; e_encoded := e_encoded e; e_discard := true |}] (e_bytes e) q, out)
  | None => (with_events [] 0 q, out)
  end.

Inductive revent := VEnqueue (ev : E) | VFlush | VResolve | VReject | VOver | VClear.

Definition rstep (h : rqueue * list rout) (v : revent) : rqueue * list rout :=
  let '(q, log) := h in
  let '(q', out) := match v with
    | VEnqueue ev => let '(q', out, _) := enqueue ev q in (q', out)
    | VFlush => flush q
    | VResolve => publish_resolves q
    | VReject => publish_rejects q
    | VOver => flush_over q
    | VClear => clear q
    end in
  (q', log ++ out).
End ops.

Definition published (log : list rout) : list nat :=
  omap (λ o, match o with RPublish id _ => Some id | _ => None end) log.

(** Entries that have left the queue, and those delivered. *)
Definition gone (log : list rout) : list nat :=
  omap (λ o, match o with
    | RDelivered id | RUndecodable id | REvicted id | RCleared id => Some id
    | _ => None end) log.

Definition delivered (log : list rout) : list nat :=
  omap (λ o, match o with RDelivered id => Some id | _ => None end) log.

(** ** Order and conservation *)

Record order_ok (ids : list nat) (nxt : nat) (log : list rout) : Prop := {
  oo_asc : ascending ids;
  oo_fresh : ∀ i, i ∈ ids ++ published log → (i < nxt)%nat;
  oo_once : gone log ++ ids ≡ₚ seq 0 nxt;
  oo_pub : StronglySorted le (published log);
  oo_pub_le : ∀ p i, p ∈ published log → i ∈ ids → (p <= i)%nat;
  oo_del : ascending (delivered log);
  oo_del_lt : ∀ d i, d ∈ delivered log → i ∈ ids → (d < i)%nat }.

Lemma published_app a b : published (a ++ b) = published a ++ published b.
Proof. apply omap_app. Qed.
Lemma gone_app a b : gone (a ++ b) = gone a ++ gone b.
Proof. apply omap_app. Qed.
Lemma delivered_app a b : delivered (a ++ b) = delivered a ++ delivered b.
Proof. apply omap_app. Qed.

Lemma delivered_gone log d : d ∈ delivered log → d ∈ gone log.
Proof.
  unfold delivered, gone. rewrite !list_elem_of_omap. intros (o & Ho & Hd). exists o.
  split; [done|]. by destruct o.
Qed.

Lemma gone_fresh ids nxt log d : order_ok ids nxt log → d ∈ gone log → (d < nxt)%nat.
Proof.
  intros Ho Hd. assert (d ∈ seq 0 nxt) as Hs.
  { rewrite <- (oo_once _ _ _ Ho). by apply elem_of_app; left. }
  apply elem_of_seq in Hs. lia.
Qed.

(** Entries leave the queue, none of them by delivery. *)
Lemma order_leave xs ids ids' nxt log out :
  order_ok ids nxt log → ids ≡ₚ xs ++ ids' → ids' `sublist_of` ids →
  published out = [] → delivered out = [] → gone out = xs →
  order_ok ids' nxt (log ++ out).
Proof.
  intros [] Hp Hs Hpub Hdel Hg.
  assert (Hin : ∀ i, i ∈ ids' → i ∈ ids).
  { intros i Hi. eapply elem_of_submseteq; [exact Hi|]. by apply sublist_submseteq. }
  split; rewrite ?published_app, ?delivered_app, ?gone_app, ?Hpub, ?Hdel, ?Hg, ?app_nil_r; try done.
  - by eapply ascending_sublist.
  - intros i Hi. apply oo_fresh0. rewrite elem_of_app in *. destruct Hi; [left; by apply Hin|by right].
  - by rewrite <- oo_once0, Hp, app_assoc.
  - intros p i Hpi Hi. apply oo_pub_le0; [done|by apply Hin].
  - intros d i Hd Hi. apply oo_del_lt0; [done|by apply Hin].
Qed.

Lemma order_silent ids nxt log out :
  order_ok ids nxt log → published out = [] → delivered out = [] → gone out = [] →
  order_ok ids nxt (log ++ out).
Proof. intros Ho. by apply (order_leave [] ids ids). Qed.

(** The head is delivered. *)
Lemma order_deliver x ids nxt log out :
  order_ok (x :: ids) nxt log → published out = [] → delivered out = [x] → gone out = [x] →
  order_ok ids nxt (log ++ out).
Proof.
  intros [] Hpub Hdel Hg. apply StronglySorted_cons in oo_asc0 as [Hx Hasc].
  rewrite Forall_forall in Hx.
  split; rewrite ?published_app, ?delivered_app, ?gone_app, ?Hpub, ?Hdel, ?Hg, ?app_nil_r; try done.
  - intros i Hi. apply oo_fresh0. set_solver.
  - by rewrite <- oo_once0, <- app_assoc.
  - intros p i Hp Hi. apply oo_pub_le0; [done|by right].
  - apply ascending_snoc. split; [done|]. intros d Hd. apply oo_del_lt0; [done|by left].
  - intros d i Hd Hi. rewrite elem_of_app, list_elem_of_singleton in Hd.
    destruct Hd as [Hd| ->]; [apply oo_del_lt0; [done|by right]|by apply Hx].
Qed.

(** The head's publication starts. *)
Lemma order_publish x ids nxt log out :
  order_ok (x :: ids) nxt log → published out = [x] → delivered out = [] → gone out = [] →
  order_ok (x :: ids) nxt (log ++ out).
Proof.
  intros [] Hpub Hdel Hg. assert (oo_asc1 := oo_asc0). apply StronglySorted_cons in oo_asc1 as [Hx Hasc].
  rewrite Forall_forall in Hx.
  split; rewrite ?published_app, ?delivered_app, ?gone_app, ?Hpub, ?Hdel, ?Hg, ?app_nil_r; try done.
  - intros i Hi. apply oo_fresh0. set_solver.
  - apply StronglySorted_app. split_and!; [|done|by repeat constructor].
    intros p y Hp ->%list_elem_of_singleton. apply oo_pub_le0; [done|by left].
  - intros p i Hp Hi. rewrite elem_of_app, list_elem_of_singleton in Hp.
    destruct Hp as [Hp| ->]; [by apply oo_pub_le0|].
    apply elem_of_cons in Hi as [->|Hi]; [done|]. specialize (Hx i Hi). lia.
Qed.

Lemma order_append ids nxt log : order_ok ids nxt log → order_ok (ids ++ [nxt]) (S nxt) log.
Proof.
  intros Ho. assert (Hg : ∀ d, d ∈ gone log → (d < nxt)%nat) by (intros d; by apply gone_fresh with ids). destruct Ho. split; try done.
  - apply ascending_snoc. split; [done|]. intros y Hy. apply oo_fresh0. set_solver.
  - intros i Hi. rewrite !elem_of_app, list_elem_of_singleton in Hi.
    destruct Hi as [[Hi| ->]|Hi]; [|lia|]; (assert (i < nxt)%nat by (apply oo_fresh0; set_solver); lia).
  - rewrite seq_S, <- oo_once0. by rewrite app_assoc.
  - intros p i Hp Hi. rewrite elem_of_app, list_elem_of_singleton in Hi.
    destruct Hi as [Hi| ->]; [by apply oo_pub_le0|].
    assert (p < nxt)%nat by (apply oo_fresh0; set_solver). lia.
  - intros d i Hd Hi. rewrite elem_of_app, list_elem_of_singleton in Hi.
    destruct Hi as [Hi| ->]; [by apply oo_del_lt0|]. by apply Hg, delivered_gone.
Qed.

(** ** The invariant *)

Section invariant.
Context (limits : RetryLimits).

Definition head_ok (q : rqueue) : Prop :=
  match flushingEntry q with
  | Some id => rq_phase q = Publishing ∧ ∃ e rest, events q = e :: rest ∧ e_id e = id
  | None => rq_phase q ≠ Publishing
  end.

Record rbase (h : rqueue * list rout) : Prop := {
  rb_order : order_ok (e_id <$> events h.1) (rq_next h.1) h.2;
  rb_bytes : rq_bytes h.1 = sumZ e_bytes (events h.1);
  rb_max : rq_bytes h.1 <= r_maxBytes limits;
  rb_size : Z.of_nat (length (events h.1)) <= r_maxSize limits + 1 }.

Record rq_ok (h : rqueue * list rout) : Prop := {
  ro_base : rbase h;
  ro_head : head_ok h.1 }.

Lemma e_bytes_nonneg e : 0 <= e_bytes e.
Proof. unfold e_bytes, byteLength. lia. Qed.

Lemma sum_bytes_nonneg l : 0 <= sumZ e_bytes l.
Proof. apply sumZ_nonneg. intros. apply e_bytes_nonneg. Qed.

Lemma find_by_elem (l : list entry) e :
  NoDup (e_id <$> l) → e ∈ l → find_by e_id (e_id e) l = Some e.
Proof.
  induction l as [|x l IH]; [by intros _ ?%elem_of_nil|]. rewrite fmap_cons, NoDup_cons.
  intros [Hx Hnd] He. unfold find_by. simpl. case_bool_decide as Hid.
  - apply elem_of_cons in He as [->|He]; [done|]. exfalso. apply Hx. rewrite Hid.
    apply list_elem_of_fmap. eauto.
  - apply elem_of_cons in He as [->|He]; [done|]. by apply IH.
Qed.

Lemma order_NoDup ids nxt log : order_ok ids nxt log → NoDup ids.
Proof. intros []. by apply ascending_NoDup. Qed.

Lemma waiting_none q : flushingEntry q = None → waitingSize q = Z.of_nat (length (events q)).
Proof.
  intros H. unfold waitingSize. replace (existsb (is_flushing q) (events q)) with false; [lia|].
  symmetry. induction (events q) as [|e l IH]; [done|]. simpl. rewrite IH. unfold is_flushing.
  by rewrite H.
Qed.

Lemma waiting_head q e rest :
  flushingEntry q = Some (e_id e) → events q = e :: rest → waitingSize q = Z.of_nat (length rest).
Proof.
  intros H He. unfold waitingSize. rewrite He. simpl. unfold is_flushing at 1.
  rewrite H, bool_decide_eq_true_2 by done. simpl. lia.
Qed.

(** The waiting entries, head apart while it is being published. *)
Definition waiting (q : rqueue) : list entry :=
  match flushingEntry q with Some _ => tail (events q) | None => events q end.

Lemma waitingSize_waiting q : head_ok q → waitingSize q = Z.of_nat (length (waiting q)).
Proof.
  unfold head_ok, waiting. destruct (flushingEntry q) as [id|] eqn:Ef.
  - intros (_ & e & rest & He & <-). rewrite (waiting_head q e rest) by done. by rewrite He.
  - intros _. by apply waiting_none.
Qed.

Lemma oldest_waiting_spec q :
  head_ok q → NoDup (e_id <$> events q) → oldest_waiting q = head (waiting q).
Proof.
  unfold head_ok, waiting, oldest_waiting. destruct (flushingEntry q) as [id|] eqn:Ef.
  - intros (_ & e & rest & He & <-) Hnd. rewrite He in *. simpl. unfold is_flushing at 1.
    rewrite Ef, bool_decide_eq_true_2 by done. simpl.
    destruct rest as [|x rest]; [done|]. simpl. unfold is_flushing at 1. rewrite Ef.
    rewrite bool_decide_eq_false_2; [done|]. intros [= Hid].
    rewrite fmap_cons, NoDup_cons in Hnd. apply Hnd. rewrite Hid. by left.
  - intros _ _. destruct (events q) as [|e l]; [done|]. simpl. unfold is_flushing. by rewrite Ef.
Qed.

Lemma remove_head e (l : list entry) : NoDup (e_id <$> e :: l) → remove_by e_id (e_id e) (e :: l) = l.
Proof.
  rewrite fmap_cons, NoDup_cons. intros [He _]. unfold remove_by. rewrite filter_cons_False by auto.
  by apply remove_by_id_absent.
Qed.

(** Evicting removes the first waiting entry. *)
Lemma evict_spec q :
  head_ok q → NoDup (e_id <$> events q) →
  match waiting q with
  | [] => evict q = None
  | e :: rest =>
      ∃ q', evict q = Some (q', e_id e) ∧ waiting q' = rest ∧ head_ok q' ∧
        events q ≡ₚ e :: events q' ∧ events q' `sublist_of` events q ∧
        rq_bytes q' = rq_bytes q - e_bytes e ∧ rq_next q' = rq_next q ∧
        flushingEntry q' = flushingEntry q
  end.
Proof.
  intros Hh Hnd. pose proof (oldest_waiting_spec q Hh Hnd) as Ho.
  destruct (waiting q) as [|e rest] eqn:Ew; unfold evict; rewrite Ho; simpl; [done|].
  assert (He : e ∈ events q).
  { unfold waiting in Ew. destruct (flushingEntry q); [|rewrite Ew; by left].
    destruct (events q) as [|x l]; [done|]. simpl in Ew. subst l. right. by left. }
  pose proof (find_by_elem _ e Hnd He) as Hf.
  destruct (remove_by_found e_id e_bytes (e_id e) (events q) e Hnd Hf) as (Hp & _ & _).
  eexists. split; [done|].
  assert (Hw : waiting (drop_one (with_events (remove_by e_id (e_id e) (events q)) (rq_bytes q - e_bytes e) q)) = rest
    ∧ head_ok (drop_one (with_events (remove_by e_id (e_id e) (events q)) (rq_bytes q - e_bytes e) q))).
  { unfold head_ok, waiting in *. simpl. destruct (flushingEntry q) as [id|].
    - destruct Hh as (Hph & h & l & Hev & <-). rewrite Hev in *. simpl in Ew. subst l.
      rewrite fmap_cons, NoDup_cons in Hnd. destruct Hnd as [Hh Hnd].
      unfold remove_by. rewrite filter_cons_True.
      2:{ intros Heq. apply Hh. rewrite Heq. by left. }
      change (filter (λ w, e_id w ≠ e_id e) (e :: rest)) with (remove_by e_id (e_id e) (e :: rest)).
      rewrite remove_head by done. split; [done|]. split; [done|]. eauto.
    - rewrite Ew in *. rewrite remove_head by done. done. }
  destruct Hw as [Hw1 Hw2]. split_and!; try done. apply remove_by_sublist.
Qed.

Lemma waiting_le q : head_ok q → (length (waiting q) <= length (events q))%nat.
Proof. intros _. unfold waiting. destruct (flushingEntry q); [|done]. destruct (events q); simpl; lia. Qed.

Lemma evict_ok q log q' id :
  rq_ok (q, log) → evict q = Some (q', id) →
  rq_ok (q', log ++ [REvicted id; ROverflow]) ∧ length (events q) = S (length (events q')) ∧
  length (waiting q) = S (length (waiting q')).
Proof.
  intros [[Hord Hb Hm Hs] Hh] He. simpl in *.
  pose proof (evict_spec q Hh (order_NoDup _ _ _ Hord)) as H.
  destruct (waiting q) as [|e rest] eqn:Ew; [congruence|].
  destruct H as (q1 & He1 & Hw & Hh1 & Hp & Hsub & Hb1 & Hn & Hf). rewrite He1 in He. injection He as -> <-.
  assert (Hsize : length (events q) = S (length (events q'))) by (by rewrite Hp).
  split_and!; [|done|simpl; by rewrite Hw].
  split; [|done]. pose proof (e_bytes_nonneg e). split; simpl.
  - rewrite Hn. apply (order_leave [e_id e] (e_id <$> events q)); try done.
    + by rewrite Hp.
    + by apply fmap_sublist.
  - rewrite Hb1, Hb, (sumZ_perm e_bytes _ _ Hp), sumZ_cons. lia.
  - lia.
  - lia.
Qed.

Lemma rq_ok_silent q log out :
  rq_ok (q, log) → published out = [] → delivered out = [] → gone out = [] → rq_ok (q, log ++ out).
Proof. intros [[] Hh] H1 H2 H3. split; [|done]. split; try done. by apply order_silent. Qed.

Lemma rq_ok_drop q log : rq_ok (q, log) → rq_ok (drop_one q, log).
Proof. intros [[] Hh]. split; [|done]. by split. Qed.

(** The eviction loop keeps the invariant and has done its work when it stops. *)
Lemma make_room_ok fuel n q log :
  rq_ok (q, log) → (length (waiting q) <= fuel)%nat →
  let r := make_room limits fuel n q in
  rq_ok (r.1, log ++ r.2) ∧ (length (events r.1) <= length (events q))%nat ∧
  (waitingSize r.1 = 0 ∨ rq_bytes r.1 + n <= r_maxBytes limits).
Proof.
  revert q log. induction fuel as [|fuel IH]; intros q log Hok Hfuel; cbv zeta; simpl.
  { rewrite app_nil_r. split_and!; [done..|]. left. rewrite waitingSize_waiting by apply Hok. lia. }
  destruct (_ && _) eqn:Eb.
  - bools. destruct (evict q) as [[q' id]|] eqn:Ee.
    + destruct (evict_ok q log q' id Hok Ee) as (Hok' & Hw & Hl).
      specialize (IH q' _ Hok' ltac:(lia)). cbv zeta in IH.
      destruct (make_room limits fuel n q') as [q'' out]. simpl in *.
      rewrite <- app_assoc in IH. destruct IH as (? & ? & ?). split_and!; [done|lia|done].
    + exfalso. destruct Hok as [[Hord _ _ _] Hh]. simpl in *.
      pose proof (evict_spec q Hh (order_NoDup _ _ _ Hord)) as Hs. rewrite Ee in Hs.
      rewrite waitingSize_waiting in * by done. destruct (waiting q); [simpl in *; lia|].
      by destruct Hs as (? & ? & _).
  - simpl. rewrite app_nil_r. split_and!; [done..|]. apply andb_false_iff in Eb.
    destruct Hok as [_ Hh]. simpl in *. rewrite waitingSize_waiting in * by done.
    destruct Eb as [Eb|Eb]; bools; lia.
Qed.

Lemma append_ok b q log :
  rq_ok (q, log) → Z.of_nat (length (events q)) <= r_maxSize limits →
  rq_bytes q + byteLength b <= r_maxBytes limits → rq_ok (append b q, log).
Proof.
  intros [[Hord Hb Hm Hs] Hh] Hlt Hmax. simpl in *.
  assert (Hh' : head_ok (append b q)).
  { unfold head_ok in *. simpl. destruct (flushingEntry q); [|done].
    destruct Hh as (Hp & e & rest & -> & He). split; [done|]. by exists e, (rest ++ [{| e_id := rq_next q; e_encoded := b; e_discard := false |}]). }
  split; [|done]. split; simpl.
  - rewrite fmap_app. by apply order_append.
  - rewrite sumZ_app. simpl. unfold e_bytes at 2. simpl. lia.
  - done.
  - rewrite length_app. simpl. lia.
Qed.

Lemma enqueue_bytes_ok b q log :
  rq_ok (q, log) → Z.of_nat (length (events q)) <= r_maxSize limits →
  let r := enqueue_bytes limits b q in rq_ok (r.1.1, log ++ r.1.2).
Proof.
  intros Hok Hlt. cbv zeta. unfold enqueue_bytes.
  pose proof (make_room_ok (length (events q)) (byteLength b) q log Hok (waiting_le q (ro_head _ Hok))) as H.
  cbv zeta in H. destruct (make_room limits _ _ q) as [q1 out]. simpl in H. destruct H as (Hok1 & Hw & _).
  destruct (_ <? _) eqn:Eb; bools; simpl.
  - rewrite app_assoc. apply rq_ok_silent; try done. by apply rq_ok_drop.
  - apply append_ok; [done|lia|lia].
Qed.

Lemma retry_enqueue_ok ev q log :
  rq_ok (q, log) → let r := enqueue limits ev q in rq_ok (r.1.1, log ++ r.1.2).
Proof.
  intros Hok. cbv zeta. unfold enqueue.
  assert (Hdrop : rq_ok (drop_one q, log ++ [ROverflow])) by (by apply rq_ok_silent; [apply rq_ok_drop|..]).
  destruct (negb _); [done|]. destruct (_ <=? 0); [done|]. destruct (encode ev) as [b|]; [|done].
  destruct (_ || _); [done|]. destruct (_ <=? waitingSize q) eqn:Eb; bools.
  - destruct (evict q) as [[q' id]|] eqn:Ee; [|done].
    destruct (evict_ok q log q' id Hok Ee) as (Hok' & Hw & _).
    pose proof (rb_size _ (ro_base _ Hok)) as Hsz. simpl in Hsz.
    pose proof (enqueue_bytes_ok b q' _ Hok' ltac:(simpl in *; lia)) as H. cbv zeta in H.
    destruct (enqueue_bytes limits b q') as [[q'' out] ok]. simpl in *. by rewrite <- app_assoc in H.
  - pose proof (ro_head _ Hok) as Hh. simpl in Hh. rewrite waitingSize_waiting in Eb by done.
    assert (length (events q) <= S (length (waiting q)))%nat.
    { unfold waiting. destruct (flushingEntry q), (events q); simpl; lia. }
    apply (enqueue_bytes_ok b q log Hok). lia.
Qed.

Lemma drain_from_ok evs q log :
  rbase (q, log) → events q = evs →
  let r := drain_from evs q in rq_ok (r.1, log ++ r.2).
Proof.
  revert q log. induction evs as [|e rest IH]; intros q log Hb He; cbv zeta; simpl.
  { rewrite app_nil_r. destruct Hb. by split. }
  destruct Hb as [Hord Hby Hm Hs]. simpl in *. rewrite He in *.
  destruct (decode (e_encoded e)) as [ev|].
  - split; [split; simpl; rewrite ?He; try done; by apply order_publish|].
    simpl. split; [done|]. simpl. rewrite He. eauto.
  - rewrite sumZ_cons in Hby. pose proof (e_bytes_nonneg e).
    assert (Hb' : rbase (with_events rest (rq_bytes q - e_bytes e) q, log ++ [RUndecodable (e_id e)])).
    { split; simpl in *; [|lia..]. apply (order_leave [e_id e] (e_id <$> e :: rest)); try done.
      by apply fmap_sublist, sublist_cons. }
    specialize (IH _ _ Hb' eq_refl). cbv zeta in IH.
    destruct (drain_from rest _) as [q' out]. simpl in *. by rewrite <- app_assoc in IH.
Qed.

Lemma flushing_head q e :
  head_ok q → flushing_entry q = Some e → ∃ rest, events q = e :: rest ∧ flushingEntry q = Some (e_id e).
Proof.
  unfold head_ok, flushing_entry. destruct (flushingEntry q) as [id|]; [|done].
  intros (_ & h & rest & -> & <-) Hf. simpl in Hf. unfold find_by in Hf. simpl in Hf.
  rewrite bool_decide_eq_true_2 in Hf by done. injection Hf as <-. eauto.
Qed.

Lemma delete_head_ok q e rest log out :
  rq_ok (q, log) → events q = e :: rest →
  (delivered out = [e_id e] ∨ delivered out = []) → published out = [] → gone out = [e_id e] →
  events (delete_entry e q) = rest ∧ rbase (delete_entry e q, log ++ out).
Proof.
  intros [[Hord Hb Hm Hs] Hh] He Hd Hp Hg. simpl in *. rewrite He in *.
  unfold delete_entry. rewrite He, remove_head by (by eapply order_NoDup). simpl.
  split; [done|]. rewrite sumZ_cons in Hb. pose proof (e_bytes_nonneg e). split; simpl in *; [|lia..].
  destruct Hd as [Hd|Hd].
  - by apply (order_deliver (e_id e)).
  - apply (order_leave [e_id e] (e_id e :: (e_id <$> rest))); try done. apply sublist_cons. done.
Qed.

Lemma flush_ok q log : rq_ok (q, log) → let r := flush q in rq_ok (r.1, log ++ r.2).
Proof.
  intros Hok. cbv zeta. unfold flush. destruct (rq_phase q); simpl; try (by rewrite app_nil_r).
  apply drain_from_ok; [apply Hok|done].
Qed.

Lemma resolve_ok q log : rq_ok (q, log) → let r := publish_resolves q in rq_ok (r.1, log ++ r.2).
Proof.
  intros Hok. cbv zeta. unfold publish_resolves.
  destruct (rq_phase q) eqn:Ep; simpl; try (by rewrite app_nil_r).
  destruct (flushing_entry q) as [e|] eqn:Ef; simpl; [|by rewrite app_nil_r].
  destruct (flushing_head q e (ro_head _ Hok) Ef) as (rest & He & _).
  destruct (delete_head_ok q e rest log [RDelivered (e_id e)] Hok He) as [Hev Hb]; try done; [by left|].
  assert (Hb' : rbase (with_phase Publishing None (delete_entry e q), log ++ [RDelivered (e_id e)]))
    by (destruct Hb; by split).
  pose proof (drain_from_ok _ _ _ Hb' eq_refl) as H. cbv zeta in H. unfold drain.
  destruct (drain_from _ _) as [q' out]. simpl in *. by rewrite <- app_assoc in H.
Qed.

Lemma reject_ok q log : rq_ok (q, log) → let r := publish_rejects q in rq_ok (r.1, log ++ r.2).
Proof.
  intros Hok. cbv zeta. unfold publish_rejects.
  destruct (rq_phase q) eqn:Ep; simpl; try (by rewrite app_nil_r).
  destruct (flushing_entry q) as [e|] eqn:Ef; simpl; [|by rewrite app_nil_r].
  destruct (flushing_head q e (ro_head _ Hok) Ef) as (rest & He & _).
  destruct (e_discard e); simpl.
  - destruct (delete_head_ok q e rest log [RCleared (e_id e)] Hok He) as [Hev Hb]; try done; [by right|].
    destruct Hb. by split.
  - rewrite app_nil_r. destruct Hok as [[] _]. by split.
Qed.

Lemma over_ok q log : rq_ok (q, log) → let r := flush_over q in rq_ok (r.1, log ++ r.2).
Proof.
  intros Hok. cbv zeta. unfold flush_over.
  destruct (rq_phase q) eqn:Ep; simpl; rewrite app_nil_r; try done.
  destruct Hok as [[] _]. by split.
Qed.

Lemma cleared_log (l : list entry) :
  let out := map (λ e, RCleared (e_id e)) l in
  published out = [] ∧ delivered out = [] ∧ gone out = e_id <$> l.
Proof. induction l as [|e l (H1 & H2 & H3)]; [done|]. simpl in *. by rewrite H1, H2, H3. Qed.

Lemma clear_retry_ok q log :
  0 <= r_maxBytes limits → 0 <= r_maxSize limits →
  rq_ok (q, log) → let r := clear q in rq_ok (r.1, log ++ r.2).
Proof.
  intros Hm0 Hs0 Hok. assert (Hok' := Hok). destruct Hok as [[Hord Hb Hm Hs] Hh]. cbv zeta. unfold clear.
  destruct (cleared_log (filter (λ e, flushingEntry q ≠ Some (e_id e)) (events q))) as (H1 & H2 & H3).
  simpl in *. destruct (flushing_entry q) as [e|] eqn:Ef; simpl.
  - destruct (flushing_head q e Hh Ef) as (rest & He & Hfe). rewrite He in *.
    assert (Hfil : filter (λ e0, flushingEntry q ≠ Some (e_id e0)) (e :: rest) = rest).
    { rewrite filter_cons_False by (by intros Hn; apply Hn).
      pose proof (order_NoDup _ _ _ Hord) as Hnd. rewrite fmap_cons, NoDup_cons in Hnd.
      rewrite Hfe. destruct Hnd as [Hni _]. clear -Hni. induction rest as [|x l IH]; [done|].
      rewrite filter_cons_True; [f_equal; apply IH; set_solver|]. intros [= Hx]. apply Hni.
      rewrite Hx. by left. }
    rewrite Hfil in *. rewrite sumZ_cons in Hb. pose proof (sum_bytes_nonneg rest).
    unfold head_ok in Hh. rewrite Hfe in Hh.
    split; [split; simpl in *; [|unfold e_bytes; simpl; lia|lia|lia]
           |simpl; unfold head_ok; simpl; rewrite Hfe; split; [by destruct Hh|eauto]].
    apply (order_leave (e_id <$> rest) (e_id e :: (e_id <$> rest))); try done.
    + rewrite Permutation_app_comm. done.
    + apply sublist_skip, sublist_nil_l.
  - assert (Hnone : flushingEntry q = None).
    { unfold head_ok, flushing_entry in *. destruct (flushingEntry q) as [id|]; [|done].
      destruct Hh as (_ & h & rest & Hev & <-). rewrite Hev in Ef. simpl in Ef. unfold find_by in Ef.
      simpl in Ef. by rewrite bool_decide_eq_true_2 in Ef. }
    assert (Hfil : filter (λ e, flushingEntry q ≠ Some (e_id e)) (events q) = events q).
    { rewrite Hnone. clear. induction (events q) as [|x l IH]; [done|].
      rewrite filter_cons_True by done. by rewrite IH. }
    rewrite Hfil in *. unfold head_ok in Hh. rewrite Hnone in Hh.
    split; [split; simpl; [|done|lia|lia]|simpl; unfold head_ok; simpl; by rewrite Hnone].
    apply (order_leave (e_id <$> events q) (e_id <$> events q)); try done; [by rewrite app_nil_r|apply sublist_nil_l].
Qed.

Lemma rstep_ok h v :
  0 <= r_maxBytes limits → 0 <= r_maxSize limits → rq_ok h → rq_ok (rstep limits h v).
Proof.
  intros Hm Hs Hok. destruct h as [q log]. unfold rstep. destruct v as [ev| | | | |].
  - pose proof (retry_enqueue_ok ev q log Hok) as H. cbv zeta in H.
    by destruct (enqueue limits ev q) as [[q' out] ok].
  - pose proof (flush_ok q log Hok) as H. cbv zeta in H. by destruct (flush q).
  - pose proof (resolve_ok q log Hok) as H. cbv zeta in H. by destruct (publish_resolves q).
  - pose proof (reject_ok q log Hok) as H. cbv zeta in H. by destruct (publish_rejects q).
  - pose proof (over_ok q log Hok) as H. cbv zeta in H. by destruct (flush_over q).
  - pose proof (clear_retry_ok q log Hm Hs Hok) as H. cbv zeta in H. by destruct (clear q).
Qed.

(** In every interleaving of publications, failures, new events and clears,
    the retry queue retains at most [maxBytes] bytes, counted exactly, and at
    most [maxSize] entries beside the one being published; entries are published
    in the order they were accepted, one at a time, each delivered at most once;
    and none disappears: every accepted entry is still retained, or has been
    delivered, evicted, cleared or found undecodable, exactly once. *)
Theorem retry_queue_ok h :
  0 <= r_maxBytes limits → 0 <= r_maxSize limits →
  reachable (rstep limits) (newRetryQueue, []) h →
  rq_bytes h.1 = sumZ e_bytes (events h.1) ∧ rq_bytes h.1 <= r_maxBytes limits ∧
  Z.of_nat (length (events h.1)) <= r_maxSize limits + 1 ∧
  StronglySorted le (published h.2) ∧ ascending (delivered h.2) ∧
  gone h.2 ++ (e_id <$> events h.1) ≡ₚ seq 0 (rq_next h.1) ∧
  (rq_phase h.1 = Publishing → ∃ e rest, events h.1 = e :: rest ∧ flushingEntry h.1 = Some (e_id e)).
Proof.
  intros Hm Hs Hr.
  assert (Hok : rq_ok h).
  { revert h Hr. apply reachable_invariant; [|intros; by apply rstep_ok].
    split; [|done]. split; simpl; try lia.
    split; simpl; try constructor; try set_solver. }
  destruct Hok as [[[] Hb Hmx Hsz] Hh]. split_and!; try done.
  intros Hp. unfold head_ok in Hh. destruct (flushingEntry h.1); [|done].
  destruct Hh as (_ & e & rest & He & <-). eauto.
Qed.
End invariant.
End retry.

Definition small_retry : RetryLimits := {| r_enabled := true; r_maxSize := 2; r_maxBytes := 10 |}.

(** Events are their own encodings. A publication fails and is retried; a
    fourth event evicts the oldest waiting one. *)
Lemma retry_queue_ok_witness :
  let h := run_events (rstep (λ b : bytes, Some b) Some small_retry) (newRetryQueue, [])
    [VEnqueue [1]; VEnqueue [2]; VFlush; VReject; VOver; VFlush; VEnqueue [3]; VEnqueue [4]; VResolve] in
  published h.2 = [0; 0; 2]%nat ∧ delivered h.2 = [0%nat] ∧ gone h.2 = [1; 0]%nat ∧
  rq_bytes h.1 <= 10 ∧ StronglySorted le (published h.2).
Proof.
  cbv zeta. split_and!; [reflexivity..| |].
  - refine (proj1 (proj2 (retry_queue_ok (λ b : bytes, Some b) Some small_retry _ _ _
      (reachable_run _ _ _)))); simpl; lia.
  - refine (proj1 (proj2 (proj2 (proj2 (retry_queue_ok (λ b : bytes, Some b) Some small_retry _ _ _
      (reachable_run _ _ _)))))); simpl; lia.
Defined.

(** After a failed publication the waiting backlog can hold [maxSize + 1]
    entries, and an [enqueue] that evicts one entry leaves it so. *)
Example waiting_exceeds_maxSize :
  waitingSize (run_events (rstep (λ b : bytes, Some b) Some small_retry) (newRetryQueue, [])
    [VEnqueue [1]; VFlush; VEnqueue [2]; VEnqueue [3]; VReject; VOver; VEnqueue [4]]).1 = 3.
Proof. reflexivity. Qed.
