(* ===== verification/JsMap.v ===== *)
(** * JavaScript maps

    A [Map] iterates in insertion order; setting a present key keeps its place,
    and its first key is the oldest. Modelled as the list of its entries. *)

From S2P Require Import Prelude.

Section jmap.
Context {K : Type} `{EqDecision K} {V : Type}.
Implicit Types m : list (K * V).

Definition jget (k : K) m : option V := snd <$> List.find (λ e, bool_decide (e.1 = k)) m.
Definition jhas (k : K) m : bool := bool_decide (is_Some (jget k m)).
Definition jdel (k : K) m : list (K * V) := filter (λ e, e.1 ≠ k) m.
Definition jset (k : K) (v : V) m : list (K * V) :=
  if jhas k m then map (λ e, if bool_decide (e.1 = k) then (k, v) else e) m else m ++ [(k, v)].
Definition jsize m : Z := Z.of_nat (length m).

(** [map.keys().next().value] *)
Definition jfirst m : option K := fst <$> head m.

Definition jmap_ok m : Prop := NoDup (m.*1).

Lemma jget_None k m : jget k m = None ↔ k ∉ m.*1.
Proof.
  unfold jget. induction m as [|[k' v] m IH]; simpl.
  - split; [intros _; apply not_elem_of_nil|done].
  - case_bool_decide; simpl.
    + subst. split; [done|]. intros Hn. exfalso. apply Hn. by left.
    + rewrite IH, not_elem_of_cons. naive_solver.
Qed.

Lemma jget_Some_elem k v m : jget k m = Some v → (k, v) ∈ m.
Proof.
  unfold jget. destruct (List.find _ m) as [[k' v']|] eqn:E; [|done]. simpl. intros [= ->].
  apply List.find_some in E as [Hin Hk]. simpl in Hk. bools. subst. by apply list_elem_of_In.
Qed.

Lemma jget_elem k v m : jmap_ok m → (k, v) ∈ m → jget k m = Some v.
Proof.
  unfold jget, jmap_ok. induction m as [|[k' v'] m IH]; simpl; [by intros _ ?%elem_of_nil|].
  rewrite NoDup_cons. intros [Hn Hnd] [[= -> ->]|Hin]%elem_of_cons.
  - by rewrite bool_decide_eq_true_2.
  - rewrite bool_decide_eq_false_2; [by apply IH|]. intros ->. apply Hn.
    apply list_elem_of_fmap. by exists (k, v).
Qed.

Lemma jdel_absent k m : jget k m = None → jdel k m = m.
Proof.
  rewrite jget_None. unfold jdel. induction m as [|[k' v] m IH]; [done|]. simpl.
  rewrite not_elem_of_cons. intros [Hk Hm]. rewrite filter_cons_True by (simpl; congruence).
  by rewrite IH.
Qed.

Lemma jdel_ok k m : jmap_ok m → jmap_ok (jdel k m).
Proof. intros H. eapply sublist_NoDup; [exact H|]. apply fmap_sublist, sublist_filter. Qed.

Lemma jget_del_eq k m : jget k (jdel k m) = None.
Proof. apply jget_None. intros ([k' v] & -> & Hin)%list_elem_of_fmap. by apply list_elem_of_filter in Hin as [? _]. Qed.

Lemma jget_del_ne k k' m : k ≠ k' → jget k' (jdel k m) = jget k' m.
Proof.
  intros Hne. unfold jget, jdel. induction m as [|[k0 v] m IH]; [done|]. simpl.
  destruct (decide (k0 = k)) as [->|Hk].
  - rewrite filter_cons_False by (simpl; tauto). rewrite bool_decide_eq_false_2 by done. done.
  - rewrite filter_cons_True by done. simpl. by case_bool_decide.
Qed.

(** Removing a present key takes exactly its entry away. *)
Lemma jdel_present k v m :
  jmap_ok m → jget k m = Some v → m ≡ₚ (k, v) :: jdel k m.
Proof.
  unfold jmap_ok. induction m as [|[k0 v0] m IH]; [done|]. simpl. rewrite NoDup_cons.
  intros [Hn Hnd] Hg. unfold jget in Hg. simpl in Hg. unfold jdel. case_bool_decide as Hk.
  - simpl in Hk. injection Hg as ->. subst k0. rewrite filter_cons_False by (simpl; tauto).
    change (filter (λ e : K * V, e.1 ≠ k) m) with (jdel k m).
    by rewrite jdel_absent by (by apply jget_None).
  - rewrite filter_cons_True by done. etrans; [apply perm_skip, IH; done|]. apply perm_swap.
Qed.

Lemma jset_new k v m : jget k m = None → jset k v m = m ++ [(k, v)].
Proof. intros H. unfold jset, jhas. by rewrite H. Qed.

(** Setting a present key keeps the keys, in their order. *)
Lemma jset_over_keys k v v0 m : jget k m = Some v0 → (jset k v m).*1 = m.*1.
Proof.
  intros Hg. unfold jset, jhas. rewrite Hg, bool_decide_eq_true_2 by done. clear Hg.
  induction m as [|[k' v'] m IH]; [done|]. rewrite map_cons, !fmap_cons, IH.
  case_bool_decide; simpl in *; by subst.
Qed.

Lemma jset_over_elem k v v0 m e : jget k m = Some v0 → e ∈ jset k v m → e = (k, v) ∨ e ∈ m.
Proof.
  intros Hg. unfold jset, jhas. rewrite Hg, bool_decide_eq_true_2 by done.
  intros (e' & He & Hin)%list_elem_of_In%in_map_iff. apply list_elem_of_In in Hin.
  case_bool_decide; subst; auto.
Qed.

Lemma jset_over_sum (f : K * V → Z) k v v0 m :
  jmap_ok m → jget k m = Some v0 → sumZ f (jset k v m) = sumZ f m - f (k, v0) + f (k, v).
Proof.
  intros Hok Hg. unfold jset, jhas. rewrite Hg, bool_decide_eq_true_2 by done.
  assert (Hnotin : ∀ m, k ∉ m.*1 → map (λ e, if bool_decide (e.1 = k) then (k, v) else e) m = m).
  { clear. induction m as [|[k' v'] m IH]; [done|]. simpl. rewrite not_elem_of_cons. intros [Hk Hm].
    rewrite bool_decide_eq_false_2, IH; [done|done|simpl; congruence]. }
  revert Hok Hg. unfold jmap_ok, jget. induction m as [|[k' v'] m IH]; [done|]. simpl. rewrite NoDup_cons.
  intros [Hn Hnd]. case_bool_decide as Hk; simpl in *; intros Hg.
  - subst k'. injection Hg as ->. rewrite Hnotin by done. simpl. lia.
  - rewrite IH by done. lia.
Qed.

Lemma jget_app_new k v m k' : jget k m = None →
  jget k' (m ++ [(k, v)]) = if bool_decide (k' = k) then Some v else jget k' m.
Proof.
  unfold jget. induction m as [|[k0 v0] m IH]; simpl; intros H.
  - destruct (decide (k = k')) as [->|Hne]; [by rewrite !bool_decide_eq_true_2|].
    rewrite !bool_decide_eq_false_2; [done|congruence|done].
  - destruct (decide (k0 = k)) as [->|Hk]; [by rewrite bool_decide_eq_true_2 in H|].
    rewrite (bool_decide_eq_false_2 (k0 = k)) in H by done. specialize (IH H).
    destruct (decide (k0 = k')) as [->|Hne].
    + rewrite bool_decide_eq_true_2 by done. simpl. by rewrite bool_decide_eq_false_2 by done.
    + by rewrite !(bool_decide_eq_false_2 (k0 = k')) by done.
Qed.

Lemma jget_cons k k0 v0 m : jget k ((k0, v0) :: m) = if bool_decide (k0 = k) then Some v0 else jget k m.
Proof. unfold jget. simpl. by case_bool_decide. Qed.

Lemma jget_set k v m k' : jget k' (jset k v m) = if bool_decide (k' = k) then Some v else jget k' m.
Proof.
  destruct (jget k m) as [v0|] eqn:Hg; [|by rewrite jset_new, jget_app_new].
  unfold jset, jhas. rewrite Hg, bool_decide_eq_true_2 by done.
  assert (Hother : k' ≠ k → jget k' (map (λ e, if bool_decide (e.1 = k) then (k, v) else e) m) = jget k' m).
  { clear. intros Hk. induction m as [|[k0 v1] m IH]; [done|]. simpl map.
    destruct (decide (k0 = k)) as [->|Hk0].
    - rewrite bool_decide_eq_true_2 by done. rewrite !jget_cons, IH. by rewrite bool_decide_eq_false_2 by congruence.
    - rewrite (bool_decide_eq_false_2 (k0 = k)) by done. by rewrite !jget_cons, IH. }
  case_bool_decide as Hk; [|by apply Hother]. subst k'. clear Hother. revert Hg.
  induction m as [|[k0 v1] m IH]; [done|]. simpl map. rewrite jget_cons.
  destruct (decide (k0 = k)) as [->|Hk0]; intros Hg.
  - rewrite bool_decide_eq_true_2 by done. rewrite jget_cons. by rewrite bool_decide_eq_true_2.
  - rewrite (bool_decide_eq_false_2 (k0 = k)) in * by done. rewrite jget_cons.
    rewrite bool_decide_eq_false_2 by done. by apply IH.
Qed.

Lemma jset_new_ok k v m : jmap_ok m → jget k m = None → jmap_ok (m ++ [(k, v)]).
Proof.
  unfold jmap_ok. intros H Hn. rewrite fmap_app. apply NoDup_app. split_and!; [done| |apply NoDup_singleton].
  intros x Hx ->%list_elem_of_singleton. by apply jget_None in Hn.
Qed.

Lemma jfirst_None m : jfirst m = None → m = [].
Proof. by destruct m. Qed.

Lemma jfirst_Some k m : jfirst m = Some k → ∃ v m', m = (k, v) :: m' ∧ jget k m = Some v.
Proof.
  destruct m as [|[k' v] m]; [done|]. intros [= ->]. exists v, m. split; [done|].
  unfold jget. simpl. by rewrite bool_decide_eq_true_2.
Qed.

(** Byte totals. *)
Section sums.
Context (b : V → Z).
Definition jsum m : Z := sumZ (λ e, b e.2) m.

Lemma jsum_del k v m : jmap_ok m → jget k m = Some v → jsum (jdel k m) = jsum m - b v.
Proof.
  intros H Hg. unfold jsum. rewrite (sumZ_perm _ _ _ (jdel_present k v m H Hg)), sumZ_cons. simpl. lia.
Qed.

Lemma jsum_new k v m : jsum (m ++ [(k, v)]) = jsum m + b v.
Proof. unfold jsum. rewrite sumZ_app. simpl. lia. Qed.
End sums.

Lemma jsize_del k v m : jmap_ok m → jget k m = Some v → jsize (jdel k m) = jsize m - 1.
Proof.
  intros H Hg. unfold jsize. rewrite (Permutation_length (jdel_present k v m H Hg)). simpl. lia.
Qed.

Lemma jsize_new k v m : jsize (m ++ [(k, v)]) = jsize m + 1.
Proof. unfold jsize. rewrite length_app. simpl. lia. Qed.
End jmap.

#[export] Hint Resolve jdel_ok jset_new_ok : jsdb.
