(* ===== verification/KeyGuard.v ===== *)
(** * Mutation guards ([src/src/cache/hybridCache.ts], lines 1733 to 1762)

    Every operation of the cache that may write a key takes a guard first: a
    reference to the key's revision object, the revision it saw and the global
    mutation epoch. [isCurrent] is checked right before each store write. The
    revision objects are shared and mutable, so the model keeps them in a heap
    and guards refer to them by address; a revision that cannot be accounted is
    created unregistered, outside the map.

    The theorem is about histories: a guard that is current has not been
    overtaken by any mutation of its key, by any pattern deletion, loss or
    recovery of trust, generation overflow, or by [close]. *)

From S2P Require Import Prelude Ledger MemoryBudget JsMap.

Definition MAX_AUXILIARY_MAP_BYTES : Z := 2 * 1024 * 1024.

(** [keyMetadataBytes] of a string key. *)
Definition stringMetadataBytes (s : jsstring) : Z := utf8_length s * 2 + 96.

Record KeyRevision := { value : Z; references : Z; kr_bytes : Z; registered : bool }.

Section guards.
Context {K : Type} `{EqDecision K} {L : Type} `{Ledger L}.
(** [String(key)] and [options.versioning?.enabled === true]. *)
Context (String : K → jsstring) (versioning : bool).

Definition keyMetadataBytes (key : K) : Z := stringMetadataBytes (String key).

Record gstate := {
  heap : gmap nat KeyRevision;
  next_object : nat;
  keyRevisions : list (K * nat);
  keyRevisionBytes : Z;
  mutationEpoch : Z;
  closed : bool;
  generationTrackingSaturated : bool;
  memoryBudget : option L }.

Record MutationGuard := { g_key : K; g_state : nat; g_revision : Z; g_epoch : Z }.

Definition versionedCacheSafe (s : gstate) : bool :=
  negb versioning || negb (generationTrackingSaturated s).

Definition put_object (a : nat) (r : KeyRevision) (s : gstate) : gstate :=
  {| heap := <[a := r]> (heap s); next_object := next_object s; keyRevisions := keyRevisions s;
     keyRevisionBytes := keyRevisionBytes s; mutationEpoch := mutationEpoch s; closed := closed s;
     generationTrackingSaturated := generationTrackingSaturated s; memoryBudget := memoryBudget s |}.

(** The revision object of a key, created when there is none. *)
Definition find_revision (key : K) (s : gstate) : gstate * nat :=
  match jget key (keyRevisions s) with
  | Some a => (s, a)
  | None =>
      let bytes := keyMetadataBytes key in
      let '(budget, ok) :=
        if keyRevisionBytes s + bytes <=? MAX_AUXILIARY_MAP_BYTES
        then opt_reserve "coordination-metadata" bytes (memoryBudget s)
        else (memoryBudget s, false) in
      let a := next_object s in
      ({| heap := <[a := {| value := 0; references := 0; kr_bytes := bytes; registered := ok |}]> (heap s);
          next_object := S a;
          keyRevisions := if ok then jset key a (keyRevisions s) else keyRevisions s;
          keyRevisionBytes := if ok then keyRevisionBytes s + bytes else keyRevisionBytes s;
          mutationEpoch := mutationEpoch s; closed := closed s;
          generationTrackingSaturated := generationTrackingSaturated s; memoryBudget := budget |}, a)
  end.

Definition revision_at (a : nat) (s : gstate) : KeyRevision :=
  heap s !! a ?? {| value := 0; references := 0; kr_bytes := 0; registered := false |}.

Definition observeKey (key : K) (mutate : bool) (s : gstate) : gstate * MutationGuard :=
  let '(s, a) := find_revision key s in
  let r := revision_at a s in
  let r := {| value := value r + (if mutate then 1 else 0); references := references r + 1;
              kr_bytes := kr_bytes r; registered := registered r |} in
  (put_object a r s,
   {| g_key := key; g_state := a; g_revision := value r; g_epoch := mutationEpoch s |}).

Definition releaseKey (g : MutationGuard) (s : gstate) : gstate :=
  let r := revision_at (g_state g) s in
  let r := {| value := value r; references := references r - 1; kr_bytes := kr_bytes r;
              registered := registered r |} in
  if (references r =? 0) && bool_decide (jget (g_key g) (keyRevisions s) = Some (g_state g)) then
    {| heap := <[g_state g := {| value := value r; references := references r;
                                 kr_bytes := kr_bytes r; registered := false |}]> (heap s);
       next_object := next_object s; keyRevisions := jdel (g_key g) (keyRevisions s);
       keyRevisionBytes := keyRevisionBytes s - kr_bytes r; mutationEpoch := mutationEpoch s;
       closed := closed s; generationTrackingSaturated := generationTrackingSaturated s;
       memoryBudget := opt_refund "coordination-metadata" (kr_bytes r) (memoryBudget s) |}
  else put_object (g_state g) r s.

(** [aborted] is [guard.signal?.aborted]. *)
Definition isCurrent (g : MutationGuard) (aborted : bool) (s : gstate) : bool :=
  negb (closed s) && registered (revision_at (g_state g) s) && versionedCacheSafe s && negb aborted
  && (g_epoch g =? mutationEpoch s) && (g_revision g =? value (revision_at (g_state g) s)).

Definition bump_epoch (s : gstate) : gstate :=
  {| heap := heap s; next_object := next_object s; keyRevisions := keyRevisions s;
     keyRevisionBytes := keyRevisionBytes s; mutationEpoch := mutationEpoch s + 1; closed := closed s;
     generationTrackingSaturated := generationTrackingSaturated s; memoryBudget := memoryBudget s |}.

(** The guard part of [saturateGenerationTracking]. *)
Definition saturate (s : gstate) : gstate :=
  if generationTrackingSaturated s then s else
  {| heap := heap s; next_object := next_object s; keyRevisions := keyRevisions s;
     keyRevisionBytes := keyRevisionBytes s; mutationEpoch := mutationEpoch s + 1; closed := closed s;
     generationTrackingSaturated := true; memoryBudget := memoryBudget s |}.

Definition unregister (r : KeyRevision) : KeyRevision :=
  {| value := value r; references := references r; kr_bytes := kr_bytes r; registered := false |}.

(** The guard part of [closeResources], which gives the bytes of the seen
    events back in the same call. *)
Definition close_guards (seenEventBytes : Z) (s : gstate) : gstate :=
  {| heap := foldr (λ e h, alter unregister e.2 h) (heap s) (keyRevisions s);
     next_object := next_object s; keyRevisions := []; keyRevisionBytes := 0;
     mutationEpoch := mutationEpoch s + 1; closed := true;
     generationTrackingSaturated := generationTrackingSaturated s;
     memoryBudget := opt_refund "coordination-metadata" (seenEventBytes + keyRevisionBytes s) (memoryBudget s) |}.

Definition set_budget (b : option L) (s : gstate) : gstate :=
  {| heap := heap s; next_object := next_object s; keyRevisions := keyRevisions s;
     keyRevisionBytes := keyRevisionBytes s; mutationEpoch := mutationEpoch s; closed := closed s;
     generationTrackingSaturated := generationTrackingSaturated s; memoryBudget := b |}.

(** ** Histories *)

Inductive gevent :=
| GObserve (key : K) (mutate : bool)
| GRelease (guard : nat)
| GEpoch
| GSaturate
| GClose.

(** A guard that was handed out: [time] is the length of the trace then. *)
Record issued := { guard : MutationGuard; live : bool; time : nat }.

Record history := { now : gstate; guards : list issued; trace : list gevent }.

Definition retire (i : issued) : issued := {| guard := guard i; live := false; time := time i |}.

Definition gstep (h : history) (e : gevent) : history :=
  let tr := trace h ++ [e] in
  match e with
  | GObserve k m =>
      let '(s, g) := observeKey k m (now h) in
      {| now := s; guards := guards h ++ [{| guard := g; live := true; time := length tr |}]; trace := tr |}
  | GRelease i =>
      match guards h !! i with
      | Some {| guard := g; live := true; time := t |} =>
          {| now := releaseKey g (now h); guards := alter retire i (guards h); trace := tr |}
      | _ => {| now := now h; guards := guards h; trace := tr |}
      end
  | GEpoch => {| now := bump_epoch (now h); guards := guards h; trace := tr |}
  | GSaturate =>
      (* a second saturation returns at once *)
      if generationTrackingSaturated (now h) then h
      else {| now := saturate (now h); guards := guards h; trace := tr |}
  | GClose => {| now := close_guards 0 (now h); guards := guards h; trace := tr |}
  end.

Definition initial (budget : option L) : history :=
  {| now := {| heap := ∅; next_object := 0; keyRevisions := []; keyRevisionBytes := 0;
               mutationEpoch := 0; closed := false; generationTrackingSaturated := false;
               memoryBudget := budget |};
     guards := []; trace := [] |}.

(** Nothing in a stretch of history overtakes a write to [k]. *)
Definition undisturbed (k : K) (es : list gevent) : Prop :=
  Forall (λ e, match e with
    | GObserve k' m => m = true → k' ≠ k
    | GRelease _ => True
    | GEpoch | GSaturate | GClose => False
    end) es.

(** ** The invariant *)

(** Live guards that refer to an object. *)
Definition holders (a : nat) (gs : list issued) : nat :=
  length (filter (λ i, live i = true ∧ g_state (guard i) = a) gs).

Context (base : Z) (Hbase : 0 <= base).

Record gcore (s : gstate) (gs : list issued) (tr : list gevent) : Prop := {
  gc_map : jmap_ok (keyRevisions s);
  gc_fresh : ∀ a r, heap s !! a = Some r → (a < next_object s)%nat;
  gc_mapped : ∀ k a, jget k (keyRevisions s) = Some a →
    ∃ r, heap s !! a = Some r ∧ registered r = true ∧ kr_bytes r = keyMetadataBytes k;
  gc_inj : ∀ k k' a, jget k (keyRevisions s) = Some a → jget k' (keyRevisions s) = Some a → k = k';
  gc_refs : ∀ a r, heap s !! a = Some r → references r = Z.of_nat (holders a gs);
  gc_live : ∀ i, i ∈ gs → live i = true →
    ∃ r, heap s !! g_state (guard i) = Some r ∧ g_revision (guard i) <= value r ∧
      (registered r = true → jget (g_key (guard i)) (keyRevisions s) = Some (g_state (guard i)));
  gc_epoch : ∀ i, i ∈ gs → g_epoch (guard i) <= mutationEpoch s ∧ (time i <= length tr)%nat;
  gc_sound : ∀ i r, i ∈ gs → live i = true → heap s !! g_state (guard i) = Some r →
    registered r = true → closed s = false → g_epoch (guard i) = mutationEpoch s →
    g_revision (guard i) = value r → undisturbed (g_key (guard i)) (drop (time i) tr);
  gc_bytes : keyRevisionBytes s = sumZ (λ e, keyMetadataBytes e.1) (keyRevisions s);
  gc_max : keyRevisionBytes s <= MAX_AUXILIARY_MAP_BYTES;
  gc_budget : holds "coordination-metadata" (base + keyRevisionBytes s) (memoryBudget s) }.

Record ginv (h : history) : Prop := {
  gi_core : gcore (now h) (guards h) (trace h);
  gi_used : ∀ k a, jget k (keyRevisions (now h)) = Some a → (0 < holders a (guards h))%nat }.

Lemma keyMetadataBytes_pos k : 96 <= keyMetadataBytes k.
Proof. unfold keyMetadataBytes, stringMetadataBytes. pose proof (utf8_length_nonneg (String k)). lia. Qed.

Lemma holders_app a gs i :
  holders a (gs ++ [i]) =
  (holders a gs + if bool_decide (live i = true ∧ g_state (guard i) = a) then 1 else 0)%nat.
Proof.
  unfold holders. rewrite filter_app, length_app. f_equal. case_bool_decide as Hd.
  - by rewrite filter_cons_True.
  - by rewrite filter_cons_False.
Qed.

Lemma holders_fresh s gs tr : gcore s gs tr → holders (next_object s) gs = 0%nat.
Proof.
  intros Hc. unfold holders. apply length_zero_iff_nil.
  destruct (filter _ gs) as [|i l] eqn:E; [done|]. exfalso.
  assert (Hi : i ∈ filter (λ i, live i = true ∧ g_state (guard i) = next_object s) gs) by (rewrite E; by left).
  apply list_elem_of_filter in Hi as [[Hl Hs] Hi].
  destruct (gc_live _ _ _ Hc i Hi Hl) as (r & Hr & _). rewrite Hs in Hr.
  apply (gc_fresh _ _ _ Hc) in Hr. lia.
Qed.

Lemma find_revision_ok k s gs tr :
  gcore s gs tr →
  let '(s', a) := find_revision k s in
  gcore s' gs tr ∧ mutationEpoch s' = mutationEpoch s ∧ closed s' = closed s ∧
  (∃ r, heap s' !! a = Some r ∧ (registered r = true → jget k (keyRevisions s') = Some a)) ∧
  (∀ k' b, jget k' (keyRevisions s') = Some b → b ≠ a → jget k' (keyRevisions s) = Some b) ∧
  (∀ k', jget k' (keyRevisions s') = Some a → k' = k) ∧
  (∀ b, jget k (keyRevisions s') = Some b → b = a).
Proof.
  intros Hc. unfold find_revision. destruct (jget k (keyRevisions s)) as [a|] eqn:Ek.
  { destruct (gc_mapped _ _ _ Hc k a Ek) as (r & Hr & Hreg & _). split_and!; try done; [by exists r| |congruence].
    intros k' Hk'. by apply (gc_inj _ _ _ Hc k' k a). }
  set (bytes := keyMetadataBytes k). pose proof (keyMetadataBytes_pos k) as Hpos. fold bytes in Hpos.
  destruct (if _ <=? _ then _ else _) as [bud ok] eqn:Eb. simpl.
  assert (Hfr : ∀ b r, heap s !! b = Some r → b ≠ next_object s).
  { intros b r Hb ->. apply (gc_fresh _ _ _ Hc) in Hb. lia. }
  assert (Hnew : ∀ k', jget k' (if ok then jset k (next_object s) (keyRevisions s) else keyRevisions s) =
    if ok && bool_decide (k' = k) then Some (next_object s) else jget k' (keyRevisions s)).
  { intros k'. destruct ok; [|done]. simpl. by rewrite jset_new, jget_app_new. }
  assert (Hmapne : ∀ k' b, jget k' (keyRevisions s) = Some b → b ≠ next_object s).
  { intros k' b Hb. destruct (gc_mapped _ _ _ Hc k' b Hb) as (r & Hr & _). by eapply Hfr. }
  assert (Hbud : holds "coordination-metadata"
    (base + (if ok then keyRevisionBytes s + bytes else keyRevisionBytes s)) bud ∧
    (ok = true → keyRevisionBytes s + bytes <= MAX_AUXILIARY_MAP_BYTES)).
  { pose proof (gc_budget _ _ _ Hc) as Hh. destruct (_ <=? _) eqn:Ele; bools.
    - destruct ok; (split; [|done]).
      + replace (base + (keyRevisionBytes s + bytes)) with (base + keyRevisionBytes s + bytes) by lia.
        eapply holds_reserve_true; [|exact Hh|exact Eb]. lia.
      + eapply holds_reserve_false; [|exact Hh|exact Eb]. lia.
    - injection Eb as <- <-. done. }
  destruct Hbud as [Hbud Hmax]. pose proof (holders_fresh _ _ _ Hc) as Hh0.
  assert (Hcore : gcore {| heap := <[next_object s := {| value := 0; references := 0; kr_bytes := bytes; registered := ok |}]> (heap s);
          next_object := S (next_object s);
          keyRevisions := if ok then jset k (next_object s) (keyRevisions s) else keyRevisions s;
          keyRevisionBytes := if ok then keyRevisionBytes s + bytes else keyRevisionBytes s;
          mutationEpoch := mutationEpoch s; closed := closed s;
          generationTrackingSaturated := generationTrackingSaturated s; memoryBudget := bud |} gs tr).
  { split; simpl.
    - destruct ok; [|apply Hc]. rewrite jset_new by done. apply jset_new_ok; [apply Hc|done].
    - intros a r. rewrite lookup_insert_Some. intros [[<- _]|[_ Hr]]; [lia|].
      apply (gc_fresh _ _ _ Hc) in Hr. lia.
    - intros k' a. rewrite Hnew. destruct (ok && _) eqn:E; intros Ha.
      + injection Ha as <-. bools. subst k'. eexists. rewrite lookup_insert_eq. split; [done|].
        simpl. split; [|done]. by destruct ok.
      + destruct (gc_mapped _ _ _ Hc k' a Ha) as (r & Hr & Hx). exists r. split; [|done].
        rewrite lookup_insert_ne; [done|]. intros <-. by eapply Hfr.
    - intros k1 k2 a. rewrite !Hnew. destruct (ok && bool_decide (k1 = k)) eqn:E1,
        (ok && bool_decide (k2 = k)) eqn:E2; bools; intros Ha Hb; subst; try done.
      + injection Ha as <-. by apply Hmapne in Hb.
      + injection Hb as <-. by apply Hmapne in Ha.
      + by eapply (gc_inj _ _ _ Hc).
    - intros a r. rewrite lookup_insert_Some. intros [[<- <-]|[_ Hr]]; [simpl; lia|].
      by apply (gc_refs _ _ _ Hc).
    - intros i Hi Hl. destruct (gc_live _ _ _ Hc i Hi Hl) as (r & Hr & Hrev & Hreg). exists r.
      split_and!; [rewrite lookup_insert_ne; [done|]; intros Heq; symmetry in Heq; by eapply Hfr|done|].
      intros Hr'. specialize (Hreg Hr'). rewrite Hnew. destruct (ok && _) eqn:E; [|done].
      bools. congruence.
    - apply Hc.
    - intros i r Hi Hl. destruct (gc_live _ _ _ Hc i Hi Hl) as (r0 & Hr0 & _).
      rewrite lookup_insert_ne by (intros Heq; symmetry in Heq; by eapply Hfr).
      by apply (gc_sound _ _ _ Hc).
    - rewrite (gc_bytes _ _ _ Hc). destruct ok; [|done]. rewrite jset_new, sumZ_app by done. simpl. lia.
    - destruct ok; [by apply Hmax|apply Hc].
    - done. }
  split_and!; try done.
  - eexists. rewrite lookup_insert_eq. split; [done|]. simpl. intros ->. rewrite Hnew. simpl.
    by rewrite bool_decide_eq_true_2.
  - intros k' b. rewrite Hnew. destruct (ok && _); [by intros [= <-]|done].
  - intros k'. rewrite Hnew. destruct (ok && _) eqn:E; [intros _; by bools|]. intros Hk. by apply Hmapne in Hk.
  - intros b. rewrite Hnew, Ek, bool_decide_eq_true_2, andb_true_r by done. destruct ok; [by intros [= <-]|done].
Qed.

Lemma undisturbed_app k es e :
  undisturbed k es → undisturbed k [e] → undisturbed k (es ++ [e]).
Proof. intros. by apply Forall_app. Qed.

Lemma drop_snoc {A} n (l : list A) x : (n <= length l)%nat → drop n (l ++ [x]) = drop n l ++ [x].
Proof. apply drop_app_le. Qed.

Lemma observe_ok h k m : ginv h → ginv (gstep h (GObserve k m)).
Proof.
  intros [Hc Hu]. simpl. unfold observeKey.
  pose proof (find_revision_ok k (now h) (guards h) (trace h) Hc) as Hf.
  destruct (find_revision k (now h)) as [s a].
  destruct Hf as (Hc' & Hep & Hcl & (r & Hr & Hreg) & Hother & Hown & Hsame).
  assert (Hrev : revision_at a s = r) by (unfold revision_at; by rewrite Hr). rewrite Hrev. simpl.
  set (r' := {| value := value r + (if m then 1 else 0); references := references r + 1;
                kr_bytes := kr_bytes r; registered := registered r |}).
  set (g := {| g_key := k; g_state := a; g_revision := value r'; g_epoch := mutationEpoch s |}).
  assert (Hvr : value r <= value r') by (simpl; destruct m; lia).
  split; simpl.
  - split; simpl; try apply Hc'.
    + intros b q. rewrite lookup_insert_Some. intros [[<- _]|[_ Hq]]; by eapply (gc_fresh _ _ _ Hc').
    + intros k' b Hb. destruct (gc_mapped _ _ _ Hc' k' b Hb) as (q & Hq & Hx).
      destruct (decide (b = a)) as [->|Hne].
      * rewrite lookup_insert_eq. simplify_eq. by exists r'.
      * rewrite lookup_insert_ne by done. by exists q.
    + intros b q. rewrite holders_app. simpl. rewrite lookup_insert_Some. intros [[<- <-]|[Hne Hq]].
      * rewrite bool_decide_eq_true_2 by done. simpl. rewrite (gc_refs _ _ _ Hc' a r Hr). lia.
      * rewrite bool_decide_eq_false_2 by naive_solver. rewrite (gc_refs _ _ _ Hc' b q Hq). lia.
    + intros i Hi Hl. apply elem_of_app in Hi as [Hi|Hi%list_elem_of_singleton].
      * destruct (gc_live _ _ _ Hc' i Hi Hl) as (q & Hq & Hrq & Hgq).
        destruct (decide (g_state (guard i) = a)) as [Heq|Hne].
        -- rewrite Heq in *. rewrite lookup_insert_eq. simplify_eq. exists r'. split_and!; [done|lia|done].
        -- rewrite lookup_insert_ne by done. by exists q.
      * subst i. simpl. rewrite lookup_insert_eq. exists r'. split_and!; [done|done|].
        intros Hr'. by apply Hreg.
    + intros i Hi. rewrite length_app. apply elem_of_app in Hi as [Hi|Hi%list_elem_of_singleton].
      * destruct (gc_epoch _ _ _ Hc' i Hi). simpl. lia.
      * subst i. simpl. rewrite length_app. simpl. lia.
    + intros i q Hi Hl Hq Hqr Hcl' He Hrq. apply elem_of_app in Hi as [Hi|Hi%list_elem_of_singleton].
      * destruct (gc_epoch _ _ _ Hc' i Hi) as [_ Htime]. rewrite drop_snoc by done.
        destruct (gc_live _ _ _ Hc' i Hi Hl) as (q0 & Hq0 & Hle & Hmap).
        destruct (decide (g_state (guard i) = a)) as [Heq|Hne].
        -- rewrite Heq, lookup_insert_eq in Hq. injection Hq as <-. rewrite Heq, Hr in Hq0. injection Hq0 as <-.
           assert (Hm : m = false) by (destruct m; [simpl in *; lia|done]). subst m. simpl in Hrq.
           apply undisturbed_app; [|by repeat constructor].
           apply (gc_sound _ _ _ Hc' i r); try done; [by rewrite Heq|lia].
        -- rewrite lookup_insert_ne in Hq by done. rewrite Hq in Hq0. injection Hq0 as <-.
           apply undisturbed_app; [by apply (gc_sound _ _ _ Hc' i q)|].
           constructor; [|constructor]. intros _ ->.
           specialize (Hmap Hqr). apply Hne.
           by apply Hsame.
      * subst i. simpl. rewrite drop_all. constructor.
  - intros k' b Hb. rewrite holders_app. simpl. destruct (decide (b = a)) as [->|Hne].
    + rewrite bool_decide_eq_true_2 by done. lia.
    + specialize (Hother k' b Hb Hne). specialize (Hu k' b Hother). lia.
Qed.

Lemma retire_split (gs : list issued) i x :
  gs !! i = Some x →
  ∃ l1 l2, gs = l1 ++ x :: l2 ∧ alter retire i gs = l1 ++ retire x :: l2.
Proof.
  revert i. induction gs as [|y gs IH]; intros [|i] Hi; simplify_eq/=.
  - by exists [], gs.
  - destruct (IH i Hi) as (l1 & l2 & -> & Ha). exists (y :: l1), l2. split; [done|].
    change (alter retire (S i) (y :: l1 ++ x :: l2)) with (y :: alter retire i (l1 ++ x :: l2)).
    by rewrite Ha.
Qed.

Lemma holders_mid a l1 (x : issued) l2 :
  holders a (l1 ++ x :: l2) =
  (holders a (l1 ++ l2) + if bool_decide (live x = true ∧ g_state (guard x) = a) then 1 else 0)%nat.
Proof.
  unfold holders. rewrite !filter_app, !length_app. case_bool_decide as Hd.
  - rewrite filter_cons_True by done. simpl. lia.
  - rewrite filter_cons_False by done. lia.
Qed.

Lemma live_mid l1 (x : issued) l2 i :
  i ∈ l1 ++ retire x :: l2 → live i = true → i ∈ l1 ++ l2.
Proof. rewrite !elem_of_app, elem_of_cons. intros [?|[->|?]] Hl; [by left|done|by right]. Qed.

Lemma mid_incl l1 (x i : issued) l2 : i ∈ l1 ++ l2 → i ∈ l1 ++ x :: l2.
Proof. rewrite !elem_of_app, elem_of_cons. tauto. Qed.

(** Guards of the middle list, whatever [x] is, except their liveness. *)
Lemma epoch_mid l1 (x i : issued) l2 : i ∈ l1 ++ retire x :: l2 →
  ∃ j, j ∈ l1 ++ x :: l2 ∧ guard i = guard j ∧ time i = time j.
Proof.
  rewrite !elem_of_app, elem_of_cons. intros [Hi|[->|Hi]].
  - exists i. split; [by apply elem_of_app; left|done].
  - exists x. split; [by apply elem_of_app; right; left|done].
  - exists i. split; [by apply elem_of_app; right; right|done].
Qed.

Section release.
Context (s : gstate) (l1 l2 : list issued) (g : MutationGuard) (t : nat) (tr : list gevent).
Abbreviation x := ({| guard := g; live := true; time := t |} : issued).
Abbreviation after := (l1 ++ retire x :: l2).
Context (Hc : gcore s (l1 ++ x :: l2) tr) (r : KeyRevision) (Hr : heap s !! g_state g = Some r).

Lemma rel_holders b : holders b after = holders b (l1 ++ l2).
Proof. rewrite holders_mid, bool_decide_eq_false_2; [lia|]. by intros [? _]. Qed.

Lemma rel_refs : references r = Z.of_nat (holders (g_state g) (l1 ++ l2)) + 1.
Proof. rewrite (gc_refs _ _ _ Hc _ r Hr), holders_mid. simpl. rewrite bool_decide_eq_true_2 by done. lia. Qed.

Lemma rel_other b : b ≠ g_state g → holders b (l1 ++ x :: l2) = holders b (l1 ++ l2).
Proof. intros Hne. rewrite holders_mid, bool_decide_eq_false_2; [lia|]. intros [_ Hs]. by apply Hne. Qed.

Lemma rel_live i : i ∈ after → live i = true → i ∈ l1 ++ x :: l2 ∧ i ∈ l1 ++ l2.
Proof. intros Hi Hl. apply live_mid in Hi; [|done]. split; [by apply mid_incl|done]. Qed.

Lemma rel_time i e : i ∈ after →
  g_epoch (guard i) <= mutationEpoch s ∧ (time i <= length (tr ++ [e]))%nat.
Proof.
  intros Hi. apply epoch_mid in Hi as (j & Hj & -> & ->).
  destruct (gc_epoch _ _ _ Hc j Hj). rewrite length_app. simpl. lia.
Qed.

Lemma rel_sound i r0 n : i ∈ after → live i = true → heap s !! g_state (guard i) = Some r0 →
  registered r0 = true → closed s = false → g_epoch (guard i) = mutationEpoch s →
  g_revision (guard i) = value r0 →
  undisturbed (g_key (guard i)) (drop (time i) (tr ++ [GRelease n])).
Proof.
  intros Hi Hl Hr0 ? ? ? ?. destruct (rel_live i Hi Hl) as [Hi' _].
  destruct (gc_epoch _ _ _ Hc i Hi') as [_ Ht]. rewrite drop_snoc by done.
  apply undisturbed_app; [by apply (gc_sound _ _ _ Hc i r0)|by repeat constructor].
Qed.

(** The last holder of a mapped object: the object is unregistered. *)
Lemma release_last n s' :
  holders (g_state g) (l1 ++ l2) = 0%nat → jget (g_key g) (keyRevisions s) = Some (g_state g) →
  s' = {| heap := <[g_state g := {| value := value r; references := 0; kr_bytes := kr_bytes r;
                                    registered := false |}]> (heap s);
          next_object := next_object s; keyRevisions := jdel (g_key g) (keyRevisions s);
          keyRevisionBytes := keyRevisionBytes s - kr_bytes r; mutationEpoch := mutationEpoch s;
          closed := closed s; generationTrackingSaturated := generationTrackingSaturated s;
          memoryBudget := opt_refund "coordination-metadata" (kr_bytes r) (memoryBudget s) |} →
  gcore s' after (tr ++ [GRelease n]) ∧
  ∀ k a, jget k (keyRevisions s') = Some a → jget k (keyRevisions s) = Some a ∧ a ≠ g_state g.
Proof.
  intros Hz Hget ->. destruct (gc_mapped _ _ _ Hc _ _ Hget) as (r1 & Hr1 & Hreg1 & Hb1). simplify_eq.
  assert (Hne : ∀ i, i ∈ l1 ++ l2 → live i = true → g_state (guard i) ≠ g_state g).
  { intros i Hi Hl Heq. unfold holders in Hz. apply length_zero_iff_nil in Hz.
    assert (i ∈ filter (λ i, live i = true ∧ g_state (guard i) = g_state g) (l1 ++ l2)) as Hin
      by (by apply list_elem_of_filter). rewrite Hz in Hin. by apply elem_of_nil in Hin. }
  assert (Hdel : ∀ k a, jget k (jdel (g_key g) (keyRevisions s)) = Some a →
    jget k (keyRevisions s) = Some a ∧ a ≠ g_state g).
  { intros k a Ha. destruct (decide (k = g_key g)) as [->|Hk]; [by rewrite jget_del_eq in Ha|].
    rewrite jget_del_ne in Ha by done. split; [done|]. intros ->.
    by apply Hk, (gc_inj _ _ _ Hc k (g_key g) (g_state g)). }
  assert (Hsum : keyRevisionBytes s = keyMetadataBytes (g_key g) +
    sumZ (λ e, keyMetadataBytes e.1) (jdel (g_key g) (keyRevisions s))).
  { by rewrite (gc_bytes _ _ _ Hc), (sumZ_perm _ _ _ (jdel_present _ _ _ (gc_map _ _ _ Hc) Hget)). }
  pose proof (keyMetadataBytes_pos (g_key g)) as Hpos. split; [|done]. split; simpl.
  - by apply jdel_ok, Hc.
  - intros a q. rewrite lookup_insert_Some. intros [[<- _]|[_ Hq]]; by eapply (gc_fresh _ _ _ Hc).
  - intros k a Ha. apply Hdel in Ha as [Ha Hk]. rewrite lookup_insert_ne by done.
    by apply (gc_mapped _ _ _ Hc).
  - intros k k' a Ha Hb. apply Hdel in Ha as [Ha _], Hb as [Hb _]. by eapply (gc_inj _ _ _ Hc).
  - intros a q. rewrite rel_holders, lookup_insert_Some. intros [[<- <-]|[Hn Hq]]; [simpl; lia|].
    rewrite (gc_refs _ _ _ Hc a q Hq). by rewrite rel_other by done.
  - intros i Hi Hl. destruct (rel_live i Hi Hl) as [Hi' Hi2]. specialize (Hne i Hi2 Hl).
    destruct (gc_live _ _ _ Hc i Hi' Hl) as (q & Hq & Hle' & Hm). exists q.
    rewrite lookup_insert_ne by done. split_and!; [done|done|]. intros Hqr. specialize (Hm Hqr).
    rewrite jget_del_ne; [done|]. intros Heq. rewrite <- Heq in Hm. congruence.
  - intros i Hi. by apply rel_time.
  - intros i q Hi Hl. destruct (rel_live i Hi Hl) as [_ Hi2]. specialize (Hne i Hi2 Hl).
    rewrite lookup_insert_ne by done. by apply rel_sound.
  - lia.
  - pose proof (gc_max _ _ _ Hc). lia.
  - rewrite Z.add_sub_assoc. apply holds_refund; [|apply Hc].
    assert (0 <= sumZ (λ e, keyMetadataBytes e.1) (jdel (g_key g) (keyRevisions s))); [|lia].
    apply sumZ_nonneg. intros e _. pose proof (keyMetadataBytes_pos e.1). lia.
Qed.

(** Any other release only counts down. *)
Lemma release_count n :
  gcore (put_object (g_state g) {| value := value r; references := references r - 1;
    kr_bytes := kr_bytes r; registered := registered r |} s) after (tr ++ [GRelease n]).
Proof.
  set (r' := {| value := value r; references := references r - 1; kr_bytes := kr_bytes r;
                registered := registered r |}).
  assert (Hput : ∀ b q, <[g_state g := r']> (heap s) !! b = Some q →
    ∃ q0, heap s !! b = Some q0 ∧ value q = value q0 ∧ registered q = registered q0).
  { intros b q. rewrite lookup_insert_Some. intros [[<- <-]|[_ Hq]]; [by exists r|by exists q]. }
  assert (Hget : ∀ b q0, heap s !! b = Some q0 →
    ∃ q, <[g_state g := r']> (heap s) !! b = Some q ∧ value q = value q0 ∧
      registered q = registered q0 ∧ kr_bytes q = kr_bytes q0).
  { intros b q0 Hq0. destruct (decide (b = g_state g)) as [->|Hn].
    - rewrite lookup_insert_eq. exists r'. simplify_eq. done.
    - rewrite lookup_insert_ne by done. by exists q0. }
  pose proof rel_refs as Hrefs. split; simpl; try apply Hc.
  - intros a q (q0 & Hq0 & _)%Hput. by eapply (gc_fresh _ _ _ Hc).
  - intros k a Ha. destruct (gc_mapped _ _ _ Hc k a Ha) as (q0 & Hq0 & Hreg & Hb).
    destruct (Hget a q0 Hq0) as (q & Hq & _ & Hr' & Hb'). exists q. split_and!; congruence.
  - intros a q. rewrite rel_holders, lookup_insert_Some. intros [[<- <-]|[Hn Hq]]; [simpl; lia|].
    rewrite (gc_refs _ _ _ Hc a q Hq). by rewrite rel_other by done.
  - intros i Hi Hl. destruct (rel_live i Hi Hl) as [Hi' _].
    destruct (gc_live _ _ _ Hc i Hi' Hl) as (q0 & Hq0 & Hle' & Hm).
    destruct (Hget _ q0 Hq0) as (q & Hq & Hv & Hreg & _). exists q. rewrite Hv, Hreg. done.
  - intros i Hi. by apply rel_time.
  - intros i q Hi Hl (q0 & Hq0 & Hv & Hreg)%Hput. rewrite Hv, Hreg. by apply rel_sound.
Qed.

Lemma released_core n :
  gcore (releaseKey g s) after (tr ++ [GRelease n]) ∧
  (∀ k a, jget k (keyRevisions (releaseKey g s)) = Some a →
     jget k (keyRevisions s) = Some a ∧ (a = g_state g → holders a (l1 ++ l2) ≠ 0%nat)).
Proof.
  unfold releaseKey. replace (revision_at (g_state g) s) with r by (unfold revision_at; by rewrite Hr).
  cbn [references kr_bytes value registered]. pose proof rel_refs as Hrefs.
  destruct (_ && _) eqn:E.
  - apply andb_true_iff in E as [H0' Hget%bool_decide_eq_true]. apply Z.eqb_eq in H0'.
    destruct (release_last n _ ltac:(lia) Hget eq_refl) as [Hcore Hmap]. rewrite H0'.
    split; [done|]. intros k a Ha. destruct (Hmap k a Ha) as [Hk Hn]. by split.
  - split; [apply release_count|]. simpl. intros k a Ha. split; [done|]. intros -> Hz0.
    apply andb_false_iff in E as [E|E]; bools; [lia|]. apply E.
    destruct (gc_mapped _ _ _ Hc _ _ Ha) as (q & Hq & Hreg & _). simplify_eq.
    destruct (gc_live _ _ _ Hc x) as (q1 & Hq1 & _ & Hm);
      [apply elem_of_app; right; left|done|]. simpl in Hq1, Hm. simplify_eq. by apply Hm.
Qed.
End release.

Lemma release_guard_ok h i : ginv h → ginv (gstep h (GRelease i)).
Proof.
  intros [Hc Hu]. assert (Hsilent : ginv {| now := now h; guards := guards h; trace := trace h ++ [GRelease i] |}).
  { split; [|done]. simpl. split; try apply Hc.
    - intros j Hj. destruct (gc_epoch _ _ _ Hc j Hj). rewrite length_app. simpl. lia.
    - intros j q Hj Hl Hq ? ? ? ?. destruct (gc_epoch _ _ _ Hc j Hj) as [_ Ht]. rewrite drop_snoc by done.
      apply undisturbed_app; [by apply (gc_sound _ _ _ Hc j q)|by repeat constructor]. }
  simpl. destruct (guards h !! i) as [[g [] t]|] eqn:Ei; [|done|done]. clear Hsilent.
  destruct (retire_split _ _ _ Ei) as (l1 & l2 & Hgs & Ha). rewrite Ha. rewrite Hgs in Hc.
  assert (Hx : {| guard := g; live := true; time := t |} ∈ l1 ++ {| guard := g; live := true; time := t |} :: l2)
    by (apply elem_of_app; right; left).
  destruct (gc_live _ _ _ Hc _ Hx eq_refl) as (r & Hr & _). simpl in Hr.
  destruct (released_core (now h) l1 l2 g t (trace h) Hc r Hr i) as [Hcore Hmap].
  split; [exact Hcore|]. simpl. intros k a Hk. destruct (Hmap k a Hk) as [Hk' Hn].
  rewrite rel_holders. specialize (Hu k a Hk'). rewrite Hgs, holders_mid in Hu. simpl in Hu.
  destruct (decide (a = g_state g)) as [->|Hne]; [specialize (Hn eq_refl); lia|].
  rewrite bool_decide_eq_false_2 in Hu by naive_solver. lia.
Qed.

(** Events that move the epoch leave no guard current. *)
Lemma epoch_core s gs tr s' e :
  gcore s gs tr → heap s' = heap s → next_object s' = next_object s → keyRevisions s' = keyRevisions s →
  keyRevisionBytes s' = keyRevisionBytes s → memoryBudget s' = memoryBudget s →
  mutationEpoch s' = mutationEpoch s + 1 → gcore s' gs (tr ++ [e]).
Proof.
  intros Hc Hh Hn Hk Hb Hm He. split; rewrite ?Hh, ?Hn, ?Hk, ?Hb, ?Hm, ?He; try apply Hc.
  - intros i Hi. destruct (gc_epoch _ _ _ Hc i Hi). rewrite length_app. simpl. lia.
  - intros i q Hi Hl Hq Hqr Hcl Heq. destruct (gc_epoch _ _ _ Hc i Hi). lia.
Qed.

Lemma unregister_all (m : list (K * nat)) (hp : gmap nat KeyRevision) a q :
  foldr (λ e h, alter unregister e.2 h) hp m !! a = Some q →
  ∃ q0, hp !! a = Some q0 ∧ value q = value q0 ∧ references q = references q0 ∧
    (registered q = true → registered q0 = true ∧ a ∉ m.*2).
Proof.
  revert q. induction m as [|[k b] m IH]; intros q; simpl.
  - intros Hq. exists q. split_and!; try done. intros Hq'. split; [done|]. apply not_elem_of_nil.
  - rewrite lookup_alter_Some. intros [(<- & q1 & Hq1 & ->)|[Hne Hq]].
    + destruct (IH _ Hq1) as (q0 & Hq0 & ? & ? & _). by exists q0.
    + destruct (IH _ Hq) as (q0 & Hq0 & ? & ? & Hreg). exists q0. split_and!; try done.
      intros Hq'. destruct (Hreg Hq'). split; [done|]. rewrite not_elem_of_cons. by split.
Qed.

Lemma unregister_all_Some (m : list (K * nat)) (hp : gmap nat KeyRevision) a q0 :
  hp !! a = Some q0 → ∃ q, foldr (λ e h, alter unregister e.2 h) hp m !! a = Some q.
Proof.
  intros Hq. induction m as [|[k b] m (q & IH)]; simpl; [by exists q0|].
  destruct (decide (a = b)) as [->|Hne].
  - rewrite lookup_alter_eq, IH. by eexists.
  - rewrite lookup_alter_ne by done. by exists q.
Qed.

Lemma close_core seen s gs tr :
  0 <= seen → gcore (set_budget None s) gs tr →
  holds "coordination-metadata" (base + (seen + keyRevisionBytes s)) (memoryBudget s) →
  gcore (close_guards seen s) gs (tr ++ [GClose]).
Proof.
  intros Hseen Hc Hb. split; simpl; try done.
  - constructor.
  - intros a q (q0 & Hq0 & _)%unregister_all. by eapply (gc_fresh _ _ _ Hc).
  - intros a q (q0 & Hq0 & _ & -> & _)%unregister_all. by apply (gc_refs _ _ _ Hc).
  - intros i Hi Hl. destruct (gc_live _ _ _ Hc i Hi Hl) as (q0 & Hq0 & Hle & Hm).
    destruct (unregister_all_Some (keyRevisions s) _ _ _ Hq0) as (q & Hq). exists q.
    destruct (unregister_all _ _ _ _ Hq) as (q1 & Hq1 & Hv & _ & Hreg). simplify_eq. split_and!; [done|lia|].
    intros Hqr. destruct (Hreg Hqr) as [Hr0 Hn]. exfalso. apply Hn.
    apply list_elem_of_fmap. exists (g_key (guard i), g_state (guard i)). split; [done|].
    by apply jget_Some_elem, Hm.
  - intros i Hi. destruct (gc_epoch _ _ _ Hc i Hi). simpl in *. rewrite length_app. simpl. lia.
  - replace (base + 0) with (base + (seen + keyRevisionBytes s) - (seen + keyRevisionBytes s)) by lia.
    apply holds_refund; [|done]. pose proof (gc_bytes _ _ _ Hc) as Hk. simpl in Hk. rewrite Hk.
    assert (0 <= sumZ (λ e, keyMetadataBytes e.1) (keyRevisions s)); [|lia].
    apply sumZ_nonneg. intros e _. pose proof (keyMetadataBytes_pos e.1). lia.
Qed.

Lemma gcore_set_budget b s gs tr :
  gcore s gs tr → holds "coordination-metadata" (base + keyRevisionBytes s) b →
  gcore (set_budget b s) gs tr.
Proof. intros [] Hb. by split. Qed.

Lemma gstep_ok h e : ginv h → ginv (gstep h e).
Proof.
  intros Hi. destruct e as [k m|i| | |].
  - by apply observe_ok.
  - by apply release_guard_ok.
  - destruct Hi as [Hc Hu]. split; [|done]. by eapply epoch_core.
  - simpl. destruct (generationTrackingSaturated (now h)) eqn:Es; [done|]. destruct Hi as [Hc Hu].
    unfold saturate. rewrite Es. split; [|done]. by eapply epoch_core.
  - destruct Hi as [Hc Hu]. split; [|done]. apply close_core; [done|by apply gcore_set_budget|apply Hc].
Qed.

Lemma ginv_reachable budget h :
  holds "coordination-metadata" base budget → reachable gstep (initial budget) h → ginv h.
Proof.
  intros Hb. apply reachable_invariant; [|intros; by apply gstep_ok].
  split; [|done]. split; simpl; try done; try set_solver.
  - constructor.
  - by rewrite Z.add_0_r.
Qed.

(** C22: Guards are sound in every history of observations, releases, epoch
    changes, saturation and closing: while a guard that has not been released
    is current, no mutation of its key has been observed since it was taken,
    nothing has moved the epoch and the cache is open. The metadata of the
    registered revisions is bounded and accounted exactly in the memory budget. *)
Theorem guard_sound budget h i aborted :
  holds "coordination-metadata" base budget → reachable gstep (initial budget) h →
  i ∈ guards h → live i = true → isCurrent (guard i) aborted (now h) = true →
  undisturbed (g_key (guard i)) (drop (time i) (trace h)) ∧ closed (now h) = false ∧
  keyRevisionBytes (now h) <= MAX_AUXILIARY_MAP_BYTES ∧
  holds "coordination-metadata" (base + keyRevisionBytes (now h)) (memoryBudget (now h)).
Proof.
  intros Hb Hr Hi Hl Hcur. destruct (ginv_reachable budget h Hb Hr) as [Hc _].
  unfold isCurrent in Hcur. bools. destruct (gc_live _ _ _ Hc i Hi Hl) as (r & Hrv & _).
  unfold revision_at in *. rewrite Hrv in *. simpl in *.
  split_and!; [|done|apply Hc|apply Hc]. by apply (gc_sound _ _ _ Hc i r).
Qed.

(** Revisions live exactly as long as guards refer to them. *)
Lemma ginv_released h :
  ginv h → (∀ i, i ∈ guards h → live i = false) → keyRevisions (now h) = [] ∧ keyRevisionBytes (now h) = 0.
Proof.
  intros [Hc Hu] Hall.
  assert (Hz : ∀ a, holders a (guards h) = 0%nat).
  { intros a. unfold holders. apply length_zero_iff_nil.
    destruct (filter _ (guards h)) as [|j l] eqn:E; [done|]. exfalso.
    assert (Hj : j ∈ filter (λ i, live i = true ∧ g_state (guard i) = a) (guards h)) by (rewrite E; by left).
    apply list_elem_of_filter in Hj as [[Hl _] Hj]. by rewrite (Hall j Hj) in Hl. }
  assert (Hnil : keyRevisions (now h) = []).
  { destruct (keyRevisions (now h)) as [|[k a] m] eqn:Em; [done|]. exfalso.
    assert (Hg : jget k (keyRevisions (now h)) = Some a).
    { rewrite Em. unfold jget. simpl. by rewrite bool_decide_eq_true_2. }
    rewrite Em in Hg. specialize (Hu k a Hg). rewrite Hz in Hu. lia. }
  split; [done|]. by rewrite (gc_bytes _ _ _ Hc), Hnil.
Qed.

Lemma all_released budget h :
  holds "coordination-metadata" base budget → reachable gstep (initial budget) h →
  (∀ i, i ∈ guards h → live i = false) →
  keyRevisions (now h) = [] ∧ keyRevisionBytes (now h) = 0.
Proof. intros Hb Hr. by apply ginv_released, (ginv_reachable budget h Hb Hr). Qed.
End guards.


(** The same guards against another account of the budget. *)
Lemma gcore_rebase {K} `{EqDecision K} {L} `{Ledger L} String base base' b
    (s : gstate (K:=K) (L:=L)) gs tr :
  gcore String base s gs tr →
  holds "coordination-metadata" (base' + keyRevisionBytes s) b →
  gcore String base' (set_budget b s) gs tr.
Proof. intros [] Hb. by split. Qed.

(** ** A witness

    A read of key [a], a write of key [b] and the release of the write, under a
    budget of 1000 bytes. *)

Definition guard_demo_budget : option MemoryBudget := newMemoryBudget 1000 None.

Definition guard_demo : history (K:=jsstring) :=
  run_events (gstep id) (initial guard_demo_budget)
    [GObserve (js "a") false; GObserve (js "b") true; GRelease 1].

Lemma guard_sound_witness : ∃ i,
  guards guard_demo !! 0%nat = Some i ∧ live i = true ∧ isCurrent false (guard i) false (now guard_demo) = true ∧
  drop (time i) (trace guard_demo) = [GObserve (js "b") true; GRelease 1] ∧
  undisturbed (js "a") (drop (time i) (trace guard_demo)).
Proof.
  eexists. split; [vm_compute; reflexivity|]. split; [done|]. split; [vm_compute; reflexivity|].
  split; [vm_compute; reflexivity|].
  match goal with |- context [time ?i] =>
    refine (proj1 (guard_sound id false 0 ltac:(done) guard_demo_budget guard_demo i false _ _ _ _ _))
  end.
  - split; [by apply (newMemoryBudget_ok 1000 None)|done].
  - apply reachable_run.
  - by left.
  - done.
  - vm_compute. reflexivity.
Defined.
