(* ===== verification/CacheOptions.v ===== *)
(** * Cache options ([src/src/types/core.types.ts], [src/src/cache/defaults.ts]
      and the option helpers of [src/src/cache/hybridCache.ts])

    Options come from the call and from the cache; a field of the call wins.
    The records are over the type of their numbers: [jsnum] before validation,
    [Z] afterwards (durations in whole milliseconds). The byte limits, codecs
    and memory budget of the source's [CacheOptions] belong to other
    components and are left out. *)

From S2P Require Import Prelude.

(** ** Defaults *)

Definition DEFAULT_CACHE_TTL_MS : Z := 60 * 60 * 1000.
Definition DEFAULT_INFLIGHT_TTL_MS : Z := 5000.
Definition DEFAULT_INFLIGHT_MAX_ENTRIES : Z := 1024.
Definition DEFAULT_STALE_TTL_MS : Z := 30 * 1000.
Definition DEFAULT_NEGATIVE_TTL_MS : Z := 10 * 1000.
Definition DEFAULT_NEGATIVE_MAX_ENTRIES : Z := 10000.
Definition DEFAULT_LOADER_HARD_TIMEOUT_MS : Z := 10 * 1000.
Definition DEFAULT_LOCK_TTL_MS : Z := 10000.
Definition DEFAULT_LOCK_POLL_MS : Z := 50.

Section records.
Context {N : Type}.

Record InflightOptions := {
  if_enabled : option bool; if_ttlMs : option N; if_maxEntries : option N; if_maxWaiters : option N }.

Record OriginLoadOptions := {
  ol_enabled : option bool; ol_maxConcurrent : option N; ol_maxQueued : option N;
  ol_queueTimeoutMs : option N }.

Record NegativeCacheOptions := {
  nc_enabled : option bool; nc_ttlMs : option N; nc_maxEntries : option N }.

Record FailSafeOptions := {
  fs_enabled : option bool; fs_staleTtlMs : option N; fs_maxEntries : option N; fs_maxBytes : option N }.

Record TimeoutOptions := { to_softMs : option N; to_hardMs : option N }.

Record VersioningOptions := { vo_enabled : option bool }.

Inductive onTimeout := OnTimeoutThrow | OnTimeoutLoad.

Record DistributedLockOptions := {
  dl_enabled : option bool; dl_ttlMs : option N; dl_waitTimeoutMs : option N; dl_pollMs : option N;
  dl_onTimeout : option onTimeout }.

Record CacheOptions := {
  ttlMs : option N;
  inflight_options : option InflightOptions;
  originLoad : option OriginLoadOptions;
  negativeCache : option NegativeCacheOptions;
  failSafe : option FailSafeOptions;
  timeouts : option TimeoutOptions;
  versioning : option VersioningOptions;
  distributedLock : option DistributedLockOptions }.

Definition no_options : CacheOptions :=
  {| ttlMs := None; inflight_options := None; originLoad := None; negativeCache := None;
     failSafe := None; timeouts := None; versioning := None; distributedLock := None |}.
End records.
Arguments InflightOptions : clear implicits.
Arguments OriginLoadOptions : clear implicits.
Arguments NegativeCacheOptions : clear implicits.
Arguments FailSafeOptions : clear implicits.
Arguments TimeoutOptions : clear implicits.
Arguments DistributedLockOptions : clear implicits.
Arguments CacheOptions : clear implicits.

(** ** Validation *)

Inductive option_error := RangeError (name : string).

Definition budget_value_ok (integer : bool) (max v : jsnum) : bool :=
  negb (negb (num_is_finite v) || num_lt v (JInt 0) || num_lt max v
        || (integer && negb (num_is_safe_integer v))).

Definition assertBudget (name : string) (value : option jsnum) (integer : bool) (max : jsnum)
    : result option_error unit :=
  match value with
  | None => Ok tt
  | Some v => guard_ok (budget_value_ok integer max v) (RangeError name)
  end.

Definition MAX_BUDGET : jsnum := JInt MAX_SAFE_INTEGER.
Definition MAX_TIMER : jsnum := JInt (2 ^ 31 - 1).

(** [if (options.field) { ... }] *)
Definition when_given {A} (o : option A) (k : A → result option_error unit) : result option_error unit :=
  match o with Some a => k a | None => Ok tt end.

Definition num_is_zero (n : option jsnum) : bool :=
  match n with Some v => negb (num_lt v (JInt 0)) && negb (num_lt (JInt 0) v) && num_is_finite v | None => false end.

Definition validateCacheBudgets (o : CacheOptions jsnum) : result option_error unit :=
  _ <~ when_given (ttlMs o) (λ t,
         guard_ok (num_is_finite t && negb (num_le t (JInt 0))) (RangeError "ttlMs"));;
  _ <~ when_given (inflight_options o) (λ f,
         _ <~ assertBudget "inflight.maxEntries" (if_maxEntries f) true MAX_BUDGET;;
         _ <~ assertBudget "inflight.maxWaiters" (if_maxWaiters f) true MAX_BUDGET;;
         assertBudget "inflight.ttlMs" (if_ttlMs f) false MAX_BUDGET);;
  _ <~ when_given (negativeCache o) (λ f,
         _ <~ assertBudget "negativeCache.maxEntries" (nc_maxEntries f) true MAX_BUDGET;;
         assertBudget "negativeCache.ttlMs" (nc_ttlMs f) false MAX_BUDGET);;
  _ <~ when_given (failSafe o) (λ f,
         _ <~ assertBudget "failSafe.maxEntries" (fs_maxEntries f) true MAX_BUDGET;;
         _ <~ assertBudget "failSafe.maxBytes" (fs_maxBytes f) true MAX_BUDGET;;
         assertBudget "failSafe.staleTtlMs" (fs_staleTtlMs f) false MAX_BUDGET);;
  _ <~ when_given (timeouts o) (λ f,
         _ <~ assertBudget "timeouts.softMs" (to_softMs f) false MAX_TIMER;;
         assertBudget "timeouts.hardMs" (to_hardMs f) false MAX_TIMER);;
  when_given (originLoad o) (λ f,
    _ <~ assertBudget "originLoad.maxConcurrent" (ol_maxConcurrent f) true MAX_BUDGET;;
    _ <~ guard_ok (negb (num_is_zero (ol_maxConcurrent f))) (RangeError "originLoad.maxConcurrent");;
    _ <~ assertBudget "originLoad.maxQueued" (ol_maxQueued f) true MAX_BUDGET;;
    assertBudget "originLoad.queueTimeoutMs" (ol_queueTimeoutMs f) true MAX_TIMER).

(** ** Resolution of a field: the call, then the cache, then the default *)

Section resolve.
Context (self : CacheOptions Z).
Implicit Types o : CacheOptions Z.

(** [options.f?.x ?? this.options.f?.x] *)
Definition pick {A B} (sel : CacheOptions Z → option A) (f : A → option B) o : option B :=
  match sel o ≫= f with Some b => Some b | None => sel self ≫= f end.

(** [options.f?.enabled !== false && this.options.f?.enabled !== false] *)
Definition enabled_by {A} (sel : CacheOptions Z → option A) (f : A → option bool) o : bool :=
  negb (bool_decide (sel o ≫= f = Some false)) && negb (bool_decide (sel self ≫= f = Some false)).

Definition inflightDisabled o : bool := negb (enabled_by inflight_options if_enabled o).
Definition originLoadEnabled o : bool := enabled_by originLoad ol_enabled o.
Definition distributedLockEnabled o : bool := enabled_by distributedLock dl_enabled o.
Definition failSafeEnabled o : bool := enabled_by failSafe fs_enabled o.
Definition negativeCacheEnabled o : bool := enabled_by negativeCache nc_enabled o.
Definition versioningEnabled : bool := bool_decide (versioning self ≫= vo_enabled = Some true).

Definition hardTimeoutMs o : Z := pick timeouts to_hardMs o ?? DEFAULT_LOADER_HARD_TIMEOUT_MS.

Definition getLockWaitTimeoutMs o : Z :=
  let lockTtlMs := pick distributedLock dl_ttlMs o ?? DEFAULT_LOCK_TTL_MS in
  let hardMs := hardTimeoutMs o in
  let pollMs := pick distributedLock dl_pollMs o ?? DEFAULT_LOCK_POLL_MS in
  pick distributedLock dl_waitTimeoutMs o ?? (Z.max lockTtlMs hardMs + pollMs).

(** [supports] is [supportsDistributedLock(this.l2)]. *)
Definition getInflightTtlMs (supports : bool) o : Z :=
  match pick inflight_options if_ttlMs o with
  | Some explicit => explicit
  | None =>
      let waitMs := if distributedLockEnabled o && supports then getLockWaitTimeoutMs o else 0 in
      Z.max DEFAULT_INFLIGHT_TTL_MS (waitMs + hardTimeoutMs o + DEFAULT_LOCK_POLL_MS)
  end.

Definition getInflightExpiresAt (supports : bool) (now : Z) o : Z := now + getInflightTtlMs supports o.

(** An automatic in-flight entry outlives the whole wait and load of its
    leader, so callers keep sharing it. *)
Lemma inflight_covers_wait supports o :
  pick inflight_options if_ttlMs o = None → distributedLockEnabled o && supports = true →
  getLockWaitTimeoutMs o + hardTimeoutMs o < getInflightTtlMs supports o.
Proof.
  intros He Hs. unfold getInflightTtlMs. rewrite He, Hs. unfold DEFAULT_LOCK_POLL_MS. lia.
Qed.
End resolve.

(** Accepted options have no negative, infinite or undefined-order number. *)
Lemma budget_value_ok_range integer max v :
  budget_value_ok integer max v = true →
  num_is_finite v = true ∧ num_lt v (JInt 0) = false ∧ num_lt max v = false ∧
  (integer = true → num_is_safe_integer v = true).
Proof. unfold budget_value_ok. intros Hv. rewrite negb_true_iff, !orb_false_iff, negb_false_iff, andb_false_iff, negb_false_iff in Hv. naive_solver. Qed.
