(* ===== verification/Counted.v ===== *)
(** * Maps with a byte counter

    The hybrid cache keeps each of its auxiliary maps next to the number of
    bytes it has reserved for it ([negative] and [negativeBytes], [stale] and
    [staleBytes], ...). The operations on such a pair and on the optional byte
    budget, in the shapes [src/src/cache/hybridCache.ts] uses, with what they do
    to the account of any other category. *)

From S2P Require Import Prelude Ledger JsMap.

(** Accounts of the other categories are untouched. *)
Section others.
Context {L : Type} `{Ledger L}.

Definition others (c : string) (o o' : option L) : Prop :=
  ∀ c' t, c' ≠ c → holds c' t o → holds c' t o'.

#[export] Instance others_preorder c : PreOrder (others c).
Proof. split; [by intros o c' t|]. intros o1 o2 o3 H12 H23 c' t Hne Ht. by apply H23, H12. Qed.

Lemma others_reserve c b t o o' ok :
  0 <= b → holds c t o → opt_reserve c b o = (o', ok) → others c o o'.
Proof.
  intros Hb Ht E c' t' Hne. destruct o as [l|]; simpl in *; [|by injection E as <- <-].
  destruct Ht as [Hi _]. destruct (reserve c b l) as [l' b'] eqn:Er. injection E as <- <-.
  intros [_ Hbal]. destruct b'.
  - apply reserve_accepts in Er as (? & _ & Ho); [|done|done]. split; [done|]. by rewrite Ho.
  - apply reserve_refuses in Er as (? & Ho); [|done|done]. split; [done|]. by rewrite Ho.
Qed.

Lemma others_refund c b t o : 0 <= b <= t → holds c t o → others c o (opt_refund c b o).
Proof.
  intros Hb Ht c' t' Hne. destruct o as [l|]; simpl in *; [|done].
  destruct Ht as [Hi Hbal]. intros [_ Hbal'].
  destruct (refund_exact l c b) as (? & _ & Ho); [done|lia|]. split; [done|]. by rewrite Ho.
Qed.

Lemma holds_refund_split c b r o :
  0 <= b → 0 <= r → holds c (r + b) o → holds c r (opt_refund c b o).
Proof. intros. replace r with (r + b - b) by lia. apply holds_refund; [lia|done]. Qed.
End others.

Record counted (K V : Type) := { entries : list (K * V); total : Z }.
Arguments entries {K V}. Arguments total {K V}.
Arguments Build_counted {K V}.

(** A reservation, whatever its answer. *)
Lemma opt_reserve_ok {L} `{Ledger L} c b t (o o' : option L) ok :
  0 <= b → holds c t o → opt_reserve c b o = (o', ok) →
  holds c (if ok then t + b else t) o' ∧ others c o o'.
Proof.
  intros Hb Ht E. split; [|by eapply others_reserve].
  destruct ok; [by eapply holds_reserve_true|by eapply holds_reserve_false].
Qed.

Section counted.
Context {K V : Type} `{EqDecision K} {L : Type} `{Ledger L}.
Context (cat : string) (b : K * V → Z).
Implicit Types m : counted K V.

Definition cempty : counted K V := {| entries := []; total := 0 |}.

(** Get the entry; give its bytes back and delete it. *)
Definition cremove (k : K) (x : counted K V * option L) : counted K V * option L :=
  let '(m, o) := x in
  match jget k (entries m) with
  | None => (m, o)
  | Some v => ({| entries := jdel k (entries m); total := total m - b (k, v) |}, opt_refund cat (b (k, v)) o)
  end.

Definition cclear (x : counted K V * option L) : counted K V * option L :=
  let '(m, o) := x in (cempty, opt_refund cat (total m) o).

Definition cput (k : K) (v : V) m : counted K V :=
  {| entries := jset k v (entries m); total := total m + b (k, v) |}.

(** [while (cond) { oldest = keys().next().value; if undefined break; remove(oldest) }] *)
Fixpoint evict_steps (cond : counted K V → bool) (fuel : nat) (x : counted K V * option L)
    : counted K V * option L :=
  match fuel with
  | O => x
  | S n =>
      if cond x.1 then
        match jfirst (entries x.1) with
        | None => x
        | Some k => evict_steps cond n (cremove k x)
        end
      else x
  end.

Definition evict_while cond (x : counted K V * option L) : counted K V * option L :=
  evict_steps cond (length (entries x.1)) x.

Definition remove_all (ks : list K) (x : counted K V * option L) : counted K V * option L :=
  foldl (λ x k, cremove k x) x ks.

(** The counter covers the entries; [slack] bytes more are charged than the
    entries hold. *)
Record counted_ok (slack : Z) m : Prop := {
  co_keys : jmap_ok (entries m);
  co_total : total m = sumZ b (entries m) + slack;
  co_pos : ∀ e, e ∈ entries m → 0 <= b e }.

Lemma counted_total_nonneg slack m : 0 <= slack → counted_ok slack m → 0 <= total m.
Proof. intros Hs [_ -> Hp]. pose proof (sumZ_nonneg b (entries m) Hp). lia. Qed.

(** What an operation that only removes entries leaves behind. *)
Definition shrinks (rest slack : Z) (x y : counted K V * option L) : Prop :=
  counted_ok slack y.1 ∧ holds cat (rest + total y.1) y.2 ∧ others cat x.2 y.2 ∧
  total y.1 <= total x.1 ∧ (length (entries y.1) <= length (entries x.1))%nat ∧
  (∀ k v, jget k (entries y.1) = Some v → jget k (entries x.1) = Some v).

Lemma shrinks_refl rest slack x :
  counted_ok slack x.1 → holds cat (rest + total x.1) x.2 → shrinks rest slack x x.
Proof. intros Hm Ho. split_and!; try done. Qed.

Lemma shrinks_None rest slack x y k :
  shrinks rest slack x y → jget k (entries x.1) = None → jget k (entries y.1) = None.
Proof.
  intros (_ & _ & _ & _ & _ & Hg) Hx. destruct (jget k (entries y.1)) as [v|] eqn:E; [|done].
  by rewrite (Hg k v E) in Hx.
Qed.

Lemma shrinks_trans rest slack x y z :
  shrinks rest slack x y → (counted_ok slack y.1 → holds cat (rest + total y.1) y.2 → shrinks rest slack y z) →
  shrinks rest slack x z.
Proof.
  intros (Hy & Hoy & Ho & Ht & Hl & Hg) Hz. destruct (Hz Hy Hoy) as (? & ? & ? & ? & ? & ?).
  split_and!; try done; [by etrans|lia|lia|]. intros k v Hk. by apply Hg, H6.
Qed.

Lemma cremove_ok rest slack k x :
  0 <= rest → 0 <= slack → counted_ok slack x.1 → holds cat (rest + total x.1) x.2 →
  shrinks rest slack x (cremove k x) ∧ jget k (entries (cremove k x).1) = None ∧
  entries (cremove k x).1 = jdel k (entries x.1).
Proof.
  destruct x as [m o]; simpl. intros Hr Hs Hm Ho. destruct (jget k (entries m)) as [v|] eqn:Ek.
  - assert (Hsum : sumZ b (entries m) = b (k, v) + sumZ b (jdel k (entries m))).
    { rewrite (sumZ_perm b _ _ (jdel_present k v _ (co_keys _ _ Hm) Ek)). by rewrite sumZ_cons. }
    assert (Hpos : ∀ e, e ∈ jdel k (entries m) → 0 <= b e).
    { intros e [_ He]%list_elem_of_filter. by apply Hm. }
    pose proof (sumZ_nonneg b _ Hpos) as Hnn.
    assert (Hbv : 0 <= b (k, v)) by by apply Hm, jget_Some_elem. pose proof (co_total _ _ Hm) as Ht.
    split; [|split; [apply jget_del_eq|done]]. split_and!; simpl.
    + split; simpl; [apply jdel_ok, Hm|lia|done].
    + apply holds_refund_split; [done|lia|]. by replace (rest + (total m - b (k, v)) + b (k, v)) with (rest + total m) by lia.
    + eapply others_refund; [|exact Ho]. lia.
    + lia.
    + apply sublist_length, sublist_filter.
    + intros k' v'. destruct (decide (k = k')) as [<-|Hne]; [by rewrite jget_del_eq|by rewrite jget_del_ne].
  - split; [by apply shrinks_refl|]. split; [done|]. by rewrite jdel_absent.
Qed.

Lemma cclear_ok rest slack x :
  0 <= rest → 0 <= slack → counted_ok slack x.1 → holds cat (rest + total x.1) x.2 →
  shrinks rest 0 x (cclear x) ∧ (cclear x).1 = cempty.
Proof.
  destruct x as [m o]; simpl. intros Hr Hs Hm Ho. pose proof (counted_total_nonneg _ _ Hs Hm) as Ht.
  split; [|done]. split_and!; simpl; try done.
  - split; [constructor|done|by intros e ?%elem_of_nil].
  - apply holds_refund_split; [done|lia|]. by rewrite Z.add_0_r.
  - eapply others_refund; [|exact Ho]. lia.
  - lia.
Qed.

Lemma evict_steps_ok rest slack cond fuel x :
  0 <= rest → 0 <= slack → counted_ok slack x.1 → holds cat (rest + total x.1) x.2 →
  shrinks rest slack x (evict_steps cond fuel x) ∧
  ((length (entries x.1) <= fuel)%nat →
   cond (evict_steps cond fuel x).1 = false ∨ entries (evict_steps cond fuel x).1 = []).
Proof.
  revert x. induction fuel as [|n IH]; intros x Hr Hs Hm Ho; simpl.
  { split; [by apply shrinks_refl|]. intros Hl. right. apply length_zero_iff_nil. lia. }
  destruct (cond x.1) eqn:Ec; [|by split; [apply shrinks_refl|left]].
  destruct (jfirst (entries x.1)) as [k|] eqn:Ef; [|split; [by apply shrinks_refl|]; right; by apply jfirst_None].
  destruct (cremove_ok rest slack k x Hr Hs Hm Ho) as (Hsh & _ & He). pose proof Hsh as (Hm' & Ho' & _).
  destruct (IH (cremove k x) Hr Hs Hm' Ho') as [Hsh' Hend]. split; [by eapply shrinks_trans|].
  intros Hl. apply Hend. rewrite He. apply jfirst_Some in Ef as (v & m' & Hem & Hg).
  pose proof (jsize_del k v (entries x.1) (co_keys _ _ Hm) Hg) as Hsz. unfold jsize in Hsz. lia.
Qed.

(** The fuel is enough: eviction stops because its condition fails or because
    nothing is left. *)
Lemma evict_while_ok rest slack cond x :
  0 <= rest → 0 <= slack → counted_ok slack x.1 → holds cat (rest + total x.1) x.2 →
  shrinks rest slack x (evict_while cond x) ∧
  (cond (evict_while cond x).1 = false ∨ entries (evict_while cond x).1 = []).
Proof. intros. destruct (evict_steps_ok rest slack cond (length (entries x.1)) x) as [? Hend]; try done. auto. Qed.

Lemma cremove_first k x :
  jmap_ok (entries x.1) → jfirst (entries x.1) = Some k →
  jmap_ok (entries (cremove k x).1) ∧ length (entries x.1) = S (length (entries (cremove k x).1)).
Proof.
  destruct x as [m o]. simpl. intros Hm Hf. apply jfirst_Some in Hf as (v & m' & Hem & Hg).
  rewrite Hg. simpl. split; [by apply jdel_ok|].
  apply (Permutation_length (jdel_present k v (entries m) Hm Hg)).
Qed.

(** Every eviction loop stops: rounds beyond the number of entries change
    nothing, and it ends because its condition fails or because the map is
    empty. *)
Theorem evict_while_terminates cond x fuel :
  jmap_ok (entries x.1) → (length (entries x.1) <= fuel)%nat →
  evict_steps cond fuel x = evict_while cond x ∧
  (cond (evict_while cond x).1 = false ∨ entries (evict_while cond x).1 = []).
Proof.
  unfold evict_while. remember (length (entries x.1)) as n eqn:Hn. revert x fuel Hn.
  induction n as [|n IH]; intros x fuel Hn Hm Hf.
  - assert (Hnil : entries x.1 = []) by (apply length_zero_iff_nil; lia).
    split; [|by right]. destruct fuel as [|fuel]; [done|]. simpl. rewrite Hnil. by destruct (cond x.1).
  - destruct fuel as [|fuel]; [lia|]. simpl. destruct (cond x.1) eqn:Ec; [|by split; [|left]].
    destruct (jfirst (entries x.1)) as [k|] eqn:Ef; [|split; [done|]; right; by apply jfirst_None].
    destruct (cremove_first k x Hm Ef) as [Hm' Hl]. apply IH; [lia|done|lia].
Qed.

Lemma remove_all_ok rest slack ks x :
  0 <= rest → 0 <= slack → counted_ok slack x.1 → holds cat (rest + total x.1) x.2 →
  shrinks rest slack x (remove_all ks x) ∧
  ∀ k, k ∈ ks → jget k (entries (remove_all ks x).1) = None.
Proof.
  unfold remove_all. revert x. induction ks as [|k ks IH]; intros x Hr Hs Hm Ho; simpl.
  { split; [by apply shrinks_refl|]. by intros k ?%elem_of_nil. }
  destruct (cremove_ok rest slack k x Hr Hs Hm Ho) as (Hsh & Hk & _). pose proof Hsh as (Hm' & Ho' & _).
  destruct (IH (cremove k x) Hr Hs Hm' Ho') as [Hsh' Hgone]. split; [by eapply shrinks_trans|].
  intros k' [->|Hin]%elem_of_cons; [|by apply Hgone].
  destruct (jget k (entries (foldl _ _ _).1)) as [v|] eqn:E; [|done].
  destruct Hsh' as (_ & _ & _ & _ & _ & Hg). by rewrite (Hg k v E) in Hk.
Qed.

Lemma cput_ok slack k v m :
  counted_ok slack m → jget k (entries m) = None → 0 <= b (k, v) → counted_ok slack (cput k v m).
Proof.
  intros [Hk Ht Hp] Hn Hbv. split; simpl; rewrite jset_new by done.
  - by apply jset_new_ok.
  - rewrite Ht, sumZ_app. simpl. lia.
  - intros e [He|He]%elem_of_app; [by apply Hp|]. by apply list_elem_of_singleton in He as ->.
Qed.

(** Reserve, then insert a new key if the reservation was accepted. *)
Lemma reserve_put rest x m o o' ok k v :
  shrinks rest 0 x (m, o) → jget k (entries m) = None → 0 <= b (k, v) →
  opt_reserve cat (b (k, v)) o = (o', ok) →
  let m' := if ok then cput k v m else m in
  counted_ok 0 m' ∧ holds cat (rest + total m') o' ∧ others cat x.2 o'.
Proof.
  intros (Hm & Ho & Hot & _) Hk Hbv Er. simpl in *. eapply opt_reserve_ok in Er as [Ho' Hot']; [|done|exact Ho].
  split; [destruct ok; [by apply cput_ok|done]|]. split; [|by etrans].
  destruct ok; simpl; [by rewrite Z.add_assoc|done].
Qed.

(** What is left in a map was there before. *)
Lemma cremove_sub k x k' v :
  jget k' (entries (cremove k x).1) = Some v → k' ≠ k ∧ jget k' (entries x.1) = Some v.
Proof.
  destruct x as [m o]. simpl. destruct (jget k (entries m)) as [v0|] eqn:Ek; simpl.
  - destruct (decide (k = k')) as [<-|Hne]; [by rewrite jget_del_eq|]. rewrite jget_del_ne by done. auto.
  - intros Hg. split; [congruence|done].
Qed.

Lemma evict_steps_sub cond fuel x k v :
  jget k (entries (evict_steps cond fuel x).1) = Some v → jget k (entries x.1) = Some v.
Proof.
  revert x. induction fuel as [|n IH]; intros x; simpl; [done|].
  destruct (cond x.1); [|done]. destruct (jfirst _); [|done]. intros Hg. apply IH in Hg. by apply cremove_sub in Hg as [_ ?].
Qed.

Lemma evict_while_sub cond x k v :
  jget k (entries (evict_while cond x).1) = Some v → jget k (entries x.1) = Some v.
Proof. apply evict_steps_sub. Qed.

Lemma remove_all_sub ks x k v :
  jget k (entries (remove_all ks x).1) = Some v → (k ∉ ks) ∧ jget k (entries x.1) = Some v.
Proof.
  unfold remove_all. revert x. induction ks as [|k0 ks IH]; intros x; simpl.
  - intros Hg. split; [apply not_elem_of_nil|done].
  - intros [Hn [Hne Hg]%cremove_sub]%IH. split; [by apply not_elem_of_cons|done].
Qed.

Lemma cput_sub k v m k' v' :
  jget k' (entries (cput k v m)) = Some v' → (k' = k ∧ v' = v) ∨ jget k' (entries m) = Some v'.
Proof.
  simpl. rewrite jget_set. case_bool_decide; [|by right]. intros [= <-]. by left.
Qed.

(** Replacing an entry without giving its bytes back leaves them charged. *)
Lemma cput_over slack k v v0 m :
  counted_ok slack m → jget k (entries m) = Some v0 → 0 <= b (k, v) →
  counted_ok (slack + b (k, v0)) (cput k v m).
Proof.
  intros [Hk Ht Hp] Hg Hbv. split; simpl.
  - unfold jmap_ok. by rewrite (jset_over_keys k v v0).
  - rewrite Ht, (jset_over_sum b k v v0) by done. lia.
  - intros e [->|He]%(jset_over_elem k v v0); [done|by apply Hp|done].
Qed.
End counted.

