(* ===== verification/EventBus.v ===== *)
(** * The event bus interface ([src/src/event-bus/eventBus.interface.ts])

    What a transport tells the cache: statuses, the settlement of [subscribe],
    and, as ghosts, the messages of the channel that will not reach the handler.
    [TrustedBus] is the contract the cache's trust in invalidations rests on:
    as long as the last status with a meaning for trust is ['subscribed'], no
    message has been lost since it was emitted. [RedisEventBus.v] proves it for
    the Redis bus, [BusTrust.v] is the cache's side. *)

From S2P Require Import Prelude.

Inductive EventBusStatus := Connecting | Ready | Subscribed | Disconnected | BusError.

#[export] Instance EventBusStatus_eq : EqDecision EventBusStatus.
Proof. solve_decision. Defined.

(** [OResolved] ends a [subscribe] that has subscribed; [OResolvedIdle] one that
    found the bus subscribed, and on RabbitMQ has replaced the handler, on the
    other transports done nothing. [OLost]: a message was published and the
    handler will not have handled it. *)
Inductive bus_out :=
| OStatus (status : EventBusStatus)
| OResolved
| OResolvedIdle
| ORejected
| OLost.

(** What an observer of the statuses may conclude: the subscription is intact,
    and (ghost) a message was lost since it was last reported so. *)
Record view := { trusting : bool; missed : bool }.

Definition view_step (v : view) (o : bus_out) : view :=
  match o with
  | OStatus Subscribed => {| trusting := true; missed := false |}
  | OStatus (Connecting | Disconnected | BusError) => {| trusting := false; missed := missed v |}
  | OStatus Ready | OResolved | OResolvedIdle | ORejected => v
  | OLost => {| trusting := trusting v; missed := true |}
  end.

Definition distrust : view := {| trusting := false; missed := false |}.
Definition view_of (log : list bus_out) : view := foldl view_step distrust log.

Lemma view_of_app a b : view_of (a ++ b) = foldl view_step (view_of a) b.
Proof. apply foldl_app. Qed.

Lemma view_of_snoc log o : view_of (log ++ [o]) = view_step (view_of log) o.
Proof. by rewrite view_of_app. Qed.

(** Only ['subscribed'] restores trust. *)
Lemma view_distrust v out :
  trusting v = false → OStatus Subscribed ∉ out → trusting (foldl view_step v out) = false.
Proof.
  revert v. induction out as [|o out IH]; intros v Hv Ho; [done|]. apply not_elem_of_cons in Ho as [Ho Hout]. simpl.
  apply IH; [|done]. by destruct o as [[]| | | |].
Qed.

(** The view read off the log: an intact subscription was reported, and since
    then nothing was lost and no status ended it. *)
Definition ends_trust (o : bus_out) : bool :=
  match o with OStatus (Connecting | Disconnected | BusError) => true | _ => false end.

Lemma view_explicit log :
  trusting (view_of log) = true →
  ∃ pre post, log = pre ++ OStatus Subscribed :: post ∧ Forall (λ o, ends_trust o = false) post ∧
    (missed (view_of log) = false → OLost ∉ post).
Proof.
  induction log as [|o log IH] using rev_ind; [done|]. rewrite view_of_snoc. intros Ht.
  assert (Hnew : o = OStatus Subscribed ∨ (trusting (view_of log) = true ∧ ends_trust o = false ∧
    (missed (view_step (view_of log) o) = false → missed (view_of log) = false ∧ o ≠ OLost)))
    by (destruct o as [[]| | | |]; naive_solver).
  destruct Hnew as [-> | (Hl & He & Hm)].
  - exists log, []. split_and!; [done|constructor|intros _; apply not_elem_of_nil].
  - destruct (IH Hl) as (pre & post & -> & Hf & Hn). exists pre, (post ++ [o]).
    split_and!; [by rewrite <-app_assoc|apply Forall_app; by repeat constructor|].
    intros Hx. destruct (Hm Hx) as [Hx1 Hx2]. specialize (Hn Hx1).
    rewrite elem_of_app, list_elem_of_singleton. intros [?| ?]; [done|congruence].
Qed.

(** Every [subscribe] that subscribed resolves where the subscription is reported intact. *)
Fixpoint resolved_in_trust (v : view) (log : list bus_out) : Prop :=
  match log with
  | [] => True
  | o :: rest => (o = OResolved → trusting v = true) ∧ resolved_in_trust (view_step v o) rest
  end.

Lemma resolved_in_trust_app v a b :
  resolved_in_trust v (a ++ b) ↔ resolved_in_trust v a ∧ resolved_in_trust (foldl view_step v a) b.
Proof.
  revert v. induction a as [|o a IH]; intros v; simpl; [tauto|]. rewrite IH. tauto.
Qed.

Lemma resolved_in_trust_silent v out : OResolved ∉ out → resolved_in_trust v out.
Proof.
  revert v. induction out as [|o out IH]; intros v Hn; simpl; [done|].
  apply not_elem_of_cons in Hn as [Ho Hn]. split; [congruence|by apply IH].
Qed.

(** The same, read off the log. *)
Lemma resolved_explicit log pre post :
  resolved_in_trust distrust log → log = pre ++ OResolved :: post → trusting (view_of pre) = true.
Proof. intros Hr ->. apply resolved_in_trust_app in Hr as [_ [Hr _]]. by apply Hr. Qed.

Class BusOps (B E : Type) := {
  bus_new : B;
  bus_step : B → E → B * list bus_out;
  (** The histories the contract covers. *)
  covered : E → bool;
}.

Section histories.
Context {B E : Type} {ops : BusOps B E}.

Definition bus_log_step (w : B * list bus_out) (e : E) : B * list bus_out :=
  let '(b, out) := bus_step w.1 e in (b, w.2 ++ out).

Definition bus_run (es : list E) : B * list bus_out := run_events bus_log_step (bus_new, []) es.

Lemma bus_run_snoc es e : bus_run (es ++ [e]) = bus_log_step (bus_run es) e.
Proof. unfold bus_run, run_events. by rewrite foldl_app. Qed.
End histories.

(** [bus_resolved]: a [subscribe] that subscribes resolves only while the subscription is
    reported intact. *)
Class TrustedBus (B E : Type) `{BusOps B E} := {
  bus_sound (es : list E) :
    forallb covered es = true → trusting (view_of (bus_run es).2) = true → missed (view_of (bus_run es).2) = false;
  bus_resolved (es : list E) :
    forallb covered es = true → resolved_in_trust distrust (bus_run es).2;
}.

(** A bus keeps the contract when some invariant of its state and of the view
    does: kept by every covered event, with no loss in a trusting view. *)
Section by_invariant.
Context {B E : Type} {ops : BusOps B E} (I : B → view → Prop).

Definition keeps_contract (v : view) (r : B * list bus_out) : Prop :=
  I r.1 (foldl view_step v r.2) ∧ resolved_in_trust v r.2.

Context (I_new : I bus_new distrust).
Context (I_step : ∀ b v e, covered e = true → I b v → keeps_contract v (bus_step b e)).
Context (I_sound : ∀ b v, I b v → trusting v = true → missed v = false).

Lemma bus_run_inv es :
  forallb covered es = true →
  I (bus_run es).1 (view_of (bus_run es).2) ∧ resolved_in_trust distrust (bus_run es).2.
Proof.
  induction es as [|e es IH] using rev_ind; intros Hes; [done|].
  rewrite forallb_app in Hes. apply andb_true_iff in Hes as [Hes He]. simpl in He. rewrite andb_true_r in He.
  destruct (IH Hes) as [H1 H2]. rewrite bus_run_snoc. unfold bus_log_step.
  destruct (I_step (bus_run es).1 _ e He H1) as [G1 G2]. destruct (bus_step (bus_run es).1 e) as [b out]. simpl in *.
  by rewrite view_of_app, resolved_in_trust_app.
Qed.

Lemma trusted_by_invariant : TrustedBus B E.
Proof.
  split; intros es Hes; destruct (bus_run_inv es Hes) as [H1 H2]; [|done]. intros Ht. by eapply I_sound.
Qed.
End by_invariant.
