(* ===== verification/Coordination.v ===== *)
(** * Coordination state of the hybrid cache
      ([src/src/cache/hybridCache.ts], lines 1285 to 1362, 1404 to 1478, 1589 to
      1857 and the synchronous prefixes of its mutations)

    Five maps with byte counters: in-flight loads, negative answers, stale
    copies, key generations and seen event identities, next to the key
    revisions of [KeyGuard.v]. All but the stale copies are charged to the
    budget category [coordination-metadata]. Each clock reading of the source
    is an argument; payloads are their byte lengths. A mutation is modelled up
    to its first [await], where it has changed all of this state; the stores it
    then writes are those of [CacheWrites.v]. *)

From S2P Require Import Prelude Ledger MemoryBudget JsMap Counted Pattern KeyGuard CacheOptions EventBus.

Definition MAX_GENERATION_ENTRIES : Z := 10000.
Definition MAX_GENERATION_BYTES : Z := 2 * 1024 * 1024.
Definition DEFAULT_MAX_WAITERS : Z := 10000.
Definition FOLLOWER_METADATA_BYTES : Z := 160.

Abbreviation meta := "coordination-metadata"%string.

(** [promise] identifies the shared promise of the entry. *)
Record InflightEntry := { promise : nat; ie_bytes : Z; startedAt : Z; ie_expiresAt : Z }.
Record NegativeEntry := { ne_expiresAt : Z; ne_bytes : Z }.
(** [encoded] is the retained copy; its length is what is charged. *)
Record StaleEntry := { encoded : bytes; se_bytes : Z; se_expiresAt : Z }.

Section coordination.
Context {K : Type} `{EqDecision K} {L : Type} `{Ledger L}.
Context (String : K → jsstring) (self : CacheOptions Z) (supports : bool)
  (dedupeMaxEntries dedupeTtlMs : option Z).

Record cstate := {
  c_guards : gstate (K:=K) (L:=L);
  inflight : counted K InflightEntry;
  activeFollowers : Z;
  rejectedFollowers : Z;
  followerBytes : Z;
  negative : counted K NegativeEntry;
  stale : counted K StaleEntry;
  generations : counted jsstring Z;
  seenEvents : counted jsstring Z;
  invalidationTrusted : bool;
  invalidationRevision : Z;
  lastBusStatus : option EventBusStatus }.

Definition inflight_bytes (e : K * InflightEntry) : Z := ie_bytes e.2.
Definition negative_bytes (e : K * NegativeEntry) : Z := ne_bytes e.2.
Definition stale_bytes (e : K * StaleEntry) : Z := se_bytes e.2.
Definition string_entry_bytes (e : jsstring * Z) : Z := stringMetadataBytes e.1.

Definition budget (s : cstate) : option L := memoryBudget (c_guards s).
Definition is_closed (s : cstate) : bool := closed (c_guards s).
Definition safe (s : cstate) : bool := versionedCacheSafe (versioningEnabled self) (c_guards s).

Definition with_guards (g : gstate) (s : cstate) : cstate :=
  {| c_guards := g; inflight := inflight s; activeFollowers := activeFollowers s;
     rejectedFollowers := rejectedFollowers s; followerBytes := followerBytes s; negative := negative s;
     stale := stale s; generations := generations s; seenEvents := seenEvents s;
     invalidationTrusted := invalidationTrusted s; invalidationRevision := invalidationRevision s;
     lastBusStatus := lastBusStatus s |}.

Definition with_inflight (x : counted K InflightEntry * option L) (s : cstate) : cstate :=
  {| c_guards := set_budget x.2 (c_guards s); inflight := x.1; activeFollowers := activeFollowers s;
     rejectedFollowers := rejectedFollowers s; followerBytes := followerBytes s; negative := negative s;
     stale := stale s; generations := generations s; seenEvents := seenEvents s;
     invalidationTrusted := invalidationTrusted s; invalidationRevision := invalidationRevision s;
     lastBusStatus := lastBusStatus s |}.

Definition with_followers (active rejected bytes : Z) (o : option L) (s : cstate) : cstate :=
  {| c_guards := set_budget o (c_guards s); inflight := inflight s; activeFollowers := active;
     rejectedFollowers := rejected; followerBytes := bytes; negative := negative s;
     stale := stale s; generations := generations s; seenEvents := seenEvents s;
     invalidationTrusted := invalidationTrusted s; invalidationRevision := invalidationRevision s;
     lastBusStatus := lastBusStatus s |}.

Definition with_negative (x : counted K NegativeEntry * option L) (s : cstate) : cstate :=
  {| c_guards := set_budget x.2 (c_guards s); inflight := inflight s; activeFollowers := activeFollowers s;
     rejectedFollowers := rejectedFollowers s; followerBytes := followerBytes s; negative := x.1;
     stale := stale s; generations := generations s; seenEvents := seenEvents s;
     invalidationTrusted := invalidationTrusted s; invalidationRevision := invalidationRevision s;
     lastBusStatus := lastBusStatus s |}.

Definition with_stale (x : counted K StaleEntry * option L) (s : cstate) : cstate :=
  {| c_guards := set_budget x.2 (c_guards s); inflight := inflight s; activeFollowers := activeFollowers s;
     rejectedFollowers := rejectedFollowers s; followerBytes := followerBytes s; negative := negative s;
     stale := x.1; generations := generations s; seenEvents := seenEvents s;
     invalidationTrusted := invalidationTrusted s; invalidationRevision := invalidationRevision s;
     lastBusStatus := lastBusStatus s |}.

Definition with_generations (x : counted jsstring Z * option L) (s : cstate) : cstate :=
  {| c_guards := set_budget x.2 (c_guards s); inflight := inflight s; activeFollowers := activeFollowers s;
     rejectedFollowers := rejectedFollowers s; followerBytes := followerBytes s; negative := negative s;
     stale := stale s; generations := x.1; seenEvents := seenEvents s;
     invalidationTrusted := invalidationTrusted s; invalidationRevision := invalidationRevision s;
     lastBusStatus := lastBusStatus s |}.

Definition with_seen (x : counted jsstring Z * option L) (s : cstate) : cstate :=
  {| c_guards := set_budget x.2 (c_guards s); inflight := inflight s; activeFollowers := activeFollowers s;
     rejectedFollowers := rejectedFollowers s; followerBytes := followerBytes s; negative := negative s;
     stale := stale s; generations := generations s; seenEvents := x.1;
     invalidationTrusted := invalidationTrusted s; invalidationRevision := invalidationRevision s;
     lastBusStatus := lastBusStatus s |}.

Definition with_trust (trusted : bool) (revision : Z) (status : option EventBusStatus) (s : cstate) : cstate :=
  {| c_guards := c_guards s; inflight := inflight s; activeFollowers := activeFollowers s;
     rejectedFollowers := rejectedFollowers s; followerBytes := followerBytes s; negative := negative s;
     stale := stale s; generations := generations s; seenEvents := seenEvents s;
     invalidationTrusted := trusted; invalidationRevision := revision; lastBusStatus := status |}.

(** ** In-flight loads *)

Definition canTrackNewInflight (s : cstate) : bool :=
  let maxEntries := (inflight_options self ≫= if_maxEntries) ?? DEFAULT_INFLIGHT_MAX_ENTRIES in
  (0 <? maxEntries) && (jsize (entries (inflight s)) <? maxEntries).

(** Answers the reserved bytes; the counter already includes them. *)
Definition reserveInflight (key : K) (s : cstate) : cstate * option Z :=
  if negb (canTrackNewInflight s) then (s, None) else
  let bytes := keyMetadataBytes String key in
  if MAX_AUXILIARY_MAP_BYTES <? total (inflight s) + bytes then (s, None) else
  let '(o, ok) := opt_reserve meta bytes (budget s) in
  if ok then (with_inflight ({| entries := entries (inflight s); total := total (inflight s) + bytes |}, o) s, Some bytes)
  else (with_inflight (inflight s, o) s, None).

Definition removeInflight (key : K) (s : cstate) : cstate :=
  with_inflight (cremove meta inflight_bytes key (inflight s, budget s)) s.

Definition clearInflight (s : cstate) : cstate :=
  with_inflight (cclear meta (inflight s, budget s)) s.

Definition isInflightExpired (t : Z) (e : InflightEntry) : bool := ie_expiresAt e <=? t.

Definition pruneInflightKey (t : Z) (key : K) (s : cstate) : cstate :=
  match jget key (entries (inflight s)) with
  | Some e => if isInflightExpired t e then removeInflight key s else s
  | None => s
  end.

(** The [finally] of the shared promise. *)
Definition load_settled (key : K) (p : nat) (s : cstate) : cstate :=
  if bool_decide (promise <$> jget key (entries (inflight s)) = Some p) then removeInflight key s else s.

Definition maxWaiters : Z := (inflight_options self ≫= if_maxWaiters) ?? DEFAULT_MAX_WAITERS.

(** [joinInflight] before and after its [await]; [None] is [InflightOverloadError]. *)
Definition join_begin (o : CacheOptions Z) (s : cstate) : option cstate * cstate :=
  let limit := Z.min maxWaiters ((inflight_options o ≫= if_maxWaiters) ?? maxWaiters) in
  let refuse b := (None, with_followers (activeFollowers s) (rejectedFollowers s + 1) (followerBytes s) b s) in
  if limit <=? activeFollowers s then refuse (budget s) else
  let '(b, ok) := opt_reserve meta FOLLOWER_METADATA_BYTES (budget s) in
  if ok then
    let s' := with_followers (activeFollowers s + 1) (rejectedFollowers s)
                (followerBytes s + FOLLOWER_METADATA_BYTES) b s in (Some s', s')
  else refuse b.

Definition join_end (s : cstate) : cstate :=
  with_followers (activeFollowers s - 1) (rejectedFollowers s) (followerBytes s - FOLLOWER_METADATA_BYTES)
    (opt_refund meta FOLLOWER_METADATA_BYTES (budget s)) s.

(** ** Negative answers *)

Definition removeNegative (key : K) (s : cstate) : cstate :=
  with_negative (cremove meta negative_bytes key (negative s, budget s)) s.

Definition clearNegative (s : cstate) : cstate :=
  with_negative (cclear meta (negative s, budget s)) s.

Definition hasNegative (t : Z) (key : K) (s : cstate) : cstate * bool :=
  if is_closed s || negb (safe s) || negb (invalidationTrusted s) then (s, false) else
  match jget key (entries (negative s)) with
  | None => (s, false)
  | Some e => if ne_expiresAt e <=? t then (removeNegative key s, false) else (s, true)
  end.

(** How [getOrSet] goes on after its own read missed: it throws, answers
    [undefined], joins a load, loads without an entry or leads a shared load. *)
Inductive registration := Closed | Absent | Join (e : InflightEntry) | Bypass | Leads.

Definition start_load (key : K) (p : nat) (t3 t4 : Z) (o : CacheOptions Z) (s : cstate) : cstate * registration :=
  match reserveInflight key s with
  | (s, None) => (s, Bypass)
  | (s, Some bytes) =>
      let e := {| promise := p; ie_bytes := bytes; startedAt := t3;
                  ie_expiresAt := getInflightExpiresAt self supports t4 o |} in
      (with_inflight ({| entries := jset key e (entries (inflight s)); total := total (inflight s) |}, budget s) s,
       Leads)
  end.

(** The part of [getOrSet] after its read, with its five clock readings. *)
Definition register_load (key : K) (p : nat) (t0 t1 t2 t3 t4 : Z) (o : CacheOptions Z) (s : cstate)
    : cstate * registration :=
  if is_closed s then (s, Closed) else
  let '(s, absent) := if invalidationTrusted s then hasNegative t0 key s else (s, false) in
  if absent then (s, Absent) else
  if inflightDisabled self o then (s, Bypass) else
  let s := pruneInflightKey t1 key s in
  match jget key (entries (inflight s)) with
  | Some e => if negb (isInflightExpired t2 e) then (s, Join e) else start_load key p t3 t4 o s
  | None => start_load key p t3 t4 o s
  end.

Definition negativeMaxEntries (o : CacheOptions Z) : Z :=
  pick self negativeCache nc_maxEntries o ?? DEFAULT_NEGATIVE_MAX_ENTRIES.

Definition setNegative (t : Z) (key : K) (o : CacheOptions Z) (s : cstate) : cstate :=
  if is_closed s || negb (safe s) || negb (invalidationTrusted s) then s else
  if negb (negativeCacheEnabled self o) then s else
  let ttl := pick self negativeCache nc_ttlMs o ?? DEFAULT_NEGATIVE_TTL_MS in
  if ttl <=? 0 then s else
  let maxEntries := negativeMaxEntries o in
  if maxEntries =? 0 then s else
  let x := evict_while meta negative_bytes (λ m, maxEntries <=? jsize (entries m)) (negative s, budget s) in
  let bytes := keyMetadataBytes String key in
  if MAX_AUXILIARY_MAP_BYTES <? bytes then with_negative x s else
  let x := cremove meta negative_bytes key x in
  let '(m, b) := evict_while meta negative_bytes (λ m, MAX_AUXILIARY_MAP_BYTES <? total m + bytes) x in
  let '(b, ok) := opt_reserve meta bytes b in
  with_negative
    (if ok then cput negative_bytes key {| ne_expiresAt := t + ttl; ne_bytes := bytes |} m else m, b) s.

(** ** Stale copies *)

Definition removeStale (key : K) (s : cstate) : cstate :=
  with_stale (cremove "stale" stale_bytes key (stale s, budget s)) s.

Definition clearStale (s : cstate) : cstate :=
  with_stale (cempty, if 0 <? total (stale s) then opt_refund "stale" (total (stale s)) (budget s) else budget s) s.

Definition evictOneStale (s : cstate) : cstate * bool :=
  match jfirst (entries (stale s)) with
  | None => (s, false)
  | Some oldest => (removeStale oldest s, true)
  end.

Definition staleMaxEntries (o : CacheOptions Z) : Z := pick self failSafe fs_maxEntries o ?? 1000.

Definition staleMaxBytes (o : CacheOptions Z) : Z := pick self failSafe fs_maxBytes o ?? 16 * 1024 * 1024.

(** [payload] is the encoded value, absent when it cannot be encoded. *)
Definition rememberStale (t : Z) (key : K) (payload : option bytes) (o : CacheOptions Z) (s : cstate) : cstate :=
  if is_closed s || negb (safe s) || negb (failSafeEnabled self o) then s else
  let staleTtlMs := pick self failSafe fs_staleTtlMs o ?? DEFAULT_STALE_TTL_MS in
  if staleTtlMs <=? 0 then s else
  match payload with
  | None => s
  | Some enc =>
      let s := removeStale key s in
      let maxEntries := staleMaxEntries o in
      let maxBytes := staleMaxBytes o in
      if (maxEntries =? 0) || (maxBytes =? 0) then s else
      let bytes := Z.of_nat (length enc) + utf8_length (String key) * 2 + 80 in
      if maxBytes <? bytes then s else
      let '(b, ok) := opt_reserve "stale" bytes (budget s) in
      if negb ok then with_stale (stale s, b) s else
      with_stale
        (evict_while "stale" stale_bytes
           (λ m, (maxEntries <? jsize (entries m)) || (maxBytes <? total m))
           (cput stale_bytes key {| encoded := enc; se_bytes := bytes; se_expiresAt := t + staleTtlMs |} (stale s), b))
        s
  end.

(** The encoded copy that is decoded for the caller. *)
Definition getStale (t : Z) (key : K) (s : cstate) : cstate * option bytes :=
  if is_closed s || negb (safe s) || negb (invalidationTrusted s) then (s, None) else
  match jget key (entries (stale s)) with
  | None => (s, None)
  | Some e => if se_expiresAt e <=? t then (removeStale key s, None) else (s, Some (encoded e))
  end.

(** ** Generations *)

Definition getGeneration (key : jsstring) (s : cstate) : Z := jget key (entries (generations s)) ?? 0.

Definition saturateGenerationTracking (s : cstate) : cstate :=
  if generationTrackingSaturated (c_guards s) then s else
  clearStale (clearNegative (clearInflight (with_guards (saturate (c_guards s)) s))).

Definition storeGeneration (key : jsstring) (generation : Z) (s : cstate) : cstate :=
  let bytes := stringMetadataBytes key in
  if negb (safe_int generation) || (generation <? 0) then saturateGenerationTracking s else
  if jhas key (entries (generations s)) then
    with_generations ({| entries := jset key generation (entries (generations s));
                         total := total (generations s) |}, budget s) s
  else if (MAX_GENERATION_ENTRIES <=? jsize (entries (generations s)))
       || (MAX_GENERATION_BYTES <? total (generations s) + bytes) then saturateGenerationTracking s
  else
    let '(b, ok) := opt_reserve meta bytes (budget s) in
    if ok then with_generations (cput string_entry_bytes key generation (generations s), b) s
    else saturateGenerationTracking (with_generations (generations s, b) s).

Definition advanceGenerationAfterDelete (key : jsstring) (generation : option Z) (s : cstate) : cstate :=
  let current := getGeneration key s in
  match generation with
  | Some g => storeGeneration key (Z.max current g) s
  | None => storeGeneration key (current + 1) s
  end.

Definition advanceGenerationAfterRemoteSet (key : jsstring) (generation : option Z) (s : cstate) : cstate :=
  match generation with
  | None => s
  | Some g => storeGeneration key (Z.max (getGeneration key s) g) s
  end.

Definition generationForEvent (key : jsstring) (s : cstate) : option Z :=
  if generationTrackingSaturated (c_guards s) && negb (jhas key (entries (generations s))) then None
  else Some (getGeneration key s).

Definition isStaleGeneration (key : jsstring) (generation : option Z) (s : cstate) : bool :=
  match generation with None => false | Some g => g <? getGeneration key s end.

(** ** Seen events *)

Definition getEventDedupeMaxEntries : Z := dedupeMaxEntries ?? 10000.
Definition getEventDedupeTtlMs : Z := dedupeTtlMs ?? 5 * 60000.

Definition removeSeenEvent (id : jsstring) (s : cstate) : cstate :=
  with_seen (cremove meta string_entry_bytes id (seenEvents s, budget s)) s.

Definition hasSeenEvent (t : Z) (id : jsstring) (s : cstate) : cstate * bool :=
  match jget id (entries (seenEvents s)) with
  | None => (s, false)
  | Some seenAt => if getEventDedupeTtlMs <? t - seenAt then (removeSeenEvent id s, false) else (s, true)
  end.

Definition seen_full (bytes : Z) (m : counted jsstring Z) : bool :=
  (getEventDedupeMaxEntries <=? jsize (entries m)) || (MAX_AUXILIARY_MAP_BYTES <? total m + bytes).

Definition markEventSeen (t : Z) (id : jsstring) (s : cstate) : cstate :=
  let bytes := stringMetadataBytes id in
  if (MAX_AUXILIARY_MAP_BYTES <? bytes) || (getEventDedupeMaxEntries =? 0) then s else
  let x := cremove meta string_entry_bytes id (seenEvents s, budget s) in
  let '(m, b) := evict_while meta string_entry_bytes (seen_full bytes) x in
  if seen_full bytes m then with_seen (m, b) s else
  let '(b, ok) := opt_reserve meta bytes b in
  with_seen (if ok then cput string_entry_bytes id t m else m, b) s.

(** ** Trust and closing *)

Definition bump (s : cstate) : cstate := with_guards (bump_epoch (c_guards s)) s.

Definition markInvalidationUntrusted (s : cstate) : cstate :=
  let s := with_trust false (invalidationRevision s + 1) (lastBusStatus s) s in
  clearStale (clearNegative (clearInflight (bump s))).

(** [restoreInvalidationTrust] up to its [await]; it keeps the revision it saw. *)
Definition restore_begin (s : cstate) : cstate * Z :=
  (clearStale (clearNegative (clearInflight (bump s))), invalidationRevision s).

Definition restore_end (revision : Z) (s : cstate) : cstate :=
  if negb (revision =? invalidationRevision s) || is_closed s
     || bool_decide (lastBusStatus s = Some Connecting) || bool_decide (lastBusStatus s = Some Disconnected)
     || bool_decide (lastBusStatus s = Some BusError) then s
  else with_trust true (invalidationRevision s) (lastBusStatus s) s.

(** The status listener, up to the restoration that [Subscribed] starts. *)
Definition on_status (status : EventBusStatus) (s : cstate) : cstate :=
  if is_closed s then s else
  let s := with_trust (invalidationTrusted s) (invalidationRevision s) (Some status) s in
  match status with
  | Connecting | Disconnected | BusError => markInvalidationUntrusted s
  | Ready | Subscribed => s
  end.

(** [closeResources]; [close] runs it once. *)
Definition closeResources (s : cstate) : cstate :=
  if is_closed s then s else
  let s := with_trust (invalidationTrusted s) (invalidationRevision s + 1) (lastBusStatus s) s in
  let s := clearNegative (clearInflight s) in
  let s := with_generations (cclear meta (generations s, budget s)) s in
  let g := close_guards (total (seenEvents s)) (c_guards s) in
  clearStale (with_seen (cempty, memoryBudget g) (with_guards g s)).

(** ** Mutations up to their first [await] *)

(** [deleteLocal] and [deleteLocalOnly], after [observeKey(key, true)]. *)
Definition delete_prefix (key : K) (generation : option Z) (s : cstate) : cstate :=
  advanceGenerationAfterDelete (String key) generation
    (removeStale key (removeNegative key (removeInflight key s))).

(** The loops of [deleteByPatternLocal] over the keys of each map. *)
Definition matching (pattern : jsstring) {V} (m : counted K V) : list K :=
  filter (λ k, matchesPattern (String k) pattern = true) (entries m).*1.

Definition pattern_prefix (pattern : jsstring) (s : cstate) : cstate :=
  let s := bump s in
  let s := with_inflight (remove_all meta inflight_bytes (matching pattern (inflight s)) (inflight s, budget s)) s in
  let s := with_negative (remove_all meta negative_bytes (matching pattern (negative s)) (negative s, budget s)) s in
  with_stale (remove_all "stale" stale_bytes (matching pattern (stale s)) (stale s, budget s)) s.

(** What follows a completed write in [writeValue] and [applyRemoteSet]. *)
Definition written (t : Z) (key : K) (payload : option bytes) (o : CacheOptions Z) (primed : bool) (s : cstate) : cstate :=
  let s := removeNegative key (rememberStale t key payload o s) in
  if primed then removeInflight key s else s.
End coordination.
