(* ===== verification/CoordinationOk.v ===== *)
(** * The coordination state is accounted exactly

    The histories of [Coordination.v] and their invariants: every counter is
    the sum over its map, the memory budget holds exactly the counters, every
    bound is kept, and closing gives everything back. *)

From S2P Require Import Prelude Ledger MemoryBudget JsMap Counted Pattern KeyGuard CacheOptions EventBus Coordination.

Section ok.
Context {K : Type} `{EqDecision K} {L : Type} `{Ledger L}.
Context (String : K → jsstring) (self : CacheOptions Z) (supports : bool)
  (dedupeMaxEntries dedupeTtlMs : option Z).
Abbreviation cstate := (cstate (K:=K) (L:=L)).

(** ** Histories *)

Inductive cevent :=
| EObserve (key : K) (mutate : bool)
| EReleaseGuard (i : nat)
| ERegister (key : K) (p : nat) (t0 t1 t2 t3 t4 : Z) (o : CacheOptions Z)
| ESettled (key : K) (p : nat)
| EPrune (key : K) (t : Z)
| EJoin (o : CacheOptions Z)
| EJoinEnd
| EHasNegative (key : K) (t : Z)
| ESetNegative (key : K) (t : Z) (o : CacheOptions Z)
| EGetStale (key : K) (t : Z)
| EEvictStale
| EHit (key : K) (payload : option bytes) (t : Z) (o : CacheOptions Z)
| EWritten (key : K) (payload : option bytes) (t : Z) (o : CacheOptions Z) (primed : bool)
| EGone (key : K)
| EDelete (key : K) (generation : option Z)
| EPattern (pattern : jsstring)
| ERemoteSet (key : jsstring) (generation : option Z)
| EHasSeen (id : jsstring) (t : Z)
| EMarkSeen (id : jsstring) (t : Z)
| EForget (id : jsstring)
| EStatus (status : EventBusStatus)
| EUntrusted
| ERestoreBegin
| ERestoreEnd (revision : Z)
| ERegression
| EClose.

(** Everything but the guards. *)
Definition cstep (s : cstate) (e : cevent) : cstate :=
  match e with
  | EObserve _ _ | EReleaseGuard _ => s
  | ERegister k p t0 t1 t2 t3 t4 o => (register_load String self supports k p t0 t1 t2 t3 t4 o s).1
  | ESettled k p => load_settled k p s
  | EPrune k t => pruneInflightKey t k s
  | EJoin o => (join_begin self o s).2
  | EJoinEnd => if 0 <? activeFollowers s then join_end s else s
  | EHasNegative k t => (hasNegative self t k s).1
  | ESetNegative k t o => setNegative String self t k o s
  | EGetStale k t => (getStale self t k s).1
  | EEvictStale => (evictOneStale s).1
  | EHit k payload t o => rememberStale String self t k payload o s
  | EWritten k payload t o primed => written String self t k payload o primed s
  | EGone k => removeStale k (removeNegative k s)
  | EDelete k g => delete_prefix String k g s
  | EPattern p => pattern_prefix String p s
  | ERemoteSet k g => advanceGenerationAfterRemoteSet k g s
  | EHasSeen id t => (hasSeenEvent dedupeTtlMs t id s).1
  | EMarkSeen id t => markEventSeen dedupeMaxEntries t id s
  | EForget id => removeSeenEvent id s
  | EStatus st => on_status st s
  | EUntrusted => markInvalidationUntrusted s
  | ERestoreBegin => (restore_begin s).1
  | ERestoreEnd r => restore_end r s
  | ERegression => saturateGenerationTracking s
  | EClose => closeResources s
  end.

(** What an operation does to the guards' epoch. *)
Definition gtrace (s s' : cstate) : list (gevent (K:=K)) :=
  let g := c_guards s in let g' := c_guards s' in
  if negb (Bool.eqb (closed g) (closed g')) then [GClose]
  else if negb (Bool.eqb (generationTrackingSaturated g) (generationTrackingSaturated g')) then [GSaturate]
  else if mutationEpoch g =? mutationEpoch g' then [] else [GEpoch].

Record world := { cs : cstate; given : list (issued (K:=K)); gtr : list (gevent (K:=K)); log : list cevent }.

Definition hist (w : world) : history (K:=K) := {| now := c_guards (cs w); guards := given w; trace := gtr w |}.

Definition guard_step (w : world) (g : gevent) (e : cevent) : world :=
  let h := gstep String (hist w) g in
  {| cs := with_guards (now h) (cs w); given := guards h; gtr := trace h; log := log w ++ [e] |}.

Definition wstep (w : world) (e : cevent) : world :=
  match e with
  | EObserve k m => guard_step w (GObserve k m) e
  | EReleaseGuard i => guard_step w (GRelease i) e
  | _ => {| cs := cstep (cs w) e; given := given w; gtr := gtr w ++ gtrace (cs w) (cstep (cs w) e);
            log := log w ++ [e] |}
  end.

Definition new_cache (o : option L) : world :=
  {| cs := {| c_guards := now (initial o); inflight := cempty; activeFollowers := 0; rejectedFollowers := 0;
              followerBytes := 0; negative := cempty; stale := cempty; generations := cempty;
              seenEvents := cempty; invalidationTrusted := true; invalidationRevision := 0;
              lastBusStatus := None |};
     given := []; gtr := []; log := [] |}.

(** A registration whose two expiry checks read the same clock value. *)
Definition clock_agrees (e : cevent) : bool :=
  match e with ERegister _ _ _ t1 t2 _ _ _ => t1 =? t2 | _ => true end.

(** ** The invariant *)

(** Bytes of the coordination category, key revisions apart. *)
Definition own (s : cstate) : Z :=
  total (inflight s) + followerBytes s + total (negative s) + total (generations s) + total (seenEvents s).

Definition maxInflight : Z := (inflight_options self ≫= if_maxEntries) ?? DEFAULT_INFLIGHT_MAX_ENTRIES.

Context (cb sb : Z) (Hcb : 0 <= cb) (Hsb : 0 <= sb).

Record csinv (agrees : bool) (s : cstate) (gs : list (issued (K:=K))) (tr : list (gevent (K:=K))) : Prop := {
  cs_guards : ginv String (cb + own s) {| now := c_guards s; guards := gs; trace := tr |};
  cs_stale_budget : holds "stale" (sb + total (stale s)) (budget s);
  cs_inflight : ∃ slack, 0 <= slack ∧ (agrees = true → slack = 0) ∧
    counted_ok inflight_bytes slack (inflight s);
  cs_inflight_max : total (inflight s) <= MAX_AUXILIARY_MAP_BYTES ∧
    jsize (entries (inflight s)) <= Z.max 0 maxInflight;
  cs_followers : 0 <= activeFollowers s <= Z.max 0 (maxWaiters self) ∧
    followerBytes s = FOLLOWER_METADATA_BYTES * activeFollowers s;
  cs_negative : counted_ok negative_bytes 0 (negative s) ∧ total (negative s) <= MAX_AUXILIARY_MAP_BYTES;
  cs_stale : counted_ok stale_bytes 0 (stale s);
  cs_generations : counted_ok string_entry_bytes 0 (generations s) ∧
    total (generations s) <= MAX_GENERATION_BYTES ∧ jsize (entries (generations s)) <= MAX_GENERATION_ENTRIES;
  cs_seen : counted_ok string_entry_bytes 0 (seenEvents s) ∧
    total (seenEvents s) <= MAX_AUXILIARY_MAP_BYTES ∧
    jsize (entries (seenEvents s)) <= Z.max 0 (getEventDedupeMaxEntries dedupeMaxEntries) }.

Lemma csinv_weaken s gs tr b : csinv true s gs tr → csinv b s gs tr.
Proof. intros []. split; try done. destruct cs_inflight0 as (sl & ? & Ha & ?). exists sl. naive_solver. Qed.

(** The whole account of the category. *)
Definition acct (s : cstate) : Z := cb + own s + keyRevisionBytes (c_guards s).

Section facts.
Context {agrees : bool} {s : cstate} {gs : list (issued (K:=K))} {tr : list (gevent (K:=K))}.
Context (Hi : csinv agrees s gs tr).

Lemma cs_meta : holds meta (acct s) (budget s).
Proof. apply (gc_budget _ _ _ _ _ (gi_core _ _ _ (cs_guards _ _ _ _ Hi))). Qed.

Lemma revisions_nonneg : 0 <= keyRevisionBytes (c_guards s).
Proof.
  pose proof (gc_bytes _ _ _ _ _ (gi_core _ _ _ (cs_guards _ _ _ _ Hi))) as Hk. simpl in Hk. rewrite Hk.
  apply sumZ_nonneg. intros e _. pose proof (keyMetadataBytes_pos String e.1). lia.
Qed.

Lemma totals_nonneg :
  0 <= total (inflight s) ∧ 0 <= followerBytes s ∧ 0 <= total (negative s) ∧
  0 <= total (generations s) ∧ 0 <= total (seenEvents s) ∧ 0 <= total (stale s).
Proof.
  destruct (cs_inflight _ _ _ _ Hi) as (sl & ? & _ & Hc). destruct (cs_followers _ _ _ _ Hi) as [? ->].
  split_and!.
  - by eapply counted_total_nonneg.
  - unfold FOLLOWER_METADATA_BYTES. lia.
  - eapply (counted_total_nonneg _ 0); [done|apply Hi].
  - eapply (counted_total_nonneg _ 0); [done|apply Hi].
  - eapply (counted_total_nonneg _ 0); [done|apply Hi].
  - eapply (counted_total_nonneg _ 0); [done|apply Hi].
Qed.

Lemma own_nonneg : 0 <= own s.
Proof. pose proof totals_nonneg. unfold own. lia. Qed.

(** A map may change together with the budget. *)
Lemma guards_frame o own' :
  0 <= own' → holds meta (cb + own' + keyRevisionBytes (c_guards s)) o →
  ginv String (cb + own') {| now := set_budget o (c_guards s); guards := gs; trace := tr |}.
Proof.
  intros Hown Ho. destruct (cs_guards _ _ _ _ Hi) as [Hc Hu]. split; simpl; [|done].
  by eapply gcore_rebase.
Qed.
End facts.

Ltac frame Hi Ho Hot :=
  pose proof (totals_nonneg Hi); split; try apply Hi; try done;
  [apply (guards_frame Hi); unfold acct, own in *; simpl in *; [lia|];
   match goal with |- holds _ ?a _ => match type of Ho with holds _ ?b _ => replace a with b by lia end end; exact Ho
  |..]; try (apply Hot; [done|apply Hi]).

Lemma frame_inflight agrees agrees' s gs tr slack m o :
  csinv agrees s gs tr → 0 <= slack → (agrees' = true → slack = 0) → counted_ok inflight_bytes slack m →
  total m <= MAX_AUXILIARY_MAP_BYTES → jsize (entries m) <= Z.max 0 maxInflight →
  holds meta (acct s - total (inflight s) + total m) o → others meta (budget s) o →
  csinv agrees' (with_inflight (m, o) s) gs tr.
Proof.
  intros Hi Hsl Ha Hm Hmax Hsz Ho Hot. pose proof (counted_total_nonneg _ _ _ Hsl Hm).
  frame Hi Ho Hot. by exists slack.
Qed.

Lemma frame_followers agrees s gs tr n r o :
  csinv agrees s gs tr → 0 <= n <= Z.max 0 (maxWaiters self) →
  holds meta (acct s - followerBytes s + FOLLOWER_METADATA_BYTES * n) o → others meta (budget s) o →
  csinv agrees (with_followers n r (FOLLOWER_METADATA_BYTES * n) o s) gs tr.
Proof.
  intros Hi Hn Ho Hot. assert (0 <= FOLLOWER_METADATA_BYTES * n) by (unfold FOLLOWER_METADATA_BYTES; lia).
  frame Hi Ho Hot.
Qed.

Lemma frame_negative agrees s gs tr m o :
  csinv agrees s gs tr → counted_ok negative_bytes 0 m → total m <= MAX_AUXILIARY_MAP_BYTES →
  holds meta (acct s - total (negative s) + total m) o → others meta (budget s) o →
  csinv agrees (with_negative (m, o) s) gs tr.
Proof.
  intros Hi Hm Hmax Ho Hot. pose proof (counted_total_nonneg _ _ _ (Z.le_refl 0) Hm). frame Hi Ho Hot.
Qed.

Lemma frame_generations agrees s gs tr m o :
  csinv agrees s gs tr → counted_ok string_entry_bytes 0 m → total m <= MAX_GENERATION_BYTES →
  jsize (entries m) <= MAX_GENERATION_ENTRIES →
  holds meta (acct s - total (generations s) + total m) o → others meta (budget s) o →
  csinv agrees (with_generations (m, o) s) gs tr.
Proof.
  intros Hi Hm Hmax Hsz Ho Hot. pose proof (counted_total_nonneg _ _ _ (Z.le_refl 0) Hm). frame Hi Ho Hot.
Qed.

Lemma frame_seen agrees s gs tr m o :
  csinv agrees s gs tr → counted_ok string_entry_bytes 0 m → total m <= MAX_AUXILIARY_MAP_BYTES →
  jsize (entries m) <= Z.max 0 (getEventDedupeMaxEntries dedupeMaxEntries) →
  holds meta (acct s - total (seenEvents s) + total m) o → others meta (budget s) o →
  csinv agrees (with_seen (m, o) s) gs tr.
Proof.
  intros Hi Hm Hmax Hsz Ho Hot. pose proof (counted_total_nonneg _ _ _ (Z.le_refl 0) Hm). frame Hi Ho Hot.
Qed.

Lemma frame_stale agrees s gs tr m o :
  csinv agrees s gs tr → counted_ok stale_bytes 0 m →
  holds "stale" (sb + total m) o → others "stale" (budget s) o →
  csinv agrees (with_stale (m, o) s) gs tr.
Proof.
  intros Hi Hm Ho Hot. split; try apply Hi; try done.
  pose proof (cs_meta Hi) as Hmeta. apply (Hot meta) in Hmeta; [|done].
  apply (guards_frame Hi); [apply (own_nonneg Hi)|exact Hmeta].
Qed.

(** ** Removals *)

Lemma rest_nonneg agrees s gs tr x :
  csinv agrees s gs tr → x ∈ [total (inflight s); followerBytes s; total (negative s);
    total (generations s); total (seenEvents s)] → 0 <= acct s - x.
Proof.
  intros Hi Hx. pose proof (totals_nonneg Hi). pose proof (revisions_nonneg Hi). unfold acct, own.
  repeat (apply elem_of_cons in Hx as [->|Hx]; [lia|]). by apply elem_of_nil in Hx.
Qed.

(** Whatever only removes in-flight entries keeps the invariant. *)
Lemma shrink_inflight agrees s gs tr slack y :
  csinv agrees s gs tr → 0 <= slack → (agrees = true → slack = 0) →
  shrinks meta inflight_bytes (acct s - total (inflight s)) slack (inflight s, budget s) y →
  csinv agrees (with_inflight y s) gs tr.
Proof.
  destruct y as [m o]. intros Hi Hsl Ha (Hm & Ho & Hot & Ht & Hl & _). simpl in *.
  destruct (cs_inflight_max _ _ _ _ Hi) as [? ?]. eapply frame_inflight; try done; [lia|].
  unfold jsize in *. lia.
Qed.

Lemma shrink_negative agrees s gs tr y :
  csinv agrees s gs tr →
  shrinks meta negative_bytes (acct s - total (negative s)) 0 (negative s, budget s) y →
  csinv agrees (with_negative y s) gs tr.
Proof.
  destruct y as [m o]. intros Hi (Hm & Ho & Hot & Ht & _). simpl in *.
  destruct (cs_negative _ _ _ _ Hi) as [? ?]. apply frame_negative; try done. lia.
Qed.

Lemma shrink_seen agrees s gs tr y :
  csinv agrees s gs tr →
  shrinks meta string_entry_bytes (acct s - total (seenEvents s)) 0 (seenEvents s, budget s) y →
  csinv agrees (with_seen y s) gs tr.
Proof.
  destruct y as [m o]. intros Hi (Hm & Ho & Hot & Ht & Hl & _). simpl in *.
  destruct (cs_seen _ _ _ _ Hi) as (? & ? & ?). apply frame_seen; try done; [lia|]. unfold jsize in *. lia.
Qed.

Lemma shrink_stale agrees s gs tr y :
  csinv agrees s gs tr → shrinks "stale" stale_bytes sb 0 (stale s, budget s) y →
  csinv agrees (with_stale y s) gs tr.
Proof. destruct y as [m o]. intros Hi (Hm & Ho & Hot & _). by apply frame_stale. Qed.

(** The hypotheses of the map lemmas, for each map of a state. *)
Lemma inflight_pre agrees s gs tr :
  csinv agrees s gs tr → ∃ slack, 0 <= slack ∧ (agrees = true → slack = 0) ∧
  0 <= acct s - total (inflight s) ∧ counted_ok inflight_bytes slack (inflight s) ∧
  holds meta (acct s - total (inflight s) + total (inflight s)) (budget s).
Proof.
  intros Hi. destruct (cs_inflight _ _ _ _ Hi) as (sl & ? & ? & ?). exists sl. split_and!; try done.
  - eapply rest_nonneg; [done|set_solver].
  - rewrite Z.sub_add. apply (cs_meta Hi).
Qed.

Lemma negative_pre agrees s gs tr :
  csinv agrees s gs tr → 0 <= acct s - total (negative s) ∧
  holds meta (acct s - total (negative s) + total (negative s)) (budget s).
Proof.
  intros Hi. split; [eapply rest_nonneg; [done|set_solver]|]. rewrite Z.sub_add. apply (cs_meta Hi).
Qed.

Lemma seen_pre agrees s gs tr :
  csinv agrees s gs tr → 0 <= acct s - total (seenEvents s) ∧
  holds meta (acct s - total (seenEvents s) + total (seenEvents s)) (budget s).
Proof.
  intros Hi. split; [eapply rest_nonneg; [done|set_solver]|]. rewrite Z.sub_add. apply (cs_meta Hi).
Qed.

Lemma removeInflight_ok agrees k s gs tr : csinv agrees s gs tr → csinv agrees (removeInflight k s) gs tr.
Proof.
  intros Hi. destruct (inflight_pre _ _ _ _ Hi) as (sl & ? & ? & ? & ? & ?).
  apply (shrink_inflight _ _ _ _ sl); [done..|]. by eapply cremove_ok.
Qed.

Lemma clearInflight_ok agrees s gs tr : csinv agrees s gs tr → csinv agrees (clearInflight s) gs tr.
Proof.
  intros Hi. destruct (inflight_pre _ _ _ _ Hi) as (sl & ? & ? & ? & ? & ?).
  apply (shrink_inflight _ _ _ _ 0); [done..|]. by apply (cclear_ok meta inflight_bytes _ sl).
Qed.

Lemma removeNegative_ok agrees k s gs tr : csinv agrees s gs tr → csinv agrees (removeNegative k s) gs tr.
Proof.
  intros Hi. destruct (negative_pre _ _ _ _ Hi). apply shrink_negative; [done|]. eapply cremove_ok; try done. apply Hi.
Qed.

Lemma clearNegative_ok agrees s gs tr : csinv agrees s gs tr → csinv agrees (clearNegative s) gs tr.
Proof.
  intros Hi. destruct (negative_pre _ _ _ _ Hi). apply shrink_negative; [done|]. apply (cclear_ok meta negative_bytes _ 0); try done. apply Hi.
Qed.

Lemma removeSeenEvent_ok agrees k s gs tr : csinv agrees s gs tr → csinv agrees (removeSeenEvent k s) gs tr.
Proof.
  intros Hi. destruct (seen_pre _ _ _ _ Hi). apply shrink_seen; [done|]. eapply cremove_ok; try done. apply Hi.
Qed.

Lemma removeStale_ok agrees k s gs tr : csinv agrees s gs tr → csinv agrees (removeStale k s) gs tr.
Proof. intros Hi. apply shrink_stale; [done|]. eapply cremove_ok; try done; apply Hi. Qed.

Lemma clearStale_ok agrees s gs tr : csinv agrees s gs tr → csinv agrees (clearStale s) gs tr.
Proof.
  intros Hi. unfold clearStale. destruct (0 <? total (stale s)) eqn:E; bools.
  - apply shrink_stale; [done|]. change (cempty, _) with (cclear "stale" (stale s, budget s)).
    apply (cclear_ok "stale" stale_bytes _ 0); try done; apply Hi.
  - pose proof (totals_nonneg Hi). apply frame_stale; [done| |simpl|done].
    + split; [constructor|done|by intros e ?%elem_of_nil].
    + replace (sb + 0) with (sb + total (stale s)) by lia. apply Hi.
Qed.

(** ** In-flight loads *)

Lemma reserveInflight_ok agrees k s gs tr s' r :
  csinv agrees s gs tr → reserveInflight String self k s = (s', r) →
  match r with
  | None => csinv agrees s' gs tr ∧ inflight s' = inflight s
  | Some n =>
      n = keyMetadataBytes String k ∧ entries (inflight s') = entries (inflight s) ∧
      canTrackNewInflight self s = true ∧
      ∀ v agrees' slack, ie_bytes v = n → 0 <= slack → (agrees' = true → slack = 0) →
        counted_ok inflight_bytes slack (cput inflight_bytes k v (inflight s)) →
        jsize (jset k v (entries (inflight s))) <= Z.max 0 maxInflight →
        csinv agrees' (with_inflight ({| entries := jset k v (entries (inflight s')); total := total (inflight s') |}, budget s') s') gs tr
  end.
Proof.
  intros Hi. unfold reserveInflight. destruct (canTrackNewInflight self s) eqn:Et; simpl; [|by intros [= <- <-]].
  destruct (_ <? _) eqn:Emax; [by intros [= <- <-]|]. bools.
  destruct (opt_reserve meta _ (budget s)) as [o ok] eqn:Er. destruct (inflight_pre _ _ _ _ Hi) as (sl & ? & Ha & ? & Hm & Ho).
  pose proof (keyMetadataBytes_pos String k). eapply opt_reserve_ok in Er as [Ho' Hot]; [|lia|exact Ho].
  destruct (cs_inflight_max _ _ _ _ Hi). destruct ok; intros [= <- <-].
  - do 3 (split; [done|]). intros v a slack Hv Hsl Ha' Hput Hsz.
    assert (Hb : inflight_bytes (k, v) = keyMetadataBytes String k) by done.
    simpl. rewrite <-Hb. change (csinv a (with_inflight (cput inflight_bytes k v (inflight s), o) s) gs tr).
    apply (frame_inflight agrees a s gs tr slack); try done; simpl; rewrite Hb.
    + lia.
    + by rewrite Z.add_assoc.
  - split; [|done]. by apply (frame_inflight agrees agrees s gs tr sl).
Qed.

Lemma start_load_ok agrees agrees' k p t3 t4 o s gs tr :
  csinv agrees s gs tr → (agrees' = true → agrees = true ∧ jget k (entries (inflight s)) = None) →
  csinv agrees' (start_load String self supports k p t3 t4 o s).1 gs tr.
Proof.
  intros Hi Ha'. unfold start_load. destruct (reserveInflight String self k s) as [s' r] eqn:Er.
  pose proof (reserveInflight_ok _ _ _ _ _ _ _ Hi Er) as Hr. destruct r as [n|].
  2: { destruct Hr as [Hr _]. destruct agrees'; [by destruct (Ha' eq_refl) as [-> _]|].
       destruct Hr. split; try done. destruct cs_inflight0 as (sl & ? & _ & ?). by exists sl. }
  destruct Hr as (Hn & He & Ht & Hr). pose proof (keyMetadataBytes_pos String k).
  destruct (cs_inflight _ _ _ _ Hi) as (sl & Hsl & Ha & Hm). destruct (cs_inflight_max _ _ _ _ Hi) as [_ Hsz].
  simpl. set (e := {| promise := p; ie_bytes := n; startedAt := t3; ie_expiresAt := _ |}).
  destruct (jget k (entries (inflight s))) as [e0|] eqn:Ek.
  - assert (0 <= ie_bytes e0) by (by apply (co_pos _ _ _ Hm (k, e0)), jget_Some_elem).
    apply (Hr e agrees' (sl + ie_bytes e0)); try done; [lia|by intros [_ ?]%Ha'| |].
    + apply (cput_over inflight_bytes sl k e e0); [done|done|unfold inflight_bytes; simpl; lia].
    + unfold jsize. rewrite <-(length_fmap fst), (jset_over_keys k e e0), length_fmap by done. exact Hsz.
  - apply (Hr e agrees' sl); try done; [by intros [? _]%Ha'; auto| |].
    + apply cput_ok; [done|done|unfold inflight_bytes; simpl; lia].
    + rewrite jset_new, jsize_new by done. unfold canTrackNewInflight in Ht. bools. unfold maxInflight. lia.
Qed.

Lemma pruneInflightKey_ok agrees t k s gs tr :
  csinv agrees s gs tr → csinv agrees (pruneInflightKey t k s) gs tr.
Proof. intros Hi. unfold pruneInflightKey. repeat case_match; auto using removeInflight_ok. Qed.

Lemma pruned t (k : K) (s : cstate) e :
  jget k (entries (inflight (pruneInflightKey t k s))) = Some e → isInflightExpired t e = false.
Proof.
  unfold pruneInflightKey. destruct (jget k (entries (inflight s))) as [e0|] eqn:Ek; [|congruence].
  destruct (isInflightExpired t e0) eqn:Ex; [|congruence].
  unfold removeInflight. simpl. rewrite Ek. simpl. by rewrite jget_del_eq.
Qed.

Lemma hasNegative_ok agrees t k s gs tr :
  csinv agrees s gs tr → csinv agrees (hasNegative self t k s).1 gs tr.
Proof. intros Hi. unfold hasNegative. repeat case_match; simpl; auto using removeNegative_ok. Qed.

Lemma register_load_ok agrees k p t0 t1 t2 t3 t4 o s gs tr :
  csinv agrees s gs tr →
  csinv (agrees && (t1 =? t2)) (register_load String self supports k p t0 t1 t2 t3 t4 o s).1 gs tr.
Proof.
  intros Hi. assert (Hw : ∀ s, csinv agrees s gs tr → csinv (agrees && (t1 =? t2)) s gs tr).
  { intros s0 [? ? (sl & ? & ? & ?)]. split; try done. exists sl. split_and!; try done.
    intros [? ?]%andb_true_iff. auto. }
  unfold register_load. destruct (is_closed s); [by apply Hw|].
  assert (Hn : csinv agrees (if invalidationTrusted s then hasNegative self t0 k s else (s, false)).1 gs tr).
  { destruct (invalidationTrusted s); [by apply hasNegative_ok|done]. }
  destruct (if invalidationTrusted s then _ else _) as [s1 absent]. simpl in Hn.
  destruct absent; [by apply Hw|]. destruct (inflightDisabled self o); [by apply Hw|].
  pose proof (pruneInflightKey_ok _ t1 k _ _ _ Hn) as Hp. pose proof (pruned t1 k s1) as Hpr.
  destruct (jget k (entries (inflight (pruneInflightKey t1 k s1)))) as [e|] eqn:Ek.
  - destruct (isInflightExpired t2 e) eqn:Ex; simpl; [|by apply Hw].
    eapply start_load_ok; [exact Hp|]. intros Hag. bools. specialize (Hpr e eq_refl). congruence.
  - eapply start_load_ok; [exact Hp|]. intros Hag. bools. done.
Qed.

Lemma load_settled_ok agrees k p s gs tr : csinv agrees s gs tr → csinv agrees (load_settled k p s) gs tr.
Proof. intros Hi. unfold load_settled. case_match; auto using removeInflight_ok. Qed.

Lemma join_begin_ok agrees o s gs tr : csinv agrees s gs tr → csinv agrees (join_begin self o s).2 gs tr.
Proof.
  intros Hi. destruct (cs_followers _ _ _ _ Hi) as [Hn Hf].
  assert (Hrest : 0 <= acct s - followerBytes s) by (eapply rest_nonneg; [done|set_solver]).
  pose proof (cs_meta Hi) as Hm. unfold join_begin. destruct (_ <=? activeFollowers s) eqn:El; bools; simpl.
  - rewrite Hf. apply frame_followers; try done. by replace (_ - _ + _) with (acct s) by lia.
  - destruct (opt_reserve meta _ (budget s)) as [b ok] eqn:Er.
    eapply opt_reserve_ok in Er as [Ho Hot]; [|done|exact Hm]. destruct ok; simpl.
    + replace (followerBytes s + FOLLOWER_METADATA_BYTES) with (FOLLOWER_METADATA_BYTES * (activeFollowers s + 1)) by lia.
      apply frame_followers; try done; [lia|].
      by replace (_ - _ + _) with (acct s + FOLLOWER_METADATA_BYTES) by lia.
    + rewrite Hf. apply frame_followers; try done. by replace (_ - _ + _) with (acct s) by lia.
Qed.

Lemma join_end_ok agrees s gs tr : 0 < activeFollowers s → csinv agrees s gs tr → csinv agrees (join_end s) gs tr.
Proof.
  intros Hpos Hi. destruct (cs_followers _ _ _ _ Hi) as [Hn Hf]. pose proof (cs_meta Hi) as Hm.
  assert (Hrest : 0 <= acct s - followerBytes s) by (eapply rest_nonneg; [done|set_solver]).
  assert (Hle : 0 <= FOLLOWER_METADATA_BYTES <= acct s) by (unfold FOLLOWER_METADATA_BYTES in *; lia).
  unfold join_end. replace (followerBytes s - FOLLOWER_METADATA_BYTES)
    with (FOLLOWER_METADATA_BYTES * (activeFollowers s - 1)) by lia.
  apply frame_followers; [done|lia| |by eapply others_refund].
  replace (_ - _ + _) with (acct s - FOLLOWER_METADATA_BYTES) by lia. by apply holds_refund.
Qed.

(** ** Negative answers *)

Lemma setNegative_ok agrees t k o s gs tr :
  csinv agrees s gs tr → csinv agrees (setNegative String self t k o s) gs tr.
Proof.
  intros Hi. unfold setNegative. repeat (case_match; [done|]).
  destruct (negative_pre _ _ _ _ Hi) as [Hr Ho]. destruct (cs_negative _ _ _ _ Hi) as [Hm Hmax].
  set (mx := negativeMaxEntries self o). set (ttl := pick self negativeCache nc_ttlMs o ?? _).
  set (rest := acct s - total (negative s)) in *.
  destruct (evict_while_ok meta negative_bytes rest 0 (λ m, mx <=? jsize (entries m))
    (negative s, budget s)) as [Hs1 _]; try done.
  set (x1 := evict_while _ _ _ _) in *. pose proof (keyMetadataBytes_pos String k) as Hpos.
  set (n := keyMetadataBytes String k) in *. destruct (_ <? n) eqn:En; [by apply shrink_negative|]. bools.
  pose proof Hs1 as (Hm1 & Ho1 & _).
  destruct (cremove_ok meta negative_bytes rest 0 k x1) as (Hs2 & Hk2 & _); try done.
  set (x2 := cremove _ _ _ _) in *. pose proof Hs2 as (Hm2 & Ho2 & _).
  destruct (evict_while_ok meta negative_bytes rest 0 (λ m, MAX_AUXILIARY_MAP_BYTES <? total m + n) x2)
    as [Hs3 Hend]; try done.
  assert (Hs : shrinks meta negative_bytes rest 0 (negative s, budget s)
    (evict_while meta negative_bytes (λ m, MAX_AUXILIARY_MAP_BYTES <? total m + n) x2)).
  { eapply shrinks_trans; [exact Hs1|]. intros _ _. by eapply shrinks_trans. }
  assert (Hk3 : jget k (entries (evict_while meta negative_bytes
    (λ m, MAX_AUXILIARY_MAP_BYTES <? total m + n) x2).1) = None).
  { exact (shrinks_None _ _ _ _ _ _ _ Hs3 Hk2). }
  destruct (evict_while meta negative_bytes (λ m, MAX_AUXILIARY_MAP_BYTES <? total m + n) x2) as [m b].
  destruct (opt_reserve meta n b) as [b' ok] eqn:Er. simpl in *.
  destruct (reserve_put meta negative_bytes rest _ m b b' ok k {| ne_expiresAt := t + ttl; ne_bytes := n |} Hs Hk3)
    as (Hm' & Ho' & Hot'); [unfold negative_bytes; simpl; lia|exact Er|].
  apply frame_negative; try done. destruct Hs as (Hmf & _ & _ & Hle & _). simpl in *.
  destruct ok; [|lia]. simpl. unfold negative_bytes. simpl. destruct Hend as [Hend|Hnil]; bools; [lia|].
  rewrite (co_total _ _ _ Hmf), Hnil. simpl. lia.
Qed.

(** ** Stale copies *)

Lemma getStale_ok agrees t k s gs tr : csinv agrees s gs tr → csinv agrees (getStale self t k s).1 gs tr.
Proof. intros Hi. unfold getStale. repeat case_match; simpl; auto using removeStale_ok. Qed.

Lemma evictOneStale_ok agrees s gs tr : csinv agrees s gs tr → csinv agrees (evictOneStale s).1 gs tr.
Proof. intros Hi. unfold evictOneStale. case_match; simpl; auto using removeStale_ok. Qed.

Lemma removeStale_gone agrees k s gs tr :
  csinv agrees s gs tr → jget k (entries (stale (removeStale k s))) = None.
Proof.
  intros Hi. unfold removeStale. simpl. destruct (jget k (entries (stale s))) eqn:E; [|done].
  simpl. apply jget_del_eq.
Qed.

Lemma rememberStale_ok agrees t k payload o s gs tr :
  csinv agrees s gs tr → csinv agrees (rememberStale String self t k payload o s) gs tr.
Proof.
  intros Hi. unfold rememberStale. repeat (case_match; [done|]). destruct payload as [enc|]; [|done].
  pose proof (removeStale_ok _ k _ _ _ Hi) as Hi'. pose proof (removeStale_gone _ k _ _ _ Hi) as Hk.
  set (s' := removeStale k s) in *. repeat (case_match; [done|]).
  set (n := Z.of_nat (length enc) + utf8_length (String k) * 2 + 80).
  assert (Hn : 0 <= n) by (pose proof (utf8_length_nonneg (String k)); unfold n; lia).
  destruct (opt_reserve "stale" n (budget s')) as [b ok] eqn:Er.
  pose proof (cs_stale_budget _ _ _ _ Hi') as Ho. pose proof (cs_stale _ _ _ _ Hi') as Hm.
  pose proof Er as Er2. eapply opt_reserve_ok in Er2 as [Ho' Hot]; [|done|exact Ho].
  destruct ok; simpl; [|by apply frame_stale].
  set (v := {| encoded := enc; se_bytes := n; se_expiresAt := _ |}).
  assert (Hput : counted_ok stale_bytes 0 (cput stale_bytes k v (stale s'))) by by apply cput_ok.
  match goal with |- csinv _ (with_stale (evict_while _ _ ?c ?x) _) _ _ =>
    destruct (evict_while_ok "stale" stale_bytes sb 0 c x) as [Hs _]; try done end.
  { simpl. by rewrite Z.add_assoc. }
  destruct (evict_while _ _ _ _) as [m b']. destruct Hs as (Hm' & Ho'' & Hot' & _).
  apply frame_stale; try done. by etrans.
Qed.

(** ** Seen events *)

Lemma hasSeenEvent_ok agrees t id s gs tr :
  csinv agrees s gs tr → csinv agrees (hasSeenEvent dedupeTtlMs t id s).1 gs tr.
Proof. intros Hi. unfold hasSeenEvent. repeat case_match; simpl; auto using removeSeenEvent_ok. Qed.

Lemma markEventSeen_ok agrees t id s gs tr :
  csinv agrees s gs tr → csinv agrees (markEventSeen dedupeMaxEntries t id s) gs tr.
Proof.
  intros Hi. unfold markEventSeen. destruct (_ || _) eqn:E; [done|]. bools.
  destruct (seen_pre _ _ _ _ Hi) as [Hr Ho]. destruct (cs_seen _ _ _ _ Hi) as (Hm & Hmax & Hsz).
  set (rest := acct s - total (seenEvents s)) in *. set (n := stringMetadataBytes id) in *.
  assert (Hn : 0 <= n) by (unfold n, stringMetadataBytes; pose proof (utf8_length_nonneg id); lia).
  destruct (cremove_ok meta string_entry_bytes rest 0 id (seenEvents s, budget s)) as (Hs1 & Hk1 & _); try done.
  set (x1 := cremove _ _ _ _) in *. pose proof Hs1 as (Hm1 & Ho1 & _).
  destruct (evict_while_ok meta string_entry_bytes rest 0 (seen_full dedupeMaxEntries n) x1) as [Hs2 Hend]; try done.
  assert (Hs : shrinks meta string_entry_bytes rest 0 (seenEvents s, budget s)
    (evict_while meta string_entry_bytes (seen_full dedupeMaxEntries n) x1)) by by eapply shrinks_trans.
  assert (Hk : jget id (entries (evict_while meta string_entry_bytes (seen_full dedupeMaxEntries n) x1).1) = None).
  { exact (shrinks_None _ _ _ _ _ _ _ Hs2 Hk1). }
  destruct (evict_while _ _ _ x1) as [m b]. simpl in Hk.
  destruct (seen_full dedupeMaxEntries n m) eqn:Ef; [by apply shrink_seen|].
  destruct (opt_reserve meta n b) as [b' ok] eqn:Er.
  destruct (reserve_put meta string_entry_bytes rest _ m b b' ok id t Hs Hk) as (Hm' & Ho' & Hot'); [done..|].
  unfold seen_full in Ef. bools. destruct Hs as (Hmf & _ & _ & Hle & Hlen & _). simpl in *.
  apply frame_seen; try done; destruct ok; simpl; try lia.
  - unfold string_entry_bytes. simpl. fold n. lia.
  - rewrite jset_new, jsize_new by done. lia.
Qed.

(** ** Operations that move the epoch *)

(** [s'] agrees with [s] in what the guards' trace records. *)
Definition calm (s s' : cstate) : Prop :=
  closed (c_guards s') = closed (c_guards s) ∧
  generationTrackingSaturated (c_guards s') = generationTrackingSaturated (c_guards s) ∧
  mutationEpoch (c_guards s') = mutationEpoch (c_guards s).

Lemma gtrace_calm s s' : calm s s' → gtrace s s' = [].
Proof. intros (Hc & Hs & He). unfold gtrace. by rewrite Hc, Hs, He, !Bool.eqb_reflx, Z.eqb_refl. Qed.

Lemma gtrace_calm_l s s' s'' : calm s s' → gtrace s s'' = gtrace s' s''.
Proof. intros (Hc & Hs & He). unfold gtrace. by rewrite Hc, Hs, He. Qed.

Lemma gtrace_calm_r s s' s'' : calm s' s'' → gtrace s s'' = gtrace s s'.
Proof. intros (Hc & Hs & He). unfold gtrace. by rewrite Hc, Hs, He. Qed.

Lemma guard_event_ok agrees s gs tr e :
  csinv agrees s gs tr →
  memoryBudget (now (gstep String {| now := c_guards s; guards := gs; trace := tr |} e)) = budget s →
  let h := gstep String {| now := c_guards s; guards := gs; trace := tr |} e in
  csinv agrees (with_guards (now h) s) (guards h) (trace h).
Proof.
  intros Hi Hb h. split; try apply Hi; try done.
  - assert (Hg : ginv String (cb + own s) h).
    { apply gstep_ok; [pose proof (own_nonneg Hi); lia|apply Hi]. }
    by destruct h.
  - change (budget (with_guards (now h) s)) with (memoryBudget (now h)). unfold h. rewrite Hb. apply Hi.
Qed.

Lemma bump_ok agrees s gs tr : csinv agrees s gs tr → csinv agrees (bump s) gs (tr ++ [GEpoch]).
Proof. intros Hi. by apply (guard_event_ok agrees s gs tr GEpoch). Qed.

Lemma saturate_ok agrees s gs tr :
  csinv agrees s gs tr → csinv agrees (saturateGenerationTracking s) gs (tr ++ gtrace s (saturateGenerationTracking s)).
Proof.
  intros Hi. unfold saturateGenerationTracking.
  destruct (generationTrackingSaturated (c_guards s)) eqn:Es; [by rewrite gtrace_calm, app_nil_r|].
  assert (Hsat : csinv agrees (with_guards (saturate (c_guards s)) s) gs (tr ++ [GSaturate])).
  { pose proof (guard_event_ok agrees s gs tr GSaturate Hi) as Hg. simpl in Hg. rewrite Es in Hg. simpl in Hg.
    apply Hg. unfold saturate. by rewrite Es. }
  rewrite (gtrace_calm_r s (with_guards (saturate (c_guards s)) s)) by done.
  assert (Ht : gtrace s (with_guards (saturate (c_guards s)) s) = [GSaturate]).
  { unfold gtrace, saturate. simpl. rewrite Es. simpl. by rewrite Bool.eqb_reflx. }
  rewrite Ht. by apply clearStale_ok, clearNegative_ok, clearInflight_ok.
Qed.

Lemma storeGeneration_ok agrees k g s gs tr :
  csinv agrees s gs tr → csinv agrees (storeGeneration k g s) gs (tr ++ gtrace s (storeGeneration k g s)).
Proof.
  intros Hi. unfold storeGeneration. destruct (_ || _); [by apply saturate_ok|].
  destruct (cs_generations _ _ _ _ Hi) as (Hm & Hmax & Hsz). pose proof (cs_meta Hi) as Ho.
  set (n := stringMetadataBytes k).
  assert (Hn : 0 <= n) by (unfold n, stringMetadataBytes; pose proof (utf8_length_nonneg k); lia).
  destruct (jhas k (entries (generations s))) eqn:Eh.
  - rewrite gtrace_calm, app_nil_r by done. unfold jhas in Eh. apply bool_decide_eq_true in Eh as [v Hv].
    apply frame_generations; simpl; try done.
    + split; simpl.
      * unfold jmap_ok. rewrite (jset_over_keys k g v) by done. apply Hm.
      * rewrite (jset_over_sum _ k g v), (co_total _ _ _ Hm) by (done || apply Hm). unfold string_entry_bytes. simpl. lia.
      * intros e [->|He]%(jset_over_elem k g v); [done|by apply Hm|done].
    + unfold jsize. by rewrite <-(length_fmap fst), (jset_over_keys k g v), length_fmap by done.
    + by replace (_ - _ + _) with (acct s) by lia.
  - unfold jhas in Eh. apply bool_decide_eq_false in Eh. rewrite <-eq_None_not_Some in Eh.
    destruct (_ || _) eqn:El; [by apply saturate_ok|]. bools.
    destruct (opt_reserve meta n (budget s)) as [b ok] eqn:Er.
    eapply opt_reserve_ok in Er as [Ho' Hot]; [|done|exact Ho]. destruct ok.
    + rewrite gtrace_calm, app_nil_r by done. apply frame_generations; simpl; try done.
      * by apply cput_ok.
      * rewrite jset_new, jsize_new by done. lia.
      * unfold string_entry_bytes. simpl. fold n. by replace (_ - _ + _) with (acct s + n) by lia.
    + rewrite (gtrace_calm_l s (with_generations (generations s, b) s)) by done. apply saturate_ok.
      apply frame_generations; try done. by replace (_ - _ + _) with (acct s) by lia.
Qed.

Lemma advance_ok agrees k g s gs tr :
  csinv agrees s gs tr →
  csinv agrees (advanceGenerationAfterDelete k g s) gs (tr ++ gtrace s (advanceGenerationAfterDelete k g s)).
Proof. intros Hi. unfold advanceGenerationAfterDelete. destruct g; by apply storeGeneration_ok. Qed.

Lemma advance_remote_ok agrees k g s gs tr :
  csinv agrees s gs tr →
  csinv agrees (advanceGenerationAfterRemoteSet k g s) gs (tr ++ gtrace s (advanceGenerationAfterRemoteSet k g s)).
Proof.
  intros Hi. unfold advanceGenerationAfterRemoteSet. destruct g; [by apply storeGeneration_ok|].
  by rewrite gtrace_calm, app_nil_r.
Qed.

Lemma gtrace_bump s s' : calm (bump s) s' → gtrace s s' = [GEpoch].
Proof.
  intros (Hc & Hs & He). unfold gtrace. simpl in *. rewrite Hc, Hs, He, !Bool.eqb_reflx. simpl.
  by rewrite (proj2 (Z.eqb_neq _ _)) by lia.
Qed.

Lemma with_trust_ok agrees b r st s gs tr : csinv agrees s gs tr → csinv agrees (with_trust b r st s) gs tr.
Proof. by intros []. Qed.

Lemma untrusted_ok agrees s gs tr :
  csinv agrees s gs tr → csinv agrees (markInvalidationUntrusted s) gs (tr ++ gtrace s (markInvalidationUntrusted s)).
Proof.
  intros Hi. rewrite gtrace_bump by done. unfold markInvalidationUntrusted.
  by apply clearStale_ok, clearNegative_ok, clearInflight_ok, bump_ok, with_trust_ok.
Qed.

Lemma restore_begin_ok agrees s gs tr :
  csinv agrees s gs tr → csinv agrees (restore_begin s).1 gs (tr ++ gtrace s (restore_begin s).1).
Proof.
  intros Hi. rewrite gtrace_bump by done. by apply clearStale_ok, clearNegative_ok, clearInflight_ok, bump_ok.
Qed.

Lemma on_status_ok agrees st s gs tr :
  csinv agrees s gs tr → csinv agrees (on_status st s) gs (tr ++ gtrace s (on_status st s)).
Proof.
  intros Hi. unfold on_status. destruct (is_closed s); [by rewrite gtrace_calm, app_nil_r|].
  set (s' := with_trust _ _ _ s). assert (Hi' : csinv agrees s' gs tr) by by apply with_trust_ok.
  rewrite (gtrace_calm_l s s') by done.
  destruct st; try (by rewrite gtrace_calm, app_nil_r); by apply untrusted_ok.
Qed.

Lemma pattern_prefix_ok agrees p s gs tr :
  csinv agrees s gs tr → csinv agrees (pattern_prefix String p s) gs (tr ++ gtrace s (pattern_prefix String p s)).
Proof.
  intros Hi. rewrite gtrace_bump by done. unfold pattern_prefix.
  apply bump_ok in Hi. set (s0 := bump s) in *.
  destruct (inflight_pre _ _ _ _ Hi) as (sl & ? & ? & ? & ? & ?).
  assert (Hi1 : csinv agrees (with_inflight (remove_all meta inflight_bytes
    (matching String p (inflight s0)) (inflight s0, budget s0)) s0) gs (tr ++ [GEpoch])).
  { apply (shrink_inflight _ _ _ _ sl); [done..|]. by eapply remove_all_ok. }
  clearbody s0. clear s Hi. set (s1 := with_inflight _ s0) in *. clearbody s1.
  destruct (negative_pre _ _ _ _ Hi1).
  assert (Hi2 : csinv agrees (with_negative (remove_all meta negative_bytes
    (matching String p (negative s1)) (negative s1, budget s1)) s1) gs (tr ++ [GEpoch])).
  { apply shrink_negative; [done|]. eapply remove_all_ok; try done. apply Hi1. }
  set (s2 := with_negative _ s1) in *. clearbody s2.
  apply shrink_stale; [done|]. eapply remove_all_ok; try done; apply Hi2.
Qed.

Lemma delete_prefix_ok agrees k g s gs tr :
  csinv agrees s gs tr → csinv agrees (delete_prefix String k g s) gs (tr ++ gtrace s (delete_prefix String k g s)).
Proof.
  intros Hi. unfold delete_prefix. set (s' := removeStale k _).
  rewrite (gtrace_calm_l s s') by done. by apply advance_ok, removeStale_ok, removeNegative_ok, removeInflight_ok.
Qed.

Lemma rememberStale_calm t (k : K) payload o (s : cstate) : calm s (rememberStale String self t k payload o s).
Proof. unfold rememberStale. repeat case_match; done. Qed.

Lemma written_ok agrees t k payload o primed s gs tr :
  csinv agrees s gs tr → csinv agrees (written String self t k payload o primed s) gs tr.
Proof.
  intros Hi. unfold written. assert (csinv agrees (removeNegative k (rememberStale String self t k payload o s)) gs tr).
  { by apply removeNegative_ok, rememberStale_ok. }
  destruct primed; [by apply removeInflight_ok|done].
Qed.

Lemma cclear_generations_ok agrees s gs tr :
  csinv agrees s gs tr → csinv agrees (with_generations (cclear meta (generations s, budget s)) s) gs tr.
Proof.
  intros Hi. destruct (cs_generations _ _ _ _ Hi) as (Hm & _). pose proof (cs_meta Hi) as Ho.
  assert (0 <= acct s - total (generations s)) by (eapply rest_nonneg; [done|set_solver]).
  destruct (cclear_ok meta string_entry_bytes (acct s - total (generations s)) 0 (generations s, budget s))
    as [(Hm' & Ho' & Hot & _) _]; try done; [by rewrite Z.sub_add|].
  destruct (cclear meta (generations s, budget s)) as [m o] eqn:E. injection E as <- <-.
  by apply frame_generations.
Qed.

(** [closeResources] empties every map; of the coordination category only the
    followers that still wait stay charged. *)
Lemma close_ok agrees s gs tr :
  csinv agrees s gs tr → csinv agrees (closeResources s) gs (tr ++ gtrace s (closeResources s)).
Proof.
  intros Hi. unfold closeResources. destruct (is_closed s) eqn:Ec; [by rewrite gtrace_calm, app_nil_r|].
  set (s0 := with_trust _ _ _ s). assert (Hi0 : csinv agrees s0 gs tr) by by apply with_trust_ok.
  apply clearInflight_ok, clearNegative_ok, cclear_generations_ok in Hi0.
  rewrite (gtrace_calm_l s s0) by done.
  set (s1 := with_generations _ _) in *. rewrite (gtrace_calm_l s0 s1) by done.
  assert (Ec1 : closed (c_guards s1) = false) by done. clearbody s1. clear s s0 Hi Ec.
  set (g := close_guards (total (seenEvents s1)) (c_guards s1)).
  set (s2 := with_seen (cempty, memoryBudget g) (with_guards g s1)).
  rewrite (gtrace_calm_r s1 s2) by done.
  assert (Ht : gtrace s1 s2 = [GClose]) by (unfold gtrace; simpl; by rewrite Ec1).
  rewrite Ht. apply clearStale_ok. pose proof (totals_nonneg Hi0) as Hnn. pose proof (cs_meta Hi0) as Ho.
  pose proof (revisions_nonneg Hi0) as Hk.
  assert (Hg : gcore String (cb + own s2) g gs (tr ++ [GClose])).
  { apply close_core; unfold own, acct in *; simpl in *; [lia|lia| |].
    - destruct (cs_guards _ _ _ _ Hi0) as [Hc _]. by eapply gcore_rebase.
    - match goal with |- holds _ ?a _ => match type of Ho with holds _ ?b _ => replace a with b by (unfold own in *; lia) end end.
      exact Ho. }
  split; try apply Hi0; try done.
  - apply (others_refund meta _ (acct s1)); [unfold acct, own in *; lia|exact Ho|done|apply Hi0].
  - unfold jsize. simpl. split; [split; [constructor|done|by intros e ?%elem_of_nil]|].
    unfold MAX_AUXILIARY_MAP_BYTES. lia.
Qed.

(** ** Guards touch no other category *)

Lemma find_revision_others agrees s gs tr k g a :
  csinv agrees s gs tr → find_revision String k (c_guards s) = (g, a) →
  others meta (budget s) (memoryBudget g).
Proof.
  intros Hi. unfold find_revision. destruct (jget k _); [by intros [= <- <-]|].
  destruct (if _ <=? _ then _ else _) as [o ok] eqn:E. intros [= <- <-]. simpl.
  destruct (_ <=? _); [|by injection E as <- <-]. pose proof (cs_meta Hi).
  eapply others_reserve; [|done|exact E]. pose proof (keyMetadataBytes_pos String k). lia.
Qed.

Lemma guard_step_ok agrees w g e :
  csinv agrees (cs w) (given w) (gtr w) → (∃ k m, g = GObserve k m) ∨ (∃ i, g = GRelease i) →
  csinv agrees (cs (guard_step w g e)) (given (guard_step w g e)) (gtr (guard_step w g e)).
Proof.
  intros Hi Hg. assert (Hgi : ginv String (cb + own (cs w)) (gstep String (hist w) g)).
  { apply gstep_ok; [pose proof (own_nonneg Hi); lia|apply Hi]. }
  assert (Hot : others meta (budget (cs w)) (memoryBudget (now (gstep String (hist w) g)))).
  { destruct Hg as [(k & m & ->)|(i & ->)]; simpl.
    - unfold observeKey. destruct (find_revision String k (c_guards (cs w))) as [s a] eqn:E.
      simpl. by eapply find_revision_others.
    - destruct (given w !! i) as [[g [] t]|] eqn:Ei; simpl; try done.
      unfold releaseKey. destruct (_ && _) eqn:Eb; simpl; [|done].
      apply andb_true_iff in Eb as [_ Eb]. apply bool_decide_eq_true in Eb.
      destruct (cs_guards _ _ _ _ Hi) as [Hc _]. destruct (gc_mapped _ _ _ _ _ Hc (g_key g) (g_state g)) as (r & Hr & _ & Hkb); [done|].
      unfold revision_at. simpl in Hr. rewrite Hr. simpl. rewrite Hkb.
      eapply others_refund; [|exact (cs_meta Hi)].
      pose proof (keyMetadataBytes_pos String (g_key g)).
      pose proof (gc_bytes _ _ _ _ _ Hc) as Hsum. simpl in Hsum.
      assert (keyMetadataBytes String (g_key g) <= keyRevisionBytes (c_guards (cs w))).
      { rewrite Hsum. apply (sumZ_elem (λ e, keyMetadataBytes String e.1) (g_key g, g_state g)).
        - intros e' _. pose proof (keyMetadataBytes_pos String e'.1). lia.
        - by apply jget_Some_elem. }
      pose proof (own_nonneg Hi). unfold acct. lia. }
  unfold guard_step. simpl. split; try apply Hi; try done.
  - by destruct (gstep String (hist w) g).
  - apply Hot; [done|apply Hi].
Qed.

(** ** Every history *)

#[export] Instance calm_preorder : PreOrder calm.
Proof. split; [done|]. intros s1 s2 s3 (? & ? & ?) (? & ? & ?). split_and!; congruence. Qed.

Lemma start_load_calm (k : K) p t3 t4 o (s : cstate) : calm s (start_load String self supports k p t3 t4 o s).1.
Proof.
  unfold start_load. assert (Hr : calm s (reserveInflight String self k s).1).
  { unfold reserveInflight. repeat (case_match; [done|]). by repeat case_match. }
  destruct (reserveInflight String self k s) as [s' [n|]]; [|done]. simpl in *. by etrans.
Qed.

Lemma register_load_calm (k : K) p t0 t1 t2 t3 t4 o (s : cstate) :
  calm s (register_load String self supports k p t0 t1 t2 t3 t4 o s).1.
Proof.
  unfold register_load. destruct (is_closed s); [done|].
  assert (Hn : calm s (if invalidationTrusted s then hasNegative self t0 k s else (s, false)).1).
  { unfold hasNegative. by repeat case_match. }
  destruct (if invalidationTrusted s then _ else _) as [s1 absent]. simpl in Hn.
  destruct absent; [done|]. destruct (inflightDisabled self o); [done|].
  assert (Hp : calm s (pruneInflightKey t1 k s1)).
  { etrans; [exact Hn|]. unfold pruneInflightKey. by repeat case_match. }
  destruct (jget k _) as [e|]; [destruct (negb _); [done|]|]; (etrans; [exact Hp|]; apply start_load_calm).
Qed.

Definition agrees_all (es : list cevent) : bool := forallb clock_agrees es.

Definition winv (w : world) : Prop := csinv (agrees_all (log w)) (cs w) (given w) (gtr w).

Lemma cstep_ok agrees s e gs tr :
  csinv agrees s gs tr → csinv (agrees && clock_agrees e) (cstep s e) gs (tr ++ gtrace s (cstep s e)).
Proof.
  intros Hi.
  assert (Hcalm : ∀ s', csinv agrees s' gs tr → calm s s' → clock_agrees e = true →
    csinv (agrees && clock_agrees e) s' gs (tr ++ gtrace s s')).
  { intros s' Hs' Hc ->. by rewrite gtrace_calm, app_nil_r, andb_true_r. }
  assert (Hmove : ∀ s', csinv agrees s' gs (tr ++ gtrace s s') → clock_agrees e = true →
    csinv (agrees && clock_agrees e) s' gs (tr ++ gtrace s s')).
  { intros s' Hs' ->. by rewrite andb_true_r. }
  destruct e; simpl cstep.
  - by apply Hcalm.
  - by apply Hcalm.
  - rewrite gtrace_calm, app_nil_r; [by apply register_load_ok|]. apply register_load_calm.
  - apply Hcalm; [by apply load_settled_ok| |done]. unfold load_settled. by case_match.
  - apply Hcalm; [by apply pruneInflightKey_ok| |done]. unfold pruneInflightKey. by repeat case_match.
  - apply Hcalm; [by apply join_begin_ok| |done]. unfold join_begin. by repeat case_match.
  - destruct (0 <? _) eqn:E; bools; apply Hcalm; try done. by apply join_end_ok.
  - apply Hcalm; [by apply hasNegative_ok| |done]. unfold hasNegative. by repeat case_match.
  - apply Hcalm; [by apply setNegative_ok| |done]. unfold setNegative. by repeat case_match.
  - apply Hcalm; [by apply getStale_ok| |done]. unfold getStale. by repeat case_match.
  - apply Hcalm; [by apply evictOneStale_ok| |done]. unfold evictOneStale. by repeat case_match.
  - apply Hcalm; [by apply rememberStale_ok| |done]. apply rememberStale_calm.
  - apply Hcalm; [by apply written_ok| |done]. unfold written. pose proof (rememberStale_calm t key payload o s). by case_match.
  - apply Hcalm; [by apply removeStale_ok, removeNegative_ok|done|done].
  - apply Hmove; [by apply delete_prefix_ok|done].
  - apply Hmove; [by apply pattern_prefix_ok|done].
  - apply Hmove; [by apply advance_remote_ok|done].
  - apply Hcalm; [by apply hasSeenEvent_ok| |done]. unfold hasSeenEvent. by repeat case_match.
  - apply Hcalm; [by apply markEventSeen_ok| |done]. unfold markEventSeen. by repeat case_match.
  - apply Hcalm; [by apply removeSeenEvent_ok|done|done].
  - apply Hmove; [by apply on_status_ok|done].
  - apply Hmove; [by apply untrusted_ok|done].
  - apply Hmove; [by apply restore_begin_ok|done].
  - apply Hcalm; [| |done]; unfold restore_end; case_match; try done. by apply with_trust_ok.
  - apply Hmove; [by apply saturate_ok|done].
  - apply Hmove; [by apply close_ok|done].
Qed.

Lemma wstep_ok w e : winv w → winv (wstep w e).
Proof.
  unfold winv, agrees_all. intros Hi.
  assert (Hlog : log (wstep w e) = log w ++ [e]) by by destruct e.
  rewrite Hlog, forallb_app. simpl. rewrite andb_true_r.
  destruct e; try (by apply cstep_ok); simpl clock_agrees; rewrite andb_true_r.
  - apply (guard_step_ok _ w (GObserve key mutate)); eauto.
  - apply (guard_step_ok _ w (GRelease i)); eauto.
Qed.

Lemma new_cache_ok o : holds meta cb o → holds "stale" sb o → winv (new_cache o).
Proof.
  intros Hm Hs. split; simpl; try done.
  - unfold own. simpl. rewrite Z.add_0_r. apply (ginv_reachable String cb Hcb o); [done|constructor].
  - by rewrite Z.add_0_r.
  - exists 0. split_and!; try done. split; [constructor|done|by intros e ?%elem_of_nil].
  - unfold MAX_AUXILIARY_MAP_BYTES, jsize. simpl. lia.
  - unfold FOLLOWER_METADATA_BYTES. lia.
  - split; [split; [constructor|done|by intros e ?%elem_of_nil]|]. by unfold MAX_AUXILIARY_MAP_BYTES.
  - split; [constructor|done|by intros e ?%elem_of_nil].
  - split; [split; [constructor|done|by intros e ?%elem_of_nil]|]. by unfold MAX_GENERATION_BYTES, MAX_GENERATION_ENTRIES.
  - split; [split; [constructor|done|by intros e ?%elem_of_nil]|].
    unfold MAX_AUXILIARY_MAP_BYTES, jsize. simpl. lia.
Qed.

Lemma winv_reachable o w :
  holds meta cb o → holds "stale" sb o → reachable wstep (new_cache o) w → winv w.
Proof.
  intros Hm Hs. apply reachable_invariant; [by apply new_cache_ok|]. intros; by apply wstep_ok.
Qed.

(** Closing the cache empties every map and gives every byte back; of what
    the cache charged only the waiting followers are left, until they settle. *)
Theorem close_gives_back o w :
  holds meta cb o → holds "stale" sb o → reachable wstep (new_cache o) w →
  is_closed (cs w) = false →
  let s := closeResources (cs w) in
  is_closed s = true ∧ entries (inflight s) = [] ∧ entries (negative s) = [] ∧ entries (stale s) = [] ∧
  entries (generations s) = [] ∧ entries (seenEvents s) = [] ∧ keyRevisions (c_guards s) = [] ∧
  holds meta (cb + FOLLOWER_METADATA_BYTES * activeFollowers (cs w)) (budget s) ∧ holds "stale" sb (budget s).
Proof.
  intros Hm Hs Hr Hc. pose proof (winv_reachable o w Hm Hs Hr) as Hi.
  destruct (cs_followers _ _ _ _ Hi) as [_ Hf].
  apply close_ok in Hi. pose proof (cs_meta Hi) as Ho. pose proof (cs_stale_budget _ _ _ _ Hi) as Hst.
  unfold closeResources, acct, own in *. rewrite Hc in *. simpl in *. rewrite !Z.add_0_r in *. split_and!; try done.
  by rewrite <-Hf.
Qed.
End ok.
