(* ===== verification/CoordinationAnswers.v ===== *)
(** * Where negative and stale answers come from, and how many there are

    A negative answer or a stale copy is served only while the cache is open,
    trusts its invalidation channel and its generations, and the entry has not
    expired; every such entry was recorded by an earlier event of the history
    and no deletion of its key, matching pattern deletion, loss or recovery of
    trust or [close] came in between. The bounds of these entries, which each call
    sets, complete the account of [CoordinationOk.v]. *)

From S2P Require Import Prelude Ledger MemoryBudget JsMap Counted Pattern KeyGuard CacheOptions EventBus Coordination CoordinationOk.

Section answers.
Context {K : Type} `{EqDecision K} {L : Type} `{Ledger L}.
Context (String : K → jsstring) (self : CacheOptions Z) (supports : bool)
  (dedupeMaxEntries dedupeTtlMs : option Z).
Abbreviation cstate := (cstate (K:=K) (L:=L)).
Abbreviation cstep := (cstep String self supports dedupeMaxEntries dedupeTtlMs).
Abbreviation wstep := (wstep String self supports dedupeMaxEntries dedupeTtlMs).

(** Events after which the cache may not answer from what it had recorded for
    [k]. *)
Definition invalidates (k : K) (e : cevent (K:=K)) : bool :=
  match e with
  | EDelete k' _ | EGone k' => bool_decide (k' = k)
  | EPattern p => matchesPattern (String k) p
  | EUntrusted | ERestoreBegin | EClose => true
  | EStatus st => bool_decide (st = Connecting ∨ st = Disconnected ∨ st = BusError)
  | _ => false
  end.

(** A completed write also ends a negative answer. *)
Definition fills (k : K) (e : cevent (K:=K)) : bool :=
  invalidates k e || match e with EWritten k' _ _ _ _ => bool_decide (k' = k) | _ => false end.

(** The event that recorded an entry. *)
Definition records_negative (k : K) (v : NegativeEntry) (e : cevent (K:=K)) : Prop :=
  ∃ t o, e = ESetNegative k t o ∧
    ne_expiresAt v = t + (pick self negativeCache nc_ttlMs o ?? DEFAULT_NEGATIVE_TTL_MS).

Definition records_stale (k : K) (v : StaleEntry) (e : cevent (K:=K)) : Prop :=
  ∃ t o, (e = EHit k (Some (encoded v)) t o ∨ ∃ primed, e = EWritten k (Some (encoded v)) t o primed) ∧
    se_expiresAt v = t + (pick self failSafe fs_staleTtlMs o ?? DEFAULT_STALE_TTL_MS).

(** ** Closing is the only way to close *)

Lemma saturate_closed (s : cstate) : is_closed (saturateGenerationTracking s) = is_closed s.
Proof. unfold saturateGenerationTracking, is_closed, saturate. destruct (generationTrackingSaturated _) eqn:E; [done|]. simpl. by rewrite ?E. Qed.

Lemma storeGeneration_closed k g (s : cstate) : is_closed (storeGeneration k g s) = is_closed s.
Proof.
  unfold storeGeneration. destruct (_ || _); [apply saturate_closed|]. destruct (jhas _ _); [done|].
  destruct (_ || _); [apply saturate_closed|]. destruct (opt_reserve _ _ _) as [b []]; [done|].
  by rewrite saturate_closed.
Qed.

Lemma calm_closed s s' : calm s s' → is_closed s' = is_closed (s : cstate).
Proof. by intros (? & _). Qed.

Lemma cstep_closed (s : cstate) (e : cevent (K:=K)) : is_closed (cstep s e) = true → is_closed s = true ∨ e = EClose.
Proof.
  assert (Hc : ∀ s' : cstate, is_closed s' = is_closed s → is_closed s' = true → is_closed s = true ∨ e = EClose).
  { intros s' ->. by left. }
  destruct e; simpl; try (by left); try (by right); apply Hc.
  - apply calm_closed, register_load_calm.
  - unfold load_settled. by case_match.
  - unfold pruneInflightKey. by repeat case_match.
  - unfold join_begin. by repeat case_match.
  - by case_match.
  - unfold hasNegative. by repeat case_match.
  - unfold setNegative. by repeat case_match.
  - unfold getStale. by repeat case_match.
  - unfold evictOneStale. by repeat case_match.
  - apply calm_closed, rememberStale_calm.
  - unfold written. pose proof (calm_closed _ _ (rememberStale_calm String self t key payload o s)). by case_match.
  - unfold delete_prefix, advanceGenerationAfterDelete. case_match; by rewrite storeGeneration_closed.
  - unfold advanceGenerationAfterRemoteSet. case_match; [by rewrite storeGeneration_closed|done].
  - unfold hasSeenEvent. by repeat case_match.
  - unfold markEventSeen. by repeat case_match.
  - unfold on_status. destruct (is_closed s) eqn:E; [done|]. by case_match.
  - unfold restore_end. by repeat case_match.
  - apply saturate_closed.
Qed.

(** ** Entries and the events that recorded them *)

Section provenance.
Context {V : Type} (sel : cstate → counted K V) (ends : K → cevent (K:=K) → bool)
  (records : K → V → cevent (K:=K) → Prop).
Context (sel_guards : ∀ g s, sel (with_guards g s) = sel s) (sel_new : ∀ o, sel (cs (new_cache o)) = cempty).
Context (ends_close : ∀ k, ends k EClose = true) (records_close : ∀ k v, ¬ records k v EClose).
(** An entry after a step was there and the step did not end it, or the step
    recorded it in an open cache. *)
Context (sel_step : ∀ s e k v, jget k (entries (sel (cstep s e))) = Some v →
  (jget k (entries (sel s)) = Some v ∧ (ends k e = false ∨ is_closed s = true)) ∨
  (records k v e ∧ is_closed s = false)).

Definition recorded (es : list cevent) (k : K) (v : V) : Prop :=
  ∃ pre e post, es = pre ++ e :: post ∧ records k v e ∧ Forall (λ e', ends k e' = false) post.

Definition prov (w : world (K:=K) (L:=L)) : Prop :=
  (∀ k v, jget k (entries (sel (cs w))) = Some v → recorded (log w) k v) ∧
  (is_closed (cs w) = true → ∀ k, jget k (entries (sel (cs w))) = None).

Lemma recorded_app es e k v : recorded es k v → ends k e = false → recorded (es ++ [e]) k v.
Proof.
  intros (pre & e0 & post & -> & Hr & Hf) He. exists pre, e0, (post ++ [e]).
  rewrite <-app_assoc. split_and!; [done|done|]. apply Forall_app. split; [done|by constructor].
Qed.

Lemma prov_step w e : prov w → prov (wstep w e).
Proof.
  intros [Hp Hcl].
  assert (Hs : prov {| cs := cstep (cs w) e; given := given w; gtr := gtr w; log := log w ++ [e] |}).
  { split; simpl.
    - intros k v Hk. apply sel_step in Hk as [[Hk Hor]|[Hr _]].
      + apply recorded_app; [by apply Hp|]. destruct Hor as [|Hc]; [done|]. by rewrite Hcl in Hk.
      + exists (log w), e, []. split_and!; [done|done|constructor].
    - intros Hc k. destruct (jget k _) as [v|] eqn:Hk; [|done]. exfalso.
      apply sel_step in Hk as [[Hk Hor]|[Hr Ho]]; apply cstep_closed in Hc as [Hc| ->].
      + by rewrite Hcl in Hk.
      + destruct Hor as [Hor|Hc]; [by rewrite ends_close in Hor|]. by rewrite Hcl in Hk.
      + congruence.
      + by apply (records_close k v). }
  destruct e; try exact Hs; destruct Hs as [Hs1 Hs2]; simpl in Hs1, Hs2.
  - split; simpl; rewrite sel_guards; [exact Hs1|]. unfold observeKey, find_revision. intros Hc.
    apply Hs2. revert Hc. unfold is_closed. simpl. repeat case_match; simplify_eq/=; done.
  - split; simpl; rewrite sel_guards; [exact Hs1|]. intros Hc. apply Hs2. revert Hc.
    unfold is_closed. simpl. unfold releaseKey. repeat case_match; simplify_eq/=; done.
Qed.

Lemma prov_reachable o w : reachable wstep (new_cache o) w → prov w.
Proof.
  apply reachable_invariant; [|intros; by apply prov_step].
  split; rewrite sel_new; [|done]. intros k v. by rewrite (proj2 (jget_None k _)) by (simpl; set_solver).
Qed.
End provenance.

(** ** Shrinking a map *)

Definition subsumes {V} (sel : cstate → counted K V) (s s' : cstate) : Prop :=
  ∀ k v, jget k (entries (sel s')) = Some v → jget k (entries (sel s)) = Some v.

#[local] Instance subsumes_preorder {V} (sel : cstate → counted K V) : PreOrder (subsumes sel).
Proof. split; [by intros s k v|]. intros s1 s2 s3 H12 H23 k v Hk. by apply H12, H23. Qed.

Lemma saturate_sub s :
  subsumes negative s (saturateGenerationTracking s) ∧ subsumes stale s (saturateGenerationTracking s).
Proof.
  unfold saturateGenerationTracking. destruct (generationTrackingSaturated _); [by split|].
  split; by intros k v.
Qed.

Lemma storeGeneration_sub k g s :
  subsumes negative s (storeGeneration k g s) ∧ subsumes stale s (storeGeneration k g s).
Proof.
  unfold storeGeneration. destruct (_ || _); [apply saturate_sub|]. destruct (jhas _ _); [by split; intros k' v|].
  destruct (_ || _); [apply saturate_sub|]. destruct (opt_reserve _ _ _) as [b []]; [by split; intros k' v|].
  apply (saturate_sub (with_generations (generations s, b) s)).
Qed.

Lemma advance_sub k g s :
  subsumes negative s (advanceGenerationAfterDelete k g s) ∧ subsumes stale s (advanceGenerationAfterDelete k g s).
Proof. unfold advanceGenerationAfterDelete. destruct g; apply storeGeneration_sub. Qed.

Lemma removeNegative_sub (k : K) (s : cstate) k' v :
  jget k' (entries (negative (removeNegative k s))) = Some v → k' ≠ k ∧ jget k' (entries (negative s)) = Some v.
Proof. apply cremove_sub. Qed.

Lemma removeStale_sub (k : K) (s : cstate) k' v :
  jget k' (entries (stale (removeStale k s))) = Some v → k' ≠ k ∧ jget k' (entries (stale s)) = Some v.
Proof. apply cremove_sub. Qed.

(** The keys a pattern deletion leaves do not match. *)
Lemma matching_spared {V} p (m : counted K V) o (b : K * V → Z) cat k v :
  jget k (entries (remove_all cat b (matching String p m) (m, o)).1) = Some v →
  matchesPattern (String k) p = false ∧ jget k (entries m) = Some v.
Proof.
  intros [Hn Hg]%remove_all_sub. split; [|done]. simpl in Hg.
  destruct (matchesPattern (String k) p) eqn:E; [|done]. exfalso. apply Hn.
  apply list_elem_of_filter. split; [done|]. apply list_elem_of_fmap. exists (k, v).
  split; [done|]. by apply jget_Some_elem.
Qed.

(** ** Negative answers *)

Lemma setNegative_sub t (k : K) o (s : cstate) k' v :
  jget k' (entries (negative (setNegative String self t k o s))) = Some v →
  jget k' (entries (negative s)) = Some v ∨
  (records_negative k' v (ESetNegative k t o) ∧ is_closed s = false).
Proof.
  unfold setNegative. destruct (_ || _) eqn:Eo; [by left|]. bools.
  do 3 (case_match; [by left|]). set (ttl := pick self negativeCache nc_ttlMs o ?? _).
  set (mx := negativeMaxEntries self o). case_match.
  - intros Hk%evict_while_sub. by left.
  - match goal with |- context [evict_while ?c ?b ?f (cremove ?c ?b ?k ?x)] =>
      assert (Hsub : ∀ k' v, jget k' (entries (evict_while c b f (cremove c b k x)).1) = Some v →
        jget k' (entries (negative s)) = Some v) end.
    { intros k0 v0 Hk. apply evict_while_sub, cremove_sub in Hk as [_ Hk]. by apply evict_while_sub in Hk. }
    destruct (evict_while _ _ _ (cremove _ _ _ _)) as [m b]. simpl in Hsub.
    destruct (opt_reserve _ _ b) as [b' ok]. intros Hk. change (negative (with_negative ?x s)) with x.1 in Hk.
    simpl fst in Hk. destruct ok; [|left; by apply Hsub].
    apply cput_sub in Hk as [[-> ->]|Hk]; [|left; by apply Hsub]. right. split; [|done]. by exists t, o.
Qed.

Lemma hasNegative_sub t (k : K) (s : cstate) : subsumes negative s (hasNegative self t k s).1.
Proof.
  unfold hasNegative. destruct (_ || _); [done|]. destruct (jget k _) as [e|]; [|done].
  destruct (_ <=? t); [|done]. by intros k' v [_ Hk]%removeNegative_sub.
Qed.

Lemma start_load_answers (k : K) p t3 t4 o (s : cstate) :
  negative (start_load String self supports k p t3 t4 o s).1 = negative s ∧
  stale (start_load String self supports k p t3 t4 o s).1 = stale s.
Proof.
  unfold start_load. assert (Hr : negative (reserveInflight String self k s).1 = negative s ∧ stale (reserveInflight String self k s).1 = stale s).
  { unfold reserveInflight. repeat (case_match; [done|]). by repeat case_match. }
  by destruct (reserveInflight String self k s) as [s' [n|]].
Qed.

Lemma register_load_negative (k : K) p t0 t1 t2 t3 t4 o (s : cstate) :
  subsumes negative s (register_load String self supports k p t0 t1 t2 t3 t4 o s).1.
Proof.
  unfold register_load. destruct (is_closed s); [done|].
  assert (Hn : subsumes negative s (if invalidationTrusted s then hasNegative self t0 k s else (s, false)).1).
  { destruct (invalidationTrusted s); [apply hasNegative_sub|done]. }
  destruct (if invalidationTrusted s then _ else _) as [s1 absent]. simpl in Hn.
  destruct absent; [done|]. destruct (inflightDisabled self o); [done|].
  assert (Hp : negative (pruneInflightKey t1 k s1) = negative s1).
  { unfold pruneInflightKey. by repeat case_match. }
  intros k' v. destruct (jget k _) as [e|]; [destruct (negb _)|]; simpl;
    rewrite ?(proj1 (start_load_answers _ _ _ _ _ _)), ?Hp; apply Hn.
Qed.

Lemma rememberStale_negative t (k : K) payload o (s : cstate) :
  negative (rememberStale String self t k payload o s) = negative s.
Proof. unfold rememberStale. by repeat case_match. Qed.

Lemma restore_negative (s : cstate) : entries (negative (clearStale (clearNegative (clearInflight (bump s))))) = [].
Proof. done. Qed.

Lemma pattern_spared p (s : cstate) (k : K) :
  (∀ v, jget k (entries (negative (pattern_prefix String p s))) = Some v →
    matchesPattern (String k) p = false ∧ jget k (entries (negative s)) = Some v) ∧
  (∀ v, jget k (entries (stale (pattern_prefix String p s))) = Some v →
    matchesPattern (String k) p = false ∧ jget k (entries (stale s)) = Some v).
Proof.
  unfold pattern_prefix. set (s1 := with_inflight _ (bump s)).
  change (negative s) with (negative s1). change (stale s) with (stale s1). clearbody s1.
  split; intros v; [apply matching_spared|].
  set (s2 := with_negative _ s1). change (stale s1) with (stale s2). clearbody s2. apply matching_spared.
Qed.

(** Dispatch a step that leaves the map alone or only shrinks it. *)
Ltac kept Hkeep := apply Hkeep; [|done]; intros k' v'; try done.

Lemma negative_step (s : cstate) (e : cevent (K:=K)) (k : K) v :
  jget k (entries (negative (cstep s e))) = Some v →
  (jget k (entries (negative s)) = Some v ∧ (fills k e = false ∨ is_closed s = true)) ∨
  (records_negative k v e ∧ is_closed s = false).
Proof.
  assert (Hkeep : ∀ s', subsumes negative s s' → fills k e = false →
    jget k (entries (negative s')) = Some v →
    (jget k (entries (negative s)) = Some v ∧ (fills k e = false ∨ is_closed s = true)) ∨
    (records_negative k v e ∧ is_closed s = false)).
  { intros s' Hs' Hf Hk. left. split; [by apply Hs'|by left]. }
  assert (Hne : ∀ k', k ≠ k' → bool_decide (k' = k) = false) by (intros; by apply bool_decide_eq_false_2).
  destruct e; simpl cstep; try done; try (by kept Hkeep).
  - kept Hkeep. apply register_load_negative.
  - kept Hkeep. unfold load_settled. by case_match.
  - kept Hkeep. unfold pruneInflightKey. by repeat case_match.
  - kept Hkeep. unfold join_begin. by repeat case_match.
  - kept Hkeep. by case_match.
  - kept Hkeep. apply hasNegative_sub.
  - intros [Hk|Hk]%setNegative_sub; [left|by right]. split; [done|by left].
  - kept Hkeep. unfold getStale. by repeat case_match.
  - kept Hkeep. unfold evictOneStale. by repeat case_match.
  - kept Hkeep. by rewrite rememberStale_negative.
  - intros Hk. left. assert (Hk' : jget k (entries (negative (removeNegative key
      (rememberStale String self t key payload o s)))) = Some v) by (unfold written in Hk; by destruct primed).
    apply removeNegative_sub in Hk' as [Hkk Hk']. rewrite rememberStale_negative in Hk'.
    split; [done|left]. unfold fills. simpl. by apply Hne.
  - intros [Hkk Hk]%removeNegative_sub. left. split; [done|left]. unfold fills. simpl. by rewrite Hne.
  - unfold delete_prefix. intros Hk. apply advance_sub in Hk.
    change (negative (removeStale ?k0 ?s0)) with (negative s0) in Hk. apply removeNegative_sub in Hk as [Hkk Hk].
    left. split; [done|left]. unfold fills. simpl. by rewrite Hne.
  - intros [Hm Hk]%(proj1 (pattern_spared _ _ _)). left. split; [done|left]. unfold fills. simpl. by rewrite Hm.
  - kept Hkeep. unfold advanceGenerationAfterRemoteSet. destruct generation; [apply storeGeneration_sub|done].
  - kept Hkeep. unfold hasSeenEvent. by repeat case_match.
  - kept Hkeep. unfold markEventSeen. by repeat case_match.
  - unfold on_status. destruct (is_closed s) eqn:Ec; [intros Hk; left; by auto|].
    destruct status; try done; intros Hk; left; split; try done; by left.
  - kept Hkeep. unfold restore_end. by repeat case_match.
  - kept Hkeep. apply saturate_sub.
  - unfold closeResources. destruct (is_closed s) eqn:Ec; [intros Hk; left; by auto|done].
Qed.

(** ** Stale copies *)

Lemma rememberStale_sub t (k : K) payload o (s : cstate) k' v :
  jget k' (entries (stale (rememberStale String self t k payload o s))) = Some v →
  jget k' (entries (stale s)) = Some v ∨
  (k' = k ∧ payload = Some (encoded v) ∧ is_closed s = false ∧
   se_expiresAt v = t + (pick self failSafe fs_staleTtlMs o ?? DEFAULT_STALE_TTL_MS)).
Proof.
  unfold rememberStale. destruct (_ || _) eqn:Eo; [by left|]. bools. case_match; [by left|].
  destruct payload as [enc|]; [|by left].
  assert (Hsub : ∀ k0 v0, jget k0 (entries (stale (removeStale k s))) = Some v0 → jget k0 (entries (stale s)) = Some v0).
  { by intros k0 v0 [_ Hk]%removeStale_sub. }
  do 2 (case_match; [intros Hk; left; by apply Hsub|]).
  destruct (opt_reserve _ _ _) as [b ok]. destruct ok; simpl negb; [|intros Hk; left; by apply Hsub].
  intros Hk. apply evict_while_sub in Hk. simpl fst in Hk.
  apply cput_sub in Hk as [[-> ->]|Hk]; [right; by split_and!|left; by apply Hsub].
Qed.

Lemma stale_step (s : cstate) (e : cevent (K:=K)) (k : K) v :
  jget k (entries (stale (cstep s e))) = Some v →
  (jget k (entries (stale s)) = Some v ∧ (invalidates k e = false ∨ is_closed s = true)) ∨
  (records_stale k v e ∧ is_closed s = false).
Proof.
  assert (Hkeep : ∀ s', subsumes stale s s' → invalidates k e = false →
    jget k (entries (stale s')) = Some v →
    (jget k (entries (stale s)) = Some v ∧ (invalidates k e = false ∨ is_closed s = true)) ∨
    (records_stale k v e ∧ is_closed s = false)).
  { intros s' Hs' Hf Hk. left. split; [by apply Hs'|by left]. }
  assert (Hne : ∀ k', k ≠ k' → bool_decide (k' = k) = false) by (intros; by apply bool_decide_eq_false_2).
  destruct e; simpl cstep; try done; try (by kept Hkeep).
  - kept Hkeep. unfold register_load. destruct (is_closed s); [done|].
    assert (Hn : stale (if invalidationTrusted s then hasNegative self t0 key s else (s, false)).1 = stale s).
    { unfold hasNegative. by repeat case_match. }
    destruct (if invalidationTrusted s then _ else _) as [s1 absent]. simpl in Hn. rewrite <-Hn.
    destruct absent; [done|]. destruct (inflightDisabled self o); [done|].
    assert (Hp : stale (pruneInflightKey t1 key s1) = stale s1) by (unfold pruneInflightKey; by repeat case_match).
    rewrite <-Hp. destruct (jget key _) as [e|]; [destruct (negb _); [done|]|];
      by rewrite (proj2 (start_load_answers _ _ _ _ _ _)).
  - kept Hkeep. unfold load_settled. by case_match.
  - kept Hkeep. unfold pruneInflightKey. by repeat case_match.
  - kept Hkeep. unfold join_begin. by repeat case_match.
  - kept Hkeep. by case_match.
  - kept Hkeep. unfold hasNegative. by repeat case_match.
  - kept Hkeep. unfold setNegative. by repeat case_match.
  - kept Hkeep. unfold getStale. repeat case_match; try done. by intros [_ ?]%removeStale_sub.
  - kept Hkeep. unfold evictOneStale. case_match; [|done]. by intros [_ ?]%removeStale_sub.
  - intros [Hk|(-> & -> & Ho & He)]%rememberStale_sub.
    + left. split; [done|by left].
    + right. split; [|done]. exists t, o. auto.
  - intros Hk. assert (Hk' : jget k (entries (stale (rememberStale String self t key payload o s))) = Some v)
      by (unfold written in Hk; by destruct primed).
    apply rememberStale_sub in Hk' as [Hk'|(-> & -> & Ho & He)]; [left; split; [done|by left]|right].
    split; [|done]. exists t, o. split; [|done]. right. by exists primed.
  - intros [Hkk Hk]%removeStale_sub. left. split; [done|left]. simpl. by rewrite Hne.
  - unfold delete_prefix. intros Hk. apply advance_sub in Hk. apply removeStale_sub in Hk as [Hkk Hk].
    left. split; [done|left]. simpl. by rewrite Hne.
  - intros [Hm Hk]%(proj2 (pattern_spared _ _ _)). left. split; [done|left]. simpl. by rewrite Hm.
  - kept Hkeep. unfold advanceGenerationAfterRemoteSet. destruct generation; [apply storeGeneration_sub|done].
  - kept Hkeep. unfold hasSeenEvent. by repeat case_match.
  - kept Hkeep. unfold markEventSeen. by repeat case_match.
  - unfold on_status. destruct (is_closed s) eqn:Ec; [intros Hk; left; by auto|].
    destruct status; try done; intros Hk; left; split; try done; by left.
  - kept Hkeep. unfold restore_end. by repeat case_match.
  - kept Hkeep. apply saturate_sub.
  - unfold closeResources. destruct (is_closed s) eqn:Ec; [intros Hk; left; by auto|done].
Qed.

Lemma negative_recorded o w k v :
  reachable wstep (new_cache o) w → jget k (entries (negative (cs w))) = Some v →
  recorded fills records_negative (log w) k v.
Proof.
  intros Hr. apply (prov_reachable negative fills records_negative) with (o := o); try done.
  - by intros k0 v0 (? & ? & ? & _).
  - apply negative_step.
Qed.

Lemma stale_recorded o w k v :
  reachable wstep (new_cache o) w → jget k (entries (stale (cs w))) = Some v →
  recorded invalidates records_stale (log w) k v.
Proof.
  intros Hr. apply (prov_reachable stale invalidates records_stale) with (o := o); try done.
  - intros k0 v0 (? & ? & Hor & _). by destruct Hor as [|[? ?]].
  - apply stale_step.
Qed.

(** A negative answer is served only by an open cache that trusts its
    invalidations and generations, before its expiry, and only if an earlier
    load recorded the absence of that key and nothing has since written it,
    deleted it, matched it with a pattern, or broken or restored the trust. *)
Theorem negative_answer_justified o w k t :
  reachable wstep (new_cache o) w → (hasNegative self t k (cs w)).2 = true →
  is_closed (cs w) = false ∧ invalidationTrusted (cs w) = true ∧ safe self (cs w) = true ∧
  ∃ t0 opts pre post,
    log w = pre ++ ESetNegative k t0 opts :: post ∧
    t < t0 + (pick self negativeCache nc_ttlMs opts ?? DEFAULT_NEGATIVE_TTL_MS) ∧
    Forall (λ e, fills k e = false) post.
Proof.
  intros Hr. unfold hasNegative. destruct (_ || _) eqn:Eo; [done|]. bools.
  destruct (jget k _) as [v|] eqn:Ek; [|done]. destruct (_ <=? t) eqn:Et; [done|]. bools. intros _.
  split_and!; try done. destruct (negative_recorded o w k v Hr Ek) as (pre & e & post & Hl & Hrec & Hf).
  destruct Hrec as (t0 & opts & -> & He). exists t0, opts, pre, post. split_and!; [done|lia|done].
Qed.

(** C34: A stale copy is served only by an open cache that trusts its
    invalidations and generations, before its expiry; it is the very encoding
    that an earlier hit or write of that key recorded, and nothing has since
    deleted the key, matched it with a pattern, or broken or restored the
    trust. *)
Theorem stale_answer_justified o w k t enc :
  reachable wstep (new_cache o) w → (getStale self t k (cs w)).2 = Some enc →
  is_closed (cs w) = false ∧ invalidationTrusted (cs w) = true ∧ safe self (cs w) = true ∧
  ∃ t0 opts pre e post,
    log w = pre ++ e :: post ∧
    (e = EHit k (Some enc) t0 opts ∨ ∃ primed, e = EWritten k (Some enc) t0 opts primed) ∧
    t < t0 + (pick self failSafe fs_staleTtlMs opts ?? DEFAULT_STALE_TTL_MS) ∧
    Forall (λ e, invalidates k e = false) post.
Proof.
  intros Hr. unfold getStale. destruct (_ || _) eqn:Eo; [done|]. bools.
  destruct (jget k _) as [v|] eqn:Ek; [|done]. destruct (_ <=? t) eqn:Et; [done|]. bools. intros [= <-].
  split_and!; try done. destruct (stale_recorded o w k v Hr Ek) as (pre & e & post & Hl & Hrec & Hf).
  destruct Hrec as (t0 & opts & Hor & He). exists t0, opts, pre, e, post. split_and!; [done|done|lia|done].
Qed.
End answers.

(** ** The bounds of the negative and the stale entries

    They are options of each call, so a call bounds what it leaves behind and
    the maps stay within the largest bounds of the calls so far. *)

Section bounds.
Context {K : Type} `{EqDecision K} {L : Type} `{Ledger L}.
Context (String : K → jsstring) (self : CacheOptions Z) (supports : bool)
  (dedupeMaxEntries dedupeTtlMs : option Z).
Abbreviation cstate := (cstate (K:=K) (L:=L)).
Abbreviation cstep := (cstep String self supports dedupeMaxEntries dedupeTtlMs).
Abbreviation wstep := (wstep String self supports dedupeMaxEntries dedupeTtlMs).

(** No call allows more than [n] negative entries, [m] stale copies, [b] bytes. *)
Definition within (n m b : Z) (e : cevent (K:=K)) : bool :=
  match e with
  | ESetNegative _ _ o => negativeMaxEntries self o <=? n
  | EHit _ _ _ o | EWritten _ _ _ o _ => (staleMaxEntries self o <=? m) && (staleMaxBytes self o <=? b)
  | _ => true
  end.

Definition within_bounds (n m b : Z) (s : cstate) : Prop :=
  jsize (entries (negative s)) <= Z.max 1 n ∧ jsize (entries (stale s)) <= Z.max 0 m ∧ total (stale s) <= Z.max 0 b.

Lemma jset_size {V} k (v : V) (m : list (K * V)) : jsize (jset k v m) <= jsize m + 1.
Proof.
  unfold jset, jsize. destruct (jhas k m); [rewrite length_map|rewrite length_app; simpl]; lia.
Qed.

(** A map with fewer entries is smaller. *)
Lemma fewer {V} (b : K * V → Z) (m m' : counted K V) :
  counted_ok b 0 m → counted_ok b 0 m' → (∀ k v, jget k (entries m') = Some v → jget k (entries m) = Some v) →
  jsize (entries m') <= jsize (entries m) ∧ total m' <= total m.
Proof.
  intros [Hk -> Hp] [Hk' -> _] Hsub.
  assert (Hs : entries m' ⊆+ entries m).
  { apply NoDup_submseteq; [by eapply NoDup_fmap_1|]. intros [k v] Hin. apply jget_Some_elem, Hsub. by apply jget_elem. }
  apply submseteq_Permutation in Hs as [rest Hs]. rewrite (sumZ_perm b _ _ Hs), sumZ_app.
  unfold jsize. apply Permutation_length in Hs as Hl. rewrite Hl, length_app.
  assert (0 <= sumZ b rest) by (apply sumZ_nonneg; intros a Ha; apply Hp; rewrite Hs; set_solver). lia.
Qed.

Context (cb sb : Z) (Hcb : 0 <= cb) (Hsb : 0 <= sb).
Abbreviation csinv := (csinv String self dedupeMaxEntries cb sb).

(** What [setNegative] leaves: no new entry, or at most as many as its call allows. *)
Lemma setNegative_size agrees t (k : K) o (s : cstate) gs tr :
  csinv agrees s gs tr →
  jsize (entries (negative (setNegative String self t k o s))) <=
    Z.max (jsize (entries (negative s))) (Z.max 1 (negativeMaxEntries self o)).
Proof.
  intros Hi. unfold setNegative. repeat (case_match; [lia|]).
  destruct (negative_pre _ _ _ _ _ Hcb Hsb _ _ _ _ Hi) as [Hr Ho]. destruct (cs_negative _ _ _ _ _ _ _ _ _ Hi) as [Hm _].
  set (mx := negativeMaxEntries self o) in *. set (ttl := pick self negativeCache nc_ttlMs o ?? _).
  set (rest := acct cb s - total (negative s)) in *.
  destruct (evict_while_ok meta negative_bytes rest 0 (λ m, mx <=? jsize (entries m)) (negative s, budget s)) as [Hs1 He1]; try done.
  set (x1 := evict_while _ _ _ _) in *. pose proof Hs1 as (Hm1 & Ho1 & _ & _ & Hl1 & _).
  destruct (_ <? keyMetadataBytes String k); [simpl; unfold jsize; simpl in *; lia|].
  destruct (cremove_ok meta negative_bytes rest 0 k x1) as [Hs2 _]; try done.
  set (x2 := cremove _ _ _ _) in *. pose proof Hs2 as (Hm2 & Ho2 & _ & _ & Hl2 & _).
  set (cond := λ m, _ <? total m + _).
  destruct (evict_while_ok meta negative_bytes rest 0 cond x2) as [Hs3 _]; try done.
  destruct Hs3 as (_ & _ & _ & _ & Hl3 & _). destruct (evict_while meta negative_bytes cond x2) as [m b].
  destruct (opt_reserve _ _ _) as [b' ok]. simpl in *.
  assert (Hnew : jsize (entries m) + 1 <= Z.max 1 mx).
  { unfold jsize in *. destruct He1 as [He1|He1]; [bools; lia|]. rewrite He1 in Hl2. simpl in *. lia. }
  destruct ok; simpl; [|lia].
  pose proof (jset_size k {| ne_expiresAt := t + ttl; ne_bytes := keyMetadataBytes String k |} (entries m)). lia.
Qed.

(** What [rememberStale] leaves: no new entry, or no more than its call allows. *)
Lemma rememberStale_size agrees t (k : K) payload o (s : cstate) gs tr :
  csinv agrees s gs tr →
  let s' := rememberStale String self t k payload o s in
  (jsize (entries (stale s')) <= jsize (entries (stale s)) ∧ total (stale s') <= total (stale s)) ∨
  (jsize (entries (stale s')) <= Z.max 0 (staleMaxEntries self o) ∧ total (stale s') <= Z.max 0 (staleMaxBytes self o)).
Proof.
  intros Hi. cbv zeta. unfold rememberStale. repeat (case_match; [left; lia|]). destruct payload as [enc|]; [|left; lia].
  pose proof (removeStale_ok _ _ _ _ _ Hsb _ k _ _ _ Hi) as Hi'. pose proof (removeStale_gone _ _ _ _ _ _ k _ _ _ Hi) as Hk.
  assert (Hrem : jsize (entries (stale (removeStale k s))) <= jsize (entries (stale s)) ∧ total (stale (removeStale k s)) <= total (stale s)).
  { eapply (fewer stale_bytes); [apply Hi|apply Hi'|]. by intros k' v [_ ?]%removeStale_sub. }
  set (s' := removeStale k s) in *. repeat (case_match; [by left|]).
  set (n := Z.of_nat (length enc) + utf8_length (String k) * 2 + 80).
  assert (Hn : 0 <= n) by (pose proof (utf8_length_nonneg (String k)); unfold n; lia).
  destruct (opt_reserve "stale" n (budget s')) as [b ok] eqn:Er.
  pose proof (cs_stale_budget _ _ _ _ _ _ _ _ _ Hi') as Ho. pose proof (cs_stale _ _ _ _ _ _ _ _ _ Hi') as Hm.
  eapply opt_reserve_ok in Er as [Ho' _]; [|done|exact Ho]. destruct ok; simpl; [|by left]. right.
  set (v := {| encoded := enc; se_bytes := n; se_expiresAt := _ |}).
  assert (Hput : counted_ok stale_bytes 0 (cput stale_bytes k v (stale s'))) by by apply cput_ok.
  match goal with |- context [evict_while "stale" stale_bytes ?c ?x] =>
    destruct (evict_while_ok "stale" stale_bytes sb 0 c x) as [(Hm' & _) Hend]; try done end.
  { simpl. by rewrite Z.add_assoc. }
  destruct (evict_while _ _ _ _) as [m b']. simpl in *. destruct Hend as [Hend|Hnil]; [bools; lia|].
  rewrite (co_total _ _ _ Hm'), Hnil. unfold jsize. simpl. lia.
Qed.

Lemma cstep_within n m b agrees s e gs tr :
  csinv agrees s gs tr → within n m b e = true → within_bounds n m b s → within_bounds n m b (cstep s e).
Proof.
  intros Hi He (Hn & Hm & Hb).
  pose proof (cstep_ok String self supports dedupeMaxEntries dedupeTtlMs cb sb Hcb Hsb _ s e _ _ Hi) as Hi'.
  assert (Hneg : (∀ k v, jget k (entries (negative (cstep s e))) = Some v → jget k (entries (negative s)) = Some v) →
    jsize (entries (negative (cstep s e))) <= Z.max 1 n).
  { intros Hs. destruct (fewer negative_bytes (negative s) (negative (cstep s e))) as [Hj _];
      [apply (cs_negative _ _ _ _ _ _ _ _ _ Hi)|apply (cs_negative _ _ _ _ _ _ _ _ _ Hi')|exact Hs|lia]. }
  assert (Hst : (∀ k v, jget k (entries (stale (cstep s e))) = Some v → jget k (entries (stale s)) = Some v) →
    jsize (entries (stale (cstep s e))) <= Z.max 0 m ∧ total (stale (cstep s e)) <= Z.max 0 b).
  { intros Hs. destruct (fewer stale_bytes (stale s) (stale (cstep s e))) as [Hj Ht];
      [apply (cs_stale _ _ _ _ _ _ _ _ _ Hi)|apply (cs_stale _ _ _ _ _ _ _ _ _ Hi')|exact Hs|lia]. }
  assert (Hrem : ∀ t k payload o, (staleMaxEntries self o <=? m) && (staleMaxBytes self o <=? b) = true →
    stale (cstep s e) = stale (rememberStale String self t k payload o s) →
    jsize (entries (stale (cstep s e))) <= Z.max 0 m ∧ total (stale (cstep s e)) <= Z.max 0 b).
  { intros t k payload o Ho ->. bools. pose proof (rememberStale_size _ t k payload o s _ _ Hi). cbv zeta in *. lia. }
  split.
  - destruct e; try (apply Hneg; intros k' v [[? _]|[(? & ? & [=] & _) _]]%negative_step; done).
    simpl in He |- *. bools. pose proof (setNegative_size _ t key o s _ _ Hi). lia.
  - destruct e; try (apply Hst; intros k' v [[? _]|[(? & ? & [[=]|(? & [=])] & _) _]]%stale_step; done).
    + by apply (Hrem t key payload o).
    + apply (Hrem t key payload o); [done|]. simpl. unfold written. by destruct primed.
Qed.

Lemma within_reachable o w n m b :
  holds meta cb o → holds "stale" sb o → reachable wstep (new_cache o) w →
  forallb (within n m b) (log w) = true → within_bounds n m b (cs w).
Proof.
  intros Hm Hs Hr.
  cut (winv String self dedupeMaxEntries cb sb w ∧ (forallb (within n m b) (log w) = true → within_bounds n m b (cs w))); [by intros [_ ?]|].
  revert w Hr. apply reachable_invariant.
  { split; [by apply (new_cache_ok String self dedupeMaxEntries cb sb Hcb)|]. intros _. unfold within_bounds, jsize. simpl. lia. }
  intros w e [Hi Hb]. split; [by apply wstep_ok|].
  assert (Hlog : log (wstep w e) = log w ++ [e]) by by destruct e.
  rewrite Hlog, forallb_app. intros [Hw He]%andb_true_iff. simpl in He. rewrite andb_true_r in He. specialize (Hb Hw).
  destruct e; try (by eapply cstep_within); done.
Qed.

(** C19: in every history of the cache's coordination state the memory budget
    holds exactly the six counters of the coordination category and the stale
    bytes. The counters of followers, negative entries, stale copies,
    generations and seen events are the sums over what they count; the in-flight
    counter is at least the sum over its map, and equal to it as long as the two
    expiry checks of each registration have read the same clock value. In-flight,
    negative and seen bytes stay within 2 MiB, generation bytes within theirs,
    and the entries of each map within its limit: the cache's for loads in
    flight, followers, generations and seen events, and for negative entries and
    stale copies the largest one that a call so far has used. *)
Theorem coordination_accounted o w :
  holds meta cb o → holds "stale" sb o → reachable wstep (new_cache o) w →
  let s := cs w in
  holds meta (cb + (total (inflight s) + followerBytes s + total (negative s) + total (generations s)
                    + total (seenEvents s) + keyRevisionBytes (c_guards s))) (budget s) ∧
  holds "stale" (sb + total (stale s)) (budget s) ∧
  sumZ inflight_bytes (entries (inflight s)) <= total (inflight s) <= MAX_AUXILIARY_MAP_BYTES ∧
  (agrees_all (log w) = true → total (inflight s) = sumZ inflight_bytes (entries (inflight s))) ∧
  jsize (entries (inflight s)) <= Z.max 0 (maxInflight self) ∧
  followerBytes s = FOLLOWER_METADATA_BYTES * activeFollowers s ∧
  0 <= activeFollowers s <= Z.max 0 (maxWaiters self) ∧
  total (negative s) = sumZ negative_bytes (entries (negative s)) ∧
  total (negative s) <= MAX_AUXILIARY_MAP_BYTES ∧
  total (stale s) = sumZ stale_bytes (entries (stale s)) ∧
  total (generations s) = sumZ string_entry_bytes (entries (generations s)) ∧
  total (generations s) <= MAX_GENERATION_BYTES ∧ jsize (entries (generations s)) <= MAX_GENERATION_ENTRIES ∧
  total (seenEvents s) = sumZ string_entry_bytes (entries (seenEvents s)) ∧
  total (seenEvents s) <= MAX_AUXILIARY_MAP_BYTES ∧
  jsize (entries (seenEvents s)) <= Z.max 0 (getEventDedupeMaxEntries dedupeMaxEntries) ∧
  ∀ n m b, forallb (within n m b) (log w) = true →
    jsize (entries (negative s)) <= Z.max 1 n ∧ jsize (entries (stale s)) <= Z.max 0 m ∧ total (stale s) <= Z.max 0 b.
Proof.
  intros Hm Hs Hr. pose proof (winv_reachable String self supports dedupeMaxEntries dedupeTtlMs cb sb Hcb Hsb o w Hm Hs Hr) as Hi. simpl. pose proof (cs_meta _ _ _ _ _ Hi) as Ho.
  unfold acct, own in Ho. rewrite <-Z.add_assoc in Ho.
  destruct (cs_inflight _ _ _ _ _ _ _ _ _ Hi) as (sl & ? & Ha & Hc). pose proof (co_total _ _ _ Hc) as Hct.
  destruct (cs_inflight_max _ _ _ _ _ _ _ _ _ Hi), (cs_followers _ _ _ _ _ _ _ _ _ Hi), (cs_negative _ _ _ _ _ _ _ _ _ Hi) as [Hn ?],
    (cs_generations _ _ _ _ _ _ _ _ _ Hi) as (Hg & ? & ?), (cs_seen _ _ _ _ _ _ _ _ _ Hi) as (Hse & ? & ?).
  pose proof (co_total _ _ _ Hn). pose proof (co_total _ _ _ Hg). pose proof (co_total _ _ _ Hse).
  pose proof (co_total _ _ _ (cs_stale _ _ _ _ _ _ _ _ _ Hi)).
  pose proof (cs_stale_budget _ _ _ _ _ _ _ _ _ Hi) as Hsb'. pose proof (co_pos _ _ _ Hc).
  assert (Heq : agrees_all (log w) = true → total (inflight (cs w)) = sumZ inflight_bytes (entries (inflight (cs w)))).
  { intros Hag%Ha. lia. }
  split; [exact Ho|]. split; [exact Hsb'|]. split; [lia|]. split; [exact Heq|].
  repeat (split; [assumption || lia|]). intros n m b Hw. by apply (within_reachable o w).
Qed.
End bounds.

(** ** Witnesses *)

Definition demo_budget : option MemoryBudget := newMemoryBudget 10000 None.

Lemma demo_budget_holds c : c ∈ ["coordination-metadata"; "stale"]%string → holds c 0 demo_budget.
Proof.
  intros Hc. split; [by apply (newMemoryBudget_ok 10000 None)|].
  apply elem_of_cons in Hc as [->|Hc]; [done|]. by apply list_elem_of_singleton in Hc as ->.
Qed.

(** A shared load, a follower, an absent key, a stale copy, a seen event. *)
Definition demo_run : list (cevent (K:=jsstring)) :=
  [ERegister (js "a") 1 0 0 0 0 0 no_options; EJoin no_options; ESetNegative (js "b") 5 no_options;
   EObserve (js "c") true; EWritten (js "c") (Some [1; 2; 3]) 6 no_options false;
   EDelete (js "d") None; EMarkSeen (js "e1") 7].

Definition demo_cache : world (K:=jsstring) :=
  run_events (wstep id no_options false None None) (new_cache demo_budget) demo_run.

Lemma coordination_accounted_witness :
  total (inflight (cs demo_cache)) = 98 ∧ total (negative (cs demo_cache)) = 98 ∧
  total (stale (cs demo_cache)) = 85 ∧
  holds "coordination-metadata" (98 + 160 + 98 + 98 + 100 + 98) (budget (cs demo_cache)) ∧
  holds "stale" 85 (budget (cs demo_cache)).
Proof.
  destruct (coordination_accounted id no_options false None None 0 0 ltac:(done) ltac:(done) demo_budget demo_cache)
    as (Hm & Hs & _).
  - apply demo_budget_holds. by left.
  - apply demo_budget_holds. right. by left.
  - apply reachable_run.
  - split; [vm_compute; reflexivity|]. split; [vm_compute; reflexivity|]. split; [vm_compute; reflexivity|].
    split; [exact Hm|exact Hs].
Defined.

Lemma close_gives_back_witness :
  is_closed (cs demo_cache) = false ∧
  holds "coordination-metadata" 160 (budget (closeResources (cs demo_cache))) ∧
  holds "stale" 0 (budget (closeResources (cs demo_cache))).
Proof.
  assert (Ho : is_closed (cs demo_cache) = false) by (vm_compute; reflexivity).
  destruct (close_gives_back id no_options false None None 0 0 ltac:(done) ltac:(done) demo_budget demo_cache)
    as (_ & _ & _ & _ & _ & _ & _ & Hm & Hs).
  - apply demo_budget_holds. by left.
  - apply demo_budget_holds. right. by left.
  - apply reachable_run.
  - exact Ho.
  - split; [exact Ho|]. split; [exact Hm|exact Hs].
Defined.

Lemma negative_answer_justified_witness :
  (hasNegative no_options 100 (js "b") (cs demo_cache)).2 = true ∧
  ∃ t0 opts pre post, demo_run = pre ++ ESetNegative (js "b") t0 opts :: post ∧
    Forall (λ e, fills id (js "b") e = false) post.
Proof.
  assert (Hn : (hasNegative no_options 100 (js "b") (cs demo_cache)).2 = true) by (vm_compute; reflexivity).
  split; [exact Hn|].
  destruct (negative_answer_justified id no_options false None None demo_budget demo_cache (js "b") 100)
    as (_ & _ & _ & t0 & opts & pre & post & Hl & _ & Hf); [apply reachable_run|exact Hn|].
  exists t0, opts, pre, post. split; [|exact Hf]. rewrite <-Hl. vm_compute. reflexivity.
Defined.

Lemma stale_answer_justified_witness :
  (getStale no_options 100 (js "c") (cs demo_cache)).2 = Some [1; 2; 3] ∧
  ∃ t0 opts pre e post, demo_run = pre ++ e :: post ∧
    (e = EHit (js "c") (Some [1; 2; 3]) t0 opts ∨ ∃ primed, e = EWritten (js "c") (Some [1; 2; 3]) t0 opts primed) ∧
    Forall (λ e, invalidates id (js "c") e = false) post.
Proof.
  assert (Hn : (getStale no_options 100 (js "c") (cs demo_cache)).2 = Some [1; 2; 3]) by (vm_compute; reflexivity).
  split; [exact Hn|].
  destruct (stale_answer_justified id no_options false None None demo_budget demo_cache (js "c") 100 [1; 2; 3])
    as (_ & _ & _ & t0 & opts & pre & e & post & Hl & Hor & _ & Hf); [apply reachable_run|exact Hn|].
  exists t0, opts, pre, e, post. split; [|by split]. rewrite <-Hl. vm_compute. reflexivity.
Defined.

(** Two entries of 96 bytes; the loop is to leave at most one. *)
Lemma evict_while_terminates_witness :
  let m := {| entries := [(1, {| ne_expiresAt := 9; ne_bytes := 96 |}); (2, {| ne_expiresAt := 9; ne_bytes := 96 |})];
              total := 192 |} in
  let cond := λ m : counted Z NegativeEntry, 1 <? jsize (entries m) in
  let y := evict_steps meta negative_bytes cond 7 (m, None : option MemoryBudget) in
  total y.1 = 96 ∧ y = evict_while meta negative_bytes cond (m, None).
Proof.
  intros m cond y. split; [vm_compute; reflexivity|].
  apply (evict_while_terminates meta negative_bytes cond (m, None : option MemoryBudget) 7); [|simpl; lia].
  apply (bool_decide_unpack _). vm_compute. exact I.
Defined.

(** When the two expiry checks of a registration straddle the expiry, the old
    entry is replaced without giving its bytes back: one entry, two charges. *)
Example straddled_expiry_leaks :
  let w := run_events (wstep id no_options false None None) (new_cache demo_budget)
    [ERegister (js "a") 1 0 0 0 0 0 no_options; ERegister (js "a") 2 0 10049 10050 10050 10050 no_options] in
  jsize (entries (inflight (cs w))) = 1 ∧ total (inflight (cs w)) = 196.
Proof. vm_compute. done. Qed.

(** A write whose call switches the fail-safe off leaves the older stale copy
    in place. *)
Example older_copy_survives :
  let off := {| ttlMs := None; inflight_options := None; originLoad := None; negativeCache := None;
                failSafe := Some {| fs_enabled := Some false; fs_staleTtlMs := None; fs_maxEntries := None; fs_maxBytes := None |};
                timeouts := None; versioning := None; distributedLock := None |} in
  let w := run_events (wstep id no_options false None None) (new_cache demo_budget)
    [EWritten (js "c") (Some [1]) 0 no_options false; EWritten (js "c") (Some [2]) 1 off false] in
  (getStale no_options 2 (js "c") (cs w)).2 = Some [1].
Proof. vm_compute. done. Qed.
