(* ===== verification/Lru.v ===== *)
(** * The LRU cache interface

    The in-memory store keeps its entries in an [LRUCache] of the [lru-cache]
    package, which is not part of the repository. This class states what the
    store relies on, as that package documents it: every operation works on a
    set of resident entries with distinct keys, hands each entry that leaves to
    the [dispose] callback exactly once, and never holds more entries than its
    maximal size. A clock reading is an argument of each operation that looks
    at expiry. [ListLru] at the end is an instance, for the witnesses. *)

From S2P Require Import Prelude JsMap.

Class LruOps (K V C : Type) := {
  (** every resident entry, expired or not, least recently used first: [rentries] with [allowStale] *)
  lru_entries : C → list (K * V);
  (** [getRemainingTTL(key)]; [None] is infinity *)
  lru_remaining : Z → K → C → option Z;
  lru_peek : Z → K → C → option V;
  lru_get : Z → K → C → C * option V * list V;
  lru_set : Z → K → V → Z → C → C * list V;
  lru_delete : K → C → C * list V;
  lru_pop : C → C * option V * list V;
  lru_has : Z → K → C → bool;
  lru_keys : Z → C → list K;
  lru_purgeStale : Z → C → C * list V;
  lru_clear : C → C * list V;
}.

(** [c'] is [c] after the entries [d] have left. *)
Definition lru_drops {K V C} `{LruOps K V C} (c c' : C) (d : list V) : Prop :=
  (lru_entries c).*2 ≡ₚ (lru_entries c').*2 ++ d ∧ ∀ e, e ∈ lru_entries c' → e ∈ lru_entries c.

Class Lru (K V C : Type) `{EqDecision K} `{LruOps K V C} (max : Z) := {
  lru_ok : C → Prop;
  lru_nodup c : lru_ok c → jmap_ok (lru_entries c);
  lru_bound c : lru_ok c → jsize (lru_entries c) <= max;
  lru_peek_entry t k v c : lru_ok c → lru_peek t k c = Some v → (k, v) ∈ lru_entries c;
  (** time only expires entries *)
  lru_peek_earlier t t' k v c : t <= t' → lru_peek t' k c = Some v → lru_peek t k c = Some v;
  lru_get_ok t k c : lru_ok c →
    let '(c', r, d) := lru_get t k c in
    lru_ok c' ∧ lru_drops c c' d ∧ ∀ v, r = Some v → (k, v) ∈ lru_entries c';
  (** setting a key that is not resident *)
  lru_set_ok t k v ttl c : lru_ok c → jget k (lru_entries c) = None →
    let '(c', d) := lru_set t k v ttl c in
    lru_ok c' ∧ v :: (lru_entries c).*2 ≡ₚ (lru_entries c').*2 ++ d ∧
    ∀ e, e ∈ lru_entries c' → e = (k, v) ∨ e ∈ lru_entries c;
  lru_delete_ok k c : lru_ok c →
    let '(c', d) := lru_delete k c in
    lru_ok c' ∧ lru_drops c c' d ∧ jget k (lru_entries c') = None;
  lru_pop_ok c : lru_ok c →
    let '(c', r, d) := lru_pop c in
    lru_ok c' ∧ lru_drops c c' d ∧ (r = None → lru_entries c' = []);
  lru_purge_ok t c : lru_ok c → let '(c', d) := lru_purgeStale t c in lru_ok c' ∧ lru_drops c c' d;
  lru_clear_ok c : lru_ok c →
    let '(c', d) := lru_clear c in lru_ok c' ∧ lru_drops c c' d ∧ lru_entries c' = [];
}.

(** Every reading of [c'], whenever it is made, could have been made of [c]. *)
Definition peeks_from {K V C} `{LruOps K V C} (c c' : C) : Prop :=
  ∀ t k v, lru_peek t k c' = Some v → lru_peek t k c = Some v.

(** What readings say of an operation: an entry that stays keeps its deadline,
    setting a key leaves the others alone, and [keys] misses no live entry. *)
Class LruPeeks (K V C : Type) (max : Z) `{Lru K V C max} := {
  lru_get_peeks t k c : lru_ok c → peeks_from c (lru_get t k c).1.1;
  lru_get_live t k c v : lru_ok c → (lru_get t k c).1.2 = Some v → lru_peek t k c = Some v;
  lru_delete_peeks k c : lru_ok c → peeks_from c (lru_delete k c).1;
  lru_pop_peeks c : lru_ok c → peeks_from c (lru_pop c).1.1;
  lru_purge_peeks t c : lru_ok c → peeks_from c (lru_purgeStale t c).1;
  lru_set_peeks t k v ttl c k' t' v' : lru_ok c → jget k (lru_entries c) = None → k' ≠ k →
    lru_peek t' k' (lru_set t k v ttl c).1 = Some v' → lru_peek t' k' c = Some v';
  lru_keys_live t k c v : lru_ok c → lru_peek t k c = Some v → k ∈ lru_keys t c;
}.

(** ** An instance: a list of entries with deadlines, least recent first *)

Section ListLru.
Context {K V : Type} `{EqDecision K} (max : Z) (max_pos : 1 <= max).

Record list_lru := { ll_entries : list (K * (V * Z)) }.

Definition ll_plain (c : list_lru) : list (K * V) := (λ e, (e.1, e.2.1)) <$> ll_entries c.
Definition ll_live (t : Z) (e : K * (V * Z)) : bool := t <? e.2.2.

Definition ll_peek (t : Z) (k : K) (c : list_lru) : option V :=
  match jget k (ll_entries c) with Some (v, d) => if t <? d then Some v else None | None => None end.

Definition ll_delete (k : K) (c : list_lru) : list_lru * list V :=
  ({| ll_entries := jdel k (ll_entries c) |}, from_option (λ v, [v.1]) [] (jget k (ll_entries c))).

Definition ll_get (t : Z) (k : K) (c : list_lru) : list_lru * option V * list V :=
  match jget k (ll_entries c) with
  | Some (v, d) =>
      if t <? d then ({| ll_entries := jdel k (ll_entries c) ++ [(k, (v, d))] |}, Some v, [])
      else ({| ll_entries := jdel k (ll_entries c) |}, None, [v])
  | None => (c, None, [])
  end.

Definition ll_pop (c : list_lru) : list_lru * option V * list V :=
  match ll_entries c with
  | [] => (c, None, [])
  | (_, (v, _)) :: es => ({| ll_entries := es |}, Some v, [v])
  end.

Definition ll_set (t : Z) (k : K) (v : V) (ttl : Z) (c : list_lru) : list_lru * list V :=
  let '(c1, d1) := ll_delete k c in
  let '(c2, d2) := if jsize (ll_entries c1) <? max then (c1, []) else let '(c', _, d) := ll_pop c1 in (c', d) in
  ({| ll_entries := ll_entries c2 ++ [(k, (v, t + ttl))] |}, d1 ++ d2).

Definition ll_purge (t : Z) (c : list_lru) : list_lru * list V :=
  ({| ll_entries := filter (λ e, ll_live t e = true) (ll_entries c) |},
   (λ e, e.2.1) <$> filter (λ e, ¬ ll_live t e = true) (ll_entries c)).

#[export] Instance list_lru_ops : LruOps K V list_lru := {
  lru_entries := ll_plain;
  lru_remaining := λ t k c, Some (match jget k (ll_entries c) with Some (_, d) => d - t | None => 0 end);
  lru_peek := ll_peek;
  lru_get := ll_get;
  lru_set := ll_set;
  lru_delete := ll_delete;
  lru_pop := ll_pop;
  lru_has := λ t k c, bool_decide (is_Some (ll_peek t k c));
  lru_keys := λ t c, rev (fst <$> filter (λ e, ll_live t e = true) (ll_entries c));
  lru_purgeStale := ll_purge;
  lru_clear := λ c, ({| ll_entries := [] |}, (ll_plain c).*2);
}.

Definition ll_ok (c : list_lru) : Prop := jmap_ok (ll_entries c) ∧ jsize (ll_entries c) <= max.

Lemma ll_keys_plain c : (ll_plain c).*1 = (ll_entries c).*1.
Proof. unfold ll_plain. rewrite <-list_fmap_compose. by apply list_fmap_ext. Qed.

Lemma ll_values_plain c : (ll_plain c).*2 = (λ e, e.2.1) <$> ll_entries c.
Proof. unfold ll_plain. by rewrite <-list_fmap_compose. Qed.

Lemma ll_plain_elem c k v : (k, v) ∈ ll_plain c ↔ ∃ d, (k, (v, d)) ∈ ll_entries c.
Proof.
  unfold ll_plain. rewrite list_elem_of_fmap. split.
  - intros ((k' & v' & d) & [= -> ->] & Hin). by exists d.
  - intros (d & Hin). by exists (k, (v, d)).
Qed.

Lemma ll_jget k c : jget k (ll_plain c) = fst <$> jget k (ll_entries c).
Proof.
  unfold ll_plain. destruct c as [es]. simpl. induction es as [|[k' [v d]] es IH]; [done|].
  rewrite fmap_cons. simpl. rewrite !jget_cons, IH. by case_bool_decide.
Qed.

Lemma ll_subset c c' :
  (∀ e, e ∈ ll_entries c' → e ∈ ll_entries c) → ∀ e, e ∈ lru_entries c' → e ∈ lru_entries c.
Proof. intros Hs [k v] (d & Hin)%ll_plain_elem. apply ll_plain_elem. exists d. by apply Hs. Qed.

Lemma ll_drops c c' d :
  (λ e, e.2.1) <$> ll_entries c ≡ₚ ((λ e, e.2.1) <$> ll_entries c') ++ d →
  (∀ e, e ∈ ll_entries c' → e ∈ ll_entries c) → lru_drops c c' d.
Proof.
  intros Hp Hs. split; [|by apply ll_subset]. change (lru_entries ?x) with (ll_plain x).
  by rewrite !ll_values_plain.
Qed.

Lemma ll_delete_ok k c : ll_ok c →
  let '(c', d) := ll_delete k c in ll_ok c' ∧ lru_drops c c' d ∧ jget k (ll_plain c') = None.
Proof.
  intros [Hk Hm]. unfold ll_delete. split_and!; simpl.
  - split; simpl; [by apply jdel_ok|]. destruct (jget k (ll_entries c)) as [v|] eqn:E.
    + rewrite (jsize_del k v) by done. lia.
    + by rewrite jdel_absent.
  - apply ll_drops; simpl.
    + destruct (jget k (ll_entries c)) as [[v d]|] eqn:E; simpl.
      * rewrite (jdel_present k (v, d) _ Hk E) at 1. simpl. apply Permutation_cons_append.
      * by rewrite jdel_absent, app_nil_r.
    + by intros e [_ ?]%list_elem_of_filter.
  - rewrite ll_jget. simpl. by rewrite jget_del_eq.
Qed.

Lemma ll_pop_ok c : ll_ok c →
  let '(c', r, d) := ll_pop c in ll_ok c' ∧ lru_drops c c' d ∧ (r = None → ll_plain c' = []).
Proof.
  intros [Hk Hm]. unfold ll_pop. destruct c as [[|[k [v dl]] es]]; simpl in *.
  - split_and!; [done|by split|done].
  - unfold jmap_ok in Hk. simpl in Hk. apply NoDup_cons in Hk as [_ Hk].
    split_and!; [split; simpl; [done|unfold jsize in *; simpl in *; lia]| |done].
    apply ll_drops; simpl; [apply Permutation_cons_append|]. intros e He. by right.
Qed.

Lemma list_lru_empty : ll_ok {| ll_entries := [] |}.
Proof. split; [constructor|unfold jsize; simpl; lia]. Qed.

#[export] Instance list_lru_lru : Lru K V list_lru max.
Proof.
  apply (Build_Lru K V list_lru _ _ max ll_ok); simpl.
  - intros c [Hk _]. unfold jmap_ok. by rewrite ll_keys_plain.
  - intros c [_ Hm]. unfold jsize, ll_plain in *. by rewrite length_fmap.
  - intros t k v c [Hk _]. unfold ll_peek. destruct (jget k (ll_entries c)) as [[v' d]|] eqn:E; [|done].
    destruct (t <? d); [|done]. intros [= ->]. apply ll_plain_elem. exists d. by apply jget_Some_elem.
  - intros t t' k v c Ht. unfold ll_peek. destruct (jget k (ll_entries c)) as [[v' d]|]; [|done].
    destruct (t' <? d) eqn:E; [|done]. intros [= ->]. bools. by rewrite (proj2 (Z.ltb_lt t d)) by lia.
  - intros t k c [Hk Hm]. unfold ll_get. destruct (jget k (ll_entries c)) as [[v d]|] eqn:E.
    2: { split_and!; [done| |done]. apply ll_drops; [by rewrite app_nil_r|done]. }
    pose proof (jsize_del k (v, d) _ Hk E) as Hsz. pose proof (jdel_present k (v, d) _ Hk E) as Hp.
    destruct (t <? d).
    + split_and!.
      * split; simpl; [by apply jset_new_ok; [apply jdel_ok|apply jget_del_eq]|]. rewrite jsize_new. lia.
      * apply ll_drops; simpl.
        { rewrite Hp at 1. rewrite app_nil_r, fmap_app. simpl. apply Permutation_cons_append. }
        intros e [[_ ?]%list_elem_of_filter|He]%elem_of_app; [done|].
        apply list_elem_of_singleton in He as ->. by apply jget_Some_elem.
      * intros v' [= <-]. apply ll_plain_elem. exists d. simpl. apply elem_of_app. right. by left.
    + split_and!; [split; simpl; [by apply jdel_ok|lia]| |done].
      apply ll_drops; simpl; [rewrite Hp at 1; simpl; apply Permutation_cons_append|]. by intros e [_ ?]%list_elem_of_filter.
  - intros t k v ttl c Hok Hn. unfold ll_set. pose proof (ll_delete_ok k c Hok) as Hd.
    destruct (ll_delete k c) as [c1 d1]. destruct Hd as ([Hk1 Hm1] & [Hp1 Hs1] & Hg1).
    rewrite ll_jget in Hg1. apply fmap_None in Hg1.
    assert (H2 : ∃ c2 d2, (if jsize (ll_entries c1) <? max then (c1, []) else let '(c', _, d) := ll_pop c1 in (c', d)) = (c2, d2) ∧
      lru_drops c1 c2 d2 ∧ jmap_ok (ll_entries c2) ∧ jget k (ll_entries c2) = None ∧ jsize (ll_entries c2) < max).
    { destruct (jsize (ll_entries c1) <? max) eqn:Esz; bools.
      - exists c1, []. split_and!; try done. apply ll_drops; [by rewrite app_nil_r|done].
      - pose proof (ll_pop_ok c1 (conj Hk1 Hm1)) as Hpop. destruct c1 as [[|[k0 [v0 dl]] es]]; simpl in *.
        { unfold jsize in Esz. simpl in Esz. lia. }
        destruct Hpop as ([Hk2 Hm2] & Hdr & _). eexists _, _. split; [done|]. split; [exact Hdr|].
        split; [exact Hk2|]. rewrite jget_cons in Hg1. case_bool_decide; [done|]. split; [done|].
        unfold jsize in *. simpl in *. lia. }
    destruct H2 as (c2 & d2 & -> & [Hp2 Hs2] & Hk2 & Hg2 & Hm2). split_and!.
    + split; simpl; [by apply jset_new_ok|rewrite jsize_new; lia].
    + change (v :: (ll_plain c).*2 ≡ₚ (ll_plain {| ll_entries := ll_entries c2 ++ [(k, (v, t + ttl))] |}).*2 ++ d1 ++ d2).
      change (lru_entries ?x) with (ll_plain x) in Hp1, Hp2. rewrite Hp1, Hp2, !ll_values_plain. simpl.
      rewrite fmap_app. simpl. rewrite (Permutation_app_comm d1 d2), (app_assoc _ d2), (Permutation_app_comm _ [v]). done.
    + simpl. intros [k' v'] (d & Hin)%ll_plain_elem. simpl in Hin.
      apply elem_of_app in Hin as [Hin|Hin].
      * right. apply Hs1, Hs2. simpl. apply ll_plain_elem. by exists d.
      * apply list_elem_of_singleton in Hin as [= -> -> _]. by left.
  - intros k c Hc. by apply ll_delete_ok.
  - intros c Hc. by apply ll_pop_ok.
  - intros t c [Hk Hm]. split_and!.
    + split; simpl.
      * eapply sublist_NoDup; [exact Hk|]. apply fmap_sublist, sublist_filter.
      * unfold jsize in *. pose proof (sublist_length _ _ (sublist_filter (λ e, ll_live t e = true) (ll_entries c))). lia.
    + apply ll_drops; simpl; [|by intros e [_ ?]%list_elem_of_filter].
      rewrite <-fmap_app. apply fmap_Permutation. symmetry. apply filter_app_complement.
  - intros c Hc. split_and!; [split; [constructor|unfold jsize; simpl; lia]| |done].
    split; [done|]. simpl. by intros e ?%elem_of_nil.
Defined.
Lemma ll_peek_subset c c' : ll_ok c → ll_ok c' →
  (∀ e, e ∈ ll_entries c' → e ∈ ll_entries c) → peeks_from c c'.
Proof.
  intros [Hk _] [Hk' _] Hs t k v. simpl. unfold ll_peek.
  destruct (jget k (ll_entries c')) as [[v' d]|] eqn:E; [|done]. apply jget_Some_elem, Hs in E.
  by rewrite (jget_elem k (v', d)).
Qed.

#[export] Instance list_lru_peeks : LruPeeks K V list_lru max.
Proof.
  apply (Build_LruPeeks K V list_lru max _ _ list_lru_lru); simpl; intros.
  - pose proof (lru_get_ok t k c H) as Hg. apply ll_peek_subset; [done| |].
    + change (lru_get t k c) with (ll_get t k c) in Hg. by destruct (ll_get t k c) as [[c' r] d], Hg.
    + intros e. unfold ll_get. destruct (jget k (ll_entries c)) as [[v d]|] eqn:E; [|done].
      destruct (t <? d); simpl; [|by intros [_ ?]%list_elem_of_filter].
      intros [[_ ?]%list_elem_of_filter|He]%elem_of_app; [done|]. apply list_elem_of_singleton in He as ->.
      by apply jget_Some_elem.
  - revert H0. unfold ll_get, ll_peek. destruct (jget k (ll_entries c)) as [[v' d]|]; [|done]. by destruct (t <? d).
  - pose proof (lru_delete_ok k c H) as Hd. apply ll_peek_subset; [done|apply Hd|].
    simpl. by intros e [_ ?]%list_elem_of_filter.
  - pose proof (lru_pop_ok c H) as Hp. destruct c as [[|[k [v d]] es]]; [done|].
    apply ll_peek_subset; [done|apply Hp|]. simpl. intros e He. by right.
  - pose proof (lru_purge_ok t c H) as Hp. apply ll_peek_subset; [done|apply Hp|].
    simpl. by intros e [_ ?]%list_elem_of_filter.
  - revert H2. unfold ll_set. pose proof (ll_delete_ok k c H) as Hd.
    destruct (ll_delete k c) as [c1 d1] eqn:E1. destruct Hd as (Hok1 & _).
    assert (Hs1 : peeks_from c c1).
    { apply ll_peek_subset; [done|done|]. unfold ll_delete in E1. injection E1 as <- <-. simpl.
      by intros e [_ ?]%list_elem_of_filter. }
    destruct (if _ <? _ then _ else _) as [c2 d2] eqn:E2.
    assert (H2' : peeks_from c1 c2).
    { destruct (_ <? _); [by injection E2 as <- <-; intros t0 k0 v0|]. pose proof (ll_pop_ok c1 Hok1) as Hp.
      destruct (ll_pop c1) as [[c3 r] d3] eqn:Ep. injection E2 as -> ->. destruct Hp as (Hok2 & _ & _).
      apply ll_peek_subset; [done|done|]. unfold ll_pop in Ep. destruct c1 as [[|[k0 [v0 dl]] es]].
      - by injection Ep as <- <- <-.
      - injection Ep as <- <- <-. simpl. intros e He. by right. }
    intros Hp. apply Hs1, H2'. simpl. revert Hp. unfold ll_peek. simpl.
    assert (Hj : jget k' (ll_entries c2 ++ [(k, (v, t + ttl))]) = jget k' (ll_entries c2)).
    { induction (ll_entries c2) as [|[k0 v0] es IH]; simpl; rewrite !jget_cons.
      - by rewrite bool_decide_eq_false_2.
      - by rewrite IH. }
    by rewrite Hj.
  - revert H0. unfold ll_peek. destruct (jget k (ll_entries c)) as [[v' d]|] eqn:E; [|done].
    destruct (t <? d) eqn:El; [|done]. intros _. apply list_elem_of_In, in_rev. rewrite rev_involutive. apply list_elem_of_In.
    apply list_elem_of_fmap. exists (k, (v', d)). split; [done|]. apply list_elem_of_filter. split; [done|].
    by apply jget_Some_elem.
Qed.
End ListLru.
Arguments list_lru : clear implicits.

