(* ===== verification/MemoryStore.v ===== *)
(** * The in-memory store ([src/src/cache/memoryStore.ts])

    The L1 store: encoded entries in an LRU cache ([Lru.v]), charged to the
    memory budget under [fresh], with an admission filter over a sketch of 4096
    access counters charged under [metadata]. Serializing and decoding are
    arguments ([Serializer.v] models them); clock readings are arguments. The
    score of an entry, a quotient of a counter of at most 255 by a byte size,
    is compared as an exact rational: below 2^43 bytes the doubles of the source
    order the same way. [inspect] is in [StoreInspection.v]. *)

From S2P Require Import Prelude Ledger MemoryBudget JsMap Counted Pattern Lru CacheOptions.

Definition ENTRY_OVERHEAD : Z := 160.
Definition HISTORY_BYTES : Z := 4096.
Definition MAX_EVICTIONS_PER_WRITE : nat := 16.

Record Entry := { e_buffer : bytes; e_bytes : Z; e_originalBytes : option Z }.

(** What [setEncoded] reads of [memoryBudget.snapshot()]. *)
Record BudgetView := { v_hardCap : Z; v_target : Z; v_accountedBytes : Z; v_normal : bool }.

Record StoreLimits := {
  sl_maxEntries : Z;
  sl_maxEntryBytes : option Z;
  sl_admission : option bool }.

Definition byte_len (b : bytes) : Z := Z.of_nat (length b).

(** ** Option checks *)

(** [levels.L1.ttlMs ?? ttlMs] of the call, then of the store. *)
Definition store_ttl (callL1 call storeL1 store : option jsnum) : result option_error jsnum :=
  let ttl := default (JInt DEFAULT_CACHE_TTL_MS)
    (match callL1 with Some t => Some t | None =>
     match call with Some t => Some t | None =>
     match storeL1 with Some t => Some t | None => store end end end) in
  if negb (num_is_finite ttl) || num_le ttl (JInt 0) then Throw (RangeError "L1 ttlMs") else Ok ttl.

Definition check_positive (name : string) (v : option jsnum) : result option_error unit :=
  match v with
  | None => Ok tt
  | Some n => guard_ok (negb (negb (num_is_safe_integer n) || num_lt n (JInt 1))) (RangeError name)
  end.

(** ** The access sketch *)

(** [Math.imul] on 32-bit patterns. *)
Definition imul (a b : Z) : Z := (a * b) mod 2 ^ 32.

Definition fnv (text : jsstring) (seed : Z) : Z :=
  fold_left (λ h u, imul (Z.lxor h u) 16777619) text seed.

Definition hash (numeric : bool) (text : jsstring) : Z :=
  fnv text (if numeric then 2166136260 else 2166136261) mod HISTORY_BYTES.

(** [new Uint8Array(HISTORY_BYTES)] *)
Definition new_history : list Z := replicate (Z.to_nat HISTORY_BYTES) 0.

Definition bump_counter (n : Z) : Z := Z.min 255 (n + 1).

(** Halve [n] counters from the cursor on. *)
Fixpoint decay (n : nat) (cursor : Z) (h : list Z) : list Z :=
  match n with
  | O => h
  | S n' => decay n' (cursor + 1) (alter (λ c, c / 2) (Z.to_nat (cursor mod HISTORY_BYTES)) h)
  end.

Section store.
Context {K V C L : Type} `{EqDecision K} `{LruOps K Entry C} `{Ledger L}.
(** [String(key)], [typeof key === 'number'], the budget's view. *)
Context (String : K → jsstring) (numeric : K → bool) (view : L → BudgetView) (limits : StoreLimits)
  (decode : bytes → option V).

Record mstore := {
  cache : option C;
  history : option (list Z);
  decayCursor : Z;
  accesses : Z;
  ms_bytes : Z;
  rejected : Z;
  admitted : Z;
  ms_closed : bool;
  ms_budget : L }.

Definition with_cache (c : option C) (s : mstore) : mstore :=
  {| cache := c; history := history s; decayCursor := decayCursor s; accesses := accesses s;
     ms_bytes := ms_bytes s; rejected := rejected s; admitted := admitted s; ms_closed := ms_closed s;
     ms_budget := ms_budget s |}.

Definition with_account (n : Z) (b : L) (s : mstore) : mstore :=
  {| cache := cache s; history := history s; decayCursor := decayCursor s; accesses := accesses s;
     ms_bytes := n; rejected := rejected s; admitted := admitted s; ms_closed := ms_closed s; ms_budget := b |}.

Definition with_counts (r a : Z) (s : mstore) : mstore :=
  {| cache := cache s; history := history s; decayCursor := decayCursor s; accesses := accesses s;
     ms_bytes := ms_bytes s; rejected := r; admitted := a; ms_closed := ms_closed s; ms_budget := ms_budget s |}.

Definition with_history (h : option (list Z)) (cursor n : Z) (s : mstore) : mstore :=
  {| cache := cache s; history := h; decayCursor := cursor; accesses := n;
     ms_bytes := ms_bytes s; rejected := rejected s; admitted := admitted s; ms_closed := ms_closed s;
     ms_budget := ms_budget s |}.

Definition reject (s : mstore) : mstore := with_counts (rejected s + 1) (admitted s) s.

(** The [dispose] callback, for every entry that left the cache. *)
Definition dispose (s : mstore) (e : Entry) : mstore :=
  with_account (ms_bytes s - e_bytes e) (refund "fresh" (e_bytes e) (ms_budget s)) s.

Definition after (x : C * list Entry) (s : mstore) : mstore :=
  fold_left dispose x.2 (with_cache (Some x.1) s).

(** The constructor; the budget may refuse the sketch. *)
Definition newStore (c : C) (b : L) : mstore :=
  let '(b, ok) := reserve "metadata" HISTORY_BYTES b in
  {| cache := Some c; history := if ok then Some new_history else None;
     decayCursor := 0; accesses := 0; ms_bytes := 0; rejected := 0; admitted := 0; ms_closed := false;
     ms_budget := b |}.

Definition key_hash (k : K) : Z := hash (numeric k) (String k).

Definition record (k : K) (s : mstore) : mstore :=
  match history s with
  | None => s
  | Some h =>
      let n := accesses s + 1 in
      let '(h, cursor) := if n mod 8 =? 0 then (decay 8 (decayCursor s) h, decayCursor s + 8)
                          else (h, decayCursor s) in
      with_history (Some (alter bump_counter (Z.to_nat (key_hash k)) h)) cursor n s
  end.

Definition counter (h : list Z) (k : K) : Z := Z.max 1 (h !! Z.to_nat (key_hash k) ?? 0).

(** The loop over at most eight victims; [Some true] is an early return. *)
Fixpoint sample_victims (now : Z) (c : C) (h : list Z) (count bytes : Z) (victims : list (K * Entry))
    (sampled : nat) : bool :=
  match victims with
  | [] => bool_decide (sampled = 0%nat)
  | (victim, entry) :: rest =>
      if from_option (λ r, r <=? 0) false (lru_remaining now victim c) then true
      else if counter h victim * bytes <=? count * e_bytes entry then true
      else if bool_decide (S sampled = 8%nat) then false
      else sample_victims now c h count bytes rest (S sampled)
  end.

Definition worthAdmitting (now : Z) (k : K) (bytes : Z) (s : mstore) : bool :=
  match history s, cache s with
  | Some h, Some c => sample_victims now c h (counter h k) bytes (lru_entries c) 0
  | _, _ => false
  end.

(** ** Writes *)

Definition store_delete (k : K) (s : mstore) : mstore :=
  match cache s with Some c => after (lru_delete k c) s | None => s end.

(** Reserve, evicting least recently used entries for it, at most [n]. *)
Fixpoint reserve_evicting (n : nat) (bytes : Z) (c : C) (s : mstore) : mstore * bool :=
  match n with
  | O => (s, false)
  | S n' =>
      let '(c', popped, d) := lru_pop c in
      let s := after (c', d) s in
      match popped with
      | None => (s, false)
      | Some _ =>
          let '(b, ok) := reserve "fresh" bytes (ms_budget s) in
          let s := with_account (ms_bytes s) b s in
          if ok then (s, true) else reserve_evicting n' bytes c' s
      end
  end.

Definition maxEntry (v : BudgetView) : Z :=
  sl_maxEntryBytes limits ?? Z.min (16 * 1024 * 1024) (Z.max 1 (v_hardCap v / 4)).

Definition safe_original (o : option Z) : option Z :=
  match o with Some n => if safe_int n && (0 <? n) then Some n else None | None => None end.

(** [setEncoded] with its [ttl] resolved; two readings of the clock. *)
Definition setEncoded (t1 t2 : Z) (k : K) (buffer : bytes) (ttl : Z) (originalBytes : option Z) (s : mstore) : mstore :=
  match cache s with
  | None => s
  | Some c =>
      let bytes := byte_len buffer + utf8_length (String k) * 2 + ENTRY_OVERHEAD in
      let prior := lru_peek t1 k c in
      let v := view (ms_budget s) in
      if (maxEntry v <? bytes) || (v_target v <? bytes) || negb (v_normal v)
      then reject (after (lru_delete k c) s)
      else
        let needsSpace :=
          (v_target v <? v_accountedBytes v + bytes - from_option e_bytes 0 prior)
          || (bool_decide (prior = None) && (sl_maxEntries limits <=? jsize (lru_entries c))) in
        if bool_decide (prior = None) && needsSpace && negb (bool_decide (sl_admission limits = Some false))
           && negb (worthAdmitting t1 k bytes s)
        then reject s
        else
          let x := lru_delete k c in
          let s := after x s in
          let '(b, ok) := reserve "fresh" bytes (ms_budget s) in
          let s := with_account (ms_bytes s) b s in
          let '(s, ok) := if ok then (s, true) else reserve_evicting MAX_EVICTIONS_PER_WRITE bytes x.1 s in
          if negb ok then reject s
          else
            match cache s with
            | None => s
            | Some c =>
                let e := {| e_buffer := buffer; e_bytes := bytes; e_originalBytes := safe_original originalBytes |} in
                let s := after (lru_set t2 k e ttl c) s in
                with_counts (rejected s) (admitted s + 1) (with_account (ms_bytes s + bytes) (ms_budget s) s)
            end
  end.

(** What [serializeWithStats] answers for the value of a [set]. *)
Inductive encoding_result := Undefined | Unencodable | Encoded (buffer : bytes) (originalBytes : Z).

Definition store_set (t1 t2 : Z) (k : K) (r : encoding_result) (ttl : Z) (s : mstore) : mstore :=
  if ms_closed s then s else
  match r with
  | Undefined => store_delete k s
  | Unencodable => reject (store_delete k s)
  | Encoded buffer n => setEncoded t1 t2 k buffer ttl (Some n) s
  end.

(** ** Reads *)

Definition store_get (t : Z) (k : K) (s : mstore) : mstore * option V :=
  let s := record k s in
  match cache s with
  | None => (s, None)
  | Some c =>
      let '(c', r, d) := lru_get t k c in
      let s := after (c', d) s in
      match r with
      | None => (s, None)
      | Some e => match decode (e_buffer e) with
                  | Some v => (s, Some v)
                  | None => (store_delete k s, None)
                  end
      end
  end.

Definition getEncoded (t1 t2 : Z) (k : K) (s : mstore) : mstore * option (bytes * option Z * option Z) :=
  let s := record k s in
  match cache s with
  | None => (s, None)
  | Some c =>
      let '(c', r, d) := lru_get t1 k c in
      (after (c', d) s, (λ e, (e_buffer e, lru_remaining t2 k c', e_originalBytes e)) <$> r)
  end.

Definition store_has (t : Z) (k : K) (s : mstore) : mstore * bool :=
  match cache s with
  | None => (s, false)
  | Some c => if lru_has t k c then (s, true) else (after (lru_delete k c) s, false)
  end.

Definition deleteByPattern (t : Z) (pattern : jsstring) (s : mstore) : mstore :=
  match cache s with
  | None => s
  | Some c => fold_left (λ s k, store_delete k s) (filter (λ k, matchesPattern (String k) pattern = true) (lru_keys t c)) s
  end.

Definition store_clear (s : mstore) : mstore :=
  match cache s with Some c => after (lru_clear c) s | None => s end.

Definition store_size (t : Z) (s : mstore) : mstore * Z :=
  match cache s with
  | Some c => let x := lru_purgeStale t c in (after x s, jsize (lru_entries x.1))
  | None => (s, 0)
  end.

(** The callback registered with the budget. *)
Definition evictOne (s : mstore) : mstore * bool :=
  match cache s with
  | Some c => let '(c', r, d) := lru_pop c in (after (c', d) s, bool_decide (is_Some r))
  | None => (s, false)
  end.

Definition store_close (s : mstore) : mstore :=
  if ms_closed s then s else
  let s' := match cache s with Some c => fold_left dispose (lru_clear c).2 s | None => s end in
  {| cache := None; history := None; decayCursor := decayCursor s'; accesses := accesses s';
     ms_bytes := ms_bytes s'; rejected := rejected s'; admitted := admitted s'; ms_closed := true;
     ms_budget := if history s' is Some _ then refund "metadata" HISTORY_BYTES (ms_budget s') else ms_budget s' |}.

(** ** The invariant *)

Context `{!Lru K Entry C (sl_maxEntries limits)}.
Context (fb mb : Z) (Hfb : 0 <= fb) (Hmb : 0 <= mb).

Definition vals (c : C) : list Entry := (lru_entries c).*2.

Definition history_ok (h : list Z) : Prop :=
  length h = Z.to_nat HISTORY_BYTES ∧ Forall (λ n, 0 <= n <= 255) h.

Record ms_inv (pending : Z) (s : mstore) : Prop := {
  mi_cache : match cache s with
             | Some c => lru_ok c ∧ ms_bytes s = sumZ e_bytes (vals c) ∧ Forall (λ e, 0 <= e_bytes e) (vals c)
             | None => ms_bytes s = 0
             end;
  mi_closed : ms_closed s = bool_decide (cache s = None);
  mi_open : cache s = None → history s = None;
  mi_ledger : ledger_inv (ms_budget s);
  mi_fresh : balance "fresh" (ms_budget s) = fb + ms_bytes s + pending;
  mi_meta : balance "metadata" (ms_budget s) = mb + (if history s is Some _ then HISTORY_BYTES else 0);
  mi_history : ∀ h, history s = Some h → history_ok h }.

Lemma sum_entries_nonneg (l : list Entry) : Forall (λ e, 0 <= e_bytes e) l → 0 <= sumZ e_bytes l.
Proof. intros Hl. apply sumZ_nonneg. intros e He. by apply (proj1 (Forall_forall _ _) Hl). Qed.

Lemma sum_vals c : sumZ e_bytes (vals c) = sumZ (λ e, e_bytes e.2) (lru_entries c).
Proof. unfold vals. induction (lru_entries c) as [|e l IH]; [done|]. by rewrite fmap_cons, !sumZ_cons, IH. Qed.

(** Giving the bytes of a list of entries back. *)
Lemma dispose_all d s x :
  Forall (λ e, 0 <= e_bytes e) d → ledger_inv (ms_budget s) →
  balance "fresh" (ms_budget s) = x + sumZ e_bytes d → 0 <= x →
  let s' := fold_left dispose d s in
  ledger_inv (ms_budget s') ∧ balance "fresh" (ms_budget s') = x ∧
  balance "metadata" (ms_budget s') = balance "metadata" (ms_budget s) ∧
  ms_bytes s' = ms_bytes s - sumZ e_bytes d ∧ cache s' = cache s ∧ history s' = history s ∧
  ms_closed s' = ms_closed s.
Proof.
  revert s. induction d as [|e d IH]; intros s Hd Hl Hb Hx; simpl in *; [split_and!; done || lia|].
  apply Forall_cons in Hd as [He Hd]. pose proof (sum_entries_nonneg d Hd).
  destruct (refund_exact (ms_budget s) "fresh" (e_bytes e)) as (Hl' & Hb' & Ho); [done|lia|].
  destruct (IH (dispose s e) Hd) as (D1 & D2 & D3 & D4 & D5 & D6 & D7); simpl; [done|lia|done|].
  split_and!; try done; [rewrite D3; simpl; by apply Ho|rewrite D4; simpl; lia].
Qed.

Lemma after_inv p c c' d s :
  0 <= p → ms_inv p s → cache s = Some c → lru_ok c' → lru_drops c c' d →
  ms_inv p (after (c', d) s) ∧ cache (after (c', d) s) = Some c' ∧ history (after (c', d) s) = history s.
Proof.
  intros Hp Hi Hc Hok' [Hd Hs]. pose proof (mi_cache _ _ Hi) as Hm. rewrite Hc in Hm.
  destruct Hm as (Hok & Hb & Hpos). change (vals c ≡ₚ vals c' ++ d) in Hd.
  assert (Hpos' : Forall (λ e, 0 <= e_bytes e) (vals c' ++ d)) by by rewrite <-Hd.
  apply Forall_app in Hpos' as [Hpc Hpd]. pose proof (sum_entries_nonneg _ Hpc).
  assert (Hsum : ms_bytes s = sumZ e_bytes (vals c') + sumZ e_bytes d) by by rewrite Hb, (sumZ_perm _ _ _ Hd), sumZ_app.
  unfold after. simpl fst. simpl snd.
  destruct (dispose_all d (with_cache (Some c') s) (fb + sumZ e_bytes (vals c') + p))
    as (D1 & D2 & D3 & D4 & D5 & D6 & D7); simpl; [done|apply Hi|rewrite (mi_fresh _ _ Hi); lia|lia|].
  simpl in *. split; [|by rewrite D5, D6]. split.
  - rewrite D5. split_and!; [done|lia|done].
  - rewrite D7, D5, (mi_closed _ _ Hi), Hc. by rewrite !bool_decide_eq_false_2.
  - by rewrite D5.
  - done.
  - rewrite D2, D4. lia.
  - rewrite D3, D6. apply Hi.
  - rewrite D6. apply Hi.
Qed.

Lemma with_counts_inv p r a s : ms_inv p s → ms_inv p (with_counts r a s).
Proof. by intros []. Qed.

Lemma reserve_inv p n s b ok :
  0 <= n → ms_inv p s → reserve "fresh" n (ms_budget s) = (b, ok) →
  ms_inv (if ok then p + n else p) (with_account (ms_bytes s) b s).
Proof.
  intros Hn Hi E. pose proof (mi_ledger _ _ Hi) as Hl. destruct ok.
  - apply reserve_accepts in E as (Hl' & Hb & Ho); [|done|done].
    split; try apply Hi; simpl; [done|rewrite Hb, (mi_fresh _ _ Hi); lia|rewrite Ho by done; apply Hi].
  - apply reserve_refuses in E as (Hl' & Ho); [|done|done].
    split; try apply Hi; simpl; [done|rewrite Ho; apply Hi|rewrite Ho; apply Hi].
Qed.

Lemma store_delete_inv p k s : 0 <= p → ms_inv p s → ms_inv p (store_delete k s).
Proof.
  intros Hp Hi. unfold store_delete. destruct (cache s) as [c|] eqn:Ec; [|done].
  pose proof (mi_cache _ _ Hi) as Hm. rewrite Ec in Hm. destruct Hm as [Hok _].
  pose proof (lru_delete_ok k c Hok) as Hd. destruct (lru_delete k c) as [c' d]. destruct Hd as (? & ? & _).
  by eapply after_inv.
Qed.

Lemma cache_ok p s c : ms_inv p s → cache s = Some c → lru_ok c.
Proof. intros Hi Hc. pose proof (mi_cache _ _ Hi) as Hm. rewrite Hc in Hm. apply Hm. Qed.

(** The eviction loop keeps the account; on success the bytes are pending, and
    the cache holds a subset of what it held. *)
Lemma reserve_evicting_inv n bytes c s s' ok :
  0 <= bytes → ms_inv 0 s → cache s = Some c → reserve_evicting n bytes c s = (s', ok) →
  ms_inv (if ok then bytes else 0) s' ∧
  ∃ c', cache s' = Some c' ∧ ∀ e, e ∈ lru_entries c' → e ∈ lru_entries c.
Proof.
  revert c s. induction n as [|n IH]; intros c s Hb Hi Hc; simpl; [intros [= <- <-]; split; [done|by exists c]|].
  pose proof (lru_pop_ok c (cache_ok _ _ _ Hi Hc)) as Hp. destruct (lru_pop c) as [[c1 popped] d].
  destruct Hp as (Hok & Hd & _).
  destruct (after_inv 0 c c1 d s) as (Hi1 & Hc1 & _); try done.
  destruct popped as [e|]; [|intros [= <- <-]; split; [done|]; exists c1; split; [done|apply Hd]].
  destruct (reserve "fresh" bytes _) as [b ok1] eqn:Er. apply (reserve_inv 0) in Er; [|done|done].
  destruct ok1.
  - intros [= <- <-]. split; [done|]. exists c1. split; [done|apply Hd].
  - intros E. destruct (IH c1 _ Hb Er Hc1 E) as (Hs' & c' & Hc' & Hsub). split; [done|].
    exists c'. split; [done|]. intros e0 He. by apply Hd, Hsub.
Qed.

Lemma insert_inv t k e ttl s c :
  ms_inv (e_bytes e) s → 0 <= e_bytes e → cache s = Some c → jget k (lru_entries c) = None →
  let s1 := after (lru_set t k e ttl c) s in
  ms_inv 0 (with_counts (rejected s1) (admitted s1 + 1) (with_account (ms_bytes s1 + e_bytes e) (ms_budget s1) s1)) ∧
  ∃ c', cache s1 = Some c' ∧ ∀ e', e' ∈ lru_entries c' → e' = (k, e) ∨ e' ∈ lru_entries c.
Proof.
  intros Hi He Hc Hn. pose proof (mi_cache _ _ Hi) as Hm. rewrite Hc in Hm. destruct Hm as (Hok & Hb & Hpos).
  pose proof (lru_set_ok t k e ttl c Hok Hn) as Hs. destruct (lru_set t k e ttl c) as [c' d].
  destruct Hs as (Hok' & Hperm & Hsub). change (e :: vals c ≡ₚ vals c' ++ d) in Hperm.
  assert (Hall : Forall (λ e, 0 <= e_bytes e) (vals c' ++ d)) by (rewrite <-Hperm; by constructor).
  apply Forall_app in Hall as [Hpc Hpd]. pose proof (sum_entries_nonneg _ Hpc).
  assert (Hsum : e_bytes e + ms_bytes s = sumZ e_bytes (vals c') + sumZ e_bytes d).
  { rewrite Hb, <-sumZ_app, <-(sumZ_perm _ _ _ Hperm). done. }
  unfold after. simpl fst. simpl snd.
  destruct (dispose_all d (with_cache (Some c') s) (fb + sumZ e_bytes (vals c')))
    as (D1 & D2 & D3 & D4 & D5 & D6 & D7); simpl; [done|apply Hi|rewrite (mi_fresh _ _ Hi); lia|lia|].
  simpl in *. split; [|by exists c'; rewrite D5]. split; simpl.
  - rewrite D5. split_and!; [done|lia|done].
  - rewrite D7, D5, (mi_closed _ _ Hi), Hc. by rewrite !bool_decide_eq_false_2.
  - by rewrite D5.
  - done.
  - rewrite D2, D4. lia.
  - rewrite D3, D6. apply Hi.
  - rewrite D6. apply Hi.
Qed.

Lemma byte_len_nonneg b : 0 <= byte_len b.
Proof. unfold byte_len. lia. Qed.

(** After [delete], whatever has been evicted or kept, the key is absent. *)
Lemma absent_subset (k : K) (es es' : list (K * Entry)) :
  jget k es = None → (∀ e, e ∈ es' → e ∈ es) → jget k es' = None.
Proof.
  rewrite !jget_None. intros Hn Hs (e & -> & He)%list_elem_of_fmap. apply Hn.
  apply list_elem_of_fmap. exists e. split; [done|by apply Hs].
Qed.

Lemma setEncoded_spec t1 t2 k buffer ttl orig s :
  ms_inv 0 s →
  let s' := setEncoded t1 t2 k buffer ttl orig s in
  ms_inv 0 s' ∧ ∀ t c e, t1 <= t → cache s' = Some c → lru_peek t k c = Some e → e_buffer e = buffer.
Proof.
  intros Hi. unfold setEncoded. destruct (cache s) as [c|] eqn:Ec; [|split; [done|congruence]].
  set (n := byte_len buffer + utf8_length (String k) * 2 + ENTRY_OVERHEAD).
  assert (Hn : 0 <= n).
  { pose proof (byte_len_nonneg buffer). pose proof (utf8_length_nonneg (String k)). unfold n, ENTRY_OVERHEAD. lia. }
  pose proof (cache_ok _ _ _ Hi Ec) as Hok. pose proof (lru_delete_ok k c Hok) as Hd.
  destruct (lru_delete k c) as [c1 d1]. destruct Hd as (Hok1 & Hdr1 & Hgone).
  destruct (after_inv 0 c c1 d1 s) as (Hi1 & Hc1 & _); [done..|].
  assert (Habs : ∀ c0, cache (after (c1, d1) s) = Some c0 → ∀ t e, lru_peek t k c0 = Some e → e_buffer e = buffer).
  { intros c0 Hc0 t e He. rewrite Hc1 in Hc0. injection Hc0 as <-.
    apply lru_peek_entry in He; [|done]. exfalso.
    apply (jget_elem k e) in He; [congruence|by apply lru_nodup]. }
  destruct (_ || _); [by split; [apply with_counts_inv|intros; eapply Habs]|].
  destruct (_ && negb (worthAdmitting _ _ _ _)) eqn:Eadm.
  { split; [by apply with_counts_inv|]. intros t c0 e Ht Hc0 He. simpl in Hc0. rewrite Ec in Hc0. injection Hc0 as <-.
    apply (lru_peek_earlier t1) in He; [|done].
    repeat (apply andb_true_iff in Eadm as [Eadm _]). apply bool_decide_eq_true in Eadm. congruence. }
  simpl fst. destruct (reserve "fresh" n _) as [b ok] eqn:Er. apply (reserve_inv 0) in Er; [|done|done].
  set (s1 := with_account _ b _) in *.
  assert (H2 : ∃ s2 ok2, (if ok then (s1, true) else reserve_evicting MAX_EVICTIONS_PER_WRITE n c1 s1) = (s2, ok2) ∧
    ms_inv (if ok2 then n else 0) s2 ∧ ∃ c2, cache s2 = Some c2 ∧ ∀ e, e ∈ lru_entries c2 → e ∈ lru_entries c1).
  { destruct ok; [exists s1, true; split; [done|]; split; [done|]; by exists c1|].
    destruct (reserve_evicting _ n c1 s1) as [s2 ok2] eqn:E. exists s2, ok2. split; [done|].
    by eapply reserve_evicting_inv. }
  destruct H2 as (s2 & ok2 & -> & Hi2 & c2 & Hc2 & Hsub2).
  pose proof (absent_subset k _ _ Hgone Hsub2) as Hgone2. destruct ok2; simpl negb.
  - rewrite Hc2. set (e := {| e_buffer := buffer; e_bytes := n; e_originalBytes := _ |}).
    destruct (insert_inv t2 k e ttl s2 c2) as (Hi3 & c3 & Hc3 & Hsub3); [done..|]. split; [exact Hi3|].
    intros t c0 e0 _ Hc0 He0. simpl in Hc0. rewrite Hc3 in Hc0. injection Hc0 as <-.
    apply lru_peek_entry in He0; [|by eapply cache_ok; [exact Hi3|]].
    destruct (Hsub3 _ He0) as [[= ->]|Hin]; [done|]. exfalso.
    apply (jget_elem k e0) in Hin; [congruence|]. by apply lru_nodup, (cache_ok _ _ _ Hi2).
  - split; [by apply with_counts_inv|]. intros t c0 e0 _ Hc0 He0. simpl in Hc0. rewrite Hc2 in Hc0. injection Hc0 as <-.
    apply lru_peek_entry in He0; [|by apply (cache_ok _ _ _ Hi2)]. exfalso.
    apply (jget_elem k e0) in He0; [congruence|]. by apply lru_nodup, (cache_ok _ _ _ Hi2).
Qed.

(** ** The sketch *)

Lemma hash_range n text : 0 <= hash n text < HISTORY_BYTES.
Proof. unfold hash, HISTORY_BYTES. apply Z.mod_pos_bound. lia. Qed.

Lemma alter_history f i h :
  (∀ n, 0 <= n <= 255 → 0 <= f n <= 255) → history_ok h → history_ok (alter f i h).
Proof.
  intros Hf [Hl Hr]. split; [by rewrite length_alter|]. apply Forall_lookup. intros j x Hj.
  rewrite list_lookup_alter in Hj. case_decide; [subst i|by apply (proj1 (Forall_lookup _ _) Hr j)].
  destruct (h !! j) as [y|] eqn:E; [|done]. injection Hj as <-. apply Hf.
  by apply (proj1 (Forall_lookup _ _) Hr j).
Qed.

Lemma decay_ok n cursor h : history_ok h → history_ok (decay n cursor h).
Proof.
  revert cursor h. induction n as [|n IH]; intros cursor h Hh; [done|]. simpl. apply IH.
  apply alter_history; [|done]. intros m Hm.
  split; [apply Z.div_pos; lia|]. apply Z.div_le_upper_bound; lia.
Qed.

Lemma record_inv p k s : ms_inv p s → ms_inv p (record k s) ∧ cache (record k s) = cache s.
Proof.
  intros Hi. unfold record. destruct (history s) as [h|] eqn:Eh; [|done].
  assert (Hh : history_ok (if (accesses s + 1) mod 8 =? 0 then decay 8 (decayCursor s) h else h)).
  { destruct (_ =? 0); [apply decay_ok|]; by apply Hi. }
  destruct Hi as [mc mcl mo ml mf mm mh]. rewrite Eh in mm.
  destruct (_ =? 0); (split; [|done]); split; simpl; try done.
  - intros Hc. specialize (mo Hc). congruence.
  - intros h' [= <-]. apply alter_history; [unfold bump_counter; lia|done].
  - intros Hc. specialize (mo Hc). congruence.
  - intros h' [= <-]. apply alter_history; [unfold bump_counter; lia|done].
Qed.

(** ** Reads and removals keep the account *)

Lemma get_inv t k s c c' r d :
  ms_inv 0 s → cache s = Some c → lru_get t k c = (c', r, d) →
  ms_inv 0 (after (c', d) s) ∧ cache (after (c', d) s) = Some c' ∧ ∀ e, r = Some e → (k, e) ∈ lru_entries c'.
Proof.
  intros Hi Hc E. pose proof (lru_get_ok t k c (cache_ok _ _ _ Hi Hc)) as Hg. rewrite E in Hg.
  destruct Hg as (Hok & Hd & Hr). destruct (after_inv 0 c c' d s) as (Hi' & Hc' & _); done.
Qed.

Lemma store_get_inv t k s : ms_inv 0 s → ms_inv 0 (store_get t k s).1.
Proof.
  intros Hi. unfold store_get. destruct (record_inv 0 k s Hi) as [Hr Hrc].
  destruct (cache (record k s)) as [c|] eqn:Ec; [|done].
  destruct (lru_get t k c) as [[c' r] d] eqn:Eg. destruct (get_inv _ _ _ _ _ _ _ Hr Ec Eg) as (Hi' & _).
  destruct r as [e|]; [|done]. destruct (decode (e_buffer e)); [done|]. by apply store_delete_inv.
Qed.

Lemma getEncoded_inv t1 t2 k s : ms_inv 0 s → ms_inv 0 (getEncoded t1 t2 k s).1.
Proof.
  intros Hi. unfold getEncoded. destruct (record_inv 0 k s Hi) as [Hr Hrc].
  destruct (cache (record k s)) as [c|] eqn:Ec; [|done].
  destruct (lru_get t1 k c) as [[c' r] d] eqn:Eg. by destruct (get_inv _ _ _ _ _ _ _ Hr Ec Eg) as (Hi' & _).
Qed.

Lemma store_has_inv t k s : ms_inv 0 s → ms_inv 0 (store_has t k s).1.
Proof.
  intros Hi. unfold store_has. destruct (cache s) as [c|] eqn:Ec; [|done]. destruct (lru_has t k c); [done|].
  pose proof (store_delete_inv 0 k s (Z.le_refl 0) Hi) as Hd. unfold store_delete in Hd. by rewrite Ec in Hd.
Qed.

Lemma deletes_inv ks s : ms_inv 0 s → ms_inv 0 (fold_left (λ s k, store_delete k s) ks s).
Proof. revert s. induction ks as [|k ks IH]; intros s Hi; [done|]. simpl. by apply IH, store_delete_inv. Qed.

Lemma deleteByPattern_inv t pattern s : ms_inv 0 s → ms_inv 0 (deleteByPattern t pattern s).
Proof. intros Hi. unfold deleteByPattern. destruct (cache s); [by apply deletes_inv|done]. Qed.

Lemma store_clear_inv s : ms_inv 0 s → ms_inv 0 (store_clear s).
Proof.
  intros Hi. unfold store_clear. destruct (cache s) as [c|] eqn:Ec; [|done].
  pose proof (lru_clear_ok c (cache_ok _ _ _ Hi Ec)) as Hc. destruct (lru_clear c) as [c' d].
  destruct Hc as (Hok & Hd & _). by eapply after_inv.
Qed.

Lemma store_size_inv t s : ms_inv 0 s → ms_inv 0 (store_size t s).1.
Proof.
  intros Hi. unfold store_size. destruct (cache s) as [c|] eqn:Ec; [|done].
  pose proof (lru_purge_ok t c (cache_ok _ _ _ Hi Ec)) as Hc. destruct (lru_purgeStale t c) as [c' d].
  destruct Hc as (Hok & Hd). by eapply after_inv.
Qed.

Lemma evictOne_inv s : ms_inv 0 s → ms_inv 0 (evictOne s).1.
Proof.
  intros Hi. unfold evictOne. destruct (cache s) as [c|] eqn:Ec; [|done].
  pose proof (lru_pop_ok c (cache_ok _ _ _ Hi Ec)) as Hc. destruct (lru_pop c) as [[c' r] d].
  destruct Hc as (Hok & Hd & _). by eapply after_inv.
Qed.

(** [close] leaves nothing charged. *)
Lemma store_close_spec s : ms_inv 0 s →
  let s' := store_close s in
  ms_inv 0 s' ∧ cache s' = None ∧ history s' = None ∧ ms_bytes s' = 0 ∧
  balance "fresh" (ms_budget s') = fb ∧ balance "metadata" (ms_budget s') = mb.
Proof.
  intros Hi. unfold store_close. destruct (ms_closed s) eqn:Ecl.
  { pose proof (mi_closed _ _ Hi) as Hc. rewrite Ecl in Hc. symmetry in Hc. apply bool_decide_eq_true in Hc.
    pose proof (mi_open _ _ Hi Hc) as Hh. pose proof (mi_cache _ _ Hi) as Hb. rewrite Hc in Hb.
    pose proof (mi_fresh _ _ Hi). pose proof (mi_meta _ _ Hi) as Hm. rewrite Hh in Hm. split_and!; try done; lia. }
  destruct (cache s) as [c|] eqn:Ec.
  2: { pose proof (mi_closed _ _ Hi) as Hc. rewrite Ecl, Ec in Hc. by rewrite bool_decide_eq_true_2 in Hc. }
  pose proof (mi_cache _ _ Hi) as Hm. rewrite Ec in Hm. destruct Hm as (Hok & Hb & Hpos).
  pose proof (lru_clear_ok c Hok) as Hclr. destruct (lru_clear c) as [c' d]. destruct Hclr as (_ & [Hp _] & Hnil).
  change (vals c ≡ₚ vals c' ++ d) in Hp. unfold vals in Hp at 2. rewrite Hnil in Hp. simpl in Hp.
  assert (Hsum : ms_bytes s = sumZ e_bytes d) by (rewrite Hb; by apply sumZ_perm).
  destruct (dispose_all d s fb) as (D1 & D2 & D3 & D4 & D5 & D6 & D7);
    [by rewrite <-Hp|apply Hi|rewrite (mi_fresh _ _ Hi); lia|done|].
  simpl snd. set (s' := fold_left dispose d s) in *.
  assert (Hmeta : let b := if history s' is Some _ then refund "metadata" HISTORY_BYTES (ms_budget s') else ms_budget s' in
    ledger_inv b ∧ balance "fresh" b = fb ∧ balance "metadata" b = mb).
  { pose proof (mi_meta _ _ Hi) as Hmm. rewrite <-D6 in Hmm. destruct (history s'); [|split_and!; [done..|lia]].
    destruct (refund_exact (ms_budget s') "metadata" HISTORY_BYTES) as (R1 & R2 & R3); [done|unfold HISTORY_BYTES in *; lia|].
    split_and!; [done|by rewrite R3|lia]. }
  simpl in Hmeta. destruct Hmeta as (M1 & M2 & M3).
  assert (ms_bytes s' = 0) by lia.
  split; [split; simpl; [done|done|done|done|lia|lia|done]|].
  by split_and!.
Qed.

(** ** Histories of the store *)

Inductive ms_event :=
| MSet (t1 t2 : Z) (k : K) (r : encoding_result) (ttl : Z)
| MSetEncoded (t1 t2 : Z) (k : K) (buffer : bytes) (ttl : Z) (originalBytes : option Z)
| MGet (t : Z) (k : K)
| MGetEncoded (t1 t2 : Z) (k : K)
| MHas (t : Z) (k : K)
| MDelete (k : K)
| MDeletePattern (t : Z) (pattern : jsstring)
| MClear
| MSize (t : Z)
| MEvict
| MClose.

Definition ms_apply (e : ms_event) (s : mstore) : mstore :=
  match e with
  | MSet t1 t2 k r ttl => store_set t1 t2 k r ttl s
  | MSetEncoded t1 t2 k b ttl o => setEncoded t1 t2 k b ttl o s
  | MGet t k => (store_get t k s).1
  | MGetEncoded t1 t2 k => (getEncoded t1 t2 k s).1
  | MHas t k => (store_has t k s).1
  | MDelete k => store_delete k s
  | MDeletePattern t p => deleteByPattern t p s
  | MClear => store_clear s
  | MSize t => (store_size t s).1
  | MEvict => (evictOne s).1
  | MClose => store_close s
  end.

(** Between two operations the other clients of the budget, and its sampling
    of memory pressure, change anything but the bytes of this store. *)
Inductive ms_reachable (s0 : mstore) : mstore → Prop :=
| ms_start : ms_reachable s0 s0
| ms_step s e : ms_reachable s0 s → ms_reachable s0 (ms_apply e s)
| ms_other s b :
    ms_reachable s0 s → ledger_inv b →
    balance "fresh" b = balance "fresh" (ms_budget s) → balance "metadata" b = balance "metadata" (ms_budget s) →
    ms_reachable s0 (with_account (ms_bytes s) b s).

Definition ms_run (s : mstore) (es : list ms_event) : mstore := fold_left (λ s e, ms_apply e s) es s.

Lemma ms_run_reachable s0 es s : ms_reachable s0 s → ms_reachable s0 (ms_run s es).
Proof. revert s. induction es as [|e es IH]; intros s Hs; [done|]. simpl. by apply IH, ms_step. Qed.

Lemma ms_apply_inv e s : ms_inv 0 s → ms_inv 0 (ms_apply e s).
Proof.
  intros Hi. destruct e; simpl.
  - unfold store_set. destruct (ms_closed s); [done|]. destruct r.
    + by apply store_delete_inv.
    + by apply with_counts_inv, store_delete_inv.
    + by apply setEncoded_spec.
  - by apply setEncoded_spec.
  - by apply store_get_inv.
  - by apply getEncoded_inv.
  - by apply store_has_inv.
  - by apply store_delete_inv.
  - by apply deleteByPattern_inv.
  - by apply store_clear_inv.
  - by apply store_size_inv.
  - by apply evictOne_inv.
  - by apply store_close_spec.
Qed.

Lemma newStore_inv c b :
  lru_ok c → lru_entries c = [] → ledger_inv b → balance "fresh" b = fb → balance "metadata" b = mb →
  ms_inv 0 (newStore c b).
Proof.
  intros Hok Hnil Hl Hf Hm. unfold newStore. destruct (reserve "metadata" HISTORY_BYTES b) as [b' ok] eqn:E.
  assert (Hv : vals c = []) by (unfold vals; by rewrite Hnil).
  assert (Hb : ledger_inv b' ∧ balance "fresh" b' = fb ∧ balance "metadata" b' = mb + if ok then HISTORY_BYTES else 0).
  { destruct ok.
    - apply reserve_accepts in E as (? & ? & Ho); [|done|done]. split_and!; [done|by rewrite Ho|lia].
    - apply reserve_refuses in E as (? & Ho); [|done|done]. split_and!; [done|by rewrite Ho|rewrite Ho; lia]. }
  destruct Hb as (B1 & B2 & B3). split; simpl; [by rewrite Hv|done|done|done|lia|by destruct ok|].
  intros h. destruct ok; [|done]. intros [= <-]. split; [apply length_replicate|].
  apply Forall_replicate. lia.
Qed.

Lemma ms_reachable_inv c b s :
  lru_ok c → lru_entries c = [] → ledger_inv b → balance "fresh" b = fb → balance "metadata" b = mb →
  ms_reachable (newStore c b) s → ms_inv 0 s.
Proof.
  intros Hok Hnil Hl Hf Hm Hr. induction Hr as [|s e _ IH|s b' _ IH Hb Hbf Hbm].
  - by apply newStore_inv.
  - by apply ms_apply_inv.
  - split; try apply IH; simpl; [done|rewrite Hbf; apply IH|rewrite Hbm; apply IH].
Qed.

(** in every history of the store, whatever the other clients of the budget
    do in between, the budget holds under [fresh] exactly the sum of the bytes
    of the resident entries, which is the store's own counter, and under
    [metadata] the 4096 bytes of the sketch while it is kept; at most
    [maxEntries] entries are resident, the sketch keeps 4096 counters of one
    byte, and a closed store holds nothing. *)
Theorem memory_store_accounted c b s :
  lru_ok c → lru_entries c = [] → ledger_inv b → balance "fresh" b = fb → balance "metadata" b = mb →
  ms_reachable (newStore c b) s →
  let resident := from_option lru_entries [] (cache s) in
  ms_bytes s = sumZ (λ e, e_bytes e.2) resident ∧
  balance "fresh" (ms_budget s) = fb + ms_bytes s ∧
  balance "metadata" (ms_budget s) = mb + (if history s is Some _ then HISTORY_BYTES else 0) ∧
  jmap_ok resident ∧ jsize resident <= Z.max 0 (sl_maxEntries limits) ∧
  (∀ h, history s = Some h → history_ok h) ∧
  (ms_closed s = true → resident = [] ∧ ms_bytes s = 0 ∧ history s = None).
Proof.
  intros Hok Hnil Hl Hf Hm Hr. pose proof (ms_reachable_inv c b s Hok Hnil Hl Hf Hm Hr) as Hi.
  pose proof (mi_cache _ _ Hi) as Hc. pose proof (mi_fresh _ _ Hi) as Hfr. pose proof (mi_closed _ _ Hi) as Hcl.
  destruct (cache s) as [c'|] eqn:Ec; simpl.
  - destruct Hc as (Hok' & Hb & _). pose proof (lru_bound c' Hok'). split; [by rewrite Hb, sum_vals|].
    split; [lia|]. split; [apply Hi|]. split; [by apply lru_nodup|]. split; [lia|]. split; [apply Hi|].
    rewrite Hcl. by rewrite bool_decide_eq_false_2.
  - split; [done|]. split; [lia|]. split; [apply Hi|]. split; [constructor|]. split; [unfold jsize; simpl; lia|].
    split; [apply Hi|]. intros _. split_and!; [done|done|]. by apply Hi.
Qed.

(** a write never leaves the value it replaces. Whatever the outcome of
    [setEncoded] — stored, refused by the size limits, by memory pressure, by
    the admission filter or by the budget after evictions — a later reading of
    that key finds the new bytes or nothing; and [set] with an undefined or an
    unencodable value leaves nothing. *)
Theorem set_never_keeps_old c b s k t :
  lru_ok c → lru_entries c = [] → ledger_inv b → balance "fresh" b = fb → balance "metadata" b = mb →
  ms_reachable (newStore c b) s →
  (∀ t1 t2 buffer ttl orig c' e, t1 <= t → cache (setEncoded t1 t2 k buffer ttl orig s) = Some c' →
     lru_peek t k c' = Some e → e_buffer e = buffer) ∧
  (∀ t1 t2 r ttl c', r = Undefined ∨ r = Unencodable → cache (store_set t1 t2 k r ttl s) = Some c' →
     lru_peek t k c' = None).
Proof.
  intros Hok Hnil Hl Hf Hm Hr. pose proof (ms_reachable_inv c b s Hok Hnil Hl Hf Hm Hr) as Hi. split.
  - intros t1 t2 buffer ttl orig c' e Ht Hc' He.
    by apply (proj2 (setEncoded_spec t1 t2 k buffer ttl orig s Hi) t c' e).
  - intros t1 t2 r ttl c' Hr' Hc'.
    assert (Hd : cache (store_delete k s) = Some c').
    { unfold store_set in Hc'. destruct (ms_closed s) eqn:Ecl; [|by destruct Hr' as [-> | ->]].
      pose proof (mi_closed _ _ Hi) as Hcl. rewrite Ecl in Hcl. symmetry in Hcl. apply bool_decide_eq_true in Hcl. congruence. }
    unfold store_delete in Hd. destruct (cache s) as [c0|] eqn:Ec; [|congruence].
    pose proof (lru_delete_ok k c0 (cache_ok _ _ _ Hi Ec)) as Hdel. destruct (lru_delete k c0) as [c1 d].
    destruct Hdel as (Hok1 & Hdr & Hgone). destruct (after_inv 0 c0 c1 d s) as (_ & Hc1 & _); [done..|].
    rewrite Hc1 in Hd. injection Hd as <-. destruct (lru_peek t k c1) as [e|] eqn:Ep; [|done].
    apply lru_peek_entry in Ep; [|done]. apply (jget_elem k e) in Ep; [congruence|by apply lru_nodup].
Qed.
End store.

(** ** Witnesses *)

Definition budget_view (b : MemoryBudget) : BudgetView :=
  {| v_hardCap := mb_hardCap b; v_target := mb_target b; v_accountedBytes := mb_used b;
     v_normal := bool_decide (mb_state b = PNormal) |}.

Definition demo_limits : StoreLimits := {| sl_maxEntries := 2; sl_maxEntryBytes := None; sl_admission := None |}.

Definition demo_ledger : MemoryBudget := default
  {| mb_hardCap := 1; mb_minMemory := None; mb_target := 1; mb_used := 0; mb_categories := ∅; mb_clients := [];
     mb_cursor := 0; mb_state := PNormal; mb_pressureAt := None; mb_recoveryAt := None; mb_sampling := false;
     mb_evictions := 0; mb_admissions := 0; mb_failedAdmissions := 0 |} (newMemoryBudget 8192 None).

Lemma demo_ledger_inv : ledger_inv demo_ledger.
Proof. by apply (newMemoryBudget_ok 8192 None). Qed.

Abbreviation demo_mstore := (mstore (C := list_lru jsstring Entry) (L := MemoryBudget)).

#[local] Instance demo_ops : LruOps jsstring Entry (list_lru jsstring Entry) := list_lru_ops 2.
#[local] Instance demo_lru : Lru jsstring Entry (list_lru jsstring Entry) 2 := list_lru_lru 2 ltac:(lia).

Definition demo_events : list (ms_event (K := jsstring)) :=
  [MSetEncoded 0 0 (js "a") [1; 2; 3] 1000 None; MGet 1 (js "a");
   MSetEncoded 2 2 (js "b") [4; 5] 1000 None; MSetEncoded 3 3 (js "c") [6] 1000 None; MHas 5 (js "zz")].

Definition demo_store : demo_mstore :=
  ms_run id (λ _, false) budget_view demo_limits (λ b, Some b)
    (newStore {| ll_entries := [] |} demo_ledger) demo_events.

Lemma demo_cache_ok : lru_ok {| ll_entries := [] : list (jsstring * (Entry * Z)) |}.
Proof. apply (list_lru_empty 2). lia. Qed.

Lemma demo_store_reachable :
  ms_reachable id (λ _, false) budget_view demo_limits (λ b, Some b)
    (newStore {| ll_entries := [] |} demo_ledger) demo_store.
Proof. unfold demo_store. apply ms_run_reachable, ms_start. Qed.

Lemma demo_store_bytes : ms_bytes demo_store = 327 ∧ is_Some (history demo_store).
Proof. split; [vm_compute; reflexivity|]. by vm_compute; eexists. Qed.

Lemma memory_store_accounted_witness :
  ms_bytes demo_store = 327 ∧ balance "fresh" (ms_budget demo_store) = 327 ∧
  balance "metadata" (ms_budget demo_store) = 4096.
Proof.
  destruct demo_store_bytes as [Hb [h Hh]].
  destruct (memory_store_accounted id (λ _, false) budget_view demo_limits (λ b, Some b) 0 0
    ltac:(done) ltac:(done) {| ll_entries := [] |} demo_ledger demo_store) as (_ & Hf & Hm & _).
  - exact demo_cache_ok.
  - reflexivity.
  - exact demo_ledger_inv.
  - reflexivity.
  - reflexivity.
  - exact demo_store_reachable.
  - rewrite Hh in Hm. rewrite Hb in Hf. split; [exact Hb|]. split; [exact Hf|exact Hm].
Defined.

(** Replacing ["b"] by an entry too large for the budget removes it. *)
Lemma set_never_keeps_old_witness :
  let big := replicate (Z.to_nat 9000) 7 in
  from_option (lru_peek 10 (js "b")) None (cache demo_store) ≠ None ∧
  ∀ c e, cache (setEncoded id (λ _, false) budget_view demo_limits 9 9 (js "b") big 1000 None demo_store) = Some c →
    lru_peek 10 (js "b") c = Some e → e_buffer e = big.
Proof.
  intros big. split; [by vm_compute|].
  destruct (set_never_keeps_old id (λ _, false) budget_view demo_limits (λ b, Some b) 0 0
    ltac:(done) ltac:(done) {| ll_entries := [] |} demo_ledger demo_store (js "b") 10) as (Hset & _).
  - exact demo_cache_ok.
  - reflexivity.
  - exact demo_ledger_inv.
  - reflexivity.
  - reflexivity.
  - exact demo_store_reachable.
  - intros c e. apply Hset. lia.
Defined.
