(* ===== verification/Uri.v ===== *)
(** * Two encoders of the runtime's library

    [encodeURIComponent] and [Buffer.toString('base64url')], as their standards
    define them, with the facts the Redis key layout relies on: both are
    injective, and what they produce is ASCII without braces. *)

From S2P Require Import Prelude JsValue Utf8.

(** ** [encodeURIComponent] *)

Definition uri_unreserved (c : Z) : bool :=
  ((48 <=? c) && (c <=? 57)) || ((65 <=? c) && (c <=? 90)) || ((97 <=? c) && (c <=? 122))
  || existsb (Z.eqb c) (js "-_.!~*'()").

Definition hex_upper (d : Z) : Z := if d <? 10 then 48 + d else 55 + d.

Definition uri_byte (b : Z) : jsstring :=
  if uri_unreserved b then [b] else [37; hex_upper (b / 16); hex_upper (b mod 16)].

(** [None]: a [URIError], for a lone surrogate. *)
Definition encodeURIComponent (s : jsstring) : option jsstring :=
  if well_formed s then Some (mjoin (uri_byte <$> utf8_encode s)) else None.

(** ** [base64url], without padding *)

Definition b64_char (d : Z) : Z :=
  if d <? 26 then 65 + d else if d <? 52 then 71 + d else if d <? 62 then d - 4
  else if d =? 62 then 45 else 95.

Fixpoint base64url (b : bytes) : jsstring :=
  match b with
  | x :: y :: z :: r =>
      [b64_char (x / 4); b64_char (x mod 4 * 16 + y / 16); b64_char (y mod 16 * 4 + z / 64); b64_char (z mod 64)]
      ++ base64url r
  | [x; y] => [b64_char (x / 4); b64_char (x mod 4 * 16 + y / 16); b64_char (y mod 16 * 4)]
  | [x] => [b64_char (x / 4); b64_char (x mod 4 * 16)]
  | [] => []
  end.

(** [Buffer.from(s, 'utf16le')] *)
Definition utf16le (s : jsstring) : bytes := mjoin ((λ u, [u mod 256; u / 256]) <$> s).

Example uri_demo : encodeURIComponent (js "a/b") = Some (js "a%2Fb"). Proof. vm_compute. reflexivity. Qed.
Example uri_euro : encodeURIComponent [8364] = Some (js "%E2%82%AC"). Proof. vm_compute. reflexivity. Qed.
Example b64_demo : base64url (js "hello") = js "aGVsbG8". Proof. vm_compute. reflexivity. Qed.

(** ** The alphabet of both *)

Definition is_byte (b : Z) : Prop := 0 <= b < 256.

(** ASCII, and none of the delimiters of a key. *)
Definition tag_char (c : Z) : Prop := 0 <= c < 128 ∧ c ≠ 123 ∧ c ≠ 125.

Lemma uri_unreserved_range c :
  uri_unreserved c = true → 33 <= c < 127 ∧ c ≠ 37 ∧ c ≠ 58 ∧ c ≠ 123 ∧ c ≠ 125.
Proof.
  unfold uri_unreserved. intros Hc. apply orb_true_iff in Hc as [Hc|Hc]; [|vm_compute in Hc].
  - rewrite !orb_true_iff, !andb_true_iff, !Z.leb_le in Hc. lia.
  - change (existsb (Z.eqb c) [45; 95; 46; 33; 126; 42; 39; 40; 41] = true) in Hc.
    apply existsb_exists in Hc as (x & Hx & ->%Z.eqb_eq). repeat (destruct Hx as [<-|Hx]; [lia|]). done.
Qed.

Lemma hex_upper_inj a b : 0 <= a < 16 → 0 <= b < 16 → hex_upper a = hex_upper b → a = b.
Proof. unfold hex_upper. intros ? ?. repeat case_match; bools; lia. Qed.

Lemma hex_upper_range d : 0 <= d < 16 → 48 <= hex_upper d < 71 ∧ hex_upper d ≠ 58.
Proof. unfold hex_upper. intros ?. case_match; bools; lia. Qed.

Lemma nibbles b : is_byte b → 0 <= b / 16 < 16 ∧ 0 <= b mod 16 < 16.
Proof. unfold is_byte. intros ?. Z.div_mod_to_equations. lia. Qed.

(** The code words are those of a prefix code. *)
Lemma uri_bytes_inj bs bs' :
  Forall is_byte bs → Forall is_byte bs' → mjoin (uri_byte <$> bs) = mjoin (uri_byte <$> bs') → bs = bs'.
Proof.
  intros Hb. revert bs'. induction Hb as [|b bs Hb Hbs IH]; intros [|b' bs'] Hb'; simpl.
  - done.
  - unfold uri_byte. by case_match.
  - unfold uri_byte. by case_match.
  - apply Forall_cons in Hb' as [Hb' Hbs']. unfold uri_byte.
    destruct (uri_unreserved b) eqn:E, (uri_unreserved b') eqn:E'; simpl; intros [= Heq].
    + subst b'. f_equal. by apply IH.
    + apply uri_unreserved_range in E. lia.
    + apply uri_unreserved_range in E'. lia.
    + destruct (nibbles b Hb) as [? ?], (nibbles b' Hb') as [? ?]. f_equal; [|by apply IH].
      pose proof (hex_upper_inj (b / 16) (b' / 16)). pose proof (hex_upper_inj (b mod 16) (b' mod 16)).
      rewrite (Z.div_mod b 16), (Z.div_mod b' 16) by lia. lia.
Qed.

Lemma uri_bytes_tag bs : Forall is_byte bs → Forall (λ c, tag_char c ∧ c ≠ 58) (mjoin (uri_byte <$> bs)).
Proof.
  induction 1 as [|b bs Hb _ IH]; simpl; [constructor|]. apply Forall_app. split; [|done].
  unfold uri_byte, tag_char. destruct (uri_unreserved b) eqn:E.
  - apply uri_unreserved_range in E. repeat constructor; lia.
  - destruct (nibbles b Hb) as [? ?]. pose proof (hex_upper_range (b / 16)). pose proof (hex_upper_range (b mod 16)).
    repeat constructor; lia.
Qed.

Lemma utf8_char_bytes c : 0 <= c < 0x110000 → Forall is_byte (utf8_char c).
Proof.
  intros Hc. unfold utf8_char, is_byte. repeat case_match; bools; repeat constructor; Z.div_mod_to_equations; lia.
Qed.

Lemma utf8_text_bytes cs : Forall scalar cs → Forall is_byte (utf8_text cs).
Proof.
  induction 1 as [|c cs [Hc _] _ IH]; [constructor|]. rewrite utf8_text_cons. apply Forall_app.
  split; [by apply utf8_char_bytes|done].
Qed.

Lemma utf8_encode_bytes s : code_units s → well_formed s = true → Forall is_byte (utf8_encode s).
Proof.
  intros Hu Hw. destruct (well_formed_scalars s Hu Hw) as (cs & Hcs & ->).
  rewrite utf8_encode_utf16 by done. by apply utf8_text_bytes.
Qed.

Lemma utf8_encode_inj s s' :
  code_units s → well_formed s = true → code_units s' → well_formed s' = true →
  utf8_encode s = utf8_encode s' → s = s'.
Proof. intros ? ? ? ? He. by rewrite <-(utf8_roundtrip s), <-(utf8_roundtrip s'), He. Qed.

(** Nothing straddles the end of a well-formed prefix. *)
Lemma utf8_encode_app s k :
  code_units s → well_formed s = true → utf8_encode (s ++ k) = utf8_encode s ++ utf8_encode k.
Proof.
  intros Hu Hw. destruct (well_formed_scalars s Hu Hw) as (cs & Hcs & ->).
  rewrite utf8_encode_utf16 by done. clear Hu Hw. induction Hcs as [|c cs [Hc Hn] _ IH]; [done|].
  rewrite utf16_cons, utf8_text_cons, <-!app_assoc, <-IH. unfold utf16_char.
  destruct (c <? 0x10000) eqn:E; bools; cbn [app utf8_encode]; unfold is_high_surrogate, is_low_surrogate.
  - assert ((0xd800 <=? c) && (c <=? 0xdbff) = false) as -> by (apply andb_false_iff; rewrite !Z.leb_gt; lia).
    assert ((0xdc00 <=? c) && (c <=? 0xdfff) = false) as -> by (apply andb_false_iff; rewrite !Z.leb_gt; lia).
    done.
  - repeat (progress zbool). do 2 f_equal. Z.div_mod_to_equations; lia.
Qed.

Lemma encodeURIComponent_inj s s' e :
  code_units s → code_units s' → encodeURIComponent s = Some e → encodeURIComponent s' = Some e → s = s'.
Proof.
  unfold encodeURIComponent. intros Hu Hu'. destruct (well_formed s) eqn:E; [|done].
  destruct (well_formed s') eqn:E'; [|done]. intros [= <-] [= He]. symmetry in He.
  apply uri_bytes_inj in He; [|by apply utf8_encode_bytes..]. by apply utf8_encode_inj.
Qed.

Lemma encodeURIComponent_tag s e :
  code_units s → encodeURIComponent s = Some e → Forall (λ c, tag_char c ∧ c ≠ 58) e.
Proof.
  unfold encodeURIComponent. intros Hu. destruct (well_formed s) eqn:E; [|done]. intros [= <-].
  by apply uri_bytes_tag, utf8_encode_bytes.
Qed.

Lemma uri_byte_ne b : uri_byte b ≠ [].
Proof. unfold uri_byte. by case_match. Qed.

Lemma utf8_char_ne c : utf8_char c ≠ [].
Proof. unfold utf8_char. by repeat case_match. Qed.

Lemma encodeURIComponent_nil s : code_units s → encodeURIComponent s = Some [] → s = [].
Proof. intros Hu He. apply (encodeURIComponent_inj s [] []); [done|constructor|done|done]. Qed.

(** ** [base64url] *)

Lemma b64_char_inj a b : 0 <= a < 64 → 0 <= b < 64 → b64_char a = b64_char b → a = b.
Proof. unfold b64_char. intros ? ?. repeat case_match; bools; lia. Qed.

Lemma b64_char_tag d : 0 <= d < 64 → tag_char (b64_char d).
Proof. unfold b64_char, tag_char. intros ?. repeat case_match; bools; lia. Qed.

(** Induction by groups of three bytes. *)
Lemma triple_ind (P : bytes → Prop) :
  P [] → (∀ x, P [x]) → (∀ x y, P [x; y]) → (∀ x y z r, P r → P (x :: y :: z :: r)) → ∀ b, P b.
Proof.
  intros H0 H1 H2 H3. fix IH 1. intros [|x [|y [|z r]]]; [done|apply H1|apply H2|]. apply H3, IH.
Qed.

Ltac sextets :=
  repeat match goal with E : b64_char _ = b64_char _ |- _ => apply b64_char_inj in E; [|Z.div_mod_to_equations; lia..] end.

Lemma base64url_inj b b' : Forall is_byte b → Forall is_byte b' → base64url b = base64url b' → b = b'.
Proof.
  unfold is_byte. revert b'. induction b as [|x|x y|x y z r IH] using triple_ind; intros b' Hb Hb'.
  - destruct b' as [|x' [|y' [|z' r']]]; done.
  - rewrite Forall_singleton in Hb. destruct b' as [|x' [|y' [|z' r']]]; simpl; try done.
    rewrite Forall_singleton in Hb'. intros [= E1 E2]. sextets. f_equal. Z.div_mod_to_equations; lia.
  - rewrite !Forall_cons in Hb. destruct Hb as (Hx & Hy & _). destruct b' as [|x' [|y' [|z' r']]]; simpl; try done.
    rewrite !Forall_cons in Hb'. destruct Hb' as (Hx' & Hy' & _). intros [= E1 E2 E3]. sextets.
    assert (x = x') by (Z.div_mod_to_equations; lia). f_equal; [done|]. f_equal. Z.div_mod_to_equations; lia.
  - rewrite !Forall_cons in Hb. destruct Hb as (Hx & Hy & Hz & Hr).
    destruct b' as [|x' [|y' [|z' r']]]; simpl; try done.
    rewrite !Forall_cons in Hb'. destruct Hb' as (Hx' & Hy' & Hz' & Hr'). intros [= E1 E2 E3 E4 E]. sextets.
    assert (x = x') by (Z.div_mod_to_equations; lia). assert (y = y') by (Z.div_mod_to_equations; lia).
    assert (z = z') by (Z.div_mod_to_equations; lia). subst. by rewrite (IH r').
Qed.

Lemma base64url_tag b : Forall is_byte b → Forall tag_char (base64url b).
Proof.
  unfold is_byte. induction b as [|x|x y|x y z r IH] using triple_ind; rewrite ?Forall_cons; simpl.
  - constructor.
  - intros (Hx & _). repeat constructor; apply b64_char_tag; Z.div_mod_to_equations; lia.
  - intros (Hx & Hy & _). repeat constructor; apply b64_char_tag; Z.div_mod_to_equations; lia.
  - intros (Hx & Hy & Hz & Hr). repeat (constructor; [apply b64_char_tag; Z.div_mod_to_equations; lia|]). by apply IH.
Qed.

Lemma utf16le_bytes s : code_units s → Forall is_byte (utf16le s).
Proof.
  unfold utf16le, is_byte. induction 1 as [|u s Hu _ IH]; simpl; [constructor|].
  repeat constructor; [Z.div_mod_to_equations; lia..|done].
Qed.

Lemma utf16le_inj s s' : utf16le s = utf16le s' → s = s'.
Proof.
  unfold utf16le. revert s'. induction s as [|u s IH]; intros [|u' s']; simpl; try done.
  intros [= Hm Hd E]. f_equal; [|by apply IH]. rewrite (Z.div_mod u 256), (Z.div_mod u' 256) by lia. lia.
Qed.

(** ** Decoded text is made of code units *)

(** The code point accumulated so far stays below the last scalar value. *)
Definition u8_bounded (st : u8state) : Prop :=
  u_needed st = 0 ∨
  (0 <= u_cp st ∧ u_upper st < 0xc0 ∧
   ((u_needed st = 1 ∧ u_cp st <= 0x43ff) ∨ (u_needed st = 2 ∧ u_cp st <= 0x10f) ∨
    (u_needed st = 3 ∧ (u_cp st <= 3 ∨ (u_cp st = 4 ∧ u_upper st <= 0x8f))))) ∧ 0x80 <= u_lower st.

Lemma u8_first_bounded b o st : is_byte b → u8_first b = (o, st) → code_units o ∧ u8_bounded st.
Proof.
  unfold is_byte, u8_first, u8_bounded, code_units. intros Hb E. repeat case_match; simplify_eq; bools; simpl;
    (split; [repeat constructor; lia|]); try (by left); right; lia.
Qed.

Lemma utf16_char_units c : 0 <= c <= 0x10ffff → code_units (utf16_char c).
Proof.
  intros Hc. unfold utf16_char, code_units. case_match; bools; repeat constructor; Z.div_mod_to_equations; lia.
Qed.

Lemma u8_step_bounded st b o st' :
  is_byte b → u8_bounded st → u8_step st b = (o, st') → code_units o ∧ u8_bounded st'.
Proof.
  intros Hb Hst. unfold u8_step. destruct (u_needed st =? 0) eqn:E0; [by apply u8_first_bounded|].
  destruct ((b <? u_lower st) || (u_upper st <? b)) eqn:Eb.
  { destruct (u8_first b) as [o1 st1] eqn:E1. apply u8_first_bounded in E1 as [Ho H1]; [|done].
    intros [= <- <-]. split; [constructor; [lia|done]|done]. }
  destruct Hst as [Hst|Hst]; bools; [lia|].
  destruct (u_needed st =? 1) eqn:E1; bools; intros [= <- <-].
  - split; [apply utf16_char_units; lia|by left].
  - split; [constructor|]. right. simpl. lia.
Qed.

Lemma utf8_decode_units bs : Forall is_byte bs → code_units (utf8_decode bs).
Proof.
  unfold utf8_decode. assert (Hs : u8_bounded u8_start) by by left. revert Hs. generalize u8_start.
  intros st Hst Hbs. revert st Hst. induction Hbs as [|b bs Hb _ IH]; intros st Hst; simpl.
  - case_match; [constructor|repeat constructor; lia].
  - destruct (u8_step st b) as [o st'] eqn:E. apply u8_step_bounded in E as [Ho Hst']; [|done..].
    apply Forall_app. split; [done|by apply IH].
Qed.
