(* ===== verification/RedisKeys.v ===== *)
(** * The key layout of the Redis store ([src/src/cache/redisStore.ts])

    How a logical key becomes the Redis keys of its data and of its lease, in
    the legacy and in the versioned layout, how a scanned Redis key is parsed
    back, and the globs of the pattern operations. A key is [String(key)]. *)

From S2P Require Import Prelude JsValue Utf8 Uri Pattern.

Definition VERSIONED_KEY_PREFIX : jsstring := js "lazy-layers:v2:".
Definition LOCK : jsstring := js "__lock:".

(** What the constructor settles. *)
Record layout := { prefix : jsstring; indexKey : jsstring; useVersionedKeys : bool }.

Fixpoint wellFormedUnicode (value : jsstring) : bool :=
  match value with
  | [] => true
  | unit :: rest =>
      if (0xd800 <=? unit) && (unit <=? 0xdbff) then
        match rest with
        | next :: rest' => ((0xdc00 <=? next) && (next <=? 0xdfff)) && wellFormedUnicode rest'
        | [] => false
        end
      else negb ((0xdc00 <=? unit) && (unit <=? 0xdfff)) && wellFormedUnicode rest
  end.

(** The checks of the constructor on the prefix; [hasDefineCommand], [hasEval]
    and the outcome of the script registrations are the client's. *)
Inductive key_layout := Auto | Legacy | V2.

#[export] Instance key_layout_eq_dec : EqDecision key_layout.
Proof. solve_decision. Defined.

Inductive layout_error := PrefixNotUnicode | V2NeedsScripts | V2NotRegistered.

Definition new_layout (pre : option jsstring) (index : option jsstring) (keyLayout : key_layout)
    (hasDefineCommand hasEval allScriptsRegistered : bool) : result layout_error layout :=
  let prefix := pre ?? js "cache:" in
  if negb (wellFormedUnicode prefix) then Throw PrefixNotUnicode
  else if bool_decide (keyLayout = V2) && negb hasDefineCommand && negb hasEval then Throw V2NeedsScripts
  else
    let use := bool_decide (keyLayout = V2) || (negb (bool_decide (keyLayout = Legacy)) && hasDefineCommand) in
    if use && negb hasEval && negb allScriptsRegistered then
      if bool_decide (keyLayout = V2) then Throw V2NotRegistered
      else Ok {| prefix := prefix; indexKey := index ?? (prefix ++ js "__index"); useVersionedKeys := false |}
    else Ok {| prefix := prefix; indexKey := index ?? (prefix ++ js "__index"); useVersionedKeys := use |}.

Definition atomicPublicationSupported (l : layout) (hasEval allScriptsRegistered : bool) : bool :=
  useVersionedKeys l && (hasEval || allScriptsRegistered).

(** ** Keys *)

Definition toSlotTag (logicalKey : jsstring) : jsstring :=
  match encodeURIComponent logicalKey with
  | Some [] => js "_"
  | Some e => e
  | None => js "utf16:" ++ base64url (utf16le logicalKey)
  end.

Definition versioned (tag rest : jsstring) : jsstring :=
  VERSIONED_KEY_PREFIX ++ js "{" ++ tag ++ js "}:" ++ rest.

Definition toRedisKey (l : layout) (key : jsstring) : jsstring :=
  if useVersionedKeys l then versioned (toSlotTag key) (prefix l ++ key) else prefix l ++ key.

Definition toLockKey (l : layout) (key : jsstring) : jsstring :=
  if useVersionedKeys l then versioned (toSlotTag key) (prefix l ++ LOCK ++ key) else prefix l ++ LOCK ++ key.

(** [true]: the key is refused with a [RangeError]. *)
Definition assertDataKey (l : layout) (key : jsstring) : bool :=
  negb (useVersionedKeys l) && (starts_with key LOCK || bool_decide (toRedisKey l key = indexKey l)).

Inductive key_kind := Data | Lock.

#[export] Instance key_kind_eq_dec : EqDecision key_kind.
Proof. solve_decision. Defined.

(** [indexOf] from a position. *)
Fixpoint index_of (needle s : jsstring) : option nat :=
  if starts_with s needle then Some 0%nat
  else match s with [] => None | _ :: s' => S <$> index_of needle s' end.

Definition index_of_from (needle s : jsstring) (from : nat) : option nat :=
  (λ i, i + from)%nat <$> index_of needle (drop from s).

Definition parseRedisKey (l : layout) (redisKey : jsstring) : option (key_kind * jsstring) :=
  if bool_decide (redisKey = indexKey l) then None
  else if negb (useVersionedKeys l) then
    if negb (starts_with redisKey (prefix l)) then None
    else
      let logicalKey := drop (length (prefix l)) redisKey in
      if starts_with logicalKey LOCK then Some (Lock, drop (length LOCK) logicalKey) else Some (Data, logicalKey)
  else if negb (starts_with redisKey (VERSIONED_KEY_PREFIX ++ js "{")) then None
  else match index_of_from (js "}:") redisKey (length VERSIONED_KEY_PREFIX) with
       | None => None
       | Some tagEnd =>
           let suffix := drop (tagEnd + 2) redisKey in
           if negb (starts_with suffix (prefix l)) then None
           else
             let logicalKey := drop (length (prefix l)) suffix in
             if bool_decide (toRedisKey l logicalKey = redisKey) then Some (Data, logicalKey)
             else if starts_with logicalKey LOCK then
               let lockedKey := drop (length LOCK) logicalKey in
               if bool_decide (toLockKey l lockedKey = redisKey) then Some (Lock, lockedKey) else None
             else None
       end.

Definition toLogicalKey (l : layout) (redisKey : jsstring) : jsstring :=
  from_option snd redisKey (parseRedisKey l redisKey).

Definition isInternalRedisKey (l : layout) (redisKey : jsstring) : bool :=
  negb (bool_decide (fst <$> parseRedisKey l redisKey = Some Data)).

(** ** Globs *)

Definition backslash : Z := 92.

Definition escapeRedisGlob (value : jsstring) : jsstring :=
  mjoin ((λ c, if existsb (Z.eqb c) (backslash :: js "*?[]") then [backslash; c] else [c]) <$> value).

Definition cachePatternToRedisGlob (value : jsstring) : jsstring :=
  mjoin ((λ c, if existsb (Z.eqb c) (backslash :: js "?[]") then [backslash; c] else [c]) <$> value).

Definition toRedisPattern (l : layout) (pattern : jsstring) : jsstring :=
  (if useVersionedKeys l then VERSIONED_KEY_PREFIX ++ js "*:" else [])
  ++ escapeRedisGlob (prefix l) ++ cachePatternToRedisGlob pattern.

Definition leasePattern (l : layout) (pattern : jsstring) : jsstring :=
  VERSIONED_KEY_PREFIX ++ js "*:" ++ escapeRedisGlob (prefix l) ++ LOCK ++ cachePatternToRedisGlob pattern.

Definition demo_v2 : layout := {| prefix := js "cache:"; indexKey := js "cache:__index"; useVersionedKeys := true |}.

Example redis_key_demo : toRedisKey demo_v2 (js "a b") = js "lazy-layers:v2:{a%20b}:cache:a b".
Proof. vm_compute. reflexivity. Qed.
Example parse_demo : parseRedisKey demo_v2 (toLockKey demo_v2 (js "a}:b")) = Some (Lock, js "a}:b").
Proof. vm_compute. reflexivity. Qed.

(** ** Facts *)

Lemma wellFormedUnicode_spec s : wellFormedUnicode s = well_formed s.
Proof. reflexivity. Qed.

Lemma starts_with_app p w : starts_with (p ++ w) p = true.
Proof. apply starts_with_spec. by exists w. Qed.

Lemma toSlotTag_chars k : code_units k → Forall tag_char (toSlotTag k).
Proof.
  intros Hk. unfold toSlotTag. destruct (encodeURIComponent k) as [e|] eqn:E.
  - apply encodeURIComponent_tag in E; [|done]. assert (He : Forall tag_char e) by (eapply Forall_impl; [exact E|by intros x [? _]]).
    destruct e; [|done]. change (js "_") with [95]. repeat constructor; unfold tag_char; lia.
  - change (js "utf16:") with [117; 116; 102; 49; 54; 58]. apply Forall_app. split; [repeat constructor; unfold tag_char; lia|]. by apply base64url_tag, utf16le_bytes.
Qed.

(** The tag names the logical key, but for the empty key and ["_"]. *)
Definition same_tag_class (k k' : jsstring) : Prop :=
  k = k' ∨ (k = [] ∧ k' = js "_") ∨ (k = js "_" ∧ k' = []).

Lemma toSlotTag_uri k e : encodeURIComponent k = Some e → toSlotTag k = if bool_decide (e = []) then js "_" else e.
Proof. unfold toSlotTag. intros ->. by destruct e. Qed.

Lemma toSlotTag_none k : encodeURIComponent k = None → toSlotTag k = js "utf16:" ++ base64url (utf16le k).
Proof. unfold toSlotTag. by intros ->. Qed.

(** A fallback tag has a colon, an URI tag has none. *)
Lemma toSlotTag_disjoint k k' e :
  code_units k → encodeURIComponent k = Some e → encodeURIComponent k' = None → toSlotTag k ≠ toSlotTag k'.
Proof.
  intros Hk E E' Heq. pose proof (encodeURIComponent_tag k e Hk E) as He.
  rewrite (toSlotTag_uri k e E), (toSlotTag_none k' E') in Heq.
  assert (Hin : 58 ∈ js "utf16:" ++ base64url (utf16le k')) by (apply elem_of_app; left; change (js "utf16:") with [117; 116; 102; 49; 54; 58]; set_solver).
  rewrite <-Heq in Hin. case_bool_decide.
  - apply list_elem_of_singleton in Hin. done.
  - apply (proj1 (Forall_forall _ _) He) in Hin. tauto.
Qed.

Lemma uri_underscore k : code_units k → encodeURIComponent k = Some (js "_") → k = js "_".
Proof. intros Hk E. apply (encodeURIComponent_inj k (js "_") (js "_")); [done|change (js "_") with [95]; repeat constructor; lia|done|done]. Qed.

Lemma toSlotTag_class k k' : code_units k → code_units k' → toSlotTag k = toSlotTag k' → same_tag_class k k'.
Proof.
  intros Hk Hk' Heq. unfold same_tag_class.
  destruct (encodeURIComponent k) as [e|] eqn:E, (encodeURIComponent k') as [e'|] eqn:E'.
  - rewrite (toSlotTag_uri k e E), (toSlotTag_uri k' e' E') in Heq. repeat case_bool_decide; subst.
    + left. by apply (encodeURIComponent_inj k k' _ Hk Hk' E).
    + right; left. by rewrite (encodeURIComponent_nil k), (uri_underscore k').
    + right; right. by rewrite (encodeURIComponent_nil k'), (uri_underscore k).
    + left. by apply (encodeURIComponent_inj k k' _ Hk Hk' E).
  - by apply (toSlotTag_disjoint k k' e) in Heq.
  - symmetry in Heq. by apply (toSlotTag_disjoint k' k e') in Heq.
  - rewrite (toSlotTag_none k), (toSlotTag_none k') in Heq by done. apply app_inv_head in Heq.
    left. apply base64url_inj in Heq; [|by apply utf16le_bytes..]. by apply utf16le_inj.
Qed.

Lemma toSlotTag_lock k : code_units k → toSlotTag (LOCK ++ k) ≠ toSlotTag k.
Proof.
  intros Hk Heq. assert (Hlk : code_units (LOCK ++ k)).
  { apply Forall_app. split; [|done]. change LOCK with [95; 95; 108; 111; 99; 107; 58]. repeat constructor; lia. }
  destruct (toSlotTag_class _ _ Hlk Hk Heq) as [E|[[E _]|[E _]]]; apply (f_equal length) in E; rewrite length_app in E;
    change (length LOCK) with 7%nat in E; simpl in E; [lia..|]. change (length (js "_")) with 1%nat in E. lia.
Qed.

(** The tag ends at the first closing brace. *)
Lemma tag_split (t t' r r' : jsstring) :
  125 ∉ t → 125 ∉ t' → t ++ 125 :: r = t' ++ 125 :: r' → t = t' ∧ r = r'.
Proof.
  revert t'. induction t as [|c t IH]; intros [|c' t'] Ht Ht'; simpl.
  - by intros [= ->].
  - intros [= <- _]. exfalso. apply Ht'. by left.
  - intros [= -> _]. exfalso. apply Ht. by left.
  - intros [= -> E]. destruct (IH t') as [-> ->]; [set_solver|set_solver|done|done].
Qed.

Lemma tag_no_brace k : code_units k → 125 ∉ toSlotTag k.
Proof. intros Hk Hin. apply (proj1 (Forall_forall _ _) (toSlotTag_chars k Hk)) in Hin as (_ & _ & ?). done. Qed.

Lemma versioned_inj t t' r r' :
  125 ∉ t → 125 ∉ t' → versioned t r = versioned t' r' → t = t' ∧ r = r'.
Proof.
  unfold versioned. intros Ht Ht' E. do 2 apply app_inv_head in E. change (js "}:") with [125; 58] in E.
  simpl in E. apply tag_split in E as [-> E]; [|done|done]. split; [done|congruence].
Qed.

Lemma index_of_brace (t r : jsstring) : 125 ∉ t → index_of (js "}:") (t ++ js "}:" ++ r) = Some (length t).
Proof.
  induction t as [|c t IH]; intros Ht; [done|]. cbn [app index_of].
  assert (starts_with (c :: t ++ js "}:" ++ r) (js "}:") = false) as ->.
  { unfold starts_with. apply bool_decide_eq_false. change (js "}:") with [125; 58]. simpl. intros [= -> _]. set_solver. }
  rewrite IH by set_solver. done.
Qed.

(** Where the parser cuts a versioned key. *)
Lemma versioned_cut t r :
  125 ∉ t →
  starts_with (versioned t r) (VERSIONED_KEY_PREFIX ++ js "{") = true ∧
  index_of_from (js "}:") (versioned t r) (length VERSIONED_KEY_PREFIX)
    = Some (length VERSIONED_KEY_PREFIX + 1 + length t)%nat ∧
  drop (length VERSIONED_KEY_PREFIX + 1 + length t + 2) (versioned t r) = r.
Proof.
  intros Ht. unfold versioned. split; [rewrite app_assoc; apply starts_with_app|]. split.
  - unfold index_of_from. rewrite drop_app_length.
    change (js "{" ++ t ++ js "}:" ++ r) with (([123] ++ t) ++ js "}:" ++ r).
    rewrite index_of_brace by (rewrite elem_of_app, list_elem_of_singleton; intros [|]; [lia|done]).
    cbn [fmap option_fmap option_map]. f_equal. cbn [app length]. lia.
  - rewrite !app_assoc, drop_app_ge by (rewrite !length_app; simpl; lia).
    replace (_ - _)%nat with 0%nat; [done|]. rewrite !length_app. simpl. lia.
Qed.

Definition key_of (l : layout) (kind : key_kind) (k : jsstring) : jsstring :=
  match kind with Data => toRedisKey l k | Lock => toLockKey l k end.

Definition kind_marker (kind : key_kind) : jsstring := match kind with Data => [] | Lock => LOCK end.

Lemma key_of_versioned l kind k :
  useVersionedKeys l = true → key_of l kind k = versioned (toSlotTag k) (prefix l ++ kind_marker kind ++ k).
Proof. intros Hv. destruct kind; simpl; unfold toRedisKey, toLockKey; by rewrite Hv. Qed.

Lemma data_lock_distinct l k k' :
  useVersionedKeys l = true → code_units k → code_units k' → LOCK ++ k = k' → toRedisKey l k' ≠ toLockKey l k.
Proof.
  intros Hv Hk Hk' <- E. change (key_of l Data (LOCK ++ k) = key_of l Lock k) in E.
  rewrite !key_of_versioned in E by done. apply versioned_inj in E as [E _]; [|by apply tag_no_brace..].
  by apply toSlotTag_lock in E.
Qed.

Lemma lock_units k : code_units k → code_units (LOCK ++ k).
Proof.
  intros Hk. apply Forall_app. split; [|done]. change LOCK with [95; 95; 108; 111; 99; 107; 58]. repeat constructor; lia.
Qed.

Lemma parseRedisKey_sound l redisKey kind k :
  parseRedisKey l redisKey = Some (kind, k) →
  redisKey ≠ indexKey l ∧ redisKey = key_of l kind k ∧
  (useVersionedKeys l = false → kind = Data → starts_with k LOCK = false).
Proof.
  unfold parseRedisKey. case_bool_decide as Hi; [done|]. intros E. split; [done|]. revert E.
  destruct (useVersionedKeys l) eqn:Hv; cbn [negb]; intros E.
  - split; [|done]. destruct (negb _); [done|]. destruct (index_of_from _ _ _); [|done].
    destruct (negb _); [done|]. case_bool_decide as Hd; [by injection E as <- <-|].
    destruct (starts_with _ LOCK); [|done]. case_bool_decide as Hl; [|done]. by injection E as <- <-.
  - destruct (starts_with redisKey (prefix l)) eqn:Hp; [|done].
    apply starts_with_spec in Hp as [w ->]. rewrite drop_app_length in E. cbn [negb] in E.
    destruct (starts_with w LOCK) eqn:Hl.
    + apply starts_with_spec in Hl as [x ->]. rewrite drop_app_length in E. injection E as <- <-.
      split; [simpl; unfold toLockKey; by rewrite Hv|done].
    + injection E as <- <-. split; [simpl; unfold toRedisKey; by rewrite Hv|by intros _ _].
Qed.

Lemma parseRedisKey_complete l kind k :
  code_units k → key_of l kind k ≠ indexKey l →
  (useVersionedKeys l = false → kind = Data → starts_with k LOCK = false) →
  parseRedisKey l (key_of l kind k) = Some (kind, k).
Proof.
  intros Hk Hi Hs. unfold parseRedisKey. rewrite bool_decide_eq_false_2 by done.
  destruct (useVersionedKeys l) eqn:Hv; cbn [negb].
  - rewrite key_of_versioned by done.
    destruct (versioned_cut (toSlotTag k) (prefix l ++ kind_marker kind ++ k) (tag_no_brace k Hk)) as (-> & -> & ->).
    cbn [negb]. rewrite starts_with_app. cbn [negb]. rewrite drop_app_length, <-key_of_versioned by done.
    destruct kind; simpl kind_marker.
    + by rewrite bool_decide_eq_true_2.
    + rewrite bool_decide_eq_false_2, starts_with_app, drop_app_length
        by (apply data_lock_distinct; try done; by apply lock_units).
      by rewrite bool_decide_eq_true_2.
  - destruct kind; unfold key_of, toRedisKey, toLockKey; rewrite Hv, starts_with_app, drop_app_length; cbn [negb].
    + by rewrite Hs.
    + by rewrite starts_with_app, drop_app_length.
Qed.

(** the parser of scanned Redis keys is the exact inverse of the key
    layout. A Redis key parses as the data (the lease) of a logical key
    precisely when it is the key the store would write for it, it is not the
    index, and, in the legacy layout, a data key does not have the form of a
    lease; whatever braces, colons or lone surrogates the logical key holds. *)
Theorem parseRedisKey_exact l redisKey kind k :
  code_units k →
  parseRedisKey l redisKey = Some (kind, k) ↔
  redisKey ≠ indexKey l ∧ redisKey = key_of l kind k ∧
  (useVersionedKeys l = false → kind = Data → starts_with k LOCK = false).
Proof.
  intros Hk. split; [apply parseRedisKey_sound|]. intros (Hi & -> & Hs). by apply parseRedisKey_complete.
Qed.

(** ** Isolation of namespaces

    Redis sees the UTF-8 bytes of a key. *)

Definition wire (s : jsstring) : bytes := utf8_encode s.

Lemma ascii_well_formed s : ascii s → code_units s ∧ well_formed s = true.
Proof.
  induction 1 as [|c s Hc _ [IHu IHw]]; [by split; [constructor|]|]. split; [constructor; [lia|done]|].
  simpl. unfold is_high_surrogate, is_low_surrogate. repeat (progress zbool). done.
Qed.

Lemma ascii_check s : forallb (λ c, (0 <=? c) && (c <? 128)) s = true → ascii s.
Proof. intros Hs. apply Forall_forall. intros c Hc. apply list_elem_of_In in Hc. apply (proj1 (forallb_forall _ _) Hs) in Hc. bools. lia. Qed.

Lemma versioned_wire t r : Forall tag_char t → wire (versioned t r) = versioned t (wire r).
Proof.
  intros Ht. unfold wire, versioned. rewrite !app_assoc.
  assert (Ha : ascii (((VERSIONED_KEY_PREFIX ++ js "{") ++ t) ++ js "}:")).
  { apply Forall_app. split; [apply Forall_app; split|].
    - by apply ascii_check.
    - eapply Forall_impl; [exact Ht|]. by intros x [? _].
    - by apply ascii_check. }
  destruct (ascii_well_formed _ Ha). rewrite utf8_encode_app by done. by rewrite (utf8_encode_ascii _ Ha).
Qed.

Lemma utf16_app cs cs' : utf16 (cs ++ cs') = utf16 cs ++ utf16 cs'.
Proof. induction cs as [|c cs IH]; [done|]. rewrite <-app_comm_cons, !utf16_cons, IH. by rewrite app_assoc. Qed.

Definition good_prefix (l : layout) : Prop := useVersionedKeys l = true ∧ code_units (prefix l) ∧ wellFormedUnicode (prefix l) = true.

Lemma key_wire l kind k :
  good_prefix l → code_units k →
  wire (key_of l kind k) = versioned (toSlotTag k) (wire (prefix l) ++ kind_marker kind ++ wire k).
Proof.
  intros (Hv & Hp & Hw) Hk. rewrite key_of_versioned, versioned_wire by (done || by apply toSlotTag_chars).
  f_equal. unfold wire. rewrite utf8_encode_app by done. f_equal. destruct kind; [done|]. simpl kind_marker.
  assert (Ha : ascii LOCK) by by apply ascii_check.
  destruct (ascii_well_formed _ Ha). rewrite utf8_encode_app by done. by rewrite (utf8_encode_ascii _ Ha).
Qed.

(** no two entries of Redis are confused. For stores of the versioned
    layout with well-formed prefixes, the bytes Redis sees of two keys, each the
    data or the lease of a logical key, coincide only for the same logical key
    (the empty key and ["_"], whose tags coincide, apart); and then only for the
    same kind and the same prefix, or when one prefix is the other followed by
    ["__lock:"], so that the data of one are the leases of the other. *)
Theorem redis_keys_isolated l l' kind kind' k k' :
  good_prefix l → good_prefix l' → code_units k → code_units k' →
  wire (key_of l kind k) = wire (key_of l' kind' k') →
  same_tag_class k k' ∧
  (k = k' →
   (kind = kind' ∧ prefix l = prefix l') ∨
   (kind = Data ∧ kind' = Lock ∧ prefix l = prefix l' ++ LOCK) ∨
   (kind = Lock ∧ kind' = Data ∧ prefix l' = prefix l ++ LOCK)).
Proof.
  intros Hl Hl' Hk Hk'. rewrite !key_wire by done. intros E.
  apply versioned_inj in E as [Ht E]; [|by apply tag_no_brace..].
  split; [by apply toSlotTag_class|]. intros ->. rewrite !app_assoc in E. apply app_inv_tail in E.
  destruct Hl as (_ & Hu & Hw), Hl' as (_ & Hu' & Hw'). rewrite wellFormedUnicode_spec in Hw, Hw'.
  assert (Hlock : ∀ p, code_units p → well_formed p = true →
    wire p ++ LOCK = wire (p ++ LOCK) ∧ code_units (p ++ LOCK) ∧ well_formed (p ++ LOCK) = true).
  { intros p Hp Hwp. assert (Ha : ascii LOCK) by by apply ascii_check. destruct (ascii_well_formed _ Ha) as [Hul Hwl].
    unfold wire. rewrite utf8_encode_app, (utf8_encode_ascii LOCK) by done. split; [done|].
    split; [by apply Forall_app|]. destruct (well_formed_scalars p Hp Hwp) as (cs & Hcs & ->).
    destruct (well_formed_scalars LOCK Hul Hwl) as (cs' & Hcs' & ->).
    rewrite <-utf16_app. apply scalars_well_formed. by apply Forall_app. }
  destruct (Hlock _ Hu Hw) as (L1 & L2 & L3), (Hlock _ Hu' Hw') as (L1' & L2' & L3').
  destruct kind, kind'; simpl kind_marker in E; rewrite ?app_nil_r, ?L1, ?L1' in E; apply utf8_encode_inj in E; try done.
  - by left.
  - by right; left.
  - by right; right.
  - left. split; [done|]. by apply app_inv_tail in E.
Qed.

(** ** Two exceptions *)

Definition v2 (p : string) : layout := {| prefix := js p; indexKey := js p ++ js "__index"; useVersionedKeys := true |}.

(** A namespace nested under ["__lock:"] shares its data keys with the leases
    of the outer one. *)
Lemma nested_namespace_collides k : toRedisKey (v2 "cache:__lock:") k = toLockKey (v2 "cache:") k.
Proof. reflexivity. Qed.

(** The empty key has the tag of ["_"]. *)
Lemma empty_key_collides : toRedisKey (v2 "a") (js "_") = toRedisKey (v2 "a_") [].
Proof. vm_compute. reflexivity. Qed.

(** ** What a SCAN sees

    The client decodes the bytes of a key. *)

Lemma versioned_units l kind k :
  useVersionedKeys l = true → code_units (key_of l kind k) → code_units k.
Proof.
  intros Hv. rewrite key_of_versioned by done. unfold versioned, code_units. rewrite !Forall_app. tauto.
Qed.

Lemma legacy_units l kind k : useVersionedKeys l = false → code_units (key_of l kind k) → code_units k.
Proof. intros Hv. destruct kind; unfold key_of, toRedisKey, toLockKey; rewrite Hv; unfold code_units; rewrite !Forall_app; tauto. Qed.

Lemma parsed_units l redisKey kind k :
  parseRedisKey l redisKey = Some (kind, k) → code_units redisKey → code_units k.
Proof.
  intros (_ & -> & _)%parseRedisKey_sound. destruct (useVersionedKeys l) eqn:Hv; [by apply versioned_units|by apply legacy_units].
Qed.

(** A key with a lone surrogate does not survive the wire: no scan finds it,
    and neither [clear] nor [deleteByPattern] removes it. *)
Lemma lone_surrogate_not_scanned :
  parseRedisKey demo_v2 (utf8_decode (wire (toRedisKey demo_v2 [0xd800]))) = None.
Proof. vm_compute. reflexivity. Qed.

(** ** Witnesses *)

Lemma parseRedisKey_exact_witness :
  parseRedisKey demo_v2 (toLockKey demo_v2 [55357; 125]) = Some (Lock, [55357; 125]).
Proof.
  apply (parseRedisKey_exact demo_v2 (toLockKey demo_v2 [55357; 125]) Lock [55357; 125]).
  - repeat constructor; lia.
  - split; [by vm_compute|]. split; [reflexivity|done].
Defined.

Lemma redis_keys_isolated_witness :
  let l := v2 "cache:" in let l' := v2 "cache:__lock:" in
  wire (key_of l Lock (js "k")) = wire (key_of l' Data (js "k")) ∧ prefix l' = prefix l ++ LOCK.
Proof.
  intros l l'. assert (E : wire (key_of l Lock (js "k")) = wire (key_of l' Data (js "k"))) by reflexivity.
  split; [exact E|].
  destruct (redis_keys_isolated l l' Lock Data (js "k") (js "k")) as (_ & Hk).
  - split; [done|]. split; [by apply ascii_well_formed, ascii_check|reflexivity].
  - split; [done|]. split; [by apply ascii_well_formed, ascii_check|reflexivity].
  - by apply ascii_well_formed, ascii_check.
  - by apply ascii_well_formed, ascii_check.
  - exact E.
  - destruct (Hk eq_refl) as [[? ?]|[(? & ? & ?)|(_ & _ & Hp)]]; [done|done|exact Hp].
Defined.
