(* ===== verification/RedisServer.v ===== *)
(** * The Redis server, as the Redis store uses it

    Redis is not part of the repository: a database is a parameter, with the
    commands the store sends as operations at a reading of the server's clock,
    and their documented behaviour as laws. A key is observed as absent, as a
    string with its deadline, or as a value of another type. The sorted set of
    the index is only known not to touch other keys. A finite map of strings and
    sorted sets at the end is an instance, for the witnesses. *)

From S2P Require Import Prelude.

Inductive robj := RAbsent | RStr (v : bytes) (deadline : option Z) | ROther.

Inductive redis_error := WrongType | OtherError.

(** The commands on the sorted set of the index. *)
Inductive index_command :=
| ZAdd (score : Z) (member : bytes)
| ZRem (members : list bytes)
| ZCard
| ZRangeWithScores (start stop : Z)
| ZScore (member : bytes)
| ZRemRangeByScore (max : Z).

#[warnings="-register-all"]
Inductive rreply := NilReply | IntReply (n : Z) | BulkReply (b : bytes) | OkReply | ArrayReply (l : list rreply).

Class RedisOps (D : Type) := {
  observe : Z → bytes → D → robj;
  r_get : Z → bytes → D → result redis_error (option bytes);
  r_strlen : Z → bytes → D → result redis_error Z;
  r_pttl : Z → bytes → D → Z;
  r_exists : Z → bytes → D → bool;
  (** [SET key value PX ms] and the same with [NX] *)
  r_set : Z → bytes → bytes → Z → D → D;
  r_setnx : Z → bytes → bytes → Z → D → D * bool;
  r_del : Z → bytes → D → D * Z;
  r_pexpire : Z → bytes → Z → D → D * Z;
  r_index : Z → bytes → index_command → D → D * result redis_error rreply;
}.

Class Redis (D : Type) `{RedisOps D} := {
  observe_later t t' k d :
    t <= t' → observe t' k d = observe t k d ∨ (observe t' k d = RAbsent ∧ ∀ v, observe t k d ≠ RStr v None);
  observe_deadline t k d v e : observe t k d = RStr v (Some e) → t <= e;
  observe_lives t t' k d v e : observe t k d = RStr v (Some e) → t <= t' < e → observe t' k d = RStr v (Some e);
  get_reply t k d :
    r_get t k d = match observe t k d with RAbsent => Ok None | RStr v _ => Ok (Some v) | ROther => Throw WrongType end;
  strlen_reply t k d :
    r_strlen t k d = match observe t k d with
                     | RAbsent => Ok 0 | RStr v _ => Ok (Z.of_nat (length v)) | ROther => Throw WrongType
                     end;
  pttl_reply t k d :
    match observe t k d with
    | RAbsent => r_pttl t k d = -2
    | RStr _ (Some e) => r_pttl t k d = e - t
    | RStr _ None => r_pttl t k d = -1
    | ROther => True
    end;
  exists_reply t k d : r_exists t k d = negb (match observe t k d with RAbsent => true | _ => false end);
  set_effect t k v px d k' :
    0 < px → observe t k' (r_set t k v px d) = if decide (k' = k) then RStr v (Some (t + px)) else observe t k' d;
  setnx_effect t k v px d k' : 0 < px →
    let '(d', ok) := r_setnx t k v px d in
    ok = (match observe t k d with RAbsent => true | _ => false end) ∧
    observe t k' d' = if ok && bool_decide (k' = k) then RStr v (Some (t + px)) else observe t k' d;
  del_effect t k d k' :
    let '(d', n) := r_del t k d in
    n = (match observe t k d with RAbsent => 0 | _ => 1 end) ∧
    observe t k' d' = if decide (k' = k) then RAbsent else observe t k' d;
  pexpire_effect t k px d k' : 0 < px →
    let '(d', n) := r_pexpire t k px d in
    n = (match observe t k d with RAbsent => 0 | _ => 1 end) ∧
    observe t k' d' = match observe t k' d with
                      | RStr v e => if decide (k' = k) then RStr v (Some (t + px)) else RStr v e
                      | o => o
                      end;
  index_effect t k c d k' :
    let d' := (r_index t k c d).1 in
    (k' ≠ k → observe t k' d' = observe t k' d) ∧
    (∀ v e, observe t k d' = RStr v e ↔ observe t k d = RStr v e);
}.

(** ** An instance *)

Inductive stored := StoredString (v : bytes) (deadline : option Z) | StoredSet (l : list (bytes * Z)).

Abbreviation memory_db := (gmap bytes stored).

Definition live_obj (t : Z) (o : option stored) : robj :=
  match o with
  | Some (StoredString v (Some e)) => if t <=? e then RStr v (Some e) else RAbsent
  | Some (StoredString v None) => RStr v None
  | Some (StoredSet _) => ROther
  | None => RAbsent
  end.

Definition mem_observe (t : Z) (k : bytes) (d : memory_db) : robj := live_obj t (d !! k).

Fixpoint insert_by_score (m : bytes) (s : Z) (l : list (bytes * Z)) : list (bytes * Z) :=
  match l with
  | [] => [(m, s)]
  | (m', s') :: l' => if s <? s' then (m, s) :: l else (m', s') :: insert_by_score m s l'
  end.

Definition index_run (c : index_command) (l : list (bytes * Z)) : list (bytes * Z) * rreply :=
  match c with
  | ZAdd s m => (insert_by_score m s (filter (λ e, e.1 ≠ m) l), IntReply 1)
  | ZRem ms => (filter (λ e, e.1 ∉ ms) l, IntReply 0)
  | ZCard => (l, IntReply (Z.of_nat (length l)))
  | ZRangeWithScores _ stop =>
      (l, ArrayReply (mjoin ((λ e, [BulkReply e.1; IntReply e.2]) <$> take (Z.to_nat (stop + 1)) l)))
  | ZScore m => (l, from_option IntReply NilReply (snd <$> List.find (λ e, bool_decide (e.1 = m)) l))
  | ZRemRangeByScore max => (filter (λ e, max < e.2) l, IntReply 0)
  end.

#[export] Instance memory_redis_ops : RedisOps memory_db := {
  observe := mem_observe;
  r_get t k d := match mem_observe t k d with RAbsent => Ok None | RStr v _ => Ok (Some v) | ROther => Throw WrongType end;
  r_strlen t k d := match mem_observe t k d with
                    | RAbsent => Ok 0 | RStr v _ => Ok (Z.of_nat (length v)) | ROther => Throw WrongType end;
  r_pttl t k d := match mem_observe t k d with RAbsent => -2 | RStr _ (Some e) => e - t | _ => -1 end;
  r_exists t k d := negb (match mem_observe t k d with RAbsent => true | _ => false end);
  r_set t k v px d := <[k := StoredString v (Some (t + px))]> d;
  r_setnx t k v px d := match mem_observe t k d with
                        | RAbsent => (<[k := StoredString v (Some (t + px))]> d, true) | _ => (d, false) end;
  r_del t k d := (delete k d, match mem_observe t k d with RAbsent => 0 | _ => 1 end);
  r_pexpire t k px d := match mem_observe t k d with
                        | RAbsent => (d, 0)
                        | RStr v _ => (<[k := StoredString v (Some (t + px))]> d, 1)
                        | ROther => (d, 1) end;
  r_index t k c d := match mem_observe t k d with
                     | RStr _ _ => (d, Throw WrongType)
                     | _ => let '(l, r) := index_run c (match d !! k with Some (StoredSet l) => l | _ => [] end) in
                            (match l with [] => delete k d | _ => <[k := StoredSet l]> d end, Ok r) end;
}.

Lemma mem_observe_insert t k o d k' : mem_observe t k' (<[k := o]> d) = if decide (k' = k) then live_obj t (Some o) else mem_observe t k' d.
Proof. unfold mem_observe. case_decide; [subst; by rewrite lookup_insert_eq|by rewrite lookup_insert_ne]. Qed.

Lemma mem_observe_delete t k d k' : mem_observe t k' (delete k d) = if decide (k' = k) then RAbsent else mem_observe t k' d.
Proof. unfold mem_observe. case_decide; [subst; by rewrite lookup_delete_eq|by rewrite lookup_delete_ne]. Qed.

#[export] Instance memory_redis : Redis memory_db.
Proof.
  split; simpl.
  - intros t t' k d Ht. unfold mem_observe, live_obj. destruct (d !! k) as [[v [e|]|l]|]; try by left.
    destruct (t' <=? e) eqn:E'; destruct (t <=? e) eqn:E; bools; try by left; try lia. by right.
  - intros t k d v e. unfold mem_observe, live_obj. destruct (d !! k) as [[v' [e'|]|l]|]; try done.
    destruct (t <=? e') eqn:E; bools; [|done]. by intros [= _ <-].
  - intros t t' k d v e. unfold mem_observe, live_obj. destruct (d !! k) as [[v' [e'|]|l]|]; try done.
    destruct (t <=? e') eqn:E; bools; [|done]. intros [= <- <-] ?. by rewrite (proj2 (Z.leb_le t' e')) by lia.
  - done.
  - done.
  - intros t k d. by destruct (mem_observe t k d) as [|v [e|]|].
  - done.
  - intros t k v px d k' Hpx. rewrite mem_observe_insert. case_decide; [|done]. simpl.
    by rewrite (proj2 (Z.leb_le t (t + px))) by lia.
  - intros t k v px d k' Hpx. destruct (mem_observe t k d) eqn:E; simpl; [|by split..].
    rewrite mem_observe_insert. split; [done|]. case_decide; simpl; rewrite ?bool_decide_eq_true_2, ?bool_decide_eq_false_2 by done; [|done].
    by rewrite (proj2 (Z.leb_le t (t + px))) by lia.
  - intros t k d k'. split; [done|apply mem_observe_delete].
  - intros t k px d k' Hpx. destruct (mem_observe t k d) as [|v e|] eqn:E; (split; [done|]).
    + destruct (mem_observe t k' d) eqn:E'; try done. case_decide; [congruence|done].
    + rewrite mem_observe_insert. case_decide as Hk; [subst k'; rewrite E; simpl; by rewrite (proj2 (Z.leb_le t (t + px))) by lia|].
      by destruct (mem_observe t k' d).
    + destruct (mem_observe t k' d) eqn:E'; try done. case_decide; [congruence|done].
  - intros t k c d k'. destruct (mem_observe t k d) eqn:E; simpl.
    + destruct (index_run c _) as [l r]. simpl. destruct l; rewrite ?mem_observe_insert, ?mem_observe_delete.
      * split; [intros ?; by rewrite decide_False|]. rewrite decide_True by done. by split.
      * split; [intros ?; by rewrite decide_False|]. rewrite decide_True by done. simpl. by split.
    + split; [done|]. intros v0 e. by rewrite E.
    + destruct (index_run c _) as [l r]. simpl. destruct l; rewrite ?mem_observe_insert, ?mem_observe_delete.
      * split; [intros ?; by rewrite decide_False|]. rewrite decide_True by done. by split.
      * split; [intros ?; by rewrite decide_False|]. rewrite decide_True by done. simpl. by split.
Qed.
