(* ===== verification/RedisLease.v ===== *)
(** * The lease scripts of the Redis store ([src/src/cache/redisStore.ts])

    The Lua programs the store registers, as functions of the database, and the
    other commands it sends. A history is any interleaving of the commands of
    any number of stores of one versioned layout, at the server's clock. The
    theorems are about what the server may then answer: a publication succeeds
    only under an unfenced, unexpired lease, and leases exclude one another. *)

From S2P Require Import Prelude JsValue Uri RedisKeys RedisServer.

(** ** The scripts, with their keys and arguments *)

Inductive script_call :=
| ReleaseLock (lock token : bytes)
| RenewLock (lock token : bytes) (ttl : Z)
| PublishIfOwner (data lock token payload : bytes) (ttl : Z)
| Snapshot (data : bytes) (limit : option Z)
| SetAndFence (data lock payload : bytes) (ttl : Z)
| DeleteAndFence (data lock : bytes).

Inductive command :=
| CScript (c : script_call)
| CSetNx (lock token : bytes) (ttl : Z)
| CExists (key : bytes)
| CScan (pattern : bytes) (count : Z)
| CIndex (key : bytes) (c : index_command)
| CSet (key payload : bytes) (ttl : Z)
| CDel (keys : list bytes)
| CGet (key : bytes)
| CPttl (key : bytes).

Abbreviation reply := (result redis_error rreply).

Section server.
Context {D : Type} `{RedisOps D}.
(** What SCAN answers; its pages are not determined. *)
Context (scan : bytes → Z → D → rreply).

(** [current == false or current ~= ARGV[1]]; an error of GET aborts the script. *)
Definition if_owner (t : Z) (lock token : bytes) (d : D) (k : D * reply) : D * reply :=
  match r_get t lock d with
  | Throw e => (d, Throw e)
  | Ok current => if bool_decide (current = Some token) then k else (d, Ok (IntReply 0))
  end.

Definition run_script (t : Z) (c : script_call) (d : D) : D * reply :=
  match c with
  | ReleaseLock lock token =>
      if_owner t lock token d (let '(d', n) := r_del t lock d in (d', Ok (IntReply n)))
  | RenewLock lock token ttl =>
      if_owner t lock token d (let '(d', n) := r_pexpire t lock ttl d in (d', Ok (IntReply n)))
  | PublishIfOwner data lock token payload ttl =>
      if_owner t lock token d (r_set t data payload ttl d, Ok (IntReply 1))
  | Snapshot data limit =>
      match r_strlen t data d with
      | Throw e => (d, Throw e)
      | Ok size =>
          if (limit ?? 26214400) <? size
          then (d, Ok (ArrayReply [NilReply; IntReply (-3); IntReply size; IntReply (r_pttl t data d)]))
          else match r_get t data d with
               | Throw e => (d, Throw e)
               | Ok None => (d, Ok (ArrayReply [NilReply; IntReply (-2)]))
               | Ok (Some v) => (d, Ok (ArrayReply [BulkReply v; IntReply (r_pttl t data d); IntReply size]))
               end
      end
  | SetAndFence data lock payload ttl =>
      ((r_del t lock (r_set t data payload ttl d)).1, Ok (IntReply 1))
  | DeleteAndFence data lock =>
      let '(d', n) := r_del t data d in ((r_del t lock d').1, Ok (IntReply n))
  end.

Definition exec (t : Z) (c : command) (d : D) : D * reply :=
  match c with
  | CScript s => run_script t s d
  | CSetNx lock token ttl => let '(d', ok) := r_setnx t lock token ttl d in (d', Ok (if ok then OkReply else NilReply))
  | CExists k => (d, Ok (IntReply (if r_exists t k d then 1 else 0)))
  | CScan p n => (d, Ok (scan p n d))
  | CIndex k c => r_index t k c d
  | CSet k v ttl => (r_set t k v ttl d, Ok OkReply)
  | CDel ks => (fold_left (λ d k, (r_del t k d).1) ks d, Ok (IntReply (Z.of_nat (length ks))))
  | CGet k => (d, match r_get t k d with Ok v => Ok (from_option BulkReply NilReply v) | Throw e => Throw e end)
  | CPttl k => (d, Ok (IntReply (r_pttl t k d)))
  end.

(** ** Histories of one versioned layout *)

Context (l : layout).

Definition data_key (k : jsstring) : bytes := wire (toRedisKey l k).
Definition lock_key (k : jsstring) : bytes := wire (toLockKey l k).

(** The commands stores of the layout [l] send; [RedisStore.v] proves it. *)
Definition sent_by_store (c : command) : Prop :=
  match c with
  | CScript (ReleaseLock lock _) => ∃ k, code_units k ∧ lock = lock_key k
  | CScript (RenewLock lock _ ttl) | CSetNx lock _ ttl => 0 < ttl ∧ ∃ k, code_units k ∧ lock = lock_key k
  | CScript (PublishIfOwner data lock _ _ ttl) | CScript (SetAndFence data lock _ ttl) =>
      0 < ttl ∧ ∃ k, code_units k ∧ data = data_key k ∧ lock = lock_key k
  | CScript (DeleteAndFence data lock) => ∃ k, code_units k ∧ data = data_key k ∧ lock = lock_key k
  | CSet _ _ _ | CDel _ => False
  | _ => True
  end.

Abbreviation event := (Z * command * reply)%type.

Inductive history (d0 : D) : list event → Z → D → Prop :=
| history_start t : history d0 [] t d0
| history_step h t d t' c d' r :
    history d0 h t d → t <= t' → sent_by_store c → exec t' c d = (d', r) →
    history d0 (h ++ [(t', c, r)]) t' d'.

(** Run commands in a row. *)
Fixpoint exec_all (cs : list (Z * command)) (d : D) : list event * D :=
  match cs with
  | [] => ([], d)
  | (t, c) :: cs' => let '(d', r) := exec t c d in let '(es, d'') := exec_all cs' d' in ((t, c, r) :: es, d'')
  end.

(** What ends the lease of a lock key, or grants it anew. *)
Definition fences (lock : bytes) (e : event) : bool :=
  match e with
  | (_, CScript (SetAndFence _ lock' _ _), _) | (_, CScript (DeleteAndFence _ lock'), _)
  | (_, CScript (ReleaseLock lock' _), Ok (IntReply 1)) | (_, CSetNx lock' _ _, Ok OkReply) => bool_decide (lock' = lock)
  | _ => false
  end.

(** The deadline set by the last grant or renewal. *)
Fixpoint lease_deadline (lock token : bytes) (deadline : Z) (post : list event) : Z :=
  match post with
  | [] => deadline
  | (t, CScript (RenewLock lock' token' ttl), Ok (IntReply 1)) :: post' =>
      lease_deadline lock token (if bool_decide (lock' = lock ∧ token' = token) then t + ttl else deadline) post'
  | _ :: post' => lease_deadline lock token deadline post'
  end.

Context `{!Redis D} (Hl : good_prefix l).

(** ** Keys *)

Lemma data_lock_apart k k' : code_units k → code_units k' → data_key k ≠ lock_key k'.
Proof.
  intros Hk Hk' E. change (wire (key_of l Data k) = wire (key_of l Lock k')) in E.
  rewrite !key_wire in E by done. apply versioned_inj in E as [Ht E]; [|by apply tag_no_brace..].
  apply app_inv_head in E. simpl in E. apply toSlotTag_class in Ht as [->|[[-> ->]|[-> ->]]]; [|done..].
  change (wire k' = LOCK ++ wire k') in E. apply (f_equal length) in E. rewrite length_app in E.
  change (length LOCK) with 7%nat in E. lia.
Qed.

(** ** One command and one lock *)

Lemma del_observe t k d k' :
  observe t k' (r_del t k d).1 = if decide (k' = k) then RAbsent else observe t k' d.
Proof. pose proof (del_effect t k d k') as Hd. by destruct (r_del t k d) as [d' n], Hd. Qed.

Lemma if_owner_ok t lock token d d' r k :
  if_owner t lock token d k = (d', r) →
  (d' = d ∧ r ≠ Ok (IntReply 1)) ∨ (k = (d', r) ∧ ∃ e, observe t lock d = RStr token e).
Proof.
  unfold if_owner. rewrite get_reply. destruct (observe t lock d) as [|v e|] eqn:E.
  - rewrite bool_decide_eq_false_2 by done. intros [= <- <-]. by left.
  - case_bool_decide as Hv; [|intros [= <- <-]; by left]. injection Hv as ->. intros ->. right. eauto.
  - intros [= <- <-]. by left.
Qed.

(** What a string found at a lock key after a command says of that command. *)
Lemma exec_lock t c d d' r k v e :
  sent_by_store c → code_units k → exec t c d = (d', r) → observe t (lock_key k) d' = RStr v e →
  (observe t (lock_key k) d = RStr v e ∧ fences (lock_key k) (t, c, r) = false ∧
   ∀ tok ttl, c = CScript (RenewLock (lock_key k) tok ttl) → r ≠ Ok (IntReply 1)) ∨
  (∃ ttl, c = CSetNx (lock_key k) v ttl ∧ r = Ok OkReply ∧ e = Some (t + ttl)) ∨
  (∃ ttl, c = CScript (RenewLock (lock_key k) v ttl) ∧ r = Ok (IntReply 1) ∧ e = Some (t + ttl) ∧
     ∃ e0, observe t (lock_key k) d = RStr v e0).
Proof.
  intros Hc Hk E Ho. destruct c as [s|lock tok ttl|key|p n|z ic|key payload ttl|keys|key|key]; simpl in Hc, E.
  - destruct s as [lock tok|lock tok ttl|data lock tok payload ttl|data limit|data lock payload ttl|data lock]; simpl in Hc, E.
    + destruct Hc as (k' & Hk' & ->). apply if_owner_ok in E as [[-> Hr]|[E _]].
      * left. split; [done|]. split; [|done]. simpl. destruct r as [[| n | | |]|]; try done.
        destruct n as [|[]|]; try done.
      * pose proof (del_effect t (lock_key k') d (lock_key k)) as Hd. destruct (r_del _ _ d) as [d1 n].
        injection E as -> <-. destruct Hd as [_ Hd]. rewrite Hd in Ho. case_decide as Hne; [done|].
        left. split; [done|]. split; [|done]. simpl. repeat case_match; try done. by apply bool_decide_eq_false.
    + destruct Hc as (Httl & k' & Hk' & ->). apply if_owner_ok in E as [[-> Hr]|[E (e0 & He0)]]; [by left|].
      pose proof (pexpire_effect t (lock_key k') ttl d (lock_key k) Httl) as Hd. destruct (r_pexpire _ _ _ d) as [d1 n].
      injection E as -> <-. destruct Hd as [Hn Hd]. destruct (decide (lock_key k = lock_key k')) as [Heq|Hne].
      * rewrite <-Heq in *. rewrite Hd, He0 in Ho. injection Ho as <- <-. rewrite He0 in Hn. right; right.
        exists ttl. subst n. split; [done|]. split; [done|]. split; [done|]. by exists e0.
      * left. rewrite Ho in Hd. destruct (observe t (lock_key k) d); try done. split; [done|]. split; [done|].
        intros tok' ttl' [= Heq _ _]. by rewrite Heq in Hne.
    + destruct Hc as (Httl & k' & Hk' & -> & ->). left. split; [|done].
      apply if_owner_ok in E as [[-> Hr]|[E _]]; [done|]. injection E as <- _. rewrite set_effect in Ho by done.
      case_decide as Heq; [|done]. symmetry in Heq. by apply data_lock_apart in Heq.
    + left. assert (d' = d) as ->.
      { destruct (r_strlen t data d); [|by injection E]. case_match; [by injection E|].
        destruct (r_get t data d) as [[?|]|]; by injection E. }
      by split.
    + destruct Hc as (Httl & k' & Hk' & -> & ->). injection E as <- <-. rewrite del_observe in Ho.
      case_decide as Hne; [done|]. rewrite set_effect in Ho by done.
      case_decide as Heq; [symmetry in Heq; by apply data_lock_apart in Heq|].
      left. split; [done|]. split; [|done]. by apply bool_decide_eq_false.
    + destruct Hc as (k' & Hk' & -> & ->). destruct (r_del t (data_key k') d) as [d1 n] eqn:E1. injection E as <- <-.
      rewrite del_observe in Ho. case_decide as Hne; [done|].
      pose proof (del_observe t (data_key k') d (lock_key k)) as Hd. rewrite E1 in Hd. simpl in Hd.
      case_decide as Heq; [symmetry in Heq; by apply data_lock_apart in Heq|]. rewrite Hd in Ho.
      left. split; [done|]. split; [|done]. by apply bool_decide_eq_false.
  - destruct Hc as (Httl & k' & Hk' & ->). pose proof (setnx_effect t (lock_key k') tok ttl d (lock_key k) Httl) as Hd.
    destruct (r_setnx _ _ _ _ d) as [d1 ok]. injection E as -> <-. destruct Hd as [Hok Hd]. rewrite Hd in Ho.
    destruct ok; simpl in *; [|by left]. case_bool_decide as Heq.
    + right; left. injection Ho as <- <-. exists ttl. by rewrite Heq.
    + left. split; [done|]. split; [|done]. by apply bool_decide_eq_false.
  - injection E as <- <-. by left.
  - injection E as <- <-. by left.
  - left. split; [|done]. pose proof (index_effect t z ic d (lock_key k)) as [Hne Heq]. rewrite E in Hne, Heq. simpl in *.
    destruct (decide (lock_key k = z)) as [<-|?]; [by apply Heq|by rewrite <-Hne].
  - done.
  - done.
  - injection E as <- <-. by left.
  - injection E as <- <-. by left.
Qed.

(** ** A lease found in the database was granted and not fenced *)

Lemma lease_deadline_snoc lock token deadline post e :
  lease_deadline lock token deadline (post ++ [e]) =
  lease_deadline lock token (lease_deadline lock token deadline post) [e].
Proof.
  revert deadline. induction post as [|[[t c] r] post IH]; intros deadline; [done|].
  cbn [app]. destruct c as [[]| | | | | | | | ]; try apply IH. destruct r as [[]|]; try apply IH.
  destruct n as [|[]|]; try apply IH.
Qed.

Lemma deadline_other lock token deadline t c r :
  (∀ ttl, c = CScript (RenewLock lock token ttl) → r ≠ Ok (IntReply 1)) →
  lease_deadline lock token deadline [(t, c, r)] = deadline.
Proof.
  intros Hc. destruct c as [[]| | | | | | | | ]; try done. destruct r as [[]|]; try done.
  destruct n as [|[]|]; try done. simpl. case_bool_decide as Hb; [|done]. destruct Hb as [-> ->]. by destruct (Hc ttl).
Qed.

Lemma deadline_renewed lock token deadline t ttl :
  lease_deadline lock token deadline [(t, CScript (RenewLock lock token ttl), Ok (IntReply 1))] = t + ttl.
Proof. simpl. by rewrite bool_decide_eq_true_2. Qed.

(** The last grant of the lease, and nothing that fences it since. *)
Definition granted_since (lock token : bytes) (h : list event) (deadline : Z) : Prop :=
  ∃ pre t0 ttl0 post, h = pre ++ (t0, CSetNx lock token ttl0, Ok OkReply) :: post ∧
    Forall (λ e, fences lock e = false) post ∧ deadline = lease_deadline lock token (t0 + ttl0) post.

Lemma granted_snoc lock token h deadline e :
  granted_since lock token h deadline → fences lock e = false →
  granted_since lock token (h ++ [e]) (lease_deadline lock token deadline [e]).
Proof.
  intros (pre & t0 & ttl0 & post & -> & Hf & ->) He. exists pre, t0, ttl0, (post ++ [e]).
  split; [by rewrite <-app_assoc|]. split; [by apply Forall_app; split; [|constructor]|]. by rewrite lease_deadline_snoc.
Qed.

Definition no_lease (d0 : D) (k : jsstring) : Prop := ∀ t v e, observe t (lock_key k) d0 ≠ RStr v e.

Lemma lease_justified d0 h t d k token e :
  history d0 h t d → code_units k → no_lease d0 k → observe t (lock_key k) d = RStr token e →
  ∃ deadline, e = Some deadline ∧ granted_since (lock_key k) token h deadline.
Proof.
  intros Hh Hk H0. revert token e. induction Hh as [t|h t d t' c d' r Hh IH Ht Hc E]; intros token e Ho.
  { by apply H0 in Ho. }
  assert (Hback : ∀ v e1, observe t' (lock_key k) d = RStr v e1 →
    ∃ deadline, e1 = Some deadline ∧ granted_since (lock_key k) v h deadline).
  { intros v e1 Hv. apply IH. destruct (observe_later t t' (lock_key k) d Ht) as [Heq|[Heq _]]; [|congruence]. by rewrite <-Heq. }
  destruct (exec_lock _ _ _ _ _ _ _ _ Hc Hk E Ho) as [(Ho' & Hf & Hr)|[(ttl & -> & -> & ->)|(ttl & -> & -> & -> & e0 & He0)]].
  - destruct (Hback _ _ Ho') as (dl & -> & Hg). exists dl. split; [done|].
    rewrite <-(deadline_other (lock_key k) token dl t' c r) by (intros ttl; apply Hr). by apply granted_snoc.
  - exists (t' + ttl). split; [done|]. exists h, t', ttl, []. by split_and!.
  - destruct (Hback _ _ He0) as (dl & -> & Hg). exists (t' + ttl). split; [done|].
    rewrite <-(deadline_renewed (lock_key k) token dl t' ttl). by apply granted_snoc.
Qed.

Lemma history_snoc_inv d0 h e t d :
  history d0 (h ++ [e]) t d →
  ∃ t1 d1, history d0 h t1 d1 ∧ t1 <= t ∧ e.1.1 = t ∧ sent_by_store e.1.2 ∧ exec t e.1.2 d1 = (d, e.2).
Proof.
  intros Hh. inversion Hh as [t1 E1|h1 t1 d1 t' c d' r Hh1 Ht Hc E E1]; [by destruct h|].
  apply app_inj_tail in E1 as [-> <-]. simpl. subst. by exists t1, d1.
Qed.

(** C7: fencing. Whatever commands any number of stores of the versioned layout
    have sent in whatever interleaving, a publication the server accepts was
    covered: that token had been granted the lease of that key, since then no
    direct write, no deletion, no release and no other grant of that lease has
    reached the server, the server's clock has not passed the deadline of the
    last grant or renewal, and the record is now stored with its expiry. *)
Theorem publish_fenced d0 h t d k data token payload ttl :
  code_units k → no_lease d0 k →
  history d0 (h ++ [(t, CScript (PublishIfOwner data (lock_key k) token payload ttl), Ok (IntReply 1))]) t d →
  ∃ deadline, granted_since (lock_key k) token h deadline ∧ t <= deadline ∧
    data = data_key k ∧ observe t data d = RStr payload (Some (t + ttl)).
Proof.
  intros Hk H0 Hh. apply history_snoc_inv in Hh as (t1 & d1 & Hh & Ht & _ & Hc & E). simpl in Hc, E.
  destruct Hc as (Httl & k' & Hk' & -> & Hlock). apply if_owner_ok in E as [[_ Hr]|[E (e & He)]]; [done|].
  assert (He1 : observe t1 (lock_key k) d1 = RStr token e).
  { destruct (observe_later t1 t (lock_key k) d1 Ht) as [Heq|[Heq _]]; [|congruence]. by rewrite <-Heq. }
  destruct (lease_justified _ _ _ _ _ _ _ Hh Hk H0 He1) as (dl & -> & Hg).
  exists dl. split; [done|]. split; [by eapply observe_deadline|]. split.
  - f_equal. change (wire (key_of l Lock k) = wire (key_of l Lock k')) in Hlock. rewrite !key_wire in Hlock by done.
    apply versioned_inj in Hlock as [Htag E2]; [|by apply tag_no_brace..].
    apply toSlotTag_class in Htag as [->|[[-> ->]|[-> ->]]]; [done|..|done|done].
    + exfalso. do 2 apply app_inv_head in E2. done.
    + exfalso. do 2 apply app_inv_head in E2. done.
  - injection E as <-. rewrite set_effect by done. by rewrite decide_True.
Qed.

(** ** A granted lease is held *)

Lemma exec_lock_keeps t c d d' r k v e :
  sent_by_store c → code_units k → exec t c d = (d', r) → observe t (lock_key k) d = RStr v e →
  fences (lock_key k) (t, c, r) = false → (∀ ttl, c = CScript (RenewLock (lock_key k) v ttl) → r ≠ Ok (IntReply 1)) →
  observe t (lock_key k) d' = RStr v e.
Proof.
  intros Hc Hk E Ho Hf Hr. destruct c as [s|lock tok ttl|key|p n|z ic|key payload ttl|keys|key|key]; simpl in Hc, E.
  - destruct s as [lock tok|lock tok ttl|data lock tok payload ttl|data limit|data lock payload ttl|data lock]; simpl in Hc, E.
    + destruct Hc as (k' & Hk' & ->). apply if_owner_ok in E as [[-> _]|[E (e0 & He0)]]; [done|].
      pose proof (del_effect t (lock_key k') d (lock_key k)) as Hd. destruct (r_del _ _ d) as [d1 n].
      injection E as -> <-. destruct Hd as [Hn Hd]. rewrite Hd. case_decide as Heq; [|done].
      rewrite <-Heq, Ho in Hn. subst n. simpl in Hf. by apply bool_decide_eq_false in Hf.
    + destruct Hc as (Httl & k' & Hk' & ->). apply if_owner_ok in E as [[-> _]|[E (e0 & He0)]]; [done|].
      pose proof (pexpire_effect t (lock_key k') ttl d (lock_key k) Httl) as Hd. destruct (r_pexpire _ _ _ d) as [d1 n].
      injection E as -> <-. destruct Hd as [Hn Hd]. rewrite Hd, Ho. case_decide as Heq; [|done].
      rewrite <-Heq, Ho in He0. injection He0 as -> ->. rewrite <-Heq, Ho in Hn. subst n. rewrite <-Heq in Hr. by destruct (Hr ttl).
    + destruct Hc as (Httl & k' & Hk' & -> & ->). apply if_owner_ok in E as [[-> _]|[E _]]; [done|].
      injection E as <- _. rewrite set_effect by done.
      case_decide as Heq; [symmetry in Heq; by apply data_lock_apart in Heq|done].
    + assert (d' = d) as ->; [|done]. destruct (r_strlen t data d); [|by injection E]. case_match; [by injection E|].
      destruct (r_get t data d) as [[?|]|]; by injection E.
    + destruct Hc as (Httl & k' & Hk' & -> & ->). injection E as <- <-. simpl in Hf. apply bool_decide_eq_false in Hf.
      rewrite del_observe, decide_False by done. rewrite set_effect by done.
      case_decide as Heq; [symmetry in Heq; by apply data_lock_apart in Heq|done].
    + destruct Hc as (k' & Hk' & -> & ->). destruct (r_del t (data_key k') d) as [d1 n] eqn:E1. injection E as <- <-.
      simpl in Hf. apply bool_decide_eq_false in Hf. rewrite del_observe, decide_False by done.
      pose proof (del_observe t (data_key k') d (lock_key k)) as Hd. rewrite E1 in Hd. simpl in Hd.
      rewrite Hd. case_decide as Heq; [symmetry in Heq; by apply data_lock_apart in Heq|done].
  - destruct Hc as (Httl & k' & Hk' & ->). pose proof (setnx_effect t (lock_key k') tok ttl d (lock_key k) Httl) as Hd.
    destruct (r_setnx _ _ _ _ d) as [d1 ok]. injection E as -> <-. destruct Hd as [Hok Hd]. rewrite Hd.
    destruct ok; [|done]. simpl in Hf. apply bool_decide_eq_false in Hf. by rewrite bool_decide_eq_false_2.
  - by injection E as <- <-.
  - by injection E as <- <-.
  - pose proof (index_effect t z ic d (lock_key k)) as [Hne Heq]. rewrite E in Hne, Heq. simpl in *.
    destruct (decide (lock_key k = z)) as [<-|?]; [by apply Heq|by rewrite Hne].
  - done.
  - done.
  - by injection E as <- <-.
  - by injection E as <- <-.
Qed.

Lemma exec_renewed t lock token ttl d d' :
  0 < ttl → exec t (CScript (RenewLock lock token ttl)) d = (d', Ok (IntReply 1)) →
  observe t lock d' = RStr token (Some (t + ttl)).
Proof.
  intros Httl E. apply if_owner_ok in E as [[_ Hr]|[E (e0 & He0)]]; [done|].
  pose proof (pexpire_effect t lock ttl d lock Httl) as Hd. destruct (r_pexpire _ _ _ d) as [d1 n].
  injection E as -> _. destruct Hd as [_ Hd]. by rewrite Hd, He0, decide_True.
Qed.

Lemma renewed_dec lock token (c : command) (r : reply) :
  (∃ ttl, c = CScript (RenewLock lock token ttl) ∧ r = Ok (IntReply 1)) ∨
  (∀ ttl, c = CScript (RenewLock lock token ttl) → r ≠ Ok (IntReply 1)).
Proof.
  destruct c as [[]| | | | | | | | ]; try (right; intros; congruence).
  destruct (decide (lock0 = lock ∧ token0 = token)) as [[-> ->]|Hne]; [|right; intros ? [= -> -> ->]; tauto].
  destruct r as [[]|]; try (right; intros; congruence).
  destruct (decide (n = 1)) as [->|]; [left; eauto|right; intros; congruence].
Qed.

Lemma lease_held d0 pre t0 token ttl0 post t d k :
  code_units k → history d0 (pre ++ (t0, CSetNx (lock_key k) token ttl0, Ok OkReply) :: post) t d →
  Forall (λ e, fences (lock_key k) e = false) post →
  ∀ t', t <= t' < lease_deadline (lock_key k) token (t0 + ttl0) post →
  observe t' (lock_key k) d = RStr token (Some (lease_deadline (lock_key k) token (t0 + ttl0) post)).
Proof.
  intros Hk. revert t d. induction post as [|e post IH] using rev_ind; intros t d Hh Hf t' Ht'.
  - apply history_snoc_inv in Hh as (t1 & d1 & Hh & Ht & Ht0 & Hc & E). simpl in *. subst t0.
    destruct Hc as (Httl & _). pose proof (setnx_effect t (lock_key k) token ttl0 d1 (lock_key k) Httl) as Hd.
    destruct (r_setnx _ _ _ _ d1) as [d2 ok]. injection E as -> Hok. destruct Hd as [_ Hd].
    destruct ok; [|done]. rewrite bool_decide_eq_true_2 in Hd by done. eapply observe_lives; [exact Hd|done].
  - rewrite app_comm_cons, app_assoc in Hh. apply Forall_app in Hf as [Hf He]. apply Forall_cons in He as [He _].
    apply history_snoc_inv in Hh as (t1 & d1 & Hh & Ht & Ht0 & Hc & E). destruct e as [[te c] r]. simpl in Ht0, Hc, E. subst te.
    rewrite lease_deadline_snoc in *.
    destruct (renewed_dec (lock_key k) token c r) as [(ttl & -> & ->)|Hn].
    + rewrite deadline_renewed in *. destruct Hc as [Httl _].
      eapply observe_lives; [|exact Ht']. by eapply exec_renewed.
    + rewrite deadline_other in * by done. eapply observe_lives; [|exact Ht'].
      eapply exec_lock_keeps; [exact Hc|done|exact E| |exact He|exact Hn]. apply (IH t1 d1 Hh Hf). lia.
Qed.

(** leases exclude one another. Between two grants of the lease of one key,
    in any history of commands of the stores, either the lease was ended in
    between (by its release, a direct write or a deletion), or the server's clock
    has reached the deadline of the first grant or of its last renewal. *)
Theorem lease_exclusion d0 pre t0 token ttl0 post t1 token' ttl1 rest t d k :
  code_units k →
  history d0 (pre ++ (t0, CSetNx (lock_key k) token ttl0, Ok OkReply) :: post
              ++ (t1, CSetNx (lock_key k) token' ttl1, Ok OkReply) :: rest) t d →
  Exists (λ e, fences (lock_key k) e = true) post ∨ lease_deadline (lock_key k) token (t0 + ttl0) post <= t1.
Proof.
  intros Hk Hh. destruct (decide (Forall (λ e, fences (lock_key k) e = false) post)) as [Hf|Hf].
  2: { left. apply not_Forall_Exists in Hf; [|apply _]. eapply Exists_impl; [exact Hf|]. intros e He. simpl in He. by destruct (fences _ e). }
  right. revert t d Hh. induction rest as [|e rest IH] using rev_ind; intros t d Hh.
  - rewrite app_comm_cons, app_assoc in Hh.
    apply history_snoc_inv in Hh as (t2 & d1 & Hh & Ht & Ht1 & Hc & E). simpl in *. subst t1.
    destruct (Z_le_gt_dec (lease_deadline (lock_key k) token (t0 + ttl0) post) t) as [?|Hgt]; [done|]. exfalso.
    pose proof (lease_held _ _ _ _ _ _ _ _ _ Hk Hh Hf t ltac:(lia)) as Ho. destruct Hc as [Httl _].
    pose proof (setnx_effect t (lock_key k) token' ttl1 d1 (lock_key k) Httl) as Hd.
    destruct (r_setnx _ _ _ _ d1) as [d2 ok]. injection E as _ Hok. destruct Hd as [Hd _]. rewrite Ho in Hd. by subst ok.
  - rewrite app_comm_cons, app_assoc, app_comm_cons, app_assoc in Hh.
    apply history_snoc_inv in Hh as (t2 & d1 & Hh & _). rewrite <-app_assoc in Hh. simpl in Hh. by eapply IH.
Qed.

Fixpoint ordered (t : Z) (cs : list (Z * command)) : Prop :=
  match cs with [] => True | (t', c) :: cs' => t <= t' ∧ sent_by_store c ∧ ordered t' cs' end.

Definition last_time (t : Z) (cs : list (Z * command)) : Z := foldl (λ _ e, e.1) t cs.

Lemma exec_all_history d0 h t d cs es d' :
  history d0 h t d → ordered t cs → exec_all cs d = (es, d') → history d0 (h ++ es) (last_time t cs) d'.
Proof.
  revert h t d es. induction cs as [|[t1 c] cs IH]; intros h t d es Hh Ho; simpl.
  - intros [= <- <-]. by rewrite app_nil_r.
  - destruct Ho as (Ht & Hc & Ho). destruct (exec t1 c d) as [d1 r] eqn:E.
    destruct (exec_all cs d1) as [es1 d2] eqn:E1. intros [= <- <-].
    replace (h ++ (t1, c, r) :: es1) with ((h ++ [(t1, c, r)]) ++ es1) by by rewrite <-app_assoc.
    eapply IH; [by eapply history_step|done|done].
Qed.
End server.

(** ** Witnesses *)

Definition no_scan (_ : bytes) (_ : Z) (_ : memory_db) : rreply := ArrayReply [].
Definition lv2 : layout := v2 "cache:".
Definition k1 : jsstring := js "user:1".

Lemma lv2_good : good_prefix lv2.
Proof. split; [done|]. split; [by apply ascii_well_formed, ascii_check|reflexivity]. Qed.

Lemma k1_units : code_units k1.
Proof. by apply ascii_well_formed, ascii_check. Qed.

Lemma empty_no_lease : no_lease lv2 (∅ : memory_db) k1.
Proof. intros t v e. simpl. unfold mem_observe. by rewrite lookup_empty. Qed.

(** A grant, its renewal, a rival that is refused, the publication. *)
Definition lease_demo : list (Z * command) :=
  [(0, CSetNx (lock_key lv2 k1) (js "tok-1") 100); (50, CScript (RenewLock (lock_key lv2 k1) (js "tok-1") 100));
   (120, CSetNx (lock_key lv2 k1) (js "tok-2") 100);
   (140, CScript (PublishIfOwner (data_key lv2 k1) (lock_key lv2 k1) (js "tok-1") [7; 7] 1000))].

Definition lease_demo_run : list (Z * command * reply) * memory_db := exec_all no_scan lease_demo ∅.

Definition lease_demo_before : list (Z * command * reply) :=
  [(0, CSetNx (lock_key lv2 k1) (js "tok-1") 100, Ok OkReply);
   (50, CScript (RenewLock (lock_key lv2 k1) (js "tok-1") 100), Ok (IntReply 1));
   (120, CSetNx (lock_key lv2 k1) (js "tok-2") 100, Ok NilReply)].

Lemma lease_demo_events : lease_demo_run.1 = lease_demo_before ++
  [(140, CScript (PublishIfOwner (data_key lv2 k1) (lock_key lv2 k1) (js "tok-1") [7; 7] 1000), Ok (IntReply 1))].
Proof. vm_compute. reflexivity. Qed.

Lemma demo_key_sent : 0 < 100 ∧ ∃ k, code_units k ∧ lock_key lv2 k1 = lock_key lv2 k.
Proof. split; [lia|]. exists k1. split; [apply k1_units|done]. Qed.

Lemma lease_demo_ordered : ordered lv2 0 lease_demo.
Proof.
  split; [lia|]. split; [apply demo_key_sent|]. split; [lia|]. split; [apply demo_key_sent|].
  split; [lia|]. split; [apply demo_key_sent|]. split; [lia|]. split; [|done].
  split; [lia|]. exists k1. split; [apply k1_units|done].
Qed.

Lemma lease_demo_history : history no_scan lv2 ∅ lease_demo_run.1 140 lease_demo_run.2.
Proof.
  pose proof (exec_all_history no_scan lv2 ∅ [] 0 ∅ lease_demo lease_demo_run.1 lease_demo_run.2) as Hh.
  apply Hh; [apply history_start|apply lease_demo_ordered|]. by unfold lease_demo_run; destruct (exec_all _ _ _).
Qed.

Lemma publish_fenced_witness :
  ∃ deadline, granted_since (lock_key lv2 k1) (js "tok-1") lease_demo_before deadline ∧ 140 <= deadline.
Proof.
  destruct (publish_fenced no_scan lv2 lv2_good ∅ lease_demo_before 140 lease_demo_run.2 k1
    (data_key lv2 k1) (js "tok-1") [7; 7] 1000) as (deadline & Hg & Ht & _).
  - exact k1_units.
  - exact empty_no_lease.
  - rewrite <-lease_demo_events. exact lease_demo_history.
  - exists deadline. split; [exact Hg|exact Ht].
Defined.

(** A second grant once the first has run out. *)
Definition takeover_demo : list (Z * command) :=
  [(0, CSetNx (lock_key lv2 k1) (js "tok-1") 100); (150, CSetNx (lock_key lv2 k1) (js "tok-2") 100)].

Definition takeover_run : list (Z * command * reply) * memory_db := exec_all no_scan takeover_demo ∅.

Lemma takeover_events : takeover_run.1 =
  [(0, CSetNx (lock_key lv2 k1) (js "tok-1") 100, Ok OkReply); (150, CSetNx (lock_key lv2 k1) (js "tok-2") 100, Ok OkReply)].
Proof. vm_compute. reflexivity. Qed.

Lemma takeover_history : history no_scan lv2 ∅ takeover_run.1 150 takeover_run.2.
Proof.
  pose proof (exec_all_history no_scan lv2 ∅ [] 0 ∅ takeover_demo takeover_run.1 takeover_run.2) as Hh.
  apply Hh; [apply history_start| |by unfold takeover_run; destruct (exec_all _ _ _)].
  split; [lia|]. split; [apply demo_key_sent|]. split; [lia|]. split; [apply demo_key_sent|done].
Qed.

Lemma lease_exclusion_witness :
  Exists (λ e, fences (lock_key lv2 k1) e = true) [] ∨ 0 + 100 <= 150.
Proof.
  apply (lease_exclusion no_scan lv2 lv2_good ∅ [] 0 (js "tok-1") 100 [] 150 (js "tok-2") 100 [] 150 takeover_run.2 k1).
  - exact k1_units.
  - pose proof takeover_history as Hh. rewrite takeover_events in Hh. exact Hh.
Defined.
