(* ===== verification/RedisStore.v ===== *)
(** * The Redis store ([src/src/cache/redisStore.ts], [redisPipeline.ts])

    The operations of the L2 store as programs: each command a program sends is
    a node whose continuation receives the reply or the failure, so that other
    clients may act between any two commands and any command may fail. What the
    client library (ioredis) offers is a record of its capabilities; the pages
    of a SCAN stream are arguments, and so are the runtime's conversions of
    unusual replies; ZCARD answers an integer. Keys are [String(key)]; decoding is [Serializer.v].
    [inspect] is in [StoreInspection.v]. *)

From S2P Require Import Prelude JsValue Utf8 Uri Pattern CacheOptions RedisKeys RedisServer RedisLease.

(** ** Programs *)

Inductive client_error := NoScript | ServerError (e : redis_error) | TransportError.

Inductive store_error :=
| RangeErr (what : string)
| TypeErr (what : string)
| ClientErr (e : client_error)
| PipelineErr (index : nat).

(** A command goes through a registered name, or directly. *)
Inductive transport := Named | Direct.

Inductive answer := Replied (r : rreply) | Failed (e : client_error).

Inductive prog (A : Type) :=
| PRet (a : A)
| PThrow (e : store_error)
| PNow (k : Z → prog A)
| PCall (via : transport) (c : command) (k : answer → prog A).
Arguments PRet {A} a.
Arguments PThrow {A} e.
Arguments PNow {A} k.
Arguments PCall {A} via c k.

Fixpoint pbind {A B} (m : prog A) (f : A → prog B) : prog B :=
  match m with
  | PRet a => f a
  | PThrow e => PThrow e
  | PNow k => PNow (λ t, pbind (k t) f)
  | PCall via c k => PCall via c (λ r, pbind (k r) f)
  end.

Notation "x <- m ;; k" := (pbind m (λ x, k)) (at level 100, m at next level, right associativity) : js_scope.

Fixpoint pcatch {A} (m : prog A) (f : store_error → prog A) : prog A :=
  match m with
  | PRet a => PRet a
  | PThrow e => f e
  | PNow k => PNow (λ t, pcatch (k t) f)
  | PCall via c k => PCall via c (λ r, pcatch (k r) f)
  end.

(** Awaiting a command. *)
Definition call (c : command) : prog rreply :=
  PCall Direct c (λ r, match r with Replied r => PRet r | Failed e => PThrow (ClientErr e) end).

(** ** Options and client *)

Record RedisStoreOptions := {
  so_layout : layout;
  so_useIndex : option bool;
  so_scanCount : option Z;
  so_batchSize : option Z;
  so_l2Ttl : option jsnum;
  so_ttl : option jsnum;
  so_l2MaxEntries : option jsnum;
  so_maxEncodedBytes : Z }.

(** What a call says of the L2 level; a bare number is the [None] level. *)
Inductive call_options :=
| Bare (ttl : jsnum)
| Options (l2Ttl ttl : option jsnum) (l2MaxEntries : option jsnum).

Inductive script_name := NRelease | NRenew | NPublish | NSnapshot | NSetAndFence | NDeleteAndFence.

Definition name_of (c : script_call) : script_name :=
  match c with
  | ReleaseLock _ _ => NRelease
  | RenewLock _ _ _ => NRenew
  | PublishIfOwner _ _ _ _ _ => NPublish
  | Snapshot _ _ => NSnapshot
  | SetAndFence _ _ _ _ => NSetAndFence
  | DeleteAndFence _ _ => NDeleteAndFence
  end.

Record RedisClient := {
  registered : script_name → bool;
  hasCommand : script_name → bool → bool;
  hasEvalBuffer : bool;
  hasEval : bool;
  hasPttl : bool;
  hasZremrangebyscore : bool;
  hasZscore : bool }.

(** [wellFormedUnicode] of the prefix and the positive integers of the constructor. *)
Definition positive_option (name : string) (v : option jsnum) : result store_error unit :=
  match v with
  | None => Ok tt
  | Some n => guard_ok (num_is_safe_integer n && num_lt (JInt 0) n) (RangeErr name)
  end.

Section store.
Context (o : RedisStoreOptions) (client : RedisClient).
(** [Number(value)] and [Buffer.from(value)] of replies that are neither null, an integer nor a buffer;
    [Number.isFinite(Number(text))]. *)
Context (to_number : rreply → jsnum) (to_buffer : rreply → option bytes) (finite_text : jsstring → bool).

Definition lay : layout := so_layout o.

Definition resolveTtl (options : call_options) : result store_error Z :=
  let ttlMs := match options with
    | Bare t => t
    | Options l2 t _ =>
        default (JInt DEFAULT_CACHE_TTL_MS)
          (match l2 with Some t => Some t | None =>
           match t with Some t => Some t | None =>
           match so_l2Ttl o with Some t => Some t | None => so_ttl o end end end)
    end in
  if negb (num_is_safe_integer ttlMs) || num_le ttlMs (JInt 0) then Throw (RangeErr "RedisStore ttlMs")
  else Ok (num_floor ttlMs).

Definition resolveMaxEntries (options : call_options) : result store_error (option Z) :=
  let maxEntries := match options with
    | Bare _ => so_l2MaxEntries o
    | Options _ _ m => match m with Some n => Some n | None => so_l2MaxEntries o end
    end in
  match maxEntries with
  | None => Ok None
  | Some n => if negb (num_is_safe_integer n) || num_lt n (JInt 0) then Throw (RangeErr "RedisStore L2 maxEntries")
              else Ok (Some (num_floor n))
  end.

Definition useIndex : bool := so_useIndex o ?? bool_decide (is_Some (so_l2MaxEntries o)).
Definition getScanCount : Z := so_scanCount o ?? 1000.
Definition getBatchSize : Z := so_batchSize o ?? 500.

Definition lift {A} (r : result store_error A) : prog A := match r with Ok a => PRet a | Throw e => PThrow e end.

Definition check_data_key (key : jsstring) : prog unit :=
  if assertDataKey lay key then PThrow (RangeErr "RedisStore legacy key") else PRet tt.

(** [executeScript]: NOSCRIPT says the server did not run it, and EVAL follows. *)
Definition executeScript (c : script_call) (bufferReply registered : bool) : prog rreply :=
  let eval :=
    if (bufferReply && hasEvalBuffer client) || hasEval client then call (CScript c)
    else PThrow (TypeErr "eval is not a function") in
  if registered && hasCommand client (name_of c) bufferReply then
    PCall Named (CScript c) (λ r, match r with
      | Replied r => PRet r
      | Failed NoScript => eval
      | Failed e => PThrow (ClientErr e)
      end)
  else eval.

Definition normalizeIntegerReply (r : option rreply) : jsnum :=
  match r with
  | None => JNaN
  | Some (IntReply n) => JInt n
  | Some NilReply => JInt 0
  | Some r => to_number r
  end.

Definition is_one (n : jsnum) : bool := num_le n (JInt 1) && num_le (JInt 1) n.

(** ** Index maintenance *)

Definition index_key : bytes := wire (indexKey lay).

Definition pruneExpiredIndexMembers : prog unit :=
  if useIndex && hasZremrangebyscore client then
    PNow (λ now, pcatch (_ <- call (CIndex index_key (ZRemRangeByScore now)) ;; PRet tt) (λ _, PRet tt))
  else PRet tt.

Definition removeFromIndex (redisKey : jsstring) : prog unit :=
  if useIndex then (_ <- call (CIndex index_key (ZRem [wire redisKey])) ;; PRet tt) else PRet tt.

(** [validateRedisPipeline]: the first failed command of an executed pipeline
    is reported; the others have run. *)
Fixpoint validateRedisPipeline (index : nat) (results : list answer) : prog unit :=
  match results with
  | [] => PRet tt
  | Replied _ :: rest => validateRedisPipeline (S index) rest
  | Failed _ :: _ => PThrow (PipelineErr index)
  end.

Fixpoint pipeline (cs : list command) (done : list answer) : prog unit :=
  match cs with
  | [] => validateRedisPipeline 0 (rev done)
  | c :: cs' => PCall Direct c (λ r, pipeline cs' (r :: done))
  end.

Fixpoint chunks (fuel : nat) (n : nat) (keys : list jsstring) : list (list jsstring) :=
  match fuel, keys with
  | S fuel', _ :: _ => take n keys :: chunks fuel' n (drop n keys)
  | _, _ => []
  end.

Definition batches (keys : list jsstring) : list (list jsstring) :=
  chunks (length keys) (Z.to_nat getBatchSize) keys.

Definition is_data (redisKey : jsstring) : bool := bool_decide (fst <$> parseRedisKey lay redisKey = Some Data).

Fixpoint each {A} (f : A → prog unit) (l : list A) : prog unit :=
  match l with [] => PRet tt | a :: l' => (_ <- f a ;; each f l') end.

Definition delete_and_fence (redisKey lockKey : jsstring) : prog unit :=
  _ <- executeScript (DeleteAndFence (wire redisKey) (wire lockKey)) false (registered client NDeleteAndFence) ;; PRet tt.

Definition delete_batch (batch : list jsstring) : prog unit :=
  match batch with
  | [] => PRet tt
  | _ =>
      if useVersionedKeys lay then
        _ <- each (λ redisKey,
               if isInternalRedisKey lay redisKey then PRet tt
               else delete_and_fence redisKey (toLockKey lay (toLogicalKey lay redisKey))) batch ;;
        (if useIndex then (_ <- call (CIndex index_key (ZRem (wire <$> batch))) ;; PRet tt) else PRet tt)
      else
        pipeline (CDel (wire <$> batch) :: (if useIndex then [CIndex index_key (ZRem (wire <$> batch))] else [])) []
  end.

Definition deleteKeys (keys : list jsstring) : prog unit :=
  each (λ batch, delete_batch (filter (λ k, is_data k = true) batch)) (batches keys).

(** The strings of a ZRANGE reply, and the pairs they make. *)
Definition texts (r : rreply) : list jsstring :=
  match r with
  | ArrayReply l => omap (λ r, match r with BulkReply b => Some (utf8_decode b) | _ => None end) l
  | _ => []
  end.

Fixpoint paired (l : list jsstring) : option (list (jsstring * jsstring)) :=
  match l with
  | [] => Some []
  | k :: s :: l' => if finite_text s then cons (k, s) <$> paired l' else None
  | _ => None
  end.

Definition trim_candidates (selected : list jsstring) : list (jsstring * option jsstring) :=
  match selected, paired selected with
  | _ :: _, Some ps => (λ p, (p.1, Some p.2)) <$> ps
  | _, _ => (λ k, (k, None)) <$> selected
  end.

(** The victims whose score has not moved since it was read. *)
Fixpoint trim_victims (candidates : list (jsstring * option jsstring)) : prog (list jsstring) :=
  match candidates with
  | [] => PRet []
  | (k, score) :: rest =>
      match score with
      | Some s =>
          if hasZscore client then
            r <- call (CIndex index_key (ZScore (wire k))) ;;
            victims <- trim_victims rest ;;
            PRet (match r with BulkReply current => if bool_decide (utf8_decode current = s) then k :: victims else victims
                  | _ => victims end)
          else (victims <- trim_victims rest ;; PRet (k :: victims))
      | None => victims <- trim_victims rest ;; PRet (k :: victims)
      end
  end.

Definition trimIndex (maxEntries : Z) : prog unit :=
  _ <- pruneExpiredIndexMembers ;;
  r <- call (CIndex index_key ZCard) ;;
  let overflow := (match r with IntReply n => n | _ => 0 end) - maxEntries in
  if overflow <=? 0 then PRet tt
  else
    selected <- call (CIndex index_key (ZRangeWithScores 0 (overflow - 1))) ;;
    victims <- trim_victims (trim_candidates (texts selected)) ;;
    deleteKeys victims.

(** The data is committed: a failure of the index is logged. *)
Definition recordPublishedIndex (redisKey : jsstring) (options : call_options) : prog unit :=
  if negb useIndex then PRet tt
  else pcatch (PNow (λ now,
    ttl <- lift (resolveTtl options) ;;
    _ <- call (CIndex index_key (ZAdd (now + ttl) (wire redisKey))) ;;
    maxEntries <- lift (resolveMaxEntries options) ;;
    match maxEntries with Some n => trimIndex n | None => PRet tt end)) (λ _, PRet tt).

(** ** The operations *)

Definition setEncoded (key : jsstring) (payload : bytes) (options : call_options) : prog unit :=
  _ <- check_data_key key ;;
  ttlMs <- lift (resolveTtl options) ;;
  maxEntries <- lift (resolveMaxEntries options) ;;
  let redisKey := toRedisKey lay key in
  if useVersionedKeys lay then
    _ <- executeScript (SetAndFence (wire redisKey) (wire (toLockKey lay key)) payload ttlMs) false
           (registered client NSetAndFence) ;;
    recordPublishedIndex redisKey options
  else
    PNow (λ now,
      _ <- pipeline (CSet (wire redisKey) payload ttlMs
             :: (if useIndex then [CIndex index_key (ZAdd (now + ttlMs) (wire redisKey))] else [])) [] ;;
      match maxEntries with
      | Some n => if useIndex then trimIndex n else PRet tt
      | None => PRet tt
      end).

Definition supportsServerSnapshot : bool :=
  (registered client NSnapshot && (hasCommand client NSnapshot true || hasCommand client NSnapshot false))
  || (useVersionedKeys lay && (hasEvalBuffer client || hasEval client)).

Record snapshot := { sn_raw : option bytes; sn_ttl : jsnum; sn_size : jsnum; sn_oversized : bool }.

Definition raw_of (r : option rreply) : prog (option bytes) :=
  match r with
  | None | Some NilReply => PRet None
  | Some (BulkReply b) => PRet (Some b)
  | Some r => match to_buffer r with Some b => PRet (Some b) | None => PThrow (TypeErr "Buffer.from") end
  end.

Definition readRawSnapshot (redisKey : jsstring) (maxEncodedBytes : Z) : prog snapshot :=
  if supportsServerSnapshot then
    r <- executeScript (Snapshot (wire redisKey) (Some maxEncodedBytes)) true true ;;
    let tuple := match r with ArrayReply l => l | _ => [] end in
    raw <- raw_of (tuple !! 0%nat) ;;
    let ttl := normalizeIntegerReply (tuple !! 1%nat) in
    let size := normalizeIntegerReply (tuple !! 2%nat) in
    let bytes := if num_is_safe_integer size && num_le (JInt 0) size then size
                 else JInt (from_option (λ b, Z.of_nat (length b)) 0 raw) in
    let over := num_le ttl (JInt (-3)) && num_le (JInt (-3)) ttl in
    PRet {| sn_raw := raw; sn_ttl := if over then normalizeIntegerReply (tuple !! 3%nat) else ttl; sn_size := bytes;
            sn_oversized := over || num_lt (JInt maxEncodedBytes) bytes |}
  else
    value <- call (CGet (wire redisKey)) ;;
    raw <- raw_of (Some value) ;;
    ttl <- (if hasPttl client then (r <- call (CPttl (wire redisKey)) ;; PRet (normalizeIntegerReply (Some r)))
            else PRet (JInt (-1))) ;;
    let bytes := from_option (λ b, Z.of_nat (length b)) 0 raw in
    PRet {| sn_raw := raw; sn_ttl := ttl; sn_size := JInt bytes; sn_oversized := maxEncodedBytes <? bytes |}.

Definition getEncoded (key : jsstring) : prog (option (bytes * Z)) :=
  _ <- check_data_key key ;;
  let redisKey := toRedisKey lay key in
  s <- readRawSnapshot redisKey (so_maxEncodedBytes o) ;;
  if sn_oversized s then PRet None
  else match sn_raw s with
       | None => _ <- removeFromIndex redisKey ;; PRet None
       | Some raw =>
           if num_le (sn_ttl s) (JInt (-2)) && num_le (JInt (-2)) (sn_ttl s)
           then (_ <- removeFromIndex redisKey ;; PRet None)
           else if negb (num_is_safe_integer (sn_ttl s)) || num_lt (sn_ttl s) (JInt (-1)) then PRet None
           else PRet (Some (raw, num_floor (sn_ttl s)))
       end.

Definition store_has (key : jsstring) : prog bool :=
  _ <- check_data_key key ;;
  r <- call (CExists (wire (toRedisKey lay key))) ;;
  PRet (match r with IntReply 1 => true | _ => false end).

Definition store_delete (key : jsstring) : prog unit :=
  _ <- check_data_key key ;; deleteKeys [toRedisKey lay key].

Definition data_matching (pattern : jsstring) (page : list jsstring) : list jsstring :=
  filter (λ k, match parseRedisKey lay k with
               | Some (Data, logicalKey) => matchesPattern logicalKey pattern | _ => false end = true) page.

(** The batches of [deleteIndexedPattern], over the keys of all pages. *)
Fixpoint indexed_batches (matching batch : list jsstring) : prog unit :=
  match matching with
  | [] => if bool_decide (batch = []) then PRet tt else deleteKeys batch
  | k :: rest =>
      let batch := batch ++ [k] in
      if getBatchSize <=? Z.of_nat (length batch) then (_ <- deleteKeys batch ;; indexed_batches rest [])
      else indexed_batches rest batch
  end.

Definition fencePatternLeases (pattern : jsstring) (pages : list (list jsstring)) : prog unit :=
  each (λ page, each (λ redisKey,
    match parseRedisKey lay redisKey with
    | Some (Lock, logicalKey) =>
        if matchesPattern logicalKey pattern then delete_and_fence (toRedisKey lay logicalKey) redisKey else PRet tt
    | _ => PRet tt
    end) page) pages.

(** [pages]: of the stream of data keys or of index members; [leasePages]: of the leases. *)
Definition deleteByPattern (pattern : jsstring) (pages leasePages : list (list jsstring)) : prog unit :=
  _ <- (if useIndex then
          _ <- pruneExpiredIndexMembers ;; indexed_batches (mjoin (data_matching pattern <$> pages)) []
        else each (λ page, deleteKeys (data_matching pattern page)) pages) ;;
  if useVersionedKeys lay then fencePatternLeases pattern leasePages else PRet tt.

Definition store_clear (pages leasePages : list (list jsstring)) : prog unit := deleteByPattern (js "*") pages leasePages.

Definition store_size (pages : list (list jsstring)) : prog jsnum :=
  if useIndex then (_ <- pruneExpiredIndexMembers ;; r <- call (CIndex index_key ZCard) ;; PRet (normalizeIntegerReply (Some r)))
  else PRet (JInt (sumZ (λ page, Z.of_nat (length (filter (λ k, is_data k = true) page))) pages)).

Definition acquireLock (key : jsstring) (token : bytes) (ttlMs : jsnum) : prog bool :=
  _ <- check_data_key key ;;
  ttl <- lift (resolveTtl (Bare ttlMs)) ;;
  r <- call (CSetNx (wire (toLockKey lay key)) token ttl) ;;
  PRet (match r with OkReply => true | _ => false end).

Definition releaseLock (key : jsstring) (token : bytes) : prog unit :=
  _ <- executeScript (ReleaseLock (wire (toLockKey lay key)) token) false (registered client NRelease) ;; PRet tt.

Definition renewLock (key : jsstring) (token : bytes) (ttlMs : jsnum) : prog bool :=
  _ <- check_data_key key ;;
  ttl <- lift (resolveTtl (Bare ttlMs)) ;;
  r <- executeScript (RenewLock (wire (toLockKey lay key)) token ttl) false (registered client NRenew) ;;
  PRet (is_one (normalizeIntegerReply (Some r))).

Inductive AtomicPublicationResult := Published | NotOwner.

Definition publishIfOwner (key : jsstring) (token payload : bytes) (options : call_options) : prog AtomicPublicationResult :=
  _ <- check_data_key key ;;
  ttlMs <- lift (resolveTtl options) ;;
  _ <- lift (resolveMaxEntries options) ;;
  if bool_decide (token = []) then PThrow (TypeErr "token")
  else
    let redisKey := toRedisKey lay key in
    r <- executeScript (PublishIfOwner (wire redisKey) (wire (toLockKey lay key)) token payload ttlMs) false
           (registered client NPublish) ;;
    if negb (is_one (normalizeIntegerReply (Some r))) then PRet NotOwner
    else (_ <- recordPublishedIndex redisKey options ;; PRet Published).
End store.
