(* ===== verification/RedisStoreOk.v ===== *)
(** * The Redis store: what its operations send and answer

    Every command of every operation of a versioned store is one of the protocol
    of [RedisLease.v], whatever the server answers; a publication reports the
    server's verdict whatever happens to the index; what is written is read
    back. *)

From S2P Require Import Prelude JsValue Utf8 Uri Pattern RedisKeys RedisServer RedisLease RedisStore.

(** ** The commands a program may send *)

(** The bytes of the strings of a reply. *)
Definition reply_ok (r : rreply) : Prop :=
  match r with ArrayReply l => ∀ b, BulkReply b ∈ l → Forall is_byte b | _ => True end.

Definition answer_ok (a : answer) : Prop := match a with Replied r => reply_ok r | Failed _ => True end.

Fixpoint sends {A} (P : command → Prop) (Q : A → Prop) (m : prog A) : Prop :=
  match m with
  | PRet a => Q a
  | PThrow _ => True
  | PNow k => ∀ t, sends P Q (k t)
  | PCall _ c k => P c ∧ ∀ a, answer_ok a → sends P Q (k a)
  end.

Definition any {A} (_ : A) : Prop := True.

Lemma sends_bind {A B} P (Q : A → Prop) (R : B → Prop) m f :
  sends P Q m → (∀ a, Q a → sends P R (f a)) → sends P R (pbind m f).
Proof.
  intros Hm Hf. induction m as [a|e|k IH|via c k IH]; simpl in *; [by apply Hf|done|by intros t; apply IH|].
  destruct Hm as [Hc Hm]. split; [done|]. intros r Hr. by apply IH, Hm.
Qed.

Lemma sends_catch {A} P (Q : A → Prop) m f : sends P Q m → (∀ e, sends P Q (f e)) → sends P Q (pcatch m f).
Proof.
  intros Hm Hf. induction m as [a|e|k IH|via c k IH]; simpl in *; [done|apply Hf|by intros t; apply IH|].
  destruct Hm as [Hc Hm]. split; [done|]. intros r Hr. by apply IH, Hm.
Qed.

Lemma sends_weaken {A} P (Q R : A → Prop) m : sends P Q m → (∀ a, Q a → R a) → sends P R m.
Proof.
  intros Hm Hf. induction m as [a|e|k IH|via c k IH]; simpl in *; [by apply Hf|done|by intros t; apply IH|].
  destruct Hm as [Hc Hm]. split; [done|]. intros r Hr. by apply IH, Hm.
Qed.

Lemma sends_call (P : command → Prop) c : P c → sends P reply_ok (call c).
Proof. intros Hc. split; [done|]. intros [r|e] Ha; simpl; [done|done]. Qed.

Lemma sends_each {A} P (f : A → prog unit) l : (∀ a, a ∈ l → sends P any (f a)) → sends P any (each f l).
Proof.
  induction l as [|a l IH]; intros Hf; [done|]. simpl. eapply sends_bind; [apply Hf; by left|].
  intros _ _. apply IH. intros b Hb. apply Hf. by right.
Qed.

(** Induction by pairs. *)
Lemma pair_ind {A} (P : list A → Prop) : P [] → (∀ a, P [a]) → (∀ a b l, P l → P (a :: b :: l)) → ∀ l, P l.
Proof. intros H0 H1 H2. fix IH 1. intros [|a [|b l]]; [done|apply H1|]. apply H2, IH. Qed.

Lemma safe_positive n : num_is_safe_integer n = true → num_le n (JInt 0) = false → 0 < num_floor n.
Proof.
  unfold num_is_safe_integer, num_is_integer. destruct n as [[a d]| |]; simpl; try done. intros Hs Hl.
  apply andb_true_iff in Hs as [Hm _]. apply Z.eqb_eq in Hm. apply Z.leb_gt in Hl.
  apply Z.mod_divide in Hm as [z ->]; [|lia]. rewrite Z.div_mul by lia. nia.
Qed.

(** ** The maintenance of the index, for any predicate of the commands it sends *)

Section maintenance.
Context (o : RedisStoreOptions) (client : RedisClient).
Context (to_number : rreply → jsnum) (to_buffer : rreply → option bytes) (finite_text : jsstring → bool).
Context (Hv2 : useVersionedKeys (so_layout o) = true).

Context (P : command → Prop) (Hindex : ∀ z c, P (CIndex z c))
  (Hfence : ∀ k, code_units k → P (CScript (DeleteAndFence (data_key (lay o) k) (lock_key (lay o) k)))).

Abbreviation ok := P.
Abbreviation proto := (sends ok any).

Lemma sends_script c b r : ok (CScript c) → sends ok reply_ok (executeScript client c b r).
Proof.
  intros Hc. unfold executeScript.
  assert (He : sends ok reply_ok
    (if (b && hasEvalBuffer client) || hasEval client then call (CScript c) else PThrow (TypeErr "eval is not a function")))
    by (destruct (_ || _); [by apply sends_call|done]).
  destruct (r && _); [|done]. split; [done|]. intros [rr|[| |]] Ha; done.
Qed.

Lemma sends_lift {A} (r : result store_error A) : sends ok (λ a, r = Ok a) (lift r).
Proof. by destruct r. Qed.

Lemma sends_check key : proto (check_data_key o key).
Proof. unfold check_data_key. by destruct (assertDataKey _ _). Qed.

Lemma resolveTtl_positive options ttl : resolveTtl o options = Ok ttl → 0 < ttl.
Proof.
  unfold resolveTtl. set (n := match options with Bare t => t | _ => _ end). destruct (negb _ || _) eqn:E; [done|].
  intros [= <-]. apply orb_false_iff in E as [E1 E2]. apply negb_false_iff in E1. by apply safe_positive.
Qed.

Lemma unit_then {B} (m : prog unit) (f : unit → prog B) (R : B → Prop) :
  proto m → sends ok R (f tt) → sends ok R (pbind m f).
Proof. intros Hm Hf. eapply sends_bind; [exact Hm|]. by intros [] _. Qed.

Lemma call_unit c : ok c → proto (_ <- call c ;; PRet tt).
Proof. intros Hc. eapply sends_bind; [by apply sends_call|done]. Qed.

Lemma sends_prune : proto (pruneExpiredIndexMembers o client).
Proof.
  unfold pruneExpiredIndexMembers. destruct (_ && _); [|done]. intros t. apply sends_catch; [|done]. apply call_unit, Hindex.
Qed.

Lemma sends_remove k : proto (removeFromIndex o k).
Proof. unfold removeFromIndex. destruct (useIndex o); [apply call_unit, Hindex|done]. Qed.

Lemma parse_data_key redisKey logicalKey :
  parseRedisKey (lay o) redisKey = Some (Data, logicalKey) → redisKey = toRedisKey (lay o) logicalKey.
Proof. by intros (_ & -> & _)%parseRedisKey_sound. Qed.

Lemma sends_delete_and_fence logicalKey :
  code_units logicalKey → proto (delete_and_fence client (toRedisKey (lay o) logicalKey) (toLockKey (lay o) logicalKey)).
Proof.
  intros Hk. unfold delete_and_fence. eapply sends_bind; [|done]. apply sends_script. by apply Hfence.
Qed.

Lemma sends_delete_batch batch :
  (∀ k, k ∈ batch → code_units k) → proto (delete_batch o client batch).
Proof.
  intros Hb. unfold delete_batch. destruct batch as [|k0 ks]; [done|].
  change (useVersionedKeys (lay o)) with (useVersionedKeys (so_layout o)). rewrite Hv2. apply unit_then.
  - apply sends_each. intros k Hin. unfold isInternalRedisKey, toLogicalKey.
    destruct (parseRedisKey (lay o) k) as [[[] logicalKey]|] eqn:E; simpl; try done.
    pose proof (parsed_units _ _ _ _ E (Hb k Hin)). rewrite (parse_data_key _ _ E) at 1. by apply sends_delete_and_fence.
  - destruct (useIndex o); [apply call_unit, Hindex|done].
Qed.

Lemma chunks_elem fuel n keys batch k : batch ∈ chunks fuel n keys → k ∈ batch → k ∈ keys.
Proof.
  revert keys. induction fuel as [|fuel IH]; intros keys; simpl; [by intros ?%elem_of_nil|].
  destruct keys as [|k0 ks]; [by intros ?%elem_of_nil|]. intros [->|Hb]%elem_of_cons Hk.
  - apply elem_of_take in Hk as (i & Hi & _). by apply list_elem_of_lookup_2 in Hi.
  - specialize (IH _ Hb Hk). apply list_elem_of_lookup in IH as [i Hi]. rewrite lookup_drop in Hi.
    by eapply list_elem_of_lookup_2.
Qed.

Lemma sends_deleteKeys keys : (∀ k, k ∈ keys → code_units k) → proto (deleteKeys o client keys).
Proof.
  intros Hk. unfold deleteKeys. apply sends_each. intros batch Hb. apply sends_delete_batch.
  intros k [_ Hin]%list_elem_of_filter. apply Hk. by eapply chunks_elem.
Qed.

Lemma texts_units r : reply_ok r → ∀ k, k ∈ texts r → code_units k.
Proof.
  destruct r as [| | | |l]; simpl; try (by intros _ k ?%elem_of_nil). intros Hb k Hk.
  apply list_elem_of_omap in Hk as ([| |b| |] & Hin & [= <-]). by apply utf8_decode_units, Hb.
Qed.

Lemma paired_keys l ps : paired finite_text l = Some ps → ∀ k s, (k, s) ∈ ps → k ∈ l.
Proof.
  revert ps. induction l as [|k0|k0 s0 l IH] using pair_ind; intros ps; simpl.
  - intros [= <-] k s ?%elem_of_nil. done.
  - done.
  - destruct (finite_text s0); [|done]. destruct (paired finite_text l) as [ps'|] eqn:E; [|done].
    intros [= <-] k s [[= -> ->]|Hin]%elem_of_cons; [by left|]. right; right. by eapply IH.
Qed.

Lemma candidates_keys l k s : (k, s) ∈ trim_candidates finite_text l → k ∈ l.
Proof.
  unfold trim_candidates. destruct l as [|k0 l]; [by intros ?%elem_of_nil|].
  destruct (paired finite_text (k0 :: l)) as [ps|] eqn:E.
  - intros ([k' s'] & [= -> ->] & Hin)%list_elem_of_fmap. by eapply paired_keys.
  - by intros (k' & [= -> ->] & Hin)%list_elem_of_fmap.
Qed.

Lemma sends_victims cs :
  (∀ k s, (k, s) ∈ cs → code_units k) →
  sends ok (λ ks, ∀ k, k ∈ ks → code_units k) (trim_victims o client cs).
Proof.
  induction cs as [|[k s] cs IH]; intros Hcs; cbn [trim_victims]; [by intros k ?%elem_of_nil|].
  assert (Hk : code_units k) by (apply (Hcs k s); by left).
  assert (IH' : sends ok (λ ks, ∀ k, k ∈ ks → code_units k) (trim_victims o client cs))
    by (apply IH; intros k' s' ?; apply (Hcs k' s'); by right).
  assert (Hcons : ∀ ks : list jsstring, (∀ k, k ∈ ks → code_units k) → ∀ k', k' ∈ k :: ks → code_units k')
    by (intros ks Hks k' [->|?]%elem_of_cons; [done|by apply Hks]).
  destruct s as [s|]; [destruct (hasZscore client)|].
  - eapply sends_bind; [by apply sends_call|]. intros r _. eapply sends_bind; [exact IH'|]. intros ks Hks.
    destruct r; try done. simpl. case_bool_decide; [exact (Hcons ks Hks)|done].
  - eapply sends_bind; [exact IH'|]. intros ks Hks. exact (Hcons ks Hks).
  - eapply sends_bind; [exact IH'|]. intros ks Hks. exact (Hcons ks Hks).
Qed.

Lemma sends_trim n : proto (trimIndex o client finite_text n).
Proof.
  unfold trimIndex. apply unit_then; [apply sends_prune|]. eapply sends_bind; [by apply sends_call|]. intros r _.
  destruct (_ <=? 0); [done|]. eapply sends_bind; [by apply sends_call|]. intros sel Hsel.
  eapply sends_bind.
  - apply sends_victims. intros k s Hin%candidates_keys. by eapply texts_units.
  - intros ks Hks. by apply sends_deleteKeys.
Qed.

Lemma sends_record k options : proto (recordPublishedIndex o client finite_text k options).
Proof.
  unfold recordPublishedIndex. destruct (negb _); [done|]. apply sends_catch; [|done]. intros t.
  eapply sends_bind; [apply sends_lift|]. intros ttl _. eapply sends_bind; [by apply sends_call|]. intros r _.
  eapply sends_bind; [apply sends_lift|]. intros [n|] _; [apply sends_trim|done].
Qed.

Lemma matching_units pattern page k : Forall code_units page → k ∈ data_matching o pattern page → code_units k.
Proof. intros Hp [_ Hin]%list_elem_of_filter. by apply (proj1 (Forall_forall _ _) Hp). Qed.

Lemma sends_indexed matching batch :
  (∀ k, k ∈ matching → code_units k) → (∀ k, k ∈ batch → code_units k) → proto (indexed_batches o client matching batch).
Proof.
  revert batch. induction matching as [|k ks IH]; intros batch Hm Hb; cbn [indexed_batches].
  - case_bool_decide; [done|by apply sends_deleteKeys].
  - assert (Hks : ∀ k', k' ∈ ks → code_units k') by (intros k' ?; apply Hm; by right).
    assert (Hb' : ∀ k', k' ∈ batch ++ [k] → code_units k').
    { intros k' [?| ->%list_elem_of_singleton]%elem_of_app; [by apply Hb|]. apply Hm. by left. }
    destruct (_ <=? _); [|by apply IH]. apply unit_then; [by apply sends_deleteKeys|].
    apply IH; [done|]. by intros k' ?%elem_of_nil.
Qed.

Lemma sends_fence pattern pages :
  Forall (Forall code_units) pages → proto (fencePatternLeases o client pattern pages).
Proof.
  intros Hp. apply sends_each. intros page Hpage. apply sends_each. intros k Hk.
  destruct (parseRedisKey (lay o) k) as [[[] logicalKey]|] eqn:E; try done.
  destruct (matchesPattern logicalKey pattern); [|done].
  assert (Hu : code_units k) by (apply (proj1 (Forall_forall _ _) (proj1 (Forall_forall _ _) Hp page Hpage)); done).
  pose proof (parsed_units _ _ _ _ E Hu). apply parseRedisKey_sound in E as (_ & -> & _).
  by apply sends_delete_and_fence.
Qed.

Lemma sends_deleteByPattern pattern pages leasePages :
  Forall (Forall code_units) pages → Forall (Forall code_units) leasePages →
  proto (deleteByPattern o client pattern pages leasePages).
Proof.
  intros Hp Hl. apply unit_then.
  - destruct (useIndex o).
    + apply unit_then; [apply sends_prune|]. apply sends_indexed; [|by intros k ?%elem_of_nil].
      intros k (page & Hk & Hin)%list_elem_of_join. apply list_elem_of_fmap in Hin as (page' & -> & Hin).
      eapply matching_units; [|exact Hk]. by apply (proj1 (Forall_forall _ _) Hp).
    + apply sends_each. intros page Hpage. apply sends_deleteKeys. intros k Hk.
      eapply matching_units; [|exact Hk]. by apply (proj1 (Forall_forall _ _) Hp).
  - destruct (useVersionedKeys (lay o)); [by apply sends_fence|done].
Qed.
End maintenance.

Section protocol.
Context (o : RedisStoreOptions) (client : RedisClient).
Context (to_number : rreply → jsnum) (to_buffer : rreply → option bytes) (finite_text : jsstring → bool).
Context (Hv2 : useVersionedKeys (so_layout o) = true).

Abbreviation ok := (sent_by_store (lay o)).
Abbreviation proto := (sends ok any).

Lemma keys_of k : code_units k →
  ∃ k', code_units k' ∧ wire (toRedisKey (lay o) k) = data_key (lay o) k' ∧ wire (toLockKey (lay o) k) = lock_key (lay o) k'.
Proof. intros Hk. by exists k. Qed.

Lemma ok_index z c : ok (CIndex z c).
Proof. exact I. Qed.

Lemma ok_fence k : code_units k → ok (CScript (DeleteAndFence (data_key (lay o) k) (lock_key (lay o) k))).
Proof. intros Hk. by exists k. Qed.

#[local] Hint Resolve ok_index ok_fence : core.

(** ** The operations *)

Inductive operation :=
| OpSetEncoded (key : jsstring) (payload : bytes) (options : call_options)
| OpGetEncoded (key : jsstring)
| OpHas (key : jsstring)
| OpDelete (key : jsstring)
| OpDeleteByPattern (pattern : jsstring) (pages leasePages : list (list jsstring))
| OpSize (pages : list (list jsstring))
| OpAcquireLock (key : jsstring) (token : bytes) (ttlMs : jsnum)
| OpReleaseLock (key : jsstring) (token : bytes)
| OpRenewLock (key : jsstring) (token : bytes) (ttlMs : jsnum)
| OpPublishIfOwner (key : jsstring) (token payload : bytes) (options : call_options).

Definition ignore {A} (m : prog A) : prog unit := _ <- m ;; PRet tt.

Definition program (op : operation) : prog unit :=
  match op with
  | OpSetEncoded k p opts => setEncoded o client finite_text k p opts
  | OpGetEncoded k => ignore (getEncoded o client to_number to_buffer k)
  | OpHas k => ignore (store_has o k)
  | OpDelete k => store_delete o client k
  | OpDeleteByPattern p ps lps => deleteByPattern o client p ps lps
  | OpSize ps => ignore (store_size o client to_number ps)
  | OpAcquireLock k tok ttl => ignore (acquireLock o k tok ttl)
  | OpReleaseLock k tok => releaseLock o client k tok
  | OpRenewLock k tok ttl => ignore (renewLock o client to_number k tok ttl)
  | OpPublishIfOwner k tok p opts => ignore (publishIfOwner o client to_number finite_text k tok p opts)
  end.

(** Keys are strings of code units, also those of the pages. *)
Definition op_ok (op : operation) : Prop :=
  match op with
  | OpSetEncoded k _ _ | OpGetEncoded k | OpHas k | OpDelete k | OpAcquireLock k _ _ | OpReleaseLock k _
  | OpRenewLock k _ _ | OpPublishIfOwner k _ _ _ => code_units k
  | OpDeleteByPattern _ ps lps => Forall (Forall code_units) ps ∧ Forall (Forall code_units) lps
  | OpSize _ => True
  end.

Lemma sends_ignore {A} (Q : A → Prop) m : sends ok Q m → proto (ignore m).
Proof. intros Hm. by eapply sends_bind. Qed.

Lemma redis_key_units k : code_units k → code_units (prefix (lay o)) → code_units (toRedisKey (lay o) k).
Proof.
  intros Hk Hp. change (toRedisKey (lay o) k) with (key_of (lay o) Data k). rewrite key_of_versioned by done.
  unfold versioned. assert (Ht : code_units (toSlotTag k)).
  { eapply Forall_impl; [by apply toSlotTag_chars|]. intros x [? _]. lia. }
  unfold code_units in *. rewrite !Forall_app. split_and!; try done.
  - by apply ascii_well_formed, ascii_check.
  - by apply ascii_well_formed, ascii_check.
  - by apply ascii_well_formed, ascii_check.
Qed.

(** C13: a store of the versioned layout keeps to the protocol. Whatever the
    client offers and whatever each command answers — a reply, an error, a lost
    connection, NOSCRIPT — every command of every operation is one the lease
    theorems allow: the data and the lease of one logical key go together, every
    expiry is positive, and no data key is set or deleted without its lease. *)
Theorem store_keeps_protocol op :
  code_units (prefix (so_layout o)) → op_ok op → sends (sent_by_store (so_layout o)) any (program op).
Proof.
  intros Hp Hop. change (so_layout o) with (lay o). destruct op as [k p opts|k|k|k|pat ps lps|ps|k tok ttl|k tok|k tok ttl|k tok p opts]; simpl in Hop.
  - apply unit_then; [apply sends_check|]. eapply sends_bind; [apply sends_lift|]. intros ttl Httl.
    eapply sends_bind; [apply sends_lift|]. intros m _. change (useVersionedKeys (lay o)) with (useVersionedKeys (so_layout o)).
    rewrite Hv2. eapply sends_bind; [|intros r _; apply sends_record; auto]. apply sends_script.
    split; [exact (resolveTtl_positive _ _ _ Httl)|by apply keys_of].
  - apply (sends_ignore any). apply unit_then; [apply sends_check|]. eapply (sends_bind _ any).
    { unfold readRawSnapshot. destruct (supportsServerSnapshot _ _).
      - eapply sends_bind; [by apply sends_script|]. intros r _.
        eapply (sends_bind _ any); [unfold raw_of; repeat case_match; done|done].
      - eapply sends_bind; [by apply sends_call|]. intros r _. eapply (sends_bind _ any); [unfold raw_of; repeat case_match; done|].
        intros raw _. eapply (sends_bind _ any); [|done].
        destruct (hasPttl client); [|done]. eapply sends_bind; [by apply sends_call|done]. }
    intros s _. destruct (sn_oversized s); [done|]. destruct (sn_raw s) as [raw|].
    + destruct (_ && _); [apply unit_then; [apply sends_remove; auto|done]|]. by destruct (_ || _).
    + apply unit_then; [apply sends_remove; auto|done].
  - apply (sends_ignore any). apply unit_then; [apply sends_check|]. eapply sends_bind; [by apply sends_call|done].
  - apply unit_then; [apply sends_check|]. apply sends_deleteKeys; auto. intros x ->%list_elem_of_singleton.
    by apply redis_key_units.
  - destruct Hop as [Hps Hlps]. apply sends_deleteByPattern; auto.
  - apply (sends_ignore any). simpl. unfold store_size. destruct (useIndex o); [|done].
    apply unit_then; [apply sends_prune; auto|]. eapply sends_bind; [by apply sends_call|done].
  - apply (sends_ignore any). apply unit_then; [apply sends_check|]. eapply sends_bind; [apply sends_lift|]. intros z Hz.
    eapply sends_bind; [|done]. apply sends_call. split; [exact (resolveTtl_positive _ _ _ Hz)|by exists k].
  - eapply sends_bind; [|done]. apply sends_script. by exists k.
  - apply (sends_ignore any). apply unit_then; [apply sends_check|]. eapply sends_bind; [apply sends_lift|]. intros z Hz.
    eapply sends_bind; [|done]. apply sends_script. split; [exact (resolveTtl_positive _ _ _ Hz)|by exists k].
  - apply (sends_ignore any). apply unit_then; [apply sends_check|]. eapply sends_bind; [apply sends_lift|]. intros z Hz.
    eapply sends_bind; [apply sends_lift|]. intros m _. case_bool_decide; [done|].
    eapply sends_bind; [apply sends_script; split; [exact (resolveTtl_positive _ _ _ Hz)|by apply keys_of]|]. intros r _.
    destruct (negb _); [done|]. apply unit_then; [apply sends_record; auto|done].
Qed.
End protocol.

(** ** Runs *)

Abbreviation step := (transport * command * answer)%type.

Inductive runs {A} : prog A → list step → result store_error A → Prop :=
| runs_ret a : runs (PRet a) [] (Ok a)
| runs_throw e : runs (PThrow e) [] (Throw e)
| runs_now k t tr r : runs (k t) tr r → runs (PNow k) tr r
| runs_call via c k a tr r : answer_ok a → runs (k a) tr r → runs (PCall via c k) ((via, c, a) :: tr) r.

Lemma runs_bind {A B} (m : prog A) (f : A → prog B) tr r :
  runs (pbind m f) tr r →
  (∃ tr1 tr2 a, tr = tr1 ++ tr2 ∧ runs m tr1 (Ok a) ∧ runs (f a) tr2 r) ∨
  (∃ e, runs m tr (Throw e) ∧ r = Throw e).
Proof.
  revert tr r. induction m as [a|e|k IH|via c k IH]; intros tr r Hr; simpl in Hr.
  - left. exists [], tr, a. split; [done|]. split; [constructor|done].
  - right. exists e. inversion Hr; subst. split; [constructor|done].
  - inversion Hr as [| |k' t tr' r' Hk|]; subst. apply IH in Hk as [(tr1 & tr2 & a & -> & H1 & H2)|(e & H1 & ->)].
    + left. exists tr1, tr2, a. split; [done|]. split; [by econstructor|done].
    + right. exists e. split; [by econstructor|done].
  - inversion Hr as [| | |via' c' k' a tr' r' Ha Hk]; subst.
    apply IH in Hk as [(tr1 & tr2 & b & -> & H1 & H2)|(e & H1 & ->)].
    + left. exists ((via, c, a) :: tr1), tr2, b. split; [done|]. split; [by econstructor|done].
    + right. exists e. split; [by econstructor|done].
Qed.

Lemma runs_sends {A} P (Q : A → Prop) m tr r :
  sends P Q m → runs m tr r → Forall (λ e : step, P e.1.2) tr.
Proof.
  intros Hs Hr. induction Hr as [| |k t tr r Hr IH|via c k a tr r Ha Hr IH]; simpl in Hs; [constructor|constructor|by apply IH|].
  destruct Hs as [Hc Hs]. constructor; [done|by apply IH, Hs].
Qed.

Lemma runs_pure {A} (m : result store_error A) tr r : runs (lift m) tr r → tr = [] ∧ r = m.
Proof. destruct m; simpl; intros Hr; inversion Hr; subst; by split. Qed.

Lemma runs_catch_unit (m : prog unit) tr r : runs (pcatch m (λ _, PRet tt)) tr r → r = Ok tt.
Proof.
  revert tr. induction m as [[]|e|k IH|via c k IH]; intros tr Hr; simpl in Hr; inversion Hr; subst; try done; by eapply IH.
Qed.

(** Replay recorded readings and answers. *)
Fixpoint replay {A} (m : prog A) (times : list Z) (answers : list answer) : option (list step * result store_error A) :=
  match m with
  | PRet a => Some ([], Ok a)
  | PThrow e => Some ([], Throw e)
  | PNow k => match times with t :: times' => replay (k t) times' answers | [] => None end
  | PCall via c k =>
      match answers with
      | a :: answers' => (λ x, ((via, c, a) :: x.1, x.2)) <$> replay (k a) times answers'
      | [] => None
      end
  end.

Lemma replay_runs {A} (m : prog A) times answers tr r :
  replay m times answers = Some (tr, r) → Forall answer_ok answers → runs m tr r.
Proof.
  revert times answers tr r. induction m as [a|e|k IH|via c k IH]; intros times answers tr r E Ha; simpl in E.
  - injection E as <- <-. constructor.
  - injection E as <- <-. constructor.
  - destruct times as [|t times]; [done|]. econstructor. by eapply IH.
  - destruct answers as [|a answers]; [done|]. apply Forall_cons in Ha as [Ha Has].
    destruct (replay (k a) times answers) as [[tr1 r1]|] eqn:E1; [|done]. injection E as <- <-.
    constructor; [done|]. by eapply IH.
Qed.

Definition is_publish (c : command) : Prop := match c with CScript (PublishIfOwner _ _ _ _ _) => True | _ => False end.

(** NOSCRIPT: the server did not know the script, and has not run it. *)
Definition refused_unrun (e : step) : Prop := e.1.1 = Named ∧ e.2 = Failed NoScript.

Section publication.
Context (o : RedisStoreOptions) (client : RedisClient).
Context (to_number : rreply → jsnum) (to_buffer : rreply → option bytes) (finite_text : jsstring → bool).
Context (Hv2 : useVersionedKeys (so_layout o) = true).

(** The runs of one script: sent once, or once more after NOSCRIPT. *)
Lemma runs_script c b r tr out :
  runs (executeScript client c b r) tr out →
  (tr = [] ∧ ∃ e, out = Throw e) ∨
  ∃ pre via a, tr = pre ++ [(via, CScript c, a)] ∧ (pre = [] ∨ ∃ e, pre = [e] ∧ e.1.2 = CScript c ∧ refused_unrun e) ∧
    ((∃ rr, a = Replied rr ∧ out = Ok rr) ∨ (∃ e, a = Failed e ∧ ∃ e', out = Throw e')).
Proof.
  assert (He : ∀ tr out,
    runs (if (b && hasEvalBuffer client) || hasEval client then call (CScript c) else PThrow (TypeErr "eval is not a function")) tr out →
    (tr = [] ∧ ∃ e, out = Throw e) ∨ ∃ a, tr = [(Direct, CScript c, a)] ∧
      ((∃ rr, a = Replied rr ∧ out = Ok rr) ∨ (∃ e, a = Failed e ∧ ∃ e', out = Throw e'))).
  { intros tr' out' Hr. destruct (_ || _); [|inversion Hr; subst; left; eauto].
    right. inversion Hr as [| | |via' c' k' a tr1 r1 Ha Hk]; subst. exists a.
    destruct a; inversion Hk; subst; (split; [done|]); [left|right]; eauto. }
  unfold executeScript. destruct (r && _).
  2: { intros [[-> ?]|(a & -> & Ha)]%He; [by left|]. right. exists [], Direct, a. split; [done|]. split; [by left|done]. }
  intros Hr. inversion Hr as [| | |via' c' k' a tr1 r1 Ha Hk]; subst. right.
  destruct a as [rr|[|e|]].
  - inversion Hk; subst. exists [], Named, (Replied rr). split; [done|]. split; [by left|left; eauto].
  - apply He in Hk as [[-> [e ->]]|(a & -> & Hout)].
    + exists [], Named, (Failed NoScript). split; [done|]. split; [by left|right; eauto].
    + exists [(Named, CScript c, Failed NoScript)], Direct, a. split; [done|]. split; [right; by eexists|done].
  - inversion Hk; subst. exists [], Named, (Failed (ServerError e)). split; [done|]. split; [by left|right; eauto].
  - inversion Hk; subst. exists [], Named, (Failed TransportError). split; [done|]. split; [by left|right; eauto].
Qed.

Lemma runs_check key tr out : runs (check_data_key o key) tr out → tr = [].
Proof. unfold check_data_key. destruct (assertDataKey _ _); intros Hr; inversion Hr; by subst. Qed.

(** a publication reports the server's verdict, and asks for it once. In
    every run of [publishIfOwner], whatever fails: at most one publication is
    sent that the server may have run (one more only after NOSCRIPT); the
    outcome is [published] exactly when the server answered 1 to it, so that a
    failure of the index maintenance after the commit never shows; it is
    [not-owner] only when the server answered otherwise; and an error means that
    the command was never sent or its reply was an error. *)
Theorem publish_reports_verdict key token payload options tr out :
  runs (publishIfOwner o client to_number finite_text key token payload options) tr out →
  (∃ e, out = Throw e ∧ Forall (λ e : step, ¬ is_publish e.1.2) tr) ∨
  ∃ pre via c a post,
    tr = pre ++ (via, c, a) :: post ∧ is_publish c ∧ Forall refused_unrun pre ∧
    Forall (λ e : step, ¬ is_publish e.1.2) post ∧
    match a with
    | Replied r => out = Ok (if is_one (normalizeIntegerReply to_number (Some r)) then Published else NotOwner)
    | Failed _ => ∃ e, out = Throw e
    end.
Proof.
  unfold publishIfOwner. intros Hr. apply runs_bind in Hr as [(t1 & t2 & [] & -> & H1 & Hr)|(e & H1 & ->)].
  2: { left. exists e. split; [done|]. rewrite (runs_check _ _ _ H1). constructor. }
  rewrite (runs_check _ _ _ H1). simpl.
  apply runs_bind in Hr as [(t3 & t4 & ttl & -> & [-> _]%runs_pure & Hr)|(e & [-> _]%runs_pure & ->)]; [|left; by exists e].
  apply runs_bind in Hr as [(t5 & t6 & m & -> & [-> _]%runs_pure & Hr)|(e & [-> _]%runs_pure & ->)]; [|left; by exists e].
  simpl. case_bool_decide; [inversion Hr; subst; left; by eexists|].
  apply runs_bind in Hr as [(t7 & t8 & r & -> & H7 & Hr)|(e & H7 & ->)].
  - apply runs_script in H7 as [[-> [e ?]]|(pre & via & a & -> & Hpre & [(rr & -> & [= <-])|(e & _ & e' & ?)])]; [done| |done].
    right. eexists pre, via, _, (Replied r), t8. split; [by rewrite <-app_assoc|]. split; [exact I|].
    split; [destruct Hpre as [->|(e & -> & _ & He)]; [constructor|by constructor]|].
    destruct (is_one _); simpl in Hr.
    + apply runs_bind in Hr as [(t9 & t10 & [] & -> & H9 & Hr)|(e & H9 & ->)].
      * inversion Hr; subst. rewrite app_nil_r. split; [|done].
        eapply (runs_sends (λ c, ¬ is_publish c) any); [|exact H9]. apply sends_record; [done|by intros ? ? ?|by intros ? ? ?].
      * exfalso. unfold recordPublishedIndex in H9. destruct (negb _); [by inversion H9|]. by apply runs_catch_unit in H9.
    + inversion Hr; subst. split; [constructor|done].
  - apply runs_script in H7 as [[-> _]|(pre & via & a & -> & Hpre & [(rr & -> & ?)|(e' & -> & _)])]; [left; by exists e|done|].
    right. eexists pre, via, _, (Failed e'), []. split; [done|]. split; [exact I|].
    split; [destruct Hpre as [->|(e1 & -> & _ & He)]; [constructor|by constructor]|]. split; [constructor|by exists e].
Qed.
End publication.

(** ** Undisturbed runs: what is written is read back *)

Section quiet.
Context {D : Type} `{Redis D} (scan : bytes → Z → D → rreply).

(** A program run at one reading of the clock, every reply delivered. *)
Fixpoint run_quiet {A} (t : Z) (m : prog A) (d : D) : D * result store_error A :=
  match m with
  | PRet a => (d, Ok a)
  | PThrow e => (d, Throw e)
  | PNow k => run_quiet t (k t) d
  | PCall _ c k =>
      let '(d', r) := exec scan t c d in
      run_quiet t (k (match r with Ok r => Replied r | Throw e => Failed (ServerError e) end)) d'
  end.

Lemma quiet_bind {A B} t (m : prog A) (f : A → prog B) d :
  run_quiet t (pbind m f) d =
  match run_quiet t m d with (d', Ok a) => run_quiet t (f a) d' | (d', Throw e) => (d', Throw e) end.
Proof.
  revert d. induction m as [a|e|k IH|via c k IH]; intros d; simpl; [done|done|apply IH|].
  destruct (exec scan t c d) as [d' r]. apply IH.
Qed.

Context (o : RedisStoreOptions) (client : RedisClient).
Context (to_number : rreply → jsnum) (to_buffer : rreply → option bytes) (finite_text : jsstring → bool).
Context (Hv2 : useVersionedKeys (so_layout o) = true) (Hidx : useIndex o = false).

(** The client can run every script. *)
Definition can_run : Prop :=
  hasEval client = true ∨ ∀ n b, registered client n = true ∧ hasCommand client n b = true.

Context (Hcan : can_run).

Lemma quiet_script t c b r d :
  (registered client (name_of c) = true → r = true) →
  run_quiet t (executeScript client c b r) d =
  let '(d', rr) := run_script t c d in
  (d', match rr with Ok rr => Ok rr | Throw e => Throw (ClientErr (ServerError e)) end).
Proof.
  intros Hr. unfold executeScript. destruct (r && hasCommand client (name_of c) b) eqn:Ec.
  - simpl. destruct (run_script t c d) as [d' [rr|e]]; done.
  - assert (hasEval client = true) as ->.
    { destruct Hcan as [?|Ha]; [done|]. destruct (Ha (name_of c) b) as [Hreg Hc]. rewrite (Hr Hreg), Hc in Ec. done. }
    rewrite orb_true_r. simpl. destruct (run_script t c d) as [d' [rr|e]]; done.
Qed.

Lemma quiet_check t key d : run_quiet t (check_data_key o key) d = (d, Ok tt).
Proof. unfold check_data_key, assertDataKey, lay. by rewrite Hv2. Qed.

Lemma quiet_lift {A} t (r : result store_error A) d : run_quiet t (lift r) d = (d, r).
Proof. by destruct r. Qed.

Lemma quiet_set t key payload options ttl m d :
  resolveTtl o options = Ok ttl → resolveMaxEntries o options = Ok m →
  run_quiet t (setEncoded o client finite_text key payload options) d =
  ((r_del t (wire (toLockKey (lay o) key)) (r_set t (wire (toRedisKey (lay o) key)) payload ttl d)).1, Ok tt).
Proof.
  intros Ht Hm. unfold setEncoded. rewrite quiet_bind, quiet_check, quiet_bind, quiet_lift, Ht, quiet_bind, quiet_lift, Hm.
  change (useVersionedKeys (lay o)) with (useVersionedKeys (so_layout o)). rewrite Hv2, quiet_bind.
  rewrite quiet_script by done. simpl. unfold recordPublishedIndex. by rewrite Hidx.
Qed.

Lemma server_snapshot : supportsServerSnapshot o client = true.
Proof.
  unfold supportsServerSnapshot, lay. rewrite Hv2. destruct Hcan as [->|Ha]; [by rewrite !orb_true_r|].
  destruct (Ha NSnapshot true) as [-> ->]. done.
Qed.

Context (Hmax : 0 <= so_maxEncodedBytes o).

Lemma num_le_int a b : num_le (JInt a) (JInt b) = (a <=? b).
Proof. unfold num_le, JInt. simpl. by rewrite !Z.mul_1_r. Qed.

Lemma num_lt_int a b : num_lt (JInt a) (JInt b) = (a <? b).
Proof. unfold num_lt, JInt. simpl. by rewrite !Z.mul_1_r. Qed.

#[local] Arguments num_le : simpl never.
#[local] Arguments num_lt : simpl never.
#[local] Arguments num_is_safe_integer : simpl never.
#[local] Arguments num_floor : simpl never.
#[local] Arguments safe_int : simpl never.

Ltac ints := rewrite ?num_le_int, ?num_lt_int, ?num_is_safe_integer_JInt, ?num_floor_JInt.

Lemma if_same {A} (b : bool) (x : A) : (if b then x else x) = x.
Proof. by destruct b. Qed.

(** What a read of a string or of nothing answers. *)
Lemma quiet_get t key d :
  let redisKey := wire (toRedisKey (lay o) key) in
  run_quiet t (getEncoded o client to_number to_buffer key) d =
  (d, match observe t redisKey d with
      | RAbsent => Ok None
      | RStr v (Some e) =>
          Ok (if (so_maxEncodedBytes o <? Z.of_nat (length v)) || negb (safe_int (e - t)) then None else Some (v, e - t))
      | RStr v None => Ok (if so_maxEncodedBytes o <? Z.of_nat (length v) then None else Some (v, -1))
      | ROther => Throw (ClientErr (ServerError WrongType))
      end).
Proof.
  intros redisKey. unfold getEncoded. rewrite quiet_bind, quiet_check, quiet_bind. unfold readRawSnapshot. rewrite server_snapshot.
  rewrite quiet_bind, quiet_script by done. fold redisKey. unfold run_script. rewrite strlen_reply, get_reply. change (Some (so_maxEncodedBytes o) ?? 26214400) with (so_maxEncodedBytes o).
  pose proof (pttl_reply t redisKey d) as Hp. pose proof (observe_deadline t redisKey d) as Hdl.
  destruct (observe t redisKey d) as [|v [e|]|] eqn:Eo.
  - rewrite (proj2 (Z.ltb_ge _ 0)) by done. simpl. ints. unfold removeFromIndex. rewrite Hidx.
    by destruct (_ <? _).
  - specialize (Hdl v e eq_refl). destruct (so_maxEncodedBytes o <? Z.of_nat (length v)) eqn:El; simpl; ints; [done|].
    rewrite if_same, Hp, num_lt_int, El, (proj2 (Z.leb_gt (e - t) (-3))) by lia. simpl. ints.
    rewrite (proj2 (Z.leb_gt (e - t) (-2))), (proj2 (Z.ltb_ge (e - t) (-1))) by lia.
    simpl. rewrite orb_false_r. ints. by destruct (safe_int (e - t)).
  - destruct (so_maxEncodedBytes o <? Z.of_nat (length v)) eqn:El; simpl; ints; [done|].
    rewrite if_same, Hp, num_lt_int, El. simpl. ints. done.
  - by destruct (so_maxEncodedBytes o <? 0).
Qed.

Context (Hbatch : 1 <= getBatchSize o).

Lemma quiet_delete t key d :
  code_units key → toRedisKey (lay o) key ≠ indexKey (lay o) →
  run_quiet t (store_delete o client key) d =
  ((r_del t (wire (toLockKey (lay o) key)) (r_del t (wire (toRedisKey (lay o) key)) d).1).1, Ok tt).
Proof.
  intros Hk Hi. unfold store_delete. rewrite quiet_bind, quiet_check. unfold deleteKeys, batches. simpl length.
  cbn [chunks]. destruct (Z.to_nat (getBatchSize o)) as [|n] eqn:En; [lia|]. simpl take. simpl drop.
  assert (Hp : parseRedisKey (lay o) (toRedisKey (lay o) key) = Some (Data, key)).
  { apply (parseRedisKey_complete (lay o) Data key); [done|done|]. unfold lay. by rewrite Hv2. }
  assert (Hd : is_data o (toRedisKey (lay o) key) = true) by (unfold is_data; by rewrite Hp).
  cbn [each]. rewrite take_nil, filter_cons, decide_True by done. cbn [filter list_filter]. unfold delete_batch.
  change (useVersionedKeys (lay o)) with (useVersionedKeys (so_layout o)). rewrite Hv2, Hidx. cbn [each].
  unfold isInternalRedisKey, toLogicalKey. rewrite Hp. cbn [fmap option_fmap option_map fst]. rewrite bool_decide_eq_true_2 by done.
  cbn [negb from_option snd]. unfold delete_and_fence. rewrite !quiet_bind, quiet_script by done. unfold run_script.
  by destruct (r_del t _ d) as [d1 m].
Qed.

(** what a store writes it reads back, with the time that is left, until
    the deadline and for every client, and nothing after it or after a deletion;
    and both a write and a deletion leave no lease of that key behind. *)
Theorem store_set_get key payload options ttl m t t' d :
  code_units key → good_prefix (lay o) → toRedisKey (lay o) key ≠ indexKey (lay o) →
  resolveTtl o options = Ok ttl → resolveMaxEntries o options = Ok m →
  Z.of_nat (length payload) <= so_maxEncodedBytes o → t <= t' →
  let written := (run_quiet t (setEncoded o client finite_text key payload options) d).1 in
  let deleted := (run_quiet t' (store_delete o client key) written).1 in
  (t' < t + ttl → (run_quiet t' (getEncoded o client to_number to_buffer key) written).2 = Ok (Some (payload, t + ttl - t'))) ∧
  (t + ttl < t' → (run_quiet t' (getEncoded o client to_number to_buffer key) written).2 = Ok None) ∧
  (run_quiet t' (getEncoded o client to_number to_buffer key) deleted).2 = Ok None ∧
  observe t' (wire (toLockKey (lay o) key)) written = RAbsent ∧ observe t' (wire (toLockKey (lay o) key)) deleted = RAbsent.
Proof.
  intros Hk Hg Hi Httl Hm Hlen Ht written deleted.
  assert (Hpos : 0 < ttl) by by eapply resolveTtl_positive.
  assert (Hsafe : ttl <= MAX_SAFE_INTEGER).
  { unfold resolveTtl in Httl. destruct (negb _ || _) eqn:E; [done|]. injection Httl as <-.
    apply orb_false_iff in E as [E _]. apply negb_false_iff in E. unfold num_is_safe_integer in E.
    apply andb_true_iff in E as [_ E]. unfold safe_int in E. apply Z.leb_le in E. lia. }
  assert (Hne : wire (toRedisKey (lay o) key) ≠ wire (toLockKey (lay o) key)) by by apply data_lock_apart.
  set (data := wire (toRedisKey (lay o) key)) in *. set (lock := wire (toLockKey (lay o) key)) in *.
  assert (Hw : written = (r_del t lock (r_set t data payload ttl d)).1)
    by (unfold written; by rewrite (quiet_set _ _ _ _ ttl m)).
  assert (Hwd : observe t data written = RStr payload (Some (t + ttl)))
    by (rewrite Hw, del_observe, decide_False, set_effect, decide_True by done; done).
  assert (Hwl : observe t lock written = RAbsent) by (rewrite Hw, del_observe, decide_True by done; done).
  assert (Hwl' : observe t' lock written = RAbsent)
    by (destruct (observe_later t t' lock written Ht) as [Heq|[Heq _]]; congruence).
  assert (Hdel : deleted = (r_del t' lock (r_del t' data written).1).1) by (unfold deleted; by rewrite quiet_delete).
  split_and!.
  - intros Ht'. rewrite quiet_get. fold data. rewrite (observe_lives t t' data written payload (t + ttl)) by (done || lia).
    simpl. rewrite (proj2 (Z.ltb_ge _ _)) by done.
    assert (safe_int (t + ttl - t') = true) as -> by (unfold safe_int; apply Z.leb_le; lia). done.
  - intros Ht'. rewrite quiet_get. fold data. destruct (observe_later t t' data written Ht) as [Heq|[Heq _]].
    + rewrite Hwd in Heq. apply observe_deadline in Heq. lia.
    + by rewrite Heq.
  - rewrite quiet_get. fold data. rewrite Hdel, del_observe, decide_False, del_observe, decide_True by done. done.
  - done.
  - rewrite Hdel, del_observe, decide_True by done. done.
Qed.
End quiet.

(** ** Witnesses *)

Definition demo_options (index : bool) : RedisStoreOptions :=
  {| so_layout := lv2; so_useIndex := Some index; so_scanCount := None; so_batchSize := None; so_l2Ttl := None;
     so_ttl := None; so_l2MaxEntries := None; so_maxEncodedBytes := 1000 |}.

Definition demo_client : RedisClient :=
  {| registered := λ _, true; hasCommand := λ _ _, true; hasEvalBuffer := true; hasEval := true; hasPttl := true;
     hasZremrangebyscore := true; hasZscore := true |}.

Definition plain_options : call_options := Options None (Some (JInt 500)) None.

Lemma store_keeps_protocol_witness :
  sends (sent_by_store lv2) any
    (program (demo_options true) demo_client (λ _, JNaN) (λ _, None) (λ _, false) (OpDeleteByPattern (js "user:*") [[toRedisKey lv2 k1]] [])).
Proof.
  apply (store_keeps_protocol (demo_options true) demo_client (λ _, JNaN) (λ _, None) (λ _, false)).
  - reflexivity.
  - apply lv2_good.
  - split; [|constructor]. constructor; [|constructor]. constructor; [|constructor].
    by apply ascii_well_formed, ascii_check.
Defined.

(** The publication is committed, the ZADD of the index fails. *)
Definition publish_demo_steps : list step :=
  [(Named, CScript (PublishIfOwner (data_key lv2 k1) (lock_key lv2 k1) (js "tok") [1; 2] 500), Replied (IntReply 1));
   (Direct, CIndex (wire (indexKey lv2)) (ZAdd 1500 (wire (toRedisKey lv2 k1))), Failed TransportError)].

Definition publish_demo : prog AtomicPublicationResult :=
  publishIfOwner (demo_options true) demo_client (λ _, JNaN) (λ _, false) k1 (js "tok") [1; 2] plain_options.

Lemma publish_demo_replay :
  replay publish_demo [1000] [Replied (IntReply 1); Failed TransportError] = Some (publish_demo_steps, Ok Published).
Proof. vm_compute. reflexivity. Qed.

Lemma publish_demo_runs : runs publish_demo publish_demo_steps (Ok Published).
Proof. eapply replay_runs; [exact publish_demo_replay|]. by repeat constructor. Qed.

Lemma publish_reports_verdict_witness :
  ∃ pre via c a post, publish_demo_steps = pre ++ (via, c, a) :: post ∧ is_publish c ∧ Forall refused_unrun pre.
Proof.
  destruct (publish_reports_verdict (demo_options true) demo_client (λ _, JNaN) (λ _, false) eq_refl
    k1 (js "tok") [1; 2] plain_options publish_demo_steps (Ok Published) publish_demo_runs)
    as [(e & He & _)|(pre & via & c & a & post & E & Hc & Hp & _)]; [done|].
  exists pre, via, c, a, post. split; [exact E|]. split; [exact Hc|exact Hp].
Defined.

Lemma demo_client_runs : can_run demo_client.
Proof. by left. Qed.

Lemma store_set_get_witness :
  let o := demo_options false in
  let written := (run_quiet no_scan 0 (setEncoded o demo_client (λ _, false) k1 [9; 9] plain_options) (∅ : memory_db)).1 in
  (run_quiet no_scan 100 (getEncoded o demo_client (λ _, JNaN) (λ _, None) k1) written).2 = Ok (Some ([9; 9], 400)).
Proof.
  intros o written.
  destruct (store_set_get no_scan o demo_client (λ _, JNaN) (λ _, None) (λ _, false) eq_refl eq_refl demo_client_runs
    ltac:(done) ltac:(done) k1 [9; 9] plain_options 500 None 0 100 ∅) as (Hget & _).
  - exact k1_units.
  - exact lv2_good.
  - by vm_compute.
  - reflexivity.
  - reflexivity.
  - done.
  - lia.
  - apply Hget. lia.
Defined.
