(* ===== verification/HybridCache.v ===== *)
(** * The cache's operations ([src/src/cache/hybridCache.ts])

    The asynchronous methods of [HybridCache] as programs over the effects they
    perform: guards ([KeyGuard.v]), the coordination maps ([Coordination.v]),
    the in-memory store ([MemoryStore.v]), the shared store, the loader and the
    event bus. An effect that awaits gives the other operations a turn; between
    two awaits an operation runs alone. [HybridOk.v] runs any number of them.

    L1, when there is one, is the built-in [MemoryStore]; L2 is any store.
    Serializing, decoding and the resolution of options are arguments
    ([Serializer.v], [CacheOptions.v]). Telemetry events are not modelled, and a
    timer or promise race is an effect with its outcome. *)

From S2P Require Import Prelude KeyGuard.

Inductive cache_error :=
| CacheClosedError
| OriginLoadClosedError
| OriginLoadOverloadError
| DistributedLockTimeoutError
| DistributedLockLostError
| LoaderTimeoutError (soft : bool)
| AbortError
| OptionRangeError
| OtherError.

#[export] Instance cache_error_eq_dec : EqDecision cache_error.
Proof. solve_decision. Defined.

Section cache.
Context {K V : Type}.

(** A guard with the storage key it was given; [issue] is its identity. *)
Record hguard := { hg : MutationGuard (K := K); storageKey : K; issue : nat }.

Inductive event :=
| DeleteEvent (keys : list (jsstring * option bool)) (generation : option Z)
| SetEvent (keys : list (jsstring * option bool)) (value : V) (ttlMs : option Z) (generation : option Z)
| PatternEvent (pattern : jsstring).

(** What is asked of the shared store. *)
Inductive l2_call :=
| L2GetEncoded (k : K)
| L2Get (k : K)
| L2SetEncoded (k : K) (b : bytes)
| L2Set (k : K) (v : V)
| L2Delete (k : K)
| L2DeleteByPattern (pattern : jsstring)
| L2Has (k : K)
| L2Size
| L2PublishIfOwner (k : K) (token : jsstring) (b : bytes)
| L2AcquireLock (k : K) (token : jsstring)
| L2ReleaseLock (k : K) (token : jsstring).

Inductive l2_answer :=
| L2Unit
| L2Bool (b : bool)
| L2Size_ (n : Z)
| L2Bytes (b : option (bytes * Z))
| L2Value (v : option V)
| L2Published (owner : bool).

Inductive loaded := Loaded (v : option V) | LoadFailed (e : cache_error).

Inductive eff : Type → Type :=
(* guards and mutable flags *)
| EObserve (k : K) (mutate : bool) : eff hguard
| ERelease (g : hguard) : eff unit
| ECurrent (g : hguard) : eff bool
| ESuperseded (g : hguard) (k : K) : eff bool
| EClosed : eff bool
| ETrusted : eff bool
| EVersionSafe : eff bool
| ESaturated : eff bool
| EBumpEpoch : eff unit
| EUntrust : eff unit
| ERestoreBegin : eff Z
| ERestoreEnd (revision : Z) : eff unit
| EAdvanceAfterDelete (k : K) (generation : option Z) : eff unit
| EAdvanceAfterSet (k : K) (generation : option Z) : eff unit
| ESaturate : eff unit
| EClose : eff unit
(* the coordination maps *)
| EHasNegative (k : K) : eff bool
| ESetNegative (k : K) : eff unit
| ERemoveNegative (k : K) : eff unit
| EGetStale (k : K) : eff (option V)
| ERememberStale (k : K) (v : V) (b : option bytes) : eff unit
| ERemoveStale (k : K) : eff unit
| ERemoveInflight (k : K) : eff unit
| ERemoveMatching (pattern : jsstring) : eff unit
| EJoinable (k : K) : eff bool
| EReserveInflight (k : K) : eff bool
| EGenerationForEvent (k : K) : eff (option Z)
| EStorageKey (k : K) : eff K
| EStaleGeneration (k : K) (generation : option Z) : eff bool
| EHasSeen (id : jsstring) : eff bool
| EMarkSeen (id : jsstring) : eff unit
| ERemoveSeen (id : jsstring) : eff unit
| EGateOpen : eff bool
| EEnterLeader : eff bool
| ELeaveLeader : eff unit
(* the in-memory store: its calls act before they yield *)
| EL1GetEncoded (k : K) : eff (option (bytes * Z))
| EL1SetEncoded (k : K) (b : bytes) (ttl : option Z) : eff unit
| EL1Set (k : K) (v : V) : eff unit
| EL1Has (k : K) : eff bool
| EL1Delete (k : K) : eff unit
| EL1DeleteByPattern (pattern : jsstring) : eff unit
| EL1Size : eff Z
| EL1Close : eff unit
| EPermitsPromotion (bytes : Z) : eff bool
| EElapsed : eff Z
| EExpired (deadline : Z) : eff bool
| EAborted : eff bool
| ELeaseOwned : eff bool
| EL2Send (c : l2_call) : eff unit
(* awaiting *)
| EYield : eff unit
| EAdmit : eff bool
| EL2Settle : eff (option l2_answer)
| EOrigin (k : K) : eff (option cache_error)
| ELoad (k : K) : eff loaded
| EJoin (k : K) : eff loaded
| ESleep (pollMs deadline : Z) : eff bool
| EPublish (e : event) : eff unit
| EDisconnect : eff (option cache_error)
| EForever : eff Empty_set.

Definition awaits {X} (e : eff X) : bool :=
  match e with
  | EYield | EAdmit | EL2Settle | EOrigin _ | ELoad _ | EJoin _ | ESleep _ _ | EPublish _ | EDisconnect | EForever => true
  | _ => false
  end.

Inductive prog (A : Type) : Type :=
| Ret (a : A)
| Raise (e : cache_error)
| Vis {X : Type} (e : eff X) (k : X → prog A).
Arguments Ret {A} a.
Arguments Raise {A} e.
Arguments Vis {A X} e k.

Fixpoint bind {A B} (m : prog A) (f : A → prog B) : prog B :=
  match m with Ret a => f a | Raise e => Raise e | Vis e k => Vis e (λ x, bind (k x) f) end.

Fixpoint catch {A} (m : prog A) (f : cache_error → prog A) : prog A :=
  match m with Ret a => Ret a | Raise e => f e | Vis e k => Vis e (λ x, catch (k x) f) end.

(** [try { m } finally { cleanup }] *)
Fixpoint finally {A} (m : prog A) (cleanup : prog unit) : prog A :=
  match m with
  | Ret a => bind cleanup (λ _, Ret a)
  | Raise e => bind cleanup (λ _, Raise e)
  | Vis e k => Vis e (λ x, finally (k x) cleanup)
  end.

Definition perform {X} (e : eff X) : prog X := Vis e Ret.

Notation "x <- m ;; k" := (bind m (λ x, k)) (at level 100, m at next level, right associativity) : js_scope.
Notation "! e ;; k" := (bind (perform e) (λ _, k)) (at level 100, e at next level, right associativity) : js_scope.

Context {Opts : Type}.

(** The constructor's choices and the resolution of the options. *)
Record config := {
  hasL1 : bool;
  hasL2 : bool;
  l2Encoded : bool;
  l2Locks : bool;
  l2Atomic : bool;
  hasBus : bool;
  self : Opts;
  valid_options : Opts → bool;
  sameLayerCodecPolicy : Opts → bool;
  encodeL1 : Opts → V → option bytes;
  encodeL2 : Opts → V → option bytes;
  decode : bytes → option V;
  l1Ttl : Opts → Z;
  with_ttl : Z → Opts → Opts;
  key_bytes : K → Z;
  inflight_off : Opts → bool;
  origin_on : Opts → bool;
  lock_on : Opts → bool;
  failSafe_on : Opts → bool;
  lock_options_ok : Opts → bool;
  on_timeout_load : Opts → bool;
  lock_pollMs : Opts → Z;
  broadcast : Opts → V → bool;
  del_event : K → option Z → event;
  set_event : K → V → option Z → event;
  key_of_event : jsstring → option bool → K;
  numeric_alias : jsstring → option K }.

Context (c : config).

Definition ensureOpen : prog unit := b <- perform EClosed ;; if b then Raise CacheClosedError else Ret tt.

(** ** [runL2] *)

(** The breaker, the byte budget and the operation gate admit the call or not;
    a call that is not admitted, fails or outlives its deadline answers the
    fallback. *)
Definition runL2 {X} (call : prog X) (fallback : X) : prog X :=
  if negb (hasL2 c) then Ret fallback
  else
    b <- perform EAdmit ;;
    if negb b then Ret fallback else catch call (λ _, Ret fallback).

(** A call leaves the process when it is made; its answer is awaited. *)
Definition l2 (call : l2_call) : prog l2_answer :=
  ! EL2Send call ;;
  r <- perform EL2Settle ;;
  match r with Some a => Ret a | None => Raise OtherError end.

Definition l2_unit (call : l2_call) : prog unit := _ <- l2 call ;; Ret tt.

Definition value_of (a : l2_answer) : option V := match a with L2Value v => v | _ => None end.
Definition bytes_of (a : l2_answer) : option (bytes * Z) := match a with L2Bytes b => b | _ => None end.
Definition bool_of (a : l2_answer) : bool := match a with L2Bool b => b | _ => false end.

(** The read of the shared store, with the bytes when it keeps encoded ones. *)
Definition read_l2 (k : K) : prog (option V * option (bytes * Z)) :=
  if l2Encoded c then
    a <- l2 (L2GetEncoded k) ;;
    Ret (match bytes_of a with Some (b, ttl) => (decode c b, Some (b, ttl)) | None => (None, None) end)
  else (a <- l2 (L2Get k) ;; Ret (value_of a, None)).

(** [discardObsoleteL1] deletes nothing from a [MemoryStore], but is awaited. *)
Definition discardObsoleteL1 : prog unit := perform EYield.

Definition store_l1 (k : K) (v : V) (encoded : option bytes) (ttl : option Z) : prog unit :=
  if hasL1 c then
    match encoded with
    | Some b => perform (EL1SetEncoded k b ttl)
    | None => perform (EL1Set k v)
    end
  else Ret tt.

(** ** [writeValue] and [set] *)

Definition writeValue (key : K) (value : V) (options : Opts) (g : hguard) : prog bool :=
  current <- perform (ECurrent g) ;;
  if negb current then Ret false
  else
    let samePolicy := hasL1 c && (hasL2 c && l2Encoded c) && sameLayerCodecPolicy c options in
    let encodedL1 := if hasL1 c then encodeL1 c options value else None in
    let encodedL2 := if samePolicy then encodedL1
                     else if hasL2 c && l2Encoded c then encodeL2 c options value else None in
    _ <- store_l1 (storageKey g) value encodedL1 None ;;
    ! EYield ;;
    current <- perform (ECurrent g) ;;
    if negb current then (_ <- discardObsoleteL1 ;; Ret false)
    else
      _ <- runL2 (current <- perform (ECurrent g) ;;
                  if negb current then Ret tt
                  else match encodedL2 with
                       | Some b => l2_unit (L2SetEncoded (storageKey g) b)
                       | None => l2_unit (L2Set (storageKey g) value)
                       end) tt ;;
      current <- perform (ECurrent g) ;;
      if negb current then (_ <- discardObsoleteL1 ;; Ret false)
      else
        ! ERememberStale key value (match encodedL1 with Some b => Some b | None => encodedL2 end) ;;
        ! ERemoveNegative key ;;
        Ret true.

Definition cache_set (key : K) (value : V) (options : Opts) : prog unit :=
  _ <- ensureOpen ;;
  if negb (valid_options c options) then Raise OptionRangeError
  else
    g <- perform (EObserve key true) ;;
    _ <- finally (writeValue key value options g) (perform (ERelease g)) ;;
    Ret tt.

(** ** [promoteToL1] *)

Definition promoteToL1 (key sk : K) (value : V) (options : Opts) (reusable : option (bytes * Z))
    (invalidateOnBypass : bool) : prog bool :=
  let bypass := if invalidateOnBypass then (! EL1Delete sk ;; ! EYield ;; Ret false) else Ret false in
  if negb (hasL1 c) then Ret false
  else
    let reused := if sameLayerCodecPolicy c options then fst <$> reusable else None in
    match (match reused with Some b => Some b | None => encodeL1 c options value end) with
    | None => bypass
    | Some b =>
        permitted <- perform (EPermitsPromotion (Z.of_nat (length b) + key_bytes c sk * 2 + 160)) ;;
        if negb permitted then bypass
        else
          elapsed <- perform EElapsed ;;
          let remaining := match reusable with Some (_, ttl) => if 0 <=? ttl then Some (ttl - elapsed) else None | None => None end in
          if from_option (λ r, r <=? 0) false remaining then bypass
          else
            ! EL1SetEncoded sk b ((λ r, Z.min (l1Ttl c options) r) <$> remaining) ;;
            ! EYield ;;
            present <- perform (EL1Has sk) ;;
            ! EYield ;;
            Ret present
    end.

(** ** [readValue] and [get] *)

Definition still (g : hguard) : prog bool :=
  trusted <- perform ETrusted ;; current <- perform (ECurrent g) ;; Ret (trusted && current).

(** The answer of L1 when it may be asked. *)
Definition read_l1 (key : K) (g : hguard) : prog (option V) :=
  trusted <- perform ETrusted ;;
  if negb (trusted && hasL1 c) then Ret None
  else
    r <- perform (EL1GetEncoded (storageKey g)) ;;
    ! EYield ;;
    match r with
    | None => Ret None
    | Some (b, _) =>
        match decode c b with
        | None =>
            ok <- still g ;;
            _ <- (if ok then (! EL1Delete (storageKey g) ;; perform EYield) else Ret tt) ;; Ret None
        | Some v =>
            ok <- still g ;;
            _ <- (if ok then perform (ERememberStale key v (Some b)) else Ret tt) ;; Ret (Some v)
        end
    end.

Definition remaining_after (elapsed : Z) (e : option (bytes * Z)) : option (bytes * Z) :=
  (λ x, (x.1, if 0 <=? x.2 then Z.max 0 (x.2 - elapsed) else x.2)) <$> e.

Definition readValue (key : K) (g : hguard) : prog (option V) :=
  trusted <- perform ETrusted ;;
  negative <- (if trusted then perform (EHasNegative key) else Ret false) ;;
  if negative then Ret None
  else
    l1Value <- read_l1 key g ;;
    match l1Value with
    | Some v => Ret (Some v)
    | None =>
        r <- runL2 (read_l2 (storageKey g)) (None, None) ;;
        match r.1 with
        | None => Ret None
        | Some v =>
            ok <- still g ;;
            if negb ok then Ret (Some v)
            else
              elapsed <- perform EElapsed ;;
              let encoded := remaining_after elapsed r.2 in
              _ <- promoteToL1 key (storageKey g) v (self c) encoded false ;;
              ok <- still g ;;
              if negb ok then (_ <- discardObsoleteL1 ;; Ret (Some v))
              else (! ERememberStale key v (fst <$> encoded) ;; Ret (Some v))
        end
    end.

Definition cache_get (key : K) : prog (option V) :=
  _ <- ensureOpen ;;
  safe <- perform EVersionSafe ;;
  if negb safe then Ret None
  else (g <- perform (EObserve key false) ;; finally (readValue key g) (perform (ERelease g))).

Definition cache_has (key : K) : prog bool :=
  _ <- ensureOpen ;;
  safe <- perform EVersionSafe ;;
  if negb safe then Ret false
  else
    negative <- perform (EHasNegative key) ;;
    if negative then Ret false
    else
      sk <- perform (EStorageKey key) ;;
      trusted <- perform ETrusted ;;
      inL1 <- (if trusted && hasL1 c then (b <- perform (EL1Has sk) ;; ! EYield ;; Ret b) else Ret false) ;;
      if inL1 then Ret true
      else runL2 (a <- l2 (L2Has sk) ;; Ret (bool_of a)) false.

Definition cache_size : prog Z :=
  _ <- ensureOpen ;;
  safe <- perform EVersionSafe ;;
  if negb safe then Ret 0
  else if hasL1 c then (n <- perform EL1Size ;; ! EYield ;; Ret n)
  else runL2 (a <- l2 L2Size ;; Ret (match a with L2Size_ n => n | _ => 0 end)) 0.

(** ** Deletions *)

Definition delete_l1 (sk : K) : prog unit := if hasL1 c then perform (EL1Delete sk) else Ret tt.

Definition deleteLocal (key : K) (generation : option Z) : prog unit :=
  g <- perform (EObserve key true) ;;
  finally (
    ! ERemoveInflight key ;;
    ! ERemoveNegative key ;;
    ! ERemoveStale key ;;
    ! EAdvanceAfterDelete key generation ;;
    _ <- delete_l1 (storageKey g) ;;
    ! EYield ;;
    runL2 (
      closed <- perform EClosed ;;
      fresh <- perform (ESuperseded g key) ;;
      if negb closed && fresh then l2_unit (L2Delete (storageKey g)) else Ret tt) tt)
    (perform (ERelease g)).

(** The publisher of an invalidation owns L2. *)
Definition deleteLocalOnly (key : K) (generation : option Z) : prog unit :=
  g <- perform (EObserve key true) ;;
  finally (
    ! ERemoveInflight key ;;
    ! ERemoveNegative key ;;
    ! ERemoveStale key ;;
    ! EAdvanceAfterDelete key generation ;;
    _ <- delete_l1 (storageKey g) ;;
    perform EYield)
    (perform (ERelease g)).

Definition deleteByPatternLocal (pattern : jsstring) (shared : bool) : prog unit :=
  ! EBumpEpoch ;;
  ! ERemoveMatching pattern ;;
  _ <- (if hasL1 c then perform (EL1DeleteByPattern pattern) else Ret tt) ;;
  ! EYield ;;
  if shared then runL2 (l2_unit (L2DeleteByPattern pattern)) tt else Ret tt.

(** [publishInvalidation] fails open: the breaker and the bus are its outcome. *)
Definition publishInvalidation (e : event) : prog unit :=
  closed <- perform EClosed ;;
  if closed || negb (hasBus c) then Ret tt else perform (EPublish e).

Definition cache_delete (key : K) : prog unit :=
  _ <- ensureOpen ;; _ <- deleteLocal key None ;;
  generation <- perform (EGenerationForEvent key) ;;
  publishInvalidation (del_event c key generation).

Definition cache_deleteByPattern (pattern : jsstring) : prog unit :=
  _ <- ensureOpen ;; _ <- deleteByPatternLocal pattern true ;; publishInvalidation (PatternEvent pattern).

Definition cache_clear : prog unit := cache_deleteByPattern (js "*").

(** ** Loading *)

(** [lease?.assertOwned()]; [leased] says whether there is a lease. *)
Definition assertOwned (leased : bool) : prog unit :=
  if leased then (ok <- perform ELeaseOwned ;; if ok then Ret tt else Raise DistributedLockLostError) else Ret tt.

Definition throwIfAborted : prog unit := b <- perform EAborted ;; if b then Raise AbortError else Ret tt.

Definition stale_answer (key : K) (options : Opts) (otherwise : prog (option V)) : prog (option V) :=
  stale <- perform (EGetStale key) ;;
  match stale with
  | Some v => if failSafe_on c options then Ret (Some v) else otherwise
  | None => otherwise
  end.

(** The part of [loadAndStore] up to the loader's value: [inl] is an early return. *)
Definition obtain (key : K) (options : Opts) (leased : bool) : prog (option V + option V) :=
  _ <- throwIfAborted ;;
  _ <- assertOwned leased ;;
  queuedCached <- cache_get key ;;
  negative <- (match queuedCached with Some _ => Ret false | None => perform (EHasNegative key) end) ;;
  if bool_decide (is_Some queuedCached) || negative then Ret (inl queuedCached)
  else
    _ <- (if origin_on c options then (r <- perform (EOrigin key) ;; match r with Some e => Raise e | None => Ret tt end)
          else Ret tt) ;;
    _ <- throwIfAborted ;;
    _ <- assertOwned leased ;;
    admittedCached <- cache_get key ;;
    _ <- throwIfAborted ;;
    _ <- assertOwned leased ;;
    negative <- (match admittedCached with Some _ => Ret false | None => perform (EHasNegative key) end) ;;
    if bool_decide (is_Some admittedCached) || negative then Ret (inl admittedCached)
    else
      r <- perform (ELoad key) ;;
      match r with
      | LoadFailed e => Raise e
      | Loaded v => _ <- assertOwned leased ;; Ret (inr v)
      end.

(** The store part of an atomic publication. *)
Definition publish_atomic (key : K) (value : V) (options : Opts) (g : hguard) (token : jsstring)
    : prog (option V * bool) :=
  match encodeL2 c options value with
  | None => Ret (Some value, false)
  | Some encodedL2 =>
      publication <- runL2 (
        current <- perform (ECurrent g) ;;
        if current then (a <- l2 (L2PublishIfOwner (storageKey g) token encodedL2) ;;
                         Ret (match a with L2Published b => Some b | _ => None end))
        else Ret None) None ;;
      match publication with
      | Some false =>
          winner <- runL2 (r <- read_l2 (storageKey g) ;; Ret r.1) None ;;
          match winner with Some w => Ret (Some w, false) | None => Raise DistributedLockLostError end
      | None => Ret (Some value, false)
      | Some true =>
          ok <- still g ;;
          if negb ok then Ret (Some value, false)
          else
            let encodedL1 := if hasL1 c then
                (if sameLayerCodecPolicy c options then Some encodedL2 else encodeL1 c options value) else None in
            _ <- store_l1 (storageKey g) value encodedL1 None ;;
            ! EYield ;;
            ok <- still g ;;
            if negb ok then (_ <- discardObsoleteL1 ;; Ret (Some value, false))
            else
              ! ERememberStale key value (Some (encodedL1 ?? encodedL2)) ;;
              ! ERemoveNegative key ;;
              Ret (Some value, true)
      end
  end.

Definition loadAndStore (key : K) (options : Opts) (g : hguard) (publicationAllowed : bool) (lease : option jsstring)
    : prog (option V) :=
  let leased := bool_decide (is_Some lease) in
  r <- catch (r <- obtain key options leased ;; Ret (inl r))
         (λ e, v <- stale_answer key options (Raise e) ;; Ret (inr v)) ;;
  match r with
  | inr answer => Ret answer
  | inl (inl cached) => Ret cached
  | inl (inr None) =>
      if negb publicationAllowed then Ret None
      else
        current <- perform (ECurrent g) ;;
        if negb current then Ret None
        else (! ESetNegative key ;; stale_answer key options (Ret None))
  | inl (inr (Some value)) =>
      _ <- assertOwned leased ;;
      if negb publicationAllowed then Ret (Some value)
      else
        current <- perform (ECurrent g) ;;
        if negb current then Ret (Some value)
        else
          stored <- (match lease with
                     | Some token => if l2Atomic c then publish_atomic key value options g token
                                     else (ok <- writeValue key value options g ;;
                                           if negb ok then Ret (Some value, false)
                                           else (_ <- assertOwned leased ;; Ret (Some value, true)))
                     | None => ok <- writeValue key value options g ;; Ret (Some value, ok)
                     end) ;;
          if negb stored.2 then Ret stored.1
          else if negb (hasBus c) then Ret stored.1
          else
            current <- perform (ECurrent g) ;;
            if current && broadcast c options value
            then (generation <- perform (EGenerationForEvent key) ;;
                  _ <- publishInvalidation (set_event c key value generation) ;; Ret stored.1)
            else Ret stored.1
  end.

(** ** The distributed lock *)

(** One turn of the loop of [loadWithDistributedLockInternal], [fuel] of them:
    the safety theorems hold for every [fuel], and a loop that runs out awaits
    for ever, which [LockWait.v] excludes. *)
Fixpoint lock_loop (fuel : nat) (key : K) (options : Opts) (g : hguard) (token : jsstring) (waitUntil : Z)
    (contended : bool) : prog (option V) :=
  match fuel with
  | O => Vis EForever (λ x, match x with end)
  | S fuel' =>
      _ <- throwIfAborted ;;
      _ <- ensureOpen ;;
      acquired <- runL2 (a <- l2 (L2AcquireLock (storageKey g) token) ;; Ret (Some (bool_of a))) None ;;
      match acquired with
      | Some true =>
          finally (
            cached <- cache_get key ;;
            negative <- (match cached with Some _ => Ret false | None => perform (EHasNegative key) end) ;;
            if bool_decide (is_Some cached) || negative then Ret cached
            else loadAndStore key options g true (Some token))
            (runL2 (l2_unit (L2ReleaseLock (storageKey g) token)) tt)
      | _ =>
          if bool_decide (acquired = None) && negb contended
          then loadAndStore key options g (negb (l2Atomic c)) None
          else
            expired <- perform (EExpired waitUntil) ;;
            aborted <- (if expired then Ret false else perform (ESleep (lock_pollMs c options) waitUntil)) ;;
            if aborted then Raise AbortError else
            cached <- cache_get key ;;
            negative <- (match cached with Some _ => Ret false | None => perform (EHasNegative key) end) ;;
            if bool_decide (is_Some cached) || negative then Ret cached
            else
              expired <- perform (EExpired waitUntil) ;;
              if expired then
                if on_timeout_load c options then loadAndStore key options g (negb (l2Atomic c)) None
                else stale_answer key options (Raise DistributedLockTimeoutError)
              else lock_loop fuel' key options g token waitUntil true
      end
  end.

Definition loadWithDistributedLockInternal (fuel : nat) (key : K) (options : Opts) (g : hguard) (token : jsstring)
    (waitUntil : Z) : prog (option V) :=
  if negb (lock_on c options) || negb (hasL2 c && l2Locks c) then loadAndStore key options g true None
  else if negb (lock_options_ok c options) then Raise OptionRangeError
  else lock_loop fuel key options g token waitUntil false.

Definition loadWithDistributedLock (fuel : nat) (key : K) (options : Opts) (token : jsstring) (waitUntil : Z) : prog (option V) :=
  _ <- ensureOpen ;;
  gate <- perform EGateOpen ;;
  if negb gate then Raise OriginLoadClosedError else
  entered <- perform EEnterLeader ;;
  if negb entered then stale_answer key options (Raise OriginLoadOverloadError)
  else
    g <- perform (EObserve key false) ;;
    finally (loadWithDistributedLockInternal fuel key options g token waitUntil)
      (! ELeaveLeader ;; perform (ERelease g)).

(** ** [getOrSet] *)

Definition joined (r : loaded) : prog (option V) :=
  match r with Loaded v => Ret v | LoadFailed e => Raise e end.

Definition getOrSet (fuel : nat) (key : K) (options : Opts) (token : jsstring) (waitUntil : Z) : prog (option V) :=
  _ <- ensureOpen ;;
  if negb (valid_options c options) then Raise OptionRangeError
  else
    existing <- (if inflight_off c options then Ret false else perform (EJoinable key)) ;;
    if existing then (r <- perform (EJoin key) ;; joined r)
    else
      cached <- cache_get key ;;
      match cached with
      | Some v => Ret (Some v)
      | None =>
          closed <- perform EClosed ;;
          if closed then Raise OriginLoadClosedError
          else
            trusted <- perform ETrusted ;;
            negative <- (if trusted then perform (EHasNegative key) else Ret false) ;;
            if negative then Ret None
            else if inflight_off c options then loadWithDistributedLock fuel key options token waitUntil
            else
              existing <- perform (EJoinable key) ;;
              if existing then (r <- perform (EJoin key) ;; joined r)
              else
                registered <- perform (EReserveInflight key) ;;
                if negb registered then loadWithDistributedLock fuel key options token waitUntil
                else
                  (* the leader of the key; the promise starts in a later turn *)
                  ! EYield ;;
                  finally (loadWithDistributedLock fuel key options token waitUntil) (perform (ERemoveInflight key))
      end.

(** ** Invalidations from the bus *)

Definition markInvalidationUntrusted : prog unit :=
  ! EUntrust ;; if hasL1 c then perform (EL1DeleteByPattern (js "*")) else Ret tt.

Definition restoreInvalidationTrust : prog unit :=
  revision <- perform ERestoreBegin ;;
  _ <- (if hasL1 c then perform (EL1DeleteByPattern (js "*")) else Ret tt) ;;
  ! EYield ;;
  perform (ERestoreEnd revision).

(** The [saturateGenerationTracking] of a regressed generation. *)
Definition saturateGenerationTracking : prog unit :=
  saturated <- perform ESaturated ;;
  _ <- (if saturated then Ret tt
        else ! ESaturate ;; if hasL1 c then perform (EL1DeleteByPattern (js "*")) else Ret tt) ;;
  perform EYield.

Fixpoint applyRemoteDelete (versioning : bool) (keys : list (jsstring * option bool)) (generation : option Z) : prog unit :=
  match keys with
  | [] => Ret tt
  | (rawKey, type) :: rest =>
      closed <- perform EClosed ;;
      if closed then Ret tt
      else
        let key := key_of_event c rawKey type in
        isStale <- perform (EStaleGeneration key generation) ;;
        _ <- (if isStale && versioning then saturateGenerationTracking else Ret tt) ;;
        _ <- deleteLocalOnly key generation ;;
        _ <- (match type, numeric_alias c rawKey with
              | None, Some alias => deleteLocalOnly alias generation
              | _, _ => Ret tt
              end) ;;
        applyRemoteDelete versioning rest generation
  end.

(** One key of a SET event. *)
Definition prime (key : K) (value : V) (options : Opts) (generation : option Z) (g : hguard) : prog unit :=
  r <- (if hasL2 c then
          r <- runL2 (read_l2 (storageKey g)) (None, None) ;;
          elapsed <- perform EElapsed ;;
          match r.1 with
          | Some v => Ret (Some (v, remaining_after elapsed r.2))
          | None =>
              ok <- still g ;;
              _ <- (if ok then
                      _ <- delete_l1 (storageKey g) ;; ! EYield ;; ! ERemoveNegative key ;; perform (ERemoveStale key)
                    else Ret tt) ;;
              Ret None
          end
        else Ret (Some (value, None))) ;;
  match r with
  | None => Ret tt
  | Some (v, encoded) =>
      ok <- still g ;;
      if negb ok then Ret tt
      else
        _ <- promoteToL1 key (storageKey g) v options encoded true ;;
        ok <- still g ;;
        isStale <- perform (EStaleGeneration key generation) ;;
        if negb ok || isStale then discardObsoleteL1
        else
          ! ERememberStale key v (fst <$> encoded) ;;
          ! ERemoveNegative key ;;
          perform (ERemoveInflight key)
  end.

Fixpoint prime_keys (keys : list (jsstring * option bool)) (value : V) (options : Opts) (generation : option Z) : prog unit :=
  match keys with
  | [] => Ret tt
  | (rawKey, type) :: rest =>
      closed <- perform EClosed ;;
      if closed then Ret tt
      else
        let key := key_of_event c rawKey type in
        isStale <- perform (EStaleGeneration key generation) ;;
        if isStale then prime_keys rest value options generation
        else
          ! EAdvanceAfterSet key generation ;;
          g <- perform (EObserve key true) ;;
          _ <- finally (prime key value options generation g) (perform (ERelease g)) ;;
          prime_keys rest value options generation
  end.

Definition applyRemoteSet (keys : list (jsstring * option bool)) (value : V) (ttlMs : option Z) (generation : option Z) : prog unit :=
  closed <- perform EClosed ;;
  trusted <- perform ETrusted ;;
  safe <- perform EVersionSafe ;;
  if closed || negb trusted || negb safe then Ret tt
  else
    saturated <- perform ESaturated ;;
    if saturated && negb (hasL2 c) then Ret tt
    else prime_keys keys value (match ttlMs with Some t => with_ttl c t (self c) | None => self c end) generation.

(** The subscriber: [None] is an event that does not decode. The event has
    passed the namespace checks; [own] says it came from this cache. *)
Definition receive (versioning own : bool) (id : jsstring) (e : option event) : prog unit :=
  closed <- perform EClosed ;;
  if closed then Ret tt
  else match e with
  | None => markInvalidationUntrusted
  | Some e =>
      seen <- perform (EHasSeen id) ;;
      if seen then Ret tt
      else
        ! EMarkSeen id ;;
        if own then Ret tt
        else catch (match e with
                    | DeleteEvent keys generation => applyRemoteDelete versioning keys generation
                    | SetEvent keys value ttlMs generation => applyRemoteSet keys value ttlMs generation
                    | PatternEvent pattern => deleteByPatternLocal pattern false
                    end)
               (λ err, ! ERemoveSeen id ;; Raise err)
  end.

Definition on_status (status : option bool) : prog unit :=
  closed <- perform EClosed ;;
  if closed then Ret tt
  else match status with
       | Some false => markInvalidationUntrusted
       | Some true => catch restoreInvalidationTrust (λ _, markInvalidationUntrusted)
       | None => Ret tt
       end.

(** [EClose] is the part up to the store: the flag, the epoch, the gates, the
    leaders' signals and the maps ([KeyGuard.v] and [Coordination.v] model what
    it does to them). [ownsL1]: the cache made its own store. Then the
    observability server and the bus are closed, and may fail. *)
Definition closeResources (ownsL1 : bool) : prog unit :=
  ! EClose ;;
  _ <- (if ownsL1 && hasL1 c then perform EL1Close else Ret tt) ;;
  r <- perform EDisconnect ;;
  match r with Some e => Raise e | None => Ret tt end.
End cache.

Arguments Ret {K V A} a.
Arguments Raise {K V A} e.
Arguments Vis {K V A X} e k.
