(* ===== verification/L1Store.v ===== *)
(** * What the cache relies on of its in-memory store

    [L1Store] is the interface between the cache's operations and the store they
    keep values in: which bytes a key may still answer with, now or later, and
    what each operation may leave behind. The instance is the store of
    [MemoryStore.v] with the reading of the clock: a store that may reject a
    write, evict at any time and expire what it holds, but never keeps a value
    that was overwritten or deleted. *)

From S2P Require Import Prelude Ledger MemoryBudget JsMap Pattern Lru MemoryStore.

Inductive l1_op {K : Type} :=
| OpPut (k : K) (b : option bytes)
| OpDelete (k : K)
| OpPattern (pattern : jsstring)
| OpGet (k : K) (answer : option bytes)
| OpRead.
Arguments l1_op : clear implicits.

Class L1Store (K C : Type) (String : K → jsstring) := {
  l1_ok : C → Prop;
  (** a reading of [k], now or later, may answer [b] *)
  l1_holds : C → K → bytes → Prop;
  l1_step : l1_op K → C → C → Prop;
  l1_step_ok op c c' : l1_ok c → l1_step op c c' → l1_ok c';
  l1_put k ob c c' k' b : l1_ok c → l1_step (OpPut k ob) c c' → l1_holds c' k' b →
    (k' = k ∧ ob = Some b) ∨ (k' ≠ k ∧ l1_holds c k' b);
  l1_delete k c c' k' b : l1_ok c → l1_step (OpDelete k) c c' → l1_holds c' k' b → k' ≠ k ∧ l1_holds c k' b;
  l1_pattern p c c' k b : l1_ok c → l1_step (OpPattern p) c c' → l1_holds c' k b →
    matchesPattern (String k) p = false ∧ l1_holds c k b;
  l1_get k ob c c' k' b : l1_ok c → l1_step (OpGet k ob) c c' →
    (ob = Some b → l1_holds c k b) ∧ (l1_holds c' k' b → l1_holds c k' b);
  l1_read c c' k b : l1_ok c → l1_step OpRead c c' → l1_holds c' k b → l1_holds c k b;
}.

Section store.
Context {K V C L : Type} `{EqDecision K} `{LruOps K Entry C} `{Ledger L}.
Context (String : K → jsstring) (numeric : K → bool) (view : L → BudgetView) (limits : StoreLimits)
  (decode : bytes → option V).
Context `{!Lru K Entry C (sl_maxEntries limits)} `{!LruPeeks K Entry C (sl_maxEntries limits)}.
Context (fb mb : Z) (Hfb : 0 <= fb) (Hmb : 0 <= mb).

Abbreviation state := (mstore (C := C) (L := L)).

Definition reads (u : Z) (k : K) (e : Entry) (s : state) : Prop :=
  ∃ c, cache s = Some c ∧ lru_peek u k c = Some e.

(** Nothing can be read of [s'] that could not be read of [s]. *)
Definition shrinks (s s' : state) : Prop := ∀ u k e, reads u k e s' → reads u k e s.

#[local] Instance shrinks_preorder : PreOrder shrinks.
Proof. split; [by intros s u k e|]. intros s1 s2 s3 H12 H23 u k e Hr. by apply H12, H23. Qed.

Abbreviation inv := (ms_inv limits fb mb).

Lemma cache_dispose d (s : state) : cache (fold_left dispose d s) = cache s.
Proof. revert s. induction d as [|e d IH]; intros s; [done|]. simpl. by rewrite IH. Qed.

Lemma cache_after x (s : state) : cache (after x s) = Some x.1.
Proof. unfold after. by rewrite cache_dispose. Qed.

Lemma shrinks_after c x (s : state) : cache s = Some c → peeks_from c x.1 → shrinks s (after x s).
Proof.
  intros Hc Hp u k e (c' & Hc' & Hr). rewrite cache_after in Hc'. injection Hc' as <-. exists c. by split; [|apply Hp].
Qed.

Lemma shrinks_cache s s' : cache s' = cache s → shrinks s s'.
Proof. intros Hc u k e (c & Hc' & Hr). exists c. by rewrite <-Hc. Qed.

Lemma shrinks_delete p k s : inv p s → shrinks s (store_delete k s).
Proof.
  intros Hi. unfold store_delete. destruct (cache s) as [c|] eqn:Ec; [|by apply shrinks_cache].
  apply (shrinks_after c); [done|]. by apply lru_delete_peeks, (cache_ok limits fb mb _ _ _ Hi).
Qed.

Lemma delete_gone p k s u e : inv p s → ¬ reads u k e (store_delete k s).
Proof.
  intros Hi (c' & Hc' & Hr). unfold store_delete in Hc'. destruct (cache s) as [c|] eqn:Ec; [|congruence].
  rewrite cache_after in Hc'. injection Hc' as <-.
  pose proof (lru_delete_ok k c (cache_ok limits fb mb _ _ _ Hi Ec)) as Hd.
  destruct (lru_delete k c) as [c' d]. destruct Hd as (Hok & _ & Hn). simpl in Hr.
  apply lru_peek_entry in Hr; [|done]. apply jget_elem in Hr; [congruence|by apply lru_nodup].
Qed.

Lemma deletes_shrink p ks s : 0 <= p → inv p s →
  let s' := fold_left (λ s k, store_delete k s) ks s in
  shrinks s s' ∧ ∀ u k e, k ∈ ks → ¬ reads u k e s'.
Proof.
  intros Hp. revert s. induction ks as [|k ks IH]; intros s Hi; simpl.
  { split; [done|]. intros u k e Hk. by apply elem_of_nil in Hk. }
  pose proof (store_delete_inv limits fb mb Hfb p k s Hp Hi) as Hi'. destruct (IH _ Hi') as [Hs Hg].
  split; [etransitivity; [by eapply shrinks_delete|done]|].
  intros u k' e [->|Hin]%elem_of_cons Hr; [|by eapply Hg]. apply Hs in Hr. exact (delete_gone _ _ _ _ _ Hi Hr).
Qed.

Lemma pattern_shrinks t pattern s : inv 0 s →
  let s' := deleteByPattern String t pattern s in
  shrinks s s' ∧ ∀ u k e, t <= u → reads u k e s' → matchesPattern (String k) pattern = false.
Proof.
  intros Hi. unfold deleteByPattern. destruct (cache s) as [c|] eqn:Ec.
  2: { split; [done|]. intros u k e _ (c' & Hc' & _). congruence. }
  destruct (deletes_shrink 0 (filter (λ k, matchesPattern (String k) pattern = true) (lru_keys t c)) s)
    as [Hs Hg]; [done|done|]. split; [done|]. intros u k e Hu Hr.
  destruct (matchesPattern (String k) pattern) eqn:Em; [|done]. exfalso. eapply Hg; [|exact Hr].
  apply list_elem_of_filter. split; [done|]. apply Hs in Hr as (c' & Hc' & Hr). rewrite Ec in Hc'. injection Hc' as <-.
  apply (lru_keys_live t k c e); [by apply (cache_ok limits fb mb _ _ _ Hi)|]. by eapply lru_peek_earlier.
Qed.

Lemma evicting_shrinks n bytes c s s' ok :
  0 <= bytes → inv 0 s → cache s = Some c → reserve_evicting n bytes c s = (s', ok) → shrinks s s'.
Proof.
  intros Hb. revert c s. induction n as [|n IH]; intros c s Hi Hc; simpl; [by intros [= <- <-]|].
  pose proof (cache_ok limits fb mb _ _ _ Hi Hc) as Hok. pose proof (lru_pop_peeks c Hok) as Hpk.
  pose proof (lru_pop_ok c Hok) as Hp. destruct (lru_pop c) as [[c1 popped] d]. destruct Hp as (Hok1 & Hd & _).
  assert (Hs : shrinks s (after (c1, d) s)) by by eapply shrinks_after.
  destruct (after_inv limits fb mb Hfb 0 c c1 d s) as (Hi1 & Hc1 & _); try done.
  destruct popped as [e|]; [|by intros [= <- <-]].
  destruct (reserve "fresh" bytes _) as [b ok1] eqn:Er. apply (reserve_inv limits fb mb 0) in Er; [|done|done].
  assert (Hs1 : shrinks s (with_account (ms_bytes (after (c1, d) s)) b (after (c1, d) s)))
    by (etransitivity; [exact Hs|by apply shrinks_cache]).
  destruct ok1; [by intros [= <- <-]|]. intros E. etransitivity; [exact Hs1|]. by eapply IH.
Qed.

Lemma setEncoded_others t1 t2 k buffer ttl orig s u k' e :
  inv 0 s → k' ≠ k → reads u k' e (setEncoded String numeric view limits t1 t2 k buffer ttl orig s) → reads u k' e s.
Proof.
  intros Hi Hne. unfold setEncoded. destruct (cache s) as [c|] eqn:Ec; [|done].
  set (n := byte_len buffer + utf8_length (String k) * 2 + ENTRY_OVERHEAD).
  assert (Hn : 0 <= n).
  { pose proof (byte_len_nonneg buffer). pose proof (utf8_length_nonneg (String k)). unfold n, ENTRY_OVERHEAD. lia. }
  pose proof (cache_ok limits fb mb _ _ _ Hi Ec) as Hok. pose proof (lru_delete_ok k c Hok) as Hd.
  pose proof (lru_delete_peeks k c Hok) as Hpk. destruct (lru_delete k c) as [c1 d1]. destruct Hd as (Hok1 & Hdr1 & Hgone).
  destruct (after_inv limits fb mb Hfb 0 c c1 d1 s) as (Hi1 & Hc1 & _); [done..|].
  assert (Hs1 : shrinks s (after (c1, d1) s)) by by eapply shrinks_after.
  destruct (_ || _); [by intros Hr%Hs1|]. destruct (_ && _); [done|].
  simpl fst. destruct (reserve "fresh" n _) as [b ok] eqn:Er. apply (reserve_inv limits fb mb 0) in Er; [|done|done].
  set (s1 := with_account _ b _) in *.
  assert (Hs1' : shrinks s s1) by (etransitivity; [exact Hs1|by apply shrinks_cache]).
  assert (H2 : ∃ s2 ok2, (if ok then (s1, true) else reserve_evicting MAX_EVICTIONS_PER_WRITE n c1 s1) = (s2, ok2) ∧
    shrinks s s2 ∧ inv (if ok2 then n else 0) s2 ∧
    ∃ c2, cache s2 = Some c2 ∧ ∀ e, e ∈ lru_entries c2 → e ∈ lru_entries c1).
  { destruct ok; [exists s1, true; split_and!; [done..|by exists c1]|].
    destruct (reserve_evicting _ n c1 s1) as [s2 ok2] eqn:E. exists s2, ok2. split; [done|]. split.
    - etransitivity; [exact Hs1'|]. by eapply evicting_shrinks.
    - by eapply reserve_evicting_inv. }
  destruct H2 as (s2 & ok2 & -> & Hs2 & Hi2 & c2 & Hc2 & Hsub). destruct ok2; simpl negb; [|by intros Hr%Hs2].
  rewrite Hc2. intros (c0 & Hc0 & Hr). simpl in Hc0. rewrite cache_after in Hc0. injection Hc0 as <-.
  apply Hs2. exists c2. split; [done|]. eapply lru_set_peeks; [| |exact Hne|exact Hr].
  - by apply (cache_ok limits fb mb _ _ _ Hi2).
  - by eapply absent_subset.
Qed.

(** ** The instance: the store and the latest reading of the clock *)

Definition ms_holds (c : state * Z) (k : K) (b : bytes) : Prop :=
  ∃ u e, c.2 <= u ∧ reads u k e c.1 ∧ e_buffer e = b.

(** What [set] does once it has encoded its value. *)
Definition puts (k : K) (ob : option bytes) (t0 t1 : Z) (s s' : state) : Prop :=
  match ob with
  | Some b => ∃ u v ttl orig, t0 <= u <= t1 ∧
      s' = setEncoded String numeric view limits u v k b ttl orig s
  | None => s' = store_set String numeric view limits t0 t1 k Undefined 0 s ∨
            s' = store_set String numeric view limits t0 t1 k Unencodable 0 s
  end.

Definition ms_l1_step (op : l1_op K) (c c' : state * Z) : Prop :=
  c.2 <= c'.2 ∧
  match op with
  | OpPut k ob => puts k ob c.2 c'.2 c.1 c'.1
  | OpDelete k => c'.1 = store_delete k c.1
  | OpPattern p => ∃ u, c.2 <= u <= c'.2 ∧ c'.1 = deleteByPattern String u p c.1
  | OpGet k ob => ∃ u v, c.2 <= u ∧ c'.1 = (getEncoded String numeric u v k c.1).1 ∧
      ob = (λ x, x.1.1) <$> (getEncoded String numeric u v k c.1).2
  | OpRead =>
      (∃ u k, c'.1 = (store_has u k c.1).1) ∨ (∃ u, c'.1 = (store_size u c.1).1) ∨
      c'.1 = (evictOne c.1).1 ∨ c'.1 = store_close c.1 ∨
      (∃ b, ledger_inv b ∧ balance "fresh" b = balance "fresh" (ms_budget c.1) ∧
         balance "metadata" b = balance "metadata" (ms_budget c.1) ∧ c'.1 = with_account (ms_bytes c.1) b c.1)
  end.

Lemma read_step s s' t t' : inv 0 s → ms_l1_step OpRead (s, t) (s', t') → inv 0 s' ∧ shrinks s s'.
Proof.
  intros Hi [_ Hop]. simpl in Hop.
  destruct Hop as [(u & k & ->)|[(u & ->)|[->|[->|(b & Hl & Hb & Hm & ->)]]]].
  - split; [by apply store_has_inv|]. pose proof (shrinks_delete 0 k s Hi) as Hs.
    unfold store_has, store_delete in *. destruct (cache s) as [c|] eqn:Ec; [|done]. by destruct (lru_has u k c).
  - split; [by apply store_size_inv|]. unfold store_size. destruct (cache s) as [c|] eqn:Ec; [|done].
    apply (shrinks_after c); [done|]. by apply lru_purge_peeks, (cache_ok limits fb mb _ _ _ Hi).
  - split; [by apply evictOne_inv|]. unfold evictOne. destruct (cache s) as [c|] eqn:Ec; [|done].
    pose proof (lru_pop_peeks c (cache_ok limits fb mb _ _ _ Hi Ec)) as Hp.
    destruct (lru_pop c) as [[c' r] d]. by eapply shrinks_after.
  - destruct (store_close_spec limits fb mb Hfb Hmb s Hi) as (Hi' & Hc & _). split; [done|].
    intros u k e (c & Hc' & _). congruence.
  - split; [|by apply shrinks_cache]. split; try apply Hi; simpl; [done|rewrite Hb; apply Hi|rewrite Hm; apply Hi].
Qed.

Lemma get_step u v k s : inv 0 s →
  let '(s', r) := getEncoded String numeric u v k s in
  inv 0 s' ∧ shrinks s s' ∧ ∀ b, (λ x, x.1.1) <$> r = Some b → ∃ e, reads u k e s ∧ e_buffer e = b.
Proof.
  intros Hi. pose proof (getEncoded_inv String numeric limits fb mb Hfb u v k s Hi) as Hi'. revert Hi'. unfold getEncoded.
  destruct (record_inv String numeric limits fb mb 0 k s Hi) as [Hr Hrc].
  destruct (cache (record String numeric k s)) as [c|] eqn:Ec; [|simpl; intros Hi'; split_and!; [done|apply shrinks_cache; congruence|done]].
  pose proof (cache_ok limits fb mb _ _ _ Hr Ec) as Hok. pose proof (lru_get_peeks u k c Hok) as Hp.
  pose proof (lru_get_live u k c) as Hv. destruct (lru_get u k c) as [[c' r] d]. simpl. intros Hi'. split_and!; [done| |].
  - etransitivity; [apply (shrinks_cache s (record String numeric k s)); congruence|]. by eapply shrinks_after.
  - intros b Hb. destruct r as [e|]; [|done]. simpl in *. injection Hb as <-. exists e. split; [|done].
    exists c. split; [by rewrite <-Hrc|by apply Hv].
Qed.

Lemma puts_spec k ob s s' t t' : inv 0 s → t <= t' → puts k ob t t' s s' →
  inv 0 s' ∧ ∀ u k' e, t' <= u → reads u k' e s' →
    (k' = k ∧ ob = Some (e_buffer e)) ∨ (k' ≠ k ∧ reads u k' e s).
Proof.
  intros Hi Ht Hp. destruct ob as [b|]; simpl in Hp.
  - destruct Hp as (u & v & ttl & orig & Hu & ->).
    destruct (setEncoded_spec String numeric view limits fb mb Hfb u v k b ttl orig s Hi) as [Hi' Hb].
    split; [done|]. intros u' k' e Hu' Hr. destruct (decide (k' = k)) as [->|Hne].
    + left. split; [done|]. destruct Hr as (c & Hc & Hr). by rewrite (Hb u' c e ltac:(lia) Hc Hr).
    + right. split; [done|]. by eapply setEncoded_others.
  - assert (Hs : inv 0 s' ∧ shrinks s s' ∧ ∀ u e, ¬ reads u k e s').
    { pose proof (store_delete_inv limits fb mb Hfb 0 k s (Z.le_refl 0) Hi) as Hi'.
      pose proof (shrinks_delete 0 k s Hi) as Hs. pose proof (λ u e, delete_gone 0 k s u e Hi) as Hg.
      unfold store_set in Hp. destruct (ms_closed s) eqn:Ecl.
      - assert (s' = s) as -> by (by destruct Hp). split; [done|]. split; [done|]. intros u e (c & Hc & _).
        pose proof (mi_closed limits fb mb _ _ Hi) as Hcl. rewrite Ecl, Hc in Hcl. by rewrite bool_decide_eq_false_2 in Hcl.
      - destruct Hp as [->| ->]; [done|]. split; [by apply with_counts_inv|]. done. }
    destruct Hs as (Hi' & Hs & Hg). split; [done|]. intros u k' e _ Hr. right.
    split; [intros ->; by eapply Hg|by apply Hs].
Qed.

#[export] Instance memory_l1 : L1Store K (state * Z) String.
Proof.
  refine (Build_L1Store K (state * Z) String (λ c, inv 0 c.1) ms_holds ms_l1_step _ _ _ _ _ _).
  - intros [k ob|k|p|k ob|] [s t] [s' t'] Hi Hst.
    + destruct Hst as [Ht Hp]. by apply (puts_spec k ob s s' t t' Hi Ht Hp).
    + destruct Hst as [_ Hst]. simpl in *. subst s'. by apply store_delete_inv.
    + destruct Hst as (_ & u & _ & Hst). simpl in *. subst s'. by apply deleteByPattern_inv.
    + destruct Hst as (_ & u & v & _ & Hst & _). simpl in *. subst s'. by apply getEncoded_inv.
    + by eapply read_step.
  - intros k ob [s t] [s' t'] k' b Hi [Ht Hp] (u & e & Hu & Hr & Hb). simpl in *.
    destruct (proj2 (puts_spec k ob s s' t t' Hi Ht Hp) u k' e Hu Hr) as [[-> ->]|[Hne Hr']].
    + left. by subst b.
    + right. split; [done|]. exists u, e. split_and!; [simpl; lia|done|done].
  - intros k [s t] [s' t'] k' b Hi [Ht Hp] (u & e & Hu & Hr & Hb). simpl in *. subst s'. split.
    + intros ->. by eapply delete_gone.
    + exists u, e. split_and!; [simpl; lia|by eapply shrinks_delete|done].
  - intros p [s t] [s' t'] k b Hi (Ht & u0 & Hu0 & Hp) (u & e & Hu & Hr & Hb). simpl in *. subst s'.
    destruct (pattern_shrinks u0 p s Hi) as [Hs Hg]. split; [eapply Hg; [|exact Hr]; lia|].
    exists u, e. split_and!; [simpl; lia|by apply Hs|done].
  - intros k ob [s t] [s' t'] k' b Hi (Ht & u & v & Hu & Hs' & Hob). simpl in *.
    pose proof (get_step u v k s Hi) as Hg. destruct (getEncoded String numeric u v k s) as [s1 r]. simpl in *. subst s1 ob.
    destruct Hg as (_ & Hs & Hb). split.
    + intros Hr. destruct (Hb b Hr) as (e & He & <-). by exists u, e.
    + intros (u' & e & Hu' & Hr & He). exists u', e. split_and!; [simpl in *; lia|by apply Hs|done].
  - intros [s t] [s' t'] k b Hi Hst (u & e & Hu & Hr & Hb). pose proof (read_step s s' t t' Hi Hst) as [_ Hs].
    destruct Hst as [Ht _]. simpl in *. exists u, e. split_and!; [simpl; lia|by apply Hs|done].
Defined.
End store.
