(* ===== verification/HybridWorld.v ===== *)
(** * Running the cache's operations

    The programs of [HybridCache.v] over a concrete state: the guards with
    their history ([KeyGuard.v]), an in-memory store behind [L1Store], the trust
    flag and a log of what happened. Any number of operations run interleaved:
    one runs alone until its next await, then any other may. The answers of the
    effects the state does not determine (the coordination maps, the clock, the
    shared store, the loader, the bus) are arbitrary, so what is proved holds
    for all of them. *)

From S2P Require Import Prelude Ledger MemoryBudget JsMap JsValue Pattern KeyGuard L1Store HybridCache.

Section world.
Context {K V C Opts L : Type} `{EqDecision K} `{Ledger L}.
Context (String : K → jsstring) (versioning : bool) `{!L1Store K C String}.
(** The key that a versioned storage key, a string, is. *)
Context (ofString : jsstring → K).

(** The storage key of a key at a generation. *)
Definition toStorageKey (generation : Z) (key : K) : K :=
  if versioning then ofString (String key ++ js "::v" ++ dec generation) else key.

Inductive lentry :=
| LObserve (g : hguard (K := K)) (mutate : bool)
| LGuard (e : gevent (K := K))
| LPut (k : K) (b : option bytes)
| LDelete (k : K)
| LPattern (pattern : jsstring)
| LRead (k : K) (b : bytes)
| LSend (call : l2_call (K := K) (V := V)).

(** The guard history in a log. *)
Definition guard_event (e : lentry) : list gevent :=
  match e with
  | LObserve g m => [GObserve (g_key (hg g)) m]
  | LGuard e => [e]
  | _ => []
  end.

Definition events (log : list lentry) : list gevent := log ≫= guard_event.

Record hstate := {
  hist : history (K := K) (L := L);
  l1 : C;
  trusted : bool;
  log : list lentry }.

Definition set_hist (h : history) (entry : list lentry) (s : hstate) : hstate :=
  {| hist := h; l1 := l1 s; trusted := trusted s; log := log s ++ entry |}.

Definition set_l1 (c : C) (entry : list lentry) (s : hstate) : hstate :=
  {| hist := hist s; l1 := c; trusted := trusted s; log := log s ++ entry |}.

Definition set_trusted (b : bool) (s : hstate) : hstate :=
  {| hist := hist s; l1 := l1 s; trusted := b; log := log s |}.

(** A second saturation is no event. *)
Definition guard_step (e : gevent (K := K)) (s : hstate) : hstate :=
  let silent := match e with GSaturate => generationTrackingSaturated (now (hist s)) | _ => false end in
  set_hist (gstep String (hist s) e) (if silent then [] else [LGuard e]) s.

Definition observed (k : K) (m : bool) (generation : Z) (s : hstate) : hguard :=
  {| hg := (observeKey String k m (now (hist s))).2; storageKey := toStorageKey generation k;
     issue := length (guards (hist s)) |}.

Definition observe_step (k : K) (m : bool) (generation : Z) (s : hstate) : hstate :=
  set_hist (gstep String (hist s) (GObserve k m)) [LObserve (observed k m generation s) m] s.

(** Storing a generation may saturate the tracking, which flushes L1. *)
Definition advance_step (s s' : hstate) : Prop :=
  s' = s ∨ s' = guard_step GSaturate s ∨
  ∃ c, l1_step (OpPattern (js "*")) (l1 s) c ∧ s' = set_l1 c [LPattern (js "*")] (guard_step GSaturate s).

(** ** The effects that do not await *)

Definition sync {X} (e : eff X) (s : hstate) : X → hstate → Prop :=
  match e in eff X return X → hstate → Prop with
  | EObserve k m => λ g s', ∃ n, g = observed k m n s ∧ s' = observe_step k m n s
  | ERelease g => λ _ s', s' = guard_step (GRelease (issue g)) s
  | ECurrent g => λ b s', s' = s ∧ ∃ aborted, b = isCurrent versioning (hg g) aborted (now (hist s))
  | ESuperseded g k => λ b s', s' = s ∧ ∃ n, b =
      (g_revision (hg g) =? value (revision_at (g_state (hg g)) (now (hist s))))
      || negb (bool_decide (storageKey g = toStorageKey n k))
  | EClosed => λ b s', s' = s ∧ b = closed (now (hist s))
  | ETrusted => λ b s', s' = s ∧ b = trusted s
  | EVersionSafe => λ b s', s' = s ∧ b = versionedCacheSafe versioning (now (hist s))
  | ESaturated => λ b s', s' = s ∧ b = generationTrackingSaturated (now (hist s))
  | EBumpEpoch => λ _ s', s' = guard_step GEpoch s
  | EUntrust => λ _ s', s' = set_trusted false (guard_step GEpoch s)
  | ERestoreBegin => λ _ s', s' = guard_step GEpoch s
  | ERestoreEnd _ => λ _ s', s' = s ∨ (closed (now (hist s)) = false ∧ s' = set_trusted true s)
  | EAdvanceAfterDelete _ _ => λ _ s', advance_step s s'
  | EAdvanceAfterSet _ _ => λ _ s', advance_step s s'
  | ESaturate => λ _ s', s' = guard_step GSaturate s
  | EClose => λ _ s', s' = guard_step GClose s
  | EHasNegative _ | ESetNegative _ | ERemoveNegative _ | EGetStale _ | ERememberStale _ _ _
  | ERemoveStale _ | ERemoveInflight _ | ERemoveMatching _ | EJoinable _ | EReserveInflight _
  | EGenerationForEvent _ | EStaleGeneration _ _ | EHasSeen _ | EMarkSeen _
  | ERemoveSeen _ | EGateOpen | EEnterLeader | ELeaveLeader | EPermitsPromotion _ | EElapsed
  | EExpired _ | EAborted | ELeaseOwned => λ _ s', s' = s
  | EStorageKey k => λ sk s', s' = s ∧ ∃ n, sk = toStorageKey n k
  | EL1GetEncoded k => λ r s', ∃ c, l1_step (OpGet k (fst <$> r)) (l1 s) c ∧
      s' = set_l1 c (from_option (λ x, [LRead k x.1]) [] r) s
  | EL1SetEncoded k b _ => λ _ s', ∃ c, l1_step (OpPut k (Some b)) (l1 s) c ∧ s' = set_l1 c [LPut k (Some b)] s
  | EL1Set k _ => λ _ s', ∃ c ob, l1_step (OpPut k ob) (l1 s) c ∧ s' = set_l1 c [LPut k ob] s
  | EL1Delete k => λ _ s', ∃ c, l1_step (OpDelete k) (l1 s) c ∧ s' = set_l1 c [LDelete k] s
  | EL1DeleteByPattern p => λ _ s', ∃ c, l1_step (OpPattern p) (l1 s) c ∧ s' = set_l1 c [LPattern p] s
  | EL1Has _ | EL1Size | EL1Close => λ _ s', ∃ c, l1_step OpRead (l1 s) c ∧ s' = set_l1 c [] s
  | EL2Send call => λ _ s', s' = set_l1 (l1 s) [LSend call] s
  | _ => λ _ _, False
  end.

(** [p] runs from [s] to its next await, or to its end. *)
Fixpoint run (p : prog (K := K) (V := V) unit) (s s' : hstate) (p' : prog unit) : Prop :=
  match p with
  | Vis e k => if awaits e then s' = s ∧ p' = p else ∃ x s1, sync e s x s1 ∧ run (k x) s1 s' p'
  | _ => s' = s ∧ p' = p
  end.

(** The awaited answer arrives. *)
Definition resumed (p p1 : prog (K := K) (V := V) unit) : Prop :=
  match p with Vis e k => awaits e = true ∧ ∃ x, p1 = k x | _ => False end.

Definition finished (p : prog (K := K) (V := V) unit) : Prop := match p with Vis _ _ => False | _ => True end.

(** ** The operations that may be started *)

Context (c : config (K := K) (V := V) (Opts := Opts)).

Definition ignore {A} (p : prog (K := K) (V := V) A) : prog unit := bind p (λ _, Ret tt).

Inductive operation : prog (K := K) (V := V) unit → Prop :=
| op_set k v o : operation (cache_set c k v o)
| op_get k : operation (ignore (cache_get c k))
| op_has k : operation (ignore (cache_has c k))
| op_size : operation (ignore (cache_size c))
| op_delete k : operation (cache_delete c k)
| op_deleteByPattern p : operation (cache_deleteByPattern c p)
| op_clear : operation (cache_clear c)
| op_getOrSet n k o token t : operation (ignore (getOrSet c n k o token t))
| op_receive own id e : operation (receive c versioning own id e)
| op_status s : operation (on_status c s)
| op_saturate : operation (saturateGenerationTracking c)
| op_close owns : operation (closeResources c owns).

Record world := { st : hstate; tasks : list (prog (K := K) (V := V) unit) }.

Inductive wstep : world → world → Prop :=
| w_start w p s' p' : operation p → run p (st w) s' p' → wstep w {| st := s'; tasks := tasks w ++ [p'] |}
| w_resume w i p p1 s' p' :
    tasks w !! i = Some p → resumed p p1 → run p1 (st w) s' p' →
    wstep w {| st := s'; tasks := <[i:=p']> (tasks w) |}
| w_evict w c' : l1_step OpRead (l1 (st w)) c' → wstep w {| st := set_l1 c' [] (st w); tasks := tasks w |}.

Definition start (budget : option L) (l1_0 : C) (trust : bool) : world :=
  {| st := {| hist := initial budget; l1 := l1_0; trusted := trust; log := [] |}; tasks := [] |}.

(** ** What a log says *)

(** An entry after which bytes stored at [sk] may still be there. *)
Definition spares (sk : K) (e : lentry) : Prop :=
  match e with
  | LPut k _ | LDelete k => k ≠ sk
  | LPattern p => matchesPattern (String sk) p = false
  | _ => True
  end.

(** A guard of a key with this storage key was taken in the log, and nothing has
    overtaken it. *)
Definition under_guard (sk : K) (pre : list lentry) : Prop :=
  ∃ A g m B, pre = A ++ LObserve g m :: B ∧ storageKey g = sk ∧
    (∃ n, sk = toStorageKey n (g_key (hg g))) ∧ undisturbed (g_key (hg g)) (events B).

(** The keys a call writes a value to. *)
Definition writes_to (call : l2_call (K := K) (V := V)) : option K :=
  match call with
  | L2SetEncoded k _ | L2Set k _ | L2PublishIfOwner k _ _ => Some k
  | _ => None
  end.
End world.
Arguments lentry : clear implicits.
Arguments hstate : clear implicits.
Arguments world : clear implicits.
