(* ===== verification/HybridOk.v ===== *)
(** * No stale value enters the cache

    The discipline the operations of [HybridCache.v] follow — a value is put
    into L1 or sent to L2 only by an operation that holds a guard of its key and
    has just checked it, with no await in between — as a predicate on programs,
    the proof that every operation follows it, and what it gives for any
    interleaving of operations. *)

From S2P Require Import Prelude Ledger MemoryBudget JsMap Pattern KeyGuard L1Store HybridCache HybridWorld.

Section safe.
Context {K V C Opts L : Type} `{EqDecision K} `{Ledger L}.

Abbreviation hg_t := (hguard (K := K)).
Abbreviation pr := (prog (K := K) (V := V)).

(** ** The discipline

    [G] are the guards an operation holds, [F] the one it has checked since its
    last await, if any. *)

Definition writes_under (k : K) (F : option hg_t) : Prop := ∃ g, F = Some g ∧ storageKey g = k.

Definition effect_ok {X} (e : eff (K := K) (V := V) X) (G : list hg_t) (F : option hg_t)
    (post : X → list hg_t → option hg_t → Prop) : Prop :=
  match e in eff X return (X → list hg_t → option hg_t → Prop) → Prop with
  | EObserve _ _ => λ post, ∀ g, post g (g :: G) None
  | ERelease g => λ post, ∃ G', G = g :: G' ∧ post tt G' None
  | ECurrent g => λ post, g ∈ G ∧ post true G (Some g) ∧ post false G None
  | EBumpEpoch => λ post, post tt G None
  | EUntrust => λ post, post tt G None
  | ERestoreBegin => λ post, ∀ x, post x G None
  | EAdvanceAfterDelete _ _ => λ post, post tt G None
  | EAdvanceAfterSet _ _ => λ post, post tt G None
  | ESaturate => λ post, post tt G None
  | EClose => λ post, post tt G None
  | EL1SetEncoded k _ _ => λ post, writes_under k F ∧ post tt G F
  | EL1Set k _ => λ post, writes_under k F ∧ post tt G F
  | EL2Send call => λ post, match writes_to call with Some k => writes_under k F | None => True end ∧ post tt G F
  | e => λ post, ∀ x, post x G (if awaits e then None else F)
  end post.

Fixpoint safe {A} (p : pr A) (G : list hg_t) (F : option hg_t)
    (Q : A → list hg_t → option hg_t → Prop) (E : cache_error → list hg_t → option hg_t → Prop) : Prop :=
  match p with
  | Ret a => Q a G F
  | Raise e => E e G F
  | Vis e k => effect_ok e G F (λ x G' F', safe (k x) G' F' Q E)
  end.

Lemma effect_ok_mono {X} (e : eff X) G F (P Q : X → list hg_t → option hg_t → Prop) :
  (∀ x G F, P x G F → Q x G F) → effect_ok e G F P → effect_ok e G F Q.
Proof. intros HPQ. destruct e; simpl; naive_solver. Qed.

Lemma safe_mono {A} (p : pr A) G F Q Q' E E' :
  (∀ a G F, Q a G F → Q' a G F) → (∀ e G F, E e G F → E' e G F) → safe p G F Q E → safe p G F Q' E'.
Proof.
  intros HQ HE. revert G F. induction p as [a|e|X e k IH]; intros G F; simpl; [apply HQ|apply HE|].
  apply effect_ok_mono. intros x G' F'. apply IH.
Qed.

Lemma safe_bind {A B} (m : pr A) (f : A → pr B) G F Q E :
  safe m G F (λ a G F, safe (f a) G F Q E) E → safe (bind m f) G F Q E.
Proof.
  revert G F. induction m as [a|e|X e k IH]; intros G F; simpl; [done|done|].
  apply effect_ok_mono. intros x G' F'. apply IH.
Qed.

Lemma safe_catch {A} (m : pr A) h G F Q E :
  safe m G F Q (λ e G F, safe (h e) G F Q E) → safe (catch m h) G F Q E.
Proof.
  revert G F. induction m as [a|e|X e k IH]; intros G F; simpl; [done|done|].
  apply effect_ok_mono. intros x G' F'. apply IH.
Qed.

Lemma safe_finally {A} (m : pr A) (cl : pr unit) G F Q E :
  safe m G F (λ a G F, safe cl G F (λ _, Q a) E) (λ e G F, safe cl G F (λ _, E e) E) →
  safe (finally m cl) G F Q E.
Proof.
  revert G F. induction m as [a|e|X e k IH]; intros G F; simpl.
  - intros Hs. by apply safe_bind.
  - intros Hs. by apply safe_bind.
  - apply effect_ok_mono. intros x G' F'. apply IH.
Qed.

(** An operation that gives back what it takes, whatever was checked before. *)
Definition kept (G : list hg_t) {A} (_ : A) (G' : list hg_t) (_ : option hg_t) : Prop := G' = G.

Definition keeps {A} (G : list hg_t) (p : pr A) : Prop := ∀ F, safe p G F (kept G) (kept G).

Lemma keeps_ret {A} G (a : A) : keeps G (Ret a).
Proof. done. Qed.

Lemma keeps_raise {A} G e : keeps G (Raise e : pr A).
Proof. done. Qed.

Lemma keeps_bind {A B} G (m : pr A) (f : A → pr B) :
  keeps G m → (∀ a, keeps G (f a)) → keeps G (bind m f).
Proof.
  intros Hm Hf F. apply safe_bind. eapply safe_mono; [| |apply Hm]; [|done].
  intros a G' F' ->. apply Hf.
Qed.

Lemma keeps_catch {A} G (m : pr A) h : keeps G m → (∀ e, keeps G (h e)) → keeps G (catch m h).
Proof.
  intros Hm Hh F. apply safe_catch. eapply safe_mono; [| |apply Hm]; [done|].
  intros a G' F' ->. apply Hh.
Qed.

(** A guard is observed, used and released by the clean-up. *)
Lemma keeps_guarded {A} G k m (body : hg_t → pr A) (cl : hg_t → pr unit) :
  (∀ g, keeps (g :: G) (body g)) →
  (∀ g F, safe (cl g) (g :: G) F (kept G) (λ _ _ _, False)) →
  keeps G (bind (perform (EObserve k m)) (λ g, finally (body g) (cl g))).
Proof.
  intros Hb Hcl F. simpl. intros g. apply safe_finally.
  eapply safe_mono; [| |apply Hb]; intros a G' F' ->; (eapply safe_mono; [| |apply Hcl]); done.
Qed.

Lemma releases g G F : safe (perform (ERelease g)) (g :: G) F (kept G) (λ _ _ _, False).
Proof. by exists G. Qed.

Lemma leaves_releases g G F :
  safe (bind (perform ELeaveLeader) (λ _, perform (ERelease g))) (g :: G) F (kept G) (λ _ _ _, False).
Proof. intros []. by exists G. Qed.

(** Effects that need no guard. *)
Definition plain {X} (e : eff (K := K) (V := V) X) : Prop :=
  ∀ G F (post : X → list hg_t → option hg_t → Prop), (∀ x F', post x G F') → effect_ok e G F post.

Lemma keeps_perform {X} G (e : eff X) : plain e → keeps G (perform e).
Proof. intros He F. apply He. by intros x F'. Qed.

Lemma keeps_finally {A} G (m : pr A) cl : keeps G m → keeps G cl → keeps G (finally m cl).
Proof.
  intros Hm Hcl F. apply safe_finally.
  eapply safe_mono; [| |apply Hm]; intros a G' F' ->; (eapply safe_mono; [| |apply Hcl]); done.
Qed.

Lemma keeps_guarded_then {A B} G k m (body : hg_t → pr A) (cl : hg_t → pr unit) (f : A → pr B) :
  (∀ g, keeps (g :: G) (body g)) → (∀ g F, safe (cl g) (g :: G) F (kept G) (λ _ _ _, False)) →
  (∀ a, keeps G (f a)) →
  keeps G (bind (perform (EObserve k m)) (λ g, bind (finally (body g) (cl g)) f)).
Proof.
  intros Hb Hcl Hf.
  change (keeps G (bind (bind (perform (EObserve k m)) (λ g, finally (body g) (cl g))) f)).
  apply keeps_bind; [by apply keeps_guarded|done].
Qed.

(** ** Checked guards *)

(** [p] keeps the guards when [F] has just been checked. *)
Definition keeps_at {A} (G : list hg_t) (F : option hg_t) (p : pr A) : Prop := safe p G F (kept G) (kept G).

Lemma keeps_at_any {A} G F (p : pr A) : keeps G p → keeps_at G F p.
Proof. intros Hp. apply Hp. Qed.

Lemma keeps_at_bind {A B} G F (m : pr A) (f : A → pr B) :
  keeps_at G F m → (∀ a, keeps G (f a)) → keeps_at G F (bind m f).
Proof.
  intros Hm Hf. apply safe_bind. eapply safe_mono; [| |apply Hm]; [|done].
  intros a G' F' ->. apply Hf.
Qed.

Lemma keeps_checked {A} G g (f : bool → pr A) :
  g ∈ G → keeps_at G (Some g) (f true) → keeps G (f false) → keeps G (bind (perform (ECurrent g)) f).
Proof. intros Hg Ht Hf F. split_and!; [done|exact Ht|apply Hf]. Qed.

Lemma keeps_still {A} G g (f : bool → pr A) :
  g ∈ G → keeps_at G (Some g) (f true) → keeps G (f false) → keeps G (bind (still g) f).
Proof.
  intros Hg Ht Hf F. simpl. intros []; split_and!; try done; apply Hf.
Qed.

(** Effects that leave the check standing. *)
Lemma keeps_at_pass {X A} G F (e : eff X) (f : X → pr A) :
  (∀ G F (post : X → list hg_t → option hg_t → Prop), (∀ x, post x G F) → effect_ok e G F post) →
  (∀ x, keeps_at G F (f x)) → keeps_at G F (bind (perform e) f).
Proof. intros He Hf. apply He. exact Hf. Qed.

Lemma writes_checked g : writes_under (storageKey g) (Some g).
Proof. by exists g. Qed.
End safe.

(** The steps of these proofs, by the shape of the program. *)
Ltac plain_effect :=
  let Hp := fresh in
  intros ? ? ? Hp; simpl; first [intros; apply Hp | split; [done|apply Hp] | split_and!; apply Hp].

Ltac keep_step :=
  match goal with
  | |- ∀ _, _ => intro
  | |- keeps_at _ _ (Ret _) => done
  | |- keeps _ (Ret _) => apply keeps_ret
  | |- keeps _ (Raise _) => apply keeps_raise
  | |- keeps _ (match ?x with _ => _ end) => destruct x
  | |- keeps _ (let '(_, _) := ?x in _) => destruct x
  | |- keeps _ (bind (perform (EObserve _ _)) (λ g, finally _ _)) => apply keeps_guarded; [|intros; first [apply releases|apply leaves_releases]]
  | |- keeps _ (bind (perform (EObserve _ _)) (λ g, bind (finally _ _) _)) =>
      apply keeps_guarded_then; [|intros; apply releases|]
  | |- keeps _ (bind (still _) _) => apply keeps_still; [|cbn [negb]; cbv iota|cbn [negb]; cbv iota]
  | |- keeps _ (bind (perform (ECurrent _)) _) => apply keeps_checked; [|cbn [negb]; cbv iota|cbn [negb]; cbv iota]
  | |- keeps _ (runL2 _ _ _) => unfold runL2
  | |- keeps _ (bind _ _) => apply keeps_bind
  | |- keeps _ (catch _ _) => apply keeps_catch
  | |- keeps _ (perform (ECurrent _)) => apply (keeps_checked _ _ Ret)
  | |- keeps _ (perform _) => apply keeps_perform; plain_effect
  | |- keeps _ (finally _ _) => apply keeps_finally
  | |- _ ∈ _ :: _ => apply elem_of_cons; first [by left|right]
  end.

Create HintDb keeps.
Ltac keep := repeat first [progress auto 2 with keeps nocore | keep_step].

Section operations.
Context {K V Opts : Type} (c : config (K := K) (V := V) (Opts := Opts)).

Abbreviation hg_t := (hguard (K := K)).
Abbreviation pr := (prog (K := K) (V := V)).
Implicit Types (G : list hg_t) (g : hg_t).

Lemma keeps_ensureOpen G : keeps G (ensureOpen : pr unit).
Proof. unfold ensureOpen. keep. Qed.
#[local] Hint Resolve keeps_ensureOpen : keeps.

Lemma keeps_l2_answer G : keeps G (bind (perform EL2Settle) (λ r, match r with Some a => Ret a | None => Raise OtherError end) : pr l2_answer).
Proof. keep. Qed.

Lemma keeps_l2 G call : writes_to call = None → keeps G (l2 call : pr l2_answer).
Proof.
  intros Hc F. unfold l2. apply safe_bind. simpl. rewrite Hc. split; [done|]. exact (keeps_l2_answer G None).
Qed.

(** A call that writes a value goes out under a checked guard. *)
Lemma keeps_l2_checked G g call : writes_to call = Some (storageKey g) → keeps_at G (Some g) (l2 call : pr l2_answer).
Proof.
  intros Hc. unfold l2. apply safe_bind. simpl. rewrite Hc. split; [apply writes_checked|]. exact (keeps_l2_answer G None).
Qed.

Lemma keeps_l2_unit G call : writes_to call = None → keeps G (l2_unit call : pr unit).
Proof. intros Hc. unfold l2_unit. keep. by apply keeps_l2. Qed.

Lemma keeps_read_l2 G k : keeps G (read_l2 c k : pr _).
Proof. unfold read_l2. keep; by apply keeps_l2. Qed.
#[local] Hint Resolve keeps_read_l2 : keeps.
#[local] Hint Extern 2 (keeps _ (l2 _)) => apply keeps_l2; reflexivity : keeps.
#[local] Hint Extern 2 (keeps _ (l2_unit _)) => apply keeps_l2_unit; reflexivity : keeps.

Lemma keeps_discard G : keeps G (discardObsoleteL1 : pr unit).
Proof. unfold discardObsoleteL1. keep. Qed.
#[local] Hint Resolve keeps_discard : keeps.

Lemma store_checked G g v encoded ttl : keeps_at G (Some g) (store_l1 c (storageKey g) v encoded ttl : pr unit).
Proof.
  unfold store_l1. destruct (hasL1 c); [|done]. by destruct encoded; (split; [apply writes_checked|]).
Qed.

Lemma l2_unit_checked G g call :
  writes_to call = Some (storageKey g) → keeps_at G (Some g) (l2_unit call : pr unit).
Proof. intros Hc. unfold l2_unit. apply keeps_at_bind; [by apply keeps_l2_checked|]. keep. Qed.

Lemma keeps_writeValue G key v o g : g ∈ G → keeps G (writeValue c key v o g).
Proof.
  intros Hg. unfold writeValue. keep_step; [done| |keep].
  apply keeps_at_bind; [apply store_checked|]. keep; try done.
  apply keeps_at_any. keep; try done. destruct (if _ && _ then _ else _); by apply l2_unit_checked.
Qed.

Lemma keeps_set G key v o : keeps G (cache_set c key v o).
Proof. unfold cache_set. keep. apply keeps_writeValue. by left. Qed.

Lemma promote_checked G key g v o reusable b : keeps_at G (Some g) (promoteToL1 c key (storageKey g) v o reusable b).
Proof.
  unfold promoteToL1. destruct (hasL1 c); simpl negb; cbv iota; [|done].
  destruct (match _ with Some b => Some b | None => _ end); [|apply keeps_at_any; keep].
  apply keeps_at_pass; [done|]. intros []; simpl negb; cbv iota; [|apply keeps_at_any; keep].
  apply keeps_at_pass; [done|]. intros elapsed. destruct (from_option _ _ _); [apply keeps_at_any; keep|].
  split; [apply writes_checked|]. apply keeps_at_any. keep.
Qed.

Lemma keeps_read_l1 G key g : g ∈ G → keeps G (read_l1 c key g).
Proof. intros Hg. unfold read_l1. keep; try done; apply keeps_at_any; keep. Qed.

Lemma keeps_readValue G key g : g ∈ G → keeps G (readValue c key g).
Proof.
  intros Hg. unfold readValue. keep; try done; try (by apply keeps_read_l1).
  apply keeps_at_pass; [done|]. intros elapsed. apply keeps_at_bind; [apply promote_checked|]. keep; done.
Qed.
#[local] Hint Resolve keeps_readValue : keeps.

Lemma keeps_get G key : keeps G (cache_get c key).
Proof. unfold cache_get. keep. apply keeps_readValue. by left. Qed.
#[local] Hint Resolve keeps_get : keeps.

Lemma keeps_has G key : keeps G (cache_has c key).
Proof. unfold cache_has. keep. Qed.

Lemma keeps_size G : keeps G (cache_size c).
Proof. unfold cache_size. keep. Qed.

Lemma keeps_deleteLocal G key n : keeps G (deleteLocal c key n).
Proof. unfold deleteLocal, delete_l1. keep. Qed.

Lemma keeps_deleteLocalOnly G key n : keeps G (deleteLocalOnly c key n).
Proof. unfold deleteLocalOnly, delete_l1. keep. Qed.

Lemma keeps_deleteByPatternLocal G p b : keeps G (deleteByPatternLocal c p b).
Proof. unfold deleteByPatternLocal. keep. Qed.

Lemma keeps_publish G e : keeps G (publishInvalidation c e).
Proof. unfold publishInvalidation. keep. Qed.
#[local] Hint Resolve keeps_deleteLocal keeps_deleteLocalOnly keeps_deleteByPatternLocal keeps_publish : keeps.

Lemma keeps_delete G key : keeps G (cache_delete c key).
Proof. unfold cache_delete. keep. Qed.

Lemma keeps_deleteByPattern G p : keeps G (cache_deleteByPattern c p).
Proof. unfold cache_deleteByPattern. keep. Qed.

Lemma keeps_assertOwned G b : keeps G (assertOwned b : pr unit).
Proof. unfold assertOwned. keep. Qed.

Lemma keeps_throwIfAborted G : keeps G (throwIfAborted : pr unit).
Proof. unfold throwIfAborted. keep. Qed.
#[local] Hint Resolve keeps_assertOwned keeps_throwIfAborted : keeps.

Lemma keeps_stale_answer G key o (p : pr (option V)) : keeps G p → keeps G (stale_answer c key o p).
Proof. intros Hp. unfold stale_answer. keep. Qed.

Lemma keeps_obtain G key o leased : keeps G (obtain c key o leased).
Proof. unfold obtain. keep. Qed.

Lemma keeps_publish_atomic G key v o g token : g ∈ G → keeps G (publish_atomic c key v o g token).
Proof.
  intros Hg. unfold publish_atomic. keep; try done.
  - apply keeps_at_bind; [by apply keeps_l2_checked|]. keep.
  - apply keeps_at_bind; [apply store_checked|]. keep; done.
Qed.

Lemma keeps_loadAndStore G key o g b lease : g ∈ G → keeps G (loadAndStore c key o g b lease).
Proof.
  intros Hg. unfold loadAndStore. keep; try apply keeps_at_any; keep; try done.
  - apply keeps_obtain.
  - apply keeps_stale_answer. keep.
  - by apply keeps_publish_atomic.
  - by apply keeps_writeValue.
  - by apply keeps_writeValue.
  - apply keeps_at_any. keep.
  - apply keeps_stale_answer. keep.
Qed.
#[local] Hint Resolve keeps_loadAndStore : keeps.

Lemma keeps_lock_loop n G key o g token t b : g ∈ G → keeps G (lock_loop c n key o g token t b).
Proof.
  intros Hg. revert b. induction n as [|n IH]; intros b; cbn [lock_loop].
  { by intros F x. }
  keep; apply keeps_stale_answer; keep.
Qed.
#[local] Hint Resolve keeps_lock_loop : keeps.

Lemma keeps_withLock n G key o token t : keeps G (loadWithDistributedLock c n key o token t).
Proof.
  unfold loadWithDistributedLock. keep; [apply keeps_stale_answer; keep|].
  unfold loadWithDistributedLockInternal. keep; first [apply keeps_loadAndStore|apply keeps_lock_loop]; by left.
Qed.
#[local] Hint Resolve keeps_withLock : keeps.

Lemma keeps_getOrSet n G key o token t : keeps G (getOrSet c n key o token t).
Proof. unfold getOrSet, joined. keep. Qed.

Lemma keeps_saturateTracking G : keeps G (saturateGenerationTracking c).
Proof. unfold saturateGenerationTracking. keep. Qed.

Lemma keeps_untrusted G : keeps G (markInvalidationUntrusted c).
Proof. unfold markInvalidationUntrusted. keep. Qed.

Lemma keeps_restore G : keeps G (restoreInvalidationTrust c).
Proof. unfold restoreInvalidationTrust. keep. Qed.
#[local] Hint Resolve keeps_saturateTracking keeps_untrusted keeps_restore : keeps.

Lemma keeps_applyRemoteDelete versioning G keys generation : keeps G (applyRemoteDelete c versioning keys generation).
Proof. induction keys as [|[k t] keys IH]; cbn [applyRemoteDelete]; keep. Qed.

Lemma keeps_prime G key v o generation g : g ∈ G → keeps G (prime c key v o generation g).
Proof.
  intros Hg. unfold prime, delete_l1. keep; try done; [apply keeps_at_any; keep|].
  apply keeps_at_bind; [apply promote_checked|]. keep; try done; apply keeps_at_any; keep.
Qed.

Lemma keeps_prime_keys G keys v o generation : keeps G (prime_keys c keys v o generation).
Proof.
  induction keys as [|[k t] keys IH]; cbn [prime_keys]; keep. apply keeps_prime. by left.
Qed.
#[local] Hint Resolve keeps_prime_keys keeps_applyRemoteDelete : keeps.

Lemma keeps_applyRemoteSet G keys v t generation : keeps G (applyRemoteSet c keys v t generation).
Proof. unfold applyRemoteSet. keep. Qed.
#[local] Hint Resolve keeps_applyRemoteSet : keeps.

Lemma keeps_receive G versioning own id e : keeps G (receive c versioning own id e).
Proof. unfold receive. keep. Qed.

Lemma keeps_status G status : keeps G (on_status c status).
Proof. unfold on_status. keep. Qed.

Lemma keeps_close G owns : keeps G (closeResources c owns).
Proof. unfold closeResources. keep. Qed.

(** Every operation starts and ends without a guard. *)
Lemma operation_keeps versioning (p : pr unit) : operation versioning c p → keeps [] p.
Proof.
  intros Hop. destruct Hop; unfold ignore, cache_clear; try (apply keeps_bind; [|done]).
  - apply keeps_set.
  - apply keeps_get.
  - apply keeps_has.
  - apply keeps_size.
  - apply keeps_delete.
  - apply keeps_deleteByPattern.
  - apply keeps_deleteByPattern.
  - apply keeps_getOrSet.
  - apply keeps_receive.
  - apply keeps_status.
  - apply keeps_saturateTracking.
  - apply keeps_close.
Qed.
End operations.

(** ** The state *)

Section invariant.
Context {K V C Opts L : Type} `{EqDecision K} `{Ledger L}.
Context (String : K → jsstring) (versioning : bool) `{!L1Store K C String} (ofString : jsstring → K).
Context (base : Z) (Hbase : 0 <= base).

Abbreviation hg_t := (hguard (K := K)).
Abbreviation pr := (prog (K := K) (V := V)).
Abbreviation entry := (lentry K V).
Abbreviation state := (hstate K V C L).
Abbreviation toStorageKey := (toStorageKey String versioning ofString).
Abbreviation under := (under_guard String versioning ofString).
Abbreviation spared := (spares String).

(** The bytes [L1] may answer with were put there, and nothing removed them since. *)
Definition put_in (sk : K) (b : bytes) (pre : list entry) : Prop :=
  ∃ A B, pre = A ++ LPut sk (Some b) :: B ∧ Forall (spared sk) B.

(** What each entry of a log owes to the entries before it. *)
Definition justified (pre : list entry) (e : entry) : Prop :=
  match e with
  | LObserve g _ => ∃ n, storageKey g = toStorageKey n (g_key (hg g))
  | LPut k _ => under k pre
  | LRead k b => put_in k b pre
  | LSend call => match writes_to call with Some k => under k pre | None => True end
  | _ => True
  end.

(** A held guard: live in the history, observed in the log at its time. *)
Definition held (s : state) (g : hg_t) : Prop :=
  ∃ A m B, log s = A ++ LObserve g m :: B ∧
    guards (hist s) !! issue g =
      Some {| guard := hg g; live := true; time := length (events (A ++ [LObserve g m])) |}.

Record sinv (s : state) (gs : list hg_t) : Prop := {
  si_guards : ginv String base (hist s);
  si_l1 : l1_ok (l1 s);
  si_trace : trace (hist s) = events (log s);
  si_held : ∀ g, g ∈ gs → held s g;
  si_distinct : NoDup (issue <$> gs);
  si_live : ∀ i x, guards (hist s) !! i = Some x → live x = true → i ∈ issue <$> gs;
  si_holds : ∀ sk b, l1_holds (l1 s) sk b → put_in sk b (log s);
  si_log : ∀ A e B, log s = A ++ e :: B → justified A e }.

Lemma sinv_perm s gs gs' : gs ≡ₚ gs' → sinv s gs → sinv s gs'.
Proof.
  intros Hp []. split; try done.
  - intros g Hg. apply si_held0. by rewrite Hp.
  - by rewrite <-Hp.
  - intros i x Hi Hl. rewrite <-Hp. by eapply si_live0.
Qed.

Lemma events_app A B : events (A ++ B : list entry) = events A ++ events B.
Proof. apply bind_app. Qed.

(** Adding an entry to a log. *)
Lemma log_snoc (pre : list entry) e A x B :
  pre ++ [e] = A ++ x :: B → (A = pre ∧ x = e ∧ B = []) ∨ ∃ B', pre = A ++ x :: B' ∧ B = B' ++ [e].
Proof.
  destruct B as [|y B] using rev_ind.
  - intros Heq. apply app_inj_2 in Heq as [-> [= ->]]; [by left|done].
  - intros Heq. right. exists B. rewrite app_comm_cons, app_assoc in Heq.
    apply app_inj_2 in Heq as [-> [= ->]]; done.
Qed.

Lemma put_in_snoc sk b pre e : put_in sk b pre → spared sk e → put_in sk b (pre ++ [e]).
Proof.
  intros (A & B & -> & HB) He. exists A, (B ++ [e]). rewrite <-app_assoc. split; [done|].
  apply Forall_app. split; [done|by constructor].
Qed.

Lemma justified_snoc s gs e :
  sinv s gs → justified (log s) e → ∀ A x B, log s ++ [e] = A ++ x :: B → justified A x.
Proof.
  intros Hs He A x B [(-> & -> & _)|(B' & Heq & _)]%log_snoc; [done|]. by eapply (si_log _ _ Hs).
Qed.

(** An entry that is no guard event moves no guard. *)
Lemma held_snoc s c e g : guard_event e = [] → held s g → held (set_l1 c [e] s) g.
Proof.
  intros He (A & m & B & Hl & Hg). exists A, m, (B ++ [e]). simpl. split; [|done].
  by rewrite Hl, <-app_assoc.
Qed.

Lemma set_l1_nil_ok s c gs :
  sinv s gs → l1_ok c → (∀ sk b, l1_holds c sk b → l1_holds (l1 s) sk b) → sinv (set_l1 c [] s) gs.
Proof.
  intros [] Hok Hsub. split; simpl; rewrite ?app_nil_r; try done.
  - intros g Hg. destruct (si_held0 g Hg) as (A & m & B & Hl & Hi). exists A, m, B. simpl. by rewrite app_nil_r.
  - intros sk b Hb. by apply si_holds0, Hsub.
Qed.

Lemma set_l1_ok s c e gs :
  sinv s gs → l1_ok c → guard_event e = [] → justified (log s) e →
  (∀ sk b, l1_holds c sk b → (l1_holds (l1 s) sk b ∧ spared sk e) ∨ e = LPut sk (Some b)) →
  sinv (set_l1 c [e] s) gs.
Proof.
  intros Hs Hok He Hj Hsub. split; simpl; try apply Hs.
  - done.
  - rewrite events_app. simpl. rewrite He. simpl. rewrite app_nil_r. apply Hs.
  - intros g Hg. apply held_snoc; [done|by apply (si_held _ _ Hs)].
  - intros sk b Hb. destruct (Hsub sk b Hb) as [[Hb' Hsp]| ->].
    + apply put_in_snoc; [|done]. by apply (si_holds _ _ Hs).
    + exists (log s), []. done.
  - by eapply justified_snoc.
Qed.

(** ** Guard events *)

(** A history that grows by [e], where the held guards stay. *)
Lemma set_hist_ok s gs gs' h e :
  sinv s gs → ginv String base h → trace h = trace (hist s) ++ guard_event e →
  (∀ g, g ∈ gs' → (g ∈ gs ∧ guards h !! issue g = guards (hist s) !! issue g) ∨
     (∃ m, e = LObserve g m ∧ guards h !! issue g =
        Some {| guard := hg g; live := true; time := length (events (log s ++ [e])) |})) →
  NoDup (issue <$> gs') →
  (∀ i x, guards h !! i = Some x → live x = true → i ∈ issue <$> gs') →
  justified (log s) e → (∀ sk, spared sk e) → sinv (set_hist h [e] s) gs'.
Proof.
  intros Hs Hg Ht Hgs Hnd Hlive Hj Hsp. split; simpl; try done.
  - apply Hs.
  - rewrite Ht, (si_trace _ _ Hs), events_app. simpl. by rewrite app_nil_r.
  - intros g Hin. destruct (Hgs g Hin) as [[Hin' Heq]|(m & -> & Heq)].
    + destruct (si_held _ _ Hs g Hin') as (A & m & B & Hl & Hgu). exists A, m, (B ++ [e]).
      simpl. rewrite Heq. split; [|done]. by rewrite Hl, <-app_assoc.
    + exists (log s), m, []. by split.
  - intros sk b Hb. apply put_in_snoc; [|done]. by apply (si_holds _ _ Hs).
  - by eapply justified_snoc.
Qed.

Lemma hguard_step_ok e s gs :
  (e = GEpoch ∨ e = GSaturate ∨ e = GClose) → sinv s gs → sinv (guard_step String e s) gs.
Proof.
  intros He Hs.
  assert (Hcase : (e = GSaturate ∧ generationTrackingSaturated (now (hist s)) = true) ∨
    guard_step String e s = set_hist (gstep String (hist s) e) [LGuard e] s ∧
    trace (gstep String (hist s) e) = trace (hist s) ++ [e] ∧ guards (gstep String (hist s) e) = guards (hist s)).
  { unfold guard_step. destruct He as [->|[->| ->]]; simpl; [by right| |by right].
    destruct (generationTrackingSaturated _) eqn:E; [by left|by right]. }
  destruct Hcase as [[-> E]|(-> & Ht & Hgu)].
  - unfold guard_step. simpl. rewrite E. destruct s as [h l t lg]. unfold set_hist. simpl. by rewrite app_nil_r.
  - eapply set_hist_ok; [done|by apply gstep_ok, Hs|done| |apply Hs| |done|done].
    + intros g Hin. left. by rewrite Hgu.
    + rewrite Hgu. apply Hs.
Qed.

Lemma release_step_ok s g gs : sinv s (g :: gs) → sinv (guard_step String (GRelease (issue g)) s) gs.
Proof.
  intros Hs. pose proof (si_distinct _ _ Hs) as Hnd. rewrite fmap_cons in Hnd. apply NoDup_cons in Hnd as [Hni Hnd].
  destruct (si_held _ _ Hs g ltac:(by left)) as (A & m & B & Hl & Hgu).
  assert (Hga : guards (gstep String (hist s) (GRelease (issue g))) = alter retire (issue g) (guards (hist s)) ∧
    trace (gstep String (hist s) (GRelease (issue g))) = trace (hist s) ++ [GRelease (issue g)]).
  { simpl. by rewrite Hgu. }
  destruct Hga as [Hga Htr]. unfold guard_step.
  eapply set_hist_ok; [done|by apply gstep_ok, Hs|done| |done| |done|done].
  - intros g' Hin. left. split; [by right|]. rewrite Hga. rewrite list_lookup_alter, decide_False; [done|].
    intros Heq. apply Hni. rewrite Heq. by apply list_elem_of_fmap_2.
  - intros i x. rewrite Hga, list_lookup_alter. case_decide as Hi.
    + subst i. rewrite Hgu. simpl. intros [= <-]. done.
    + intros Hx Hlv. pose proof (si_live _ _ Hs i x Hx Hlv) as Hin. rewrite fmap_cons in Hin.
      apply elem_of_cons in Hin as [->|Hin]; done.
Qed.

Lemma observe_step_ok s gs k m n :
  sinv s gs → sinv (observe_step String versioning ofString k m n s) (observed String versioning ofString k m n s :: gs).
Proof.
  intros Hs. set (g := observed String versioning ofString k m n s).
  assert (Hk : g_key (hg g) = k).
  { unfold g, observed. simpl. unfold observeKey. by destruct (find_revision String k _). }
  assert (Hga : guards (gstep String (hist s) (GObserve k m)) =
      guards (hist s) ++ [{| guard := hg g; live := true; time := length (trace (hist s) ++ [GObserve k m]) |}] ∧
    trace (gstep String (hist s) (GObserve k m)) = trace (hist s) ++ [GObserve k m]).
  { unfold g, observed. simpl. by destruct (observeKey String k m _). }
  destruct Hga as [Hga Htr].
  assert (Hfresh : ∀ g', g' ∈ gs → (issue g' < length (guards (hist s)))%nat).
  { intros g' Hin. destruct (si_held _ _ Hs g' Hin) as (A & m' & B & _ & Hgu). by apply lookup_lt_Some in Hgu. }
  unfold observe_step. fold g.
  eapply set_hist_ok; [done|by apply gstep_ok, Hs|cbn [guard_event]; by rewrite Hk| | | | |done].
  - intros g' [->|Hin]%elem_of_cons.
    + right. exists m. split; [done|]. rewrite Hga. simpl.
      rewrite lookup_app_r, Nat.sub_diag by done. simpl. do 3 f_equal.
      rewrite (si_trace _ _ Hs), events_app. unfold events at 3. cbn [mbind list_bind guard_event]. by rewrite Hk.
    + left. split; [done|]. rewrite Hga. rewrite lookup_app_l; [done|by apply Hfresh].
  - rewrite fmap_cons. apply NoDup_cons. split; [|apply Hs].
    intros (g' & Heq & Hin)%list_elem_of_fmap. apply Hfresh in Hin. simpl in Heq. lia.
  - intros i x. rewrite Hga, fmap_cons. intros Hx Hl. apply lookup_app_Some in Hx as [Hx|[Hle Hx]].
    + right. by eapply (si_live _ _ Hs).
    + destruct (i - _)%nat eqn:E; [|done]. simpl. replace i with (length (guards (hist s))) by lia. by left.
  - exists n. by rewrite Hk.
Qed.

Lemma set_trusted_ok b s gs : sinv s gs → sinv (set_trusted b s) gs.
Proof. intros Hs. split; apply Hs. Qed.

(** ** A checked guard *)

Definition fresh (s : state) (gs : list hg_t) (F : option hg_t) : Prop :=
  match F with Some g => g ∈ gs ∧ isCurrent versioning (hg g) false (now (hist s)) = true | None => True end.

Lemma fresh_under s gs gs' F k :
  sinv s (gs ++ gs') → fresh s gs F → writes_under k F → under k (log s).
Proof.
  intros Hs Hf (g & -> & <-). destruct Hf as [Hin Hcur].
  destruct (si_held _ _ Hs g ltac:(by apply elem_of_app; left)) as (A & m & B & Hl & Hgu).
  exists A, g, m, B. split_and!; [done|done|by apply (si_log _ _ Hs _ _ _ Hl)|].
  destruct (si_guards _ _ Hs) as [Hc _].
  assert (Hi : {| guard := hg g; live := true; time := length (events (A ++ [LObserve g m])) |} ∈ guards (hist s))
    by by eapply list_elem_of_lookup_2.
  destruct (gc_live _ _ _ _ _ Hc _ Hi eq_refl) as (r & Hr & _). simpl in Hr.
  unfold isCurrent, revision_at in Hcur. rewrite Hr in Hcur. bools. simpl in *.
  pose proof (gc_sound _ _ _ _ _ Hc _ r Hi eq_refl Hr) as Hsound. simpl in Hsound.
  rewrite (si_trace _ _ Hs), Hl in Hsound.
  replace (A ++ LObserve g m :: B) with ((A ++ [LObserve g m]) ++ B) in Hsound by by rewrite <-app_assoc.
  rewrite (events_app (A ++ [LObserve g m]) B), drop_app_length in Hsound. by apply Hsound.
Qed.

(** ** One effect, then a run *)

Lemma pattern_step_ok s gs p c :
  sinv s gs → l1_step (OpPattern p) (l1 s) c → sinv (set_l1 c [LPattern p] s) gs.
Proof.
  intros Hs Hp. pose proof (si_l1 _ _ Hs) as Hok. apply set_l1_ok; [done|by eapply l1_step_ok|done|done|].
  intros sk b Hb. left. by destruct (l1_pattern p (l1 s) c sk b Hok Hp Hb).
Qed.

Lemma delete_step_ok s gs k c :
  sinv s gs → l1_step (OpDelete k) (l1 s) c → sinv (set_l1 c [LDelete k] s) gs.
Proof.
  intros Hs Hp. pose proof (si_l1 _ _ Hs) as Hok. apply set_l1_ok; [done|by eapply l1_step_ok|done|done|].
  intros sk b Hb. left. destruct (l1_delete k (l1 s) c sk b Hok Hp Hb) as [Hne Hh]. split; [done|].
  simpl. congruence.
Qed.

Lemma put_step_ok s gs k ob c :
  sinv s gs → under k (log s) → l1_step (OpPut k ob) (l1 s) c → sinv (set_l1 c [LPut k ob] s) gs.
Proof.
  intros Hs Hu Hp. pose proof (si_l1 _ _ Hs) as Hok. apply set_l1_ok; [done|by eapply l1_step_ok|done|done|].
  intros sk b Hb. destruct (l1_put k ob (l1 s) c sk b Hok Hp Hb) as [[-> ->]|[Hne Hh]]; [by right|].
  left. split; [done|]. simpl. congruence.
Qed.

Lemma get_step_ok s gs k r c :
  sinv s gs → l1_step (OpGet k (fst <$> r)) (l1 s) c →
  sinv (set_l1 c (from_option (λ x : bytes * Z, [LRead k x.1]) [] r) s) gs.
Proof.
  intros Hs Hp. pose proof (si_l1 _ _ Hs) as Hok.
  assert (Hsub : ∀ sk b, l1_holds c sk b → l1_holds (l1 s) sk b).
  { intros sk b. apply (proj2 (l1_get k (fst <$> r) (l1 s) c sk b Hok Hp)). }
  assert (Hok' : l1_ok c) by by eapply l1_step_ok.
  destruct r as [[b ttl]|]; simpl; [|by apply set_l1_nil_ok].
  apply set_l1_ok; [done|done|done| |].
  - apply (si_holds _ _ Hs). by apply (proj1 (l1_get k (Some b) (l1 s) c k b Hok Hp)).
  - intros sk b' Hb. left. split; [by apply Hsub|done].
Qed.

Lemma read_step_ok s gs c : sinv s gs → l1_step OpRead (l1 s) c → sinv (set_l1 c [] s) gs.
Proof.
  intros Hs Hp. pose proof (si_l1 _ _ Hs) as Hok. apply set_l1_nil_ok; [done|by eapply l1_step_ok|].
  intros sk b. by eapply l1_read.
Qed.

Lemma send_step_ok s gs call :
  sinv s gs → match writes_to call with Some k => under k (log s) | None => True end →
  sinv (set_l1 (l1 s) [LSend call] s) gs.
Proof.
  intros Hs Hc. apply set_l1_ok; [done|apply Hs|done|done|]. intros sk b Hb. by left.
Qed.

Lemma advance_step_ok s s' gs : sinv s gs → advance_step String s s' → sinv s' gs.
Proof.
  intros Hs [->|[->|(c & Hc & ->)]]; [done| |].
  - apply hguard_step_ok; [tauto|done].
  - apply pattern_step_ok; [apply hguard_step_ok; [tauto|done]|]. done.
Qed.

Lemma sync_ok {X} (e : eff X) s s' x gs gs0 F (post : X → list hg_t → option hg_t → Prop) :
  awaits e = false → effect_ok e gs F post → sinv s (gs ++ gs0) → fresh s gs F →
  sync String versioning ofString e s x s' →
  ∃ gs' F', post x gs' F' ∧ sinv s' (gs' ++ gs0) ∧ fresh s' gs' F'.
Proof.
  intros Hw Ha Hs Hf. destruct e; simpl in Hw, Ha |- *; try done;
    try (intros ->; exists gs, F; by split_and!);
    try (intros [-> _]; exists gs, F; by split_and!);
    try (intros ->; exists gs, None; split_and!; [by destruct x || apply Ha|by apply hguard_step_ok; [tauto|]|done]).
  - intros (n & -> & ->). exists (observed String versioning ofString k mutate n s :: gs), None.
    split_and!; [apply Ha| |done]. by apply observe_step_ok.
  - intros ->. destruct Ha as (G' & -> & Hp). exists G', None. split_and!; [by destruct x| |done]. by apply release_step_ok.
  - intros [-> (aborted & ->)]. destruct Ha as (Hin & Ht & Hn).
    destruct (isCurrent versioning (hg g) aborted (now (hist s))) eqn:E; [|by exists gs, None].
    exists gs, (Some g). split_and!; [done..|]. split; [done|]. destruct aborted; [|exact E].
    unfold isCurrent in E. simpl in E. by rewrite andb_false_r in E.
  - intros ->. exists gs, None. split_and!; [by destruct x| |done]. apply set_trusted_ok, hguard_step_ok; [tauto|done].
  - intros [->|[_ ->]]; exists gs, F; split_and!; done || by apply set_trusted_ok.
  - intros Hst. exists gs, None. split_and!; [by destruct x| |done]. by eapply advance_step_ok.
  - intros Hst. exists gs, None. split_and!; [by destruct x| |done]. by eapply advance_step_ok.
  - intros (c & Hc & ->). exists gs, F. split_and!; [done|by apply get_step_ok|done].
  - intros (c & Hc & ->). destruct Ha as [Hw' Hp]. exists gs, F. split_and!; [by destruct x| |done].
    apply put_step_ok; [done|by eapply fresh_under|done].
  - intros (c & ob & Hc & ->). destruct Ha as [Hw' Hp]. exists gs, F. split_and!; [by destruct x| |done].
    apply put_step_ok; [done|by eapply fresh_under|done].
  - intros (c & Hc & ->). exists gs, F. split_and!; [done|by apply read_step_ok|done].
  - intros (c & Hc & ->). exists gs, F. split_and!; [done|by apply delete_step_ok|done].
  - intros (c & Hc & ->). exists gs, F. split_and!; [done|by apply pattern_step_ok|done].
  - intros (c & Hc & ->). exists gs, F. split_and!; [done|by apply read_step_ok|done].
  - intros (c & Hc & ->). exists gs, F. split_and!; [done|by apply read_step_ok|done].
  - intros ->. destruct Ha as [Hw' Hp]. exists gs, F. split_and!; [by destruct x| |done].
    apply send_step_ok; [done|]. destruct (writes_to c); [by eapply fresh_under|done].
Qed.

Lemma run_ok (p : pr unit) s s' p' gs gs0 F :
  safe p gs F (kept []) (kept []) → sinv s (gs ++ gs0) → fresh s gs F →
  run String versioning ofString p s s' p' →
  ∃ gs' F', safe p' gs' F' (kept []) (kept []) ∧ sinv s' (gs' ++ gs0) ∧
    (finished p' ∨ ∃ X (e : eff X) k, p' = Vis e k ∧ awaits e = true).
Proof.
  revert s gs F. induction p as [a|e|X e k IH]; intros s gs F Hsafe Hs Hf Hr.
  - destruct Hr as [-> ->]. exists gs, F. split_and!; [done|done|by left].
  - destruct Hr as [-> ->]. exists gs, F. split_and!; [done|done|by left].
  - simpl in Hr. destruct (awaits e) eqn:Ew.
    + destruct Hr as [-> ->]. exists gs, F. split_and!; [done|done|]. right. by exists X, e, k.
    + destruct Hr as (x & s1 & Hsy & Hr). simpl in Hsafe.
      destruct (sync_ok e s s1 x gs gs0 F _ Ew Hsafe Hs Hf Hsy) as (gs' & F' & Hsafe' & Hs' & Hf').
      by apply (IH x s1 gs' F').
Qed.

Lemma resumed_ok (p p1 : pr unit) gs F :
  safe p gs F (kept []) (kept []) → resumed p p1 → safe p1 gs None (kept []) (kept []).
Proof.
  destruct p as [a|e|X e k]; simpl; [done|done|]. intros Ha [Hw [x ->]].
  destruct e; try discriminate Hw; simpl in Ha; apply Ha.
Qed.

(** ** Worlds *)

Context (c : config (K := K) (V := V) (Opts := Opts)).

Record winv (w : world K V C L) : Prop := {
  wi_tasks : ∃ Gs : list (list hg_t), sinv (st w) (concat Gs) ∧
    Forall2 (λ (p : pr unit) (gs : list hg_t), ∃ F, safe p gs F (kept []) (kept [])) (tasks w) Gs }.

Lemma concat_insert (Gs : list (list hg_t)) i gs gs' :
  Gs !! i = Some gs → concat (<[i:=gs']> Gs) ≡ₚ gs' ++ concat (delete i Gs) ∧
  concat Gs ≡ₚ gs ++ concat (delete i Gs).
Proof.
  intros Hi. rewrite insert_take_drop by (by eapply lookup_lt_Some).
  rewrite delete_take_drop, !concat_app. simpl. split; [apply Permutation_app_swap_app|].
  rewrite <-(take_drop_middle Gs i gs Hi) at 1. rewrite concat_app. simpl. apply Permutation_app_swap_app.
Qed.

Lemma hwstep_ok w w' : winv w → wstep String versioning ofString c w w' → winv w'.
Proof.
  intros [(Gs & Hs & Hall)] Hstep. destruct Hstep as [w p s' p' Hop Hr|w i p p1 s' p' Hi Hre Hr|w c' Hc]; split.
  - destruct (run_ok p (st w) s' p' [] (concat Gs) None) as (gs' & F' & Hsafe & Hs' & _); [|done|done|done|].
    { by apply (operation_keeps c versioning p). }
    exists (Gs ++ [gs']). simpl. split.
    + eapply sinv_perm; [|exact Hs']. rewrite concat_app. simpl. rewrite app_nil_r. apply Permutation_app_comm.
    + apply Forall2_app; [done|]. constructor; [by exists F'|constructor].
  - destruct (Forall2_lookup_l _ _ _ _ _ Hall Hi) as (gs & Hgi & F & Hsafe).
    apply (resumed_ok p p1 gs F) in Hsafe; [|done].
    destruct (run_ok p1 (st w) s' p' gs (concat (delete i Gs)) None) as (gs' & F' & Hsafe' & Hs' & _);
      [done| |done|done|].
    { eapply sinv_perm; [|exact Hs]. by apply (concat_insert Gs i gs gs). }
    exists (<[i:=gs']> Gs). simpl. split.
    + eapply sinv_perm; [|exact Hs']. symmetry. by apply (concat_insert Gs i gs gs').
    + apply Forall2_insert; [done|]. by exists F'.
  - exists Gs. split; [|done]. by apply read_step_ok.
Qed.

Lemma start_winv budget l0 trust :
  holds "coordination-metadata" base budget → l1_ok l0 → (∀ k b, ¬ l1_holds l0 k b) →
  winv (start budget l0 trust).
Proof.
  intros Hb Hok Hno. split. exists []. split; [|done]. split; simpl; try done.
  - apply (ginv_reachable String base Hbase budget); [done|constructor].
  - intros g Hg. by apply elem_of_nil in Hg.
  - constructor.
  - intros sk b Hh. by apply Hno in Hh.
  - intros A e B Heq. by destruct A.
Qed.

(** The worlds the operations reach from an empty L1. *)
Inductive attainable : world K V C L → Prop :=
| at_start budget l0 trust :
    holds "coordination-metadata" base budget → l1_ok l0 → (∀ k b, ¬ l1_holds l0 k b) →
    attainable (start budget l0 trust)
| at_step w w' : attainable w → wstep String versioning ofString c w w' → attainable w'.

Lemma attainable_winv w : attainable w → winv w.
Proof. induction 1; [by apply start_winv|by eapply hwstep_ok]. Qed.

Lemma attainable_log w A e B : attainable w → log (st w) = A ++ e :: B → justified A e.
Proof. intros [(Gs & Hs & _)]%attainable_winv Hl. by eapply (si_log _ _ Hs). Qed.

Lemma put_under w A sk b B :
  attainable w → log (st w) = A ++ B → put_in sk b A →
  ∃ A1 g m mid C, A = A1 ++ LObserve g m :: mid ++ LPut sk (Some b) :: C ∧ storageKey g = sk ∧
    (∃ n, sk = toStorageKey n (g_key (hg g))) ∧ undisturbed (g_key (hg g)) (events mid) ∧ Forall (spared sk) C.
Proof.
  intros Hw Hl (A0 & D & -> & HD). rewrite <-app_assoc in Hl. simpl in Hl.
  destruct (attainable_log w _ _ _ Hw Hl) as (A1 & g & m & mid & -> & Hg & Hn & Hu).
  exists A1, g, m, mid, D. split_and!; try done. by rewrite <-app_assoc.
Qed.



(** every operation gives back the guards it takes: when all started
    operations have ended, by a result or by an error, no revision is kept and
    their metadata is no longer accounted. *)
Theorem idle_keeps_nothing w :
  attainable w → Forall finished (tasks w) →
  keyRevisions (now (hist (st w))) = [] ∧ keyRevisionBytes (now (hist (st w))) = 0.
Proof.
  intros [(Gs & Hs & Hall)]%attainable_winv Hfin.
  assert (Hnil : concat Gs = []).
  { clear Hs. induction Hall as [|p gs ps Gs' (F & Hp) _ IH]; [done|]. apply Forall_cons in Hfin as [Hf Hfin].
    destruct p; simpl in Hf, Hp; try done; rewrite Hp; by apply IH. }
  rewrite Hnil in Hs. apply (ginv_released String base); [apply Hs|]. intros i Hi.
  destruct (live i) eqn:El; [|done]. exfalso. apply list_elem_of_lookup in Hi as [n Hn].
  pose proof (si_live _ _ Hs n i Hn El) as Hx. by apply elem_of_nil in Hx.
Qed.

(** Two entries of one list. *)
Lemma two_splits {A} (l1 l2 k1 k2 : list A) x y :
  l1 ++ x :: l2 = k1 ++ y :: k2 →
  (∃ l, k1 = l1 ++ x :: l ∧ l2 = l ++ y :: k2) ∨ (l1 = k1 ∧ x = y ∧ l2 = k2) ∨
  (∃ l, l1 = k1 ++ y :: l ∧ k2 = l ++ x :: l2).
Proof.
  revert k1. induction l1 as [|a l1 IH]; intros [|b k1]; simpl; intros [= Ha Heq]; subst.
  - right. left. done.
  - left. by exists k1.
  - right. right. by exists l1.
  - destruct (IH _ Heq) as [(l & -> & ->)|[(-> & -> & ->)|(l & -> & ->)]].
    + left. by exists l.
    + right. by left.
    + right. right. by exists l.
Qed.

(** The storage key of a key and of no other, at any generation. *)
Definition storage_key_of (sk key : K) : Prop := ∀ n k, toStorageKey n k = sk → k = key.

Lemma unversioned_storage_key k : versioning = false → storage_key_of k k.
Proof. intros Hv n k'. unfold HybridWorld.toStorageKey. by rewrite Hv. Qed.

End invariant.
