(* ===== verification/HybridDemo.v ===== *)
(** * A run of the cache

    A concrete world of [HybridWorld.v] for the theorems of [HybridOk.v]: string
    keys without versioning, the in-memory store of [MemoryStore.v], a shared
    store that answers every call. An executable interpreter plays a schedule of
    started and resumed operations, and every world it reaches is attainable. *)

From S2P Require Import Prelude Ledger MemoryBudget JsMap JsValue Pattern KeyGuard Lru MemoryStore L1Store HybridCache HybridWorld HybridOk.

#[local] Existing Instance demo_ops.
#[local] Existing Instance demo_lru.

#[local] Instance demo_peeks : LruPeeks jsstring Entry (list_lru jsstring Entry) 2.
Proof. exact (list_lru_peeks 2 ltac:(lia)). Defined.

Abbreviation dstate := (hstate jsstring bytes (demo_mstore * Z) MemoryBudget).
Abbreviation dprog := (prog (K := jsstring) (V := bytes) unit).

#[local] Instance demo_l1 : L1Store jsstring (demo_mstore * Z) id.
Proof. exact (memory_l1 id (λ _, false) budget_view demo_limits 0 0 ltac:(done) ltac:(done)). Defined.

(** Values are their own encoding. *)
Definition demo_config : config (K := jsstring) (V := bytes) (Opts := unit) :=
  {| hasL1 := true; hasL2 := true; l2Encoded := true; l2Locks := false; l2Atomic := false; hasBus := false;
     self := tt; valid_options := λ _, true; sameLayerCodecPolicy := λ _, true;
     encodeL1 := λ _ v, Some v; encodeL2 := λ _ v, Some v; decode := λ b, Some b;
     l1Ttl := λ _, 1000; with_ttl := λ _ o, o; key_bytes := utf8_length;
     inflight_off := λ _, true; origin_on := λ _, false; lock_on := λ _, false; failSafe_on := λ _, false;
     lock_options_ok := λ _, true; on_timeout_load := λ _, true; lock_pollMs := λ _, 50; broadcast := λ _ _, false;
     del_event := λ k n, DeleteEvent [(k, None)] n; set_event := λ k v n, SetEvent [(k, None)] v None n;
     key_of_event := λ k _, k; numeric_alias := λ _, None |}.

(** The effects the demonstration meets. *)
Definition demo_sync {X} (e : eff (K := jsstring) (V := bytes) X) (s : dstate) : option (X * dstate) :=
  match e in eff X return option (X * dstate) with
  | EObserve k m => Some (observed id false id k m 0 s, observe_step id false id k m 0 s)
  | ERelease g => Some (tt, guard_step id (GRelease (issue g)) s)
  | ECurrent g => Some (isCurrent false (hg g) false (now (hist s)), s)
  | ESuperseded g k => Some ((g_revision (hg g) =? value (revision_at (g_state (hg g)) (now (hist s))))
      || negb (bool_decide (storageKey g = toStorageKey id false id 0 k)), s)
  | EClosed => Some (closed (now (hist s)), s)
  | ETrusted => Some (trusted s, s)
  | EVersionSafe => Some (versionedCacheSafe false (now (hist s)), s)
  | EAdvanceAfterDelete _ _ => Some (tt, s)
  | EHasNegative _ => Some (false, s)
  | ERemoveNegative _ | ERemoveStale _ | ERemoveInflight _ | ERememberStale _ _ _ => Some (tt, s)
  | EGenerationForEvent _ => Some (None, s)
  | EL1GetEncoded k =>
      let r := (λ x : bytes * option Z * option Z, (x.1.1, 1000)) <$> (getEncoded id (λ _, false) (l1 s).2 (l1 s).2 k (l1 s).1).2 in
      Some (r, set_l1 ((getEncoded id (λ _, false) (l1 s).2 (l1 s).2 k (l1 s).1).1, (l1 s).2)
                 (from_option (λ x : bytes * Z, [LRead k x.1]) [] r) s)
  | EL1SetEncoded k b _ =>
      Some (tt, set_l1 (setEncoded id (λ _, false) budget_view demo_limits (l1 s).2 (l1 s).2 k b 1000 None (l1 s).1, (l1 s).2)
                  [LPut k (Some b)] s)
  | EL1Delete k => Some (tt, set_l1 (store_delete k (l1 s).1, (l1 s).2) [LDelete k] s)
  | EL2Send call => Some (tt, set_l1 (l1 s) [LSend call] s)
  | _ => None
  end.

Lemma demo_sync_ok {X} (e : eff X) s x s' :
  awaits e = false → demo_sync e s = Some (x, s') → sync id false id e s x s'.
Proof.
  destruct e; simpl; intros Hw Heq; try done; injection Heq as Hx Hs; subst; try done.
  - by exists 0.
  - split; [done|]. by exists false.
  - split; [done|]. by exists 0.
  - by left.
  - eexists. split; [|reflexivity]. split; [simpl; lia|]. exists (l1 s).2, (l1 s).2. split_and!; [simpl; lia|done|].
    by destruct (getEncoded _ _ _ _ _ _).2.
  - eexists. split; [|reflexivity]. split; [simpl; lia|]. exists (l1 s).2, (l1 s).2, 1000, None. simpl. split; [lia|done].
  - eexists. split; [|reflexivity]. split; [simpl; lia|done].
Qed.

Fixpoint demo_run (p : dprog) (s : dstate) : option (dstate * dprog) :=
  match p with
  | Vis e k =>
      if awaits e then Some (s, p)
      else match demo_sync e s with Some (x, s1) => demo_run (k x) s1 | None => None end
  | _ => Some (s, p)
  end.

Lemma demo_run_ok p s s' p' : demo_run p s = Some (s', p') → run id false id p s s' p'.
Proof.
  revert s. induction p as [a|e|X e k IH]; intros s; simpl; [by intros [= <- <-]..|].
  destruct (awaits e) eqn:Ew; [by intros [= <- <-]|].
  destruct (demo_sync e s) as [[x s1]|] eqn:Es; [|done]. intros Hr. exists x, s1.
  split; [by apply demo_sync_ok|by apply IH].
Qed.

(** What the environment answers. *)
Definition demo_answer {X} (e : eff (K := jsstring) (V := bytes) X) : option X :=
  match e in eff X return option X with
  | EYield => Some tt
  | EAdmit => Some true
  | EL2Settle => Some (Some L2Unit)
  | _ => None
  end.

Definition demo_resume (p : dprog) : option dprog :=
  match p with Vis e k => if awaits e then k <$> demo_answer e else None | _ => None end.

Lemma demo_resume_ok p p1 : demo_resume p = Some p1 → resumed p p1.
Proof.
  destruct p as [a|e|X e k]; simpl; [done|done|]. destruct (awaits e); [|done].
  destruct (demo_answer e) as [x|]; simpl; [|done]. intros [= <-]. split; [done|by exists x].
Qed.

Inductive move := StartSet (k v : jsstring) | StartGet (k : jsstring) | StartDelete (k : jsstring) | Resume (i : nat).

Abbreviation dworld := (world jsstring bytes (demo_mstore * Z) MemoryBudget).

Definition started (m : move) : option dprog :=
  match m with
  | StartSet k v => Some (cache_set demo_config k v tt)
  | StartGet k => Some (ignore (cache_get demo_config k))
  | StartDelete k => Some (cache_delete demo_config k)
  | Resume _ => None
  end.

Definition begin (p : dprog) (w : dworld) : dworld :=
  match demo_run p (st w) with
  | Some (s', p') => {| st := s'; tasks := tasks w ++ [p'] |}
  | None => w
  end.

Definition resume (i : nat) (w : dworld) : dworld :=
  match tasks w !! i ≫= demo_resume with
  | Some p1 => match demo_run p1 (st w) with
               | Some (s', p') => {| st := s'; tasks := <[i:=p']> (tasks w) |}
               | None => w
               end
  | None => w
  end.

Definition play1 (w : dworld) (m : move) : dworld :=
  match m with Resume i => resume i w | _ => from_option (λ p, begin p w) w (started m) end.

Abbreviation demo_attainable := (attainable id false id 0 demo_config).

Lemma begin_ok p w : operation false demo_config p → demo_attainable w → demo_attainable (begin p w).
Proof.
  intros Hp Hw. unfold begin. destruct (demo_run p (st w)) as [[s' p']|] eqn:Eu; [|done].
  eapply at_step; [done|]. eapply w_start; [done|by apply demo_run_ok].
Qed.

Lemma resume_ok i w : demo_attainable w → demo_attainable (resume i w).
Proof.
  intros Hw. unfold resume. destruct (tasks w !! i) as [p|] eqn:Ei; simpl; [|done].
  destruct (demo_resume p) as [p1|] eqn:Er; [|done].
  destruct (demo_run p1 (st w)) as [[s' p']|] eqn:Eu; [|done].
  eapply at_step; [done|]. eapply w_resume; [done|by apply demo_resume_ok|by apply demo_run_ok].
Qed.

Lemma started_ok m p : started m = Some p → operation false demo_config p.
Proof. destruct m; cbn [started]; [intros [= <-]; constructor..|done]. Qed.

Lemma play1_ok w m : demo_attainable w → demo_attainable (play1 w m).
Proof.
  intros Hw. assert (Hb : demo_attainable (from_option (λ p, begin p w) w (started m))).
  { destruct (started m) as [p|] eqn:Es; [|done]. by eapply begin_ok, Hw; eapply started_ok. }
  destruct m; [exact Hb..|by apply resume_ok].
Qed.

Definition play (ms : list move) (w : dworld) : dworld := foldl play1 w ms.

Lemma play_ok ms w : demo_attainable w → demo_attainable (play ms w).
Proof. revert w. induction ms as [|m ms IH]; intros w Hw; [done|]. simpl. by apply IH, play1_ok. Qed.

Definition demo_start : dworld := start (Some demo_ledger) (newStore {| ll_entries := [] |} demo_ledger, 0) true.

Lemma demo_start_ok : demo_attainable demo_start.
Proof.
  apply at_start.
  - split; [exact demo_ledger_inv|reflexivity].
  - apply newStore_inv; [exact demo_cache_ok|reflexivity|exact demo_ledger_inv|reflexivity|reflexivity].
  - intros k b (u & e & _ & (c & Hc & Hp) & _). unfold newStore in Hc.
    destruct (reserve _ _ _). injection Hc as <-. discriminate Hp.
Qed.

(** A deletion, a write and a read, all under way at once: then the write goes
    on to the shared store. *)
Definition demo_moves : list move :=
  [StartDelete (js "k"); StartSet (js "k") [7]; StartGet (js "k"); Resume 1; Resume 1].

Definition demo_world : dworld := play demo_moves demo_start.

Lemma demo_world_ok : demo_attainable demo_world.
Proof. apply play_ok, demo_start_ok. Qed.

Definition demo_log : list (lentry jsstring bytes) := log (st demo_world).

Lemma demo_log_read : log (st demo_world) = take 5 demo_log ++ LRead (js "k") [7] :: drop 6 demo_log.
Proof. vm_compute. reflexivity. Qed.

Lemma demo_log_send : log (st demo_world) = take 6 demo_log ++ LSend (L2SetEncoded (js "k") [7]) :: [].
Proof. vm_compute. reflexivity. Qed.



(** The deletion's guard. *)
Definition demo_deleter : hguard (K := jsstring) :=
  {| hg := {| g_key := js "k"; g_state := 0; g_revision := 1; g_epoch := 0 |}; storageKey := js "k"; issue := 0 |}.

Definition demo_between : list (lentry jsstring bytes) := take 3 (drop 2 demo_log).

Lemma demo_log_deletion :
  log (st demo_world) =
  [] ++ LObserve demo_deleter true :: [] ++ LDelete (js "k") :: demo_between ++ LRead (js "k") [7] :: drop 6 demo_log.
Proof. vm_compute. reflexivity. Qed.


(** With versioning and keys that are strings, a storage key belongs to one key:
    the generation is what follows the last letter [v]. *)
Lemma dec_fuel_no_v n z : Forall (λ c, c ≠ 118) (dec_fuel n z).
Proof.
  revert z. induction n as [|n IH]; intros z; simpl.
  - constructor; [|constructor]. pose proof (Z.mod_pos_bound z 10). lia.
  - case_match eqn:E; bools; [constructor; [lia|constructor]|]. apply Forall_app. split; [apply IH|].
    constructor; [|constructor]. pose proof (Z.mod_pos_bound z 10). lia.
Qed.

Lemma after_last {A} (x : A) (a b u v : list A) :
  Forall (λ c, c ≠ x) u → Forall (λ c, c ≠ x) v → a ++ x :: u = b ++ x :: v → a = b.
Proof.
  intros Hu Hv E. destruct (two_splits _ _ _ _ _ _ E) as [(l & _ & ->)|[(-> & _)|(l & _ & ->)]]; [|done|];
    [apply Forall_app in Hu as [_ H]|apply Forall_app in Hv as [_ H]]; by apply Forall_cons in H as [? _].
Qed.

Lemma versioned_storage_key n (key : jsstring) : storage_key_of id true id (toStorageKey id true id n key) key.
Proof.
  intros n' k. unfold toStorageKey. change (js "::v") with (js "::" ++ [118]). rewrite !app_assoc, <-!(app_assoc _ [118]). cbn [app].
  intros E%after_last; [|apply dec_fuel_no_v..]. by apply app_inv_tail in E.
Qed.

(** The write alone, to its end. *)
Definition idle_world : dworld := play [StartSet (js "k") [7]; Resume 0; Resume 0; Resume 0] demo_start.

Lemma idle_world_ok : demo_attainable idle_world.
Proof. apply play_ok, demo_start_ok. Qed.

Lemma idle_world_tasks : tasks idle_world = [Ret tt].
Proof. vm_compute. reflexivity. Qed.

Lemma idle_keeps_nothing_witness : keyRevisionBytes (now (hist (st idle_world))) = 0.
Proof.
  refine (proj2 (idle_keeps_nothing id false id 0 ltac:(lia) demo_config idle_world idle_world_ok _)).
  rewrite idle_world_tasks. by repeat constructor.
Defined.

(** With versioning, a pattern is matched against the versioned storage keys:
    one that names a key, or ends in a literal, finds nothing. *)
Lemma pattern_misses_versioned :
  matchesPattern (toStorageKey id true id 0 (js "user:1")) (js "user:1") = false ∧
  matchesPattern (toStorageKey id true id 0 (js "user:1")) (js "*:1") = false ∧
  matchesPattern (js "user:1") (js "user:1") = true.
Proof. split_and!; vm_compute; reflexivity. Qed.
