(* ===== verification/LockWait.v ===== *)
(** * Waiting for the distributed lock ends ([src/src/cache/hybridCache.ts],
      lines 1016 to 1103)

    The polling loop of [loadWithDistributedLockInternal] runs on fuel in
    [HybridCache.v]. Here its programs run against a clock: time passes between
    effects, a reading of the deadline is a reading of that clock, and a sleep
    that is not aborted lasts what the source asks of the timer. A loop given
    one turn per poll interval of the wait timeout never runs out. *)

From S2P Require Import Prelude Ledger MemoryBudget KeyGuard HybridCache.

Section wait.
Context {K V Opts : Type} (c : config (K := K) (V := V) (Opts := Opts)).
Abbreviation pr := (prog (K := K) (V := V)).

(** The answers the clock allows between the times [t] and [t']. *)
Definition timed {X} (e : eff (K := K) (V := V) X) (t t' : Z) : X → Prop :=
  match e in eff X return X → Prop with
  | EExpired deadline => λ b, t <= t' ∧ b = bool_decide (deadline <= t')
  | ESleep pollMs deadline => λ aborted, t <= t' ∧ (aborted = false → Z.min (t + pollMs) deadline <= t')
  | _ => λ _, t <= t'
  end.

(** The only answer that never comes. *)
Definition blocks {X} (e : eff (K := K) (V := V) X) : bool := match e with EForever => true | _ => false end.

(** Started at [t], [p] always returns or throws, and then [Q] or [R] holds. *)
Fixpoint lasts {A} (p : pr A) (t : Z) (Q : A → Z → Prop) (R : cache_error → Z → Prop) : Prop :=
  match p with
  | Ret a => Q a t
  | Raise e => R e t
  | Vis e k => blocks e = false ∧ ∀ x t', timed e t t' x → lasts (k x) t' Q R
  end.

(** It returns or throws, whenever it starts. *)
Definition ends {A} (p : pr A) : Prop :=
  ∀ t (Q : A → Z → Prop) (R : cache_error → Z → Prop),
    (∀ a t', t <= t' → Q a t') → (∀ e t', t <= t' → R e t') → lasts p t Q R.

Lemma timed_later {X} (e : eff X) t t' x : timed e t t' x → t <= t'.
Proof. destruct e; simpl; tauto. Qed.

(** ** Combinators *)

Lemma lasts_mono {A} (p : pr A) t Q R Q' R' :
  (∀ a t', t <= t' → Q a t' → Q' a t') → (∀ e t', t <= t' → R e t' → R' e t') → lasts p t Q R → lasts p t Q' R'.
Proof.
  revert t. induction p as [a|e|X e k IH]; intros t HQ HR; simpl; [apply HQ; lia|apply HR; lia|].
  intros [Hb Hk]. split; [done|]. intros x t' Ht. pose proof (timed_later _ _ _ _ Ht).
  apply IH; [intros; apply HQ; [lia|done]|intros; apply HR; [lia|done]|by apply Hk].
Qed.

Lemma lasts_bind {A B} (m : pr A) (f : A → pr B) t Q R :
  lasts m t (λ a t', lasts (f a) t' Q R) R → lasts (bind m f) t Q R.
Proof.
  revert t. induction m as [a|e|X e k IH]; intros t; simpl; [done|done|].
  intros [Hb Hk]. split; [done|]. intros x t' Ht. by apply IH, Hk.
Qed.

Lemma lasts_catch {A} (m : pr A) (f : cache_error → pr A) t Q R :
  lasts m t Q (λ e t', lasts (f e) t' Q R) → lasts (catch m f) t Q R.
Proof.
  revert t. induction m as [a|e|X e k IH]; intros t; simpl; [done|done|].
  intros [Hb Hk]. split; [done|]. intros x t' Ht. by apply IH, Hk.
Qed.

Lemma lasts_finally {A} (m : pr A) (cleanup : pr unit) t Q R :
  lasts m t (λ a t', lasts cleanup t' (λ _, Q a) R) (λ e t', lasts cleanup t' (λ _, R e) R) →
  lasts (finally m cleanup) t Q R.
Proof.
  revert t. induction m as [a|e|X e k IH]; intros t; [apply (lasts_bind cleanup (λ _, Ret a))|apply (lasts_bind cleanup (λ _, Raise e))|].
  intros [Hb Hk]. split; [done|]. intros x t' Ht. by apply IH, Hk.
Qed.

Lemma ends_lasts {A} (p : pr A) t (Q : A → Z → Prop) (R : cache_error → Z → Prop) :
  ends p → (∀ a t', t <= t' → Q a t') → (∀ e t', t <= t' → R e t') → lasts p t Q R.
Proof. intros Hp. apply Hp. Qed.

Lemma ends_ret {A} (a : A) : ends (Ret a).
Proof. intros t Q R HQ HR. apply HQ. lia. Qed.

Lemma ends_raise {A} e : ends (Raise e : pr A).
Proof. intros t Q R HQ HR. apply HR. lia. Qed.

Lemma ends_perform {X} (e : eff X) : blocks e = false → ends (perform e).
Proof. intros Hb t Q R HQ HR. split; [done|]. intros x t' Ht. apply HQ. by eapply timed_later. Qed.

Lemma ends_bind {A B} (m : pr A) (f : A → pr B) : ends m → (∀ a, ends (f a)) → ends (bind m f).
Proof.
  intros Hm Hf t Q R HQ HR. apply lasts_bind, Hm; [|done]. intros a t' Ht.
  apply Hf; intros; [apply HQ|apply HR]; lia.
Qed.

Lemma ends_catch {A} (m : pr A) (f : cache_error → pr A) : ends m → (∀ e, ends (f e)) → ends (catch m f).
Proof.
  intros Hm Hf t Q R HQ HR. apply lasts_catch, Hm; [done|]. intros e t' Ht.
  apply Hf; intros; [apply HQ|apply HR]; lia.
Qed.

Lemma ends_finally {A} (m : pr A) (cleanup : pr unit) : ends m → ends cleanup → ends (finally m cleanup).
Proof.
  intros Hm Hc t Q R HQ HR. apply lasts_finally, Hm; intros r t' Ht; apply Hc; intros; try apply HQ; try apply HR; lia.
Qed.
End wait.

(** ** Everything but the loop *)

Create HintDb ends.
Ltac end_step :=
  match goal with
  | |- ∀ _, _ => intro
  | |- ends (Ret _) => apply ends_ret
  | |- ends (Raise _) => apply ends_raise
  | |- ends (match ?x with _ => _ end) => destruct x
  | |- ends (let '(_, _) := ?x in _) => destruct x
  | |- ends (runL2 _ _ _) => unfold runL2
  | |- ends (bind _ _) => apply ends_bind
  | |- ends (catch _ _) => apply ends_catch
  | |- ends (finally _ _) => apply ends_finally
  | |- ends (perform _) => apply ends_perform; reflexivity
  end.
Ltac ending := repeat first [progress auto 2 with ends nocore | end_step].

Section operations.
Context {K V Opts : Type} (c : config (K := K) (V := V) (Opts := Opts)).
Abbreviation pr := (prog (K := K) (V := V)).

Lemma ends_ensureOpen : ends (ensureOpen : pr unit).
Proof. unfold ensureOpen. ending. Qed.
Lemma ends_throwIfAborted : ends (throwIfAborted : pr unit).
Proof. unfold throwIfAborted. ending. Qed.
Lemma ends_assertOwned b : ends (assertOwned b : pr unit).
Proof. unfold assertOwned. ending. Qed.
Lemma ends_l2 call : ends (l2 call : pr l2_answer).
Proof. unfold l2. ending. Qed.
Lemma ends_still g : ends (still g : pr bool).
Proof. unfold still. ending. Qed.
#[local] Hint Resolve ends_ensureOpen ends_throwIfAborted ends_assertOwned ends_l2 ends_still : ends.

Lemma ends_l2_unit call : ends (l2_unit call : pr unit).
Proof. unfold l2_unit. ending. Qed.
Lemma ends_read_l2 k : ends (read_l2 c k).
Proof. unfold read_l2. ending. Qed.
Lemma ends_store_l1 k v b t : ends (store_l1 c k v b t : pr unit).
Proof. unfold store_l1. ending. Qed.
Lemma ends_discard : ends (discardObsoleteL1 : pr unit).
Proof. unfold discardObsoleteL1. ending. Qed.
Lemma ends_promoteToL1 k sk v o r b : ends (promoteToL1 c k sk v o r b).
Proof. unfold promoteToL1. cbv zeta. ending. Qed.
Lemma ends_read_l1 k g : ends (read_l1 c k g).
Proof. unfold read_l1. ending. Qed.
#[local] Hint Resolve ends_l2_unit ends_read_l2 ends_store_l1 ends_discard ends_promoteToL1 ends_read_l1 : ends.

Lemma ends_writeValue k v o g : ends (writeValue c k v o g).
Proof. unfold writeValue. cbv zeta. ending. Qed.
Lemma ends_readValue k g : ends (readValue c k g).
Proof. unfold readValue. cbv zeta. ending. Qed.
#[local] Hint Resolve ends_writeValue ends_readValue : ends.

Lemma ends_cache_get k : ends (cache_get c k).
Proof. unfold cache_get. ending. Qed.
Lemma ends_stale_answer k o p : ends p → ends (stale_answer c k o p).
Proof. intros Hp. unfold stale_answer. ending; done. Qed.
Lemma ends_publishInvalidation e : ends (publishInvalidation c e).
Proof. unfold publishInvalidation. ending. Qed.
#[local] Hint Resolve ends_cache_get ends_stale_answer ends_publishInvalidation : ends.

Lemma ends_obtain k o b : ends (obtain c k o b).
Proof. unfold obtain. ending. Qed.
Lemma ends_publish_atomic k v o g token : ends (publish_atomic c k v o g token).
Proof. unfold publish_atomic. cbv zeta. ending. Qed.
#[local] Hint Resolve ends_obtain ends_publish_atomic : ends.

Lemma ends_loadAndStore k o g b lease : ends (loadAndStore c k o g b lease).
Proof. unfold loadAndStore. cbv zeta. ending; apply ends_stale_answer; ending. Qed.
#[local] Hint Resolve ends_loadAndStore : ends.

(** ** The loop *)

Abbreviation Done := (λ _ _, True).

Lemma lasts_ends {A} (p : pr A) t : ends p → lasts p t Done Done.
Proof. intros Hp. by apply Hp. Qed.

(** One turn: it ends, or the next begins before the deadline and at least one
    poll interval later. *)
Lemma lock_loop_lasts n key options g token waitUntil contended t :
  (0 < n)%nat → waitUntil < t + Z.of_nat n * lock_pollMs c options →
  lasts (lock_loop c n key options g token waitUntil contended) t Done Done.
Proof.
  revert t contended. induction n as [|n IH]; intros t contended Hn Ht; [lia|].
  rewrite Nat2Z.inj_succ, Z.mul_succ_l in Ht. cbn [lock_loop].
  apply lasts_bind, ends_lasts; [ending| |done]. intros _ t1 Ht1.
  apply lasts_bind, ends_lasts; [ending| |done]. intros _ t2 Ht2.
  apply lasts_bind, ends_lasts; [ending| |done]. intros acquired t3 Ht3.
  assert (Hturn : ∀ b, lasts (if b : bool then loadAndStore c key options g (negb (l2Atomic c)) None
    else bind (perform (EExpired waitUntil)) (λ expired, bind (if expired then Ret false else perform (ESleep (lock_pollMs c options) waitUntil)) (λ aborted,
      if aborted then Raise AbortError else
      bind (cache_get c key) (λ cached,
      bind (match cached with Some _ => Ret false | None => perform (EHasNegative key) end) (λ negative,
      if bool_decide (is_Some cached) || negative then Ret cached
      else bind (perform (EExpired waitUntil)) (λ expired,
        if expired then
          if on_timeout_load c options then loadAndStore c key options g (negb (l2Atomic c)) None
          else stale_answer c key options (Raise DistributedLockTimeoutError)
        else lock_loop c n key options g token waitUntil true)))))) t3 Done Done).
  { intros []; [apply lasts_ends; ending|].
    split; [done|]. intros expired t4 [Ht4 ->]. cbn [bind]. apply lasts_bind.
    assert (Hsleep : lasts (if bool_decide (waitUntil <= t4) then Ret false else perform (ESleep (lock_pollMs c options) waitUntil) : pr bool) t4
      (λ aborted t5, aborted = false → Z.min (t4 + lock_pollMs c options) waitUntil <= t5 ∧ t4 <= t5) Done).
    { case_bool_decide as Hx; [simpl; lia|]. split; [done|]. intros aborted t5 [Hs Hs'] Ha. split; [by apply Hs'|done]. }
    eapply lasts_mono; [|done|exact Hsleep]. clear Hsleep. intros [] t5 Ht5 Hs; [done|]. destruct (Hs eq_refl) as [Hs1 Hs2].
    apply lasts_bind, ends_lasts; [ending| |done]. intros cached t6 Ht6.
    apply lasts_bind, ends_lasts; [ending| |done]. intros negative t7 Ht7.
    destruct (_ || _); [done|]. split; [done|]. intros expired t8 [Ht8 ->]. cbn [bind].
    case_bool_decide as Hx; [apply lasts_ends; ending; apply ends_stale_answer; ending|].
    apply IH; [destruct n; simpl in *; lia|lia]. }
  destruct acquired as [[]|].
  - apply lasts_ends. ending.
  - specialize (Hturn false). rewrite bool_decide_eq_false_2 by done. exact Hturn.
  - specialize (Hturn (negb contended)). rewrite bool_decide_eq_true_2 by done. exact Hturn.
Qed.
End operations.

(** C26: a load that waits for the distributed lock ends: given one turn per poll
    interval of its wait timeout, it returns or throws whatever is answered by
    the clock, the stores, the loader and the bus, as long as the awaited
    answers come; the fuel never runs out. *)
Theorem lock_wait_ends {K V Opts : Type} (c : config (K := K) (V := V) (Opts := Opts))
    (waitTimeoutMs t : Z) (n : nat) key options g token :
  0 <= waitTimeoutMs → waitTimeoutMs < Z.of_nat n * lock_pollMs c options →
  lasts (loadWithDistributedLockInternal c n key options g token (t + waitTimeoutMs)) t (λ _ _, True) (λ _ _, True).
Proof.
  intros Hw Hn. unfold loadWithDistributedLockInternal.
  destruct (_ || _); [apply lasts_ends, ends_loadAndStore|]. destruct (negb _); [done|].
  apply lock_loop_lasts; [|lia]. destruct n; simpl in *; lia.
Qed.

(** A shared store with locks that is never acquired in time: 40 polls of 50 ms
    are enough turns for a wait of 1999 ms. *)
Definition locking_config : config (K := jsstring) (V := bytes) (Opts := unit) :=
  {| hasL1 := true; hasL2 := true; l2Encoded := true; l2Locks := true; l2Atomic := true; hasBus := false;
     self := tt; valid_options := λ _, true; sameLayerCodecPolicy := λ _, true;
     encodeL1 := λ _ v, Some v; encodeL2 := λ _ v, Some v; decode := λ b, Some b;
     l1Ttl := λ _, 1000; with_ttl := λ _ o, o; key_bytes := utf8_length;
     inflight_off := λ _, true; origin_on := λ _, false; lock_on := λ _, true; failSafe_on := λ _, false;
     lock_options_ok := λ _, true; on_timeout_load := λ _, false; lock_pollMs := λ _, 50; broadcast := λ _ _, false;
     del_event := λ k n, DeleteEvent [(k, None)] n; set_event := λ k v n, SetEvent [(k, None)] v None n;
     key_of_event := λ k _, k; numeric_alias := λ _, None |}.

Definition waiting_guard : hguard (K := jsstring) :=
  {| hg := (observeKey id (js "k") false (now (initial (None : option MemoryBudget)))).2; storageKey := js "k"; issue := 0 |}.

Lemma lock_wait_ends_witness :
  lasts (loadWithDistributedLockInternal locking_config 40 (js "k") tt waiting_guard (js "t") (10 + 1999)) 10
    (λ _ _, True) (λ _ _, True).
Proof. apply (lock_wait_ends locking_config 1999 10 40); simpl; lia. Defined.
