(* ===== verification/DistributedLock.v ===== *)
(** * The distributed lock of a load ([src/src/cache/distributedLock.ts])

    [maintainLock] keeps a lease for the loader that acquired it: a local
    deadline on the monotonic clock, one expiry timer, and renewals one at a
    time, each of which moves the deadline only when its acknowledgement arrives
    before it. The lease is a state machine over its timers, acknowledgements
    and calls; times are readings of the clock in milliseconds. The last section
    runs it against the server of [RedisLease.v]. *)

From S2P Require Import Prelude JsValue Uri RedisKeys RedisServer RedisLease.

Section lease.
(** The [ttlMs] of the lease, and whether the store can renew. *)
Context (ttlMs : Z) (renewable : bool).

Record lease := {
  deadline : Z;
  stopped : bool;
  (** [error], the reason of the abort and of [lost] *)
  error : bool;
  (** the controller is aborted *)
  aborted : bool;
  expiryTimer : option Z;
  renewalTimer : option Z;
  (** [startedAt] of the renewal in flight *)
  renewing : option Z }.

Definition with_timers (e r : option Z) (s : lease) : lease :=
  {| deadline := deadline s; stopped := stopped s; error := error s; aborted := aborted s;
     expiryTimer := e; renewalTimer := r; renewing := renewing s |}.

Definition with_renewing (r : option Z) (s : lease) : lease :=
  {| deadline := deadline s; stopped := stopped s; error := error s; aborted := aborted s;
     expiryTimer := expiryTimer s; renewalTimer := renewalTimer s; renewing := r |}.

Definition with_deadline (d : Z) (s : lease) : lease :=
  {| deadline := d; stopped := stopped s; error := error s; aborted := aborted s;
     expiryTimer := expiryTimer s; renewalTimer := renewalTimer s; renewing := renewing s |}.

Definition stop (s : lease) : lease :=
  {| deadline := deadline s; stopped := true; error := error s; aborted := aborted s;
     expiryTimer := None; renewalTimer := None; renewing := renewing s |}.

Definition lose (s : lease) : lease :=
  if stopped s then s
  else let s := stop s in
       {| deadline := deadline s; stopped := stopped s; error := true; aborted := true;
          expiryTimer := expiryTimer s; renewalTimer := renewalTimer s; renewing := renewing s |}.

(** [false] is a throw. *)
Definition assertOwned (now : Z) (s : lease) : lease * bool :=
  let s := if negb (stopped s) && (deadline s <=? now) then lose s else s in
  (s, negb (error s)).

(** Delays are whole milliseconds: [setTimeout] drops the fraction. *)
Definition schedule (now : Z) (s : lease) : lease :=
  with_timers (Some (now + Z.max 0 (deadline s - now)))
    (if renewable then Some (now + Z.max 1 (Z.min (ttlMs / 3) ((deadline s - now) / 3))) else None) s.

(** [elapsed] is [Date.now() - acquiredAt]. *)
Definition maintainLock (now elapsed : Z) : lease :=
  schedule now
    {| deadline := now + Z.max 0 (ttlMs - Z.max 0 elapsed); stopped := false; error := false; aborted := false;
       expiryTimer := None; renewalTimer := None; renewing := None |}.

(** The renewal timer fires: the call is made unless ownership is already lost. *)
Definition on_renewal_timer (now : Z) (s : lease) : lease :=
  let '(s, ok) := assertOwned now (with_timers (expiryTimer s) None s) in
  if ok then with_renewing (Some now) s else lose s.

(** The call is answered; [None] is a rejection. *)
Definition on_renewed (now : Z) (r : option bool) (s : lease) : lease :=
  match renewing s with
  | None => s
  | Some startedAt =>
      let s := with_renewing None s in
      match r with
      | None => lose s
      | Some renewed =>
          if stopped s then s
          else
            let '(s, ok) := assertOwned now s in
            if negb ok then lose s
            else if negb renewed then lose s
            else schedule now (with_deadline (startedAt + ttlMs) s)
      end
  end.

(** The caller's signal aborts; closing the cache also stops the renewals. *)
Definition abortLease (closed : bool) (s : lease) : lease :=
  let s := if closed then stop s else s in
  {| deadline := deadline s; stopped := stopped s; error := error s; aborted := true;
     expiryTimer := expiryTimer s; renewalTimer := renewalTimer s; renewing := renewing s |}.

Inductive lease_event :=
| AssertOwned
| Stop
| ExpiryFires
| RenewalFires
| Renewed (r : option bool)
| CallerAborts (closed : bool).

(** A timer that is not armed does not fire. *)
Definition lease_step (now : Z) (e : lease_event) (s : lease) : lease :=
  match e with
  | AssertOwned => (assertOwned now s).1
  | Stop => stop s
  | ExpiryFires => match expiryTimer s with Some at_ => if at_ <=? now then lose (with_timers None (renewalTimer s) s) else s | None => s end
  | RenewalFires => match renewalTimer s with Some at_ => if at_ <=? now then on_renewal_timer now s else s | None => s end
  | Renewed r => on_renewed now r s
  | CallerAborts closed => abortLease closed s
  end.

Inductive lease_reachable : lease → Z → Prop :=
| lr_start now elapsed : lease_reachable (maintainLock now elapsed) now
| lr_step s t now e : lease_reachable s t → t <= now → lease_reachable (lease_step now e s) now.

(** ** The state machine *)

Record lease_inv (s : lease) (t : Z) : Prop := {
  li_error : error s = true → stopped s = true ∧ aborted s = true;
  li_timers : stopped s = true → expiryTimer s = None ∧ renewalTimer s = None;
  li_expiry : stopped s = false → ∃ e, expiryTimer s = Some e ∧ deadline s <= e <= Z.max t (deadline s);
  li_serial : stopped s = false → renewable = true → (renewing s = None ↔ is_Some (renewalTimer s));
  li_never : renewable = false → renewing s = None ∧ renewalTimer s = None }.

Lemma lose_inv s t : lease_inv s t → lease_inv (lose s) t.
Proof. intros Hi. unfold lose. destruct (stopped s) eqn:E; [done|]. split; simpl; try done. intros Hr. by destruct (li_never _ _ Hi Hr). Qed.

Lemma lock_lose_stopped s : stopped (lose s) = true.
Proof. unfold lose. by destruct (stopped s) eqn:E. Qed.

Lemma later_inv s t t' : t <= t' → lease_inv s t → lease_inv s t'.
Proof.
  intros Ht Hi. split; try apply Hi. intros Hs. destruct (li_expiry _ _ Hi Hs) as (e & He & Hb).
  exists e. split; [done|lia].
Qed.

Lemma assertOwned_inv now s t : lease_inv s t → lease_inv (assertOwned now s).1 t.
Proof. intros Hi. unfold assertOwned. destruct (_ && _); [by apply lose_inv|done]. Qed.

(** What a passed check tells. *)
Lemma assertOwned_true now s s' : assertOwned now s = (s', true) →
  s' = s ∧ error s = false ∧ (stopped s = true ∨ now < deadline s).
Proof.
  unfold assertOwned. destruct (negb (stopped s) && _) eqn:E.
  - unfold lose. apply andb_true_iff in E as [E _]. apply negb_true_iff in E. rewrite E. by intros [= <-].
  - intros [= <- He]. apply negb_true_iff in He. split_and!; try done.
    apply andb_false_iff in E as [E|E]; bools; [left|right; lia]. done.
Qed.

Lemma schedule_inv now s :
  stopped s = false → error s = false → renewing s = None → lease_inv (schedule now s) now.
Proof.
  intros Hs He Hr. split; simpl; try congruence.
  - intros _. eexists. split; [done|]. lia.
  - intros _ ->. rewrite Hr. by split.
  - intros ->. by rewrite Hr.
Qed.

Lemma renewal_timer_inv now s t :
  t <= now → renewalTimer s ≠ None → lease_inv s t → lease_inv (on_renewal_timer now s) now.
Proof.
  intros Ht Ha Hi. apply (later_inv _ _ now) in Hi; [|done]. unfold on_renewal_timer.
  destruct (assertOwned now _) as [s' ok] eqn:E. destruct ok.
  - apply assertOwned_true in E as (-> & He & Hd). simpl in *. split; simpl; try apply Hi.
    + intros Hs. by destruct (li_timers _ _ Hi Hs) as [-> _].
    + intros Hs Hr. split; [done|by intros [? ?]].
    + intros Hr. destruct (li_never _ _ Hi Hr) as [_ Hn]. congruence.
  - assert (Hst : stopped s' = true).
    { unfold assertOwned in E. injection E as <- E. apply negb_false_iff in E.
      destruct (_ && _); [by apply lock_lose_stopped|]. simpl in *. by apply (li_error _ _ Hi). }
    unfold lose. rewrite Hst. unfold assertOwned in E. injection E as <- E. simpl in *.
    destruct (_ && _) eqn:Eb.
    + unfold lose in *. simpl in *. destruct (stopped s) eqn:Es; [done|]. split; simpl; try done.
      intros Hr. by destruct (li_never _ _ Hi Hr).
    + split; simpl; try apply Hi; simpl in Hst; try congruence.
      * intros _. by destruct (li_timers _ _ Hi Hst) as [-> _].
      * intros Hr. by destruct (li_never _ _ Hi Hr).
Qed.

Lemma renewed_inv now r s t : t <= now → lease_inv s t → lease_inv (on_renewed now r s) now.
Proof.
  intros Ht Hi. apply (later_inv _ _ now) in Hi; [|done]. unfold on_renewed.
  destruct (renewing s) as [st|] eqn:Er; [|done].
  assert (Hlose : lease_inv (lose (with_renewing None s)) now).
  { unfold lose. simpl. destruct (stopped s) eqn:Es; split; simpl; try apply Hi; try done; try congruence.
    all: intros Hr; by destruct (li_never _ _ Hi Hr). }
  destruct r as [renewed|]; [|done]. change (stopped (with_renewing None s)) with (stopped s).
  destruct (stopped s) eqn:Es.
  { unfold lose in Hlose. simpl in Hlose. by rewrite Es in Hlose. }
  destruct (assertOwned now (with_renewing None s)) as [s' ok] eqn:E. destruct ok; simpl.
  - apply assertOwned_true in E as (-> & He & _). destruct renewed; simpl; [|done]. by apply schedule_inv.
  - unfold assertOwned in E. injection E as <- E. simpl in *. rewrite Es in *. simpl in *.
    destruct (_ <=? _) eqn:Ed.
    + unfold lose in *. simpl in *. rewrite Es in *. done.
    + apply negb_false_iff in E. simpl in E. destruct (li_error _ _ Hi E). congruence.
Qed.

Lemma lease_step_inv now e s t : t <= now → lease_inv s t → lease_inv (lease_step now e s) now.
Proof.
  intros Ht Hi. pose proof (later_inv _ _ _ Ht Hi) as Hi'. destruct e as [| | | |r|closed]; simpl.
  - by apply assertOwned_inv.
  - split; simpl; try apply Hi'; try done.
    + intros He. by destruct (li_error _ _ Hi' He).
    + intros Hr. by destruct (li_never _ _ Hi Hr).
  - destruct (expiryTimer s) as [a|] eqn:E; [|done]. destruct (_ <=? _); [|done].
    assert (Hs : stopped s = false).
    { destruct (stopped s) eqn:Es; [|done]. destruct (li_timers _ _ Hi Es). congruence. }
    unfold lose. simpl. rewrite Hs. split; simpl; try done. intros Hr. by destruct (li_never _ _ Hi Hr).
  - destruct (renewalTimer s) as [a|] eqn:E; [|done]. destruct (_ <=? _); [|done].
    by apply (renewal_timer_inv _ _ t); [|congruence|].
  - by apply (renewed_inv _ _ _ t).
  - destruct closed; split; simpl; try apply Hi'; try done.
    all: intros Hx; first [by destruct (li_error _ _ Hi' Hx) | by destruct (li_never _ _ Hi Hx)].
Qed.

Lemma lease_reachable_inv s t : lease_reachable s t → lease_inv s t.
Proof. induction 1; [by apply schedule_inv|by eapply lease_step_inv]. Qed.

Lemma lost_stays now e s t : lease_inv s t → error s = true → error (lease_step now e s) = true.
Proof.
  intros Hi He. destruct (li_error _ _ Hi He) as [Hs _]. destruct (li_timers _ _ Hi Hs) as [Ht Hr].
  destruct e as [| | | |r|closed]; simpl; rewrite ?Ht, ?Hr; try done.
  - unfold assertOwned. rewrite Hs. done.
  - unfold on_renewed. destruct (renewing s); [|done]. destruct r; simpl; unfold lose; simpl; by rewrite Hs.
  - by destruct closed.
Qed.

(** The events after a state. *)
Inductive lease_after (s0 : lease) (t0 : Z) : lease → Z → Prop :=
| la_here : lease_after s0 t0 s0 t0
| la_step s t now e : lease_after s0 t0 s t → t <= now → lease_after s0 t0 (lease_step now e s) now.

Lemma after_reachable s0 t0 s t : lease_reachable s0 t0 → lease_after s0 t0 s t → lease_reachable s t.
Proof. intros H0. induction 1; [done|by eapply lr_step]. Qed.

Lemma lost_after s0 t0 s t : lease_reachable s0 t0 → lease_after s0 t0 s t → error s0 = true → error s = true.
Proof.
  intros H0 Ha He. induction Ha as [|s t now e Ha IH Hn]; [done|].
  apply (lost_stays now e s t); [apply lease_reachable_inv; by eapply after_reachable|done].
Qed.

(** C29: in every state the lease can reach, while it is not stopped its expiry
    timer is armed for the deadline (or for the moment it was set, when that is
    later), and exactly one of a renewal timer and a renewal in flight exists; a
    check that passes has been made before the deadline, or after the holder
    stopped the lease itself; and a lost lease is never owned again, whatever
    acknowledgement still arrives. *)
Theorem lease_enforced s t :
  lease_reachable s t →
  (stopped s = false → (∃ e, expiryTimer s = Some e ∧ deadline s <= e <= Z.max t (deadline s)) ∧
     (renewable = true → (renewing s = None ↔ is_Some (renewalTimer s)))) ∧
  (∀ now, t <= now → (assertOwned now s).2 = true → now < deadline s ∨ (stopped s = true ∧ error s = false)) ∧
  (error s = true → aborted s = true ∧ ∀ s' t' now, lease_after s t s' t' → (assertOwned now s').2 = false).
Proof.
  intros Hr. pose proof (lease_reachable_inv _ _ Hr) as Hi. split_and!.
  - intros Hs. split; [by apply Hi|]. intros Hn. by apply (li_serial _ _ Hi).
  - intros now Hn Ha. destruct (assertOwned now s) as [s' ok] eqn:E. simpl in Ha. subst ok.
    apply assertOwned_true in E as (_ & He & [Hs|Hd]); [by right|by left].
  - intros He. split; [by apply (li_error _ _ Hi)|]. intros s' t' now Ha.
    assert (He' : error s' = true) by by eapply lost_after.
    assert (Hs' : stopped s' = true).
    { apply (li_error s' t'); [|done]. apply lease_reachable_inv. by eapply after_reachable. }
    unfold assertOwned. rewrite Hs'. simpl. by rewrite He'.
Qed.
End lease.

(** ** Against the server

    Local times and the server's times of execution are readings of one clock.
    [holding x0 post s t]: the lease was granted at the server at [x0], [post]
    is what the server has executed since, and [s] is the holder's lease at [t].
    The measured [elapsed] is at least the time since the grant, an acknowledged
    renewal was executed after it was asked for, and only this holder renews
    under its token. *)

Section joint.
Context (ttlMs : Z) (renewable : bool) (lock token : bytes).

Abbreviation event := (Z * command * reply)%type.
Abbreviation granted := (λ x, (x, CScript (RenewLock lock token ttlMs), Ok (IntReply 1)) : event).

Inductive holding (x0 : Z) : list event → lease → Z → Prop :=
| h_acquired post now elapsed :
    now - Z.max 0 elapsed <= x0 <= now →
    Forall (λ e : event, ∀ ttl, e.1.2 ≠ CScript (RenewLock lock token ttl)) post →
    holding x0 post (maintainLock ttlMs renewable now elapsed) now
| h_server post s t x c r :
    holding x0 post s t → t <= x → (∀ ttl, c = CScript (RenewLock lock token ttl) → ttl = ttlMs) →
    holding x0 (post ++ [(x, c, r)]) s x
| h_local post s t now e :
    holding x0 post s t → t <= now →
    (e = Renewed (Some true) → ∀ st, renewing s = Some st → ∃ x, st <= x ∧ granted x ∈ post) →
    holding x0 post (lease_step ttlMs renewable now e s) now.

Lemma lose_deadline s : deadline (lose s) = deadline s.
Proof. unfold lose. by destruct (stopped s). Qed.

(** Only an acknowledged renewal moves the deadline. *)
Lemma step_deadline now e s :
  stopped (lease_step ttlMs renewable now e s) = false →
  stopped s = false ∧
  (deadline (lease_step ttlMs renewable now e s) = deadline s ∨
   ∃ st, e = Renewed (Some true) ∧ renewing s = Some st ∧ deadline (lease_step ttlMs renewable now e s) = st + ttlMs).
Proof.
  assert (Hlose : ∀ s, stopped (lose s) = false → False) by (intros s0; rewrite lock_lose_stopped; done).
  assert (Howned : ∀ s0 s1 ok, assertOwned now s0 = (s1, ok) → stopped s1 = false → s1 = s0).
  { intros s0 s1 ok. unfold assertOwned. destruct (_ && _); intros [= <- _]; [by intros ?%Hlose|done]. }
  destruct e as [| | | |r|closed]; cbn [lease_step].
  - destruct (assertOwned now s) as [s1 ok] eqn:E. cbn [fst]. intros Hs.
    pose proof (Howned _ _ _ E Hs) as ->. split; [done|by left].
  - done.
  - destruct (expiryTimer s) as [a|]; [|by intros Hs; split; [|left]]. destruct (_ <=? _); [by intros ?%Hlose|].
    intros Hs. split; [done|by left].
  - destruct (renewalTimer s) as [a|]; [|by intros Hs; split; [|left]].
    destruct (_ <=? _); [|by intros Hs; split; [|left]]. unfold on_renewal_timer.
    destruct (assertOwned now _) as [s1 []] eqn:E; [|by intros ?%Hlose].
    intros Hs. pose proof (Howned _ _ _ E Hs) as ->. split; [done|by left].
  - unfold on_renewed. destruct (renewing s) as [st|] eqn:Er; [|by intros Hs; split; [|left]].
    destruct r as [renewed|]; [|by intros ?%Hlose]. change (stopped (with_renewing None s)) with (stopped s).
    destruct (stopped s) eqn:Es; [simpl; congruence|].
    destruct (assertOwned now (with_renewing None s)) as [s1 ok]. destruct ok; simpl; [|by intros ?%Hlose].
    destruct renewed; simpl; [|by intros ?%Hlose]. intros _. split; [done|]. right. by exists st.
  - destruct closed; [done|]. intros Hs. split; [done|by left].
Qed.

Lemma no_renewal_deadline d post :
  Forall (λ e : event, ∀ ttl, e.1.2 ≠ CScript (RenewLock lock token ttl)) post → lease_deadline lock token d post = d.
Proof.
  induction post as [|[[x c] r] post IH] using rev_ind; [done|]. intros [Hp Hc]%Forall_app.
  apply Forall_cons in Hc as [Hc _]. rewrite lease_deadline_snoc, IH by done.
  apply deadline_other. intros ttl ->. by destruct (Hc ttl).
Qed.

Record holding_inv (x0 : Z) (post : list event) (s : lease) (t : Z) : Prop := {
  hi_time : x0 <= t;
  hi_local : stopped s = false → deadline s <= t ∨ deadline s <= lease_deadline lock token (x0 + ttlMs) post;
  hi_server : lease_deadline lock token (x0 + ttlMs) post <= t + ttlMs;
  hi_renewed x : granted x ∈ post → x + ttlMs <= lease_deadline lock token (x0 + ttlMs) post }.

Lemma holding_ok x0 post s t : holding x0 post s t → holding_inv x0 post s t.
Proof.
  induction 1 as [post now elapsed Hx Hp|post s t x c r _ IH Hx Hc|post s t now e _ IH Hn Hack].
  - pose proof (no_renewal_deadline (x0 + ttlMs) post Hp) as Hd. split; [lia| | |]; rewrite ?Hd; simpl; [lia|lia|].
    intros x Hin. exfalso. by apply (proj1 (Forall_forall _ _) Hp _ Hin ttlMs).
  - assert (Hcase : (c = CScript (RenewLock lock token ttlMs) ∧ r = Ok (IntReply 1)) ∨
      (∀ ttl, c = CScript (RenewLock lock token ttl) → r ≠ Ok (IntReply 1))).
    { destruct (renewed_dec no_scan lock token c r) as [(ttl & -> & ->)|Hn]; [left|by right]. by rewrite (Hc ttl eq_refl). }
    destruct IH as [It Il Is Ir]. destruct Hcase as [[-> ->]|Hn].
    + assert (Hd : lease_deadline lock token (x0 + ttlMs) (post ++ [granted x]) = x + ttlMs)
        by (rewrite lease_deadline_snoc; apply deadline_renewed).
      split; rewrite ?Hd; [lia| |lia|].
      * intros Hs. specialize (Il Hs). lia.
      * intros y [Hin|Hin]%elem_of_app; [specialize (Ir y Hin); lia|]. apply list_elem_of_singleton in Hin. injection Hin as ->. lia.
    + assert (Hd : lease_deadline lock token (x0 + ttlMs) (post ++ [(x, c, r)]) = lease_deadline lock token (x0 + ttlMs) post)
        by (rewrite lease_deadline_snoc; by apply deadline_other).
      split; rewrite ?Hd; [lia| |lia|].
      * intros Hs. specialize (Il Hs). lia.
      * intros y [Hin|Hin]%elem_of_app; [by apply Ir|]. apply list_elem_of_singleton in Hin.
        injection Hin as <- <- <-. by destruct (Hn ttlMs).
  - destruct IH as [It Il Is Ir]. split; [lia| |lia|done]. intros Hs.
    destruct (step_deadline now e s Hs) as [Hs0 [->|(st & -> & Hr & ->)]]; [specialize (Il Hs0); lia|].
    destruct (Hack eq_refl st Hr) as (x & Hle & Hin). specialize (Ir x Hin). lia.
Qed.
End joint.

Section held.
Context {D : Type} `{Redis D} (scan : bytes → Z → D → rreply) (l : layout) (Hl : good_prefix l).

(** C9: what a holder believes, the server still grants. In any interleaving of
    the commands of the stores with the timers, acknowledgements and checks of
    one lease, when [assertOwned] passes on a lease that is not stopped, the lock
    key holds this holder's token at the server, with time left, unless a direct
    write, a deletion or a release has ended the lease since its grant. *)
Theorem owned_is_held ttlMs renewable d0 pre x0 token post th d k s s' t now :
  code_units k →
  history scan l d0 (pre ++ (x0, CSetNx (lock_key l k) token ttlMs, Ok OkReply) :: post) th d →
  holding ttlMs renewable (lock_key l k) token x0 post s t →
  Forall (λ e, fences (lock_key l k) e = false) post →
  t <= now → th <= now → assertOwned now s = (s', true) → stopped s = false →
  ∃ e, now < e ∧ observe now (lock_key l k) d = RStr token (Some e).
Proof.
  intros Hk Hh Hv Hf Ht Hth Ha Hs. apply assertOwned_true in Ha as (_ & _ & [Hs'|Hd]); [congruence|].
  apply holding_ok in Hv. destruct (hi_local _ _ _ _ _ _ _ Hv Hs) as [Hle|Hle]; [lia|].
  eexists. split; [|eapply (lease_held scan l Hl); [done|exact Hh|done|]]; lia.
Qed.
End held.

(** ** Witnesses *)

(** A lease of 100 ms, acquired in 6 and renewed at 40. *)
Definition demo_lease (n : nat) : lease :=
  let s0 := maintainLock 100 true 5 6 in
  let s1 := lease_step 100 true 40 RenewalFires s0 in
  let s2 := lease_step 100 true 60 (Renewed (Some true)) s1 in
  match n with O => s0 | 1%nat => s1 | _ => s2 end.

Definition demo_post : list (Z * command * reply) :=
  [(50, CScript (RenewLock (lock_key lv2 k1) (js "tok-1") 100), Ok (IntReply 1));
   (120, CSetNx (lock_key lv2 k1) (js "tok-2") 100, Ok NilReply)].

Lemma demo_holding : holding 100 true (lock_key lv2 k1) (js "tok-1") 0 demo_post (demo_lease 2) 120.
Proof.
  change demo_post with ((([] : list (Z * command * reply)) ++
    [(50, CScript (RenewLock (lock_key lv2 k1) (js "tok-1") 100), Ok (IntReply 1))]) ++
    [(120, CSetNx (lock_key lv2 k1) (js "tok-2") 100, Ok NilReply)]).
  apply (h_server _ _ _ _ _ _ _ 60); [|lia|done].
  change (demo_lease 2) with (lease_step 100 true 60 (Renewed (Some true)) (demo_lease 1)).
  apply (h_local _ _ _ _ _ _ _ 50); [|lia|].
  - apply (h_server _ _ _ _ _ _ _ 40); [|lia|by intros ttl [= <-]].
    change (demo_lease 1) with (lease_step 100 true 40 RenewalFires (demo_lease 0)).
    apply (h_local _ _ _ _ _ _ _ 5); [|lia|done]. apply h_acquired; [simpl; lia|done].
  - intros _ st Hst. injection Hst as <-. exists 50. split; [lia|]. by left.
Qed.

Definition demo_held_db : memory_db := (exec_all no_scan (take 3 lease_demo) ∅).2.

Lemma demo_held_events :
  (exec_all no_scan (take 3 lease_demo) ∅).1 = (0, CSetNx (lock_key lv2 k1) (js "tok-1") 100, Ok OkReply) :: demo_post.
Proof. vm_compute. reflexivity. Qed.

Lemma demo_held_history : history no_scan lv2 ∅ (exec_all no_scan (take 3 lease_demo) ∅).1 120 demo_held_db.
Proof.
  pose proof (exec_all_history no_scan lv2 ∅ [] 0 ∅ (take 3 lease_demo) (exec_all no_scan (take 3 lease_demo) ∅).1 demo_held_db) as Hh.
  apply Hh; [apply history_start| |by unfold demo_held_db; destruct (exec_all _ _ _)].
  destruct lease_demo_ordered as (T1 & S1 & T2 & S2 & T3 & S3 & _). by split_and!.
Qed.

Lemma owned_is_held_witness :
  (assertOwned 125 (demo_lease 2)).2 = true ∧ ∃ e, 125 < e ∧ observe 125 (lock_key lv2 k1) demo_held_db = RStr (js "tok-1") (Some e).
Proof.
  split; [reflexivity|].
  apply (owned_is_held no_scan lv2 lv2_good 100 true ∅ [] 0 (js "tok-1") demo_post 120 demo_held_db k1
    (demo_lease 2) (demo_lease 2) 120 125).
  - exact k1_units.
  - pose proof demo_held_history as Hh. rewrite demo_held_events in Hh. exact Hh.
  - exact demo_holding.
  - repeat constructor.
  - lia.
  - lia.
  - reflexivity.
  - reflexivity.
Defined.

(** The expiry timer fires at the deadline; an acknowledgement comes too late. *)
Definition demo_lost : lease := lease_step 100 true 99 ExpiryFires (demo_lease 1).

Lemma demo_lost_reachable : lease_reachable 100 true demo_lost 99.
Proof.
  apply (lr_step _ _ _ 40); [|lia]. change (demo_lease 1) with (lease_step 100 true 40 RenewalFires (demo_lease 0)).
  apply (lr_step _ _ _ 5); [|lia]. apply lr_start.
Qed.

Lemma lease_enforced_witness :
  error demo_lost = true ∧
  (assertOwned 101 (lease_step 100 true 100 (Renewed (Some true)) demo_lost)).2 = false.
Proof.
  split; [reflexivity|].
  destruct (lease_enforced 100 true demo_lost 99 demo_lost_reachable) as (_ & _ & Hl).
  destruct (Hl eq_refl) as [_ Hn]. apply (Hn _ 100 101). apply (la_step _ _ _ _ _ 99); [apply la_here|lia].
Defined.
