(* ===== verification/EventCodec.v ===== *)
(** * Invalidation events on the wire ([src/src/event-bus/eventCodec.ts])

    Events are written as cache records ([Serializer.v]); what arrives is a
    value of unknown type that must prove to be an event within the limits
    before any handler works on it. [Number] of a key, with its text, is an
    argument: whether [String(Number(key)) === key] for a finite number. *)

From S2P Require Import Prelude JsValue Utf8 WirePolicy MessagePackScan JsonScan Codecs Serializer.

Section codec.
Context (N : Natives) (F : Formats) (numeric_text : jsstring → bool).

Record EventDecodeOptions := { o_maxKeys : option jsnum; o_maxKeyBytes : option jsnum }.

(** ** The checks *)

Definition isRecord (v : jsval) : bool := match v with VArr _ | VBuf _ | VObj _ => true | _ => false end.

Definition string_within (limit : Z) (v : jsval) : bool :=
  match v with VStr s => utf8_length s <=? limit | _ => false end.

Definition optional (check : jsval → bool) (v : jsval) : bool :=
  match v with VUndef => true | v => check v end.

Definition type_matches (t k : jsval) : bool :=
  match t, k with
  | VStr s, VStr key => bool_decide (s = js "string") || (bool_decide (s = js "number") && numeric_text key)
  | VStr s, _ => bool_decide (s = js "string")
  | _, _ => false
  end.

Fixpoint types_match (ts ks : list jsval) : bool :=
  match ts, ks with
  | [], _ => true
  | t :: ts', k :: ks' => type_matches t k && types_match ts' ks'
  | t :: ts', [] => false
  end.

Definition isDeleteEvent (maxKeys maxKeyBytes : Z) (v : jsval) : bool :=
  match prop "keys" v with
  | VArr keys =>
      if (maxKeys <? Z.of_nat (length keys)) || negb (forallb (string_within maxKeyBytes) keys) then false
      else match prop "keyTypes" v with
           | VUndef => true
           | VArr ts => if bool_decide (length ts = length keys) then types_match ts keys else false
           | _ => false
           end
  | _ => false
  end.

Definition isPatternEvent (maxKeyBytes : Z) (v : jsval) : bool := string_within maxKeyBytes (prop "pattern" v).

Definition has_property (name : string) (v : jsval) : bool :=
  match v with VObj fs => bool_decide (is_Some (assoc (js name) fs)) | _ => false end.

Definition isSetEvent (maxKeys maxKeyBytes : Z) (v : jsval) : bool :=
  isDeleteEvent maxKeys maxKeyBytes v && has_property "value" v
  && optional (λ t, match t with VNum n => num_is_finite n && num_lt (JInt 0) n | _ => false end) (prop "ttlMs" v).

Definition isInvalidationEvent (maxKeys maxKeyBytes : Z) (v : jsval) : bool :=
  if negb (isRecord v && match prop "source" v with VStr _ => true | _ => false end
           && match prop "ts" v with VNum n => num_is_finite n | _ => false end) then false
  else if negb (optional (string_within maxKeyBytes) (prop "namespace" v)) then false
  else if negb (optional (string_within maxKeyBytes) (prop "id" v)) then false
  else if negb (string_within maxKeyBytes (prop "source" v)) then false
  else if negb (optional (λ g, match g with VNum n => num_is_safe_integer n && negb (num_lt n (JInt 0)) | _ => false end)
                 (prop "generation" v)) then false
  else match prop "type" v with
       | VStr t =>
           if bool_decide (t = js "del") then isDeleteEvent maxKeys maxKeyBytes v
           else if bool_decide (t = js "pattern") then isPatternEvent maxKeyBytes v
           else if bool_decide (t = js "set") then isSetEvent maxKeys maxKeyBytes v
           else false
       | _ => false
       end.

(** ** Encoding and decoding *)

Definition encodeInvalidationEvent (tiers : list CompressionTier) (debugJson : bool) (event : jsval) : result ser_error bytes :=
  serialize N F tiers debugJson event {| format := None; compression := None |}.

Definition event_limit (o : option jsnum) (fallback : Z) : result unit Z :=
  let n := o ?? JInt fallback in
  if negb (num_is_safe_integer n) || num_lt n (JInt 1) then Throw tt else Ok (num_floor n).

Definition MAX_TEXT_BYTES : Z := 25 * 1024 * 1024.

(** [Ok None] is [null]. *)
Definition decodeInvalidationEvent (raw : raw_value) (o : EventDecodeOptions) : result unit (option jsval) :=
  maxKeys <~ event_limit (o_maxKeys o) 4096 ;;
  maxKeyBytes <~ event_limit (o_maxKeyBytes o) (64 * 1024) ;;
  let check v := if isInvalidationEvent maxKeys maxKeyBytes v then Some v else None in
  let record b := match decodeCacheRecord N F b no_limits with Ok (Some v) => check v | _ => None end in
  Ok (match raw with
      | RString s => if MAX_TEXT_BYTES <? utf8_length s then None else record (Utf8.utf8_encode s)
      | RBytes b => record b
      | ROther v => check v
      | RNullish => None
      end).

(** ** Events *)

Record event_meta := {
  m_id : option jsstring;
  m_source : jsstring;
  m_ts : jsnum;
  m_generation : option jsnum;
  m_namespace : option jsstring }.

(** The keys with the type of each, when the sender named them: [true] is a number. *)
Record event_keys := { k_keys : list jsstring; k_types : option (list bool) }.

Inductive event_body :=
| DeleteEvent (k : event_keys)
| PatternEvent (pattern : jsstring)
| SetEvent (k : event_keys) (value : jsval) (ttlMs : option jsnum).

Definition type_text (number : bool) : jsstring := if number then js "number" else js "string".

Definition keys_of (v : jsval) (k : event_keys) : Prop :=
  prop "keys" v = VArr (VStr <$> k_keys k) ∧
  prop "keyTypes" v = from_option (λ ts, VArr ((λ t, VStr (type_text t)) <$> ts)) VUndef (k_types k).

(** The value [v] is the event. *)
Definition denotes (v : jsval) (m : event_meta) (b : event_body) : Prop :=
  isRecord v = true ∧
  prop "id" v = from_option VStr VUndef (m_id m) ∧ prop "source" v = VStr (m_source m) ∧
  prop "ts" v = VNum (m_ts m) ∧ prop "generation" v = from_option VNum VUndef (m_generation m) ∧
  prop "namespace" v = from_option VStr VUndef (m_namespace m) ∧
  match b with
  | DeleteEvent k => prop "type" v = VStr (js "del") ∧ keys_of v k
  | PatternEvent p => prop "type" v = VStr (js "pattern") ∧ prop "pattern" v = VStr p
  | SetEvent k x ttl => prop "type" v = VStr (js "set") ∧ keys_of v k ∧ prop "value" v = x ∧
      has_property "value" v = true ∧ prop "ttlMs" v = from_option VNum VUndef ttl
  end.

Definition keys_within (maxKeys maxKeyBytes : Z) (k : event_keys) : Prop :=
  Z.of_nat (length (k_keys k)) <= maxKeys ∧ Forall (λ s, utf8_length s <= maxKeyBytes) (k_keys k) ∧
  ∀ ts, k_types k = Some ts → length ts = length (k_keys k) ∧
    Forall2 (λ (t : bool) s, t = true → numeric_text s = true) ts (k_keys k).

Definition meta_within (maxKeyBytes : Z) (m : event_meta) : Prop :=
  (∀ s, m_id m = Some s → utf8_length s <= maxKeyBytes) ∧ utf8_length (m_source m) <= maxKeyBytes ∧
  (∀ s, m_namespace m = Some s → utf8_length s <= maxKeyBytes) ∧ num_is_finite (m_ts m) = true ∧
  (∀ g, m_generation m = Some g → num_is_safe_integer g = true ∧ num_lt g (JInt 0) = false).

Definition body_within (maxKeys maxKeyBytes : Z) (b : event_body) : Prop :=
  match b with
  | DeleteEvent k => keys_within maxKeys maxKeyBytes k
  | PatternEvent p => utf8_length p <= maxKeyBytes
  | SetEvent k _ ttl => keys_within maxKeys maxKeyBytes k ∧
      ∀ t, ttl = Some t → num_is_finite t = true ∧ num_lt (JInt 0) t = true
  end.

Definition event_within (maxKeys maxKeyBytes : Z) (m : event_meta) (b : event_body) : Prop :=
  meta_within maxKeyBytes m ∧ body_within maxKeys maxKeyBytes b.

(** ** The checks accept exactly the events within the limits *)

Lemma string_within_ok l x : string_within l x = true ↔ ∃ s, x = VStr s ∧ utf8_length s <= l.
Proof.
  destruct x; simpl; split; try done; try (by intros (? & [=] & _)).
  - intros H%Z.leb_le. by eexists.
  - intros (? & [= ->] & H). by apply Z.leb_le.
Qed.

Lemma optional_ok {A} (check : jsval → bool) (mk : A → jsval) (P : A → Prop) x :
  (∀ x, check x = true ↔ ∃ a, x = mk a ∧ P a) → (∀ a, mk a ≠ VUndef) →
  optional check x = true ↔ ∃ o, x = from_option mk VUndef o ∧ ∀ a, o = Some a → P a.
Proof.
  intros Hc Hmk. split.
  - intros Hx. assert (x = VUndef ∨ x ≠ VUndef) as [->|Hne] by (destruct x; first [by left|by right]); [by exists None|].
    assert (Hx' : check x = true) by by destruct x.
    apply Hc in Hx' as (a & -> & Ha). exists (Some a). split; [done|]. by intros ? [= <-].
  - intros ([a|] & -> & Ha); [|done]. simpl. specialize (Ha a eq_refl).
    assert (Hx' : check (mk a) = true) by (apply Hc; by exists a). specialize (Hmk a). by destruct (mk a).
Qed.

Lemma strings_within_ok l ks :
  forallb (string_within l) ks = true ↔ ∃ ss, ks = VStr <$> ss ∧ Forall (λ s, utf8_length s <= l) ss.
Proof.
  split.
  - induction ks as [|k ks IH]; simpl; [by exists []|]. intros [Hk Hks]%andb_true_iff.
    apply string_within_ok in Hk as (s & -> & Hs). destruct (IH Hks) as (ss & -> & Hss).
    exists (s :: ss). split; [done|by constructor].
  - intros (ss & -> & Hss). induction Hss as [|s ss Hs _ IH]; [done|]. simpl.
    apply andb_true_iff. split; [by apply Z.leb_le|exact IH].
Qed.

Lemma types_match_ok ts ss :
  length ts = length ss →
  types_match ts (VStr <$> ss) = true ↔
  ∃ bs, ts = (λ t, VStr (type_text t)) <$> bs ∧ Forall2 (λ (t : bool) s, t = true → numeric_text s = true) bs ss.
Proof.
  revert ss. induction ts as [|t ts IH]; intros [|s ss] Hl; simplify_eq/=.
  - split; [intros _; by exists []|done].
  - rewrite andb_true_iff, IH by done. split.
    + intros [Ht (bs & -> & Hb)]. destruct t; simpl in Ht; try done.
      apply orb_true_iff in Ht as [->%bool_decide_eq_true|[->%bool_decide_eq_true Hn]%andb_true_iff].
      * exists (false :: bs). split; [done|]. by constructor.
      * exists (true :: bs). split; [done|]. by constructor.
    + intros ([|b bs] & [= -> ->] & Hb). apply Forall2_cons_1 in Hb as [Hn Hb].
      split; [|by exists bs]. destruct b; [|done]. unfold type_matches, type_text.
      rewrite Hn by done. by rewrite bool_decide_eq_false_2, bool_decide_eq_true_2 by done.
Qed.

Lemma isDeleteEvent_ok mk mb v :
  isDeleteEvent mk mb v = true ↔ ∃ k, keys_of v k ∧ keys_within mk mb k.
Proof.
  unfold isDeleteEvent, keys_of, keys_within. split.
  - destruct (prop "keys" v) as [| | | | | |keys|] eqn:Ek; try done.
    destruct (_ || _) eqn:Eb; [done|]. apply orb_false_iff in Eb as [El Es]. bools.
    apply strings_within_ok in Es as (ss & -> & Hss). rewrite length_fmap in *.
    destruct (prop "keyTypes" v) as [| | | | | |ts|] eqn:Et; try done.
    + intros _. exists {| k_keys := ss; k_types := None |}. by split_and!.
    + case_bool_decide as Hl; [|done]. intros Hm. apply types_match_ok in Hm as (bs & -> & Hb); [|done].
      rewrite length_fmap in Hl. exists {| k_keys := ss; k_types := Some bs |}. split_and!; try done.
      by intros ? [= <-].
  - intros ([ss ts] & [Hk Ht] & Hl & Hs & Hts). simpl in *. rewrite Hk.
    rewrite length_fmap, (proj2 (Z.ltb_ge _ _)) by done.
    rewrite (proj2 (strings_within_ok mb (VStr <$> ss))) by eauto. simpl.
    rewrite Ht. destruct ts as [bs|]; [|done]. simpl. destruct (Hts bs eq_refl) as [Hlen Hb].
    rewrite length_fmap, bool_decide_eq_true_2 by done. apply types_match_ok; [by rewrite length_fmap|eauto].
Qed.

Lemma keys_of_inj v k k' : keys_of v k → keys_of v k' → k = k'.
Proof.
  destruct k as [ks ts], k' as [ks' ts']. intros [H1 H2] [H3 H4]. simpl in *. rewrite H1 in H3. rewrite H2 in H4.
  injection H3 as H3. assert (ks = ks') as ->.
  { clear -H3. revert ks' H3. induction ks as [|k ks IH]; intros [|k' ks'] H; simplify_eq/=; [done|]. f_equal. by apply IH. }
  f_equal. destruct ts as [ts|], ts' as [ts'|]; simpl in H4; try done. f_equal. injection H4 as H4.
  clear -H4. revert ts' H4. induction ts as [|t ts IH]; intros [|t' ts'] H; simplify_eq/=; [done|].
  f_equal; [by destruct t, t'|by apply IH].
Qed.

Lemma number_ok (c : jsnum → bool) x :
  match x with VNum n => c n | _ => false end = true ↔ ∃ n, x = VNum n ∧ c n = true.
Proof. split; [destruct x; try done; intros Hc; by eexists|by intros (n & -> & Hn)]. Qed.

Lemma isSetEvent_ok mk mb v :
  isSetEvent mk mb v = true ↔
  ∃ k ttl, keys_of v k ∧ keys_within mk mb k ∧ has_property "value" v = true ∧
    prop "ttlMs" v = from_option VNum VUndef ttl ∧
    ∀ t, ttl = Some t → num_is_finite t = true ∧ num_lt (JInt 0) t = true.
Proof.
  unfold isSetEvent. rewrite !andb_true_iff, isDeleteEvent_ok.
  rewrite (optional_ok _ VNum (λ t, num_is_finite t && num_lt (JInt 0) t = true)); [|intros x; apply number_ok|done].
  split.
  - intros [[(k & Hk & Hw) Hv] (ttl & Ht & Hb)]. exists k, ttl. split_and!; try done.
    intros t Hx. by apply andb_true_iff, Hb.
  - intros (k & ttl & Hk & Hw & Hv & Ht & Hb). split; [split; [by exists k|done]|].
    exists ttl. split; [done|]. intros t Hx. apply andb_true_iff. by apply Hb.
Qed.

Lemma isInvalidationEvent_ok mk mb v :
  isInvalidationEvent mk mb v = true ↔ ∃ m b, denotes v m b ∧ event_within mk mb m b.
Proof.
  unfold isInvalidationEvent, denotes, event_within, meta_within. split.
  - destruct (negb (isRecord v && _ && _)) eqn:E0; [done|]. apply negb_false_iff in E0.
    apply andb_true_iff in E0 as [[Hr Hs]%andb_true_iff Hts].
    destruct (prop "source" v) as [| | | |src| | |] eqn:Esrc; try done. clear Hs.
    apply number_ok in Hts as (ts & Ets & Hts).
    destruct (optional _ (prop "namespace" v)) eqn:Ens; [|done].
    destruct (optional _ (prop "id" v)) eqn:Eid; [|done].
    destruct (string_within mb (VStr src)) eqn:Esw; [|done].
    destruct (optional _ (prop "generation" v)) eqn:Eg; [|done]. simpl negb. cbv iota.
    apply (optional_ok _ VStr (λ s, utf8_length s <= mb)) in Ens as (ns & Ens & Hns); [|apply string_within_ok|done].
    apply (optional_ok _ VStr (λ s, utf8_length s <= mb)) in Eid as (i & Eid & Hid); [|apply string_within_ok|done].
    apply (optional_ok _ VNum (λ n, num_is_safe_integer n && negb (num_lt n (JInt 0)) = true)) in Eg
      as (g & Eg & Hg); [|intros x; apply number_ok|done].
    apply string_within_ok in Esw as (? & [= <-] & Hsrc).
    set (m := {| m_id := i; m_source := src; m_ts := ts; m_generation := g; m_namespace := ns |}).
    assert (Hm : (∀ s, m_id m = Some s → utf8_length s <= mb) ∧ utf8_length (m_source m) <= mb ∧
      (∀ s, m_namespace m = Some s → utf8_length s <= mb) ∧ num_is_finite (m_ts m) = true ∧
      (∀ g, m_generation m = Some g → num_is_safe_integer g = true ∧ num_lt g (JInt 0) = false)).
    { split_and!; try done. intros g' Hg'. apply Hg, andb_true_iff in Hg' as [? Hn]. by apply negb_true_iff in Hn. }
    destruct Hm as (M1 & M2 & M3 & M4 & M5).
    destruct (prop "type" v) as [| | | |t| | |] eqn:Et; try done.
    case_bool_decide as Hdel; [subst t|case_bool_decide as Hpat; [subst t|case_bool_decide as Hset; [subst t|done]]].
    + intros (k & Hk & Hw)%isDeleteEvent_ok. exists m, (DeleteEvent k). by split_and!.
    + intros (p & Hp & Hw)%string_within_ok. exists m, (PatternEvent p). by split_and!.
    + intros (k & ttl & Hk & Hw & Hv & Ht & Hb)%isSetEvent_ok. exists m, (SetEvent k (prop "value" v) ttl).
      split; [by split_and!|]. split; [done|]. by split.
  - intros (m & b & (Hr & Eid & Esrc & Ets & Eg & Ens & Hb) & (Hid & Hsrc & Hns & Hts & Hg) & Hw).
    rewrite Hr, Esrc, Ets, Hts. simpl negb. cbv iota.
    rewrite (proj2 (optional_ok _ VStr (λ s, utf8_length s <= mb) _ (string_within_ok mb) ltac:(done))) by eauto.
    rewrite (proj2 (optional_ok _ VStr (λ s, utf8_length s <= mb) _ (string_within_ok mb) ltac:(done))) by eauto.
    rewrite (proj2 (Z.leb_le _ _) Hsrc).
    rewrite (proj2 (optional_ok _ VNum (λ n, num_is_safe_integer n && negb (num_lt n (JInt 0)) = true) _
      ltac:(intros x; apply number_ok) ltac:(done))).
    2: { exists (m_generation m). split; [done|]. intros g Hx. destruct (Hg g Hx) as [-> ->]. done. }
    simpl negb. cbv iota. destruct b as [k|p|k x ttl].
    + destruct Hb as [-> Hk]. rewrite bool_decide_eq_true_2 by done. apply isDeleteEvent_ok. by exists k.
    + destruct Hb as [-> Hp]. rewrite bool_decide_eq_false_2, bool_decide_eq_true_2 by done.
      apply string_within_ok. by exists p.
    + destruct Hb as (-> & Hk & _ & Hv & Ht). rewrite !bool_decide_eq_false_2, bool_decide_eq_true_2 by done.
      destruct Hw as [Hw Httl]. apply isSetEvent_ok. by exists k, ttl.
Qed.
End codec.

Section theorems.
Context (N : Natives) (F : Formats) (numeric_text : jsstring → bool).

(** What the received value is, before any check. *)
Definition carries (raw : raw_value) (v : jsval) : Prop :=
  match raw with
  | ROther x => v = x
  | RBytes b => decodeCacheRecord N F b no_limits = Ok (Some v)
  | RString s => utf8_length s <= MAX_TEXT_BYTES ∧ decodeCacheRecord N F (Utf8.utf8_encode s) no_limits = Ok (Some v)
  | RNullish => False
  end.

Lemma checked_record b mk mb v :
  match decodeCacheRecord N F b no_limits with
  | Ok (Some x) => if isInvalidationEvent numeric_text mk mb x then Some x else None
  | _ => None
  end = Some v ↔ decodeCacheRecord N F b no_limits = Ok (Some v) ∧ isInvalidationEvent numeric_text mk mb v = true.
Proof.
  destruct (decodeCacheRecord N F b no_limits) as [[x|]|]; [|by split; [|intros [[=] _]]..].
  destruct (isInvalidationEvent numeric_text mk mb x) eqn:E.
  - split; [by intros [= ->]|by intros [[= ->] _]].
  - split; [done|]. intros [[= ->] Hv]. congruence.
Qed.

(** C40: the decoder types what arrives. It answers a value exactly when the raw
    input carries that value and the value is a delete, pattern or set event,
    every field of its declared type, no more keys and no longer strings than
    the limits, one key type per key when types are given and a number type only
    for the text of that number, a finite time stamp, a generation that is a
    non-negative safe integer and a positive finite TTL. *)
Theorem decoded_event_typed raw o mk mb v :
  event_limit (o_maxKeys o) 4096 = Ok mk → event_limit (o_maxKeyBytes o) (64 * 1024) = Ok mb →
  decodeInvalidationEvent N F numeric_text raw o = Ok (Some v) ↔
  carries raw v ∧ ∃ m b, denotes v m b ∧ event_within numeric_text mk mb m b.
Proof.
  intros Hk Hb. rewrite <-isInvalidationEvent_ok. unfold decodeInvalidationEvent. rewrite Hk, Hb. cbn [rbind].
  destruct raw as [|b|s|x]; simpl carries.
  - split; [done|by intros [[] _]].
  - rewrite <-(checked_record b mk mb v). split; [by intros [= ->]|by intros ->].
  - destruct (MAX_TEXT_BYTES <? utf8_length s) eqn:E; bools.
    + split; [done|]. intros [[? _] _]. lia.
    + rewrite <-(and_assoc (utf8_length s <= MAX_TEXT_BYTES)), <-(checked_record (Utf8.utf8_encode s) mk mb v).
      split; [by intros [= ->]|by intros [_ ->]].
  - destruct (isInvalidationEvent numeric_text mk mb x) eqn:E.
    + split; [by intros [= ->]|by intros [-> _]].
    + split; [done|]. intros [-> Hv]. congruence.
Qed.

(** what a publisher encodes, a subscriber decodes: the bytes of an event
    within the limits are read back as that event. *)
Theorem event_roundtrip tiers debug v m b s :
  natives_ok N → formats_ok F → denotes v m b → event_within numeric_text 4096 65536 m b →
  serializeWithStats N F tiers debug v {| format := None; compression := None |} = Ok s →
  storedBytes s <= maxEncodedBytes default_limits → originalBytes s <= maxDecodedBytes default_limits →
  restores F v (encoding s) ∧ fits F default_limits v (encoding s) →
  encodeInvalidationEvent N F tiers debug v = Ok (buffer s) ∧
  decodeInvalidationEvent N F numeric_text (RBytes (buffer s)) {| o_maxKeys := None; o_maxKeyBytes := None |} = Ok (Some v).
Proof.
  intros HN HF Hv Hw Hs He Hd Hr. unfold encodeInvalidationEvent, serialize. rewrite Hs. split; [done|].
  assert (Hnn : is_nullish v = false) by (destruct Hv as [Hrec _]; by destruct v).
  assert (Hst : storedBytes s = byteLength (buffer s)) by by eapply serialize_stored.
  destruct (roundtrip_limits N F tiers debug v {| format := None; compression := None |} s default_limits) as [[Hb _] _];
    [done|done|done|done|change (maxDecodedBytes default_limits) with 26214400 in Hd; lia|done|].
  assert (Hdec : decodeCacheRecord N F (buffer s) no_limits = Ok (Some v)).
  { unfold decodeCacheRecord. rewrite default_limits_resolved. cbn [rbind].
    rewrite (proj2 (Z.ltb_ge _ _)) by lia. rewrite Hb. unfold stored_value. by rewrite Hnn. }
  unfold decodeInvalidationEvent. change (event_limit _ 4096) with (Ok (E := unit) 4096).
  change (event_limit _ (64 * 1024)) with (Ok (E := unit) 65536). cbn [rbind]. f_equal.
  apply checked_record. split; [done|]. apply isInvalidationEvent_ok. by exists m, b.
Qed.
End theorems.

(** ** Witnesses *)

(** [{type: 'pattern', source: 'a', ts: 1, pattern: '*'}] and its MessagePack. *)
Definition demo_event : jsval :=
  VObj [(js "type", VStr (js "pattern")); (js "source", VStr (js "a")); (js "ts", VNum (JInt 1)); (js "pattern", VStr (js "*"))].

Definition demo_bytes : bytes :=
  [0x84; 0xa4] ++ js "type" ++ [0xa7] ++ js "pattern" ++ [0xa6] ++ js "source" ++ [0xa1] ++ js "a" ++
  [0xa2] ++ js "ts" ++ [1; 0xa7] ++ js "pattern" ++ [0xa1] ++ js "*".

Definition event_formats : Formats :=
  {| pack v := match v with VObj _ => Ok demo_bytes | VStr s => Ok (toy_string s) | _ => Throw tt end;
     unpack b := if bool_decide (b = demo_bytes) then Ok demo_event else toy_unpack b;
     strictUnpack b := if bool_decide (b = demo_bytes) then Ok demo_event else toy_unpack b;
     stringify _ := Ok None; parse _ := Throw tt |}.

Lemma event_formats_ok : formats_ok event_formats.
Proof. split. eexists. split; reflexivity. Qed.

Definition demo_meta : event_meta :=
  {| m_id := None; m_source := js "a"; m_ts := JInt 1; m_generation := None; m_namespace := None |}.

Lemma demo_event_denotes : denotes demo_event demo_meta (PatternEvent (js "*")).
Proof. split_and!; vm_compute; reflexivity. Qed.

Lemma demo_event_within : event_within (λ _, false) 4096 65536 demo_meta (PatternEvent (js "*")).
Proof. split; [|vm_compute; discriminate]. split_and!; try done. Qed.

Lemma decoded_event_typed_witness :
  decodeInvalidationEvent toy_natives event_formats (λ _, false) (ROther demo_event)
    {| o_maxKeys := None; o_maxKeyBytes := None |} = Ok (Some demo_event).
Proof.
  apply (decoded_event_typed toy_natives event_formats (λ _, false) (ROther demo_event)
    {| o_maxKeys := None; o_maxKeyBytes := None |} 4096 65536 demo_event); [reflexivity|reflexivity|].
  split; [reflexivity|]. exists demo_meta, (PatternEvent (js "*")).
  split; [exact demo_event_denotes|exact demo_event_within].
Defined.

Definition demo_record : SerializedCacheValue :=
  match serializeWithStats toy_natives event_formats [] false demo_event {| format := None; compression := None |} with
  | Ok s => s
  | Throw _ => {| buffer := []; encoding := EJson; originalBytes := 0; storedBytes := 0; compressionRatio := f64_zero; compressed := false |}
  end.

Lemma event_roundtrip_witness :
  ∃ b, encodeInvalidationEvent toy_natives event_formats [] false demo_event = Ok b ∧
    decodeInvalidationEvent toy_natives event_formats (λ _, false) (RBytes b) {| o_maxKeys := None; o_maxKeyBytes := None |} = Ok (Some demo_event).
Proof.
  exists (buffer demo_record).
  apply (event_roundtrip toy_natives event_formats (λ _, false) [] false demo_event demo_meta (PatternEvent (js "*")) demo_record).
  - exact toy_natives_ok.
  - exact event_formats_ok.
  - exact demo_event_denotes.
  - exact demo_event_within.
  - vm_compute. reflexivity.
  - vm_compute. discriminate.
  - vm_compute. discriminate.
  - split.
    + intros p [= <-]. vm_compute. done.
    + intros p [= <-]. vm_compute. done.
Defined.
