(* ===== verification/BusQueues.v ===== *)
(** * A bus around its delivery queues ([src/src/event-bus/*EventBus.ts])

    The transports hand what they receive to delivery queues ([HandlerQueue.v])
    and answer the queues' callbacks. [QueueHost] is what a bus is to its
    queues: where they are kept and what each callback does; the operations on
    them and their facts are shared. *)

From S2P Require Import Prelude Fifo WirePolicy HandlerQueue EventBus.

Abbreviation logged := (list (hqueue * list hout)).

(** How the chain of an accepted message ends. *)
Inductive outcome := Handled | Undecodable | HandlerFails.

Class QueueHost (S : Type) := {
  queues_of : S → logged;
  put_queues : logged → S → S;
  callback : S → hout → S * list bus_out;
}.

Section host.
Context {S : Type} `{QueueHost S} (limits : HandlerLimits).

(** The callbacks an operation of a queue makes, in order. *)
Fixpoint callbacks (os : list hout) (s : S) : S * list bus_out :=
  match os with
  | [] => (s, [])
  | o :: rest =>
      let '(s1, out1) := callback s o in
      let '(s2, out2) := callbacks rest s1 in (s2, out1 ++ out2)
  end.

(** An operation of queue [q]. *)
Definition on_queue (q : nat) (f : hqueue → hqueue * list hout) (s : S) : S * list bus_out :=
  match queues_of s !! q with
  | None => (s, [])
  | Some (hq, log) =>
      let '(hq', out) := f hq in callbacks out (put_queues (<[q := (hq', log ++ out)]> (queues_of s)) s)
  end.

(** A message for queue [q]: one that is refused is lost. *)
Definition deliver (encoded : bytes) (q : nat) (s : S) : S * list bus_out :=
  match queues_of s !! q with
  | None => (s, [])
  | Some (hq, log) =>
      let '(hq', out, ok) := enqueueItem limits (byteLength encoded) hq in
      let '(s', bo) := callbacks out (put_queues (<[q := (hq', log ++ out)]> (queues_of s)) s) in
      (s', bo ++ if ok then [] else [OLost])
  end.

(** Item [id] of queue [q] is being handled. *)
Definition handling (q id : nat) (s : S) : bool :=
  bool_decide (is_Some (queues_of s !! q ≫= λ h, find_by m_id id (running h.1))).

Lemma callbacks_app a b s :
  callbacks (a ++ b) s =
  let '(s1, out1) := callbacks a s in let '(s2, out2) := callbacks b s1 in (s2, out1 ++ out2).
Proof.
  revert s. induction a as [|o a IH]; intros s; simpl; [by destruct (callbacks b s)|].
  destruct (callback s o) as [s1 out1]. rewrite IH. destruct (callbacks a s1) as [s2 out2].
  destruct (callbacks b s2) as [s3 out3]. by rewrite app_assoc.
Qed.
(** What no callback touches, no operation of a queue does. *)
Lemma callbacks_stable {X} (f : S → X) os s : (∀ s o, f (callback s o).1 = f s) → f (callbacks os s).1 = f s.
Proof.
  intros Hf. revert s. induction os as [|o os IH]; intros s; simpl; [done|].
  specialize (Hf s o). destruct (callback s o) as [s1 out1]. specialize (IH s1). destruct (callbacks os s1). simpl in *. congruence.
Qed.

Lemma on_queue_stable {X} (f : S → X) q g s :
  (∀ s o, f (callback s o).1 = f s) → (∀ qs s, f (put_queues qs s) = f s) → f (on_queue q g s).1 = f s.
Proof.
  intros Hc Hp. unfold on_queue. destruct (queues_of s !! q) as [[hq log]|]; [|done].
  destruct (g hq) as [hq' out]. rewrite (callbacks_stable f) by done. apply Hp.
Qed.

Lemma deliver_stable {X} (f : S → X) m q s :
  (∀ s o, f (callback s o).1 = f s) → (∀ qs s, f (put_queues qs s) = f s) → f (deliver m q s).1 = f s.
Proof.
  intros Hc Hp. unfold deliver. destruct (queues_of s !! q) as [[hq log]|]; [|done].
  destruct (enqueueItem limits (byteLength m) hq) as [[hq' out] ok].
  pose proof (callbacks_stable f out (put_queues (<[q:=(hq', log ++ out)]> (queues_of s)) s) Hc) as H1.
  destruct (callbacks _ _). simpl in *. rewrite H1. apply Hp.
Qed.
End host.

(** Output that neither restores trust nor resolves a [subscribe]. *)
Definition quiet (out : list bus_out) : Prop := (OStatus Subscribed ∉ out) ∧ (OResolved ∉ out).

Lemma quiet_nil : quiet [].
Proof. split; apply not_elem_of_nil. Qed.

Lemma quiet_app a b : quiet a → quiet b → quiet (a ++ b).
Proof. unfold quiet. rewrite !elem_of_app. tauto. Qed.

Lemma quiet_one o : o ≠ OStatus Subscribed → o ≠ OResolved → quiet [o].
Proof. intros H1 H2. split; rewrite list_elem_of_singleton; congruence. Qed.

(** ** Facts of one queue *)

Section queue.
Context (limits : HandlerLimits).

Definition is_start (o : hout) : Prop := match o with HStart _ => True | _ => False end.

Lemma drain_starts items hq : Forall is_start (drain_from limits items hq).2.
Proof.
  revert hq. induction items as [|i items IH]; intros hq; simpl; [constructor|]. case_match; [|constructor].
  specialize (IH (start_item i items hq)). destruct (drain_from _ _ _). by constructor.
Qed.

Lemma drain_closed items hq : closed (drain_from limits items hq).1 = closed hq.
Proof.
  revert hq. induction items as [|i items IH]; intros hq; simpl; [done|]. case_match; [|done].
  specialize (IH (start_item i items hq)). destruct (drain_from _ _ _). simpl in *. exact IH.
Qed.

Lemma hstep_open h e : e ≠ EvClose → closed h.1 = false → closed (hstep limits h e).1 = false.
Proof.
  destruct h as [hq log]. intros He Hc. simpl in Hc.
  destruct e as [b|id ok|id| |]; cbn [hstep]; [| | |done|done].
  - unfold enqueueItem. rewrite Hc. destruct (_ || _); [done|].
    pose proof (drain_closed (pending (add_item (Z.max 0 b) hq)) (add_item (Z.max 0 b) hq)) as Hd. unfold drain.
    destruct (drain_from _ _ _). simpl in *. congruence.
  - unfold settle_item. destruct (find_by _ _ _); done.
  - unfold release_item. destruct (find_by _ _ _); [|done].
    match goal with |- context [drain limits ?g] => pose proof (drain_closed (pending g) g) as Hd; unfold drain end.
    destruct (drain_from _ _ _). simpl in *. congruence.
Qed.

Lemma settle_outs id ok hq :
  (settle_item id ok hq).2 = [] ∨ (settle_item id ok hq).2 = (if ok then [] else [HError]) ++ [HSettle id ok].
Proof. unfold settle_item. destruct (find_by _ _ _); simpl; auto. Qed.

Lemma release_outs id hq :
  ∃ os, Forall is_start os ∧ ((release_item limits id hq).2 = os ∨ (release_item limits id hq).2 = os ++ [HIdle]).
Proof.
  unfold release_item. destruct (find_by _ _ _); [|exists []; auto].
  match goal with |- context [drain limits ?g] => pose proof (drain_starts (pending g) g) as Hd; unfold drain end.
  destruct (drain_from _ _ _) as [hq' out]. simpl in *. exists out. split; [done|].
  case_match; [by right|left; apply app_nil_r].
Qed.

(** An open queue accepts a message, or reports that it does not. *)
Lemma enqueue_outs m hq :
  closed hq = false →
  let r := enqueueItem limits (byteLength m) hq in
  (r.2 = true ∧ Forall is_start r.1.2) ∨ (r.2 = false ∧ r.1.2 = [HOverflow (byteLength m)]).
Proof.
  intros Hc. cbv zeta. unfold enqueueItem. rewrite Hc. destruct (_ || _); [by right|]. left.
  pose proof (drain_starts (pending (add_item (byteLength m) hq)) (add_item (byteLength m) hq)) as Hd.
  unfold drain in *. destruct (drain_from _ _ _). done.
Qed.

(** ** Every queue of a bus is a delivery queue *)

Definition real (h : hqueue * list hout) : Prop := reachable (hstep limits) (newHandlerQueue, []) h.

Definition queues_ok (qs : logged) : Prop := ∀ q h, qs !! q = Some h → real h.

Lemma queues_ok_step qs q h e : queues_ok qs → qs !! q = Some h → queues_ok (<[q := hstep limits h e]> qs).
Proof.
  intros Hq Hh q' h'. destruct (decide (q' = q)) as [->|Hne].
  - rewrite list_lookup_insert_eq by by eapply lookup_lt_Some. intros [= <-]. constructor. by apply (Hq q).
  - rewrite list_lookup_insert_ne by done. apply Hq.
Qed.

Lemma queues_ok_new qs : queues_ok qs → queues_ok (qs ++ [(newHandlerQueue, [])]).
Proof.
  intros Hq q h. rewrite lookup_app. destruct (qs !! q) eqn:E; [intros [= <-]; by apply (Hq q)|].
  intros Hx%list_elem_of_lookup_2%list_elem_of_singleton. subst h. constructor.
Qed.

(** Queue [q] is there and not closed. *)
Definition open_in (qs : logged) (q : nat) : Prop := ∃ h, qs !! q = Some h ∧ closed h.1 = false.

Lemma open_in_step qs q h e q' :
  qs !! q = Some h → e ≠ EvClose ∨ q' ≠ q → open_in qs q' → open_in (<[q := hstep limits h e]> qs) q'.
Proof.
  intros Hh He (h' & Hh' & Hc). unfold open_in. destruct (decide (q' = q)) as [->|Hne].
  - rewrite list_lookup_insert_eq by by eapply lookup_lt_Some. eexists. split; [done|].
    destruct He as [He|He]; [|by destruct (He eq_refl)]. apply hstep_open; [done|]. by simplify_eq.
  - rewrite list_lookup_insert_ne by done. eauto.
Qed.

Lemma open_in_app qs qs' q : open_in qs q → open_in (qs ++ qs') q.
Proof. intros (h & Hh & Hc). exists h. split; [by apply lookup_app_l_Some|done]. Qed.

Lemma open_in_new qs : open_in (qs ++ [(newHandlerQueue, [])]) (length qs).
Proof. exists (newHandlerQueue, []). split; [|done]. by rewrite lookup_app_r, Nat.sub_diag by lia. Qed.
End queue.

(** ** An invariant of a bus and of what its statuses say

    [I s v] is to hold between events, [v] being the view the statuses so far
    give. It says nothing about a view that does not trust, an error makes the
    view distrust, and only the queue's idleness may restore trust. Then the
    operations of the queues keep it. *)

Class HostInvariant {S : Type} `{QueueHost S} (limits : HandlerLimits) (I : S → view → Prop) := {
  hi_distrust s v v' : I s v → trusting v' = false → I s v';
  hi_put s v q h e : I s v → queues_of s !! q = Some h → e ≠ EvClose →
    I (put_queues (<[q := hstep limits h e]> (queues_of s)) s) v;
  hi_start s id : callback s (HStart id) = (s, []);
  hi_settled s id : callback s (HSettle id true) = (s, []);
  hi_lost s id : (callback s (HSettle id false)).1 = s ∧ OStatus Subscribed ∉ (callback s (HSettle id false)).2;
  hi_gap s v o : o = HError ∨ (∃ b, o = HOverflow b) → I s v →
    I (callback s o).1 (foldl view_step v (callback s o).2) ∧ trusting (foldl view_step v (callback s o).2) = false;
  hi_queues s o : queues_of (callback s o).1 = queues_of s;
  hi_put_queues s qs : queues_of (put_queues qs s) = qs;
  hi_idle s v : I s v → queues_of s ≠ [] → I (callback s HIdle).1 (foldl view_step v (callback s HIdle).2);
  hi_silent s o : OResolved ∉ (callback s o).2;
}.

Section kept.
Context {S : Type} `{QueueHost S} (limits : HandlerLimits) (I : S → view → Prop) `{!HostInvariant limits I}.

(** A step of the bus that keeps the invariant and resolves no [subscribe]. *)
Definition keeps_view (v : view) (r : S * list bus_out) : Prop :=
  I r.1 (foldl view_step v r.2) ∧ OResolved ∉ r.2.

Lemma callbacks_silent os s : OResolved ∉ (callbacks os s).2.
Proof.
  revert s. induction os as [|o os IH]; intros s; simpl; [apply not_elem_of_nil|].
  pose proof (hi_silent (limits := limits) (I := I) s o) as Ho. destruct (callback s o) as [s1 out1]. specialize (IH s1).
  destruct (callbacks os s1) as [s2 out2]. simpl in *. rewrite elem_of_app. tauto.
Qed.

Lemma callbacks_starts os s : Forall is_start os → callbacks os s = (s, []).
Proof.
  induction 1 as [|o os Ho _ IH]; [done|]. destruct o; try done. simpl.
  by rewrite (hi_start (limits := limits) (I := I)), IH.
Qed.

Lemma keeps_callbacks os s v :
  I s v → queues_of s ≠ [] → Forall (λ o, ∀ id, o ≠ HSettle id false) os → keeps_view v (callbacks os s).
Proof.
  intros Hi Hne Hos. split; [|apply callbacks_silent]. revert s v Hi Hne. induction Hos as [|o os Ho _ IH]; intros s v Hi Hne; [done|].
  simpl. assert (H1 : I (callback s o).1 (foldl view_step v (callback s o).2)).
  { destruct o as [id|id []| |b|].
    - by rewrite (hi_start (limits := limits) (I := I)).
    - by rewrite (hi_settled (limits := limits) (I := I)).
    - by destruct (Ho id).
    - refine (proj1 (hi_gap (limits := limits) s v HError _ Hi)). by left.
    - refine (proj1 (hi_gap (limits := limits) s v (HOverflow b) _ Hi)). eauto.
    - by apply (hi_idle (limits := limits)). }
  rewrite <-(hi_queues (limits := limits) (I := I) s o) in Hne.
  destruct (callback s o) as [s1 out1]. simpl in *. specialize (IH s1 _ H1 Hne).
  destruct (callbacks os s1) as [s2 out2]. simpl in *. by rewrite foldl_app.
Qed.

Lemma keeps_settle q id ok s v : I s v → keeps_view v (on_queue q (settle_item id ok) s).
Proof.
  intros Hi. unfold on_queue. destruct (queues_of s !! q) as [[hq log]|] eqn:Eq; [|split; [done|apply not_elem_of_nil]].
  pose proof (hi_put (limits := limits) s v q _ (EvSettle id ok) Hi Eq ltac:(done)) as Hp.
  pose proof (settle_outs id ok hq) as Ho. simpl in Hp. destruct (settle_item id ok hq) as [hq' out]. simpl in *.
  split; [|apply callbacks_silent].
  destruct Ho as [-> | ->]; [done|]. destruct ok; simpl.
  - by rewrite (hi_settled (limits := limits) (I := I)).
  - match goal with |- context [callback ?x HError] => set (s1 := x) in * end.
    destruct (hi_gap (limits := limits) s1 v HError ltac:(by left) Hp) as [H1 H2].
    destruct (callback s1 HError) as [s2 out2]. simpl in *.
    destruct (hi_lost (limits := limits) (I := I) s2 id) as [H3 H4]. destruct (callback s2 (HSettle id false)) as [s3 out3].
    simpl in *. subst s3. rewrite app_nil_r, foldl_app. eapply hi_distrust; [exact H1|]. by apply view_distrust.
Qed.

Lemma keeps_release q id s v : I s v → keeps_view v (on_queue q (release_item limits id) s).
Proof.
  intros Hi. unfold on_queue. destruct (queues_of s !! q) as [[hq log]|] eqn:Eq; [|split; [done|apply not_elem_of_nil]].
  pose proof (hi_put (limits := limits) s v q _ (EvRelease id) Hi Eq ltac:(done)) as Hp.
  destruct (release_outs limits id hq) as (os & Hos & Hor). simpl in Hp.
  destruct (release_item limits id hq) as [hq' out]. simpl in *. apply keeps_callbacks; [done| |].
  { rewrite (hi_put_queues (limits := limits) (I := I)). by destruct (queues_of s), q. }
  assert (Hst : Forall (λ o, ∀ id, o ≠ HSettle id false) os) by (eapply Forall_impl; [exact Hos|]; by intros []).
  destruct Hor as [-> | ->]; [done|]. apply Forall_app. split; [done|]. by repeat constructor.
Qed.

Lemma keeps_deliver m q s v :
  I s v → (∀ h, queues_of s !! q = Some h → closed h.1 = false) → keeps_view v (deliver limits m q s).
Proof.
  intros Hi Hopen. unfold deliver. destruct (queues_of s !! q) as [[hq log]|] eqn:Eq; [|split; [done|apply not_elem_of_nil]].
  pose proof (hi_put (limits := limits) s v q _ (EvEnqueue (byteLength m)) Hi Eq ltac:(done)) as Hp.
  specialize (Hopen _ eq_refl). simpl in Hopen. pose proof (enqueue_outs limits m hq Hopen) as Ho. cbv zeta in Ho.
  unfold hstep in Hp. rewrite Z.max_r in Hp by (unfold byteLength; lia).
  destruct (enqueueItem limits (byteLength m) hq) as [[hq' out] ok]. simpl in *.
  destruct Ho as [[-> Hs]|[-> ->]].
  - rewrite callbacks_starts by done. by split; [|apply not_elem_of_nil].
  - match goal with |- context [callbacks _ ?x] => set (s1 := x) in * end.
    destruct (hi_gap (limits := limits) s1 v (HOverflow (byteLength m)) ltac:(eauto) Hp) as [H1 H2].
    pose proof (hi_silent (limits := limits) (I := I) s1 (HOverflow (byteLength m))) as H3. simpl callbacks.
    destruct (callback s1 (HOverflow (byteLength m))) as [s2 out2]. simpl in *. rewrite app_nil_r.
    split; [|set_solver]. simpl. rewrite foldl_app. eapply hi_distrust; [exact H1|done].
Qed.

Lemma queue_keeps_discard q s v v' : I s v → trusting v' = false → I (on_queue q discardPending s).1 v' ∧
  OResolved ∉ (on_queue q discardPending s).2.
Proof.
  intros Hi Hv. unfold on_queue. destruct (queues_of s !! q) as [[hq log]|] eqn:Eq; [|split; [by eapply hi_distrust|apply not_elem_of_nil]].
  pose proof (hi_put (limits := limits) s v q _ EvDiscard Hi Eq ltac:(done)) as Hp. simpl in Hp.
  simpl. match goal with |- context [callbacks _ ?x] => set (s1 := x) in * end.
  split; [|apply callbacks_silent].
  assert (Hc : (callbacks (map (λ i : item, HSettle (m_id i) false) (pending hq)) s1).1 = s1).
  { clear Hp. clearbody s1. induction (pending hq) as [|i l IH]; [done|]. simpl.
    destruct (hi_lost (limits := limits) (I := I) s1 (m_id i)) as [H3 _]. destruct (callback s1 _) as [s3 out3].
    simpl in H3. subst s3. by destruct (callbacks (map _ l) s1). }
  rewrite Hc. by eapply hi_distrust.
Qed.
End kept.
#[export] Hint Resolve quiet_nil quiet_app : core.
#[export] Hint Extern 1 (quiet [_]) => apply quiet_one; discriminate : core.
