(* ===== verification/RedisEventBus.v ===== *)
(** * The Redis event bus ([src/src/event-bus/redisEventBus.ts])

    The subscriber side as a state machine: its fields, the delivery queues
    ([HandlerQueue.v]) of its [subscribe] calls, the listeners on the client
    and the SUBSCRIBE replies still outstanding. The transport is the
    environment: it loses the connection, becomes ready, answers a SUBSCRIBE
    and pushes messages in any order. A resolved SUBSCRIBE means that the server
    delivers from then on; a lost connection ends that when the client reports
    it. What a message decodes to, and how its handler ends, are the outcome
    the environment picks. Publishing is [RetryQueue.v] and one PUBLISH. *)

From S2P Require Import Prelude Fifo WirePolicy HandlerQueue EventBus BusQueues.

(** [resubscribing] holds the epoch that the pending [resubscribe] saw.
    [queues] are the queues and their logs, in the order of the [subscribe]
    calls; a listener is named by its queue. [subscribing] and [unsubscribing]
    are the pending awaits; [delivering]: the server sends the channel here. *)
Record redis_bus := {
  subscribed : bool;
  messageListener : option nat;
  handlerQueue : option nat;
  handler : bool;
  resubscribing : option Z;
  transportEpoch : Z;
  needsReconciliation : bool;
  queues : list (hqueue * list hout);
  attached : list nat;
  subscribing : list nat;
  unsubscribing : nat;
  delivering : bool }.

Definition newRedisEventBus : redis_bus :=
  {| subscribed := false; messageListener := None; handlerQueue := None; handler := false;
     resubscribing := None; transportEpoch := 0; needsReconciliation := false; queues := [];
     attached := []; subscribing := []; unsubscribing := 0; delivering := false |}.

Inductive bus_event :=
| Subscribe
| SubscribeSettles (q : nat) (ok : bool)
| Lost
| ClientError
| ClientReady
| ResubscribeSettles (ok : bool)
| Message (mine : bool) (encoded : bytes)
| Missed
| Delivery (q id : nat) (o : outcome)
| Release (q id : nat)
| Disconnect
| Unsubscribed.

Section bus.
Context (limits : HandlerLimits).

Definition with_flags (sub needs deliver : bool) (s : redis_bus) : redis_bus :=
  {| subscribed := sub; messageListener := messageListener s; handlerQueue := handlerQueue s;
     handler := handler s; resubscribing := resubscribing s; transportEpoch := transportEpoch s;
     needsReconciliation := needs; queues := queues s; attached := attached s;
     subscribing := subscribing s; unsubscribing := unsubscribing s; delivering := deliver |}.

Definition set_needs (needs : bool) (s : redis_bus) : redis_bus := with_flags (subscribed s) needs (delivering s) s.

Definition with_queues (qs : list (hqueue * list hout)) (s : redis_bus) : redis_bus :=
  {| subscribed := subscribed s; messageListener := messageListener s; handlerQueue := handlerQueue s;
     handler := handler s; resubscribing := resubscribing s; transportEpoch := transportEpoch s;
     needsReconciliation := needsReconciliation s; queues := qs; attached := attached s;
     subscribing := subscribing s; unsubscribing := unsubscribing s; delivering := delivering s |}.

Definition with_listeners (listener : option nat) (att pend : list nat) (s : redis_bus) : redis_bus :=
  {| subscribed := subscribed s; messageListener := listener; handlerQueue := handlerQueue s;
     handler := handler s; resubscribing := resubscribing s; transportEpoch := transportEpoch s;
     needsReconciliation := needsReconciliation s; queues := queues s; attached := att;
     subscribing := pend; unsubscribing := unsubscribing s; delivering := delivering s |}.

Definition with_handler (q : option nat) (h : bool) (s : redis_bus) : redis_bus :=
  {| subscribed := subscribed s; messageListener := messageListener s; handlerQueue := q;
     handler := h; resubscribing := resubscribing s; transportEpoch := transportEpoch s;
     needsReconciliation := needsReconciliation s; queues := queues s; attached := attached s;
     subscribing := subscribing s; unsubscribing := unsubscribing s; delivering := delivering s |}.

Definition with_epoch (pending : option Z) (epoch : Z) (s : redis_bus) : redis_bus :=
  {| subscribed := subscribed s; messageListener := messageListener s; handlerQueue := handlerQueue s;
     handler := handler s; resubscribing := pending; transportEpoch := epoch;
     needsReconciliation := needsReconciliation s; queues := queues s; attached := attached s;
     subscribing := subscribing s; unsubscribing := unsubscribing s; delivering := delivering s |}.

Definition with_unsubscribing (n : nat) (s : redis_bus) : redis_bus :=
  {| subscribed := subscribed s; messageListener := messageListener s; handlerQueue := handlerQueue s;
     handler := handler s; resubscribing := resubscribing s; transportEpoch := transportEpoch s;
     needsReconciliation := needsReconciliation s; queues := queues s; attached := attached s;
     subscribing := subscribing s; unsubscribing := n; delivering := delivering s |}.

(** ** The delivery queue's callbacks: [onError], [onOverflow], [onIdle] *)

Definition redis_callback (s : redis_bus) (o : hout) : redis_bus * list bus_out :=
  match o with
  | HStart _ | HSettle _ true => (s, [])
  | HSettle _ false => (s, [OLost])
  | HError | HOverflow _ => (set_needs true s, [OStatus BusError])
  | HIdle =>
      if needsReconciliation s && subscribed s then (set_needs false s, [OStatus Subscribed]) else (s, [])
  end.

#[local] Instance redis_host : QueueHost redis_bus :=
  {| queues_of := queues; put_queues := with_queues; callback := redis_callback |}.

(** [messageListener], for every listener of the client. *)
Fixpoint deliver_all (encoded : bytes) (listeners : list nat) (s : redis_bus) : redis_bus * list bus_out :=
  match listeners with
  | [] => (s, [])
  | q :: rest =>
      let '(s1, out1) := deliver limits encoded q s in
      let '(s2, out2) := deliver_all encoded rest s1 in (s2, out1 ++ out2)
  end.

(** ** Operations *)

(** [subscribe] up to its SUBSCRIBE. *)
Definition subscribe (s : redis_bus) : redis_bus * list bus_out :=
  if subscribed s then (s, [OResolvedIdle])
  else
    let q := length (queues s) in
    (with_listeners (Some q) (attached s ++ [q]) (subscribing s ++ [q])
       (with_handler (handlerQueue s) true (with_queues (queues s ++ [(newHandlerQueue, [])]) s)), []).

(** The rest of [subscribe]. *)
Definition subscribe_settles (q : nat) (ok : bool) (s : redis_bus) : redis_bus * list bus_out :=
  if bool_decide (q ∈ subscribing s) then
    let pend := filter (λ i, i ≠ q) (subscribing s) in
    if ok then
      (with_flags true (needsReconciliation s) true
         (with_handler (Some q) (handler s) (with_listeners (messageListener s) (attached s) pend s)),
       [OStatus Subscribed; OResolved])
    else (with_listeners None (filter (λ i, i ≠ q) (attached s)) pend s, [ORejected])
  else (s, []).

Definition markDisconnected (s : redis_bus) : redis_bus * list bus_out :=
  let s1 := with_flags false (needsReconciliation s) false (with_epoch (resubscribing s) (transportEpoch s + 1) s) in
  let '(s2, out) := match handlerQueue s1 with None => (s1, []) | Some q => on_queue q discardPending s1 end in
  (s2, out ++ [OStatus Disconnected]).

(** [resubscribe] up to its SUBSCRIBE. *)
Definition resubscribe (s : redis_bus) : redis_bus :=
  if negb (handler s) || bool_decide (is_Some (resubscribing s)) || subscribed s then s
  else with_epoch (Some (transportEpoch s)) (transportEpoch s) s.

(** The rest of [resubscribe]. *)
Definition resubscribe_settles (ok : bool) (s : redis_bus) : redis_bus * list bus_out :=
  match resubscribing s with
  | None => (s, [])
  | Some epoch =>
      let s1 := with_epoch None (transportEpoch s) s in
      if ok then
        if negb (epoch =? transportEpoch s) then (with_flags (subscribed s1) (needsReconciliation s1) true s1, [])
        else (with_flags true (needsReconciliation s1) true s1, [OStatus Subscribed])
      else (s1, [OStatus BusError])
  end.

(** The chain of an accepted message: its decoder reports an undecodable one
    before the queue does. *)
Definition delivery (q id : nat) (o : outcome) (s : redis_bus) : redis_bus * list bus_out :=
  if negb (handling q id s) then (s, [])
  else match o with
  | Handled => on_queue q (settle_item id true) s
  | HandlerFails => on_queue q (settle_item id false) s
  | Undecodable =>
      let '(s', out) := on_queue q (settle_item id false) (set_needs true s) in (s', OStatus BusError :: out)
  end.

(** [disconnect] up to its UNSUBSCRIBE, or to its end without one. *)
Definition disconnect (s : redis_bus) : redis_bus * list bus_out :=
  let s1 := set_needs false s in
  let '(s2, out) := match handlerQueue s1 with None => (s1, []) | Some q => on_queue q close s1 end in
  let s3 := with_handler None false s2 in
  let s4 := match messageListener s3 with
            | None => s3
            | Some q => with_listeners None (filter (λ i, i ≠ q) (attached s3)) (subscribing s3) s3
            end in
  if subscribed s4 then
    (with_unsubscribing (S (unsubscribing s4)) (with_flags false (needsReconciliation s4) (delivering s4) s4), out)
  else (with_flags false (needsReconciliation s4) false s4, out ++ [OStatus Disconnected]).

(** The rest of [disconnect]. *)
Definition unsubscribed (s : redis_bus) : redis_bus * list bus_out :=
  match unsubscribing s with
  | O => (s, [])
  | S n => (with_unsubscribing n (with_flags (subscribed s) (needsReconciliation s) false s), [OStatus Disconnected])
  end.

Definition redis_step (s : redis_bus) (e : bus_event) : redis_bus * list bus_out :=
  match e with
  | Subscribe => subscribe s
  | SubscribeSettles q ok => subscribe_settles q ok s
  | Lost => markDisconnected s
  | ClientError => (s, [OStatus BusError])
  | ClientReady => (resubscribe s, [OStatus Ready])
  | ResubscribeSettles ok => resubscribe_settles ok s
  | Message mine encoded =>
      if negb mine then (s, [])
      else if bool_decide (attached s = []) then (s, [OLost])
      else deliver_all encoded (attached s) s
  | Missed => if delivering s then (s, []) else (s, [OLost])
  | Delivery q id o => delivery q id o s
  | Release q id => on_queue q (release_item limits id) s
  | Disconnect => disconnect s
  | Unsubscribed => unsubscribed s
  end.

(** No [subscribe] is rejected, and the bus is not being taken down. *)
Definition in_service (e : bus_event) : bool :=
  match e with SubscribeSettles _ false | Disconnect | Unsubscribed => false | _ => true end.
End bus.

(** ** The invariant *)

Section invariant.
Context (limits : HandlerLimits).

Record bus_ok (s : redis_bus) : Prop := {
  bo_pending : ∀ q, q ∈ subscribing s → q ∈ attached s;
  bo_handler : handler s = true → attached s ≠ [];
  bo_resubscribing : is_Some (resubscribing s) → attached s ≠ [];
  bo_subscribed : subscribed s = true → delivering s = true ∧ attached s ≠ [];
  bo_queues : queues_ok limits (queues s);
  bo_open : ∀ q, q ∈ attached s → open_in (queues s) q }.

Definition view_ok (s : redis_bus) (v : view) : Prop :=
  trusting v = true → subscribed s = true ∧ missed v = false.

Definition inv (s : redis_bus) (v : view) : Prop := bus_ok s ∧ view_ok s v.

#[local] Existing Instance redis_host.

#[local] Instance redis_invariant : HostInvariant limits inv.
Proof.
  split.
  - intros s v v' [Hs _] Hv. split; [done|]. intros Ht. congruence.
  - intros s v q h e [[H1 H2 H3 H4 H5 H6] Hv] Hq He. simpl in *. split; [|done]. split; simpl; try done.
    + by apply queues_ok_step.
    + intros q' Hq'. apply open_in_step; [done|by left|by apply H6].
  - done.
  - done.
  - intros s id. split; [done|]. apply not_elem_of_cons. split; [done|apply not_elem_of_nil].
  - intros s v o Ho [Hs Hv]. assert (Hn : bus_ok (set_needs true s)) by (destruct Hs; by split).
    destruct Ho as [-> | [b ->]]; simpl; by split_and!.
  - intros s o. by destruct o as [|id []| | |]; simpl; try case_match.
  - done.
  - intros s v [Hs Hv] _. simpl. destruct (needsReconciliation s && subscribed s) eqn:E; [|by split].
    apply andb_true_iff in E as [_ E]. simpl. split; [destruct Hs; by split|]. by intros _.
  - intros s o. destruct o as [|id []| | |]; simpl; try case_match; set_solver.
Qed.

(** The messages are delivered to open queues. *)
Lemma deliver_all_ok m qs s v :
  inv s v → (∀ q, q ∈ qs → q ∈ attached s) → keeps_view inv v (deliver_all limits m qs s).
Proof.
  revert s v. induction qs as [|q qs IH]; intros s v Hi Hq; simpl; [split; [done|apply not_elem_of_nil]|].
  assert (Hopen : ∀ h, queues_of s !! q = Some h → closed h.1 = false).
  { intros h Hh. destruct (bo_open _ (proj1 Hi) q) as (h' & Hh' & Hc); [apply Hq; by left|]. simpl in Hh. by simplify_eq. }
  destruct (keeps_deliver limits inv m q s v Hi Hopen) as [H1 H2].
  assert (Ha : attached (deliver limits m q s).1 = attached s) by (apply deliver_stable; [by intros ? [|? []| | |]; simpl; try case_match|done]).
  destruct (deliver limits m q s) as [s1 out1]. simpl in *.
  destruct (IH s1 _ H1) as [G1 G2].
  { intros q0 Hq0. rewrite Ha. apply Hq. by right. }
  destruct (deliver_all limits m qs s1) as [s2 out2]. simpl in *. split; simpl; [by rewrite foldl_app|].
  rewrite elem_of_app. tauto.
Qed.

(** Connection loss discards what waits. *)
Lemma lost_ok s v : inv s v → keeps_view inv v (markDisconnected s).
Proof.
  intros [Hs Hv]. unfold markDisconnected.
  set (s1 := with_flags false (needsReconciliation s) false (with_epoch (resubscribing s) (transportEpoch s + 1) s)).
  assert (H1 : inv s1 distrust) by (destruct Hs; by split).
  destruct (handlerQueue s1) as [q|]; simpl; [|split; simpl; [by split; [apply H1|]|set_solver]].
  destruct (queue_keeps_discard limits inv q s1 distrust (view_step (foldl view_step v (on_queue q discardPending s1).2) (OStatus Disconnected)) H1 eq_refl)
    as [G1 G2]. destruct (on_queue q discardPending s1) as [s2 out]. simpl in *.
  split; simpl; [by rewrite foldl_app|set_solver].
Qed.

Lemma subscribe_ok s v : inv s v → inv (subscribe s).1 v ∧ (subscribe s).2 = if subscribed s then [OResolvedIdle] else [].
Proof.
  intros [Hs Hv]. unfold subscribe. destruct (subscribed s) eqn:E; [done|]. destruct Hs as [H1 H2 H3 H4 H5 H6].
  simpl. split; [|done]. split; [|intros Ht; destruct (Hv Ht); congruence].
  split; simpl; try (by intros _ [_ [=]]%app_eq_nil).
  - intros q. rewrite !elem_of_app. intros [Hq|Hq]; [left; by apply H1|by right].
  - intros Hx. congruence.
  - by apply queues_ok_new.
  - intros q [Hq| ->%list_elem_of_singleton]%elem_of_app; [by apply open_in_app, H6|apply open_in_new].
Qed.

Lemma keeps_contract_silent v r : keeps_view inv v r → keeps_contract inv v r.
Proof. intros [H1 H2]. split; [done|by apply resolved_in_trust_silent]. Qed.

(** Every event in service keeps the bus and the view. *)
Lemma redis_step_ok s v e : in_service e = true → inv s v → keeps_contract inv v (redis_step limits s e).
Proof.
  intros He Hi. pose proof Hi as [Hs Hv]. destruct e as [|q ok| | | |ok|mine m| |q id o|q id| |]; try done; cbn [redis_step].
  - destruct (subscribe_ok s v Hi) as [H1 H2]. unfold keeps_contract. rewrite H2. by destruct (subscribed s).
  - destruct ok; [|done]. unfold subscribe_settles. case_bool_decide as Hq; [|by split].
    split; [split|]; simpl; [|by intros _|by split_and!]. destruct Hs as [H1 H2 H3 H4 H5 H6]. split; simpl; try done.
    + intros i [_ Hx]%list_elem_of_filter. by apply H1.
    + intros _. split; [done|]. intros Hn. specialize (H1 q Hq). rewrite Hn in H1. by apply not_elem_of_nil in H1.
  - by apply keeps_contract_silent, lost_ok.
  - split; [|done]. simpl. assert (Hr : bus_ok (resubscribe s) ∧ subscribed (resubscribe s) = subscribed s).
    { unfold resubscribe. destruct (handler s) eqn:Eh; [|done]. destruct (_ || _); [done|].
      split; [|done]. destruct Hs as [H1 H2 H3 H4 H5 H6]. split; try done. intros _. by apply H2. }
    destruct Hr as [Hr1 Hr2]. split; [done|]. intros Ht. rewrite Hr2. by apply Hv.
  - unfold resubscribe_settles. destruct (resubscribing s) as [e|] eqn:Er; [|by split].
    destruct Hs as [H1 H2 H3 H4 H5 H6]. assert (Ha : attached s ≠ []) by (apply H3; by rewrite Er).
    destruct ok; [destruct (negb _)|]; (split; [split|]); simpl; try done; split; simpl; try done; try (by intros [? [=]]).
  - destruct mine; [|by split]. simpl. case_bool_decide as Ha.
    + split; [split; [done|]|done]. intros Ht. simpl in Ht. destruct (Hv Ht) as [Hsub _].
      by destruct (bo_subscribed _ Hs Hsub) as [_ []].
    + by apply keeps_contract_silent, deliver_all_ok.
  - destruct (delivering s) eqn:Ed; [by split|]. split; [split; [done|]|done]. intros Ht. simpl in Ht.
    destruct (Hv Ht) as [Hsub _]. destruct (bo_subscribed _ Hs Hsub). congruence.
  - unfold delivery. destruct (negb _); [by split|]. apply keeps_contract_silent.
    destruct o; [by apply (keeps_settle limits inv)| |by apply (keeps_settle limits inv)].
    destruct (keeps_settle limits inv q id false (set_needs true s) (view_step v (OStatus BusError))) as [H1 H2].
    { split; [destruct Hs; by split|done]. }
    destruct (on_queue q (settle_item id false) (set_needs true s)) as [s' out]. simpl in *. split; [done|].
    simpl. set_solver.
  - apply keeps_contract_silent. by apply (keeps_release limits inv).
Qed.
End invariant.

(** ** The contract *)

Section contract.
Context (limits : HandlerLimits).

#[local] Instance redis_ops : BusOps redis_bus bus_event :=
  {| bus_new := newRedisEventBus; bus_step := redis_step limits; covered := in_service |}.

Lemma redis_new_ok : inv limits newRedisEventBus distrust.
Proof. split; [|done]. split; simpl; try done; first [by intros [? [=]]|by intros q []%not_elem_of_nil]. Qed.

Lemma redis_run_inv es :
  forallb in_service es = true →
  inv limits (bus_run es).1 (view_of (bus_run es).2) ∧ resolved_in_trust distrust (bus_run es).2.
Proof. intros Hes. exact (bus_run_inv _ redis_new_ok (λ b v e, redis_step_ok limits b v e) es Hes). Qed.

#[local] Instance redis_trusted : TrustedBus redis_bus bus_event.
Proof.
  apply (trusted_by_invariant (inv limits)); [apply redis_new_ok|intros; by apply redis_step_ok|].
  intros b v [_ Hv] Ht. by apply Hv.
Qed.
End contract.

(** *** Recovery *)

(** After a lost connection, with no SUBSCRIBE outstanding, the client's
    readiness and the server's answer bring the subscription back. *)
Lemma redis_recovers limits s :
  subscribed s = false → handler s = true → resubscribing s = None →
  let '(s1, out1) := redis_step limits s ClientReady in
  let '(s2, out2) := redis_step limits s1 (ResubscribeSettles true) in
  subscribed s2 = true ∧ delivering s2 = true ∧ out1 ++ out2 = [OStatus Ready; OStatus Subscribed].
Proof.
  intros Hs Hh Hr. simpl. unfold resubscribe, resubscribe_settles. rewrite Hh, Hr, Hs. simpl.
  by rewrite Z.eqb_refl.
Qed.

(** C11: in every history in which no [subscribe] is rejected and [disconnect] is
    not called, a [subscribe] that attaches its handler resolves only after
    ['subscribed'], with no status against it since; and as long as ['subscribed']
    is the last status with a meaning for trust, no message of the channel has
    been lost since it, whatever connections were lost, handlers failed, queues
    overflowed or messages did not decode before, the bus holds itself
    subscribed, the server delivers the channel to this client, there is a
    listener, and every listener has an open delivery queue. *)
Theorem redis_trust_sound limits es :
  let bus := redis_ops limits in
  let w := bus_run es in
  forallb in_service es = true →
  (∀ pre post, w.2 = pre ++ OResolved :: post → trusting (view_of pre) = true) ∧
  (trusting (view_of w.2) = true →
   missed (view_of w.2) = false ∧ subscribed w.1 = true ∧ delivering w.1 = true ∧ attached w.1 ≠ [] ∧
   ∀ q, q ∈ attached w.1 → ∃ h, queues w.1 !! q = Some h ∧ closed h.1 = false ∧
     reachable (hstep limits) (newHandlerQueue, []) h).
Proof.
  cbv zeta. intros Hes. destruct (redis_run_inv limits es Hes) as [[Hb Hv] Hr].
  split; [intros pre post; by apply resolved_explicit|intros Ht].
  destruct (Hv Ht) as [Hs Hm]. destruct (bo_subscribed _ _ Hb Hs) as [Hd Ha]. split_and!; try done.
  intros q Hq. destruct (bo_open _ _ Hb q Hq) as (h & Hh & Hc). exists h. split_and!; [done|done|].
  by apply (bo_queues _ _ Hb q).
Qed.

(** ** Situations *)

Definition one_at_a_time : HandlerLimits := {| h_concurrency := 1; h_maxSize := 1; h_maxBytes := 100 |}.

Definition redis_run (es : list bus_event) : redis_bus * list bus_out :=
  bus_run (ops := redis_ops one_at_a_time) es.

Definition statuses (log : list bus_out) : list EventBusStatus :=
  omap (λ o, match o with OStatus s => Some s | _ => None end) log.

(** A message is being handled when a second overflows and the connection is
    lost; the bus resubscribes, and the handler's end changes nothing. *)
Definition overflow_and_loss : list bus_event :=
  [Subscribe; SubscribeSettles 0 true; Message true [1]; Message true [2]; Lost; Missed;
   ClientReady; ResubscribeSettles true; Delivery 0 0 Handled; Release 0 0].

Lemma redis_trust_sound_witness :
  let w := redis_run overflow_and_loss in
  statuses w.2 = [Subscribed; BusError; Disconnected; Ready; Subscribed; Subscribed] ∧
  missed (view_of w.2) = false ∧ delivering w.1 = true.
Proof.
  cbv zeta. split; [vm_compute; reflexivity|].
  destruct (redis_trust_sound one_at_a_time overflow_and_loss) as [_ Ht]; [vm_compute; reflexivity|].
  destruct Ht as (H1 & _ & H2 & _); [vm_compute; reflexivity|].
  split; [exact H1|exact H2].
Defined.

(** A rejected [subscribe] leaves [handler] set and detaches its listener: the
    next readiness subscribes all the same and reports ['subscribed'], and a
    message that arrives is lost while the view is trusting. *)
Lemma rejected_subscribe_trusts :
  let w := redis_run [Subscribe; SubscribeSettles 0 false; ClientReady; ResubscribeSettles true; Message true [1]] in
  statuses w.2 = [Ready; Subscribed] ∧ attached w.1 = [] ∧ view_of w.2 = {| trusting := true; missed := true |}.
Proof. vm_compute. repeat split; reflexivity. Qed.

(** A connection lost while a resubscription is outstanding: the readiness that
    follows is ignored, the answer belongs to an older epoch, and the server
    delivers while the bus never reports ['subscribed'] again. *)
Lemma stale_answer_sticks :
  let w := redis_run [Subscribe; SubscribeSettles 0 true; Lost; ClientReady; Lost; ClientReady; ResubscribeSettles true] in
  statuses w.2 = [Subscribed; Disconnected; Ready; Disconnected; Ready] ∧
  delivering w.1 = true ∧ subscribed w.1 = false ∧ resubscribing w.1 = None.
Proof. vm_compute. repeat split; reflexivity. Qed.

(** [disconnect] detaches the listener before its UNSUBSCRIBE and reports
    ['disconnected'] after it: a message in between is lost in a trusting view. *)
Lemma disconnect_window :
  let w := redis_run [Subscribe; SubscribeSettles 0 true; Disconnect; Message true [1]] in
  view_of w.2 = {| trusting := true; missed := true |}.
Proof. vm_compute. reflexivity. Qed.

(** A second [subscribe] on a subscribed bus resolves and attaches nothing. *)
Lemma second_subscriber_unheard limits s : subscribed s = true → redis_step limits s Subscribe = (s, [OResolvedIdle]).
Proof. intros Hs. simpl. unfold subscribe. by rewrite Hs. Qed.
