(* ===== verification/NatsEventBus.v ===== *)
(** * The NATS event bus in core mode ([src/src/event-bus/natsEventBus.ts])

    The subscriber side as a state machine: its fields, the connections it
    dials, the status monitor, the delivery queues ([HandlerQueue.v]) of its
    subscriptions, the resubscription timer and the awaits still outstanding.
    The transport is the environment: it opens, drops, restores and closes the
    connection, answers flushes, ends the subscription and pushes messages.
    [connection.subscribe] on an open connection does not throw. JetStream mode
    and publishing are not modelled here. *)

From S2P Require Import Prelude Fifo WirePolicy HandlerQueue EventBus BusQueues.

(** Who called [subscribe]: a user of the bus, or the resubscription timer. *)
Inductive caller := User | Timer.

(** The loop of [watchStatus]: waiting for a status, waiting for the flush that
    follows a reconnect (it saw this epoch), or over. *)
Inductive monitor := Listening | Flushing (epoch : Z) | Ended.

(** [connection] and the others name connections by the order of their dialling;
    [live] are those that are not closed; [dialing] counts the pending
    [connectNats] of [connect] and [publish]. *)
Record nats_link := {
  connection : option nat;
  live : list nat;
  ownsConnection : bool;
  statusMonitor : option (nat * monitor);
  dialing : nat;
  next_connection : nat }.

Record nats_flow := {
  subscribing : option caller;
  handler : bool;
  resubscribeTimer : option Z;
  resubscribeAttempt : Z;
  subscribedAt : Z;
  closed : bool }.

(** A subscription is named by its queue; the second component is the
    connection it lives on. [reconciling]: the pending [reconcileSubscription]
    calls, with the epoch and the connection they saw. [delivering] (ghost): the
    server sends the subject to the subscription. *)
Record nats_bus := {
  link : nats_link;
  flow : nats_flow;
  subscription : option (nat * nat);
  subscriptionLost : bool;
  transportEpoch : Z;
  needsReconciliation : bool;
  handlerQueue : option nat;
  queues : logged;
  reconciling : list (Z * option nat);
  delivering : bool }.

(** [options.connection]: a connection the caller opened. *)
Definition newNatsEventBus (injected : bool) : nats_bus :=
  {| link := {| connection := if injected then Some 0%nat else None; live := if injected then [0%nat] else []; ownsConnection := negb injected;
                statusMonitor := None; dialing := 0; next_connection := 1 |};
     flow := {| subscribing := None; handler := false; resubscribeTimer := None; resubscribeAttempt := 0;
                subscribedAt := 0; closed := false |};
     subscription := None; subscriptionLost := false; transportEpoch := 0; needsReconciliation := false;
     handlerQueue := None; queues := []; reconciling := []; delivering := false |}.

Definition with_link (l : nats_link) (s : nats_bus) : nats_bus :=
  {| link := l; flow := flow s; subscription := subscription s; subscriptionLost := subscriptionLost s;
     transportEpoch := transportEpoch s; needsReconciliation := needsReconciliation s; handlerQueue := handlerQueue s;
     queues := queues s; reconciling := reconciling s; delivering := delivering s |}.

Definition with_flow (f : nats_flow) (s : nats_bus) : nats_bus :=
  {| link := link s; flow := f; subscription := subscription s; subscriptionLost := subscriptionLost s;
     transportEpoch := transportEpoch s; needsReconciliation := needsReconciliation s; handlerQueue := handlerQueue s;
     queues := queues s; reconciling := reconciling s; delivering := delivering s |}.

Definition with_subscription (sub : option (nat * nat)) (lost served : bool) (s : nats_bus) : nats_bus :=
  {| link := link s; flow := flow s; subscription := sub; subscriptionLost := lost;
     transportEpoch := transportEpoch s; needsReconciliation := needsReconciliation s; handlerQueue := handlerQueue s;
     queues := queues s; reconciling := reconciling s; delivering := served |}.

Definition with_epoch (epoch : Z) (s : nats_bus) : nats_bus :=
  {| link := link s; flow := flow s; subscription := subscription s; subscriptionLost := subscriptionLost s;
     transportEpoch := epoch; needsReconciliation := needsReconciliation s; handlerQueue := handlerQueue s;
     queues := queues s; reconciling := reconciling s; delivering := delivering s |}.

Definition with_needs (needs : bool) (s : nats_bus) : nats_bus :=
  {| link := link s; flow := flow s; subscription := subscription s; subscriptionLost := subscriptionLost s;
     transportEpoch := transportEpoch s; needsReconciliation := needs; handlerQueue := handlerQueue s;
     queues := queues s; reconciling := reconciling s; delivering := delivering s |}.

Definition with_queues (current : option nat) (qs : logged) (s : nats_bus) : nats_bus :=
  {| link := link s; flow := flow s; subscription := subscription s; subscriptionLost := subscriptionLost s;
     transportEpoch := transportEpoch s; needsReconciliation := needsReconciliation s; handlerQueue := current;
     queues := qs; reconciling := reconciling s; delivering := delivering s |}.

Definition with_reconciling (r : list (Z * option nat)) (s : nats_bus) : nats_bus :=
  {| link := link s; flow := flow s; subscription := subscription s; subscriptionLost := subscriptionLost s;
     transportEpoch := transportEpoch s; needsReconciliation := needsReconciliation s; handlerQueue := handlerQueue s;
     queues := queues s; reconciling := r; delivering := delivering s |}.

Definition flow_with (sub : option caller) (f : nats_flow) : nats_flow :=
  {| subscribing := sub; handler := handler f; resubscribeTimer := resubscribeTimer f;
     resubscribeAttempt := resubscribeAttempt f; subscribedAt := subscribedAt f; closed := closed f |}.

Definition flow_timer (timer : option Z) (attempt : Z) (f : nats_flow) : nats_flow :=
  {| subscribing := subscribing f; handler := handler f; resubscribeTimer := timer;
     resubscribeAttempt := attempt; subscribedAt := subscribedAt f; closed := closed f |}.

Definition flow_closed (h b : bool) (f : nats_flow) : nats_flow :=
  {| subscribing := subscribing f; handler := h; resubscribeTimer := resubscribeTimer f;
     resubscribeAttempt := resubscribeAttempt f; subscribedAt := subscribedAt f; closed := b |}.

Definition watch (m : option (nat * monitor)) (l : nats_link) : nats_link :=
  {| connection := connection l; live := live l; ownsConnection := ownsConnection l; statusMonitor := m;
     dialing := dialing l; next_connection := next_connection l |}.

Definition dialled_by_others (n : nat) (l : nats_link) : nats_link :=
  {| connection := connection l; live := live l; ownsConnection := ownsConnection l; statusMonitor := statusMonitor l;
     dialing := n; next_connection := next_connection l |}.

Definition close_link (forget : bool) (c : nat) (l : nats_link) : nats_link :=
  {| connection := if forget then None else connection l; live := filter (λ i, i ≠ c) (live l);
     ownsConnection := ownsConnection l; statusMonitor := statusMonitor l; dialing := dialing l;
     next_connection := next_connection l |}.

Inductive nats_event :=
| Subscribe (now : Z) (prompt : bool)
| Opened (prompt ok : bool)
| TimerFires (now : Z) (prompt : bool)
| IteratorEnds (q : nat) (now : Z) (alive : bool)
| LinkDown
| LinkUp
| LinkError
| Flushed (ok : bool)
| ReconcileSettles (i : nat) (ok : bool)
| Message (encoded : bytes)
| CallbackError
| Missed
| Delivery (q id : nat) (o : outcome)
| Release (q id : nat)
| ConnectionCloses (c : nat)
| Connect
| Connected
| GetConnection
| Dialled (ok : bool)
| Disconnect.

Section bus.
Context (limits : HandlerLimits).

(** ** Reconciliation and the delivery queue's callbacks *)

Definition markHandlerGap (s : nats_bus) : nats_bus * list bus_out :=
  if closed (flow s) then (s, []) else (with_needs true s, [OStatus BusError]).

(** [reconcileSubscription] up to its flush. *)
Definition reconcileSubscription (s : nats_bus) : nats_bus :=
  with_reconciling (reconciling s ++ [(transportEpoch s, connection (link s))]) s.

Definition nats_callback (s : nats_bus) (o : hout) : nats_bus * list bus_out :=
  match o with
  | HStart _ | HSettle _ true => (s, [])
  | HSettle _ false => (s, [OLost])
  | HError | HOverflow _ => markHandlerGap s
  | HIdle => if needsReconciliation s then (reconcileSubscription s, []) else (s, [])
  end.

#[local] Instance nats_host : QueueHost nats_bus :=
  {| queues_of := queues; put_queues := λ qs s, with_queues (handlerQueue s) qs s; callback := nats_callback |}.

Definition is_live (c : nat) (s : nats_bus) : bool := bool_decide (c ∈ live (link s)).

(** The server has answered a flush on [c]: it has seen the subscription. *)
Definition served_by (c : nat) (s : nats_bus) : nats_bus :=
  match subscription s with
  | Some (q, c') => if Nat.eqb c c' then with_subscription (subscription s) (subscriptionLost s) true s else s
  | None => s
  end.

(** The rest of [reconcileSubscription]; without a connection there is nothing
    to flush, and a flush succeeds only on a live one. *)
Definition reconcile_settles (i : nat) (ok : bool) (s : nats_bus) : nats_bus * list bus_out :=
  match reconciling s !! i with
  | None => (s, [])
  | Some (epoch, c) =>
      let s1 := with_reconciling (delete i (reconciling s)) s in
      if negb ok then (s1, [OStatus BusError])
      else if match c with Some c => negb (is_live c s) | None => false end then (s, [])
      else
        let s2 := match c with Some c => served_by c s1 | None => s1 end in
        if closed (flow s2) || subscriptionLost s2 || negb (epoch =? transportEpoch s2) then (s2, [])
        else (with_needs false s2, [OStatus Subscribed])
  end.

(** ** Connections *)

Definition connection_open (s : nats_bus) : bool :=
  match connection (link s) with Some c => is_live c s | None => false end.

Definition watchStatus (s : nats_bus) : nats_bus :=
  match connection (link s) with
  | None => s
  | Some c =>
      if match statusMonitor (link s) with Some (c', _) => Nat.eqb c c' | None => false end then s
      else with_link (watch (Some (c, Listening)) (link s)) s
  end.

(** [connectNats] has resolved. *)
Definition dialled (s : nats_bus) : nats_bus :=
  let l := link s in
  watchStatus (with_link {| connection := Some (next_connection l); live := next_connection l :: live l; ownsConnection := true;
    statusMonitor := statusMonitor l; dialing := dialing l; next_connection := S (next_connection l) |} s).

(** [getConnection] of [connect] and [publish]. *)
Definition getConnection (s : nats_bus) : nats_bus :=
  if connection_open s then watchStatus s else with_link (dialled_by_others (S (dialing (link s))) (link s)) s.

(** ** Subscribing *)

(** [scheduleResubscribe] *)
Definition RESUBSCRIBE_INITIAL_DELAY_MS : Z := 200.
Definition RESUBSCRIBE_MAX_DELAY_MS : Z := 30000.
Definition RESUBSCRIBE_STABLE_MS : Z := 10000.

Definition scheduleResubscribe (s : nats_bus) : nats_bus :=
  let f := flow s in
  if closed f || bool_decide (is_Some (resubscribeTimer f)) || negb (handler f) then s
  else
    let attempt := resubscribeAttempt f + 1 in
    with_flow (flow_timer (Some (Z.min RESUBSCRIBE_MAX_DELAY_MS (RESUBSCRIBE_INITIAL_DELAY_MS * 2 ^ (attempt - 1)))) attempt f) s.

(** [subscribeCore] once it has connection [c]; [prompt]: the server has the
    subscription before it sees the next message for it. *)
Definition subscribeCore (c : nat) (prompt : bool) (s : nats_bus) : nats_bus * list bus_out :=
  let q := length (queues s) in
  let '(s1, out) := match handlerQueue s with None => (s, []) | Some old => on_queue old close s end in
  (with_subscription (Some (q, c)) (subscriptionLost s1) prompt (with_queues (Some q) (queues s1 ++ [(newHandlerQueue, [])]) s1), out).

(** [subscribe] once [getConnection] has resolved. *)
Definition subscribe_connected (prompt : bool) (who : caller) (s : nats_bus) : nats_bus * list bus_out :=
  match connection (link s) with
  | None => (s, [])
  | Some c =>
      let '(s1, out) := subscribeCore c prompt s in
      (with_flow (flow_with None (flow s1)) s1,
       out ++ (if subscriptionLost s1 then [] else [OStatus Subscribed]) ++ match who with User => [OResolved] | Timer => [] end)
  end.

(** [subscribe], up to the dialling of a connection when none is open. *)
Definition subscribe (who : caller) (now : Z) (prompt : bool) (s : nats_bus) : nats_bus * list bus_out :=
  if bool_decide (is_Some (subscription s)) || bool_decide (is_Some (subscribing (flow s))) then
    (s, match who with User => [OResolvedIdle] | Timer => [] end)
  else
    let f := flow s in
    let s1 := with_subscription (subscription s) false (delivering s)
      (with_flow {| subscribing := Some who; handler := true; resubscribeTimer := resubscribeTimer f;
         resubscribeAttempt := resubscribeAttempt f; subscribedAt := now; closed := false |} s) in
    if connection_open s1 then subscribe_connected prompt who (watchStatus s1) else (s1, []).

(** The dialling of [subscribe] ends. *)
Definition opened (prompt ok : bool) (s : nats_bus) : nats_bus * list bus_out :=
  match subscribing (flow s) with
  | None => (s, [])
  | Some who =>
      if ok then subscribe_connected prompt who (dialled s)
      else
        let s1 := with_flow (flow_with None (flow s)) s in
        match who with
        | User => (s1, [OStatus BusError; ORejected])
        | Timer => (scheduleResubscribe s1, [OStatus BusError])
        end
  end.

Definition timer_fires (now : Z) (prompt : bool) (s : nats_bus) : nats_bus * list bus_out :=
  match resubscribeTimer (flow s) with
  | None => (s, [])
  | Some _ =>
      let s1 := with_flow (flow_timer None (resubscribeAttempt (flow s)) (flow s)) s in
      if closed (flow s1) || negb (handler (flow s1)) then (s1, []) else subscribe Timer now prompt s1
  end.

(** The iterator of subscription [q] has ended; [alive]: its connection has not. *)
Definition handleSubscriptionEnded (q : nat) (now : Z) (alive : bool) (s : nats_bus) : nats_bus * list bus_out :=
  if match subscription s with Some (q', c) => negb (Nat.eqb q q' && Bool.eqb alive (is_live c s)) | None => true end then (s, [])
  else
    let s1 := with_subscription None (subscriptionLost s) false s in
    let f := flow s1 in
    if closed f then (s1, [])
    else
      let attempt := if RESUBSCRIBE_STABLE_MS <=? now - subscribedAt f then 0 else resubscribeAttempt f in
      (scheduleResubscribe (with_flow (flow_timer (resubscribeTimer f) attempt f)
         (with_epoch (transportEpoch s1 + 1) (with_subscription None true false s1))), [OStatus Disconnected]).

(** ** The status monitor *)

Definition monitoring (s : nats_bus) : option nat :=
  match statusMonitor (link s) with Some (c, Listening) => Some c | _ => None end.

(** ['disconnect'] *)
Definition link_down (s : nats_bus) : nats_bus * list bus_out :=
  match monitoring s with
  | None => (s, [])
  | Some c =>
      let served := match subscription s with Some (_, c') => delivering s && negb (Nat.eqb c c') | None => false end in
      let s1 := with_epoch (transportEpoch s + 1) (with_subscription (subscription s) true served s) in
      let '(s2, out) := match handlerQueue s1 with None => (s1, []) | Some q => on_queue q discardPending s1 end in
      (s2, out ++ [OStatus Disconnected])
  end.

(** ['reconnect'], up to its flush *)
Definition link_up (s : nats_bus) : nats_bus :=
  match monitoring s with
  | None => s
  | Some c => with_link (watch (Some (c, Flushing (transportEpoch s))) (link s)) s
  end.

(** The monitor's loop has thrown. *)
Definition monitor_fails (c : nat) (s : nats_bus) : nats_bus * list bus_out :=
  (with_link (watch (Some (c, Ended)) (link s)) (with_subscription (subscription s) true (delivering s) s),
   [OStatus Disconnected]).

(** The rest of ['reconnect'] *)
Definition flushed (ok : bool) (s : nats_bus) : nats_bus * list bus_out :=
  match statusMonitor (link s) with
  | Some (c, Flushing epoch) =>
      if negb ok then monitor_fails c s
      else if negb (is_live c s) then (s, [])
      else
        let s1 := served_by c (with_link (watch (Some (c, Listening)) (link s)) s) in
        if closed (flow s1) || negb (epoch =? transportEpoch s1) then (s1, [])
        else
          (with_subscription (subscription s1) false (delivering s1) s1,
           OStatus Ready :: (if bool_decide (is_Some (subscription s1)) then [OStatus Subscribed] else []))
  | _ => (s, [])
  end.

(** Connection [c] is closed: its statuses end, and a flush on it is rejected. *)
Definition connection_closes (c : nat) (s : nats_bus) : nats_bus * list bus_out :=
  let s1 := with_link (close_link false c (link s)) s in
  match statusMonitor (link s1) with
  | Some (c', m) =>
      if negb (Nat.eqb c c') then (s1, [])
      else match m with
      | Listening => (with_link (watch (Some (c, Ended)) (link s1)) s1, [])
      | Flushing _ => monitor_fails c s1
      | Ended => (s1, [])
      end
  | None => (s1, [])
  end.

(** The chain of an accepted message; its decoder reports an undecodable one. *)
Definition delivery (q id : nat) (o : outcome) (s : nats_bus) : nats_bus * list bus_out :=
  if negb (handling q id s) then (s, [])
  else match o with
  | Handled => on_queue q (settle_item id true) s
  | HandlerFails => on_queue q (settle_item id false) s
  | Undecodable =>
      let '(s1, out1) := markHandlerGap s in
      let '(s2, out2) := on_queue q (settle_item id false) s1 in (s2, out1 ++ out2)
  end.

Definition disconnect (s : nats_bus) : nats_bus * list bus_out :=
  let s1 := with_epoch (transportEpoch s + 1) (with_flow (flow_closed (handler (flow s)) true (flow s)) s) in
  let '(s2, out) := match handlerQueue s1 with None => (s1, []) | Some q => on_queue q close s1 end in
  let s3 := with_link (watch None (link s2)) (with_queues None (queues s2) s2) in
  let s4 := with_subscription None false false (with_flow (flow_timer None 0 (flow_closed false true (flow s3))) s3) in
  (match connection (link s4) with
   | Some c => if ownsConnection (link s4) then with_link (close_link true c (link s4)) s4 else s4
   | None => s4
   end, OStatus Disconnected :: out).

Definition nats_step (s : nats_bus) (e : nats_event) : nats_bus * list bus_out :=
  match e with
  | Subscribe now prompt => subscribe User now prompt s
  | Opened prompt ok => opened prompt ok s
  | TimerFires now prompt => timer_fires now prompt s
  | IteratorEnds q now alive => handleSubscriptionEnded q now alive s
  | LinkDown => link_down s
  | LinkUp => (link_up s, [])
  | LinkError => (s, match monitoring s with Some _ => [OStatus BusError] | None => [] end)
  | Flushed ok => flushed ok s
  | ReconcileSettles i ok => reconcile_settles i ok s
  | Message encoded => match subscription s with Some (q, _) => deliver limits encoded q s | None => (s, []) end
  | CallbackError => if bool_decide (is_Some (subscription s)) then markHandlerGap s else (s, [])
  | Missed => if delivering s then (s, []) else (s, [OLost])
  | Delivery q id o => delivery q id o s
  | Release q id => on_queue q (release_item limits id) s
  | ConnectionCloses c => connection_closes c s
  | Connect => (getConnection (with_flow (flow_closed (handler (flow s)) false (flow s)) s), [])
  | Connected => (s, [OStatus Ready])
  | GetConnection => (getConnection s, [])
  | Dialled ok =>
      match dialing (link s) with
      | O => (s, [])
      | S n => let s1 := with_link (dialled_by_others n (link s)) s in (if ok then dialled s1 else s1, [])
      end
  | Disconnect => disconnect s
  end.

(** The server is prompt, a subscription ends with its connection, only
    [subscribe] dials, and the bus is not taken down. *)
Definition in_service (e : nats_event) : bool :=
  match e with
  | Subscribe _ prompt | TimerFires _ prompt | Opened prompt true => prompt
  | Dialled true | IteratorEnds _ _ true | Disconnect => false
  | _ => true
  end.
End bus.

(** ** The invariant *)

Section invariant.
Context (limits : HandlerLimits).

Definition active_monitor (s : nats_bus) (c : nat) : Prop :=
  ∃ m, statusMonitor (link s) = Some (c, m) ∧ m ≠ Ended.

Record nats_ok (s : nats_bus) : Prop := {
  no_serving : closed (flow s) = false;
  no_live : ∀ c, c ∈ live (link s) → connection (link s) = Some c;
  no_unsubscribed : subscription s = None → connection_open s = false ∨ queues s = [];
  no_reconciling : ∀ r, r ∈ reconciling s → is_Some r.2 ∧ queues s ≠ [];
  no_connected : queues s ≠ [] → is_Some (connection (link s));
  no_subscribing : is_Some (subscribing (flow s)) →
    subscription s = None ∧ subscriptionLost s = false ∧ connection_open s = false;
  no_monitor : ∀ c, active_monitor s c → c ∈ live (link s);
  no_subscription : ∀ q c, subscription s = Some (q, c) → open_in (queues s) q ∧ connection (link s) = Some c;
  no_served : is_Some (subscription s) → subscriptionLost s = false → delivering s = true;
  no_queues : queues_ok limits (queues s) }.

Definition view_ok (s : nats_bus) (v : view) : Prop :=
  trusting v = true → is_Some (subscription s) ∧ subscriptionLost s = false ∧ missed v = false.

Definition inv (s : nats_bus) (v : view) : Prop := nats_ok s ∧ view_ok s v.

Lemma distrusted s v : nats_ok s → trusting v = false → inv s v.
Proof. intros Hs Hv. split; [done|]. intros Ht. congruence. Qed.

#[local] Existing Instance nats_host.

Lemma needs_ok b s : nats_ok s → nats_ok (with_needs b s).
Proof. intros []. by split. Qed.

Lemma reconcileSubscription_ok s : nats_ok s → queues s ≠ [] → nats_ok (reconcileSubscription s).
Proof.
  intros Hs Hq. pose proof (no_connected _ Hs Hq) as Hc. destruct Hs. split; simpl; try done.
  intros r [Hr| ->%list_elem_of_singleton]%elem_of_app; [by apply no_reconciling0|done].
Qed.

#[local] Instance nats_invariant : HostInvariant limits inv.
Proof.
  split.
  - intros s v v' [Hs _] Hv. by apply distrusted.
  - intros s v q h e [[] Hv] Hq He. simpl in *. split; [|done].
    assert (Hne : ∀ x, <[q:=x]> (queues s) ≠ [] ∧ queues s ≠ []) by (intros x; by destruct (queues s), q).
    split; simpl; try done.
    + intros H1. destruct (no_unsubscribed0 H1); [by left|]. by destruct (Hne (hstep limits h e)).
    + intros r Hr. split; [by apply no_reconciling0|apply Hne].
    + intros _. apply no_connected0, (Hne h).
    + intros q' c Hs. destruct (no_subscription0 q' c Hs). split; [|done]. apply open_in_step; [done|by left|done].
    + by apply queues_ok_step.
  - done.
  - done.
  - intros s id. split; [done|]. apply not_elem_of_cons. split; [done|apply not_elem_of_nil].
  - intros s v o Ho [Hs Hv]. assert (Hg : nats_callback s o = (with_needs true s, [OStatus BusError])).
    { destruct Ho as [-> | [b ->]]; simpl; unfold markHandlerGap; by rewrite (no_serving _ Hs). }
    simpl. rewrite Hg. split; [|done]. apply distrusted; [by apply needs_ok|done].
  - intros s o. destruct o as [|id []| | |]; simpl; unfold markHandlerGap; by repeat case_match.
  - done.
  - intros s v [Hs Hv] Hq. simpl. case_match; simpl; [|done]. split; [by apply reconcileSubscription_ok|done].
  - intros s o. destruct o as [|id []| | |]; simpl; unfold markHandlerGap; repeat case_match; set_solver.
Qed.

(** [subscribe] with connection [c] at hand. *)
Record at_hand (s : nats_bus) (c : nat) : Prop := {
  ah_serving : closed (flow s) = false;
  ah_live : ∀ c, c ∈ live (link s) → connection (link s) = Some c;
  ah_reconciling : ∀ r, r ∈ reconciling s → is_Some r.2;
  ah_connection : connection (link s) = Some c;
  ah_monitor : ∀ c, active_monitor s c → c ∈ live (link s);
  ah_subscription : subscription s = None;
  ah_lost : subscriptionLost s = false;
  ah_queues : queues_ok limits (queues s) }.

Lemma watchStatus_at_hand s c : at_hand s c → c ∈ live (link s) → at_hand (watchStatus s) c.
Proof.
  intros Hs Hc. unfold watchStatus. rewrite (ah_connection _ _ Hs).
  destruct (match statusMonitor (link s) with Some _ => _ | None => _ end); [done|].
  destruct Hs. split; simpl; try done. by intros c' (m & [= <- <-] & _).
Qed.

Lemma watchStatus_ok s v : inv s v → connection_open s = true → inv (watchStatus s) v.
Proof.
  intros [Hs Hv] Ho. unfold watchStatus. destruct (connection (link s)) as [c|] eqn:Ec; [|done].
  destruct (match statusMonitor (link s) with Some _ => _ | None => _ end); [done|]. split; [|done].
  destruct Hs. unfold connection_open, is_live in *. split; unfold connection_open, is_live in *; simpl; try done.
  intros c' (m & [= <- <-] & _). rewrite Ec in Ho. by apply bool_decide_eq_true in Ho.
Qed.

(** Anything a queue says but that it is idle. *)
Lemma callbacks_noted os s :
  closed (flow s) = false → Forall (λ o, o ≠ HIdle) os →
  ∃ b, (callbacks os s).1 = with_needs b s ∧ quiet (callbacks os s).2.
Proof.
  intros Hc Hos. revert s Hc. induction Hos as [|o os Ho _ IH]; intros s Hc; simpl.
  { exists (needsReconciliation s). split; [by destruct s|auto]. }
  assert (Ho' : ∃ b, (nats_callback s o).1 = with_needs b s ∧ quiet (nats_callback s o).2).
  { destruct o as [id|id []| |b|]; simpl; unfold markHandlerGap; rewrite ?Hc; try done.
    all: simpl; first [by exists true; auto|exists (needsReconciliation s); split; [by destruct s|auto]]. }
  destruct Ho' as (b & H1 & H2). destruct (nats_callback s o) as [s1 out1]. simpl in H1, H2. subst s1.
  destruct (IH (with_needs b s) Hc) as (b' & G1 & G2). destruct (callbacks os (with_needs b s)) as [s2 out2]. simpl in *.
  exists b'. split; [by rewrite G1|auto].
Qed.

Lemma close_noted q s :
  closed (flow s) = false → queues_ok limits (queues s) →
  let r := on_queue q close s in
  ∃ b qs, r.1 = with_needs b (with_queues (handlerQueue s) qs s) ∧ quiet r.2 ∧
    length qs = length (queues s) ∧ queues_ok limits qs.
Proof.
  intros Hc Hq. cbv zeta. unfold on_queue. simpl. destruct (queues s !! q) as [[hq log]|] eqn:Eq.
  - pose proof (queues_ok_step limits (queues s) q _ EvClose Hq Eq) as Hq'.
    assert (Hos : Forall (λ o, o ≠ HIdle) (close hq).2).
    { simpl. clear. induction (pending hq); simpl; [constructor|]. by repeat constructor. }
    destruct (callbacks_noted _ (with_queues (handlerQueue s) (<[q:=hstep limits (hq, log) EvClose]> (queues s)) s) Hc Hos)
      as (b & H1 & H2).
    eexists b, _. split_and!; [exact H1|done|by rewrite length_insert|done].
  - exists (needsReconciliation s), (queues s). split_and!; [by destruct s|auto|done|done].
Qed.

Lemma subscribe_connected_ok prompt who s v c :
  at_hand s c → prompt = true → trusting v = false → keeps_contract inv v (subscribe_connected prompt who s).
Proof.
  intros Hs -> Hv. unfold subscribe_connected, subscribeCore. rewrite (ah_connection _ _ Hs).
  assert (Hr : ∃ s1 out, match handlerQueue s with None => (s, []) | Some old => on_queue old close s end = (s1, out) ∧
    quiet out ∧ length (queues s1) = length (queues s) ∧ at_hand s1 c).
  { destruct (handlerQueue s) as [old|] eqn:Eh.
    - destruct (close_noted old s (ah_serving _ _ Hs) (ah_queues _ _ Hs)) as (b & qs & H1 & H2 & H4 & H5).
      destruct (on_queue old close s) as [s1 out]. simpl in *. subst s1. eexists _, _. split_and!; [done..|].
      destruct Hs. by split.
    - exists s, []. split_and!; auto. }
  destruct Hr as (s1 & out & -> & [H1 H2] & Hl & H3). simpl. rewrite <-Hl. pose proof (ah_lost _ _ H3) as Hlost. rewrite Hlost.
  pose proof (view_distrust v out Hv H1) as Hd. split; simpl.
  - split; [|intros _; split_and!; [done|done|destruct who; by rewrite foldl_app]].
    destruct H3. split; simpl; try done.
    + intros r Hr. split; [by apply ah_reconciling0|]. by intros [_ [=]]%app_eq_nil.
    + intros q c' [= <- <-]. split; [apply open_in_new|done].
    + by apply queues_ok_new.
  - rewrite resolved_in_trust_app. split; [by apply resolved_in_trust_silent|]. destruct who; by split_and!.
Qed.

(** *** Changes of one part of the state *)

Lemma open_live s c : nats_ok s → c ∈ live (link s) → connection_open s = true.
Proof. intros Hs Hc. unfold connection_open, is_live. rewrite (no_live _ Hs c Hc). by apply bool_decide_eq_true. Qed.

Lemma monitored_open s c : nats_ok s → active_monitor s c → connection_open s = true.
Proof. intros Hs Hc. by apply (open_live s c Hs), (no_monitor _ Hs). Qed.

Lemma open_settled s : nats_ok s → connection_open s = true → subscribing (flow s) = None.
Proof.
  intros Hs Ho. destruct (subscribing (flow s)) as [w|] eqn:E; [|done].
  destruct (no_subscribing _ Hs) as (_ & _ & Hn); [by rewrite E|]. congruence.
Qed.

Lemma unsubscribed_distrusts s v : inv s v → subscription s = None → trusting v = false.
Proof. intros [_ Hv] Hn. apply not_true_is_false. intros Ht. destruct (Hv Ht) as [[? Hx] _]. congruence. Qed.

Lemma flow_ok f s :
  nats_ok s → closed f = false → (is_Some (subscribing f) → is_Some (subscribing (flow s))) → nats_ok (with_flow f s).
Proof. intros [] Hc Hf. split; simpl; auto. Qed.

Lemma link_ok l s :
  nats_ok s → connection l = connection (link s) → (∀ c, c ∈ live l → c ∈ live (link s)) →
  (∀ c m, statusMonitor l = Some (c, m) → m ≠ Ended → c ∈ live l) → nats_ok (with_link l s).
Proof.
  intros Hs H1 H2 H3. assert (Ho : connection_open s = false → connection_open (with_link l s) = false).
  { unfold connection_open, is_live. simpl. rewrite H1. destruct (connection (link s)); [|done].
    rewrite !bool_decide_eq_false. naive_solver. }
  destruct Hs. split; simpl; rewrite ?H1; try done.
  - intros c Hc. by apply no_live0, H2.
  - intros Hn. destruct (no_unsubscribed0 Hn); [left; by apply Ho|by right].
  - intros Hx. destruct (no_subscribing0 Hx) as (? & ? & ?). split_and!; [done|done|by apply Ho].
  - intros c (m & Hm & Hne). by apply (H3 c m).
Qed.

Lemma nats_lose_ok served s :
  nats_ok s → subscribing (flow s) = None → nats_ok (with_subscription (subscription s) true served s).
Proof. intros [] Hn. split; simpl; try done. rewrite Hn. by intros [? [=]]. Qed.

Lemma epoch_ok e s : nats_ok s → nats_ok (with_epoch e s).
Proof. intros []. by split. Qed.

Lemma served_ok c s : nats_ok s → nats_ok (served_by c s).
Proof.
  intros Hs. unfold served_by. destruct (subscription s) as [[q c']|] eqn:E; [|done]. destruct (Nat.eqb c c'); [|done].
  destruct Hs. split; simpl; rewrite ?E in *; try done.
Qed.

Lemma served_same c s : subscription (served_by c s) = subscription s ∧ subscriptionLost (served_by c s) = subscriptionLost s ∧
  queues (served_by c s) = queues s ∧ flow (served_by c s) = flow s ∧ link (served_by c s) = link s.
Proof. unfold served_by. destruct (subscription s) as [[q c']|] eqn:E; [|done]. by destruct (Nat.eqb c c'). Qed.

Lemma scheduleResubscribe_ok s v : inv s v → inv (scheduleResubscribe s) v.
Proof. intros [Hs Hv]. unfold scheduleResubscribe. destruct (_ || _); [done|]. split; [|done]. by apply flow_ok; [|apply Hs|]. Qed.

(** *** The steps *)

Lemma nats_silent v s : inv s v → keeps_contract inv v (s, []).
Proof. by split. Qed.

Lemma nats_keeps v r : keeps_view inv v r → keeps_contract inv v r.
Proof. intros [H1 H2]. split; [done|by apply resolved_in_trust_silent]. Qed.

(** A status that ends trust, after which the state is still a good one. *)
Lemma nats_distrusting v s out o :
  nats_ok s → ends_trust o = true → OResolved ∉ out → keeps_contract inv v (s, out ++ [o]).
Proof.
  intros Hs Ho Hout. apply nats_keeps. assert (o ≠ OResolved) by (by intros ->).
  split; simpl; [|rewrite elem_of_app, list_elem_of_singleton; naive_solver].
  apply distrusted; [done|]. rewrite foldl_app. by destruct o as [[]| | | |].
Qed.

Lemma nats_subscribe_ok who now s v : inv s v → keeps_contract inv v (subscribe who now true s).
Proof.
  intros Hi. pose proof Hi as [Hs Hv]. unfold subscribe. destruct (bool_decide _ || bool_decide _) eqn:E; [by destruct who; split; [|split|split|]|].
  apply orb_false_iff in E as [Esub Eing]. apply bool_decide_eq_false, eq_None_not_Some in Esub.
  assert (Hd : trusting v = false) by (by eapply unsubscribed_distrusts).
  match goal with |- context [if connection_open ?x then _ else _] => set (s1 := x) end.
  change (connection_open s1) with (connection_open s). destruct (connection_open s) eqn:Eo.
  - unfold connection_open, is_live in Eo. destruct (connection (link s)) as [c|] eqn:Ec; [|done]. apply bool_decide_eq_true in Eo.
    apply (subscribe_connected_ok _ _ _ _ c); [|done|done]. apply watchStatus_at_hand; [|done].
    destruct Hs. split; simpl; try done. intros r Hr. by apply no_reconciling0.
  - apply nats_silent, distrusted; [|done]. destruct Hs. split; simpl; try done. rewrite Esub. by intros [? [=]].
Qed.

Lemma nats_opened_ok ok s v : inv s v → keeps_contract inv v (opened true ok s).
Proof.
  intros Hi. pose proof Hi as [Hs Hv]. unfold opened. destruct (subscribing (flow s)) as [who|] eqn:E; [|by apply nats_silent].
  destruct (no_subscribing _ Hs) as (Hsub & Hlost & Ho); [by rewrite E|].
  assert (Hd : trusting v = false) by (by eapply unsubscribed_distrusts). destruct ok.
  - assert (Hl : live (link s) = []).
    { destruct (live (link s)) as [|c l] eqn:El; [done|]. pose proof (open_live s c Hs). rewrite El, Ho in H. discriminate H. by left. }
    apply (subscribe_connected_ok _ _ _ _ (next_connection (link s))); [|done|done]. apply watchStatus_at_hand; [|by left].
    destruct Hs. split; simpl; rewrite ?Hl; try done.
    + intros c ->%list_elem_of_singleton. done.
    + intros r Hr. by apply no_reconciling0.
    + intros c Hc. specialize (no_monitor0 c Hc). rewrite Hl in no_monitor0. by apply not_elem_of_nil in no_monitor0.
  - assert (Hf : inv (with_flow (flow_with None (flow s)) s) v).
    { apply distrusted; [|done]. by apply flow_ok; [|apply Hs|intros [? [=]]]. }
    destruct who; [split; [apply distrusted; [apply Hf|done]|by split_and!]|].
    apply (nats_distrusting v _ [] (OStatus BusError) (proj1 (scheduleResubscribe_ok _ v Hf)) eq_refl), not_elem_of_nil.
Qed.

Lemma nats_timer_fires_ok now s v : inv s v → keeps_contract inv v (timer_fires now true s).
Proof.
  intros [Hs Hv]. unfold timer_fires. destruct (resubscribeTimer (flow s)); [|by split].
  assert (Hf : inv (with_flow (flow_timer None (resubscribeAttempt (flow s)) (flow s)) s) v).
  { split; [|done]. by apply flow_ok; [|apply Hs|]. }
  destruct (_ || _); [by apply nats_silent|by apply nats_subscribe_ok].
Qed.

Lemma handleSubscriptionEnded_ok q now s v :
  inv s v → keeps_contract inv v (handleSubscriptionEnded q now false s).
Proof.
  intros Hi. pose proof Hi as [Hs Hv]. unfold handleSubscriptionEnded.
  destruct (subscription s) as [[q' c]|] eqn:E; [|by apply nats_silent]. destruct (negb _) eqn:En; [by apply nats_silent|].
  apply negb_false_iff, andb_true_iff in En as [_ En]. destruct (is_live c s) eqn:El; [done|]. simpl.
  rewrite (no_serving _ Hs).
  match goal with |- keeps_contract _ _ (scheduleResubscribe ?x, _) => set (s1 := x) end.
  assert (H1 : nats_ok s1).
  { assert (Hn : ¬ is_Some (subscribing (flow s))) by (intros Hx; destruct (no_subscribing _ Hs Hx); congruence).
    destruct (no_subscription _ Hs _ _ E) as [_ Hc]. destruct Hs. split; simpl; try done.
    intros _. left. unfold connection_open. simpl. unfold is_live in *. simpl. by rewrite Hc. }
  refine (nats_distrusting v _ [] (OStatus Disconnected) (proj1 (scheduleResubscribe_ok _ distrust _)) eq_refl (not_elem_of_nil _)).
  by apply distrusted.
Qed.

Lemma monitoring_active s c : monitoring s = Some c → active_monitor s c.
Proof.
  unfold monitoring. destruct (statusMonitor (link s)) as [[c' []]|] eqn:E; try done. intros [= ->]. by exists Listening.
Qed.

Lemma link_down_ok s v : inv s v → keeps_contract inv v (link_down s).
Proof.
  intros [Hs Hv]. unfold link_down. destruct (monitoring s) as [c|] eqn:Em; [|by apply nats_silent].
  pose proof (open_settled s Hs (monitored_open s c Hs (monitoring_active s c Em))) as Hn.
  match goal with |- context [with_epoch ?e ?x] => set (s1 := with_epoch e x) end.
  assert (H1 : nats_ok s1) by (by apply epoch_ok, nats_lose_ok).
  destruct (handlerQueue s1) as [q|]; [|by apply (nats_distrusting v _ []), not_elem_of_nil].
  destruct (queue_keeps_discard limits inv q s1 distrust distrust (distrusted s1 distrust H1 eq_refl) eq_refl) as [[G1 _] G2].
  destruct (on_queue q discardPending s1) as [s2 out]. by apply nats_distrusting.
Qed.

Lemma link_up_ok s v : inv s v → inv (link_up s) v.
Proof.
  intros [Hs Hv]. unfold link_up. destruct (monitoring s) as [c|] eqn:Em; [|done]. split; [|done].
  apply link_ok; try done. intros c' m [= <- <-] _. by apply (no_monitor _ Hs), monitoring_active.
Qed.

Lemma monitor_fails_ok c s v : nats_ok s → subscribing (flow s) = None → keeps_contract inv v (monitor_fails c s).
Proof.
  intros Hs Hn. apply (nats_distrusting v _ [] (OStatus Disconnected)); [|done|apply not_elem_of_nil].
  apply link_ok; [by apply nats_lose_ok|done|done|]. simpl. by intros c' m [= <- <-].
Qed.

Lemma flushed_ok ok s v : inv s v → keeps_contract inv v (flushed ok s).
Proof.
  intros Hi. pose proof Hi as [Hs Hv]. unfold flushed.
  destruct (statusMonitor (link s)) as [[c [|epoch|]]|] eqn:Em; try by apply nats_silent.
  assert (Ha : active_monitor s c) by (by exists (Flushing epoch)).
  pose proof (monitored_open s c Hs Ha) as Ho. pose proof (open_settled s Hs Ho) as Hn.
  destruct ok; simpl; [|by apply monitor_fails_ok]. destruct (is_live c s) eqn:El; [|by apply nats_silent]. simpl.
  apply bool_decide_eq_true in El.
  match goal with |- context [served_by c ?x] => set (s0 := x); set (s1 := served_by c s0) end.
  assert (H0 : nats_ok s0). { apply link_ok; try done. by intros c' m [= <- <-] _. }
  assert (H1 : nats_ok s1) by (by apply served_ok).
  destruct (served_same c s0) as (E1 & E2 & E3 & E4 & E5). fold s1 in E1, E2, E3, E4, E5.
  destruct (_ || _).
  { apply nats_silent. split; [done|]. intros Ht. rewrite E1, E2. by apply Hv. }
  assert (H2 : nats_ok (with_subscription (subscription s1) false (delivering s1) s1)).
  { destruct H1. split; simpl; try done.
    - intros Hx. by destruct (no_subscribing0 Hx) as (? & ? & ?).
    - intros [[q c'] Hx] _. rewrite E1 in Hx. change (subscription s0) with (subscription s) in Hx.
      destruct (no_subscription _ Hs _ _ Hx) as [_ Hc]. rewrite (no_live _ Hs c El) in Hc. injection Hc as <-.
      unfold s1, served_by. change (subscription s0) with (subscription s). by rewrite Hx, Nat.eqb_refl. }
  split; simpl; [|case_bool_decide; by split_and!]. split; [done|]. case_bool_decide as Hx; simpl; intros Ht; [done|].
  exfalso. apply eq_None_not_Some in Hx. rewrite E1 in Hx.
  assert (trusting v = false) by (by apply (unsubscribed_distrusts s)). congruence.
Qed.

Lemma connection_closes_ok c s v : inv s v → keeps_contract inv v (connection_closes c s).
Proof.
  intros [Hs Hv]. unfold connection_closes. change (statusMonitor (link (with_link (close_link false c (link s)) s))) with (statusMonitor (link s)).
  assert (Hk : ∀ m, (∀ c' k, m = Some (c', k) → k ≠ Ended → c' ≠ c ∧ statusMonitor (link s) = Some (c', k)) →
    nats_ok (with_link (watch m (close_link false c (link s))) s)).
  { intros m Hm. apply link_ok; [done|done|by intros c' [_ Hc']%list_elem_of_filter|].
    intros c' k E Hk. destruct (Hm c' k E Hk) as [Hne Hmon]. simpl. apply list_elem_of_filter. split; [done|].
    apply (no_monitor _ Hs). by exists k. }
  assert (Hsame : nats_ok (with_link (watch (statusMonitor (link s)) (close_link false c (link s))) s) →
    inv (with_link (close_link false c (link s)) s) v) by (by split).
  destruct (statusMonitor (link s)) as [[c' m]|] eqn:Em; [|by apply nats_silent, Hsame, Hk].
  destruct (Nat.eqb c c') eqn:Ec; simpl.
  - apply Nat.eqb_eq in Ec as <-. destruct m as [|e|].
    + apply nats_silent. split; [|done]. apply (Hk (Some (c, Ended))). by intros ? ? [= <- <-].
    + assert (Hn : subscribing (flow s) = None) by (apply open_settled, (monitored_open s c); [done|done|by exists (Flushing e)]).
      apply (nats_distrusting v _ [] (OStatus Disconnected)); [|done|apply not_elem_of_nil].
      apply (nats_lose_ok (delivering s) (with_link (watch (Some (c, Ended)) (close_link false c (link s))) s)); [|done].
      apply Hk. by intros ? ? [= <- <-].
    + apply nats_silent, Hsame, Hk. by intros ? ? [= <- <-].
  - apply Nat.eqb_neq in Ec. apply nats_silent, Hsame, Hk. intros c2 k [= <- <-] _. done.
Qed.

Lemma reconcile_settles_ok i ok s v : inv s v → keeps_contract inv v (reconcile_settles i ok s).
Proof.
  intros Hi. pose proof Hi as [Hs Hv]. unfold reconcile_settles.
  destruct (reconciling s !! i) as [[epoch oc]|] eqn:Er; [|by apply nats_silent].
  destruct (no_reconciling _ Hs (epoch, oc)) as [[c Hoc] Hq]; [by eapply list_elem_of_lookup_2|]. simpl in Hoc. subst oc.
  set (s1 := with_reconciling (delete i (reconciling s)) s).
  assert (H1 : nats_ok s1).
  { destruct Hs. split; simpl; try done. intros r Hr. apply no_reconciling0.
    eapply elem_of_submseteq; [exact Hr|]. apply sublist_submseteq, sublist_delete. }
  destruct ok; simpl; [|by apply (nats_distrusting v _ [] (OStatus BusError)), not_elem_of_nil].
  destruct (is_live c s) eqn:El; simpl; [|by apply nats_silent]. apply bool_decide_eq_true in El.
  pose proof (served_ok c s1 H1) as H2. destruct (served_same c s1) as (E1 & E2 & E3 & E4 & E5).
  set (s2 := served_by c s1) in *. destruct (_ || _) eqn:Eo.
  { apply nats_silent. split; [done|]. intros Ht. rewrite E1, E2. by apply Hv. }
  apply orb_false_iff in Eo as [[_ Hl]%orb_false_iff _].
  split; [|by split_and!]. split; [by apply needs_ok|]. intros _. simpl. split_and!; [|done|done].
  rewrite E1. change (subscription s1) with (subscription s).
  destruct (subscription s) eqn:Es; [done|]. destruct (no_unsubscribed _ Hs Es) as [Ho|]; [|done].
  rewrite (open_live s c Hs El) in Ho. done.
Qed.

Lemma markHandlerGap_ok s v : inv s v → keeps_view inv v (markHandlerGap s) ∧ trusting (foldl view_step v (markHandlerGap s).2) = false.
Proof.
  intros [Hs Hv]. unfold markHandlerGap. rewrite (no_serving _ Hs). simpl. split; [|done]. split; [|set_solver].
  apply distrusted; [by apply needs_ok|done].
Qed.

Lemma delivery_ok q id o s v : inv s v → keeps_view inv v (delivery q id o s).
Proof.
  intros Hi. unfold delivery. destruct (negb _); [split; [done|apply not_elem_of_nil]|].
  destruct o; [by apply (keeps_settle limits inv)| |by apply (keeps_settle limits inv)].
  destruct (markHandlerGap_ok s v Hi) as [[H1 H2] _]. destruct (markHandlerGap s) as [s1 out1].
  destruct (keeps_settle limits inv q id false s1 _ H1) as [G1 G2]. destruct (on_queue q (settle_item id false) s1) as [s2 out2].
  simpl in *. split; simpl; [by rewrite foldl_app|]. rewrite elem_of_app. tauto.
Qed.

(** The message is put into the subscription's open queue. *)
Lemma nats_message_ok m s v :
  inv s v → keeps_view inv v (match subscription s with Some (q, _) => deliver limits m q s | None => (s, []) end).
Proof.
  intros Hi. destruct (subscription s) as [[q c]|] eqn:E; [|split; [done|apply not_elem_of_nil]].
  apply (keeps_deliver limits inv); [done|]. intros h Hh.
  destruct (no_subscription _ (proj1 Hi) q c E) as [(h' & Hh' & Hc) _]. simpl in Hh. by simplify_eq.
Qed.

Lemma getConnection_ok s v : inv s v → inv (getConnection s) v.
Proof.
  intros Hi. unfold getConnection. destruct (connection_open s) eqn:E; [by apply watchStatus_ok|].
  split; [|apply Hi]. apply link_ok; try done; [apply Hi|]. intros c m Hm Hne. apply (no_monitor _ (proj1 Hi)). by exists m.
Qed.

(** Every event in service keeps the bus and the view. *)
Lemma nats_step_ok s v e : in_service e = true → inv s v → keeps_contract inv v (nats_step limits s e).
Proof.
  intros He Hi. pose proof Hi as [Hs Hv].
  destruct e as [now prompt|prompt ok|now prompt|q now alive| | | |ok|i ok|m| | |q id o|q id|c| | | |ok|];
    simpl in He; try (subst prompt); cbn [nats_step].
  - by apply nats_subscribe_ok.
  - destruct ok; [subst prompt; by apply nats_opened_ok|]. change (opened prompt false s) with (opened true false s). by apply nats_opened_ok.
  - by apply nats_timer_fires_ok.
  - destruct alive; [done|]. by apply handleSubscriptionEnded_ok.
  - by apply link_down_ok.
  - by apply nats_silent, link_up_ok.
  - destruct (monitoring s); [|by apply nats_silent]. by apply (nats_distrusting v _ [] (OStatus BusError)), not_elem_of_nil.
  - by apply flushed_ok.
  - by apply reconcile_settles_ok.
  - by apply nats_keeps, nats_message_ok.
  - case_bool_decide; [by apply nats_keeps, markHandlerGap_ok|by apply nats_silent].
  - destruct (delivering s) eqn:Ed; [by apply nats_silent|]. split; [|done]. split; [done|]. intros Ht. simpl in Ht.
    destruct (Hv Ht) as (H1 & H2 & _). rewrite (no_served _ Hs H1 H2) in Ed. done.
  - by apply nats_keeps, delivery_ok.
  - apply nats_keeps. by apply (keeps_release limits inv).
  - by apply connection_closes_ok.
  - apply nats_silent, getConnection_ok. split; [by apply flow_ok|done].
  - split; [|by split_and!]. by split.
  - by apply nats_silent, getConnection_ok.
  - destruct ok; [done|]. destruct (dialing (link s)); [by apply nats_silent|]. apply nats_silent. split; [|done].
    apply link_ok; try done. intros c m Hm Hne. apply (no_monitor _ Hs). by exists m.
  - done.
Qed.
End invariant.

(** ** The contract *)

Section contract.
Context (limits : HandlerLimits) (injected : bool).

#[local] Instance nats_ops : BusOps nats_bus nats_event :=
  {| bus_new := newNatsEventBus injected; bus_step := nats_step limits; covered := in_service |}.

Lemma nats_new_ok : inv limits (newNatsEventBus injected) distrust.
Proof.
  split; [|done]. destruct injected; split; simpl; try done; try (by intros ? []%not_elem_of_nil); try (by right);
    try (by intros [? [=]]); try (by intros ? (? & [=] & _)).
  by intros c ->%list_elem_of_singleton.
Qed.

Lemma nats_run_inv es :
  forallb in_service es = true →
  inv limits (bus_run es).1 (view_of (bus_run es).2) ∧ resolved_in_trust distrust (bus_run es).2.
Proof. intros Hes. exact (bus_run_inv _ nats_new_ok (λ b v e, nats_step_ok limits b v e) es Hes). Qed.

#[local] Instance nats_trusted : TrustedBus nats_bus nats_event.
Proof.
  apply (trusted_by_invariant (inv limits)); [apply nats_new_ok|intros; by apply nats_step_ok|].
  intros b v [_ Hv] Ht. by apply Hv.
Qed.
End contract.

(** ** Recovery *)

#[local] Existing Instance nats_host.

(** The delay before the [n]-th attempt in a row. *)
Lemma resubscribe_delay s d :
  0 <= resubscribeAttempt (flow s) → resubscribeTimer (flow s) = None →
  resubscribeTimer (flow (scheduleResubscribe s)) = Some d →
  RESUBSCRIBE_INITIAL_DELAY_MS <= d <= RESUBSCRIBE_MAX_DELAY_MS.
Proof.
  unfold scheduleResubscribe, RESUBSCRIBE_INITIAL_DELAY_MS, RESUBSCRIBE_MAX_DELAY_MS. intros Ha Hn.
  destruct (_ || _); [congruence|]. simpl. intros [= <-]. pose proof (Z.pow_pos_nonneg 2 (resubscribeAttempt (flow s) + 1 - 1)). lia.
Qed.

(** A link that comes back: with no other change of the transport meanwhile, the
    answered flush restores trust. *)
Lemma nats_reconnects limits s c q :
  statusMonitor (link s) = Some (c, Listening) → is_live c s = true → closed (flow s) = false → subscription s = Some (q, c) →
  let '(s1, _) := nats_step limits s LinkDown in
  let '(s2, _) := nats_step limits s1 LinkUp in
  let '(s3, out) := nats_step limits s2 (Flushed true) in
  out = [OStatus Ready; OStatus Subscribed] ∧ subscriptionLost s3 = false ∧ delivering s3 = true.
Proof.
  intros Hm Hl Hc Hs. cbn [nats_step]. unfold link_down, monitoring. rewrite Hm.
  match goal with |- context [with_epoch ?e ?x] => set (s1 := with_epoch e x) end.
  assert (Hr : ∃ s2 out, match handlerQueue s1 with None => (s1, []) | Some q => on_queue q discardPending s1 end = (s2, out) ∧
    link s2 = link s ∧ flow s2 = flow s ∧ subscription s2 = subscription s).
  { destruct (handlerQueue s1) as [q0|]; [|by eexists _, _].
    assert (Hst : ∀ {X} (f : nats_bus → X), (∀ s o, f (nats_callback s o).1 = f s) → (∀ qs s, f (with_queues (handlerQueue s) qs s) = f s) →
      f (on_queue q0 discardPending s1).1 = f s1) by (intros X f H1 H2; by apply (on_queue_stable f)).
    pose proof (Hst _ link) as H1. pose proof (Hst _ flow) as H2. pose proof (Hst _ subscription) as H3.
    destruct (on_queue q0 discardPending s1) as [s2 out]. eexists _, _. split; [done|]. simpl in *.
    split_and!; [apply H1|apply H2|apply H3]; try done; intros s' o; destruct o as [|? []| | |]; simpl; unfold markHandlerGap; by repeat case_match. }
  destruct Hr as (s2 & out & -> & E1 & E2 & E3). unfold link_up, monitoring. rewrite E1, Hm.
  unfold flushed. simpl. unfold is_live in *. simpl. rewrite Hl. simpl. unfold served_by. simpl.
  rewrite E3, Hs, Nat.eqb_refl. simpl. by rewrite E2, Hc, Z.eqb_refl.
Qed.

(** C12: in every history of core subscriptions in which the server has a
    subscription before the next message for it, no subscription ends while its
    connection is open, no connection is opened for [publish], [connect] or
    [healthCheck], and [disconnect] is not called, a [subscribe] that registers
    its handler resolves only after ['subscribed'], with no status against it
    since; and as long as ['subscribed'] is the last status with a meaning for
    trust, no message has been lost since it, there is a subscription on the
    bus's connection, it is not marked lost, the server delivers to it and its
    queue is open. *)
Theorem nats_trust_sound limits injected es :
  let bus := nats_ops limits injected in
  let w := bus_run es in
  forallb in_service es = true →
  (∀ pre post, w.2 = pre ++ OResolved :: post → trusting (view_of pre) = true) ∧
  (trusting (view_of w.2) = true →
   missed (view_of w.2) = false ∧ subscriptionLost w.1 = false ∧ delivering w.1 = true ∧
   ∃ q c h, subscription w.1 = Some (q, c) ∧ connection (link w.1) = Some c ∧ queues w.1 !! q = Some h ∧
     HandlerQueue.closed h.1 = false ∧ reachable (hstep limits) (newHandlerQueue, []) h).
Proof.
  cbv zeta. intros Hes. destruct (nats_run_inv limits injected es Hes) as [[Hb Hv] Hr].
  split; [intros pre post; by apply resolved_explicit|intros Ht].
  destruct (Hv Ht) as ([[q c] Hs] & Hl & Hm). destruct (no_subscription _ _ Hb q c Hs) as [(h & Hh & Hc) Hcon].
  split_and!; [done|done|by apply (no_served _ _ Hb)|]. exists q, c, h. split_and!; try done.
  by apply (no_queues _ _ Hb q).
Qed.

(** ** Situations *)

Definition one_at_a_time : HandlerLimits := {| h_concurrency := 1; h_maxSize := 1; h_maxBytes := 100 |}.

Definition nats_run (es : list nats_event) : nats_bus * list bus_out :=
  bus_run (ops := nats_ops one_at_a_time false) es.

Definition nats_statuses (log : list bus_out) : list EventBusStatus :=
  omap (λ o, match o with OStatus s => Some s | _ => None end) log.

(** A message overflows while another is handled and the link goes down and
    comes back; the queue's idleness asks for a reconciliation. Then recovery
    gives up, and the timer dials again. *)
Definition outage : list nats_event :=
  [Subscribe 0 true; Opened true true; Message [1]; Message [2]; LinkDown; LinkUp; Flushed true;
   Delivery 0 0 Handled; Release 0 0; ReconcileSettles 0 true;
   LinkDown; ConnectionCloses 1; IteratorEnds 0 20000 false; TimerFires 20200 true; Opened true true].

Lemma nats_trust_sound_witness :
  let w := nats_run outage in
  nats_statuses w.2 = [Subscribed; BusError; Disconnected; Ready; Subscribed; Subscribed; Disconnected; Disconnected; Subscribed] ∧
  missed (view_of w.2) = false ∧ delivering w.1 = true.
Proof.
  cbv zeta. split; [vm_compute; reflexivity|].
  destruct (nats_trust_sound one_at_a_time false outage) as [_ Ht]; [vm_compute; reflexivity|].
  destruct Ht as (H1 & _ & H2 & _); [vm_compute; reflexivity|].
  split; [exact H1|exact H2].
Defined.

(** Nothing waits for the server to see the subscription: a message published
    before it does is lost while the bus reports ['subscribed']. *)
Lemma unflushed_subscription_trusts :
  let w := nats_run [Subscribe 0 false; Opened false true; Missed] in
  nats_statuses w.2 = [Subscribed] ∧ view_of w.2 = {| trusting := true; missed := true |}.
Proof. vm_compute. repeat split; reflexivity. Qed.

(** A failed resubscription clears [subscriptionLost]: with the connection
    [publish] has dialled, the bus looks healthy, and the idleness of the old
    queue reports ['subscribed'] with no subscription. *)
Lemma failed_resubscription_trusts :
  let w := nats_run [Subscribe 0 true; Opened true true; Message [1]; CallbackError; ConnectionCloses 1; IteratorEnds 0 20000 false;
    TimerFires 20200 true; Opened true false; GetConnection; Dialled true; Delivery 0 0 Handled; Release 0 0;
    ReconcileSettles 0 true; Missed] in
  subscription w.1 = None ∧ subscriptionLost w.1 = false ∧ connection_open w.1 = true ∧
  view_of w.2 = {| trusting := true; missed := true |}.
Proof. vm_compute. repeat split; reflexivity. Qed.

(** [subscribe] and [publish] dial at the same time: both connections stay
    open, the subscription lives on the first and the monitor watches the
    second. *)
Lemma concurrent_dials_split :
  let w := nats_run [Subscribe 0 true; GetConnection; Opened true true; Dialled true] in
  live (link w.1) = [2%nat; 1%nat] ∧ subscription w.1 = Some (0%nat, 1%nat) ∧ connection (link w.1) = Some 2%nat ∧
  statusMonitor (link w.1) = Some (2%nat, Listening).
Proof. vm_compute. repeat split; reflexivity. Qed.

(** A link lost again while the flush after a reconnect is outstanding ends the
    monitor: later reconnects go unseen, though the server delivers again. *)
Lemma second_outage_ends_the_monitor :
  let w := nats_run [Subscribe 0 true; Opened true true; LinkDown; LinkUp; Flushed false; LinkUp; Flushed true] in
  nats_statuses w.2 = [Subscribed; Disconnected; Disconnected] ∧ subscriptionLost w.1 = true ∧
  statusMonitor (link w.1) = Some (1%nat, Ended) ∧ is_Some (subscription w.1).
Proof. vm_compute. repeat split; by eexists. Qed.

(** An error status, or a callback error while the queue is idle, is not
    followed by a reconciliation. *)
Lemma error_status_sticks :
  let w := nats_run [Subscribe 0 true; Opened true true; LinkError] in
  let w' := nats_run [Subscribe 0 true; Opened true true; CallbackError] in
  trusting (view_of w.2) = false ∧ reconciling w.1 = [] ∧ needsReconciliation w.1 = false ∧ delivering w.1 = true ∧
  trusting (view_of w'.2) = false ∧ reconciling w'.1 = [] ∧ delivering w'.1 = true.
Proof. vm_compute. repeat split; reflexivity. Qed.

(** [disconnect] while [subscribe] dials: the subscription is made all the
    same, and ['subscribed'] follows ['disconnected']. *)
Lemma disconnect_while_dialling :
  let w := nats_run [Subscribe 0 true; Disconnect; Opened true true] in
  nats_statuses w.2 = [Disconnected; Subscribed] ∧ subscription w.1 = Some (0%nat, 1%nat) ∧ closed (flow w.1) = true.
Proof. vm_compute. repeat split; reflexivity. Qed.

(** A [subscribe] on a subscribed bus resolves and registers nothing. *)
Lemma second_nats_subscriber_unheard limits s now prompt :
  is_Some (subscription s) → nats_step limits s (Subscribe now prompt) = (s, [OResolvedIdle]).
Proof. intros Hs. simpl. unfold subscribe. by rewrite bool_decide_true. Qed.
