(* ===== verification/RabbitEventBus.v ===== *)
(** * The RabbitMQ event bus ([src/src/event-bus/rabbitmqEventBus.ts])

    The subscriber side as a state machine: the connection, the single-flight
    [init], the consumer, its delivery queue ([HandlerQueue.v]), the reconnect
    timer and the [subscribe] calls still waiting for the broker. The broker and
    amqplib are the environment: they open and close the connection or a
    channel, answer, cancel a consumer and push messages. A request on an open
    channel fails only by closing it. Publishing is [RetryQueue.v] and one
    confirmed publish. *)

From S2P Require Import Prelude Fifo WirePolicy HandlerQueue EventBus BusQueues.

Definition DEFAULT_RABBITMQ_PREFETCH : Z := 32.
Definition RECONNECT_INITIAL_DELAY_MS : Z := 200.
Definition RECONNECT_MAX_DELAY_MS : Z := 30000.

(** ** Construction *)

Record RabbitMQEventBusOptions := {
  o_prefetch : option jsnum;
  o_handlerConcurrency : option jsnum;
  o_handlerMaxSize : option jsnum;
  o_handlerMaxBytes : option jsnum }.

(** The constructor's checks and those of the queue it creates; the limits of
    every queue of the bus. *)
Definition rabbitLimits (o : RabbitMQEventBusOptions) : result string HandlerLimits :=
  let prefetch := o_prefetch o ?? JInt DEFAULT_RABBITMQ_PREFETCH in
  if negb (num_is_safe_integer prefetch) || num_lt prefetch (JInt 1) || num_lt (JInt 65535) prefetch
  then Throw "RabbitMQ prefetch must be a positive integer no greater than 65535"%string
  else handlerLimits {| o_concurrency := Some (o_handlerConcurrency o ?? prefetch);
                        o_maxSize := o_handlerMaxSize o; o_maxBytes := o_handlerMaxBytes o |}.

(** The queues of a bus that could be constructed have usable limits. *)
Lemma rabbitLimits_usable o l :
  rabbitLimits o = Ok l → 0 < h_concurrency l ∧ 0 <= h_maxSize l ∧ 0 <= h_maxBytes l.
Proof. unfold rabbitLimits. cbv zeta. destruct (_ || _); [done|]. apply handlerLimits_usable. Qed.

(** ** State *)

(** Who waits for a [subscribe]: a user of the bus, or [reconnect]. *)
Inductive caller := User | Reconnect.

(** [connection] names the open connection with its two channels, in the order
    of their opening; [handler] names the subscriber. [initPromise]: the pending
    [openConnection], with the handlers the [reconnect] calls waiting for it have
    captured. [subscribing]: the pending [subscribe] calls, with the connection
    of their channel. [consumers] (ghost) are those the broker delivers to. *)
Record rabbit_bus := {
  connection : option nat;
  consumerTag : option nat;
  handler : option nat;
  initPromise : option (list (option nat));
  reconnectTimer : option Z;
  reconnectAttempt : Z;
  closed : bool;
  needsReconciliation : bool;
  handlerQueue : option nat;
  queues : logged;
  subscribing : list (nat * caller);
  consumers : list nat;
  opened_so_far : nat;
  consumers_so_far : nat }.

Definition newRabbitMQEventBus : rabbit_bus :=
  {| connection := None; consumerTag := None; handler := None; initPromise := None; reconnectTimer := None;
     reconnectAttempt := 0; closed := false; needsReconciliation := false; handlerQueue := Some 0%nat;
     queues := [(newHandlerQueue, [])]; subscribing := []; consumers := []; opened_so_far := 0; consumers_so_far := 0 |}.

Definition with_connection (c : option nat) (n : nat) (s : rabbit_bus) : rabbit_bus :=
  {| connection := c; consumerTag := consumerTag s; handler := handler s; initPromise := initPromise s;
     reconnectTimer := reconnectTimer s; reconnectAttempt := reconnectAttempt s; closed := closed s;
     needsReconciliation := needsReconciliation s; handlerQueue := handlerQueue s; queues := queues s;
     subscribing := subscribing s; consumers := consumers s; opened_so_far := n; consumers_so_far := consumers_so_far s |}.

Definition with_consumers (tag : option nat) (all : list nat) (n : nat) (s : rabbit_bus) : rabbit_bus :=
  {| connection := connection s; consumerTag := tag; handler := handler s; initPromise := initPromise s;
     reconnectTimer := reconnectTimer s; reconnectAttempt := reconnectAttempt s; closed := closed s;
     needsReconciliation := needsReconciliation s; handlerQueue := handlerQueue s; queues := queues s;
     subscribing := subscribing s; consumers := all; opened_so_far := opened_so_far s; consumers_so_far := n |}.

Definition with_handler (h : option nat) (isClosed : bool) (s : rabbit_bus) : rabbit_bus :=
  {| connection := connection s; consumerTag := consumerTag s; handler := h; initPromise := initPromise s;
     reconnectTimer := reconnectTimer s; reconnectAttempt := reconnectAttempt s; closed := isClosed;
     needsReconciliation := needsReconciliation s; handlerQueue := handlerQueue s; queues := queues s;
     subscribing := subscribing s; consumers := consumers s; opened_so_far := opened_so_far s; consumers_so_far := consumers_so_far s |}.

Definition with_waits (init : option (list (option nat))) (subs : list (nat * caller)) (s : rabbit_bus) : rabbit_bus :=
  {| connection := connection s; consumerTag := consumerTag s; handler := handler s; initPromise := init;
     reconnectTimer := reconnectTimer s; reconnectAttempt := reconnectAttempt s; closed := closed s;
     needsReconciliation := needsReconciliation s; handlerQueue := handlerQueue s; queues := queues s;
     subscribing := subs; consumers := consumers s; opened_so_far := opened_so_far s; consumers_so_far := consumers_so_far s |}.

Definition with_timer (timer : option Z) (attempt : Z) (s : rabbit_bus) : rabbit_bus :=
  {| connection := connection s; consumerTag := consumerTag s; handler := handler s; initPromise := initPromise s;
     reconnectTimer := timer; reconnectAttempt := attempt; closed := closed s;
     needsReconciliation := needsReconciliation s; handlerQueue := handlerQueue s; queues := queues s;
     subscribing := subscribing s; consumers := consumers s; opened_so_far := opened_so_far s; consumers_so_far := consumers_so_far s |}.

Definition with_queues (needs : bool) (current : option nat) (qs : logged) (s : rabbit_bus) : rabbit_bus :=
  {| connection := connection s; consumerTag := consumerTag s; handler := handler s; initPromise := initPromise s;
     reconnectTimer := reconnectTimer s; reconnectAttempt := reconnectAttempt s; closed := closed s;
     needsReconciliation := needs; handlerQueue := current; queues := qs;
     subscribing := subscribing s; consumers := consumers s; opened_so_far := opened_so_far s; consumers_so_far := consumers_so_far s |}.

Inductive rabbit_event :=
| Init
| Opened (ok : bool)
| Subscribe (h : nat)
| SubscribeSettles (i : nat)
| Cancelled (c : nat)
| Message (c : nat) (encoded : bytes)
| Missed
| EmitterError
| ChannelCloses
| ConnectionCloses
| TimerFires
| Delivery (q id : nat) (o : outcome)
| Release (q id : nat)
| Disconnect.

Section bus.
Context (limits : HandlerLimits).

(** ** Delivery gaps and the delivery queue's callbacks *)

Definition with_needs (needs : bool) (s : rabbit_bus) : rabbit_bus := with_queues needs (handlerQueue s) (queues s) s.

Definition markDeliveryGap (s : rabbit_bus) : rabbit_bus * list bus_out := (with_needs true s, [OStatus BusError]).

(** [handlerQueue?.activeCount || handlerQueue?.pendingCount] *)
Definition busy (s : rabbit_bus) : bool :=
  match handlerQueue s ≫= λ q, queues s !! q with
  | Some (hq, _) => negb (active hq =? 0) || negb (Z.of_nat (length (pending hq)) =? 0)
  | None => false
  end.

Definition reconcileIfIdle (s : rabbit_bus) : rabbit_bus * list bus_out :=
  if negb (needsReconciliation s) || closed s || negb (bool_decide (is_Some (consumerTag s))) || busy s then (s, [])
  else (with_needs false s, [OStatus Subscribed]).

(** [settle] of a message that was not handled reports an error and nacks it
    for good. *)
Definition rabbit_callback (s : rabbit_bus) (o : hout) : rabbit_bus * list bus_out :=
  match o with
  | HStart _ | HSettle _ true => (s, [])
  | HSettle _ false => (s, [OStatus BusError; OLost])
  | HError | HOverflow _ => markDeliveryGap s
  | HIdle => reconcileIfIdle s
  end.

#[local] Instance rabbit_host : QueueHost rabbit_bus :=
  {| queues_of := queues; put_queues := λ qs s, with_queues (needsReconciliation s) (handlerQueue s) qs s;
     callback := rabbit_callback |}.

(** ** Reconnecting *)

Definition scheduleReconnect (s : rabbit_bus) : rabbit_bus :=
  if closed s || bool_decide (is_Some (reconnectTimer s)) then s
  else
    let attempt := reconnectAttempt s + 1 in
    with_timer (Some (Z.min RECONNECT_MAX_DELAY_MS (RECONNECT_INITIAL_DELAY_MS * 2 ^ (attempt - 1)))) attempt s.

(** How [reconnect] ends. *)
Definition reconnect_fails (s : rabbit_bus) : rabbit_bus * list bus_out := (scheduleReconnect s, [OStatus BusError]).
Definition reconnected (s : rabbit_bus) : rabbit_bus := with_timer (reconnectTimer s) 0 s.

(** [subscribe], up to its requests to the broker. *)
Definition subscribe (who : caller) (h : nat) (s : rabbit_bus) : rabbit_bus * list bus_out :=
  match connection s with
  | None => match who with User => (s, [ORejected]) | Reconnect => reconnect_fails s end
  | Some conn =>
      let s1 := with_handler (Some h) (closed s) s in
      let s2 := match handlerQueue s1 with
                | Some _ => s1
                | None => with_queues (needsReconciliation s1) (Some (length (queues s1))) (queues s1 ++ [(newHandlerQueue, [])]) s1
                end in
      if bool_decide (is_Some (consumerTag s2)) then match who with User => (s2, [OResolvedIdle]) | Reconnect => (reconnected s2, []) end
      else (with_waits (initPromise s2) (subscribing s2 ++ [(conn, who)]) s2, [])
  end.

(** The rest of [subscribe]: its channel has answered or is closed. *)
Definition subscribe_settles (i : nat) (s : rabbit_bus) : rabbit_bus * list bus_out :=
  match subscribing s !! i with
  | None => (s, [])
  | Some (conn, who) =>
      let s1 := with_waits (initPromise s) (delete i (subscribing s)) s in
      if bool_decide (connection s = Some conn) then
        let c := consumers_so_far s1 in
        let s2 := with_consumers (Some c) (consumers s1 ++ [c]) (S c) s1 in
        match who with
        | User => (s2, [OStatus Subscribed; OResolved])
        | Reconnect => (reconnected s2, [OStatus Subscribed])
        end
      else match who with User => (s1, [ORejected]) | Reconnect => reconnect_fails s1 end
  end.

(** [init], for [reconnect] with the handler it has captured or for a user. *)
Definition init (waiting : list (option nat)) (s : rabbit_bus) : rabbit_bus :=
  if bool_decide (is_Some (connection s)) then s
  else with_waits (Some (match initPromise s with Some w => w ++ waiting | None => waiting end)) (subscribing s) s.

(** The rest of one [reconnect] after [init]. *)
Definition reconnect_initialized (captured : option nat) (s : rabbit_bus) : rabbit_bus * list bus_out :=
  match captured with Some h => subscribe Reconnect h s | None => (reconnected s, []) end.

Fixpoint resume (f : option nat → rabbit_bus → rabbit_bus * list bus_out) (waiting : list (option nat)) (s : rabbit_bus)
  : rabbit_bus * list bus_out :=
  match waiting with
  | [] => (s, [])
  | w :: rest => let '(s1, out1) := f w s in let '(s2, out2) := resume f rest s1 in (s2, out1 ++ out2)
  end.

(** [openConnection] ends, and the [reconnect] calls that waited go on. *)
Definition opened (ok : bool) (s : rabbit_bus) : rabbit_bus * list bus_out :=
  match initPromise s with
  | None => (s, [])
  | Some waiting =>
      let s1 := with_waits None (subscribing s) s in
      if ok then
        resume reconnect_initialized waiting
          (with_handler (handler s1) false (with_connection (Some (opened_so_far s1)) (S (opened_so_far s1)) s1))
      else resume (λ _, reconnect_fails) waiting s1
  end.

(** The timer's callback and [reconnect] up to its first wait. *)
Definition timer_fires (s : rabbit_bus) : rabbit_bus * list bus_out :=
  match reconnectTimer s with
  | None => (s, [])
  | Some _ =>
      let s1 := with_timer None (reconnectAttempt s) s in
      if closed s1 then (s1, [])
      else if bool_decide (is_Some (connection s1)) then reconnect_initialized (handler s1) s1
      else (init [handler s1] s1, [])
  end.

(** ** Losses *)

Definition discard (s : rabbit_bus) : rabbit_bus * list bus_out :=
  match handlerQueue s with None => (s, []) | Some q => on_queue q discardPending s end.

(** The connection, and with it the channels and the consumers, is given up. *)
Definition lose_connection (s : rabbit_bus) : rabbit_bus * list bus_out :=
  let '(s1, out) := discard (with_consumers None [] (consumers_so_far s) (with_connection None (opened_so_far s) s)) in
  (s1, out ++ [OStatus Disconnected]).

(** [onChannelClose] *)
Definition channel_closes (s : rabbit_bus) : rabbit_bus * list bus_out :=
  if negb (bool_decide (is_Some (connection s))) || closed s then (s, [])
  else let '(s1, out) := lose_connection s in (scheduleReconnect s1, out).

(** [connection.on('close')] *)
Definition connection_closes (s : rabbit_bus) : rabbit_bus * list bus_out :=
  if negb (bool_decide (is_Some (connection s))) then (s, [])
  else let '(s1, out) := lose_connection s in (if closed s1 then s1 else scheduleReconnect s1, out).

(** ** Messages *)

(** A null delivery: the broker has cancelled consumer [c]. *)
Definition cancelled (c : nat) (s : rabbit_bus) : rabbit_bus * list bus_out :=
  if negb (bool_decide (c ∈ consumers s)) then (s, [])
  else
    let '(s1, out) := discard (with_consumers None (filter (λ i, i ≠ c) (consumers s)) (consumers_so_far s) s) in
    (scheduleReconnect s1, out ++ [OStatus Disconnected]).

(** Whether the queue takes the message. *)
Definition accepted (encoded : bytes) (s : rabbit_bus) : bool :=
  match handlerQueue s ≫= λ q, queues s !! q with
  | Some (hq, _) => (enqueueItem limits (byteLength encoded) hq).2
  | None => false
  end.

(** A delivery to one of the consumers; one that is not accepted is lost. *)
Definition message (c : nat) (encoded : bytes) (s : rabbit_bus) : rabbit_bus * list bus_out :=
  if negb (bool_decide (c ∈ consumers s)) then (s, [])
  else
    let '(s1, out1) := match handlerQueue s with Some q => deliver limits encoded q s | None => (s, [OLost]) end in
    if accepted encoded s then (s1, out1)
    else
      let '(s2, out2) := markDeliveryGap s1 in
      let '(s3, out3) := reconcileIfIdle s2 in
      (s3, out1 ++ out2 ++ OStatus BusError :: out3).

(** The chain of an accepted message. *)
Definition delivery (q id : nat) (o : outcome) (s : rabbit_bus) : rabbit_bus * list bus_out :=
  if negb (handling q id s) then (s, [])
  else on_queue q (settle_item id (match o with Handled => true | Undecodable | HandlerFails => false end)) s.

Definition disconnect (s : rabbit_bus) : rabbit_bus * list bus_out :=
  let s1 := with_handler (handler s) true s in
  let '(s2, out) := match handlerQueue s1 with None => (s1, []) | Some q => on_queue q close s1 end in
  let s3 := with_handler None true (with_timer None 0 (with_queues false None (queues s2) s2)) in
  (with_consumers None [] (consumers_so_far s3) (with_connection None (opened_so_far s3) s3), out ++ [OStatus Disconnected]).

Definition rabbit_step (s : rabbit_bus) (e : rabbit_event) : rabbit_bus * list bus_out :=
  match e with
  | Init => (init [] s, [])
  | Opened ok => opened ok s
  | Subscribe h => subscribe User h s
  | SubscribeSettles i => subscribe_settles i s
  | Cancelled c => cancelled c s
  | Message c encoded => message c encoded s
  | Missed => if bool_decide (consumers s = []) then (s, [OLost]) else (s, [])
  | EmitterError => (s, if bool_decide (is_Some (connection s)) then [OStatus BusError] else [])
  | ChannelCloses => channel_closes s
  | ConnectionCloses => connection_closes s
  | TimerFires => timer_fires s
  | Delivery q id o => delivery q id o s
  | Release q id => on_queue q (release_item limits id) s
  | Disconnect => disconnect s
  end.

(** The bus is not taken down. *)
Definition in_service (e : rabbit_event) : bool := match e with Disconnect => false | _ => true end.
End bus.

(** ** The invariant *)

Section invariant.
Context (limits : HandlerLimits).

Record rabbit_ok (s : rabbit_bus) : Prop := {
  ro_consumer : ∀ c, consumerTag s = Some c → c ∈ consumers s;
  ro_queue : ∃ q, handlerQueue s = Some q ∧ open_in (queues s) q;
  ro_queues : queues_ok limits (queues s) }.

Definition view_ok (s : rabbit_bus) (v : view) : Prop := trusting v = true → is_Some (consumerTag s) ∧ missed v = false.

Definition inv (s : rabbit_bus) (v : view) : Prop := rabbit_ok s ∧ view_ok s v.

Lemma rabbit_distrusted s v : rabbit_ok s → trusting v = false → inv s v.
Proof. intros Hs Hv. split; [done|]. intros Ht. congruence. Qed.

#[local] Existing Instance rabbit_host.

Lemma reconcileIfIdle_cases s :
  reconcileIfIdle s = (s, []) ∨ (reconcileIfIdle s = (with_needs false s, [OStatus Subscribed]) ∧ is_Some (consumerTag s)).
Proof.
  unfold reconcileIfIdle. destruct (_ || _) eqn:E; [by left|]. right. split; [done|].
  apply orb_false_iff in E as [[_ E]%orb_false_iff _]. by apply negb_false_iff, bool_decide_eq_true in E.
Qed.

Lemma reconcileIfIdle_ok s v : inv s v → keeps_view inv v (reconcileIfIdle s).
Proof.
  intros [Hs Hv]. destruct (reconcileIfIdle_cases s) as [-> | [-> Hc]]; [split; [done|apply not_elem_of_nil]|].
  split; [split; [destruct Hs; by split|by intros _]|]. simpl. set_solver.
Qed.

#[local] Instance rabbit_invariant : HostInvariant limits inv.
Proof.
  split.
  - intros s v v' [Hs _] Hv. by apply rabbit_distrusted.
  - intros s v q h e [[H1 (q' & H2 & H3) H4] Hv] Hq He. simpl in *. split; [|done]. split; simpl; try done.
    + exists q'. split; [done|]. apply open_in_step; [done|by left|done].
    + by apply queues_ok_step.
  - done.
  - done.
  - intros s id. split; [done|]. simpl. set_solver.
  - intros s v o Ho [Hs Hv]. assert (Hg : rabbit_callback s o = (with_needs true s, [OStatus BusError])) by (by destruct Ho as [-> | [b ->]]).
    simpl. rewrite Hg. split; [|done]. apply rabbit_distrusted; [destruct Hs; by split|done].
  - intros s o. destruct o as [|id []| | |]; simpl; try done. by destruct (reconcileIfIdle_cases s) as [-> | [-> _]].
  - done.
  - intros s v Hi _. by apply reconcileIfIdle_ok.
  - intros s o. destruct o as [|id []| | |]; simpl; try set_solver.
    destruct (reconcileIfIdle_cases s) as [-> | [-> _]]; simpl; set_solver.
Qed.

Lemma rabbit_keeps v r : keeps_view inv v r → keeps_contract inv v r.
Proof. intros [H1 H2]. split; [done|by apply resolved_in_trust_silent]. Qed.

Lemma keeps_nothing s v : inv s v → keeps_view inv v (s, []).
Proof. intros Hi. split; [done|apply not_elem_of_nil]. Qed.

(** A status that ends trust. *)
Lemma keeps_distrusting s v out o :
  rabbit_ok s → ends_trust o = true → OResolved ∉ out → keeps_view inv v (s, out ++ [o]).
Proof.
  intros Hs Ho Hout. assert (o ≠ OResolved) by (by intros ->).
  split; simpl; [|rewrite elem_of_app, list_elem_of_singleton; naive_solver].
  apply rabbit_distrusted; [done|]. rewrite foldl_app. by destruct o as [[]| | | |].
Qed.

(** *** The steps *)

Lemma scheduleReconnect_ok s v : inv s v → inv (scheduleReconnect s) v.
Proof. intros [[] Hv]. unfold scheduleReconnect. by destruct (_ || _). Qed.

Lemma reconnect_fails_ok s v : inv s v → keeps_view inv v (reconnect_fails s).
Proof.
  intros Hi. apply (keeps_distrusting _ v [] (OStatus BusError)); [|done|apply not_elem_of_nil].
  by apply (scheduleReconnect_ok s v).
Qed.

Lemma rabbit_subscribe_ok who h s v : inv s v → keeps_view inv v (subscribe who h s).
Proof.
  intros Hi. pose proof Hi as [Hs Hv]. unfold subscribe. destruct (connection s) as [conn|].
  - destruct (ro_queue _ Hs) as (q & Hq & Ho). cbv zeta. change (handlerQueue (with_handler (Some h) (closed s) s)) with (handlerQueue s).
    rewrite Hq. cbn [fst snd]. case_bool_decide; [destruct who|].
    + split; [by split; [destruct Hs|]|]. by intros [= ?]%list_elem_of_singleton.
    + apply keeps_nothing. by split; [destruct Hs|].
    + apply keeps_nothing. by split; [destruct Hs|].
  - destruct who; [|by apply reconnect_fails_ok]. split; [done|]. simpl. set_solver.
Qed.

Lemma subscribe_settles_ok i s v : inv s v → keeps_contract inv v (subscribe_settles i s).
Proof.
  intros [Hs Hv]. unfold subscribe_settles. destruct (subscribing s !! i) as [[conn who]|]; [|by split].
  assert (H1 : inv (with_waits (initPromise s) (delete i (subscribing s)) s) v) by (split; [by destruct Hs|done]).
  case_bool_decide.
  - assert (H2 : rabbit_ok (with_consumers (Some (consumers_so_far s)) (consumers s ++ [consumers_so_far s]) (S (consumers_so_far s))
      (with_waits (initPromise s) (delete i (subscribing s)) s))).
    { destruct Hs. split; simpl; try done. intros c [= <-]. apply elem_of_app. right. by apply list_elem_of_singleton. }
    destruct who; (split; [split; [by destruct H2|by intros _]|by split_and!]).
  - apply rabbit_keeps. destruct who; [|by apply reconnect_fails_ok]. split; [by destruct H1|]. simpl. set_solver.
Qed.

Lemma rabbit_resume_ok f waiting s v :
  (∀ w s v, inv s v → keeps_view inv v (f w s)) → inv s v → keeps_view inv v (resume f waiting s).
Proof.
  intros Hf. revert s v. induction waiting as [|w rest IH]; intros s v Hi; simpl; [by apply keeps_nothing|].
  destruct (Hf w s v Hi) as [H1 H2]. destruct (f w s) as [s1 out1]. destruct (IH s1 _ H1) as [G1 G2].
  destruct (resume f rest s1) as [s2 out2]. simpl in *. split; simpl; [by rewrite foldl_app|]. rewrite elem_of_app. tauto.
Qed.

Lemma reconnect_initialized_ok w s v : inv s v → keeps_view inv v (reconnect_initialized w s).
Proof.
  intros Hi. destruct w as [h|]; [by apply rabbit_subscribe_ok|]. apply keeps_nothing. destruct Hi as [[] Hv]. by split.
Qed.

Lemma rabbit_opened_ok ok s v : inv s v → keeps_view inv v (opened ok s).
Proof.
  intros Hi. unfold opened. destruct (initPromise s) as [w|]; [|by apply keeps_nothing]. destruct Hi as [[] Hv].
  destruct ok; apply rabbit_resume_ok; try done; [apply reconnect_initialized_ok|by intros _; apply reconnect_fails_ok].
Qed.

Lemma rabbit_timer_fires_ok s v : inv s v → keeps_view inv v (timer_fires s).
Proof.
  intros Hi. unfold timer_fires. destruct (reconnectTimer s); [|by apply keeps_nothing].
  assert (H1 : inv (with_timer None (reconnectAttempt s) s) v) by (destruct Hi as [[] Hv]; by split).
  cbv zeta. destruct (closed _); [by apply keeps_nothing|]. case_bool_decide; [by apply reconnect_initialized_ok|].
  apply keeps_nothing. unfold init. case_bool_decide; [done|]. destruct H1 as [[] Hv]. by split.
Qed.

Lemma discard_ok s v : rabbit_ok s → trusting v = false → rabbit_ok (discard s).1 ∧ OResolved ∉ (discard s).2.
Proof.
  intros Hs Hv. unfold discard. destruct (handlerQueue s) as [q|]; [|split; [done|apply not_elem_of_nil]].
  destruct (queue_keeps_discard limits inv q s v v (rabbit_distrusted s v Hs Hv) Hv) as [[H1 _] H2]. done.
Qed.

Lemma without_consumers_ok all n s : rabbit_ok s → rabbit_ok (with_consumers None all n s).
Proof. intros []. by split. Qed.

(** What a loss does: the connection or the consumer is gone, and what waits is
    discarded. *)
Lemma loss_ok s v s' :
  rabbit_ok s' → s = (discard s').1 → keeps_view inv v (scheduleReconnect s, (discard s').2 ++ [OStatus Disconnected]) ∧
  keeps_view inv v (s, (discard s').2 ++ [OStatus Disconnected]).
Proof.
  intros Hs ->. destruct (discard_ok s' distrust Hs eq_refl) as [H1 H2]. split; (apply keeps_distrusting; [|done|done]); [|done].
  by apply (scheduleReconnect_ok _ distrust), rabbit_distrusted.
Qed.

Lemma rabbit_message_ok c m s v : inv s v → keeps_view inv v (message limits c m s).
Proof.
  intros Hi. unfold message. destruct (negb _); [by apply keeps_nothing|].
  destruct (ro_queue _ (proj1 Hi)) as (q & Hq & h & Hh & Hc). rewrite Hq.
  destruct (keeps_deliver limits inv m q s v Hi) as [H1 H2]; [intros h' Hh'; simpl in Hh'; by simplify_eq|].
  destruct (deliver limits m q s) as [s1 out1]. destruct (accepted _ _ _); [by split|].
  assert (H3 : inv (with_needs true s1) (view_step (view_step (foldl view_step v out1) (OStatus BusError)) (OStatus BusError))).
  { apply rabbit_distrusted; [|done]. destruct H1 as [[] _]. by split. }
  destruct (reconcileIfIdle_ok _ _ H3) as [H4 H5]. unfold markDeliveryGap.
  destruct (reconcileIfIdle (with_needs true s1)) as [s3 out3]. simpl in *. split; simpl; [by rewrite foldl_app|].
  rewrite elem_of_app, !elem_of_cons. naive_solver.
Qed.

Lemma rabbit_step_ok s v e : in_service e = true → inv s v → keeps_contract inv v (rabbit_step limits s e).
Proof.
  intros He Hi. pose proof Hi as [Hs Hv].
  destruct e as [|ok|h|i|c|c m| | | | | |q id o|q id|]; cbn [rabbit_step].
  4: by apply subscribe_settles_ok.
  all: apply rabbit_keeps.
  - apply keeps_nothing. unfold init. case_bool_decide; [done|]. destruct Hs. by split.
  - by apply rabbit_opened_ok.
  - by apply rabbit_subscribe_ok.
  - unfold cancelled. destruct (negb _); [by apply keeps_nothing|]. match goal with |- context [discard ?x] => set (s' := x) end.
    pose proof (loss_ok _ v s' (without_consumers_ok _ _ _ Hs) eq_refl) as [H _]. by destruct (discard s').
  - by apply rabbit_message_ok.
  - case_bool_decide as Hc; [|by apply keeps_nothing]. split; [|simpl; set_solver]. split; [done|]. intros Ht. simpl in Ht.
    destruct (Hv Ht) as [[c Hx] _]. apply (ro_consumer _ Hs) in Hx. rewrite Hc in Hx. by apply not_elem_of_nil in Hx.
  - case_bool_decide; [|by apply keeps_nothing]. by apply (keeps_distrusting s v [] (OStatus BusError)), not_elem_of_nil.
  - unfold channel_closes, lose_connection. destruct (_ || _); [by apply keeps_nothing|]. match goal with |- context [discard ?x] => set (s' := x) end.
    assert (H1 : rabbit_ok s') by (apply without_consumers_ok; by destruct Hs).
    pose proof (loss_ok _ v s' H1 eq_refl) as [H _]. by destruct (discard s').
  - unfold connection_closes, lose_connection. destruct (negb _); [by apply keeps_nothing|]. match goal with |- context [discard ?x] => set (s' := x) end.
    assert (H1 : rabbit_ok s') by (apply without_consumers_ok; by destruct Hs).
    pose proof (loss_ok _ v s' H1 eq_refl) as [H G]. destruct (discard s') as [s1 out]. by destruct (closed s1).
  - by apply rabbit_timer_fires_ok.
  - unfold delivery. destruct (negb _); [by apply keeps_nothing|]. by apply (keeps_settle limits inv).
  - by apply (keeps_release limits inv).
  - done.
Qed.
End invariant.

(** ** The contract *)

Section contract.
Context (limits : HandlerLimits).

#[local] Instance rabbit_ops : BusOps rabbit_bus rabbit_event :=
  {| bus_new := newRabbitMQEventBus; bus_step := rabbit_step limits; covered := in_service |}.

Lemma rabbit_new_ok : inv limits newRabbitMQEventBus distrust.
Proof.
  split; [|done]. split; simpl; [done| |]; [exists 0%nat; split; [done|exact (open_in_new [])]|by apply (queues_ok_new limits [])].
Qed.

Lemma rabbit_run_inv es :
  forallb in_service es = true →
  inv limits (bus_run es).1 (view_of (bus_run es).2) ∧ resolved_in_trust distrust (bus_run es).2.
Proof. intros Hes. exact (bus_run_inv _ rabbit_new_ok (λ b v e, rabbit_step_ok limits b v e) es Hes). Qed.

#[local] Instance rabbit_trusted : TrustedBus rabbit_bus rabbit_event.
Proof.
  apply (trusted_by_invariant (inv limits)); [apply rabbit_new_ok|intros; by apply rabbit_step_ok|].
  intros b v [_ Hv] Ht. by apply Hv.
Qed.
End contract.

(** ** Recovery is always under way *)

Section healing.
Context (limits : HandlerLimits).
#[local] Existing Instance rabbit_host.

(** What the delivery queues do not touch. *)
Definition core (s : rabbit_bus) :=
  (connection s, consumerTag s, handler s, (initPromise s, reconnectTimer s, closed s, subscribing s)).

(** A retry is scheduled, waits for the connection, or waits for the broker. *)
Definition recovering (s : rabbit_bus) : Prop :=
  is_Some (reconnectTimer s) ∨ (∃ w h, initPromise s = Some w ∧ Some h ∈ w) ∨
  (∃ c who, connection s = Some c ∧ (c, who) ∈ subscribing s).

Record healing (s : rabbit_bus) : Prop := {
  he_closed : closed s = true → handler s = None ∧ connection s = None;
  he_retry : closed s = false → is_Some (handler s) → consumerTag s = None → recovering s }.

Lemma healing_core s s' : core s' = core s → healing s → healing s'.
Proof.
  intros [= H1 H2 H3 H4 H5 H6 H7] [G1 G2]. unfold recovering in *.
  split; rewrite ?H1, ?H2, ?H3, ?H4, ?H5, ?H6, ?H7; [done|]. unfold recovering. by rewrite ?H1, ?H4, ?H5, ?H7.
Qed.

Lemma callback_core s o : core (rabbit_callback s o).1 = core s.
Proof. destruct o as [|id []| | |]; simpl; try done. by destruct (reconcileIfIdle_cases s) as [-> | [-> _]]. Qed.

Lemma on_queue_core q f s : core (on_queue q f s).1 = core s.
Proof. apply (on_queue_stable core); [apply callback_core|done]. Qed.

Lemma discard_core s : core (discard s).1 = core s.
Proof. unfold discard. destruct (handlerQueue s); [apply on_queue_core|done]. Qed.

Lemma message_core c m s : core (message limits c m s).1 = core s.
Proof.
  unfold message. destruct (negb _); [done|].
  assert (H1 : core (match handlerQueue s with Some q => deliver limits m q s | None => (s, [OLost]) end).1 = core s).
  { destruct (handlerQueue s); [|done]. apply (deliver_stable limits core); [apply callback_core|done]. }
  destruct (match handlerQueue s with Some q => _ | None => _ end) as [s1 out1]. simpl in H1. destruct (accepted _ _ _); [done|].
  unfold markDeliveryGap. destruct (reconcileIfIdle_cases (with_needs true s1)) as [-> | [-> _]]; by rewrite <-H1.
Qed.

(** A scheduled reconnect is a recovery. *)
Lemma scheduled s :
  (closed s = true → handler s = None ∧ connection s = None) → healing (scheduleReconnect s).
Proof.
  intros Hc. unfold scheduleReconnect. destruct (closed s) eqn:E; [simpl; split; [intros _; by apply Hc|congruence]|]. simpl.
  case_bool_decide as Ht; (split; [simpl; congruence|intros _ _ _; left]); [done|by eexists].
Qed.

Lemma subscribe_heals who h s :
  closed s = false → (is_Some (handler s) → consumerTag s = None → connection s = None → recovering s) →
  healing (subscribe who h s).1 ∧ closed (subscribe who h s).1 = false ∧ connection (subscribe who h s).1 = connection s ∧
  consumerTag (subscribe who h s).1 = consumerTag s.
Proof.
  intros Hc Hr. unfold subscribe. destruct (connection s) as [conn|] eqn:Ec.
  - cbv zeta. set (s2 := match handlerQueue _ with Some _ => _ | None => _ end).
    assert (H2 : closed s2 = false ∧ connection s2 = Some conn ∧ consumerTag s2 = consumerTag s) by (unfold s2; by destruct (handlerQueue _)).
    destruct H2 as (H2 & H3 & H4). case_bool_decide as Ht; simpl.
    + destruct who; simpl; (split_and!; [|done..]; split; simpl; [congruence|]; intros _ _ Hn; rewrite Hn in Ht; by destruct Ht).
    + split_and!; [|done..]. split; simpl; [congruence|]. intros _ _ _. right. right. exists conn, who. simpl. split; [done|].
      apply elem_of_app. right. by apply list_elem_of_singleton.
  - destruct who; simpl.
    + split_and!; [|done..]. split; [congruence|]. intros _ Hh Hn. by apply Hr.
    + assert (Hs : connection (scheduleReconnect s) = None ∧ closed (scheduleReconnect s) = false ∧
        consumerTag (scheduleReconnect s) = consumerTag s) by (unfold scheduleReconnect; by destruct (_ || _)).
      split_and!; [apply scheduled; congruence|apply Hs..].
Qed.

Lemma reconnected_heals s : healing s → healing (reconnected s).
Proof. by apply healing_core. Qed.

Lemma resume_initialized_heals n w s :
  closed s = false → connection s = Some n → healing s ∨ (∃ h, Some h ∈ w) →
  healing (resume reconnect_initialized w s).1 ∧ connection (resume reconnect_initialized w s).1 = Some n.
Proof.
  revert s. induction w as [|x w IH]; intros s Hc Hn Hw; simpl.
  { destruct Hw as [Hs|[h []%not_elem_of_nil]]. done. }
  assert (H1 : ∃ s1 out, reconnect_initialized x s = (s1, out) ∧ closed s1 = false ∧ connection s1 = Some n ∧
    (healing s1 ∨ (∃ h, Some h ∈ w))).
  { destruct x as [h|]; simpl.
    - destruct (subscribe_heals Reconnect h s Hc) as (G1 & G2 & G3 & _); [congruence|]. destruct (subscribe Reconnect h s) as [s1 out].
      simpl in *. eexists _, _. split_and!; [done|done|congruence|by left].
    - eexists _, _. split_and!; [done|done|done|]. destruct Hw as [Hw|[h Hw]]; [left; by apply reconnected_heals|right].
      apply elem_of_cons in Hw as [[=]|Hw]. by exists h. }
  destruct H1 as (s1 & out & -> & G1 & G2 & G3). specialize (IH s1 G1 G2 G3). by destruct (resume reconnect_initialized w s1).
Qed.

Lemma resume_fails_heals w s :
  (closed s = true → handler s = None ∧ connection s = None) → healing s ∨ w ≠ [] →
  healing (resume (λ _, reconnect_fails) w s).1 ∧ connection (resume (λ _, reconnect_fails) w s).1 = connection s.
Proof.
  revert s. induction w as [|x w IH]; intros s Hc Hw; simpl; [by destruct Hw|].
  pose proof (scheduled s Hc) as Hs. assert (Hk : connection (scheduleReconnect s) = connection s) by (unfold scheduleReconnect; by destruct (_ || _)).
  destruct (IH (scheduleReconnect s) (he_closed _ Hs) (or_introl Hs)) as [G1 G2].
  destruct (resume (λ _, reconnect_fails) w (scheduleReconnect s)). simpl in *. split; congruence.
Qed.

(** While [openConnection] is pending there is no connection. *)
Definition healthy (s : rabbit_bus) : Prop := healing s ∧ (is_Some (initPromise s) → connection s = None).

Lemma healthy_core s s' : core s' = core s → healthy s → healthy s'.
Proof. intros Hc [H1 H2]. split; [by eapply healing_core|]. injection Hc as E1 _ _ E4 _ _ _. by rewrite E1, E4. Qed.

Lemma subscribe_init who h s : initPromise (subscribe who h s).1 = initPromise s.
Proof.
  unfold subscribe, reconnect_fails, scheduleReconnect.
  destruct (connection s); [|destruct who; simpl; by repeat case_match]. destruct (handlerQueue _); case_bool_decide; by destruct who.
Qed.

Lemma schedule_healthy s :
  (closed s = true → handler s = None ∧ connection s = None) → (is_Some (initPromise s) → connection s = None) →
  healthy (scheduleReconnect s).
Proof. intros H1 H2. split; [by apply scheduled|]. unfold scheduleReconnect. by destruct (_ || _). Qed.

Lemma opened_healthy ok s : healthy s → healthy (opened ok s).1.
Proof.
  intros [[H1 H2] H3]. unfold opened. destruct (initPromise s) as [w|] eqn:Ei; [|split; [by split|simpl; by rewrite Ei]].
  assert (Hn : connection s = None) by (by apply H3; eexists). cbv zeta.
  assert (Hi : ∀ f w s, (∀ x s, initPromise (f x s).1 = initPromise s) → initPromise (resume f w s).1 = initPromise s).
  { clear. intros f w. induction w as [|x w IH]; intros s Hf; simpl; [done|]. specialize (Hf x s) as Hx.
    destruct (f x s) as [s1 o1]. specialize (IH s1 Hf). destruct (resume f w s1). simpl in *. congruence. }
  assert (Hr : closed s = false → is_Some (handler s) → consumerTag s = None → is_Some (reconnectTimer s) ∨ (∃ h, Some h ∈ w)).
  { intros Hc Hh Ht. destruct (H2 Hc Hh Ht) as [Hr|[(w' & h & Hw & Hx)|(c & who & Hx & _)]]; [by left| |congruence].
    right. exists h. congruence. }
  destruct ok.
  - match goal with |- healthy (resume _ _ ?x).1 => set (s1 := x) end.
    assert (Hs1 : healing s1 ∨ (∃ h, Some h ∈ w)).
    { destruct (closed s) eqn:Ec; [left; split; simpl; [done|]; intros _ [h Hh]; destruct (H1 eq_refl); congruence|].
      destruct (handler s) as [h|] eqn:Eh; [|left; split; simpl; [done|]; rewrite Eh; by intros _ [? [=]]].
      destruct (consumerTag s) as [t|] eqn:Et; [left; split; simpl; [done|]; congruence|].
      destruct (Hr eq_refl) as [Hx|Hx]; [done|done| |by right]. left. split; simpl; [done|]. intros _ _ _. by left. }
    destruct (resume_initialized_heals (opened_so_far s) w s1 eq_refl eq_refl Hs1) as [G1 G2]. split; [done|].
    rewrite Hi; [|intros [h|] s'; [apply subscribe_init|done]]. simpl. by intros [? [=]].
  - match goal with |- healthy (resume _ _ ?x).1 => set (s1 := x) end.
    assert (Hs1 : healing s1 ∨ w ≠ []).
    { destruct w as [|x w]; [|by right]. left. split; simpl; [done|]. intros Hc Hh Ht.
      destruct (Hr Hc Hh Ht) as [Hx|[h []%not_elem_of_nil]]. by left. }
    destruct (resume_fails_heals w s1 H1 Hs1) as [G1 G2]. split; [done|].
    rewrite Hi; [simpl; by intros [? [=]]|]. intros _ s'. simpl. unfold scheduleReconnect. by destruct (_ || _).
Qed.

Lemma subscribe_healthy who h s : healthy s → healthy (subscribe who h s).1.
Proof.
  intros [[H1 H2] H3]. pose proof (subscribe_init who h s) as Hi. unfold healthy. rewrite Hi. destruct (closed s) eqn:Ec.
  - destruct (H1 eq_refl) as [Hh Hn]. unfold subscribe. rewrite Hn. destruct who; simpl; [by split; [split|]; rewrite ?Ec|].
    unfold scheduleReconnect. rewrite Ec. simpl. by split; [split|]; rewrite ?Ec.
  - destruct (subscribe_heals who h s Ec) as (G1 & _ & G2 & _); [intros; by apply H2|]. rewrite G2. done.
Qed.

Lemma subscribe_settles_healthy i s : healthy s → healthy (subscribe_settles i s).1.
Proof.
  intros [[H1 H2] H3]. unfold subscribe_settles. destruct (subscribing s !! i) as [[conn who]|] eqn:Ei; [|by split].
  case_bool_decide as Hc; cbv zeta.
  - destruct who; (split; [split; simpl; [done|by intros _ _]|done]).
  - destruct who; simpl; [|by apply schedule_healthy]. split; [split; simpl; [done|]|done]. intros Hcl Hh Ht.
    destruct (H2 Hcl Hh Ht) as [Hr|[Hr|(c & w & Hn & Hin)]]; [by left|by right; left|]. right. right. exists c, w. split; [done|]. simpl.
    apply list_elem_of_lookup in Hin as [j Hj]. rewrite (delete_take_drop _ i), elem_of_app.
    destruct (decide (j < i)%nat) as [Hlt|Hge].
    + left. apply list_elem_of_lookup. exists j. by rewrite lookup_take_lt.
    + right. assert (j ≠ i) by (intros ->; congruence). apply list_elem_of_lookup. exists (j - S i)%nat.
      rewrite lookup_drop. by replace (S i + (j - S i))%nat with j by lia.
Qed.

Lemma timer_fires_healthy s : healthy s → healthy (timer_fires s).1.
Proof.
  intros [[H1 H2] H3]. unfold timer_fires. destruct (reconnectTimer s) eqn:Et; [|split; [by split|done]].
  cbv zeta. simpl. destruct (closed s) eqn:Ec; [split; [split; simpl; [intros _; by apply H1|congruence]|done]|].
  destruct (connection s) as [n|] eqn:En; simpl.
  - assert (Hi : initPromise s = None) by (destruct (initPromise s) eqn:Ei; [specialize (H3 ltac:(by eexists)); discriminate H3|done]).
    destruct (handler s) as [h|] eqn:Eh; simpl.
    + pose proof (subscribe_init Reconnect h (with_timer None (reconnectAttempt s) s)) as Hj.
      destruct (subscribe_heals Reconnect h (with_timer None (reconnectAttempt s) s)) as (G1 & _ & G2 & _); [done|simpl; congruence|].
      split; [done|]. rewrite Hj. simpl. rewrite Hi. by intros [? [=]].
    + split; [split; simpl; [congruence|]|]; simpl; rewrite ?Eh, ?Hi; [intros _|]; by intros [? [=]].
  - unfold init. simpl. rewrite En. simpl. split; [split; simpl; [congruence|]|done]. intros _ [h Hh] _. right. left. simpl.
    eexists _, h. split; [done|]. rewrite Hh. destruct (initPromise s); [apply elem_of_app; right|]; by apply list_elem_of_singleton.
Qed.

Lemma loss_healthy s tag n all k :
  healthy s → closed s = false → healthy (scheduleReconnect (discard (with_consumers tag all k (with_connection None n s))).1).
Proof.
  intros [_ H3] Hc. pose proof (discard_core (with_consumers tag all k (with_connection None n s))) as E.
  destruct (discard _) as [s1 out]. injection E as E1 E2 E3 E4 E5 E6 E7. simpl in *.
  apply schedule_healthy; [congruence|]. by rewrite E1.
Qed.

Lemma rabbit_step_healthy s e : healthy s → healthy (rabbit_step limits s e).1.
Proof.
  intros Hs0.
  destruct e as [|ok|h|i|c|c m| | | | | |q id o|q id|]; cbn [rabbit_step].
  - destruct Hs0 as [[H1 H2] H3]. unfold init. case_bool_decide as Hc; [by split; [split|]|]. apply eq_None_not_Some in Hc.
    split; [split; simpl; [done|]|done]. intros Hcl Hh Ht. destruct (H2 Hcl Hh Ht) as [Hr|[(w & h & Hw & Hx)|(c & who & Hn & _)]]; [by left| |congruence].
    right. left. simpl. rewrite Hw. eexists _, h. split; [done|]. by apply elem_of_app; left.
  - by apply opened_healthy.
  - by apply subscribe_healthy.
  - by apply subscribe_settles_healthy.
  - unfold cancelled. destruct (negb _); [done|]. destruct Hs0 as [[H1 H2] H3].
    pose proof (discard_core (with_consumers None (filter (λ i, i ≠ c) (consumers s)) (consumers_so_far s) s)) as E.
    destruct (discard _) as [s1 out]. injection E as E1 E2 E3 E4 E5 E6 E7. simpl in *.
    apply schedule_healthy; rewrite ?E1, ?E3, ?E4, ?E6; done.
  - eapply healthy_core; [apply message_core|done].
  - by case_bool_decide.
  - by case_bool_decide.
  - unfold channel_closes, lose_connection. destruct (_ || closed s) eqn:Eb; [done|]. apply orb_false_iff in Eb as [_ Eb].
    pose proof (loss_healthy s None (opened_so_far s) [] (consumers_so_far s) Hs0 Eb) as Hl. by destruct (discard _).
  - unfold connection_closes, lose_connection. destruct (negb _) eqn:En; [done|]. apply negb_false_iff, bool_decide_eq_true in En as [n En].
    assert (Hc : closed s = false) by (destruct (closed s) eqn:Ec; [destruct (he_closed _ (proj1 Hs0) Ec); congruence|done]).
    pose proof (loss_healthy s None (opened_so_far s) [] (consumers_so_far s) Hs0 Hc) as Hl.
    pose proof (discard_core (with_consumers None [] (consumers_so_far s) (with_connection None (opened_so_far s) s))) as E.
    destruct (discard _) as [s1 out]. injection E as _ _ _ _ _ E6 _. simpl in *. by rewrite E6, Hc.
  - by apply timer_fires_healthy.
  - unfold delivery. destruct (negb _); [done|]. eapply healthy_core; [apply on_queue_core|done].
  - eapply healthy_core; [apply on_queue_core|done].
  - unfold disconnect. destruct (match handlerQueue _ with Some _ => _ | None => _ end) as [s2 out]. simpl.
    split; [split; simpl; [done|]|done]. intros [=].
Qed.

(** C15: recovery is always under way: after any history, a bus that is not
    closed, has a handler and has no consumer has a reconnect timer running, a
    reconnect waiting for the connection to open, or a subscription waiting for
    the broker on the open connection. *)
Theorem rabbit_never_stuck es :
  let s := (bus_run (ops := rabbit_ops limits) es).1 in
  closed s = false → is_Some (handler s) → consumerTag s = None → recovering s.
Proof.
  cbv zeta. cut (healthy (bus_run (ops := rabbit_ops limits) es).1); [intros [Hh _]; apply (he_retry _ Hh)|].
  induction es as [|e es IH] using rev_ind; [split; [split; simpl; [done|]|done]; by intros _ [? [=]]|].
  rewrite bus_run_snoc. unfold bus_log_step. destruct (bus_run es) as [s log]. simpl in *.
  pose proof (rabbit_step_healthy s e IH). by destruct (rabbit_step limits s e).
Qed.
End healing.

(** An answered reconnect restores the consumer. *)
Lemma rabbit_recovers limits s h d :
  reconnectTimer s = Some d → closed s = false → connection s = None → initPromise s = None → handler s = Some h →
  consumerTag s = None → is_Some (handlerQueue s) →
  let '(s1, _) := rabbit_step limits s TimerFires in
  let '(s2, _) := rabbit_step limits s1 (Opened true) in
  let '(s3, out) := rabbit_step limits s2 (SubscribeSettles (length (subscribing s))) in
  out = [OStatus Subscribed] ∧ is_Some (consumerTag s3) ∧ consumers s3 ≠ [] ∧ reconnectAttempt s3 = 0.
Proof.
  intros Ht Hc Hn Hi Hh Htag [q Hq]. cbn [rabbit_step]. unfold timer_fires. rewrite Ht. simpl. rewrite Hc. simpl.
  unfold init. simpl. rewrite Hn. simpl. rewrite Hi, Hh. unfold opened. simpl. unfold subscribe. simpl. rewrite Hq. simpl. rewrite Htag. simpl.
  unfold subscribe_settles. simpl. rewrite list_lookup_middle by done. simpl. rewrite bool_decide_true by done. simpl.
  split_and!; [done|by eexists|by intros [_ [=]]%app_eq_nil|done].
Qed.

(** The delay before the [n]-th attempt in a row. *)
Lemma reconnect_delay s d :
  0 <= reconnectAttempt s → reconnectTimer s = None → reconnectTimer (scheduleReconnect s) = Some d →
  RECONNECT_INITIAL_DELAY_MS <= d <= RECONNECT_MAX_DELAY_MS.
Proof.
  unfold scheduleReconnect, RECONNECT_INITIAL_DELAY_MS, RECONNECT_MAX_DELAY_MS. intros Ha Hn.
  destruct (_ || _); [congruence|]. simpl. intros [= <-]. pose proof (Z.pow_pos_nonneg 2 (reconnectAttempt s + 1 - 1)). lia.
Qed.

(** C14: in every history in which [disconnect] is not called, a [subscribe] that
    starts a consumer resolves only after ['subscribed'], with no status against
    it since; and as long as ['subscribed'] is the last status with a meaning for
    trust, no message has been lost since it, the bus's consumer is one the
    broker delivers to, and its delivery queue is open. *)
Theorem rabbit_trust_sound limits es :
  let bus := rabbit_ops limits in
  let w := bus_run es in
  forallb in_service es = true →
  (∀ pre post, w.2 = pre ++ OResolved :: post → trusting (view_of pre) = true) ∧
  (trusting (view_of w.2) = true →
   missed (view_of w.2) = false ∧ (∃ c, consumerTag w.1 = Some c ∧ c ∈ consumers w.1) ∧
   ∃ q h, handlerQueue w.1 = Some q ∧ queues w.1 !! q = Some h ∧ HandlerQueue.closed h.1 = false ∧
     reachable (hstep limits) (newHandlerQueue, []) h).
Proof.
  cbv zeta. intros Hes. destruct (rabbit_run_inv limits es Hes) as [[Hb Hv] Hr].
  split; [intros pre post; by apply resolved_explicit|intros Ht].
  destruct (Hv Ht) as [[c Hc] Hm]. destruct (ro_queue _ _ Hb) as (q & Hq & h & Hh & Hcl). split_and!; [done| |].
  - exists c. split; [done|]. by apply (ro_consumer _ _ Hb).
  - exists q, h. split_and!; try done. by apply (ro_queues _ _ Hb q).
Qed.

(** ** Health *)

Record bus_health := { ok : bool; initialized : bool; consuming : bool }.

(** [healthCheck], after its [connect]. *)
Definition healthCheck (connected : bool) (s : rabbit_bus) : bus_health :=
  let initialized := bool_decide (is_Some (connection s)) in
  if connected then
    let consuming := negb (bool_decide (is_Some (handler s))) || bool_decide (is_Some (consumerTag s)) in
    {| ok := consuming; initialized := initialized; consuming := consuming |}
  else {| ok := false; initialized := initialized; consuming := false |}.

(** A healthy bus with a handler has a consumer at the broker. *)
Lemma rabbit_health_truthful limits es c :
  let s := (bus_run (ops := rabbit_ops limits) es).1 in
  forallb in_service es = true → ok (healthCheck c s) = true → handler s = None ∨ ∃ tag, consumerTag s = Some tag ∧ tag ∈ consumers s.
Proof.
  cbv zeta. intros Hes. destruct (rabbit_run_inv limits es Hes) as [[Hb _] _]. unfold healthCheck. destruct c; [|done]. simpl.
  intros [H|H]%orb_true_iff.
  - left. apply negb_true_iff, bool_decide_eq_false in H. by apply eq_None_not_Some.
  - right. apply bool_decide_eq_true in H as [tag Ht]. exists tag. split; [done|]. by apply (ro_consumer _ _ Hb).
Qed.

(** ** Situations *)

Definition one_at_a_time : HandlerLimits := {| h_concurrency := 1; h_maxSize := 1; h_maxBytes := 100 |}.

Definition rabbit_run (es : list rabbit_event) : rabbit_bus * list bus_out :=
  bus_run (ops := rabbit_ops one_at_a_time) es.

Definition rabbit_statuses (log : list bus_out) : list EventBusStatus :=
  omap (λ o, match o with OStatus s => Some s | _ => None end) log.

(** A message overflows while another is handled; the consumer is cancelled,
    then the connection is lost and the first reconnect fails. *)
Definition rabbit_outage : list rabbit_event :=
  [Init; Opened true; Subscribe 7; SubscribeSettles 0; Message 0 [1]; Message 0 [2]; Delivery 0 0 Handled; Release 0 0;
   Cancelled 0; TimerFires; ConnectionCloses; SubscribeSettles 0; TimerFires; Opened false].

Lemma rabbit_never_stuck_witness :
  let w := rabbit_run rabbit_outage in
  consumerTag w.1 = None ∧ reconnectTimer w.1 = Some 800 ∧ recovering w.1.
Proof.
  cbv zeta. split_and!; [vm_compute; reflexivity|vm_compute; reflexivity|].
  apply (rabbit_never_stuck one_at_a_time rabbit_outage); [vm_compute; reflexivity|vm_compute; by eexists|vm_compute; reflexivity].
Defined.

Lemma rabbit_trust_sound_witness :
  let w := rabbit_run (rabbit_outage ++ [TimerFires; Opened true; SubscribeSettles 0]) in
  rabbit_statuses w.2 = [Subscribed; BusError; BusError; BusError; Subscribed; Disconnected; Disconnected; BusError; BusError; Subscribed] ∧
  missed (view_of w.2) = false.
Proof.
  cbv zeta. split; [vm_compute; reflexivity|].
  destruct (rabbit_trust_sound one_at_a_time (rabbit_outage ++ [TimerFires; Opened true; SubscribeSettles 0])) as [_ Ht];
    [vm_compute; reflexivity|]. apply Ht. vm_compute. reflexivity.
Defined.

(** [disconnect] while a reconnect opens the connection: the bus comes back to
    life, with the handler it had given up. *)
Lemma disconnect_undone :
  let w := rabbit_run [Init; Opened true; Subscribe 7; SubscribeSettles 0; ConnectionCloses; TimerFires; Disconnect; Opened true; SubscribeSettles 0] in
  rabbit_statuses w.2 = [Subscribed; Disconnected; Disconnected; Subscribed] ∧ closed w.1 = false ∧ handler w.1 = Some 7%nat ∧
  consumerTag w.1 = Some 1%nat.
Proof. vm_compute. repeat split; reflexivity. Qed.

(** A second [subscribe] resolves at once and takes the handler's place without
    a status: the first subscriber goes on trusting a bus that no longer calls it. *)
Lemma second_subscriber_takes_over :
  let w := rabbit_run [Init; Opened true; Subscribe 7; SubscribeSettles 0; Subscribe 8] in
  rabbit_statuses w.2 = [Subscribed] ∧ handler w.1 = Some 8%nat.
Proof. vm_compute. repeat split; reflexivity. Qed.

(** Two [subscribe] calls that overlap make two consumers: every message of the
    exchange is handled twice. *)
Lemma overlapping_subscribes_duplicate :
  let w := rabbit_run [Init; Opened true; Subscribe 7; Subscribe 7; SubscribeSettles 0; SubscribeSettles 0] in
  consumers w.1 = [0%nat; 1%nat] ∧ consumerTag w.1 = Some 1%nat.
Proof. vm_compute. repeat split; reflexivity. Qed.
