(* ===== verification/BusPublish.v ===== *)
(** * Publication on the event buses ([publish] of redisEventBus.ts,
      natsEventBus.ts and rabbitmqEventBus.ts in [src/src/event-bus])

    The three buses publish alike: flush the retry queue, send the event, and
    enqueue it when either fails. The machine runs any number of [publish] calls
    over the queue of [RetryQueue.v]; the transport's answers, the settlement of
    a flush and the continuations of its waiters come in any order. Calls that
    arrive during a flush wait for the same one. *)

From S2P Require Import Prelude Fifo WirePolicy RetryQueue.

Section publish.
Context {E : Type} (encode : E → option bytes) (decode : bytes → option E) (limits : RetryLimits).

(** A call waits for flush number [flush], or for its own send; then it has
    resolved, or rejected with its event kept under a number or dropped, or it
    was refused before it did anything. *)
Inductive pcall :=
| Flushing (ev : E) (flush : nat)
| Sending (ev : E)
| Sent (ev : E)
| Failed (ev : E) (kept : option nat)
| Refused (ev : E).

(** [ended]: how each flush settled; [draining]: how the current one will. *)
Record publisher := {
  queue : rqueue;
  plog : list (rout (E := E));
  calls : list pcall;
  ended : list bool;
  draining : bool }.

Definition newPublisher : publisher :=
  {| queue := newRetryQueue; plog := []; calls := []; ended := []; draining := true |}.

Definition with_queue (r : rqueue * list rout) (p : publisher) : publisher :=
  {| queue := r.1; plog := plog p ++ r.2; calls := calls p; ended := ended p; draining := draining p |}.

Definition with_calls (l : list pcall) (p : publisher) : publisher :=
  {| queue := queue p; plog := plog p; calls := l; ended := ended p; draining := draining p |}.

Definition with_draining (b : bool) (p : publisher) : publisher :=
  {| queue := queue p; plog := plog p; calls := calls p; ended := ended p; draining := b |}.

(** [publish], up to its flush. [ready] is the check that precedes the [try]. *)
Definition publish (ready : bool) (ev : E) (p : publisher) : publisher :=
  if negb ready then with_calls (calls p ++ [Refused ev]) p
  else
    let starts := match rq_phase (queue p) with Idle => true | _ => false end in
    let p1 := with_queue (flush decode (queue p)) p in
    with_draining (starts || draining p) (with_calls (calls p ++ [Flushing ev (length (ended p))]) p1).

(** Redis and NATS check nothing; RabbitMQ needs its publish channel. *)
Definition redis_publish : E → publisher → publisher := publish true.
Definition nats_publish : E → publisher → publisher := publish true.
Definition rabbit_publish (publishChannel : bool) : E → publisher → publisher := publish publishChannel.

(** The [catch] of call [i]. *)
Definition publish_fails (i : nat) (ev : E) (p : publisher) : publisher :=
  let '(q, out, ok) := enqueue encode limits ev (queue p) in
  with_calls (<[i := Failed ev (if ok then Some (rq_next (queue p)) else None)]> (calls p)) (with_queue (q, out) p).

(** Call [i] goes on after its flush. *)
Definition after_flush (i : nat) (p : publisher) : publisher :=
  match calls p !! i with
  | Some (Flushing ev f) =>
      match ended p !! f with
      | Some true => with_calls (<[i := Sending ev]> (calls p)) p
      | Some false => publish_fails i ev p
      | None => p
      end
  | _ => p
  end.

(** The send of call [i] settles. *)
Definition send_settles (i : nat) (ok : bool) (p : publisher) : publisher :=
  match calls p !! i with
  | Some (Sending ev) => if ok then with_calls (<[i := Sent ev]> (calls p)) p else publish_fails i ev p
  | _ => p
  end.

(** The send of the flush settles. *)
Definition flush_send_settles (ok : bool) (p : publisher) : publisher :=
  match rq_phase (queue p) with
  | Publishing =>
      if ok then with_queue (publish_resolves decode (queue p)) p
      else with_draining false (with_queue (publish_rejects (queue p)) p)
  | _ => p
  end.

(** The flush's promise settles. *)
Definition flush_settles (p : publisher) : publisher :=
  match rq_phase (queue p) with
  | Ended =>
      let p1 := with_queue (flush_over (queue p)) p in
      {| queue := queue p1; plog := plog p1; calls := calls p1; ended := ended p ++ [draining p]; draining := true |}
  | _ => p
  end.

(** [disconnect] of a bus. *)
Definition discard_backlog (p : publisher) : publisher := with_queue (clear (queue p)) p.

Inductive pub_event :=
| PPublish (ready : bool) (ev : E) | PFlushSend (ok : bool) | PFlushOver | PContinue (i : nat) | PSend (i : nat) (ok : bool) | PDisconnect.

Definition pub_step (p : publisher) (v : pub_event) : publisher :=
  match v with
  | PPublish ready ev => publish ready ev p
  | PFlushSend ok => flush_send_settles ok p
  | PFlushOver => flush_settles p
  | PContinue i => after_flush i p
  | PSend i ok => send_settles i ok p
  | PDisconnect => discard_backlog p
  end.

(** ** What the queue does with its entries *)

(** No entry changes its number or text, none is made, and what is published is
    an entry's event. *)
Record keeps (q : rqueue) (r : rqueue * list (rout (E := E))) : Prop := {
  ke_events e' : e' ∈ events r.1 → ∃ e, e ∈ events q ∧ e_id e = e_id e' ∧ e_encoded e = e_encoded e';
  ke_next : rq_next r.1 = rq_next q;
  ke_dropped : rq_dropped q <= rq_dropped r.1;
  ke_published id ev : RPublish id ev ∈ r.2 → ∃ e, e ∈ events q ∧ e_id e = id ∧ decode (e_encoded e) = Some ev }.

Definition no_publish (out : list (rout (E := E))) : Prop := ∀ id ev, RPublish id ev ∉ out.

Lemma keeps_sublist q q' out :
  events q' ⊆ events q → rq_next q' = rq_next q → rq_dropped q <= rq_dropped q' → no_publish out → keeps q (q', out).
Proof. intros He Hn Hd Ho. split; [|done|done|]; simpl; [intros e' Hin; exists e'; auto|]. intros id ev H. by apply Ho in H. Qed.

Lemma keeps_trans q q1 o1 r : keeps q (q1, o1) → keeps q1 r → keeps q (r.1, o1 ++ r.2).
Proof.
  intros [] []. simpl in *. split; simpl; [|congruence|lia|].
  - intros e' (e1 & H1 & H2 & H3)%ke_events1. apply ke_events0 in H1 as (e & H4 & H5 & H6). exists e. split_and!; congruence.
  - intros id ev [H|H]%elem_of_app; [by apply ke_published0|]. apply ke_published1 in H as (e1 & H1 & H2 & H3).
    apply ke_events0 in H1 as (e & H4 & H5 & H6). exists e. split_and!; congruence.
Qed.

Lemma remove_by_sub {A} (f : A → nat) id l : remove_by f id l ⊆ l.
Proof. unfold remove_by. intros x. by intros [_ ?]%list_elem_of_filter. Qed.

Lemma evict_keeps q q' id : evict q = Some (q', id) → keeps q (q', []) ∧ rq_dropped q' = rq_dropped q + 1.
Proof.
  unfold evict. destruct (oldest_waiting q) as [e|]; [|done]. intros [= <- _]. split; [|done].
  apply keeps_sublist; [apply remove_by_sub|done|simpl; lia|by intros ? ? ?%elem_of_nil].
Qed.

Lemma quiet_cons o (out : list (rout (E := E))) : (∀ id ev, o ≠ RPublish id ev) → no_publish out → no_publish (o :: out).
Proof. intros Ho H id ev [<-|Hin]%elem_of_cons; [by eapply Ho|by apply H in Hin]. Qed.

Lemma keeps_quiet q q' out : keeps q (q', []) → no_publish out → keeps q (q', out).
Proof. intros [] Ho. split; simpl in *; try done. intros id ev H. by apply Ho in H. Qed.

Lemma pub_quiet_nil : no_publish [].
Proof. by intros ? ? ?%elem_of_nil. Qed.
Hint Resolve pub_quiet_nil : core.

Lemma keeps_refl q out : no_publish out → keeps q (q, out).
Proof. intros Ho. by apply keeps_sublist. Qed.

Lemma keeps_drop q out : no_publish out → keeps q (drop_one q, out).
Proof. intros Ho. apply keeps_sublist; [done|done|simpl; lia|done]. Qed.

Lemma make_room_keeps fuel n q :
  keeps q ((make_room (E := E) limits fuel n q).1, []) ∧ no_publish (make_room (E := E) limits fuel n q).2.
Proof.
  revert q. induction fuel as [|fuel IH]; intros q; cbn [make_room]; [split; [by apply keeps_refl|done]|].
  destruct (_ && _); [|split; [by apply keeps_refl|done]]. destruct (evict q) as [[q' id]|] eqn:Ee.
  - destruct (evict_keeps _ _ _ Ee) as [Hk _]. destruct (IH q') as [I1 I2]. destruct (make_room (E := E) limits fuel n q') as [q'' out].
    simpl in *. split; [by apply (keeps_trans q q' [] (q'', []))|]. apply quiet_cons; [done|]. by apply quiet_cons.
  - split; [by apply keeps_drop|]. by apply quiet_cons.
Qed.

(** [enqueue] appends the event's own text under the next number, or counts it as
    dropped. *)
Lemma enqueue_bytes_keeps b q :
  let '(q', out, ok) := enqueue_bytes (E := E) limits b q in
  no_publish out ∧
  if ok then ∃ q1, keeps q (q1, []) ∧ q' = append b q1 else keeps q (q', []) ∧ rq_dropped q < rq_dropped q'.
Proof.
  unfold enqueue_bytes. destruct (make_room_keeps (length (events q)) (byteLength b) q) as [M1 M2].
  destruct (make_room _ _ _ _) as [q1 out]. simpl in *. destruct (_ <? _).
  - split; [intros id ev [Hin|Hin%list_elem_of_singleton]%elem_of_app; [by apply M2 in Hin|done]|].
    split; [apply (keeps_trans q q1 [] (drop_one q1, [])); [done|by apply keeps_drop]|]. apply ke_dropped in M1. simpl in *. lia.
  - split; [done|]. by exists q1.
Qed.

Lemma enqueue_keeps ev q :
  let '(q', out, ok) := enqueue encode limits ev q in
  no_publish out ∧
  if ok then ∃ b q1, encode ev = Some b ∧ keeps q (q1, []) ∧ q' = append b q1 else keeps q (q', []) ∧ rq_dropped q < rq_dropped q'.
Proof.
  unfold enqueue.
  assert (Hdrop : no_publish [ROverflow] ∧ keeps q (drop_one q, []) ∧ rq_dropped q < rq_dropped (drop_one q)).
  { split_and!; [by apply quiet_cons|by apply keeps_drop|simpl; lia]. }
  destruct (negb _); [done|]. destruct (_ <=? 0); [done|]. destruct (encode ev) as [b|]; [|done].
  destruct (_ || _); [done|]. destruct (_ <=? waitingSize q).
  - destruct (evict q) as [[q1 id]|] eqn:Ee; [|done]. destruct (evict_keeps _ _ _ Ee) as [Hk Hd].
    pose proof (enqueue_bytes_keeps b q1) as H. destruct (enqueue_bytes (E := E) limits b q1) as [[q' out] ok]. destruct H as [H1 H2].
    split; [apply quiet_cons; [done|by apply quiet_cons]|]. destruct ok.
    + destruct H2 as (q2 & H2 & ->). exists b, q2. split_and!; [done| |done]. by apply (keeps_trans q q1 [] (q2, [])).
    + destruct H2 as [H2 H3]. split; [by apply (keeps_trans q q1 [] (q', []))|lia].
  - pose proof (enqueue_bytes_keeps b q) as H. destruct (enqueue_bytes (E := E) limits b q) as [[q' out] ok]. destruct H as [H1 H2].
    split; [done|]. destruct ok; [|done]. destruct H2 as (q2 & H2 & ->). by exists b, q2.
Qed.

Lemma drain_from_keeps evs q : events q = evs → keeps q (drain_from decode evs q).
Proof.
  revert q. induction evs as [|e rest IH]; intros q He; cbn [drain_from].
  - apply keeps_sublist; [done|done|simpl; lia|done].
  - destruct (decode (e_encoded e)) as [ev|] eqn:Ed.
    + split; simpl; [intros e' H; by exists e'|done|lia|]. intros id ev' H%list_elem_of_singleton. injection H as -> ->.
      exists e. split_and!; [rewrite He; by left|done|done].
    + specialize (IH (with_events rest (rq_bytes q - e_bytes e) q) eq_refl).
      assert (Hk : keeps q (with_events rest (rq_bytes q - e_bytes e) q, [RUndecodable (e_id e)])).
      { apply keeps_sublist; [simpl; rewrite He; intros x Hx; by right|done|simpl; lia|by apply quiet_cons]. }
      pose proof (keeps_trans _ _ _ _ Hk IH) as H. destruct (drain_from _ _ _). done.
Qed.

Lemma keeps_prefix q q1 r o : keeps q (q1, []) → no_publish [o] → keeps q1 r → keeps q (r.1, o :: r.2).
Proof. intros H1 Ho H2. apply (keeps_trans q q1 [o] r); [by apply keeps_quiet|done]. Qed.

Lemma flush_keeps q : keeps q (flush decode q).
Proof. unfold flush. destruct (rq_phase q); [by apply drain_from_keeps|by apply keeps_refl..]. Qed.

Lemma resolve_keeps q : keeps q (publish_resolves decode q).
Proof.
  unfold publish_resolves. destruct (rq_phase q), (flushing_entry q) as [e|]; try by apply keeps_refl.
  set (q1 := with_phase Publishing None (delete_entry e q)).
  assert (Hk : keeps q (q1, [])) by (apply keeps_sublist; [apply remove_by_sub|done|simpl; lia|done]).
  pose proof (keeps_prefix q q1 (drain decode q1) (RDelivered (e_id e)) Hk ltac:(by apply quiet_cons) (drain_from_keeps _ q1 eq_refl)) as H.
  by destruct (drain decode q1).
Qed.

Lemma reject_keeps q : keeps q (publish_rejects q).
Proof.
  unfold publish_rejects. destruct (rq_phase q), (flushing_entry q) as [e|]; try by apply keeps_refl.
  destruct (e_discard e); apply keeps_sublist; try done; try (simpl; lia); [apply remove_by_sub|by apply quiet_cons].
Qed.

Lemma over_keeps q : keeps q (flush_over q).
Proof. unfold flush_over. destruct (rq_phase q); try by apply keeps_refl. apply keeps_sublist; [done|done|simpl; lia|done]. Qed.

Lemma clear_keeps q : keeps q (clear q).
Proof.
  assert (Hq : ∀ l : list entry, no_publish (map (λ e, RCleared (e_id e)) l)).
  { intros l id ev H. apply list_elem_of_In, in_map_iff in H as (e & H & _). done. }
  unfold clear. destruct (flushing_entry q) as [e|] eqn:Ef; split; simpl; try done; try lia; try (intros id ev H; by apply Hq in H).
  - intros e' H%list_elem_of_singleton. subst e'. unfold flushing_entry in Ef. destruct (flushingEntry q) as [id|]; [|done]. simpl in Ef.
    apply find_by_Some in Ef as [H1 H2]. by exists e.
  - intros e' H. by apply elem_of_nil in H.
Qed.

(** ** No event is lost unseen *)

Definition kept_id (c : pcall) : option nat := match c with Failed _ (Some id) => Some id | _ => None end.
Definition uncounted (c : pcall) : Z := match c with Failed _ None => 1 | _ => 0 end.

(** The entry of a failed call holds its event, and what is published under its
    number is that event, read back. *)
Record entry_of (p : publisher) (ev : E) (id : nat) : Prop := {
  eo_next : (id < rq_next (queue p))%nat;
  eo_text e : e ∈ events (queue p) → e_id e = id → encode ev = Some (e_encoded e);
  eo_published ev' : RPublish id ev' ∈ plog p → ∃ b, encode ev = Some b ∧ decode b = Some ev' }.

Record pub_ok (p : publisher) : Prop := {
  po_queue : rq_ok limits (queue p, plog p);
  po_kept i ev id : calls p !! i = Some (Failed ev (Some id)) → entry_of p ev id;
  po_distinct : NoDup (omap kept_id (calls p));
  po_dropped : sumZ uncounted (calls p) <= rq_dropped (queue p) }.

Lemma entry_of_keeps p r ev id : keeps (queue p) r → entry_of p ev id → entry_of (with_queue r p) ev id.
Proof.
  intros [] []. split; simpl.
  - by rewrite ke_next0.
  - intros e' (e & H1 & H2 & H3)%ke_events0 <-. rewrite <-H3. by apply eo_text0.
  - intros ev' [H|H]%elem_of_app; [by apply eo_published0|]. apply ke_published0 in H as (e & H1 & H2 & H3).
    exists (e_encoded e). split; [by apply eo_text0|done].
Qed.

Lemma with_queue_ok p r : pub_ok p → keeps (queue p) r → rq_ok limits (r.1, plog p ++ r.2) → pub_ok (with_queue r p).
Proof.
  intros [] Hk Hq. split; simpl; [done| |done|].
  - intros i ev id H. apply entry_of_keeps; [done|]. by eapply po_kept0.
  - pose proof (ke_dropped _ _ Hk). lia.
Qed.

Lemma uncounted_nonneg c : 0 <= uncounted c.
Proof. destruct c as [| | |? []|]; simpl; lia. Qed.

(** A call that has not failed goes on and does not fail now. *)
Definition plain (c : pcall) : Prop := kept_id c = None ∧ uncounted c = 0.

Lemma insert_plain p i c0 c : pub_ok p → calls p !! i = Some c0 → plain c0 → plain c → pub_ok (with_calls (<[i := c]> (calls p)) p).
Proof.
  intros [] Hi [H1 H2] [H3 H4].
  assert (Hsplit : calls p = take i (calls p) ++ c0 :: drop (S i) (calls p)) by (symmetry; by apply take_drop_middle).
  assert (Hins : <[i:=c]> (calls p) = take i (calls p) ++ c :: drop (S i) (calls p)) by (apply insert_take_drop; by eapply lookup_lt_Some).
  split; simpl; [done| | |].
  - intros j ev id Hj. destruct (decide (j = i)) as [->|Hne].
    + rewrite list_lookup_insert_eq in Hj by (by eapply lookup_lt_Some). injection Hj as ->. done.
    + rewrite list_lookup_insert_ne in Hj by done. destruct (po_kept0 j ev id Hj). by split.
  - rewrite Hins. rewrite Hsplit in po_distinct0. rewrite !omap_app in *. cbn [omap list_omap] in *. by rewrite H1 in po_distinct0; rewrite H3.
  - rewrite Hins. rewrite Hsplit in po_dropped0. rewrite !sumZ_app, !sumZ_cons in *. lia.
Qed.

Lemma snoc_plain p c : pub_ok p → plain c → pub_ok (with_calls (calls p ++ [c]) p).
Proof.
  intros [] [H1 H2]. split; simpl; [done| | |].
  - intros j ev id [Hj|[_ Hj]]%lookup_app_Some; [destruct (po_kept0 j ev id Hj); by split|].
    apply list_lookup_singleton_Some in Hj as [_ ->]. done.
  - rewrite omap_app. cbn [omap list_omap]. by rewrite H1, app_nil_r.
  - rewrite sumZ_app, sumZ_cons, sumZ_nil. lia.
Qed.

Lemma published_elem id (log : list (rout (E := E))) : id ∈ published log ↔ ∃ ev, RPublish id ev ∈ log.
Proof.
  unfold published. rewrite list_elem_of_omap. split.
  - intros ([] & Hin & H); try done. injection H as ->. eauto.
  - intros (ev & Hin). by exists (RPublish id ev).
Qed.

Lemma insert_split {A} (l : list A) i c0 c :
  l !! i = Some c0 → l = take i l ++ c0 :: drop (S i) l ∧ <[i := c]> l = take i l ++ c :: drop (S i) l.
Proof. intros Hi. split; [symmetry; by apply take_drop_middle|apply insert_take_drop; by eapply lookup_lt_Some]. Qed.

(** A call fails and its event is counted as dropped. *)
Lemma fail_counted_ok p q' out i c0 ev :
  pub_ok p → calls p !! i = Some c0 → plain c0 → keeps (queue p) (q', out) → rq_dropped (queue p) < rq_dropped q' →
  rq_ok limits (q', plog p ++ out) → pub_ok (with_calls (<[i := Failed ev None]> (calls p)) (with_queue (q', out) p)).
Proof.
  intros Hp Hi [P1 P2] Hk Hd Hq. destruct (with_queue_ok p (q', out) Hp Hk Hq) as [W1 W2 W3 _]. simpl in *.
  destruct (insert_split (calls p) i c0 (Failed ev None) Hi) as [Hsplit Hins]. split; simpl; [done| | |].
  - intros j ev' id Hj. destruct (decide (j = i)) as [->|Hne].
    + rewrite list_lookup_insert_eq in Hj by (by eapply lookup_lt_Some). done.
    + rewrite list_lookup_insert_ne in Hj by done. destruct (W2 j ev' id Hj). by split.
  - rewrite Hins, omap_app. rewrite Hsplit, omap_app in W3. cbn [omap list_omap kept_id] in *. by rewrite P1 in W3.
  - pose proof (po_dropped p Hp) as Hn. rewrite Hins. rewrite Hsplit in Hn. rewrite sumZ_app, sumZ_cons in *. simpl. lia.
Qed.

(** A call fails and its event is kept under the next number. *)
Lemma fail_kept_ok p q1 out i c0 ev b :
  pub_ok p → calls p !! i = Some c0 → plain c0 → encode ev = Some b → keeps (queue p) (q1, []) → no_publish out →
  rq_ok limits (append b q1, plog p ++ out) →
  pub_ok (with_calls (<[i := Failed ev (Some (rq_next (queue p)))]> (calls p)) (with_queue (append b q1, out) p)).
Proof.
  intros [] Hi [P1 P2] He [] Hout Hq. simpl in *.
  assert (Hfresh : ∀ id, id ∈ (e_id <$> events (queue p)) ++ published (plog p) → (id < rq_next (queue p))%nat)
    by apply (oo_fresh _ _ _ (rb_order _ _ (ro_base _ _ po_queue0))).
  destruct (insert_split (calls p) i c0 (Failed ev (Some (rq_next (queue p)))) Hi) as [Hsplit Hins].
  assert (Hkept : ∀ id, id ∈ omap kept_id (calls p) → (id < rq_next (queue p))%nat).
  { intros id (c & Hc & Hid)%list_elem_of_omap. apply list_elem_of_lookup in Hc as [j Hj]. destruct c as [| | |ev' [id'|]|]; try done.
    injection Hid as ->. apply (po_kept0 j ev' id Hj). }
  split; simpl; [done| | |].
  - intros j ev' id Hj. destruct (decide (j = i)) as [->|Hne].
    + rewrite list_lookup_insert_eq in Hj by (by eapply lookup_lt_Some). injection Hj as <- <-. split; simpl.
      * lia.
      * intros e [(e' & H1 & H2 & H3)%ke_events0|Hin%list_elem_of_singleton]%elem_of_app Hid; [|by subst e].
        assert (e_id e' < rq_next (queue p))%nat; [|lia]. apply Hfresh, elem_of_app. left. apply list_elem_of_fmap. eauto.
      * intros ev' [H|H]%elem_of_app; [|by apply Hout in H]. assert (rq_next (queue p) < rq_next (queue p))%nat; [|lia].
        apply Hfresh, elem_of_app. right. apply published_elem. eauto.
    + rewrite list_lookup_insert_ne in Hj by done. destruct (po_kept0 j ev' id Hj). split; simpl.
      * lia.
      * intros e [(e' & H1 & H2 & H3)%ke_events0|Hin%list_elem_of_singleton]%elem_of_app Hid; [rewrite <-H3; apply eo_text0; congruence|].
        subst e. simpl in Hid. lia.
      * intros ev'' [H|H]%elem_of_app; [by apply eo_published0|by apply Hout in H].
  - rewrite Hins, omap_app. rewrite Hsplit, omap_app in po_distinct0, Hkept. cbn [omap list_omap kept_id] in *. rewrite P1 in po_distinct0, Hkept.
    apply NoDup_app in po_distinct0 as (N1 & N2 & N3). apply NoDup_app. split_and!; [done| |].
    + intros x Hx [->|Hx']%elem_of_cons; [|by apply (N2 x)]. pose proof (Hkept _ (proj2 (elem_of_app _ _ _) (or_introl Hx))). lia.
    + apply NoDup_cons. split; [|done]. intros Hx. pose proof (Hkept _ (proj2 (elem_of_app _ _ _) (or_intror Hx))). lia.
  - rewrite Hins. rewrite Hsplit in po_dropped0. rewrite sumZ_app, sumZ_cons in *. simpl. lia.
Qed.

Lemma publish_fails_ok p i c0 ev :
  pub_ok p → calls p !! i = Some c0 → plain c0 → pub_ok (publish_fails i ev p).
Proof.
  intros Hp Hi Hc. unfold publish_fails.
  pose proof (retry_enqueue_ok encode limits ev (queue p) (plog p) (po_queue p Hp)) as Hq. cbv zeta in Hq.
  pose proof (enqueue_keeps ev (queue p)) as Hk. destruct (enqueue encode limits ev (queue p)) as [[q' out] ok]. simpl in Hq.
  destruct Hk as [Hout Hk]. destruct ok.
  - destruct Hk as (b & q1 & He & Hk & ->). by eapply fail_kept_ok.
  - destruct Hk as [Hk Hd]. eapply fail_counted_ok; [done..|by apply keeps_quiet|done|done].
Qed.

Lemma pub_ok_silent p p' : pub_ok p → queue p' = queue p → plog p' = plog p → calls p' = calls p → pub_ok p'.
Proof.
  intros [] H1 H2 H3. split; rewrite ?H1, ?H2, ?H3; try done. intros i ev id Hi. destruct (po_kept0 i ev id Hi). split; by rewrite ?H1, ?H2.
Qed.

Section steps.
Hypotheses (Hbytes : 0 <= r_maxBytes limits) (Hsize : 0 <= r_maxSize limits).

Lemma pub_step_ok p v : pub_ok p → pub_ok (pub_step p v).
Proof.
  intros Hp. pose proof (po_queue p Hp) as Hq. destruct v as [ready ev|ok| |i|i ok|]; cbn [pub_step].
  - unfold publish. destruct (negb ready); [by apply snoc_plain|].
    assert (H1 : pub_ok (with_queue (flush decode (queue p)) p)) by (apply with_queue_ok; [done|apply flush_keeps|by apply flush_ok]).
    eapply pub_ok_silent; [exact (snoc_plain _ (Flushing ev (length (ended p))) H1 ltac:(done))|done..].
  - unfold flush_send_settles. destruct (rq_phase (queue p)); [done| |done]. destruct ok.
    + apply with_queue_ok; [done|apply resolve_keeps|by apply resolve_ok].
    + eapply pub_ok_silent; [exact (with_queue_ok p _ Hp (reject_keeps _) (reject_ok limits _ _ Hq))|done..].
  - unfold flush_settles. destruct (rq_phase (queue p)); [done..|].
    eapply pub_ok_silent; [exact (with_queue_ok p _ Hp (over_keeps _) (over_ok limits _ _ Hq))|done..].
  - unfold after_flush. destruct (calls p !! i) as [[ev f| | | |]|] eqn:Hi; try done. destruct (ended p !! f) as [[]|]; [| |done].
    + by eapply insert_plain.
    + by eapply publish_fails_ok.
  - unfold send_settles. destruct (calls p !! i) as [[|ev| | |]|] eqn:Hi; try done. destruct ok; [by eapply insert_plain|by eapply publish_fails_ok].
  - apply with_queue_ok; [done|apply clear_keeps|by apply clear_retry_ok].
Qed.

Lemma new_publisher_ok : pub_ok newPublisher.
Proof.
  split; simpl; try done; [|apply NoDup_nil_2].
  split; [|done]. split; simpl; try lia. split; simpl; try constructor; try set_solver.
Qed.

(** C16: in every interleaving of publications, transport answers and
    disconnects, the event of a [publish] that rejected after it was let in is
    never lost unseen: it was counted as dropped, or has a number of its own
    under which it is still in the queue, as the text of this event, or has left
    it as delivered, evicted with an overflow report, cleared or undecodable; and
    whatever is published under that number is this event read back. *)
Theorem no_event_lost p :
  reachable pub_step newPublisher p →
  (sumZ uncounted (calls p) <= rq_dropped (queue p)) ∧ NoDup (omap kept_id (calls p)) ∧
  ∀ i ev id, calls p !! i = Some (Failed ev (Some id)) →
    ((∃ e, e ∈ events (queue p) ∧ e_id e = id ∧ encode ev = Some (e_encoded e)) ∨ id ∈ gone (plog p)) ∧
    ∀ ev', RPublish id ev' ∈ plog p → ∃ b, encode ev = Some b ∧ decode b = Some ev'.
Proof.
  intros Hr. assert (Hp : pub_ok p) by (revert p Hr; apply reachable_invariant; [apply new_publisher_ok|apply pub_step_ok]).
  destruct Hp. split_and!; [done..|]. intros i ev id Hi. destruct (po_kept0 i ev id Hi). split; [|done].
  pose proof (oo_once _ _ _ (rb_order _ _ (ro_base _ _ po_queue0))) as Hperm. simpl in Hperm.
  assert (Hin : id ∈ gone (plog p) ++ (e_id <$> events (queue p))) by (rewrite Hperm; apply elem_of_seq; lia).
  apply elem_of_app in Hin as [Hin|Hin]; [by right|left]. apply list_elem_of_fmap in Hin as (e & -> & He). exists e. split_and!; auto.
Qed.
End steps.
End publish.

(** ** Runs *)

Section demo.
Abbreviation step := (pub_step (λ b : bytes, Some b) Some small_retry).

(** A send fails; the next call sends the backlog first, then its own event. *)
Definition retried : list (pub_event (E := bytes)) :=
  [PPublish true [1]; PFlushOver; PContinue 0; PSend 0 false; PPublish true [2]; PFlushSend true; PFlushOver; PContinue 1; PSend 1 true].

Example retried_demo :
  let p := run_events step newPublisher retried in
  calls p = [Failed [1] (Some 0%nat); Sent [2]] ∧ plog p = [RPublish 0 [1]; RDelivered 0] ∧ events (queue p) = [].
Proof. vm_compute. done. Qed.

(** While the RabbitMQ channel is gone, [publish] rejects before its [try]: the
    event is not queued for the next publication. *)
Lemma outage_publication_lost :
  let p := run_events step newPublisher [PPublish false [1]; PPublish true [2]; PFlushOver; PContinue 1; PSend 1 true] in
  calls p = [Refused [1]; Sent [2]] ∧ events (queue p) = [] ∧ plog p = [] ∧ rq_dropped (queue p) = 0.
Proof. vm_compute. done. Qed.

Lemma no_event_lost_witness :
  let p := run_events step newPublisher (take 5 retried) in
  calls p !! 0%nat = Some (Failed [1] (Some 0%nat)) ∧
  ∀ i ev id, calls p !! i = Some (Failed ev (Some id)) →
    ((∃ e, e ∈ events (queue p) ∧ e_id e = id ∧ Some ev = Some (e_encoded e)) ∨ id ∈ gone (plog p)) ∧
    ∀ ev', RPublish id ev' ∈ plog p → ∃ b, Some ev = Some b ∧ Some b = Some ev'.
Proof.
  intros p. split; [reflexivity|].
  apply (no_event_lost (λ b : bytes, Some b) Some small_retry ltac:(simpl; lia) ltac:(simpl; lia) p). apply reachable_run.
Defined.
End demo.
