(* ===== verification/NatsJetStream.v ===== *)
(** * JetStream consumption ([subscribeJetStream] of
      [src/src/event-bus/natsEventBus.ts])

    In JetStream mode the bus reads a durable consumer one message at a time:
    a message is acknowledged, refused for redelivery or terminated before the
    next is taken. The reader is a state machine over deliveries, the handler,
    the flush of a reconciliation, the connection's statuses, [disconnect] and the
    end of the iterator. The stream and the consumer are ensured by a program of
    requests to the server's manager, whose answers are an argument. *)

From S2P Require Import Prelude EventBus.

(** ** Resources *)

Record JetStreamOptions := {
  o_stream : option string;
  durableName : string;
  o_memory : bool;
  o_maxAgeMs : option Z;
  o_maxMsgs : option Z;
  o_ackWaitMs : option Z;
  o_maxDeliver : option Z;
  o_ensureStream : bool;
  o_ensureConsumer : bool }.

Definition getStreamName (o : JetStreamOptions) : string := o_stream o ?? "CACHE_INVALIDATIONS"%string.
Definition nanos (ms : Z) : Z := ms * 1000000.

Record stream_config := { sc_name : string; sc_subject : string; sc_memory : bool; sc_max_age : option Z; sc_max_msgs : Z }.
Record consumer_config := { cc_durable : string; cc_subject : string; cc_ack_wait : Z; cc_max_deliver : Z }.

Inductive manager_request :=
| StreamInfo (stream : string)
| StreamAdd (c : stream_config)
| ConsumerInfo (stream durable : string)
| ConsumerAdd (stream : string) (c : consumer_config)
| Consume (stream durable : string) (max_bytes : Z).

Section resources.
Context {F : Type} (answer : manager_request → result F unit) (subject : string) (o : JetStreamOptions).

(** A program answers and lists its requests. *)
Definition asks (r : manager_request) : result F unit * list manager_request := (answer r, [r]).

Definition or_else (m n : result F unit * list manager_request) : result F unit * list manager_request :=
  match m with (Ok u, l) => (Ok u, l) | (Throw _, l) => (n.1, l ++ n.2) end.

Definition and_then (m n : result F unit * list manager_request) : result F unit * list manager_request :=
  match m with (Ok _, l) => (n.1, l ++ n.2) | (Throw e, l) => (Throw e, l) end.

Definition stream_of : stream_config :=
  {| sc_name := getStreamName o; sc_subject := subject; sc_memory := o_memory o; sc_max_age := nanos <$> o_maxAgeMs o;
     sc_max_msgs := o_maxMsgs o ?? -1 |}.

Definition consumer_of : consumer_config :=
  {| cc_durable := durableName o; cc_subject := subject; cc_ack_wait := nanos (o_ackWaitMs o ?? 30000);
     cc_max_deliver := o_maxDeliver o ?? 10 |}.

Definition ensureStream : result F unit * list manager_request :=
  or_else (asks (StreamInfo (getStreamName o))) (asks (StreamAdd stream_of)).

Definition ensureConsumer : result F unit * list manager_request :=
  or_else (asks (ConsumerInfo (getStreamName o) (durableName o))) (asks (ConsumerAdd (getStreamName o) consumer_of)).

Definition ensureJetStreamResources : result F unit * list manager_request :=
  and_then (if o_ensureStream o then ensureStream else (Ok tt, []))
    (if o_ensureConsumer o then ensureConsumer else (Ok tt, [])).

(** [subscribeJetStream], up to its reader. *)
Definition open_consumer (max_bytes : option Z) : result F unit * list manager_request :=
  and_then ensureJetStreamResources (asks (Consume (getStreamName o) (durableName o) (max_bytes ?? 16 * 1024 * 1024))).

(** A consumer is read only when the stream and the consumer are there or have
    just been made, each made at most once and only when its lookup failed. *)
Lemma open_consumer_ready max_bytes u l :
  open_consumer max_bytes = (Ok u, l) →
  (o_ensureStream o = true → is_ok (answer (StreamInfo (getStreamName o))) || is_ok (answer (StreamAdd stream_of)) = true) ∧
  (o_ensureConsumer o = true →
     is_ok (answer (ConsumerInfo (getStreamName o) (durableName o))) || is_ok (answer (ConsumerAdd (getStreamName o) consumer_of)) = true) ∧
  (StreamAdd stream_of ∈ l → is_ok (answer (StreamInfo (getStreamName o))) = false) ∧
  (ConsumerAdd (getStreamName o) consumer_of ∈ l → is_ok (answer (ConsumerInfo (getStreamName o) (durableName o))) = false) ∧
  last l = Some (Consume (getStreamName o) (durableName o) (max_bytes ?? 16 * 1024 * 1024)).
Proof.
  unfold open_consumer, ensureJetStreamResources, ensureStream, ensureConsumer, asks, or_else, and_then.
  destruct (o_ensureStream o), (o_ensureConsumer o), (answer (StreamInfo _)), (answer (ConsumerInfo _ _)); cbn [fst snd app];
    try destruct (answer (StreamAdd _)); cbn [fst snd app]; try destruct (answer (ConsumerAdd _ _)); cbn [fst snd app]; try done;
    intros [= _ <-]; split_and!; try done; rewrite !elem_of_cons; intros H; destruct_or!; try done; by apply elem_of_nil in H.
Qed.

(** With both resources there, nothing is made. *)
Lemma ensure_idempotent u v :
  answer (StreamInfo (getStreamName o)) = Ok u → answer (ConsumerInfo (getStreamName o) (durableName o)) = Ok v →
  Forall (λ r, match r with StreamAdd _ | ConsumerAdd _ _ => False | _ => True end) ensureJetStreamResources.2.
Proof.
  intros H1 H2. unfold ensureJetStreamResources, ensureStream, ensureConsumer, asks, or_else, and_then.
  destruct (o_ensureStream o), (o_ensureConsumer o); rewrite ?H1, ?H2; simpl; repeat constructor.
Qed.
End resources.

(** ** The reader *)

Section reader.
Context {E : Type} (decode : bytes → option E).

(** [Over]: the reader has ended, with a delivery it took and left unanswered. *)
Inductive phase := Waiting | Handling (delivery : nat) | Reconciling (epoch : Z) | Over (left : option nat).

(** [live]: [consumerMessages] is this reader's. *)
Record js_bus := {
  reader : phase;
  aborted : bool;
  closed : bool;
  subscriptionLost : bool;
  transportEpoch : Z;
  needsReconciliation : bool;
  live : bool;
  deliveries : nat }.

Definition new_reader (epoch : Z) : js_bus :=
  {| reader := Waiting; aborted := false; closed := false; subscriptionLost := false; transportEpoch := epoch;
     needsReconciliation := false; live := true; deliveries := 0 |}.

Definition with_reader (p : phase) (n : nat) (s : js_bus) : js_bus :=
  {| reader := p; aborted := aborted s; closed := closed s; subscriptionLost := subscriptionLost s;
     transportEpoch := transportEpoch s; needsReconciliation := needsReconciliation s; live := live s; deliveries := n |}.

Definition with_flags (lost : bool) (epoch : Z) (needs : bool) (alive : bool) (s : js_bus) : js_bus :=
  {| reader := reader s; aborted := aborted s; closed := closed s; subscriptionLost := lost; transportEpoch := epoch;
     needsReconciliation := needs; live := alive; deliveries := deliveries s |}.

(** [JTook], [JSettled] (ghosts): a message is taken, with its bytes; how its handler
    ended. The answers of the code are calls that may throw: [JAckThrows] and the
    like. *)
Inductive js_out :=
| JTook (delivery : nat) (data : bytes)
| JHandle (delivery : nat) (ev : E)
| JSettled (delivery : nat) (ok : bool)
| JAck (delivery : nat)
| JAckThrows (delivery : nat)
| JNak (delivery : nat)
| JNakThrows (delivery : nat)
| JTerm (delivery : nat)
| JTermThrows (delivery : nat)
| JStatus (st : EventBusStatus).

(** [markHandlerGap] *)
Definition js_gap (s : js_bus) : js_bus * list js_out :=
  if closed s then (s, []) else (with_flags (subscriptionLost s) (transportEpoch s) true (live s) s, [JStatus BusError]).

(** The reader ends, by itself or by an error, and [handleSubscriptionEnded];
    [scheduleResubscribe] is modelled with the bus. *)
Definition js_ended (left : option nat) (s : js_bus) : js_bus * list js_out :=
  let s1 := with_reader (Over left) (deliveries s) s in
  if negb (live s) then (s1, [])
  else if closed s then (with_flags (subscriptionLost s1) (transportEpoch s1) (needsReconciliation s1) false s1, [])
  else (with_flags true (transportEpoch s1 + 1) (needsReconciliation s1) false s1, [JStatus Disconnected]).

(** The iterator yields a message; [throws]: [message.term] throws. *)
Definition delivered (data : bytes) (throws : bool) (s : js_bus) : js_bus * list js_out :=
  match reader s with
  | Waiting =>
      let d := deliveries s in
      let s0 := with_reader Waiting (S d) s in
      let '(s1, out) :=
        if aborted s then js_ended (Some d) s0
        else match decode data with
        | None =>
            if throws then let '(s1, out) := js_ended (Some d) s0 in (s1, JTermThrows d :: out)
            else let '(s1, out) := js_gap s0 in (with_reader (Reconciling (transportEpoch s1)) (deliveries s1) s1, JTerm d :: out)
        | Some ev => (with_reader (Handling d) (deliveries s0) s0, [JHandle d ev])
        end in
      (s1, JTook d data :: out)
  | _ => (s, [])
  end.

(** The handler settles; [ack_throws], [nak_throws]: the answer throws. *)
Definition handler_settles (ok ack_throws nak_throws : bool) (s : js_bus) : js_bus * list js_out :=
  match reader s with
  | Handling d =>
      if ok && negb ack_throws then (with_reader Waiting (deliveries s) s, [JSettled d true; JAck d])
      else
        let '(s1, gap) := js_gap s in
        let '(s2, out) :=
          if nak_throws then let '(s2, out) := js_ended (Some d) s1 in (s2, JNakThrows d :: out)
          else (with_reader (Reconciling (transportEpoch s1)) (deliveries s1) s1, [JNak d]) in
        (s2, JSettled d ok :: (if ok then [JAckThrows d] else []) ++ gap ++ out)
  | _ => (s, [])
  end.

(** The flush of [reconcileSubscription] settles. *)
Definition js_reconciled (ok : bool) (s : js_bus) : js_bus * list js_out :=
  match reader s with
  | Reconciling epoch =>
      let s1 := with_reader Waiting (deliveries s) s in
      if negb ok then (s1, [JStatus BusError])
      else if closed s || subscriptionLost s || negb (epoch =? transportEpoch s) then (s1, [])
      else (with_flags (subscriptionLost s1) (transportEpoch s1) false (live s1) s1, [JStatus Subscribed])
  | _ => (s, [])
  end.

(** The connection is lost, unless [disconnect] has stopped the monitor; and
    back: its flush has ended. *)
Definition js_link_down (s : js_bus) : js_bus * list js_out :=
  if closed s then (s, []) else
  (with_flags true (transportEpoch s + 1) (needsReconciliation s) (live s) s, [JStatus Disconnected]).

Definition js_link_flushed (epoch : Z) (s : js_bus) : js_bus * list js_out :=
  if closed s || negb (epoch =? transportEpoch s) then (s, [])
  else (with_flags false (transportEpoch s) (needsReconciliation s) (live s) s, JStatus Ready :: if live s then [JStatus Subscribed] else []).

Definition js_disconnect (s : js_bus) : js_bus * list js_out :=
  ({| reader := reader s; aborted := true; closed := true; subscriptionLost := false; transportEpoch := transportEpoch s + 1;
      needsReconciliation := needsReconciliation s; live := false; deliveries := deliveries s |}, [JStatus Disconnected]).

(** The iterator ends. *)
Definition js_ends (s : js_bus) : js_bus * list js_out :=
  match reader s with Waiting => js_ended None s | _ => (s, []) end.

Inductive js_event :=
| JDelivered (data : bytes) (throws : bool) | JHandlerSettles (ok ack_throws nak_throws : bool) | JFlushSettles (ok : bool)
| JLinkDown | JLinkFlushed (epoch : Z) | JDisconnect | JEnds.

Definition js_step (w : js_bus * list js_out) (e : js_event) : js_bus * list js_out :=
  let '(s, out) := match e with
    | JDelivered data throws => delivered data throws w.1
    | JHandlerSettles ok ack_throws nak_throws => handler_settles ok ack_throws nak_throws w.1
    | JFlushSettles ok => js_reconciled ok w.1
    | JLinkDown => js_link_down w.1
    | JLinkFlushed epoch => js_link_flushed epoch w.1
    | JDisconnect => js_disconnect w.1
    | JEnds => js_ends w.1
    end in
  (s, w.2 ++ out).

(** ** Answers *)

(** The deliveries answered, in order, and those whose handler was called. *)
Definition answers (log : list js_out) : list nat :=
  omap (λ o, match o with JAck d | JNak d | JTerm d => Some d | _ => None end) log.

(** The delivery taken and not answered: being handled, or left by a reader that
    ended. *)
Definition pending (p : phase) : list nat :=
  match p with Handling d => [d] | Over (Some d) => [d] | _ => [] end.

(** What is logged of one delivery. *)
Definition of_delivery (d : nat) (o : js_out) : bool :=
  match o with
  | JTook n _ | JHandle n _ | JSettled n _ | JAck n | JAckThrows n | JNak n | JNakThrows n | JTerm n | JTermThrows n => Nat.eqb n d
  | JStatus _ => false
  end.

Definition story (d : nat) (log : list js_out) : list js_out := filter (λ o, of_delivery d o = true) log.

(** A delivery that has been answered: acknowledged, refused after its handler has
    failed or its acknowledgement has thrown, or terminated. *)
Inductive answered_story (d : nat) : list js_out → Prop :=
| story_ack data ev : decode data = Some ev → answered_story d [JTook d data; JHandle d ev; JSettled d true; JAck d]
| story_nak data ev : decode data = Some ev → answered_story d [JTook d data; JHandle d ev; JSettled d false; JNak d]
| story_ack_threw data ev :
    decode data = Some ev → answered_story d [JTook d data; JHandle d ev; JSettled d true; JAckThrows d; JNak d]
| story_term data : decode data = None → answered_story d [JTook d data; JTerm d].

(** One being handled, and one left without an answer: it was taken after
    [disconnect], or its answer threw. *)
Inductive current_story (d : nat) : list js_out → Prop :=
| story_current data ev : decode data = Some ev → current_story d [JTook d data; JHandle d ev].

Inductive left_story (d : nat) : list js_out → Prop :=
| left_aborted data : left_story d [JTook d data]
| left_term data : decode data = None → left_story d [JTook d data; JTermThrows d]
| left_nak data ev : decode data = Some ev → left_story d [JTook d data; JHandle d ev; JSettled d false; JNakThrows d]
| left_ack_nak data ev :
    decode data = Some ev → left_story d [JTook d data; JHandle d ev; JSettled d true; JAckThrows d; JNakThrows d].

Record js_ok (w : js_bus * list js_out) : Prop := {
  jo_answers : answers w.2 ++ pending (reader w.1) = seq 0 (deliveries w.1);
  jo_story d : d ∈ answers w.2 → answered_story d (story d w.2);
  jo_current d : reader w.1 = Handling d → current_story d (story d w.2);
  jo_left d : reader w.1 = Over (Some d) → left_story d (story d w.2);
  jo_future d : (deliveries w.1 <= d)%nat → story d w.2 = [] }.

Lemma story_app d a b : story d (a ++ b) = story d a ++ story d b.
Proof. apply filter_app. Qed.

Lemma answers_app a b : answers (a ++ b) = answers a ++ answers b.
Proof. apply omap_app. Qed.

(** Statuses are no part of a story. *)
Definition only_status (out : list js_out) : bool := forallb (λ o, match o with JStatus _ => true | _ => false end) out.

Lemma status_silent d out : only_status out = true → story d out = [] ∧ answers out = [].
Proof.
  by induction out as [|[] out IH].
Qed.

Lemma js_ok_silent s s' log out :
  js_ok (s, log) → only_status out = true → deliveries s' = deliveries s →
  pending (reader s') = pending (reader s) → (∀ d, reader s' = Handling d → reader s = Handling d) →
  (∀ d, reader s' = Over (Some d) → reader s = Over (Some d)) → js_ok (s', log ++ out).
Proof.
  intros [] Ho Hd Hp Hh Hl. simpl in *.
  assert (Hs : ∀ d, story d (log ++ out) = story d log) by (intros d; by rewrite story_app, (proj1 (status_silent d out Ho)), app_nil_r).
  split; simpl; intros *; rewrite ?answers_app, ?(proj2 (status_silent 0 out Ho)), ?app_nil_r, ?Hs, ?Hp, ?Hd; auto.
Qed.

Lemma answered_past s log d : js_ok (s, log) → d ∈ answers log ++ pending (reader s) → (d < deliveries s)%nat.
Proof. intros [Ha _ _ _ _] Hd. cbn [fst snd] in Ha. rewrite Ha in Hd. apply elem_of_seq in Hd. lia. Qed.

(** What a step leaves of the delivery it is about, with the answers it gives. *)
Definition settled_as (d : nat) (p : phase) (st : list js_out) (given : list nat) : Prop :=
  match p with
  | Handling n => n = d ∧ given = [] ∧ current_story d st
  | Over (Some n) => n = d ∧ given = [] ∧ left_story d st
  | Over None => False
  | Waiting | Reconciling _ => given = [d] ∧ answered_story d st
  end.

(** A step about one delivery: the one just taken, or the one being handled. *)
Lemma js_ok_own s s' log out d :
  js_ok (s, log) →
  (reader s = Waiting ∧ d = deliveries s ∧ deliveries s' = S d) ∨ (reader s = Handling d ∧ deliveries s' = deliveries s) →
  (∀ n, n ≠ d → story n out = []) →
  settled_as d (reader s') (story d log ++ story d out) (answers out) → js_ok (s', log ++ out).
Proof.
  intros Hok Hwhich Hoth Hset. pose proof Hok as [Ha Hs _ _ Hf]. cbn [fst snd] in *.
  assert (Hseq : answers log ++ [d] = seq 0 (deliveries s') ∧ (d < deliveries s')%nat).
  { destruct Hwhich as [(Hr & -> & ->)|[Hr ->]]; rewrite Hr in Ha.
    - rewrite seq_S, <-Ha. cbn [pending]. rewrite app_nil_r. split; [done|lia].
    - split; [done|]. apply (answered_past _ _ _ Hok). rewrite Hr. apply elem_of_app. right. constructor. }
  destruct Hseq as [Hseq Hlt].
  assert (Hnot : d ∉ answers log).
  { assert (Hn : NoDup (answers log ++ [d])) by (rewrite Hseq; apply NoDup_seq). apply NoDup_app in Hn as (_ & Hn & _).
    intros H. apply (Hn d H). constructor. }
  assert (Hn : ∀ n, n ≠ d → story n (log ++ out) = story n log) by (intros n Hx; by rewrite story_app, Hoth, app_nil_r).
  assert (Hpend : answers out ++ pending (reader s') = [d]).
  { destruct (reader s') as [|n|e|[n|]]; cbn [settled_as pending] in *; try done;
      [by destruct Hset as [-> _]|by destruct Hset as (-> & -> & _)|by destruct Hset as [-> _]|by destruct Hset as (-> & -> & _)]. }
  split; cbn [fst snd].
  - by rewrite answers_app, <-app_assoc, Hpend.
  - intros n. rewrite answers_app, elem_of_app. intros [Hin|Hin].
    + rewrite Hn by (by intros ->). by apply Hs.
    + destruct (reader s') as [|m|e|[m|]]; cbn [settled_as] in Hset; try done;
        try (destruct Hset as (_ & Eg & _); rewrite Eg in Hin; by apply elem_of_nil in Hin);
        destruct Hset as [Eg Hst]; rewrite Eg in Hin; apply list_elem_of_singleton in Hin as ->; by rewrite story_app.
  - intros n Hr. rewrite Hr in Hset. destruct Hset as (-> & _ & Hst). by rewrite story_app.
  - intros n Hr. rewrite Hr in Hset. destruct Hset as (-> & _ & Hst). by rewrite story_app.
  - intros n Hx. rewrite Hn by lia. apply Hf. destruct Hwhich as [(_ & -> & Eg)|[_ Eg]]; lia.
Qed.

(** The pieces of a step: a gap, and an end. *)
Lemma js_gap_keeps s : let '(s1, out) := js_gap s in reader s1 = reader s ∧ deliveries s1 = deliveries s ∧ only_status out = true.
Proof. unfold js_gap. by destruct (closed s). Qed.

Lemma js_ended_over left s : let '(s1, out) := js_ended left s in reader s1 = Over left ∧ deliveries s1 = deliveries s ∧ only_status out = true.
Proof. unfold js_ended. destruct (live s), (closed s); done. Qed.

Lemma story_status n o out : only_status out = true → story n (o ++ out) = story n o ∧ answers (o ++ out) = answers o.
Proof. intros H. rewrite story_app, answers_app, (proj1 (status_silent n out H)), (proj2 (status_silent n out H)), !app_nil_r. done. Qed.

(** Entries of one delivery, then statuses. *)
Lemma own_story d own out : only_status out = true → forallb (of_delivery d) own = true →
  story d (own ++ out) = own ∧ ∀ n, n ≠ d → story n (own ++ out) = [].
Proof.
  intros Ho Hown. assert (H : ∀ n, story n own = if decide (n = d) then own else []).
  { intros n. induction own as [|o own IH]; [by case_decide|]. cbn [forallb] in Hown. apply andb_true_iff in Hown as [H1 H2].
    unfold story in *. rewrite filter_cons, IH by done.
    assert (Ho' : of_delivery n o = true ↔ n = d) by (destruct o; try done; cbn [of_delivery] in *; rewrite Nat.eqb_eq in *; split; congruence).
    destruct (decide (n = d)) as [Hx|Hx]; case_decide as Hy; try done; exfalso; tauto. }
  split; [|intros n Hn]; rewrite (proj1 (story_status _ own out Ho)), H; by case_decide.
Qed.

(** The shape of what a step about a delivery logs: entries of the delivery around
    statuses, which the answers and the stories do not see. *)
Lemma js_ok_entries s s' log d pre mid post tail :
  js_ok (s, log) →
  (reader s = Waiting ∧ d = deliveries s ∧ deliveries s' = S d) ∨ (reader s = Handling d ∧ deliveries s' = deliveries s) →
  only_status mid = true → only_status tail = true → forallb (of_delivery d) pre = true → forallb (of_delivery d) post = true →
  settled_as d (reader s') (story d log ++ pre ++ post) (answers (pre ++ post)) → js_ok (s', log ++ (pre ++ mid) ++ post ++ tail).
Proof.
  intros Hok Hwhich Hm Ht Hpre Hpost Hset. destruct (own_story d pre mid Hm Hpre) as [E1 N1]. destruct (own_story d post tail Ht Hpost) as [E2 N2].
  eapply js_ok_own; [exact Hok|exact Hwhich|..].
  - intros n Hn. by rewrite story_app, N1, N2.
  - rewrite (story_app d (pre ++ mid)), E1, E2, !answers_app, (proj2 (status_silent 0 mid Hm)), (proj2 (status_silent 0 tail Ht)), !app_nil_r.
    by rewrite <-answers_app.
Qed.

Lemma js_ok_delivered s log data throws : js_ok (s, log) → js_ok ((delivered data throws s).1, log ++ (delivered data throws s).2).
Proof.
  intros Hok. unfold delivered. destruct (reader s) eqn:Hr; [|by rewrite app_nil_r..]. set (d := deliveries s).
  pose proof (jo_future _ Hok d (le_n _)) as Hnew. cbn [fst snd] in Hnew. set (s0 := with_reader Waiting (S d) s).
  assert (Hown : ∀ o, of_delivery d o = true → forallb (of_delivery d) [JTook d data; o] = true)
    by (intros o Ho; cbn [forallb]; by rewrite Ho; cbn [of_delivery]; rewrite Nat.eqb_refl).
  destruct (aborted s).
  - pose proof (js_ended_over (Some d) s0) as Hend. destruct (js_ended (Some d) s0) as [s1 out]. destruct Hend as (Hr1 & Hd1 & Ho1).
    cbn [fst snd]. change (JTook d data :: out) with (([JTook d data] ++ []) ++ [] ++ out).
    apply (js_ok_entries s s1 log d [JTook d data] [] [] out); try done; [left; done|cbn; by rewrite Nat.eqb_refl|].
    rewrite Hr1, Hnew. split_and!; [done..|constructor].
  - destruct (decode data) as [ev|] eqn:Hdec; [|destruct throws].
    + cbn [fst snd]. apply (js_ok_entries s _ log d [JTook d data; JHandle d ev] [] [] []); try done; [left; done|apply Hown; apply Nat.eqb_refl|].
      cbn [reader with_reader settled_as]. rewrite Hnew. split_and!; [done..|by econstructor].
    + pose proof (js_ended_over (Some d) s0) as Hend. destruct (js_ended (Some d) s0) as [s1 out]. destruct Hend as (Hr1 & Hd1 & Ho1).
      cbn [fst snd]. apply (js_ok_entries s s1 log d [JTook d data; JTermThrows d] [] [] out); try done;
        [left; done|apply Hown; apply Nat.eqb_refl|]. rewrite Hr1, Hnew. split_and!; [done..|by econstructor].
    + pose proof (js_gap_keeps s0) as Hgap. destruct (js_gap s0) as [s1 out]. destruct Hgap as (Hr1 & Hd1 & Ho1).
      cbn [fst snd]. apply (js_ok_entries s (with_reader (Reconciling (transportEpoch s1)) (deliveries s1) s1) log d [JTook d data; JTerm d] [] [] out);
        try done; [left; done|apply Hown; apply Nat.eqb_refl|]. cbn [reader with_reader settled_as]. rewrite Hnew. split; [done|by constructor].
Qed.

Lemma js_ok_settled s log ok a n : js_ok (s, log) → js_ok ((handler_settles ok a n s).1, log ++ (handler_settles ok a n s).2).
Proof.
  intros Hok. unfold handler_settles. destruct (reader s) as [|d| |] eqn:Hr; [by rewrite app_nil_r| |by rewrite app_nil_r..].
  pose proof (jo_current _ Hok d Hr) as Hcur. cbn [fst snd] in Hcur.
  assert (Hown : forallb (of_delivery d) (JSettled d ok :: if ok then [JAckThrows d] else []) = true)
    by (destruct ok; cbn; by rewrite Nat.eqb_refl).
  destruct (ok && negb a) eqn:Hack.
  - apply andb_true_iff in Hack as [-> _]. cbn [fst snd].
    apply (js_ok_entries s _ log d [JSettled d true; JAck d] [] [] []); try done; [by right|].
    cbn [reader with_reader settled_as]. split; [done|]. destruct Hcur. by econstructor.
  - pose proof (js_gap_keeps s) as Hgap. destruct (js_gap s) as [s1 gap]. destruct Hgap as (Hr1 & Hd1 & Ho1). destruct n.
    + pose proof (js_ended_over (Some d) s1) as Hend. destruct (js_ended (Some d) s1) as [s2 out]. destruct Hend as (Hr2 & Hd2 & Ho2).
      cbn [fst snd]. rewrite app_assoc, app_comm_cons, (app_comm_cons _ gap).
      apply (js_ok_entries s s2 log d (JSettled d ok :: if ok then [JAckThrows d] else []) gap [JNakThrows d] out); try done;
        [right; by rewrite Hd2|cbn; by rewrite Nat.eqb_refl|].
      rewrite Hr2. destruct Hcur; destruct ok; cbn; (split_and!; [done..|by econstructor]).
    + cbn [fst snd]. rewrite app_assoc, app_comm_cons, (app_comm_cons _ gap).
      apply (js_ok_entries s (with_reader (Reconciling (transportEpoch s1)) (deliveries s1) s1) log d
        (JSettled d ok :: if ok then [JAckThrows d] else []) gap [JNak d] []); try done; [by right|cbn; by rewrite Nat.eqb_refl|].
      cbn [reader with_reader settled_as]. destruct Hcur; destruct ok; cbn; (split; [done|by econstructor]).
Qed.

Lemma js_ok_step w e : js_ok w → js_ok (js_step w e).
Proof.
  destruct w as [s log]. intros Hok. pose proof (λ s' out, js_ok_silent s s' log out Hok) as Hsil.
  assert (Hno : js_ok (s, log ++ [])) by (by rewrite app_nil_r).
  destruct e; unfold js_step; cbn [fst snd].
  - pose proof (js_ok_delivered s log data throws Hok). by destruct (delivered data throws s).
  - pose proof (js_ok_settled s log ok ack_throws nak_throws Hok). by destruct (handler_settles ok ack_throws nak_throws s).
  - unfold js_reconciled. destruct (reader s) as [| |epoch0|] eqn:Hr; [exact Hno..| |exact Hno]. destruct ok; cbn [negb]; [|by apply Hsil].
    destruct (closed s || subscriptionLost s || negb (epoch0 =? transportEpoch s)); by apply Hsil.
  - unfold js_link_down. destruct (closed s); [exact Hno|by apply Hsil].
  - unfold js_link_flushed. destruct (closed s || negb (epoch =? transportEpoch s)); [exact Hno|]. apply Hsil; try done. by destruct (live s).
  - by apply Hsil.
  - unfold js_ends. destruct (reader s) eqn:Hr; [|exact Hno..]. pose proof (js_ended_over None s) as Hend.
    destruct (js_ended None s) as [s1 out]. destruct Hend as (Hr1 & Hd1 & Ho1). apply Hsil; rewrite ?Hr1; done.
Qed.

Lemma js_ok_new epoch : js_ok (new_reader epoch, []).
Proof. split; try done. by intros d H%elem_of_nil. Qed.

End reader.

(** ** The property *)

Section jetstream.
Context {E : Type} (decode : bytes → option E).

(** C17: JetStream deliveries are answered once, in the order they were taken and
    one at a time, whatever happens to the connection and to the calls that answer:
    the answered ones are all that were taken, but for the one being handled or the
    last one of a reader that has ended. What is logged of a delivery says why it
    was answered so: acknowledged only when it decodes and its handler has resolved;
    refused for redelivery only when it decodes and its handler has failed, or its
    acknowledgement threw; terminated, with no handler called, only when it does not
    decode. One is left unanswered, for the server to deliver again, only when it was
    taken after [disconnect] or its answer threw. And a waiting reader takes what
    comes: it hands a message that decodes to the handler and terminates one that
    does not. *)
Theorem jetstream_answers epoch w :
  reachable (js_step decode) (new_reader epoch, []) w →
  answers w.2 ++ pending (reader w.1) = seq 0 (deliveries w.1) ∧
  (∀ d, d ∈ answers w.2 → answered_story decode d (story d w.2)) ∧
  (∀ d, reader w.1 = Handling d → current_story decode d (story d w.2) ∧
     answers (js_step decode w (JHandlerSettles true false false)).2 = answers w.2 ++ [d] ∧
     JAck d ∈ (js_step decode w (JHandlerSettles true false false)).2 ∧
     ∀ ack_throws, answers (js_step decode w (JHandlerSettles false ack_throws false)).2 = answers w.2 ++ [d] ∧
       JNak d ∈ (js_step decode w (JHandlerSettles false ack_throws false)).2) ∧
  (∀ d, reader w.1 = Over (Some d) → left_story decode d (story d w.2)) ∧
  (∀ data throws, reader w.1 = Waiting → aborted w.1 = false →
     let w' := js_step decode w (JDelivered data throws) in
     match decode data with
     | Some ev => reader w'.1 = Handling (deliveries w.1) ∧ w'.2 = w.2 ++ [JTook (deliveries w.1) data; JHandle (deliveries w.1) ev]
     | None => throws = false → answers w'.2 = answers w.2 ++ [deliveries w.1] ∧ JTerm (deliveries w.1) ∈ w'.2
     end).
Proof.
  intros Hr. assert (Hok : js_ok decode w) by (eapply reachable_invariant; [apply js_ok_new|intros; by apply js_ok_step|exact Hr]).
  destruct Hok as [Ha Hs Hc Hl _]. split; [done|]. split; [done|]. split; [|split; [done|]].
  - intros d Hd. split; [by apply Hc|]. unfold js_step, handler_settles, js_gap. rewrite Hd. cbn [andb negb fst snd].
    split; [by rewrite answers_app|]. split; [apply elem_of_app; right; set_solver|].
    intros a. destruct (closed w.1); cbn [fst snd]; rewrite answers_app; (split; [done|apply elem_of_app; right; set_solver]).
  - intros data throws Hw Hab. unfold js_step, delivered, js_gap. rewrite Hw, Hab. destruct (decode data) as [ev|]; [done|].
    intros ->. cbn [closed with_reader]. destruct (closed w.1); cbn [fst snd]; rewrite answers_app; (split; [done|apply elem_of_app; right; set_solver]).
Qed.
End jetstream.

Definition toy_decode (b : bytes) : option bytes := match b with [] => None | _ => Some b end.

(** A message handled, one that does not decode, and one refused while the
    connection is down. *)
Definition toy_events : list js_event :=
  [JDelivered [1] false; JHandlerSettles true false false; JDelivered [] false; JFlushSettles true; JDelivered [2] false; JLinkDown;
   JHandlerSettles false false false].

Definition toy_world : js_bus * list js_out := run_events (js_step toy_decode) (new_reader 0, []) toy_events.

Lemma jetstream_answers_witness :
  toy_world.2 = [JTook 0 [1]; JHandle 0 [1]; JSettled 0 true; JAck 0; JTook 1 []; JTerm 1; JStatus BusError; JStatus Subscribed; JTook 2 [2];
    JHandle 2 [2]; JStatus Disconnected; JSettled 2 false; JStatus BusError; JNak 2] ∧
  deliveries toy_world.1 = 3%nat ∧ answers toy_world.2 ++ pending (reader toy_world.1) = seq 0 (deliveries toy_world.1) ∧
  (∀ d, d ∈ answers toy_world.2 → answered_story toy_decode d (story d toy_world.2)).
Proof.
  split; [vm_compute; reflexivity|]. split; [vm_compute; reflexivity|].
  destruct (jetstream_answers toy_decode 0 toy_world) as (H1 & H2 & _); [apply reachable_run|]. split; [exact H1|exact H2].
Defined.

(** A reader whose connection is lost during a reconciliation stays without a
    report: the epoch has moved, so the flush reports nothing, and only the
    reconnection does. *)
Lemma lost_link_not_reported :
  let w := foldl (js_step toy_decode) (new_reader 0, []) [JDelivered [] false; JLinkDown; JFlushSettles true] in
  subscriptionLost w.1 = true ∧ needsReconciliation w.1 = true ∧ last w.2 = Some (JStatus Disconnected).
Proof. vm_compute. repeat split; reflexivity. Qed.

(** Acknowledging on a connection that is closed ends the reader: the delivery is
    neither acknowledged nor refused, and the bus subscribes again. *)
Lemma throwing_answers_end_reader :
  let w := foldl (js_step toy_decode) (new_reader 0, []) [JDelivered [1] false; JHandlerSettles true true true] in
  reader w.1 = Over (Some 0%nat) ∧ answers w.2 = [] ∧ live w.1 = false ∧ last w.2 = Some (JStatus Disconnected).
Proof. vm_compute. repeat split; reflexivity. Qed.
