(* ===== verification/BusTrust.v ===== *)
(** * Trust in the event bus ([src/src/cache/hybridCache.ts], lines 221 to 231,
      287 and 1770 to 1796)

    A cache answers from L1, from negative answers and from stale copies only
    while it trusts its invalidations. Here the cache's coordination state
    ([Coordination.v]) listens to any bus that keeps the contract of
    [EventBus.v], in any interleaving with its own operations: each status is
    heard when it is emitted, ['subscribed'] and the end of the cache's own
    [subscribe] begin a restoration, and the restoration ends at any later time,
    when the L1 has been cleared; when clearing fails, a restoration that a
    status began marks the cache untrusted, the one after [subscribe] changes
    nothing. The history of bus events is kept to state what the bus did. *)

From S2P Require Import Prelude Ledger MemoryBudget JsMap Counted Pattern KeyGuard CacheOptions EventBus RedisEventBus Coordination CoordinationOk.

Section trust.
Context {K : Type} `{EqDecision K} {L : Type} `{Ledger L}.
Context (String : K → jsstring) (self : CacheOptions Z) (supports : bool)
  (dedupeMaxEntries dedupeTtlMs : option Z).
Context {B E : Type} {ops : BusOps B E}.
Abbreviation cstate := (cstate (K:=K) (L:=L)).
Abbreviation cevent := (cevent (K:=K)).
Abbreviation cstep := (cstep String self supports dedupeMaxEntries dedupeTtlMs).

(** [restoring] are the pending restorations: the revision each saw, and whether
    a status began it, whose failure is caught. *)
Record listener := {
  history : list E;
  bus : B;
  emitted : list bus_out;
  cache : cstate;
  restoring : list (Z * bool) }.

(** The status listener and the continuation of the cache's own [subscribe],
    which attached its handler. *)
Definition hear (x : cstate * list (Z * bool)) (o : bus_out) : cstate * list (Z * bool) :=
  let '(s, pending) := x in
  match o with
  | OStatus st =>
      let s' := on_status st s in
      if bool_decide (st = Subscribed) && negb (is_closed s)
      then ((restore_begin s').1, pending ++ [((restore_begin s').2, true)]) else (s', pending)
  | OResolved => ((restore_begin s).1, pending ++ [((restore_begin s).2, false)])
  | OResolvedIdle | ORejected | OLost => (s, pending)
  end.

Inductive trust_event :=
| FromBus (e : E)
| RestoreEnds (i : nat) (ok : bool)
| FromCache (e : cevent).

(** The operations of the cache itself. *)
Definition own_event (e : cevent) : bool :=
  match e with EStatus _ | ERestoreBegin | ERestoreEnd _ => false | _ => true end.

Definition trust_step (w : listener) (e : trust_event) : listener :=
  match e with
  | FromBus e =>
      let '(b, out) := bus_step (bus w) e in
      let '(s, pending) := foldl hear (cache w, restoring w) out in
      {| history := history w ++ [e]; bus := b; emitted := emitted w ++ out; cache := s; restoring := pending |}
  | RestoreEnds i ok =>
      match restoring w !! i with
      | None => w
      | Some pending =>
          {| history := history w; bus := bus w; emitted := emitted w;
             cache := if ok then restore_end pending.1 (cache w) else if (pending.2 : bool) then markInvalidationUntrusted (cache w) else cache w;
             restoring := delete i (restoring w) |}
      end
  | FromCache e =>
      if own_event e then
        {| history := history w; bus := bus w; emitted := emitted w; cache := cstep (cache w) e; restoring := restoring w |}
      else w
  end.

(** A cache constructed on a bus starts untrusting. *)
Definition new_listener (o : option L) : listener :=
  {| history := []; bus := bus_new; emitted := [];
     cache := with_trust false 0 None (cs (new_cache o)); restoring := [] |}.

(** ** What the cache's own operations do to trust *)

Definition trust_of (s : cstate) : bool * (bool * Z) := (is_closed s, (invalidationTrusted s, invalidationRevision s)).

Ltac untouched := repeat case_match; done.

Lemma saturate_trust (s : cstate) : trust_of (saturateGenerationTracking s) = trust_of s.
Proof.
  unfold saturateGenerationTracking, trust_of, is_closed, saturate.
  destruct (generationTrackingSaturated _) eqn:G; [done|]. simpl. by rewrite ?G.
Qed.

Lemma storeGeneration_trust k g (s : cstate) : trust_of (storeGeneration k g s) = trust_of s.
Proof.
  unfold storeGeneration. destruct (_ || _); [apply saturate_trust|]. destruct (jhas _ _); [done|].
  destruct (_ || _); [apply saturate_trust|]. destruct (opt_reserve _ _ _) as [b []]; [done|].
  by rewrite saturate_trust.
Qed.

Lemma start_load_trust (k : K) p t3 t4 o (s : cstate) :
  trust_of (start_load String self supports k p t3 t4 o s).1 = trust_of s.
Proof.
  unfold start_load. assert (Hr : trust_of (reserveInflight String self k s).1 = trust_of s).
  { unfold reserveInflight. repeat (case_match; [done|]). untouched. }
  by destruct (reserveInflight String self k s) as [s' [n|]].
Qed.

Lemma register_load_trust (k : K) p t0 t1 t2 t3 t4 o (s : cstate) :
  trust_of (register_load String self supports k p t0 t1 t2 t3 t4 o s).1 = trust_of s.
Proof.
  unfold register_load. destruct (is_closed s); [done|].
  assert (Hn : trust_of (if invalidationTrusted s then hasNegative self t0 k s else (s, false)).1 = trust_of s).
  { unfold hasNegative. untouched. }
  destruct (if invalidationTrusted s then _ else _) as [s1 absent]. simpl in Hn.
  destruct absent; [done|]. destruct (inflightDisabled self o); [done|].
  assert (Hp : trust_of (pruneInflightKey t1 k s1) = trust_of s).
  { rewrite <-Hn. unfold pruneInflightKey. untouched. }
  destruct (jget k _) as [e|]; [destruct (negb _); [done|]|]; by rewrite start_load_trust.
Qed.

Lemma rememberStale_trust t k payload o (s : cstate) :
  trust_of (rememberStale String self t k payload o s) = trust_of s.
Proof. unfold rememberStale. untouched. Qed.

Lemma cstep_trust (s : cstate) e :
  own_event e = true → e ≠ EUntrusted → e ≠ EClose → trust_of (cstep s e) = trust_of s.
Proof.
  intros Ho Hu Hc. destruct e; try done; cbn [CoordinationOk.cstep].
  - apply register_load_trust.
  - unfold load_settled. untouched.
  - unfold pruneInflightKey. untouched.
  - unfold join_begin. untouched.
  - untouched.
  - unfold hasNegative. untouched.
  - unfold setNegative. untouched.
  - unfold getStale. untouched.
  - unfold evictOneStale. untouched.
  - apply rememberStale_trust.
  - unfold written. pose proof (rememberStale_trust t key payload o s). untouched.
  - unfold delete_prefix, advanceGenerationAfterDelete. case_match; by rewrite storeGeneration_trust.
  - unfold advanceGenerationAfterRemoteSet. case_match; [by rewrite storeGeneration_trust|done].
  - unfold hasSeenEvent. untouched.
  - unfold markEventSeen. untouched.
  - apply saturate_trust.
Qed.

Lemma untrusted_trust (s : cstate) :
  trust_of (markInvalidationUntrusted s) = (is_closed s, (false, invalidationRevision s + 1)).
Proof. done. Qed.

Lemma restore_begin_trust (s : cstate) : trust_of (restore_begin s).1 = trust_of s ∧ (restore_begin s).2 = invalidationRevision s.
Proof. done. Qed.

(** ** The invariant: who may still turn trust on *)

Definition trust_inv (s : cstate) (pending : list (Z * bool)) (v : view) : Prop :=
  is_closed s = false →
  (invalidationTrusted s = true → trusting v = true) ∧
  ∀ r, r ∈ pending → r.1 <= invalidationRevision s ∧ (r.1 = invalidationRevision s → trusting v = true).

Lemma trust_inv_same s s' pending v : trust_of s' = trust_of s → trust_inv s pending v → trust_inv s' pending v.
Proof. unfold trust_inv. intros [= -> -> ->]. done. Qed.

(** The listener distrusts: every pending restoration is out of date. *)
Lemma trust_inv_untrusted s s' pending v v' :
  is_closed s' = is_closed s → invalidationTrusted s' = false → invalidationRevision s' = invalidationRevision s + 1 →
  trust_inv s pending v → trust_inv s' pending v'.
Proof.
  unfold trust_inv. intros -> -> -> Hi Hc. destruct (Hi Hc) as [_ Hp]. split; [done|].
  intros r Hr. destruct (Hp r Hr). split; lia.
Qed.

Lemma trust_inv_begin s pending caught v :
  trusting v = true → trust_inv s pending v → trust_inv (restore_begin s).1 (pending ++ [((restore_begin s).2, caught)]) v.
Proof.
  intros Ht Hi Hc. destruct (Hi Hc) as [H1 H2]. split; [done|].
  intros r [Hr| ->%list_elem_of_singleton]%elem_of_app; [by apply H2|]. simpl. split; [lia|done].
Qed.

Lemma trust_inv_end s r pending v :
  (r = invalidationRevision s → is_closed s = false → trusting v = true) → trust_inv s pending v → trust_inv (restore_end r s) pending v.
Proof.
  unfold restore_end. intros Hr Hi. destruct (r =? invalidationRevision s) eqn:Er; [bools|done].
  repeat case_match; try done. intros Hc. simpl. destruct (Hi Hc) as [_ Hp]. split; [|done]. intros _. by apply Hr.
Qed.

Lemma hear_inv s pending v o :
  (o = OResolved → trusting v = true) → trust_inv s pending v →
  trust_inv (hear (s, pending) o).1 (hear (s, pending) o).2 (view_step v o).
Proof.
  intros Ho Hi. destruct o as [st| | | |]; simpl.
  - unfold on_status. destruct (is_closed s) eqn:Ec; [rewrite andb_false_r; simpl; intros Hc; congruence|].
    destruct st; simpl; try (eapply trust_inv_untrusted; [| | |exact Hi]; done); [exact Hi|].
    apply trust_inv_begin; [done|]. intros Hc. destruct (Hi Hc) as [_ Hp]. split; [done|].
    intros r Hr. by destruct (Hp r Hr).
  - apply trust_inv_begin; [by apply Ho|done].
  - done.
  - done.
  - exact Hi.
Qed.

Lemma hear_all_inv out s pending v :
  resolved_in_trust v out → trust_inv s pending v →
  let x := foldl hear (s, pending) out in trust_inv x.1 x.2 (foldl view_step v out).
Proof.
  revert s pending v. induction out as [|o out IH]; intros s pending v Hr Hi; [done|]. destruct Hr as [Ho Hr].
  pose proof (hear_inv s pending v o Ho Hi) as Hh. cbn [foldl]. destruct (hear (s, pending) o) as [s' pending'].
  by apply IH.
Qed.

Lemma own_inv s e pending v : own_event e = true → trust_inv s pending v → trust_inv (cstep s e) pending v.
Proof.
  intros Ho Hi. destruct e; try (eapply trust_inv_same; [by apply cstep_trust|done]).
  - eapply trust_inv_untrusted; [| | |exact Hi]; done.
  - simpl. unfold closeResources. destruct (is_closed s) eqn:Ec; [done|]. intros Hc. discriminate.
Qed.

Context `{!TrustedBus B E}.

Lemma trust_step_inv o w :
  reachable trust_step (new_listener o) w →
  (bus w, emitted w) = bus_run (history w) ∧
  (forallb covered (history w) = true → trust_inv (cache w) (restoring w) (view_of (emitted w))).
Proof.
  revert w. apply reachable_invariant.
  { split; [done|]. intros _ _. split; [done|]. intros r []%not_elem_of_nil. }
  intros w e [Hb Hi]. destruct e as [e|i ok|e]; simpl.
  - destruct (bus_step (bus w) e) as [b out] eqn:Es.
    assert (Hrun : (b, emitted w ++ out) = bus_run (history w ++ [e])).
    { rewrite bus_run_snoc, <-Hb. unfold bus_log_step. simpl. by rewrite Es. }
    pose proof (hear_all_inv out (cache w) (restoring w) (view_of (emitted w))) as Hh. cbv zeta in Hh.
    destruct (foldl hear (cache w, restoring w) out) as [s pending]. simpl in *. split; [done|].
    intros Hcov. rewrite view_of_app. apply Hh.
    + pose proof (bus_resolved (history w ++ [e]) Hcov) as Hr. rewrite <-Hrun in Hr. simpl in Hr.
      by apply resolved_in_trust_app in Hr as [_ Hr].
    + rewrite forallb_app in Hcov. apply andb_true_iff in Hcov as [Hcov _]. by apply Hi.
  - destruct (restoring w !! i) as [[r caught]|] eqn:Er; [|done]. simpl. split; [done|]. intros Hcov. specialize (Hi Hcov).
    assert (Hin : (r, caught) ∈ restoring w) by by eapply list_elem_of_lookup_2.
    assert (Hless : trust_inv (cache w) (delete i (restoring w)) (view_of (emitted w))).
    { intros Hc. destruct (Hi Hc) as [H1 H2]. split; [done|]. intros r' Hr'. apply H2.
      eapply elem_of_submseteq; [exact Hr'|]. apply sublist_submseteq, sublist_delete. }
    destruct ok; [|destruct caught; [by eapply trust_inv_untrusted; [..|exact Hless]|exact Hless]].
    apply trust_inv_end; [|done]. intros -> Hc. destruct (Hi Hc) as [_ H2]. by apply (H2 _ Hin).
  - destruct (own_event e) eqn:Eo; [|done]. simpl. split; [done|]. intros Hcov. apply own_inv; [done|by apply Hi].
Qed.

End trust.

(** ** A cache on the Redis bus *)

#[local] Existing Instance redis_ops.

Definition redis_listener_step : listener (B:=redis_bus) (E:=bus_event) → trust_event → listener :=
  trust_step (ops := redis_ops one_at_a_time) (L := MemoryBudget) (id : jsstring → jsstring) no_options false None None.

Definition redis_listener : listener (K:=jsstring) (L:=MemoryBudget) :=
  new_listener (ops := redis_ops one_at_a_time) None.

(** The connection is lost while the second restoration of the start is
    pending: it ends without effect, and the one that the recovered
    subscription begins restores trust. *)
Definition lost_and_found : list trust_event :=
  [FromBus Subscribe; FromBus (SubscribeSettles 0 true); RestoreEnds 0 true;
   FromCache (EDelete (js "a") None); FromBus Lost; RestoreEnds 0 true; FromBus ClientReady;
   FromBus (ResubscribeSettles true); RestoreEnds 0 true; FromBus (Message true [1])].

