(* ===== verification/KvNamespace.v ===== *)
(** * The Workers KV namespace ([CloudflareKVNamespace] in
      [src/src/cache/cloudflareKvStore.ts])

    A namespace is what the stores ask for: reads, writes, deletions and paged
    listings, each of which may fail and lets time pass. [Namespace] is that
    interface over a state of the service, [now] its clock. Workers KV is
    eventually consistent: a listing or a read may miss what was written and show
    what was deleted, and others write. [service_namespace] therefore answers by
    any function of what it was asked before; theorems about it hold for the
    service as it is. [SettledNamespace] is a namespace that has settled and that
    nobody else writes; [page_namespace] is a concrete one. *)

From S2P Require Import Prelude JsValue WirePolicy MessagePackScan Pattern PortableSerializer KvWire.

(** What an operation of a store can throw. *)
Inductive kv_fault :=
| FRangeError (message : string)
| FError (message : string)
| FRecord (e : kv_error)
| FPortable (e : portable_error)
| FLimit (e : limit_error)
| FService
| FOutOfFuel.

(** [error instanceof RangeError] *)
Definition is_range_error (e : kv_fault) : bool :=
  match e with
  | FRangeError _ | FRecord (KvRangeError _) | FPortable (PRangeError _) | FLimit _ => true
  | _ => false
  end.

Record kv_page := { names : list jsstring; list_complete : bool; next_cursor : option jsstring }.

(** ** Computations over the state of the service *)

Section monad.
Context {N : Type}.

Definition M (A : Type) : Type := N → result kv_fault A * N.

Definition mret {A} (a : A) : M A := λ n, (Ok a, n).
Definition mfail {A} (e : kv_fault) : M A := λ n, (Throw e, n).
Definition mbind {A B} (m : M A) (k : A → M B) : M B :=
  λ n, match m n with (Ok a, n') => k a n' | (Throw e, n') => (Throw e, n') end.
Definition mlift {A} (r : result kv_fault A) : M A := λ n, (r, n).

Lemma mbind_ok {A B} (m : M A) (k : A → M B) n b n' :
  mbind m k n = (Ok b, n') → ∃ a n1, m n = (Ok a, n1) ∧ k a n1 = (Ok b, n').
Proof. unfold mbind. destruct (m n) as [[a|e] n1]; [eauto|done]. Qed.
End monad.

Arguments M : clear implicits.

Notation "x <- m ;; k" := (mbind m (λ x, k)) (at level 100, m at next level, right associativity) : js_scope.

Class Namespace (N : Type) := {
  ns_get : jsstring → M N (option bytes);
  ns_put : jsstring → bytes → Z → M N unit;
  ns_delete : jsstring → M N unit;
  ns_list : jsstring → option jsstring → option Z → M N kv_page;
  now : N → Z;
}.

(** ** Any service

    What it was asked and what it replied so far, in order; it may reply
    anything. A reply of the wrong kind is a failure. *)
Inductive kv_call :=
| CGet (name : jsstring)
| CPut (name : jsstring) (value : bytes) (expirationTtl : Z)
| CDelete (name : jsstring)
| CList (prefix : jsstring) (cursor : option jsstring) (limit : option Z).

Inductive kv_reply := Fails | GotValue (v : option bytes) | Done | Listed (pg : kv_page).

Definition exchange := list (kv_call * kv_reply).

Record kv_service := { reply : exchange → kv_call → kv_reply; clock_of : exchange → Z }.

Definition ask {A} (svc : kv_service) (call : kv_call) (read : kv_reply → option A) : M exchange A :=
  λ h, let r := reply svc h call in
       match read r with
       | Some a => (Ok a, h ++ [(call, r)])
       | None => (Throw FService, h ++ [(call, Fails)])
       end.

Definition service_namespace (svc : kv_service) : Namespace exchange := {|
  ns_get k := ask svc (CGet k) (λ r, match r with GotValue v => Some v | _ => None end);
  ns_put k v ttl := ask svc (CPut k v ttl) (λ r, match r with Done => Some tt | _ => None end);
  ns_delete k := ask svc (CDelete k) (λ r, match r with Done => Some tt | _ => None end);
  ns_list p c l := ask svc (CList p c l) (λ r, match r with Listed pg => Some pg | _ => None end);
  now := clock_of svc;
|}.

(** ** A settled namespace

    Reads and listings show every earlier write and deletion, and nobody else
    writes. [contents]: the value a name has. [behind c name]: a listing that goes on at
    cursor [c] has passed [name]; [pages]: how many pages a listing still has.
    A failing operation of the service changes nothing. *)
Class SettledNamespace (N : Type) `{Namespace N} := {
  contents : N → jsstring → option bytes;
  behind : jsstring → jsstring → bool;
  pages : N → jsstring → option jsstring → nat;
  get_law k n r n' : ns_get k n = (r, n') → contents n' = contents n ∧ ∀ v, r = Ok v → v = contents n k;
  put_law k v ttl n r n' : ns_put k v ttl n = (r, n') →
    ∀ k', contents n' k' = if is_ok r && bool_decide (k' = k) then Some v else contents n k';
  delete_law k n r n' : ns_delete k n = (r, n') →
    (∀ k', contents n' k' = if is_ok r && bool_decide (k' = k) then None else contents n k') ∧
    ∀ p c, (pages n' p c <= pages n p c)%nat;
  delete_faults k n e n' : ns_delete k n = (Throw e, n') → e = FService;
  list_law p c l n r n' : ns_list p c l n = (r, n') → contents n' = contents n;
  list_faults p c l n e n' : ns_list p c l n = (Throw e, n') → e = FService;
  (** A page has names of the namespace only, and passes no name it does not
      have. *)
  list_page p c l n pg n' : ns_list p c l n = (Ok pg, n') →
    (∀ k, k ∈ names pg → starts_with k p = true ∧ contents n k ≠ None) ∧
    (∀ k, starts_with k p = true → contents n k ≠ None → (∀ c', c = Some c' → behind c' k = false) →
       k ∈ names pg ∨ (list_complete pg = false ∧ ∀ c', next_cursor pg = Some c' → behind c' k = false));
  (** A listing goes on. *)
  list_advances p c l n pg n' : ns_list p c l n = (Ok pg, n') → list_complete pg = false →
    ∃ c', next_cursor pg = Some c' ∧ c' ≠ [] ∧ Some c' ≠ c ∧ (pages n' p (Some c') < pages n p c)%nat;
}.

(** ** A namespace in memory

    Values in order of their names, listed [page_size] names at a time; the
    cursor is a marker and the last name listed. Every operation takes a unit of
    time. *)

Record page_namespace := { cells : list (jsstring * bytes); clock : Z; page_size : nat }.

Definition with_cells (l : list (jsstring * bytes)) (n : page_namespace) : page_namespace :=
  {| cells := l; clock := clock n + 1; page_size := page_size n |}.

Definition page_limit (n : page_namespace) (limit : option Z) : nat :=
  Nat.max 1 (Nat.min (page_size n) (default (page_size n) (Z.to_nat <$> limit))).

Definition after (c : option jsstring) (k : jsstring) : bool :=
  match c with None => true | Some c => negb (str_le k (tail c)) end.

#[export] Instance page_namespace_ops : Namespace page_namespace := {|
  ns_get k n := (Ok (assoc k (cells n)), with_cells (cells n) n);
  ns_put k v _ n := (Ok tt, with_cells ((k, v) :: filter (λ c, c.1 ≠ k) (cells n)) n);
  ns_delete k n := (Ok tt, with_cells (filter (λ c, c.1 ≠ k) (cells n)) n);
  ns_list p c l n :=
    let rest := filter (λ k, starts_with k p && after c k = true) (js_sort (cells n).*1) in
    let size := page_limit n l in
    let here := take size rest in
    (Ok {| names := here; list_complete := bool_decide (length rest <= size)%nat;
           next_cursor := if bool_decide (length rest <= size)%nat then None else (λ k, 62 :: k) <$> last here |},
     with_cells (cells n) n);
  now := clock;
|}.

(** *** The laws hold *)

Definition listed (n : page_namespace) (p : jsstring) (c : option jsstring) : list jsstring :=
  filter (λ k, starts_with k p && after c k = true) (js_sort (cells n).*1).

Lemma str_le_refl a : str_le a a = true.
Proof. by destruct (str_le_total a a). Qed.

Lemma elem_of_listed n p c k :
  k ∈ listed n p c ↔ starts_with k p = true ∧ after c k = true ∧ k ∈ (cells n).*1.
Proof. unfold listed. rewrite list_elem_of_filter, andb_true_iff, js_sort_perm. tauto. Qed.

Lemma length_listed n p c :
  length (listed n p c) = length (filter (λ k, starts_with k p && after c k = true) (cells n).*1).
Proof. unfold listed. by rewrite js_sort_perm. Qed.

Lemma assoc_cons {A} k k' (v : A) l : assoc k ((k', v) :: l) = if bool_decide (k' = k) then Some v else assoc k l.
Proof. unfold assoc. simpl. by case_bool_decide. Qed.

Lemma assoc_elem {A} k (l : list (jsstring * A)) : assoc k l ≠ None ↔ k ∈ l.*1.
Proof.
  induction l as [|[k' v] l IH]; [split; [done|by intros []%not_elem_of_nil]|]. rewrite assoc_cons. simpl.
  rewrite elem_of_cons, <-IH. case_bool_decide; naive_solver.
Qed.

Lemma assoc_filter {A} k k' (l : list (jsstring * A)) :
  assoc k' (filter (λ c, c.1 ≠ k) l) = if bool_decide (k' = k) then None else assoc k' l.
Proof.
  induction l as [|[k0 v] l IH]; [by case_bool_decide|]. rewrite filter_cons, (assoc_cons k' k0).
  destruct (decide ((k0, v).1 ≠ k)) as [Hk|Hk]; cbn [fst] in Hk; [rewrite assoc_cons, IH|rewrite IH; apply dec_stable in Hk]; repeat case_bool_decide; congruence.
Qed.

Lemma cells_step n : cells (with_cells (cells n) n) = cells n.
Proof. done. Qed.

Lemma after_next k0 c k : after c k0 = true → after (Some (62 :: k0)) k = true → after c k = true.
Proof.
  destruct c as [c|]; [|done]. unfold after. simpl. rewrite !negb_true_iff. intros H1 H2.
  apply not_true_iff_false. intros Hk. destruct (str_le_total (tail c) k0) as [Hx|Hx]; [|congruence].
  rewrite (str_le_trans _ _ _ Hk Hx) in H2. done.
Qed.

Lemma listed_next n p c k0 : k0 ∈ listed n p c → (length (listed n p (Some (62%Z :: k0))) < length (listed n p c))%nat.
Proof.
  intros Hk. apply elem_of_listed in Hk as Hk'. destruct Hk' as (H1 & H2 & _).
  replace (listed n p (Some (62 :: k0))) with (filter (λ k, after (Some (62 :: k0)) k = true) (listed n p c)).
  - apply (length_filter_lt _ _ k0); [done|]. simpl. by rewrite str_le_refl.
  - unfold listed. rewrite list_filter_filter. apply list_filter_iff. intros k. rewrite !andb_true_iff.
    pose proof (after_next k0 c k H2). naive_solver.
Qed.

Lemma filter_names_le (P : jsstring → Prop) `{∀ k, Decision (P k)} k0 (l : list (jsstring * bytes)) :
  (length (filter P (filter (λ c, c.1 ≠ k0) l).*1) <= length (filter P l.*1))%nat.
Proof.
  induction l as [|[k v] l IH]; [done|]. rewrite (filter_cons (λ c : jsstring * bytes, c.1 ≠ k0)), (fmap_cons _ (k, v) l).
  rewrite (filter_cons P). destruct (decide ((k, v).1 ≠ k0)); [rewrite fmap_cons, filter_cons|]; case_decide; simpl; lia.
Qed.

Lemma listed_sorted n p c : StronglySorted (λ a b, str_le a b = true) (listed n p c).
Proof.
  unfold listed. pose proof (js_sort_sorted (cells n).*1) as Hs. induction Hs as [|k l Hs IH Hk]; [constructor|].
  rewrite filter_cons. case_decide; [|done]. constructor; [done|]. rewrite Forall_forall in Hk |- *.
  intros k' [_ Hk']%list_elem_of_filter. by apply Hk.
Qed.

(** The cut of a listing after its first names. *)
Lemma listed_cut n p c size k :
  k ∈ listed n p c → k ∉ take size (listed n p c) →
  (size < length (listed n p c))%nat ∧ ∀ k0, last (take size (listed n p c)) = Some k0 → str_le k k0 = false.
Proof.
  intros Hk Hn. pose proof (listed_sorted n p c) as Hs. rewrite <-(take_drop size (listed n p c)) in Hk, Hs.
  apply elem_of_app in Hk as [Hk|Hk]; [done|]. split.
  - apply not_le. intros Hle. rewrite drop_ge in Hk by lia. by apply not_elem_of_nil in Hk.
  - intros k0 Hk0%last_Some_elem_of. apply not_true_iff_false. intros Hle.
    pose proof (StronglySorted_app_1_elem_of _ _ _ _ _ Hs Hk0 Hk) as Hle'. by rewrite (str_le_antisym _ _ Hle Hle') in Hn.
Qed.

Lemma listed_last n p c size :
  (0 < size < length (listed n p c))%nat → ∃ k0, last (take size (listed n p c)) = Some k0 ∧ k0 ∈ listed n p c.
Proof.
  intros Hs. destruct (last (take size (listed n p c))) as [k0|] eqn:E.
  - exists k0. split; [done|]. apply last_Some_elem_of in E. by eapply elem_of_sublist, sublist_take.
  - apply last_None in E. apply (f_equal length) in E. rewrite length_take in E. simpl in E. lia.
Qed.

#[export] Program Instance page_namespace_laws : SettledNamespace page_namespace := {
  contents n k := assoc k (cells n);
  behind c k := str_le k (tail c);
  pages n p c := length (listed n p c);
}.
Next Obligation. intros k n r n' [= <- <-]. split; [done|]. by intros v [= <-]. Qed.
Next Obligation.
  intros k v ttl n r n' [= <- <-] k'. simpl. rewrite assoc_cons, assoc_filter. repeat case_bool_decide; congruence.
Qed.
Next Obligation.
  intros k n r n' [= <- <-]. simpl. split; [intros k'; apply assoc_filter|]. intros p c. rewrite !length_listed.
  apply filter_names_le.
Qed.
Next Obligation. done. Qed.
Next Obligation. intros p c l n r n' [= <- <-]. done. Qed.
Next Obligation. done. Qed.
Next Obligation.
  intros p c l n pg n' [= <- <-]. simpl. fold (listed n p c). set (size := page_limit n l). split.
  - intros k Hk. assert (Hl : k ∈ listed n p c) by (by eapply elem_of_sublist, sublist_take).
    apply elem_of_listed in Hl as (H1 & _ & H3). by rewrite assoc_elem.
  - intros k H1 H2%assoc_elem H3. destruct (decide (k ∈ take size (listed n p c))) as [Hk|Hk]; [by left|right].
    assert (Hl : k ∈ listed n p c).
    { apply elem_of_listed. split_and!; [done| |done]. destruct c as [c|]; [|done]. unfold after. simpl. by rewrite H3. }
    destruct (listed_cut n p c size k Hl Hk) as [Hs Hc]. rewrite bool_decide_false by lia. split; [done|].
    intros c'. destruct (last _) as [k0|]; [|done]. intros [= <-]. by apply Hc.
Qed.
Next Obligation.
  intros p c l n pg n' [= <- <-]. simpl. fold (listed n p c). set (size := page_limit n l).
  assert (Hs : (0 < size)%nat) by (unfold size, page_limit; lia).
  intros Hi. rewrite Hi. apply bool_decide_eq_false in Hi. destruct (listed_last n p c size) as (k0 & Hk0 & Hin); [lia|].
  rewrite Hk0. exists (62 :: k0). split_and!; [done|done| |exact (listed_next n p c k0 Hin)].
  intros <-. apply elem_of_listed in Hin as (_ & Ha & _). unfold after in Ha. simpl in Ha. by rewrite str_le_refl in Ha.
Qed.
