(* ===== verification/KvStore.v ===== *)
(** * The Cloudflare KV stores ([src/src/cache/cloudflareKvStore.ts] and
      [CloudflareWorkerKVStore] of [src/src/cloudflare/index.ts])

    Two L2 stores over a [Namespace] ([KvNamespace.v]), for Node and for
    Workers. They write the records of [KvWire.v] around the values of
    [PortableSerializer.v] under a common prefix, and differ in the defaults of
    their options and in how they purge a pattern: the Node store deletes while
    it lists, the Worker store lists first and within a bound. Loops over pages
    take fuel: it runs out only while the pages go on, and where a listing has a
    number of pages the theorems give enough. *)

From S2P Require Import Prelude JsValue Utf8 WirePolicy MessagePackScan JsonScan Codecs Pattern Serializer PortableSerializer KvWire CacheOptions KvNamespace.

(** ** Options *)

(** The fields of the cache's [CacheOptions] that the stores read. *)
Record SetOptions := { L2_ttlMs : option jsnum; L2_maxEntries : option jsnum; own_ttlMs : option jsnum }.

Definition no_set_options : SetOptions := {| L2_ttlMs := None; L2_maxEntries := None; own_ttlMs := None |}.

Record KVStoreOptions := {
  o_prefix : option jsstring;
  o_compression : option KVCompression;
  o_decodeLimits : DecodeLimits;
  o_maxPatternScanKeys : option jsnum;
  o_defaults : SetOptions }.

Definition DEFAULT_TTL_MS : Z := 60 * 60 * 1000.

Record kv_store := {
  prefix : jsstring;
  limits : ResolvedDecodeLimits;
  compression : option KVCompression;
  maxPatternScanKeys : Z;
  defaults : SetOptions }.

(** What both constructors check. *)
Definition store_base (o : KVStoreOptions) (max : Z) : result kv_fault kv_store :=
  let p := o_prefix o ?? js "cache:" in
  match resolveDecodeLimits (o_decodeLimits o) with
  | Throw e => Throw (FLimit e)
  | Ok l =>
      if bool_decide (p = []) then Throw (FRangeError "Cloudflare KV prefix cannot be empty")
      else match validateKVCompression (o_compression o) with
      | Throw m => Throw (FPortable (PTypeError m))
      | Ok _ => Ok {| prefix := p; limits := l; compression := o_compression o; maxPatternScanKeys := max; defaults := o_defaults o |}
      end
  end.

(** [new CloudflareKVStore] *)
Definition newKVStore (o : KVStoreOptions) : result kv_fault kv_store :=
  st <~ store_base o 0 ;;
  if bool_decide (is_Some (L2_maxEntries (o_defaults o))) then Throw (FRangeError "Cloudflare KV does not support L2 maxEntries")
  else Ok st.

(** [new CloudflareWorkerKVStore] *)
Definition newWorkerKVStore (o : KVStoreOptions) : result kv_fault kv_store :=
  let max := o_maxPatternScanKeys o ?? JInt 400 in
  st <~ store_base o (num_floor max) ;;
  if negb (num_is_safe_integer max) || num_lt max (JInt 1) || num_lt (JInt 900) max
  then Throw (FRangeError "Cloudflare KV maxPatternScanKeys must be between 1 and 900")
  else Ok st.

(** [ttl], for a call's options and the store's default. *)
Definition checked_ttl (o : SetOptions) (default_ms : jsnum) : result kv_fault Z :=
  if bool_decide (is_Some (L2_maxEntries o)) then Throw (FRangeError "Cloudflare KV does not support L2 maxEntries")
  else
    let ttlMs := L2_ttlMs o ?? (own_ttlMs o ?? default_ms) in
    if negb (num_is_safe_integer ttlMs) || num_le ttlMs (JInt 0)
    then Throw (FRangeError "Cloudflare KV TTL must be a positive safe integer")
    else Ok (num_floor ttlMs).

Definition node_ttl (st : kv_store) (o : SetOptions) : result kv_fault Z :=
  checked_ttl o (L2_ttlMs (defaults st) ?? (own_ttlMs (defaults st) ?? JInt DEFAULT_CACHE_TTL_MS)).

Definition worker_ttl (st : kv_store) (o : SetOptions) : result kv_fault Z :=
  checked_ttl o (own_ttlMs (defaults st) ?? JInt DEFAULT_TTL_MS).

(** [key] *)
Definition kv_key (st : kv_store) (k : jsstring) : result kv_fault jsstring :=
  let name := prefix st ++ k in
  if 512 <? utf8_length name then Throw (FRangeError "Cloudflare KV key exceeds 512 bytes") else Ok name.

(** KV keeps a value for at least a minute. *)
Definition expirationTtl (ttlMs : Z) : Z := Z.max 60 ((ttlMs + 999) / 1000).

(** ** Operations *)

Section store.
Context (S : Streams) (F : Formats) {N : Type} `{Namespace N}.

Definition lift_portable {A} (r : result portable_error A) : result kv_fault A :=
  match r with Ok a => Ok a | Throw e => Throw (FPortable e) end.
Definition lift_record {A} (r : result kv_error A) : result kv_fault A :=
  match r with Ok a => Ok a | Throw e => Throw (FRecord e) end.
Definition lift_limit {A} (r : result limit_error A) : result kv_fault A :=
  match r with Ok a => Ok a | Throw e => Throw (FLimit e) end.

Definition kv_delete (st : kv_store) (k : jsstring) : M N unit :=
  name <- mlift (kv_key st k) ;; ns_delete name.

Definition clock_now : M N Z := λ n, (Ok (now n), n).

(** [CloudflareKVStore.set] *)
Definition node_set (st : kv_store) (k : jsstring) (value : jsval) (o : SetOptions) : M N unit :=
  match value with
  | VUndef => kv_delete st k
  | _ =>
      ttlMs <- mlift (node_ttl st o) ;;
      t <- clock_now ;;
      let expiresAt := t + ttlMs in
      payload <- mlift (lift_portable (serializeCacheValue S F value
                   (Some (match compression st with Some KVNone => KVNone | _ => KVAuto end)))) ;;
      valueBytes <- mlift (lift_record (encodeKVRecord payload (JInt expiresAt))) ;;
      name <- mlift (kv_key st k) ;;
      ns_put name valueBytes (expirationTtl ttlMs)
  end.

(** [CloudflareWorkerKVStore.set] *)
Definition worker_set (st : kv_store) (k : jsstring) (value : jsval) (o : SetOptions) : M N unit :=
  match value with
  | VUndef => kv_delete st k
  | _ =>
      ttlMs <- mlift (worker_ttl st o) ;;
      payload <- mlift (lift_portable (serializeCacheValue S F value (compression st))) ;;
      t <- clock_now ;;
      raw <- mlift (lift_record (encodeKVRecord payload (JInt (t + ttlMs)))) ;;
      name <- mlift (kv_key st k) ;;
      ns_put name raw (expirationTtl ttlMs)
  end.

(** [readEncoded]: the payload of a record that has not expired. *)
Definition readEncoded (st : kv_store) (k : jsstring) : M N (option KVRecord) :=
  name <- mlift (kv_key st k) ;;
  raw <- ns_get name ;;
  match raw with
  | None => mret None
  | Some raw =>
      if maxEncodedBytes (limits st) + 12 <? byteLength raw then mret None
      else
        t <- clock_now ;;
        mret (match decodeKVRecord raw t with
              | Ok r => if ttlRemainingMs r <=? 0 then None else Some r
              | Throw _ => None
              end)
  end.

(** [getWithTtl] *)
Definition getWithTtl (st : kv_store) (k : jsstring) : M N (option (jsval * Z)) :=
  entry <- readEncoded st k ;;
  match entry with
  | None => mret None
  | Some r =>
      decoded <- mlift (lift_limit (decodePortableCacheRecord S F (kv_payload r) (resolved_options (limits st)))) ;;
      mret ((λ v, (v, ttlRemainingMs r)) <$> decoded)
  end.

Definition kv_get (st : kv_store) (k : jsstring) : M N jsval :=
  entry <- getWithTtl st k ;; mret (match entry with Some (v, _) => v | None => VUndef end).

Definition is_undefined (v : jsval) : bool := match v with VUndef => true | _ => false end.

Definition node_has (st : kv_store) (k : jsstring) : M N bool :=
  v <- kv_get st k ;; mret (negb (is_undefined v)).
Definition worker_has (st : kv_store) (k : jsstring) : M N bool :=
  entry <- getWithTtl st k ;; mret (bool_decide (is_Some entry)).

(** [getOrSet], with the store's [set]. *)
Definition kv_getOrSet (set : jsstring → jsval → SetOptions → M N unit) (st : kv_store) (k : jsstring)
    (loader : M N jsval) (o : SetOptions) : M N jsval :=
  cached <- kv_get st k ;;
  if negb (is_undefined cached) then mret cached
  else
    value <- loader ;;
    _ <- (if is_undefined value then mret tt else set k value o) ;;
    mret value.

(** ** Patterns *)

(** [pattern.slice(0, pattern.indexOf('*'))] *)
Fixpoint before_star (p : jsstring) : jsstring :=
  match p with
  | [] => []
  | c :: p => if c =? star then [] else c :: before_star p
  end.

(** The names of this store whose key matches. *)
Definition selected (st : kv_store) (pattern name : jsstring) : bool :=
  starts_with name (prefix st) && matchesPattern (drop (length (prefix st)) name) pattern.

Fixpoint delete_all (l : list jsstring) : M N unit :=
  match l with
  | [] => mret tt
  | name :: l => _ <- ns_delete name ;; delete_all l
  end.

(** Where a listing goes on; [None] is the error. *)
Definition advance_cursor (cursor : option jsstring) (pg : kv_page) : option jsstring :=
  match next_cursor pg with
  | None | Some [] => None
  | Some c => if bool_decide (cursor = Some c) then None else Some c
  end.

Definition not_advanced : kv_fault := FError "Cloudflare KV list did not advance its cursor".

(** The loop of [CloudflareKVStore.deleteByPattern]. *)
Fixpoint node_purge (fuel : nat) (st : kv_store) (pattern : jsstring) (cursor : option jsstring) : M N unit :=
  match fuel with
  | O => mfail FOutOfFuel
  | Datatypes.S fuel =>
      pg <- ns_list (prefix st ++ before_star pattern) cursor None ;;
      _ <- delete_all (filter (λ name, selected st pattern name = true) (names pg)) ;;
      if list_complete pg then mret tt
      else match advance_cursor cursor pg with
           | None => mfail not_advanced
           | Some c => node_purge fuel st pattern (Some c)
           end
  end.

Definition node_deleteByPattern (fuel : nat) (st : kv_store) (pattern : jsstring) : M N unit :=
  if negb (bool_decide (star ∈ pattern)) then kv_delete st pattern else node_purge fuel st pattern None.

(** The scan of [CloudflareWorkerKVStore.deleteByPattern]. *)
Fixpoint worker_scan (fuel : nat) (st : kv_store) (pattern : jsstring) (cursor : option jsstring)
    (scanned : Z) (found : list jsstring) : M N (list jsstring) :=
  match fuel with
  | O => mfail FOutOfFuel
  | Datatypes.S fuel =>
      let max := maxPatternScanKeys st in
      pg <- ns_list (prefix st ++ before_star pattern) cursor (Some (Z.min 1000 (max - scanned + 1))) ;;
      let scanned := scanned + Z.of_nat (length (names pg)) in
      if (max <? scanned) || (negb (list_complete pg) && (max <=? scanned))
      then mfail (FRangeError "Cloudflare KV pattern scan exceeded the maximum; use a narrower pattern or a background purge")
      else
        let found := found ++ filter (λ name, selected st pattern name = true) (names pg) in
        if list_complete pg then mret found
        else match advance_cursor cursor pg with
             | None => mfail not_advanced
             | Some c => worker_scan fuel st pattern (Some c) scanned found
             end
  end.

Definition worker_deleteByPattern (fuel : nat) (st : kv_store) (pattern : jsstring) : M N unit :=
  if negb (bool_decide (star ∈ pattern)) then kv_delete st pattern
  else found <- worker_scan fuel st pattern None 0 [] ;; delete_all found.

(** [size]: the Node store counts the names with its prefix only. *)
Fixpoint count_names (only_own : bool) (fuel : nat) (st : kv_store) (cursor : option jsstring) (count : Z) : M N Z :=
  match fuel with
  | O => mfail FOutOfFuel
  | Datatypes.S fuel =>
      pg <- ns_list (prefix st) cursor None ;;
      let mine := if only_own then filter (λ name, starts_with name (prefix st) = true) (names pg) else names pg in
      let count := count + Z.of_nat (length mine) in
      if list_complete pg then mret count
      else match advance_cursor cursor pg with
           | None => mfail not_advanced
           | Some c => count_names only_own fuel st (Some c) count
           end
  end.

Definition node_size (fuel : nat) (st : kv_store) : M N Z := count_names true fuel st None 0.
Definition worker_size (fuel : nat) (st : kv_store) : M N Z := count_names false fuel st None 0.

Definition node_clear (fuel : nat) (st : kv_store) : M N unit := node_deleteByPattern fuel st [star].
Definition worker_clear (fuel : nat) (st : kv_store) : M N unit := worker_deleteByPattern fuel st [star].
End store.

(** ** Facts about names *)

Lemma head_split_star p : hd_error (split_star p) = Some (before_star p).
Proof.
  induction p as [|c p IH]; [done|]. simpl. destruct (split_star p) eqn:E; [by destruct (split_star_nonempty p)|].
  simpl in *. destruct (c =? star); [done|]. simpl. congruence.
Qed.

Lemma matches_before_star v p : star ∈ p → matchesPattern v p = true → starts_with v (before_star p) = true.
Proof.
  unfold matchesPattern. intros Hs. case_bool_decide as Hu; [subst p; by intros _; vm_compute|].
  rewrite (bool_decide_true (star ∈ p)) by done. simpl. rewrite head_split_star. simpl.
  by destruct (starts_with v (before_star p)).
Qed.

Lemma selected_listed st pattern name :
  star ∈ pattern → selected st pattern name = true → starts_with name (prefix st ++ before_star pattern) = true.
Proof.
  unfold selected. rewrite andb_true_iff. intros Hs [Hp Hm]. apply starts_with_spec in Hp as [w ->].
  rewrite drop_app_length in Hm. apply matches_before_star in Hm as [w' ->]%starts_with_spec; [|done].
  apply starts_with_spec. exists w'. by rewrite app_assoc.
Qed.

(** Selection by key. *)
Lemma selected_key st pattern k : selected st pattern (prefix st ++ k) = matchesPattern k pattern.
Proof.
  unfold selected. rewrite drop_app_length. replace (starts_with (prefix st ++ k) (prefix st)) with true; [done|].
  symmetry. apply starts_with_spec. by exists k.
Qed.

Lemma selected_literal st pattern name :
  star ∉ pattern → selected st pattern name = true → name = prefix st ++ pattern.
Proof.
  unfold selected, matchesPattern. rewrite andb_true_iff. intros Hs [Hp Hm]. apply starts_with_spec in Hp as [w ->].
  rewrite drop_app_length in Hm. f_equal. rewrite (bool_decide_false (star ∈ pattern)) in Hm by done.
  case_bool_decide as Hu; [subst; by destruct Hs; left|]. simpl in Hm. by apply bool_decide_eq_true in Hm.
Qed.

(** ** Purging a pattern of a settled namespace *)

Section purge.
Context {N : Type} `{SettledNamespace N}.

(** Nothing but names that [sel] selects is gone. *)
Definition only_removed (sel : jsstring → bool) (n n' : N) : Prop :=
  ∀ k, contents n' k = contents n k ∨ (sel k = true ∧ contents n' k = None).

Lemma only_removed_refl sel n n' : contents n' = contents n → only_removed sel n n'.
Proof. intros E k. left. by rewrite E. Qed.

Lemma only_removed_trans sel n1 n2 n3 : only_removed sel n1 n2 → only_removed sel n2 n3 → only_removed sel n1 n3.
Proof. intros H1 H2 k. destruct (H1 k) as [E1|[E1 F1]], (H2 k) as [E2|[E2 F2]]; [left|right|right|right]; split || idtac; congruence. Qed.

Lemma only_removed_none sel n n' k : only_removed sel n n' → contents n k = None → contents n' k = None.
Proof. intros Hr Hk. destruct (Hr k) as [E|[_ E]]; congruence. Qed.

Lemma delete_all_spec sel l n r n' :
  Forall (λ k, sel k = true) l → delete_all l n = (r, n') →
  only_removed sel n n' ∧ (∀ p c, (pages n' p c <= pages n p c)%nat) ∧
  (r = Throw FService ∨ (r = Ok tt ∧ ∀ k, k ∈ l → contents n' k = None)).
Proof.
  revert n. induction l as [|k l IH]; intros n Hl Hd; simpl in Hd.
  { injection Hd as <- <-. split_and!; [by apply only_removed_refl|done|right; split; [done|]; by intros k []%not_elem_of_nil]. }
  apply Forall_cons in Hl as [Hk Hl]. unfold mbind in Hd. destruct (ns_delete k n) as [r1 n1] eqn:E.
  destruct (delete_law _ _ _ _ E) as [H1 H2]. destruct r1 as [[]|e].
  - destruct (IH n1 Hl Hd) as (G1 & G2 & G3).
    assert (R1 : only_removed sel n n1). { intros k'. rewrite H1. simpl. case_bool_decide; [right; by subst|by left]. }
    split_and!; [by eapply only_removed_trans|intros p c; etrans; [apply G2|apply H2]|].
    destruct G3 as [G3|[G3 G4]]; [by left|right]. split; [done|]. intros k' [->|Hk']%elem_of_cons; [|by apply G4].
    eapply only_removed_none; [done|]. rewrite H1. simpl. by rewrite bool_decide_true.
  - injection Hd as <- <-. split_and!; [intros k'; left; apply H1|done|left; f_equal; by eapply delete_faults].
Qed.

(** A page that does not end the listing moves the cursor. *)
Lemma advance_cursor_spec p c l n pg n' :
  ns_list p c l n = (Ok pg, n') → list_complete pg = false →
  ∃ c', advance_cursor c pg = Some c' ∧ next_cursor pg = Some c' ∧ (pages n' p (Some c') < pages n p c)%nat.
Proof.
  intros Hl Hc. destruct (list_advances _ _ _ _ _ _ Hl Hc) as (c' & E1 & E2 & E3 & E4). exists c'.
  unfold advance_cursor. rewrite E1. destruct c' as [|x c']; [done|]. rewrite bool_decide_false by congruence. done.
Qed.

Lemma node_purge_spec st pattern fuel cursor n r n' :
  let P := prefix st ++ before_star pattern in
  let sel := selected st pattern in
  (pages n P cursor < fuel)%nat → node_purge fuel st pattern cursor n = (r, n') →
  only_removed sel n n' ∧
  (r = Throw FService ∨
   (r = Ok tt ∧ ∀ k, sel k = true → starts_with k P = true → (∀ c, cursor = Some c → behind c k = false) → contents n' k = None)).
Proof.
  cbv zeta. revert cursor n. induction fuel as [|fuel IH]; intros cursor n Hf Hp; [lia|]. cbn [node_purge] in Hp. unfold mbind in Hp.
  destruct (ns_list _ _ _ n) as [[pg|e] n1] eqn:El; pose proof (list_law _ _ _ _ _ _ El) as Hc.
  2:{ injection Hp as <- <-. split; [by apply only_removed_refl|left]. f_equal. by eapply list_faults. }
  destruct (list_page _ _ _ _ _ _ El) as [_ Hpage].
  destruct (delete_all _ n1) as [[[]|e] n2] eqn:Ed;
    apply (delete_all_spec (selected st pattern)) in Ed as (D1 & D2 & D3);
    try (apply Forall_forall; by intros k [Hk _]%list_elem_of_filter).
  2:{ injection Hp as <- <-. split; [eapply only_removed_trans; [by apply only_removed_refl|done]|]. destruct D3 as [D3|[[=] _]]. by left. }
  destruct D3 as [[=]|[_ D3]].
  assert (R : only_removed (selected st pattern) n n2) by (eapply only_removed_trans; [by apply only_removed_refl|done]).
  assert (Hgone : ∀ k, selected st pattern k = true → starts_with k (prefix st ++ before_star pattern) = true →
    (∀ c, cursor = Some c → behind c k = false) → contents n2 k = None ∨
    (list_complete pg = false ∧ ∀ c', next_cursor pg = Some c' → behind c' k = false)).
  { intros k Hs Hst Hb. destruct (contents n k) as [v|] eqn:Ek; [|left; by eapply only_removed_none].
    destruct (Hpage k Hst) as [Hk|Hk]; [congruence|done| |by right]. left. apply D3, list_elem_of_filter. done. }
  destruct (list_complete pg) eqn:Elc.
  - injection Hp as <- <-. split; [done|right]. split; [done|]. intros k Hs Hst Hb. by destruct (Hgone k Hs Hst Hb) as [|[]].
  - destruct (advance_cursor_spec _ _ _ _ _ _ El Elc) as (c' & Ea & Enx & Epg). rewrite Ea in Hp.
    destruct (IH (Some c') n2) as [I1 I2]; [pose proof (D2 (prefix st ++ before_star pattern) (Some c')); lia|done|].
    split; [by eapply only_removed_trans|]. destruct I2 as [I2|[I2 I3]]; [by left|right]. split; [done|]. intros k Hs Hst Hb.
    destruct (Hgone k Hs Hst Hb) as [Hn|[_ Hn]]; [by eapply only_removed_none|]. apply I3; [done|done|]. intros c [= <-]. by apply Hn.
Qed.

Lemma kv_delete_spec st pattern n r n' :
  star ∉ pattern → kv_delete st pattern n = (r, n') →
  only_removed (selected st pattern) n n' ∧
  (r = Throw FService ∨ (r = Throw (FRangeError "Cloudflare KV key exceeds 512 bytes") ∧ contents n' = contents n) ∨
   (r = Ok tt ∧ ∀ k, selected st pattern k = true → contents n' k = None)).
Proof.
  intros Hs. unfold kv_delete, mbind, mlift, kv_key. destruct (_ <? _).
  { intros [= <- <-]. split; [by apply only_removed_refl|right; by left]. }
  intros Hd. destruct (delete_law _ _ _ _ Hd) as [H1 _]. split.
  - intros k. rewrite H1. destruct (is_ok r && bool_decide (k = prefix st ++ pattern)) eqn:E; [right|by left].
    apply andb_true_iff in E as [_ ->%bool_decide_eq_true]. rewrite selected_key. split; [|done].
    unfold matchesPattern. case_bool_decide; [done|]. by rewrite (bool_decide_false (star ∈ pattern)), bool_decide_true by done.
  - destruct r as [[]|e]; [|left; f_equal; by eapply delete_faults]. right. right. split; [done|].
    intros k ->%selected_literal; [|done]. rewrite H1. simpl. by rewrite bool_decide_true.
Qed.

(** The scan changes nothing and, when it ends, has found every selected name
    and no more than the bound. *)
Lemma worker_scan_spec st pattern fuel cursor scanned found n r n' :
  let P := prefix st ++ before_star pattern in
  let sel := selected st pattern in
  (pages n P cursor < fuel)%nat → worker_scan fuel st pattern cursor scanned found n = (r, n') →
  Forall (λ k, sel k = true) found → Z.of_nat (length found) <= scanned →
  contents n' = contents n ∧
  match r with
  | Ok all =>
      Forall (λ k, sel k = true) all ∧ Z.of_nat (length all) <= maxPatternScanKeys st ∧ found `prefix_of` all ∧
      ∀ k, sel k = true → starts_with k P = true → contents n k ≠ None → (∀ c, cursor = Some c → behind c k = false) → k ∈ all
  | Throw e => e = FService ∨ is_range_error e = true
  end.
Proof.
  cbv zeta. revert cursor scanned found n. induction fuel as [|fuel IH]; intros cursor scanned found n Hf Hw Hsel Hlen; [lia|].
  cbn [worker_scan] in Hw. unfold mbind in Hw. set (P := prefix st ++ before_star pattern) in *.
  destruct (ns_list _ _ _ n) as [[pg|e] n1] eqn:El; pose proof (list_law _ _ _ _ _ _ El) as Hc.
  2:{ injection Hw as <- <-. split; [done|left; by eapply list_faults]. }
  destruct (list_page _ _ _ _ _ _ El) as [_ Hpage].
  destruct (_ || _) eqn:Eb; [injection Hw as <- <-; by split; [|right]|]. apply orb_false_iff in Eb as [Eb1 Eb2]. apply Z.ltb_ge in Eb1.
  set (mine := filter (λ name, selected st pattern name = true) (names pg)) in *.
  assert (Hmine : (length mine <= length (names pg))%nat) by apply length_filter.
  assert (Hsel' : Forall (λ k, selected st pattern k = true) (found ++ mine)).
  { apply Forall_app. split; [done|]. apply Forall_forall. by intros k [Hk _]%list_elem_of_filter. }
  assert (Hlen' : Z.of_nat (length (found ++ mine)) <= scanned + Z.of_nat (length (names pg))) by (rewrite length_app; lia).
  assert (Hin : ∀ k, selected st pattern k = true → starts_with k P = true → contents n k ≠ None →
    (∀ c, cursor = Some c → behind c k = false) → k ∈ found ++ mine ∨
    (list_complete pg = false ∧ ∀ c', next_cursor pg = Some c' → behind c' k = false)).
  { intros k H1 H2 H3 H4. destruct (Hpage k H2 H3 H4) as [Hk|Hk]; [left|by right]. apply elem_of_app. right. by apply list_elem_of_filter. }
  destruct (list_complete pg) eqn:Elc.
  - injection Hw as <- <-. split; [done|]. split_and!; [done|lia|by apply prefix_app_r|].
    intros k H1 H2 H3 H4. by destruct (Hin k H1 H2 H3 H4) as [|[]].
  - destruct (advance_cursor_spec _ _ _ _ _ _ El Elc) as (c' & Ea & Enx & Epg). rewrite Ea in Hw.
    destruct (IH (Some c') _ _ n1 ltac:(lia) Hw Hsel' Hlen') as [I1 I2]. split; [congruence|].
    destruct r as [all|e]; [|done]. destruct I2 as (J1 & J2 & J3 & J4). split_and!; [done|done|by eapply prefix_app_l|].
    intros k H1 H2 H3 H4. destruct (Hin k H1 H2 H3 H4) as [Hk|[_ Hk]]; [by eapply elem_of_prefix|].
    apply J4; [done|done|by rewrite Hc|]. intros c [= <-]. by apply Hk.
Qed.

(** Every listing it asks for has a limit the service accepts. *)
Lemma scan_limit_accepted st scanned :
  1 <= maxPatternScanKeys st <= 900 → 0 <= scanned < maxPatternScanKeys st →
  2 <= Z.min 1000 (maxPatternScanKeys st - scanned + 1) <= 901.
Proof. lia. Qed.

(** Counting ends. *)
Lemma count_names_total own st fuel cursor count n r n' :
  (pages n (prefix st) cursor < fuel)%nat → count_names own fuel st cursor count n = (r, n') →
  contents n' = contents n ∧ (r = Throw FService ∨ ∃ c, r = Ok c ∧ count <= c).
Proof.
  revert cursor count n. induction fuel as [|fuel IH]; intros cursor count n Hf Hw; [lia|]. cbn [count_names] in Hw. unfold mbind in Hw.
  destruct (ns_list _ _ _ n) as [[pg|e] n1] eqn:El; pose proof (list_law _ _ _ _ _ _ El) as Hc.
  2:{ injection Hw as <- <-. split; [done|left; f_equal; by eapply list_faults]. }
  set (mine := if own then _ else _) in Hw. destruct (list_complete pg) eqn:Elc.
  - injection Hw as <- <-. split; [done|right]. eexists. split; [done|lia].
  - destruct (advance_cursor_spec _ _ _ _ _ _ El Elc) as (c' & Ea & Enx & Epg). rewrite Ea in Hw.
    destruct (IH (Some c') _ n1 ltac:(lia) Hw) as [I1 I2]. split; [congruence|].
    destruct I2 as [I2|(c & -> & I2)]; [by left|right]. exists c. split; [done|lia].
Qed.

(** [deleteByPattern] of the Node store on a settled namespace, given fuel for
    the pages there are, ends with an error of the service or of the key check, or returns with
    every entry gone whose key matches the pattern; in each case every other
    name of the namespace is as it was. *)
Theorem settled_node_purge st pattern fuel n r n' :
  (pages n (prefix st ++ before_star pattern) None < fuel)%nat → node_deleteByPattern fuel st pattern n = (r, n') →
  (∀ name, contents n' name = contents n name ∨
     (∃ k, name = prefix st ++ k ∧ matchesPattern k pattern = true ∧ contents n' name = None)) ∧
  (r = Throw FService ∨ (r = Throw (FRangeError "Cloudflare KV key exceeds 512 bytes") ∧ contents n' = contents n) ∨
   (r = Ok tt ∧ ∀ k, matchesPattern k pattern = true → contents n' (prefix st ++ k) = None)).
Proof.
  intros Hf Hp.
  assert (Hs : only_removed (selected st pattern) n n' ∧
    (r = Throw FService ∨ (r = Throw (FRangeError "Cloudflare KV key exceeds 512 bytes") ∧ contents n' = contents n) ∨
     (r = Ok tt ∧ ∀ k, selected st pattern k = true → contents n' k = None))).
  { unfold node_deleteByPattern in Hp. case_bool_decide as Hstar; simpl in Hp; [|by apply kv_delete_spec in Hp].
    destruct (node_purge_spec st pattern fuel None n r n' Hf Hp) as [H1 H2]. split; [done|].
    destruct H2 as [H2|[H2 H3]]; [by left|right; right]. split; [done|]. intros k Hk. apply H3; [done| |done]. by apply selected_listed. }
  destruct Hs as [H1 H2]. split.
  - intros name. destruct (H1 name) as [E|[Hsel E]]; [by left|right]. unfold selected in Hsel. apply andb_true_iff in Hsel as [Hst Hm].
    apply starts_with_spec in Hst as [k ->]. rewrite drop_app_length in Hm. by exists k.
  - destruct H2 as [H2|[H2|[H2 H3]]]; [by left|by right; left|right; right]. split; [done|]. intros k Hk. apply H3. by rewrite selected_key.
Qed.

(** [deleteByPattern] of the Worker store is all or nothing up to its first
    deletion: given fuel for the pages there are, it returns with every matching
    entry gone, or throws a [RangeError] (too many keys, too long a key) with
    nothing deleted, or passes on an error of the service; other names are
    never touched. *)
Theorem worker_purge_all_or_nothing st pattern fuel n r n' :
  (pages n (prefix st ++ before_star pattern) None < fuel)%nat → worker_deleteByPattern fuel st pattern n = (r, n') →
  (∀ name, contents n' name = contents n name ∨
     (∃ k, name = prefix st ++ k ∧ matchesPattern k pattern = true ∧ contents n' name = None)) ∧
  match r with
  | Ok _ => ∀ k, matchesPattern k pattern = true → contents n' (prefix st ++ k) = None
  | Throw e => e = FService ∨ (is_range_error e = true ∧ contents n' = contents n)
  end.
Proof.
  intros Hf Hp.
  assert (Hs : only_removed (selected st pattern) n n' ∧
    match r with Ok _ => ∀ k, selected st pattern k = true → contents n' k = None
    | Throw e => e = FService ∨ (is_range_error e = true ∧ contents n' = contents n) end).
  { unfold worker_deleteByPattern in Hp. case_bool_decide as Hstar; simpl in Hp.
    - unfold mbind in Hp. destruct (worker_scan fuel st pattern None 0 [] n) as [r1 n1] eqn:Ew.
      destruct (worker_scan_spec st pattern fuel None 0 [] n r1 n1 Hf Ew) as [W1 W2]; [done|done|].
      destruct r1 as [all|e]; [|injection Hp as <- <-; split; [by apply only_removed_refl|naive_solver]].
      destruct W2 as (W2 & _ & _ & W3). destruct (delete_all_spec _ _ _ _ _ W2 Hp) as (D1 & _ & D2).
      assert (R : only_removed (selected st pattern) n n') by (eapply only_removed_trans; [by apply only_removed_refl|done]).
      split; [done|]. destruct D2 as [-> |[-> D2]]; [by left|]. intros k Hk. destruct (contents n k) as [v|] eqn:Ek; [|by eapply only_removed_none].
      apply D2, W3; [done|by apply selected_listed|congruence|done].
    - destruct (kv_delete_spec _ _ _ _ _ Hstar Hp) as [H1 [->|[[-> H2]|[-> H2]]]]; (split; [done|]); [by left|by right|done]. }
  destruct Hs as [H1 H2]. split.
  - intros name. destruct (H1 name) as [E|[Hsel E]]; [by left|right]. unfold selected in Hsel. apply andb_true_iff in Hsel as [Hst Hm].
    apply starts_with_spec in Hst as [k ->]. rewrite drop_app_length in Hm. by exists k.
  - destruct r; [|done]. intros k Hk. apply H2. by rewrite selected_key.
Qed.
End purge.

Lemma selected_iff st pattern name :
  selected st pattern name = true ↔ ∃ k, name = prefix st ++ k ∧ matchesPattern k pattern = true.
Proof.
  split; [|intros (k & -> & Hk); by rewrite selected_key]. unfold selected. intros [(k & ->)%starts_with_spec Hm]%andb_true_iff.
  rewrite drop_app_length in Hm. by exists k.
Qed.

(** ** Purging a pattern, whatever the service replies *)

Section exchanges.
Context (svc : kv_service).
#[local] Instance any_service : Namespace exchange := service_namespace svc.

Definition deletions (l : list jsstring) : exchange := (λ name, (CDelete name, Done)) <$> l.

(** The names of a page that a purge deletes. *)
Definition chosen (st : kv_store) (pattern : jsstring) (pg : kv_page) : list jsstring :=
  filter (λ name, selected st pattern name = true) (names pg).

Definition request (st : kv_store) (pattern : jsstring) (c : option jsstring) : kv_call :=
  CList (prefix st ++ before_star pattern) c None.

(** The exchange of pages that are listed one after the other, each purged
    before the next is asked for. *)
Fixpoint purged (st : kv_store) (pattern : jsstring) (c : option jsstring) (pgs : list kv_page) : exchange :=
  match pgs with
  | [] => []
  | pg :: pgs => (request st pattern c, Listed pg) :: deletions (chosen st pattern pg) ++ purged st pattern (next_cursor pg) pgs
  end.

(** The listing goes on after a page, at a cursor of its own. *)
Definition goes_on (c : option jsstring) (pg : kv_page) : Prop :=
  list_complete pg = false ∧ is_Some (next_cursor pg) ∧ next_cursor pg ≠ Some [] ∧ next_cursor pg ≠ c.

Fixpoint all_go_on (c : option jsstring) (pgs : list kv_page) : Prop :=
  match pgs with [] => True | pg :: pgs => goes_on c pg ∧ all_go_on (next_cursor pg) pgs end.

(** Where a listing stands after its pages. *)
Fixpoint cursor_after (c : option jsstring) (pgs : list kv_page) : option jsstring :=
  match pgs with [] => c | pg :: pgs => cursor_after (next_cursor pg) pgs end.

(** How a purge ends after pages that all went on: with a last page that is
    complete or does not advance, at a listing or a deletion that fails, or not
    within its fuel. *)
Inductive purge_end (st : kv_store) (pattern : jsstring) (c : option jsstring) : exchange → result kv_fault unit → Prop :=
| EndsComplete pg : list_complete pg = true → purge_end st pattern c (purged st pattern c [pg]) (Ok tt)
| EndsStuck pg : list_complete pg = false → ¬ goes_on c pg → purge_end st pattern c (purged st pattern c [pg]) (Throw not_advanced)
| EndsUnlisted : purge_end st pattern c [(request st pattern c, Fails)] (Throw FService)
| EndsUndeleted pg gone name rest :
    chosen st pattern pg = gone ++ name :: rest →
    purge_end st pattern c ((request st pattern c, Listed pg) :: deletions gone ++ [(CDelete name, Fails)]) (Throw FService).

Lemma deletions_app a b : deletions (a ++ b) = deletions a ++ deletions b.
Proof. apply fmap_app. Qed.

Lemma ns_delete_exchange name h :
  ns_delete name h = (Ok tt, h ++ [(CDelete name, Done)]) ∨ ns_delete name h = (Throw FService, h ++ [(CDelete name, Fails)]).
Proof. simpl. unfold ask. destruct (reply svc h (CDelete name)); auto. Qed.

Lemma delete_all_exchange l h :
  delete_all l h = (Ok tt, h ++ deletions l) ∨
  ∃ gone name rest, l = gone ++ name :: rest ∧ delete_all l h = (Throw FService, h ++ deletions gone ++ [(CDelete name, Fails)]).
Proof.
  revert h. induction l as [|name l IH]; intros h; [left; simpl; by rewrite app_nil_r|]. cbn [delete_all]. unfold mbind.
  destruct (ns_delete_exchange name h) as [-> | ->]; [|right; by exists [], name, l].
  destruct (IH (h ++ [(CDelete name, Done)])) as [-> | (gone & k & rest & -> & ->)].
  - left. by rewrite <-app_assoc.
  - right. exists (name :: gone), k, rest. by rewrite <-!app_assoc.
Qed.

Lemma goes_on_cursor c pg :
  list_complete pg = false →
  (goes_on c pg ∧ ∃ c', advance_cursor c pg = Some c' ∧ next_cursor pg = Some c') ∨ (¬ goes_on c pg ∧ advance_cursor c pg = None).
Proof.
  intros Hl. unfold goes_on, advance_cursor. destruct (next_cursor pg) as [[|x c']|]; [right; naive_solver| |right].
  - case_bool_decide as Hc; [right; naive_solver|left]. split; [|by eexists]. split_and!; [done|by eexists|done|congruence].
  - split; [|done]. intros (_ & [? [=]] & _).
Qed.

(** One round of the loop. *)
Lemma node_purge_round fuel st pattern c h :
  (∃ tail r, purge_end st pattern c tail r ∧ node_purge (Datatypes.S fuel) st pattern c h = (r, h ++ tail)) ∨
  ∃ pg, goes_on c pg ∧
    node_purge (Datatypes.S fuel) st pattern c h = node_purge fuel st pattern (next_cursor pg) (h ++ purged st pattern c [pg]).
Proof.
  cbn [node_purge]. unfold mbind. cbn [ns_list any_service service_namespace]. unfold ask. fold (request st pattern c).
  destruct (reply svc h (request st pattern c)) as [| | |pg];
    try (left; eexists _, _; split; [apply EndsUnlisted|done]).
  cbv zeta. fold (chosen st pattern pg).
  destruct (delete_all_exchange (chosen st pattern pg) (h ++ [(request st pattern c, Listed pg)])) as [-> | (gone & name & rest & Hl & ->)].
  2:{ left. eexists _, _. split; [by apply (EndsUndeleted st pattern c pg gone name rest)|by rewrite <-app_assoc]. }
  assert (Hh : (h ++ [(request st pattern c, Listed pg)]) ++ deletions (chosen st pattern pg) = h ++ purged st pattern c [pg])
    by (simpl; by rewrite app_nil_r, <-app_assoc).
  rewrite Hh. destruct (list_complete pg) eqn:Hc; [left; eexists _, _; split; [by apply EndsComplete|done]|].
  destruct (goes_on_cursor c pg Hc) as [(Hg & c' & -> & Hn)|[Hg ->]].
  - right. exists pg. split; [done|]. by rewrite Hn.
  - left. eexists _, _. split; [by apply EndsStuck|done].
Qed.

Lemma node_purge_exchange fuel st pattern c h :
  ∃ pgs, all_go_on c pgs ∧
    ((length pgs = fuel ∧ node_purge fuel st pattern c h = (Throw FOutOfFuel, h ++ purged st pattern c pgs)) ∨
     ∃ tail r, (length pgs < fuel)%nat ∧ purge_end st pattern (cursor_after c pgs) tail r ∧
       node_purge fuel st pattern c h = (r, h ++ purged st pattern c pgs ++ tail)).
Proof.
  revert c h. induction fuel as [|fuel IH]; intros c h.
  { exists []. split; [done|]. left. split; [done|]. simpl. by rewrite app_nil_r. }
  destruct (node_purge_round fuel st pattern c h) as [(tail & r & Hend & ->)|(pg & Hg & ->)].
  { exists []. split; [done|]. right. exists tail, r. split_and!; [simpl; lia|done|done]. }
  assert (Hp : ∀ pgs, purged st pattern c (pg :: pgs) = purged st pattern c [pg] ++ purged st pattern (next_cursor pg) pgs)
    by (intros pgs; simpl; by rewrite app_nil_r).
  destruct (IH (next_cursor pg) (h ++ purged st pattern c [pg])) as (pgs & Ha & Hcase). exists (pg :: pgs). split; [done|].
  rewrite (Hp pgs). destruct Hcase as [[Hl ->]|(tail & r & Hl & Hend & ->)].
  - left. split; [simpl; lia|]. by rewrite <-app_assoc.
  - right. exists tail, r. split_and!; [simpl; lia|done|by rewrite <-!app_assoc].
Qed.

(** The names whose deletion the service has acknowledged. *)
Definition acknowledged (l : exchange) (name : jsstring) : Prop := (CDelete name, Done) ∈ l.
Definition shown (l : exchange) (name : jsstring) : Prop := ∃ call pg, (call, Listed pg) ∈ l ∧ name ∈ names pg.

Lemma purged_app st pattern c a b : purged st pattern c (a ++ b) = purged st pattern c a ++ purged st pattern (cursor_after c a) b.
Proof. revert c. induction a as [|pg a IH]; intros c; [done|]. simpl. by rewrite IH, app_assoc. Qed.

Lemma purged_acknowledged st pattern c pgs name :
  acknowledged (purged st pattern c pgs) name ↔ shown (purged st pattern c pgs) name ∧ selected st pattern name = true.
Proof.
  unfold acknowledged, shown. revert c. induction pgs as [|pg pgs IH]; intros c; simpl.
  { split; [by intros ?%not_elem_of_nil|by intros [(? & ? & ?%not_elem_of_nil & _) _]]. }
  assert (Hd : ∀ x, x ∈ deletions (chosen st pattern pg) ↔ ∃ k, x = (CDelete k, Done) ∧ selected st pattern k = true ∧ k ∈ names pg).
  { intros x. unfold deletions, chosen. rewrite list_elem_of_fmap. setoid_rewrite list_elem_of_filter. naive_solver. }
  setoid_rewrite elem_of_cons. setoid_rewrite elem_of_app. setoid_rewrite Hd. specialize (IH (next_cursor pg)). split.
  - intros [[=]|[(k & [= ->] & Hk & Hin)|Hin%IH]]; [split; [|done]; by exists (request st pattern c), pg; auto|].
    destruct Hin as [(call & pg' & Hin & Hn) Hsel]. split; [|done]. exists call, pg'. auto.
  - intros [(call & pg' & [[= -> ->]|[(k & [=] & _)|Hin]] & Hn) Hsel]; right; [left; by exists name|right].
    apply IH. split; [|done]. by exists call, pg'.
Qed.

(** C27: what the Node store asks of the service, whatever the service replies:
    listings may be stale, keys may change meanwhile, calls may fail. A pattern
    with a wildcard is purged page by page: each page is asked for at the cursor
    of the one before, and of each page the names whose key matches are deleted,
    in order, before the next. The loop ends exactly so: normally after a page
    that is complete; with an error when a page does not advance the cursor; with
    the service's error at the first call that fails; otherwise not, the pages go
    on ([FOutOfFuel], after as many pages as there is fuel). A pattern without a
    wildcard is one deletion, of a name of at most 512 bytes. When it returns
    normally, the names whose deletion was acknowledged are those that a page
    has shown and whose key matches. *)
Theorem node_purge_exact fuel st pattern h :
  let run := node_deleteByPattern fuel st pattern h in
  if bool_decide (star ∈ pattern) then
    ∃ pgs, all_go_on None pgs ∧
      ((length pgs = fuel ∧ run = (Throw FOutOfFuel, h ++ purged st pattern None pgs)) ∨
       ∃ tail r, (length pgs < fuel)%nat ∧ purge_end st pattern (cursor_after None pgs) tail r ∧
         run = (r, h ++ purged st pattern None pgs ++ tail) ∧
         (r = Ok tt → ∀ name, let new := purged st pattern None pgs ++ tail in
            acknowledged new name ↔ shown new name ∧ ∃ k, name = prefix st ++ k ∧ matchesPattern k pattern = true))
  else if 512 <? utf8_length (prefix st ++ pattern)
  then run = (Throw (FRangeError "Cloudflare KV key exceeds 512 bytes"), h)
  else run = (Ok tt, h ++ [(CDelete (prefix st ++ pattern), Done)]) ∨
       run = (Throw FService, h ++ [(CDelete (prefix st ++ pattern), Fails)]).
Proof.
  cbv zeta. unfold node_deleteByPattern. case_bool_decide as Hs; simpl negb; cbv iota.
  - destruct (node_purge_exchange fuel st pattern None h) as (pgs & Ha & Hcase). exists pgs. split; [done|].
    destruct Hcase as [Hcase|(tail & r & Hl & Hend & Hrun)]; [by left|right]. exists tail, r. split_and!; try done.
    intros -> name. cbv zeta. inversion Hend as [pg Hc Ht|pg Hc Hg Ht Hr| |]; subst. rewrite <-purged_app, purged_acknowledged, selected_iff. done.
  - unfold kv_delete, kv_key, mbind, mlift. destruct (512 <? _); [done|]. apply ns_delete_exchange.
Qed.
End exchanges.

(** ** Writing and reading *)

(** The two stores. *)
Inductive runtime := Node | Worker.

Definition new_store (rt : runtime) : KVStoreOptions → result kv_fault kv_store :=
  match rt with Node => newKVStore | Worker => newWorkerKVStore end.

Definition store_ttl (rt : runtime) : kv_store → SetOptions → result kv_fault Z :=
  match rt with Node => node_ttl | Worker => worker_ttl end.

Definition kv_set (S : Streams) (F : Formats) {N} `{Namespace N} (rt : runtime) :
    kv_store → jsstring → jsval → SetOptions → M N unit :=
  match rt with Node => node_set S F | Worker => worker_set S F end.

Lemma checked_ttl_positive o d ttl : checked_ttl o d = Ok ttl → 0 < ttl.
Proof.
  unfold checked_ttl. cbv zeta. destruct (bool_decide _); [done|]. destruct (_ || _) eqn:E; [done|]. intros [= <-].
  apply orb_false_iff in E as [E1%negb_false_iff E2]. unfold num_is_safe_integer in E1. bools.
  destruct (_ ?? _) as [q|b|]; try done. unfold num_le, JInt, inject_Z, num_floor, num_is_integer in *. simpl in *. bools.
  rewrite Z.mul_1_r in *. assert (Qnum q = Zpos (Qden q) * (Qnum q / Zpos (Qden q))) by (apply Z.div_exact; lia). nia.
Qed.

(** The service keeps a record at least as long as the record says. *)
Lemma retained_long_enough ttl : 0 < ttl → ttl <= 1000 * expirationTtl ttl ∧ 60 <= expirationTtl ttl.
Proof. unfold expirationTtl. intros. pose proof (Z.div_mod (ttl + 999) 1000). pose proof (Z.mod_pos_bound (ttl + 999) 1000). lia. Qed.

Lemma store_base_ok o m st :
  store_base o m = Ok st →
  resolveDecodeLimits (o_decodeLimits o) = Ok (limits st) ∧ prefix st ≠ [] ∧
  (compression st = None ∨ compression st = Some KVAuto ∨ compression st = Some KVNone).
Proof.
  unfold store_base. destruct (resolveDecodeLimits _) as [l|]; [|done]. case_bool_decide as Hp; [done|].
  destruct (o_compression o) as [[]|] eqn:E; simpl; try done; intros [= <-]; simpl; auto.
Qed.

Lemma new_store_base rt o st : new_store rt o = Ok st → ∃ m, store_base o m = Ok st.
Proof.
  destruct rt; simpl; intros (st' & Hs & Hx)%rbind_ok; destruct (store_base o _) eqn:E; try done; eexists;
    injection Hs as ->; [destruct (bool_decide _)|destruct (_ || _)]; try done; by injection Hx as <-.
Qed.

Section roundtrip.
Context (Nv : Natives) (S : Streams) (F : Formats) {N : Type} `{SettledNamespace N}.

(** What a store of [value] puts: the serialized value and the time it is good
    for, under the store's name. *)
Lemma kv_set_puts rt o st k value so n n1 :
  new_store rt o = Ok st → is_undefined value = false → kv_set S F rt st k value so n = (Ok tt, n1) →
  ∃ c payload raw ttl,
    serializePortable S F value c = Ok payload ∧ store_ttl rt st so = Ok ttl ∧
    encodeKVRecord payload (JInt (now n + ttl)) = Ok raw ∧ kv_key st k = Ok (prefix st ++ k) ∧
    ns_put (prefix st ++ k) raw (expirationTtl ttl) n = (Ok tt, n1).
Proof.
  intros Hst Hu Hset. destruct (new_store_base _ _ _ Hst) as [m Hb]. destruct (store_base_ok _ _ _ Hb) as (_ & _ & Hc).
  assert (Hkey : ∀ name, kv_key st k = Ok name → name = prefix st ++ k) by (unfold kv_key; intros name; by destruct (_ <? _); intros [=]).
  destruct rt; simpl in *; (assert (Hv : ∀ A (x y : A), match value with VUndef => x | _ => y end = y) by (by destruct value)).
  - unfold node_set in Hset. rewrite Hv in Hset. unfold mbind, mlift, clock_now in Hset.
    destruct (node_ttl st so) as [ttl|]; [|done].
    destruct (serializeCacheValue S F value _) as [payload|] eqn:Es; [|done]. simpl in Hset.
    destruct (encodeKVRecord payload _) as [raw|] eqn:Ee; [|done]. simpl in Hset.
    destruct (kv_key st k) as [name|] eqn:Ek; [|done]. rewrite (Hkey name) in * by done.
    unfold serializeCacheValue in Es. simpl in Es. destruct (compression st) as [[]|]; simpl in Es; eexists _, payload, raw, ttl; done.
  - unfold worker_set in Hset. rewrite Hv in Hset. unfold mbind, mlift, clock_now in Hset.
    destruct (worker_ttl st so) as [ttl|]; [|done].
    destruct (serializeCacheValue S F value _) as [payload|] eqn:Es; [|done]. simpl in Hset.
    destruct (encodeKVRecord payload _) as [raw|] eqn:Ee; [|done]. simpl in Hset.
    destruct (kv_key st k) as [name|] eqn:Ek; [|done]. rewrite (Hkey name) in * by done.
    unfold serializeCacheValue in Es. destruct Hc as [Hc|[Hc|Hc]]; rewrite Hc in Es; simpl in Es; eexists _, payload, raw, ttl; done.
Qed.

(** what either store has set is read back, by the same store and at any
    later state of the namespace whose entry is still the one put: the stored
    value as long as the clock is before the time of the [set] plus its TTL, and
    [undefined] from then on. The TTL is positive and the service was asked to
    keep the entry at least that long. *)
Theorem kv_set_get rt o st k value so n n1 n2 x n3 :
  natives_ok Nv → gzip_compatible Nv S → formats_ok F → json_ok F →
  new_store rt o = Ok st → is_undefined value = false →
  let e := if is_sentinel value then EJson else EMsgpack in
  (is_nullish value = false → restores F value e) → fits F (limits st) (packed_value value) e →
  (∀ c payload, serializePortable S F value c = Ok payload → byteLength payload <= maxEncodedBytes (limits st)) →
  kv_set S F rt st k value so n = (Ok tt, n1) →
  contents n2 (prefix st ++ k) = contents n1 (prefix st ++ k) →
  kv_get S F st k n2 = (Ok x, n3) →
  ∃ ttl, store_ttl rt st so = Ok ttl ∧ 0 < ttl <= 1000 * expirationTtl ttl ∧
    x = if now n3 <? now n + ttl then stored_value value else VUndef.
Proof.
  intros HN HG HF HJ Hst Hu e Hr Hf Hlen Hset Hsame Hget.
  destruct (kv_set_puts rt o st k value so n n1 Hst Hu Hset) as (c & payload & raw & ttl & Hp & Httl & He & Hk & Hput).
  destruct (new_store_base _ _ _ Hst) as [m Hb]. destruct (store_base_ok _ _ _ Hb) as (Hl & _).
  assert (Hpos : 0 < ttl) by (destruct rt; by eapply checked_ttl_positive).
  exists ttl. split; [done|]. split; [pose proof (retained_long_enough ttl Hpos); lia|].
  assert (Hsafe : num_is_safe_integer (JInt (now n + ttl)) = true).
  { unfold encodeKVRecord in He. by destruct (num_is_safe_integer _). }
  destruct (kv_record_roundtrip payload (JInt (now n + ttl)) (now n3) Hsafe) as [_ Hrec].
  destruct (Hrec raw He) as [Hrl Hrd]. rewrite num_floor_JInt in Hrd.
  unfold kv_get, getWithTtl, readEncoded, mbind, mlift in Hget. rewrite Hk in Hget.
  destruct (ns_get (prefix st ++ k) n2) as [[v|ex] n4] eqn:Eg; [|done].
  destruct (get_law _ _ _ _ Eg) as [_ Hv]. rewrite (Hv v eq_refl), Hsame, (put_law _ _ _ _ _ _ Hput) in Hget.
  simpl in Hget. rewrite bool_decide_true in Hget by done. specialize (Hlen c payload Hp).
  replace (maxEncodedBytes (limits st) + 12 <? byteLength raw) with false in Hget by (symmetry; apply Z.ltb_ge; lia).
  unfold clock_now, mret in Hget. assert (n4 = n3) as ->.
  { destruct (decodeKVRecord raw (now n4)) as [rr|]; [destruct (_ <=? _)|]; simpl in Hget; [by injection Hget| |by injection Hget].
    by destruct (decodePortableCacheRecord S F _ _) as [[]|]; injection Hget. }
  rewrite Hrd in Hget. simpl in Hget. destruct (now n3 <? now n + ttl) eqn:Et; bools.
  - replace (now n + ttl - now n3 <=? 0) with false in Hget by (symmetry; apply Z.leb_gt; lia). simpl in Hget.
    destruct (both_read Nv S F value e payload (resolved_options (limits st)) (limits st)) as [Hd _]; try done;
      [exact (from_worker Nv S F value c payload Hp)|by eapply resolve_resolved|].
    rewrite Hd in Hget. by injection Hget as <-.
  - replace (now n + ttl - now n3 <=? 0) with true in Hget by (symmetry; apply Z.leb_le; lia). by injection Hget as <-.
Qed.
End roundtrip.

(** ** Situations *)

Definition demo_options : KVStoreOptions :=
  {| o_prefix := Some (js "c:"); o_compression := None; o_decodeLimits := no_limits;
     o_maxPatternScanKeys := Some (JInt 3); o_defaults := no_set_options |}.

Definition demo_store (max : Z) : kv_store :=
  {| prefix := js "c:"; limits := default_limits; compression := None; maxPatternScanKeys := max; defaults := no_set_options |}.

Lemma demo_store_new : newWorkerKVStore demo_options = Ok (demo_store 3).
Proof. vm_compute. reflexivity. Qed.

(** A namespace shared with another prefix, two names to a page. *)
Definition demo_namespace : page_namespace :=
  {| cells := [(js "c:user:1", [1]); (js "d:user:1", [2]); (js "c:item", [3]); (js "c:user:22", [4]); (js "c:user:1:name", [5])];
     clock := 1700000000000; page_size := 2 |}.

Lemma kv_set_get_witness :
  let r := kv_set stored_streams toy_formats Worker (demo_store 3) (js "k") (VStr toy_text)
             {| L2_ttlMs := Some (JInt 1500); L2_maxEntries := None; own_ttlMs := None |} demo_namespace in
  let g := kv_get stored_streams toy_formats (demo_store 3) (js "k") r.2 in
  r.1 = Ok tt ∧ g.1 = Ok (VStr toy_text) ∧
  ∃ ttl, store_ttl Worker (demo_store 3) {| L2_ttlMs := Some (JInt 1500); L2_maxEntries := None; own_ttlMs := None |} = Ok ttl ∧
    0 < ttl <= 1000 * expirationTtl ttl ∧
    VStr toy_text = (if now g.2 <? now demo_namespace + ttl then stored_value (VStr toy_text) else VUndef).
Proof.
  cbv zeta. split; [vm_compute; reflexivity|]. split; [vm_compute; reflexivity|].
  eapply (kv_set_get framed_natives stored_streams toy_formats Worker demo_options (demo_store 3) (js "k") (VStr toy_text) _
    demo_namespace _ _ (VStr toy_text) _ framed_natives_ok stored_streams_compatible toy_formats_ok toy_json_ok).
  - vm_compute. reflexivity.
  - reflexivity.
  - intros _ p [= <-]. vm_compute. split; reflexivity.
  - intros p [= <-]. vm_compute. reflexivity.
  - intros c payload Hp. destruct c; injection Hp as <-; vm_compute; discriminate.
  - vm_compute. reflexivity.
  - reflexivity.
  - vm_compute. reflexivity.
Defined.

Lemma settled_node_purge_witness :
  let r := node_deleteByPattern 10 (demo_store 3) (js "user:*") demo_namespace in
  r.1 = Ok tt ∧ (cells r.2).*1 = [js "d:user:1"; js "c:item"] ∧
  ∀ k, matchesPattern k (js "user:*") = true → contents r.2 (js "c:" ++ k) = None.
Proof.
  cbv zeta. split; [vm_compute; reflexivity|]. split; [vm_compute; reflexivity|].
  destruct (settled_node_purge (demo_store 3) (js "user:*") 10 demo_namespace
    (node_deleteByPattern 10 (demo_store 3) (js "user:*") demo_namespace).1 
    (node_deleteByPattern 10 (demo_store 3) (js "user:*") demo_namespace).2) as [_ [H|[[H _]|[_ H]]]].
  - vm_compute. lia.
  - vm_compute. reflexivity.
  - exfalso. vm_compute in H. discriminate.
  - exfalso. vm_compute in H. discriminate.
  - exact H.
Defined.

(** A service whose listings lag: they still show a name that is gone, and do
    not yet show [user:2]. The purge deletes what it is shown. *)
Definition lagging : kv_service :=
  {| reply h call := match call with
       | CList _ None _ => Listed {| names := [js "c:user:0"; js "c:user:1"]; list_complete := false; next_cursor := Some (js "x") |}
       | CList _ _ _ => Listed {| names := [js "c:user:3"]; list_complete := true; next_cursor := None |}
       | CGet _ => GotValue None
       | _ => Done
       end;
     clock_of h := Z.of_nat (length h) |}.

Example lagging_demo :
  let run := node_deleteByPattern (H := service_namespace lagging) 10 (demo_store 3) (js "user:*") [] in
  run.1 = Ok tt ∧
  run.2.*1 = [CList (js "c:user:") None None; CDelete (js "c:user:0"); CDelete (js "c:user:1");
              CList (js "c:user:") (Some (js "x")) None; CDelete (js "c:user:3")].
Proof. split; vm_compute; reflexivity. Qed.

(** Three names match and one more is scanned: with a bound of two nothing is
    deleted. *)
Lemma worker_purge_all_or_nothing_witness :
  let r := worker_deleteByPattern 10 (demo_store 2) (js "user:*") demo_namespace in
  let r' := worker_deleteByPattern 10 (demo_store 3) (js "user:*") demo_namespace in
  is_ok r.1 = false ∧ contents r.2 = contents demo_namespace ∧ r'.1 = Ok tt ∧ (cells r'.2).*1 = [js "d:user:1"; js "c:item"].
Proof.
  cbv zeta. split; [vm_compute; reflexivity|]. split; [|split; vm_compute; reflexivity].
  destruct (worker_purge_all_or_nothing (demo_store 2) (js "user:*") 10 demo_namespace
    (worker_deleteByPattern 10 (demo_store 2) (js "user:*") demo_namespace).1
    (worker_deleteByPattern 10 (demo_store 2) (js "user:*") demo_namespace).2) as [_ H].
  - vm_compute. lia.
  - vm_compute. reflexivity.
  - revert H. destruct (worker_deleteByPattern 10 (demo_store 2) (js "user:*") demo_namespace) as [[[]|e] n'] eqn:E.
    + exfalso. vm_compute in E. discriminate.
    + simpl. intros [->|[_ H]]; [exfalso; vm_compute in E; discriminate|exact H].
Defined.
