(* ===== verification/CloudflareEvents.v ===== *)
(** * Cloudflare queue messages ([src/src/cloudflare/invalidationQueue.ts],
      [src/src/cloudflare-events/index.ts])

    Invalidations that an application sends through a queue, and the account
    events the platform sends. What arrives is a value of unknown type; nothing
    of it is used before it has been parsed. The queue's HTTP interface and
    [Date.parse] are arguments. *)

From S2P Require Import Prelude JsValue KvNamespace Uri.

(** [typeof value === 'object' && value !== null && !Array.isArray(value)] *)
Definition record (v : jsval) : bool := is_plain_object v.

Definition text_of (v : jsval) : option jsstring := match v with VStr s => Some s | _ => None end.
Definition is_text (v : jsval) : bool := bool_decide (is_Some (text_of v)).
Definition safe_integer_value (v : jsval) : bool := match v with VNum n => num_is_safe_integer n | _ => false end.

(** ** Invalidation messages *)

Inductive CloudflareInvalidationMessage :=
| KeyMessage (id scope key : jsstring) (timestamp : Z)
| PatternMessage (id scope pattern : jsstring) (timestamp : Z).

Definition MAX_SCOPE_LENGTH : Z := 128.
Definition MAX_TARGET_BYTES : Z := 512.

Definition validTarget (target : jsval) : bool :=
  match target with VStr s => negb (bool_decide (s = [])) && (utf8_length s <=? MAX_TARGET_BYTES) | _ => false end.

Definition validateTarget (target : jsstring) : result kv_fault unit :=
  guard_ok (validTarget (VStr target)) (FRangeError "Invalidation key or pattern must contain 1 to 512 UTF-8 bytes").

(** [new CloudflareQueueInvalidationPublisher]: the scope it keeps. *)
Definition new_publisher (scope : jsstring) : result kv_fault jsstring :=
  if bool_decide (scope = []) || (MAX_SCOPE_LENGTH <? Z.of_nat (length scope))
  then Throw (FRangeError "Invalidation scope must contain 1 to 128 characters") else Ok scope.

(** The message as it is sent. *)
Definition to_json (m : CloudflareInvalidationMessage) : jsval :=
  let fields id scope type name target timestamp :=
    VObj [(js "version", VNum (JInt 1)); (js "id", VStr id); (js "scope", VStr scope); (js "type", VStr (js type));
          (js name, VStr target); (js "timestamp", VNum (JInt timestamp))] in
  match m with
  | KeyMessage id scope key t => fields id scope "key"%string "key"%string key t
  | PatternMessage id scope pattern t => fields id scope "pattern"%string "pattern"%string pattern t
  end.

Section publisher.
Context {N : Type} (sender : jsval → M N unit).

(** [uuid] is [crypto.randomUUID()], [now] [Date.now()]. *)
Definition publishKey (scope key uuid : jsstring) (now : Z) : M N unit :=
  _ <- mlift (validateTarget key) ;; sender (to_json (KeyMessage uuid scope key now)).

Definition publishPattern (scope pattern uuid : jsstring) (now : Z) : M N unit :=
  _ <- mlift (validateTarget pattern) ;; sender (to_json (PatternMessage uuid scope pattern now)).
End publisher.

Definition parseCloudflareInvalidationMessage (value : jsval) : option jsval :=
  if negb (record value)
     || negb (match prop "version" value with VNum n => num_le n (JInt 1) && num_le (JInt 1) n | _ => false end)
     || negb (match prop "id" value with VStr s => negb (bool_decide (s = [])) | _ => false end)
     || negb (match prop "scope" value with
              | VStr s => negb (bool_decide (s = [])) && negb (MAX_SCOPE_LENGTH <? Z.of_nat (length s))
              | _ => false end)
     || negb (safe_integer_value (prop "timestamp" value)) || negb (is_text (prop "type" value))
  then None
  else if match prop "type" value with VStr t => bool_decide (t = js "key") | _ => false end && validTarget (prop "key" value)
  then Some value
  else if match prop "type" value with VStr t => bool_decide (t = js "pattern") | _ => false end && validTarget (prop "pattern" value)
  then Some value
  else None.

(** ** The REST sender *)

Record http_response := { ok : bool; status : Z; json : result kv_fault jsval }.

Record CloudflareQueueRestOptions := {
  accountId : option jsstring; queueId : option jsstring; apiToken : option jsstring; o_timeoutMs : option jsnum }.

(** [!value?.trim()] *)
Definition blank (value : option jsstring) : bool :=
  match value with None => true | Some s => forallb js_space s end.

Record rest_sender := { url : jsstring; token : jsstring; timeoutMs : Z }.

Definition newCloudflareQueueRestSender (o : CloudflareQueueRestOptions) : result kv_fault rest_sender :=
  let required name := FError ("Cloudflare Queue " ++ name ++ " is required") in
  if blank (accountId o) then Throw (required "accountId"%string)
  else if blank (queueId o) then Throw (required "queueId"%string)
  else if blank (apiToken o) then Throw (required "apiToken"%string)
  else
    let t := o_timeoutMs o ?? JInt 2000 in
    if negb (num_is_safe_integer t) || num_le t (JInt 0) then Throw (FRangeError "Cloudflare Queue timeoutMs must be positive")
    else match encodeURIComponent (accountId o ?? []), encodeURIComponent (queueId o ?? []) with
    | Some a, Some q =>
        Ok {| url := js "https://api.cloudflare.com/client/v4/accounts/" ++ a ++ js "/queues/" ++ q ++ js "/messages";
              token := apiToken o ?? []; timeoutMs := num_floor t |}
    | _, _ => Throw (FError "URI malformed")
    end.

(** [send]: [post] is the HTTP request of the JSON body. *)
Definition rest_send {N} (post : rest_sender → jsval → M N http_response) (s : rest_sender) (body : jsval) : M N unit :=
  response <- post s (VObj [(js "body", body); (js "content_type", VStr (js "json"))]) ;;
  if negb (ok response) then mfail (FError "Cloudflare Queue REST returned an HTTP error")
  else
    result <- mlift (json response) ;;
    if negb (record result) || negb (match prop "success" result with VBool true => true | _ => false end)
    then mfail (FError "Cloudflare Queue REST rejected the invalidation")
    else mret tt.

(** ** Platform events *)

Definition KV_TYPES : list jsstring := [js "cf.kv.namespace.created"; js "cf.kv.namespace.deleted"].

Definition BUILD_TYPES : list jsstring :=
  [js "cf.workersBuilds.worker.build.started"; js "cf.workersBuilds.worker.build.failed";
   js "cf.workersBuilds.worker.build.canceled"; js "cf.workersBuilds.worker.build.succeeded"].

Definition is_str (v : jsval) (s : string) : bool := match v with VStr t => bool_decide (t = js s) | _ => false end.

(** [date_parses s]: [Number.isFinite(Date.parse(s))]. *)
Definition parseCloudflarePlatformEvent (date_parses : jsstring → bool) (value : jsval) : option jsval :=
  let source := prop "source" value in
  let payload := prop "payload" value in
  let metadata := prop "metadata" value in
  if negb (record value) || negb (is_text (prop "type" value)) || negb (record source) || negb (record payload) || negb (record metadata)
  then None
  else if negb (is_text (prop "accountId" metadata)) || negb (is_text (prop "eventSubscriptionId" metadata))
     || negb (safe_integer_value (prop "eventSchemaVersion" metadata))
     || negb (match prop "eventTimestamp" metadata with VStr s => date_parses s | _ => false end)
  then None
  else match text_of (prop "type" value) with
  | None => None
  | Some type =>
      if bool_decide (type ∈ KV_TYPES) then
        if negb (is_str (prop "type" source) "kv") || negb (is_text (prop "id" payload)) || negb (is_text (prop "name" payload))
        then None else Some value
      else if bool_decide (type ∈ BUILD_TYPES) then
        if negb (is_str (prop "type" source) "workersBuilds.worker") || negb (is_text (prop "workerName" source))
           || negb (is_text (prop "buildUuid" payload))
        then None else Some value
      else None
  end.

Record platform_summary := {
  s_type : jsval; s_accountId : jsval; s_timestamp : jsval; s_resource : jsval; s_resourceId : jsval; s_outcome : option jsval }.

Definition summarizeCloudflarePlatformEvent (event : jsval) : platform_summary :=
  let source := prop "source" event in
  let payload := prop "payload" event in
  let metadata := prop "metadata" event in
  let kv := is_str (prop "type" source) "kv" in
  {| s_type := prop "type" event; s_accountId := prop "accountId" metadata; s_timestamp := prop "eventTimestamp" metadata;
     s_resource := if kv then prop "name" payload else prop "workerName" source;
     s_resourceId := if kv then prop "id" payload else prop "buildUuid" payload;
     s_outcome := if is_str (prop "type" source) "workersBuilds.worker" then Some (prop "buildOutcome" payload) else None |}.

(** ** What is parsed *)

(** [v] carries the message [m]. *)
Definition carries (v : jsval) (m : CloudflareInvalidationMessage) : Prop :=
  match m with
  | KeyMessage id scope key t =>
      prop "id" v = VStr id ∧ prop "scope" v = VStr scope ∧ prop "type" v = VStr (js "key") ∧ prop "key" v = VStr key ∧
      ∃ n, prop "timestamp" v = VNum n ∧ num_is_safe_integer n = true ∧ num_floor n = t
  | PatternMessage id scope pattern t =>
      prop "id" v = VStr id ∧ prop "scope" v = VStr scope ∧ prop "type" v = VStr (js "pattern") ∧ prop "pattern" v = VStr pattern ∧
      ∃ n, prop "timestamp" v = VNum n ∧ num_is_safe_integer n = true ∧ num_floor n = t
  end.

Definition message_id m := match m with KeyMessage id _ _ _ | PatternMessage id _ _ _ => id end.
Definition message_scope m := match m with KeyMessage _ s _ _ | PatternMessage _ s _ _ => s end.
Definition message_target m := match m with KeyMessage _ _ k _ | PatternMessage _ _ k _ => k end.

Definition within_bounds (m : CloudflareInvalidationMessage) : Prop :=
  message_id m ≠ [] ∧ message_scope m ≠ [] ∧ Z.of_nat (length (message_scope m)) <= MAX_SCOPE_LENGTH ∧
  message_target m ≠ [] ∧ utf8_length (message_target m) <= MAX_TARGET_BYTES.

Lemma validTarget_spec v : validTarget v = true ↔ ∃ s, v = VStr s ∧ s ≠ [] ∧ utf8_length s <= MAX_TARGET_BYTES.
Proof.
  destruct v; simpl; try (split; [done|by intros (? & [=] & _)]). rewrite andb_true_iff, negb_true_iff, bool_decide_eq_false, Z.leb_le.
  naive_solver.
Qed.

Lemma text_match v (f : jsstring → bool) : match v with VStr s => f s | _ => false end = true ↔ ∃ s, v = VStr s ∧ f s = true.
Proof. destruct v; naive_solver. Qed.

Lemma safe_integer_value_spec v : safe_integer_value v = true ↔ ∃ n, v = VNum n ∧ num_is_safe_integer n = true.
Proof. destruct v; naive_solver. Qed.

(** Version 1, as a number. *)
Definition version_one (v : jsval) : bool :=
  match prop "version" v with VNum n => num_le n (JInt 1) && num_le (JInt 1) n | _ => false end.

Lemma invalidation_parse_spec v w :
  parseCloudflareInvalidationMessage v = Some w ↔
  w = v ∧ record v = true ∧ version_one v = true ∧ ∃ m, carries v m ∧ within_bounds m.
Proof.
  unfold parseCloudflareInvalidationMessage. fold (version_one v).
  destruct (negb (record v) || _ || _ || _ || _ || _) eqn:E.
  - split; [done|]. intros (-> & H1 & H2 & m & Hc & H3 & H4 & H5 & _).
    assert (Hm : ∃ id scope n t, prop "id" v = VStr id ∧ prop "scope" v = VStr scope ∧ prop "type" v = VStr t ∧
      prop "timestamp" v = VNum n ∧ num_is_safe_integer n = true ∧ id = message_id m ∧ scope = message_scope m).
    { destruct m as [id s k t|id s k t]; destruct Hc as (C1 & C2 & C3 & _ & n & C5 & C6 & _); by eexists id, s, n, _. }
    destruct Hm as (id & scope & n & t & M1 & M2 & M3 & M4 & M5 & -> & ->).
    rewrite H1, H2, M1, M2, M3, M4 in E. simpl in E. rewrite M5 in E. simpl in E.
    rewrite (bool_decide_false (message_id m = [])), (bool_decide_false (message_scope m = [])) in E by done.
    replace (MAX_SCOPE_LENGTH <? _) with false in E by (symmetry; apply Z.ltb_ge; lia). done.
  - rewrite !orb_false_iff, !negb_false_iff, !text_match, safe_integer_value_spec in E.
    destruct E as (((((H1 & H2) & (id & Hid & Hi)) & (scope & Hscope & Hs)) & (n & Hn & Hsafe)) & Ht).
    apply negb_true_iff, bool_decide_eq_false in Hi. apply andb_true_iff in Hs as [Hs1 Hs2].
    apply negb_true_iff, bool_decide_eq_false in Hs1. apply negb_true_iff, Z.ltb_ge in Hs2.
    destruct (_ && validTarget (prop "key" v)) eqn:Ek; [|destruct (_ && validTarget (prop "pattern" v)) eqn:Ep].
    + apply andb_true_iff in Ek as [(ty & Hty & Hk)%text_match (key & Hkey & Hb1 & Hb2)%validTarget_spec]. apply bool_decide_eq_true in Hk as ->.
      split; [intros [= <-]|naive_solver]. split_and!; try done. exists (KeyMessage id scope key (num_floor n)).
      split; [split_and!; try done; by exists n|by split_and!].
    + apply andb_true_iff in Ep as [(ty & Hty & Hk)%text_match (key & Hkey & Hb1 & Hb2)%validTarget_spec]. apply bool_decide_eq_true in Hk as ->.
      split; [intros [= <-]|naive_solver]. split_and!; try done. exists (PatternMessage id scope key (num_floor n)).
      split; [split_and!; try done; by exists n|by split_and!].
    + split; [done|]. intros (-> & _ & _ & m & Hc & _ & _ & _ & B1 & B2). destruct m as [i sc k t|i sc k t]; destruct Hc as (_ & _ & C3 & C4 & _).
      * rewrite C3, C4, bool_decide_true in Ek by done. simpl in Ek. rewrite (bool_decide_false (k = [])) in Ek by done.
        apply Z.leb_nle in Ek. simpl in B2. lia.
      * rewrite C3, C4, bool_decide_true in Ep by done. simpl in Ep. rewrite (bool_decide_false (k = [])) in Ep by done.
        apply Z.leb_nle in Ep. simpl in B2. lia.
Qed.

(** the parser accepts exactly the objects of version 1 that carry an
    invalidation message whose id and scope are not empty, whose scope has at
    most 128 characters and whose key or pattern has 1 to 512 UTF-8 bytes, and it
    hands them on unchanged. *)
Theorem invalidation_parse_exact v w :
  parseCloudflareInvalidationMessage v = Some w ↔
  w = v ∧ record v = true ∧ version_one v = true ∧ ∃ m, carries v m ∧ within_bounds m.
Proof. apply invalidation_parse_spec. Qed.

Lemma sent_carries m n : safe_int n = true →
  match m with KeyMessage _ _ _ t | PatternMessage _ _ _ t => t = n end → carries (to_json m) m.
Proof.
  intros Hn Ht. assert (Hs : num_is_safe_integer (JInt n) = true) by (by rewrite num_is_safe_integer_JInt).
  destruct m as [id s k t|id s k t]; subst t; (split; [reflexivity|]); (split; [reflexivity|]); (split; [reflexivity|]);
    (split; [reflexivity|]); exists (JInt n); (split; [reflexivity|]); (split; [done|apply num_floor_JInt]).
Qed.

Lemma json_version m : record (to_json m) = true ∧ version_one (to_json m) = true.
Proof. by destruct m. Qed.

(** what a publisher sends is what a consumer parses: a key or pattern
    within the bounds reaches the sender in one message, which the parser
    accepts unchanged and which carries that key or pattern and the publisher's
    scope; any other key or pattern throws and nothing is sent. *)
Theorem publication_parsed {N} (sender : jsval → M N unit) scope0 scope target uuid now n :
  new_publisher scope0 = Ok scope → uuid ≠ [] → safe_int now = true →
  if validTarget (VStr target) then
    (publishKey sender scope target uuid now n = sender (to_json (KeyMessage uuid scope target now)) n ∧
     parseCloudflareInvalidationMessage (to_json (KeyMessage uuid scope target now)) = Some (to_json (KeyMessage uuid scope target now)) ∧
     carries (to_json (KeyMessage uuid scope target now)) (KeyMessage uuid scope target now)) ∧
    (publishPattern sender scope target uuid now n = sender (to_json (PatternMessage uuid scope target now)) n ∧
     parseCloudflareInvalidationMessage (to_json (PatternMessage uuid scope target now)) = Some (to_json (PatternMessage uuid scope target now)) ∧
     carries (to_json (PatternMessage uuid scope target now)) (PatternMessage uuid scope target now))
  else
    ∃ e, is_range_error e = true ∧ publishKey sender scope target uuid now n = (Throw e, n) ∧
      publishPattern sender scope target uuid now n = (Throw e, n).
Proof.
  intros Hscope Hid Hnow. unfold new_publisher in Hscope. destruct (_ || _) eqn:Es; [done|]. injection Hscope as ->.
  apply orb_false_iff in Es as [Es1 Es2]. apply bool_decide_eq_false in Es1. apply Z.ltb_ge in Es2.
  unfold publishKey, publishPattern, validateTarget, mbind, mlift. destruct (validTarget (VStr target)) eqn:Et; simpl guard_ok.
  2:{ eexists. split; [|split; reflexivity]. done. }
  assert (Hb : ∀ m, message_id m = uuid → message_scope m = scope → message_target m = target → carries (to_json m) m →
    parseCloudflareInvalidationMessage (to_json m) = Some (to_json m)).
  { intros m H1 H2 H3 Hc. apply invalidation_parse_spec. destruct (json_version m) as [J1 J2]. split_and!; try done.
    exists m. split; [done|]. unfold within_bounds. rewrite H1, H2, H3. simpl in Et. apply andb_true_iff in Et as [Et1 Et2].
    apply negb_true_iff, bool_decide_eq_false in Et1. apply Z.leb_le in Et2. done. }
  split; (split_and!; [done|apply Hb; try done; by apply (sent_carries _ now)|by apply (sent_carries _ now)]).
Qed.

Lemma types_disjoint t : t ∈ KV_TYPES → t ∈ BUILD_TYPES → False.
Proof.
  assert (Hd : Forall (λ k, bool_decide (k ∈ BUILD_TYPES) = false) KV_TYPES) by (repeat constructor; vm_compute; reflexivity).
  rewrite Forall_forall in Hd. intros Hk%Hd. by apply bool_decide_eq_false in Hk.
Qed.

(** the summary of every platform event that was parsed is complete: its
    type, account, time, resource and resource id are strings, none of them
    missing. *)
Theorem platform_summary_complete date_parses v e :
  parseCloudflarePlatformEvent date_parses v = Some e →
  e = v ∧ let s := summarizeCloudflarePlatformEvent e in
  Forall (λ x, is_text x = true) [s_type s; s_accountId s; s_timestamp s; s_resource s; s_resourceId s] ∧
  (is_Some (s_outcome s) ↔ ∃ t, s_type s = VStr t ∧ t ∈ BUILD_TYPES).
Proof.
  unfold parseCloudflarePlatformEvent. cbv zeta. destruct (negb (record v) || _ || _ || _ || _) eqn:E1; [done|].
  destruct (negb (is_text (prop "accountId" (prop "metadata" v))) || _ || _ || _) eqn:E2; [done|].
  apply orb_false_iff in E1 as [[[[_ T%negb_false_iff]%orb_false_iff _]%orb_false_iff _]%orb_false_iff _].
  apply orb_false_iff in E2 as [[[A%negb_false_iff _]%orb_false_iff _]%orb_false_iff D%negb_false_iff].
  apply text_match in D as (ts & D & _). destruct (text_of (prop "type" v)) as [ty|] eqn:Ety; [|done].
  assert (Hty : prop "type" v = VStr ty) by (destruct (prop "type" v); simpl in Ety; congruence).
  unfold summarizeCloudflarePlatformEvent. simpl. case_bool_decide as Hkv.
  - destruct (_ || _) eqn:E3; [done|]. intros [= <-]. apply orb_false_iff in E3 as [[K%negb_false_iff I%negb_false_iff]%orb_false_iff Nm%negb_false_iff].
    split; [done|]. rewrite K. split; [repeat constructor; try done; by rewrite D|].
    assert (Hb : is_str (prop "type" (prop "source" v)) "workersBuilds.worker" = false).
    { destruct (prop "type" (prop "source" v)); try done. simpl in K. apply bool_decide_eq_true in K as ->. vm_compute. reflexivity. }
    rewrite Hb, Hty. split; [by intros [? [=]]|]. intros (t & [= <-] & Ht). exfalso.
    by apply (types_disjoint ty).
  - case_bool_decide as Hbt; [|done]. destruct (_ || _) eqn:E3; [done|]. intros [= <-]. apply orb_false_iff in E3 as [[K%negb_false_iff W%negb_false_iff]%orb_false_iff B%negb_false_iff]. split; [done|].
    assert (Hk : is_str (prop "type" (prop "source" v)) "kv" = false).
    { destruct (prop "type" (prop "source" v)); try done. simpl in K. apply bool_decide_eq_true in K as ->. vm_compute. reflexivity. }
    rewrite Hk, K, Hty. split; [repeat constructor; try done; by rewrite D|]. split; [intros _; by exists ty|by eexists].
Qed.

(** ** Situations *)

(** A sender that keeps what it is given. *)
Definition keeping (m : jsval) : M (list jsval) unit := λ n, (Ok tt, n ++ [m]).

Lemma publication_parsed_witness :
  publishKey keeping (js "shop") (js "user:1") (js "id-1") 1700000000000 [] =
    (Ok tt, [to_json (KeyMessage (js "id-1") (js "shop") (js "user:1") 1700000000000)]) ∧
  carries (to_json (KeyMessage (js "id-1") (js "shop") (js "user:1") 1700000000000)) (KeyMessage (js "id-1") (js "shop") (js "user:1") 1700000000000) ∧
  ∃ e, is_range_error e = true ∧ publishKey keeping (js "shop") [] (js "id-1") 1700000000000 [] = (Throw e, []) ∧
    publishPattern keeping (js "shop") [] (js "id-1") 1700000000000 [] = (Throw e, []).
Proof.
  pose proof (publication_parsed keeping (js "shop") (js "shop") (js "user:1") (js "id-1") 1700000000000 [] eq_refl ltac:(discriminate) eq_refl) as H.
  pose proof (publication_parsed keeping (js "shop") (js "shop") [] (js "id-1") 1700000000000 [] eq_refl ltac:(discriminate) eq_refl) as H'.
  split; [reflexivity|]. split; [exact (proj2 (proj2 (proj1 H)))|exact H'].
Defined.

Definition build_event : jsval :=
  VObj [(js "type", VStr (js "cf.workersBuilds.worker.build.failed"));
        (js "source", VObj [(js "type", VStr (js "workersBuilds.worker")); (js "workerName", VStr (js "shop"))]);
        (js "payload", VObj [(js "buildUuid", VStr (js "b-1")); (js "buildOutcome", VStr (js "fail"))]);
        (js "metadata", VObj [(js "accountId", VStr (js "a")); (js "eventSubscriptionId", VStr (js "s"));
                              (js "eventSchemaVersion", VNum (JInt 1)); (js "eventTimestamp", VStr (js "2026-01-01"))])].

Lemma platform_summary_complete_witness :
  parseCloudflarePlatformEvent (λ s, bool_decide (length s = 10%nat)) build_event = Some build_event ∧
  s_resource (summarizeCloudflarePlatformEvent build_event) = VStr (js "shop") ∧
  is_Some (s_outcome (summarizeCloudflarePlatformEvent build_event)).
Proof.
  split; [vm_compute; reflexivity|]. split; [vm_compute; reflexivity|].
  destruct (platform_summary_complete (λ s, bool_decide (length s = 10%nat)) build_event build_event) as (_ & _ & H);
    [vm_compute; reflexivity|]. apply H. exists (js "cf.workersBuilds.worker.build.failed"). split; [reflexivity|].
  unfold BUILD_TYPES. right. left.
Defined.

(** A refused REST answer is an error, never a silent loss. *)
Lemma rest_send_answers {N} post s body (n n' : N) :
  rest_send post s body n = (Ok tt, n') →
  ∃ r v, post s (VObj [(js "body", body); (js "content_type", VStr (js "json"))]) n = (Ok r, n') ∧
    ok r = true ∧ json r = Ok v ∧ prop "success" v = VBool true.
Proof.
  unfold rest_send. intros (r & n1 & Hp & H)%mbind_ok. destruct (ok r) eqn:Eo; [|done]. simpl in H.
  apply mbind_ok in H as (v & n2 & Hj & H). unfold mlift in Hj. injection Hj as Hj <-.
  destruct (_ || _) eqn:E; [done|]. injection H as <-. apply orb_false_iff in E as [_ E]. exists r, v. split_and!; try done.
  destruct (prop "success" v) as [| |[]| | | | |]; done.
Qed.
