(* ===== verification/WorkerCache.v ===== *)
(** * The Worker cache facade ([CloudflareWorkerMemoryStore] and
      [CloudflareWorkerCache] of [src/src/cloudflare/index.ts])

    A request-scoped cache over the Worker KV store ([KvStore.v]) with an
    optional memory L1 and an optional invalidation queue
    ([CloudflareEvents.v]). Every call is a task that runs to its next await in
    one step; the environment answers KV, loader and queue, and resumes the
    promise continuations, in any order. The L1 is shared: other cache instances
    of the isolate use it between any two steps. Values are cloneable data, options carry whole milliseconds, [performance.now] is read
    in microseconds. *)

From S2P Require Import Prelude Pattern JsMap KvNamespace.

(** ** The memory store *)

Section memory.
Context {A : Type}.

Record l1_entry := { l1_value : A; expiresAt : Z }.
Definition memory := list (jsstring * l1_entry).

Definition memory_get (now : Z) (name : jsstring) (m : memory) : memory * option A :=
  match jget name m with
  | None => (m, None)
  | Some e => if expiresAt e <=? now then (jdel name m, None) else (jset name e (jdel name m), Some (l1_value e))
  end.

(** [while (size > maxEntries) delete(first)] *)
Fixpoint evict (maxEntries : Z) (m : memory) : memory :=
  match m with
  | [] => []
  | e :: rest => if maxEntries <? jsize m then evict maxEntries rest else m
  end.

Definition memory_set (maxEntries now : Z) (name : jsstring) (value : A) (ttlMs : Z) (m : memory) : result kv_fault memory :=
  if negb (safe_int ttlMs) || (ttlMs <=? 0) then Throw (FRangeError "L1 TTL must be positive")
  else Ok (evict maxEntries (jset name {| l1_value := value; expiresAt := now + ttlMs |} (jdel name m))).

(** The constructors' checks: of [maxEntries] and of [l1TtlMs]. *)
Definition newWorkerMemoryStore (maxEntries : Z) : result kv_fault memory :=
  if negb (safe_int maxEntries) || (maxEntries <=? 0) then Throw (FRangeError "L1 maxEntries must be positive") else Ok [].

Definition worker_l1_ttl (l1TtlMs : option Z) : result kv_fault Z :=
  let ttl := from_option id 10000 l1TtlMs in
  if negb (safe_int ttl) || (ttl <=? 0) then Throw (FRangeError "L1 TTL must be positive") else Ok ttl.

Definition memory_delete (name : jsstring) (m : memory) : memory := jdel name m.

Definition memory_deleteByPattern (pattern : jsstring) (m : memory) : memory :=
  filter (λ e, matchesPattern e.1 pattern = false) m.

Definition memory_clear (m : memory) : memory := [].

Lemma evict_sub max m e : e ∈ evict max m → e ∈ m.
Proof. induction m as [|x m IH]; [done|]. cbn [evict]. destruct (_ <? _); [|done]. intros He%IH. by right. Qed.

Lemma evict_sublist max m : evict max m `sublist_of` m.
Proof. induction m as [|x m IH]; [constructor|]. cbn [evict]. destruct (_ <? _); [by constructor|done]. Qed.

Lemma evict_size max m : 0 <= max → jsize (evict max m) <= max.
Proof. intros Hm. induction m as [|x m IH]; [by unfold jsize; simpl|]. cbn [evict]. destruct (_ <? _) eqn:E; [done|]. by bools. Qed.

(** Nothing but the oldest goes, and only for room. *)
Lemma evict_suffix max m : ∃ old, m = old ++ evict max m ∧ (old ≠ [] → max <= jsize (evict max m)).
Proof.
  induction m as [|x m (old & IH1 & IH2)]; [by exists []|]. cbn [evict]. destruct (max <? jsize (x :: m)) eqn:E.
  - exists (x :: old). simpl. split; [by f_equal|]. intros _. destruct old as [|y old]; [|by apply IH2].
    simpl in IH1. rewrite <-IH1. unfold jsize in *. simpl in *. bools. lia.
  - by exists [].
Qed.
End memory.

Arguments l1_entry : clear implicits.
Arguments memory : clear implicits.

(** ** The facade *)

Section facade.
Context {V : Type} (prefix : jsstring) (l1TtlMs maxEntries : Z) (publisher : bool).

Inductive worker_fault := Closed | KvFault (e : kv_fault) | LoaderFault | QueueFault.

Abbreviation outcome := (result worker_fault (option V)).

Record key_revision := { revision : Z; references : Z }.

(** [state] names a revision object. [seen] (ghost) is how many mutations of the
    name had begun when the guard was made. *)
Record guard := { name : jsstring; state : nat; g_revision : Z; g_epoch : Z; seen : nat }.

(** Where a call is waiting. [get] for KV, on its own or on behalf of a
    [getOrSet] with a TTL; [getOrSet] for the continuation after its [get], for
    the start of its flight, the loader, the KV write, the end of its flight or
    that of another; [set] for the KV write; the invalidations for KV or the
    queue. *)
Inductive task :=
| Getting (g : guard) (startedAt : Z) (load_ttl : option Z)
| Got (key : jsstring) (ttl : Z) (found : option V)
| Starting (g : guard) (ttl : Z)
| Loading (g : guard) (ttl : Z)
| Publishing (g : guard) (value : V) (ttl startedAt : Z) (loaded : bool)
| Settled (g : guard) (r : outcome)
| Joined (flight : nat)
| Deleting (g : guard)
| PublishingKey (g : guard)
| Purging (pattern : jsstring)
| PublishingPattern (pattern : jsstring)
| Finished.

(** [mutations] (ghost) counts the [set], [delete] and matching
    [deleteByPattern] calls of a key; an L1 value carries the count its guard had
    seen, or, put by another cache, the count when it was put. [flights]: how each settled flight ended. *)
Record worker := {
  closed : bool;
  epoch : Z;
  keyRevisions : list (jsstring * nat);
  objects : nat → key_revision;
  inflight : list (jsstring * nat);
  l1 : option (memory (V * nat));
  tasks : list task;
  flights : list (nat * outcome);
  next_object : nat;
  mutations : jsstring → nat }.

Definition new_worker (with_l1 : bool) : worker :=
  {| closed := false; epoch := 0; keyRevisions := []; objects := λ _, {| revision := 0; references := 0 |}; inflight := [];
     l1 := if with_l1 then Some [] else None; tasks := []; flights := []; next_object := 0; mutations := λ _, 0%nat |}.

(** What the facade asks of its environment, and what its calls return. *)
Inductive request :=
| AskGet (key : jsstring) | AskSet (key : jsstring) (value : V) (ttl : Z) | AskDelete (key : jsstring)
| AskPurge (pattern : jsstring) | AskLoader (key : jsstring) | AskPublishKey (key : jsstring) | AskPublishPattern (pattern : jsstring).

Inductive worker_out :=
| Asks (call : nat) (r : request)
| Returns (call : nat) (r : outcome)
| Reports (on_set : bool).

Definition with_revisions (revs : list (jsstring * nat)) (objs : nat → key_revision) (s : worker) : worker :=
  {| closed := closed s; epoch := epoch s; keyRevisions := revs; objects := objs; inflight := inflight s; l1 := l1 s;
     tasks := tasks s; flights := flights s; next_object := next_object s; mutations := mutations s |}.

Definition with_inflight (m : list (jsstring * nat)) (s : worker) : worker :=
  {| closed := closed s; epoch := epoch s; keyRevisions := keyRevisions s; objects := objects s; inflight := m; l1 := l1 s;
     tasks := tasks s; flights := flights s; next_object := next_object s; mutations := mutations s |}.

Definition with_l1 (m : option (memory (V * nat))) (s : worker) : worker :=
  {| closed := closed s; epoch := epoch s; keyRevisions := keyRevisions s; objects := objects s; inflight := inflight s; l1 := m;
     tasks := tasks s; flights := flights s; next_object := next_object s; mutations := mutations s |}.

Definition with_tasks (l : list task) (s : worker) : worker :=
  {| closed := closed s; epoch := epoch s; keyRevisions := keyRevisions s; objects := objects s; inflight := inflight s; l1 := l1 s;
     tasks := l; flights := flights s; next_object := next_object s; mutations := mutations s |}.

Definition with_flight (i : nat) (r : outcome) (s : worker) : worker :=
  {| closed := closed s; epoch := epoch s; keyRevisions := keyRevisions s; objects := objects s; inflight := inflight s; l1 := l1 s;
     tasks := tasks s; flights := (i, r) :: flights s; next_object := next_object s; mutations := mutations s |}.

Definition with_mutations (f : jsstring → nat) (s : worker) : worker :=
  {| closed := closed s; epoch := epoch s; keyRevisions := keyRevisions s; objects := objects s; inflight := inflight s; l1 := l1 s;
     tasks := tasks s; flights := flights s; next_object := next_object s; mutations := f |}.

(** ** Guards *)

Definition put_object (i : nat) (r : key_revision) (objs : nat → key_revision) : nat → key_revision :=
  λ j, if Nat.eqb j i then r else objs j.

(** The object of a key, made when there is none. *)
Definition find_object (key : jsstring) (s : worker) : nat * worker :=
  match jget key (keyRevisions s) with
  | Some i => (i, s)
  | None =>
      let i := next_object s in
      (i, {| closed := closed s; epoch := epoch s; keyRevisions := jset key i (keyRevisions s);
             objects := put_object i {| revision := 0; references := 0 |} (objects s); inflight := inflight s; l1 := l1 s;
             tasks := tasks s; flights := flights s; next_object := Datatypes.S i; mutations := mutations s |})
  end.

Definition observeKey (mutate : bool) (key : jsstring) (s : worker) : guard * worker :=
  let '(i, s1) := find_object key s in
  let o := objects s1 i in
  let rev := if mutate then revision o + 1 else revision o in
  let s2 := with_revisions (keyRevisions s1) (put_object i {| revision := rev; references := references o + 1 |} (objects s1)) s1 in
  let s3 := if mutate then with_mutations (λ n, if bool_decide (n = key) then Datatypes.S (mutations s2 n) else mutations s2 n) s2 else s2 in
  ({| name := key; state := i; g_revision := rev; g_epoch := epoch s3; seen := mutations s3 key |}, s3).

Definition releaseKey (g : guard) (s : worker) : worker :=
  let o := objects s (state g) in
  let r := references o - 1 in
  let objs := put_object (state g) {| revision := revision o; references := r |} (objects s) in
  let revs := if (r =? 0) && bool_decide (jget (name g) (keyRevisions s) = Some (state g)) then jdel (name g) (keyRevisions s)
              else keyRevisions s in
  with_revisions revs objs s.

Definition isCurrent (g : guard) (s : worker) : bool :=
  negb (closed s) && (g_epoch g =? epoch s) && (revision (objects s (state g)) =? g_revision g)
  && bool_decide (jget (name g) (keyRevisions s) = Some (state g)).

(** ** The L1 *)

Definition localKey (key : jsstring) : jsstring := prefix ++ key.

(** [this.options.l1?.set(..)], with the ghost of its guard. *)
Definition l1_set (g : guard) (value : V) (ttl now : Z) (s : worker) : worker :=
  match l1 s with
  | None => s
  | Some m => match memory_set maxEntries now (localKey (name g)) (value, seen g) ttl m with
              | Ok m' => with_l1 (Some m') s
              | Throw _ => s
              end
  end.

Definition l1_delete (key : jsstring) (s : worker) : worker := with_l1 (memory_delete (localKey key) <$> l1 s) s.

(** [Math.floor(Math.min(l1TtlMs, ttl - (performance.now() - startedAt)))] *)
Definition l1_remaining (ttl startedAt perf : Z) : Z := Z.min l1TtlMs ((1000 * ttl - (perf - startedAt)) / 1000).

(** ** Tasks *)

Definition new_task (t : task) (s : worker) : worker := with_tasks (tasks s ++ [t]) s.
Definition set_task (i : nat) (t : task) (s : worker) : worker := with_tasks (<[i := t]> (tasks s)) s.

(** The call returns: its [finally] block has released the guard. *)
Definition return_call (i : nat) (g : guard) (r : outcome) (s : worker) : worker * list worker_out :=
  (set_task i Finished (releaseKey g s), [Returns i r]).

(** [get], up to its KV read; call [i] has a task already. *)
Definition begin_get (i : nat) (key : jsstring) (load_ttl : option Z) (now perf : Z) (s : worker) : worker * list worker_out :=
  let '(g, s1) := observeKey false key s in
  let '(m, local) := match l1 s1 with
                     | Some m => let '(m', v) := memory_get now (localKey key) m in (Some m', v)
                     | None => (None, None)
                     end in
  let s2 := with_l1 m s1 in
  match local with
  | Some (v, _) =>
      match load_ttl with
      | None => return_call i g (Ok (Some v)) s2
      | Some ttl => (set_task i (Got key ttl (Some v)) (releaseKey g s2), [])
      end
  | None => (set_task i (Getting g perf load_ttl) s2, [Asks i (AskGet key)])
  end.

(** The rest of [get]: [entry] is what [l2.getWithTtl] returned or threw. *)
Definition end_get (i : nat) (g : guard) (startedAt : Z) (load_ttl : option Z)
    (entry : result kv_fault (option (V * Z))) (now perf : Z) (s : worker) : worker * list worker_out :=
  let '(s1, r) := match entry with
    | Throw e => (s, Throw (KvFault e))
    | Ok None => (s, Ok None)
    | Ok (Some (v, ttlRemainingMs)) =>
        let remaining := l1_remaining ttlRemainingMs startedAt perf in
        if remaining <=? 0 then (s, Ok None)
        else (if isCurrent g s then l1_set g v remaining now s else s, Ok (Some v))
    end in
  match load_ttl with
  | None => return_call i g r s1
  | Some ttl =>
      let s2 := releaseKey g s1 in
      match r with
      | Ok found => (set_task i (Got (name g) ttl found) s2, [])
      | Throw _ => (set_task i (Got (name g) ttl None) s2, [Reports false])
      end
  end.

(** [getOrSet] after its [get]. *)
Definition after_get (i : nat) (key : jsstring) (ttl : Z) (found : option V) (s : worker) : worker * list worker_out :=
  match found with
  | Some v => (set_task i Finished s, [Returns i (Ok (Some v))])
  | None =>
      if closed s then (set_task i Finished s, [Returns i (Throw Closed)])
      else match jget key (inflight s) with
      | Some flight => (set_task i (Joined flight) s, [])
      | None =>
          let '(g, s1) := observeKey false key s in
          (set_task i (Starting g ttl) (with_inflight (jset key i (inflight s1)) s1), [])
      end
  end.

(** The flight's promise settles. *)
Definition settle_flight (i : nat) (g : guard) (r : outcome) (s : worker) : worker * list worker_out :=
  (set_task i (Settled g r) (with_flight i r s), []).

(** Its first step. *)
Definition start_flight (i : nat) (g : guard) (ttl : Z) (s : worker) : worker * list worker_out :=
  if closed s then settle_flight i g (Throw Closed) s
  else (set_task i (Loading g ttl) s, [Asks i (AskLoader (name g))]).

(** [publishValue], up to its KV write; [loaded]: for a flight. *)
Definition publishValue (i : nat) (g : guard) (value : V) (ttl : Z) (loaded : bool) (perf : Z) (s : worker) : worker * list worker_out :=
  if negb (isCurrent g s) then
    if loaded then settle_flight i g (Ok (Some value)) s else return_call i g (Ok None) s
  else (set_task i (Publishing g value ttl perf loaded) s, [Asks i (AskSet (name g) value ttl)]).

(** The loader has answered. *)
Definition end_load (i : nat) (g : guard) (ttl : Z) (answer : option (option V)) (perf : Z) (s : worker) : worker * list worker_out :=
  match answer with
  | None => settle_flight i g (Throw LoaderFault) s
  | Some None => settle_flight i g (Ok None) s
  | Some (Some v) =>
      if isCurrent g s then publishValue i g v ttl true perf s else settle_flight i g (Ok (Some v)) s
  end.

(** The KV write has ended. *)
Definition end_publish (i : nat) (g : guard) (value : V) (ttl startedAt : Z) (loaded : bool)
    (answer : result kv_fault unit) (now perf : Z) (s : worker) : worker * list worker_out :=
  let remaining := l1_remaining ttl startedAt perf in
  let s1 := if isCurrent g s && (0 <? remaining) then l1_set g value remaining now s else s in
  match answer with
  | Ok _ => if loaded then settle_flight i g (Ok (Some value)) s1 else return_call i g (Ok None) s1
  | Throw e =>
      if loaded then let '(s2, out) := settle_flight i g (Ok (Some value)) s1 in (s2, Reports true :: out)
      else return_call i g (Throw (KvFault e)) s
  end.

(** The [finally] of [getOrSet]. *)
Definition end_flight (i : nat) (g : guard) (r : outcome) (s : worker) : worker * list worker_out :=
  let s1 := if bool_decide (jget (name g) (inflight s) = Some i) then with_inflight (jdel (name g) (inflight s)) s else s in
  return_call i g r s1.

(** ** Mutations *)

(** What [set] and [delete] do at once. *)
Definition mutate_key (key : jsstring) (s : worker) : guard * worker :=
  let '(g, s1) := observeKey true key s in
  (g, l1_delete key (with_inflight (jdel key (inflight s1)) s1)).

(** [invalidateWithQueue] after its local part: an error of the KV that is not a
    [RangeError] is left to the queue, when there is one. *)
Definition after_local (local : result kv_fault unit) : option outcome :=
  match local with
  | Throw e => if is_range_error e || negb publisher then Some (Throw (KvFault e)) else None
  | Ok _ => if publisher then None else Some (Ok None)
  end.

Definition bump (pattern : jsstring) (objs : nat → key_revision) (e : jsstring * nat) : nat → key_revision :=
  if matchesPattern e.1 pattern
  then put_object e.2 {| revision := revision (objs e.2) + 1; references := references (objs e.2) |} objs else objs.

(** [deleteByPattern], up to its KV part. *)
Definition begin_purge (pattern : jsstring) (s : worker) : worker :=
  let objs := foldl (bump pattern) (objects s) (keyRevisions s) in
  let flying := filter (λ e, matchesPattern e.1 pattern = false ∨ jget e.1 (keyRevisions s) = None) (inflight s) in
  with_mutations (λ n, if matchesPattern n pattern then Datatypes.S (mutations s n) else mutations s n)
    (with_l1 (memory_deleteByPattern (prefix ++ pattern) <$> l1 s) (with_inflight flying (with_revisions (keyRevisions s) objs s))).

Definition close (s : worker) : worker :=
  if closed s then s
  else {| closed := true; epoch := epoch s + 1; keyRevisions := []; objects := objects s; inflight := []; l1 := l1 s;
          tasks := tasks s; flights := flights s; next_object := next_object s; mutations := mutations s |}.

(** What another cache instance does to the L1 they share, by the L1's names. *)
Inductive l1_use :=
| OtherGet (name : jsstring) (now : Z)
| OtherSet (name : jsstring) (value : V) (ttl now : Z)
| OtherDelete (name : jsstring)
| OtherDeleteByPattern (pattern : jsstring)
| OtherClear.

Definition use_l1 (u : l1_use) (m : memory (V * nat)) (s : worker) : memory (V * nat) :=
  match u with
  | OtherGet name now => (memory_get now name m).1
  | OtherSet name value ttl now =>
      match memory_set maxEntries now name (value, mutations s (drop (length prefix) name)) ttl m with Ok m' => m' | Throw _ => m end
  | OtherDelete name => memory_delete name m
  | OtherDeleteByPattern pattern => memory_deleteByPattern pattern m
  | OtherClear => memory_clear m
  end.

(** ** Calls and answers *)

Inductive worker_event :=
| CallGet (key : jsstring) (now perf : Z)
| CallGetOrSet (key : jsstring) (ttl now perf : Z)
| CallSet (key : jsstring) (value : option V) (ttl perf : Z)
| CallDelete (key : jsstring)
| CallDeleteByPattern (pattern : jsstring)
| CallClose
| AnswerGet (i : nat) (entry : result kv_fault (option (V * Z))) (now perf : Z)
| AnswerLoader (i : nat) (answer : option (option V)) (perf : Z)
| AnswerSet (i : nat) (answer : result kv_fault unit) (now perf : Z)
| AnswerLocal (i : nat) (answer : result kv_fault unit)
| AnswerQueue (i : nat) (ok : bool)
| Continue (i : nat)
| OtherCache (u : l1_use).

(** A call on a closed facade throws at once. *)
Definition refuse (s : worker) : worker * list worker_out :=
  (new_task Finished s, [Returns (length (tasks s)) (Throw Closed)]).

Definition call_delete (key : jsstring) (s : worker) : worker * list worker_out :=
  if closed s then refuse s
  else
    let i := length (tasks s) in
    let '(g, s1) := mutate_key key s in
    (new_task (Deleting g) s1, [Asks i (AskDelete key)]).

Definition call_set (key : jsstring) (value : option V) (ttl perf : Z) (s : worker) : worker * list worker_out :=
  match value with
  | None => call_delete key s
  | Some v =>
      if closed s then refuse s
      else
        let i := length (tasks s) in
        let '(g, s1) := mutate_key key (new_task Finished s) in
        publishValue i g v ttl false perf s1
  end.

Definition call_purge (pattern : jsstring) (s : worker) : worker * list worker_out :=
  if closed s then refuse s
  else (new_task (Purging pattern) (begin_purge pattern s), [Asks (length (tasks s)) (AskPurge pattern)]).

Definition call_clear : worker → worker * list worker_out := call_purge [star].

(** The KV part of an invalidation has ended. *)
Definition end_local (i : nat) (t : task) (answer : result kv_fault unit) (s : worker) : worker * list worker_out :=
  match t, after_local answer with
  | Deleting g, Some r => return_call i g r s
  | Deleting g, None => (set_task i (PublishingKey g) s, [Asks i (AskPublishKey (name g))])
  | Purging _, Some r => (set_task i Finished s, [Returns i r])
  | Purging p, None => (set_task i (PublishingPattern p) s, [Asks i (AskPublishPattern p)])
  | _, _ => (s, [])
  end.

Definition end_queue (i : nat) (t : task) (ok : bool) (s : worker) : worker * list worker_out :=
  let r := if ok then Ok None else Throw QueueFault in
  match t with
  | PublishingKey g => return_call i g r s
  | PublishingPattern _ => (set_task i Finished s, [Returns i r])
  | _ => (s, [])
  end.

Definition continue (i : nat) (t : task) (s : worker) : worker * list worker_out :=
  match t with
  | Got key ttl found => after_get i key ttl found s
  | Starting g ttl => start_flight i g ttl s
  | Settled g r => end_flight i g r s
  | Joined flight =>
      match snd <$> List.find (λ f, Nat.eqb f.1 flight) (flights s) with
      | Some r => (set_task i Finished s, [Returns i r])
      | None => (s, [])
      end
  | _ => (s, [])
  end.

Definition worker_step (s : worker) (e : worker_event) : worker * list worker_out :=
  let at_task i f := match tasks s !! i with Some t => f t | None => (s, []) end in
  match e with
  | CallGet key now perf => if closed s then refuse s else begin_get (length (tasks s)) key None now perf (new_task Finished s)
  | CallGetOrSet key ttl now perf =>
      if closed s then refuse s else begin_get (length (tasks s)) key (Some ttl) now perf (new_task Finished s)
  | CallSet key value ttl perf => call_set key value ttl perf s
  | CallDelete key => call_delete key s
  | CallDeleteByPattern pattern => call_purge pattern s
  | CallClose => (close s, [])
  | AnswerGet i entry now perf =>
      at_task i (λ t, match t with Getting g at_ load => end_get i g at_ load entry now perf s | _ => (s, []) end)
  | AnswerLoader i answer perf => at_task i (λ t, match t with Loading g ttl => end_load i g ttl answer perf s | _ => (s, []) end)
  | AnswerSet i answer now perf =>
      at_task i (λ t, match t with Publishing g v ttl at_ loaded => end_publish i g v ttl at_ loaded answer now perf s | _ => (s, []) end)
  | AnswerLocal i answer => at_task i (λ t, end_local i t answer s)
  | AnswerQueue i ok => at_task i (λ t, end_queue i t ok s)
  | Continue i => at_task i (λ t, continue i t s)
  | OtherCache u => (with_l1 ((λ m, use_l1 u m s) <$> l1 s) s, [])
  end.

Definition worker_log_step (w : worker * list worker_out) (e : worker_event) : worker * list worker_out :=
  let '(s, out) := worker_step w.1 e in (s, w.2 ++ out).

(** ** The invariant *)

Definition guard_of (t : task) : option guard :=
  match t with
  | Getting g _ _ | Starting g _ | Loading g _ | Publishing g _ _ _ _ | Settled g _ | Deleting g | PublishingKey g => Some g
  | Got _ _ _ | Joined _ | Purging _ | PublishingPattern _ | Finished => None
  end.

(** A task that is the flight of its key. *)
Definition flying (t : task) : bool :=
  match t with Starting _ _ | Loading _ _ | Publishing _ _ _ _ true | Settled _ _ => true | _ => false end.

Definition holds (o : nat) (g : option guard) : Z :=
  match g with Some g => if Nat.eqb (state g) o then 1 else 0 | None => 0 end.

Definition held (o : nat) (l : list task) : Z := sumZ (λ t, holds o (guard_of t)) l.
Definition held_apart (o : nat) (l : list guard) : Z := sumZ (λ g, holds o (Some g)) l.

#[local] Arguments held : simpl never.
#[local] Arguments held_apart : simpl never.

(** A guard that is in use, while the facade is open. *)
Record guard_live (s : worker) (g : guard) : Prop := {
  gk_object : jget (name g) (keyRevisions s) = Some (state g);
  gk_epoch : g_epoch g = epoch s;
  gk_seen : revision (objects s (state g)) - g_revision g = Z.of_nat (mutations s (name g)) - Z.of_nat (seen g) }.

(** [extra] are the guards a step is holding that no task holds yet, or any
    more. *)
Record worker_ok (extra : list guard) (s : worker) : Prop := {
  wk_map : jmap_ok (keyRevisions s);
  wk_objects : NoDup (keyRevisions s).*2;
  wk_fresh : ∀ o, (next_object s <= o)%nat → (o ∉ (keyRevisions s).*2) ∧ references (objects s o) = 0;
  wk_references : ∀ o, references (objects s o) = held o (tasks s) + held_apart o extra;
  wk_needed : ∀ key o, (key, o) ∈ keyRevisions s → 0 < references (objects s o);
  wk_closed : closed s = true → keyRevisions s = [] ∧ inflight s = [];
  wk_guards : closed s = false → ∀ g, (g ∈ extra ∨ ∃ t, t ∈ tasks s ∧ guard_of t = Some g) → guard_live s g;
  wk_inflight : jmap_ok (inflight s);
  wk_flights : ∀ key i, (key, i) ∈ inflight s →
    ∃ t g, tasks s !! i = Some t ∧ flying t = true ∧ guard_of t = Some g ∧ name g = key ∧ seen g = mutations s key;
  wk_cached : ∀ m key e, l1 s = Some m → clean (localKey key) → (localKey key, e) ∈ m → snd (l1_value e) = mutations s key;
  wk_memory : ∀ m, l1 s = Some m → jmap_ok m ∧ jsize m <= maxEntries }.

(** *** Counting guards *)

Lemma holds_nonneg o g : 0 <= holds o g.
Proof. destruct g as [g|]; simpl; [destruct (Nat.eqb _ _)|]; lia. Qed.

Lemma held_insert o l i t0 t :
  l !! i = Some t0 → held o (<[i := t]> l) = held o l - holds o (guard_of t0) + holds o (guard_of t).
Proof.
  intros Hi. unfold held. rewrite insert_take_drop by (by eapply lookup_lt_Some).
  rewrite <-(take_drop_middle l i t0 Hi) at 3. rewrite !sumZ_app, !sumZ_cons. lia.
Qed.

Lemma worker_held_snoc o l t : held o (l ++ [t]) = held o l + holds o (guard_of t).
Proof. unfold held. rewrite sumZ_app, sumZ_cons, sumZ_nil. lia. Qed.

Lemma held_nonneg o l : 0 <= held o l.
Proof. apply sumZ_nonneg. intros. apply holds_nonneg. Qed.

Lemma held_apart_nonneg o l : 0 <= held_apart o l.
Proof. apply sumZ_nonneg. intros g _. apply (holds_nonneg o (Some g)). Qed.

Lemma held_apart_cons o g l : held_apart o (g :: l) = holds o (Some g) + held_apart o l.
Proof. unfold held_apart. by rewrite sumZ_cons. Qed.

Lemma holds_self g : holds (state g) (Some g) = 1.
Proof. simpl. by rewrite Nat.eqb_refl. Qed.

Lemma put_object_eq i r objs : put_object i r objs i = r.
Proof. unfold put_object. by rewrite Nat.eqb_refl. Qed.

Lemma put_object_ne i j r objs : j ≠ i → put_object i r objs j = objs j.
Proof. intros H. unfold put_object. by rewrite (proj2 (Nat.eqb_neq j i) H). Qed.

(** *** Tasks *)

(** A task makes a step with its guard, or without one before and after. *)
Lemma set_task_ok ex s i t0 t :
  worker_ok ex s → tasks s !! i = Some t0 → guard_of t = guard_of t0 → (flying t0 = true → flying t = true) →
  worker_ok ex (set_task i t s).
Proof.
  intros [] Hi Hg Hf. split; simpl; try done.
  - intros o. rewrite (held_insert o _ i t0 t Hi), Hg, wk_references0. lia.
  - intros Hc g [Hx|(t' & Ht' & Hgt)]; [destruct (wk_guards0 Hc g); [auto|by split]|].
    apply list_elem_of_lookup in Ht' as [j Hj]. destruct (decide (j = i)) as [->|Hne].
    + rewrite list_lookup_insert_eq in Hj by (by eapply lookup_lt_Some). injection Hj as <-.
      destruct (wk_guards0 Hc g) as [G1 G2 G3]; [|by split]. right. exists t0. split; [by eapply list_elem_of_lookup_2|congruence].
    + rewrite list_lookup_insert_ne in Hj by done. destruct (wk_guards0 Hc g) as [G1 G2 G3]; [|by split].
      right. exists t'. split; [by eapply list_elem_of_lookup_2|done].
  - intros key j Hj. destruct (wk_flights0 key j Hj) as (t' & g & H1 & H2 & H3 & H4 & H5). destruct (decide (j = i)) as [->|Hne].
    + exists t, g. rewrite list_lookup_insert_eq by (by eapply lookup_lt_Some). assert (t' = t0) as -> by congruence. split_and!; auto; congruence.
    + exists t', g. by rewrite list_lookup_insert_ne.
Qed.

(** A task gives up its guard. *)
Lemma take_guard ex s i t0 t g :
  worker_ok ex s → tasks s !! i = Some t0 → guard_of t0 = Some g → guard_of t = None → (∀ key, (key, i) ∉ inflight s) →
  worker_ok (g :: ex) (set_task i t s).
Proof.
  intros [] Hi Hg Ht Hf. split; simpl; try done.
  - intros o. rewrite (held_insert o _ i t0 t Hi), held_apart_cons, Hg, Ht, wk_references0. unfold holds. lia.
  - intros Hc g' Hx. destruct (wk_guards0 Hc g') as [G1 G2 G3]; [|by split].
    destruct Hx as [[->|Hx]%elem_of_cons|(t' & Ht' & Hgt)]; [right|by left|right].
    + exists t0. split; [by eapply list_elem_of_lookup_2|done].
    + apply list_elem_of_lookup in Ht' as [j Hj]. destruct (decide (j = i)) as [->|Hne].
      * rewrite list_lookup_insert_eq in Hj by (by eapply lookup_lt_Some). injection Hj as <-. congruence.
      * rewrite list_lookup_insert_ne in Hj by done. exists t'. split; [by eapply list_elem_of_lookup_2|done].
  - intros key j Hj. destruct (wk_flights0 key j Hj) as (t' & g' & H1 & H2 & H3 & H4 & H5).
    assert (j ≠ i) by (intros ->; by apply (Hf key)). exists t', g'. by rewrite list_lookup_insert_ne.
Qed.

(** A task takes the guard the step has made. *)
Lemma give_guard ex s i t0 t g :
  worker_ok (g :: ex) s → tasks s !! i = Some t0 → guard_of t0 = None → guard_of t = Some g → worker_ok ex (set_task i t s).
Proof.
  intros [] Hi Hg Ht. split; simpl; try done.
  - intros o. rewrite (held_insert o _ i t0 t Hi), Hg, Ht, wk_references0, held_apart_cons. simpl. lia.
  - intros Hc g' Hx. destruct (wk_guards0 Hc g') as [G1 G2 G3]; [|by split].
    destruct Hx as [Hx|(t' & Ht' & Hgt)]; [left; by right|].
    apply list_elem_of_lookup in Ht' as [j Hj]. destruct (decide (j = i)) as [->|Hne].
    + rewrite list_lookup_insert_eq in Hj by (by eapply lookup_lt_Some). injection Hj as <-. left. assert (g' = g) as -> by congruence. by left.
    + rewrite list_lookup_insert_ne in Hj by done. right. exists t'. split; [by eapply list_elem_of_lookup_2|done].
  - intros key j Hj. destruct (wk_flights0 key j Hj) as (t' & g' & H1 & H2 & H3 & H4 & H5).
    assert (j ≠ i) by (intros ->; congruence). exists t', g'. by rewrite list_lookup_insert_ne.
Qed.

(** A task for a new call. *)
Lemma new_task_ok ex s t : worker_ok ex s → guard_of t = None → worker_ok ex (new_task t s).
Proof.
  intros [] Ht. split; simpl; try done.
  - intros o. rewrite worker_held_snoc, Ht, wk_references0. simpl. lia.
  - intros Hc g [Hx|(t' & Ht' & Hgt)]; [destruct (wk_guards0 Hc g); [auto|by split]|].
    apply elem_of_app in Ht' as [Ht'| ->%list_elem_of_singleton]; [|congruence]. destruct (wk_guards0 Hc g); [eauto|by split].
  - intros key j Hj. destruct (wk_flights0 key j Hj) as (t' & g' & H1 & H). exists t', g'. split; [by apply lookup_app_l_Some|done].
Qed.

Lemma new_task_last s t : tasks (new_task t s) !! length (tasks s) = Some t.
Proof. simpl. by rewrite lookup_app_r, Nat.sub_diag by lia. Qed.

(** *** Changing one part *)

(** An object belongs to one key. *)
Lemma one_key (l : list (jsstring * nat)) k1 k2 o : NoDup l.*2 → (k1, o) ∈ l → (k2, o) ∈ l → k1 = k2.
Proof.
  intros Hnd [i Hi]%list_elem_of_lookup [j Hj]%list_elem_of_lookup.
  assert (i = j) as -> by (eapply NoDup_lookup; [exact Hnd|rewrite list_lookup_fmap, Hi|rewrite list_lookup_fmap, Hj]; done).
  congruence.
Qed.

Definition l1_fresh (s : worker) (m : memory (V * nat)) : Prop :=
  (∀ key e, clean (localKey key) → (localKey key, e) ∈ m → snd (l1_value e) = mutations s key) ∧ jmap_ok m ∧ jsize m <= maxEntries.

Lemma l1_fresh_now ex s m : worker_ok ex s → l1 s = Some m → l1_fresh s m.
Proof. intros [] Hm. split; [by eauto|auto]. Qed.

Lemma with_l1_ok ex s m : worker_ok ex s → (∀ m', m = Some m' → l1_fresh s m') → worker_ok ex (with_l1 m s).
Proof.
  intros [] Hm. split; simpl; try done.
  - intros Hc g Hg. destruct (wk_guards0 Hc g Hg). by split.
  - intros m' key e H. by apply Hm.
  - intros m' H. by apply Hm.
Qed.

Lemma l1_fresh_sublist s m m' : l1_fresh s m → m' `sublist_of` m → l1_fresh s m'.
Proof.
  intros (H1 & H2 & H3) Hs. split_and!.
  - intros key e Hc Hin. apply (H1 key e Hc). by eapply elem_of_sublist.
  - eapply sublist_NoDup; [exact H2|]. by apply fmap_sublist.
  - apply sublist_length in Hs. unfold jsize in *. lia.
Qed.

Lemma shrink_l1_ok ex s f :
  worker_ok ex s → (∀ m, f m `sublist_of` m) → worker_ok ex (with_l1 (f <$> l1 s) s).
Proof.
  intros Hs Hf. apply with_l1_ok; [done|]. intros m' Hm. apply fmap_Some in Hm as (m & Hl & ->).
  eapply l1_fresh_sublist; [by eapply l1_fresh_now|done].
Qed.

Lemma shrink_inflight_ok ex s m : worker_ok ex s → m `sublist_of` inflight s → worker_ok ex (with_inflight m s).
Proof.
  intros [] Hm. split; simpl; try done.
  - intros Hc. destruct (wk_closed0 Hc) as [H1 H2]. split; [done|]. rewrite H2 in Hm. by apply sublist_nil_r in Hm.
  - intros Hc g Hg. destruct (wk_guards0 Hc g Hg). by split.
  - eapply sublist_NoDup; [exact wk_inflight0|]. by apply fmap_sublist.
  - intros key i Hi. destruct (wk_flights0 key i) as (t & g & H); [by eapply elem_of_sublist|by exists t, g].
Qed.

Lemma memory_get_fresh s now key m : l1_fresh s m → l1_fresh s (memory_get now key m).1.
Proof.
  intros H. unfold memory_get. destruct (jget key m) as [e|] eqn:E; [|done].
  assert (Hd : l1_fresh s (jdel key m)) by (eapply l1_fresh_sublist; [exact H|apply sublist_filter]).
  case_match; [done|]. destruct H as (H1 & H2 & H3), Hd as (D1 & D2 & D3). rewrite jset_new by apply jget_del_eq. split_and!.
  - intros k e' Hc [Hin|Hin]%elem_of_app; [by apply (D1 k e')|].
    apply list_elem_of_singleton in Hin. injection Hin as Hk ->. apply (H1 k e Hc). rewrite Hk. by apply jget_Some_elem.
  - apply jset_new_ok; [done|apply jget_del_eq].
  - cbn [fst]. rewrite jsize_new, (jsize_del key e) by done. lia.
Qed.

(** A current guard has seen the mutations of its key. *)
Lemma current_seen ex s g :
  worker_ok ex s → (g ∈ ex ∨ ∃ t, t ∈ tasks s ∧ guard_of t = Some g) → isCurrent g s = true → seen g = mutations s (name g).
Proof.
  intros [] Hg Hc. unfold isCurrent in Hc. bools. destruct (wk_guards0 ltac:(by destruct (closed s)) g Hg) as [_ _ G]. lia.
Qed.

(** A value put under a name has seen the mutations of the key of that name. *)
Lemma memory_set_fresh s m m' now x v n ttl :
  0 < maxEntries → l1_fresh s m → (∀ key, x = localKey key → n = mutations s key) →
  memory_set maxEntries now x (v, n) ttl m = Ok m' → l1_fresh s m'.
Proof.
  intros Hmax (H1 & H2 & H3) Hseen. unfold memory_set. destruct (_ || _); [done|]. intros [= <-].
  set (e := {| l1_value := (v, n); expiresAt := now + ttl |}).
  assert (Hnew : jset x e (jdel x m) = jdel x m ++ [(x, e)]) by (apply jset_new, jget_del_eq).
  rewrite Hnew. split_and!; [| |apply evict_size; lia].
  - intros key e' Hc Hin%evict_sub. apply elem_of_app in Hin as [Hin|Hin%list_elem_of_singleton].
    + apply (H1 key e' Hc). by apply list_elem_of_filter in Hin as [_ ?].
    + injection Hin as Hk ->. by apply Hseen.
  - eapply sublist_NoDup; [|apply fmap_sublist, evict_sublist]. apply jset_new_ok; [by apply jdel_ok|apply jget_del_eq].
Qed.

Lemma l1_set_ok ex s g v ttl now :
  0 < maxEntries → worker_ok ex s → seen g = mutations s (name g) → worker_ok ex (l1_set g v ttl now s).
Proof.
  intros Hmax Hs Hseen. unfold l1_set. destruct (l1 s) as [m|] eqn:Hm; [|done].
  destruct (memory_set _ _ _ _ _ _) as [m'|] eqn:Hset; [|done]. apply with_l1_ok; [done|]. intros m1 [= <-].
  eapply memory_set_fresh; [done|by eapply l1_fresh_now| |exact Hset]. intros key Hk%app_inv_head. by subst key.
Qed.

(** What another cache does to the L1. *)
Lemma use_l1_ok ex s u : 0 < maxEntries → worker_ok ex s → worker_ok ex (with_l1 ((λ m, use_l1 u m s) <$> l1 s) s).
Proof.
  intros Hmax Hs. apply with_l1_ok; [done|]. intros m' (m & Hm & ->)%fmap_Some. pose proof (l1_fresh_now _ _ _ Hs Hm) as Hf.
  destruct u as [x now|x v ttl now|x|p|]; simpl.
  - by apply memory_get_fresh.
  - destruct (memory_set _ _ _ _ _ _) as [m'|] eqn:Hset; [|done]. eapply memory_set_fresh; [done|done| |exact Hset].
    intros key ->. unfold localKey. by rewrite drop_app_length.
  - eapply l1_fresh_sublist; [done|apply sublist_filter].
  - eapply l1_fresh_sublist; [done|apply sublist_filter].
  - eapply l1_fresh_sublist; [done|apply sublist_nil_l].
Qed.

(** *** Guards made and given up *)

Lemma worker_release_ok ex s g : worker_ok (g :: ex) s → worker_ok ex (releaseKey g s).
Proof.
  intros [].
  assert (Href : ∀ o, references (objects (releaseKey g s) o) = held o (tasks s) + held_apart o ex).
  { intros o. cbn [releaseKey with_revisions objects]. specialize (wk_references0 o). rewrite held_apart_cons in wk_references0.
    destruct (decide (o = state g)) as [->|Ho].
    - rewrite put_object_eq. cbn [references]. rewrite holds_self in wk_references0. lia.
    - rewrite put_object_ne by done. unfold holds in wk_references0. rewrite (proj2 (Nat.eqb_neq _ _)) in wk_references0 by done. lia. }
  assert (Hrev : ∀ o, revision (objects (releaseKey g s) o) = revision (objects s o)).
  { intros o. cbn [releaseKey with_revisions objects]. destruct (decide (o = state g)) as [->|Ho]; [by rewrite put_object_eq|by rewrite put_object_ne]. }
  assert (Hsub : keyRevisions (releaseKey g s) `sublist_of` keyRevisions s).
  { simpl. case_match; [apply sublist_filter|done]. }
  split; try done.
  - eapply sublist_NoDup; [exact wk_map0|by apply fmap_sublist].
  - eapply sublist_NoDup; [exact wk_objects0|by apply fmap_sublist].
  - intros o Ho. destruct (wk_fresh0 o Ho) as [F1 F2]. split.
    + intros Hin. apply F1. eapply elem_of_sublist; [exact Hin|by apply fmap_sublist].
    + rewrite Href. rewrite wk_references0, held_apart_cons in F2.
      pose proof (held_nonneg o (tasks s)). pose proof (held_apart_nonneg o ex). pose proof (holds_nonneg o (Some g)). lia.
  - intros key o Hin. assert (Hold := elem_of_sublist _ _ _ Hin Hsub). specialize (wk_needed0 key o Hold).
    rewrite Href. pose proof (held_nonneg o (tasks s)). pose proof (held_apart_nonneg o ex).
    destruct (decide (o = state g)) as [->|Ho].
    + destruct (decide (0 < held (state g) (tasks s) + held_apart (state g) ex)) as [|Hz]; [done|]. exfalso.
      revert Hin. simpl. specialize (wk_references0 (state g)). rewrite held_apart_cons, holds_self in wk_references0.
      rewrite (proj2 (Z.eqb_eq _ _)) by lia. simpl.
      destruct (closed s) eqn:Hc; [rewrite (proj1 (wk_closed0 eq_refl)) in Hold; by apply elem_of_nil in Hold|].
      destruct (wk_guards0 eq_refl g) as [G _ _]; [left; by left|]. rewrite bool_decide_eq_true_2 by done.
      intros [Hk _]%list_elem_of_filter. apply Hk. simpl. eapply one_key; [exact wk_objects0|exact Hold|by apply jget_Some_elem].
    + specialize (wk_references0 o). rewrite held_apart_cons in wk_references0. unfold holds in wk_references0.
      rewrite (proj2 (Nat.eqb_neq _ _)) in wk_references0 by done. lia.
  - simpl. intros Hc. destruct (wk_closed0 Hc) as [-> H2]. split; [|done]. by destruct (_ && _).
  - intros Hc g' Hg'. destruct (wk_guards0 Hc g') as [G1 G2 G3].
    { destruct Hg' as [Hg'|Hg']; [left; by right|by right]. }
    split; [|done|by rewrite Hrev].
    simpl. destruct (references _ - 1 =? 0) eqn:E; simpl; [|done]. case_bool_decide as Hg; [|done].
    destruct (decide (name g' = name g)) as [Hn|Hn]; [|by rewrite jget_del_ne by congruence]. exfalso.
    assert (state g' = state g) as Hst by congruence. bools. specialize (wk_references0 (state g)).
    rewrite held_apart_cons, holds_self in wk_references0.
    pose proof (held_nonneg (state g) (tasks s)). pose proof (held_apart_nonneg (state g) ex).
    destruct Hg' as [Hx|(t & Ht & Hgt)].
    + assert (holds (state g) (Some g') <= held_apart (state g) ex); [|rewrite <-Hst, holds_self in *; rewrite Hst in *; lia].
      apply (sumZ_elem (λ x, holds (state g) (Some x))); [intros; apply holds_nonneg|done].
    + assert (holds (state g) (guard_of t) <= held (state g) (tasks s)).
      { apply (sumZ_elem (λ x, holds (state g) (guard_of x))); [intros; apply holds_nonneg|done]. }
      rewrite Hgt, <-Hst, holds_self in *. rewrite Hst in *. lia.
Qed.

(** A key is read: its object gets one more reference. *)
Lemma observe_old_ok ex s key i :
  jget key (keyRevisions s) = Some i → closed s = false → worker_ok ex s →
  worker_ok ((observeKey false key s).1 :: ex) (observeKey false key s).2.
Proof.
  intros Hi Hopen []. unfold observeKey, find_object. rewrite Hi.
  assert (Hin := jget_Some_elem _ _ _ Hi). split; simpl; try done.
  - intros o Ho. destruct (wk_fresh0 o Ho) as [F1 F2]. split; [done|]. rewrite put_object_ne; [done|]. intros ->. apply F1.
    apply list_elem_of_fmap. by exists (key, i).
  - intros o. rewrite held_apart_cons. destruct (decide (o = i)) as [->|Ho].
    + rewrite put_object_eq. simpl. rewrite Nat.eqb_refl, wk_references0. lia.
    + rewrite put_object_ne by done. simpl. rewrite (proj2 (Nat.eqb_neq i o)), wk_references0 by done. lia.
  - intros k o Ho. specialize (wk_needed0 k o Ho). destruct (decide (o = i)) as [->|Hne]; [rewrite put_object_eq; simpl; lia|by rewrite put_object_ne].
  - intros _ g Hg.
    assert (Hold : (g ∈ ex ∨ ∃ t, t ∈ tasks s ∧ guard_of t = Some g) ∨ g = {| name := key; state := i; g_revision := revision (objects s i); g_epoch := epoch s; seen := mutations s key |}).
    { destruct Hg as [[->|Hx]%elem_of_cons|Hg]; auto. }
    destruct Hold as [Hold| ->]; [|split; simpl; [done|done|rewrite put_object_eq; simpl; lia]].
    destruct (wk_guards0 Hopen g Hold) as [G1 G2 G3]. split; [done|done|]. simpl.
    destruct (decide (state g = i)) as [E|Hne]; [rewrite E, put_object_eq; simpl; by rewrite <-E|by rewrite put_object_ne].
Qed.

Lemma observe_new_ok ex s key :
  jget key (keyRevisions s) = None → closed s = false → worker_ok ex s →
  worker_ok ((observeKey false key s).1 :: ex) (observeKey false key s).2.
Proof.
  intros Hi Hopen []. unfold observeKey, find_object. rewrite Hi. simpl.
  rewrite jset_new by done. set (i := next_object s). destruct (wk_fresh0 i (Nat.le_refl _)) as [F1 F2].
  assert (Hin : ∀ k o, (k, o) ∈ keyRevisions s → o ≠ i).
  { intros k o Ho ->. apply F1. apply list_elem_of_fmap. by exists (k, i). }
  split; simpl; try done.
  - by apply jset_new_ok.
  - rewrite fmap_app. apply NoDup_app. split_and!; [done| |apply NoDup_singleton]. intros o Ho ->%list_elem_of_singleton. done.
  - intros o Ho. destruct (wk_fresh0 o) as [F3 F4]; [lia|]. rewrite fmap_app. split.
    + intros [Hx|Hx%list_elem_of_singleton]%elem_of_app; [done|]. simpl in *. lia.
    + rewrite !put_object_ne by lia. done.
  - intros o. rewrite held_apart_cons. destruct (decide (o = i)) as [->|Ho].
    + rewrite !put_object_eq. simpl. rewrite Nat.eqb_refl. rewrite wk_references0 in F2. lia.
    + rewrite !put_object_ne by done. simpl. rewrite (proj2 (Nat.eqb_neq i o)), wk_references0 by done. lia.
  - intros k o [Ho|Ho%list_elem_of_singleton]%elem_of_app.
    + rewrite !put_object_ne by eauto. eauto.
    + injection Ho as -> ->. by rewrite !put_object_eq.
  - by rewrite Hopen.
  - intros _ g Hg.
    assert (Hold : (g ∈ ex ∨ ∃ t, t ∈ tasks s ∧ guard_of t = Some g) ∨
      g = {| name := key; state := i; g_revision := 0; g_epoch := epoch s; seen := mutations s key |}).
    { rewrite put_object_eq in Hg. destruct Hg as [[->|Hx]%elem_of_cons|Hg]; auto. }
    destruct Hold as [Hold| ->]; [|split; simpl; [|done|rewrite !put_object_eq; simpl; lia]].
    + destruct (wk_guards0 Hopen g Hold) as [G1 G2 G3]. assert (state g ≠ i) by (eapply Hin, jget_Some_elem; exact G1).
      split; [|done|]; simpl; [|by rewrite !put_object_ne]. rewrite jget_app_new by done. rewrite bool_decide_eq_false_2; [done|congruence].
    + rewrite jget_app_new by done. by rewrite bool_decide_eq_true_2.
Qed.

Lemma observe_read_ok ex s key :
  closed s = false → worker_ok ex s → worker_ok ((observeKey false key s).1 :: ex) (observeKey false key s).2.
Proof. destruct (jget key (keyRevisions s)) as [i|] eqn:Hi; [by apply (observe_old_ok ex s key i)|by apply observe_new_ok]. Qed.

(** Keys are mutated: their revisions and their counts go up together, once
    nothing older of theirs is left in the L1 or in flight. *)
Lemma bumped_ok ex s objs muts (hit : jsstring → bool) :
  worker_ok ex s →
  (∀ o, references (objs o) = references (objects s o)) →
  (∀ key o, (key, o) ∈ keyRevisions s → revision (objs o) = revision (objects s o) + if hit key then 1 else 0) →
  (∀ n, muts n = if hit n then Datatypes.S (mutations s n) else mutations s n) →
  (∀ key i, (key, i) ∈ inflight s → hit key = false) →
  (∀ m key e, l1 s = Some m → clean (localKey key) → (localKey key, e) ∈ m → hit key = false) →
  worker_ok ex (with_mutations muts (with_revisions (keyRevisions s) objs s)).
Proof.
  intros [] Hrefs Hrev Hmut Hfly Hl1. split; simpl; try done.
  - intros o Ho. rewrite Hrefs. auto.
  - intros o. by rewrite Hrefs.
  - intros key o Ho. rewrite Hrefs. eauto.
  - intros Hc g Hg. destruct (wk_guards0 Hc g Hg) as [G1 G2 G3]. split; [done|done|]. simpl.
    rewrite Hmut, (Hrev (name g)) by (by apply jget_Some_elem). destruct (hit (name g)); lia.
  - intros key i Hi. destruct (wk_flights0 key i Hi) as (t & g & H1 & H2 & H3 & H4 & H5). exists t, g. rewrite Hmut, (Hfly key i) by done. done.
  - intros m key e Hm Hc He. rewrite Hmut, (Hl1 m key e) by done. eauto.
Qed.

(** The guard of a step is made again. *)
Lemma reguard ex s g g' :
  worker_ok (g :: ex) s → name g' = name g → state g' = state g → g_epoch g' = g_epoch g →
  revision (objects s (state g')) - g_revision g' = Z.of_nat (mutations s (name g')) - Z.of_nat (seen g') → worker_ok (g' :: ex) s.
Proof.
  intros [] Hn Hs He Hseen. split; try done.
  - intros o. rewrite wk_references0, !held_apart_cons. simpl. by rewrite Hs.
  - intros Hc h [[->|Hx]%elem_of_cons|Hx]; [|apply wk_guards0; [done|left; by right]|apply wk_guards0; auto].
    destruct (wk_guards0 Hc g) as [G1 G2 G3]; [left; by left|]. split; congruence.
Qed.

(** *** Mutations *)

Lemma jdel_key_gone {A} key (m : list (jsstring * A)) k a : (k, a) ∈ jdel key m → k ≠ key.
Proof. by intros [? _]%list_elem_of_filter. Qed.

Lemma observe_state key s :
  jget key (keyRevisions (observeKey false key s).2) = Some (state (observeKey false key s).1).
Proof.
  unfold observeKey, find_object. destruct (jget key (keyRevisions s)) as [i|] eqn:Hi; simpl; [done|].
  by rewrite jget_set, bool_decide_eq_true_2.
Qed.

(** A mutating guard is a reading one, made again after the mutation. *)
Definition cleared (key : jsstring) (s : worker) : worker := l1_delete key (with_inflight (jdel key (inflight s)) s).
Definition counted (key : jsstring) (s : worker) (n : jsstring) : nat :=
  if bool_decide (n = key) then Datatypes.S (mutations s n) else mutations s n.

Lemma mutate_key_spec key s :
  let r := observeKey false key (cleared key s) in
  let '(g, s') := mutate_key key s in
  s' = with_mutations (counted key s) (with_revisions (keyRevisions r.2) (objects s') r.2) ∧
  name g = name r.1 ∧ state g = state r.1 ∧ g_epoch g = g_epoch r.1 ∧ g_revision g = g_revision r.1 + 1 ∧
  seen g = Datatypes.S (seen r.1) ∧ mutations r.2 = mutations s ∧ inflight r.2 = jdel key (inflight s) ∧
  l1 r.2 = memory_delete (localKey key) <$> l1 s ∧ name g = key ∧ closed r.2 = closed s ∧
  ∀ j, references (objects s' j) = references (objects r.2 j) ∧
       revision (objects s' j) = revision (objects r.2 j) + if Nat.eqb j (state r.1) then 1 else 0.
Proof.
  unfold mutate_key, observeKey, find_object, cleared. simpl.
  destruct (jget key (keyRevisions s)) as [i|] eqn:Hi; simpl; split_and!; try done.
  1, 3: by rewrite bool_decide_eq_true_2.
  all: intros j; unfold put_object; destruct (Nat.eqb j _) eqn:E; simpl; rewrite ?Nat.eqb_refl; simpl; lia.
Qed.

Lemma mutate_key_ok ex s key :
  closed s = false → worker_ok ex s → worker_ok ((mutate_key key s).1 :: ex) (mutate_key key s).2.
Proof.
  intros Hopen Hs. pose proof (mutate_key_spec key s) as Hspec. cbv zeta in Hspec.
  assert (H1 : worker_ok ex (cleared key s)).
  { apply shrink_l1_ok; [apply shrink_inflight_ok; [done|apply sublist_filter]|intros; apply sublist_filter]. }
  pose proof (observe_state key (cleared key s)) as Hst.
  apply (observe_read_ok _ _ key) in H1; [|done]. set (r := observeKey false key (cleared key s)) in *.
  destruct (mutate_key key s) as [g s']. destruct Hspec as (-> & Hn & Hg & He & Hr & Hseen & Hm & Hf & Hl & Hk & Hc & Ho). simpl in *.
  apply (reguard _ _ r.1); [|done|done|done|].
  - apply bumped_ok with (hit := λ n, bool_decide (n = key)); [done| | | | |].
    + intros o. apply Ho.
    + intros k o Hin. rewrite (proj2 (Ho o)). destruct (decide (o = state r.1)) as [->|Hne].
      * rewrite Nat.eqb_refl, bool_decide_eq_true_2; [done|]. eapply one_key; [apply H1|exact Hin|by apply jget_Some_elem].
      * rewrite (proj2 (Nat.eqb_neq _ _)), bool_decide_eq_false_2; [done| |done]. intros ->. apply Hne.
        apply jget_elem in Hin; [congruence|apply H1].
    + intros n. by rewrite Hm.
    + intros k j Hj. rewrite Hf in Hj. apply bool_decide_eq_false_2. by eapply jdel_key_gone.
    + intros m k e Hm' _ Hin. apply bool_decide_eq_false_2. intros ->. rewrite Hl in Hm'. apply fmap_Some in Hm' as (m' & _ & ->).
      by apply jdel_key_gone in Hin.
  - simpl. unfold counted. rewrite Hk, bool_decide_eq_true_2 by done. rewrite Hg, (proj2 (Ho _)), Nat.eqb_refl, Hr, Hseen.
    assert (G : guard_live r.2 r.1) by (apply H1; [by rewrite Hc|left; by left]).
    destruct G as [_ _ G]. rewrite <-Hn, Hk, Hm in G. lia.
Qed.

(** *** Pattern invalidation *)

(** A match goes on under any prefix that has no line terminator, whatever the
    prefix's own stars. *)
Lemma glob_prefix q p v : clean q → glob p v → glob (q ++ p) (q ++ v).
Proof.
  intros Hq Hg. induction Hq as [|c q Hc Hq IH]; [done|]. simpl. destruct (decide (c = star)) as [->|Hne].
  - apply (glob_star _ [star]); [by constructor|done].
  - by apply glob_lit.
Qed.

Lemma matchesPattern_prefix q p v : clean (q ++ v) → matchesPattern v p = true → matchesPattern (q ++ v) (q ++ p) = true.
Proof.
  intros [Hq Hv]%clean_app Hm. apply matchesPattern_spec in Hm as [->|Hm]; apply matchesPattern_spec; right.
  - apply glob_prefix; [done|]. rewrite <-(app_nil_r v). by apply (glob_star [] v []); [|constructor].
  - by apply glob_prefix.
Qed.

Lemma bump_other p l objs o : o ∉ l.*2 → foldl (bump p) objs l o = objs o.
Proof.
  revert objs. induction l as [|[k i] l IH]; intros objs; [done|]. rewrite fmap_cons, not_elem_of_cons. intros [Ho Hl].
  simpl. rewrite IH by done. unfold bump. simpl in *. destruct (matchesPattern k p); [by rewrite put_object_ne|done].
Qed.

Lemma bump_key p l objs k o :
  NoDup l.*2 → (k, o) ∈ l → foldl (bump p) objs l o = {| revision := revision (objs o) + (if matchesPattern k p then 1 else 0); references := references (objs o) |}.
Proof.
  revert objs. induction l as [|[k' i] l IH]; intros objs; [by intros _ ?%elem_of_nil|]. rewrite fmap_cons, NoDup_cons. intros [Hn Hnd].
  intros [[= -> ->]|Hin]%elem_of_cons.
  - simpl. rewrite bump_other by done. unfold bump. simpl. destruct (matchesPattern k' p); [by rewrite put_object_eq|].
    destruct (objs i). simpl. f_equal. lia.
  - simpl. rewrite (IH _ Hnd Hin). assert (o ≠ i) by (intros ->; apply Hn, list_elem_of_fmap; by exists (k, i)).
    unfold bump. simpl. by destruct (matchesPattern k' p); rewrite ?put_object_ne.
Qed.

Lemma begin_purge_ok s p : closed s = false → worker_ok [] s → worker_ok [] (begin_purge p s).
Proof.
  intros Hopen Hs. set (flying' := filter (λ e, matchesPattern e.1 p = false ∨ jget e.1 (keyRevisions s) = None) (inflight s)).
  assert (H1 : worker_ok [] (with_l1 (memory_deleteByPattern (prefix ++ p) <$> l1 s) (with_inflight flying' s))).
  { apply (shrink_l1_ok _ (with_inflight flying' s)); [apply shrink_inflight_ok; [done|apply sublist_filter]|intros; apply sublist_filter]. }
  eapply (bumped_ok _ _ _ _ (λ n, matchesPattern n p) H1); simpl.
  - intros o. destruct (decide (o ∈ (keyRevisions s).*2)) as [Hin|Hn]; [|by rewrite bump_other].
    apply list_elem_of_fmap in Hin as ([k i] & -> & Hin). simpl. rewrite (bump_key p _ _ k i); [done|apply Hs|done].
  - intros k o Hin. rewrite (bump_key p _ _ k o); [done|apply Hs|done].
  - done.
  - intros k i [[Hm|Hm] Hin]%list_elem_of_filter; [done|]. simpl in Hm. destruct Hs.
    destruct (wk_flights0 k i Hin) as (t & g & H2 & _ & H3 & <- & _).
    destruct (wk_guards0 Hopen g) as [G _ _]; [right; exists t; split; [by eapply list_elem_of_lookup_2|done]|]. congruence.
  - intros m k e (m' & Hm & ->)%fmap_Some Hc Hin. apply list_elem_of_filter in Hin as [Hno _]. simpl in Hno.
    destruct (matchesPattern k p) eqn:E; [|done].
    unfold localKey in Hno. rewrite (matchesPattern_prefix prefix p k) in Hno; [done|exact Hc|done].
Qed.

Lemma worker_close_ok s : worker_ok [] s → worker_ok [] (close s).
Proof.
  intros Hs. unfold close. destruct (closed s) eqn:Hc; [done|]. destruct Hs. split; simpl; try done.
  - apply NoDup_nil_2.
  - apply NoDup_nil_2.
  - intros o Ho. split; [apply not_elem_of_nil|]. by apply wk_fresh0.
  - intros k o Hin. by apply elem_of_nil in Hin.
  - apply NoDup_nil_2.
  - intros k i Hin. by apply elem_of_nil in Hin.
Qed.

(** *** Steps of a task *)

Lemma not_flying ex s i t : worker_ok ex s → tasks s !! i = Some t → flying t = false → ∀ key, (key, i) ∉ inflight s.
Proof. intros [] Hi Hf key Hin. destruct (wk_flights0 key i Hin) as (t' & g & H1 & H2 & _). congruence. Qed.

Lemma return_call_ok s i t g r :
  worker_ok [] s → tasks s !! i = Some t → guard_of t = Some g → (∀ key, (key, i) ∉ inflight s) → worker_ok [] (return_call i g r s).1.
Proof.
  intros Hs Hi Hg Hf. apply (worker_release_ok [] (set_task i Finished s)). by eapply take_guard.
Qed.

Lemma settle_flight_ok s i t g r :
  worker_ok [] s → tasks s !! i = Some t → guard_of t = Some g → worker_ok [] (settle_flight i g r s).1.
Proof.
  intros Hs Hi Hg.
  assert (H1 : worker_ok [] (set_task i (Settled g r) s)) by (eapply set_task_ok; [done..|by rewrite Hg|done]).
  destruct H1. split; simpl; try done. intros Hc h Hh. destruct (wk_guards0 Hc h Hh). by split.
Qed.

(** A step of a task keeps the invariant. *)
Lemma l1_set_tasks g v ttl now s : tasks (l1_set g v ttl now s) = tasks s.
Proof. unfold l1_set. destruct (l1 s); [|done]. by destruct (memory_set _ _ _ _ _ _). Qed.

Lemma l1_set_inflight g v ttl now s : inflight (l1_set g v ttl now s) = inflight s.
Proof. unfold l1_set. destruct (l1 s); [|done]. by destruct (memory_set _ _ _ _ _ _). Qed.

Section steps.
Hypothesis Hmax : 0 < maxEntries.

(** A held guard fills the L1 when it is current. *)
Lemma fill_ok s i t g v ttl now (also : bool) :
  worker_ok [] s → tasks s !! i = Some t → guard_of t = Some g →
  worker_ok [] (if isCurrent g s && also then l1_set g v ttl now s else s).
Proof.
  intros Hs Hi Hg. destruct (isCurrent g s) eqn:Hc; [|done]. destruct also; [|done]. simpl. apply l1_set_ok; [done|done|].
  eapply current_seen; [exact Hs| |done]. right. exists t. split; [by eapply list_elem_of_lookup_2|done].
Qed.

Lemma begin_get_ok s i key load now perf :
  closed s = false → worker_ok [] s → tasks s !! i = Some Finished → worker_ok [] (begin_get i key load now perf s).1.
Proof.
  intros Hopen Hs Hi. unfold begin_get. pose proof (observe_read_ok _ _ key Hopen Hs) as H1.
  assert (Ht : tasks (observeKey false key s).2 = tasks s) by (unfold observeKey, find_object; by destruct (jget _ _)).
  destruct (observeKey false key s) as [g s1]. simpl in *. rewrite <-Ht in Hi.
  set (found := match l1 s1 with Some m => _ | None => _ end). destruct found as [m local] eqn:Hfound.
  assert (H2 : worker_ok [g] (with_l1 m s1)).
  { apply with_l1_ok; [done|]. intros m' ->. unfold found in Hfound. destruct (l1 s1) as [m0|] eqn:Hm0; [|done].
    pose proof (memory_get_fresh s1 now (localKey key) m0 (l1_fresh_now _ _ _ H1 Hm0)) as Hfresh.
    destruct (memory_get _ _ _) as [m1 v]. simpl in Hfresh. congruence. }
  destruct local as [[v n]|]; [destruct load as [ttl|]|]; simpl.
  - eapply set_task_ok; [by apply worker_release_ok|exact Hi|done|done].
  - eapply set_task_ok; [by apply worker_release_ok|exact Hi|done|done].
  - by eapply give_guard.
Qed.

Lemma end_get_ok s i g startedAt load entry now perf :
  worker_ok [] s → tasks s !! i = Some (Getting g startedAt load) → worker_ok [] (end_get i g startedAt load entry now perf s).1.
Proof.
  intros Hs Hi. unfold end_get. set (both := match entry with Ok _ => _ | Throw _ => _ end).
  assert (Hboth : worker_ok [] both.1 ∧ tasks both.1 = tasks s ∧ inflight both.1 = inflight s).
  { unfold both. destruct entry as [[[v ttl]|]|e]; [|done|done]. destruct (_ <=? 0); [done|]. cbn [fst]. split_and!.
    - rewrite <-(andb_true_r (isCurrent g s)). by eapply fill_ok.
    - destruct (isCurrent g s); [apply l1_set_tasks|done].
    - destruct (isCurrent g s); [apply l1_set_inflight|done]. }
  destruct both as [s1 r]. destruct Hboth as (H1 & H2 & H3). simpl in *. rewrite <-H2 in Hi.
  assert (Hf : ∀ key, (key, i) ∉ inflight s1) by (by eapply not_flying).
  destruct load as [ttl|]; [|by eapply return_call_ok].
  destruct r as [found|e]; simpl; apply (worker_release_ok [] (set_task i _ s1)); by eapply take_guard.
Qed.

Lemma after_get_ok s i key ttl found :
  worker_ok [] s → tasks s !! i = Some (Got key ttl found) → worker_ok [] (after_get i key ttl found s).1.
Proof.
  intros Hs Hi. unfold after_get. destruct found as [v|]; [by eapply set_task_ok|].
  destruct (closed s) eqn:Hopen; [by eapply set_task_ok|]. destruct (jget key (inflight s)) as [f|] eqn:Hfly; [by eapply set_task_ok|].
  pose proof (observe_read_ok _ _ key Hopen Hs) as H1.
  assert (Hg : name (observeKey false key s).1 = key ∧ seen (observeKey false key s).1 = mutations s key ∧
    tasks (observeKey false key s).2 = tasks s ∧ inflight (observeKey false key s).2 = inflight s ∧
    mutations (observeKey false key s).2 = mutations s ∧ closed (observeKey false key s).2 = closed s)
    by (unfold observeKey, find_object; by destruct (jget _ (keyRevisions s))).
  destruct (observeKey false key s) as [g s1]. simpl in *. destruct Hg as (G1 & G2 & G3 & G4 & G5 & G6). rewrite <-G3 in Hi. rewrite <-G4 in Hfly.
  assert (H2 : worker_ok [] (set_task i (Starting g ttl) s1)) by (by eapply give_guard).
  destruct H2. simpl in *. split; simpl; try done.
  - rewrite G6, Hopen. done.
  - intros Hc h Hh. destruct (wk_guards0 Hc h Hh). by split.
  - rewrite jset_new by done. by apply jset_new_ok.
  - intros k j Hin. rewrite jset_new in Hin by done. apply elem_of_app in Hin as [Hin|Hin%list_elem_of_singleton]; [by apply wk_flights0|].
    injection Hin as -> ->. exists (Starting g ttl), g. rewrite list_lookup_insert_eq by (by eapply lookup_lt_Some).
    split_and!; [done..|]. by rewrite G5.
Qed.

Lemma start_flight_ok s i g ttl :
  worker_ok [] s → tasks s !! i = Some (Starting g ttl) → worker_ok [] (start_flight i g ttl s).1.
Proof.
  intros Hs Hi. unfold start_flight. destruct (closed s); [by eapply settle_flight_ok|]. by eapply set_task_ok.
Qed.

Lemma end_load_ok s i g ttl answer perf :
  worker_ok [] s → tasks s !! i = Some (Loading g ttl) → worker_ok [] (end_load i g ttl answer perf s).1.
Proof.
  intros Hs Hi. unfold end_load, publishValue. destruct answer as [[v|]|]; [|by eapply settle_flight_ok..].
  destruct (isCurrent g s) eqn:Hc; [|by eapply settle_flight_ok]. simpl. by eapply set_task_ok.
Qed.

Lemma end_publish_ok s i g v ttl startedAt loaded answer now perf :
  worker_ok [] s → tasks s !! i = Some (Publishing g v ttl startedAt loaded) →
  worker_ok [] (end_publish i g v ttl startedAt loaded answer now perf s).1.
Proof.
  intros Hs Hi. unfold end_publish. set (r := l1_remaining ttl startedAt perf).
  assert (H1 : worker_ok [] (if isCurrent g s && (0 <? r) then l1_set g v r now s else s)) by (by eapply fill_ok).
  assert (Ht : tasks (if isCurrent g s && (0 <? r) then l1_set g v r now s else s) !! i = Some (Publishing g v ttl startedAt loaded))
    by (by destruct (isCurrent g s && (0 <? r)); rewrite ?l1_set_tasks).
  set (s1 := if isCurrent g s && _ then _ else _) in *.
  destruct answer as [u|e], loaded; simpl.
  - by eapply (settle_flight_ok s1 _ _ _ (Ok (Some v))).
  - eapply (return_call_ok _ _ _ _ (Ok None)); [done..|]. by eapply not_flying.
  - by eapply (settle_flight_ok s1 _ _ _ (Ok (Some v))).
  - eapply (return_call_ok _ _ _ _ (Ok None)); [done..|]. by eapply not_flying.
Qed.

Lemma end_flight_ok s i g r :
  worker_ok [] s → tasks s !! i = Some (Settled g r) → worker_ok [] (end_flight i g r s).1.
Proof.
  intros Hs Hi. unfold end_flight.
  assert (Hkey : ∀ key, (key, i) ∈ inflight s → key = name g).
  { intros key Hin. destruct Hs. destruct (wk_flights0 key i Hin) as (t & g' & H1 & _ & H2 & <- & _). rewrite H1 in Hi. injection Hi as ->. by injection H2 as ->. }
  case_bool_decide as Hg; eapply return_call_ok.
  - apply shrink_inflight_ok; [done|apply sublist_filter].
  - done.
  - done.
  - intros key Hin. simpl in Hin. pose proof (jdel_key_gone _ _ _ _ Hin) as Hne. apply list_elem_of_filter in Hin as [_ Hin]. by apply Hne, Hkey.
  - done.
  - done.
  - done.
  - intros key Hin. pose proof (Hkey key Hin) as ->. apply Hg, jget_elem; [apply Hs|done].
Qed.

Lemma call_delete_ok s key : worker_ok [] s → worker_ok [] (call_delete key s).1.
Proof.
  intros Hs. unfold call_delete. destruct (closed s) eqn:Hopen; [by apply new_task_ok|].
  pose proof (mutate_key_ok [] s key Hopen Hs) as H1. assert (Ht : tasks (mutate_key key s).2 = tasks s).
  { pose proof (mutate_key_spec key s) as Hspec. cbv zeta in Hspec. unfold mutate_key, observeKey, find_object. by destruct (jget _ _). }
  destruct (mutate_key key s) as [g s1]. simpl in *.
  assert (H2 : worker_ok [] (set_task (length (tasks s1)) (Deleting g) (new_task Finished s1))).
  { eapply give_guard; [by apply new_task_ok|apply new_task_last|done|done]. }
  replace (new_task (Deleting g) s1) with (set_task (length (tasks s1)) (Deleting g) (new_task Finished s1)); [done|].
  unfold set_task, new_task, with_tasks. simpl. f_equal. rewrite insert_app_r_alt, Nat.sub_diag by lia. done.
Qed.

Lemma call_set_ok s key value ttl perf : worker_ok [] s → worker_ok [] (call_set key value ttl perf s).1.
Proof.
  intros Hs. unfold call_set. destruct value as [v|]; [|by apply call_delete_ok].
  destruct (closed s) eqn:Hopen; [by apply new_task_ok|].
  pose proof (mutate_key_ok [] (new_task Finished s) key Hopen (new_task_ok _ _ Finished Hs eq_refl)) as H1.
  assert (Ht : tasks (mutate_key key (new_task Finished s)).2 = tasks (new_task Finished s))
    by (unfold mutate_key, observeKey, find_object; by destruct (jget _ _)).
  pose proof (new_task_last s Finished) as Hi. rewrite <-Ht in Hi. destruct (mutate_key key _) as [g s1]. simpl in H1, Hi.
  unfold publishValue. destruct (isCurrent g s1); simpl.
  - by eapply give_guard.
  - eapply set_task_ok; [by apply worker_release_ok|exact Hi|done|done].
Qed.

Lemma call_purge_ok s p : worker_ok [] s → worker_ok [] (call_purge p s).1.
Proof.
  intros Hs. unfold call_purge. destruct (closed s) eqn:Hopen; [by apply new_task_ok|]. apply new_task_ok; [|done]. by apply begin_purge_ok.
Qed.

Lemma invalidation_steps_ok s i t answer ok :
  worker_ok [] s → tasks s !! i = Some t → worker_ok [] (end_local i t answer s).1 ∧ worker_ok [] (end_queue i t ok s).1.
Proof.
  intros Hs Hi. split.
  - unfold end_local. destruct t, (after_local answer); try done; try (by eapply set_task_ok).
    eapply return_call_ok; [done..|]. by eapply not_flying.
  - unfold end_queue. destruct t; try done; try (by eapply set_task_ok). eapply return_call_ok; [done..|]. by eapply not_flying.
Qed.

Lemma worker_step_ok s e : worker_ok [] s → worker_ok [] (worker_step s e).1.
Proof.
  intros Hs. destruct e as [key now perf|key ttl now perf|key v ttl perf|key|p| |i entry now perf|i answer perf|i answer now perf|i answer|i ok|i|u]; cbn [worker_step].
  - destruct (closed s) eqn:Hopen; [by apply new_task_ok|]. apply begin_get_ok; [done|by apply new_task_ok|apply new_task_last].
  - destruct (closed s) eqn:Hopen; [by apply new_task_ok|]. apply begin_get_ok; [done|by apply new_task_ok|apply new_task_last].
  - by apply call_set_ok.
  - by apply call_delete_ok.
  - by apply call_purge_ok.
  - by apply worker_close_ok.
  - destruct (tasks s !! i) as [[]|] eqn:Hi; try done. by apply end_get_ok.
  - destruct (tasks s !! i) as [[]|] eqn:Hi; try done. by apply end_load_ok.
  - destruct (tasks s !! i) as [[]|] eqn:Hi; try done. by apply end_publish_ok.
  - destruct (tasks s !! i) as [t|] eqn:Hi; [|done]. by apply (invalidation_steps_ok s i t answer true).
  - destruct (tasks s !! i) as [t|] eqn:Hi; [|done]. by apply (invalidation_steps_ok s i t (Ok tt) ok).
  - destruct (tasks s !! i) as [[]|] eqn:Hi; try done; cbn [continue].
    + by apply after_get_ok.
    + by apply start_flight_ok.
    + by apply end_flight_ok.
    + destruct (List.find _ _) as [[? ?]|]; [|done]. by eapply set_task_ok.
  - by apply use_l1_ok.
Qed.

Lemma new_worker_ok with_l1 : worker_ok [] (new_worker with_l1).
Proof.
  split; simpl; try done.
  - apply NoDup_nil_2.
  - apply NoDup_nil_2.
  - intros o _. split; [apply not_elem_of_nil|done].
  - intros k o Hin. by apply elem_of_nil in Hin.
  - intros _ g [Hin|(t & Hin & _)]; by apply elem_of_nil in Hin.
  - apply NoDup_nil_2.
  - intros k o Hin. by apply elem_of_nil in Hin.
  - intros m key e Hm _ Hin. destruct with_l1; [injection Hm as <-|done]. by apply elem_of_nil in Hin.
  - intros m Hm. destruct with_l1; [injection Hm as <-|done]. split; [apply NoDup_nil_2|unfold jsize; simpl; lia].
Qed.

Lemma worker_reachable_ok with_l1 s : reachable (λ s e, (worker_step s e).1) (new_worker with_l1) s → worker_ok [] s.
Proof. apply reachable_invariant; [apply new_worker_ok|apply worker_step_ok]. Qed.
End steps.

(** A value read from the L1 is one of its entries. *)
Lemma memory_get_elem now key (m : memory (V * nat)) v : (memory_get now key m).2 = Some v → ∃ e, (key, e) ∈ m ∧ l1_value e = v ∧ now < expiresAt e.
Proof.
  unfold memory_get. destruct (jget key m) as [e|] eqn:E; [|done]. destruct (expiresAt e <=? now) eqn:Hx; [done|]. intros [= <-].
  exists e. split_and!; [by apply jget_Some_elem|done|bools; lia].
Qed.

(** ** After [close] *)

(** What [close] leaves to do: invalidations that were begun go on to the
    queue. *)
Definition after_close (o : worker_out) : bool :=
  match o with Asks _ (AskPublishKey _ | AskPublishPattern _) | Returns _ _ | Reports _ => true | Asks _ _ => false end.

Lemma not_current s g : closed s = true → isCurrent g s = false.
Proof. intros H. unfold isCurrent. by rewrite H. Qed.

(** A closed facade does nothing to the L1 and asks for no load, no read and no
    KV write. *)
Lemma closed_step s e :
  closed s = true → (∀ u, e ≠ OtherCache u) →
  closed (worker_step s e).1 = true ∧ l1 (worker_step s e).1 = l1 s ∧ forallb after_close (worker_step s e).2 = true.
Proof.
  intros Hc Hown. assert (Hcur := not_current s). destruct e; cbn [worker_step]; [..|by destruct (Hown u)].
  1-5: unfold call_set, call_delete, call_purge; try destruct value; rewrite ?Hc; done.
  - unfold close. by rewrite Hc.
  - destruct (tasks s !! i) as [[]|]; try done. unfold end_get. rewrite Hcur by done.
    destruct entry as [[[v ttl]|]|]; try destruct (_ <=? 0); by destruct load_ttl.
  - destruct (tasks s !! i) as [[]|]; try done. unfold end_load. destruct answer as [[v|]|]; [rewrite Hcur by done|..]; done.
  - destruct (tasks s !! i) as [[]|]; try done. unfold end_publish. rewrite Hcur by done. by destruct answer, loaded.
  - destruct (tasks s !! i) as [t|]; [|done]. unfold end_local. by destruct t, (after_local answer).
  - destruct (tasks s !! i) as [t|]; [|done]. by destruct t.
  - destruct (tasks s !! i) as [[]|]; try done; cbn [continue].
    + unfold after_get. rewrite Hc. by destruct found.
    + unfold start_flight. by rewrite Hc.
    + unfold end_flight. by case_bool_decide.
    + by destruct (List.find _ _) as [[? ?]|].
Qed.

(** *** Properties *)

(** C21: in every state of a facade, however its calls, the KV, the loaders, the
    queue and other users of the shared L1 interleave: for a key whose prefixed
    form has no line terminator, a value the L1 holds was read or loaded by this
    facade after its last mutation of the key began ([set], [delete], a matching
    [deleteByPattern]), or was put there by another cache after it began; the
    load a [getOrSet] joins was begun after it too, for every key; and the L1
    holds at most [maxEntries] values, one for a name. Of what another cache puts
    nothing more is known: it may be older than the mutation. *)
Theorem worker_fresh with_l1 s :
  0 < maxEntries → reachable (λ s e, (worker_step s e).1) (new_worker with_l1) s →
  (∀ m, l1 s = Some m → jmap_ok m ∧ jsize m <= maxEntries ∧
     ∀ key now v n, clean (localKey key) → (memory_get now (localKey key) m).2 = Some (v, n) → n = mutations s key) ∧
  (∀ key i, jget key (inflight s) = Some i →
     ∃ t g, tasks s !! i = Some t ∧ flying t = true ∧ guard_of t = Some g ∧ name g = key ∧ seen g = mutations s key).
Proof.
  intros Hmax []%worker_reachable_ok; [|done]. split.
  - intros m Hm. destruct (wk_memory0 m Hm). split_and!; [done..|]. intros key now v n Hc (e & He & Hv & _)%memory_get_elem.
    specialize (wk_cached0 m key e Hm Hc He). by rewrite Hv in wk_cached0.
  - intros key i Hi%jget_Some_elem. by apply wk_flights0.
Qed.

(** the facade keeps nothing for a key that no call is using: once no call
    holds a guard, the revisions and the loads in flight are empty. *)
Theorem worker_no_leak with_l1 s :
  0 < maxEntries → reachable (λ s e, (worker_step s e).1) (new_worker with_l1) s →
  (∀ t, t ∈ tasks s → guard_of t = None) → keyRevisions s = [] ∧ inflight s = [].
Proof.
  intros Hmax Hr Hidle. destruct (worker_reachable_ok Hmax _ _ Hr). split.
  - destruct (keyRevisions s) as [|[key o] l] eqn:E; [done|]. exfalso.
    assert (H : 0 < references (objects s o)) by (apply (wk_needed0 key); by left).
    rewrite wk_references0 in H. unfold held, held_apart in H. rewrite sumZ_nil in H.
    assert (sumZ (λ t, holds o (guard_of t)) (tasks s) = 0); [|lia]. revert Hidle. clear. induction (tasks s) as [|t l IH]; [done|].
    intros Hidle. rewrite sumZ_cons, IH, Hidle; [done|by left|]. intros t' Ht. apply Hidle. by right.
  - destruct (inflight s) as [|[key i] l] eqn:E; [done|]. exfalso.
    destruct (wk_flights0 key i) as (t & g & H1 & _ & H2 & _); [by left|]. rewrite Hidle in H2; [done|by eapply list_elem_of_lookup_2].
Qed.
End facade.

(** ** A run *)

Section demo.
Abbreviation step := (λ s e, (worker_step (V := Z) (js "cache:") 10000 2 false s e).1).

(** A read that misses, loads, writes the KV and the L1, and returns. *)
Definition loading_run (key : jsstring) : list (worker_event (V := Z)) :=
  [CallGetOrSet key 60000 0 0; AnswerGet 0 (Ok None) 0 0; Continue 0; Continue 0; AnswerLoader 0 (Some (Some 7)) 0;
   AnswerSet 0 (Ok tt) 5 2000].

Definition loaded : worker (V := Z) := run_events step (new_worker true) (loading_run (js "k") ++ [Continue 0]).

Example loaded_demo :
  l1 loaded = Some [(js "cache:k", {| l1_value := (7, 0%nat); expiresAt := 10005 |})] ∧
  (worker_step (js "cache:") 10000 2 false loaded (CallGet (js "k") 6 3000)).2 = [Returns 1 (Ok (Some 7))].
Proof. split; vm_compute; reflexivity. Qed.

(** A [set] in between: the value loaded before it is returned, and kept
    nowhere. *)
Example overtaken_demo :
  l1 (run_events step (new_worker true)
       ([CallGetOrSet (js "k") 60000 0 0; AnswerGet 0 (Ok None) 0 0; Continue 0; Continue 0; CallDelete (js "k");
         AnswerLoader 0 (Some (Some 7)) 0; Continue 0; AnswerLocal 1 (Ok tt)])) = Some [].
Proof. vm_compute. reflexivity. Qed.

(** Another cache that shares the L1 and had read before the deletion puts its
    copy back after it. *)
Example shared_l1_demo :
  let s := run_events step loaded [CallDelete (js "k"); AnswerLocal 1 (Ok tt); OtherCache (OtherSet (js "cache:k") 7 10000 6)] in
  (worker_step (js "cache:") 10000 2 false s (CallGet (js "k") 7 3000)).2 = [Returns 2 (Ok (Some 7))].
Proof. vm_compute. reflexivity. Qed.

(** [clear], which is [deleteByPattern('*')], leaves in the L1 a key with a line
    terminator: ['cache:*'] does not match it, although ['*'] alone does. *)
Lemma clear_keeps_line_terminator :
  l1 (run_events step (new_worker true) (loading_run [107; 10] ++ [Continue 0; CallDeleteByPattern [star]])) =
  Some [(js "cache:" ++ [107; 10], {| l1_value := (7, 0%nat); expiresAt := 10005 |})].
Proof. vm_compute. reflexivity. Qed.

Lemma worker_fresh_witness :
  jget (js "k") (inflight (run_events step (new_worker true) (take 5 (loading_run (js "k"))))) = Some 0%nat ∧
  ∀ m, l1 loaded = Some m → jmap_ok m ∧ jsize m <= 2 ∧
     ∀ key now v n, clean (localKey (js "cache:") key) → (memory_get now (localKey (js "cache:") key) m).2 = Some (v, n) →
       n = mutations loaded key.
Proof.
  split; [vm_compute; reflexivity|].
  apply (worker_fresh (js "cache:") 10000 2 false true loaded); [lia|apply reachable_run].
Defined.

Lemma worker_no_leak_witness : keyRevisions loaded = [] ∧ inflight loaded = [].
Proof.
  apply (worker_no_leak (js "cache:") 10000 2 false true loaded); [lia|apply reachable_run|].
  intros t Ht. assert (E : tasks loaded = [Finished]) by (vm_compute; reflexivity). rewrite E in Ht.
  apply list_elem_of_singleton in Ht as ->. reflexivity.
Defined.
End demo.
