(* ===== verification/RedisHealth.v ===== *)
(** * Redis core health ([src/src/cache/redisHealth.ts])

    The version line of an [INFO server] reply and the classification of an
    error. The source's regular expressions are written out as scans of the
    text: [has_word] is [/\b..\b/i] (without the [u] flag letters outside ASCII
    match only themselves and are no word characters), [parseRedisServerVersion]
    the multiline search for the version line. *)

From S2P Require Import Prelude JsValue Pattern.

(** ** Words in a text *)

Definition ascii_lower (c : Z) : Z := if (65 <=? c) && (c <=? 90) then c + 32 else c.

Definition is_word (c : Z) : bool :=
  let l := ascii_lower c in ((97 <=? l) && (l <=? 122)) || is_digit c || (c =? 95).

(** What follows [w] at the start of [s], letter case aside. *)
Fixpoint after_ci (w s : jsstring) : option jsstring :=
  match w, s with
  | [], _ => Some s
  | x :: w, y :: s => if ascii_lower x =? ascii_lower y then after_ci w s else None
  | _ :: _, [] => None
  end.

(** No word goes on here. *)
Definition boundary (s : jsstring) : bool := match s with [] => true | c :: _ => negb (is_word c) end.

Fixpoint has_word_from (inside : bool) (w s : jsstring) : bool :=
  match s with
  | [] => false
  | c :: s' => (negb inside && from_option boundary false (after_ci w s)) || has_word_from (is_word c) w s'
  end.

(** [/\bw\b/i.test(s)] for a [w] that starts and ends with a word character. *)
Definition has_word (w : string) (s : jsstring) : bool := has_word_from false (js w) s.
Definition has_any (ws : list string) (s : jsstring) : bool := existsb (λ w, has_word w s) ws.

(** ** The version *)

Definition MINIMUM_REDIS_MAJOR_VERSION : Z := 6.

Record RedisServerVersion := { major : Z; minor : Z; patch : Z }.

(** The text up to the first line terminator and after it. *)
Fixpoint lines (s : jsstring) : list jsstring :=
  match s with
  | [] => [[]]
  | c :: s => if isLineTerminator c then [] :: lines s
              else match lines s with l :: ls => (c :: l) :: ls | [] => [[c]] end
  end.

(** [\d+] *)
Fixpoint digits (s : jsstring) : jsstring * jsstring :=
  match s with
  | c :: s' => if is_digit c then let '(d, r) := digits s' in (c :: d, r) else ([], s)
  | [] => ([], [])
  end.

Definition some_digits (s : jsstring) : option (jsstring * jsstring) :=
  match digits s with ([], _) => None | r => Some r end.

Definition dot (s : jsstring) : option jsstring := match s with 46 :: s => Some s | _ => None end.

(** A line that is [redis_version:] and three numbers. *)
Definition version_line (l : jsstring) : option (jsstring * jsstring * jsstring) :=
  if negb (starts_with l (js "redis_version:")) then None
  else
    '(a, s) ← some_digits (drop 14 l); s ← dot s;
    '(b, s) ← some_digits s; s ← dot s;
    '(c, s) ← some_digits s;
    match s with [] => Some (a, b, c) | _ => None end.

(** The first such line counts. [Number] of its digits is the exact value where
    that is a safe integer, and unsafe where it is not. *)
Definition parseRedisServerVersion (info : jsval) : option RedisServerVersion :=
  match info with
  | VStr s =>
      '(a, b, c) ← head (omap version_line (lines s));
      if safe_int (parse_dec a) && safe_int (parse_dec b) && safe_int (parse_dec c)
      then Some {| major := parse_dec a; minor := parse_dec b; patch := parse_dec c |} else None
  | _ => None
  end.

(** ** Errors *)

Inductive RedisHealthIssueKind :=
| unsupported_version | acl | unknown_command | malformed_info | transport | command.

#[export] Instance issue_kind_eq_dec : EqDecision RedisHealthIssueKind.
Proof. solve_decision. Defined.

Record RedisHealthIssue := { kind : RedisHealthIssueKind; code : option jsstring }.

Definition is_upper (c : Z) : bool := (65 <=? c) && (c <=? 90).

(** [/^[A-Z][A-Z0-9_]{0,63}$/] *)
Definition safe_code (s : jsstring) : bool :=
  match s with
  | c :: rest => is_upper c && forallb (λ c, is_upper c || is_digit c || (c =? 95)) rest && (Z.of_nat (length rest) <=? 63)
  | [] => false
  end.

Definition safeErrorCode (value : jsval) : option jsstring :=
  match value with VStr s => if safe_code s then Some s else None | _ => None end.

Definition transport_words : list string :=
  ["ECONNREFUSED"; "ECONNRESET"; "ETIMEDOUT"; "EPIPE"; "ENOTFOUND"; "socket"; "connection is closed"; "connection is lost";
   "connection is reset"; "connection closed"; "connection lost"; "connection reset"; "network"].

Definition error_message (error : jsval) : jsstring := match prop "message" error with VStr m => m | _ => [] end.

Definition classifyRedisError (error : jsval) : RedisHealthIssue :=
  let message := error_message error in
  let code := safeErrorCode (prop "code" error) in
  {| kind := if has_any ["NOPERM"; "NOAUTH"] message then acl
             else if has_word "unknown command" message then unknown_command
             else if bool_decide (is_Some code) || has_any transport_words message then transport
             else command;
     code := code |}.

(** ** The report *)

Record RedisCoreHealth := { ok : bool; version : option RedisServerVersion; issue : option RedisHealthIssue }.

(** [info] is what the client's call answered or threw. *)
Definition getRedisCoreHealth (info : result jsval jsval) : RedisCoreHealth :=
  match info with
  | Throw error => {| ok := false; version := None; issue := Some (classifyRedisError error) |}
  | Ok reply =>
      match parseRedisServerVersion reply with
      | None => {| ok := false; version := None; issue := Some {| kind := malformed_info; code := None |} |}
      | Some v =>
          if major v <? MINIMUM_REDIS_MAJOR_VERSION
          then {| ok := false; version := Some v; issue := Some {| kind := unsupported_version; code := None |} |}
          else {| ok := true; version := Some v; issue := None |}
      end
  end.

Example health_demo : getRedisCoreHealth (Ok (VStr (js "# Server" ++ [13; 10] ++ js "redis_version:7.2.4" ++ [13; 10] ++ js "os:Linux"))) =
  {| ok := true; version := Some {| major := 7; minor := 2; patch := 4 |}; issue := None |}.
Proof. vm_compute. reflexivity. Qed.

Example classify_demo :
  kind (classifyRedisError (VObj [(js "message", VStr (js "ERR Unknown command 'foo'"))])) = unknown_command ∧
  kind (classifyRedisError (VObj [(js "message", VStr (js "websocket failed"))])) = command.
Proof. split; vm_compute; reflexivity. Qed.

(** ** What the scans decide *)

Lemma after_ci_spec w s r : after_ci w s = Some r ↔ ∃ m, s = m ++ r ∧ map ascii_lower m = map ascii_lower w.
Proof.
  revert s. induction w as [|x w IH]; intros s; simpl.
  - split; [intros [= ->]; by exists []|]. by intros ([|] & -> & ?).
  - destruct s as [|y s]; [split; [done|by intros ([|] & ? & ?)]|]. destruct (_ =? _) eqn:E; bools.
    + rewrite IH. split.
      * intros (m & -> & Hm). exists (y :: m). simpl. by rewrite E, Hm.
      * intros ([|z m] & Hs & Hm); [done|]. injection Hs as -> ->. injection Hm as _ Hm. by exists m.
    + split; [done|]. intros ([|z m] & Hs & Hm); [done|]. injection Hs as -> ->. injection Hm as Hm _. congruence.
Qed.

Definition ends_inside (inside : bool) (u : jsstring) : bool := from_option is_word inside (last u).

Lemma has_word_from_spec inside w s : w ≠ [] →
  has_word_from inside w s = true ↔
  ∃ u m v, s = u ++ m ++ v ∧ map ascii_lower m = map ascii_lower w ∧ ends_inside inside u = false ∧ boundary v = true.
Proof.
  intros Hw. revert inside. induction s as [|c s IH]; intros inside.
  - split; [done|]. intros ([|] & [|] & v & Hs & Hm & _); try done. by destruct w.
  - cbn [has_word_from]. rewrite orb_true_iff, andb_true_iff, negb_true_iff, IH. split.
    + intros [[Hi Ha]|(u & m & v & -> & Hm & Hu & Hv)].
      * destruct (after_ci w (c :: s)) as [r|] eqn:E; [|done]. apply after_ci_spec in E as (m & Hs & Hm). by exists [], m, r.
      * exists (c :: u), m, v. split_and!; [done..| |done]. revert Hu. unfold ends_inside. by rewrite last_cons; destruct (last u).
    + intros ([|x u] & m & v & Hs & Hm & Hu & Hv).
      * left. split; [done|]. assert (after_ci w (c :: s) = Some v) as -> by (apply after_ci_spec; by exists m). done.
      * right. injection Hs as -> ->. exists u, m, v. split_and!; [done..| |done]. revert Hu. unfold ends_inside. by rewrite last_cons; destruct (last u).
Qed.

(** A text has a word exactly when the word is in it, letter case aside, between
    word boundaries. *)
Lemma has_word_spec w s : js w ≠ [] →
  has_word w s = true ↔
  ∃ u m v, s = u ++ m ++ v ∧ map ascii_lower m = map ascii_lower (js w) ∧ ends_inside false u = false ∧ boundary v = true.
Proof. apply has_word_from_spec. Qed.

(** *** Version lines *)

Lemma digits_app d r : forallb is_digit d = true → from_option is_digit false (head r) = false → digits (d ++ r) = (d, r).
Proof.
  intros Hd Hr. induction d as [|c d IH]; simpl in *.
  - destruct r as [|x r]; [done|]. simpl in *. by rewrite Hr.
  - bools. rewrite H. by rewrite IH.
Qed.

Lemma dec_digits z : 0 <= z → forallb is_digit (dec z) = true ∧ dec z ≠ [].
Proof.
  intros Hz. pose proof (dec_canonical z Hz) as H. unfold canonical_decimal, positive_decimal in H. apply orb_true_iff in H as [H|H].
  - apply bool_decide_eq_true in H. by rewrite H.
  - destruct (dec z) as [|c t]; [done|]. bools. split; [|done]. simpl. unfold is_digit at 1. rewrite H0.
    rewrite (proj2 (Z.leb_le 48 c)), (proj2 (Z.leb_le c 57)) by lia. done.
Qed.

Lemma lines_head l s : existsb isLineTerminator l = false → (s = [] ∨ ∃ c s', s = c :: s' ∧ isLineTerminator c = true) →
  head (lines (l ++ s)) = Some l.
Proof.
  intros Hl Hs. induction l as [|c l IH]; simpl in *.
  - destruct Hs as [->|(c & s' & -> & Hc)]; [done|]. simpl. by rewrite Hc.
  - apply orb_false_iff in Hl as [Hc Hl]. rewrite Hc. specialize (IH Hl). destruct (lines (l ++ s)) as [|x ls]; [done|]. by injection IH as ->.
Qed.

Lemma lines_some s : lines s ≠ [].
Proof. destruct s as [|c s]; simpl; [done|]. destruct (isLineTerminator c); [done|]. by destruct (lines s). Qed.

Lemma lines_app u s : lines (u ++ s) = match last (lines u) with Some l => removelast (lines u) ++ match lines s with x :: ls => (l ++ x) :: ls | [] => [l] end | None => lines s end.
Proof.
  pose proof lines_some as Hne. induction u as [|c u IH]; simpl.
  - destruct (lines s) eqn:E; [by destruct (Hne s)|done].
  - specialize (Hne u). destruct (isLineTerminator c).
    + rewrite IH. destruct (lines u) as [|x l] eqn:E; [done|]. simpl. destruct (last (x :: l)) eqn:El; [done|]. by apply last_None in El.
    + rewrite IH. destruct (lines u) as [|x l] eqn:E; [done|]. destruct l as [|y l]; simpl; [by destruct (lines s)|].
      destruct (last (y :: l)) eqn:El; [done|]. by apply last_None in El.
Qed.

Definition version_text (a b c : Z) : jsstring := js "redis_version:" ++ dec a ++ js "." ++ dec b ++ js "." ++ dec c.

Lemma version_line_text a b c : 0 <= a → 0 <= b → 0 <= c → version_line (version_text a b c) = Some (dec a, dec b, dec c).
Proof.
  intros Ha Hb Hc. destruct (dec_digits a Ha) as [Da Na], (dec_digits b Hb) as [Db Nb], (dec_digits c Hc) as [Dc Nc].
  unfold version_line, version_text. rewrite (proj2 (starts_with_spec _ _)) by eauto. cbn [negb].
  change 14%nat with (length (js "redis_version:")). rewrite drop_app_length.
  unfold some_digits. rewrite (digits_app (dec a)) by done. destruct (dec a) eqn:Ea; [done|]. rewrite <-Ea. simpl.
  rewrite (digits_app (dec b)) by done. destruct (dec b) eqn:Eb; [done|]. rewrite <-Eb. simpl.
  rewrite <-(app_nil_r (dec c)) at 1. rewrite (digits_app (dec c)) by done. destruct (dec c) eqn:Ec; [done|]. by rewrite <-Ec.
Qed.

Lemma version_text_clean a b c : 0 <= a → 0 <= b → 0 <= c → existsb isLineTerminator (version_text a b c) = false.
Proof.
  assert (Hdig : ∀ z, 0 <= z → existsb isLineTerminator (dec z) = false).
  { intros z Hz. destruct (dec_digits z Hz) as [H _]. induction (dec z) as [|x l IH]; [done|]. simpl in *. apply andb_true_iff in H as [Hx Hl].
    rewrite (IH Hl). unfold is_digit in Hx. bools. unfold isLineTerminator. rewrite !(proj2 (Z.eqb_neq _ _)) by lia. done. }
  intros Ha Hb Hc. unfold version_text. rewrite !existsb_app, !Hdig by done. done.
Qed.

(** A text that is empty or ends with a line terminator. *)
Definition whole_lines (s : jsstring) : Prop := s = [] ∨ ∃ u t, s = u ++ [t] ∧ isLineTerminator t = true.

Lemma lines_whole s : whole_lines s → ∃ ls, ∀ r, lines s = ls ++ [[]] ∧ lines (s ++ r) = ls ++ lines r.
Proof.
  intros [->|(u & t & -> & Ht)]; [by exists []|].
  pose proof (lines_some u) as Hne.
  exists (lines u). intros r. rewrite <-app_assoc, !lines_app. destruct (last (lines u)) as [l|] eqn:El.
  - apply last_Some in El as [l' ->]. rewrite List.removelast_last. simpl. rewrite Ht. simpl.
    rewrite app_nil_r, <-app_assoc. split; [done|]. rewrite <-!app_assoc. simpl.
    pose proof (lines_some r). by destruct (lines r).
  - by apply last_None in El.
Qed.

(** a version line is read, wherever it stands in the reply: after any whole
    lines that are no version lines, before anything that starts a new line; its
    numbers are exact, or the version is unknown when one of them is no safe
    integer. *)
Theorem version_read before rest a b c :
  0 <= a → 0 <= b → 0 <= c → whole_lines before → omap version_line (lines before) = [] →
  (rest = [] ∨ ∃ t rest', rest = t :: rest' ∧ isLineTerminator t = true) →
  parseRedisServerVersion (VStr (before ++ version_text a b c ++ rest)) =
  if safe_int a && safe_int b && safe_int c then Some {| major := a; minor := b; patch := c |} else None.
Proof.
  intros Ha Hb Hc Hw Hb' Hr. destruct (lines_whole before Hw) as [ls Hls].
  unfold parseRedisServerVersion. rewrite (proj2 (Hls _)), omap_app.
  assert (omap version_line ls = []) as ->.
  { rewrite (proj1 (Hls [])), omap_app in Hb'. by apply app_nil in Hb' as [? _]. }
  pose proof (lines_head (version_text a b c) rest (version_text_clean a b c Ha Hb Hc) Hr) as Hh.
  destruct (lines (version_text a b c ++ rest)) as [|l l']; [done|]. injection Hh as ->.
  assert (head (omap version_line (version_text a b c :: l')) = Some (dec a, dec b, dec c)) as E
    by (cbn [omap list_omap]; by rewrite version_line_text).
  cbn [app]. rewrite E. simpl. by rewrite !parse_dec_dec.
Qed.
