(* ===== verification/RedisCapabilities.v ===== *)
(** * Redis capability discovery ([src/src/cache/redisCapabilities.ts])

    Two bounded, read-only requests and the manifest they make: [INFO server]
    for the version and [COMMAND INFO] for a fixed list of names. What a request
    ends with (an answer, an error, the timeout of [withTimeout]) is an argument;
    replies are trees of values. The registry that keeps one manifest per
    connection is a state machine. *)

From S2P Require Import Prelude JsValue Utf8 Pattern JsMap RedisHealth.

Definition REDIS_CAPABILITY_COMMANDS : list jsstring :=
  js <$> ["eval"; "evalsha"; "script"; "multi"; "exec"; "watch"; "unwatch"; "set"; "get"; "strlen"; "del"; "unlink"; "exists";
          "pexpire"; "pttl"; "publish"; "subscribe"; "ping"; "time"].

Inductive RedisCapabilityState := supported | unavailable | unknown.

Inductive RedisCapabilityReason :=
| advertised | r_unknown_command | acl_denied | r_transport | timeout | command_error | malformed_response | response_too_large
| client_method_unavailable | r_unsupported_version | not_queried.

Record RedisCapabilityStateRecord := { status : RedisCapabilityState; reason : RedisCapabilityReason; s_code : option jsstring }.

#[export] Instance capability_state_eq_dec : EqDecision RedisCapabilityState.
Proof. solve_decision. Defined.

(** [state(status, reason)] *)
Definition state (s : RedisCapabilityState) (r : RedisCapabilityReason) : RedisCapabilityStateRecord :=
  {| status := s; reason := r; s_code := None |}.

(** ** Limits *)

Record RedisCapabilityDiscoveryLimits := { timeoutMs : Z; maxCommandNames : Z; maxInfoBytes : Z; maxCommandReplyBytes : Z }.

Record RedisCapabilityDiscoveryOptions := {
  o_timeoutMs : option jsnum;
  o_maxCommandNames : option jsnum;
  o_maxInfoBytes : option jsnum;
  o_maxCommandReplyBytes : option jsnum;
  o_commandNames : option (list jsval);
  o_minimumRedisMajorVersion : option jsnum }.

Definition DEFAULT_REDIS_CAPABILITY_TIMEOUT_MS : Z := 250.
Definition DEFAULT_REDIS_CAPABILITY_MAX_COMMAND_NAMES : Z := Z.of_nat (length REDIS_CAPABILITY_COMMANDS).
Definition DEFAULT_REDIS_CAPABILITY_MAX_INFO_BYTES : Z := 16 * 1024.
Definition DEFAULT_REDIS_CAPABILITY_MAX_COMMAND_REPLY_BYTES : Z := 64 * 1024.
Definition MAX_REDIS_CAPABILITY_COMMAND_NAMES : Z := 64.
Definition MAX_REDIS_CAPABILITY_INFO_BYTES : Z := 64 * 1024.
Definition MAX_REDIS_CAPABILITY_COMMAND_REPLY_BYTES : Z := 256 * 1024.

Definition boundedPositiveInteger (value : option jsnum) (fallback min max : Z) : Z :=
  match value with
  | Some n => if num_is_safe_integer n then Z.min max (Z.max min (num_floor n)) else fallback
  | None => fallback
  end.

Definition normalizeLimits (o : RedisCapabilityDiscoveryOptions) : RedisCapabilityDiscoveryLimits :=
  {| timeoutMs := boundedPositiveInteger (o_timeoutMs o) DEFAULT_REDIS_CAPABILITY_TIMEOUT_MS 1 60000;
     maxCommandNames := boundedPositiveInteger (o_maxCommandNames o) DEFAULT_REDIS_CAPABILITY_MAX_COMMAND_NAMES
                          1 MAX_REDIS_CAPABILITY_COMMAND_NAMES;
     maxInfoBytes := boundedPositiveInteger (o_maxInfoBytes o) DEFAULT_REDIS_CAPABILITY_MAX_INFO_BYTES
                       1 MAX_REDIS_CAPABILITY_INFO_BYTES;
     maxCommandReplyBytes := boundedPositiveInteger (o_maxCommandReplyBytes o) DEFAULT_REDIS_CAPABILITY_MAX_COMMAND_REPLY_BYTES
                               1 MAX_REDIS_CAPABILITY_COMMAND_REPLY_BYTES |}.

Definition normalizeMinimumVersion (value : option jsnum) : Z := boundedPositiveInteger value MINIMUM_REDIS_MAJOR_VERSION 1 99.

(** The loop of [normalizeCommandNames], from the names it has kept. *)
Fixpoint keep_names (max : Z) (source : list jsval) (kept : list jsstring) : list jsstring :=
  match source with
  | [] => kept
  | VStr c :: source =>
      if bool_decide (c ∉ REDIS_CAPABILITY_COMMANDS) || bool_decide (c ∈ kept) then keep_names max source kept
      else let kept := kept ++ [c] in if max <=? Z.of_nat (length kept) then kept else keep_names max source kept
  | _ :: source => keep_names max source kept
  end.

Definition normalizeCommandNames (requested : option (list jsval)) (max : Z) : list jsstring :=
  keep_names max (requested ?? (VStr <$> REDIS_CAPABILITY_COMMANDS)) [].

(** ** The size of a reply *)

Definition MAX_RESPONSE_NODES : Z := 4096.

(** The properties of an object, pushed in order. *)
Fixpoint push_fields (fields : list (jsstring * jsval)) (stack : list jsval) (queued total : Z) : option (list jsval * Z * Z) :=
  match fields with
  | [] => Some (stack, queued, total)
  | (key, v) :: fields =>
      if MAX_RESPONSE_NODES <=? queued then None else push_fields fields (v :: stack) (queued + 1) (total + utf8_length key + 2)
  end.

(** The loop of [boundedValueBytes]; the head of the list is the top of the
    stack. *)
Fixpoint measure (fuel : nat) (cap : Z) (stack : list jsval) (queued total : Z) : Z :=
  match stack, fuel with
  | [], _ => if MAX_RESPONSE_NODES <? queued then cap + 1 else total
  | _ :: _, O => cap + 1
  | current :: stack, S fuel =>
      if negb ((total <=? cap) && (queued <=? MAX_RESPONSE_NODES)) then cap + 1
      else match current with
      | VUndef | VNull => measure fuel cap stack queued (total + 4)
      | VStr s => measure fuel cap stack queued (total + if cap <? Z.of_nat (length s) then cap + 1 else utf8_length s)
      | VNum _ | VBool _ => measure fuel cap stack queued (total + 16)
      | VBuf b => measure fuel cap stack queued (total + Z.of_nat (length b))
      | VArr l =>
          if MAX_RESPONSE_NODES - queued <? Z.of_nat (length l) then cap + 1
          else measure fuel cap (l ++ stack) (queued + Z.of_nat (length l)) (total + 2)
      | VObj fields =>
          match push_fields fields stack queued (total + 2) with
          | Some (stack, queued, total) => measure fuel cap stack queued total
          | None => cap + 1
          end
      end
  end.

Definition boundedValueBytes (value : jsval) (cap : Z) : Z := measure (Z.to_nat MAX_RESPONSE_NODES) cap [value] 1 0.

Definition replyBytes (value : jsval) : Z :=
  match value with
  | VStr s => utf8_length s
  | VBuf b => Z.of_nat (length b)
  | _ => boundedValueBytes value (256 * 1024 + 1)
  end.

(** ** [COMMAND INFO] replies *)

(** [toLowerCase], as far as a comparison with a name of ASCII letters can tell:
    besides the ASCII capitals only the Kelvin sign becomes an ASCII letter. *)
Definition js_lower (c : Z) : Z := if c =? 0x212a then 107 else ascii_lower c.

Definition commandName (value : option jsval) : option jsstring :=
  match value with
  | Some (VStr s) => Some (map js_lower s)
  | Some (VBuf b) => Some (map js_lower (utf8_decode b))
  | _ => None
  end.

Definition is_list_of_text (value : option jsval) : bool :=
  match value with Some (VArr l) => forallb (λ v, match v with VStr _ | VBuf _ => true | _ => false end) l | _ => false end.

Definition isSafeInteger (value : option jsval) : bool := match value with Some (VNum n) => num_is_safe_integer n | _ => false end.

(** The first of the keys that the object has; [None] is the missing-entry
    symbol. *)
Definition recordValue (record : jsval) (keys : list jsstring) : option jsval :=
  match record with VObj fields => head (omap (λ k, assoc k fields) keys) | _ => None end.

Definition findRecordValue (record : jsval) (name : jsstring) : option jsval :=
  recordValue record [name; map (λ c, if (97 <=? c) && (c <=? 122) then c - 32 else c) name; map ascii_lower name].

Definition isCommandInfoEntry (value : option jsval) (expectedName : jsstring) : bool :=
  match value with
  | Some (VArr l) =>
      (6 <=? Z.of_nat (length l)) && bool_decide (commandName (l !! 0%nat) = Some expectedName)
      && isSafeInteger (l !! 1%nat) && is_list_of_text (l !! 2%nat) && isSafeInteger (l !! 3%nat)
      && isSafeInteger (l !! 4%nat) && isSafeInteger (l !! 5%nat)
  | Some v =>
      is_plain_object v
      && bool_decide (commandName (recordValue v (js <$> ["name"; "command"; "cmd"])) = Some expectedName)
      && isSafeInteger (recordValue v [js "arity"]) && is_list_of_text (recordValue v [js "flags"])
      && isSafeInteger (recordValue v (js <$> ["firstKey"; "first-key"; "first_key"]))
      && isSafeInteger (recordValue v (js <$> ["lastKey"; "last-key"; "last_key"]))
      && isSafeInteger (recordValue v (js <$> ["step"; "keyStep"; "key-step"; "key_step"]))
  | None => false
  end.

(** The entries of a reply, one per requested name. *)
Definition reply_entries (reply : jsval) (names : list jsstring) : option (list (option jsval)) :=
  match reply with
  | VArr l =>
      if match names with [n] => isCommandInfoEntry (Some reply) n | _ => false end then Some [Some reply] else Some (Some <$> l)
  | _ => if is_plain_object reply then Some (findRecordValue reply <$> names) else None
  end.

(** The loop over names and entries: the names that are there. *)
Fixpoint read_entries (names : list jsstring) (entries : list (option jsval)) : option (list jsstring) :=
  match names, entries with
  | [], [] => Some []
  | n :: names, entry :: entries =>
      match entry with
      | Some VNull | Some VUndef => read_entries names entries
      | _ => if isCommandInfoEntry entry n then cons n <$> read_entries names entries else None
      end
  | _, _ => None
  end.

(** [None]: the reply is not valid. *)
Definition parseCommandInfoReply (reply : jsval) (names : list jsstring) : option (list jsstring) :=
  entries ← reply_entries reply names;
  if bool_decide (length entries = length names) then read_entries names entries else None.

(** ** Failures *)

(** How a request under [withTimeout] ends. *)
Inductive answer := Answered (reply : jsval) | Rejected (error : jsval) | TimedOut.

Definition withTimeout (operation : string) (a : answer) : result jsval jsval :=
  match a with
  | Answered reply => Ok reply
  | Rejected error => Throw error
  | TimedOut => Throw (VObj [(js "message", VStr (js operation ++ js " timed out"));
                             (js "name", VStr (js "RedisCapabilityDiscoveryTimeoutError"));
                             (js "code", VStr (js "REDIS_CAPABILITY_DISCOVERY_TIMEOUT"))])
  end.

Definition isDiscoveryTimeout (error : jsval) : bool :=
  match prop "code" error with VStr c => bool_decide (c = js "REDIS_CAPABILITY_DISCOVERY_TIMEOUT") | _ => false end
  || has_word "timeout" (error_message error).

Definition stateForIssue (i : RedisHealthIssue) : RedisCapabilityStateRecord :=
  let '(s, r) := match kind i with
    | acl => (unavailable, acl_denied)
    | unknown_command => (unavailable, r_unknown_command)
    | transport => (unknown, r_transport)
    | malformed_info => (unavailable, malformed_response)
    | unsupported_version => (unavailable, r_unsupported_version)
    | command => (unknown, command_error)
    end in
  {| status := s; reason := r; s_code := code i |}.

Definition failureState (error : jsval) : RedisCapabilityStateRecord :=
  if isDiscoveryTimeout error then {| status := unknown; reason := timeout; s_code := safeErrorCode (prop "code" error) |}
  else stateForIssue (classifyRedisError error).

(** ** Discovery *)

Definition capability_map := list (jsstring * RedisCapabilityStateRecord).

Definition createUnknownCapabilities (r : RedisCapabilityReason) : capability_map :=
  foldl (λ m n, jset n (state unknown r) m) [] REDIS_CAPABILITY_COMMANDS.

Definition markAll (s : RedisCapabilityState) (r : RedisCapabilityReason) (m : capability_map) : capability_map :=
  foldl (λ m n, jset n (state s r) m) m REDIS_CAPABILITY_COMMANDS.

Definition markUnknown (discovery : RedisCapabilityStateRecord) (m : capability_map) : capability_map :=
  foldl (λ m n, jset n {| status := unknown; reason := reason discovery; s_code := s_code discovery |} m) m REDIS_CAPABILITY_COMMANDS.

(** [for (const name of commandNames) capabilities[name] = ..] *)
Definition mark_answers (names found : list jsstring) (m : capability_map) : capability_map :=
  foldl (λ m n, jset n (if bool_decide (n ∈ found) then state supported advertised else state unavailable r_unknown_command) m) m names.

Record RedisCapabilityManifest := {
  generatedAt : Z;
  durationMs : Z;
  m_limits : RedisCapabilityDiscoveryLimits;
  m_version : option RedisServerVersion;
  info : RedisCapabilityStateRecord;
  commandInfo : RedisCapabilityStateRecord;
  capabilities : capability_map }.

(** The client: the methods it has, and how their calls end. *)
Record RedisCapabilityClient := { c_info : option answer; c_command : option (list jsstring → answer) }.

(** The clock's readings at the start, for [generatedAt] and at the end. *)
Record clock_readings := { startedAt : Z; generated : Z; finished : Z }.

Definition manifest (t : clock_readings) (l : RedisCapabilityDiscoveryLimits) (v : option RedisServerVersion)
    (i ci : RedisCapabilityStateRecord) (m : capability_map) : RedisCapabilityManifest :=
  let duration := finished t - startedAt t in
  {| generatedAt := generated t; durationMs := if 0 <=? duration then duration else 0; m_limits := l; m_version := v;
     info := i; commandInfo := ci; capabilities := m |}.

(** The [INFO] part. *)
Definition discover_version (client : RedisCapabilityClient) (l : RedisCapabilityDiscoveryLimits) :
    option RedisServerVersion * RedisCapabilityStateRecord :=
  match c_info client with
  | None => (None, state unknown client_method_unavailable)
  | Some a =>
      match withTimeout "INFO server" a with
      | Throw error => (None, failureState error)
      | Ok reply =>
          if maxInfoBytes l <? replyBytes reply then (None, state unavailable response_too_large)
          else match parseRedisServerVersion reply with
               | Some v => (Some v, state supported advertised)
               | None => (None, state unavailable malformed_response)
               end
      end
  end.

(** The [COMMAND INFO] part. *)
Definition discover_commands (client : RedisCapabilityClient) (l : RedisCapabilityDiscoveryLimits) (names : list jsstring)
    (m : capability_map) : RedisCapabilityStateRecord * capability_map :=
  match c_command client with
  | None => let ci := state unknown client_method_unavailable in (ci, markUnknown ci m)
  | Some ask =>
      match names with
      | [] => (state unknown not_queried, m)
      | _ =>
          match withTimeout "COMMAND INFO" (ask names) with
          | Throw error => let ci := failureState error in (ci, markUnknown ci m)
          | Ok reply =>
              if maxCommandReplyBytes l <? replyBytes reply then let ci := state unavailable response_too_large in (ci, markUnknown ci m)
              else match parseCommandInfoReply reply names with
                   | None => let ci := state unavailable malformed_response in (ci, markUnknown ci m)
                   | Some found => (state supported advertised, mark_answers names found m)
                   end
          end
      end
  end.

Definition discoverRedisCapabilities (client : RedisCapabilityClient) (o : RedisCapabilityDiscoveryOptions) (t : clock_readings) :
    RedisCapabilityManifest :=
  let l := normalizeLimits o in
  let minimum := normalizeMinimumVersion (o_minimumRedisMajorVersion o) in
  let names := normalizeCommandNames (o_commandNames o) (maxCommandNames l) in
  let m := createUnknownCapabilities not_queried in
  let '(v, i) := discover_version client l in
  if from_option (λ v, major v <? minimum) false v
  then manifest t l v i (state unavailable r_unsupported_version) (markAll unavailable r_unsupported_version m)
  else let '(ci, m) := discover_commands client l names m in manifest t l v i ci m.

Definition hasRedisCapability (m : RedisCapabilityManifest) (name : jsstring) : bool :=
  from_option (λ s, bool_decide (status s = supported)) false (jget name (capabilities m)).

(** ** The registry *)

(** [manifestPromise] names a discovery and the connection it was begun on;
    [connection] (ghost) counts the client's [ready] events. The client may lack
    the methods that attach and detach listeners. *)
Record registry := {
  can_listen : bool;
  can_detach : bool;
  listening : bool;
  detached : bool;
  manifestPromise : option (nat * nat);
  discoveries : nat;
  connection : nat }.

(** [constructor] *)
Definition newRegistry (on off : bool) : registry :=
  {| can_listen := on; can_detach := off; listening := on; detached := false; manifestPromise := None; discoveries := 0; connection := 0 |}.

Definition with_promise (p : option (nat * nat)) (n : nat) (s : registry) : registry :=
  {| can_listen := can_listen s; can_detach := can_detach s; listening := listening s; detached := detached s;
     manifestPromise := p; discoveries := n; connection := connection s |}.

(** The promise that [get] returns. *)
Definition registry_get (s : registry) : registry * (nat * nat) :=
  match manifestPromise s with
  | Some p => (s, p)
  | None => let p := (discoveries s, connection s) in (with_promise (Some p) (S (discoveries s)) s, p)
  end.

Definition invalidate (s : registry) : registry := with_promise None (discoveries s) s.

(** The function that [attachRedisReconnectInvalidation] returns. *)
Definition detachReconnect (s : registry) : registry :=
  if negb (can_listen s) || detached s then s
  else {| can_listen := can_listen s; can_detach := can_detach s; listening := listening s && negb (can_detach s); detached := true;
          manifestPromise := manifestPromise s; discoveries := discoveries s; connection := connection s |}.

Definition registry_close (s : registry) : registry := invalidate (detachReconnect s).

(** The client emits [ready]. *)
Definition ready (s : registry) : registry :=
  let s1 := {| can_listen := can_listen s; can_detach := can_detach s; listening := listening s; detached := detached s;
               manifestPromise := manifestPromise s; discoveries := discoveries s; connection := S (connection s) |} in
  if listening s then invalidate s1 else s1.

Inductive registry_event := RGet | RInvalidate | RReady | RClose.

Definition registry_step (s : registry) (e : registry_event) : registry :=
  match e with RGet => (registry_get s).1 | RInvalidate => invalidate s | RReady => ready s | RClose => registry_close s end.

(** ** The size of a value *)

Fixpoint value_bytes (v : jsval) : Z :=
  match v with
  | VUndef | VNull => 4
  | VBool _ | VNum _ => 16
  | VStr s => utf8_length s
  | VBuf b => Z.of_nat (length b)
  | VArr l => 2 + foldr (λ x a, value_bytes x + a) 0 l
  | VObj fields => 2 + foldr (λ p a, utf8_length p.1 + 2 + value_bytes p.2 + a) 0 fields
  end.

(** The values below it. *)
Fixpoint value_below (v : jsval) : Z :=
  match v with
  | VArr l => foldr (λ x a, 1 + value_below x + a) 0 l
  | VObj fields => foldr (λ p a, 1 + value_below p.2 + a) 0 fields
  | _ => 0
  end.

Lemma value_nonneg : ∀ v, 0 <= value_bytes v ∧ 0 <= value_below v.
Proof.
  fix IH 1. intros [| | | |s| |l|fields]; simpl; try lia.
  - split; [apply utf8_length_nonneg|done].
  - induction l as [|x l IHl]; simpl; [lia|]. pose proof (IH x). lia.
  - induction fields as [|[k x] l IHl]; simpl; [lia|]. pose proof (IH x). pose proof (utf8_length_nonneg k). lia.
Qed.

(** What a stack still adds. *)
Definition stack_bytes (l : list jsval) : Z := sumZ value_bytes l.
Definition stack_below (l : list jsval) : Z := sumZ value_below l.

Lemma stack_nonneg l : 0 <= stack_bytes l ∧ 0 <= stack_below l.
Proof. split; apply sumZ_nonneg; intros v _; apply value_nonneg. Qed.

Lemma value_arr l : value_bytes (VArr l) = 2 + stack_bytes l ∧ value_below (VArr l) = Z.of_nat (length l) + stack_below l.
Proof.
  simpl. unfold stack_bytes, stack_below. induction l as [|x l [IH1 IH2]]; [done|]. rewrite !sumZ_cons. cbn [foldr length]. lia.
Qed.

Definition fields_bytes (l : list (jsstring * jsval)) : Z := sumZ (λ p, utf8_length p.1 + 2 + value_bytes p.2) l.
Definition fields_below (l : list (jsstring * jsval)) : Z := sumZ (λ p, 1 + value_below p.2) l.

Lemma value_obj l : value_bytes (VObj l) = 2 + fields_bytes l ∧ value_below (VObj l) = fields_below l.
Proof.
  simpl. unfold fields_bytes, fields_below. induction l as [|x l [IH1 IH2]]; [done|]. rewrite !sumZ_cons. cbn [foldr]. lia.
Qed.

Lemma fields_nonneg l : 0 <= fields_bytes l ∧ 0 <= fields_below l.
Proof.
  split; apply sumZ_nonneg; intros [k v] _; simpl; pose proof (value_nonneg v); pose proof (utf8_length_nonneg k); lia.
Qed.

Lemma utf8_length_ge s : Z.of_nat (length s) <= utf8_length s.
Proof.
  remember (length s) as n eqn:Hn. revert s Hn. induction n as [n IH] using lt_wf_ind. intros s ->.
  destruct s as [|u s]; [done|]. simpl. destruct s as [|v s].
  - repeat case_match; simpl; lia.
  - pose proof (IH (length (v :: s)) ltac:(simpl; lia) (v :: s) eq_refl) as H1. pose proof (IH (length s) ltac:(simpl; lia) s eq_refl) as H2.
    cbn [length] in *. destruct (u <? 0x80), (u <? 0x800), (is_high_surrogate u), (is_low_surrogate v); lia.
Qed.

Lemma push_fields_spec fields stack queued total :
  queued <= MAX_RESPONSE_NODES →
  match push_fields fields stack queued total with
  | Some (stack', queued', total') =>
      queued' <= MAX_RESPONSE_NODES ∧ queued' = queued + Z.of_nat (length fields) ∧
      length stack' = (length stack + length fields)%nat ∧
      total' + stack_bytes stack' = total + stack_bytes stack + fields_bytes fields ∧
      queued' + stack_below stack' = queued + stack_below stack + fields_below fields
  | None => MAX_RESPONSE_NODES < queued + fields_below fields
  end.
Proof.
  unfold fields_bytes, fields_below.
  revert stack queued total. induction fields as [|[k v] fields IH]; intros stack queued total Hq; cbn [push_fields].
  - rewrite !sumZ_nil. simpl. split_and!; lia.
  - rewrite !sumZ_cons. cbn [fst snd]. pose proof (value_nonneg v). pose proof (fields_nonneg fields) as Hf.
    unfold fields_bytes, fields_below in Hf. destruct (_ <=? queued) eqn:E; bools; [lia|].
    specialize (IH (v :: stack) (queued + 1) (total + utf8_length k + 2) ltac:(lia)).
    destruct (push_fields _ _ _ _) as [[[stack' queued'] total']|]; [|lia]. destruct IH as (I1 & I2 & I3 & I4 & I5).
    unfold stack_bytes, stack_below in *. rewrite sumZ_cons in *. cbn [length] in *. split_and!; lia.
Qed.

Lemma push_fields_grows fields stack queued total stack' queued' total' :
  push_fields fields stack queued total = Some (stack', queued', total') → total <= total'.
Proof.
  revert stack queued total. induction fields as [|[k v] fields IH]; intros stack queued total; simpl; [intros [= _ _ ->]; lia|].
  destruct (_ <=? queued); [done|]. intros H%IH. pose proof (utf8_length_nonneg k). lia.
Qed.

(** Past the cap the answer is past the cap. *)
Lemma measure_over fuel cap stack queued total : cap < total → cap < measure fuel cap stack queued total.
Proof. intros H. destruct fuel as [|fuel], stack as [|v l]; cbn [measure]; try lia; try (destruct (_ <? queued); lia). rewrite (proj2 (Z.leb_gt total cap)) by done. simpl. lia. Qed.

(** [r] is the size [b] of [n] values, or past the cap when that is too much. *)
Definition measured (cap b n r : Z) : Prop :=
  if bool_decide (b <= cap ∧ n <= MAX_RESPONSE_NODES) then r = b else cap < r.

Lemma measured_eq cap b n r b' n' : measured cap b n r → b = b' → n = n' → measured cap b' n' r.
Proof. by intros H -> ->. Qed.

Lemma measured_over cap b n r : (cap < b ∨ MAX_RESPONSE_NODES < n) → cap < r → measured cap b n r.
Proof. intros Hb Hr. unfold measured. case_bool_decide; [lia|done]. Qed.

Lemma measured_done cap queued total :
  queued <= MAX_RESPONSE_NODES → measured cap total queued (if MAX_RESPONSE_NODES <? queued then cap + 1 else total).
Proof. intros Hq. rewrite (proj2 (Z.ltb_ge _ _)) by lia. unfold measured. case_bool_decide; lia. Qed.

(** The loop takes a turn per value at most: the values it has looked at are
    those queued and no longer on the stack. *)
Lemma measure_spec fuel cap stack queued total :
  0 <= cap → 0 <= total → Z.of_nat (length stack) <= queued → queued <= MAX_RESPONSE_NODES →
  MAX_RESPONSE_NODES <= Z.of_nat fuel + queued - Z.of_nat (length stack) →
  measured cap (total + stack_bytes stack) (queued + stack_below stack) (measure fuel cap stack queued total).
Proof.
  revert stack queued total. induction fuel as [|fuel IH]; intros [|v stack] queued total Hcap Ht Hlen Hq Hf.
  1, 3: eapply measured_eq; [by apply measured_done|unfold stack_bytes, stack_below; simpl; lia..].
  { simpl in Hf. lia. }
  cbn [measure]. unfold stack_bytes, stack_below. rewrite !sumZ_cons. fold (stack_bytes stack) (stack_below stack).
  pose proof (stack_nonneg stack) as [Hs1 Hs2]. pose proof (value_nonneg v) as [Hv1 Hv2]. cbn [length] in Hlen, Hf.
  destruct (total <=? cap) eqn:Et; bools; cbn [andb negb].
  2:{ apply measured_over; lia. }
  rewrite (proj2 (Z.leb_le queued _)) by done. cbn [negb].
  assert (Hrest : ∀ b, value_below v = 0 → (b = value_bytes v ∨ (cap < b ∧ cap < value_bytes v)) →
    measured cap (total + (value_bytes v + stack_bytes stack)) (queued + (value_below v + stack_below stack)) (measure fuel cap stack queued (total + b))).
  { intros b Hbel [-> |[Hb1 Hb2]].
    - eapply measured_eq; [apply (IH stack queued (total + value_bytes v)); lia|lia..].
    - apply measured_over; [lia|]. apply measure_over. lia. }
  destruct v as [| | | |s|b|l|fields]; try (apply Hrest; [done|by left]).
  - apply Hrest; [done|]. pose proof (utf8_length_ge s). simpl. destruct (cap <? _) eqn:E; bools; [right; lia|by left].
  - destruct (value_arr l) as [-> ->]. pose proof (stack_nonneg l). destruct (_ <? Z.of_nat (length l)) eqn:E; bools.
    + apply measured_over; lia.
    + eapply measured_eq; [apply (IH (l ++ stack) (queued + Z.of_nat (length l)) (total + 2)); rewrite ?length_app; lia|..];
        unfold stack_bytes, stack_below; rewrite sumZ_app; lia.
  - destruct (value_obj fields) as [-> ->]. pose proof (push_fields_spec fields stack queued (total + 2) Hq) as Hp.
    assert (Hpt : ∀ st q t, push_fields fields stack queued (total + 2) = Some (st, q, t) → total + 2 <= t) by apply push_fields_grows.
    destruct (push_fields _ _ _ _) as [[[stack' queued'] total']|]; [specialize (Hpt _ _ _ eq_refl)|].
    + destruct Hp as (P1 & P2 & P3 & P4 & P5). eapply measured_eq; [apply (IH stack' queued' total'); lia|lia..].
    + apply measured_over; lia.
Qed.

(** the size of a reply is exact within the limits, and past the limit for
    every reply that is larger, deeper or longer: the loop always ends and looks
    at no more than [MAX_RESPONSE_NODES] values. *)
Theorem replyBytes_exact v limit :
  limit <= MAX_REDIS_CAPABILITY_COMMAND_REPLY_BYTES →
  replyBytes v <= limit ↔ value_bytes v <= limit ∧ 1 + value_below v <= MAX_RESPONSE_NODES.
Proof.
  intros Hl. unfold MAX_REDIS_CAPABILITY_COMMAND_REPLY_BYTES in Hl.
  assert (Hm : measured (256 * 1024 + 1) (value_bytes v) (1 + value_below v) (boundedValueBytes v (256 * 1024 + 1))).
  { eapply measured_eq; [apply (measure_spec (Z.to_nat MAX_RESPONSE_NODES) (256 * 1024 + 1) [v] 1 0); unfold MAX_RESPONSE_NODES; simpl; lia|..];
      unfold stack_bytes, stack_below; simpl; lia. }
  unfold measured in Hm. destruct v; cbn [replyBytes] in *; try (case_bool_decide; lia); simpl; unfold MAX_RESPONSE_NODES; lia.
Qed.

(** ** The requests are bounded *)

Lemma bounded_between value fallback lo hi :
  lo <= fallback <= hi → lo <= boundedPositiveInteger value fallback lo hi <= hi.
Proof. intros H. unfold boundedPositiveInteger. destruct value as [n|]; [|done]. destruct (num_is_safe_integer n); lia. Qed.

Lemma keep_names_spec max source kept :
  NoDup kept → Z.of_nat (length kept) < max → kept ⊆ REDIS_CAPABILITY_COMMANDS →
  let r := keep_names max source kept in
  NoDup r ∧ Z.of_nat (length r) <= max ∧ r ⊆ REDIS_CAPABILITY_COMMANDS ∧ ∀ n, n ∈ r → n ∈ kept ∨ VStr n ∈ source.
Proof.
  revert kept. induction source as [|v source IH]; intros kept Hnd Hlen Hall; cbv zeta; cbn [keep_names].
  - split_and!; [done|lia|done|by left].
  - assert (Hskip : let r := keep_names max source kept in
      NoDup r ∧ Z.of_nat (length r) <= max ∧ r ⊆ REDIS_CAPABILITY_COMMANDS ∧ ∀ n, n ∈ r → n ∈ kept ∨ VStr n ∈ v :: source).
    { destruct (IH kept) as (H1 & H2 & H3 & H4); [done..|]. split_and!; [done..|]. intros n [?|?]%H4; [by left|right; by right]. }
    destruct v as [| | | |c| | |]; try exact Hskip. destruct (_ || _) eqn:Ec; [exact Hskip|]. clear Hskip.
    apply orb_false_iff in Ec as [Hin Hnew]. apply bool_decide_eq_false in Hin, Hnew. apply dec_stable in Hin.
    assert (Hnd' : NoDup (kept ++ [c])).
    { apply NoDup_app. split_and!; [done| |apply NoDup_singleton]. by intros x Hx ->%list_elem_of_singleton. }
    assert (Hall' : kept ++ [c] ⊆ REDIS_CAPABILITY_COMMANDS) by (intros x [?| ->%list_elem_of_singleton]%elem_of_app; auto).
    assert (Hmem : ∀ n, n ∈ kept ++ [c] → n ∈ kept ∨ VStr n ∈ VStr c :: source)
      by (intros n [?| ->%list_elem_of_singleton]%elem_of_app; [by left|right; by left]).
    destruct (max <=? _) eqn:Em; bools.
    + split_and!; [done|rewrite length_app in *; simpl in *; lia|done|done].
    + destruct (IH (kept ++ [c])) as (H1 & H2 & H3 & H4); [done..|]. split_and!; [done..|].
      intros n [?|?]%H4; [auto|right; by right].
Qed.

(** whatever the options, discovery asks for at most 64 distinct names of
    the list, waits at most a minute for each request and accepts at most 64 KiB
    and 256 KiB of reply. *)
Theorem requests_bounded o :
  let l := normalizeLimits o in let names := normalizeCommandNames (o_commandNames o) (maxCommandNames l) in
  NoDup names ∧ names ⊆ REDIS_CAPABILITY_COMMANDS ∧ Z.of_nat (length names) <= maxCommandNames l <= 64 ∧
  1 <= timeoutMs l <= 60000 ∧ 1 <= maxInfoBytes l <= 65536 ∧ 1 <= maxCommandReplyBytes l <= 262144.
Proof.
  intros l names.
  assert (Hm : 1 <= maxCommandNames l <= 64) by (apply bounded_between; unfold DEFAULT_REDIS_CAPABILITY_MAX_COMMAND_NAMES; simpl; lia).
  destruct (keep_names_spec (maxCommandNames l) (o_commandNames o ?? (VStr <$> REDIS_CAPABILITY_COMMANDS)) []) as (H1 & H2 & H3 & _);
    [apply NoDup_nil_2|change (0 < maxCommandNames l); lia|by intros x ?%elem_of_nil|].
  split_and!; try done; try lia; by (apply bounded_between; vm_compute).
Qed.

(** ** The manifest *)

Section fold_set.
Context (f : jsstring → RedisCapabilityStateRecord).

Lemma fold_set_get names (m : capability_map) k :
  jget k (foldl (λ m n, jset n (f n) m) m names) = if bool_decide (k ∈ names) then Some (f k) else jget k m.
Proof.
  revert m. induction names as [|n names IH]; intros m; cbn [foldl]; [by rewrite bool_decide_eq_false_2 by apply not_elem_of_nil|].
  rewrite IH, jget_set. destruct (decide (k ∈ names)) as [Hk|Hk].
  - by rewrite !bool_decide_eq_true_2 by (done || by right).
  - rewrite (bool_decide_eq_false_2 (k ∈ names)) by done. destruct (decide (k = n)) as [->|Hn].
    + by rewrite !bool_decide_eq_true_2 by (done || by left).
    + rewrite !bool_decide_eq_false_2; [done| |done]. by intros [->|]%elem_of_cons.
Qed.

Lemma fold_set_keys names (m : capability_map) :
  names ⊆ m.*1 → (foldl (λ m n, jset n (f n) m) m names).*1 = m.*1.
Proof.
  revert m. induction names as [|n names IH]; intros m Hm; cbn [foldl]; [done|].
  assert (Hn : n ∈ m.*1) by (apply Hm; by left). destruct (jget n m) as [v0|] eqn:Hg; [|by apply jget_None in Hg].
  assert (Hk : (jset n (f n) m).*1 = m.*1) by (by eapply jset_over_keys). rewrite IH; [done|]. rewrite Hk. intros x Hx. apply Hm. by right.
Qed.
End fold_set.

Lemma created_keys r : (createUnknownCapabilities r).*1 = REDIS_CAPABILITY_COMMANDS.
Proof. reflexivity. Qed.

#[local] Opaque REDIS_CAPABILITY_COMMANDS.

(** The reply has an entry for the name at the name's place. *)
Definition lists_command (reply : jsval) (names : list jsstring) (name : jsstring) : Prop :=
  ∃ entries, reply_entries reply names = Some entries ∧ length entries = length names ∧
    (∀ i n e, names !! i = Some n → entries !! i = Some e → e = Some VNull ∨ e = Some VUndef ∨ isCommandInfoEntry e n = true) ∧
    ∃ i e, names !! i = Some name ∧ entries !! i = Some e ∧ isCommandInfoEntry e name = true.

Definition absent (e : option jsval) : bool := match e with Some VNull | Some VUndef => true | _ => false end.

Lemma read_entries_cons n names e entries :
  read_entries (n :: names) (e :: entries) =
  if absent e then read_entries names entries
  else if isCommandInfoEntry e n then cons n <$> read_entries names entries else None.
Proof. by destruct e as [[]|]. Qed.

Lemma absent_no_entry e n : absent e = true → isCommandInfoEntry e n = false.
Proof. by destruct e as [[]|]. Qed.

Lemma absent_spec e : absent e = true ↔ e = Some VNull ∨ e = Some VUndef.
Proof. destruct e as [[]|]; naive_solver. Qed.

Lemma read_entries_spec names entries : length entries = length names →
  (is_Some (read_entries names entries) ↔
     ∀ i n e, names !! i = Some n → entries !! i = Some e → e = Some VNull ∨ e = Some VUndef ∨ isCommandInfoEntry e n = true) ∧
  ∀ found name, read_entries names entries = Some found →
    name ∈ found ↔ ∃ i e, names !! i = Some name ∧ entries !! i = Some e ∧ isCommandInfoEntry e name = true.
Proof.
  revert entries. induction names as [|n names IH]; intros [|e entries] Hlen; try done.
  - split; [split; [done|by eexists]|]. intros found name [= <-]. split; [by intros ?%elem_of_nil|]. by intros (i & e & ? & _).
  - destruct (IH entries ltac:(simpl in Hlen; lia)) as [IH1 IH2]. rewrite read_entries_cons. split.
    + destruct (absent e) eqn:Ea; [|destruct (isCommandInfoEntry e n) eqn:Ee].
      * rewrite IH1. split; [|intros H i; by apply (H (S i))]. intros H [|i] n' e'; simpl; [|by apply H]. intros [= <-] [= <-].
        apply absent_spec in Ea. tauto.
      * rewrite fmap_is_Some, IH1. split; [|intros H i; by apply (H (S i))]. intros H [|i] n' e'; simpl; [|by apply H]. intros [= <-] [= <-]. auto.
      * split; [by intros []|]. intros H. destruct (H 0%nat n e eq_refl eq_refl) as [->|[->|He]]; [done..|congruence].
    + intros found name. destruct (absent e) eqn:Ea; [|destruct (isCommandInfoEntry e n) eqn:Ee; [|done]].
      * intros Hf. rewrite (IH2 found name Hf). split.
        -- intros (i & e' & H). by exists (S i), e'.
        -- intros ([|i] & e' & H1 & H2 & H3); [|by exists i, e']. simpl in *. simplify_eq. by rewrite (absent_no_entry e' name Ea) in H3.
      * intros (found' & Hf & ->)%fmap_Some. rewrite elem_of_cons, (IH2 found' name Hf). split.
        -- intros [->|(i & e' & H)]; [by exists 0%nat, e|by exists (S i), e'].
        -- intros ([|i] & e' & H1 & H2 & H3); [left; simpl in *; congruence|right; by exists i, e'].
Qed.

Lemma parse_spec reply names name :
  (∃ found, parseCommandInfoReply reply names = Some found ∧ name ∈ found) ↔ lists_command reply names name.
Proof.
  unfold parseCommandInfoReply, lists_command. destruct (reply_entries reply names) as [entries|]; simpl; [|naive_solver].
  case_bool_decide as Hlen; [|naive_solver]. destruct (read_entries_spec names entries Hlen) as [R1 R2]. split.
  - intros (found & Hf & Hin). exists entries. split_and!; [done..| |by apply (R2 found)]. apply R1. by eexists.
  - intros (e & [= <-] & _ & H1 & H2). apply R1 in H1 as [found Hf]. exists found. split; [done|]. by apply (R2 found).
Qed.

Lemma supported_unknown client l names m name :
  (from_option (λ s, bool_decide (status s = supported)) false (jget name m) = false) →
  from_option (λ s, bool_decide (status s = supported)) false (jget name (discover_commands client l names m).2) = true ↔
  name ∈ names ∧ ∃ ask reply, c_command client = Some ask ∧ ask names = Answered reply ∧ replyBytes reply <= maxCommandReplyBytes l ∧
    lists_command reply names name.
Proof.
  intros Hm.
  assert (Hunk : ∀ ci, from_option (λ s, bool_decide (status s = supported)) false (jget name (markUnknown ci m)) = false).
  { intros ci. unfold markUnknown. rewrite (fold_set_get (λ _, _)). by case_bool_decide. }
  unfold discover_commands. destruct (c_command client) as [ask|]; [|cbn [snd]; rewrite Hunk; split; [done|by intros (_ & ? & ? & ? & _)]].
  destruct names as [|n0 names0]; [cbn [snd]; rewrite Hm; split; [done|by intros [?%elem_of_nil _]]|]. set (names := n0 :: names0).
  destruct (ask names) as [reply|e|] eqn:Ea; cbn [withTimeout];
    [|cbn [snd]; rewrite Hunk; split; [done|]; intros (_ & ask' & r & [= <-] & H1 & _); congruence..].
  destruct (_ <? replyBytes reply) eqn:Es; bools.
  { cbn [snd]. rewrite Hunk. split; [done|]. intros (_ & ask' & r & [= <-] & H1 & H2 & _). rewrite Ea in H1. injection H1 as <-. lia. }
  assert (Hl : lists_command reply names name → name ∈ names).
  { intros (entries & _ & _ & _ & i & e & Hi & _). by eapply list_elem_of_lookup_2. }
  pose proof (parse_spec reply names name) as Hp. destruct (parseCommandInfoReply reply names) as [found|]; cbn [snd].
  - unfold mark_answers. rewrite (fold_set_get (λ n, if bool_decide (n ∈ found) then _ else _)).
    assert (Hf : lists_command reply names name ↔ name ∈ found) by (rewrite <-Hp; split; [by intros (f & [= <-] & ?)|by exists found]).
    split.
    + destruct (decide (name ∈ names)) as [Hn|Hn]; [rewrite (bool_decide_eq_true_2 (name ∈ names)) by done|rewrite (bool_decide_eq_false_2 (name ∈ names)), Hm by done; by intros ?].
      cbn [from_option]. intros H. split; [done|]. exists ask, reply. split_and!; [done..|]. apply Hf.
      destruct (decide (name ∈ found)); [done|]. by rewrite (bool_decide_eq_false_2 (name ∈ found)) in H by done.
    + intros (Hn & ask' & r & [= <-] & H1 & _ & H2). rewrite Ea in H1. injection H1 as <-. apply Hf in H2.
      rewrite !bool_decide_eq_true_2 by done. done.
  - rewrite Hunk. split; [done|]. intros (_ & ask' & r & [= <-] & H1 & _ & H2). rewrite Ea in H1. injection H1 as <-. apply Hp in H2 as (f & Hf & _). done.
Qed.

Lemma created_get r k :
  jget k (createUnknownCapabilities r) = if bool_decide (k ∈ REDIS_CAPABILITY_COMMANDS) then Some (state unknown r) else None.
Proof. unfold createUnknownCapabilities. by rewrite (fold_set_get (λ _, state unknown r)). Qed.

Lemma created_unknown name :
  from_option (λ s, bool_decide (status s = supported)) false (jget name (createUnknownCapabilities not_queried)) = false.
Proof. rewrite created_get. by case_bool_decide. Qed.

Lemma names_are_commands o : normalizeCommandNames (o_commandNames o) (maxCommandNames (normalizeLimits o)) ⊆ REDIS_CAPABILITY_COMMANDS.
Proof.
  apply keep_names_spec; [apply NoDup_nil_2| |by intros x ?%elem_of_nil].
  apply (Z.lt_le_trans _ 1); [done|]. by apply (bounded_between _ _ 1).
Qed.

Lemma discover_commands_keys client l names m :
  m.*1 = REDIS_CAPABILITY_COMMANDS → names ⊆ REDIS_CAPABILITY_COMMANDS → (discover_commands client l names m).2.*1 = REDIS_CAPABILITY_COMMANDS.
Proof.
  intros Hm Hn.
  assert (Hunk : ∀ ci, (markUnknown ci m).*1 = REDIS_CAPABILITY_COMMANDS)
    by (intros ci; rewrite <-Hm; apply (fold_set_keys (λ _, _)); by rewrite Hm).
  unfold discover_commands. destruct (c_command client) as [ask|]; [|apply Hunk]. destruct names as [|n names]; [done|].
  destruct (withTimeout _ _); [|apply Hunk]. destruct (_ <? _); [apply Hunk|]. destruct (parseCommandInfoReply _ _); [|apply Hunk].
  rewrite <-Hm. apply (fold_set_keys (λ n, if bool_decide (n ∈ _) then _ else _)). by rewrite Hm.
Qed.

(** a manifest has a state for each of the names, in order, and reports a
    command as supported exactly when it was asked for, the server's version is
    not known to be too old, and a reply within the size limits has a well-formed
    entry of that command in its place, with nothing malformed beside it. *)
Theorem capability_advertised client o t name :
  let l := normalizeLimits o in let names := normalizeCommandNames (o_commandNames o) (maxCommandNames l) in
  let m := discoverRedisCapabilities client o t in
  (capabilities m).*1 = REDIS_CAPABILITY_COMMANDS ∧
  (hasRedisCapability m name = true ↔
     (∀ v, (discover_version client l).1 = Some v → normalizeMinimumVersion (o_minimumRedisMajorVersion o) <= major v) ∧
     name ∈ names ∧ ∃ ask reply, c_command client = Some ask ∧ ask names = Answered reply ∧
       value_bytes reply <= maxCommandReplyBytes l ∧ 1 + value_below reply <= MAX_RESPONSE_NODES ∧ lists_command reply names name).
Proof.
  intros l names m. unfold m, discoverRedisCapabilities. fold l. fold names.
  set (old := λ v, major v <? normalizeMinimumVersion (o_minimumRedisMajorVersion o)).
  destruct (discover_version client l) as [v i]. cbn [fst].
  assert (Hsize : ∀ r, replyBytes r <= maxCommandReplyBytes l ↔ value_bytes r <= maxCommandReplyBytes l ∧ 1 + value_below r <= MAX_RESPONSE_NODES).
  { intros r. apply replyBytes_exact. by apply (bounded_between _ _ 1). }
  destruct (from_option old false v) eqn:Eold.
  - split; [apply (fold_set_keys (λ _, _)); by rewrite created_keys|]. unfold hasRedisCapability, markAll. cbn [manifest capabilities].
    rewrite (fold_set_get (λ _, _)), created_get. split; [by case_bool_decide|]. intros (Hv & _).
    destruct v as [v|]; [|done]. cbn [from_option] in Eold. unfold old in Eold. specialize (Hv v eq_refl). bools. lia.
  - destruct (discover_commands client l names (createUnknownCapabilities not_queried)) as [ci m'] eqn:Ed. split.
    + replace m' with (discover_commands client l names (createUnknownCapabilities not_queried)).2 by (by rewrite Ed).
      by apply discover_commands_keys; [|apply names_are_commands].
    + unfold hasRedisCapability. cbn [manifest capabilities].
      pose proof (supported_unknown client l names (createUnknownCapabilities not_queried) name (created_unknown _)) as H. rewrite Ed in H.
      cbn [snd] in H. rewrite H. clear H. setoid_rewrite Hsize. split.
      * intros (H1 & ask & r & H2 & H3 & [H4 H5] & H6). split; [|split; [done|by exists ask, r]].
        intros v' ->. unfold old in Eold. simpl in Eold. bools. lia.
      * intros (_ & H1 & ask & r & H2 & H3 & H4 & H5 & H6). split; [done|by exists ask, r].
Qed.

(** ** The registry *)

Lemma registry_inv on off s :
  reachable registry_step (newRegistry on off) s →
  can_listen s = on ∧ (detached s = false → listening s = on) ∧
  (listening s = true → ∀ p, manifestPromise s = Some p → p.2 = connection s).
Proof.
  revert s. apply reachable_invariant; [done|]. intros s e (I1 & I2 & I3). destruct e; simpl.
  - unfold registry_get. destruct (manifestPromise s) as [p|] eqn:E; [cbn [fst]; rewrite E; by split_and!|].
    simpl. split_and!; [done..|]. by intros _ p [= <-].
  - by split_and!.
  - unfold ready. destruct (listening s) eqn:El; simpl; split_and!; try done.
  - unfold registry_close, detachReconnect. destruct (negb (can_listen s) || detached s) eqn:E; simpl; by split_and!.
Qed.

(** from construction to [close], with a client that can listen, the
    registry never answers with a discovery begun before the last reconnect, and
    calls with no reconnect in between share one discovery. *)
Theorem registry_fresh off s :
  reachable registry_step (newRegistry true off) s → detached s = false →
  (registry_get s).2.2 = connection s ∧ registry_get (registry_get s).1 = registry_get s ∧
  (registry_get (ready (registry_get s).1)).2 ≠ (registry_get s).2.
Proof.
  intros (_ & I2 & I3)%registry_inv Hd. specialize (I2 Hd). specialize (I3 I2). unfold registry_get.
  destruct (manifestPromise s) as [p|] eqn:E; cbn [fst snd].
  - rewrite E. split_and!; [by apply I3|done|]. unfold ready. rewrite I2. cbn. intros Hp. specialize (I3 p eq_refl). subst p. simpl in I3. lia.
  - cbn. split_and!; [done|done|]. unfold ready. simpl. rewrite I2. simpl. intros [=]. lia.
Qed.

(** After [close] a discovery is kept for good: no reconnect makes it stale. *)
Lemma closed_registry_goes_stale :
  (registry_get (run_events registry_step (newRegistry true true) [RClose; RGet; RReady])).2 = (0%nat, 0%nat).
Proof. reflexivity. Qed.

(** ** A discovery *)

Definition demo_entry (name : string) : jsval :=
  VArr [VStr (js name); VNum (JInt 2); VArr [VStr (js "readonly")]; VNum (JInt 1); VNum (JInt 1); VNum (JInt 1)].

Definition demo_options : RedisCapabilityDiscoveryOptions :=
  {| o_timeoutMs := None; o_maxCommandNames := None; o_maxInfoBytes := None; o_maxCommandReplyBytes := None;
     o_commandNames := Some [VStr (js "get"); VStr (js "get"); VStr (js "flushall"); VStr (js "eval")]; o_minimumRedisMajorVersion := None |}.

Definition demo_client (info : string) : RedisCapabilityClient :=
  {| c_info := Some (Answered (VStr (js info))); c_command := Some (λ _, Answered (VArr [demo_entry "GET"; VNull])) |}.

Definition demo_clock : clock_readings := {| startedAt := 5; generated := 9; finished := 10 |}.

Example discovery_demo :
  let m := discoverRedisCapabilities (demo_client "redis_version:7.2.4") demo_options demo_clock in
  hasRedisCapability m (js "get") = true ∧ jget (js "eval") (capabilities m) = Some (state unavailable r_unknown_command) ∧
  jget (js "set") (capabilities m) = Some (state unknown not_queried).
Proof. vm_compute. done. Qed.

Example old_server_demo :
  hasRedisCapability (discoverRedisCapabilities (demo_client "redis_version:5.0.14") demo_options demo_clock) (js "get") = false.
Proof. vm_compute. reflexivity. Qed.

Lemma replyBytes_exact_witness : replyBytes (demo_entry "get") <= 100 ↔ value_bytes (demo_entry "get") <= 100 ∧ 1 + value_below (demo_entry "get") <= MAX_RESPONSE_NODES.
Proof. apply replyBytes_exact. vm_compute. discriminate. Defined.

Lemma registry_fresh_witness :
  let s := run_events registry_step (newRegistry true true) [RGet; RReady; RGet] in
  (registry_get s).2.2 = connection s ∧ registry_get (registry_get s).1 = registry_get s ∧
  (registry_get (ready (registry_get s).1)).2 ≠ (registry_get s).2.
Proof. intros s. apply (registry_fresh true s); [apply reachable_run|reflexivity]. Defined.
