(* ===== verification/EventEncoding.v ===== *)
(** * Bounded event encoding ([src/src/observability/eventEncoding.ts])

    [encodeBoundedEvent] measures a value while it copies it, so that an
    oversized one is refused before its text is built. Objects live in a heap,
    so values may share and may be cyclic; a property is its descriptor. The
    reference is a copy without counters and without a memory of ancestors. *)

From S2P Require Import Prelude JsValue.

(** ** Values and objects *)

(** [MRef]: an object of the heap. [MNew]: one the caller has just made of own
    data properties, which nothing else refers to. [MOther]: a symbol or a
    function. *)
#[warnings="-register-all"]
Inductive meta :=
| MUndef
| MNull
| MBool (b : bool)
| MNum (n : jsnum)
| MStr (s : jsstring)
| MBig (z : Z)
| MOther
| MRef (o : nat)
| MNew (fields : list (jsstring * meta)).

Inductive descriptor := DData (v : meta) | DAccessor.

(** An element without a descriptor is a hole; an enumerable property without
    one is inherited. [OPlain true]: the prototype is [null]. [OError]: an Error
    and its own [message]. *)
Inductive object :=
| OArray (items : list (option descriptor))
| OPlain (null_proto : bool) (fields : list (jsstring * option descriptor))
| OError (message : option descriptor)
| OForeign.

(** What is copied. *)
#[warnings="-register-all"]
Inductive snap :=
| SNull
| SBool (b : bool)
| SNum (n : jsnum)
| SStr (s : jsstring)
| SArr (l : list snap)
| SObj (fields : list (jsstring * snap)).

Definition MAX_METADATA_DEPTH : Z := 8.
Definition MAX_METADATA_VALUES : Z := 4096.

(** [number_text]: [JSON.stringify] of a number. *)
Section encoding.
Context (number_text : jsnum → jsstring) (heap : nat → object).

(** [JSON.stringify] of what is copied. *)
Fixpoint stringify (t : snap) : jsstring :=
  match t with
  | SNull => js "null"
  | SBool b => if b then js "true" else js "false"
  | SNum n => number_text n
  | SStr s => json_string s
  | SArr l => [91] ++ js_join [44] (map stringify l) ++ [93]
  | SObj fs => [123] ++ js_join [44] (map (λ p, json_string p.1 ++ [58] ++ stringify p.2) fs) ++ [125]
  end.

(** ** The encoder *)

Section encoder.
Context (maxBytes : Z).

(** [bytes] and [values]. *)
Record counts := { c_bytes : Z; c_values : Z }.

Definition reserve (size : Z) (c : counts) : option counts :=
  if maxBytes <? c_bytes c + size then None else Some {| c_bytes := c_bytes c + size; c_values := c_values c |}.

(** [++values > MAX_METADATA_VALUES] *)
Definition count_value (c : counts) : option counts :=
  if MAX_METADATA_VALUES <? c_values c + 1 then None else Some {| c_bytes := c_bytes c; c_values := c_values c + 1 |}.

Fixpoint reserve_chars (s : jsstring) (c : counts) : option counts :=
  match s with
  | [] => Some c
  | code :: s' =>
      if (code =? 34) || (code =? 92) then reserve 2 c ≫= reserve_chars s'
      else if code <? 32 then
        reserve (if (code =? 8) || (code =? 9) || (code =? 10) || (code =? 12) || (code =? 13) then 2 else 6) c ≫= reserve_chars s'
      else if code <? 128 then reserve 1 c ≫= reserve_chars s'
      else if code <? 2048 then reserve 2 c ≫= reserve_chars s'
      else if is_high_surrogate code then
        match s' with
        | next :: s'' => if is_low_surrogate next then reserve 4 c ≫= reserve_chars s''
                         else reserve 6 c ≫= reserve_chars s'
        | [] => reserve 6 c
        end
      else reserve (if is_low_surrogate code then 6 else 3) c ≫= reserve_chars s'
  end.

(** [string] *)
Definition reserve_string (s : jsstring) (c : counts) : option counts := reserve 2 c ≫= reserve_chars s.

(** The copy of a nested value, which the loops below call. *)
Section loops.
Context (copy : meta → counts → option (snap * counts)).

Definition slot_value (d : option descriptor) : option meta :=
  match d with None => Some MUndef | Some (DData v) => Some v | Some DAccessor => None end.

Fixpoint snapshot_items (first : bool) (items : list (option descriptor)) (c : counts) : option (list snap * counts) :=
  match items with
  | [] => Some ([], c)
  | d :: rest =>
      c1 ← (if first then Some c else reserve 1 c);
      v ← slot_value d;
      '(t, c2) ← copy v c1;
      '(l, c3) ← snapshot_items false rest c2;
      Some (t :: l, c3)
  end.

Fixpoint snapshot_fields (count : Z) (fields : list (jsstring * option descriptor)) (c : counts) :
    option (list (jsstring * snap) * counts) :=
  match fields with
  | [] => Some ([], c)
  | (key, d) :: rest =>
      match d with
      | None => snapshot_fields count rest c
      | Some d =>
          c1 ← count_value c;
          match d with
          | DAccessor => None
          | DData MUndef => snapshot_fields count rest c1
          | DData v =>
              c2 ← (if 0 <? count then reserve 1 c1 else Some c1);
              c3 ← reserve_string key c2;
              c4 ← reserve 1 c3;
              '(t, c5) ← copy v c4;
              '(l, c6) ← snapshot_fields (count + 1) rest c5;
              Some ((key, t) :: l, c6)
          end
      end
  end.
End loops.

(** [snapshot] at depth [MAX_METADATA_DEPTH + 1 - fuel]. *)
Fixpoint snapshot (fuel : nat) (ancestors : list nat) (v : meta) (c0 : counts) : option (snap * counts) :=
  c ← count_value c0;
  match fuel with
  | O => None
  | S fuel' =>
      let objects anc o :=
        match o with
        | OArray items =>
            if (MAX_METADATA_VALUES <? Z.of_nat (length items)) || (maxBytes <? Z.of_nat (length items)) then None
            else c1 ← reserve 2 c; '(l, c2) ← snapshot_items (snapshot fuel' anc) true items c1; Some (SArr l, c2)
        | OPlain _ fields => c1 ← reserve 2 c; '(l, c2) ← snapshot_fields (snapshot fuel' anc) 0 fields c1; Some (SObj l, c2)
        | OError _ | OForeign => None
        end in
      match v with
      | MNull => c1 ← reserve 4 c; Some (SNull, c1)
      | MStr s => c1 ← reserve_string s c; Some (SStr s, c1)
      | MBool b => c1 ← reserve (if b then 4 else 5) c; Some (SBool b, c1)
      | MNum n => c1 ← reserve (Z.of_nat (length (number_text n))) c; Some (SNum n, c1)
      | MUndef => c1 ← reserve 4 c; Some (SNull, c1)
      | MBig _ | MOther => None
      | MRef o => if bool_decide (o ∈ ancestors) then None else objects (o :: ancestors) (heap o)
      | MNew fields => objects ancestors (OPlain false ((λ p, (p.1, Some (DData p.2))) <$> fields))
      end
  end.

Definition encodeBoundedEvent (v : meta) : option jsstring :=
  '(t, _) ← snapshot (Z.to_nat (MAX_METADATA_DEPTH + 1)) [] v {| c_bytes := 0; c_values := 0 |};
  if utf8_length (stringify t) <=? maxBytes then Some (stringify t) else None.
End encoder.

(** ** The reference

    The copy and the number of values and properties looked at, within
    [fuel] levels of nesting. *)

Fixpoint plain_items (copy : meta → option (snap * Z)) (items : list (option descriptor)) : option (list snap * Z) :=
  match items with
  | [] => Some ([], 0)
  | d :: rest => v ← slot_value d; '(t, n) ← copy v; '(l, m) ← plain_items copy rest; Some (t :: l, n + m)
  end.

Fixpoint plain_fields (copy : meta → option (snap * Z)) (fields : list (jsstring * option descriptor)) :
    option (list (jsstring * snap) * Z) :=
  match fields with
  | [] => Some ([], 0)
  | (_, None) :: rest => plain_fields copy rest
  | (_, Some DAccessor) :: _ => None
  | (_, Some (DData MUndef)) :: rest => '(l, m) ← plain_fields copy rest; Some (l, 1 + m)
  | (key, Some (DData v)) :: rest => '(t, n) ← copy v; '(l, m) ← plain_fields copy rest; Some ((key, t) :: l, 1 + n + m)
  end.

Definition plain_object (copy : meta → option (snap * Z)) (o : object) : option (snap * Z) :=
  match o with
  | OArray items => '(l, n) ← plain_items copy items; Some (SArr l, 1 + n)
  | OPlain _ fields => '(l, n) ← plain_fields copy fields; Some (SObj l, 1 + n)
  | OError _ | OForeign => None
  end.

Fixpoint plain (fuel : nat) (v : meta) : option (snap * Z) :=
  match fuel with
  | O => None
  | S fuel' =>
      match v with
      | MNull | MUndef => Some (SNull, 1)
      | MStr s => Some (SStr s, 1)
      | MBool b => Some (SBool b, 1)
      | MNum n => Some (SNum n, 1)
      | MBig _ | MOther => None
      | MRef o => plain_object (plain fuel') (heap o)
      | MNew fields => plain_object (plain fuel') (OPlain false ((λ p, (p.1, Some (DData p.2))) <$> fields))
      end
  end.
End encoding.

(** [eventLimit] *)
Definition eventLimit (value : jsnum) (name : jsstring) : result jsstring Z :=
  if negb (num_is_safe_integer value) || (num_floor value <? 1) then Throw (name ++ js " must be a positive safe integer")
  else Ok (num_floor value).

(** ** Sizes of texts *)

(** A text whose size does not depend on what follows it. *)
Definition additive (a : jsstring) : Prop := ∀ b, utf8_length (a ++ b) = utf8_length a + utf8_length b.

Lemma additive_nil : additive [].
Proof. by intros b. Qed.

Lemma additive_app a b : additive a → additive b → additive (a ++ b).
Proof. intros Ha Hb c. rewrite <-app_assoc, !Ha, Hb. lia. Qed.

Lemma utf8_length_small a b : Forall (λ c, c < 128) a → utf8_length (a ++ b) = Z.of_nat (length a) + utf8_length b.
Proof.
  induction 1 as [|c a Hc Ha IH]; [done|]. cbn [app utf8_length length]. rewrite (proj2 (Z.ltb_lt c 0x80)) by done. lia.
Qed.

Lemma utf8_length_small_nil a : Forall (λ c, c < 128) a → utf8_length a = Z.of_nat (length a).
Proof. intros Ha. rewrite <-(app_nil_r a) at 1. rewrite utf8_length_small by done. simpl. lia. Qed.

Lemma additive_ascii a : Forall (λ c, c < 128) a → additive a.
Proof. intros Ha b. by rewrite utf8_length_small, (utf8_length_small_nil a). Qed.

#[local] Ltac small := repeat (apply Forall_cons; split; [cbv beta; lia|]); by apply Forall_nil.

(** An escaped unit, by the cases of the encoder. *)
Definition unit_size (c : Z) : Z :=
  if (c =? 34) || (c =? 92) then 2
  else if c <? 32 then (if (c =? 8) || (c =? 9) || (c =? 10) || (c =? 12) || (c =? 13) then 2 else 6)
  else if c <? 128 then 1
  else if c <? 2048 then 2
  else if is_high_surrogate c || is_low_surrogate c then 6 else 3.

Lemma json_u_size c b : c < 0x10000 → utf8_length (json_u c ++ b) = 6 + utf8_length b.
Proof.
  intros Hc. assert (Hd : ∀ d, d < 16 → hex_digit d < 128) by (intros d Hd; unfold hex_digit; case_match; bools; lia).
  rewrite utf8_length_small; [done|]. unfold json_u.
  repeat (apply Forall_cons; split; [cbv beta; first [lia|apply Hd; first [by apply Z.mod_pos_bound|apply Z.div_lt_upper_bound; lia]]|]). by apply Forall_nil.
Qed.

Lemma surrogate_range c : is_high_surrogate c || is_low_surrogate c = true → 0xd800 <= c < 0xe000.
Proof. unfold is_high_surrogate, is_low_surrogate. rewrite orb_true_iff, !andb_true_iff, !Z.leb_le. lia. Qed.

Lemma json_escape_size c b : utf8_length (json_escape c ++ b) = unit_size c + utf8_length b.
Proof.
  pose proof (surrogate_range c) as Hs. unfold json_escape, unit_size.
  repeat match goal with |- context [c =? ?x] => destruct (Z.eqb_spec c x); [subst; rewrite utf8_length_small by small; done|] end.
  cbn [orb]. destruct (Z.ltb_spec c 32); cbn [orb]; [rewrite json_u_size by lia; lia|].
  destruct (is_high_surrogate c || is_low_surrogate c) eqn:Es.
  - specialize (Hs eq_refl). rewrite json_u_size by lia. by rewrite !(proj2 (Z.ltb_ge _ _)) by lia.
  - apply orb_false_iff in Es as [Eh _]. cbn [app utf8_length]. rewrite Eh.
    change 0x80 with 128. change 0x800 with 2048. by destruct (c <? 128), (c <? 2048).
Qed.

(** A paired surrogate is written as it is. *)
Lemma pair_size u v b : is_high_surrogate u = true → is_low_surrogate v = true → utf8_length (u :: v :: b) = 4 + utf8_length b.
Proof.
  intros Hu Hv. pose proof (surrogate_range u) as Hr. rewrite Hu in Hr. specialize (Hr eq_refl). cbn [utf8_length]. rewrite Hu, Hv.
  by rewrite !(proj2 (Z.ltb_ge u _)) by lia.
Qed.

Lemma json_chars_ind (P : jsstring → Prop) :
  P [] → (∀ u v s, is_high_surrogate u = true → is_low_surrogate v = true → P s → P (u :: v :: s)) →
  (∀ u s, (∀ v s', s = v :: s' → is_high_surrogate u && is_low_surrogate v = false) → P s → P (u :: s)) → ∀ s, P s.
Proof.
  intros H0 H2 H1 s. remember (length s) as n eqn:Hn. revert s Hn. induction n as [n IH] using lt_wf_ind. intros s ->.
  destruct s as [|u s]; [done|]. destruct s as [|v s].
  - apply H1; [done|]. apply (IH 0%nat); simpl; lia || done.
  - destruct (is_high_surrogate u && is_low_surrogate v) eqn:E.
    + apply andb_true_iff in E as [E1 E2]. apply H2; [done..|]. eapply IH; [|done]. simpl. lia.
    + apply H1; [by intros ? ? [= <- <-]|]. eapply IH; [|done]. simpl. lia.
Qed.

Lemma json_chars_pair u v s : is_high_surrogate u = true → is_low_surrogate v = true → json_chars (u :: v :: s) = u :: v :: json_chars s.
Proof. intros Hu Hv. cbn [json_chars]. by rewrite Hu, Hv. Qed.

Lemma json_chars_single u s :
  (∀ v s', s = v :: s' → is_high_surrogate u && is_low_surrogate v = false) → json_chars (u :: s) = json_escape u ++ json_chars s.
Proof. intros H. destruct s as [|v s]; [cbn; by rewrite app_nil_r|]. cbn [json_chars]. by rewrite (H v s eq_refl). Qed.

Lemma additive_json_chars s : additive (json_chars s).
Proof.
  induction s as [|u v s Hu Hv IH|u s Hs IH] using json_chars_ind; [apply additive_nil| |]; intros b.
  - rewrite json_chars_pair by done. cbn [app]. rewrite !pair_size, IH by done. lia.
  - rewrite json_chars_single by done. rewrite <-app_assoc, !json_escape_size, IH. lia.
Qed.

Lemma json_string_size s b : utf8_length (json_string s ++ b) = 2 + utf8_length (json_chars s) + utf8_length b.
Proof.
  unfold json_string. rewrite <-!app_assoc. rewrite (utf8_length_small [34]) by small. rewrite additive_json_chars.
  rewrite (utf8_length_small [34]) by small. simpl. lia.
Qed.

Lemma additive_json_string s : additive (json_string s).
Proof. intros b. rewrite <-(app_nil_r (json_string s)) at 2. rewrite !json_string_size. simpl. lia. Qed.

(** ** Charges *)

Section charges.
Context (maxBytes : Z).

(** [size] bytes and [n] values at once. *)
Definition charge (size n : Z) (c : counts) : option counts :=
  if (c_bytes c + size <=? maxBytes) && (c_values c + n <=? MAX_METADATA_VALUES)
  then Some {| c_bytes := c_bytes c + size; c_values := c_values c + n |} else None.

Definition within (c : counts) : Prop := 0 <= c_bytes c <= maxBytes ∧ 0 <= c_values c <= MAX_METADATA_VALUES.

Lemma charge_within size n c c' : within c → 0 <= size → 0 <= n → charge size n c = Some c' → within c'.
Proof. intros [H1 H2] Hs Hn. unfold charge. case_match; [|done]. intros [= <-]. bools. split; simpl; lia. Qed.

Lemma charge_nothing c : within c → charge 0 0 c = Some c.
Proof.
  intros [H1 H2]. unfold charge. rewrite (proj2 (Z.leb_le _ _)), (proj2 (Z.leb_le _ _)) by lia. destruct c. simpl. do 2 f_equal; lia.
Qed.

Lemma charge_charge a b n m c : 0 <= b → 0 <= m → charge a n c ≫= charge b m = charge (a + b) (n + m) c.
Proof.
  intros Hb Hm. unfold charge.
  destruct (Z.leb_spec (c_bytes c + a) maxBytes), (Z.leb_spec (c_values c + n) MAX_METADATA_VALUES); cbn [andb mbind option_bind c_bytes c_values].
  1: by rewrite !Z.add_assoc.
  all: symmetry; rewrite (proj2 (andb_false_iff _ _)); [done|]; rewrite !Z.leb_gt; lia.
Qed.

Lemma reserve_charge size c : within c → reserve maxBytes size c = charge size 0 c.
Proof.
  intros [H1 H2]. unfold reserve, charge. rewrite (proj2 (Z.leb_le (c_values c + 0) _)) by lia. rewrite andb_true_r.
  rewrite Z.ltb_antisym. destruct (_ <=? maxBytes); simpl; [|done]. do 2 f_equal. lia.
Qed.

Lemma count_charge c : within c → count_value c = charge 0 1 c.
Proof.
  intros [H1 H2]. unfold count_value, charge. rewrite (proj2 (Z.leb_le (c_bytes c + 0) _)) by lia. cbn [andb].
  rewrite Z.ltb_antisym. destruct (_ <=? MAX_METADATA_VALUES); simpl; [|done]. do 2 f_equal. lia.
Qed.

Lemma charge_bind {A} a n c (k k' : counts → option A) :
  within c → 0 <= a → 0 <= n → (∀ c', within c' → k c' = k' c') → charge a n c ≫= k = charge a n c ≫= k'.
Proof. intros Hc Ha Hn H. destruct (charge a n c) as [c'|] eqn:E; [|done]. apply H. exact (charge_within _ _ _ _ Hc Ha Hn E). Qed.

Lemma reserve_then size (k : counts → option counts) rest c :
  within c → 0 <= size → 0 <= rest → (∀ c', within c' → k c' = charge rest 0 c') → reserve maxBytes size c ≫= k = charge (size + rest) 0 c.
Proof. intros Hc Hs Hr Hk. rewrite reserve_charge by done. rewrite (charge_bind _ _ _ _ (charge rest 0)) by done. rewrite charge_charge; done. Qed.

(** What is reserved for a text is its size. *)
Lemma reserve_chars_exact s c : within c → reserve_chars maxBytes s c = charge (utf8_length (json_chars s)) 0 c.
Proof.
  revert c. induction s as [|u v s Hu Hv IH|u s Hs IH] using json_chars_ind; intros c Hc.
  - by rewrite charge_nothing.
  - pose proof (surrogate_range u) as Hr. rewrite Hu in Hr. specialize (Hr eq_refl).
    rewrite json_chars_pair, pair_size by done. cbn [reserve_chars]. rewrite Hu, Hv.
    rewrite !(proj2 (Z.eqb_neq u _)), !(proj2 (Z.ltb_ge u _)) by lia. cbn [orb]. apply reserve_then; auto with jsdb; lia.
  - rewrite json_chars_single, json_escape_size by done.
    assert (Hk : ∀ size, 0 <= size → reserve maxBytes size c ≫= reserve_chars maxBytes s = charge (size + utf8_length (json_chars s)) 0 c)
      by (intros size ?; apply reserve_then; auto with jsdb).
    cbn [reserve_chars]. unfold unit_size. destruct ((u =? 34) || (u =? 92)); [by apply Hk|].
    destruct (u <? 32); [apply Hk; by case_match|].
    destruct (u <? 128); [by apply Hk|]. destruct (u <? 2048); [by apply Hk|].
    destruct (is_high_surrogate u); cbn [orb]; [|apply Hk; by case_match].
    destruct s as [|v s]; [by rewrite reserve_charge|]. specialize (Hs v s eq_refl). cbn [andb] in Hs. rewrite Hs. by apply Hk.
Qed.

Lemma reserve_string_exact s c : within c → reserve_string maxBytes s c = charge (utf8_length (json_string s)) 0 c.
Proof.
  intros Hc. rewrite <-(app_nil_r (json_string s)), json_string_size. simpl. rewrite Z.add_0_r. unfold reserve_string.
  apply reserve_then; auto using reserve_chars_exact with jsdb; lia.
Qed.
End charges.

(** ** The encoder is its reference *)

Section exact.
Context (number_text : jsnum → jsstring) (heap : nat → object) (maxBytes : Z).

(** The text of a number is not empty and is ASCII. *)
Hypothesis Hnum : ∀ n, number_text n ≠ [] ∧ Forall (λ c, c < 128) (number_text n).

Abbreviation text := (stringify number_text).
Abbreviation size t := (utf8_length (text t)).
Abbreviation ch := (charge maxBytes).

Definition field_text (p : jsstring * snap) : jsstring := json_string p.1 ++ [58] ++ text p.2.

(** What a copy costs. *)
Definition paid {A} (cost : A → Z) (r : option (A * Z)) (c : counts) : option (A * counts) :=
  '(a, n) ← r; c' ← ch (cost a) n c; Some (a, c').

Definition sane (r : option (snap * Z)) : Prop := ∀ t n, r = Some (t, n) → additive (text t) ∧ 1 <= size t ∧ 1 <= n.

(** The texts of a list with their separators. *)
Definition separated (first : bool) (ts : list jsstring) : Z :=
  match ts with [] => 0 | _ => sumZ (λ t, 1 + utf8_length t) ts - (if first then 1 else 0) end.

Lemma separated_cons first t ts :
  separated first (t :: ts) = (if first then 0 else 1) + utf8_length t + separated false ts.
Proof. unfold separated. rewrite sumZ_cons. destruct first, ts; rewrite ?sumZ_nil; lia. Qed.

Lemma separated_bound first ts : Forall (λ t, 1 <= utf8_length t) ts → Z.of_nat (length ts) <= separated first ts.
Proof.
  intros H. assert (Hs : 2 * Z.of_nat (length ts) <= sumZ (λ t, 1 + utf8_length t) ts).
  { clear first. induction H as [|t ts Ht _ IH]; [done|]. rewrite sumZ_cons. cbn [length]. lia. }
  unfold separated. destruct ts; [done|]. cbn [length] in *. destruct first; lia.
Qed.

Lemma join_size ts b : Forall additive ts → utf8_length (js_join [44] ts ++ b) = separated true ts + utf8_length b.
Proof.
  induction 1 as [|t ts Ht Hts IH]; [done|]. rewrite separated_cons. destruct ts as [|t' ts].
  - simpl. rewrite Ht. lia.
  - rewrite js_join_cons, <-!app_assoc, Ht, (utf8_length_small [44]), IH by small. rewrite !separated_cons. cbn [length]. lia.
Qed.

Lemma join_size_nil ts : Forall additive ts → utf8_length (js_join [44] ts) = separated true ts.
Proof. intros H. rewrite <-(app_nil_r (js_join _ _)), join_size by done. simpl. lia. Qed.

Lemma additive_join ts : Forall additive ts → additive (js_join [44] ts).
Proof. intros H b. by rewrite join_size, join_size_nil. Qed.

Lemma additive_field p : additive (text p.2) → additive (field_text p).
Proof. intros H. apply additive_app; [apply additive_json_string|]. apply additive_app; [apply additive_ascii; small|done]. Qed.

Lemma field_text_size p : utf8_length (field_text p) = utf8_length (json_string p.1) + 1 + size p.2.
Proof. unfold field_text. rewrite additive_json_string, (utf8_length_small [58]) by small. cbn [length]. lia. Qed.

Lemma charge_merge {A} a b n m c (k : counts → option A) :
  0 <= b → 0 <= m → (c1 ← ch a n c; c2 ← ch b m c1; k c2) = (c2 ← ch (a + b) (n + m) c; k c2).
Proof. intros Hb Hm. rewrite <-charge_charge by done. by destruct (ch a n c). Qed.

(** The text of an array or an object. *)
Lemma brackets_size o c ts : o < 128 → c < 128 → Forall additive ts →
  additive ([o] ++ js_join [44] ts ++ [c]) ∧ utf8_length ([o] ++ js_join [44] ts ++ [c]) = 2 + separated true ts.
Proof.
  intros Ho Hc H. split.
  - repeat apply additive_app; [apply additive_ascii; small|by apply additive_join|apply additive_ascii; small].
  - rewrite (utf8_length_small [o]), join_size by (done || small). rewrite utf8_length_small_nil by small. cbn [length]. lia.
Qed.

(** *** Loops *)

Section loops.
Context (copy : meta → counts → option (snap * counts)) (ref : meta → option (snap * Z)).
Hypothesis Href : ∀ v, sane (ref v).

Definition is_undef (v : meta) : bool := match v with MUndef => true | _ => false end.

Lemma plain_fields_data key v fields :
  plain_fields ref ((key, Some (DData v)) :: fields) =
  if is_undef v then '(l, m) ← plain_fields ref fields; Some (l, 1 + m)
  else '(t, n) ← ref v; '(l, m) ← plain_fields ref fields; Some ((key, t) :: l, 1 + n + m).
Proof. by destruct v. Qed.

Lemma snapshot_fields_data count key v fields c :
  snapshot_fields maxBytes copy count ((key, Some (DData v)) :: fields) c =
  c1 ← count_value c;
  if is_undef v then snapshot_fields maxBytes copy count fields c1
  else
    c2 ← (if 0 <? count then reserve maxBytes 1 c1 else Some c1);
    c3 ← reserve_string maxBytes key c2;
    c4 ← reserve maxBytes 1 c3;
    '(t, c5) ← copy v c4;
    '(l, c6) ← snapshot_fields maxBytes copy (count + 1) fields c5;
    Some ((key, t) :: l, c6).
Proof. cbn [snapshot_fields]. destruct (count_value c); [|done]. by destruct v. Qed.

Lemma plain_items_sane items l n : plain_items ref items = Some (l, n) →
  Forall (λ t, additive (text t) ∧ 1 <= size t) l ∧ length l = length items ∧ Z.of_nat (length items) <= n.
Proof.
  revert l n. induction items as [|d items IH]; intros l n; cbn [plain_items]; [intros [= <- <-]; split_and!; [by apply Forall_nil|done|simpl; lia]|].
  destruct (slot_value d) as [v|]; [|done]. cbn [mbind option_bind]. destruct (ref v) as [[t k]|] eqn:E; [|done]. cbn [mbind option_bind].
  destruct (plain_items ref items) as [[l' m]|]; [|done]. intros [= <- <-]. destruct (IH _ _ eq_refl) as (I1 & I2 & I3).
  destruct (Href _ _ _ E) as (H1 & H2 & H3). split_and!; [by constructor|simpl; congruence|cbn [length]; lia].
Qed.

Lemma plain_fields_sane fields l n : plain_fields ref fields = Some (l, n) → Forall (λ p, additive (text p.2) ∧ 1 <= size p.2) l ∧ 0 <= n.
Proof.
  revert l n. induction fields as [|[key [[v|]|]] fields IH]; intros l n.
  - intros [= <- <-]. split; [by apply Forall_nil|done].
  - rewrite plain_fields_data. destruct (is_undef v).
    + destruct (plain_fields ref fields) as [[l' m]|]; [|done]. intros [= <- <-]. destruct (IH _ _ eq_refl). split; [done|lia].
    + destruct (ref v) as [[t k]|] eqn:E; [|done]. cbn [mbind option_bind]. destruct (plain_fields ref fields) as [[l' m]|]; [|done].
      intros [= <- <-]. destruct (IH _ _ eq_refl). destruct (Href _ _ _ E) as (H1 & H2 & H3). split; [by constructor|lia].
  - done.
  - apply IH.
Qed.

(** A comma, or nothing. *)
Lemma separator_charge (first : bool) c : within maxBytes c → (if first then Some c else reserve maxBytes 1 c) = ch (if first then 0 else 1) 0 c.
Proof. intros Hc. destruct first; [by rewrite charge_nothing|by apply reserve_charge]. Qed.

Lemma items_paid first items c :
  (∀ d v, d ∈ items → slot_value d = Some v → ∀ c, within maxBytes c → copy v c = paid (λ t, size t) (ref v) c) → within maxBytes c →
  snapshot_items maxBytes copy first items c = paid (λ l, separated first (map text l)) (plain_items ref items) c.
Proof.
  revert first c. induction items as [|d items IH]; intros first c Hcopy Hc.
  - unfold paid. simpl. by rewrite charge_nothing.
  - cbn [snapshot_items plain_items]. rewrite separator_charge by done. destruct (slot_value d) as [v|] eqn:Ed.
    2: { unfold paid. cbn [mbind option_bind]. by destruct (ch _ _ c). }
    cbn [mbind option_bind].
    rewrite (charge_bind _ _ _ _ _ (λ c1, '(t, c2) ← paid (λ t, size t) (ref v) c1;
      '(l, c3) ← paid (λ l, separated false (map text l)) (plain_items ref items) c2; Some (t :: l, c3))).
    2: done. 2: by destruct first. 2: done.
    2: { intros c' Hc'. rewrite (Hcopy d v) by (done || left). unfold paid. destruct (ref v) as [[t n]|] eqn:Et; [|done]. cbn [mbind option_bind].
         destruct (ch (size t) n c') as [c2|] eqn:E; [|done]. cbn [mbind option_bind]. unfold paid in IH.
         destruct (Href _ _ _ Et) as (T1 & T2 & T3).
         rewrite IH; [done| |eapply charge_within; [exact Hc'| | |exact E]; lia]. intros d' v' Hd'. apply Hcopy. by right. }
    unfold paid. destruct (ref v) as [[t n]|] eqn:Et; cbn [mbind option_bind]; [|by destruct (ch _ _ c)].
    destruct (Href _ _ _ Et) as (H1 & H2 & H3). destruct (plain_items ref items) as [[l m]|] eqn:El; cbn [mbind option_bind].
    2: { destruct (ch _ _ c) as [c1|]; [|done]. cbn [mbind option_bind]. by destruct (ch _ _ c1). }
    destruct (plain_items_sane _ _ _ El) as (L1 & L2 & L3).
    assert (Hl : 0 <= separated false (map text l)).
    { etransitivity; [|apply separated_bound]; [lia|]. apply Forall_map. eapply Forall_impl; [exact L1|]. by intros x [_ Hx]. }
    cbn [map]. rewrite separated_cons.
    transitivity (c3 ← (c1 ← ch (if first then 0 else 1) 0 c; c2 ← ch (size t) n c1; ch (separated false (map text l)) m c2); Some (t :: l, c3)).
    { destruct (ch _ 0 c) as [c1|]; [|done]. cbn [mbind option_bind]. destruct (ch _ n c1) as [c2|]; [|done]. cbn [mbind option_bind]. by destruct (ch _ m c2). }
    rewrite charge_merge, charge_charge by lia. by rewrite Z.add_0_l.
Qed.

Lemma separated_nonneg first (l : list (jsstring * snap)) :
  Forall (λ p, additive (text p.2) ∧ 1 <= size p.2) l → 0 <= separated first (map field_text l).
Proof.
  intros H. etransitivity; [|apply separated_bound]; [lia|]. apply Forall_map. eapply Forall_impl; [exact H|]. intros p [_ Hp]. change (1 <= utf8_length (field_text p)).
  rewrite field_text_size. pose proof (utf8_length_nonneg (json_string p.1)). lia.
Qed.

Lemma charges_fail {A} a b d e n c (k : counts → option A) :
  (∀ c, k c = None) → (c1 ← ch a n c; c2 ← ch b 0 c1; c3 ← ch d 0 c2; c4 ← ch e 0 c3; k c4) = None.
Proof.
  intros Hk. destruct (ch a n c) as [c1|]; [|done]. simpl. destruct (ch b 0 c1) as [c2|]; [|done]. simpl.
  destruct (ch d 0 c2) as [c3|]; [|done]. simpl. destruct (ch e 0 c3) as [c4|]; [|done]. apply Hk.
Qed.

Definition first_field (count : Z) : bool := negb (0 <? count).

Lemma field_separator count c :
  within maxBytes c → (if 0 <? count then reserve maxBytes 1 c else Some c) = ch (if first_field count then 0 else 1) 0 c.
Proof. intros Hc. unfold first_field. rewrite <-(separator_charge (negb (0 <? count))) by done. by destruct (0 <? count). Qed.

(** A field's name, its separators and its value. *)
Lemma field_charge {A} first key t n m rest c (a : A) :
  0 <= size t → 0 <= n → 0 <= rest → 0 <= m →
  (c2 ← ch (if (first : bool) then 0 else 1) 0 c; c3 ← ch (utf8_length (json_string key)) 0 c2; c4 ← ch 1 0 c3;
   c5 ← ch (size t) n c4; c6 ← ch rest m c5; Some (a, c6)) =
  (c6 ← ch ((if first then 0 else 1) + utf8_length (field_text (key, t)) + rest) (n + m) c; Some (a, c6)).
Proof.
  intros H1 H2 H3 H4. pose proof (utf8_length_nonneg (json_string key)). rewrite field_text_size. cbn [fst snd].
  rewrite !charge_merge by lia.
  assert (He : (if first then 0 else 1) + utf8_length (json_string key) + 1 + size t + rest =
    (if first then 0 else 1) + (utf8_length (json_string key) + 1 + size t) + rest) by lia. by rewrite He.
Qed.

Lemma fields_paid count fields c :
  (∀ key v, (key, Some (DData v)) ∈ fields → is_undef v = false → ∀ c, within maxBytes c → copy v c = paid (λ t, size t) (ref v) c) →
  0 <= count → within maxBytes c →
  snapshot_fields maxBytes copy count fields c = paid (λ l, separated (first_field count) (map field_text l)) (plain_fields ref fields) c.
Proof.
  revert count c. induction fields as [|[key [[v|]|]] fields IH]; intros count c Hcopy H0 Hc.
  - unfold paid. simpl. by rewrite charge_nothing.
  - assert (IH' := λ count c, IH count c (λ key v Hin, Hcopy key v (list_elem_of_further _ _ _ Hin))). clear IH.
    rewrite snapshot_fields_data, plain_fields_data, (count_charge maxBytes) by done. destruct (is_undef v) eqn:Eu.
    + rewrite (charge_bind _ _ _ _ _ (paid (λ l, separated (first_field count) (map field_text l)) (plain_fields ref fields)));
        [|done|done|done|intros; by apply IH'].
      unfold paid. destruct (plain_fields ref fields) as [[l m]|] eqn:El; cbn [mbind option_bind]; [|by destruct (ch 0 1 c)].
      destruct (plain_fields_sane _ _ _ El) as [L1 L2].
      assert (Hl : 0 <= separated (first_field count) (map field_text l)) by (eapply separated_nonneg; exact L1).
      rewrite charge_merge by lia. by rewrite Z.add_0_l.
    + rewrite (charge_bind _ _ _ _ _ (λ c1, c2 ← ch (if first_field count then 0 else 1) 0 c1; c3 ← ch (utf8_length (json_string key)) 0 c2;
        c4 ← ch 1 0 c3; '(t, c5) ← paid (λ t, size t) (ref v) c4;
        '(l, c6) ← paid (λ l, separated false (map field_text l)) (plain_fields ref fields) c5; Some ((key, t) :: l, c6))).
      2: done. 2: done. 2: done.
      2: { intros c1 H1. rewrite field_separator by done. apply charge_bind; [done|by destruct (first_field count)|done|]. intros c2 H2.
           rewrite reserve_string_exact by done. apply charge_bind; [done|apply utf8_length_nonneg|done|]. intros c3 H3.
           rewrite reserve_charge by done. apply charge_bind; [done..|]. intros c4 H4.
           rewrite (Hcopy key v) by (done || left). unfold paid. destruct (ref v) as [[t n]|] eqn:Et; [|done]. cbn [mbind option_bind]. destruct (Href _ _ _ Et) as (T1 & T2 & T3).
           destruct (ch (size t) n c4) as [c5|] eqn:E; [|done]. cbn [mbind option_bind].
           rewrite IH' by (lia || (eapply charge_within; [exact H4| | |exact E]; lia)).
           unfold first_field. by rewrite (proj2 (Z.ltb_lt 0 (count + 1))) by lia. }
      unfold paid. destruct (ref v) as [[t n]|] eqn:Et; cbn [mbind option_bind]; [|by apply charges_fail].
      destruct (Href _ _ _ Et) as (T1 & T2 & T3). destruct (plain_fields ref fields) as [[l m]|] eqn:El; cbn [mbind option_bind].
      2: { apply charges_fail. by intros; destruct (ch _ _ _). }
      destruct (plain_fields_sane _ _ _ El) as [L1 L2].
      assert (Hl : 0 <= separated false (map field_text l)) by (eapply separated_nonneg; exact L1).
      cbn [map]. rewrite separated_cons.
      transitivity (c1 ← ch 0 1 c; c6 ← ch ((if first_field count then 0 else 1) + utf8_length (field_text (key, t)) + separated false (map field_text l)) (n + m) c1;
        Some ((key, t) :: l, c6)).
      { destruct (ch 0 1 c) as [c1|]; [|done]. cbn [mbind option_bind]. rewrite <-field_charge by lia.
        do 3 (match goal with |- context [ch ?a 0 ?x] => destruct (ch a 0 x) end; [|done]; cbn [mbind option_bind]).
        match goal with |- context [ch (size t) n ?x] => destruct (ch (size t) n x) as [c5|] end; [|done].
        cbn [mbind option_bind]. by destruct (ch _ m c5). }
      pose proof (utf8_length_nonneg (field_text (key, t))). rewrite charge_merge by (destruct (first_field count); lia).
      rewrite Z.add_0_l, Z.add_assoc. done.
  - cbn [snapshot_fields plain_fields]. unfold paid. by destruct (count_value c).
  - cbn [snapshot_fields plain_fields]. apply IH; [|done..]. intros key' v Hin. apply (Hcopy key'). by right.
Qed.
End loops.

(** *** Cycles *)

Abbreviation pl := (plain heap).

Definition object_of (v : meta) : option object :=
  match v with
  | MRef o => Some (heap o)
  | MNew fields => Some (OPlain false ((λ p, (p.1, Some (DData p.2))) <$> fields))
  | _ => None
  end.

(** What an object's copy copies. *)
Definition child (o : object) (w : meta) : Prop :=
  match o with
  | OArray items => ∃ d, d ∈ items ∧ slot_value d = Some w
  | OPlain _ fields => ∃ key, (key, Some (DData w)) ∈ fields ∧ is_undef w = false
  | OError _ | OForeign => False
  end.

Lemma plain_items_child ref items r d w : plain_items ref items = Some r → d ∈ items → slot_value d = Some w → is_Some (ref w).
Proof.
  revert r. induction items as [|d' items IH]; intros r Hr Hin Hw; [by apply elem_of_nil in Hin|]. cbn [plain_items] in Hr.
  destruct (slot_value d') as [v|] eqn:Ed; [|done]. cbn [mbind option_bind] in Hr. destruct (ref v) as [[t n]|] eqn:Et; [|done].
  cbn [mbind option_bind] in Hr. destruct (plain_items ref items) as [r'|] eqn:El; [|done].
  apply elem_of_cons in Hin as [->|Hin]; [simplify_eq; by rewrite Et|]. by eapply IH.
Qed.

Lemma plain_fields_child ref fields r key w :
  plain_fields ref fields = Some r → (key, Some (DData w)) ∈ fields → is_undef w = false → is_Some (ref w).
Proof.
  revert r. induction fields as [|[key' d] fields IH]; intros r Hr Hin Hw; [by apply elem_of_nil in Hin|].
  apply elem_of_cons in Hin as [[= <- <-]|Hin].
  - rewrite plain_fields_data, Hw in Hr. by destruct (ref w).
  - destruct d as [[v|]|]; [|done|by eapply IH]. rewrite plain_fields_data in Hr. destruct (is_undef v).
    + destruct (plain_fields ref fields) as [r'|]; [|done]. by eapply IH.
    + destruct (ref v) as [[t n]|]; [|done]. cbn [mbind option_bind] in Hr. destruct (plain_fields ref fields) as [r'|]; [|done]. by eapply IH.
Qed.

Lemma plain_of_object fuel v o : object_of v = Some o → pl (S fuel) v = plain_object (pl fuel) o.
Proof. by destruct v; intros [= <-]. Qed.

Lemma plain_child fuel v o w :
  object_of v = Some o → child o w → is_Some (pl fuel v) → ∃ fuel', fuel = S fuel' ∧ is_Some (pl fuel' w).
Proof.
  intros Ho Hw [r Hr]. destruct fuel as [|fuel]; [done|]. exists fuel. split; [done|]. rewrite (plain_of_object _ _ _ Ho) in Hr.
  destruct o as [items|b fields|m|]; try done; cbn [plain_object] in Hr.
  - destruct Hw as (d & Hd & Hs). destruct (plain_items _ items) as [r'|] eqn:E; [|done]. by eapply plain_items_child.
  - destruct Hw as (key & Hk & Hs). destruct (plain_fields _ fields) as [r'|] eqn:E; [|done]. by eapply plain_fields_child.
Qed.

(** Every copy of an ancestor needs a shallower copy of the value. *)
Definition below (ancestors : list nat) (v : meta) : Prop :=
  ∀ a fuel, a ∈ ancestors → is_Some (pl fuel (MRef a)) → ∃ fuel', (fuel' < fuel)%nat ∧ is_Some (pl fuel' v).

Lemma below_child ancestors v o w : object_of v = Some o → child o w → below ancestors v → below ancestors w.
Proof.
  intros Ho Hw Hb a fuel Ha Hs. destruct (Hb a fuel Ha Hs) as (f & Hf & Hv). destruct (plain_child _ _ _ _ Ho Hw Hv) as (f' & -> & Hf').
  exists f'. split; [lia|done].
Qed.

Lemma below_entered ancestors o w : child (heap o) w → below ancestors (MRef o) → below (o :: ancestors) w.
Proof.
  intros Hw Hb a fuel [->|Ha]%elem_of_cons Hs; [|by eapply (below_child ancestors (MRef o))].
  destruct (plain_child _ (MRef o) (heap o) _ eq_refl Hw Hs) as (f & -> & Hf). exists f. split; [lia|done].
Qed.

(** A cyclic value has no copy. *)
Lemma cycle_has_no_copy ancestors o fuel : below ancestors (MRef o) → o ∈ ancestors → pl fuel (MRef o) = None.
Proof.
  intros Hb Ho. induction fuel as [fuel IH] using lt_wf_ind. apply eq_None_not_Some. intros Hs.
  destruct (Hb o fuel Ho Hs) as (f & Hf & [r Hr]). by rewrite IH in Hr.
Qed.

(** *** One step *)

Lemma plain_object_sane fuel o : (∀ v, sane (pl fuel v)) → sane (plain_object (pl fuel) o).
Proof.
  intros Hs t n. destruct o as [items|b fields|m|]; try done; cbn [plain_object].
  - destruct (plain_items (pl fuel) items) as [[l k]|] eqn:E; [|done]. intros [= <- <-].
    destruct (plain_items_sane _ Hs _ _ _ E) as (L1 & L2 & L3).
    destruct (brackets_size 91 93 (map text l)) as [B1 B2]; [lia|lia| |].
    { apply Forall_map. eapply Forall_impl; [exact L1|]. by intros x [Hx _]. }
    change (text (SArr l)) with ([91] ++ js_join [44] (map text l) ++ [93]). split_and!; [done| |lia]. rewrite B2.
    assert (H : Z.of_nat (length (map text l)) <= separated true (map text l)); [|lia].
    apply separated_bound, Forall_map. eapply Forall_impl; [exact L1|]. by intros x [_ Hx].
  - destruct (plain_fields (pl fuel) fields) as [[l k]|] eqn:E; [|done]. intros [= <- <-].
    destruct (plain_fields_sane _ Hs _ _ _ E) as [L1 L2].
    destruct (brackets_size 123 125 (map field_text l)) as [B1 B2]; [lia|lia| |].
    { apply Forall_map. eapply Forall_impl; [exact L1|]. intros x [Hx _]. by apply additive_field. }
    change (text (SObj l)) with ([123] ++ js_join [44] (map field_text l) ++ [125]). split_and!; [done| |lia]. rewrite B2.
    pose proof (separated_nonneg true l L1). lia.
Qed.

Lemma plain_sane fuel v : sane (pl fuel v).
Proof.
  revert v. induction fuel as [|fuel IH]; intros v; [done|].
  assert (Hlit : ∀ t s n, text t = s → Forall (λ c, c < 128) s → s ≠ [] → n = 1 → sane (Some (t, n))).
  { intros t s n Ht Hs Hne -> t' n' [= <- <-]. rewrite Ht. split_and!; [by apply additive_ascii| |done].
    rewrite utf8_length_small_nil by done. destruct s; [done|]. cbn [length]. lia. }
  destruct v as [| |b|k|s|z| |o|fields]; cbn [plain]; try done;
    try (by apply plain_object_sane); try (by apply (Hlit _ (js "null")); [|vm_compute; repeat constructor|..]).
  - apply (Hlit _ (if b then js "true" else js "false")); [done|by destruct b; vm_compute; repeat constructor|by destruct b|done].
  - destruct (Hnum k). by eapply Hlit.
  - intros t n [= <- <-]. cbn [stringify]. split_and!; [apply additive_json_string| |done].
    rewrite <-(app_nil_r (json_string s)), json_string_size. pose proof (utf8_length_nonneg (json_chars s)). simpl. lia.
Qed.

(** An array that is too long has no copy within the limits. *)
Lemma long_array_unpaid fuel items c :
  within maxBytes c →
  (MAX_METADATA_VALUES <? Z.of_nat (length items)) || (maxBytes <? Z.of_nat (length items)) = true →
  ('(t, n) ← plain_object (pl fuel) (OArray items); c' ← ch (size t) (n - 1) c; Some (t, c')) = None.
Proof.
  intros [Hb Hv] Hlong. cbn [plain_object]. destruct (plain_items (pl fuel) items) as [[l k]|] eqn:E; [|done]. cbn [mbind option_bind].
  destruct (plain_items_sane _ (plain_sane fuel) _ _ _ E) as (L1 & L2 & L3).
  destruct (brackets_size 91 93 (map text l)) as [_ B2]; [lia|lia| |].
  { apply Forall_map. eapply Forall_impl; [exact L1|]. by intros x [Hx _]. }
  assert (H : Z.of_nat (length (map text l)) <= separated true (map text l)).
  { apply separated_bound, Forall_map. eapply Forall_impl; [exact L1|]. by intros x [_ Hx]. }
  rewrite length_map, L2 in H. change (text (SArr l)) with ([91] ++ js_join [44] (map text l) ++ [93]). rewrite B2.
  unfold charge. rewrite (proj2 (andb_false_iff _ _)); [done|]. apply orb_true_iff in Hlong as [Hx|Hx]; apply Z.ltb_lt in Hx; rewrite !Z.leb_gt; lia.
Qed.

(** A copy below an object, once its value has been counted. *)
Lemma object_paid (copy : meta → counts → option (snap * counts)) fuel o c :
  (∀ w, child o w → ∀ c, within maxBytes c → copy w c = paid (λ t, size t) (pl fuel w) c) → within maxBytes c →
  match o with
  | OArray items =>
      if (MAX_METADATA_VALUES <? Z.of_nat (length items)) || (maxBytes <? Z.of_nat (length items)) then None
      else c1 ← reserve maxBytes 2 c; '(l, c2) ← snapshot_items maxBytes copy true items c1; Some (SArr l, c2)
  | OPlain _ fields => c1 ← reserve maxBytes 2 c; '(l, c2) ← snapshot_fields maxBytes copy 0 fields c1; Some (SObj l, c2)
  | OError _ | OForeign => None
  end = ('(t, n) ← plain_object (pl fuel) o; c' ← ch (size t) (n - 1) c; Some (t, c')).
Proof.
  intros Hcopy Hc. destruct o as [items|b fields|m|]; try done.
  - destruct (_ || _) eqn:El; [by rewrite (long_array_unpaid fuel items c Hc El)|].
    rewrite reserve_charge by done.
    rewrite (charge_bind _ _ _ _ _ (λ c1, '(l, c2) ← paid (λ l, separated true (map text l)) (plain_items (pl fuel) items) c1; Some (SArr l, c2)));
      [|done..|].
    2: { intros c1 H1. rewrite (items_paid copy (pl fuel)); [done|by apply plain_sane| |done].
         intros d v Hd Hv. apply Hcopy. by exists d. }
    cbn [plain_object]. unfold paid. destruct (plain_items (pl fuel) items) as [[l k]|] eqn:E; [|by destruct (ch 2 0 c)]. cbn [mbind option_bind].
    destruct (plain_items_sane _ (plain_sane fuel) _ _ _ E) as (L1 & L2 & L3).
    destruct (brackets_size 91 93 (map text l)) as [_ B2]; [lia|lia| |].
    { apply Forall_map. eapply Forall_impl; [exact L1|]. by intros x [Hx _]. }
    assert (Hl : 0 <= separated true (map text l)).
    { etransitivity; [|apply separated_bound]; [lia|]. apply Forall_map. eapply Forall_impl; [exact L1|]. by intros x [_ Hx]. }
    change (text (SArr l)) with ([91] ++ js_join [44] (map text l) ++ [93]). rewrite B2.
    transitivity (c1 ← ch 2 0 c; c2 ← ch (separated true (map text l)) k c1; Some (SArr l, c2)).
    { destruct (ch 2 0 c) as [c1|]; [|done]. cbn [mbind option_bind]. by destruct (ch _ k c1). }
    rewrite charge_merge by lia. do 2 f_equal. lia.
  - rewrite reserve_charge by done.
    rewrite (charge_bind _ _ _ _ _ (λ c1, '(l, c2) ← paid (λ l, separated true (map field_text l)) (plain_fields (pl fuel) fields) c1; Some (SObj l, c2)));
      [|done..|].
    2: { intros c1 H1. rewrite (fields_paid copy (pl fuel)); [done|by apply plain_sane| |done|done].
         intros key v Hk Hv. apply Hcopy. by exists key. }
    cbn [plain_object]. unfold paid. destruct (plain_fields (pl fuel) fields) as [[l k]|] eqn:E; [|by destruct (ch 2 0 c)]. cbn [mbind option_bind].
    destruct (plain_fields_sane _ (plain_sane fuel) _ _ _ E) as [L1 L2].
    destruct (brackets_size 123 125 (map field_text l)) as [_ B2]; [lia|lia| |].
    { apply Forall_map. eapply Forall_impl; [exact L1|]. intros x [Hx _]. by apply additive_field. }
    pose proof (separated_nonneg true l L1) as Hl.
    change (text (SObj l)) with ([123] ++ js_join [44] (map field_text l) ++ [125]). rewrite B2.
    transitivity (c1 ← ch 2 0 c; c2 ← ch (separated true (map field_text l)) k c1; Some (SObj l, c2)).
    { destruct (ch 2 0 c) as [c1|]; [|done]. cbn [mbind option_bind]. by destruct (ch _ k c1). }
    rewrite charge_merge by lia. do 2 f_equal. lia.
Qed.

Lemma snapshot_paid fuel ancestors v c :
  below ancestors v → within maxBytes c → snapshot number_text heap maxBytes fuel ancestors v c = paid (λ t, size t) (pl fuel v) c.
Proof.
  revert ancestors v c. induction fuel as [|fuel IH]; intros ancestors v c Hb Hc.
  { cbn [snapshot plain]. unfold paid. by destruct (count_value c). }
  cbn [snapshot]. rewrite (count_charge maxBytes) by done. unfold paid.
  assert (Hlit : ∀ t size', utf8_length (text t) = size' → 0 <= size' →
    (c0 ← ch 0 1 c; c1 ← reserve maxBytes size' c0; Some (t, c1)) = (c' ← ch (size t) 1 c; Some (t, c'))).
  { intros t size' <- Hs. rewrite (charge_bind _ _ _ _ _ (λ c0, c1 ← ch (size t) 0 c0; Some (t, c1)));
      [by rewrite charge_merge by lia|done..|]. intros c' Hc'. by rewrite reserve_charge. }
  assert (Hobj : ∀ anc o, (∀ w, child o w → below anc w) →
    (c0 ← ch 0 1 c; match o with
      | OArray items =>
          if (MAX_METADATA_VALUES <? Z.of_nat (length items)) || (maxBytes <? Z.of_nat (length items)) then None
          else c1 ← reserve maxBytes 2 c0;
               '(l, c2) ← snapshot_items maxBytes (snapshot number_text heap maxBytes fuel anc) true items c1; Some (SArr l, c2)
      | OPlain _ fields => c1 ← reserve maxBytes 2 c0;
               '(l, c2) ← snapshot_fields maxBytes (snapshot number_text heap maxBytes fuel anc) 0 fields c1; Some (SObj l, c2)
      | OError _ | OForeign => None
      end) = ('(t, n) ← plain_object (pl fuel) o; c' ← ch (size t) n c; Some (t, c'))).
  { intros anc o Ha. rewrite (charge_bind _ _ _ _ _ (λ c0, '(t, n) ← plain_object (pl fuel) o; c' ← ch (size t) (n - 1) c0; Some (t, c')));
      [|done..|].
    2: { intros c1 H1. apply object_paid; [|done]. intros w Hw c2 H2. apply IH; [by apply Ha|done]. }
    pose proof (plain_object_sane fuel o (plain_sane fuel)) as Hs. destruct (plain_object (pl fuel) o) as [[t n]|]; [|by destruct (ch 0 1 c)].
    destruct (Hs _ _ eq_refl) as (S1 & S2 & S3). cbn [mbind option_bind]. rewrite charge_merge by lia. do 2 f_equal. lia. }
  destruct v as [| |b|k|s|z| |o|fields]; cbn [plain mbind option_bind].
  - by apply Hlit.
  - by apply Hlit.
  - apply Hlit; by destruct b.
  - apply Hlit; [|lia]. apply utf8_length_small_nil, Hnum.
  - rewrite (charge_bind _ _ _ _ _ (λ c0, c1 ← ch (size (SStr s)) 0 c0; Some (SStr s, c1))); [|done..|intros c' Hc'; by rewrite reserve_string_exact].
    by rewrite charge_merge by auto with jsdb lia.
  - by destruct (ch 0 1 c).
  - by destruct (ch 0 1 c).
  - case_bool_decide as Ho.
    + pose proof (cycle_has_no_copy ancestors o (S fuel) Hb Ho) as Hx. cbn [plain] in Hx. rewrite Hx. by destruct (ch 0 1 c).
    + apply Hobj. intros w Hw. by eapply below_entered.
  - apply (Hobj ancestors (OPlain false ((λ p, (p.1, Some (DData p.2))) <$> fields))). intros w Hw.
    by eapply (below_child ancestors (MNew fields)).
Qed.

(** C28: bounded encoding is exact. A value is encoded exactly when it has a copy
    of plain data within nine levels, in at most 4096 values and properties, whose
    JSON takes at most [maxBytes] bytes of UTF-8, and the answer is that JSON. The
    bytes reserved along the way, the lengths refused early and the memory of
    ancestors never change the answer, on cyclic values included. *)
Theorem encode_exact v json :
  encodeBoundedEvent number_text heap maxBytes v = Some json ↔
  ∃ t n, plain heap 9 v = Some (t, n) ∧ n <= 4096 ∧ json = stringify number_text t ∧ utf8_length json <= maxBytes.
Proof.
  unfold encodeBoundedEvent. change (Z.to_nat (MAX_METADATA_DEPTH + 1)) with 9%nat. destruct (Z.ltb_spec maxBytes 0) as [Hneg|Hpos].
  { split.
    - destruct (snapshot _ _ _ _ _ _ _) as [[t c]|]; [|done]. cbn [mbind option_bind]. case_match; [|done]. bools.
      pose proof (utf8_length_nonneg (text t)). lia.
    - intros (t & n & _ & _ & -> & H). pose proof (utf8_length_nonneg (text t)). lia. }
  rewrite (snapshot_paid 9 [] v) by (try split; simpl; try done; intros a fuel H; by apply elem_of_nil in H). unfold paid.
  split.
  - destruct (pl 9 v) as [[t n]|]; [|done]. cbn [mbind option_bind]. unfold charge. case_match; [|done]. cbn [mbind option_bind].
    bools. simpl in *. case_match; [|done]. intros [= <-]. bools. exists t, n. unfold MAX_METADATA_VALUES in *. split_and!; done || lia.
  - intros (t & n & -> & Hn & -> & Hb). cbn [mbind option_bind]. unfold charge. cbn [c_bytes c_values].
    rewrite !(proj2 (Z.leb_le _ _)) by (unfold MAX_METADATA_VALUES; lia). cbn [andb mbind option_bind].
    by rewrite (proj2 (Z.leb_le _ _)) by lia.
Qed.
End exact.

(** ** Runs *)

Definition toy_number (n : jsnum) : jsstring := match n with JNum q => dec (Z.abs (Qnum q)) | _ => js "null" end.

Lemma toy_number_ok n : toy_number n ≠ [] ∧ Forall (λ c, c < 128) (toy_number n).
Proof.
  assert (Hd : ∀ f z, 0 <= z → z < 2 ^ (Z.of_nat f + 1) → dec_fuel f z ≠ [] ∧ Forall (λ c, c < 128) (dec_fuel f z)).
  { induction f as [|f IH]; intros z H0 Hz; cbn [dec_fuel].
    - split; [done|]. apply Forall_cons. split; [|by apply Forall_nil]. pose proof (Z.mod_pos_bound z 10). lia.
    - destruct (Z.ltb_spec z 10); [split; [done|]; apply Forall_cons; split; [lia|by apply Forall_nil]|].
      destruct (IH (z / 10)) as [I1 I2]; [by apply Z.div_pos|apply Z.div_lt_upper_bound; [lia|]|].
      + replace (Z.of_nat (S f) + 1) with (Z.succ (Z.of_nat f + 1)) in Hz by lia. rewrite Z.pow_succ_r in Hz by lia. lia.
      + split; [by destruct (dec_fuel f (z / 10))|]. apply Forall_app. split; [done|]. apply Forall_cons. split; [|by apply Forall_nil].
        pose proof (Z.mod_pos_bound z 10). lia. }
  destruct n as [q|b|]; [|split; [done|vm_compute; repeat constructor]..]. apply Hd; [lia|]. apply log2_fuel. lia.
Qed.

(** Object 0 refers to itself, object 1 has an accessor, 2 is an array with a hole
    and a quote, shared twice by 3. *)
Definition toy_heap (o : nat) : object :=
  match o with
  | 0%nat => OPlain false [(js "me", Some (DData (MRef 0)))]
  | 1%nat => OPlain false [(js "get", Some DAccessor)]
  | 2%nat => OArray [Some (DData (MNum (JInt 7))); None; Some (DData (MStr [34; 8364]))]
  | 3%nat => OPlain true [(js "a", Some (DData (MRef 2))); (js "u", Some (DData MUndef)); (js "b", Some (DData (MRef 2)))]
  | _ => OForeign
  end.

Example encode_demo :
  let enc := encodeBoundedEvent toy_number toy_heap in
  enc 100 (MRef 0) = None ∧ enc 100 (MRef 1) = None ∧
  enc 43 (MRef 3) = Some ([123; 34; 97; 34; 58; 91; 55; 44] ++ js "null" ++ [44; 34; 92; 34; 8364; 34; 93; 44; 34; 98; 34; 58; 91; 55; 44] ++ js "null" ++
    [44; 34; 92; 34; 8364; 34; 93; 125]) ∧
  enc 42 (MRef 3) = None ∧ enc 100 (MNew [(js "n", MBig 1)]) = None.
Proof. vm_compute. repeat split; reflexivity. Qed.

Lemma encode_exact_witness :
  encodeBoundedEvent toy_number toy_heap 41 (MRef 2) = Some ([91; 55; 44] ++ js "null" ++ [44; 34; 92; 34; 8364; 34; 93]).
Proof.
  apply (encode_exact toy_number toy_heap 41 toy_number_ok). exists (SArr [SNum (JInt 7); SNull; SStr [34; 8364]]), 4.
  split; [vm_compute; reflexivity|]. split; [lia|]. split; [vm_compute; reflexivity|]. vm_compute. discriminate.
Defined.
