(* ===== verification/CacheEvents.v ===== *)
(** * Cache events and the collector of their metrics
      ([src/src/cache/events.ts], [src/src/observability/collector.ts])

    The collector counts every event of a cache and keeps the encodings of the
    last ones in a ring. Its abstract specification is a log; the ring is a
    functional refinement of it, whatever the events are and whenever it is
    reset. A retained event is its JSON text, which the code parses again to
    detach it from the caller's objects. *)

From S2P Require Import Prelude JsValue EventEncoding.

(** ** Events *)

(** [key], [level] and the like are values of the caller; [option]: a field that
    may be left out. *)
Inductive CacheEvent :=
| Hit (key level : meta)
| Miss (key level : meta)
| Set_ (key levels : meta)
| Delete (key : meta)
| DeletePattern (pattern : jsstring)
| LoaderStart (key : meta)
| LoaderSuccess (key durationMs : meta)
| LoaderError (key durationMs error : meta)
| LoaderTimeout (key timeoutMs : meta)
| InflightReuse (key : meta)
| InflightBypass (key : meta) (reason : jsstring)
| StaleHit (key : meta) (reason : jsstring)
| LockTimeout (key timeoutMs : meta) (onTimeout : jsstring)
| NegativeSet (key ttlMs : meta)
| L2Error (operation : jsstring) (key : meta) (state : jsstring) (error : meta)
| L2Skipped (operation : jsstring) (key : meta) (state : jsstring)
| PromotionBypassed (key : meta) (reason : jsstring) (bytes : option meta)
| PublishError (eventType state : jsstring) (error : meta)
| PublishSkipped (eventType state : jsstring)
| InvalidationReceived (eventId eventType : jsstring)
| InvalidationDuplicate (eventId : jsstring)
| InvalidationUntrusted
| InvalidationTrusted
| InvalidationStale (eventId eventType : jsstring) (key : meta) (generation : option meta) (localGeneration : meta)
| SetReceived (key level : meta)
| SetBroadcastSkipped (key : meta) (reason : jsstring) (bytes maxBytes : option meta)
| SetBroadcast (key : meta).

(** [event.type] *)
Definition event_type (e : CacheEvent) : jsstring :=
  js match e with
  | Hit _ _ => "hit" | Miss _ _ => "miss" | Set_ _ _ => "set" | Delete _ => "delete" | DeletePattern _ => "delete-pattern"
  | LoaderStart _ => "loader:start" | LoaderSuccess _ _ => "loader:success" | LoaderError _ _ _ => "loader:error"
  | LoaderTimeout _ _ => "loader:timeout" | InflightReuse _ => "inflight:reuse" | InflightBypass _ _ => "inflight:bypass"
  | StaleHit _ _ => "stale:hit" | LockTimeout _ _ _ => "lock:timeout" | NegativeSet _ _ => "negative:set"
  | L2Error _ _ _ _ => "l2:error" | L2Skipped _ _ _ => "l2:skipped" | PromotionBypassed _ _ _ => "promotion:bypassed"
  | PublishError _ _ _ => "event-bus:publish-error" | PublishSkipped _ _ => "event-bus:publish-skipped"
  | InvalidationReceived _ _ => "invalidation:received" | InvalidationDuplicate _ => "invalidation:duplicate"
  | InvalidationUntrusted => "invalidation:untrusted" | InvalidationTrusted => "invalidation:trusted"
  | InvalidationStale _ _ _ _ _ => "invalidation:stale" | SetReceived _ _ => "set:received"
  | SetBroadcastSkipped _ _ _ _ => "set:broadcast-skipped" | SetBroadcast _ => "set:broadcast"
  end%string.

(** The properties of an event in the order they are written. *)
Definition given (name : string) (v : option meta) : list (jsstring * meta) := match v with Some v => [(js name, v)] | None => [] end.

Definition event_fields (e : CacheEvent) : list (jsstring * meta) :=
  (js "type", MStr (event_type e)) ::
  match e with
  | Hit key level | Miss key level | SetReceived key level => [(js "key", key); (js "level", level)]
  | Set_ key levels => [(js "key", key); (js "levels", levels)]
  | Delete key | LoaderStart key | InflightReuse key | SetBroadcast key => [(js "key", key)]
  | DeletePattern pattern => [(js "pattern", MStr pattern)]
  | LoaderSuccess key d => [(js "key", key); (js "durationMs", d)]
  | LoaderError key d error => [(js "key", key); (js "durationMs", d); (js "error", error)]
  | LoaderTimeout key t => [(js "key", key); (js "timeoutMs", t)]
  | InflightBypass key reason | StaleHit key reason => [(js "key", key); (js "reason", MStr reason)]
  | LockTimeout key t o => [(js "key", key); (js "timeoutMs", t); (js "onTimeout", MStr o)]
  | NegativeSet key t => [(js "key", key); (js "ttlMs", t)]
  | L2Error op key st error => [(js "operation", MStr op); (js "key", key); (js "state", MStr st); (js "error", error)]
  | L2Skipped op key st => [(js "operation", MStr op); (js "key", key); (js "state", MStr st)]
  | PromotionBypassed key reason bytes => [(js "key", key); (js "reason", MStr reason)] ++ given "bytes" bytes
  | PublishError et st error => [(js "eventType", MStr et); (js "state", MStr st); (js "error", error)]
  | PublishSkipped et st => [(js "eventType", MStr et); (js "state", MStr st)]
  | InvalidationReceived id et => [(js "eventId", MStr id); (js "eventType", MStr et)]
  | InvalidationDuplicate id => [(js "eventId", MStr id)]
  | InvalidationUntrusted | InvalidationTrusted => []
  | InvalidationStale id et key g lg =>
      [(js "eventId", MStr id); (js "eventType", MStr et); (js "key", key)] ++ given "generation" g ++ [(js "localGeneration", lg)]
  | SetBroadcastSkipped key reason bytes mx => [(js "key", key); (js "reason", MStr reason)] ++ given "bytes" bytes ++ given "maxBytes" mx
  end.

(** ** Counters *)

Inductive counter :=
| hitsL1 | hitsL2 | missesL1 | missesL2 | missesNegative | sets | deletes | deletePatterns | loaderStart | loaderSuccess
| loaderError | loaderTimeout | inflightReuse | inflightBypass | staleHit | negativeSet | l2Error | l2Skipped
| eventBusPublishError | eventBusPublishSkipped | invalidationReceived | invalidationDuplicate | invalidationStale
| setReceived | setBroadcast | setBroadcastSkipped.

#[export] Instance counter_eq : EqDecision counter.
Proof. solve_decision. Defined.

Definition counters := counter → Z.
Definition emptyCounters : counters := λ _, 0.

Definition is_text (s : string) (v : meta) : bool := match v with MStr t => bool_decide (t = js s) | _ => false end.

(** The counter of an event. *)
Definition counter_of (e : CacheEvent) : option counter :=
  match e with
  | Hit _ level => Some (if is_text "L1" level then hitsL1 else hitsL2)
  | Miss _ level => Some (if is_text "L1" level then missesL1 else if is_text "L2" level then missesL2 else missesNegative)
  | Set_ _ _ => Some sets
  | Delete _ => Some deletes
  | DeletePattern _ => Some deletePatterns
  | LoaderStart _ => Some loaderStart
  | LoaderSuccess _ _ => Some loaderSuccess
  | LoaderError _ _ _ => Some loaderError
  | LoaderTimeout _ _ => Some loaderTimeout
  | InflightReuse _ => Some inflightReuse
  | InflightBypass _ _ => Some inflightBypass
  | StaleHit _ _ => Some staleHit
  | NegativeSet _ _ => Some negativeSet
  | L2Error _ _ _ _ => Some l2Error
  | L2Skipped _ _ _ => Some l2Skipped
  | PublishError _ _ _ => Some eventBusPublishError
  | PublishSkipped _ _ => Some eventBusPublishSkipped
  | InvalidationReceived _ _ => Some invalidationReceived
  | InvalidationDuplicate _ => Some invalidationDuplicate
  | InvalidationStale _ _ _ _ _ => Some invalidationStale
  | SetReceived _ _ => Some setReceived
  | SetBroadcast _ => Some setBroadcast
  | SetBroadcastSkipped _ _ _ _ => Some setBroadcastSkipped
  | LockTimeout _ _ _ | PromotionBypassed _ _ _ | InvalidationUntrusted | InvalidationTrusted => None
  end.

(** [count] *)
Definition count (e : CacheEvent) (c : counters) : counters :=
  match counter_of e with Some k => λ k', if decide (k' = k) then c k + 1 else c k' | None => c end.

(** ** Capture *)

Definition DEFAULT_OBSERVABILITY_MAX_EVENT_BYTES : Z := 64 * 1024.

(** [value.toString()] of a BigInt. *)
Definition big_text (z : Z) : jsstring := if z <? 0 then 45 :: dec (- z) else dec z.

Definition boundedBigint (value maxBytes : Z) : option jsstring :=
  let digits := Z.min maxBytes DEFAULT_OBSERVABILITY_MAX_EVENT_BYTES in
  let threshold := Z.shiftl 1 (digits * 4) in
  if (threshold <=? value) || (value <=? - threshold) then None else Some (big_text value).

(** [number_text] and [number_string]: [JSON.stringify] and [String] of a number. *)
Section collector.
Context (number_text number_string : jsnum → jsstring).

Section capture.
Context (heap : nat → object) (maxBytes : Z).

(** The [error] of an event, as text. *)
Definition error_text (value : meta) : option jsstring :=
  match value with
  | MNull => Some (js "null")
  | MStr s => Some s
  | MNum n => Some (number_string n)
  | MBool b => Some (js (if b then "true" else "false"))
  | MUndef => Some (js "undefined")
  | MBig z => boundedBigint z maxBytes
  | MNew _ => Some (js "[object Object]")
  | MOther => None
  | MRef o =>
      match heap o with
      | OError None => Some []
      | OError (Some (DData (MStr message))) => Some message
      | OError _ => None
      | OPlain false _ => Some (js "[object Object]")
      | _ => None
      end
  end.

(** [sanitize]; [count]: the fields seen. *)
Fixpoint sanitize_fields (count : Z) (fields : list (jsstring * option descriptor)) : option (list (jsstring * meta)) :=
  match fields with
  | [] => Some []
  | (key, d) :: rest =>
      if bool_decide (key = js "type") then sanitize_fields count rest
      else match d with
      | None => sanitize_fields count rest
      | Some d =>
          if 256 <? count + 1 then None
          else match d with
          | DAccessor => None
          | DData value =>
              v ← (if bool_decide (key = js "error") then MStr <$> error_text value
                   else match value with MBig z => MStr <$> boundedBigint z maxBytes | _ => Some value end);
              data ← sanitize_fields (count + 1) rest;
              Some ((key, v) :: data)
          end
      end
  end.

Definition sanitize (event : CacheEvent) : option (list (jsstring * meta)) :=
  sanitize_fields 0 ((λ p, (p.1, Some (DData p.2))) <$> event_fields event).

Definition truncated : list (jsstring * meta) := [(js "truncated", MBool true)].

Definition recorded_event (seq ts : Z) (event : CacheEvent) (data : list (jsstring * meta)) : meta :=
  MNew [(js "seq", MNum (JInt seq)); (js "ts", MNum (JInt ts)); (js "type", MStr (event_type event)); (js "data", MNew data)].

(** What is retained of an event, if anything. *)
Definition capture (seq ts : Z) (event : CacheEvent) : option jsstring :=
  match encodeBoundedEvent number_text heap maxBytes (recorded_event seq ts event (sanitize event ?? truncated)) with
  | Some encoded => Some encoded
  | None => encodeBoundedEvent number_text heap maxBytes (recorded_event seq ts event truncated)
  end.
End capture.

(** ** The collector *)

Record collector := {
  buffer : list (option jsstring);
  maxEvents : nat;
  maxEventBytes : Z;
  writeIndex : nat;
  buffered : nat;
  seq : Z;
  tally : counters;
  listeners : list nat;
  startedAt : Z }.

(** The constructor. [Math.max] gives NaN for NaN, and an array length is an
    integer below [2^32]. *)
Definition newCollector (maxEvents maxEventBytes : jsnum) (now : Z) : result jsstring collector :=
  let n := if num_le maxEvents (JInt 1) then JInt 1 else maxEvents in
  bytes <~ eventLimit maxEventBytes (js "maxEventBytes");;
  if num_is_integer n && (num_floor n <? 2 ^ 32)
  then Ok {| buffer := replicate (Z.to_nat (num_floor n)) None; maxEvents := Z.to_nat (num_floor n); maxEventBytes := bytes;
             writeIndex := 0; buffered := 0; seq := 0; tally := emptyCounters; listeners := []; startedAt := now |}
  else Throw (js "Invalid array length").

(** [handle]; a listener gets the text, and what it throws is dropped. *)
Definition handle (heap : nat → object) (event : CacheEvent) (now : Z) (c : collector) : collector * list (nat * jsstring) :=
  let c1 := {| buffer := buffer c; maxEvents := maxEvents c; maxEventBytes := maxEventBytes c; writeIndex := writeIndex c;
               buffered := buffered c; seq := seq c + 1; tally := count event (tally c); listeners := listeners c; startedAt := startedAt c |} in
  match capture heap (maxEventBytes c) (seq c1) now event with
  | None => (c1, [])
  | Some recorded =>
      ({| buffer := <[writeIndex c := Some recorded]> (buffer c); maxEvents := maxEvents c; maxEventBytes := maxEventBytes c;
          writeIndex := (writeIndex c + 1) mod maxEvents c;
          buffered := if bool_decide (buffered c < maxEvents c)%nat then S (buffered c) else buffered c;
          seq := seq c1; tally := tally c1; listeners := listeners c; startedAt := startedAt c |},
       (λ l, (l, recorded)) <$> listeners c)
  end.

Definition with_listeners (l : list nat) (c : collector) : collector :=
  {| buffer := buffer c; maxEvents := maxEvents c; maxEventBytes := maxEventBytes c; writeIndex := writeIndex c; buffered := buffered c;
     seq := seq c; tally := tally c; listeners := l; startedAt := startedAt c |}.

(** [subscribe], to a Set, and what it returns. *)
Definition subscribe (listener : nat) (c : collector) : collector :=
  if bool_decide (listener ∈ listeners c) then c else with_listeners (listeners c ++ [listener]) c.

Definition unsubscribe (listener : nat) (c : collector) : collector := with_listeners (filter (λ l, l ≠ listener) (listeners c)) c.

Definition recentEvents (c : collector) : list jsstring :=
  let start := if bool_decide (buffered c < maxEvents c)%nat then 0%nat else writeIndex c in
  omap (λ i, mjoin (buffer c !! ((start + i) mod maxEvents c)%nat)) (List.seq 0 (buffered c)).

Definition reset (c : collector) : collector :=
  {| buffer := replicate (length (buffer c)) None; maxEvents := maxEvents c; maxEventBytes := maxEventBytes c; writeIndex := 0;
     buffered := 0; seq := seq c; tally := emptyCounters; listeners := listeners c; startedAt := startedAt c |}.

(** [overview]; ratios are exact. *)
Record OverviewSnapshot := {
  ov_startedAt : Z; ov_uptimeMs : Z; ov_totalEvents : Z; ov_bufferedEvents : nat; ov_maxEvents : nat;
  ov_hits : Z; ov_misses : Z; ov_hitRatio : Q; ov_originOffloadRatio : Q; ov_counters : counters }.

Definition overview (now : Z) (c : collector) : OverviewSnapshot :=
  let t := tally c in
  let hits := t hitsL1 + t hitsL2 in
  let misses := t missesL1 + t missesL2 + t missesNegative in
  let lookups := hits + misses in
  let inflight := t inflightReuse in
  let totalServiced := hits + inflight + t loaderSuccess in
  {| ov_startedAt := startedAt c; ov_uptimeMs := now - startedAt c; ov_totalEvents := seq c; ov_bufferedEvents := buffered c;
     ov_maxEvents := maxEvents c; ov_hits := hits; ov_misses := misses;
     ov_hitRatio := if lookups =? 0 then 0%Q else (inject_Z hits / inject_Z lookups)%Q;
     ov_originOffloadRatio := if 0 <? totalServiced then (inject_Z (hits + inflight) / inject_Z totalServiced)%Q else 0%Q;
     ov_counters := t |}.

(** ** The specification: a log *)

Inductive command :=
| CHandle (heap : nat → object) (event : CacheEvent) (now : Z)
| CReset
| CSubscribe (listener : nat)
| CUnsubscribe (listener : nat).

Definition collector_step (c : collector) (cmd : command) : collector :=
  match cmd with
  | CHandle heap e now => (handle heap e now c).1
  | CReset => reset c
  | CSubscribe l => subscribe l c
  | CUnsubscribe l => unsubscribe l c
  end.

(** All events so far, those since the last reset, and what was retained of
    them. *)
Record event_log := { total : Z; since_reset : list CacheEvent; retained : list jsstring }.

Definition empty_log : event_log := {| total := 0; since_reset := []; retained := [] |}.

Definition log_step (bytes : Z) (s : event_log) (cmd : command) : event_log :=
  match cmd with
  | CHandle heap e now =>
      {| total := total s + 1; since_reset := since_reset s ++ [e];
         retained := retained s ++ option_list (capture heap bytes (total s + 1) now e) |}
  | CReset => {| total := total s; since_reset := []; retained := [] |}
  | CSubscribe _ | CUnsubscribe _ => s
  end.

(** How many of some events a counter counts. *)
Definition counted (k : counter) (es : list CacheEvent) : Z := Z.of_nat (length (filter (λ e, counter_of e = Some k) es)).

(** The last [n] of a list. *)
Definition last_n {A} (n : nat) (l : list A) : list A := drop (length l - n) l.

(** ** The ring implements the log *)

Record ring_ok (bytes : Z) (s : event_log) (c : collector) : Prop := {
  ri_size : (0 < maxEvents c)%nat;
  ri_length : length (buffer c) = maxEvents c;
  ri_write : writeIndex c = (length (retained s) mod maxEvents c)%nat;
  ri_buffered : buffered c = Nat.min (length (retained s)) (maxEvents c);
  ri_slots j x : retained s !! j = Some x → (length (retained s) <= j + maxEvents c)%nat →
    buffer c !! (j mod maxEvents c)%nat = Some (Some x);
  ri_total : seq c = total s;
  ri_tally k : tally c k = counted k (since_reset s);
  ri_bytes : maxEventBytes c = bytes;
  ri_small : Forall (λ t, utf8_length t <= bytes) (retained s) }.

Lemma counted_snoc k es e : counted k (es ++ [e]) = counted k es + (if decide (counter_of e = Some k) then 1 else 0).
Proof. unfold counted. rewrite filter_app, length_app, filter_cons, filter_nil. case_decide; cbn [length]; lia. Qed.

Lemma count_counted e t es k : (∀ k, t k = counted k es) → count e t k = counted k (es ++ [e]).
Proof.
  intros Ht. rewrite counted_snoc. unfold count. destruct (counter_of e) as [k'|]; [|rewrite Ht; case_decide; [done|lia]].
  destruct (decide (k = k')) as [->|Hk]; rewrite Ht; case_decide; try congruence; lia.
Qed.

Lemma capture_small heap bytes n now e t : capture heap bytes n now e = Some t → utf8_length t <= bytes.
Proof.
  assert (He : ∀ v t, encodeBoundedEvent number_text heap bytes v = Some t → utf8_length t <= bytes).
  { intros v t'. unfold encodeBoundedEvent. destruct (snapshot _ _ _ _ _ _ _) as [[x c]|]; [|done]. cbn [mbind option_bind].
    case_match; [|done]. intros [= <-]. by bools. }
  assert (Hor : ∀ a b : option jsstring, match a with Some e => Some e | None => b end = Some t → a = Some t ∨ b = Some t) by (intros [] ?; auto).
  intros H. apply Hor in H as [H|H]; exact (He _ _ H).
Qed.

#[local] Opaque capture.

Lemma mod_close a b n : (0 < n)%nat → (a < b)%nat → (b <= a + n - 1)%nat → (a mod n ≠ b mod n)%nat.
Proof.
  intros Hn Hab Hb He. pose proof (Nat.div_mod_eq a n). pose proof (Nat.div_mod_eq b n).
  assert (a / n < b / n ∨ a / n = b / n ∨ b / n < a / n)%nat as [Hx|[Hx|Hx]] by lia; nia.
Qed.

(** A retained text takes the slot of the oldest. *)
Lemma ring_push bytes s c t es n cs listeners' :
  ring_ok bytes s c → utf8_length t <= bytes → (∀ k, cs k = counted k es) →
  ring_ok bytes {| total := n; since_reset := es; retained := retained s ++ [t] |}
    {| buffer := <[writeIndex c := Some t]> (buffer c); maxEvents := maxEvents c; maxEventBytes := maxEventBytes c;
       writeIndex := (writeIndex c + 1) mod maxEvents c;
       buffered := if bool_decide (buffered c < maxEvents c)%nat then S (buffered c) else buffered c;
       seq := n; tally := cs; listeners := listeners'; startedAt := startedAt c |}.
Proof.
  intros [] Hb Hk. assert (Hlen : length (retained s ++ [t]) = S (length (retained s))) by (rewrite length_app; simpl; lia).
  split; simpl; rewrite ?Hlen; try done.
  - by rewrite length_insert.
  - rewrite ri_write0, Nat.Div0.add_mod_idemp_l. f_equal. lia.
  - rewrite ri_buffered0. case_bool_decide; lia.
  - intros j x Hj Hle. rewrite ri_write0. destruct (decide (j = length (retained s))) as [->|Hne].
    + rewrite lookup_app_r, Nat.sub_diag in Hj by lia. injection Hj as ->. rewrite list_lookup_insert_eq; [done|].
      rewrite ri_length0. by apply Nat.mod_upper_bound, Nat.neq_0_lt_0.
    + assert (Hlt : (j < length (retained s))%nat) by (apply lookup_lt_Some in Hj; rewrite Hlen in Hj; lia).
      rewrite lookup_app_l in Hj by done. rewrite list_lookup_insert_ne; [apply ri_slots0; [done|lia]|]. intros He. symmetry in He. revert He.
      apply mod_close; lia.
  - apply Forall_app. split; [done|]. by apply Forall_singleton.
Qed.

Lemma ring_silent bytes s c s' c' :
  ring_ok bytes s c → retained s' = retained s → since_reset s' = since_reset s → total s' = total s → buffer c' = buffer c →
  maxEvents c' = maxEvents c → maxEventBytes c' = maxEventBytes c → writeIndex c' = writeIndex c → buffered c' = buffered c → seq c' = seq c →
  tally c' = tally c → ring_ok bytes s' c'.
Proof. intros [] H1 H2 H3 H4 H5 H6 H7 H8 H9 H10. split; rewrite ?H1, ?H2, ?H3, ?H4, ?H5, ?H6, ?H7, ?H8, ?H9, ?H10; done. Qed.

Lemma ring_step bytes s c cmd : ring_ok bytes s c → ring_ok bytes (log_step bytes s cmd) (collector_step c cmd).
Proof.
  intros H. destruct cmd as [heap e now| |l|l]; cbn [log_step collector_step].
  - pose proof H as []. subst bytes. unfold handle. cbn [seq]. rewrite ri_total0.
    pose proof (λ k, count_counted e (tally c) (since_reset s) k ri_tally0) as Hk.
    destruct (capture heap (maxEventBytes c) (total s + 1) now e) as [t|] eqn:Ec; cbn [fst option_list].
    + apply ring_push; [done| |done]. by eapply capture_small.
    + rewrite app_nil_r. split; simpl; done.
  - destruct H. split; simpl; rewrite ?length_replicate, ?Nat.Div0.mod_0_l; done.
  - unfold subscribe. case_bool_decide; [done|]. by eapply ring_silent.
  - by eapply ring_silent.
Qed.

Lemma ring_new maxE maxB now c : newCollector maxE maxB now = Ok c → ring_ok (maxEventBytes c) empty_log c.
Proof.
  unfold newCollector. destruct (eventLimit maxB _) as [b|] eqn:El; [|done]. cbn [rbind]. destruct (_ && _) eqn:Eb; [|done]. intros [= <-].
  apply andb_true_iff in Eb as [Ei Eb]. set (n := if num_le maxE (JInt 1) then JInt 1 else maxE) in *.
  assert (Hn : 0 < num_floor n).
  { unfold n in *. destruct (num_le maxE (JInt 1)) eqn:E; [done|]. destruct maxE as [q|x|]; try done. simpl in *. apply Z.leb_gt in E.
    apply Z.div_str_pos. lia. }
  split; simpl; rewrite ?length_replicate, ?Nat.Div0.mod_0_l; try done. lia.
Qed.

(** ** Reading the ring *)

Lemma step_keeps_size c cmd : maxEvents (collector_step c cmd) = maxEvents c.
Proof.
  destruct cmd; cbn [collector_step]; try done; [unfold handle; by destruct (capture _ _ _ _ _)|unfold subscribe; by case_bool_decide].
Qed.

(** Two runs of the same commands. *)
Lemma foldl_sync {A B E} (R : A → B → Prop) (f : A → E → A) (g : B → E → B) a b es :
  R a b → (∀ a b e, R a b → R (f a e) (g b e)) → R (foldl f a es) (foldl g b es).
Proof. intros H Hs. revert a b H. induction es as [|e es IH]; intros a b H; simpl; [done|]. by apply IH, Hs. Qed.

Lemma omap_seq {A} (f : nat → option A) l a : (∀ i x, l !! i = Some x → f (a + i)%nat = Some x) → omap f (List.seq a (length l)) = l.
Proof.
  revert a. induction l as [|x l IH]; intros a Hf; [done|]. cbn [length List.seq omap list_omap]. pose proof (Hf 0%nat x eq_refl) as H0.
  rewrite Nat.add_0_r in H0. rewrite H0. f_equal. apply IH. intros i y Hi. rewrite Nat.add_succ_comm. by apply Hf.
Qed.

Lemma ring_recent bytes s c : ring_ok bytes s c → recentEvents c = last_n (maxEvents c) (retained s).
Proof.
  intros []. unfold recentEvents, last_n. set (L := length (retained s)) in *. set (m := maxEvents c) in *.
  assert (Hlen : buffered c = length (drop (L - m) (retained s))) by (rewrite length_drop, ri_buffered0; fold L; lia).
  rewrite Hlen. apply omap_seq. intros i x Hi. rewrite <-Hlen. rewrite lookup_drop in Hi. cbn [Nat.add].
  assert (Hslot : buffer c !! ((L - m + i) mod m)%nat = Some (Some x)) by (apply ri_slots0; [done|lia]).
  assert (He : (((if bool_decide (buffered c < m) then 0 else writeIndex c) + i) mod m = (L - m + i) mod m)%nat).
  { case_bool_decide; [replace (L - m)%nat with 0%nat by lia; done|]. rewrite ri_write0, Nat.Div0.add_mod_idemp_l.
    replace (L + i)%nat with (L - m + i + 1 * m)%nat by lia. apply Nat.Div0.mod_add. }
  rewrite He, Hslot. done.
Qed.

Lemma ratio_bounds a b : 0 <= a <= b → 0 < b → (0 <= inject_Z a / inject_Z b <= 1)%Q.
Proof.
  intros Ha Hb. assert (Hq : (0 < inject_Z b)%Q) by (change 0%Q with (inject_Z 0); by rewrite <-Zlt_Qlt). split.
  - apply Qle_shift_div_l; [done|]. rewrite Qmult_0_l. change 0%Q with (inject_Z 0). rewrite <-Zle_Qle. lia.
  - apply Qle_shift_div_r; [done|]. rewrite Qmult_1_l. rewrite <-Zle_Qle. lia.
Qed.

Lemma counted_nonneg k es : 0 <= counted k es.
Proof. unfold counted. lia. Qed.

(** C30: the collector implements its log. After any events, resets and
    subscriptions, what it answers is the last [maxEvents] texts retained since the
    last reset, oldest first, each within the byte limit; every counter is the
    number of its events since the reset; the total is the number of all events;
    and both ratios are within 0 and 1. *)
Theorem collector_refines maxE maxB start c0 cmds now :
  newCollector maxE maxB start = Ok c0 →
  let c := foldl collector_step c0 cmds in
  let s := foldl (log_step (maxEventBytes c0)) empty_log cmds in
  recentEvents c = last_n (maxEvents c0) (retained s) ∧
  Forall (λ t, utf8_length t <= maxEventBytes c0) (recentEvents c) ∧
  (∀ k, ov_counters (overview now c) k = counted k (since_reset s)) ∧
  ov_totalEvents (overview now c) = total s ∧
  ov_bufferedEvents (overview now c) = length (recentEvents c) ∧
  (0 <= ov_hitRatio (overview now c) <= 1)%Q ∧ (0 <= ov_originOffloadRatio (overview now c) <= 1)%Q.
Proof.
  intros Hnew c s.
  assert (H : ring_ok (maxEventBytes c0) s c ∧ maxEvents c = maxEvents c0).
  { unfold c, s. apply (foldl_sync (λ s c, ring_ok (maxEventBytes c0) s c ∧ maxEvents c = maxEvents c0)).
    - split; [by eapply ring_new|done].
    - intros s' c' cmd [H1 H2]. split; [by apply ring_step|]. rewrite <-H2. apply step_keeps_size. }
  destruct H as [H Hm]. pose proof (ring_recent _ _ _ H) as Hr. rewrite Hm in Hr. destruct H.
  assert (Hpos : ∀ k, 0 <= tally c k) by (intros k; rewrite ri_tally0; apply counted_nonneg).
  pose proof (Hpos hitsL1). pose proof (Hpos hitsL2). pose proof (Hpos missesL1). pose proof (Hpos missesL2). pose proof (Hpos missesNegative).
  pose proof (Hpos inflightReuse). pose proof (Hpos loaderSuccess).
  split; [done|]. split; [rewrite Hr; unfold last_n; by apply Forall_drop|]. split; [done|]. split; [done|]. split.
  - simpl. rewrite Hr, ri_buffered0. unfold last_n. rewrite length_drop, Hm. lia.
  - split; simpl; case_match; bools; try done; apply ratio_bounds; lia.
Qed.
End collector.

(** ** Runs *)

Definition toy_events : list command :=
  [CHandle (λ _, OForeign) (Hit (MStr (js "k")) (MStr (js "L1"))) 1; CReset; CHandle (λ _, OForeign) (DeletePattern (js "a*")) 2;
   CHandle (λ _, OForeign) (Miss (MStr (js "k")) (MStr (js "negative"))) 3; CSubscribe 0;
   CHandle (λ _, OForeign) (LoaderError (MStr (js "k")) (MNum (JInt 5)) (MRef 0)) 4].

Definition toy_collector : collector :=
  {| buffer := [None; None]; maxEvents := 2; maxEventBytes := 120; writeIndex := 0; buffered := 0; seq := 0; tally := emptyCounters;
     listeners := []; startedAt := 0 |}.

(** The ring holds two of the three events since the reset; the error of the last
    cannot be shown. *)
Lemma collector_refines_witness :
  newCollector (JInt 2) (JInt 120) 0 = Ok toy_collector ∧
  let c := foldl (collector_step toy_number toy_number) toy_collector toy_events in
  recentEvents c = last_n 2 (retained (foldl (log_step toy_number toy_number 120) empty_log toy_events)) ∧
  length (recentEvents c) = 2%nat ∧ ov_totalEvents (overview 9 c) = 4.
Proof.
  split; [vm_compute; reflexivity|]. cbv zeta.
  destruct (collector_refines toy_number toy_number (JInt 2) (JInt 120) 0 toy_collector toy_events 9 ltac:(vm_compute; reflexivity)) as (H1 & _ & _ & H4 & _).
  split; [exact H1|]. split; [vm_compute; reflexivity|]. rewrite H4. vm_compute. reflexivity.
Defined.

Example collector_demo :
  recentEvents (foldl (collector_step toy_number toy_number) toy_collector toy_events) =
  (map (λ c, if c =? 39 then 34 else c) ∘ js) <$>
    ["{'seq':3,'ts':3,'type':'miss','data':{'key':'k','level':'negative'}}";
     "{'seq':4,'ts':4,'type':'loader:error','data':{'truncated':true}}"]%string.
Proof. vm_compute. reflexivity. Qed.
