(* ===== verification/Prometheus.v ===== *)
(** * The Prometheus exposition ([src/src/observability/prometheus.ts])

    The counters and gauges of a collector as text. Values are written by the
    runtime's number formatting, an argument. *)

From S2P Require Import Prelude JsValue EventEncoding CacheEvents.

(** ** Labels *)

(** [value.replace(/x/g, by)] of one character. *)
Definition replace_all (x : Z) (by_ : jsstring) (s : jsstring) : jsstring := mjoin (map (λ c, if c =? x then by_ else [c]) s).

Definition escapeLabel (value : jsstring) : jsstring := replace_all 10 [92; 110] (replace_all 34 [92; 34] (replace_all 92 [92; 92] value)).

Definition formatLabels (labels : list (jsstring * jsstring)) : jsstring :=
  match labels with
  | [] => []
  | _ => [123] ++ js_join [44] (map (λ p, p.1 ++ [61; 34] ++ escapeLabel p.2 ++ [34]) labels) ++ [125]
  end.

(** What a scraper makes of a label's value. *)
Fixpoint unescapeLabel (s : jsstring) : jsstring :=
  match s with
  | 92 :: c :: s' => (if c =? 110 then 10 else c) :: unescapeLabel s'
  | c :: s' => c :: unescapeLabel s'
  | [] => []
  end.

(** ** Metrics *)

Record family := { f_name : jsstring; f_help : jsstring; f_type : jsstring; f_series : list (list (jsstring * jsstring) * jsnum) }.

Record PrometheusGauges := { l1Size : option Z; l2Size : option Z }.

(** [Math.round], to six decimals for ratios. *)
Definition round_half (q : Q) : Z := (2 * Qnum q + Zpos (Qden q)) / (2 * Zpos (Qden q)).
Definition round6 (q : Q) : Q := (inject_Z (round_half (q * inject_Z 1000000)) / inject_Z 1000000)%Q.

Section render.
Context (number_string : jsnum → jsstring).

Definition counter_family (name help : string) (series : list (list (string * string) * Z)) : family :=
  {| f_name := js name; f_help := js help; f_type := js "counter";
     f_series := map (λ s, (map (λ p, (js p.1, js p.2)) s.1, JInt s.2)) series |}.

Definition gauge_family (name help : string) (value : jsnum) : family :=
  {| f_name := js name; f_help := js help; f_type := js "gauge"; f_series := [([], value)] |}.

Definition counter_families (o : OverviewSnapshot) : list family :=
  let c := ov_counters o in
  [counter_family "hits_total" "Cache hits by level" [([("level", "l1")], c hitsL1); ([("level", "l2")], c hitsL2)];
   counter_family "misses_total" "Cache misses by level"
     [([("level", "l1")], c missesL1); ([("level", "l2")], c missesL2); ([("level", "negative")], c missesNegative)];
   counter_family "writes_total" "Set operations" [([], c sets)];
   counter_family "deletes_total" "Delete operations by kind" [([("kind", "key")], c deletes); ([("kind", "pattern")], c deletePatterns)];
   counter_family "loader_total" "Loader outcomes"
     [([("result", "success")], c loaderSuccess); ([("result", "error")], c loaderError); ([("result", "timeout")], c loaderTimeout)];
   counter_family "inflight_total" "Inflight dedupe outcomes" [([("kind", "reuse")], c inflightReuse); ([("kind", "bypass")], c inflightBypass)];
   counter_family "stale_hits_total" "Stale values served (fail-safe)" [([], c staleHit)];
   counter_family "negative_cached_total" "Negative entries stored" [([], c negativeSet)];
   counter_family "l2_total" "L2 resilience events" [([("kind", "error")], c l2Error); ([("kind", "skipped")], c l2Skipped)];
   counter_family "eventbus_total" "Event-bus outcomes"
     [([("kind", "publish_error")], c eventBusPublishError); ([("kind", "publish_skipped")], c eventBusPublishSkipped);
      ([("kind", "received")], c invalidationReceived); ([("kind", "duplicate")], c invalidationDuplicate); ([("kind", "stale")], c invalidationStale)];
   counter_family "set_broadcast_total" "Cross-instance L1 priming"
     [([("kind", "sent")], c setBroadcast); ([("kind", "skipped")], c setBroadcastSkipped); ([("kind", "received")], c setReceived)];
   counter_family "events_total" "Total cache events observed" [([], ov_totalEvents o)]]%string.

Definition gauge_families (o : OverviewSnapshot) (gauges : PrometheusGauges) : list family :=
  [gauge_family "hit_ratio" "Hit ratio in [0,1]" (JNum (round6 (ov_hitRatio o)));
    gauge_family "uptime_seconds" "Collector uptime in seconds" (JInt (round_half (inject_Z (ov_uptimeMs o) / inject_Z 1000)%Q));
    gauge_family "events_buffered" "Events currently held in the in-memory ring buffer" (JInt (Z.of_nat (ov_bufferedEvents o)))]%string
  ++ match l1Size gauges with Some n => [gauge_family "l1_entries"%string "Approximate L1 entry count"%string (JInt n)] | None => [] end
  ++ match l2Size gauges with Some n => [gauge_family "l2_entries"%string "Approximate L2 entry count"%string (JInt n)] | None => [] end.

Definition family_lines (prefix : jsstring) (f : family) : list jsstring :=
  [js "# HELP " ++ prefix ++ js "_" ++ f_name f ++ js " " ++ f_help f; js "# TYPE " ++ prefix ++ js "_" ++ f_name f ++ js " " ++ f_type f]
  ++ map (λ s, prefix ++ js "_" ++ f_name f ++ formatLabels s.1 ++ js " " ++ number_string s.2) (f_series f).

Definition renderPrometheus (o : OverviewSnapshot) (prefix : jsstring) (gauges : PrometheusGauges) : jsstring :=
  js_join [10] (mjoin (map (family_lines prefix) (counter_families o ++ gauge_families o gauges))) ++ [10].
End render.

(** ** What a scrape shows *)

(** One character, escaped. *)
Definition escape_char (c : Z) : jsstring := if c =? 10 then [92; 110] else if (c =? 34) || (c =? 92) then [92; c] else [c].

Lemma replace_app x b s t : replace_all x b (s ++ t) = replace_all x b s ++ replace_all x b t.
Proof. unfold replace_all. by rewrite map_app, join_app. Qed.

Lemma escapeLabel_chars s : escapeLabel s = mjoin (map escape_char s).
Proof.
  unfold escapeLabel. induction s as [|c s IH]; [done|]. change (c :: s) with ([c] ++ s). rewrite !replace_app, IH, map_app, join_app. f_equal.
  unfold replace_all, escape_char. simpl.
  destruct (Z.eqb_spec c 92) as [->|H1]; [done|]. simpl. destruct (Z.eqb_spec c 34) as [->|H2]; [done|]. simpl.
  destruct (Z.eqb_spec c 10) as [->|H3]; [done|]. done.
Qed.

Lemma unescape_plain c s : c ≠ 92 → unescapeLabel (c :: s) = c :: unescapeLabel s.
Proof. intros H. destruct s; cbn [unescapeLabel]; repeat case_match; done. Qed.

Lemma unescape_char c s : unescapeLabel (escape_char c ++ s) = c :: unescapeLabel s.
Proof.
  unfold escape_char. destruct (Z.eqb_spec c 10) as [->|H1]; [done|]. destruct (Z.eqb_spec c 34) as [->|H2]; [done|].
  destruct (Z.eqb_spec c 92) as [->|H3]; [done|]. by apply unescape_plain.
Qed.

Lemma unescape_escape s : unescapeLabel (escapeLabel s) = s.
Proof. rewrite escapeLabel_chars. induction s as [|c s IH]; [done|]. simpl. by rewrite unescape_char, IH. Qed.

(** Counters in the order they are shown; [loaderStart] is not. *)
Definition shown : list counter :=
  [hitsL1; hitsL2; missesL1; missesL2; missesNegative; sets; deletes; deletePatterns; loaderSuccess; loaderError; loaderTimeout;
   inflightReuse; inflightBypass; staleHit; negativeSet; l2Error; l2Skipped; eventBusPublishError; eventBusPublishSkipped;
   invalidationReceived; invalidationDuplicate; invalidationStale; setBroadcast; setBroadcastSkipped; setReceived].

(** The name and labels of every series. *)
Definition series_ids (fs : list family) : list (jsstring * list (jsstring * jsstring)) :=
  mjoin (map (λ f, map (λ s, (f_name f, s.1)) (f_series f)) fs).

(** a scrape is complete and unambiguous. Each counter but [loaderStart] has
    exactly one series, which has its value, and the last series of the counters
    is the total; no two series share a name and labels, whatever the values and
    gauges; and a label's value is read back as it was. *)
Theorem scrape_complete o gauges :
  (mjoin (map (λ f, map snd (f_series f)) (counter_families o))) = (map (λ k, JInt (ov_counters o k)) shown) ++ [JInt (ov_totalEvents o)] ∧
  NoDup shown ∧ (∀ k, k ∈ shown ∨ k = loaderStart) ∧ ¬ (loaderStart ∈ shown) ∧
  NoDup (series_ids (counter_families o ++ gauge_families o gauges)) ∧
  ∀ s, unescapeLabel (escapeLabel s) = s.
Proof.
  split; [reflexivity|]. split; [apply (bool_decide_unpack _); by vm_compute|].
  split; [intros k; destruct k; first [by right|left; apply (bool_decide_unpack _); by vm_compute]|].
  split; [apply (bool_decide_unpack _); by vm_compute|]. split; [|apply unescape_escape].
  assert (Hids : series_ids (counter_families o ++ gauge_families o gauges) `sublist_of`
    series_ids (counter_families o ++ gauge_families o {| l1Size := Some 0; l2Size := Some 0 |})).
  { unfold series_ids. rewrite !map_app, !join_app. apply sublist_app; [done|]. destruct gauges as [[a|] [b|]]; cbn; repeat constructor. }
  eapply sublist_NoDup; [|exact Hids]. apply (bool_decide_unpack _). vm_compute. exact I.
Qed.

Example label_demo : formatLabels [(js "a", [34; 10; 92])] = js "{a=" ++ [34; 92; 34; 92; 110; 92; 92; 34; 125].
Proof. vm_compute. reflexivity. Qed.
