(* ===== verification/ObsOptions.v ===== *)
(** * Observability options ([src/src/observability/types.ts])

    [resolveObservabilityOptions] merges explicit options, environment variables
    and defaults, in that order of precedence. The environment is a function. *)

From S2P Require Import Prelude JsValue Pattern EventEncoding.

Definition DEFAULT_OBSERVABILITY_ROUTE : jsstring := js "/__lazylayers".
Definition ALIAS_OBSERVABILITY_ROUTE : jsstring := js "/observelazyily".
Definition DEFAULT_OBSERVABILITY_HOST : jsstring := js "127.0.0.1".
Definition DEFAULT_OBSERVABILITY_PORT : jsnum := JInt 7077.
Definition DEFAULT_OBSERVABILITY_MAX_EVENTS : jsnum := JInt 1000.
Definition DEFAULT_OBSERVABILITY_MAX_VALUE_BYTES : jsnum := JInt (256 * 1024).
Definition DEFAULT_OBSERVABILITY_MAX_STREAM_BYTES : jsnum := JInt (64 * 1024).
Definition DEFAULT_OBSERVABILITY_MAX_STREAM_CLIENTS : jsnum := JInt 64.
Definition DEFAULT_OBSERVABILITY_USERNAME : jsstring := js "lazydev".
Definition DEFAULT_OBSERVABILITY_PASSWORD : jsstring := js "lazydev".

Record ObservabilityServerOptions := { so_host : option jsstring; so_port : option jsnum; so_autoStart : option bool }.
Record ObservabilityAuthOptions := {
  ao_username : option jsstring; ao_password : option jsstring; ao_token : option jsstring; ao_disabled : option bool }.
Record ObservabilityPrometheusOptions := { po_enabled : option bool; po_prefix : option jsstring; po_public : option bool }.

(** [server]: [None] when not given, [Some None] for [false]. [prometheus]: a
    boolean or an object. *)
Record ObservabilityOptions := {
  o_enabled : option bool;
  o_route : option jsstring;
  o_maxEvents : option jsnum;
  o_maxValueBytes : option jsnum;
  o_maxStreamClients : option jsnum;
  o_maxStreamEventBytes : option jsnum;
  o_server : option (option ObservabilityServerOptions);
  o_auth : option ObservabilityAuthOptions;
  o_prometheus : option (bool + ObservabilityPrometheusOptions);
  o_quiet : option bool }.

Definition no_options : ObservabilityOptions :=
  {| o_enabled := None; o_route := None; o_maxEvents := None; o_maxValueBytes := None; o_maxStreamClients := None;
     o_maxStreamEventBytes := None; o_server := None; o_auth := None; o_prometheus := None; o_quiet := None |}.

Record resolved_server := { sv_host : jsstring; sv_port : jsnum; sv_autoStart : bool }.
Record resolved_auth := { au_username : jsstring; au_password : jsstring; au_token : option jsstring; au_disabled : bool }.
Record resolved_prometheus := { pr_enabled : bool; pr_prefix : jsstring; pr_public : bool }.

Record ResolvedObservabilityOptions := {
  r_enabled : bool;
  r_route : jsstring;
  r_maxEvents : jsnum;
  r_maxValueBytes : jsnum;
  r_maxStreamClients : Z;
  r_maxStreamEventBytes : Z;
  r_server : option resolved_server;
  r_auth : resolved_auth;
  r_prometheus : resolved_prometheus;
  r_quiet : bool }.

(** ** Reading text *)

Definition lower (c : Z) : Z := if (65 <=? c) && (c <=? 90) then c + 32 else c.

Fixpoint leading_digits (s : jsstring) : jsstring :=
  match s with c :: s' => if is_digit c then c :: leading_digits s' else [] | [] => [] end.

(** [Number.parseInt(s, 10)] *)
Definition parse_int (s : jsstring) : jsnum :=
  let t := trim_start s in
  let '(sign, u) := match t with 45 :: u => (-1, u) | 43 :: u => (1, u) | _ => (1, t) end in
  match leading_digits u with [] => JNaN | ds => JInt (sign * parse_dec ds) end.

(** [normalizeRoute] *)
Definition normalizeRoute (route : jsstring) : jsstring :=
  let t := js_trim route in
  let t := if starts_with t [47] then t else 47 :: t in
  if (1 <? Z.of_nat (length t)) && ends_with t [47] then take (length t - 1) t else t.

(** [positiveLimit] *)
Definition positiveLimit (value : jsnum) (name : jsstring) : result jsstring Z := eventLimit value name.

(** ** Resolution *)

Section resolve.
Context (env : string → option jsstring).

Definition envString (name : string) : option jsstring := match env name with Some [] | None => None | v => v end.

(** [value === '1' || value.toLowerCase() === 'true']; other capital letters
    never lower to these. *)
Definition envBool (name : string) : option bool :=
  (λ v, bool_decide (v = js "1") || bool_decide (lower <$> v = js "true")) <$> envString name.

Definition envInt (name : string) : option jsnum :=
  v ← envString name; if num_is_finite (parse_int v) then Some (parse_int v) else None.

(** [input]: a boolean, options, or nothing. *)
Definition resolveObservabilityOptions (input : option (bool + ObservabilityOptions)) : result jsstring ResolvedObservabilityOptions :=
  let options := match input with
    | Some (inl b) => {| o_enabled := Some b; o_route := None; o_maxEvents := None; o_maxValueBytes := None; o_maxStreamClients := None;
        o_maxStreamEventBytes := None; o_server := None; o_auth := None; o_prometheus := None; o_quiet := None |}
    | Some (inr o) => o
    | None => no_options
    end in
  let enabled := o_enabled options ?? envBool "LAZY_OBS_ENABLED" ?? false in
  let route := o_route options ?? envString "LAZY_OBS_ROUTE" ?? DEFAULT_OBSERVABILITY_ROUTE in
  let maxEvents := o_maxEvents options ?? envInt "LAZY_OBS_MAX_EVENTS" ?? DEFAULT_OBSERVABILITY_MAX_EVENTS in
  let maxValueBytes := o_maxValueBytes options ?? envInt "LAZY_OBS_MAX_VALUE_BYTES" ?? DEFAULT_OBSERVABILITY_MAX_VALUE_BYTES in
  maxStreamClients <~ positiveLimit (o_maxStreamClients options ?? envInt "LAZY_OBS_MAX_STREAM_CLIENTS" ?? DEFAULT_OBSERVABILITY_MAX_STREAM_CLIENTS)
    (js "maxStreamClients");;
  maxStreamEventBytes <~ positiveLimit (o_maxStreamEventBytes options ?? envInt "LAZY_OBS_MAX_STREAM_EVENT_BYTES" ?? DEFAULT_OBSERVABILITY_MAX_STREAM_BYTES)
    (js "maxStreamEventBytes");;
  let serverDisabled := match o_server options with Some None => true | _ => false end || bool_decide (envBool "LAZY_OBS_NO_SERVER" = Some true) in
  let so := match o_server options with Some (Some so) => so | _ => {| so_host := None; so_port := None; so_autoStart := None |} end in
  let server := if serverDisabled then None else Some
    {| sv_host := so_host so ?? envString "LAZY_OBS_HOST" ?? DEFAULT_OBSERVABILITY_HOST;
       sv_port := so_port so ?? envInt "LAZY_OBS_PORT" ?? DEFAULT_OBSERVABILITY_PORT;
       sv_autoStart := so_autoStart so ?? true |} in
  let auth :=
    {| au_username := (o_auth options ≫= ao_username) ?? envString "LAZY_OBS_USER" ?? DEFAULT_OBSERVABILITY_USERNAME;
       au_password := (o_auth options ≫= ao_password) ?? envString "LAZY_OBS_PASSWORD" ?? DEFAULT_OBSERVABILITY_PASSWORD;
       au_token := match o_auth options ≫= ao_token with Some t => Some t | None => envString "LAZY_OBS_TOKEN" end;
       au_disabled := (o_auth options ≫= ao_disabled) ?? envBool "LAZY_OBS_NO_AUTH" ?? false |} in
  let po := match o_prometheus options with
    | Some (inl b) => {| po_enabled := Some b; po_prefix := None; po_public := None |}
    | Some (inr po) => po
    | None => {| po_enabled := None; po_prefix := None; po_public := None |}
    end in
  let prometheus :=
    {| pr_enabled := po_enabled po ?? envBool "LAZY_OBS_PROMETHEUS" ?? false;
       pr_prefix := po_prefix po ?? envString "LAZY_OBS_PROMETHEUS_PREFIX" ?? js "lazycache";
       pr_public := po_public po ?? envBool "LAZY_OBS_PROMETHEUS_PUBLIC" ?? false |} in
  Ok {| r_enabled := enabled; r_route := normalizeRoute route; r_maxEvents := maxEvents; r_maxValueBytes := maxValueBytes;
        r_maxStreamClients := maxStreamClients; r_maxStreamEventBytes := maxStreamEventBytes; r_server := server; r_auth := auth;
        r_prometheus := prometheus; r_quiet := o_quiet options ?? envBool "LAZY_OBS_QUIET" ?? false |}.
End resolve.
