(* ===== verification/ObsHandler.v ===== *)
(** * The dashboard's requests ([src/src/observability/handler.ts])

    What a request is answered, and the live feeds: streams over sockets that
    block and close, in any order, with their clients counted. Parsing of URLs
    and of base64 are arguments; pages and snapshots are named, not rendered. *)

From S2P Require Import Prelude JsValue Pattern Utf8 EventEncoding ObsOptions.

(** ** Requests *)

Record url := { pathname : jsstring; param : string → option jsstring }.
Record request := { target : jsstring; method : jsstring; authorization : option jsstring }.

Record StoreInspectOptions := { i_cursor : option jsstring; i_match : option jsstring; i_limit : option Z; i_includeValues : bool }.

(** [Passed]: [false], the request is not ours. [Threw]: the handler throws before
    it answers. *)
Inductive answer :=
| Passed
| Threw
| MethodNotAllowed
| Unauthorized
| Dashboard
| Overview
| MetricsReset
| InspectL1 (o : StoreInspectOptions)
| InspectL2 (o : StoreInspectOptions)
| Config
| Feed
| FeedsFull
| PrometheusDisabled
| Metrics
| NotFound.

Section requests.
Context (parse_url : jsstring → option url) (base64_text : jsstring → jsstring).
Context (options : ResolvedObservabilityOptions).

(** [safeEqual] compares the UTF-8 bytes. *)
Definition safeEqual (a b : jsstring) : bool := bool_decide (utf8_encode a = utf8_encode b).

(** [s.slice(n)] after [s.startsWith(p)]. *)
Definition after_prefix (p : jsstring) (s : option jsstring) : option jsstring :=
  s ≫= λ s, if starts_with s p then Some (drop (length p) s) else None.

(** The text before the first colon and the text after it. *)
Fixpoint split_colon (s : jsstring) : option (jsstring * jsstring) :=
  match s with
  | [] => None
  | 58 :: s' => Some ([], s')
  | c :: s' => '(a, b) ← split_colon s'; Some (c :: a, b)
  end.

Definition isAuthorized (header : option jsstring) (u : url) : bool :=
  let auth := r_auth options in
  if au_disabled auth then true
  else
    let by_token := match au_token auth with
      | Some token =>
          negb (bool_decide (token = [])) &&
          (match param u "token" with Some t => negb (bool_decide (t = [])) && safeEqual t token | None => false end
          || match after_prefix (js "Bearer ") header with Some t => safeEqual t token | None => false end)
      | None => false
      end in
    if by_token then true
    else match after_prefix (js "Basic ") header with
    | Some encoded =>
        match split_colon (base64_text encoded) with
        | Some (user, pass) => safeEqual user (au_username auth) && safeEqual pass (au_password auth)
        | None => false
        end
    | None => false
    end.

Definition inspectOptions (u : url) : StoreInspectOptions :=
  let limit := parse_int (param u "limit" ?? []) in
  {| i_cursor := param u "cursor"; i_match := param u "match";
     i_limit := if num_is_finite limit then Some (num_floor limit) else None;
     i_includeValues := negb (bool_decide (param u "values" = Some (js "false"))) |}.

Definition base : jsstring := r_route options.
Definition metricsPath : jsstring := base ++ js "/metrics".

Definition is_alias (path : jsstring) : bool :=
  bool_decide (base = js "/__lazylayers") && (bool_decide (path = js "/observelazyily") || starts_with path (js "/observelazyily/")).

Definition underRoute (path : jsstring) : bool := bool_decide (path = base) || starts_with path (base ++ [47]) || is_alias path.

Definition canonicalPath (path : jsstring) : jsstring :=
  if is_alias path then base ++ drop (length (js "/observelazyily")) path else path.

(** [route]; [full]: as many live feeds as allowed. *)
Definition route (full : bool) (u : url) (path : jsstring) : answer :=
  if bool_decide (path = base) || bool_decide (path = base ++ [47]) then Dashboard
  else if bool_decide (path = base ++ js "/api/overview") then Overview
  else if bool_decide (path = base ++ js "/api/reset") then MetricsReset
  else if bool_decide (path = base ++ js "/api/l1") then InspectL1 (inspectOptions u)
  else if bool_decide (path = base ++ js "/api/l2") then InspectL2 (inspectOptions u)
  else if bool_decide (path = base ++ js "/api/config") then Config
  else if bool_decide (path = base ++ js "/stream") then (if full then FeedsFull else Feed)
  else if bool_decide (path = metricsPath) then (if pr_enabled (r_prometheus options) then Metrics else PrometheusDisabled)
  else NotFound.

Definition public_metrics (path : jsstring) : bool :=
  pr_enabled (r_prometheus options) && pr_public (r_prometheus options) && bool_decide (path = metricsPath).

Definition handle_request (full : bool) (r : request) : answer :=
  match parse_url (target r) with
  | None => Threw
  | Some u =>
      let path := pathname u in
      if negb (underRoute path) then Passed
      else if negb (bool_decide (method r = js "GET") || bool_decide (method r = js "HEAD") || bool_decide (method r = js "POST"))
      then MethodNotAllowed
      else if negb (public_metrics (canonicalPath path)) && negb (isAuthorized (authorization r) u) then Unauthorized
      else route full u (canonicalPath path)
  end.
#[local] Opaque js.

(** *** What is shown to whom *)

(** What counts as credentials: none needed, the configured token as the parameter
    [token] or as a bearer token, or the configured user and password, compared as
    UTF-8. A user name ends at the first colon. *)
Definition same_text (a b : jsstring) : Prop := utf8_encode a = utf8_encode b.

Inductive presents (header : option jsstring) (u : url) : Prop :=
| auth_disabled : au_disabled (r_auth options) = true → presents header u
| token_in_query token t :
    au_token (r_auth options) = Some token → token ≠ [] → param u "token" = Some t → t ≠ [] → same_text t token →
    presents header u
| token_in_header token t :
    au_token (r_auth options) = Some token → token ≠ [] → header = Some (js "Bearer " ++ t) → same_text t token →
    presents header u
| user_and_password encoded user pass :
    header = Some (js "Basic " ++ encoded) → base64_text encoded = user ++ 58 :: pass → 58 ∉ user →
    same_text user (au_username (r_auth options)) → same_text pass (au_password (r_auth options)) →
    presents header u.

Lemma safeEqual_spec a b : safeEqual a b = true ↔ same_text a b.
Proof. apply bool_decide_eq_true. Qed.

Lemma after_prefix_spec p h t : after_prefix p h = Some t ↔ h = Some (p ++ t).
Proof.
  unfold after_prefix. destruct h as [s|]; simpl; [|by split]. destruct (starts_with s p) eqn:E.
  - apply starts_with_spec in E as [x ->]. rewrite drop_app_length. split; intros [= H]; [by rewrite H|]. by apply app_inv_head in H as ->.
  - split; [done|]. intros [= ->]. exfalso. assert (H : starts_with (p ++ t) p = true) by (apply starts_with_spec; by exists t). congruence.
Qed.

Lemma split_colon_spec s a b : split_colon s = Some (a, b) ↔ s = a ++ 58 :: b ∧ 58 ∉ a.
Proof.
  revert a b. induction s as [|c s IH]; intros a b; [split; [done|]; intros [H _]; by destruct a|].
  assert (Hne : c ≠ 58 → split_colon (c :: s) = '(a, b) ← split_colon s; Some (c :: a, b)).
  { intros Hc. cbn [split_colon]. destruct c as [|q|q]; try done. do 6 (destruct q as [q|q|]; try done). }
  destruct (decide (c = 58)) as [->|Hc].
  - cbn. split; [intros [= <- <-]; split; [done|]; by intros ?%elem_of_nil|]. intros [H Hn]. destruct a as [|d a]; [by injection H as ->|].
    injection H as <- _. destruct Hn. constructor.
  - rewrite Hne by done. split.
    + destruct (split_colon s) as [[a' b']|] eqn:E; simpl; [|done]. intros [= <- <-]. destruct (proj1 (IH a' b') eq_refl) as [-> Hn].
      split; [done|]. by intros [?|?]%elem_of_cons.
    + intros [H Hn]. destruct a as [|d a]; [by injection H as ->|]. injection H as -> ->.
      rewrite (proj2 (IH a b)); [done|]. split; [done|]. intros ?. apply Hn. by constructor.
Qed.

Lemma isAuthorized_presents header u : isAuthorized header u = true ↔ presents header u.
Proof.
  unfold isAuthorized. split.
  - destruct (au_disabled _) eqn:Ed; [intros _; by constructor|].
    destruct (match au_token (r_auth options) with Some _ => _ | None => _ end) eqn:Et.
    + intros _. destruct (au_token _) as [token|] eqn:Ek; [|done]. apply andb_true_iff in Et as [Hne Et].
      apply negb_true_iff, bool_decide_eq_false in Hne. apply orb_true_iff in Et as [Et|Et].
      * destruct (param u "token") as [t|] eqn:Ep; [|done]. apply andb_true_iff in Et as [Ht Et%safeEqual_spec].
        apply negb_true_iff, bool_decide_eq_false in Ht. by eapply token_in_query.
      * destruct (after_prefix _ header) as [t|] eqn:Ep; [|done]. apply safeEqual_spec in Et. apply after_prefix_spec in Ep.
        by eapply token_in_header.
    + clear Et. destruct (after_prefix _ header) as [enc|] eqn:Ep; [|discriminate].
      apply after_prefix_spec in Ep.
      destruct (split_colon _) as [[user pass]|] eqn:Es; [|discriminate]. apply split_colon_spec in Es as [Es Hn].
      intros [Hu%safeEqual_spec Hp%safeEqual_spec]%andb_true_iff. by eapply user_and_password.
  - intros H. destruct (au_disabled _) eqn:Ed; [done|].
    destruct H as [?|token t Hk Hne Hp Ht He|token t Hk Hne Hh He|enc user pass Hh He Hn Hu Hp]; [congruence|..].
    + rewrite Hk, Hp, (bool_decide_false _ Hne), (bool_decide_false _ Ht). apply safeEqual_spec in He. by rewrite He.
    + apply after_prefix_spec in Hh. apply safeEqual_spec in He. rewrite Hk, Hh, (bool_decide_false _ Hne), He. cbn [negb andb].
      by rewrite orb_true_r.
    + case_match; [done|]. apply after_prefix_spec in Hh. rewrite Hh, (proj2 (split_colon_spec _ user pass)) by done.
      apply safeEqual_spec in Hu, Hp. by rewrite Hu, Hp.
Qed.

(** Where a path is under the dashboard: the route or, for the default route, its
    alias, followed by nothing or a slash. *)
Definition at_route (path p : jsstring) : Prop :=
  (p = [] ∨ ∃ q, p = 47 :: q) ∧
  (path = base ++ p ∨ (base = js "/__lazylayers" ∧ path = js "/observelazyily" ++ p)).

(** The pages, by what follows the route. *)
Inductive page (full : bool) (u : url) : jsstring → answer → Prop :=
| page_home : page full u [] Dashboard
| page_slash : page full u (js "/") Dashboard
| page_overview : page full u (js "/api/overview") Overview
| page_reset : page full u (js "/api/reset") MetricsReset
| page_l1 : page full u (js "/api/l1") (InspectL1 (inspectOptions u))
| page_l2 : page full u (js "/api/l2") (InspectL2 (inspectOptions u))
| page_config : page full u (js "/api/config") Config
| page_feed : page full u (js "/stream") (if full then FeedsFull else Feed)
| page_metrics : page full u (js "/metrics") (if pr_enabled (r_prometheus options) then Metrics else PrometheusDisabled)
| page_unknown p :
    p ∉ js <$> [""; "/"; "/api/overview"; "/api/reset"; "/api/l1"; "/api/l2"; "/api/config"; "/stream"; "/metrics"]%string →
    page full u p NotFound.

Lemma base_eq p q : bool_decide (base ++ p = base ++ q) = bool_decide (p = q).
Proof. apply bool_decide_ext. split; [apply app_inv_head|by intros ->]. Qed.

Lemma base_nil p : bool_decide (base ++ p = base) = bool_decide (p = []).
Proof. apply bool_decide_ext. split; [|intros ->; apply app_nil_r]. intros H. apply (app_inv_head base). by rewrite app_nil_r. Qed.

Lemma route_page full u p : page full u p (route full u (base ++ p)).
Proof.
  unfold route, metricsPath. rewrite base_nil, !base_eq. change [47] with (js "/").
  repeat case_bool_decide; cbn [orb]; subst; try constructor.
  rewrite !fmap_cons, fmap_nil, !not_elem_of_cons. split_and!; try done. apply not_elem_of_nil.
Qed.

Lemma page_unique full u p a b : page full u p a → page full u p b → a = b.
Proof.
  intros Ha Hb. destruct Ha; inversion Hb; try done;
    try (match goal with H : _ = js _ |- _ => vm_compute in H; discriminate H | H : js _ = _ |- _ => vm_compute in H; discriminate H end);
    exfalso; match goal with H : _ ∉ _ |- _ => apply H end; rewrite !fmap_cons, !elem_of_cons; subst; tauto.
Qed.

Lemma is_alias_spec path :
  is_alias path = true ↔ base = js "/__lazylayers" ∧ ∃ p, (p = [] ∨ ∃ q, p = 47 :: q) ∧ path = js "/observelazyily" ++ p.
Proof.
  unfold is_alias. rewrite andb_true_iff, orb_true_iff, !bool_decide_eq_true, starts_with_spec.
  change (js "/observelazyily/") with (js "/observelazyily" ++ [47]). split.
  - intros [Hb H]. split; [done|]. destruct H as [->|[q ->]]; [exists []; rewrite app_nil_r; by split; [left|]|].
    exists (47 :: q). split; [right; by exists q|]. by rewrite <-app_assoc.
  - intros (Hb & p & Hp & ->). split; [done|]. destruct Hp as [->|[q ->]]; [left; by rewrite app_nil_r|right].
    exists q. by rewrite <-app_assoc.
Qed.

Lemma at_route_path path p : at_route path p → underRoute path = true ∧ canonicalPath path = base ++ p.
Proof.
  intros [Hp [->|[Hb ->]]].
  - assert (Ha : is_alias (base ++ p) = false).
    { apply not_true_iff_false. rewrite is_alias_spec. intros (Hb & q & _ & E). rewrite Hb in E. vm_compute in E. discriminate E. }
    unfold underRoute, canonicalPath. rewrite Ha. split; [|done]. destruct Hp as [->|[q ->]].
    + rewrite app_nil_r. by rewrite bool_decide_true.
    + rewrite (proj2 (starts_with_spec _ _)); [by rewrite orb_true_r|]. exists q. by rewrite <-app_assoc.
  - assert (Ha : is_alias (js "/observelazyily" ++ p) = true) by (apply is_alias_spec; split; [done|]; by exists p).
    unfold underRoute, canonicalPath. rewrite Ha, orb_true_r. split; [done|]. by rewrite drop_app_length.
Qed.

Lemma underRoute_at path : underRoute path = true → ∃ p, at_route path p.
Proof.
  unfold underRoute. rewrite !orb_true_iff, bool_decide_eq_true, starts_with_spec, is_alias_spec. intros [[->|[q ->]]|(Hb & p & Hp & ->)].
  - exists []. rewrite <-(app_nil_r base) at 1. split; [by left|by left].
  - exists (47 :: q). rewrite <-app_assoc. split; [right; by exists q|by left].
  - exists p. split; [done|by right].
Qed.

(** C31: who sees what of the dashboard. A request outside the route is passed
    on. One under it is answered by exactly these rules: a method other than GET,
    HEAD and POST is refused; a page is given to whoever presents credentials
    ([presents]), and the metrics to everybody while they are enabled and public;
    everybody else is unauthorized. The page is the one of [page] for what follows
    the route, or its alias, in the path. *)
Theorem dashboard_guarded full r u :
  parse_url (target r) = Some u →
  ((∀ p, ¬ at_route (pathname u) p) → handle_request full r = Passed) ∧
  (∀ p a, at_route (pathname u) p →
     let allowed := method r ∈ [js "GET"; js "HEAD"; js "POST"] in
     let public := p = js "/metrics" ∧ pr_enabled (r_prometheus options) = true ∧ pr_public (r_prometheus options) = true in
     (handle_request full r = a ↔
        (¬ allowed ∧ a = MethodNotAllowed) ∨
        (allowed ∧ (presents (authorization r) u ∨ public) ∧ page full u p a) ∨
        (allowed ∧ ¬ presents (authorization r) u ∧ ¬ public ∧ a = Unauthorized))).
Proof.
  intros Hu. unfold handle_request. rewrite Hu. split.
  - intros Hno. destruct (underRoute (pathname u)) eqn:E; [|done]. by destruct (underRoute_at _ E) as [p ?%Hno].
  - intros p a Hat. destruct (at_route_path _ _ Hat) as [-> ->]. cbv zeta. cbn [negb].
    assert (Hm : (bool_decide (method r = js "GET") || bool_decide (method r = js "HEAD") || bool_decide (method r = js "POST")) = true ↔
                 method r ∈ [js "GET"; js "HEAD"; js "POST"]).
    { rewrite !orb_true_iff, !bool_decide_eq_true, !elem_of_cons, elem_of_nil. tauto. }
    assert (Hpub : public_metrics (base ++ p) = true ↔
      p = js "/metrics" ∧ pr_enabled (r_prometheus options) = true ∧ pr_public (r_prometheus options) = true).
    { unfold public_metrics, metricsPath. rewrite base_eq, !andb_true_iff, bool_decide_eq_true. tauto. }
    pose proof (isAuthorized_presents (authorization r) u) as Ha. pose proof (route_page full u p) as Hr.
    destruct (_ || _); cbn [negb]; [|split; [intros <-; left; split; [intros ?%Hm; done|done]|intros [[_ ->]|[[?%Hm _]|[?%Hm _]]]; done]].
    assert (Hallowed : method r ∈ [js "GET"; js "HEAD"; js "POST"]) by by apply Hm.
    destruct (negb (public_metrics _) && negb (isAuthorized _ _)) eqn:Ed.
    + apply andb_true_iff in Ed as [E1%negb_true_iff E2%negb_true_iff]. rewrite <-Ha, <-Hpub, E1, E2. split; [intros <-; by right; right|].
      intros [[? _]|[(_ & [?|?] & _)|(_ & _ & _ & ->)]]; done.
    + assert (Hs : presents (authorization r) u ∨ p = js "/metrics" ∧ pr_enabled (r_prometheus options) = true ∧ pr_public (r_prometheus options) = true).
      { rewrite <-Ha, <-Hpub. apply andb_false_iff in Ed as [E%negb_false_iff|E%negb_false_iff]; auto. }
      split; [intros <-; right; left; done|]. intros [[? _]|[(_ & _ & Hp)|(_ & ? & ? & _)]]; [done|by eapply page_unique|tauto].
Qed.
End requests.

(** ** Live feeds *)

Section feeds.
Context (maxStreamClients maxStreamEventBytes : Z).

(** [needDrain], [usable]: what [res] says of its buffer, and that it is neither
    ended, destroyed nor unwritable. [written]: the sizes of the frames it took.
    [releases]: calls of [release]. *)
Record stream := {
  closed : bool;
  blocked : bool;
  needDrain : bool;
  usable : bool;
  subscribed : bool;
  heartbeat : bool;
  written : list Z;
  releases : nat }.

(** The answer of one [res.write]. *)
Inductive write_answer := WTaken | WFull | WThrows.

Definition cleanup (s : stream) : stream :=
  if closed s then s
  else {| closed := true; blocked := blocked s; needDrain := needDrain s; usable := usable s; subscribed := false; heartbeat := false;
          written := written s; releases := S (releases s) |}.

Definition set_blocked (b : bool) (s : stream) : stream :=
  {| closed := closed s; blocked := b; needDrain := needDrain s; usable := usable s; subscribed := subscribed s; heartbeat := heartbeat s;
     written := written s; releases := releases s |}.

Definition canWrite (s : stream) : stream * bool :=
  if closed s then (s, false)
  else if negb (usable s) then (cleanup s, false)
  else let s1 := if needDrain s then set_blocked true s else s in (s1, negb (blocked s1)).

(** [res.write] takes a frame. *)
Definition takes (size : Z) (full : bool) (s : stream) : stream :=
  {| closed := closed s; blocked := blocked s || full || needDrain s; needDrain := needDrain s || full; usable := usable s; subscribed := subscribed s;
     heartbeat := heartbeat s; written := written s ++ [size]; releases := releases s |}.

(** [write] of a frame of some size. *)
Definition write (size : Z) (a : write_answer) (s : stream) : stream :=
  let '(s1, can) := canWrite s in
  if negb can || (maxStreamEventBytes <? size) then s1
  else match a with WThrows => cleanup s1 | WTaken => takes size false s1 | WFull => takes size true s1 end.

(** [writeEvent]: the size of the event's JSON, if it is encoded within the
    bytes a frame leaves for it. *)
Definition writeEvent (json : option Z) (a : write_answer) (s : stream) : stream :=
  let '(s1, can) := canWrite s in
  if negb can then s1 else match json with Some n => write (n + 8) a s1 | None => s1 end.

(** [streamEvents] up to its replay; [head]: [writeHead] succeeds. The replay
    stops at the first event that cannot be written. *)
Fixpoint replay (events : list (option Z * write_answer)) (s : stream) : stream :=
  match events with
  | [] => s
  | (json, a) :: rest => let '(s1, can) := canWrite s in if can then replay rest (writeEvent json a s1) else s1
  end.

Definition open_stream (head : bool) (retry : write_answer) (events : list (option Z * write_answer)) (drain ok : bool) : stream :=
  let s := {| closed := false; blocked := drain; needDrain := drain; usable := ok; subscribed := false; heartbeat := false; written := []; releases := 0 |} in
  if negb head then cleanup s
  else
    let s1 := write 13 retry s in
    let '(s2, can) := canWrite s1 in
    let s3 := if can then replay events s2 else s2 in
    if closed s3 then s3
    else {| closed := closed s3; blocked := blocked s3; needDrain := needDrain s3; usable := usable s3; subscribed := true; heartbeat := true;
            written := written s3; releases := releases s3 |}.

Definition onDrain (s : stream) : stream := if closed s then s else set_blocked (needDrain s) s.

(** The socket's buffer empties; it becomes unusable. *)
Definition drained (s : stream) : stream :=
  {| closed := closed s; blocked := blocked s; needDrain := false; usable := usable s; subscribed := subscribed s; heartbeat := heartbeat s;
     written := written s; releases := releases s |}.
Definition broken (s : stream) : stream :=
  {| closed := closed s; blocked := blocked s; needDrain := needDrain s; usable := false; subscribed := subscribed s; heartbeat := heartbeat s;
     written := written s; releases := releases s |}.

(** The handler: its feeds, and how many it counts. *)
Record feeds := { streams : list stream; activeStreams : Z; refused : nat }.

Inductive feed_event :=
| FOpen (head : bool) (retry : write_answer) (events : list (option Z * write_answer)) (drain ok : bool)
| FEvent (i : nat) (json : option Z) (a : write_answer)
| FPing (i : nat) (a : write_answer)
| FDrain (i : nat)
| FBreak (i : nat)
| FClose (i : nat).

(** A stream of the list changes; what it releases is uncounted. *)
Definition on_stream (i : nat) (f : stream → stream) (w : feeds) : feeds :=
  match streams w !! i with
  | Some s => {| streams := <[i := f s]> (streams w); activeStreams := activeStreams w - Z.of_nat (releases (f s) - releases s); refused := refused w |}
  | None => w
  end.

Definition feed_step (w : feeds) (e : feed_event) : feeds :=
  match e with
  | FOpen head retry events drain ok =>
      if maxStreamClients <=? activeStreams w then {| streams := streams w; activeStreams := activeStreams w; refused := S (refused w) |}
      else let s := open_stream head retry events drain ok in
        {| streams := streams w ++ [s]; activeStreams := activeStreams w + 1 - Z.of_nat (releases s); refused := refused w |}
  | FEvent i json a => on_stream i (λ s, if subscribed s then writeEvent json a s else s) w
  | FPing i a => on_stream i (λ s, if heartbeat s then write 8 a s else s) w
  | FDrain i => on_stream i (λ s, onDrain (drained s)) w
  | FBreak i => on_stream i broken w
  | FClose i => on_stream i cleanup w
  end.

Definition no_feeds : feeds := {| streams := []; activeStreams := 0; refused := 0 |}.

(** *** Streams *)

(** Released exactly once, when closed; then neither subscribed nor ticking; what
    was written fits. *)
Record stream_ok (s : stream) : Prop := {
  so_released : releases s = if closed s then 1%nat else 0%nat;
  so_silent : closed s = true → subscribed s = false ∧ heartbeat s = false;
  so_frames : Forall (λ n, n <= maxStreamEventBytes) (written s) }.

Lemma cleanup_ok s : stream_ok s → stream_ok (cleanup s).
Proof. intros H. unfold cleanup. destruct (closed s) eqn:E; [done|]. destruct H as [H1 H2 H3]. rewrite E in H1. by split; simpl; rewrite ?H1. Qed.

Lemma set_blocked_ok b s : stream_ok s → stream_ok (set_blocked b s).
Proof. by intros []. Qed.

Lemma canWrite_ok s : stream_ok s → stream_ok (canWrite s).1.
Proof.
  intros H. unfold canWrite. destruct (closed s); [done|]. destruct (usable s); cbn [negb]; [|by apply cleanup_ok].
  destruct (needDrain s); [by apply set_blocked_ok|done].
Qed.

(** A frame may be written only to such a stream. *)
Lemma canWrite_true s : (canWrite s).2 = true → closed s = false ∧ usable s = true ∧ needDrain s = false ∧ blocked s = false ∧ (canWrite s).1 = s.
Proof.
  unfold canWrite. destruct (closed s); [done|]. destruct (usable s); [|done]. cbn [negb]. destruct (needDrain s) eqn:E; cbn [snd fst]; [done|].
  destruct (blocked s); done.
Qed.

Lemma takes_ok size full s : size <= maxStreamEventBytes → stream_ok s → stream_ok (takes size full s).
Proof. intros Hs []. split; simpl; try done. apply Forall_app. split; [done|]. by apply Forall_singleton. Qed.

Lemma write_ok size a s : stream_ok s → stream_ok (write size a s).
Proof.
  intros H. pose proof (canWrite_ok s H) as Hc. unfold write. destruct (canWrite s) as [s1 can]. cbn [fst] in Hc.
  destruct (negb can || _) eqn:E; [done|]. apply orb_false_iff in E as [_ E]. bools. destruct a; [by apply takes_ok..|by apply cleanup_ok].
Qed.

Lemma writeEvent_ok json a s : stream_ok s → stream_ok (writeEvent json a s).
Proof.
  intros H. pose proof (canWrite_ok s H) as Hc. unfold writeEvent. destruct (canWrite s) as [s1 can]. cbn [fst] in Hc.
  destruct (negb can); [done|]. destruct json; [by apply write_ok|done].
Qed.

Lemma replay_ok events s : stream_ok s → stream_ok (replay events s).
Proof.
  revert s. induction events as [|[json a] events IH]; intros s H; cbn [replay]; [done|]. pose proof (canWrite_ok s H) as Hc.
  destruct (canWrite s) as [s1 can]. destruct can; [by apply IH, writeEvent_ok|done].
Qed.

Lemma open_stream_ok head retry events drain ok : stream_ok (open_stream head retry events drain ok).
Proof.
  unfold open_stream. set (s := Build_stream _ _ _ _ _ _ _ _). assert (H : stream_ok s) by (split; simpl; [done..|by apply Forall_nil]).
  destruct (negb head); [by apply cleanup_ok|]. pose proof (canWrite_ok _ (write_ok 13 retry s H)) as Hc.
  destruct (canWrite (write 13 retry s)) as [s2 can]. cbn [fst] in Hc.
  assert (H3 : stream_ok (if can then replay events s2 else s2)) by (destruct can; [by apply replay_ok|done]).
  destruct (closed (if can then replay events s2 else s2)) eqn:E; [done|]. destruct H3 as [R1 R2 R3]. rewrite E in R1. by split; simpl; rewrite ?E.
Qed.

Record feeds_ok (w : feeds) : Prop := {
  fe_streams : Forall stream_ok (streams w);
  fe_active : activeStreams w = Z.of_nat (length (filter (λ s, closed s = false) (streams w)));
  fe_bound : activeStreams w <= Z.max 0 maxStreamClients }.

Lemma open_count l s : length (filter (λ s, closed s = false) (l ++ [s])) = (length (filter (λ s, closed s = false) l) + if closed s then 0 else 1)%nat.
Proof. rewrite filter_app, length_app, filter_cons, filter_nil. case_decide as H; [by rewrite H|]. destruct (closed s); [done|by destruct H]. Qed.

Lemma open_count_insert l i s s' : l !! i = Some s →
  (length (filter (λ s, closed s = false) (<[i := s']> l)) + (if closed s then 0 else 1) =
   length (filter (λ s, closed s = false) l) + if closed s' then 0 else 1)%nat.
Proof.
  intros Hi. rewrite insert_take_drop by (by eapply lookup_lt_Some). rewrite <-(take_drop_middle l i s Hi) at 3.
  rewrite !filter_app, !length_app, !filter_cons. repeat case_decide; destruct (closed s), (closed s'); simpl; try done; lia.
Qed.

Lemma on_stream_ok i f w :
  feeds_ok w → (∀ s, stream_ok s → stream_ok (f s) ∧ (closed s = true → closed (f s) = true)) → feeds_ok (on_stream i f w).
Proof.
  intros [Hs Ha Hb] Hf. unfold on_stream. destruct (streams w !! i) as [s|] eqn:Ei; [|done].
  pose proof (proj1 (Forall_lookup _ _) Hs i s Ei) as Ho. destruct (Hf s Ho) as [Ho' Hc]. pose proof (open_count_insert _ _ _ (f s) Ei) as Hn.
  rewrite (so_released _ Ho), (so_released _ Ho') in *.
  assert (Hle : (length (filter (λ s, closed s = false) (<[i:=f s]> (streams w))) <= length (filter (λ s, closed s = false) (streams w)))%nat)
    by (destruct (closed s) eqn:E; [rewrite (Hc eq_refl) in Hn; lia|destruct (closed (f s)); lia]).
  split; simpl.
  - by apply Forall_insert.
  - destruct (closed s) eqn:E; [rewrite (Hc eq_refl) in *; lia|destruct (closed (f s)); lia].
  - lia.
Qed.

(** A closed stream does nothing. *)
Lemma write_closed size a s : closed s = true → write size a s = s.
Proof. intros H. unfold write, canWrite. by rewrite H. Qed.

Lemma writeEvent_closed json a s : closed s = true → writeEvent json a s = s.
Proof. intros H. unfold writeEvent, canWrite. by rewrite H. Qed.

(** What a step does to a feed. *)
Definition feed_op (e : feed_event) (s : stream) : stream :=
  match e with
  | FOpen _ _ _ _ _ => s
  | FEvent _ json a => if subscribed s then writeEvent json a s else s
  | FPing _ a => if heartbeat s then write 8 a s else s
  | FDrain _ => onDrain (drained s)
  | FBreak _ => broken s
  | FClose _ => cleanup s
  end.

Lemma feed_op_ok e s : stream_ok s → stream_ok (feed_op e s) ∧ (closed s = true → closed (feed_op e s) = true).
Proof.
  intros H. destruct e as [h r evs d o|i json a|i a|i|i|i]; cbn [feed_op].
  - done.
  - destruct (subscribed s); [|done]. split; [by apply writeEvent_ok|]. intros Hc. by rewrite writeEvent_closed.
  - destruct (heartbeat s); [|done]. split; [by apply write_ok|]. intros Hc. by rewrite write_closed.
  - unfold onDrain. destruct (closed (drained s)) eqn:E; destruct H; (split; [by split|by intros ?]).
  - destruct H. split; [by split|done].
  - split; [by apply cleanup_ok|]. intros Hc. unfold cleanup. by rewrite Hc.
Qed.

Lemma feed_step_op w e i : match e with FOpen _ _ _ _ _ => False | FEvent j _ _ | FPing j _ | FDrain j | FBreak j | FClose j => j = i end →
  feed_step w e = on_stream i (feed_op e) w.
Proof. by destruct e; try done; intros ->. Qed.

Lemma feed_step_ok w e : feeds_ok w → feeds_ok (feed_step w e).
Proof.
  intros H. destruct e as [h r evs d o|i json a|i a|i|i|i];
    try (rewrite (feed_step_op _ _ i) by done; apply on_stream_ok; [done|]; intros s; apply feed_op_ok).
  cbn [feed_step]. destruct H as [Hs Ha Hb]. destruct (Z.leb_spec maxStreamClients (activeStreams w)); [by split|].
  pose proof (open_stream_ok h r evs d o) as Ho. split; simpl.
  - apply Forall_app. split; [done|]. by apply Forall_singleton.
  - rewrite open_count, (so_released _ Ho). destruct (closed (open_stream h r evs d o)); lia.
  - rewrite (so_released _ Ho). destruct (closed (open_stream h r evs d o)); lia.
Qed.

Lemma on_stream_lookup i j f w s s' : streams w !! i = Some s → streams (on_stream j f w) !! i = Some s' → s' = s ∨ s' = f s.
Proof.
  unfold on_stream. intros Hi Hs. destruct (streams w !! j) as [t|] eqn:Ej; [|left; congruence]. simpl in Hs.
  destruct (decide (i = j)) as [->|Hne].
  - rewrite list_lookup_insert_eq in Hs by (by eapply lookup_lt_Some). right. congruence.
  - rewrite list_lookup_insert_ne in Hs by done. left. congruence.
Qed.

(** A frame that is written. *)
Lemma write_frame size a s : written (write size a s) = written s ∨
  (closed s = false ∧ blocked s = false ∧ needDrain s = false ∧ ∃ n, written (write size a s) = written s ++ [n]).
Proof.
  unfold write. pose proof (canWrite_true s) as Ht. destruct (canWrite s) as [s1 can] eqn:E. cbn [fst snd] in Ht. destruct can.
  - destruct (Ht eq_refl) as (H1 & H2 & H3 & H4 & ->). cbn [negb orb]. case_match; [by left|]. destruct a; simpl; [right|right|left]; eauto 6.
    unfold cleanup. by rewrite H1.
  - left. unfold canWrite, cleanup in E. repeat case_match; injection E as <-; done.
Qed.

Lemma op_frame e s : written (feed_op e s) = written s ∨
  (closed s = false ∧ blocked s = false ∧ needDrain s = false ∧ ∃ n, written (feed_op e s) = written s ++ [n]).
Proof.
  destruct e as [h r evs d o|i json a|i a|i|i|i]; cbn [feed_op]; try by left.
  - destruct (subscribed s); [|by left]. unfold writeEvent. pose proof (canWrite_true s) as Ht. destruct (canWrite s) as [s1 can] eqn:E.
    cbn [fst snd] in Ht. destruct can; cbn [negb].
    + destruct (Ht eq_refl) as (H1 & H2 & H3 & H4 & ->). destruct json; [apply write_frame|by left].
    + left. unfold canWrite, cleanup in E. repeat case_match; injection E as <-; done.
  - destruct (heartbeat s); [apply write_frame|by left].
  - left. unfold onDrain. by destruct (closed (drained s)).
  - left. unfold cleanup. by destruct (closed s).
Qed.

(** C32: live feeds are bounded and give back what they take. In every order of
    connections, events, pings, drains and failures the counter is the number of
    open feeds and never exceeds the limit; a feed releases its place exactly once,
    when it closes, and is then neither subscribed nor ticking; every frame is
    within the byte limit, and one is written only to an open feed that waits for
    no drain. *)
Theorem feeds_bounded w :
  reachable feed_step no_feeds w →
  activeStreams w = Z.of_nat (length (filter (λ s, closed s = false) (streams w))) ∧ activeStreams w <= Z.max 0 maxStreamClients ∧
  (∀ i s, streams w !! i = Some s →
     releases s = (if closed s then 1%nat else 0%nat) ∧ (closed s = true → subscribed s = false ∧ heartbeat s = false) ∧
     Forall (λ n, n <= maxStreamEventBytes) (written s) ∧
     ∀ e s', streams (feed_step w e) !! i = Some s' →
       written s' = written s ∨ (closed s = false ∧ blocked s = false ∧ needDrain s = false ∧ ∃ n, written s' = written s ++ [n])).
Proof.
  intros Hr. assert (H : feeds_ok w).
  { revert w Hr. apply reachable_invariant; [split; simpl; [by apply Forall_nil|done|lia]|apply feed_step_ok]. }
  destruct H as [Hs Ha Hb]. split; [done|]. split; [done|]. intros i s Hi. destruct (proj1 (Forall_lookup _ _) Hs i s Hi) as [H1 H2 H3].
  split; [done|]. split; [done|]. split; [done|]. intros e s' Hs'.
  assert (Hop : s' = s ∨ s' = feed_op e s).
  { destruct e as [h r evs d o|j json a|j a|j|j|j]; try (rewrite (feed_step_op _ _ j) in Hs' by done; exact (on_stream_lookup _ _ _ _ _ _ Hi Hs')).
    left. cbn [feed_step] in Hs'. case_match; simpl in Hs'; [congruence|]. rewrite lookup_app_l in Hs' by (by eapply lookup_lt_Some). congruence. }
  destruct Hop as [->| ->]; [by left|apply op_frame].
Qed.
End feeds.

(** ** Runs *)

Definition toy_options (route : jsstring) : ResolvedObservabilityOptions :=
  {| r_enabled := true; r_route := normalizeRoute route; r_maxEvents := JInt 10; r_maxValueBytes := JInt 10; r_maxStreamClients := 1;
     r_maxStreamEventBytes := 100; r_server := None;
     r_auth := {| au_username := js "u"; au_password := js "p"; au_token := Some (js "secret"); au_disabled := false |};
     r_prometheus := {| pr_enabled := true; pr_prefix := js "lazycache"; pr_public := true |}; r_quiet := true |}.

(** Every text is a path; the token is the parameter. *)
Definition toy_parse (token : option jsstring) (s : jsstring) : option url :=
  Some {| pathname := s; param := λ name, if bool_decide (name = "token"%string) then token else None |}.

Definition toy_request (path : string) : request := {| target := js path; method := js "GET"; authorization := None |}.

Lemma dashboard_guarded_witness :
  let o := toy_options (js "/__lazylayers") in
  handle_request (toy_parse None) id o false (toy_request "/__lazylayers/metrics") = Metrics ∧
  handle_request (toy_parse None) id o false (toy_request "/__lazylayers/api/reset") = Unauthorized ∧
  handle_request (toy_parse (Some (js "secret"))) id o false (toy_request "/observelazyily/api/reset") = MetricsReset.
Proof.
  cbv zeta. split; [vm_compute; reflexivity|]. split; [vm_compute; reflexivity|].
  destruct (dashboard_guarded (toy_parse (Some (js "secret"))) id (toy_options (js "/__lazylayers")) false (toy_request "/observelazyily/api/reset")
    {| pathname := js "/observelazyily/api/reset"; param := λ name, if bool_decide (name = "token"%string) then Some (js "secret") else None |}
    ltac:(reflexivity)) as (_ & H).
  apply (H (js "/api/reset")).
  - split; [right; exists (js "api/reset"); vm_compute; reflexivity|]. right. split; vm_compute; reflexivity.
  - right. left. split; [constructor|]. split; [left; by apply (token_in_query _ _ _ _ (js "secret") (js "secret"))|constructor].
Defined.

(** With the route ["/"] every page but the first is passed on: the prefix looked
    for is two slashes. *)
Lemma root_route_unreachable :
  let o := toy_options (js "/") in
  normalizeRoute (js "/") = js "/" ∧
  handle_request (toy_parse (Some (js "secret"))) id o false (toy_request "/") = Dashboard ∧
  handle_request (toy_parse (Some (js "secret"))) id o false (toy_request "/api/overview") = Passed ∧
  handle_request (toy_parse (Some (js "secret"))) id o false (toy_request "/metrics") = Passed.
Proof. vm_compute. repeat split; reflexivity. Qed.

(** A target no URL can be made of makes the handler throw before it looks at the
    route or the credentials. *)
Lemma bad_target_throws base64_text o full r : handle_request (λ _, None) base64_text o full r = Threw.
Proof. done. Qed.

Lemma feeds_bounded_witness :
  let w := run_events (feed_step 1 20) no_feeds
    [FOpen true WTaken [(Some 5, WFull); (Some 4, WTaken)] false true; FOpen true WTaken [] false true; FEvent 0 (Some 3) WTaken; FDrain 0;
     FEvent 0 (Some 3) WTaken; FEvent 0 (Some 30) WTaken; FClose 0; FClose 0; FOpen true WThrows [] false true] in
  written <$> streams w = [[13; 13; 11]; []] ∧ refused w = 1%nat ∧
  activeStreams w = Z.of_nat (length (filter (λ s, closed s = false) (streams w))) ∧ activeStreams w <= Z.max 0 1.
Proof.
  cbv zeta. split; [vm_compute; reflexivity|]. split; [vm_compute; reflexivity|].
  destruct (feeds_bounded 1 20 (run_events (feed_step 1 20) no_feeds
    [FOpen true WTaken [(Some 5, WFull); (Some 4, WTaken)] false true; FOpen true WTaken [] false true; FEvent 0 (Some 3) WTaken; FDrain 0;
     FEvent 0 (Some 3) WTaken; FEvent 0 (Some 30) WTaken; FClose 0; FClose 0; FOpen true WThrows [] false true])) as (H1 & H2 & _);
    [apply reachable_run|]. split; [exact H1|exact H2].
Defined.
