(* ===== verification/KvRest.v ===== *)
(** * The KV client over HTTP ([CloudflareKVRestNamespace] of
      [src/src/cache/cloudflareKvRest.ts])

    A namespace reached through the REST API. The HTTP client is an argument;
    a request is the path it appends to the namespace's URL, and the path that is
    sent is what the URL Standard makes of it. *)

From S2P Require Import Prelude JsValue Utf8 Uri WirePolicy MessagePackScan Pattern PortableSerializer KvWire KvNamespace CloudflareEvents.

(** ** Construction *)

Record CloudflareKVRestOptions := {
  k_accountId : option jsstring; k_namespaceId : option jsstring; k_apiToken : option jsstring; k_timeoutMs : option jsnum }.

(** [accountSegment] and [namespaceSegment]: the encoded parts of [baseUrl]. *)
Record rest_namespace := { accountSegment : jsstring; namespaceSegment : jsstring; restToken : jsstring; restTimeoutMs : Z }.

Definition newCloudflareKVRestNamespace (o : CloudflareKVRestOptions) : result kv_fault rest_namespace :=
  let required name := FError ("Cloudflare KV " ++ name ++ " is required") in
  if blank (k_accountId o) then Throw (required "accountId"%string)
  else if blank (k_namespaceId o) then Throw (required "namespaceId"%string)
  else if blank (k_apiToken o) then Throw (required "apiToken"%string)
  else
    let t := k_timeoutMs o ?? JInt 2000 in
    if negb (num_is_safe_integer t) || num_le t (JInt 0) then Throw (FRangeError "Cloudflare KV REST timeoutMs must be a positive safe integer")
    else match encodeURIComponent (k_accountId o ?? []), encodeURIComponent (k_namespaceId o ?? []) with
    | Some a, Some n => Ok {| accountSegment := a; namespaceSegment := n; restToken := k_apiToken o ?? []; restTimeoutMs := num_floor t |}
    | _, _ => Throw (FError "URI malformed")
    end.

(** ** Requests *)

Inductive http_method := GET | PUT | DELETE.

(** [segments] after the namespace's own, then the query. *)
Record rest_request := { verb : http_method; segments : list jsstring; query : list (jsstring * jsstring); payload : option bytes }.
Record rest_response := { r_ok : bool; r_status : Z; r_body : bytes; r_json : result kv_fault jsval }.

Definition base_segments (n : rest_namespace) : list jsstring :=
  [js "client"; js "v4"; js "accounts"; accountSegment n; js "storage"; js "kv"; js "namespaces"; namespaceSegment n].

Section rest.
Context {N : Type} (http : rest_request → M N rest_response).

Definition encoded (key : jsstring) : M N jsstring :=
  match encodeURIComponent key with Some e => mret e | None => mfail (FError "URI malformed") end.

Definition assertOk (r : rest_response) : M N unit := if r_ok r then mret tt else mfail (FError "Cloudflare KV REST returned an HTTP error").

Definition succeeded (v : jsval) : bool := record v && match prop "success" v with VBool true => true | _ => false end.

Definition assertApiSuccess (r : rest_response) : M N unit :=
  _ <- assertOk r ;;
  data <- mlift (r_json r) ;;
  if succeeded data then mret tt else mfail (FError "Cloudflare KV REST reported an unsuccessful operation").

Definition get_request (e : jsstring) : rest_request := {| verb := GET; segments := [js "values"; e]; query := []; payload := None |}.
Definition put_request (e : jsstring) (value : bytes) (ttl : Z) : rest_request :=
  {| verb := PUT; segments := [js "values"; e]; query := [(js "expiration_ttl", dec ttl)]; payload := Some value |}.
Definition delete_request (e : jsstring) : rest_request := {| verb := DELETE; segments := [js "values"; e]; query := []; payload := None |}.

(** [get] of an ['arrayBuffer']. *)
Definition get (key : jsstring) : M N (option bytes) :=
  e <- encoded key ;;
  response <- http (get_request e) ;;
  if r_status response =? 404 then mret None
  else _ <- assertOk response ;; mret (Some (r_body response)).

Definition put (key : jsstring) (value : bytes) (expirationTtl : Z) : M N unit :=
  e <- encoded key ;;
  response <- http (put_request e value expirationTtl) ;;
  assertApiSuccess response.

Definition delete (key : jsstring) : M N unit :=
  e <- encoded key ;;
  response <- http (delete_request e) ;;
  if r_status response =? 404 then mret tt else assertApiSuccess response.

Definition list_limit (limit : option Z) : Z := Z.max 10 (Z.min 1000 (limit ?? 1000)).

Definition list_request (prefix cursor : option jsstring) (limit : option Z) : rest_request :=
  {| verb := GET; segments := [js "keys"];
     query := match prefix with Some p => [(js "prefix", p)] | None => [] end ++ match cursor with Some c => [(js "cursor", c)] | None => [] end
              ++ [(js "limit", dec (list_limit limit))];
     payload := None |}.

(** [data.result] when every item has a text [name]. *)
Definition listed_names (data : jsval) : option (list jsstring) :=
  if negb (succeeded data) then None
  else match prop "result" data with
  | VArr items => mapM (λ item, if record item then match prop "name" item with VStr s => Some s | _ => None end else None) items
  | _ => None
  end.

Definition list_page (prefix cursor : option jsstring) (limit : option Z) : M N kv_page :=
  response <- http (list_request prefix cursor limit) ;;
  _ <- assertOk response ;;
  data <- mlift (r_json response) ;;
  match listed_names data with
  | None => mfail (FError "Cloudflare KV REST returned an invalid key listing")
  | Some names =>
      let info := prop "result_info" data in
      let cursor := match (if record info then prop "cursor" info else VUndef) with VStr c => if bool_decide (c = []) then None else Some c | _ => None end in
      mret {| names := names; list_complete := bool_decide (cursor = None); next_cursor := cursor |}
  end.

(** *** What answers mean *)

(** A read answers a value only when the request was answered with one, and
    nothing only for a 404; a write or deletion succeeds only when the service
    says so, a deletion also for a 404. *)
Lemma rest_answers key e n :
  encodeURIComponent key = Some e →
  (∀ v n', get key n = (Ok v, n') → ∃ r, http (get_request e) n = (Ok r, n') ∧
     match v with None => r_status r = 404 | Some b => r_status r ≠ 404 ∧ r_ok r = true ∧ b = r_body r end) ∧
  (∀ b ttl u n', put key b ttl n = (Ok u, n') → ∃ r data, http (put_request e b ttl) n = (Ok r, n') ∧ r_ok r = true ∧ r_json r = Ok data ∧ succeeded data = true) ∧
  (∀ u n', delete key n = (Ok u, n') → ∃ r, http (delete_request e) n = (Ok r, n') ∧
     (r_status r = 404 ∨ ∃ data, r_ok r = true ∧ r_json r = Ok data ∧ succeeded data = true)).
Proof.
  intros He. assert (Hs : ∀ r n u n', assertApiSuccess r n = (Ok u, n') → n' = n ∧ ∃ data, r_ok r = true ∧ r_json r = Ok data ∧ succeeded data = true).
  { intros r m u m'. unfold assertApiSuccess, assertOk, mbind, mlift. destruct (r_ok r); [|done]. cbn. destruct (r_json r) as [data|]; [|done].
    destruct (succeeded data) eqn:E; [|done]. intros [= _ <-]. eauto 6. }
  assert (Henc : ∀ A (k : jsstring → M N A) m, mbind (encoded key) k m = k e m) by (intros; unfold mbind, encoded; by rewrite He).
  split_and!.
  - intros v n'. unfold get. rewrite Henc. intros (r & n1 & H1 & H2)%mbind_ok. destruct (Z.eqb_spec (r_status r) 404).
    + injection H2 as <- <-. eauto.
    + unfold mbind, assertOk in H2. destruct (r_ok r) eqn:Eo; [|done]. injection H2 as <- <-. exists r. eauto.
  - intros b ttl u n'. unfold put. rewrite Henc. intros (r & n1 & H1 & H2)%mbind_ok. apply Hs in H2 as [-> (data & H2)]. by exists r, data.
  - intros u n'. unfold delete. rewrite Henc. intros (r & n1 & H1 & H2)%mbind_ok. destruct (Z.eqb_spec (r_status r) 404).
    + injection H2 as _ <-. eauto.
    + apply Hs in H2 as [-> H2]. eauto.
Qed.

(** A page is complete exactly when it has no cursor, and a cursor is not
    empty. *)
Lemma rest_page prefix cursor limit n pg n' :
  list_page prefix cursor limit n = (Ok pg, n') → (list_complete pg = true ↔ next_cursor pg = None) ∧ next_cursor pg ≠ Some [].
Proof.
  unfold list_page. intros (r & n1 & _ & (u & n2 & _ & (data & n3 & _ & H)%mbind_ok)%mbind_ok)%mbind_ok.
  destruct (listed_names data); [|done]. injection H as <- _. simpl. rewrite bool_decide_eq_true. split; [done|].
  destruct (if record (prop "result_info" data) then _ else _); try done. case_bool_decide; [done|by intros [=]].
Qed.
End rest.

Lemma list_limit_range l : 10 <= list_limit l <= 1000.
Proof. unfold list_limit. lia. Qed.

(** ** The path of a request

    The URL Standard removes dot segments, a dot written [%2e] included. *)

Definition strip_dot (s : jsstring) : option jsstring :=
  match s with
  | 46 :: r => Some r
  | 37 :: 50 :: c :: r => if (c =? 69) || (c =? 101) then Some r else None
  | _ => None
  end.

Definition single_dot (s : jsstring) : bool := bool_decide (strip_dot s = Some []).
Definition double_dot (s : jsstring) : bool := bool_decide ((strip_dot s ≫= strip_dot) = Some []).

Fixpoint resolve (out segs : list jsstring) : list jsstring :=
  match segs with
  | [] => out
  | s :: rest =>
      let at_end := bool_decide (rest = []) in
      if double_dot s then resolve (removelast out ++ if at_end then [[]] else []) rest
      else if single_dot s then resolve (out ++ if at_end then [[]] else []) rest
      else resolve (out ++ [s]) rest
  end.

Definition sent_path (n : rest_namespace) (r : rest_request) : list jsstring := resolve [] (base_segments n ++ segments r).

Lemma strip_uri_byte b r r' : is_byte b → strip_dot (uri_byte b ++ r) = Some r' → b = 46 ∧ r' = r.
Proof.
  intros Hb. unfold uri_byte. destruct (uri_unreserved b) eqn:E.
  - pose proof (uri_unreserved_range b E) as (_ & H37 & _). cbn [app].
    destruct (decide (b = 46)) as [->|Hn]; [by intros [= <-]|]. unfold strip_dot. repeat case_match; try done; lia.
  - destruct (nibbles b Hb) as [H1 H2]. cbn [app]. unfold strip_dot.
    destruct (decide (hex_upper (b / 16) = 50)) as [H50|Hn]; [|by repeat case_match].
    rewrite H50. case_match eqn:Ec; [|done]. exfalso.
    assert (Hq : b / 16 = 2) by (unfold hex_upper in H50; case_match; bools; lia).
    assert (Hm : b mod 16 = 14) by (unfold hex_upper in Ec; apply orb_true_iff in Ec as [Ec|Ec]; case_match; bools; lia).
    assert (b = 46) as -> by (rewrite (Z.div_mod b 16); lia). done.
Qed.

(** A component never reads as a dot unless it is one. *)
Lemma component_dots k e : code_units k → encodeURIComponent k = Some e →
  (single_dot e = true → k = js ".") ∧ (double_dot e = true → k = js "..").
Proof.
  intros Hu He. pose proof He as He'. unfold encodeURIComponent in He'. destruct (well_formed k) eqn:Hw; [|done]. injection He' as Hx.
  pose proof (utf8_encode_bytes k Hu Hw) as Hb. assert (Hdots : ∀ s, e = s → encodeURIComponent s = Some s → code_units s → k = s).
  { intros s -> Hs Hus. by eapply encodeURIComponent_inj. }
  assert (Hunits : code_units (js ".") ∧ code_units (js "..")) by (split; apply (bool_decide_unpack _); vm_compute; exact I).
  destruct Hunits as [U1 U2]. unfold single_dot, double_dot. rewrite !bool_decide_eq_true. destruct (utf8_encode k) as [|b bs]; [by subst e|].
  simpl in Hx. subst e. apply Forall_cons in Hb as [Hb Hbs]. split.
  - intros [-> Hr]%(strip_uri_byte _ _ _ Hb). apply Hdots; [simpl; by rewrite <-Hr|done|done].
  - destruct (strip_dot _) as [r|] eqn:Es; [|done]. apply (strip_uri_byte _ _ _ Hb) in Es as [-> ->]. cbn [mbind option_bind].
    destruct bs as [|b' bs]; [done|]. apply Forall_cons in Hbs as [Hb' _]. simpl.
    intros [-> Hr]%(strip_uri_byte _ _ _ Hb'). apply Hdots; [simpl; by rewrite <-Hr|done|done].
Qed.

Definition no_dots (s : jsstring) : Prop := single_dot s = false ∧ double_dot s = false.

Lemma resolve_plain out segs : Forall no_dots segs → resolve out segs = out ++ segs.
Proof.
  intros H. revert out. induction H as [|s segs [H1 H2] _ IH]; intros out; cbn [resolve]; [by rewrite app_nil_r|].
  rewrite H1, H2, IH. by rewrite <-app_assoc.
Qed.

(** A component is one segment: none of its characters ends it. *)
Lemma component_segment k e : code_units k → encodeURIComponent k = Some e → Forall (λ c, c ≠ 47 ∧ c ≠ 63 ∧ c ≠ 35 ∧ c ≠ 92) e.
Proof.
  intros Hu He. unfold encodeURIComponent in He. destruct (well_formed k) eqn:Hw; [|done]. injection He as <-.
  pose proof (utf8_encode_bytes k Hu Hw) as Hb. induction Hb as [|b bs Hb _ IH]; simpl; [by apply Forall_nil|]. apply Forall_app. split; [|done].
  unfold uri_byte. destruct (uri_unreserved b) eqn:E.
  - apply Forall_singleton. split_and!; intros ->; vm_compute in E; discriminate.
  - destruct (nibbles b Hb) as [H1 H2]. pose proof (hex_upper_range _ H1). pose proof (hex_upper_range _ H2).
    assert (Hx : ∀ d, 0 <= d < 16 → hex_upper d ≠ 63 ∧ hex_upper d ≠ 92)
      by (intros d Hd; unfold hex_upper; case_match; bools; lia).
    destruct (Hx _ H1), (Hx _ H2). repeat apply Forall_cons_2; try (by apply Forall_nil); lia.
Qed.

(** a key cannot reach another key's value or leave its namespace, unless it
    is made of one or two dots: what is sent for it is the namespace's path, the
    word values and one segment of its own, and distinct keys have distinct
    paths. *)
Theorem rest_keys_isolated n k k' e e' r r' :
  Forall no_dots (base_segments n) → code_units k → code_units k' →
  encodeURIComponent k = Some e → encodeURIComponent k' = Some e' → k ∉ [js "."; js ".."] → k' ∉ [js "."; js ".."] →
  segments r = [js "values"; e] → segments r' = [js "values"; e'] →
  sent_path n r = base_segments n ++ [js "values"; e] ∧ Forall (λ c, c ≠ 47 ∧ c ≠ 63 ∧ c ≠ 35 ∧ c ≠ 92) e ∧
  (sent_path n r = sent_path n r' → k = k').
Proof.
  intros Hn Hu Hu' He He' Hk Hk' Hr Hr'.
  assert (Hpath : ∀ k e r, code_units k → encodeURIComponent k = Some e → k ∉ [js "."; js ".."] → segments r = [js "values"; e] →
    sent_path n r = base_segments n ++ [js "values"; e]).
  { intros k0 e0 r0 H1 H2 H3 H4. unfold sent_path. rewrite H4. apply (resolve_plain []). apply Forall_app. split; [done|].
    destruct (component_dots _ _ H1 H2) as [D1 D2]. repeat apply Forall_cons_2; [done| |by apply Forall_nil].
    split; apply not_true_iff_false; intros Hd; apply H3; [rewrite (D1 Hd)|rewrite (D2 Hd)]; rewrite !elem_of_cons; auto. }
  rewrite (Hpath k e r), (Hpath k' e' r') by done. split; [done|]. split; [exact (component_segment k e Hu He)|].
  intros Heq%app_inv_head. injection Heq as ->. exact (encodeURIComponent_inj k k' e' Hu Hu' He He').
Qed.

Definition toy_rest : rest_namespace := {| accountSegment := js "acc"; namespaceSegment := js "ns"; restToken := js "t"; restTimeoutMs := 2000 |}.

Lemma rest_keys_isolated_witness :
  sent_path toy_rest (get_request (js "a%2F..%2Fb")) = base_segments toy_rest ++ [js "values"; js "a%2F..%2Fb"] ∧
  sent_path toy_rest (get_request (js "a%2F..%2Fb")) ≠ sent_path toy_rest (get_request (js "b")).
Proof.
  assert (Hu : code_units (js "a/../b") ∧ code_units (js "b")) by (split; apply (bool_decide_unpack _); vm_compute; exact I).
  destruct (rest_keys_isolated toy_rest (js "a/../b") (js "b") (js "a%2F..%2Fb") (js "b") (get_request (js "a%2F..%2Fb")) (get_request (js "b")))
    as (H1 & _ & H3).
  - vm_compute. repeat constructor.
  - apply Hu.
  - apply Hu.
  - vm_compute. reflexivity.
  - vm_compute. reflexivity.
  - apply (bool_decide_unpack _). vm_compute. exact I.
  - apply (bool_decide_unpack _). vm_compute. exact I.
  - reflexivity.
  - reflexivity.
  - split; [exact H1|]. intros H%H3. discriminate.
Defined.

(** The key of two dots is not encoded: its deletion is sent to the namespace
    itself. *)
Lemma dot_key_deletes_namespace :
  encodeURIComponent (js "..") = Some (js "..") ∧
  sent_path toy_rest (delete_request (js "..")) = base_segments toy_rest ++ [[]] ∧ verb (delete_request (js "..")) = DELETE.
Proof. vm_compute. repeat split; reflexivity. Qed.
