(* ===== verification/JsRuntime.v ===== *)
(** * Numbers of text, splitting and paths: what the sources use of the runtime

    [Number(text)] and the arithmetic of doubles on [jsnum]: a rational is
    rounded to the nearest double, ties to even, by the division of the standard
    library's specification floats. [split], and the POSIX path functions of
    [node:path]: normalisation by segments, [join], [dirname] and [relative]. An
    absolute path without [.], [..] or doubled slashes is [abs_path] of its
    segments; the laws are about those. *)

From Stdlib Require Import SpecFloat.
From S2P Require Import Prelude JsValue Pattern.

(** ** Rounding *)

Definition num_of_float (f : spec_float) : jsnum :=
  match f with
  | S754_zero _ => JInt 0
  | S754_infinity s => JInf s
  | S754_nan => JNaN
  | S754_finite s m e =>
      let z := if s then Zneg m else Zpos m in
      if 0 <=? e then JInt (z * 2 ^ e) else JNum (Qred (z # Z.to_pos (2 ^ (- e))))
  end.

Definition round_ratio (s : bool) (n d : positive) : jsnum :=
  let '(m, e, l) := SFdiv_core_binary 53 1024 (Zpos n) 0 (Zpos d) 0 in
  num_of_float (binary_round_aux 53 1024 s m e l).

(** The double nearest to [q]. *)
Definition double_of (q : Q) : jsnum :=
  match Qnum q with
  | Z0 => JInt 0
  | Zpos n => round_ratio false n (Qden q)
  | Zneg n => round_ratio true n (Qden q)
  end.

Definition num_neg (n : jsnum) : bool := num_lt n (JInt 0).

(** [a * b], [a / n] for [n > 0], and [a - b]; the sign of a zero is not kept. *)
Definition num_mul (a b : jsnum) : jsnum :=
  match a, b with
  | JNum p, JNum q => double_of (p * q)
  | JNaN, _ | _, JNaN => JNaN
  | _, _ => if num_le a (JInt 0) && num_le (JInt 0) a || num_le b (JInt 0) && num_le (JInt 0) b then JNaN
            else JInf (xorb (num_neg a) (num_neg b))
  end.

Definition num_div_pos (a : jsnum) (n : positive) : jsnum :=
  match a with JNum p => double_of (p / inject_Z (Zpos n)) | _ => a end.

Definition num_sub (a b : jsnum) : jsnum :=
  match a, b with
  | JNum p, JNum q => double_of (p - q)
  | JNaN, _ | _, JNaN => JNaN
  | JInf s, JInf t => if eqb s t then JNaN else JInf s
  | JInf s, _ => JInf s
  | _, JInf s => JInf (negb s)
  end.

(** [Math.min] and [Math.max] of numbers that are not NaN. *)
Definition num_min (a b : jsnum) : jsnum := if num_le a b then a else b.
Definition num_max (a b : jsnum) : jsnum := if num_le a b then b else a.

(** ** Text *)

(** The longest prefix of characters in [p], and the rest. *)
Fixpoint span (p : Z → bool) (s : jsstring) : jsstring * jsstring :=
  match s with
  | c :: s' => if p c then let '(a, b) := span p s' in (c :: a, b) else ([], s)
  | [] => ([], [])
  end.

(** The exponent after [e] or [E]; [None]: it is malformed. *)
Definition exponent (s : jsstring) : option Z :=
  match s with
  | [] => Some 0
  | c :: s' =>
      if (c =? 101) || (c =? 69) then
        let '(sign, ds) := match s' with 45 :: t => (-1, t) | 43 :: t => (1, t) | _ => (1, s') end in
        if bool_decide (ds ≠ []) && forallb is_digit ds then Some (sign * parse_dec ds) else None
      else None
  end.

(** The value of an unsigned decimal literal. *)
Definition decimal_literal (s : jsstring) : option Q :=
  let '(whole, rest) := span is_digit s in
  let '(fraction, rest') := match rest with 46 :: t => span is_digit t | _ => ([], rest) end in
  if bool_decide (whole = [] ∧ fraction = []) then None
  else
    e ← exponent rest';
    let e := e - Z.of_nat (length fraction) in
    let m := parse_dec (whole ++ fraction) in
    Some (if 0 <=? e then inject_Z (m * 10 ^ e) else m # Z.to_pos (10 ^ (- e))).

Definition digit_value (c : Z) : Z :=
  if is_digit c then c - 48 else if (97 <=? c) && (c <=? 102) then c - 87 else if (65 <=? c) && (c <=? 70) then c - 55 else 99.

(** A literal after [0x], [0o] or [0b]. *)
Definition radix_literal (radix : Z) (s : jsstring) : option Q :=
  if bool_decide (s ≠ []) && forallb (λ c, digit_value c <? radix) s
  then Some (inject_Z (foldl (λ a c, a * radix + digit_value c) 0 s)) else None.

(** [Number(text)] *)
Definition string_to_number (text : jsstring) : jsnum :=
  let of_literal (q : option Q) := match q with Some q => double_of q | None => JNaN end in
  match js_trim text with
  | [] => JInt 0
  | 48 :: c :: t =>
      if (c =? 120) || (c =? 88) then of_literal (radix_literal 16 t)
      else if (c =? 111) || (c =? 79) then of_literal (radix_literal 8 t)
      else if (c =? 98) || (c =? 66) then of_literal (radix_literal 2 t)
      else of_literal (decimal_literal (48 :: c :: t))
  | s =>
      let '(negative, u) := match s with 45 :: t => (true, t) | 43 :: t => (false, t) | _ => (false, s) end in
      if bool_decide (u = js "Infinity") then JInf negative
      else of_literal (q ← decimal_literal u; Some (if negative then Qopp q else q))
  end.

Example number_demo :
  (λ s, string_to_number (js s)) <$> ["4096"; " 12.5 "; "1e3"; "0x10"; "1.2.3"; "."; ""; "9223372036854771712"; "max"]%string =
  [JInt 4096; JNum (25 # 2); JInt 1000; JInt 16; JNaN; JNaN; JInt 0; JInt 9223372036854771712; JNaN].
Proof. vm_compute. reflexivity. Qed.

(** ** Splitting *)

(** [s.split(sep)] for a separator that is not empty; [skip]: characters of a
    separator still to pass. *)
Fixpoint split_from (sep : jsstring) (skip : nat) (s : jsstring) : list jsstring :=
  match s with
  | [] => [[]]
  | c :: s' =>
      match skip with
      | S k => split_from sep k s'
      | O =>
          if starts_with s sep then [] :: split_from sep (pred (length sep)) s'
          else match split_from sep 0 s' with l :: ls => (c :: l) :: ls | [] => [[c]] end
      end
  end.

Definition js_split (sep : string) (s : jsstring) : list jsstring := split_from (js sep) 0 s.

Example split_demo : js_split " - " (js "a - b - c") = [js "a"; js "b"; js "c"] ∧ js_split "/" (js "/x//y") = [[]; js "x"; []; js "y"].
Proof. done. Qed.

(** ** Paths *)

Definition slash : Z := 47.

(** The segments [normalize] keeps, in reverse: [..] takes the last one away,
    and stays at the start of a path that is not absolute. *)
Definition push_segment (above : bool) (kept : list jsstring) (s : jsstring) : list jsstring :=
  if bool_decide (s = [] ∨ s = js ".") then kept
  else if bool_decide (s = js "..") then
    match kept with
    | k :: rest => if bool_decide (k = js "..") then s :: kept else rest
    | [] => if above then [s] else []
    end
  else s :: kept.

Definition path_segments (above : bool) (path : jsstring) : list jsstring := rev (foldl (push_segment above) [] (js_split "/" path)).

Definition isAbsolute (path : jsstring) : bool := starts_with path [slash].

(** [posix.normalize] *)
Definition path_normalize (path : jsstring) : jsstring :=
  if bool_decide (path = []) then js "."
  else
    let absolute := isAbsolute path in let trailing := ends_with path [slash] in
    let p := js_join [slash] (path_segments (negb absolute) path) in
    if bool_decide (p = []) then if absolute then js "/" else if trailing then js "./" else js "."
    else (if absolute then [slash] else []) ++ p ++ (if trailing then [slash] else []).

(** [posix.join(a, b)] *)
Definition path_join (a b : jsstring) : jsstring :=
  match List.filter (λ s, negb (bool_decide (s = []))) [a; b] with
  | [] => js "."
  | parts => path_normalize (js_join [slash] parts)
  end.

(** [posix.dirname]: up to the last slash that is not trailing and not the first
    character; [skipping]: only slashes so far. The argument is the reversed path
    after its first character. *)
Fixpoint last_slash (skipping : bool) (r : jsstring) : option jsstring :=
  match r with
  | [] => None
  | c :: r' => if c =? slash then if skipping then last_slash true r' else Some r' else last_slash false r'
  end.

Definition path_dirname (path : jsstring) : jsstring :=
  match path with
  | [] => js "."
  | c :: t =>
      match last_slash true (rev t) with
      | None => if c =? slash then js "/" else js "."
      | Some r => if bool_decide (r = []) && (c =? slash) then js "//" else c :: rev r
      end
  end.

(** [posix.relative]; [cwd] is where a path that is not absolute starts. *)
Definition path_resolve (cwd path : jsstring) : list jsstring := path_segments false (if isAbsolute path then path else cwd ++ [slash] ++ path).

Fixpoint strip_common (a b : list jsstring) : list jsstring * list jsstring :=
  match a, b with
  | x :: a', y :: b' => if bool_decide (x = y) then strip_common a' b' else (a, b)
  | _, _ => (a, b)
  end.

Definition path_relative (cwd from to : jsstring) : jsstring :=
  let '(a, b) := strip_common (path_resolve cwd from) (path_resolve cwd to) in
  js_join [slash] (map (λ _, js "..") a ++ b).

Example path_demo :
  path_normalize (js "/a/./b//../c/") = js "/a/c/" ∧ path_join (js "/sys/fs") (js "x/../y") = js "/sys/fs/y" ∧
  path_dirname (js "/a/b") = js "/a" ∧ path_dirname (js "/a") = js "/" ∧ path_dirname (js "a") = js "." ∧
  path_relative (js "/w") (js "/a/b") (js "/a/c/d") = js "../c/d" ∧ path_relative (js "/w") (js "/") (js "/a") = js "a".
Proof. split_and!; reflexivity. Qed.

(** ** Plain absolute paths *)

(** The name of a directory entry. *)
Definition plain_name (s : jsstring) : Prop := s ≠ [] ∧ s ≠ js "." ∧ s ≠ js ".." ∧ slash ∉ s.

Definition abs_path (l : list jsstring) : jsstring := slash :: js_join [slash] l.

Lemma split_slash_piece s rest : slash ∉ s → split_from [slash] 0 (s ++ slash :: rest) = s :: split_from [slash] 0 rest.
Proof.
  induction s as [|c s IH]; intros Hs.
  - done.
  - apply not_elem_of_cons in Hs as [Hc Hs]. rewrite <- app_comm_cons. cbn [split_from]. unfold starts_with.
    rewrite bool_decide_eq_false_2; [|cbn; congruence]. by rewrite IH.
Qed.

Lemma split_slash_head rest : split_from [slash] 0 (slash :: rest) = [] :: split_from [slash] 0 rest.
Proof. done. Qed.

Lemma split_slash_last s : slash ∉ s → split_from [slash] 0 s = [s].
Proof.
  induction s as [|c s IH]; intros Hs; [done|]. apply not_elem_of_cons in Hs as [Hc Hs]. cbn [split_from]. unfold starts_with.
  rewrite bool_decide_eq_false_2; [|cbn; congruence]. by rewrite IH.
Qed.

Lemma split_join l : l ≠ [] → Forall plain_name l → split_from [slash] 0 (js_join [slash] l) = l.
Proof.
  induction l as [|s l IH]; intros Hl H; [done|]. apply Forall_cons in H as [(_ & _ & _ & Hs) H]. destruct l as [|s' l]; [by apply split_slash_last|].
  rewrite js_join_cons. cbn [app]. rewrite split_slash_piece by done. by rewrite IH.
Qed.

Lemma push_plain above l kept : Forall plain_name l → foldl (push_segment above) kept l = rev l ++ kept.
Proof.
  revert kept. induction l as [|s l IH]; intros kept H; [done|]. apply Forall_cons in H as [(H1 & H2 & H3 & _) H]. cbn [foldl rev].
  rewrite IH by done. unfold push_segment. rewrite bool_decide_eq_false_2 by tauto. rewrite bool_decide_eq_false_2 by done. by rewrite <- app_assoc.
Qed.

Lemma segments_split above l path : js_split "/" path = [] :: l ∨ js_split "/" path = l → Forall plain_name l → path_segments above path = l.
Proof.
  intros [E|E] H; unfold path_segments; rewrite E; [cbn [foldl]; change (push_segment above [] []) with (@nil jsstring)|];
    by rewrite push_plain, app_nil_r, rev_involutive.
Qed.

Lemma abs_segments above l : Forall plain_name l → path_segments above (abs_path l) = l.
Proof.
  intros H. destruct l as [|s l]; [done|]. apply segments_split; [|done]. left. unfold js_split, abs_path. change (js "/") with [slash].
  rewrite split_slash_head. by rewrite split_join.
Qed.

Lemma join_nonempty l : l ≠ [] → Forall plain_name l → js_join [slash] l ≠ [].
Proof. intros Hl H E. pose proof (split_join l Hl H) as Hs. rewrite E in Hs. simpl in Hs. subst l. by apply Forall_cons in H as [(? & _) _]. Qed.

Lemma abs_inj a b : Forall plain_name a → Forall plain_name b → abs_path a = abs_path b → a = b.
Proof. intros Ha Hb E. rewrite <- (abs_segments true a), <- (abs_segments true b) by done. by rewrite E. Qed.

Lemma join_snoc l s : l ≠ [] → js_join [slash] (l ++ [s]) = js_join [slash] l ++ slash :: s.
Proof.
  induction l as [|x l IH]; [done|]. intros _. destruct l as [|y l]; [done|]. cbn [app]. rewrite (js_join_cons _ x y (l ++ [s])).
  change (y :: l ++ [s]) with ((y :: l) ++ [s]). rewrite IH by done. rewrite js_join_cons, <- app_assoc. by rewrite <- app_assoc.
Qed.

Lemma ends_slash s t : slash ∉ t → t ≠ [] → ends_with (s ++ t) [slash] = false.
Proof.
  intros Hs Ht. destruct (ends_with (s ++ t) [slash]) eqn:E; [|done]. apply ends_with_spec in E as [w E]. destruct (exists_last Ht) as (t' & c & ->).
  rewrite app_assoc in E. apply app_inj_tail in E as [_ ->]. set_solver.
Qed.

Lemma no_trailing l : l ≠ [] → Forall plain_name l → ends_with (js_join [slash] l) [slash] = false ∧ ends_with (abs_path l) [slash] = false.
Proof.
  intros Hl H. destruct (exists_last Hl) as (l' & s & ->). apply Forall_app in H as [_ H]. apply Forall_cons in H as [(Hn & _ & _ & Hs) _].
  destruct l' as [|x l'].
  - split; [apply (ends_slash [])|apply (ends_slash [slash])]; done.
  - unfold abs_path. rewrite join_snoc by done. by split; [rewrite (cons_middle slash), app_assoc|rewrite app_comm_cons, (cons_middle slash), app_assoc]; apply ends_slash.
Qed.

Lemma isAbsolute_abs l : isAbsolute (abs_path l) = true.
Proof. apply starts_with_spec. by eexists. Qed.

Lemma normalize_abs l : Forall plain_name l → path_normalize (abs_path l) = abs_path l.
Proof.
  intros H. destruct l as [|s l]; [done|]. unfold path_normalize. rewrite bool_decide_eq_false_2 by done.
  rewrite isAbsolute_abs, abs_segments by done. destruct (no_trailing (s :: l)) as [_ ->]; [done..|].
  rewrite bool_decide_eq_false_2 by (by apply join_nonempty). cbn [app]. by rewrite app_nil_r.
Qed.

Lemma abs_app a b : a ≠ [] → b ≠ [] → abs_path (a ++ b) = abs_path a ++ slash :: js_join [slash] b.
Proof.
  intros Ha Hb. revert Hb. induction b as [|s b IH] using rev_ind; [done|]. intros _. destruct b as [|x b].
  - unfold abs_path. rewrite app_nil_l, join_snoc by done. done.
  - rewrite app_assoc. unfold abs_path in *. rewrite join_snoc by (by destruct a). rewrite app_comm_cons, IH by done.
    rewrite (join_snoc (x :: b)) by done. by rewrite <- app_assoc.
Qed.

(** Joining a relative path of plain names. *)
Lemma join_abs a b : Forall plain_name a → Forall plain_name b → path_join (abs_path a) (js_join [slash] b) = abs_path (a ++ b).
Proof.
  intros Ha Hb. unfold path_join. cbn [List.filter]. rewrite bool_decide_eq_false_2 by done. cbn [negb].
  destruct b as [|s b].
  - cbn. rewrite app_nil_r. by apply normalize_abs.
  - rewrite bool_decide_eq_false_2 by (by apply join_nonempty). cbn [negb].
    rewrite js_join_cons. change (js_join [slash] [js_join [slash] (s :: b)]) with (js_join [slash] (s :: b)).
    destruct a as [|x a].
    + change (abs_path [] ++ [slash] ++ js_join [slash] (s :: b)) with (slash :: abs_path (s :: b)).
      unfold path_normalize. rewrite bool_decide_eq_false_2 by done.
      assert (E : path_segments false (slash :: abs_path (s :: b)) = s :: b).
      { unfold path_segments, js_split. change (js "/") with [slash]. rewrite split_slash_head. unfold abs_path.
        rewrite split_slash_head. rewrite split_join by done.
        change (foldl (push_segment false) [] ([] :: [] :: s :: b)) with (foldl (push_segment false) [] (s :: b)).
        by rewrite push_plain, app_nil_r, rev_involutive. }
      change (isAbsolute (slash :: abs_path (s :: b))) with true. cbn [negb]. rewrite E. rewrite bool_decide_eq_false_2 by (by apply join_nonempty).
      assert (Ht : ends_with (slash :: abs_path (s :: b)) [slash] = false).
      { destruct (ends_with (slash :: abs_path (s :: b)) [slash]) eqn:He; [|done]. apply ends_with_spec in He as [[|z w] He]; [done|]. injection He as _ He.
        destruct (no_trailing (s :: b)) as [_ Hn]; [done..|]. rewrite <- Hn. symmetry. apply ends_with_spec. eauto. }
      rewrite Ht. cbn [app]. by rewrite app_nil_r.
    + change ([slash] ++ js_join [slash] (s :: b)) with (slash :: js_join [slash] (s :: b)). rewrite <- abs_app by done.
      apply normalize_abs. by apply Forall_app.
Qed.

Lemma relative_abs cwd a b : Forall plain_name a → Forall plain_name b → path_relative cwd (abs_path a) (abs_path (a ++ b)) = js_join [slash] b.
Proof.
  intros Ha Hb. unfold path_relative, path_resolve. rewrite !isAbsolute_abs, !abs_segments by (try apply Forall_app; done).
  assert (E : strip_common a (a ++ b) = ([], b)); [|by rewrite E]. clear. induction a as [|x a IH]; [by destruct b|]. cbn [strip_common app].
  by rewrite bool_decide_eq_true_2.
Qed.

(** The parent directory. *)
Lemma dirname_abs l s : Forall plain_name l → plain_name s → path_dirname (abs_path (l ++ [s])) = abs_path l.
Proof.
  intros Hl (Hn & _ & _ & Hs). unfold path_dirname, abs_path.
  assert (Hp : ∀ r, last_slash true (rev s ++ r) = last_slash false r).
  { intros r. assert (Hr : slash ∉ rev s) by (by rewrite list_elem_of_In, <- in_rev, <- list_elem_of_In).
    assert (Hne : rev s ≠ []) by (intros E; apply Hn; by rewrite <- (rev_involutive s), E). revert Hr Hne. generalize (rev s) as t. clear. intros t.
    assert (H : ∀ t, slash ∉ t → last_slash false (t ++ r) = last_slash false r).
    { clear. induction t as [|c t IH]; [done|]. intros [Hc Ht]%not_elem_of_cons. cbn. rewrite (proj2 (Z.eqb_neq c slash)) by congruence. by apply IH. }
    destruct t as [|c t]; [done|]. intros [Hc Ht]%not_elem_of_cons _. cbn. rewrite (proj2 (Z.eqb_neq c slash)) by congruence. by apply H. }
  destruct l as [|x l].
  - cbn [app js_join]. pose proof (Hp []) as E. rewrite app_nil_r in E. by rewrite E.
  - rewrite join_snoc by done. rewrite rev_app_distr. cbn [rev]. rewrite <- app_assoc. rewrite Hp. cbn [app last_slash]. rewrite Z.eqb_refl, rev_involutive.
    assert (rev (js_join [slash] (x :: l)) ≠ []).
    { intros E. apply (join_nonempty (x :: l)); [done..|]. by rewrite <- (rev_involutive (js_join _ _)), E. }
    by rewrite bool_decide_eq_false_2.
Qed.
