(* ===== verification/MemorySignals.v ===== *)
(** * Memory signals ([src/src/cache/memorySignals.ts])

    What the process knows of its memory: the host's, the limits and the usage of
    its control groups, the pressure of the system. Files are read through an
    argument [readFile] that answers [None] for a file it cannot read, or that
    throws. The process's groups are found from [/proc/self/cgroup] and
    [/proc/self/mountinfo]; [cwd] is the working directory. *)

From S2P Require Import Prelude JsValue Pattern JsRuntime.

Definition valid (n : jsnum) : bool := num_is_finite n && num_le (JInt 0) n.
Definition positive (n : jsnum) : bool := valid n && num_lt (JInt 0) n.

(** [/\\([0-7]{3})/g]: an escaped character. *)
Definition octal (c : Z) : bool := (48 <=? c) && (c <=? 55).

Fixpoint unescapePath (s : jsstring) : jsstring :=
  match s with
  | 92 :: ((a :: b :: c :: t) as s') =>
      if octal a && octal b && octal c then (a - 48) * 64 + (b - 48) * 8 + (c - 48) :: unescapePath t else 92 :: unescapePath s'
  | x :: s' => x :: unescapePath s'
  | [] => []
  end.

(** What a caller gives in place of the platform, and what the platform says. *)
Record MemorySignalReader := {
  hostMemoryBytes : option jsnum; rssBytes : option jsnum; heapUsedBytes : option jsnum; heapTotalBytes : option jsnum;
  heapLimitBytes : option jsnum; availableMemoryBytes : option jsnum; psiSomeAvg10 : option jsnum;
  cgroupRoot : option jsstring; cgroupPaths : list jsstring }.

Record platform := {
  totalmem : jsnum; freemem : jsnum; process_available : option jsnum; usage_rss : jsnum; usage_heapUsed : jsnum; usage_heapTotal : jsnum; heap_size_limit : jsnum }.

(** [MemorySignals]; [available] tells of each whether it is known. *)
Record signals := {
  s_hostBytes : option jsnum; s_effectiveBytes : option jsnum; s_rssBytes : option jsnum; s_heapUsedBytes : option jsnum; s_heapTotalBytes : option jsnum;
  s_heapLimitBytes : option jsnum; s_availableBytes : option jsnum; s_psiSomeAvg10 : option jsnum; s_cgroupBytes : option jsnum }.

Definition s_available (s : signals) : list (string * bool) :=
  map (λ '(k, v), (k, bool_decide (is_Some v)))
    [("hostBytes", s_hostBytes s); ("effectiveBytes", s_effectiveBytes s); ("availableBytes", s_availableBytes s); ("rssBytes", s_rssBytes s);
     ("heapUsedBytes", s_heapUsedBytes s); ("heapTotalBytes", s_heapTotalBytes s); ("heapLimitBytes", s_heapLimitBytes s); ("cgroupBytes", s_cgroupBytes s);
     ("psiSomeAvg10", s_psiSomeAvg10 s)]%string.

(** ** Control groups *)

Record member := { unified : bool; path : jsstring }.
Record mount := { m_unified : bool; m_root : jsstring; m_point : jsstring }.

(** A line of three parts, a number, controllers and a path, with a colon between
    them; [None] as well when it does not concern memory. *)
Definition membership_line (line : jsstring) : option member :=
  match span is_digit line with
  | (_ :: _, 58 :: t) =>
      match span (λ c, negb (c =? 58)) t with
      | (controllers, 58 :: p) =>
          if existsb isLineTerminator p then None
          else if bool_decide (controllers = []) || bool_decide (js "memory" ∈ js_split "," controllers)
          then Some {| unified := bool_decide (controllers = []); path := path_normalize p |}
          else None
      | _ => None
      end
  | _ => None
  end.

Definition membership (text : option jsstring) : list member := omap membership_line (split_from [10] 0 (text ?? [])).

(** A line of mountinfo that mounts control groups with memory. *)
Definition mount_line (line : jsstring) : option mount :=
  match js_split " - " line with
  | before :: after :: _ =>
      if bool_decide (after = []) then None
      else
        let fields := js_split " " before in
        let afters := js_split " " after in
        let type := afters !! 0%nat ?? [] in
        let superOptions := afters !! 2%nat ?? [] in
        let v2 := bool_decide (type = js "cgroup2") in
        if negb v2 && negb (bool_decide (type = js "cgroup") && bool_decide (js "memory" ∈ js_split "," superOptions)) then None
        else
          let mountPoint := unescapePath (fields !! 4%nat ?? []) in
          if isAbsolute mountPoint then Some {| m_unified := v2; m_root := unescapePath (fields !! 3%nat ?? []); m_point := mountPoint |} else None
  | _ => None
  end.

(** [directories.add] *)
Definition add_dir (d : jsstring) (dirs : list jsstring) : list jsstring := if bool_decide (d ∈ dirs) then dirs else dirs ++ [d].

(** From a directory up to the mount point, at most [fuel] of them. *)
Fixpoint ancestors (fuel : nat) (mountPoint directory : jsstring) (dirs : list jsstring) : list jsstring :=
  match fuel with
  | O => dirs
  | S fuel =>
      let dirs := add_dir directory dirs in
      if bool_decide (directory = mountPoint) then dirs
      else
        let parent := path_dirname directory in
        let within := if bool_decide (mountPoint = js "/") then js "/" else mountPoint ++ js "/" in
        if bool_decide (parent = directory) || negb (starts_with parent within)
        then if bool_decide (parent = mountPoint) then add_dir parent dirs else dirs
        else ancestors fuel mountPoint parent dirs
  end.

Definition MAX_DEPTH : nat := 64.

Definition member_dirs (cwd : jsstring) (m : mount) (dirs : list jsstring) (x : member) : list jsstring :=
  if negb (Bool.eqb (unified x) (m_unified m)) then dirs
  else
    let relative := if bool_decide (path x = js "/") then [] else path_relative cwd (m_root m) (path x) in
    if starts_with relative (js "..") || isAbsolute relative then dirs
    else ancestors MAX_DEPTH (m_point m) (path_join (m_point m) relative) dirs.

Section reading.
Context (cwd : jsstring) (read : jsstring → option jsstring) (r : MemorySignalReader) (host : platform).

Definition cgroupDirectories : list jsstring :=
  let root := cgroupRoot r ?? js "/sys/fs/cgroup" in
  let fixed := foldl (λ ds d, add_dir d ds) [] (root :: (root ++ js "/memory") :: cgroupPaths r) in
  let members := membership (read (js "/proc/self/cgroup")) in
  let mounts := omap mount_line (split_from [10] 0 (read (js "/proc/self/mountinfo") ?? [])) in
  foldl (λ ds m, foldl (member_dirs cwd m) ds members) fixed mounts.

(** ** Pressure *)

(** [/^some\s+avg10=(\d+(?:\.\d+)?)/] at the start of the text. *)
Definition psi_here (s : jsstring) : option jsnum :=
  if negb (starts_with s (js "some")) then None
  else
    let '(spaces, t) := span js_space (drop 4 s) in
    if bool_decide (spaces = []) || negb (starts_with t (js "avg10=")) then None
    else
      let '(whole, rest) := span is_digit (drop 6 t) in
      if bool_decide (whole = []) then None
      else
        let fraction := match rest with 46 :: u => (span is_digit u).1 | _ => [] end in
        Some (string_to_number (whole ++ if bool_decide (fraction = []) then [] else 46 :: fraction)).

(** The flag [m]: the first line it matches at. *)
Fixpoint psi_from (starts : bool) (s : jsstring) : option jsnum :=
  match (if starts then psi_here s else None) with
  | Some n => Some n
  | None => match s with [] => None | c :: t => psi_from (isLineTerminator c) t end
  end.

Definition parsePsi (text : option jsstring) : option jsnum := text ≫= psi_from true.

(** ** Limits *)

Record readings := { g_cgroupBytes : option jsnum; g_available : list jsnum; g_psi : option jsnum }.

Definition limit_files : list (jsstring * jsstring) :=
  [(js "memory.max", js "memory.current"); (js "memory.limit_in_bytes", js "memory.usage_in_bytes")].

(** The limit a file sets, unless it sets none. *)
Definition limit_of (text : option jsstring) : option jsnum :=
  t ← js_trim <$> text;
  if bool_decide (t = [] ∨ t = js "max") then None
  else let limit := string_to_number t in if positive limit && num_is_safe_integer limit then Some limit else None.

Definition at_ (directory file : jsstring) : jsstring := directory ++ js "/" ++ file.

Definition read_limit (directory : jsstring) (g : readings) (files : jsstring * jsstring) : readings :=
  match limit_of (read (at_ directory files.1)) with
  | None => g
  | Some limit =>
      let current := match js_trim <$> read (at_ directory files.2) with Some ((_ :: _) as t) => Some (string_to_number t) | _ => None end in
      {| g_cgroupBytes := Some (match g_cgroupBytes g with Some b => num_min b limit | None => limit end);
         g_available := match current with
           | Some c => if valid c then g_available g ++ [num_max (JInt 0) (num_sub limit c)] else g_available g
           | None => g_available g
           end;
         g_psi := g_psi g |}
  end.

Definition read_psi (sample : option jsnum) (g : readings) : readings :=
  match psiSomeAvg10 r, sample with
  | None, Some n =>
      if valid n then {| g_cgroupBytes := g_cgroupBytes g; g_available := g_available g; g_psi := Some (num_max (g_psi g ?? JInt 0) n) |} else g
  | _, _ => g
  end.

Definition read_directory (g : readings) (directory : jsstring) : readings :=
  read_psi (parsePsi (read (at_ directory (js "memory.pressure")))) (foldl (read_limit directory) g limit_files).

(** [Math.min(...l)] of a list that is not empty. *)
Definition least (l : list jsnum) : option jsnum := match l with [] => None | n :: l => Some (foldl num_min n l) end.

Definition keep (p : jsnum → bool) (n : jsnum) : option jsnum := if p n then Some n else None.

Definition collected : readings :=
  let g0 := {| g_cgroupBytes := None; g_available := [availableMemoryBytes r ?? (process_available host ?? freemem host)]; g_psi := psiSomeAvg10 r |} in
  read_psi (parsePsi (read (js "/proc/pressure/memory"))) (foldl read_directory g0 cgroupDirectories).

Definition readMemorySignals : signals :=
  let hostBytes := hostMemoryBytes r ?? totalmem host in
  let g := collected in
  let capacities := List.filter positive (hostBytes :: match g_cgroupBytes g with Some b => [b] | None => [] end) in
  {| s_hostBytes := keep positive hostBytes;
     s_effectiveBytes := least capacities;
     s_availableBytes := least (List.filter valid (g_available g));
     s_rssBytes := Some (rssBytes r ?? usage_rss host);
     s_heapUsedBytes := Some (heapUsedBytes r ?? usage_heapUsed host);
     s_heapTotalBytes := Some (heapTotalBytes r ?? usage_heapTotal host);
     s_heapLimitBytes := Some (heapLimitBytes r ?? heap_size_limit host);
     s_psiSomeAvg10 := g_psi g ≫= keep valid;
     s_cgroupBytes := g_cgroupBytes g |}.

Definition resolveEffectiveMemory : option jsnum := s_effectiveBytes readMemorySignals.

End reading.

(** ** What the directories are *)

Lemma add_dir_elem d e dirs : e ∈ add_dir d dirs ↔ e = d ∨ e ∈ dirs.
Proof. unfold add_dir. case_bool_decide; set_solver. Qed.

Lemma prefix_snoc_cases {A} (t s : list A) x : t `prefix_of` s ++ [x] ↔ t = s ++ [x] ∨ t `prefix_of` s.
Proof.
  split.
  - intros [u E]. destruct u as [|y u] using rev_ind; [left; by rewrite app_nil_r in E|]. right. rewrite app_assoc in E.
    apply app_inj_tail in E as [-> _]. by exists u.
  - intros [->|[u ->]]; [done|]. exists (u ++ [x]). by rewrite app_assoc.
Qed.

Lemma within_root m s :
  Forall plain_name (m ++ s) →
  starts_with (abs_path (m ++ s)) (if bool_decide (abs_path m = js "/") then js "/" else abs_path m ++ js "/") = bool_decide (m = [] ∨ s ≠ []).
Proof.
  intros H. apply Forall_app in H as [Hm Hs]. destruct m as [|x m].
  - rewrite bool_decide_eq_true_2 by done. rewrite (bool_decide_eq_true_2 (_ ∨ _)) by (by left). apply starts_with_spec. by eexists.
  - rewrite bool_decide_eq_false_2. 2:{ intros E. by apply (abs_inj (x :: m) []) in E. }
    destruct s as [|y s].
    + rewrite app_nil_r, (bool_decide_eq_false_2 (_ ∨ _)) by (by intros [|]). destruct (starts_with _ _) eqn:E; [|done].
      apply starts_with_spec in E as [w E]. apply (f_equal length) in E. rewrite !length_app in E. change (length (js "/")) with 1%nat in E. lia.
    + rewrite (bool_decide_eq_true_2 (_ ∨ _)) by (by right). apply starts_with_spec. rewrite abs_app by done. exists (js_join [slash] (y :: s)). by rewrite <- app_assoc.
Qed.

(** The groups a walk of [fuel] steps reaches, as prefixes of the path below the
    mount point: the innermost [fuel] of them, and the mount point one step early
    unless it is the root. *)
Definition reached (fuel : nat) (m s t : list jsstring) : Prop :=
  t `prefix_of` s ∧ ((length s < length t + fuel)%nat ∨ t = [] ∧ m ≠ [] ∧ length s = fuel ∧ (0 < fuel)%nat).

Lemma reached_whole fuel m s : reached (S fuel) m s s.
Proof. split; [done|]. left. lia. Qed.

(** One step of the walk: the last name goes. *)
Lemma reached_snoc fuel m s x t :
  (m = [] ∨ s ≠ []) → reached (S fuel) m (s ++ [x]) t ↔ t = s ++ [x] ∨ reached fuel m s t.
Proof.
  intros Hc. unfold reached. rewrite prefix_snoc_cases, length_app. cbn [length]. split.
  - intros [[->|Hp] H]; [by left|]. right. split; [done|]. destruct H as [H|(-> & Hm & Hl & _)]; [left; lia|right].
    split_and!; [done..|lia|]. destruct Hc as [->|Hs]; [done|]. destruct s; [done|cbn in Hl; lia].
  - intros [->|[Hp H]]; (split; [auto|]); [left; rewrite length_app; cbn; lia|]. destruct H as [H|(-> & Hm & Hl & Hf)]; [left; lia|right].
    split_and!; [done..|lia|lia].
Qed.

Lemma reached_last fuel m x t : m ≠ [] → reached (S fuel) m [x] t ↔ t = [x] ∨ t = [].
Proof.
  intros Hm. unfold reached. rewrite (prefix_snoc_cases t [] x). cbn [app length]. split; [intros [[->|H%prefix_nil_inv] _]; auto|].
  intros [->| ->]; (split; [auto|]); [left; cbn; lia|]. destruct fuel; [right; split_and!; [done..|lia]|left; cbn; lia].
Qed.

(** The walk visits exactly these. *)
Lemma ancestors_exact fuel m s dirs d :
  Forall plain_name (m ++ s) →
  d ∈ ancestors fuel (abs_path m) (abs_path (m ++ s)) dirs ↔ d ∈ dirs ∨ ∃ t, reached fuel m s t ∧ d = abs_path (m ++ t).
Proof.
  revert fuel dirs. induction s as [|x s IH] using rev_ind; intros [|fuel] dirs H.
  - split; [by left|]. intros [?|(t & [Hp [Ht|(_ & _ & _ & ?)]] & _)]; [done|apply prefix_length in Hp; lia|lia].
  - cbn [ancestors]. rewrite app_nil_r, bool_decide_eq_true_2, add_dir_elem by done. split.
    + intros [->|]; [right; exists []; rewrite app_nil_r; by split; [apply reached_whole|]|by left].
    + intros [?|(t & [Ht%prefix_nil_inv _] & ->)]; [by right|]. subst t. rewrite app_nil_r. by left.
  - split; [by left|]. intros [?|(t & [Hp [Ht|(_ & _ & _ & ?)]] & _)]; [done|apply prefix_length in Hp; lia|lia].
  - assert (Hs : Forall plain_name (m ++ s) ∧ plain_name x).
    { rewrite app_assoc, Forall_app in H. destruct H as [? H]. by apply Forall_cons in H as [? _]. } destruct Hs as [Hs Hx].
    cbn [ancestors]. rewrite bool_decide_eq_false_2.
    2:{ intros E. apply abs_inj in E; [|done|by apply Forall_app in H as [? _]]. apply (f_equal length) in E. rewrite !length_app in E. cbn in E. lia. }
    rewrite app_assoc, dirname_abs by done. rewrite (bool_decide_eq_false_2 (abs_path (m ++ s) = _)).
    2:{ intros E. apply abs_inj in E; [|done|by rewrite <- app_assoc]. apply (f_equal length) in E. rewrite !length_app in E. cbn in E. lia. }
    rewrite within_root by done. cbn [orb].
    assert (Hd : d ∈ add_dir (abs_path ((m ++ s) ++ [x])) dirs ↔ d ∈ dirs ∨ d = abs_path (m ++ s ++ [x])) by (rewrite add_dir_elem, app_assoc; tauto).
    case_bool_decide as Hc; cbn [negb].
    + setoid_rewrite (λ t, reached_snoc fuel m s x t Hc).
      rewrite IH, Hd by done. split; [intros [[?| ->]|(t & ? & ->)]|intros [?|(t & [->|?] & ->)]]; eauto 8.
    + assert (s = []) as -> by (destruct s; [done|exfalso; apply Hc; by right]).
      assert (Hm : m ≠ []) by (intros ->; apply Hc; by left). cbn [app] in *.
      setoid_rewrite (λ t, reached_last fuel m x t Hm). rewrite app_nil_r, bool_decide_eq_true_2, add_dir_elem by done. rewrite app_nil_r in Hd. rewrite Hd.
      split; [intros [->|[?| ->]]|intros [?|(t & [->| ->] & ->)]]; eauto.
      * right. exists []. rewrite app_nil_r. by eauto.
      * rewrite app_nil_r. by left.
Qed.

(** A name that the code takes for a step up. *)
Definition not_dotted (s : list jsstring) : Prop := match s with n :: _ => starts_with n (js "..") = false | [] => True end.

Lemma relative_plain s : Forall plain_name s → not_dotted s → starts_with (js_join [slash] s) (js "..") = false ∧ isAbsolute (js_join [slash] s) = false.
Proof.
  destruct s as [|n s]; [done|]. intros H Hn. apply Forall_cons in H as [(H1 & H2 & H3 & H4) _]. cbn in Hn.
  assert (E : ∃ u, js_join [slash] (n :: s) = n ++ u ∧ match u with [] => True | c :: _ => c = slash end).
  { destruct s as [|y s]; [exists []; by rewrite app_nil_r|]. rewrite js_join_cons. by eexists. }
  destruct E as (u & -> & Hu). destruct n as [|c n]; [done|]. apply not_elem_of_cons in H4 as [Hc _].
  unfold isAbsolute, starts_with in *. apply bool_decide_eq_false in Hn. split; apply bool_decide_eq_false; cbn; [|by intros [= ->]].
  destruct n as [|c' n]; [|cbn in Hn; by destruct n].
  destruct u as [|u0 u]; cbn in *; [done|]. subst u0. intros [= _ ?].
Qed.

Lemma relative_dotted s : Forall plain_name s → ¬ not_dotted s → starts_with (js_join [slash] s) (js "..") = true.
Proof.
  destruct s as [|n s]; [done|]. intros _ Hn. cbn [not_dotted] in Hn. apply not_false_iff_true, starts_with_spec in Hn as [u ->].
  apply starts_with_spec. destruct s as [|y s]; [by exists u|]. rewrite js_join_cons. eexists. by rewrite <- app_assoc.
Qed.

(** The directories that one group adds at one mount. *)
Lemma member_dirs_exact cwd mnt x root mp s d :
  unified x = m_unified mnt → m_root mnt = abs_path root → m_point mnt = abs_path mp → path x = abs_path (root ++ s) →
  Forall plain_name root → Forall plain_name mp → Forall plain_name s →
  d ∈ member_dirs cwd mnt [] x ↔ not_dotted s ∧ ∃ t, reached MAX_DEPTH mp s t ∧ d = abs_path (mp ++ t).
Proof.
  intros Hu Hr Hp Hx H1 H2 H3. unfold member_dirs. rewrite Hu, eqb_reflx, Hr, Hp, Hx. cbn [negb].
  assert (E : (if bool_decide (abs_path (root ++ s) = js "/") then [] else path_relative cwd (abs_path root) (abs_path (root ++ s))) = js_join [slash] s).
  { rewrite relative_abs by done. case_bool_decide as Hc; [|done]. apply (abs_inj _ []) in Hc; [|by apply Forall_app|done]. by apply app_nil in Hc as [_ ->]. }
  rewrite E. assert (Hdec : not_dotted s ∨ ¬ not_dotted s) by (destruct s as [|n s']; cbn; [by left|]; destruct (starts_with n (js "..")); auto).
  destruct Hdec as [Hn|Hn].
  - destruct (relative_plain s) as [-> ->]; [done..|]. cbn [orb]. rewrite join_abs, ancestors_exact by (done || by apply Forall_app).
    rewrite elem_of_nil. naive_solver.
  - rewrite relative_dotted by done. cbn [orb]. rewrite elem_of_nil. naive_solver.
Qed.

Lemma ancestors_adds fuel mp dir dirs d : d ∈ ancestors fuel mp dir dirs ↔ d ∈ dirs ∨ d ∈ ancestors fuel mp dir [].
Proof.
  revert dir dirs. induction fuel as [|fuel IH]; intros dir dirs; cbn [ancestors]; [rewrite elem_of_nil; tauto|].
  repeat case_match; rewrite ?(IH _ (add_dir _ dirs)), ?(IH _ (add_dir _ [])), ?add_dir_elem, ?elem_of_nil; tauto.
Qed.

Lemma member_dirs_adds cwd mnt dirs x d : d ∈ member_dirs cwd mnt dirs x ↔ d ∈ dirs ∨ d ∈ member_dirs cwd mnt [] x.
Proof.
  assert (Hnil : d ∈ dirs ↔ d ∈ dirs ∨ d ∈ []) by (split; [by left|intros [?|?%elem_of_nil]; done]).
  unfold member_dirs. destruct (negb _); [exact Hnil|]. cbv zeta. destruct (_ || _); [exact Hnil|]. apply ancestors_adds.
Qed.

(** A fold whose steps add to a list what their element stands for. *)
Lemma fold_adds {A B} (f : list A → B → list A) (P : B → A → Prop) (l : list B) dirs d :
  (∀ ds x, d ∈ f ds x ↔ d ∈ ds ∨ P x d) → d ∈ foldl f dirs l ↔ d ∈ dirs ∨ ∃ x, x ∈ l ∧ P x d.
Proof.
  intros Hf. revert dirs. induction l as [|x l IH]; intros dirs; cbn [foldl].
  - split; [by left|]. intros [?|(x & H%elem_of_nil & _)]; done.
  - rewrite IH, Hf. setoid_rewrite elem_of_cons. naive_solver.
Qed.

(** ** The least of what is known *)

Lemma positive_finite n : positive n = true → ∃ q, n = JNum q.
Proof. destruct n; [eauto|done..]. Qed.

Lemma num_le_Q p q : num_le (JNum p) (JNum q) = true ↔ (p <= q)%Q.
Proof. exact (Qle_bool_iff p q). Qed.

Lemma num_min_spec p q : ∃ m, num_min (JNum p) (JNum q) = JNum m ∧ (m <= p)%Q ∧ (m <= q)%Q ∧ (JNum m = JNum p ∨ JNum m = JNum q).
Proof.
  unfold num_min. destruct (num_le (JNum p) (JNum q)) eqn:E; [apply num_le_Q in E; exists p; split; [done|]; split; [apply Qle_refl|]; split; [done|by left]|exists q].
  assert (H : ¬ (p <= q)%Q) by (rewrite <- num_le_Q; congruence). apply Qnot_le_lt in H. split; [done|]. split; [by apply Qlt_le_weak|]. split; [apply Qle_refl|by right].
Qed.

(** [e] is the least of the numbers in [P], all of them finite. *)
Definition is_least (P : jsnum → Prop) (e : jsnum) : Prop := P e ∧ ∀ x, P x → num_le e x = true.

Lemma is_least_eq (P Q : jsnum → Prop) e : (∀ x, P x ↔ Q x) → is_least P e → is_least Q e.
Proof. intros H [He Hl]. split; [by apply H|]. intros x Hx. by apply Hl, H. Qed.

Lemma least_one q : is_least (λ x, x = JNum q) (JNum q).
Proof. split; [done|]. intros x ->. apply num_le_Q, Qle_refl. Qed.

Lemma least_union (P Q : jsnum → Prop) p q : is_least P (JNum p) → is_least Q (JNum q) → is_least (λ x, P x ∨ Q x) (num_min (JNum p) (JNum q)).
Proof.
  intros [Hp Lp] [Hq Lq]. destruct (num_min_spec p q) as (m & -> & H1 & H2 & H3). split; [destruct H3 as [-> | ->]; auto|].
  assert (Hle : ∀ u x, (m <= u)%Q → num_le (JNum u) x = true → num_le (JNum m) x = true).
  { intros u [y|[]|] Hu Hx; [|done..]. apply num_le_Q. apply num_le_Q in Hx. by eapply Qle_trans. }
  intros x [Hx|Hx]; [by apply (Hle p), Lp|by apply (Hle q), Lq].
Qed.

Section least.
Context (cwd : jsstring) (read : jsstring → option jsstring) (r : MemorySignalReader) (host : platform).

(** A limit that the files of a directory set. *)
Definition limit_in (dirs : list jsstring) (n : jsnum) : Prop := ∃ d f, d ∈ dirs ∧ f ∈ limit_files ∧ limit_of (read (at_ d f.1)) = Some n.

Lemma limit_positive text n : limit_of text = Some n → positive n = true.
Proof.
  unfold limit_of. destruct (js_trim <$> text) as [t|]; [|done]. cbn [mbind option_bind]. case_bool_decide; [done|].
  destruct (positive _ && _) eqn:E; [|done]. intros [= <-]. by apply andb_prop in E as [? _].
Qed.

(** The smallest limit so far, of those in [P]. *)
Definition tracks (P : jsnum → Prop) (g : readings) : Prop :=
  (∀ x, P x → positive x = true) ∧ match g_cgroupBytes g with Some b => is_least P b | None => ∀ x, ¬ P x end.

Lemma tracks_read_limit P Q d f g :
  tracks P g → (∀ x, Q x ↔ P x ∨ limit_of (read (at_ d f.1)) = Some x) → tracks Q (read_limit read d g f).
Proof.
  intros [Hp H] HQ. split; [intros x [?|?%limit_positive]%HQ; auto|]. unfold read_limit. destruct (limit_of (read (at_ d f.1))) as [l|] eqn:El.
  - cbn [g_cgroupBytes]. pose proof (limit_positive _ _ El) as Hl. destruct (positive_finite l Hl) as [ql ->].
    assert (HQ' : ∀ x, Q x ↔ P x ∨ x = JNum ql) by (intros x; rewrite HQ; naive_solver). destruct (g_cgroupBytes g) as [b|].
    + destruct (positive_finite b (Hp b (proj1 H))) as [qb ->]. eapply is_least_eq; [|exact (least_union _ _ _ _ H (least_one ql))]. intros x. by rewrite HQ'.
    + eapply is_least_eq; [|exact (least_one ql)]. intros x. rewrite HQ'. naive_solver.
  - assert (HQ' : ∀ x, Q x ↔ P x) by (intros x; rewrite HQ; naive_solver). destruct (g_cgroupBytes g) as [b|].
    + destruct H as [Hb Hl]. split; [by apply HQ'|]. intros x Hx. by apply Hl, HQ'.
    + intros x Hx%HQ'. by apply H in Hx.
Qed.

Lemma read_psi_bytes s g : g_cgroupBytes (read_psi r s g) = g_cgroupBytes g.
Proof. unfold read_psi. by repeat case_match. Qed.

Lemma tracks_psi P s g : tracks P (read_psi r s g) ↔ tracks P g.
Proof. unfold tracks. by rewrite read_psi_bytes. Qed.

Lemma tracks_directory done d g : tracks (limit_in done) g → tracks (limit_in (done ++ [d])) (read_directory read r g d).
Proof.
  intros H. unfold read_directory. rewrite tracks_psi. unfold limit_files. cbn [foldl].
  apply (tracks_read_limit (λ x, limit_in done x ∨ limit_of (read (at_ d (js "memory.max"))) = Some x)); [by apply (tracks_read_limit (limit_in done))|]. intros x. unfold limit_in. split.
  - intros (d' & f & Hd & Hf & Hx). apply elem_of_app in Hd as [Hd|Hd]; [left; left; eauto|]. apply list_elem_of_singleton in Hd. subst d'. set_solver.
  - intros [[(d' & f & Hd & Hf & Hx)|Hx]|Hx]; [exists d', f|exists d, (js "memory.max", js "memory.current")|exists d, (js "memory.limit_in_bytes", js "memory.usage_in_bytes")];
      (split; [set_solver|]; split; [|done]); unfold limit_files in *; set_solver.
Qed.

Lemma tracks_directories done dirs g : tracks (limit_in done) g → tracks (limit_in (done ++ dirs)) (foldl (read_directory read r) g dirs).
Proof.
  revert done g. induction dirs as [|d dirs IH]; intros done g H; cbn [foldl]; [by rewrite app_nil_r|].
  replace (done ++ d :: dirs) with ((done ++ [d]) ++ dirs) by (by rewrite <- app_assoc). by apply IH, tracks_directory.
Qed.

Lemma tracks_collected : tracks (limit_in (cgroupDirectories cwd read r)) (collected cwd read r host).
Proof.
  unfold collected. rewrite tracks_psi. apply (tracks_directories []). split; [|cbn]; by intros x (d & f & Hd%not_elem_of_nil & _).
Qed.

(** C38: the effective memory is the least of the host's memory and of every limit
    set in one of the directories that are looked at, and unknown only when there
    is none of them. These directories are the configured ones, and those that a
    group of the process adds at a mount of its hierarchy. At a mount of [root] on
    [mp], a group at [s] below that root, all of plain names, adds exactly the
    groups from itself up to the mount point, the innermost sixty-four of them (and
    the mount point, if it is the sixty-fifth); but none at all when its first name
    below the root starts with two dots. *)
Theorem memory_limits_respected :
  let dirs := cgroupDirectories cwd read r in
  let members := membership (read (js "/proc/self/cgroup")) in
  let mounts := omap mount_line (split_from [10] 0 (read (js "/proc/self/mountinfo") ?? [])) in
  let root := cgroupRoot r ?? js "/sys/fs/cgroup" in
  let known n := n = (hostMemoryBytes r ?? totalmem host) ∧ positive n = true ∨ limit_in dirs n in
  match resolveEffectiveMemory cwd read r host with
  | Some e => is_least known e
  | None => ∀ n, ¬ known n
  end ∧
  (∀ d, d ∈ dirs ↔
     d ∈ root :: (root ++ js "/memory") :: cgroupPaths r ∨ ∃ mnt x, mnt ∈ mounts ∧ x ∈ members ∧ d ∈ member_dirs cwd mnt [] x) ∧
  (∀ mnt x root mp s d,
     unified x = m_unified mnt → m_root mnt = abs_path root → m_point mnt = abs_path mp → path x = abs_path (root ++ s) →
     Forall plain_name root → Forall plain_name mp → Forall plain_name s →
     d ∈ member_dirs cwd mnt [] x ↔ not_dotted s ∧ ∃ t, reached 64 mp s t ∧ d = abs_path (mp ++ t)).
Proof.
  split.
  - unfold resolveEffectiveMemory, readMemorySignals. cbn [s_effectiveBytes]. pose proof tracks_collected as [Hp H].
    set (h := hostMemoryBytes r ?? totalmem host). set (L := limit_in _) in *.
    assert (Hh : positive h = true → ∃ p, h = JNum p) by apply positive_finite.
    destruct (g_cgroupBytes (collected cwd read r host)) as [b|]; cbn [List.filter].
    + assert (Hb : positive b = true) by (apply Hp, H). rewrite Hb. destruct (positive_finite _ Hb) as [q ->]. destruct (positive h) eqn:Eh; cbn [least foldl].
      * destruct (Hh eq_refl) as [p Ep]. rewrite Ep. eapply is_least_eq; [|exact (least_union _ _ _ _ (least_one p) H)]. intros x. rewrite Ep in Eh. split; [intros [->|?]; auto|intros [[? _]|?]; auto].
      * eapply is_least_eq; [|exact H]. intros x. split; [by right|]. intros [[-> ?]|?]; [congruence|done].
    + destruct (positive h) eqn:Eh; cbn [least foldl]; [destruct (Hh eq_refl) as [p Ep]; rewrite Ep|].
      * eapply is_least_eq; [|exact (least_one p)]. intros x. rewrite Ep in Eh. split; [intros ->; by left|]. by intros [[? _]|?%H].
      * intros x [[-> ?]|?%H]; congruence.
  - split; [|intros mnt x root mp s d; apply member_dirs_exact]. intros d. unfold cgroupDirectories. cbv zeta.
    rewrite (fold_adds _ (λ m d, ∃ x, x ∈ membership (read (js "/proc/self/cgroup")) ∧ d ∈ member_dirs cwd m [] x)).
    2:{ intros ds m. apply (fold_adds _ (λ x d, d ∈ member_dirs cwd m [] x)). intros. apply member_dirs_adds. }
    rewrite (fold_adds (λ ds d, add_dir d ds) (λ x d, d = x)) by (intros; rewrite add_dir_elem; tauto). rewrite elem_of_nil. naive_solver.
Qed.
End least.

(** ** A container *)

(** Version two control groups, with a limit on the parent of the process's own
    group only. *)
Definition toy_files (p : jsstring) : option jsstring :=
  let file s := bool_decide (p = js s) in
  if file "/proc/self/cgroup" then Some (js "0::/app/web" ++ [10])
  else if file "/proc/self/mountinfo" then Some (js "31 23 0:26 / /sys/fs/cgroup rw,nosuid shared:9 - cgroup2 cgroup2 rw" ++ [10])
  else if file "/sys/fs/cgroup/app/memory.max" then Some (js "1073741824" ++ [10])
  else if file "/sys/fs/cgroup/app/memory.current" then Some (js "805306368" ++ [10])
  else if file "/sys/fs/cgroup/app/web/memory.max" then Some (js "max" ++ [10])
  else if file "/proc/pressure/memory" then Some (js "some avg10=1.50 avg60=0.00" ++ [10])
  else None.

Definition no_overrides : MemorySignalReader :=
  {| hostMemoryBytes := None; rssBytes := None; heapUsedBytes := None; heapTotalBytes := None; heapLimitBytes := None; availableMemoryBytes := None;
     psiSomeAvg10 := None; cgroupRoot := None; cgroupPaths := [] |}.

Definition toy_host : platform :=
  {| totalmem := JInt 17179869184; freemem := JInt 4294967296; process_available := None; usage_rss := JInt 1; usage_heapUsed := JInt 1; usage_heapTotal := JInt 1; heap_size_limit := JInt 1 |}.

Example signals_demo :
  cgroupDirectories (js "/") toy_files no_overrides = [js "/sys/fs/cgroup"; js "/sys/fs/cgroup/memory"; js "/sys/fs/cgroup/app/web"; js "/sys/fs/cgroup/app"] ∧
  let s := readMemorySignals (js "/") toy_files no_overrides toy_host in
  (s_effectiveBytes s, s_availableBytes s, s_psiSomeAvg10 s) = (Some (JInt 1073741824), Some (JInt 268435456), Some (JNum (3 # 2))).
Proof. split; vm_compute; reflexivity. Qed.

(** A group whose name starts with two dots is taken for one outside the mount, and
    its limit is not read. *)
Example dotted_group_skipped :
  let mnt := {| m_unified := true; m_root := js "/"; m_point := js "/sys/fs/cgroup" |} in
  member_dirs (js "/") mnt [] {| unified := true; path := js "/..data" |} = [] ∧
  member_dirs (js "/") mnt [] {| unified := true; path := js "/data" |} = [js "/sys/fs/cgroup/data"; js "/sys/fs/cgroup"].
Proof. split; vm_compute; reflexivity. Qed.

(** The limit of the parent group is found, though the group's own is not set. *)
Lemma memory_limits_respected_witness :
  abs_path [js "sys"; js "fs"; js "cgroup"; js "app"] ∈ cgroupDirectories (js "/") toy_files no_overrides.
Proof.
  destruct (memory_limits_respected (js "/") toy_files no_overrides toy_host) as (_ & Hall & Hone).
  apply Hall. right. exists {| m_unified := true; m_root := js "/"; m_point := js "/sys/fs/cgroup" |}, {| unified := true; path := js "/app/web" |}.
  split; [vm_compute; left|]. split; [vm_compute; left|].
  apply (Hone {| m_unified := true; m_root := js "/"; m_point := js "/sys/fs/cgroup" |} {| unified := true; path := js "/app/web" |} [] [js "sys"; js "fs"; js "cgroup"] [js "app"; js "web"] _ eq_refl eq_refl eq_refl eq_refl).
  - constructor.
  - repeat (constructor; [split_and!; apply (bool_decide_unpack _); vm_compute; exact I|]). constructor.
  - repeat (constructor; [split_and!; apply (bool_decide_unpack _); vm_compute; exact I|]). constructor.
  - split; [apply (bool_decide_unpack _); vm_compute; exact I|]. exists [js "app"]. split; [|reflexivity].
    split; [eexists; reflexivity|left; vm_compute; lia].
Defined.
