(* ===== verification/MemoryLimits.v ===== *)
(** * Memory limits and the shared budget ([src/src/cache/memoryBudget.ts])

    The limits a budget is made from, numbers or texts such as [20%] and [64MiB],
    the constructor over them, and the budget a process shares. Arithmetic is that
    of doubles, [JsRuntime]. *)

From S2P Require Import Prelude JsValue Pattern JsRuntime MemoryBudget MemorySignals.

Inductive MemoryLimit := LimitNumber (n : jsnum) | LimitText (s : jsstring).

(** A [RangeError] or an [Error]. *)
Inductive limit_error := BadPercentage | InvalidLimit | BadSampleInterval | BadMaxMemory | BadMinMemory | Conflicting.

Definition units : list (jsstring * Z) :=
  [(js "B", 1); (js "KB", 1000); (js "MB", 1000000); (js "GB", 1000000000); (js "KiB", 1024); (js "MiB", 2 ^ 20); (js "GiB", 2 ^ 30)].

Definition is_mantissa (c : Z) : bool := is_digit c || (c =? 46).

(** [parseLimit]; what is not [number%] or [number unit] is invalid. *)
Definition parseLimit (value : MemoryLimit) (capacity : jsnum) : result limit_error jsnum :=
  match value with
  | LimitNumber n => Ok n
  | LimitText s =>
      let '(digits, unit) := span is_mantissa s in
      if bool_decide (digits = []) then Throw InvalidLimit
      else if bool_decide (unit = js "%") then
        let p := string_to_number digits in
        if num_le p (JInt 0) || num_lt (JInt 100) p then Throw BadPercentage
        else Ok (num_div_pos (num_mul capacity p) 100)
      else match assoc unit units with
      | Some u => Ok (num_mul (string_to_number digits) (JInt u))
      | None => Throw InvalidLimit
      end
  end.

Record MemoryBudgetOptions := { maxMemory : MemoryLimit; minMemory : option MemoryLimit; sampleIntervalMs : option jsnum }.

(** What percentages are of. *)
Definition capacity_of (s : signals) (o : MemoryBudgetOptions) : jsnum :=
  s_effectiveBytes s ?? (match maxMemory o with LimitNumber n => n | LimitText _ => JInt 0 end).

(** [Math.floor] where the result is tested at once for being a finite integer. *)
Definition floor_positive (n : jsnum) (e : limit_error) : result limit_error Z :=
  if num_is_finite n && (0 <? num_floor n) then Ok (num_floor n) else Throw e.

(** The constructor. *)
Definition constructBudget (s : signals) (o : MemoryBudgetOptions) : result limit_error MemoryBudget :=
  let capacity := capacity_of s o in
  if match sampleIntervalMs o with Some i => num_lt i (JInt 0) || negb (num_is_finite i) | None => false end then Throw BadSampleInterval
  else
    max <~ parseLimit (maxMemory o) capacity;;
    hardCap <~ floor_positive max BadMaxMemory;;
    least <~ (match minMemory o with
      | None => Ok None
      | Some m =>
          n <~ parseLimit m capacity;;
          m <~ floor_positive n BadMinMemory;;
          if hardCap <? m then Throw BadMinMemory else Ok (Some m)
      end);;
    match newMemoryBudget hardCap least with Some b => Ok b | None => Throw BadMaxMemory end.

(** [getDefaultMemoryBudget] and [resetDefaultMemoryBudget]; the signals are what
    a reading of the options' [memory] answers. *)
Definition default_options : MemoryBudgetOptions := {| maxMemory := LimitText (js "20%"); minMemory := None; sampleIntervalMs := Some (JInt 5000) |}.

Definition num_eq (a b : jsnum) : bool := num_le a b && num_le b a.

Definition getDefaultMemoryBudget (s : signals) (o : option MemoryBudgetOptions) (shared : option MemoryBudget) : result limit_error MemoryBudget :=
  match shared with
  | None => constructBudget s (o ?? default_options)
  | Some b =>
      match o with
      | None => Ok b
      | Some o =>
          n <~ parseLimit (maxMemory o) (capacity_of s o);;
          if num_eq n (JInt (mb_hardCap b)) then Ok b else Throw Conflicting
      end
  end.

Definition resetDefaultMemoryBudget (shared : option MemoryBudget) : option MemoryBudget * option MemoryBudget := (closeBudget <$> shared, None).

(** ** What a budget is made of *)

Lemma floor_positive_ok n e z : floor_positive n e = Ok z → 0 < z ∧ ∃ q, n = JNum q ∧ (inject_Z z <= q)%Q ∧ (q < inject_Z (z + 1))%Q.
Proof.
  unfold floor_positive. destruct n as [q| |]; [|done..]. destruct (_ && _) eqn:E; [|done]. intros [= <-]. bools. split; [done|].
  exists q. split; [done|]. unfold num_floor, Qle, Qlt. cbn. pose proof (Z.div_mod (Qnum q) (Zpos (Qden q)) ltac:(lia)).
  pose proof (Z.mod_pos_bound (Qnum q) (Zpos (Qden q)) ltac:(lia)). nia.
Qed.

(** The hard cap is the integer part of the limit that is asked for, the minimum
    is a positive integer no greater, and the budget satisfies the invariant that
    every later operation keeps. *)
Lemma constructed_budget s o b :
  constructBudget s o = Ok b →
  budget_ok b ∧ mb_target b = mb_hardCap b ∧ mb_used b = 0 ∧
  (∃ q, parseLimit (maxMemory o) (capacity_of s o) = Ok (JNum q) ∧ (inject_Z (mb_hardCap b) <= q)%Q ∧ (q < inject_Z (mb_hardCap b + 1))%Q) ∧
  match minMemory o with Some _ => ∃ m, mb_minMemory b = Some m ∧ 0 < m <= mb_hardCap b | None => mb_minMemory b = None end.
Proof.
  unfold constructBudget. destruct (match sampleIntervalMs o with Some _ => _ | None => _ end); [done|].
  intros H. apply rbind_ok in H as (mx & Hmx & H). apply rbind_ok in H as (hc & Hhc & H). apply rbind_ok in H as (mn & Hmn & H).
  apply floor_positive_ok in Hhc as (Hpos & q & -> & Hq). destruct (newMemoryBudget hc mn) as [b'|] eqn:E; [|done]. injection H as ->.
  pose proof (newMemoryBudget_ok _ _ _ E) as Hok.
  assert (Hn : match mn with Some m => 0 < m <= hc | None => True end).
  { destruct (minMemory o) as [m|]; [|by injection Hmn as <-]. apply rbind_ok in Hmn as (n & _ & Hmn).
    apply rbind_ok in Hmn as (m' & [? _]%floor_positive_ok & Hmn). case_match; simplify_eq; bools. lia. }
  assert (Hf : mb_hardCap b = hc ∧ mb_minMemory b = mn ∧ mb_target b = hc ∧ mb_used b = 0).
  { revert E. unfold newMemoryBudget. repeat case_match; intros; simplify_eq; done. } destruct Hf as (-> & -> & -> & ->).
  split; [done|]. split; [done|]. split; [done|]. split; [by exists q|].
  destruct (minMemory o) as [m|]; [|by injection Hmn as <-]. destruct mn as [m'|]; [by exists m'|].
  apply rbind_ok in Hmn as (n & _ & Hmn). apply rbind_ok in Hmn as (m' & _ & Hmn). by case_match.
Qed.

(** A whole number of units is what the text says, when a double can hold it. *)
Example parse_numbers_demo :
  map (λ s, parseLimit (LimitText (js s)) (JInt 1000)) ["64MiB"; "1.5KB"; "20%"; "0%"; "101%"; "1.2.3B"; "12"; "12 B"]%string =
  [Ok (JInt 67108864); Ok (JInt 1500); Ok (JInt 200); Throw BadPercentage; Throw BadPercentage; Ok JNaN; Throw InvalidLimit; Throw InvalidLimit].
Proof. vm_compute. reflexivity. Qed.

(** ** The shared budget *)

Definition host_signals (bytes : Z) : signals :=
  {| s_hostBytes := Some (JInt bytes); s_effectiveBytes := Some (JInt bytes); s_rssBytes := None; s_heapUsedBytes := None; s_heapTotalBytes := None;
     s_heapLimitBytes := None; s_availableBytes := None; s_psiSomeAvg10 := None; s_cgroupBytes := None |}.

(** With sixteen gibibytes, the shared budget conflicts with the very options it
    was made from: the limit is compared before it is rounded down. *)
Lemma default_budget_conflicts_with_itself :
  let s := host_signals (2 ^ 34) in
  match getDefaultMemoryBudget s (Some default_options) None with
  | Ok b => mb_hardCap b = 3435973836 ∧ getDefaultMemoryBudget s (Some default_options) (Some b) = Throw Conflicting
  | Throw _ => False
  end.
Proof. vm_compute. split; reflexivity. Qed.
