(* ===== verification/LoaderTimeout.v ===== *)
(** * Loader deadlines ([src/src/cache/hybridCache.ts], [runLoaderWithTimeouts],
      [raceWithTimeout] and [sleep])

    A loader races a timer and the abortion of its controller. What happens is a
    sequence of turns of the event loop: the loader settles, the timer fires, the
    controller is aborted. *)

From S2P Require Import Prelude CacheOptions.

Section race.
Context {V E : Type}.

(** Why a controller is aborted: [closed] for a [CacheClosedError]. *)
Record reason := { closed : bool; error_of : E }.

Inductive turn := LoaderResolves (v : option V) | LoaderRejects (e : E) | TimerFires | Aborts (r : reason).

(** What [raceWithTimeout] answers or throws. *)
Inductive race_result := Value (v : option V) | TimedOut | Failed (e : E).

(** [listening]: the listener is on the signal; [armed]: the timer is set. *)
Record loader_race := { result_of : option race_result; listening : bool; armed : bool; loader_done : bool; aborted : option reason }.

(** The race is settled: its [finally]. *)
Definition finish (o : race_result) (s : loader_race) : loader_race :=
  {| result_of := Some o; listening := false; armed := false; loader_done := loader_done s; aborted := aborted s |}.

(** [raceWithTimeout] up to its await. *)
Definition raceWithTimeout (signal : option reason) : loader_race :=
  let s := {| result_of := None; listening := match signal with None => true | Some _ => false end; armed := true; loader_done := false; aborted := signal |} in
  match signal with
  | Some r => if closed r then s else finish (Failed (error_of r)) s
  | None => s
  end.

Definition set_done (s : loader_race) : loader_race := {| result_of := result_of s; listening := listening s; armed := armed s; loader_done := true; aborted := aborted s |}.
Definition set_aborted (r : reason) (s : loader_race) : loader_race :=
  {| result_of := result_of s; listening := false; armed := armed s; loader_done := loader_done s; aborted := match aborted s with None => Some r | a => a end |}.

Definition settle (o : race_result) (s : loader_race) : loader_race := match result_of s with None => finish o s | Some _ => s end.

Definition race_step (s : loader_race) (t : turn) : loader_race :=
  match t with
  | LoaderResolves v => if loader_done s then s else settle (Value v) (set_done s)
  | LoaderRejects e => if loader_done s then s else settle (Failed e) (set_done s)
  | TimerFires => if armed s then settle TimedOut s else s
  | Aborts r => if listening s && negb (closed r) then settle (Failed (error_of r)) (set_aborted r s) else set_aborted r s
  end.

(** *** The loader's call *)

Inductive deadline := SoftTimeout | HardTimeout.

(** What [runLoaderWithTimeouts] answers. *)
Inductive loader_result := LoaderValue (v : option V) | LoaderFailed (e : E) | LoaderTimeoutError (reason : deadline).

(** Which deadline runs; [stale]: there is a stale copy. *)
Definition choose_deadline (self o : CacheOptions Z) (stale : bool) : deadline * Z :=
  match pick self timeouts to_softMs o with
  | Some softMs => if stale && failSafeEnabled self o then (SoftTimeout, softMs) else (HardTimeout, hardTimeoutMs self o)
  | None => (HardTimeout, hardTimeoutMs self o)
  end.

(** [abort_reason]: what [controller.abort()] gives. The last component is the
    event that is emitted, [loader:timeout] with its [timeoutMs]. *)
Definition runLoaderWithTimeouts (abort_reason : reason) (self o : CacheOptions Z) (stale : bool) (s : loader_race) : option (loader_result * loader_race * list Z) :=
  let '(d, ms) := choose_deadline self o stale in
  match result_of s with
  | None => None
  | Some (Value v) => Some (LoaderValue v, s, [])
  | Some (Failed e) => Some (LoaderFailed e, s, [])
  | Some TimedOut => Some (LoaderTimeoutError d, set_aborted abort_reason s, [ms])
  end.

(** ** What the race answers *)

(** What a turn decides; [listens]: the signal was not aborted before. *)
Definition decides (listens : bool) (t : turn) : option race_result :=
  match t with
  | LoaderResolves v => Some (Value v)
  | LoaderRejects e => Some (Failed e)
  | TimerFires => Some TimedOut
  | Aborts r => if listens && negb (closed r) then Some (Failed (error_of r)) else None
  end.

(** The first turn that decides: an abortion because the cache closes does not, and
    leaves the other turns to. *)
Fixpoint first_decision (listens : bool) (turns : list turn) : option race_result :=
  match turns with
  | [] => None
  | t :: ts => match decides listens t with
      | Some o => Some o
      | None => first_decision (match t with Aborts _ => false | _ => listens end) ts
      end
  end.

Definition race_ok (s : loader_race) : Prop :=
  match result_of s with None => armed s = true ∧ loader_done s = false | Some _ => armed s = false ∧ listening s = false end.

Lemma race_settled s o turns : result_of s = Some o → race_ok s → result_of (foldl race_step s turns) = Some o ∧ race_ok (foldl race_step s turns).
Proof.
  revert s. induction turns as [|t turns IH]; intros s Hs H; [done|]. cbn [foldl]. apply IH; unfold race_ok in *; destruct s as [ro li ar ld ab]; cbn in *; subst ro;
    destruct H as [-> ->], t; cbn; unfold settle; cbn; repeat case_match; done.
Qed.

Lemma race_decided s turns :
  result_of s = None → race_ok s → result_of (foldl race_step s turns) = first_decision (listening s) turns ∧ race_ok (foldl race_step s turns).
Proof.
  revert s. induction turns as [|t turns IH]; intros s Hs H; [done|]. unfold race_ok in H. rewrite Hs in H. destruct H as [Ha Hd]. destruct s as [ro li ar ld ab]; cbn in *. subst ro ar ld.
  destruct t as [v|e| |r]; cbn; [apply (race_settled _ _ turns); done..|]. destruct (li && negb (closed r)) eqn:Ec; cbn; [apply (race_settled _ _ turns); done|].
  by apply IH.
Qed.

(** C37: a load answers what the first turn decides: the loader's value or error,
    the error of an abortion, or the deadline; a cache that closes leaves the loader
    its deadline. The timer bounds the wait, and once the load is decided neither
    timer nor listener is left, and later turns change nothing. When the deadline
    passes the controller is aborted and one event emitted. *)
Theorem loader_race_exact abort_reason self o stale signal turns :
  let s := foldl race_step (raceWithTimeout signal) turns in
  let decision := match signal with Some r => if closed r then first_decision false turns else Some (Failed (error_of r)) | None => first_decision true turns end in
  result_of s = decision ∧
  (TimerFires ∈ turns → is_Some decision) ∧
  match runLoaderWithTimeouts abort_reason self o stale s with
  | None => decision = None ∧ armed s = true
  | Some (answer, s', events) =>
      armed s' = false ∧ listening s' = false ∧
      match decision with
      | Some (Value v) => answer = LoaderValue v ∧ events = []
      | Some (Failed e) => answer = LoaderFailed e ∧ events = []
      | Some TimedOut => is_Some (aborted s') ∧ answer = LoaderTimeoutError (choose_deadline self o stale).1 ∧ events = [(choose_deadline self o stale).2]
      | None => False
      end
  end.
Proof.
  cbv zeta. set (s0 := raceWithTimeout signal).
  assert (H : result_of (foldl race_step s0 turns) = (match signal with Some r => if closed r then first_decision false turns else Some (Failed (error_of r)) | None => first_decision true turns end)
    ∧ race_ok (foldl race_step s0 turns)).
  { subst s0. destruct signal as [r|]; cbn; [destruct (closed r) eqn:Ec; [by apply race_decided|by apply race_settled]|by apply race_decided]. }
  destruct H as [H Hok]. split; [done|]. split.
  - assert (Ht : ∀ b, TimerFires ∈ turns → is_Some (first_decision b turns)).
    { clear. induction turns as [|t turns IH]; intros b; [by intros ?%not_elem_of_nil|]. cbn. destruct (decides b t) eqn:Ed; [done|].
      intros [<-|Hin]%elem_of_cons; [done|by apply IH]. }
    intros Hin. destruct signal as [r|]; [destruct (closed r)|]; auto.
  - unfold runLoaderWithTimeouts. destruct (choose_deadline self o stale) as [d ms]. unfold race_ok in Hok. rewrite <- H.
    destruct (result_of (foldl race_step s0 turns)) as [[v| |e]|]; cbn; [tauto| |tauto|tauto].
    destruct Hok as [Ha _]. split; [done|]. split; [done|]. split; [|done]. by destruct (aborted _).
Qed.

(** *** [sleep] *)

Inductive sleeping := Asleep | Woken | Interrupted (e : E).

Definition sleep_start (signal : option reason) : sleeping := match signal with Some r => Interrupted (error_of r) | None => Asleep end.

Definition sleep_step (s : sleeping) (t : turn) : sleeping :=
  match s, t with
  | Asleep, TimerFires => Woken
  | Asleep, Aborts r => Interrupted (error_of r)
  | _, _ => s
  end.

End race.

(** The automatic in-flight lifetime covers the lock's wait and the hard deadline,
    not the soft one: with a soft deadline beyond it the entry expires while its
    leader still loads, and a caller that comes then loads as well. *)
Lemma soft_deadline_outlives_inflight :
  let self := {| ttlMs := None; inflight_options := None; originLoad := None; negativeCache := None; failSafe := None;
                 timeouts := Some {| to_softMs := Some 60000; to_hardMs := Some 1000 |}; versioning := None; distributedLock := None |} in
  choose_deadline self no_options true = (SoftTimeout, 60000) ∧ getInflightTtlMs self true no_options = 11100.
Proof. vm_compute. split; reflexivity. Qed.

(** The cache closes, and the loader still has until its deadline. *)
Lemma loader_race_exact_witness :
  let closing := {| closed := true; error_of := tt |} in
  let s := foldl race_step (raceWithTimeout (V := nat) None) [Aborts closing; LoaderResolves (Some 7%nat); TimerFires] in
  result_of s = Some (Value (Some 7%nat)) ∧ is_Some (first_decision true [Aborts closing; LoaderResolves (Some 7%nat); TimerFires]).
Proof.
  cbv zeta.
  destruct (loader_race_exact {| closed := false; error_of := tt |} no_options no_options false None
    [Aborts {| closed := true; error_of := tt |}; LoaderResolves (Some 7%nat); TimerFires]) as (H & Ht & _).
  split; [rewrite H; reflexivity|]. apply Ht. right. right. left.
Defined.
