(* ===== verification/CacheFrame.v ===== *)
(** * Making and observing a cache ([src/src/cache/hybridCache.ts], the constructor,
      [setupObservability], [ready], [on] and [emit]; [src/src/observability/inspector.ts],
      [server.ts] and [telemetry.ts])

    The constructor lists what it does, in order, until it returns or throws;
    whether the parts it makes can be made is an argument. Event handlers are a
    JavaScript set that its own iteration may change. *)

From S2P Require Import Prelude JsValue Pattern CacheOptions OriginLoadGate Coordination CacheEvents EventEncoding ObsOptions.

(** ** Event handlers *)

(** A set in insertion order; a deleted element leaves its slot, so that an
    iteration keeps its place. *)
Section js_set.
Context {A : Type} `{EqDecision A}.

Inductive set_op := SetAdd (a : A) | SetDelete (a : A).

Definition set_has (a : A) (slots : list (option A)) : bool := bool_decide (Some a ∈ slots).
Definition set_add (a : A) (slots : list (option A)) : list (option A) := if set_has a slots then slots else slots ++ [Some a].
Definition set_delete (a : A) (slots : list (option A)) : list (option A) := map (λ s, if bool_decide (s = Some a) then None else s) slots.
Definition apply_op (slots : list (option A)) (o : set_op) : list (option A) := match o with SetAdd a => set_add a slots | SetDelete a => set_delete a slots end.

(** What calling a handler does: the state of the world after it, what it adds and
    deletes, and whether it throws. *)
Context {W : Type} (invoke : A → W → W * list set_op * bool).

(** [for (const handler of handlers) try { handler(event) } catch { log }] from slot
    [i]; [None]: out of fuel. *)
Fixpoint visit (fuel i : nat) (slots : list (option A)) (w : W) : option (list (option A) * W * list (A * bool)) :=
  match fuel with
  | O => None
  | S fuel =>
      match slots !! i with
      | None => Some (slots, w, [])
      | Some None => visit fuel (S i) slots w
      | Some (Some a) =>
          let '(w', ops, threw) := invoke a w in
          match visit fuel (S i) (foldl apply_op slots ops) w' with
          | Some (slots', w'', calls) => Some (slots', w'', (a, threw) :: calls)
          | None => None
          end
      end
  end.

(** [publishTelemetry]: the channel has subscribers, or nothing is published. *)
Definition publishTelemetry (hasSubscribers : bool) (published : nat) : nat := if hasSubscribers then S published else published.

(** [emit] *)
Definition emit (fuel : nat) (hasSubscribers : bool) (slots : list (option A)) (w : W) (published : nat) : option (list (option A) * W * list (A * bool) * nat) :=
  match visit fuel 0 slots w with
  | Some (slots', w', calls) => Some (slots', w', calls, publishTelemetry hasSubscribers published)
  | None => None
  end.

(** [on], and what the function it returns does. *)
Definition on_event (a : A) (slots : list (option A)) : list (option A) := set_add a slots.
Definition off_event (a : A) (slots : list (option A)) : list (option A) := set_delete a slots.

Definition deletes_only (ops : list set_op) : Prop := Forall (λ o, match o with SetDelete _ => True | SetAdd _ => False end) ops.

(** Slots that only lose elements. *)
Definition shrunk (s s' : list (option A)) : Prop := Forall2 (λ x x', x' = x ∨ x' = None) s s'.

Lemma shrunk_refl s : shrunk s s.
Proof. unfold shrunk. induction s; constructor; auto. Qed.

Lemma shrunk_trans s1 s2 s3 : shrunk s1 s2 → shrunk s2 s3 → shrunk s1 s3.
Proof. intros H. revert s3. induction H as [|x y s1 s2 Hx H IH]; intros s3 H3; inversion H3; subst; constructor; [naive_solver|by apply IH]. Qed.

Lemma shrunk_delete a s : shrunk s (set_delete a s).
Proof. unfold shrunk, set_delete. induction s as [|x s IH]; [constructor|]. constructor; [|done]. case_bool_decide; auto. Qed.

Lemma shrunk_ops ops s : deletes_only ops → shrunk s (foldl apply_op s ops).
Proof.
  intros H. revert s. induction H as [|[a|a] ops Ho H IH]; intros s; [apply shrunk_refl|done|]. cbn [foldl]. eapply shrunk_trans; [apply shrunk_delete|apply IH].
Qed.

Lemma shrunk_present s s' : shrunk s s' → omap id s' `sublist_of` omap id s.
Proof.
  induction 1 as [|x y s s' Hx H IH]; [done|]. destruct x as [a|], Hx as [-> | ->]; cbn; [by constructor|by apply sublist_cons|done|done].
Qed.

(** From slot [i] on, while handlers are only deleted: the elements are called in
    order, each at most once, and all of those that are left. *)
Lemma visit_shrinking fuel i slots w :
  (∀ a w, deletes_only (invoke a w).1.2) → (length slots < fuel + i)%nat → (i ≤ length slots)%nat →
  ∃ slots' w' calls, visit fuel i slots w = Some (slots', w', calls) ∧ shrunk slots slots' ∧
    map fst calls `sublist_of` omap id (drop i slots) ∧
    ∀ j a, (i ≤ j)%nat → slots' !! j = Some (Some a) → a ∈ map fst calls.
Proof.
  intros Hd. revert i slots w. induction fuel as [|fuel IH]; intros i slots w Hf Hi; [lia|]. cbn [visit].
  assert (Hlt : ∀ x, slots !! i = Some x → (S i ≤ length slots)%nat) by (intros x Hx; apply lookup_lt_Some in Hx; lia). destruct (slots !! i) as [[a|]|] eqn:E.
  - specialize (Hlt _ eq_refl). specialize (Hd a w) as Ha. destruct (invoke a w) as [[w' ops] threw]. cbn in Ha. pose proof (shrunk_ops ops slots Ha) as Hs.
      pose proof (Forall2_length _ _ _ Hs) as Hlen.
      destruct (IH (S i) (foldl apply_op slots ops) w') as (s' & w'' & calls & -> & Hs' & Hsub & Hall); [lia|lia|].
      pose proof (shrunk_trans _ _ _ Hs Hs') as Ht. exists s', w'', ((a, threw) :: calls). split; [done|]. split; [done|]. split.
    + rewrite (drop_S _ _ _ E). cbn. constructor. etrans; [exact Hsub|]. apply shrunk_present. by apply Forall2_drop.
    + intros j b Hj Hb. cbn. destruct (decide (j = i)) as [->|]; [|right; apply (Hall j); [lia|done]].
        destruct (Forall2_lookup_l _ _ _ _ _ Ht E) as (y & Hy & Hor). destruct Hor; simplify_eq. by left.
  - specialize (Hlt _ eq_refl). destruct (IH (S i) slots w) as (s' & w'' & calls & -> & Hs' & Hsub & Hall); [lia|lia|].
      exists s', w'', calls. split; [done|]. split; [done|]. split; [by rewrite (drop_S _ _ _ E)|].
      intros j b Hj Hb. apply (Hall j); [|done]. destruct (decide (j = i)) as [->|]; [|lia].
      destruct (Forall2_lookup_l _ _ _ _ _ Hs' E) as (y & Hy & Hor). destruct Hor; simplify_eq.
  - exists slots, w, []. split; [done|]. split; [apply shrunk_refl|]. split; [apply sublist_nil_l|].
      intros j b Hj Hb. apply lookup_ge_None in E. apply lookup_lt_Some in Hb. lia.
Qed.

(** An event reaches the handlers: while none of them adds a handler, [emit]
    returns; the handlers are called in the order they were added, each at most
    once, and every one that is still there at the end was called, whatever others
    threw; then it is published on the telemetry channel if someone subscribed. *)
Theorem emit_reaches_all hasSubscribers slots w published :
  (∀ a w, deletes_only (invoke a w).1.2) →
  ∃ slots' w' calls, emit (S (length slots)) hasSubscribers slots w published = Some (slots', w', calls, publishTelemetry hasSubscribers published) ∧
    map fst calls `sublist_of` omap id slots ∧ omap id slots' `sublist_of` omap id slots ∧ ∀ a, Some a ∈ slots' → a ∈ map fst calls.
Proof.
  intros Hd. destruct (visit_shrinking (S (length slots)) 0 slots w Hd) as (s' & w' & calls & E & Hs & Hsub & Hall); [lia..|].
  exists s', w', calls. unfold emit. rewrite E. split; [done|]. split; [done|]. split; [by apply shrunk_present|].
  intros a (j & Hj)%list_elem_of_lookup. apply (Hall j); [lia|done].
Qed.
End js_set.

(** ** The constructor *)

(** [Own]: none is given, and a [MemoryStore] is made. *)
Inductive l1_option := Own | NoL1 | GivenL1 (budget : bool).

Record HybridCacheOptions := {
  h_cache : CacheOptions jsnum;
  h_eventDedupeMaxEntries : option jsnum;
  h_eventDedupeTtlMs : option jsnum;
  h_broadcastSetMaxBytes : option jsnum;
  h_eventNamespace : option (option jsstring);
  h_l1 : l1_option;
  h_l2 : bool;
  h_memoryBudget : bool;
  h_events : nat;
  h_eventBus : bool;
  h_subscribeToEvents : option bool;
  h_observability : option (bool + ObservabilityOptions) }.

(** Whether the parts can be made: the store, and whether it has a budget, the
    gates, and the listener of the dashboard's server. *)
Record parts := { pt_store : option bool; pt_l2Gate : bool; pt_originGate : bool; pt_listens : bool }.

Inductive ctor_error := BadOption (e : option_error) | BadNamespace | BadPart | BadObservability (message : jsstring).

(** [SListenStatus]: if the bus has [onStatus]. *)
Inductive ctor_step := SMemoryStore | SRegisterStale | SHandlers (n : nat) | SListenStatus | SSubscribe | SCollect | SServer | SWarn.

Record cache_frame := { f_ownsL1 : bool; f_l1 : bool; f_l2 : bool; f_staleRegistered : bool; f_maxActiveLeaders : Z; f_maxWaiters : Z;
  f_trusted : bool; f_subscribes : bool; f_collects : bool; f_server : bool }.

(** What it has done, and what it answers or throws. *)
Definition ctor (A : Type) : Type := list ctor_step * result ctor_error A.
Definition cret {A} (x : A) : ctor A := ([], Ok x).
Definition cthrow {A} (e : ctor_error) : ctor A := ([], Throw e).
Definition cdo (s : ctor_step) : ctor unit := ([s], Ok tt).
Definition cwhen (b : bool) (s : ctor_step) : ctor unit := if b then cdo s else cret tt.
Definition crequire (b : bool) (e : ctor_error) : ctor unit := if b then cret tt else cthrow e.
Definition clift {A} (r : result option_error A) : ctor A := match r with Ok x => cret x | Throw e => cthrow (BadOption e) end.
Definition cbind {A B} (m : ctor A) (k : A → ctor B) : ctor B :=
  match m with (l, Ok x) => let '(l', r) := k x in (l ++ l', r) | (l, Throw e) => (l, Throw e) end.

Definition namespace_ok (o : option (option jsstring)) : bool :=
  match o with Some (Some s) => well_formed s && (utf8_length s <=? 64 * 1024) | Some None => false | None => true end.

Section constructor.
Context (env : string → option jsstring) (now : Z).

(** [setupObservability]: whether a collector listens, and whether a server runs. *)
Definition setupObservability (listens : bool) (o : option (bool + ObservabilityOptions)) : ctor (bool * bool) :=
  match resolveObservabilityOptions env o with
  | Throw e => cthrow (BadObservability e)
  | Ok r =>
      if negb (r_enabled r) then cret (false, false)
      else
        match newCollector (r_maxEvents r) DEFAULT_OBSERVABILITY_MAX_STREAM_BYTES now with
        | Throw e => cthrow (BadObservability e)
        | Ok _ =>
            cbind (cdo SCollect) (λ _,
            let started := match r_server r with Some _ => listens | None => false end in
            cbind (cwhen started SServer) (λ _, cbind (cwhen (negb (r_quiet r)) SWarn) (λ _, cret (true, started))))
        end
  end.

Definition count_of (n : option jsnum) (default : Z) : Z := match n with Some n => num_floor n | None => default end.

(** [constructor] *)
Definition newHybridCache (p : parts) (o : HybridCacheOptions) : ctor cache_frame :=
  cbind (clift (validateCacheBudgets (h_cache o))) (λ _,
  cbind (clift (assertBudget "eventDedupeMaxEntries" (h_eventDedupeMaxEntries o) true MAX_BUDGET)) (λ _,
  cbind (clift (assertBudget "eventDedupeTtlMs" (h_eventDedupeTtlMs o) false MAX_BUDGET)) (λ _,
  cbind (clift (assertBudget "broadcastSetMaxBytes" (h_broadcastSetMaxBytes o) true MAX_BUDGET)) (λ _,
  cbind (crequire (namespace_ok (h_eventNamespace o)) BadNamespace) (λ _,
  cbind (match h_l1 o with
         | Own => match pt_store p with Some b => cbind (cdo SMemoryStore) (λ _, cret b) | None => cthrow BadPart end
         | GivenL1 b => cret b
         | NoL1 => cret false
         end) (λ l1_budget,
  let registers := (h_memoryBudget o || l1_budget) && negb (bool_decide (failSafe (h_cache o) ≫= fs_enabled = Some false)) in
  cbind (cwhen registers SRegisterStale) (λ _,
  cbind (crequire (pt_l2Gate p) BadPart) (λ _,
  cbind (crequire (pt_originGate p) BadPart) (λ _,
  cbind (cwhen (negb (h_events o =? 0)%nat) (SHandlers (h_events o))) (λ _,
  let subscribes := h_eventBus o && negb (bool_decide (h_subscribeToEvents o = Some false)) in
  cbind (cwhen subscribes SListenStatus) (λ _,
  cbind (cwhen subscribes SSubscribe) (λ _,
  cbind (setupObservability (pt_listens p) (h_observability o)) (λ obs,
  cret {| f_ownsL1 := match h_l1 o with Own => true | _ => false end; f_l1 := match h_l1 o with NoL1 => false | _ => true end; f_l2 := h_l2 o;
          f_staleRegistered := registers;
          f_maxActiveLeaders := count_of (originLoad (h_cache o) ≫= ol_maxConcurrent) DEFAULT_ORIGIN_MAX_CONCURRENT
                                + count_of (originLoad (h_cache o) ≫= ol_maxQueued) DEFAULT_ORIGIN_MAX_QUEUED;
          f_maxWaiters := count_of (inflight_options (h_cache o) ≫= if_maxWaiters) DEFAULT_MAX_WAITERS;
          f_trusted := negb subscribes; f_subscribes := subscribes; f_collects := obs.1; f_server := obs.2 |}))))))))))))).
End constructor.

(** [ready]; [subscription] is how the subscription settled. *)
Inductive ready_result := Ready | CacheClosed | SubscriptionFailed.

Definition ready (closed : bool) (subscription : bool) : ready_result := if closed then CacheClosed else if subscription then Ready else SubscriptionFailed.

(** [closeObservability]: the server is forgotten only once it has closed. *)
Definition closeObservability (server : bool) (closes : bool) : bool * bool := if server then if closes then (false, true) else (true, false) else (false, true).

(** ** The inspector *)

(** [sizes]: a layer that fails has no size. *)
Definition layer_size (layer : option (result jsval Z)) : option Z := match layer with Some (Ok n) => Some n | _ => None end.
Definition sizes (l1 l2 : option (result jsval Z)) : option Z * option Z := (layer_size l1, layer_size l2).

(** [inspectLayer]; [inspect]: the method of a store that has one, from the limit on
    a value. *)
Definition inspectLayer {A} (default : jsnum) (inspect : option (jsnum → A)) (maxValueBytes : option jsnum) : option A :=
  (λ f, f (maxValueBytes ?? default)) <$> inspect.

(** The part of [config] about the bus; [String] writes an error. *)
Record inspected_health := { bh_ok : bool; bh_transport : jsstring; bh_error : option jsstring }.

Definition config_bus (String : jsval → jsstring) (health : option (result jsval (bool * jsstring * option jsval))) : option jsstring * option inspected_health :=
  match health with
  | None => (None, None)
  | Some (Ok (ok, transport, error)) => (Some transport, Some {| bh_ok := ok; bh_transport := transport; bh_error := String <$> error |})
  | Some (Throw e) => (None, Some {| bh_ok := false; bh_transport := js "unknown"; bh_error := Some (String e) |})
  end.

(** ** The server *)

(** What [startObservabilityServer] answers a request, after the handler. *)
Definition server_answer {A} (handled : option A) (not_found : Z → jsstring → A) : A := match handled with Some a => a | None => not_found 404 (js "Not found") end.

Definition server_url (host port route : jsstring) : jsstring := js "http://" ++ host ++ js ":" ++ port ++ route.

(** ** Runs *)

Definition plain_options (observability : option (bool + ObservabilityOptions)) : HybridCacheOptions :=
  {| h_cache := CacheOptions.no_options; h_eventDedupeMaxEntries := None; h_eventDedupeTtlMs := None; h_broadcastSetMaxBytes := None; h_eventNamespace := None;
     h_l1 := Own; h_l2 := true; h_memoryBudget := true; h_events := 0; h_eventBus := true; h_subscribeToEvents := None; h_observability := observability |}.

Definition sound_parts : parts := {| pt_store := Some false; pt_l2Gate := true; pt_originGate := true; pt_listens := true |}.

Definition dashboard (autoStart : option bool) (clients : option jsnum) : ObservabilityOptions :=
  {| o_enabled := Some true; o_route := None; o_maxEvents := None; o_maxValueBytes := None; o_maxStreamClients := clients; o_maxStreamEventBytes := None;
     o_server := Some (Some {| so_host := None; so_port := None; so_autoStart := autoStart |}); o_auth := None; o_prometheus := None; o_quiet := None |}.

Example constructor_demo :
  (newHybridCache (λ _, None) 0 sound_parts (plain_options None)).1 = [SMemoryStore; SRegisterStale; SListenStatus; SSubscribe].
Proof. vm_compute. reflexivity. Qed.

(** The server is started although [autoStart] is [false]. *)
Lemma autostart_ignored :
  match newHybridCache (λ _, None) 0 sound_parts (plain_options (Some (inr (dashboard (Some false) None)))) with
  | (_, Ok f) => f_server f = true
  | (_, Throw _) => False
  end.
Proof. vm_compute. reflexivity. Qed.

(** A constructor that throws for an option of the dashboard has subscribed to the
    bus and registered with the budget: nobody can undo that. *)
Lemma failed_constructor_stays_subscribed :
  match newHybridCache (λ _, None) 0 sound_parts (plain_options (Some (inr (dashboard None (Some (JInt 0)))))) with
  | (l, Throw (BadObservability _)) => l = [SMemoryStore; SRegisterStale; SListenStatus; SSubscribe]
  | _ => False
  end.
Proof. vm_compute. reflexivity. Qed.

(** One handler that deletes the next one, and throws: the next is not called, the
    one after it is. *)
Definition toy_invoke (a : nat) (w : unit) : unit * list set_op * bool := if (a =? 1)%nat then (tt, [SetDelete 2%nat], true) else (tt, [], false).

Lemma emit_reaches_all_witness :
  emit toy_invoke 4 true [Some 1%nat; Some 2%nat; Some 3%nat] tt 0 = Some ([Some 1%nat; None; Some 3%nat], tt, [(1%nat, true); (3%nat, false)], 1%nat) ∧
  ∃ slots' w' calls, emit toy_invoke 4 true [Some 1%nat; Some 2%nat; Some 3%nat] tt 0 = Some (slots', w', calls, 1%nat) ∧
    map fst calls `sublist_of` [1%nat; 2%nat; 3%nat] ∧ omap id slots' `sublist_of` [1%nat; 2%nat; 3%nat] ∧ ∀ a, Some a ∈ slots' → a ∈ map fst calls.
Proof.
  split; [reflexivity|]. apply (emit_reaches_all toy_invoke true [Some 1%nat; Some 2%nat; Some 3%nat] tt 0).
  intros a w. unfold toy_invoke. destruct (a =? 1)%nat; repeat constructor.
Defined.
