(* ===== verification/BusHealth.v ===== *)
(** * Health of the event buses ([src/src/event-bus/redisEventBus.ts],
      [natsEventBus.ts], [rabbitmqEventBus.ts])

    [connect] and [healthCheck] of the Redis and the NATS bus, over how the
    client's promises settle, and the bounded teardown step of the NATS and the
    RabbitMQ bus. The health check of the RabbitMQ bus is in [RabbitEventBus.v]. *)

From S2P Require Import Prelude JsValue EventBus BusQueues HandlerQueue NatsEventBus Setup.

(** ** Promises *)

(** [Promise.all([a, b])]; [b_first]: [b] settles before [a]. *)
Definition all_two (b_first : bool) (a b : raced unit) : raced unit :=
  match a, b with
  | Resolved _, r => r
  | r, Resolved _ => r
  | Rejected e, Rejected e' => Rejected (if b_first then e' else e)
  | Rejected e, Late | Late, Rejected e => Rejected e
  | Late, Late => Late
  end.

Definition then_ {A} (a : raced unit) (b : raced A) : raced A :=
  match a with Resolved _ => b | Rejected e => Rejected e | Late => Late end.

Lemma then_resolved {A} a (b : raced A) x : then_ a b = Resolved x ↔ a = Resolved tt ∧ b = Resolved x.
Proof. destruct a as [[]| |]; cbn; naive_solver. Qed.

Lemma all_two_resolved f a b : all_two f a b = Resolved tt ↔ a = Resolved tt ∧ b = Resolved tt.
Proof. destruct a as [[]| |], b as [[]| |]; cbn; naive_solver. Qed.

(** ** Redis *)

(** A client: its status, whether it has [once], how its connection, the first of
    its events and its PING settle. *)
Record redis_client := { rc_status : redis_status; rc_once : bool; rc_connecting : raced unit; rc_first : raced unit; rc_ping : raced unit }.

(** [ensureConnected] *)
Definition ensureConnected (c : redis_client) : raced unit :=
  if negb (rc_once c) then Resolved tt else ensureRedisConnected (rc_status c) (rc_connecting c) (rc_first c).

(** [connect] *)
Definition redis_connect (order : bool * bool) (pub sub : redis_client) : raced unit :=
  then_ (all_two order.1 (ensureConnected pub) (ensureConnected sub)) (all_two order.2 (rc_ping pub) (rc_ping sub)).

Record redis_report := { rr_ok : bool; rr_channel : jsstring; rr_publisher : redis_status; rr_subscriber : redis_status; rr_error : option error }.

(** [healthCheck]; the statuses are those after [connect]. [None]: it waits. *)
Definition redis_healthCheck (order : bool * bool) (channel : jsstring) (pub sub : redis_client) (after : redis_status * redis_status) : option redis_report :=
  let report ok e := Some {| rr_ok := ok; rr_channel := channel; rr_publisher := after.1; rr_subscriber := after.2; rr_error := e |} in
  match redis_connect order pub sub with
  | Resolved _ => report true None
  | Rejected e => report false (Some e)
  | Late => None
  end.

(** A healthy report: both clients were connected, and both answered a PING. It
    never throws; an unhealthy one carries the error of a step that failed. *)
Lemma redis_health_exact order channel pub sub after r :
  redis_healthCheck order channel pub sub after = Some r →
  (rr_ok r = true ↔ ensureConnected pub = Resolved tt ∧ ensureConnected sub = Resolved tt ∧ rc_ping pub = Resolved tt ∧ rc_ping sub = Resolved tt) ∧
  (rr_ok r = false ↔ is_Some (rr_error r)).
Proof.
  unfold redis_healthCheck. assert (H := then_resolved (all_two order.1 (ensureConnected pub) (ensureConnected sub)) (all_two order.2 (rc_ping pub) (rc_ping sub)) tt).
  rewrite !all_two_resolved in H. fold (redis_connect order pub sub) in H. destruct (redis_connect order pub sub) as [[]|e|]; intros [= <-]; cbn.
  - split; [tauto|]. split; [done|]. by intros [].
  - split; [|by split; [eexists|]]. split; [done|]. intros Hx. assert (Hn : Rejected e = Resolved tt) by tauto. discriminate Hn.
Qed.

(** ** NATS *)

Inductive nats_mode := Core | JetStream.

(** How the steps of [connect] settle: the connection, then the flush, or the
    stream's and the consumer's resources. *)
Record nats_world := { nw_connection : raced unit; nw_flush : raced unit; nw_resources : raced unit; nw_server : option jsstring }.

Definition no_durable_name : error := {| is_setup_error := false; cause := None;
  value := VObj [(js "message", VStr (js "NatsEventBus JetStream mode requires jetstream.durableName for persistent per-instance delivery."))] |}.

(** [getDurableName]; an empty name is none. *)
Definition getDurableName (name : option jsstring) : result error jsstring := match name with Some ((_ :: _) as n) => Ok n | _ => Throw no_durable_name end.

(** [connect], apart from the state it changes. *)
Definition nats_connect (mode : nats_mode) (durable : option jsstring) (w : nats_world) : raced unit :=
  match mode with
  | Core => then_ (nw_connection w) (nw_flush w)
  | JetStream => match getDurableName durable with Throw e => Rejected e | Ok _ => then_ (nw_connection w) (nw_resources w) end
  end.

Record nats_report := { nr_ok : bool; nr_mode : nats_mode; nr_subject : jsstring; nr_server : option jsstring; nr_stream : option jsstring;
  nr_durable : option jsstring; nr_lost : bool; nr_error : option error }.

(** [healthCheck]; [lost] is [subscriptionLost] after [connect]. *)
Definition nats_healthCheck (mode : nats_mode) (subject stream : option jsstring) (durable : option jsstring) (w : nats_world) (lost : bool) : option nats_report :=
  let subject := subject ?? js "cache.invalidations" in
  let stream := match mode with JetStream => Some (stream ?? js "CACHE_INVALIDATIONS") | Core => None end in
  let name := match mode with JetStream => durable | Core => None end in
  match nats_connect mode durable w with
  | Resolved _ => Some {| nr_ok := negb lost; nr_mode := mode; nr_subject := subject; nr_server := nw_server w; nr_stream := stream; nr_durable := name; nr_lost := lost; nr_error := None |}
  | Rejected e => Some {| nr_ok := false; nr_mode := mode; nr_subject := subject; nr_server := None; nr_stream := stream; nr_durable := name; nr_lost := false; nr_error := Some e |}
  | Late => None
  end.

(** A healthy report: the bus connected, its server answered, and the subscription
    is not lost. *)
Lemma nats_health_exact mode subject stream durable w lost r :
  nats_healthCheck mode subject stream durable w lost = Some r →
  nr_ok r = true ↔ lost = false ∧ nw_connection w = Resolved tt ∧
    match mode with Core => nw_flush w = Resolved tt | JetStream => nw_resources w = Resolved tt ∧ durable ≠ None ∧ durable ≠ Some [] end.
Proof.
  unfold nats_healthCheck, nats_connect, getDurableName.
  assert (Hr : ∀ x, then_ (nw_connection w) x = Resolved tt ↔ nw_connection w = Resolved tt ∧ x = Resolved tt) by (intros; apply then_resolved).
  destruct mode; [|destruct durable as [[|c n]|]; [intros [= <-]; cbn; intuition congruence| |intros [= <-]; cbn; intuition congruence]].
  - specialize (Hr (nw_flush w)). destruct (then_ _ _) as [[]|e|]; intros [= <-]; cbn; destruct lost; cbn; intuition congruence.
  - specialize (Hr (nw_resources w)). destruct (then_ _ _) as [[]|e|]; intros [= <-]; cbn; destruct lost; cbn; intuition congruence.
Qed.

(** ** Teardown *)

(** [closeQuietly]: the step is over when it settles or its deadline passes, and
    nothing is thrown; the answer tells whether a warning is logged. *)
Definition closeQuietly (step : raced unit) : bool := match step with Resolved _ => false | Rejected _ | Late => true end.

(** ** A health check is not a mere observation

    After [disconnect], the [connect] of a health check makes the NATS bus dial
    again and counts it as open; [delivering] nothing, it keeps the connection. *)
Lemma health_check_reopens_bus limits :
  let s1 := foldl (λ s e, (nats_step limits s e).1) (newNatsEventBus false) [GetConnection; Dialled true; NatsEventBus.Disconnect] in
  let s2 := foldl (λ s e, (nats_step limits s e).1) s1 [Connect; Dialled true; Connected] in
  live (link s1) = [] ∧ closed (flow s1) = true ∧ live (link s2) = [2%nat] ∧ closed (flow s2) = false ∧ subscription s2 = None.
Proof. vm_compute. split_and!; reflexivity. Qed.
