(* ===== verification/StoreInspection.v ===== *)
(** * Looking into the stores ([inspect] of [src/src/cache/memoryStore.ts] and
      [redisStore.ts])

    One page of keys for the dashboard, with their sizes and previews of their
    values. The page of a SCAN or ZSCAN, its next cursor and its members, is an
    argument, as are the decoders ([Serializer.v]). *)

From S2P Require Import Prelude JsValue Pattern WirePolicy MessagePackScan Codecs Serializer ObsOptions Lru MemoryStore RedisKeys RedisServer RedisLease RedisStore RedisStoreOk.

Record inspect_options := {
  q_cursor : option jsstring; q_limit : option jsnum; q_match : option jsstring; q_includeValues : option bool; q_maxValueBytes : option jsnum }.

Record KeyInspection := {
  ki_key : jsstring; ki_ttl : option jsnum; ki_serialized : jsnum; ki_deserialized : Z; ki_ratio : f64; ki_encoding : CacheEncoding;
  ki_value : option jsval; ki_truncated : bool }.

(** The encoding a tag names. *)
Definition encoding_of (raw : bytes) : CacheEncoding :=
  let tag := ascii_decode (take 4 raw) in
  match codecByTag tag with
  | Some c => EMsgpackWith c
  | None => if bool_decide (tag = js "HC1M") then EMsgpack else if bool_decide (tag = js "HC1J") then EJson else ELegacy
  end.

Definition includes (o : inspect_options) : bool := negb (bool_decide (q_includeValues o = Some false)).

Section inspect.
Context (N : Natives) (F : Formats) (number_length : jsnum → Z) (configured : ResolvedDecodeLimits).

(** [decodeCacheRecord] with at most [most] expanded bytes; a miss, or what it
    throws for limits that are not valid, is [None]. *)
Definition decode_within (most : Z) (raw : bytes) : option jsval :=
  match decodeCacheRecord N F raw (resolved_options {| maxEncodedBytes := maxEncodedBytes configured; maxDecodedBytes := Z.min most (maxDecodedBytes configured);
    maxDepth := maxDepth configured; maxCollectionLength := maxCollectionLength configured; maxTotalValues := maxTotalValues configured |}) with
  | Ok v => v
  | Throw _ => None
  end.

(** ** The in-memory store *)

Section memory.
Context {K C : Type} `{EqDecision K} `{LruOps K Entry C} (String : K → jsstring).

Definition memory_limit (o : inspect_options) : nat :=
  let requested := q_limit o ?? JInt 100 in
  if num_is_finite requested then Z.to_nat (Z.min 1000 (Z.max 1 (num_floor requested))) else 100%nat.

(** [Math.max(0, Number.parseInt(cursor, 10) || 0)] *)
Definition memory_offset (o : inspect_options) : nat := Z.to_nat (num_floor (parse_int (q_cursor o ?? js "0"))).

(** One key; [most] is [maxValueBytes], absent when it is not a positive finite
    number. *)
Definition memory_key (now : Z) (o : inspect_options) (c : C) (k : K) (e : Entry) : KeyInspection :=
  let originalBytes := e_originalBytes e ?? byte_len (e_buffer e) in
  let maxValueBytes := q_maxValueBytes o ?? JInt (256 * 1024) in
  let value :=
    match e_originalBytes e with
    | None => None
    | Some n =>
        if negb (num_is_finite maxValueBytes) || (num_floor maxValueBytes <? 1) || (num_floor maxValueBytes <? n) then None
        else decode_within (num_floor maxValueBytes) (e_buffer e)
    end in
  {| ki_key := String k; ki_ttl := Some (match lru_remaining now k c with Some t => JInt t | None => JInt (-1) end);
     ki_serialized := JInt (byte_len (e_buffer e)); ki_deserialized := originalBytes;
     ki_ratio := sizeSavings (byte_len (e_buffer e)) originalBytes; ki_encoding := encoding_of (e_buffer e);
     ki_value := if includes o then value else None; ki_truncated := includes o && negb (bool_decide (is_Some value)) |}.

Definition key_matches (o : inspect_options) (k : K) : bool :=
  match q_match o with Some ((_ :: _) as p) => matchesPattern (String k) p | _ => true end.

(** The loop over [cache.keys()]. *)
Fixpoint memory_page (now : Z) (o : inspect_options) (c : C) (offset limit : nat) (keys : list K) (index : nat) (kept : list KeyInspection) : list KeyInspection :=
  match keys with
  | [] => kept
  | k :: keys =>
      if negb (key_matches o k) then memory_page now o c offset limit keys index kept
      else if (index <? offset)%nat then memory_page now o c offset limit keys (S index) kept
      else if (length kept =? limit)%nat then kept
      else match lru_peek now k c with
      | None => memory_page now o c offset limit keys (S index) kept
      | Some e => memory_page now o c offset limit keys (S index) (kept ++ [memory_key now o c k e])
      end
  end.

Record StoreInspection := { si_size : Z; si_cursor : option jsstring; si_keys : list KeyInspection }.

(** [inspect] of the memory store; [None]: it is closed. *)
Definition memory_inspect (now : Z) (o : inspect_options) (cache : option C) : StoreInspection :=
  match cache with
  | None => {| si_size := 0; si_cursor := None; si_keys := [] |}
  | Some c =>
      let limit := memory_limit o in let offset := memory_offset o in
      let keys := memory_page now o c offset limit (lru_keys now c) 0 [] in
      {| si_size := Z.of_nat (length (lru_entries c));
         si_cursor := if (length keys =? limit)%nat then Some (dec (Z.of_nat (offset + length keys))) else None; si_keys := keys |}
  end.

(** *** Pages *)

(** The keys a page is about. *)
Definition page_matching (now : Z) (o : inspect_options) (c : C) : list K := filter (λ k, key_matches o k = true) (lru_keys now c).

Lemma memory_page_spec now o c offset limit keys index kept :
  (∀ k, k ∈ keys → is_Some (lru_peek now k c)) → (length kept ≤ limit)%nat →
  map ki_key (memory_page now o c offset limit keys index kept) =
  map ki_key kept ++ take (limit - length kept) (drop (offset - index) (String <$> filter (λ k, key_matches o k = true) keys)).
Proof.
  revert index kept. induction keys as [|k keys IH]; intros index kept Hk Hl; [cbn; by rewrite drop_nil, take_nil, app_nil_r|].
  assert (Hk' : ∀ k, k ∈ keys → is_Some (lru_peek now k c)) by (intros; apply Hk; by right).
  cbn [memory_page]. rewrite filter_cons. destruct (key_matches o k) eqn:Em; cbn [negb]; [|rewrite decide_False by done; by apply IH].
  rewrite decide_True by done. rewrite fmap_cons. destruct (index <? offset)%nat eqn:Eo.
  - apply Nat.ltb_lt in Eo. rewrite IH by done. do 2 f_equal. replace (offset - index)%nat with (S (offset - S index)) by lia. done.
  - apply Nat.ltb_ge in Eo. replace (offset - index)%nat with 0%nat by lia. cbn [drop]. destruct (length kept =? limit)%nat eqn:El.
    + apply Nat.eqb_eq in El. replace (limit - length kept)%nat with 0%nat by lia. by rewrite app_nil_r.
    + apply Nat.eqb_neq in El. destruct (Hk k ltac:(by left)) as [e ->]. rewrite IH by (done || (rewrite length_app; cbn; lia)).
      rewrite map_app, length_app, <- app_assoc. cbn. replace (offset - S index)%nat with 0%nat by lia.
      replace (limit - length kept)%nat with (S (limit - (length kept + 1))) by lia. done.
Qed.

(** The pages from a cursor on, while the store does not change. *)
Fixpoint memory_pages (fuel : nat) (now : Z) (o : inspect_options) (c : C) : option (list jsstring) :=
  match fuel with
  | O => None
  | S fuel =>
      let page := memory_inspect now o (Some c) in
      match si_cursor page with
      | None => Some (map ki_key (si_keys page))
      | Some next => app (map ki_key (si_keys page)) <$>
          memory_pages fuel now {| q_cursor := Some next; q_limit := q_limit o; q_match := q_match o; q_includeValues := q_includeValues o; q_maxValueBytes := q_maxValueBytes o |} c
      end
  end.


Lemma leading_digits_all s : forallb is_digit s = true → leading_digits s = s.
Proof. induction s as [|c s IH]; [done|]. cbn. intros [Hc Hs]%andb_prop. by rewrite Hc, IH. Qed.

Lemma forallb_dec_fuel n z : 0 <= z → forallb is_digit (dec_fuel n z) = true.
Proof.
  assert (Hd : ∀ d, 0 <= d < 10 → is_digit (48 + d) = true) by (intros d Hd; unfold is_digit; apply andb_true_intro; rewrite !Z.leb_le; lia).
  revert z. induction n as [|n IH]; intros z Hz; cbn [dec_fuel].
  - cbn. rewrite Hd by (apply Z.mod_pos_bound; lia). done.
  - destruct (z <? 10) eqn:E; bools; [cbn; by rewrite Hd by lia|]. rewrite forallb_app, IH by (apply Z.div_pos; lia). cbn.
    rewrite Hd by (apply Z.mod_pos_bound; lia). done.
Qed.

Lemma parse_int_dec z : 0 <= z → parse_int (dec z) = JInt z.
Proof.
  intros Hz. pose proof (forallb_dec_fuel (Z.to_nat (Z.log2 z)) z Hz) as Hd. fold (dec z) in Hd. pose proof (parse_dec_dec z Hz) as Hp.
  assert (Hne : dec z ≠ []) by (intros E; pose proof (dec_canonical z Hz) as Hc; by rewrite E in Hc).
  unfold parse_int. destruct (dec z) as [|c s]; [done|]. pose proof Hd as Hc. cbn in Hc. apply andb_prop in Hc as [Hc _].
  assert (Hr : 48 <= c <= 57) by (unfold is_digit in Hc; bools; lia).
  assert (Ht : trim_start (c :: s) = c :: s).
  { cbn. assert (Hs : js_space c = false) by (unfold js_space; repeat (apply orb_false_intro); try apply andb_false_iff; rewrite ?Z.leb_gt, ?Z.eqb_neq; lia). by rewrite Hs. }
  rewrite Ht. assert (E : match c :: s with 45 :: u => (-1, u) | 43 :: u => (1, u) | _ => (1, c :: s) end = (1, c :: s)).
  { clear -Hr. destruct c as [|p|p]; try lia. do 6 (destruct p as [p|p|]; try lia; try done). }
  rewrite E, leading_digits_all by done. rewrite Hp. by rewrite Z.mul_1_l.
Qed.

(** C39: paging through an unchanged in-memory store shows every matching key once,
    in the store's order, whatever the page size; one page per [limit] keys, and at
    most one empty page at the end. *)
Theorem memory_pages_complete now o c :
  (∀ k, k ∈ lru_keys now c → is_Some (lru_peek now k c)) →
  memory_pages (S (length (page_matching now o c))) now o c = Some (drop (memory_offset o) (String <$> page_matching now o c)).
Proof.
  intros Hk. set (l := String <$> page_matching now o c). assert (Hlen : length (page_matching now o c) = length l) by (unfold l; by rewrite length_fmap).
  rewrite Hlen. assert (H1 : (1 ≤ memory_limit o)%nat) by (unfold memory_limit; destruct (num_is_finite _); lia).
  enough (Hall : ∀ fuel o', q_limit o' = q_limit o → q_match o' = q_match o → (length (drop (memory_offset o') l) < fuel)%nat →
    memory_pages fuel now o' c = Some (drop (memory_offset o') l)) by (apply Hall; [done..|]; rewrite length_drop; lia).
  induction fuel as [|fuel IH]; intros o' Hq Hm Hf; [lia|]. cbn [memory_pages].
  assert (Hlim : memory_limit o' = memory_limit o) by (unfold memory_limit; by rewrite Hq).
  assert (Hp : map ki_key (memory_page now o' c (memory_offset o') (memory_limit o') (lru_keys now c) 0 []) = take (memory_limit o) (drop (memory_offset o') l)).
  { rewrite memory_page_spec by (done || (cbn; lia)). cbn [map length app]. rewrite !Nat.sub_0_r, Hlim. do 2 f_equal. unfold l, page_matching, key_matches. by rewrite Hm. }
  unfold memory_inspect. cbn [si_cursor si_keys].
  assert (Hn : length (memory_page now o' c (memory_offset o') (memory_limit o') (lru_keys now c) 0 []) = length (take (memory_limit o) (drop (memory_offset o') l)))
    by (rewrite <- Hp; by rewrite length_map).
  rewrite Hp, Hn, Hlim, length_take. destruct (Nat.min _ _ =? _)%nat eqn:E.
  - apply Nat.eqb_eq in E. cbn [si_cursor].
    set (o2 := {| q_cursor := Some _; q_limit := _; q_match := _; q_includeValues := _; q_maxValueBytes := _ |}).
    assert (Ho : memory_offset o2 = (memory_offset o' + memory_limit o)%nat).
    { unfold memory_offset at 1, o2. cbn [q_cursor from_option]. unfold id.  rewrite parse_int_dec by lia. rewrite num_floor_JInt. lia. }
    rewrite (IH o2) by (done || (rewrite Ho, <- drop_drop, length_drop; lia)). cbn. rewrite Ho, <- drop_drop. by rewrite take_drop.
  - apply Nat.eqb_neq in E. cbn [si_cursor]. rewrite take_ge by lia. done.
Qed.

End memory.

(** ** The Redis store *)

Section redis.
Context (so : RedisStoreOptions) (client : RedisClient) (to_number : rreply → jsnum) (to_buffer : rreply → option bytes) (o : inspect_options).

Definition redis_limit : Z := match q_limit o with Some n => if num_lt (JInt 0) n then num_floor n else 100 | None => 100 end.

Definition preview_bytes : jsnum := q_maxValueBytes o ?? JInt (256 * 1024).

(** The members of a ZSCAN reply, without their scores. *)
Fixpoint members (l : list jsstring) : list jsstring := match l with k :: _ :: l' => k :: members l' | [k] => [k] | [] => [] end.

Definition snapshot_cap : Z :=
  if includes o && num_is_safe_integer preview_bytes && num_lt (JInt 0) preview_bytes then Z.min (num_floor preview_bytes) (so_maxEncodedBytes so) else 0.

(** A key whose value is not shown. *)
Definition bare_key (redisKey : jsstring) (ttl : option jsnum) (stored : jsnum) (encoding : CacheEncoding) (truncated : bool) : KeyInspection :=
  {| ki_key := toLogicalKey (lay so) redisKey; ki_ttl := ttl; ki_serialized := stored; ki_deserialized := 0; ki_ratio := f64_zero; ki_encoding := encoding;
     ki_value := None; ki_truncated := truncated |}.

(** A key with what its value decodes to. *)
Definition shown_key (redisKey : jsstring) (ttl : option jsnum) (stored : jsnum) (raw : bytes) (most : Z) : KeyInspection :=
  match decode_within most raw with
  | None => bare_key redisKey ttl stored (encoding_of raw) true
  | Some v =>
      let n := estimateValueBytes F number_length v in
      {| ki_key := toLogicalKey (lay so) redisKey; ki_ttl := ttl; ki_serialized := stored; ki_deserialized := n; ki_ratio := sizeSavings (num_floor stored) n;
         ki_encoding := encoding_of raw; ki_value := Some v; ki_truncated := false |}
  end.

(** With server snapshots: one each, bounded on the server. *)
Definition inspect_snapshot (redisKey : jsstring) : prog KeyInspection :=
  s <- readRawSnapshot so client to_number to_buffer redisKey snapshot_cap ;;
  PRet (if negb (includes o) then bare_key redisKey (Some (sn_ttl s)) (sn_size s) ELegacy false
        else match sn_raw s with
        | Some raw => if (snapshot_cap =? 0) || sn_oversized s then bare_key redisKey (Some (sn_ttl s)) (sn_size s) ELegacy true
                      else shown_key redisKey (Some (sn_ttl s)) (sn_size s) raw snapshot_cap
        | None => bare_key redisKey (Some (sn_ttl s)) (sn_size s) ELegacy true
        end).

Fixpoint collect {A B} (f : A → prog B) (l : list A) : prog (list B) :=
  match l with [] => PRet [] | a :: l' => b <- f a ;; bs <- collect f l' ;; PRet (b :: bs) end.

(** Without them: one pipeline, and its replies in order. *)
Fixpoint exec (cs : list command) (done : list answer) : prog (list answer) :=
  match cs with [] => PRet (rev done) | c :: cs' => PCall Direct c (λ r, exec cs' (r :: done)) end.

Definition piped (redisKey : jsstring) : list command := CPttl (wire redisKey) :: if includes o then [CGet (wire redisKey)] else [].

(** One key, from its replies. *)
Definition piped_key (redisKey : jsstring) (ttlReply : option answer) (value : option answer) : KeyInspection :=
  let ttl := match ttlReply with Some (Replied (IntReply n)) => Some (JInt n) | _ => None end in
  match value with
  | Some (Replied (BulkReply raw)) =>
      let bytes := JInt (byteLength raw) in
      if negb (num_is_safe_integer preview_bytes) || num_lt preview_bytes (JInt 1) || num_lt preview_bytes bytes then bare_key redisKey ttl bytes (encoding_of raw) true
      else shown_key redisKey ttl bytes raw (num_floor preview_bytes)
  | _ => bare_key redisKey ttl (JInt 0) ELegacy false
  end.

Fixpoint piped_keys (keys : list jsstring) (results : list answer) : list KeyInspection :=
  match keys with
  | [] => []
  | k :: keys =>
      if includes o then piped_key k (results !! 0%nat) (results !! 1%nat) :: piped_keys keys (drop 2 results)
      else piped_key k (results !! 0%nat) None :: piped_keys keys (drop 1 results)
  end.

(** The keys of a page the answer is about. *)
Definition page_keys (found : list jsstring) : list jsstring :=
  take (Z.to_nat redis_limit) (data_matching so (q_match o ?? js "*") (if useIndex so then members found else found)).

Record RedisInspection := { ri_size : jsnum; ri_cursor : option jsstring; ri_keys : list KeyInspection }.

(** [inspect]; [page]: what the scan answers, [pages]: those that [size] reads. *)
Definition redis_inspect (page : jsstring * list jsstring) (pages : list (list jsstring)) : prog RedisInspection :=
  _ <- (if useIndex so then pruneExpiredIndexMembers so client else PRet tt) ;;
  size <- store_size so client to_number pages ;;
  let keys := page_keys page.2 in
  shown <- (if bool_decide (keys = []) then PRet []
            else if supportsServerSnapshot so client then collect inspect_snapshot keys
            else (results <- exec (mjoin (map piped keys)) [] ;; _ <- validateRedisPipeline 0 results ;; PRet (piped_keys keys results))) ;;
  PRet {| ri_size := size; ri_cursor := if bool_decide (page.1 = js "0") then None else Some page.1; ri_keys := shown |}.

(** *** What a page asks and shows *)

(** The commands an inspection may send about [keys]. *)
Definition reads (keys : list jsstring) (c : command) : Prop :=
  match c with
  | CScript (Snapshot k (Some cap)) => k ∈ wire <$> keys ∧ cap = snapshot_cap
  | CGet k | CPttl k => k ∈ wire <$> keys
  | CIndex z ZCard | CIndex z (ZRemRangeByScore _) => z = index_key so
  | _ => False
  end.

Definition hides (k : KeyInspection) : Prop := includes o = false → ki_value k = None.

Lemma sends_collect {A B} P (Q : A → B → Prop) (f : A → prog B) l : (∀ a, a ∈ l → sends P (Q a) (f a)) → sends P (Forall2 Q l) (collect f l).
Proof.
  induction l as [|a l IH]; intros Hf; [by constructor|]. cbn. eapply sends_bind; [apply Hf; by left|]. intros b Hb.
  eapply sends_bind; [apply IH; intros; apply Hf; by right|]. intros bs Hbs. by constructor.
Qed.

Lemma sends_exec P (cs : list command) done : Forall P cs → sends P (λ r, length r = length done + length cs)%nat (exec cs done).
Proof.
  revert done. induction cs as [|c cs IH]; intros done H; cbn; [by rewrite length_rev, Nat.add_0_r|]. apply Forall_cons in H as [Hc H]. split; [done|].
  intros a _. eapply sends_weaken; [by apply IH|]. cbn. intros; lia.
Qed.

Lemma sends_validate P n results : sends P any (validateRedisPipeline n results).
Proof. revert n. induction results as [|[r|e] results IH]; intros n; cbn; [done|apply IH|done]. Qed.

Lemma raw_of_pure P r : sends P any (raw_of to_buffer r).
Proof. unfold raw_of. repeat case_match; done. Qed.

Lemma sends_snapshot keys k : k ∈ keys → sends (reads keys) any (readRawSnapshot so client to_number to_buffer k snapshot_cap).
Proof.
  intros Hk. assert (Hw : wire k ∈ wire <$> keys) by (by apply list_elem_of_fmap_2). unfold readRawSnapshot. destruct (supportsServerSnapshot so client).
  - eapply sends_bind; [apply sends_script; by split|]. intros r _. eapply sends_bind; [apply raw_of_pure|]. done.
  - eapply sends_bind; [by apply sends_call|]. intros r _. eapply sends_bind; [apply raw_of_pure|]. intros raw _.
    eapply (sends_bind _ any); [|intros ttl _; exact I]. destruct (hasPttl client); [|exact I]. eapply sends_bind; [by apply sends_call|]. by intros.
Qed.

Lemma bare_logical k ttl n e b : ki_key (bare_key k ttl n e b) = toLogicalKey (lay so) k ∧ hides (bare_key k ttl n e b).
Proof. done. Qed.

Lemma shown_logical k ttl n raw most : ki_key (shown_key k ttl n raw most) = toLogicalKey (lay so) k.
Proof. unfold shown_key. by destruct (decode_within most raw). Qed.

Lemma piped_logical k a v : (includes o = false → v = None) → ki_key (piped_key k a v) = toLogicalKey (lay so) k ∧ hides (piped_key k a v).
Proof.
  intros Hv. unfold piped_key. generalize (match a with Some (Replied (IntReply n)) => Some (JInt n) | _ => None end) as ttl. intros ttl.
  destruct v as [[[| |raw| |]|]|]; try apply bare_logical. destruct (_ || _); [apply bare_logical|]. split; [apply shown_logical|]. intros Hi. by apply Hv in Hi.
Qed.

Lemma piped_keys_shown keys results : Forall2 (λ k i, ki_key i = toLogicalKey (lay so) k ∧ hides i) keys (piped_keys keys results).
Proof.
  revert results. induction keys as [|k keys IH]; intros results; [by constructor|]. cbn [piped_keys]. destruct (includes o) eqn:E; (constructor; [|apply IH]);
    apply piped_logical; by rewrite E.
Qed.

Lemma sends_prune_reads keys : sends (reads keys) any (pruneExpiredIndexMembers so client).
Proof.
  unfold pruneExpiredIndexMembers. destruct (_ && _); [|done]. intros t. apply sends_catch; [|done]. eapply sends_bind; [by apply sends_call|done].
Qed.

(** An inspection of Redis reads, and no more than the page: whatever the server
    answers, the only commands are the pruning and the count of the index and, for
    keys of the page, a snapshot bounded by the preview size, a TTL or a value. The
    page has at most [limit] keys, all data keys of this store whose logical key
    matches, each shown once under that key, and without values unless asked. *)
Theorem redis_page_bounded page pages :
  let keys := page_keys page.2 in
  sends (reads keys) (λ r, Forall2 (λ k i, ki_key i = toLogicalKey (lay so) k ∧ hides i) keys (ri_keys r)) (redis_inspect page pages) ∧
  Z.of_nat (length keys) <= Z.max 0 redis_limit ∧
  (∀ k, k ∈ keys → ∃ logicalKey, parseRedisKey (lay so) k = Some (Data, logicalKey) ∧ matchesPattern logicalKey (q_match o ?? js "*") = true) ∧
  (includes o = true → snapshot_cap <= Z.max 0 (num_floor preview_bytes)).
Proof.
  cbv zeta. set (keys := page_keys page.2). split; [|split; [|split]].
  - unfold redis_inspect. eapply (sends_bind _ any); [destruct (useIndex so); [apply sends_prune_reads|exact I]|]. intros _ _.
    eapply (sends_bind _ any).
    { unfold store_size. destruct (useIndex so); [|done]. eapply sends_bind; [apply sends_prune_reads|]. intros _ _. eapply sends_bind; [by apply sends_call|done]. }
    intros size _. fold keys. eapply (sends_bind _ (Forall2 (λ k i, ki_key i = toLogicalKey (lay so) k ∧ hides i) keys)); [|intros l Hl; exact Hl]. case_bool_decide as Hn; [rewrite Hn; by constructor|].
    destruct (supportsServerSnapshot so client) eqn:Es.
    + apply sends_collect. intros k Hk. unfold inspect_snapshot. eapply sends_bind; [by apply sends_snapshot|]. intros s _. cbn.
      destruct (includes o) eqn:Ei; cbn [negb]; [|by apply bare_logical]. repeat case_match; try apply bare_logical. split; [apply shown_logical|]. intros Hi. by rewrite Ei in Hi.
    + eapply sends_bind; [apply sends_exec|].
      { apply Forall_forall. intros c (cs & Hc & Hcs)%list_elem_of_join. apply list_elem_of_fmap_1 in Hcs as (k & -> & Hk).
        assert (Hw : wire k ∈ wire <$> keys) by (by apply list_elem_of_fmap_2). unfold piped in Hc. apply elem_of_cons in Hc as [->|Hc]; [exact Hw|]. destruct (includes o); [|by apply not_elem_of_nil in Hc]. apply elem_of_cons in Hc as [->|Hc]; [exact Hw|by apply not_elem_of_nil in Hc]. }
      intros results _. eapply sends_bind; [apply sends_validate|]. intros _ _. apply piped_keys_shown.
  - unfold keys, page_keys. rewrite length_take. lia.
  - intros k Hk. unfold keys, page_keys in Hk. apply subseteq_take in Hk. unfold data_matching in Hk. apply list_elem_of_filter in Hk as [Hk _].
    destruct (parseRedisKey (lay so) k) as [[[] logicalKey]|]; [eauto|done..].
  - intros Hi. unfold snapshot_cap. rewrite Hi. cbn [andb]. case_match; lia.
Qed.
End redis.
End inspect.

(** ** Runs *)

#[local] Instance page_ops : LruOps jsstring Entry (list_lru jsstring Entry) := list_lru_ops 3.

Definition toy_entry : Entry := {| e_buffer := [1; 2]; e_bytes := 162; e_originalBytes := None |}.

Definition toy_cache : list_lru jsstring Entry := {| ll_entries := map (λ k, (js k, (toy_entry, 1000))) ["u:1"; "x"; "u:2"; "u:3"]%string |}.

Definition two_per_page : inspect_options :=
  {| q_cursor := None; q_limit := Some (JInt 2); q_match := Some (js "u:*"); q_includeValues := Some false; q_maxValueBytes := None |}.

Lemma memory_pages_complete_witness :
  memory_pages toy_natives toy_formats default_limits id 4 5 two_per_page toy_cache = Some [js "u:3"; js "u:2"; js "u:1"].
Proof.
  assert (Hk : ∀ k, k ∈ lru_keys 5 toy_cache → is_Some (lru_peek 5 k toy_cache)).
  { intros k Hk. vm_compute in Hk. repeat (apply elem_of_cons in Hk as [->|Hk]; [vm_compute; by eexists|]). by apply not_elem_of_nil in Hk. }
  pose proof (memory_pages_complete toy_natives toy_formats default_limits id 5 two_per_page toy_cache Hk) as Hp.
  assert (E : length (page_matching id 5 two_per_page toy_cache) = 3%nat) by (vm_compute; reflexivity). rewrite E in Hp. rewrite Hp. vm_compute. reflexivity.
Defined.

(** A scan may answer with more keys than it was asked for: those beyond the limit
    are left out, and the cursor goes on behind them. *)
Lemma inspect_skips_keys :
  let o := {| q_cursor := None; q_limit := Some (JInt 1); q_match := None; q_includeValues := Some false; q_maxValueBytes := None |} in
  let found := [toRedisKey (lay (demo_options false)) (js "a"); toRedisKey (lay (demo_options false)) (js "b")] in
  page_keys (demo_options false) o found = [toRedisKey (lay (demo_options false)) (js "a")].
Proof. vm_compute. reflexivity. Qed.
